(* ===== verification/_CoqProject ===== *)
-Q . S2P
Prelude.v
Text.v
Effects.v
Protocol.v
Storage.v
RecordCache.v
RecordStore.v
RecordStoreFacts.v
RecordStoreProps.v
ReplicationFetcher.v
FetcherProps.v
MerkleTree.v
MerkleTreeProps.v
Payments.v
PaymentsProps.v
PutValidation.v
PutValidationFacts.v
PutValidationProps.v
NetworkWideReplication.v
Driver.v
DriverProps.v
VersionGate.v
Multiaddr.v
RelayManager.v
ExternalAddress.v
Connections.v
ConnectionsProps.v
NetworkDiscovery.v
BootstrapCache.v
BootstrapCacheProps.v
Bootstrap.v
BootstrapProps.v
DoNotDisturb.v
CloseGroupTracker.v
CloseGroupTrackerProps.v
Messages.v
NodeQueries.v
StorageChallenge.v
NodeEvents.v
TaskHandler.v
TaskHandlerProps.v
ClientNetwork.v
ClientNetworkProps.v
Requests.v
NodeNetwork.v
ClientPayment.v
ClientData.v
ClientRegister.v
ClientExamples.v
ClientPaymentProps.v
ClientDataProps.v
ClientRegisterProps.v
Encryption.v
ClientChunks.v
ClientUpload.v
ClientUploadProps.v
ClientReadProps.v
ClientMerkle.v
ClientMerkleProps.v
ClientUploadExamples.v
Amount.v
Transactions.v
Wallet.v
WalletProps.v
Files.v
FilesProps.v
FilesExamples.v
Vault.v
VaultProps.v
NodeQueriesProps.v
StorageChallengeProps.v
NodeEventsProps.v
ServiceManagement.v
ServiceManager.v
AddServices.v
NodeCommands.v
ServiceManagerProps.v
NodeCommandsProps.v
NodeManagerExamples.v
Upgrade.v
