(* ===== verification/Prelude.v ===== *)
(** * Verification of the Autonomi node and client network

    Autonomi is a peer-to-peer network that stores records for clients who pay for them. A node
    keeps the records closest to it, checks what clients upload and peers replicate, quotes prices
    and verifies payments on an EVM chain; a client asks the nodes closest to an address and believes
    what enough of them say. This library models what a record is, how it is validated, stored,
    fetched, served, challenged and paid for, whom a node talks to, and how a client asks.

    ** Files, and the code they model

    - Prelude: Rust's [Result], machine integers, byte encodings, sorting, hash maps ([gmap] with an
      iteration order given as a parameter), ordered sets, and the lemmas and tactics shared below.
    - Text: strings as bytes, with the parsing and printing of the code that reads text. Effects: the
      monad of operations that change a world and can fail, with weakest preconditions.
    - Protocol: src/ant-protocol: record kinds and header (storage/header.rs), addresses
      (storage/address, lib.rs), distance; and the classes for the crates below it.
    - Storage: src/ant-protocol/src/storage: [Chunk], [Scratchpad], [Pointer], [GraphEntry].
    - RecordCache, RecordStore: [RecordCache] and [NodeRecordStore] of
      src/ant-node/src/networking/record_store.rs. RecordStoreFacts has the invariant and the
      lemmas of each operation, RecordStoreProps the theorems.
    - ReplicationFetcher: src/ant-node/src/networking/replication_fetcher.rs; FetcherProps its
      theorems.
    - MerkleTree: src/ant-evm/src/merkle_payments/merkle_tree.rs; MerkleTreeProps its theorems.
    - Payments: src/ant-evm/src/data_payments.rs and merkle_payments/merkle_payment.rs, and from
      src/evmlib/src: merkle_batch_payment.rs, quoting_metrics.rs, contract/mod.rs,
      contract/payment_vault/mod.rs; PaymentsProps its theorems.
    - PutValidation: src/ant-node/src/put_validation.rs; PutValidationFacts the lemmas of each
      handler, PutValidationProps the theorems.
    - NetworkWideReplication: src/ant-node/src/networking/driver/network_wide_replication.rs, with
      its theorems.
    - Driver: the swarm driver's local commands (src/ant-node/src/networking/driver/cmd.rs), the
      acceptance of replication lists (driver/event/request_response.rs), two interval ticks
      (driver/mod.rs), circular_vec.rs; DriverProps its theorems, and the node's records as a whole.
    - VersionGate: src/ant-protocol/src/version_gate.rs. Multiaddr: the addresses of
      src/ant-bootstrap/src/lib.rs and src/ant-node/src/networking/mod.rs. Both with their theorems.
    - RelayManager: src/ant-node/src/networking/relay_manager.rs; ExternalAddress: external_address.rs;
      NetworkDiscovery: driver/network_discovery.rs; each with its theorems.
    - Connections: who is admitted and which connections are kept (src/ant-node/src/networking/
      driver/event: identify.rs, swarm.rs, kad.rs, mod.rs); ConnectionsProps its theorems.
    - BootstrapCache: src/ant-bootstrap/src/cache_store and config.rs, the cache of peers that nodes and
      clients share on disk; Bootstrap: bootstrap.rs and contacts_fetcher.rs, where the first addresses
      come from and how they are dialed; BootstrapCacheProps and BootstrapProps their theorems.
    - DoNotDisturb: driver/behaviour/do_not_disturb.rs, codec, handler and behaviour, with its
      theorems.
    - CloseGroupTracker: the tracker of src/ant-node/src/node.rs; CloseGroupTrackerProps its theorems.
    - Messages: src/ant-protocol/src/messages: queries, responses, chunk proofs.
    - NodeQueries: the answers to queries of src/ant-node/src/node.rs (handle_query and the respond_
      functions) and quote.rs; NodeQueriesProps its theorems.
    - StorageChallenge: challenges, scores and replica checks of node.rs; StorageChallengeProps its
      theorems.
    - NodeEvents: handle_network_event and the loop of node.rs, and replication.rs; NodeEventsProps
      its theorems.
    - Requests: the requests and responses of the node's driver ([handle_network_cmd] of driver/cmd.rs,
      driver/event/request_response.rs, interface/network_cmd.rs, and the commands of
      src/ant-protocol/src/messages); NodeNetwork: the lookups of src/ant-node/src/networking/network/mod.rs; both
      with their theorems.
    - Amount: src/ant-evm/src/amount.rs; Transactions: src/evmlib/src/retry.rs and transaction_config.rs,
      both with their theorems; Wallet: src/evmlib/src/wallet.rs and the handlers of src/evmlib/src/contract,
      WalletProps its theorems.
    - Upgrade: the upgrades of a running node (src/ant-node/src/bin/antnode/upgrade), and the loops of
      src/ant-node/src/bin/antnode/main.rs over checks for upgrades and control commands, with their theorems.
    - TaskHandler: the client's driver (src/autonomi/src/networking/driver); TaskHandlerProps its
      theorems.
    - ClientNetwork: the client's requests and retries (src/autonomi/src/networking: mod.rs,
      retries.rs, config.rs, utils.rs); ClientNetworkProps its theorems.
    - ClientPayment: quotes, payments and receipts of the client (src/autonomi/src/client/quote.rs and
      payment.rs); ClientData: its pointers, scratchpads and graph entries (data_types); ClientRegister:
      key derivation and registers (key_derivation.rs, high_level/register). ClientPaymentProps,
      ClientDataProps and ClientRegisterProps have their theorems, ClientExamples the concrete setting
      of their witnesses.
    - Encryption: what the client encrypts and the streams of chunks it uploads from
      (src/autonomi/src/self_encryption, utils.rs); ClientChunks: its chunks, their cache and data maps
      (data_types/chunk.rs, chunk_cache.rs, put_error_state.rs, data_map_restoration.rs, high_level/data);
      ClientUpload: payment and upload in batches (high_level/data/helpers.rs); ClientMerkle: batch payments
      and the uploads of directories with them (merkle_payments, network.rs). ClientUploadProps,
      ClientReadProps and ClientMerkleProps have their theorems, ClientUploadExamples a small world
      for their witnesses.
    - Files: archives, uploads and downloads of files and directories and estimates of their costs
      (src/autonomi/src/client/high_level/files); FilesProps has its theorems, FilesExamples a directory in the world of
      ClientUploadExamples.
    - Vault: vaults of src/autonomi/src/client/high_level/vault (mod.rs, key.rs, user_data.rs), chains of graph
      entries that name scratchpads; VaultProps their theorem.
    - ServiceManagement: the data, registry and rpc client of services (src/ant-service-management/src);
      ServiceManager: src/ant-node-manager/src/lib.rs, managing a service and refreshing the registry;
      AddServices: add_services and the ports of helpers.rs; NodeCommands: cmd/node.rs and the download of
      releases. ServiceManagerProps and NodeCommandsProps have their theorems, NodeManagerExamples a small
      operating system for their witnesses.

    ** How the parts interact

    [validate_and_store_record] (a client's put) and [store_replicated_in_record] (a fetched record)
    parse a record with the codec of Protocol, check it with the types of Storage, check its payment
    with Payments and MerkleTree, and send [PutLocalRecord]. The swarm driver of Driver hands that to
    [put_verified] of RecordStore and tells the ReplicationFetcher; the store spawns tasks that write
    files and send commands back, and gives out records and the metrics that are quoted and signed
    in Payments. [sys_step] of DriverProps composes all of this: validations that act on records
    read earlier, commands on their way, tasks that complete in any order or fail, interval ticks.

    [loop_step] of NodeEvents is the layer above: it turns what the driver reports into validations,
    answers ([handle_query] of NodeQueries), fetches, challenges and commands for the driver; the
    CloseGroupTracker decides when a change of neighbours triggers replication. The answers of one
    node are the input of another: [replication_copies] and [honest_neighbour_passes] run both ends,
    and a quote of NodeQueries is checked by Payments and by ClientNetwork. Below, Connections decides
    by VersionGate and Multiaddr which peers reach the routing table, RelayManager through whom a
    private node is reached, and DoNotDisturb whom it does not dial; at its start Bootstrap gives the
    addresses to dial, from the cache of BootstrapCache among others. What a node asks of others goes
    through NodeNetwork to the driver of Requests, which keeps the channel of whoever awaits a response and
    passes the queries of peers, and of the node to itself, to the loop. The payments a client makes are
    transactions of Wallet, sent by Transactions. On the client's side ClientNetwork
    asks the driver of TaskHandler, which answers each request once; ClientData and ClientRegister use
    such a network, and [RecordNetworkLaws] of ClientRegisterProps is the interface between them and the
    node: registers are correct over any network with these laws, and the handlers of PutValidation,
    run on the records of a node, have them ([node_record_network_laws]). ClientUpload and ClientMerkle take
    chunks from the streams of Encryption, pay for them with ClientPayment and put them one by one; what they
    rely on is [ChunkNetworkLaws] and [MerkleNetworkLaws], under which every request may fail. Apart from the network stands the
    node manager: [manager_start] and the like of ServiceManager work on any [ServiceStateActions], what a
    service promises is [ServiceStateLaws], and nodes and the daemon keep it; the commands of NodeCommands
    refresh the registry and run the manager on the services they are for.

    ** State and effects

    Each component's struct is a record and each method a function from state to state, or to a
    result. A spawned task or a message sent is an effect in a list ([Effect], [NodeEffect]);
    [run_write] is the task a verified put spawns. Errors are constructors of the source's error
    enums. Requests that leave the component (other tasks, the network, the chain) are arguments:
    [NodeEnv] answers those of put validation arbitrarily, a failed request included. Each reading
    of a clock is an argument too, or a function of the number of readings made. The client's operations
    are in the monad [CM] over a world [ClientWorld] of the network, the contract and random numbers, with the
    disk ([Disk]) and the order in which concurrent tasks complete ([Scheduler]) where they are used; the node
    manager's are in the same monad over the registry and an operating system.

    Integers are [Z] with the wrap-around or saturation written out where it can occur; bytes are
    [list Z]. Hash maps are [gmap]s, and where code iterates over one, the order is the parameter
    [HashOrder]; theorems hold for all orders.

    ** Parameters

    Crates that are not part of the repository are type classes of operations, with a second class
    of documented laws where a theorem needs one: [Kad] (libp2p key hash and XOR metric),
    [XorNameLib], [Bls] (blsttc, with [BlsLaws] and the ordering laws [BlsOrdLaws]), [Hex], [Serde]
    and [RmpHeader] (rmp_serde), [BodySerde] (rmp_serde on record bodies, whose laws say that one
    kind of body is not read as another), the AEAD of the record store, [Digests] and [AntMerkle]
    (ant_merkle: levels, paths and verification of a Merkle tree), [Libp2pIdentity], [Layout]
    (sizes of types), [Backoff] (exponential_backoff), [AmountText] (ruint's decimal texts), [Provider] and [Contracts] (alloy
    and the contracts behind it), [CacheJson] (serde_json on the bootstrap cache),
    [AddrParsers] (texts of urls and addresses), [BlsDerive] (blsttc's child keys), [SelfEncryption] (self_encryption), [ServiceControl],
    [FileSystem], [Paths], [AntNodeClient], [Semver], [RegistryJson], [ReleaseRepo], [ManagerPaths] and
    [CommandEnv] (services, files, rpc, versions and releases of the node manager), and [ErrorText] and [NodeText] for the texts of
    errors. What a [NodeEnv], a [QueryEnv] or a [NodeNet] answers is arbitrary. The order libp2p gives
    peer ids is an argument with the laws of [Ord]. The names starting with [toy_] or [num_] are small instances that satisfy the laws and
    on which the witnesses, the theorems named [.._witness], are evaluated.

    ** What the theorems show

    - Validation (PutValidationProps): a node's records authenticate themselves, however its validations
      overlap ([racing_store]), graph entries without a limit of size; versions advance over any run of puts,
      replications and removals in which no two validations of one key overlap ([put_step]), and can go back
      otherwise ([racing_puts_go_back]); new keys are paid for or replicated;
      exactly which payments are accepted, and what an accepted batch payment means; how graph
      entries merge. Two theorems pin down behaviour that may surprise: a payment can be used again
      for another address, and an owner's pointer replaces the owner's scratchpad.
    - Store (RecordStoreProps, RecordCache): the index and the order by distance agree over every sequence
      of operations, with the kept farthest record as long as [pruning_indexing_cache] drops no key;
      operations return if the clock moves ([timely]); every branch of a verified put;
      capacity when writes complete in order, and how it is exceeded when the farthest record was
      dropped from the index; conservative cleanup; metrics; restart from disk; when the cache's
      eviction ends and when it does not.
    - Replication (FetcherProps): fetches are bounded, closest first, and only of keys from a
      justified source; what a replication list may queue; the farthest limit; peer trust.
    - The node's loop (NodeEventsProps, NodeQueriesProps, StorageChallengeProps,
      CloseGroupTrackerProps): whatever it handles, it writes only valid records that were to be
      fetched or are paid for; a fetched record that it did not hold is the one its holder holds; its quotes pass the
      checks of payments, if the quotes beside them are signed by their peers, and of clients; an honest neighbour passes a challenge, though not with the
      minimum score that is documented as healthy; a healthy score is truthful and in time, yet one repeated proof is enough; a peer is evicted only after failing
      twice what others did; the tracker is a state machine per peer and holds the closest twenty,
      but never forgets a peer that left.
    - Whom a node talks to (ConnectionsProps, RelayManager, VersionGate, Multiaddr, DoNotDisturb):
      only identified peers of a sufficient version that were dialed reach the routing table, unless
      their agent string is of no known kind; relays in use are those with a listener, though more
      than the limit can be; which connections are pruned; a peer that asked not to be disturbed is
      not dialed for exactly that long, at most five minutes; a node announces only global addresses of
      its own, though of several ips when none is its own listen address; the targets of discovery.
    - Bootstrapping (BootstrapProps, BootstrapCacheProps): the addresses come one by one and in the order
      of their sources, except that with fewer than five given ones the first are moved back, with one fetch
      at a time; no more dials are remembered as under way than configured, and bootstrapping ends only with enough peers or with every address tried; what is read from the shared
      cache is bounded and well formed however processes interleave and writes fail; what a flush
      leaves, that a removal is forgotten when it fails, and when the flushing task panics.
    - Client (TaskHandlerProps, ClientNetworkProps): everyone who asks is told at most once, and is
      pending otherwise; a record returned was given by a quorum of distinct peers; what a split does;
      when a mismatched response leaves a request hanging; exactly how puts and gets are retried; the
      closest peers chosen; which quotes are taken.
    - Client data (ClientPaymentProps, ClientDataProps, ClientRegisterProps): which quotes are paid how
      much; which of several answers a read returns, that a forged one can block it and what a read does
      not check; how forks are updated; a register is the list of the values written to it, from the
      client's calls down to the node's store, and when collecting its history ends.
    - Uploads and reads (ClientUploadProps, ClientReadProps, ClientMerkleProps): uploads end; one that
      succeeds has stored every chunk, whatever failed on the way; data that was put from a wallet is read back,
      from the network or a cache without wrong files, in whatever order chunks arrive. A wrong chunk is not noticed and is kept in the
      cache; equal chunks in one batch make an upload with batch payments leave others out.
    - Payments (MerkleTreeProps, PaymentsProps): proofs made from a batch are accepted; an accepted
      branch that names a leaf proves an address of the batch if it has a salt, and otherwise only a hash that
      is a leaf or padding, unless hashes collide; what an accepted proof establishes; signed
      bytes determine what is signed; cost units are checked exactly.
    - Transactions (Transactions, WalletProps, Amount): what is broadcast, how often and at what fees; success
      is only of what was mined and did not fail; the batches that are paid in turn, and exactly which
      quotes are reported when one fails; the
      event of a merkle payment is its own, and the blocks searched for it reach it; amounts survive being
      written and read. A retry does not replace the transaction before it, and no error of the contract is seen.
    - Requests (Requests, NodeNetwork): every channel that awaits a response is in one place and
      answered at most once, by the response to its own request; the closest peers by majority are as many as
      there are candidates, whatever is reported and in whatever order, and chosen by the four tiers of the
      source, though one candidate can make any peer popular; one request to several peers.
    - Directories (FilesProps, FilesExamples): a directory that was uploaded is downloaded again, file by file, if
      its normalised paths differ; an archive
      with absolute paths writes outside of the destination, and names with backslashes run into others.
    - Vaults (VaultProps): what was put is read back, as long as the last piece is shorter, encrypted, than a
      full one; otherwise a new vault cannot be read at all.
    - Driver (DriverProps, NetworkWideReplication): in every interleaving the store serves only
      authentic records; replication lists to a peer are paced; no peer is ever marked as bad, since
      the code that would do so is switched off; every record is announced to the network within
      four days of being noticed and once per cycle, but the cycle does not begin anew when all was
      announced early.
    - The node manager (ServiceManagerProps, NodeCommandsProps, NodeManagerExamples): managing a service
      refines its life cycle, whatever the system answers; what a refresh finds; removals spare nodes that
      run; how nodes are numbered and given ports; an upgrade keeps a node's arguments; a saved registry is
      loaded again. One hung node blocks all commands, a failed installation makes names repeat, a reused
      process id counts, and a number of running nodes may not be reached.
    - Upgrades (Upgrade): whatever fails, the executable of a node is the one it had or one with the hash of
      a known release; a node is restarted only for the latter.
    - Data types (Storage, Protocol): owner updates of scratchpads, unambiguous signed bytes, and
      record round trips.

    ** Bounds and fuel

    [cache_evict] takes fuel, since the loop may not end; as many iterations as there are entries
    are enough when the clock has moved ([cache_free_up_space_ok], [put_verified_branches]). [depth_loop] has 64, the width
    of [usize]. [reserve_loop] of RelayManager and [evict_oldest] of Connections are bounded by the
    candidates and connections there are. [next_addr] has three turns, which is always enough
    ([next_addr_iterates]); [dial_loop] needs one more than there are addresses left, [collect_initial]
    six more than the turns until the time is up. [collect_from] may not end: one more turn than there are
    values is enough when the chain of a register ends ([history_exact]). [add_loop] has one turn per node and
    one more, which is enough unless sixteen bits overflow; [trim_end_loop] has the length of the text. An upload's loop needs
    at most its allowed attempts, its chunks and three more turns ([upload_ends]), one with batch payments more than there are chunks and files ([merkle_upload_ends]);
    [restore_levels], which restores data maps of older versions, may follow any number of levels. The loops of vaults take
    one more turn than there are entries ([vault_roundtrip]). Retries are counted as in the source. Other loops are
    structural.

    ** Not modelled, and the plan

    The client's streams of decrypted data, external signers, the set-up of a node's driver and transport, the deployment of
    contracts and the addresses of EVM networks are left out. The routing table of libp2p answers arbitrarily ([RoutingTable]), and three commands that only read
    libp2p's state are left out. A task that the loop spawns runs where it is spawned; the
    interleavings of tasks are those of DriverProps. The developer query, NodeBuilder and the random
    lengths of intervals are left out.
    The f64 power in the interval of network discovery is the function [scaled].
    Metrics, logs, bindings, command lines, local networks, the launchpad and the contracts' bytecode are
    outside. The theorem on versions takes validations of which no two of one key overlap, and those on payments what
    one request does; under the interleavings of DriverProps authenticity is what is shown to remain. *)

From stdpp Require Import base gmap sets list strings fin_maps sorting.
From Stdlib Require Import ZArith Lia.

#[global] Set Default Goal Selector "!".
Open Scope Z_scope.

(** * Notations of the Rust side *)

Declare Scope rust_scope.
Delimit Scope rust_scope with rust.

(** Byte strings ([Vec<u8>], [Bytes], [&[u8]], [[u8; n]]): every element is meant to be in
    [0, 256). *)
Abbreviation bytes := (list Z).

(** * [Result] *)

(** [std::result::Result<T, E>]. *)
Inductive result (T E : Type) : Type :=
  | Ok (t : T)
  | Err (e : E).
Arguments Ok {T E} t.
Arguments Err {T E} e.

Definition rbind {T U E} (r : result T E) (k : T → result U E) : result U E :=
  match r with
  | Ok t => k t
  | Err e => Err e
  end.

(** [r.map_err(f)]. *)
Definition map_err {T E F} (f : E → F) (r : result T E) : result T F :=
  match r with
  | Ok t => Ok t
  | Err e => Err (f e)
  end.

(** [o.ok_or(e)]. *)
Definition ok_or {T E} (o : option T) (e : E) : result T E :=
  match o with
  | Some t => Ok t
  | None => Err e
  end.

(** [r.ok()]. *)
Definition rok {T E} (r : result T E) : option T :=
  match r with
  | Ok t => Some t
  | Err _ => None
  end.

Definition is_ok {T E} (r : result T E) : bool :=
  match r with
  | Ok _ => true
  | Err _ => false
  end.

(** The [?] operator. *)
Notation "'let?' x := r 'in' k" := (rbind r (λ x, k))
  (at level 10, x pattern, r at level 100, k at level 200) : rust_scope.

#[global] Instance result_eq_dec {T E} `{EqDecision T, EqDecision E} : EqDecision (result T E).
Proof. solve_decision. Defined.

Lemma rbind_Ok_inv {T U E} (r : result T E) (k : T → result U E) u :
  rbind r k = Ok u → ∃ t, r = Ok t ∧ k t = Ok u.
Proof. destruct r as [t|e]; simpl; [eauto | discriminate]. Qed.

Lemma map_err_Ok_inv {T E F} (f : E → F) (r : result T E) t :
  map_err f r = Ok t → r = Ok t.
Proof. destruct r; simpl; congruence. Qed.

Lemma ok_or_Ok_inv {T E} (o : option T) (e : E) t : ok_or o e = Ok t → o = Some t.
Proof. destruct o; simpl; congruence. Qed.

(** Takes a successful chain of [?] apart into the successes of its parts. *)
Ltac inv_ok :=
  repeat match goal with
  | H : rbind _ _ = Ok _ |- _ =>
      let t := fresh "t" in let H1 := fresh "Hok" in
      apply rbind_Ok_inv in H as (t & H1 & H)
  | H : map_err _ _ = Ok _ |- _ => apply map_err_Ok_inv in H
  | H : ok_or _ _ = Ok _ |- _ => apply ok_or_Ok_inv in H
  | H : Ok _ = Ok _ |- _ => injection H as H
  | H : Err _ = Ok _ |- _ => discriminate H
  | H : Ok _ = Err _ |- _ => discriminate H
  | u : unit |- _ => destruct u
  end.

(** * Machine integers *)

Definition u8_max : Z := 2 ^ 8 - 1.
Definition u32_max : Z := 2 ^ 32 - 1.
Definition u64_max : Z := 2 ^ 64 - 1.
Definition usize_max : Z := 2 ^ 64 - 1.
Definition u256_max : Z := 2 ^ 256 - 1.

(** [a.saturating_add(b)], [a.saturating_mul(b)] on an unsigned type with maximum [m]. *)
Definition saturating_add (m a b : Z) : Z := Z.min (a + b) m.
Definition saturating_mul (m a b : Z) : Z := Z.min (a * b) m.

Lemma saturating_add_bound m a b : 0 ≤ m → 0 ≤ a → 0 ≤ b → 0 ≤ saturating_add m a b ≤ m.
Proof. unfold saturating_add. lia. Qed.

(** ** [to_le_bytes] and [to_be_bytes] *)

Fixpoint to_le_bytes (n : nat) (z : Z) : bytes :=
  match n with
  | O => []
  | S n' => z mod 256 :: to_le_bytes n' (z / 256)
  end.

Definition to_be_bytes (n : nat) (z : Z) : bytes := reverse (to_le_bytes n z).

Fixpoint from_le_bytes (l : bytes) : Z :=
  match l with
  | [] => 0
  | b :: l' => b + 256 * from_le_bytes l'
  end.

Definition from_be_bytes (l : bytes) : Z := from_le_bytes (reverse l).

Lemma length_to_le_bytes n z : length (to_le_bytes n z) = n.
Proof. revert z; induction n; intros z; simpl; auto. Qed.

Lemma length_to_be_bytes n z : length (to_be_bytes n z) = n.
Proof. unfold to_be_bytes. by rewrite length_reverse, length_to_le_bytes. Qed.

Lemma from_to_le_bytes n z : 0 ≤ z < 256 ^ Z.of_nat n → from_le_bytes (to_le_bytes n z) = z.
Proof.
  revert z; induction n as [|n IH]; intros z Hz; simpl in *.
  - change (256 ^ Z.of_nat 0) with 1 in Hz. lia.
  - rewrite Nat2Z.inj_succ, Z.pow_succ_r in Hz by lia.
    rewrite IH; [pose proof (Z.div_mod z 256); lia|].
    split; [apply Z.div_pos; lia | apply Z.div_lt_upper_bound; lia].
Qed.

Lemma to_le_bytes_inj n a b :
  0 ≤ a < 256 ^ Z.of_nat n → 0 ≤ b < 256 ^ Z.of_nat n →
  to_le_bytes n a = to_le_bytes n b → a = b.
Proof. intros Ha Hb E. rewrite <- (from_to_le_bytes n a), <- (from_to_le_bytes n b) by done. by rewrite E. Qed.

Lemma from_to_be_bytes n z : 0 ≤ z < 256 ^ Z.of_nat n → from_be_bytes (to_be_bytes n z) = z.
Proof. intros. unfold from_be_bytes, to_be_bytes. rewrite reverse_involutive. by apply from_to_le_bytes. Qed.

Lemma to_be_bytes_inj n a b :
  0 ≤ a < 256 ^ Z.of_nat n → 0 ≤ b < 256 ^ Z.of_nat n →
  to_be_bytes n a = to_be_bytes n b → a = b.
Proof. intros Ha Hb E. rewrite <- (from_to_be_bytes n a), <- (from_to_be_bytes n b) by done. by rewrite E. Qed.

(** Two concatenations whose heads have equal lengths agree piecewise. *)
Lemma app_eq_heads {A} (l1 l2 k1 k2 : list A) :
  length l1 = length l2 → l1 ++ k1 = l2 ++ k2 → l1 = l2 ∧ k1 = k2.
Proof. intros. by apply app_inj_1. Qed.

(** * Stable sorting, [slice::sort_by] and [slice::sort_by_key] *)

Section sort_by.
Context {A : Type} (leb : A → A → bool).

Fixpoint insert_by (x : A) (l : list A) : list A :=
  match l with
  | [] => [x]
  | y :: l' => if leb x y then x :: y :: l' else y :: insert_by x l'
  end.

Definition sort_by (l : list A) : list A := foldr insert_by [] l.

Lemma insert_by_perm x l : insert_by x l ≡ₚ x :: l.
Proof.
  induction l as [|y l IH]; simpl; [done|].
  destruct (leb x y); [done|]. rewrite IH. apply Permutation_swap.
Qed.

Lemma sort_by_perm l : sort_by l ≡ₚ l.
Proof. induction l as [|x l IH]; simpl; [done|]. by rewrite insert_by_perm, IH. Qed.

Lemma sort_by_elem_of x l : x ∈ sort_by l ↔ x ∈ l.
Proof. by rewrite sort_by_perm. Qed.

Lemma sort_by_length l : length (sort_by l) = length l.
Proof. by rewrite sort_by_perm. Qed.
End sort_by.

Section sort_by_key.
Context {A : Type} (f : A → Z).

Definition sort_by_key (l : list A) : list A := sort_by (λ x y, f x <=? f y) l.

Definition key_le (x y : A) : Prop := f x ≤ f y.

Lemma sort_by_key_perm l : sort_by_key l ≡ₚ l.
Proof. apply sort_by_perm. Qed.

Lemma insert_by_key_sorted x l :
  StronglySorted key_le l → StronglySorted key_le (insert_by (λ x y, f x <=? f y) x l).
Proof.
  induction 1 as [|y l Hl IH Hy]; simpl.
  - by repeat constructor.
  - destruct (Z.leb_spec (f x) (f y)) as [Hle|Hlt].
    + constructor; [by constructor|]. constructor; [done|].
      eapply Forall_impl; [exact Hy|]. unfold key_le; intros; lia.
    + constructor; [done|]. rewrite insert_by_perm. constructor; [unfold key_le; lia | done].
Qed.

Lemma sort_by_key_sorted l : StronglySorted key_le (sort_by_key l).
Proof. induction l as [|x l IH]; [constructor | by apply insert_by_key_sorted]. Qed.

Lemma sort_by_key_elem_of x l : x ∈ sort_by_key l ↔ x ∈ l.
Proof. by rewrite sort_by_key_perm. Qed.

Lemma sort_by_key_length l : length (sort_by_key l) = length l.
Proof. by rewrite sort_by_key_perm. Qed.

(** The last element of a sorted list is a maximum. *)
Lemma sorted_last_max l x y : StronglySorted key_le l → last l = Some x → y ∈ l → f y ≤ f x.
Proof.
  intros Hs. revert x y. induction Hs as [|z l Hl IH Hz]; intros x y Hlast Hy; [done|].
  destruct l as [|w l'].
  - simpl in Hlast. injection Hlast as ->. apply list_elem_of_singleton in Hy. subst; lia.
  - simpl in Hlast. apply elem_of_cons in Hy as [->|Hy]; [|by apply IH].
    rewrite Forall_forall in Hz. apply Hz. by apply last_Some_elem_of.
Qed.

Lemma sort_by_key_last_max l x y : last (sort_by_key l) = Some x → y ∈ l → f y ≤ f x.
Proof.
  intros Hx Hy. eapply sorted_last_max; [apply sort_by_key_sorted | exact Hx |].
  by apply sort_by_key_elem_of.
Qed.

(** The [n] last elements of a sorted list are at least the others. *)
Lemma take_reverse_top l n x y :
  StronglySorted key_le l → x ∈ take n (reverse l) → y ∈ drop n (reverse l) → f y ≤ f x.
Proof.
  intros Hl Hx Hy. rewrite <- (reverse_involutive l), <- (take_drop n (reverse l)), reverse_app in Hl.
  by eapply (StronglySorted_app_1_elem_of key_le _ _ y x Hl); apply elem_of_reverse.
Qed.

Lemma sort_by_key_last_elem l x : last (sort_by_key l) = Some x → x ∈ l.
Proof. intros Hx. apply sort_by_key_elem_of. by apply last_Some_elem_of. Qed.
End sort_by_key.

(** * [HashMap] *)

(** [HashMap::retain] and [HashMap::iter] with the predicates as [bool] functions. *)
Section retain.
Context {K V : Type} `{Countable K}.
Implicit Types m : gmap K V.

Definition retain (f : K → V → bool) (m : gmap K V) : gmap K V :=
  filter (λ kv, f kv.1 kv.2 = true) m.

Lemma retain_lookup_Some f m k v : retain f m !! k = Some v ↔ m !! k = Some v ∧ f k v = true.
Proof. unfold retain. by rewrite map_lookup_filter_Some. Qed.

Lemma retain_subseteq f m : retain f m ⊆ m.
Proof. apply map_filter_subseteq. Qed.

Lemma retain_size f m : (size (retain f m) ≤ size m)%nat.
Proof. apply map_subseteq_size, retain_subseteq. Qed.

Lemma retain_lookup_None f m k : m !! k = None → retain f m !! k = None.
Proof. intros Hk. apply eq_None_not_Some. intros [v [Hv _]%retain_lookup_Some]. congruence. Qed.

Definition contains_key (k : K) (m : gmap K V) : bool := bool_decide (is_Some (m !! k)).

Lemma contains_key_true k m : contains_key k m = true ↔ is_Some (m !! k).
Proof. unfold contains_key. by rewrite bool_decide_eq_true. Qed.

Lemma contains_key_false k m : contains_key k m = false ↔ m !! k = None.
Proof. unfold contains_key. rewrite bool_decide_eq_false. by rewrite eq_None_not_Some. Qed.
End retain.

(** The iteration order of a [HashMap] or a [HashSet] depends on the hasher's random state:
    every definition that iterates takes the order as a parameter, which only has to visit each
    entry once. *)
Class HashOrder := {
  hash_order : ∀ {A : Type}, list A → list A;
  hash_order_perm : ∀ {A : Type} (l : list A), hash_order l ≡ₚ l;
}.

(** Two concrete orders, for evaluation. *)
Definition hash_order_id : HashOrder.
Proof. refine {| hash_order := λ A l, l |}. done. Defined.

Definition hash_order_rev : HashOrder.
Proof. refine {| hash_order := λ A l, reverse l |}. intros. apply reverse_Permutation. Defined.

Definition hm_iter {K V} `{Countable K} `{HashOrder} (m : gmap K V) : list (K * V) :=
  hash_order (map_to_list m).

Definition hs_iter {K} `{Countable K} `{HashOrder} (s : gset K) : list K :=
  hash_order (elements s).

Lemma hm_iter_elem_of {K V} `{Countable K} `{HashOrder} (m : gmap K V) k v :
  (k, v) ∈ hm_iter m ↔ m !! k = Some v.
Proof. unfold hm_iter. rewrite hash_order_perm. apply elem_of_map_to_list. Qed.

Lemma hm_iter_length {K V} `{Countable K} `{HashOrder} (m : gmap K V) :
  length (hm_iter m) = size m.
Proof. unfold hm_iter. rewrite hash_order_perm. apply length_map_to_list. Qed.

Lemma hm_iter_NoDup_fst {K V} `{Countable K} `{HashOrder} (m : gmap K V) :
  NoDup (hm_iter m).*1.
Proof. unfold hm_iter. rewrite hash_order_perm. apply NoDup_fst_map_to_list. Qed.

Lemma hs_iter_elem_of {K} `{Countable K} `{HashOrder} (s : gset K) k : k ∈ hs_iter s ↔ k ∈ s.
Proof. unfold hs_iter. rewrite hash_order_perm. apply elem_of_elements. Qed.

(** * Lists *)

Lemma elem_of_take_weaken {A} (x : A) n l : x ∈ take n l → x ∈ l.
Proof. intros (i & Hi & _)%elem_of_take. by eapply list_elem_of_lookup_2. Qed.

Lemma list_filter_all {A} (P : A → Prop) `{∀ x, Decision (P x)} (l : list A) :
  (∀ x, x ∈ l → P x) → filter P l = l.
Proof.
  induction l as [|x l IH]; intros HP; [done|].
  rewrite filter_cons_True by (apply HP; left). f_equal. apply IH. intros y Hy. apply HP. by right.
Qed.

(** * Folds *)

(** An invariant carried through a left fold. *)
Lemma foldl_invariant {A B} (P : A → Prop) (f : A → B → A) (l : list B) (a : A) :
  P a → (∀ a b, P a → b ∈ l → P (f a b)) → P (foldl f a l).
Proof.
  revert a. induction l as [|b l IH]; intros a Ha Hf; simpl; [done|].
  apply IH; [apply Hf; [done | left] | intros; apply Hf; [done | by right]].
Qed.

Lemma foldl_ext {A B} (f g : A → B → A) (a : A) (l : list B) :
  (∀ a b, f a b = g a b) → foldl f a l = foldl g a l.
Proof. intros Hfg. revert a. induction l as [|b l IH]; intros a; simpl; [done|]. by rewrite Hfg. Qed.

(** Counting with a map: [entry(k).or_insert(0) += 1] for each element. *)
Lemma count_fold_lookup {A K} `{Countable K} (f : A → K) (l : list A) (k : K) :
  foldl (λ m x, <[f x := default 0 (m !! f x) + 1]> m) (∅ : gmap K Z) l !! k =
  let n := length (filter (λ x, f x = k) l) in
  if bool_decide (n = 0%nat) then None else Some (Z.of_nat n).
Proof.
  induction l as [|x l IH] using rev_ind; simpl; [by rewrite lookup_empty|].
  rewrite foldl_app. simpl. rewrite filter_app, length_app.
  destruct (decide (f x = k)) as [<-|Hne].
  - rewrite lookup_insert_eq, IH, filter_cons_True by done. simpl.
    repeat case_bool_decide; simpl in *; [lia| |lia|]; f_equal; lia.
  - rewrite lookup_insert_ne, IH, filter_cons_False by done. simpl. by rewrite Nat.add_0_r.
Qed.

(** * Automation *)

Create HintDb autonomi.
Create Rewrite HintDb autonomi.
#[export] Hint Resolve retain_subseteq retain_size sort_by_key_perm sort_by_key_sorted : autonomi.
#[export] Hint Rewrite length_to_le_bytes length_to_be_bytes : autonomi.

(** Turns the boolean tests of the code into the propositions they decide. *)
Ltac bool_to_prop :=
  repeat match goal with
  | H : (_ <? _) = true |- _ => apply Z.ltb_lt in H
  | H : (_ <? _) = false |- _ => apply Z.ltb_ge in H
  | H : (_ <=? _) = true |- _ => apply Z.leb_le in H
  | H : (_ <=? _) = false |- _ => apply Z.leb_gt in H
  | H : (_ =? _) = true |- _ => apply Z.eqb_eq in H
  | H : (_ =? _) = false |- _ => apply Z.eqb_neq in H
  | H : bool_decide _ = true |- _ => apply bool_decide_eq_true in H
  | H : bool_decide _ = false |- _ => apply bool_decide_eq_false in H
  | H : negb _ = true |- _ => apply negb_true_iff in H
  | H : negb _ = false |- _ => apply negb_false_iff in H
  | H : (_ && _)%bool = true |- _ => apply andb_true_iff in H as [? ?]
  | H : (_ || _)%bool = false |- _ => apply orb_false_iff in H as [? ?]
  | H : contains_key _ _ = true |- _ => apply contains_key_true in H
  | H : contains_key _ _ = false |- _ => apply contains_key_false in H
  end.

(** * Orderings and ordered sets *)

(** [Ordering::then]. *)
Definition then_cmp (c d : comparison) : comparison :=
  match c with Eq => d | _ => c end.

(** The derived orders of sequences and pairs: lexicographic. *)
Fixpoint list_cmp {A} (cmp : A → A → comparison) (l k : list A) : comparison :=
  match l, k with
  | [], [] => Eq
  | [], _ :: _ => Lt
  | _ :: _, [] => Gt
  | x :: l', y :: k' => then_cmp (cmp x y) (list_cmp cmp l' k')
  end.

Definition prod_cmp {A B} (ca : A → A → comparison) (cb : B → B → comparison) (x y : A * B) : comparison :=
  then_cmp (ca x.1 y.1) (cb x.2 y.2).

(** What Rust requires of an implementation of [Ord]. *)
Class CmpLaws {A} (cmp : A → A → comparison) : Prop := {
  cmp_eq : ∀ x y, cmp x y = Eq ↔ x = y;
  cmp_antisym : ∀ x y, cmp y x = CompOpp (cmp x y);
  cmp_lt_trans : ∀ x y z, cmp x y = Lt → cmp y z = Lt → cmp x z = Lt;
}.
Arguments cmp_eq {A} cmp {_} x y.
Arguments cmp_antisym {A} cmp {_} x y.
Arguments cmp_lt_trans {A} cmp {_} x y z.

Section cmp.
Context {A : Type} (cmp : A → A → comparison) `{!CmpLaws cmp}.

Lemma cmp_refl x : cmp x x = Eq.
Proof. by apply (cmp_eq cmp). Qed.

Lemma cmp_gt_lt x y : cmp x y = Gt → cmp y x = Lt.
Proof. intros E. by rewrite (cmp_antisym cmp), E. Qed.
End cmp.

#[global] Instance Zcompare_laws : CmpLaws Z.compare.
Proof.
  split; [apply Z.compare_eq_iff | intros x y; by rewrite Z.compare_antisym |].
  intros x y z. rewrite !Z.compare_lt_iff. lia.
Qed.

#[global] Instance prod_cmp_laws {A B} (ca : A → A → comparison) (cb : B → B → comparison)
  `{!CmpLaws ca, !CmpLaws cb} : CmpLaws (prod_cmp ca cb).
Proof.
  unfold prod_cmp. split.
  - intros [x1 x2] [y1 y2]. simpl. destruct (ca x1 y1) eqn:E; simpl.
    + apply (cmp_eq ca) in E as ->. rewrite (cmp_eq cb). split; congruence.
    + split; [done|]. intros [= -> ->]. rewrite (cmp_refl ca) in E; done.
    + split; [done|]. intros [= -> ->]. rewrite (cmp_refl ca) in E; done.
  - intros [x1 x2] [y1 y2]. simpl. rewrite (cmp_antisym ca x1 y1), (cmp_antisym cb x2 y2).
    by destruct (ca x1 y1).
  - intros [x1 x2] [y1 y2] [z1 z2]. simpl.
    destruct (ca x1 y1) eqn:E1, (ca y1 z1) eqn:E2; simpl; try done;
      try (apply (cmp_eq ca) in E1 as ->); try (apply (cmp_eq ca) in E2 as ->);
      rewrite ?E1, ?E2, ?(cmp_refl ca); simpl; try done.
    + apply (cmp_lt_trans cb).
    + intros _ _. by rewrite (cmp_lt_trans ca x1 y1 z1).
Qed.

#[global] Instance list_cmp_laws {A} (ca : A → A → comparison) `{!CmpLaws ca} : CmpLaws (list_cmp ca).
Proof.
  split.
  - induction x as [|x l IH]; intros [|y k]; simpl; try done.
    destruct (ca x y) eqn:E; simpl.
    + apply (cmp_eq ca) in E as ->. rewrite IH. split; congruence.
    + split; [done|]. intros [= -> ->]. rewrite (cmp_refl ca) in E; done.
    + split; [done|]. intros [= -> ->]. rewrite (cmp_refl ca) in E; done.
  - induction x as [|x l IH]; intros [|y k]; simpl; try done.
    rewrite (cmp_antisym ca x y), IH. by destruct (ca x y).
  - induction x as [|x l IH]; intros [|y k] [|z m]; simpl; try done.
    destruct (ca x y) eqn:E1, (ca y z) eqn:E2; simpl; try done;
      try (apply (cmp_eq ca) in E1 as ->); try (apply (cmp_eq ca) in E2 as ->);
      rewrite ?E1, ?E2, ?(cmp_refl ca); simpl; try done.
    + apply IH.
    + intros _ _. by rewrite (cmp_lt_trans ca x y z).
Qed.

Lemma cmp_laws_inj {A B} (cb : B → B → comparison) (f : A → B) (ca : A → A → comparison) :
  (∀ x y, f x = f y → x = y) → (∀ x y, ca x y = cb (f x) (f y)) → CmpLaws cb → CmpLaws ca.
Proof.
  intros Hinj Hca Hcb. split.
  - intros x y. rewrite Hca, (cmp_eq cb). split; [apply Hinj | congruence].
  - intros x y. rewrite !Hca. apply (cmp_antisym cb).
  - intros x y z. rewrite !Hca. apply (cmp_lt_trans cb).
Qed.

Lemma list_cmp_ext {A} (ca cb : A → A → comparison) l k :
  (∀ x y, ca x y = cb x y) → list_cmp ca l k = list_cmp cb l k.
Proof. intros E. revert k. induction l; intros []; simpl; [done..|]. by rewrite E, IHl. Qed.

(** [BTreeSet::insert] on the ascending list of the elements: an equal element is kept. *)
Fixpoint bt_insert {A} (cmp : A → A → comparison) (x : A) (s : list A) : list A :=
  match s with
  | [] => [x]
  | y :: s' => match cmp x y with
               | Lt => x :: s
               | Eq => s
               | Gt => y :: bt_insert cmp x s'
               end
  end.

(** [BTreeSet::extend]; [collect] extends the empty set. *)
Definition bt_extend {A} (cmp : A → A → comparison) (s l : list A) : list A :=
  foldl (λ s x, bt_insert cmp x s) s l.

Section btree_set.
Context {A : Type} (cmp : A → A → comparison) `{!CmpLaws cmp}.

Abbreviation bt_sorted := (StronglySorted (λ x y, cmp x y = Lt)).

Lemma elem_of_bt_insert x y s : y ∈ bt_insert cmp x s ↔ y = x ∨ y ∈ s.
Proof.
  induction s as [|z s IH]; simpl; [set_solver|].
  destruct (cmp x z) eqn:E; [apply (cmp_eq cmp) in E as ->| |]; set_solver.
Qed.

Lemma elem_of_bt_extend y s l : y ∈ bt_extend cmp s l ↔ y ∈ l ∨ y ∈ s.
Proof.
  unfold bt_extend. revert s. induction l as [|x l IH]; intros s; simpl; [set_solver|].
  rewrite IH, elem_of_bt_insert. set_solver.
Qed.

Lemma bt_insert_sorted x s : bt_sorted s → bt_sorted (bt_insert cmp x s).
Proof.
  induction 1 as [|z s Hs IH Hz]; simpl; [by repeat constructor|].
  destruct (cmp x z) eqn:E.
  - by constructor.
  - constructor; [by constructor|]. constructor; [done|].
    eapply Forall_impl; [exact Hz|]. simpl. intros y Hy. by eapply (cmp_lt_trans cmp).
  - constructor; [done|]. apply Forall_forall. intros y [->|Hy]%elem_of_bt_insert.
    + by apply (cmp_gt_lt cmp).
    + rewrite Forall_forall in Hz. by apply Hz.
Qed.

Lemma bt_extend_sorted s l : bt_sorted s → bt_sorted (bt_extend cmp s l).
Proof. revert s. induction l; intros s Hs; [done|]. simpl. apply IHl. by apply bt_insert_sorted. Qed.

Lemma bt_sorted_NoDup s : bt_sorted s → NoDup s.
Proof.
  induction 1 as [|z s Hs IH Hz]; constructor; [|done].
  intros Hin. rewrite Forall_forall in Hz. apply Hz in Hin. by rewrite (cmp_refl cmp) in Hin.
Qed.
End btree_set.
