(* ===== verification/Text.v ===== *)
(** * Text

    Rust's strings as lists of bytes: the methods of [str] the sources use ([split], [contains],
    [starts_with], [trim_end_matches], [parse] of an unsigned integer) and the decimal display of one. *)

From stdpp Require Import base list.
From Stdlib Require Import ZArith Lia String Ascii.
From S2P Require Import Prelude.

Definition text (s : string) : bytes := (λ c, Z.of_N (N_of_ascii c)) <$> list_ascii_of_string s.

(** ** Substrings *)

Definition starts_with (p s : bytes) : bool := bool_decide (take (List.length p) s = p).

(** [s.contains(p)]. *)
Fixpoint contains_text (p s : bytes) : bool :=
  starts_with p s || match s with [] => false | _ :: s' => contains_text p s' end.

(** [s.split(c).collect()]: never empty. *)
Fixpoint split_on (c : Z) (s : bytes) : list bytes :=
  match s with
  | [] => [[]]
  | x :: s' =>
    if x =? c then [] :: split_on c s'
    else match split_on c s' with
         | part :: parts => (x :: part) :: parts
         | [] => [[x]]
         end
  end.

(** The parts with the separator between them. *)
Fixpoint join_on (c : Z) (parts : list bytes) : bytes :=
  match parts with
  | [] => []
  | [part] => part
  | part :: parts' => part ++ c :: join_on c parts'
  end.

Definition ends_with (p s : bytes) : bool := bool_decide (drop (List.length s - List.length p) s = p).

(** [s.trim_end_matches(p)] for [p] not empty; each turn makes the text shorter. *)
Fixpoint trim_end_loop (fuel : nat) (p s : bytes) : bytes :=
  match fuel with
  | 0%nat => s
  | S fuel => if ends_with p s then trim_end_loop fuel p (take (List.length s - List.length p) s) else s
  end.
Definition trim_end_matches (p s : bytes) : bytes := trim_end_loop (List.length s) p s.

(** [to_lowercase] on ASCII. *)
Definition ascii_lower (s : bytes) : bytes := (λ c, if (65 <=? c) && (c <=? 90) then c + 32 else c) <$> s.

Lemma starts_with_spec p s : starts_with p s = true ↔ ∃ t, s = p ++ t.
Proof.
  unfold starts_with. rewrite bool_decide_eq_true. split.
  - intros Hp. exists (drop (List.length p) s). by rewrite <- Hp at 1; rewrite take_drop.
  - intros [t ->]. by rewrite take_app_length.
Qed.

Lemma contains_text_spec p s : contains_text p s = true ↔ ∃ a b, s = a ++ p ++ b.
Proof.
  induction s as [|x s IH]; simpl.
  - rewrite orb_false_r, starts_with_spec. split.
    + intros [t Ht]. by exists [], t.
    + intros (a & b & Hs). destruct a; [by exists b|done].
  - rewrite orb_true_iff, starts_with_spec, IH. split.
    + intros [[t Ht]|(a & b & ->)]; [by exists [], t|by exists (x :: a), b].
    + intros ([|y a] & b & Hs); [left; by exists b|]. simplify_eq/=. right. by exists a, b.
Qed.

Lemma split_on_cons c s : ∃ part parts, split_on c s = part :: parts.
Proof.
  induction s as [|x s IH]; simpl; [by do 2 eexists|]. case_match; [by do 2 eexists|].
  destruct IH as (p & ps & ->). by do 2 eexists.
Qed.

(** The first part ends at the first separator. *)
Lemma split_on_app c part s : c ∉ part → split_on c (part ++ c :: s) = part :: split_on c s.
Proof.
  induction part as [|x part IH]; intros Hc; simpl; [by rewrite Z.eqb_refl|].
  apply not_elem_of_cons in Hc as [Hx Hc]. rewrite (proj2 (Z.eqb_neq x c)) by done. by rewrite IH.
Qed.

Lemma split_on_alone c part : c ∉ part → split_on c part = [part].
Proof.
  induction part as [|x part IH]; intros Hc; simpl; [done|].
  apply not_elem_of_cons in Hc as [Hx Hc]. rewrite (proj2 (Z.eqb_neq x c)) by done. by rewrite IH.
Qed.

Lemma split_join c parts :
  parts ≠ [] → (∀ part, part ∈ parts → c ∉ part) → split_on c (join_on c parts) = parts.
Proof.
  induction parts as [|part [|part' parts] IH]; intros Hne Hc; [done| |].
  - apply split_on_alone, Hc. left.
  - cbn [join_on]. rewrite split_on_app by (apply Hc; left). f_equal. apply IH; [done|].
    intros p Hp. apply Hc. by right.
Qed.

Lemma join_split c s : join_on c (split_on c s) = s.
Proof.
  induction s as [|x s IH]; [done|]. cbn [split_on]. destruct (split_on_cons c s) as (p & ps & Hs).
  rewrite Hs in *. destruct (Z.eqb_spec x c) as [->|Hx].
  - change (c :: join_on c (p :: ps) = c :: s). by rewrite IH.
  - destruct ps; cbn [join_on] in *; simpl; congruence.
Qed.

(** ** Unsigned integers *)

Definition is_digit (c : Z) : bool := (48 <=? c) && (c <=? 57).

Definition digits_value (ds : bytes) : Z := foldl (λ acc d, acc * 10 + (d - 48)) 0 ds.

(** [s.parse::<u16>().ok()] for [max = 65535]: an optional plus sign, then digits. *)
Definition parse_unsigned (max : Z) (s : bytes) : option Z :=
  let ds := match s with c :: s' => if c =? 43 then s' else s | [] => s end in
  if bool_decide (ds = []) || negb (forallb is_digit ds) then None
  else if digits_value ds <=? max then Some (digits_value ds) else None.

Definition u16_max : Z := 2 ^ 16 - 1.
Definition parse_u16 : bytes → option Z := parse_unsigned u16_max.

(** The decimal digits, the last one at least; [fuel] bounds their number. *)
Fixpoint show_digits (fuel : nat) (n : Z) : bytes :=
  match fuel with
  | O => []
  | S fuel' => (if n <? 10 then [] else show_digits fuel' (n / 10)) ++ [48 + n mod 10]
  end.

(** [u16]'s display. *)
Definition show_u16 (n : Z) : bytes := show_digits 5 n.

Lemma digits_value_snoc ds d : digits_value (ds ++ [d]) = digits_value ds * 10 + (d - 48).
Proof. unfold digits_value. by rewrite foldl_app. Qed.

Lemma show_digits_spec fuel n :
  0 ≤ n < 10 ^ Z.of_nat fuel → fuel ≠ 0%nat →
  forallb is_digit (show_digits fuel n) = true ∧ digits_value (show_digits fuel n) = n ∧ show_digits fuel n ≠ [].
Proof.
  revert n. induction fuel as [|fuel IH]; intros n Hn Hf; [done|]. cbn [show_digits].
  assert (is_digit (48 + n mod 10) = true) as Hd.
  { unfold is_digit. pose proof (Z.mod_pos_bound n 10). apply andb_true_iff. rewrite !Z.leb_le. lia. }
  rewrite forallb_app, digits_value_snoc. simpl. rewrite Hd. destruct (Z.ltb_spec n 10).
  - rewrite Z.mod_small by lia. split; [done|]. split; [unfold digits_value; simpl; lia|done].
  - destruct fuel as [|fuel]; [simpl in Hn; lia|].
    destruct (IH (n / 10)) as (H1 & H2 & _); [|done|].
    { split; [apply Z.div_pos; lia|]. apply Z.div_lt_upper_bound; [lia|]. rewrite <- Z.pow_succ_r; lia. }
    split; [by rewrite H1|]. split; [|by destruct (show_digits (S fuel) (n / 10))].
    rewrite H2. pose proof (Z.div_mod n 10). lia.
Qed.

Lemma show_u16_digits n : 0 ≤ n ≤ u16_max → forallb is_digit (show_u16 n) = true.
Proof. intros Hn. apply (show_digits_spec 5 n); [|done]. unfold u16_max in *. lia. Qed.

Lemma parse_show_u16 n : 0 ≤ n ≤ u16_max → parse_u16 (show_u16 n) = Some n.
Proof.
  intros Hn. destruct (show_digits_spec 5 n) as (Hd & Hv & Hne); [unfold u16_max in *; lia|done|].
  fold (show_u16 n) in *. unfold parse_u16, parse_unsigned.
  assert (match show_u16 n with c :: s' => if c =? 43 then s' else show_u16 n | [] => show_u16 n end = show_u16 n) as ->.
  { destruct (show_u16 n) as [|d ds]; [done|]. simpl in Hd. apply andb_true_iff in Hd as [Hd _].
    unfold is_digit in Hd. apply andb_true_iff in Hd as [Hd _]. apply Z.leb_le in Hd.
    by rewrite (proj2 (Z.eqb_neq d 43)) by lia. }
  rewrite bool_decide_eq_false_2 by done. rewrite Hd, Hv. simpl. by rewrite (proj2 (Z.leb_le _ _)) by lia.
Qed.

Lemma parse_unsigned_bound max s n : parse_unsigned max s = Some n → n ≤ max.
Proof. unfold parse_unsigned. intros Hp. repeat case_match; simplify_eq; bool_to_prop; lia. Qed.
