(* ===== verification/Effects.v ===== *)
(** * Operations that change a world and can fail

    The monad [CM] of the client's operations and of the node manager's: a function from a world to a
    result and the world after it; an error keeps what was changed before. [cm_on_fst] and [cm_on_snd]
    run an operation on one part of a world. Below, weakest preconditions for such operations, with the
    tactic [wp_steps] that takes a program apart. *)

From stdpp Require Import base list.
From S2P Require Import Prelude.

Definition CM (W E A : Type) : Type := W → result A E * W.

Section monad.
Context {W E : Type}.

Definition cm_ret {A} (a : A) : CM W E A := λ w, (Ok a, w).
Definition cm_err {A} (e : E) : CM W E A := λ w, (Err e, w).
Definition cm_lift {A} (r : result A E) : CM W E A := λ w, (r, w).
Definition cm_bind {A B} (m : CM W E A) (k : A → CM W E B) : CM W E B :=
  λ w, match m w with (Ok a, w) => k a w | (Err e, w) => (Err e, w) end.

(** [match m { .. }], where the error is handled too. *)
Definition cm_try {A E'} (m : CM W E' A) : CM W E (result A E') := λ w, let '(r, w) := m w in (Ok r, w).

(** [m.map_err(f)]. *)
Definition cm_map_err {A E'} (f : E' → E) (m : CM W E' A) : CM W E A := λ w, let '(r, w) := m w in (map_err f r, w).

(** Reading and changing the world itself. *)
Definition cm_get {A} (f : W → A) : CM W E A := λ w, (Ok (f w), w).
Definition cm_modify (f : W → W) : CM W E () := λ w, (Ok (), f w).

(** [for x in l { .. }], ended by the first error. *)
Fixpoint cm_for {A} (l : list A) (body : A → CM W E ()) : CM W E () :=
  match l with
  | [] => cm_ret ()
  | x :: l => cm_bind (body x) (λ _, cm_for l body)
  end.
End monad.

Declare Scope cm_scope.
Delimit Scope cm_scope with cm.
Notation "'let!' x := m 'in' k" := (cm_bind m (λ x, k)) (at level 10, x pattern, m at level 100, k at level 200) : cm_scope.

(** An operation on a part of the world. *)
Definition cm_on_fst {S O E A} (m : CM S E A) : CM (S * O) E A := λ w, let '(r, s) := m w.1 in (r, (s, w.2)).
Definition cm_on_snd {S O E A} (m : CM O E A) : CM (S * O) E A := λ w, let '(r, o) := m w.2 in (r, (w.1, o)).

(** ** Weakest preconditions *)

Definition wp {W E A} (m : CM W E A) (Q : result A E → W → Prop) (w : W) : Prop := Q (m w).1 (m w).2.

Section wp.
Context {W E : Type}.

Lemma wp_mono {A} (m : CM W E A) (P Q : result A E → W → Prop) w : wp m P w → (∀ r w', P r w' → Q r w') → wp m Q w.
Proof. unfold wp. auto. Qed.

Lemma wp_and {A} (m : CM W E A) (P Q : result A E → W → Prop) w : wp m P w → wp m Q w → wp m (λ r w', P r w' ∧ Q r w') w.
Proof. by split. Qed.

Lemma wp_ret {A} (a : A) (Q : result A E → W → Prop) w : Q (Ok a) w → wp (cm_ret a) Q w.
Proof. done. Qed.

Lemma wp_err {A} (e : E) (Q : result A E → W → Prop) w : Q (Err e) w → wp (cm_err e) Q w.
Proof. done. Qed.

Lemma wp_lift {A} (r : result A E) (Q : result A E → W → Prop) w : Q r w → wp (cm_lift r) Q w.
Proof. done. Qed.

Lemma wp_get {A} (f : W → A) (Q : result A E → W → Prop) w : Q (Ok (f w)) w → wp (cm_get f) Q w.
Proof. done. Qed.

Lemma wp_modify (f : W → W) (Q : result () E → W → Prop) w : Q (Ok ()) (f w) → wp (cm_modify f) Q w.
Proof. done. Qed.

Lemma wp_bind {A B} (m : CM W E A) (k : A → CM W E B) (Q : result B E → W → Prop) w :
  wp m (λ r w', match r with Ok a => wp (k a) Q w' | Err e => Q (Err e) w' end) w → wp (cm_bind m k) Q w.
Proof. unfold wp, cm_bind. by destruct (m w) as [[a|e] w']. Qed.

Lemma wp_try {A E'} (m : CM W E' A) (Q : result (result A E') E → W → Prop) w :
  wp m (λ r w', Q (Ok r) w') w → wp (cm_try m) Q w.
Proof. unfold wp, cm_try. by destruct (m w). Qed.

Lemma wp_map_err {A E'} (f : E' → E) (m : CM W E' A) (Q : result A E → W → Prop) w :
  wp m (λ r w', Q (map_err f r) w') w → wp (cm_map_err f m) Q w.
Proof. unfold wp, cm_map_err. by destruct (m w). Qed.

(** A loop that keeps an invariant; with [P] for what the ends of its turns establish. *)
Lemma wp_for {A} (l : list A) (body : A → CM W E ()) (I : list A → W → Prop) (F : E → W → Prop) w :
  I l w →
  (∀ x rest w, I (x :: rest) w → wp (body x) (λ r w', match r with Ok _ => I rest w' | Err e => F e w' end) w) →
  wp (cm_for l body) (λ r w', match r with Ok _ => I [] w' | Err e => F e w' end) w.
Proof.
  intros Hl Hbody. revert w Hl. induction l as [|x l IH]; intros w Hl; [by apply wp_ret|].
  cbn [cm_for]. apply wp_bind. eapply wp_mono; [by apply Hbody|]. intros [[]|e] w' Hw'; [by apply IH|done].
Qed.
End wp.

Section wp_parts.
Context {S O E : Type}.

Lemma wp_on_fst {A} (m : CM S E A) (Q : result A E → S * O → Prop) w :
  wp m (λ r s, Q r (s, w.2)) w.1 → wp (cm_on_fst m) Q w.
Proof. unfold wp, cm_on_fst. by destruct (m w.1). Qed.

Lemma wp_on_snd {A} (m : CM O E A) (Q : result A E → S * O → Prop) w :
  wp m (λ r o, Q r (w.1, o)) w.2 → wp (cm_on_snd m) Q w.
Proof. unfold wp, cm_on_snd. by destruct (m w.2). Qed.

(** Nothing is known of an operation on the other part but that it ends. *)
Lemma wp_any {W A} (m : CM W E A) (Q : result A E → W → Prop) w : (∀ r w', Q r w') → wp m Q w.
Proof. unfold wp. auto. Qed.
End wp_parts.

(** Takes the program of the goal apart as far as its shape tells. *)
Ltac wp_step :=
  match goal with
  | |- wp (cm_ret _) _ _ => apply wp_ret
  | |- wp (cm_err _) _ _ => apply wp_err
  | |- wp (cm_lift _) _ _ => apply wp_lift
  | |- wp (cm_get _) _ _ => apply wp_get
  | |- wp (cm_modify _) _ _ => apply wp_modify
  | |- wp (cm_bind _ _) _ _ => apply wp_bind
  | |- wp (cm_try _) _ _ => apply wp_try
  | |- wp (cm_map_err _ _) _ _ => apply wp_map_err
  | |- wp (cm_on_fst _) _ _ => apply wp_on_fst
  | |- wp (cm_on_snd _) _ _ => apply wp_on_snd
  end.

Ltac wp_steps := cbn beta iota; repeat (wp_step; cbn beta iota).
