(* ===== verification/Protocol.v ===== *)
(** * The data model of the network: ant-protocol

    Network addresses and the Kademlia distance (src/ant-protocol/src/lib.rs), the address types
    (src/ant-protocol/src/storage/address), the record header and the (de)serialisation of
    records (storage/header.rs), and the four data types a node stores: [Chunk] (chunks.rs),
    [Scratchpad] (scratchpad.rs), [Pointer] (pointer.rs) and [GraphEntry] (graph.rs).

    The crates the code calls are parameters, one class of operations each, with a class of the
    documented laws the theorems use: libp2p's key hash and XOR distance ([Kad]), xor_name's
    content hash ([XorNameLib]), the BLS crate ([Bls]), the hex crate ([Hex]) and rmp_serde
    ([Serde], [RmpHeader]). A small concrete instance of each evaluates the witnesses. *)

From stdpp Require Import base gmap strings countable list.
From Stdlib Require Import ZArith Lia.
From S2P Require Import Prelude.

(** * The crates below the protocol *)

(** libp2p: [KBucketKey::new] hashes bytes to 256 bits, [KBucketKey::distance] is the XOR metric
    on the hashes. *)
Class Kad := {
  kbucket_hash : bytes → Z;
  kbucket_distance : Z → Z → Z;
}.

Class KadLaws `{Kad} : Prop := {
  kbucket_hash_bound : ∀ b, 0 ≤ kbucket_hash b < 2 ^ 256;
  kbucket_distance_xor : ∀ a b, kbucket_distance a b = Z.lxor a b;
}.

(** xor_name: [XorName::from_content] is a 32-byte hash. *)
Class XorNameLib := { xorname_from_content : bytes → bytes }.

Class XorNameLaws `{XorNameLib} : Prop := {
  xorname_length : ∀ b, length (xorname_from_content b) = 32%nat;
}.

(** blsttc: keys, signatures and asymmetric encryption, which draws randomness. *)
Class Bls := {
  PublicKey : Type;
  SecretKey : Type;
  Signature : Type;
  Ciphertext : Type;
  PublicKey_eq_dec :: EqDecision PublicKey;
  PublicKey_countable :: Countable PublicKey;
  Signature_eq_dec :: EqDecision Signature;
  Signature_countable :: Countable Signature;
  pk_compare : PublicKey → PublicKey → comparison;
  sig_compare : Signature → Signature → comparison;
  pk_to_bytes : PublicKey → bytes;
  sig_to_bytes : Signature → bytes;
  sk_public_key : SecretKey → PublicKey;
  sk_sign : SecretKey → bytes → Signature;
  pk_verify : PublicKey → Signature → bytes → bool;
  pk_encrypt : Z → PublicKey → bytes → Ciphertext;
  ct_to_bytes : Ciphertext → bytes;
  ct_from_bytes : bytes → option Ciphertext;
  sk_decrypt : SecretKey → Ciphertext → option bytes;
}.

(** The laws: a signature verifies under the signer's key, decryption inverts encryption, a
    compressed G1 point is 48 bytes whose first byte carries the compression flag 0x80. *)
Class BlsLaws `{Bls} : Prop := {
  bls_sign_verify : ∀ sk m, pk_verify (sk_public_key sk) (sk_sign sk m) m = true;
  bls_decrypt : ∀ sk r m, sk_decrypt sk (pk_encrypt r (sk_public_key sk) m) = Some m;
  ct_roundtrip : ∀ c, ct_from_bytes (ct_to_bytes c) = Some c;
  pk_to_bytes_inj :: Inj (=) (=) pk_to_bytes;
  pk_to_bytes_length : ∀ pk, length (pk_to_bytes pk) = 48%nat;
  pk_to_bytes_flag : ∀ pk, ∃ b l, pk_to_bytes pk = b :: l ∧ 128 ≤ b;
}.

(** Keys and signatures are totally ordered. *)
Class BlsOrdLaws `{Bls} : Prop := {
  pk_compare_laws :: CmpLaws pk_compare;
  sig_compare_laws :: CmpLaws sig_compare;
}.

(** hex: [hex::encode] writes two digits a byte, [hex::decode] inverts it. *)
Class Hex := {
  hex_encode : bytes → bytes;
  hex_decode : bytes → option bytes;
}.

Class HexLaws `{Hex} : Prop := {
  hex_roundtrip : ∀ b, hex_decode (hex_encode b) = Some b;
  hex_length : ∀ b, length (hex_encode b) = (2 * length b)%nat;
}.

(** rmp_serde: MessagePack encoding of a value of type [T]. *)
Class Serde (T : Type) := {
  rmp_to_vec : T → option bytes;
  rmp_from_slice : bytes → option T;
}.

Class SerdeLaws (T : Type) `{Serde T} : Prop := {
  rmp_roundtrip : ∀ t b, rmp_to_vec t = Some b → rmp_from_slice b = Some t;
  rmp_nonempty : ∀ t b, rmp_to_vec t = Some b → b ≠ [];
}.

(** rmp_serde on a struct with one [u32] field: [fixarray 1] and the integer, two bytes when the
    integer is a positive fixint. Decoding reads a prefix of the slice. *)
Class RmpHeader := {
  header_to_vec : Z → option bytes;
  header_from_slice : bytes → option Z;
}.

Class RmpHeaderLaws `{RmpHeader} : Prop := {
  header_fixint : ∀ n, 0 ≤ n < 128 → ∃ b, header_to_vec n = Some b ∧ length b = 2%nat;
  header_roundtrip : ∀ n b rest,
    0 ≤ n < 128 → header_to_vec n = Some b → header_from_slice (b ++ rest) = Some n;
}.

(** * Constants: src/ant-protocol/src/constants.rs *)

Definition MAX_PACKET_SIZE : Z := 1024 * 1024 * 5.
Definition CLOSE_GROUP_SIZE : nat := 5.

(** * Record header: storage/header.rs *)

Inductive DataTypes := Chunk_t | GraphEntry_t | Pointer_t | Scratchpad_t.

#[global] Instance DataTypes_eq_dec : EqDecision DataTypes.
Proof. solve_decision. Defined.

Definition get_index (d : DataTypes) : Z :=
  match d with
  | Chunk_t => 0
  | GraphEntry_t => 1
  | Pointer_t => 2
  | Scratchpad_t => 3
  end.

Definition from_index (index : Z) : option DataTypes :=
  if index =? 0 then Some Chunk_t
  else if index =? 1 then Some GraphEntry_t
  else if index =? 2 then Some Pointer_t
  else if index =? 3 then Some Scratchpad_t
  else None.

(** The content version of a record, kept by the node: a chunk, or the hash of a mutable
    record's bytes. *)
Inductive ValidationType :=
  | VT_Chunk
  | VT_NonChunk (content_hash : bytes).

#[global] Instance ValidationType_eq_dec : EqDecision ValidationType.
Proof. solve_decision. Defined.

#[global] Instance ValidationType_countable : Countable ValidationType.
Proof.
  refine (inj_countable'
    (λ t, match t with VT_Chunk => None | VT_NonChunk h => Some h end)
    (λ o, match o with None => VT_Chunk | Some h => VT_NonChunk h end) _).
  by intros [].
Defined.

Inductive RecordKind :=
  | DataOnly (d : DataTypes)
  | DataWithPayment (d : DataTypes)
  | DataWithMerklePayment (d : DataTypes).

#[global] Instance RecordKind_eq_dec : EqDecision RecordKind.
Proof. solve_decision. Defined.

Definition RECORD_KIND_PAYMENT_STARTING_INDEX : Z := 10.
Definition RECORD_KIND_MERKLE_PAYMENT_STARTING_INDEX : Z := 20.

(** [impl Serialize for RecordKind]: the [u32] that is serialised. *)
Definition record_kind_serialize (k : RecordKind) : Z :=
  match k with
  | DataOnly d => get_index d
  | DataWithPayment d => RECORD_KIND_PAYMENT_STARTING_INDEX + get_index d
  | DataWithMerklePayment d => RECORD_KIND_MERKLE_PAYMENT_STARTING_INDEX + get_index d
  end.

(** [impl Deserialize for RecordKind] on the [u32] read. *)
Definition record_kind_deserialize (num : Z) : option RecordKind :=
  let '(kind_type, data_type_index) :=
    if num <? RECORD_KIND_PAYMENT_STARTING_INDEX then (DataOnly, num)
    else if num <? RECORD_KIND_MERKLE_PAYMENT_STARTING_INDEX then
      (DataWithPayment, num - RECORD_KIND_PAYMENT_STARTING_INDEX)
    else (DataWithMerklePayment, num - RECORD_KIND_MERKLE_PAYMENT_STARTING_INDEX) in
  kind_type <$> from_index data_type_index.

(** libp2p's [kad::Record]. *)
Record KadRecord := {
  rec_key : bytes;
  rec_value : bytes;
  rec_publisher : option bytes;
  rec_expires : option Z;
}.

#[global] Instance KadRecord_eq_dec : EqDecision KadRecord.
Proof. solve_decision. Defined.

(** The variants of [ant_protocol::Error] the modelled functions return. *)
Inductive ProtocolError :=
  | ScratchpadCipherTextFailed
  | ScratchpadCipherTextInvalid
  | RecordHeaderParsingFailed
  | RecordParsingFailed.

(** [RecordHeader::SIZE]. *)
Definition RECORD_HEADER_SIZE : nat := 2.

Section header.
Context `{RmpHeader}.

Definition record_header_try_serialize (kind : RecordKind) : result bytes ProtocolError :=
  ok_or (header_to_vec (record_kind_serialize kind)) RecordHeaderParsingFailed.

Definition record_header_try_deserialize (b : bytes) : result RecordKind ProtocolError :=
  ok_or (header_from_slice b ≫= record_kind_deserialize) RecordHeaderParsingFailed.

(** [RecordHeader::from_record(record)?.kind]. *)
Definition record_header_from_record (r : KadRecord) : result RecordKind ProtocolError :=
  if (length (rec_value r) <? RECORD_HEADER_SIZE + 1)%nat then Err RecordHeaderParsingFailed
  else record_header_try_deserialize (take (RECORD_HEADER_SIZE + 1) (rec_value r)).

Definition is_record_of_type_chunk (r : KadRecord) : result bool ProtocolError :=
  (let? kind := record_header_from_record r in
   Ok (bool_decide (kind = DataOnly Chunk_t)))%rust.

Definition get_data_type (r : KadRecord) : result DataTypes ProtocolError :=
  (let? kind := record_header_from_record r in
   match kind with
   | DataOnly d | DataWithPayment d | DataWithMerklePayment d => Ok d
   end)%rust.

Context {T : Type} `{Serde T}.

Definition try_deserialize_record (r : KadRecord) : result T ProtocolError :=
  if (RECORD_HEADER_SIZE <? length (rec_value r))%nat then
    ok_or (rmp_from_slice (drop RECORD_HEADER_SIZE (rec_value r))) RecordParsingFailed
  else Err RecordParsingFailed.

Definition try_serialize_record (data : T) (kind : RecordKind) : result bytes ProtocolError :=
  (let? hdr := record_header_try_serialize kind in
   let? body := ok_or (rmp_to_vec data) RecordParsingFailed in
   Ok (hdr ++ body))%rust.
End header.

(** * Addresses: storage/address and lib.rs *)

Section addresses.
Context `{XorNameLib, Hex, Bls}.

Record ChunkAddress := mkChunkAddress { chunk_address_xorname : bytes }.
Record GraphEntryAddress := mkGraphEntryAddress { graph_address_owner : PublicKey }.
Record PointerAddress := mkPointerAddress { pointer_address_owner : PublicKey }.
Record ScratchpadAddress := mkScratchpadAddress { scratchpad_address_owner : PublicKey }.

Definition chunk_address_to_hex (a : ChunkAddress) : bytes := hex_encode (chunk_address_xorname a).

(** [ChunkAddress::from_hex]: [None] is [AddressParseError]. *)
Definition chunk_address_from_hex (h : bytes) : option ChunkAddress :=
  b ← hex_decode h;
  if bool_decide (length b = 32%nat) then Some (mkChunkAddress b) else None.

Definition graph_address_xorname (a : GraphEntryAddress) : bytes :=
  xorname_from_content (pk_to_bytes (graph_address_owner a)).
Definition pointer_address_xorname (a : PointerAddress) : bytes :=
  xorname_from_content (pk_to_bytes (pointer_address_owner a)).
Definition scratchpad_address_xorname (a : ScratchpadAddress) : bytes :=
  xorname_from_content (pk_to_bytes (scratchpad_address_owner a)).

Definition graph_address_to_hex (a : GraphEntryAddress) : bytes :=
  hex_encode (pk_to_bytes (graph_address_owner a)).
Definition pointer_address_to_hex (a : PointerAddress) : bytes :=
  hex_encode (pk_to_bytes (pointer_address_owner a)).
Definition scratchpad_address_to_hex (a : ScratchpadAddress) : bytes :=
  hex_encode (pk_to_bytes (scratchpad_address_owner a)).

Inductive NetworkAddress :=
  | NA_PeerId (b : bytes)
  | NA_ChunkAddress (a : ChunkAddress)
  | NA_GraphEntryAddress (a : GraphEntryAddress)
  | NA_ScratchpadAddress (a : ScratchpadAddress)
  | NA_PointerAddress (a : PointerAddress)
  | NA_RecordKey (b : bytes).

#[global] Instance ChunkAddress_eq_dec : EqDecision ChunkAddress.
Proof. solve_decision. Defined.
#[global] Instance GraphEntryAddress_eq_dec : EqDecision GraphEntryAddress.
Proof. solve_decision. Defined.
#[global] Instance PointerAddress_eq_dec : EqDecision PointerAddress.
Proof. solve_decision. Defined.
#[global] Instance ScratchpadAddress_eq_dec : EqDecision ScratchpadAddress.
Proof. solve_decision. Defined.
#[global] Instance NetworkAddress_eq_dec : EqDecision NetworkAddress.
Proof. solve_decision. Defined.

#[global] Instance NetworkAddress_countable : Countable NetworkAddress.
Proof.
  refine (inj_countable'
    (λ a, match a with
          | NA_PeerId b => (0%nat, b, None)
          | NA_ChunkAddress c => (1%nat, chunk_address_xorname c, None)
          | NA_GraphEntryAddress c => (2%nat, [], Some (graph_address_owner c))
          | NA_ScratchpadAddress c => (3%nat, [], Some (scratchpad_address_owner c))
          | NA_PointerAddress c => (4%nat, [], Some (pointer_address_owner c))
          | NA_RecordKey b => (5%nat, b, None)
          end)
    (λ x, match x with
          | (1%nat, b, None) => NA_ChunkAddress (mkChunkAddress b)
          | (2%nat, _, Some pk) => NA_GraphEntryAddress (mkGraphEntryAddress pk)
          | (3%nat, _, Some pk) => NA_ScratchpadAddress (mkScratchpadAddress pk)
          | (4%nat, _, Some pk) => NA_PointerAddress (mkPointerAddress pk)
          | (5%nat, b, None) => NA_RecordKey b
          | (_, b, _) => NA_PeerId b
          end) _).
  by intros [|[]|[]|[]|[]|].
Defined.

Definition as_bytes (a : NetworkAddress) : bytes :=
  match a with
  | NA_PeerId b | NA_RecordKey b => b
  | NA_ChunkAddress c => chunk_address_xorname c
  | NA_GraphEntryAddress c => graph_address_xorname c
  | NA_ScratchpadAddress c => scratchpad_address_xorname c
  | NA_PointerAddress c => pointer_address_xorname c
  end.

Definition network_address_xorname (a : NetworkAddress) : option bytes :=
  match a with
  | NA_ChunkAddress c => Some (chunk_address_xorname c)
  | NA_GraphEntryAddress c => Some (graph_address_xorname c)
  | NA_ScratchpadAddress c => Some (scratchpad_address_xorname c)
  | NA_PointerAddress c => Some (pointer_address_xorname c)
  | NA_PeerId _ => None
  | NA_RecordKey _ => None
  end.

Definition to_record_key (a : NetworkAddress) : bytes :=
  match a with
  | NA_RecordKey b => b
  | NA_ChunkAddress c => chunk_address_xorname c
  | NA_GraphEntryAddress c => graph_address_xorname c
  | NA_PointerAddress c => pointer_address_xorname c
  | NA_ScratchpadAddress c => scratchpad_address_xorname c
  | NA_PeerId b => b
  end.

Context `{Kad}.

Definition as_kbucket_key (a : NetworkAddress) : Z := kbucket_hash (as_bytes a).

Definition distance (a b : NetworkAddress) : Z :=
  kbucket_distance (as_kbucket_key a) (as_kbucket_key b).

Lemma to_record_key_as_bytes a : to_record_key a = as_bytes a.
Proof. by destruct a. Qed.

(** The distance of an address depends on its bytes only, so a record key stands for the
    address it was derived from. *)
Lemma distance_record_key a b : distance a (NA_RecordKey (to_record_key b)) = distance a b.
Proof. by destruct b. Qed.
End addresses.

Section distance_laws.
Context `{XorNameLib, Bls, KadLaws}.

Lemma distance_bound a b : 0 ≤ distance a b < 2 ^ 256.
Proof.
  unfold distance, as_kbucket_key. rewrite kbucket_distance_xor.
  pose proof (kbucket_hash_bound (as_bytes a)) as [Ha Ha'].
  pose proof (kbucket_hash_bound (as_bytes b)) as [Hb Hb'].
  assert (0 ≤ Z.lxor (kbucket_hash (as_bytes a)) (kbucket_hash (as_bytes b))) as Hx
    by (apply Z.lxor_nonneg; lia).
  split; [done|].
  destruct (Z.eq_dec (Z.lxor (kbucket_hash (as_bytes a)) (kbucket_hash (as_bytes b))) 0)
    as [->|Hne]; [lia|].
  apply Z.log2_lt_pow2; [lia|].
  eapply Z.le_lt_trans; [by apply Z.log2_lxor|].
  apply Z.max_lub_lt.
  - destruct (Z.eq_dec (kbucket_hash (as_bytes a)) 0) as [->|]; [done|].
    apply Z.log2_lt_pow2; lia.
  - destruct (Z.eq_dec (kbucket_hash (as_bytes b)) 0) as [->|]; [done|].
    apply Z.log2_lt_pow2; lia.
Qed.

Lemma distance_sym a b : distance a b = distance b a.
Proof. unfold distance. rewrite !kbucket_distance_xor. apply Z.lxor_comm. Qed.

(** The XOR metric is unidirectional: from a given point, one hash per distance. *)
Lemma distance_unidirectional a b c :
  distance a b = distance a c → as_kbucket_key b = as_kbucket_key c.
Proof.
  unfold distance. rewrite !kbucket_distance_xor. intros E.
  apply (f_equal (Z.lxor (as_kbucket_key a))) in E.
  by rewrite <- !Z.lxor_assoc, !Z.lxor_nilpotent, !Z.lxor_0_l in E.
Qed.
End distance_laws.

(** * Concrete instances, for evaluation *)

(** Bytes read as a little-endian number; keys of up to 32 bytes do not collide. *)
Definition toy_kad : Kad :=
  {| kbucket_hash b := from_le_bytes b mod 2 ^ 256; kbucket_distance := Z.lxor |}.

Lemma toy_kad_laws : @KadLaws toy_kad.
Proof. split; [intros b; apply Z.mod_pos_bound; lia | done]. Qed.

(** The content, cut or padded to 32 bytes. *)
Definition toy_xorname : XorNameLib := {| xorname_from_content b := resize 32 0 b |}.

Lemma toy_xorname_laws : @XorNameLaws toy_xorname.
Proof. split. intros b. apply length_resize. Qed.

Definition bool_cmp (a b : bool) : comparison :=
  match a, b with false, true => Lt | true, false => Gt | _, _ => Eq end.

#[global] Instance bool_cmp_laws : CmpLaws bool_cmp.
Proof. split; [by intros [] [] | by intros [] [] | by intros [] [] []]. Qed.

(** Two key pairs; a signature is the signer and the message. *)
Definition toy_bls : Bls :=
  {| PublicKey := bool; SecretKey := bool; Signature := bool * bytes; Ciphertext := bool * bytes;
     pk_compare := bool_cmp;
     sig_compare := prod_cmp bool_cmp (list_cmp Z.compare);
     pk_to_bytes pk := (if pk then 129 else 128) :: replicate 47 0;
     sig_to_bytes s := (if s.1 then 1 else 0) :: s.2;
     sk_public_key sk := sk;
     sk_sign sk m := (sk, m);
     pk_verify pk s m := bool_decide (s = (pk, m));
     pk_encrypt r pk m := (pk, m);
     ct_to_bytes c := (if c.1 then 1 else 0) :: c.2;
     ct_from_bytes b := match b with
                        | 0 :: m => Some (false, m) | 1 :: m => Some (true, m) | _ => None end;
     sk_decrypt sk c := if bool_decide (sk = c.1) then Some c.2 else None |}.

Lemma toy_bls_laws : @BlsLaws toy_bls.
Proof.
  split; simpl.
  - intros. by apply bool_decide_eq_true.
  - intros. by rewrite bool_decide_eq_true_2.
  - by intros [[] m].
  - by intros [] [].
  - by intros [].
  - intros []; do 2 eexists; (split; [reflexivity | lia]).
Qed.

Lemma toy_bls_ord_laws : @BlsOrdLaws toy_bls.
Proof. split; simpl; apply _. Qed.

(** Every byte written twice. *)
Fixpoint toy_hex_encode (b : bytes) : bytes :=
  match b with
  | [] => []
  | x :: b' => x :: x :: toy_hex_encode b'
  end.

Fixpoint toy_hex_decode (h : bytes) : option bytes :=
  match h with
  | [] => Some []
  | x :: _ :: h' => cons x <$> toy_hex_decode h'
  | [_] => None
  end.

Definition toy_hex : Hex := {| hex_encode := toy_hex_encode; hex_decode := toy_hex_decode |}.

Lemma toy_hex_laws : @HexLaws toy_hex.
Proof.
  split; intros b; simpl; induction b as [|x b IH]; simpl in *; [done| |done|lia].
  by rewrite IH.
Qed.

(** A tagged byte string, and a one-element array of a fixint. *)
Definition toy_serde_bytes : Serde bytes :=
  {| rmp_to_vec b := Some (196 :: b);
     rmp_from_slice l := match l with 196 :: b => Some b | _ => None end |}.

Lemma toy_serde_bytes_laws : @SerdeLaws bytes toy_serde_bytes.
Proof. split; intros t b [= <-]; done. Qed.

Definition toy_rmp_header : RmpHeader :=
  {| header_to_vec n := Some [145; n];
     header_from_slice l := match l with 145 :: n :: _ => Some n | _ => None end |}.

Lemma toy_rmp_header_laws : @RmpHeaderLaws toy_rmp_header.
Proof. split; [by eauto | by intros n b rest ? [= <-]]. Qed.

(** * Properties *)

Lemma get_from_index d : from_index (get_index d) = Some d.
Proof. by destruct d. Qed.

Lemma from_index_Some n d : from_index n = Some d ↔ n = get_index d.
Proof.
  split; [|intros ->; apply get_from_index].
  unfold from_index. intros Hn. repeat case_match; bool_to_prop; simplify_eq; done.
Qed.

Lemma get_index_bound d : 0 ≤ get_index d < 4.
Proof. destruct d; simpl; lia. Qed.

Lemma record_kind_serialize_bound k : 0 ≤ record_kind_serialize k < 128.
Proof.
  unfold record_kind_serialize, RECORD_KIND_PAYMENT_STARTING_INDEX,
    RECORD_KIND_MERKLE_PAYMENT_STARTING_INDEX.
  destruct k as [d|d|d]; pose proof (get_index_bound d); lia.
Qed.

(** The number of a record kind decodes to that kind, and no other number does. *)
Lemma record_kind_index_iff n k :
  record_kind_deserialize n = Some k ↔ n = record_kind_serialize k.
Proof.
  unfold record_kind_deserialize, record_kind_serialize, RECORD_KIND_PAYMENT_STARTING_INDEX,
    RECORD_KIND_MERKLE_PAYMENT_STARTING_INDEX.
  split.
  - destruct (Z.ltb_spec n 10); [|destruct (Z.ltb_spec n 20)];
      intros (d & Hd%from_index_Some & ->)%fmap_Some; simpl; lia.
  - intros ->. by destruct k as [[]|[]|[]].
Qed.

Lemma record_header_serialize_ok `{RmpHeaderLaws} k :
  ∃ b, record_header_try_serialize k = Ok b ∧ length b = 2%nat ∧
    ∀ rest, record_header_try_deserialize (b ++ rest) = Ok k.
Proof.
  destruct (header_fixint (record_kind_serialize k)) as (b & Hb & Hlen);
    [apply record_kind_serialize_bound|].
  exists b. unfold record_header_try_serialize, record_header_try_deserialize.
  rewrite Hb. split; [done|]. split; [done|]. intros rest.
  erewrite header_roundtrip; [|apply record_kind_serialize_bound|exact Hb].
  change (Some (record_kind_serialize k) ≫= record_kind_deserialize)
    with (record_kind_deserialize (record_kind_serialize k)).
  by rewrite (proj2 (record_kind_index_iff _ k) eq_refl).
Qed.

(** A serialised record decodes to what was serialised, header and data. *)
Lemma serialize_record_inv `{RmpHeaderLaws} {T} `{SerdeLaws T} (d : T) k v r :
  try_serialize_record d k = Ok v → rec_value r = v →
  record_header_from_record r = Ok k ∧ try_deserialize_record r = Ok d.
Proof.
  intros Hv Hr. unfold try_serialize_record in Hv. inv_ok.
  destruct (record_header_serialize_ok k) as (b & Hb & Hlen & Hde).
  rewrite Hb in Hok. injection Hok as <-.
  pose proof (rmp_roundtrip _ _ Hok0) as Hrt. pose proof (rmp_nonempty _ _ Hok0) as Hne.
  destruct t0 as [|x body]; [done|]. subst v.
  unfold record_header_from_record, try_deserialize_record, RECORD_HEADER_SIZE.
  rewrite Hr, length_app, Hlen. simpl.
  destruct b as [|b1 [|b2 [|]]]; try done. simpl in *. split.
  - apply (Hde [x]).
  - by rewrite Hrt.
Qed.

(** The encoding of a record's kind is a bijection between the twelve kinds and their
    numbers: a number decodes to a kind exactly when it is that kind's number, so unknown
    numbers (4 to 9, 14 to 19, 24 and above) are refused and no two kinds share one. *)
Theorem record_kind_bijection n k :
  record_kind_deserialize n = Some k ↔ n = record_kind_serialize k.
Proof. apply record_kind_index_iff. Qed.

(** A record built by [try_serialize_record] reads back: its header gives the kind it was
    built with, its data type is the kind's, and its body gives the data. *)
Theorem record_roundtrip `{RmpHeaderLaws} {T} `{SerdeLaws T} (d : T) (k : RecordKind) (v key : bytes) :
  try_serialize_record d k = Ok v →
  let r := {| rec_key := key; rec_value := v; rec_publisher := None; rec_expires := None |} in
  record_header_from_record r = Ok k ∧
  get_data_type r = Ok match k with
                       | DataOnly t | DataWithPayment t | DataWithMerklePayment t => t end ∧
  try_deserialize_record r = Ok d.
Proof.
  intros Hv r. destruct (serialize_record_inv d k v r Hv eq_refl) as [Hk Hd].
  split; [done|]. split; [|done]. unfold get_data_type. rewrite Hk. by destruct k.
Qed.

Lemma record_roundtrip_witness :
  let v := [145; 12; 196; 7; 8] in
  @try_serialize_record toy_rmp_header bytes toy_serde_bytes [7; 8] (DataWithPayment Pointer_t) = Ok v ∧
  @get_data_type toy_rmp_header (Build_KadRecord [1] v None None) = Ok Pointer_t ∧
  @try_deserialize_record bytes toy_serde_bytes (Build_KadRecord [1] v None None) = Ok [7; 8].
Proof.
  pose proof (@record_roundtrip toy_rmp_header toy_rmp_header_laws bytes toy_serde_bytes
    toy_serde_bytes_laws [7; 8] (DataWithPayment Pointer_t) [145; 12; 196; 7; 8] [1] eq_refl)
    as (_ & Ht & Hd).
  split; [reflexivity | split; [exact Ht | exact Hd]].
Defined.
