(* ===== verification/Storage.v ===== *)
(** * The stored data types: chunks, scratchpads, pointers and graph entries

    Models src/ant-protocol/src/storage/chunks.rs, scratchpad.rs, pointer.rs and graph.rs: the
    types, how they are built, signed, encrypted, verified and measured. A mutable type is owned by
    a BLS key: the theorems show that what its owner builds verifies and decrypts, that an update
    moves the counter up by one, and that the signed bytes determine the content. *)

From stdpp Require Import base gmap strings countable list.
From Stdlib Require Import ZArith Lia.
From S2P Require Import Prelude Protocol.

(** [std::mem::size_of] of the types with a size limit, fixed by the compiler. *)
Class Layout := {
  size_of_scratchpad : Z;
  size_of_graph_entry : Z;
  size_of_pointer : Z;
}.

(** * Chunk: chunks.rs *)

Definition BROTLI_MAX_OVERHEAD_BYTES : Z := 16.
Definition PKCS7_MAX_PADDING_BYTES : Z := 16.
Definition CHUNK_MAX_RAW_SIZE : Z := 4 * 1024 * 1024.
Definition CHUNK_MAX_SIZE : Z :=
  CHUNK_MAX_RAW_SIZE + BROTLI_MAX_OVERHEAD_BYTES + PKCS7_MAX_PADDING_BYTES.

Record Chunk := { chunk_address : ChunkAddress; chunk_value : bytes }.

#[global] Instance Chunk_eq_dec : EqDecision Chunk.
Proof. solve_decision. Defined.

Section chunk.
Context `{XorNameLib, Bls}.

Definition chunk_new (value : bytes) : Chunk :=
  {| chunk_address := mkChunkAddress (xorname_from_content value); chunk_value := value |}.

Definition chunk_network_address (c : Chunk) : NetworkAddress := NA_ChunkAddress (chunk_address c).

Definition chunk_name (c : Chunk) : bytes := chunk_address_xorname (chunk_address c).

Definition chunk_size (c : Chunk) : Z := Z.of_nat (length (chunk_value c)).

Definition chunk_is_too_big (c : Chunk) : bool := CHUNK_MAX_SIZE <? chunk_size c.

(** [impl Serialize for Chunk] and [impl Deserialize for Chunk]: only the value is written, the
    address is recomputed. *)
#[global] Instance serde_chunk `{Serde bytes} : Serde Chunk :=
  {| rmp_to_vec c := rmp_to_vec (chunk_value c);
     rmp_from_slice b := chunk_new <$> rmp_from_slice b |}.
End chunk.

(** * Scratchpad: scratchpad.rs *)

Section scratchpad.
Context `{XorNameLib, Hex, Bls, Layout}.

Definition SCRATCHPAD_MAX_SIZE : Z := 4 * 1024 * 1024.

Record Scratchpad := {
  sp_address : ScratchpadAddress;
  sp_data_encoding : Z;
  sp_encrypted_data : bytes;
  sp_counter : Z;
  sp_signature : Signature;
}.

#[global] Instance Scratchpad_eq_dec : EqDecision Scratchpad.
Proof. solve_decision. Defined.

(** [Scratchpad::bytes_for_signature]. *)
Definition scratchpad_bytes_for_signature
    (address : ScratchpadAddress) (data_encoding : Z) (encrypted_data : bytes) (counter : Z) : bytes :=
  to_be_bytes 8 data_encoding ++ scratchpad_address_to_hex address ++
  to_be_bytes 8 counter ++ encrypted_data.

(** [Scratchpad::new]; [r] is the randomness the encryption draws. *)
Definition scratchpad_new (r : Z) (owner : SecretKey) (data_encoding : Z)
    (unencrypted_data : bytes) (counter : Z) : Scratchpad :=
  let pk := sk_public_key owner in
  let encrypted_data := ct_to_bytes (pk_encrypt r pk unencrypted_data) in
  let addr := mkScratchpadAddress pk in
  let signature :=
    sk_sign owner (scratchpad_bytes_for_signature addr data_encoding encrypted_data counter) in
  {| sp_address := addr; sp_data_encoding := data_encoding; sp_encrypted_data := encrypted_data;
     sp_counter := counter; sp_signature := signature |}.

Definition scratchpad_new_with_signature (owner : PublicKey) (data_encoding : Z)
    (encrypted_data : bytes) (counter : Z) (signature : Signature) : Scratchpad :=
  {| sp_address := mkScratchpadAddress owner; sp_data_encoding := data_encoding;
     sp_encrypted_data := encrypted_data; sp_counter := counter; sp_signature := signature |}.

Definition scratchpad_owner (s : Scratchpad) : PublicKey := scratchpad_address_owner (sp_address s).

(** [Scratchpad::update]. The counter is a [u64] and [+= 1] wraps in a release build. *)
Definition scratchpad_update (r : Z) (s : Scratchpad) (unencrypted_data : bytes) (sk : SecretKey)
    : Scratchpad :=
  let counter := (sp_counter s + 1) mod 2 ^ 64 in
  let pk := scratchpad_owner s in
  let address := mkScratchpadAddress pk in
  let encrypted_data := ct_to_bytes (pk_encrypt r pk unencrypted_data) in
  let bytes_to_sign :=
    scratchpad_bytes_for_signature address (sp_data_encoding s) encrypted_data counter in
  {| sp_address := sp_address s; sp_data_encoding := sp_data_encoding s;
     sp_encrypted_data := encrypted_data; sp_counter := counter;
     sp_signature := sk_sign sk bytes_to_sign |}.

Definition scratchpad_verify_signature (s : Scratchpad) : bool :=
  pk_verify (scratchpad_owner s) (sp_signature s)
    (scratchpad_bytes_for_signature (sp_address s) (sp_data_encoding s) (sp_encrypted_data s)
       (sp_counter s)).

Definition scratchpad_decrypt_data (s : Scratchpad) (sk : SecretKey) : result bytes ProtocolError :=
  (let? cipher := ok_or (ct_from_bytes (sp_encrypted_data s)) ScratchpadCipherTextFailed in
   let? b := ok_or (sk_decrypt sk cipher) ScratchpadCipherTextInvalid in
   Ok b)%rust.

Definition scratchpad_encrypted_data_hash (s : Scratchpad) : bytes :=
  xorname_from_content (sp_encrypted_data s).

Definition scratchpad_network_address (s : Scratchpad) : NetworkAddress :=
  NA_ScratchpadAddress (sp_address s).

Definition scratchpad_payload_size (s : Scratchpad) : Z := Z.of_nat (length (sp_encrypted_data s)).

Definition scratchpad_size (s : Scratchpad) : Z := size_of_scratchpad + scratchpad_payload_size s.

Definition scratchpad_is_too_big (s : Scratchpad) : bool := SCRATCHPAD_MAX_SIZE <? scratchpad_size s.

Definition scratchpad_hash (s : Scratchpad) : bytes :=
  xorname_from_content
    (scratchpad_address_to_hex (sp_address s) ++ to_be_bytes 8 (sp_data_encoding s) ++
     sp_encrypted_data s ++ to_be_bytes 8 (sp_counter s) ++ sig_to_bytes (sp_signature s)).
End scratchpad.

(** * Pointer: pointer.rs *)

Section pointer.
Context `{XorNameLib, Hex, Bls, Layout}.

Inductive PointerTarget :=
  | PT_ChunkAddress (a : ChunkAddress)
  | PT_GraphEntryAddress (a : GraphEntryAddress)
  | PT_PointerAddress (a : PointerAddress)
  | PT_ScratchpadAddress (a : ScratchpadAddress).

#[global] Instance PointerTarget_eq_dec : EqDecision PointerTarget.
Proof. solve_decision. Defined.

Definition pointer_target_xorname (t : PointerTarget) : bytes :=
  match t with
  | PT_ChunkAddress a => chunk_address_xorname a
  | PT_GraphEntryAddress a => graph_address_xorname a
  | PT_PointerAddress a => pointer_address_xorname a
  | PT_ScratchpadAddress a => scratchpad_address_xorname a
  end.

Definition pointer_target_to_hex (t : PointerTarget) : bytes :=
  match t with
  | PT_ChunkAddress a => chunk_address_to_hex a
  | PT_GraphEntryAddress a => graph_address_to_hex a
  | PT_PointerAddress a => pointer_address_to_hex a
  | PT_ScratchpadAddress a => scratchpad_address_to_hex a
  end.

Record Pointer := {
  ptr_owner : PublicKey;
  ptr_counter : Z;
  ptr_target : PointerTarget;
  ptr_signature : Signature;
}.

#[global] Instance Pointer_eq_dec : EqDecision Pointer.
Proof. solve_decision. Defined.

Context `{Serde PointerTarget}.

(** [Pointer::bytes_to_sign]: a counter up to [u32::MAX] is signed in four bytes, a larger one in
    eight. *)
Definition pointer_bytes_to_sign (owner : PublicKey) (counter : Z) (target : PointerTarget) : bytes :=
  let counter_bytes :=
    if u32_max <? counter then to_le_bytes 8 counter else to_le_bytes 4 counter in
  pk_to_bytes owner ++ counter_bytes ++
  match rmp_to_vec target with Some target_bytes => target_bytes | None => [] end.

Definition pointer_new (owner : SecretKey) (counter : Z) (target : PointerTarget) : Pointer :=
  let pubkey := sk_public_key owner in
  {| ptr_owner := pubkey; ptr_counter := counter; ptr_target := target;
     ptr_signature := sk_sign owner (pointer_bytes_to_sign pubkey counter target) |}.

Definition pointer_new_with_signature (owner : PublicKey) (counter : Z) (target : PointerTarget)
    (signature : Signature) : Pointer :=
  {| ptr_owner := owner; ptr_counter := counter; ptr_target := target; ptr_signature := signature |}.

Definition pointer_address (p : Pointer) : PointerAddress := mkPointerAddress (ptr_owner p).

Definition pointer_bytes_for_signature (p : Pointer) : bytes :=
  pointer_bytes_to_sign (ptr_owner p) (ptr_counter p) (ptr_target p).

Definition pointer_xorname (p : Pointer) : bytes := pointer_address_xorname (pointer_address p).

Definition pointer_verify_signature (p : Pointer) : bool :=
  pk_verify (ptr_owner p) (ptr_signature p) (pointer_bytes_for_signature p).
End pointer.

(** * GraphEntry: graph.rs *)

Section graph.
Context `{XorNameLib, Hex, Bls, Layout}.

Record GraphEntry := {
  ge_owner : PublicKey;
  ge_parents : list PublicKey;
  ge_content : bytes;
  ge_descendants : list (PublicKey * bytes);
  ge_signature : Signature;
}.

#[global] Instance GraphEntry_eq_dec : EqDecision GraphEntry.
Proof. solve_decision. Defined.

#[global] Instance GraphEntry_countable : Countable GraphEntry.
Proof.
  refine (inj_countable'
    (λ g, (ge_owner g, ge_parents g, ge_content g, ge_descendants g, ge_signature g))
    (λ x, match x with (o, p, c, d, s) => Build_GraphEntry o p c d s end) _).
  by intros [].
Defined.

Definition GRAPH_ENTRY_MAX_SIZE : Z := 100 * 1024.

(** The ASCII markers of the signed bytes. *)
Definition str_parent : bytes := [112; 97; 114; 101; 110; 116].
Definition str_content : bytes := [99; 111; 110; 116; 101; 110; 116].
Definition str_descendants : bytes := [100; 101; 115; 99; 101; 110; 100; 97; 110; 116; 115].

Definition graph_entry_bytes_to_sign (owner : PublicKey) (parents : list PublicKey)
    (content : bytes) (descendants : list (PublicKey * bytes)) : bytes :=
  pk_to_bytes owner ++ str_parent ++ concat (pk_to_bytes <$> parents) ++
  str_content ++ content ++
  str_descendants ++ concat ((λ '(p, c), pk_to_bytes p ++ c) <$> descendants).

Definition graph_entry_new (owner : SecretKey) (parents : list PublicKey) (content : bytes)
    (descendants : list (PublicKey * bytes)) : GraphEntry :=
  let pk := sk_public_key owner in
  {| ge_owner := pk; ge_parents := parents; ge_content := content; ge_descendants := descendants;
     ge_signature := sk_sign owner (graph_entry_bytes_to_sign pk parents content descendants) |}.

Definition graph_entry_new_with_signature (owner : PublicKey) (parents : list PublicKey)
    (content : bytes) (descendants : list (PublicKey * bytes)) (signature : Signature) : GraphEntry :=
  {| ge_owner := owner; ge_parents := parents; ge_content := content;
     ge_descendants := descendants; ge_signature := signature |}.

Definition graph_entry_address (g : GraphEntry) : GraphEntryAddress := mkGraphEntryAddress (ge_owner g).

Definition graph_entry_bytes_for_signature (g : GraphEntry) : bytes :=
  graph_entry_bytes_to_sign (ge_owner g) (ge_parents g) (ge_content g) (ge_descendants g).

Definition graph_entry_verify_signature (g : GraphEntry) : bool :=
  pk_verify (ge_owner g) (ge_signature g) (graph_entry_bytes_for_signature g).

Definition graph_entry_size (g : GraphEntry) : Z :=
  size_of_graph_entry +
  foldr (λ '(p, c) acc, Z.of_nat (length (pk_to_bytes p)) + Z.of_nat (length c) + acc) 0
    (ge_descendants g) +
  foldr (λ p acc, Z.of_nat (length (pk_to_bytes p)) + acc) 0 (ge_parents g).

Definition graph_entry_is_too_big (g : GraphEntry) : bool := GRAPH_ENTRY_MAX_SIZE <? graph_entry_size g.

(** [#[derive(Ord)]]: the fields are compared in their order. *)
Definition graph_entry_cmp (a b : GraphEntry) : comparison :=
  then_cmp (pk_compare (ge_owner a) (ge_owner b))
  (then_cmp (list_cmp pk_compare (ge_parents a) (ge_parents b))
  (then_cmp (list_cmp Z.compare (ge_content a) (ge_content b))
  (then_cmp (list_cmp (λ '(p, c) '(q, d), then_cmp (pk_compare p q) (list_cmp Z.compare c d))
               (ge_descendants a) (ge_descendants b))
  (sig_compare (ge_signature a) (ge_signature b))))).
End graph.

(** Graph entries are totally ordered, as [BTreeSet] requires, when keys and signatures are. *)
#[global] Instance graph_entry_cmp_laws `{BlsOrdLaws} : CmpLaws graph_entry_cmp.
Proof.
  set (proj := λ g : GraphEntry,
    (ge_owner g, (ge_parents g, (ge_content g, (ge_descendants g, ge_signature g))))).
  set (cmp := prod_cmp pk_compare (prod_cmp (list_cmp pk_compare) (prod_cmp (list_cmp Z.compare)
    (prod_cmp (list_cmp (prod_cmp pk_compare (list_cmp Z.compare))) sig_compare)))).
  assert (∀ a b, graph_entry_cmp a b = cmp (proj a) (proj b)) as E.
  { intros a b. unfold graph_entry_cmp, cmp, prod_cmp, proj. simpl. do 4 f_equal.
    apply list_cmp_ext. by intros [] []. }
  apply (cmp_laws_inj cmp proj); [|done|].
  - intros [] [] [= -> -> -> -> ->]. done.
  - apply _.
Qed.

(** * Chunks are content-addressed *)

Section chunk_facts.
Context `{XorNameLib, Bls, Serde bytes}.

(** A chunk whose address is the hash of its value, which [chunk_new] and deserialisation give. *)
Definition chunk_wf (c : Chunk) : Prop :=
  chunk_address c = mkChunkAddress (xorname_from_content (chunk_value c)).

Lemma chunk_new_wf v : chunk_wf (chunk_new v).
Proof. done. Qed.

Lemma chunk_from_slice_wf b c : rmp_from_slice b = Some c → chunk_wf c.
Proof. intros (v & _ & ->)%fmap_Some. apply chunk_new_wf. Qed.

Lemma chunk_serde_roundtrip `{!SerdeLaws bytes} c b :
  chunk_wf c → rmp_to_vec c = Some b → rmp_from_slice b = Some c.
Proof.
  intros Hwf Hb. simpl in *. rewrite (rmp_roundtrip _ _ Hb). simpl. f_equal.
  destruct c as [a v]. unfold chunk_wf, chunk_new in *. simpl in *. by subst.
Qed.

Lemma chunk_serialize_nonempty `{!SerdeLaws bytes} (c : Chunk) b : rmp_to_vec c = Some b → b ≠ [].
Proof. simpl. apply rmp_nonempty. Qed.
End chunk_facts.

(** * Signed bytes determine the content *)

Section signed_bytes.
Context `{XorNameLib, HexLaws, BlsLaws}.

Lemma hex_encode_inj a b : hex_encode a = hex_encode b → a = b.
Proof. intros E. apply (f_equal hex_decode) in E. rewrite !hex_roundtrip in E. by injection E. Qed.

Lemma scratchpad_address_to_hex_inj a b :
  scratchpad_address_to_hex a = scratchpad_address_to_hex b → a = b.
Proof. destruct a, b. intros E%hex_encode_inj%(inj pk_to_bytes). simpl in E. by subst. Qed.

Lemma length_scratchpad_address_to_hex a : length (scratchpad_address_to_hex a) = 96%nat.
Proof. unfold scratchpad_address_to_hex. by rewrite hex_length, pk_to_bytes_length. Qed.

Lemma scratchpad_bytes_inj a1 e1 d1 c1 a2 e2 d2 c2 :
  0 ≤ e1 < 2 ^ 64 → 0 ≤ e2 < 2 ^ 64 → 0 ≤ c1 < 2 ^ 64 → 0 ≤ c2 < 2 ^ 64 →
  scratchpad_bytes_for_signature a1 e1 d1 c1 = scratchpad_bytes_for_signature a2 e2 d2 c2 →
  a1 = a2 ∧ e1 = e2 ∧ d1 = d2 ∧ c1 = c2.
Proof.
  unfold scratchpad_bytes_for_signature. intros He1 He2 Hc1 Hc2 E.
  apply app_eq_heads in E as [Ee E]; [|by rewrite !length_to_be_bytes].
  apply app_eq_heads in E as [Ea E]; [|by rewrite !length_scratchpad_address_to_hex].
  apply app_eq_heads in E as [Ec Ed]; [|by rewrite !length_to_be_bytes].
  apply to_be_bytes_inj in Ee; [|done..]. apply to_be_bytes_inj in Ec; [|done..].
  apply scratchpad_address_to_hex_inj in Ea. done.
Qed.

(** A list of keys followed by the marker "content" is uniquely read: no key starts with [c]. *)
Lemma graph_parents_inj ps qs r1 r2 :
  concat (pk_to_bytes <$> ps) ++ str_content ++ r1 =
  concat (pk_to_bytes <$> qs) ++ str_content ++ r2 → ps = qs ∧ r1 = r2.
Proof.
  revert qs. induction ps as [|p ps IH]; intros [|q qs] E; cbn [concat fmap list_fmap] in E.
  - split; [done|]. rewrite !app_nil_l in E. by apply app_inv_head in E.
  - exfalso. destruct (pk_to_bytes_flag q) as (b & l & Hb & ?). rewrite Hb in E.
    cbn in E. injection E as E _. lia.
  - exfalso. destruct (pk_to_bytes_flag p) as (b & l & Hb & ?). rewrite Hb in E.
    cbn in E. injection E as E _. lia.
  - rewrite <- !app_assoc in E.
    apply app_eq_heads in E as [->%(inj pk_to_bytes) E]; [|by rewrite !pk_to_bytes_length].
    apply IH in E as [-> ->]. done.
Qed.

Lemma graph_descendants_inj (ds es : list (PublicKey * bytes)) :
  Forall (λ d, length d.2 = 32%nat) ds → Forall (λ d, length d.2 = 32%nat) es →
  concat ((λ '(p, c), pk_to_bytes p ++ c) <$> ds) =
  concat ((λ '(p, c), pk_to_bytes p ++ c) <$> es) → ds = es.
Proof.
  intros Hds. revert es. induction Hds as [|[p c] ds Hc Hds IH]; intros es Hes E;
    destruct Hes as [|[q d] es Hd Hes]; cbn [concat fmap list_fmap] in E.
  - done.
  - apply (f_equal length) in E. rewrite !length_app, pk_to_bytes_length in E. simpl in E. lia.
  - apply (f_equal length) in E. rewrite !length_app, pk_to_bytes_length in E. simpl in E. lia.
  - simpl in Hc, Hd.
    apply app_eq_heads in E as [E1 E]; [|by rewrite !length_app, !pk_to_bytes_length, Hc, Hd].
    apply app_eq_heads in E1 as [->%(inj pk_to_bytes) ->]; [|by rewrite !pk_to_bytes_length].
    by rewrite (IH es).
Qed.

(** The sizes the Rust types fix: [GraphContent] is [[u8; 32]]. *)
Definition graph_entry_sized (g : GraphEntry) : Prop :=
  length (ge_content g) = 32%nat ∧ Forall (λ d, length d.2 = 32%nat) (ge_descendants g).

Lemma graph_bytes_inj g1 g2 :
  graph_entry_sized g1 → graph_entry_sized g2 →
  graph_entry_bytes_for_signature g1 = graph_entry_bytes_for_signature g2 →
  ge_owner g1 = ge_owner g2 ∧ ge_parents g1 = ge_parents g2 ∧
  ge_content g1 = ge_content g2 ∧ ge_descendants g1 = ge_descendants g2.
Proof.
  unfold graph_entry_bytes_for_signature, graph_entry_bytes_to_sign.
  intros [Hc1 Hd1] [Hc2 Hd2] E.
  apply app_eq_heads in E as [Ho E]; [|by rewrite !pk_to_bytes_length].
  apply (inj pk_to_bytes) in Ho.
  apply app_eq_heads in E as [_ E]; [|done].
  apply graph_parents_inj in E as [Hp E].
  apply app_eq_heads in E as [Hc E]; [|by rewrite Hc1, Hc2].
  apply app_eq_heads in E as [_ E]; [|done].
  apply graph_descendants_inj in E; done.
Qed.

Context `{SPT : Serde PointerTarget}.

(** Counters of the same width are not confused with each other. *)
Lemma pointer_bytes_inj `{!SerdeLaws PointerTarget} o1 c1 t1 o2 c2 t2 :
  0 ≤ c1 < 2 ^ 64 → 0 ≤ c2 < 2 ^ 64 → (u32_max <? c1) = (u32_max <? c2) →
  is_Some (rmp_to_vec t1) → is_Some (rmp_to_vec t2) →
  pointer_bytes_to_sign o1 c1 t1 = pointer_bytes_to_sign o2 c2 t2 →
  o1 = o2 ∧ c1 = c2 ∧ t1 = t2.
Proof.
  unfold pointer_bytes_to_sign. intros Hc1 Hc2 Hw [b1 Ht1] [b2 Ht2] E.
  rewrite Ht1, Ht2 in E.
  apply app_eq_heads in E as [Ho E]; [|by rewrite !pk_to_bytes_length].
  apply (inj pk_to_bytes) in Ho. split; [done|].
  assert (c1 = c2 ∧ b1 = b2) as [-> ->].
  { rewrite <- Hw in E. destruct (u32_max <? c1) eqn:Hb.
    - apply app_eq_heads in E as [Ec ->]; [|by rewrite !length_to_le_bytes].
      apply to_le_bytes_inj in Ec; done.
    - symmetry in Hw. apply Z.ltb_ge in Hb, Hw. unfold u32_max in Hb, Hw.
      apply app_eq_heads in E as [Ec ->]; [|by rewrite !length_to_le_bytes].
      apply to_le_bytes_inj in Ec; [done|..]; change (256 ^ Z.of_nat 4) with (2 ^ 32); lia. }
  apply rmp_roundtrip in Ht1, Ht2. split; [done|]. congruence.
Qed.
End signed_bytes.

(** * Owner updates of a scratchpad *)

Section scratchpad_updates.
Context `{XorNameLib, HexLaws, BlsLaws}.

(** The owner updates a scratchpad with each element of a list in turn; an element is the data
    and the randomness of its encryption. *)
Definition scratchpad_updates (sk : SecretKey) (s : Scratchpad) (us : list (Z * bytes)) : Scratchpad :=
  foldl (λ s '(r, d), scratchpad_update r s d sk) s us.

(** What holds of a scratchpad its owner wrote with [d]. *)
Definition scratchpad_owned (sk : SecretKey) (s : Scratchpad) (d : bytes) : Prop :=
  sp_address s = mkScratchpadAddress (sk_public_key sk) ∧
  scratchpad_verify_signature s = true ∧ scratchpad_decrypt_data s sk = Ok d.

Lemma scratchpad_new_owned r sk e d c : scratchpad_owned sk (scratchpad_new r sk e d c) d.
Proof.
  split; [done|]. split.
  - apply bls_sign_verify.
  - unfold scratchpad_decrypt_data, scratchpad_new. simpl.
    rewrite ct_roundtrip. simpl. by rewrite bls_decrypt.
Qed.

Lemma scratchpad_update_owned r sk s d0 d :
  scratchpad_owned sk s d0 → scratchpad_owned sk (scratchpad_update r s d sk) d.
Proof.
  intros (Ha & _ & _). split; [done|].
  unfold scratchpad_verify_signature, scratchpad_decrypt_data, scratchpad_update,
    scratchpad_owner; simpl. rewrite Ha. simpl. split; [apply bls_sign_verify|].
  rewrite ct_roundtrip. simpl. by rewrite bls_decrypt.
Qed.

Lemma scratchpad_updates_owned sk s d0 us :
  scratchpad_owned sk s d0 →
  scratchpad_owned sk (scratchpad_updates sk s us) (default d0 (last us.*2)).
Proof.
  revert s d0. induction us as [|[r d] us IH]; intros s d0 Hs; [done|].
  cbn [scratchpad_updates foldl]. apply (scratchpad_update_owned r sk s d0 d) in Hs.
  specialize (IH _ _ Hs). rewrite fmap_cons, last_cons. by destruct (last us.*2).
Qed.

Lemma scratchpad_updates_counter sk s us :
  0 ≤ sp_counter s → sp_counter s + Z.of_nat (length us) < 2 ^ 64 →
  sp_counter (scratchpad_updates sk s us) = sp_counter s + Z.of_nat (length us).
Proof.
  revert s. induction us as [|[r d] us IH]; intros s Hs0 Hmax; simpl length in *; [cbn; lia|].
  cbn [scratchpad_updates foldl]. fold (scratchpad_updates sk (scratchpad_update r s d sk) us).
  assert (sp_counter (scratchpad_update r s d sk) = sp_counter s + 1) as Hc
    by (simpl; apply Z.mod_small; lia).
  rewrite IH; rewrite Hc; lia.
Qed.
End scratchpad_updates.

(** * Properties *)

(** A scratchpad created by a key and then updated any number of times by the same key (before
    the 64-bit counter is exhausted) verifies, stays at the owner's address, decrypts with the
    owner's key to the data written last, and its counter is the first one plus the number of
    updates. *)
Theorem scratchpad_lifecycle `{XorNameLib, HexLaws, BlsLaws}
    (r : Z) (sk : SecretKey) (enc c0 : Z) (d0 : bytes) (us : list (Z * bytes)) :
  0 ≤ c0 → c0 + Z.of_nat (length us) < 2 ^ 64 →
  let s := scratchpad_updates sk (scratchpad_new r sk enc d0 c0) us in
  scratchpad_verify_signature s = true ∧
  sp_address s = mkScratchpadAddress (sk_public_key sk) ∧
  scratchpad_decrypt_data s sk = Ok (default d0 (last us.*2)) ∧
  sp_counter s = c0 + Z.of_nat (length us).
Proof.
  intros Hc Hmax s.
  destruct (scratchpad_updates_owned sk _ _ us (scratchpad_new_owned r sk enc d0 c0))
    as (Ha & Hv & Hd).
  split; [done|]. split; [done|]. split; [done|]. by apply scratchpad_updates_counter.
Qed.

Lemma scratchpad_lifecycle_witness :
  let s := @scratchpad_updates toy_hex toy_bls true
             (@scratchpad_new toy_hex toy_bls 0 true 42 [1] 5) [(1, [2]); (2, [3; 4])] in
  @scratchpad_verify_signature toy_hex toy_bls s = true ∧
  @scratchpad_decrypt_data toy_bls s true = Ok [3; 4] ∧ @sp_counter toy_bls s = 7.
Proof.
  pose proof (@scratchpad_lifecycle toy_xorname toy_hex toy_hex_laws toy_bls toy_bls_laws
    0 true 42 5 [1] [(1, [2]); (2, [3; 4])] ltac:(lia) ltac:(simpl; lia)) as (Hv & _ & Hd & Hc).
  split; [exact Hv | split; [exact Hd | exact Hc]].
Defined.

(** Two scratchpads with the same signed bytes have the same address, encoding, encrypted data
    and counter, so a signature can not be moved to another content, counter or owner. *)
Theorem scratchpad_signature_binds `{HexLaws, BlsLaws} (s1 s2 : Scratchpad) :
  0 ≤ sp_data_encoding s1 < 2 ^ 64 → 0 ≤ sp_data_encoding s2 < 2 ^ 64 →
  0 ≤ sp_counter s1 < 2 ^ 64 → 0 ≤ sp_counter s2 < 2 ^ 64 →
  scratchpad_bytes_for_signature (sp_address s1) (sp_data_encoding s1) (sp_encrypted_data s1)
    (sp_counter s1) =
  scratchpad_bytes_for_signature (sp_address s2) (sp_data_encoding s2) (sp_encrypted_data s2)
    (sp_counter s2) →
  sp_signature s1 = sp_signature s2 → s1 = s2.
Proof.
  intros He1 He2 Hc1 Hc2 E Hs.
  destruct (scratchpad_bytes_inj _ _ _ _ _ _ _ _ He1 He2 Hc1 Hc2 E) as (? & ? & ? & ?).
  destruct s1, s2; simpl in *; by subst.
Qed.

Lemma scratchpad_signature_binds_witness :
  let s := @scratchpad_new toy_hex toy_bls 0 true 42 [1; 9] 5 in
  @scratchpad_new_with_signature toy_bls true 42 [1; 1; 9] 5 (@sp_signature toy_bls s) = s.
Proof.
  exact (@scratchpad_signature_binds toy_hex toy_hex_laws toy_bls toy_bls_laws
    (@scratchpad_new_with_signature toy_bls true 42 [1; 1; 9] 5
      (@sp_signature toy_bls (@scratchpad_new toy_hex toy_bls 0 true 42 [1; 9] 5)))
    (@scratchpad_new toy_hex toy_bls 0 true 42 [1; 9] 5)
    ltac:(simpl; lia) ltac:(simpl; lia) ltac:(simpl; lia) ltac:(simpl; lia) eq_refl eq_refl).
Defined.

(** The signed bytes of a graph entry determine its owner, parents, content and descendants,
    although the lists are written without their lengths: an entry can not be re-read with other
    links under the same signature. *)
Theorem graph_entry_signature_binds `{BlsLaws} (g1 g2 : GraphEntry) :
  graph_entry_sized g1 → graph_entry_sized g2 →
  graph_entry_bytes_for_signature g1 = graph_entry_bytes_for_signature g2 →
  ge_signature g1 = ge_signature g2 → g1 = g2.
Proof.
  intros Hs1 Hs2 E Hsig. destruct (graph_bytes_inj g1 g2 Hs1 Hs2 E) as (? & ? & ? & ?).
  destruct g1, g2; simpl in *; by subst.
Qed.

Lemma graph_entry_signature_binds_witness :
  let g := @graph_entry_new toy_bls true [false; true] (replicate 32 7) [(false, replicate 32 9)] in
  @graph_entry_new_with_signature toy_bls true [false; true] (replicate 32 7)
    [(false, replicate 32 9)] (@ge_signature toy_bls g) = g.
Proof.
  exact (@graph_entry_signature_binds toy_bls toy_bls_laws
    (@graph_entry_new_with_signature toy_bls true [false; true] (replicate 32 7)
      [(false, replicate 32 9)]
      (@ge_signature toy_bls (@graph_entry_new toy_bls true [false; true] (replicate 32 7)
        [(false, replicate 32 9)])))
    (@graph_entry_new toy_bls true [false; true] (replicate 32 7) [(false, replicate 32 9)])
    ltac:(by split; repeat constructor) ltac:(by split; repeat constructor) eq_refl eq_refl).
Defined.

(** A pointer built by a key verifies, and its signed bytes determine owner, counter and target
    among the pointers whose counter has the same signed width (four bytes up to [u32::MAX], eight
    above). *)
Theorem pointer_signature_binds `{BlsLaws} `{SPT : Serde PointerTarget} `{!SerdeLaws PointerTarget}
    (sk1 sk2 : SecretKey) (c1 c2 : Z) (t1 t2 : PointerTarget) :
  0 ≤ c1 < 2 ^ 64 → 0 ≤ c2 < 2 ^ 64 → (u32_max <? c1) = (u32_max <? c2) →
  is_Some (rmp_to_vec t1) → is_Some (rmp_to_vec t2) →
  pointer_verify_signature (pointer_new sk1 c1 t1) = true ∧
  (pointer_bytes_for_signature (pointer_new sk1 c1 t1) =
   pointer_bytes_for_signature (pointer_new sk2 c2 t2) →
   sk_public_key sk1 = sk_public_key sk2 ∧ c1 = c2 ∧ t1 = t2).
Proof.
  intros. split; [apply bls_sign_verify|]. intros E. by eapply pointer_bytes_inj.
Qed.

(** A target as a tag and the bytes of its address. *)
Definition toy_serde_target : @Serde (@PointerTarget toy_bls) :=
  {| rmp_to_vec t := Some match t with
       | PT_ChunkAddress a => 0 :: chunk_address_xorname a
       | PT_GraphEntryAddress a => [1; if @graph_address_owner toy_bls a then 1 else 0]
       | PT_PointerAddress a => [2; if @pointer_address_owner toy_bls a then 1 else 0]
       | PT_ScratchpadAddress a => [3; if @scratchpad_address_owner toy_bls a then 1 else 0]
       end;
     rmp_from_slice b := match b with
       | 0 :: x => Some (PT_ChunkAddress (mkChunkAddress x))
       | [1; o] => Some (PT_GraphEntryAddress (@mkGraphEntryAddress toy_bls (o =? 1)))
       | [2; o] => Some (PT_PointerAddress (@mkPointerAddress toy_bls (o =? 1)))
       | [3; o] => Some (PT_ScratchpadAddress (@mkScratchpadAddress toy_bls (o =? 1)))
       | _ => None end |}.

Lemma toy_serde_target_laws : @SerdeLaws (@PointerTarget toy_bls) toy_serde_target.
Proof. split; intros [[]|[[]]|[[]]|[[]]] b [= <-]; done. Qed.

Lemma pointer_signature_binds_witness :
  let t := @PT_GraphEntryAddress toy_bls (@mkGraphEntryAddress toy_bls false) in
  @pointer_verify_signature toy_bls toy_serde_target
    (@pointer_new toy_bls toy_serde_target true 7 t) = true ∧
  (@pointer_bytes_for_signature toy_bls toy_serde_target
     (@pointer_new toy_bls toy_serde_target true 7 t) =
   @pointer_bytes_for_signature toy_bls toy_serde_target
     (@pointer_new toy_bls toy_serde_target true 7 t) → true = true ∧ 7 = 7 ∧ t = t).
Proof.
  exact (@pointer_signature_binds toy_bls toy_bls_laws toy_serde_target toy_serde_target_laws
    true true 7 7 _ _ ltac:(lia) ltac:(lia) eq_refl ltac:(eexists; reflexivity)
    ltac:(eexists; reflexivity)).
Defined.
