(* ===== verification/RecordCache.v ===== *)
(** * The record cache

    Models [RecordCache] of src/ant-node/src/networking/record_store.rs: a bounded map from record
    keys to records with an expiry time, which makes room by dropping expired entries and then the
    oldest ones. The clock is a parameter: [clk i] is the i-th reading of [SystemTime::now()] an
    operation makes, in nanoseconds. The eviction loop has no static bound, so it takes fuel and
    [None] stands for not having ended; [cache_free_up_space_ok] shows that as much fuel as the
    number of entries is enough when the clock has moved since the entries were cached, and
    [cache_eviction_diverges] that no fuel is enough when it has not. *)

From stdpp Require Import base gmap strings countable list.
From Stdlib Require Import ZArith Lia.
From S2P Require Import Prelude Protocol.

Definition NANOS : Z := 10 ^ 9.

(** [Duration::from_secs]. *)
Definition from_secs (s : Z) : Z := s * NANOS.

(** [Duration::as_secs]. *)
Definition as_secs (d : Z) : Z := d / NANOS.

Definition CACHE_TIMEOUT : Z := from_secs 360.

Record RecordCache := {
  rc_records : gmap bytes (KadRecord * Z);
  rc_size : nat;
  rc_timeout : Z;
}.

Definition cache_new (cache_size : nat) (cache_timeout : Z) : RecordCache :=
  {| rc_records := ∅; rc_size := cache_size; rc_timeout := cache_timeout |}.

Definition cache_with (c : RecordCache) (m : gmap bytes (KadRecord * Z)) : RecordCache :=
  {| rc_records := m; rc_size := rc_size c; rc_timeout := rc_timeout c |}.

(** [RecordCache::remove]: what was there, and the cache without it. *)
Definition cache_remove (key : bytes) (c : RecordCache) : option (KadRecord * Z) * RecordCache :=
  (rc_records c !! key, cache_with c (delete key (rc_records c))).

Definition cache_get (key : bytes) (c : RecordCache) : option (KadRecord * Z) := rc_records c !! key.

Section cache.
Context `{HashOrder}.

(** The scan of [remove_oldest_entry]: the oldest timestamp below the bound so far, and its key. *)
Definition oldest_step (acc : Z * option bytes) (e : bytes * (KadRecord * Z)) : Z * option bytes :=
  let '(key, (_, timestamp)) := e in
  if timestamp <? acc.1 then (timestamp, Some key) else acc.

Definition remove_oldest_entry (now : Z) (c : RecordCache) : RecordCache :=
  let '(_, key_to_remove) :=
    foldl oldest_step (now + rc_timeout c, None) (hm_iter (rc_records c)) in
  match key_to_remove with
  | Some key => cache_with c (delete key (rc_records c))
  | None => c
  end.

(** The [while] loop of [free_up_space]; [i] is the next reading of the clock. *)
Fixpoint cache_evict (fuel : nat) (clk : nat → Z) (i : nat) (c : RecordCache) : option (RecordCache * nat) :=
  if (size (rc_records c) <? rc_size c)%nat then Some (c, i)
  else match fuel with
       | O => None
       | S fuel' => cache_evict fuel' clk (S i) (remove_oldest_entry (clk i) c)
       end.

Definition free_up_space (fuel : nat) (clk : nat → Z) (c : RecordCache) : option (RecordCache * nat) :=
  let current := clk 0%nat in
  cache_evict fuel clk 1 (cache_with c (retain (λ _ '(_, timestamp), current <? timestamp) (rc_records c))).

Definition push_back (fuel : nat) (clk : nat → Z) (key : bytes) (record : KadRecord) (c : RecordCache)
    : option RecordCache :=
  '(c', i) ← free_up_space fuel clk c;
  Some (cache_with c' (<[key := (record, clk i + rc_timeout c')]> (rc_records c'))).

(** ** The eviction scan picks a minimum *)

Lemma oldest_fold_spec l b k0 :
  let res := foldl oldest_step (b, k0) l in
  res.1 ≤ b ∧ (∀ k r ts, (k, (r, ts)) ∈ l → res.1 ≤ ts) ∧
  ((res = (b, k0)) ∨ ∃ k r, res.2 = Some k ∧ (k, (r, res.1)) ∈ l ∧ res.1 < b).
Proof.
  revert b k0. induction l as [|[k [r ts]] l IH]; intros b k0; simpl.
  - split; [lia|]. split; [by intros ??? Hin%elem_of_nil | by left].
  - destruct (Z.ltb_spec ts b) as [Hlt|Hge].
    + destruct (IH ts (Some k)) as (Hle & Hmin & Hres). split; [lia|]. split.
      * intros k' r' ts' [[=]|Hin]%elem_of_cons; [subst; lia | eauto].
      * right. destruct Hres as [->|(k' & r' & -> & Hin & Hlt')].
        -- exists k, r. split; [done|]. split; [by left | done].
        -- exists k', r'. split; [done|]. split; [by right | lia].
    + destruct (IH b k0) as (Hle & Hmin & Hres). split; [done|]. split.
      * intros k' r' ts' [[=]|Hin]%elem_of_cons; [subst; lia | eauto].
      * destruct Hres as [->|(k' & r' & -> & Hin & Hlt)]; [by left|].
        right. exists k', r'. split; [done|]. split; [by right | done].
Qed.

(** With every entry older than the bound, the scan removes one entry, and none is older. *)
Lemma remove_oldest_entry_spec now c :
  (∀ k r ts, rc_records c !! k = Some (r, ts) → ts < now + rc_timeout c) →
  rc_records c ≠ ∅ →
  ∃ k r ts, rc_records c !! k = Some (r, ts) ∧
    (∀ k' r' ts', rc_records c !! k' = Some (r', ts') → ts ≤ ts') ∧
    remove_oldest_entry now c = cache_with c (delete k (rc_records c)).
Proof.
  intros Hold (k0 & [r0 ts0] & Hk0)%map_choose.
  unfold remove_oldest_entry.
  pose proof (oldest_fold_spec (hm_iter (rc_records c)) (now + rc_timeout c) None)
    as (Hle & Hmin & Hres). simpl in *.
  destruct (foldl oldest_step _ _) as [t o]. simpl in *.
  destruct Hres as [[= -> ->]|(k & r & -> & Hin & Hlt)].
  - apply hm_iter_elem_of in Hk0 as Hk0'. apply Hmin in Hk0'. apply Hold in Hk0. lia.
  - apply hm_iter_elem_of in Hin. exists k, r, t. split; [done|]. split; [|done].
    intros k' r' ts' Hk'. apply hm_iter_elem_of in Hk'. by eapply Hmin.
Qed.

(** ** The eviction loop *)

(** What eviction leaves: a part of the cache, below its capacity, none of it older than anything
    evicted. *)
Definition evicted_oldest (before after : gmap bytes (KadRecord * Z)) : Prop :=
  after ⊆ before ∧
  ∀ k r ts k' r' ts', before !! k = Some (r, ts) → after !! k = None →
    after !! k' = Some (r', ts') → ts ≤ ts'.

Lemma cache_evict_ok fuel clk i c :
  (0 < rc_size c)%nat →
  (size (rc_records c) ≤ fuel)%nat →
  (∀ j k r ts, rc_records c !! k = Some (r, ts) → ts < clk j + rc_timeout c) →
  ∃ c' n, cache_evict fuel clk i c = Some (c', n) ∧
    (size (rc_records c') < rc_size c)%nat ∧
    rc_size c' = rc_size c ∧ rc_timeout c' = rc_timeout c ∧
    evicted_oldest (rc_records c) (rc_records c').
Proof.
  intros Hcap. revert i c Hcap. induction fuel as [|fuel IH]; intros i c Hcap Hfuel Hold;
    simpl; destruct (Nat.ltb_spec (size (rc_records c)) (rc_size c)) as [Hlt|Hge].
  1,3: exists c, i; unfold evicted_oldest; repeat split; [done..|]; naive_solver.
  - lia.
  - assert (rc_records c ≠ ∅) as Hne by (intros E; rewrite E, map_size_empty in Hge; lia).
    destruct (remove_oldest_entry_spec (clk i) c) as (k & r & ts & Hk & Hmin & ->); [naive_solver..|].
    destruct (IH (S i) (cache_with c (delete k (rc_records c)))) as (c' & n & -> & Hsz & ? & ? & Hsub & Hev).
    + done.
    + simpl. rewrite map_size_delete_Some by eauto. lia.
    + simpl. intros j k' r' ts' [_ Hk']%lookup_delete_Some. by eapply Hold.
    + exists c', n. simpl in *. split; [done|]. split; [done|]. split; [done|]. split; [done|].
      split; [etrans; [exact Hsub | apply delete_subseteq]|].
      intros k1 r1 ts1 k2 r2 ts2 Hk1 Hout Hin. destruct (decide (k1 = k)) as [->|Hneq].
      * rewrite Hk in Hk1. injection Hk1 as <- <-.
        eapply Hmin. eapply lookup_weaken; [exact Hin|].
        etrans; [exact Hsub | apply delete_subseteq].
      * eapply Hev; [|exact Hout | exact Hin]. by rewrite lookup_delete_ne.
Qed.

(** Nothing in the cache is older than the bound of the scan: the loop makes no progress. *)
Lemma remove_oldest_entry_stuck now c :
  (∀ k r ts, rc_records c !! k = Some (r, ts) → now + rc_timeout c ≤ ts) →
  remove_oldest_entry now c = c.
Proof.
  intros Hnew. unfold remove_oldest_entry.
  pose proof (oldest_fold_spec (hm_iter (rc_records c)) (now + rc_timeout c) None)
    as (Hle & Hmin & Hres). simpl in *.
  destruct (foldl oldest_step _ _) as [t o]. simpl in *.
  destruct Hres as [[= -> ->]|(k & r & -> & Hin & Hlt)]; [done|].
  apply hm_iter_elem_of, Hnew in Hin. lia.
Qed.

Lemma cache_evict_stuck fuel clk i c :
  (rc_size c ≤ size (rc_records c))%nat →
  (∀ j k r ts, rc_records c !! k = Some (r, ts) → clk j + rc_timeout c ≤ ts) →
  cache_evict fuel clk i c = None.
Proof.
  intros Hfull Hnew. revert i. induction fuel as [|fuel IH]; intros i; simpl;
    (destruct (Nat.ltb_spec (size (rc_records c)) (rc_size c)); [lia|]); [done|].
  rewrite remove_oldest_entry_stuck; [apply IH | intros; by eapply Hnew].
Qed.
End cache.

(** ** Freeing space and caching *)

Section cache_ops.
Context `{HashOrder}.

(** The clock has moved past the instant at which each entry was cached. *)
Definition clock_moved (clk : nat → Z) (c : RecordCache) : Prop :=
  ∀ j k r ts, rc_records c !! k = Some (r, ts) → ts < clk j + rc_timeout c.

Lemma free_up_space_spec fuel clk c :
  (0 < rc_size c)%nat → (size (rc_records c) ≤ fuel)%nat → clock_moved clk c →
  ∃ c' n, free_up_space fuel clk c = Some (c', n) ∧
    (size (rc_records c') < rc_size c)%nat ∧
    rc_size c' = rc_size c ∧ rc_timeout c' = rc_timeout c ∧
    evicted_oldest (rc_records c) (rc_records c') ∧
    (∀ k r ts, rc_records c' !! k = Some (r, ts) → clk 0%nat < ts).
Proof.
  intros Hcap Hfuel Hmoved. unfold free_up_space.
  set (c1 := cache_with c _).
  assert (rc_records c1 ⊆ rc_records c) as Hsub by apply retain_subseteq.
  destruct (cache_evict_ok fuel clk 1 c1) as (c' & n & -> & Hsz & ? & ? & Hsub' & Hev).
  - done.
  - etrans; [by apply map_subseteq_size | done].
  - intros j k r ts Hk. eapply Hmoved. by eapply lookup_weaken.
  - exists c', n. split; [done|]. split; [done|]. split; [done|]. split; [done|].
    assert (∀ k r ts, rc_records c' !! k = Some (r, ts) → clk 0%nat < ts) as Hexp.
    { intros k r ts Hk. eapply lookup_weaken in Hk; [|exact Hsub'].
      apply retain_lookup_Some in Hk as [_ Hk]. by apply Z.ltb_lt in Hk. }
    split; [|done]. split; [by etrans|].
    intros k r ts k' r' ts' Hk Hout Hk'. destruct (rc_records c1 !! k) as [[r1 ts1]|] eqn:E.
    + eapply lookup_weaken in E as E'; [|exact Hsub]. rewrite Hk in E'. injection E' as <- <-.
      by eapply Hev.
    + apply Hexp in Hk'. destruct (Z.ltb_spec (clk 0%nat) ts) as [Hlt|Hge]; [|lia].
      exfalso. enough (rc_records c1 !! k = Some (r, ts)) by congruence.
      apply retain_lookup_Some. split; [done|]. by apply Z.ltb_lt.
Qed.

Lemma push_back_spec fuel clk key r c :
  (0 < rc_size c)%nat → (size (rc_records c) ≤ fuel)%nat → clock_moved clk c →
  ∃ c' n, push_back fuel clk key r c = Some c' ∧
    (size (rc_records c') ≤ rc_size c)%nat ∧
    rc_size c' = rc_size c ∧ rc_timeout c' = rc_timeout c ∧
    rc_records c' !! key = Some (r, clk n + rc_timeout c) ∧
    (∀ k, k ≠ key → rc_records c' !! k = rc_records c !! k ∨ rc_records c' !! k = None).
Proof.
  intros Hcap Hfuel Hmoved. unfold push_back.
  destruct (free_up_space_spec fuel clk c Hcap Hfuel Hmoved)
    as (c1 & n & -> & Hsz & Hs1 & Ht1 & [Hsub _] & _).
  simpl. eexists _, n. split; [done|]. simpl. split; [|split; [done|split; [done|split]]].
  - pose proof (map_size_insert key (r, clk n + rc_timeout c1) (rc_records c1)) as Hi.
    destruct (rc_records c1 !! key); simpl in *; lia.
  - by rewrite lookup_insert_eq, Ht1.
  - intros k Hk. rewrite lookup_insert_ne by done.
    destruct (rc_records c1 !! k) as [e|] eqn:E; [left | by right].
    symmetry. by eapply lookup_weaken.
Qed.
End cache_ops.

(** * Properties *)

(** Caching a record ends and keeps the cache within its capacity. With a positive capacity and
    a clock that has moved since the entries were cached, freeing space ends within as many
    evictions as there are entries, leaves strictly fewer entries than the capacity, drops every
    expired entry, and evicts in first-in first-out order: nothing kept is older than anything
    dropped. *)
Theorem cache_free_up_space_ok `{HashOrder} (clk : nat → Z) (c : RecordCache) :
  (0 < rc_size c)%nat → clock_moved clk c →
  ∃ c' n, free_up_space (size (rc_records c)) clk c = Some (c', n) ∧
    (size (rc_records c') < rc_size c)%nat ∧
    evicted_oldest (rc_records c) (rc_records c') ∧
    (∀ k r ts, rc_records c' !! k = Some (r, ts) → clk 0%nat < ts).
Proof.
  intros Hcap Hmoved.
  destruct (free_up_space_spec (size (rc_records c)) clk c Hcap) as (c' & n & ? & ? & _ & _ & ? & ?);
    [lia | done | eauto 8].
Qed.

(** A record with the given key and value bytes. *)
Definition mk_record (k v : bytes) : KadRecord :=
  {| rec_key := k; rec_value := v; rec_publisher := None; rec_expires := None |}.

Definition cache_example : RecordCache :=
  {| rc_records := {[ [1] := (mk_record [1] [10], 105); [2] := (mk_record [2] [20], 103);
                      [3] := (mk_record [3] [30], 104) ]};
     rc_size := 2; rc_timeout := 100 |}.

Lemma cache_example_moved : clock_moved (λ _, 50) cache_example.
Proof.
  intros j k r ts Hk. simpl in *.
  repeat (apply lookup_insert_Some in Hk as [[<- [= <- <-]]|[_ Hk]]; [lia|]).
  by apply lookup_singleton_Some in Hk as [<- [= <- <-]].
Qed.

Lemma cache_free_up_space_ok_witness :
  ∃ c' n, @free_up_space hash_order_id 3 (λ _, 50) cache_example = Some (c', n) ∧
    (size (rc_records c') < 2)%nat ∧ evicted_oldest (rc_records cache_example) (rc_records c').
Proof.
  destruct (@cache_free_up_space_ok hash_order_id (λ _, 50) cache_example
    ltac:(simpl; lia) cache_example_moved) as (c' & n & H1 & H2 & H3 & _).
  exists c', n. split; [exact H1 | split; [exact H2 | exact H3]].
Defined.

(** The eviction loop does not end when nothing in a full cache is older than one timeout from
    now: with a clock that has not moved since the entries were cached (or moved back), or with a
    capacity of zero, no number of iterations frees the space. *)
Theorem cache_eviction_diverges `{HashOrder} (fuel : nat) (clk : nat → Z) (c : RecordCache) :
  (rc_size c ≤ size (rc_records c))%nat →
  (∀ j k r ts, rc_records c !! k = Some (r, ts) → clk 0%nat < ts ∧ clk j + rc_timeout c ≤ ts) →
  free_up_space fuel clk c = None.
Proof.
  intros Hfull Hnew. unfold free_up_space.
  assert (retain (λ _ '(_, timestamp), clk 0%nat <? timestamp) (rc_records c) = rc_records c) as ->.
  { apply map_filter_id. intros k [r ts] Hk. apply Z.ltb_lt. by eapply (Hnew 0%nat). }
  apply cache_evict_stuck; simpl; [done|]. intros j k r ts Hk. by eapply Hnew.
Qed.

(** A record cached at time 5 in a cache of one, with the clock still at 5. *)
Lemma cache_eviction_diverges_witness :
  @free_up_space hash_order_id 1000 (λ _, 5)
    {| rc_records := {[ [1] := (mk_record [1] [10], 105) ]}; rc_size := 1; rc_timeout := 100 |} = None.
Proof.
  refine (@cache_eviction_diverges hash_order_id 1000 (λ _, 5)
    {| rc_records := {[ [1] := (mk_record [1] [10], 105) ]}; rc_size := 1; rc_timeout := 100 |} _ _).
  - simpl. rewrite map_size_singleton. lia.
  - intros j k r ts Hk. simpl in *. apply lookup_singleton_Some in Hk as [_ Hk]. injection Hk as _ <-. lia.
Defined.
