(* ===== verification/RecordStore.v ===== *)
(** * The node's record store

    Models [NodeRecordStore] of src/ant-node/src/networking/record_store.rs: the index of stored
    records, its order by distance, the farthest record, pruning when full, cleanup of records out
    of range, quoting metrics, and the Kademlia [RecordStore] operations. An operation is a
    function from the store to the new store and the list of effects it hands to other tasks
    ([Effect]: file writes and removals, commands to the swarm driver, events); RecordStoreSystem
    runs those tasks against a disk. The crates it calls (aes-gcm-siv, hkdf) are the parameter
    [Aead]. The gauge of the metrics feature and the directory paths are left out: the storage
    directory is the disk. *)

From stdpp Require Import base gmap strings countable list.
From Stdlib Require Import ZArith Lia.
From S2P Require Import Prelude Protocol RecordCache.

(** hkdf-sha256 and aes-256-gcm-siv. *)
Class Aead := {
  Cipher : Type;
  hkdf_sha256 : bytes → bytes → bytes;
  aead_new : bytes → Cipher;
  aead_encrypt : Cipher → bytes → bytes → option bytes;
  aead_decrypt : Cipher → bytes → bytes → option bytes;
}.

Class AeadLaws `{Aead} : Prop := {
  aead_roundtrip : ∀ c n p b, aead_encrypt c n p = Some b → aead_decrypt c n b = Some p;
}.

Definition MAX_RECORDS_COUNT : Z := 16 * 1024.
Definition MAX_RECORDS_CACHE_SIZE : nat := 25.

(** [kad::store::Error]. *)
Inductive StoreError := ValueTooLarge | MaxRecords.

Record NodeRecordStoreConfig := {
  max_records : Z;
  max_value_bytes : Z;
  records_cache_size : nat;
  encryption_seed : bytes;
}.

(** [NodeRecordStoreConfig::default]. *)
Definition default_config : NodeRecordStoreConfig :=
  {| max_records := MAX_RECORDS_COUNT; max_value_bytes := MAX_PACKET_SIZE;
     records_cache_size := MAX_RECORDS_CACHE_SIZE; encryption_seed := replicate 16 0 |}.

Record HistoricQuotingMetrics := {
  hqm_received_payment_count : Z;
  hqm_timestamp : Z;
}.

(** evmlib's [QuotingMetrics]. *)
Record QuotingMetrics := {
  qm_data_type : Z;
  qm_data_size : Z;
  qm_close_records_stored : Z;
  qm_records_per_type : list (Z * Z);
  qm_max_records : Z;
  qm_received_payment_count : Z;
  qm_live_time : Z;
  qm_network_density : option bytes;
  qm_network_size : option Z;
}.

(** The commands the store and its tasks send to the swarm driver. *)
Inductive StoreCmd :=
  | AddLocalRecordAsStored (key : bytes) (record_type : ValidationType) (data_type : DataTypes)
  | RemoveFailedLocalRecord (key : bytes)
  | RemoveOutOfSyncEntry (key : bytes).

(** What an operation hands to other tasks. *)
Inductive Effect :=
  | SpawnWrite (filename : bytes) (r : KadRecord) (record_type : ValidationType)
  | SpawnRemoveFile (filename : bytes)
  | SendLocalSwarmCmd (cmd : StoreCmd)
  | SpawnUnverifiedRecord (r : KadRecord)
  | SpawnFlushMetrics (m : HistoricQuotingMetrics).

(** A directory entry found at start: whether it is a file, its name when it is valid UTF-8, its
    content when it can be read. *)
Record DirEntry := {
  de_is_file : bool;
  de_name : option bytes;
  de_content : option bytes;
}.

Section store.
Context `{XorNameLib, Hex, Bls, Kad, RmpHeader, Aead, HashOrder}.

Record NodeRecordStore := {
  ns_local_address : NetworkAddress;
  ns_config : NodeRecordStoreConfig;
  ns_records : gmap bytes (NetworkAddress * ValidationType * DataTypes);
  ns_by_distance : gmap Z bytes;
  ns_cache : RecordCache;
  ns_responsible_range : option Z;
  ns_payment_count : Z;
  ns_encryption : Cipher * bytes;
  ns_timestamp : Z;
  ns_farthest : option (bytes * Z);
}.

Definition ns_with_index (s : NodeRecordStore)
    (r : gmap bytes (NetworkAddress * ValidationType * DataTypes)) (d : gmap Z bytes) : NodeRecordStore :=
  {| ns_local_address := ns_local_address s; ns_config := ns_config s; ns_records := r;
     ns_by_distance := d; ns_cache := ns_cache s; ns_responsible_range := ns_responsible_range s;
     ns_payment_count := ns_payment_count s; ns_encryption := ns_encryption s;
     ns_timestamp := ns_timestamp s; ns_farthest := ns_farthest s |}.

Definition ns_with_farthest (s : NodeRecordStore) (f : option (bytes * Z)) : NodeRecordStore :=
  {| ns_local_address := ns_local_address s; ns_config := ns_config s; ns_records := ns_records s;
     ns_by_distance := ns_by_distance s; ns_cache := ns_cache s;
     ns_responsible_range := ns_responsible_range s; ns_payment_count := ns_payment_count s;
     ns_encryption := ns_encryption s; ns_timestamp := ns_timestamp s; ns_farthest := f |}.

Definition ns_with_cache (s : NodeRecordStore) (c : RecordCache) : NodeRecordStore :=
  {| ns_local_address := ns_local_address s; ns_config := ns_config s; ns_records := ns_records s;
     ns_by_distance := ns_by_distance s; ns_cache := c;
     ns_responsible_range := ns_responsible_range s; ns_payment_count := ns_payment_count s;
     ns_encryption := ns_encryption s; ns_timestamp := ns_timestamp s; ns_farthest := ns_farthest s |}.

(** ** Encryption at rest *)

(** b"autonomi_record_store". *)
Definition RECORD_STORE_SALT : bytes :=
  [97; 117; 116; 111; 110; 111; 109; 105; 95; 114; 101; 99; 111; 114; 100; 95; 115; 116; 111; 114; 101].

Definition derive_aes256gcm_siv_from_seed (seed : bytes) : Cipher * bytes :=
  let okm := hkdf_sha256 RECORD_STORE_SALT seed in
  let bytes_to_copy := Nat.min (length seed) 4 in
  (aead_new okm, take bytes_to_copy seed ++ replicate (4 - bytes_to_copy) 0).

(** Exactly twelve bytes: the starter, the key, padded or truncated. *)
Definition generate_nonce_for_record (nonce_starter key : bytes) : bytes :=
  resize 12 0 (nonce_starter ++ key).

Definition generate_filename (key : bytes) : bytes := hex_encode key.

Definition get_data_from_filename (hex_str : bytes) : option bytes := hex_decode hex_str.

Definition get_record_from_bytes (b key : bytes) (encryption_details : Cipher * bytes) : option KadRecord :=
  let '(cipher, nonce_starter) := encryption_details in
  value ← aead_decrypt cipher (generate_nonce_for_record nonce_starter key) b;
  Some {| rec_key := key; rec_value := value; rec_publisher := None; rec_expires := None |}.

Definition prepare_record_bytes (record : KadRecord) (encryption_details : Cipher * bytes) : option bytes :=
  let '(cipher, nonce_starter) := encryption_details in
  aead_encrypt cipher (generate_nonce_for_record nonce_starter (rec_key record)) (rec_value record).

(** [read_from_disk]: the storage directory is a map from file names to contents; a missing entry
    is a failed read. *)
Definition read_from_disk (encryption_details : Cipher * bytes) (key : bytes) (disk : gmap bytes bytes)
    : option KadRecord :=
  b ← disk !! generate_filename key;
  get_record_from_bytes b key encryption_details.

(** ** Start-up *)

(** One entry of the storage directory: the record it restores, and whether its file is removed. *)
Definition process_entry (encryption_details : Cipher * bytes) (e : DirEntry)
    : option (bytes * (NetworkAddress * ValidationType * DataTypes)) * bool :=
  if negb (de_is_file e) then (None, false) else
  match de_name e with
  | None => (None, true)
  | Some filename =>
    match get_data_from_filename filename with
    | None => (None, false)
    | Some key =>
      match de_content e with
      | None => (None, false)
      | Some b =>
        match get_record_from_bytes b key encryption_details with
        | None => (None, true)
        | Some record =>
          match get_data_type record with
          | Err _ => (None, true)
          | Ok data_type =>
            let validate_type :=
              match data_type with
              | Chunk_t => VT_Chunk
              | _ => VT_NonChunk (xorname_from_content (rec_value record))
              end in
            (Some (key, (NA_RecordKey key, validate_type, data_type)), false)
          end
        end
      end
    end
  end.

Definition update_records_from_an_existing_store (encryption_details : Cipher * bytes)
    (entries : list DirEntry) : gmap bytes (NetworkAddress * ValidationType * DataTypes) :=
  foldl (λ m e, match (process_entry encryption_details e).1 with
                | Some (key, v) => <[key := v]> m
                | None => m
                end) ∅ entries.

(** ** The farthest record *)

(** The distance of a record key to the node. *)
Definition key_distance (local : NetworkAddress) (key : bytes) : Z := distance local (NA_RecordKey key).

Definition get_farthest (s : NodeRecordStore) : option bytes := fst <$> ns_farthest s.

Definition calculate_farthest (s : NodeRecordStore) : option (bytes * Z) :=
  let sorted_records := sort_by_key (key_distance (ns_local_address s)) (hm_iter (ns_records s)).*1 in
  match last sorted_records with
  | Some key => Some (key, key_distance (ns_local_address s) key)
  | None => None
  end.

Definition flush_historic_quoting_metrics (s : NodeRecordStore) : Effect :=
  SpawnFlushMetrics {| hqm_received_payment_count := ns_payment_count s; hqm_timestamp := ns_timestamp s |}.

(** [with_config]: [historic] is what [restore_quoting_metrics] reads, [now] the clock. *)
Definition with_config (local_id : bytes) (config : NodeRecordStoreConfig)
    (historic : option HistoricQuotingMetrics) (now : Z) (entries : list DirEntry)
    : NodeRecordStore * list Effect :=
  let encryption_details := derive_aes256gcm_siv_from_seed (encryption_seed config) in
  let '(received_payment_count, timestamp) :=
    match historic with
    | Some h => (hqm_received_payment_count h, hqm_timestamp h)
    | None => (0, now)
    end in
  let records := update_records_from_an_existing_store encryption_details entries in
  let local_address := NA_PeerId local_id in
  let records_by_distance :=
    foldl (λ m '(key, (addr, _, _)), <[distance local_address addr := key]> m) ∅ (hm_iter records) in
  let s := {| ns_local_address := local_address; ns_config := config; ns_records := records;
              ns_by_distance := records_by_distance;
              ns_cache := cache_new (records_cache_size config) CACHE_TIMEOUT;
              ns_responsible_range := None; ns_payment_count := received_payment_count;
              ns_encryption := encryption_details; ns_timestamp := timestamp; ns_farthest := None |} in
  let s := ns_with_farthest s (calculate_farthest s) in
  (s, [flush_historic_quoting_metrics s]).

(** ** Removal *)

(** Drops a key from the index and from the order by distance. *)
Definition index_remove (k : bytes) (s : NodeRecordStore) : NodeRecordStore :=
  match ns_records s !! k with
  | Some (addr, _, _) =>
    ns_with_index s (delete k (ns_records s))
      (delete (distance (ns_local_address s) addr) (ns_by_distance s))
  | None => s
  end.

(** [RecordStore::remove]. *)
Definition remove (k : bytes) (s : NodeRecordStore) : NodeRecordStore * list Effect :=
  let s := index_remove k s in
  let s := ns_with_cache s (cache_remove k (ns_cache s)).2 in
  let s := match ns_farthest s with
           | Some (farthest_record, _) =>
             if bool_decide (farthest_record = k) then ns_with_farthest s (calculate_farthest s) else s
           | None => s
           end in
  (s, [SpawnRemoveFile (generate_filename k)]).

Definition pruning_indexing_cache (k : bytes) (s : NodeRecordStore) : NodeRecordStore := index_remove k s.

Definition prune_records_if_needed (incoming : bytes) (s : NodeRecordStore)
    : result unit StoreError * NodeRecordStore * list Effect :=
  if Z.of_nat (size (ns_records s)) <? max_records (ns_config s) then (Ok tt, s, [])
  else match ns_farthest s with
       | Some (farthest_record, farthest_record_distance) =>
         if farthest_record_distance <? key_distance (ns_local_address s) incoming
         then (Err MaxRecords, s, [])
         else let '(s', effs) := remove farthest_record s in (Ok tt, s', effs)
       | None => (Ok tt, s, [])
       end.

(** Removes the keys of a list in turn. *)
Definition remove_all (keys : list bytes) (s : NodeRecordStore) : NodeRecordStore * list Effect :=
  foldl (λ '(s, effs) k, let '(s', e) := remove k s in (s', effs ++ e)) (s, []) keys.

(** The entries of [records_by_distance] in the order of the B-tree. *)
Definition by_distance_sorted (s : NodeRecordStore) : list (Z * bytes) :=
  sort_by_key fst (map_to_list (ns_by_distance s)).

Definition cleanup_keys (s : NodeRecordStore) (increased_distance : Z) (target_cleanup_count : Z)
    : list bytes :=
  (filter (λ e, increased_distance ≤ e.1)
     (take (Z.to_nat target_cleanup_count) (reverse (by_distance_sorted s)))).*2.

Definition cleanup_irrelevant_records (s : NodeRecordStore) : NodeRecordStore * list Effect :=
  let accumulated_records := Z.of_nat (size (ns_records s)) in
  if accumulated_records <? MAX_RECORDS_COUNT / 10 then (s, []) else
  match ns_responsible_range s with
  | None => (s, [])
  | Some responsible_distance =>
    let increased_distance := saturating_mul u256_max responsible_distance 10 in
    let target_cleanup_count := accumulated_records / 10 in
    if target_cleanup_count =? 0 then (s, [])
    else remove_all (cleanup_keys s increased_distance target_cleanup_count) s
  end.

(** ** Queries *)

Definition contains (k : bytes) (s : NodeRecordStore) : bool := contains_key k (ns_records s).

Definition record_addresses (s : NodeRecordStore) : gmap NetworkAddress ValidationType :=
  foldl (λ m '(_, (addr, record_type, _)), <[addr := record_type]> m) ∅ (hm_iter (ns_records s)).

Definition count (s : NodeRecordStore) : Z := Z.of_nat (size (ns_records s)).

Definition get_records_within_distance_range (range : Z) (s : NodeRecordStore) : Z :=
  Z.of_nat (length (filter (λ e, e.1 < range) (by_distance_sorted s))).

(** The count of records of each type, in the order of the type's number. *)
Definition records_per_type (s : NodeRecordStore) : list (Z * Z) :=
  let m : gmap Z Z :=
    foldl (λ m '(_, (_, _, data_type)),
             <[get_index data_type := default 0 (m !! get_index data_type) + 1]> m)
      ∅ (hm_iter (ns_records s)) in
  sort_by_key fst (map_to_list m).

Definition quoting_metrics (now : Z) (key : bytes) (data_type data_size : Z) (network_size : option Z)
    (s : NodeRecordStore) : QuotingMetrics * bool :=
  let live_time := if ns_timestamp s <=? now then as_secs (now - ns_timestamp s) else 0 in
  let '(network_density, close_records_stored) :=
    match ns_responsible_range s with
    | Some distance_range =>
      (Some (to_be_bytes 32 distance_range), get_records_within_distance_range distance_range s)
    | None => (None, Z.of_nat (size (ns_records s)))
    end in
  ({| qm_data_type := data_type; qm_data_size := data_size;
      qm_close_records_stored := close_records_stored; qm_records_per_type := records_per_type s;
      qm_max_records := max_records (ns_config s);
      qm_received_payment_count := ns_payment_count s; qm_live_time := live_time;
      qm_network_density := network_density; qm_network_size := network_size |},
   contains key s).

(** ** Updates *)

Definition payment_received (s : NodeRecordStore) : NodeRecordStore * list Effect :=
  let s :=
    {| ns_local_address := ns_local_address s; ns_config := ns_config s; ns_records := ns_records s;
       ns_by_distance := ns_by_distance s; ns_cache := ns_cache s;
       ns_responsible_range := ns_responsible_range s;
       ns_payment_count := saturating_add usize_max (ns_payment_count s) 1;
       ns_encryption := ns_encryption s; ns_timestamp := ns_timestamp s;
       ns_farthest := ns_farthest s |} in
  (s, [flush_historic_quoting_metrics s]).

Definition set_responsible_distance_range (d : Z) (s : NodeRecordStore) : NodeRecordStore :=
  {| ns_local_address := ns_local_address s; ns_config := ns_config s; ns_records := ns_records s;
     ns_by_distance := ns_by_distance s; ns_cache := ns_cache s; ns_responsible_range := Some d;
     ns_payment_count := ns_payment_count s; ns_encryption := ns_encryption s;
     ns_timestamp := ns_timestamp s; ns_farthest := ns_farthest s |}.

Definition mark_as_stored (key : bytes) (validate_type : ValidationType) (data_type : DataTypes)
    (s : NodeRecordStore) : NodeRecordStore :=
  let addr := NA_RecordKey key in
  let d := distance (ns_local_address s) addr in
  let s := ns_with_index s (<[key := (addr, validate_type, data_type)]> (ns_records s))
             (<[d := key]> (ns_by_distance s)) in
  match ns_farthest s with
  | Some (_, farthest_record_distance) =>
    if farthest_record_distance <? d then ns_with_farthest s (Some (key, d)) else s
  | None => ns_with_farthest s (Some (key, d))
  end.

(** [put_verified]; [None] is a cache eviction that has not ended within [fuel]. *)
Definition put_verified (fuel : nat) (clk : nat → Z) (r : KadRecord) (record_type : ValidationType)
    (is_client_put : bool) (s : NodeRecordStore)
    : option (result unit StoreError * NodeRecordStore * list Effect) :=
  let key := rec_key r in
  let '(existing, cache) := cache_remove key (ns_cache s) in
  let s := ns_with_cache s cache in
  let same := match existing with
              | Some (existing_record, _) =>
                if bool_decide (rec_value existing_record = rec_value r) then Some existing_record else None
              | None => None
              end in
  match same with
  | Some existing_record =>
    cache ← push_back fuel clk key existing_record (ns_cache s);
    Some (Ok tt, ns_with_cache s cache, [])
  | None =>
    s ← (if is_client_put then ns_with_cache s <$> push_back fuel clk key r (ns_cache s) else Some s);
    match prune_records_if_needed key s with
    | (Err e, s, effs) => Some (Err e, s, effs)
    | (Ok _, s, effs) => Some (Ok tt, s, effs ++ [SpawnWrite (generate_filename key) r record_type])
    end
  end.

(** What [fs::write] does: it writes the file, or fails and leaves whatever it left behind. *)
Inductive WriteOutcome :=
  | Written
  | WriteFailed (left_behind : option bytes).

(** The task [put_verified] spawns: encrypts the record, writes its file, and reports to the swarm
    driver. *)
Definition run_write (encryption_details : Cipher * bytes) (filename : bytes) (r : KadRecord)
    (record_type : ValidationType) (outcome : WriteOutcome) (disk : gmap bytes bytes)
    : gmap bytes bytes * option StoreCmd :=
  match get_data_type r with
  | Err _ => (disk, None)
  | Ok data_type =>
    match prepare_record_bytes r encryption_details with
    | None => (disk, None)
    | Some b =>
      match outcome with
      | Written =>
        (<[filename := b]> disk, Some (AddLocalRecordAsStored (rec_key r) record_type data_type))
      | WriteFailed left_behind =>
        (match left_behind with Some c => <[filename := c]> disk | None => disk end,
         Some (RemoveFailedLocalRecord (rec_key r)))
      end
    end
  end.

(** ** The Kademlia store interface *)

(** [RecordStore::get]; the disk is read. *)
Definition get (disk : gmap bytes bytes) (k : bytes) (s : NodeRecordStore)
    : option KadRecord * list Effect :=
  match cache_get k (ns_cache s) with
  | Some (record, _) => (Some record, [])
  | None =>
    if negb (contains_key k (ns_records s)) then (None, [])
    else match read_from_disk (ns_encryption s) k disk with
         | Some r => (Some r, [])
         | None => (None, [SendLocalSwarmCmd (RemoveOutOfSyncEntry k)])
         end
  end.

(** [RecordStore::put]: an unverified record is passed on for validation, unless it is oversized,
    its header does not parse, or it is unpaid and already held. *)
Definition put (record : KadRecord) (s : NodeRecordStore) : result unit StoreError * list Effect :=
  if max_value_bytes (ns_config s) <=? Z.of_nat (length (rec_value record)) then (Err ValueTooLarge, [])
  else
  let forward := (Ok tt, [SpawnUnverifiedRecord record]) in
  match record_header_from_record record with
  | Ok (DataWithPayment _) => forward
  | Ok (DataWithMerklePayment _) => forward
  | Ok (DataOnly _) =>
    match ns_records s !! rec_key record with
    | Some (_, VT_Chunk, _) => (Ok tt, [])
    | Some (_, VT_NonChunk existing_content_hash, _) =>
      if bool_decide (xorname_from_content (rec_value record) = existing_content_hash)
      then (Ok tt, []) else forward
    | None => forward
    end
  | Err _ => (Ok tt, [])
  end.
End store.

#[global] Arguments remove : simpl never.
#[global] Arguments remove_all : simpl never.
#[global] Arguments index_remove : simpl never.
#[global] Arguments mark_as_stored : simpl never.
#[global] Arguments put_verified : simpl never.
#[global] Arguments prune_records_if_needed : simpl never.
#[global] Arguments cleanup_irrelevant_records : simpl never.
#[global] Arguments pruning_indexing_cache : simpl never.
