(* ===== verification/RecordStoreFacts.v ===== *)
(** * Invariants of the record store

    The index, the order by distance and the farthest record of [NodeRecordStore] (RecordStore) are
    kept in step: [store_wf] states it, and every operation preserves it as long as the record keys
    in play do not collide under libp2p's key hash. [farthest_exact] says that the cached farthest
    record is the farthest; it survives every operation except [pruning_indexing_cache], after
    which only [farthest_bound] remains. *)

From stdpp Require Import base gmap strings countable list.
From Stdlib Require Import ZArith Lia.
From S2P Require Import Prelude Protocol RecordCache RecordStore.

Section facts.
Context `{XorNameLib, Hex, Bls, KadLaws, RmpHeader, Aead, HashOrder}.
Implicit Types s : NodeRecordStore.

Definition store_distance s (k : bytes) : Z := key_distance (ns_local_address s) k.

(** No two keys of [U] have the same hash. *)
Definition no_collision (U : bytes → Prop) : Prop :=
  ∀ a b, U a → U b → kbucket_hash a = kbucket_hash b → a = b.

(** The index holds the keys of [U] only. *)
Definition keys_within (U : bytes → Prop) s : Prop := ∀ k, is_Some (ns_records s !! k) → U k.

Record store_wf s : Prop := {
  wf_addr : ∀ k a vt dt, ns_records s !! k = Some (a, vt, dt) → a = NA_RecordKey k;
  wf_index : ∀ d k,
    ns_by_distance s !! d = Some k ↔ is_Some (ns_records s !! k) ∧ d = store_distance s k;
}.

Definition farthest_bound s : Prop :=
  ∀ k, is_Some (ns_records s !! k) → ∃ f d, ns_farthest s = Some (f, d) ∧ store_distance s k ≤ d.

Definition farthest_exact s : Prop :=
  match ns_farthest s with
  | None => ns_records s = ∅
  | Some (f, d) =>
    is_Some (ns_records s !! f) ∧ d = store_distance s f ∧
    ∀ k, is_Some (ns_records s !! k) → store_distance s k ≤ d
  end.

Lemma farthest_exact_bound s : farthest_exact s → farthest_bound s.
Proof.
  unfold farthest_exact, farthest_bound. intros Hf k Hk.
  destruct (ns_farthest s) as [[f d]|].
  - exists f, d. split; [done|]. by apply Hf.
  - rewrite Hf, lookup_empty in Hk. by destruct Hk.
Qed.

Lemma key_distance_inj (U : bytes → Prop) local a b :
  no_collision U → U a → U b → key_distance local a = key_distance local b → a = b.
Proof. intros Hnc Ha Hb Hd%distance_unidirectional. by apply Hnc. Qed.

Lemma wf_distance_inj s a b :
  store_wf s → is_Some (ns_records s !! a) → is_Some (ns_records s !! b) →
  store_distance s a = store_distance s b → a = b.
Proof.
  intros Hwf Ha Hb Hd.
  assert (ns_by_distance s !! store_distance s a = Some a) as Ha' by (apply (wf_index s Hwf); done).
  assert (ns_by_distance s !! store_distance s a = Some b) as Hb' by (apply (wf_index s Hwf); done).
  congruence.
Qed.

(** ** Removing from the index *)

Lemma index_remove_records k s : store_wf s → ns_records (index_remove k s) = delete k (ns_records s).
Proof.
  intros Hwf. unfold index_remove. destruct (ns_records s !! k) as [[[a vt] dt]|] eqn:E; [done|].
  by rewrite delete_id.
Qed.

Lemma index_remove_wf k s : store_wf s → store_wf (index_remove k s).
Proof.
  intros Hwf. unfold index_remove.
  destruct (ns_records s !! k) as [[[a vt] dt]|] eqn:E; [|done].
  rewrite (wf_addr s Hwf _ _ _ _ E). split; simpl.
  - intros k' a' vt' dt' [_ Hk']%lookup_delete_Some. by eapply wf_addr.
  - intros d k'. rewrite lookup_delete_Some, (wf_index s Hwf).
    change (store_distance (ns_with_index s _ _) k') with (store_distance s k').
    split.
    + intros (Hd & Hk' & ->). rewrite lookup_delete_ne; [done|]. intros ->. by apply Hd.
    + intros [Hk' ->]. destruct (decide (k = k')) as [->|Hne].
      { rewrite lookup_delete_eq in Hk'. by destruct Hk'. }
      rewrite lookup_delete_ne in Hk' by done. split; [|done].
      intros Hd. apply Hne. by eapply (wf_distance_inj s).
Qed.

Lemma index_remove_fields k s :
  ns_local_address (index_remove k s) = ns_local_address s ∧
  ns_config (index_remove k s) = ns_config s ∧ ns_cache (index_remove k s) = ns_cache s ∧
  ns_farthest (index_remove k s) = ns_farthest s ∧
  ns_encryption (index_remove k s) = ns_encryption s ∧
  ns_responsible_range (index_remove k s) = ns_responsible_range s.
Proof. unfold index_remove. by destruct (ns_records s !! k) as [[[a vt] dt]|]. Qed.

(** ** The farthest record *)

Lemma hm_iter_keys_elem {V} (m : gmap bytes V) k : k ∈ (hm_iter m).*1 ↔ is_Some (m !! k).
Proof.
  rewrite list_elem_of_fmap. split.
  - intros ([k' v] & -> & Hin%hm_iter_elem_of). by eexists.
  - intros [v Hv]. exists (k, v). split; [done|]. by apply hm_iter_elem_of.
Qed.

Lemma calculate_farthest_exact s : farthest_exact (ns_with_farthest s (calculate_farthest s)).
Proof.
  unfold farthest_exact, calculate_farthest. simpl.
  destruct (last _) as [f|] eqn:E.
  - change (store_distance (ns_with_farthest s ?x)) with (store_distance s).
    split; [|split; [done|]].
    + apply sort_by_key_last_elem in E. by apply hm_iter_keys_elem.
    + intros k Hk. change (key_distance (ns_local_address s) f) with (store_distance s f).
      eapply (sort_by_key_last_max _ _ _ _ E). by apply hm_iter_keys_elem.
  - apply last_None in E. apply (f_equal length) in E.
    rewrite sort_by_key_length, length_fmap, hm_iter_length in E. by apply map_size_empty_inv.
Qed.

(** ** [remove] *)

Lemma remove_unfold k s :
  (remove k s).1 =
  let s1 := ns_with_cache (index_remove k s) (cache_remove k (ns_cache s)).2 in
  if bool_decide (fst <$> ns_farthest s = Some k) then ns_with_farthest s1 (calculate_farthest s1)
  else s1.
Proof.
  pose proof (index_remove_fields k s) as (_ & _ & Hc & Hf & _).
  unfold remove. simpl. rewrite Hc, Hf. destruct (ns_farthest s) as [[f d]|]; simpl.
  - repeat case_bool_decide; congruence.
  - done.
Qed.

Lemma remove_fields k s :
  ns_local_address (remove k s).1 = ns_local_address s ∧
  ns_config (remove k s).1 = ns_config s ∧
  ns_encryption (remove k s).1 = ns_encryption s ∧
  ns_responsible_range (remove k s).1 = ns_responsible_range s ∧
  ns_cache (remove k s).1 = (cache_remove k (ns_cache s)).2 ∧
  ns_by_distance (remove k s).1 = ns_by_distance (index_remove k s) ∧
  ns_records (remove k s).1 = ns_records (index_remove k s).
Proof.
  pose proof (index_remove_fields k s) as (? & ? & ? & ? & ? & ?).
  rewrite remove_unfold. simpl. by case_bool_decide.
Qed.

Lemma remove_records k s : store_wf s → ns_records (remove k s).1 = delete k (ns_records s).
Proof. intros. destruct (remove_fields k s) as (_ & _ & _ & _ & _ & _ & ->). by apply index_remove_records. Qed.

Lemma store_wf_proper s s' :
  ns_local_address s' = ns_local_address s → ns_records s' = ns_records s →
  ns_by_distance s' = ns_by_distance s → store_wf s → store_wf s'.
Proof.
  intros Ha Hr Hd [Haddr Hidx]. split; unfold store_distance; rewrite ?Ha, ?Hr, ?Hd; [apply Haddr|apply Hidx].
Qed.

Lemma remove_wf k s : store_wf s → store_wf (remove k s).1.
Proof.
  intros Hwf. destruct (remove_fields k s) as (Ha & _ & _ & _ & _ & Hd & Hr).
  destruct (index_remove_fields k s) as (Ha' & _).
  apply (store_wf_proper (index_remove k s)); [congruence | done | done | by apply index_remove_wf].
Qed.

Lemma farthest_exact_proper s s' :
  ns_local_address s' = ns_local_address s → ns_records s' = ns_records s →
  ns_farthest s' = ns_farthest s → farthest_exact s → farthest_exact s'.
Proof. intros Ha Hr Hf. unfold farthest_exact, store_distance. by rewrite Ha, Hr, Hf. Qed.

Lemma remove_farthest_exact k s : store_wf s → farthest_exact s → farthest_exact (remove k s).1.
Proof.
  intros Hwf Hex. rewrite remove_unfold. simpl. case_bool_decide as Hk; [apply calculate_farthest_exact|].
  pose proof (index_remove_fields k s) as (Ha & _ & _ & Hf & _).
  unfold farthest_exact, store_distance in *. simpl. rewrite Ha, Hf, index_remove_records by done.
  destruct (ns_farthest s) as [[f d]|]; [|by rewrite Hex, delete_empty].
  simpl in Hk. destruct Hex as (Hf' & -> & Hmax). split; [|split; [done|]].
  - rewrite lookup_delete_ne; [done|congruence].
  - intros k' [v [_ Hk']%lookup_delete_Some]. apply Hmax. by eexists.
Qed.

(** ** [mark_as_stored] *)

Lemma mark_as_stored_fields key vt dt s :
  ns_local_address (mark_as_stored key vt dt s) = ns_local_address s ∧
  ns_config (mark_as_stored key vt dt s) = ns_config s ∧
  ns_encryption (mark_as_stored key vt dt s) = ns_encryption s ∧
  ns_cache (mark_as_stored key vt dt s) = ns_cache s ∧
  ns_records (mark_as_stored key vt dt s) = <[key := (NA_RecordKey key, vt, dt)]> (ns_records s) ∧
  ns_by_distance (mark_as_stored key vt dt s) = <[store_distance s key := key]> (ns_by_distance s) ∧
  ns_responsible_range (mark_as_stored key vt dt s) = ns_responsible_range s.
Proof.
  unfold mark_as_stored. simpl. destruct (ns_farthest s) as [[f d]|]; simpl; [|done].
  by destruct (d <? _).
Qed.

Lemma mark_as_stored_wf U key vt dt s :
  no_collision U → keys_within U s → U key → store_wf s → store_wf (mark_as_stored key vt dt s).
Proof.
  intros Hnc Hin Hkey Hwf.
  pose proof (mark_as_stored_fields key vt dt s) as (Ha & _ & _ & _ & Hr & Hd & _).
  split; unfold store_distance; rewrite ?Ha, ?Hr, ?Hd.
  - intros k a vt' dt' [[<- [= <- <- <-]]|[_ Hk]]%lookup_insert_Some; [done|].
    by eapply wf_addr.
  - intros d k. fold (store_distance s k). rewrite lookup_insert_Some, (wf_index s Hwf).
    destruct (decide (key = k)) as [<-|Hne].
    + rewrite lookup_insert_eq. split; [naive_solver|]. intros [_ ->]. by left.
    + rewrite lookup_insert_ne by done. split; [naive_solver|].
      intros [Hk ->]. right. split; [|done]. intros E. apply Hne.
      eapply (key_distance_inj U); [done..| by apply Hin |]. done.
Qed.

Lemma mark_as_stored_exact key vt dt s : farthest_exact s → farthest_exact (mark_as_stored key vt dt s).
Proof.
  intros Hex. pose proof (mark_as_stored_fields key vt dt s) as (Ha & _ & _ & _ & Hr & _ & _).
  unfold farthest_exact, store_distance in *. rewrite Ha, Hr.
  unfold mark_as_stored; simpl. destruct (ns_farthest s) as [[f d]|] eqn:Ef; simpl.
  - destruct Hex as (Hf & Hd & Hmax).
    destruct (Z.ltb_spec d (distance (ns_local_address s) (NA_RecordKey key))) as [Hlt|Hge]; simpl.
    + split; [by rewrite lookup_insert_eq|]. split; [done|].
      intros k. destruct (decide (key = k)) as [<-|Hne]; [intros; unfold key_distance; lia|].
      rewrite lookup_insert_ne by done. intros Hk%Hmax. lia.
    + rewrite Ef. split; [destruct (decide (key = f)) as [->|]; [by rewrite lookup_insert_eq | by rewrite lookup_insert_ne]|].
      split; [done|]. intros k. destruct (decide (key = k)) as [<-|Hne]; [done|].
      rewrite lookup_insert_ne by done. apply Hmax.
  - rewrite Hex. split; [by rewrite lookup_insert_eq|]. split; [done|].
    intros k [v [[<- _]|[_ Hk]]%lookup_insert_Some]; [done|]. by rewrite lookup_empty in Hk.
Qed.

Lemma mark_as_stored_bound key vt dt s : farthest_bound s → farthest_bound (mark_as_stored key vt dt s).
Proof.
  intros Hb. pose proof (mark_as_stored_fields key vt dt s) as (Ha & _ & _ & _ & Hr & _ & _).
  unfold farthest_bound, store_distance in *. rewrite Ha, Hr.
  unfold mark_as_stored; simpl. intros k Hk.
  assert (k = key ∨ is_Some (ns_records s !! k)) as Hk'.
  { destruct Hk as [v [[<- _]|[_ Hk]]%lookup_insert_Some]; [by left | right; by eexists]. }
  destruct (ns_farthest s) as [[f d]|] eqn:Ef; simpl.
  - destruct (Z.ltb_spec d (distance (ns_local_address s) (NA_RecordKey key))) as [Hlt|Hge]; simpl.
    + eexists _, _. split; [done|]. destruct Hk' as [->|(f' & d' & [= <- <-] & ?)%Hb]; [done|lia].
    + exists f, d. split; [done|]. destruct Hk' as [->|(f' & d' & [= <- <-] & ?)%Hb]; [done|lia].
  - eexists _, _. split; [done|]. destruct Hk' as [->|(f' & d' & Hn & ?)%Hb]; done.
Qed.

(** ** [pruning_indexing_cache] *)

Lemma pruning_indexing_cache_wf k s : store_wf s → store_wf (pruning_indexing_cache k s).
Proof. apply index_remove_wf. Qed.

Lemma pruning_indexing_cache_bound k s :
  store_wf s → farthest_bound s → farthest_bound (pruning_indexing_cache k s).
Proof.
  intros Hwf Hb k'. unfold pruning_indexing_cache, store_distance.
  pose proof (index_remove_fields k s) as (-> & _ & _ & -> & _).
  rewrite index_remove_records by done. intros [v [_ Hk']%lookup_delete_Some].
  apply Hb. by eexists.
Qed.

Lemma remove_bound k s : store_wf s → farthest_bound s → farthest_bound (remove k s).1.
Proof.
  intros Hwf Hb. rewrite remove_unfold. simpl.
  case_bool_decide as Hk; [apply farthest_exact_bound, calculate_farthest_exact|].
  intros k' Hk'. by apply (pruning_indexing_cache_bound k s Hwf Hb).
Qed.
End facts.

Section more_facts.
Context `{XorNameLib, Hex, Bls, KadLaws, RmpHeader, Aead, HashOrder}.
Implicit Types s : NodeRecordStore.

(** ** Start-up *)

Lemma process_entry_addr enc e k a vt dt :
  (process_entry enc e).1 = Some (k, (a, vt, dt)) → a = NA_RecordKey k.
Proof. unfold process_entry. intros Hp. repeat case_match; simplify_eq/=; done. Qed.

Lemma update_records_addr enc entries k a vt dt :
  update_records_from_an_existing_store enc entries !! k = Some (a, vt, dt) → a = NA_RecordKey k.
Proof.
  unfold update_records_from_an_existing_store. revert k a vt dt.
  set (P := λ m : gmap bytes (NetworkAddress * ValidationType * DataTypes),
              ∀ k a vt dt, m !! k = Some (a, vt, dt) → a = NA_RecordKey k).
  apply (foldl_invariant P).
  - intros k a vt dt. by rewrite lookup_empty.
  - intros m e Hm _ k a vt dt.
    destruct (process_entry enc e).1 as [[k' [[a' vt'] dt']]|] eqn:E; [|apply Hm].
    intros [[<- [= <- <- <-]]|[_ Hk]]%lookup_insert_Some; [|by eapply Hm].
    by eapply process_entry_addr.
Qed.

(** The order by distance built from the entries of the index. *)
Lemma by_distance_fold local (l : list (bytes * (NetworkAddress * ValidationType * DataTypes))) d k :
  NoDup l.*1 →
  (∀ k a vt dt, (k, (a, vt, dt)) ∈ l → a = NA_RecordKey k) →
  (∀ a b, a ∈ l.*1 → b ∈ l.*1 → key_distance local a = key_distance local b → a = b) →
  foldl (λ (m : gmap Z bytes) '(key, (addr, _, _)), <[distance local addr := key]> m) ∅ l !! d = Some k ↔
  k ∈ l.*1 ∧ d = key_distance local k.
Proof.
  revert d k. induction l as [|[k0 [[a0 vt0] dt0]] l IH] using rev_ind; intros d k Hnd Haddr Hinj.
  { simpl. rewrite lookup_empty. split; [done|]. intros [Hin _]. by apply elem_of_nil in Hin. }
  rewrite foldl_app. simpl. rewrite fmap_app in Hnd, Hinj |- *. simpl in *.
  apply NoDup_app in Hnd as (Hnd & Hdisj & _).
  assert (a0 = NA_RecordKey k0) as -> by (apply (Haddr _ _ vt0 dt0); apply elem_of_app; right; by left).
  fold (key_distance local k0).
  rewrite lookup_insert_Some, IH; [|done|..].
  - rewrite elem_of_app, list_elem_of_singleton. split.
    + intros [[<- <-]|(Hne & Hin & ->)]; [split; [by right|done] | split; [by left|done]].
    + intros [[Hin| ->] ->]; [|by left]. right. split; [|done].
      intros E%Hinj; [|apply elem_of_app; right; by left|apply elem_of_app; by left].
      subst. eapply Hdisj; [exact Hin|by left].
  - intros k' a' vt' dt' Hin. apply (Haddr k' a' vt' dt'). apply elem_of_app. by left.
  - intros a b Ha Hb. apply Hinj; apply elem_of_app; by left.
Qed.

Lemma with_config_wf U local_id config historic now entries :
  let s := (with_config local_id config historic now entries).1 in
  no_collision U → keys_within U s → store_wf s ∧ farthest_exact s.
Proof.
  intros s Hnc Hin. unfold s, with_config in *.
  destruct (match historic with Some h => _ | None => _ end) as [pc ts]. simpl in *.
  split; [|apply calculate_farthest_exact].
  split; simpl.
  - apply update_records_addr.
  - intros d k. rewrite by_distance_fold.
    + by rewrite hm_iter_keys_elem.
    + apply hm_iter_NoDup_fst.
    + intros k' a vt dt Hk'%hm_iter_elem_of. by eapply update_records_addr.
    + intros a b Ha%hm_iter_keys_elem Hb%hm_iter_keys_elem.
      apply (key_distance_inj U); [done | by apply Hin..].
Qed.

(** ** Pruning for an incoming record *)

Definition store_full s : Prop := max_records (ns_config s) ≤ Z.of_nat (size (ns_records s)).

#[global] Instance store_full_dec s : Decision (store_full s).
Proof. unfold store_full. apply _. Defined.

Lemma prune_not_full k s : ¬ store_full s → prune_records_if_needed k s = (Ok tt, s, []).
Proof.
  unfold store_full, prune_records_if_needed. intros Hn.
  destruct (Z.ltb_spec (Z.of_nat (size (ns_records s))) (max_records (ns_config s))); [done|lia].
Qed.

Lemma prune_full_spec k s :
  store_wf s → farthest_exact s → store_full s → ns_records s ≠ ∅ →
  (prune_records_if_needed k s = (Err MaxRecords, s, []) ∧
   ∀ k', is_Some (ns_records s !! k') → store_distance s k' < store_distance s k) ∨
  ∃ f, is_Some (ns_records s !! f) ∧
    (∀ k', is_Some (ns_records s !! k') → store_distance s k' ≤ store_distance s f) ∧
    store_distance s k ≤ store_distance s f ∧
    prune_records_if_needed k s = (Ok tt, (remove f s).1, [SpawnRemoveFile (generate_filename f)]).
Proof.
  intros Hwf Hex Hfull Hne. unfold prune_records_if_needed, store_full, farthest_exact in *.
  destruct (Z.ltb_spec (Z.of_nat (size (ns_records s))) (max_records (ns_config s))); [lia|].
  destruct (ns_farthest s) as [[f d]|]; [|done]. destruct Hex as (Hf & -> & Hmax).
  fold (store_distance s k).
  destruct (Z.ltb_spec (store_distance s f) (store_distance s k)) as [Hlt|Hge].
  - left. split; [done|]. intros k' Hk'%Hmax. lia.
  - right. exists f. split; [done|]. split; [done|]. split; [done|].
    unfold remove. simpl. done.
Qed.

(** The same whether or not the record kept as the farthest is still indexed. *)
Lemma prune_full_cases k s :
  store_wf s → farthest_bound s → store_full s → ns_records s ≠ ∅ →
  ∃ f d, ns_farthest s = Some (f, d) ∧ (∀ k', is_Some (ns_records s !! k') → store_distance s k' ≤ d) ∧
    (farthest_exact s → is_Some (ns_records s !! f) ∧ d = store_distance s f) ∧
    prune_records_if_needed k s =
      if decide (d < store_distance s k) then (Err MaxRecords, s, [])
      else (Ok tt, (remove f s).1, [SpawnRemoveFile (generate_filename f)]).
Proof.
  intros Hwf Hb Hfull Hne. apply map_choose in Hne as (k0 & v0 & Hk0).
  destruct (Hb k0) as (f & d & Hf & _); [by eexists|]. exists f, d. split; [done|]. split_and!.
  - intros k' (f' & d' & Hf' & Hle)%Hb. rewrite Hf in Hf'. by simplify_eq.
  - unfold farthest_exact. rewrite Hf. by intros (? & ? & _).
  - unfold prune_records_if_needed, store_full in *.
    destruct (Z.ltb_spec (Z.of_nat (size (ns_records s))) (max_records (ns_config s))); [lia|]. rewrite Hf. fold (store_distance s k).
    destruct (Z.ltb_spec d (store_distance s k)); [by rewrite decide_True by done|by rewrite decide_False by lia].
Qed.

Lemma prune_cases k s :
  (prune_records_if_needed k s).1.2 = s ∨
  ∃ f d, ns_farthest s = Some (f, d) ∧ (prune_records_if_needed k s).1.2 = (remove f s).1.
Proof.
  unfold prune_records_if_needed. destruct (_ <? _); [by left|].
  destruct (ns_farthest s) as [[f d]|]; [|by left]. destruct (d <? _); [by left|].
  right. exists f, d. split; [done|]. by destruct (remove f s).
Qed.

Lemma prune_wf k s : store_wf s → store_wf (prune_records_if_needed k s).1.2.
Proof. destruct (prune_cases k s) as [->|(f & d & _ & ->)]; [done | apply remove_wf]. Qed.

Lemma prune_exact k s : store_wf s → farthest_exact s → farthest_exact (prune_records_if_needed k s).1.2.
Proof. destruct (prune_cases k s) as [->|(f & d & _ & ->)]; [done | apply remove_farthest_exact]. Qed.

Lemma prune_bound k s : store_wf s → farthest_bound s → farthest_bound (prune_records_if_needed k s).1.2.
Proof. destruct (prune_cases k s) as [->|(f & d & _ & ->)]; [done | apply remove_bound]. Qed.

(** ** Removing many records *)

Lemma remove_all_snoc keys k s :
  (remove_all (keys ++ [k]) s).1 = (remove k (remove_all keys s).1).1.
Proof.
  unfold remove_all. rewrite foldl_app. simpl.
  by destruct (foldl _ _ keys) as [s' effs].
Qed.

Lemma remove_all_invariant (P : NodeRecordStore → Prop) keys s :
  P s → (∀ k s, P s → P (remove k s).1) → P (remove_all keys s).1.
Proof.
  intros Hs Hstep. induction keys as [|k keys IH] using rev_ind; [done|].
  rewrite remove_all_snoc. by apply Hstep.
Qed.

Lemma remove_all_wf keys s : store_wf s → store_wf (remove_all keys s).1.
Proof. intros. apply remove_all_invariant; [done|]. intros. by apply remove_wf. Qed.

Lemma remove_all_records keys s k :
  store_wf s →
  ns_records (remove_all keys s).1 !! k = if bool_decide (k ∈ keys) then None else ns_records s !! k.
Proof.
  intros Hwf. induction keys as [|k0 keys IH] using rev_ind.
  - by rewrite bool_decide_eq_false_2 by (by intros ?%elem_of_nil).
  - rewrite remove_all_snoc, remove_records by (by apply remove_all_wf).
    rewrite lookup_delete, IH. repeat case_bool_decide; case_decide; set_solver.
Qed.

(** ** The order by distance counts the records in range *)

Lemma by_distance_sorted_elem s d k :
  store_wf s → (d, k) ∈ by_distance_sorted s ↔ is_Some (ns_records s !! k) ∧ d = store_distance s k.
Proof.
  intros Hwf. unfold by_distance_sorted.
  by rewrite sort_by_key_elem_of, elem_of_map_to_list, (wf_index s Hwf).
Qed.

Lemma by_distance_sorted_NoDup s : NoDup (by_distance_sorted s).
Proof. unfold by_distance_sorted. rewrite sort_by_key_perm. apply NoDup_map_to_list. Qed.

(** The keys of the records that satisfy a predicate on their distance. *)
Lemma by_distance_count s (P : Z → Prop) `{∀ d, Decision (P d)} :
  store_wf s →
  length (filter (λ e, P e.1) (by_distance_sorted s)) =
  size (filter (λ e, P (store_distance s e.1)) (ns_records s)).
Proof.
  intros Hwf. rewrite <- length_map_to_list.
  rewrite <- (length_fmap (λ e, (store_distance s e.1, e.1)) (map_to_list _)).
  apply Permutation_length. apply NoDup_Permutation.
  - apply NoDup_filter, by_distance_sorted_NoDup.
  - apply NoDup_fmap_2_strong; [|apply NoDup_map_to_list].
    intros [k1 v1] [k2 v2] Hk1%elem_of_map_to_list Hk2%elem_of_map_to_list [= _ ->]. congruence.
  - intros [d k]. rewrite list_elem_of_filter, by_distance_sorted_elem, list_elem_of_fmap by done. simpl. split.
    + intros (HP & [v Hv] & ->). exists (k, v). split; [done|].
      apply elem_of_map_to_list, map_lookup_filter_Some. done.
    + intros ([k' v] & [= -> ->] & Hv%elem_of_map_to_list).
      apply map_lookup_filter_Some in Hv as [Hv HP]. split; [done|]. split; [by eexists|done].
Qed.
End more_facts.
