(* ===== verification/RecordStoreProps.v ===== *)
(** * Properties of the record store

    The properties of [NodeRecordStore] (RecordStore), from the invariants of RecordStoreFacts: the
    index stays consistent under every sequence of operations, pruning evicts a farthest record and
    keeps the store within its capacity when puts are sequential, cleanup is conservative, the
    quoting metrics count what they say, and a restart restores what was written. *)

From stdpp Require Import base gmap strings countable list.
From Stdlib Require Import ZArith Lia.
From S2P Require Import Prelude Protocol RecordCache RecordStore RecordStoreFacts.

Section ops.
Context `{XorNameLib, Hex, Bls, KadLaws, RmpHeader, Aead, HashOrder}.
Implicit Types s : NodeRecordStore.

(** The operations of the store that change it. *)
Inductive StoreOp :=
  | OpMark (key : bytes) (vt : ValidationType) (dt : DataTypes)
  | OpRemove (key : bytes)
  | OpPutVerified (fuel : nat) (clk : nat → Z) (r : KadRecord) (vt : ValidationType) (client : bool)
  | OpCleanup
  | OpSetRange (d : Z)
  | OpPayment
  | OpPruneIndex (key : bytes).

(** The store after an operation; [None] when a cache eviction has not ended. *)
Definition run_op (op : StoreOp) s : option NodeRecordStore :=
  match op with
  | OpMark key vt dt => Some (mark_as_stored key vt dt s)
  | OpRemove key => Some (remove key s).1
  | OpPutVerified fuel clk r vt client => '(_, s', _) ← put_verified fuel clk r vt client s; Some s'
  | OpCleanup => Some (cleanup_irrelevant_records s).1
  | OpSetRange d => Some (set_responsible_distance_range d s)
  | OpPayment => Some (payment_received s).1
  | OpPruneIndex key => Some (pruning_indexing_cache key s)
  end.

Fixpoint run_ops (ops : list StoreOp) s : option NodeRecordStore :=
  match ops with
  | [] => Some s
  | op :: ops' => s' ← run_op op s; run_ops ops' s'
  end.

(** The key an operation may add to the index. *)
Definition op_key (op : StoreOp) : option bytes :=
  match op with OpMark key _ _ => Some key | _ => None end.

Lemma put_verified_cases fuel clk r vt client s res s' effs :
  put_verified fuel clk r vt client s = Some (res, s', effs) →
  ∃ c, s' = ns_with_cache s c ∨ s' = (prune_records_if_needed (rec_key r) (ns_with_cache s c)).1.2.
Proof.
  unfold put_verified. simpl.
  destruct (match rc_records (ns_cache s) !! rec_key r with Some _ => _ | None => _ end) as [e|].
  - intros (c & _ & [= <- <- <-])%bind_Some. by eexists; left.
  - intros (s1 & Hs1 & Hres)%bind_Some.
    assert (∃ c, s1 = ns_with_cache s c) as [c ->].
    { destruct client; [|injection Hs1 as <-; by eexists].
      apply fmap_Some in Hs1 as (c & _ & ->). by exists c. }
    exists c. right.
    destruct (prune_records_if_needed (rec_key r) (ns_with_cache s c)) as [[[|e] s2] effs2];
      by injection Hres as <- <- <-.
Qed.

Lemma cleanup_cases s :
  ∃ keys, (cleanup_irrelevant_records s).1 = (remove_all keys s).1.
Proof.
  unfold cleanup_irrelevant_records. destruct (_ <? _); [by exists []|].
  destruct (ns_responsible_range s); [|by exists []].
  destruct (_ =? 0); [by exists []|]. by eexists.
Qed.

Lemma run_op_wf U op s s' :
  no_collision U → (∀ k, op_key op = Some k → U k) →
  keys_within U s → store_wf s → run_op op s = Some s' → store_wf s' ∧ keys_within U s'.
Proof.
  intros Hnc Hop Hin Hwf. destruct op as [key vt dt|key|fuel clk r vt client| |d| |key]; unfold run_op;
    [intros <-%(inj Some)|intros <-%(inj Some)| |intros <-%(inj Some)|intros <-%(inj Some)
    |intros <-%(inj Some)|intros <-%(inj Some)].
  - split; [by eapply mark_as_stored_wf; eauto|]. intros k.
    destruct (mark_as_stored_fields key vt dt s) as (_ & _ & _ & _ & -> & _).
    destruct (decide (key = k)) as [<-|]; [intros; by apply Hop|].
    rewrite lookup_insert_ne by done. apply Hin.
  - split; [by apply remove_wf|]. intros k. rewrite remove_records by done.
    intros [v [_ Hk]%lookup_delete_Some]. apply Hin. by eexists.
  - intros ([[res s1] effs] & Hput & [= <-])%bind_Some.
    apply put_verified_cases in Hput as [c [->| ->]].
    { split; [by apply (store_wf_proper s)|done]. }
    assert (store_wf (ns_with_cache s c)) as Hwfc by (by apply (store_wf_proper s)).
    split; [by apply prune_wf|]. intros k.
    destruct (prune_cases (rec_key r) (ns_with_cache s c)) as [->|(f & d & _ & ->)]; [apply Hin|].
    rewrite remove_records by done. intros [v [_ Hk]%lookup_delete_Some]. apply Hin. by eexists.
  - destruct (cleanup_cases s) as [keys ->]. split; [by apply remove_all_wf|].
    intros k. rewrite remove_all_records by done. case_bool_decide; [by intros []|apply Hin].
  - split; [by apply (store_wf_proper s)|done].
  - split; [by apply (store_wf_proper s)|done].
  - split; [by apply pruning_indexing_cache_wf|]. intros k.
    unfold pruning_indexing_cache. rewrite index_remove_records by done.
    intros [v [_ Hk]%lookup_delete_Some]. apply Hin. by eexists.
Qed.

Lemma run_op_exact op s s' :
  (∀ k, op ≠ OpPruneIndex k) → store_wf s → farthest_exact s → run_op op s = Some s' → farthest_exact s'.
Proof.
  intros Hop Hwf Hex. destruct op as [key vt dt|key|fuel clk r vt client| |d| |key]; unfold run_op;
    [intros <-%(inj Some)|intros <-%(inj Some)| |intros <-%(inj Some)|intros <-%(inj Some)
    |intros <-%(inj Some)|].
  - by apply mark_as_stored_exact.
  - by apply remove_farthest_exact.
  - intros ([[res s1] effs] & Hput & [= <-])%bind_Some.
    apply put_verified_cases in Hput as [c [->| ->]]; [done|].
    apply prune_exact; [by apply (store_wf_proper s) | done].
  - destruct (cleanup_cases s) as [keys ->].
    apply (remove_all_invariant (λ s, store_wf s ∧ farthest_exact s)); [done|].
    intros k s1 [? ?]. split; [by apply remove_wf | by apply remove_farthest_exact].
  - done.
  - done.
  - by destruct (Hop key).
Qed.

Lemma run_op_bound op s s' :
  store_wf s → farthest_bound s → run_op op s = Some s' → farthest_bound s'.
Proof.
  intros Hwf Hb. destruct op as [key vt dt|key|fuel clk r vt client| |d| |key]; unfold run_op;
    [intros <-%(inj Some)|intros <-%(inj Some)| |intros <-%(inj Some)|intros <-%(inj Some)
    |intros <-%(inj Some)|intros <-%(inj Some)].
  - by apply mark_as_stored_bound.
  - by apply remove_bound.
  - intros ([[res s1] effs] & Hput & [= <-])%bind_Some.
    apply put_verified_cases in Hput as [c [->| ->]]; [done|].
    apply prune_bound; [by apply (store_wf_proper s) | done].
  - destruct (cleanup_cases s) as [keys ->].
    apply (remove_all_invariant (λ s, store_wf s ∧ farthest_bound s)); [done|].
    intros k s1 [? ?]. split; [by apply remove_wf | by apply remove_bound].
  - done.
  - done.
  - by apply pruning_indexing_cache_bound.
Qed.

Lemma run_ops_wf U ops s s' :
  no_collision U → (∀ op k, op ∈ ops → op_key op = Some k → U k) →
  keys_within U s → store_wf s → farthest_bound s → run_ops ops s = Some s' →
  store_wf s' ∧ keys_within U s' ∧ farthest_bound s'.
Proof.
  intros Hnc. revert s. induction ops as [|op ops IH]; intros s Hops Hin Hwf Hb Hrun; simpl in Hrun.
  { by injection Hrun as <-. }
  apply bind_Some in Hrun as (s1 & Hs1 & Hrun).
  destruct (run_op_wf U op s s1) as [Hwf1 Hin1]; [done| |done..|].
  { intros k. apply Hops. by left. }
  apply (IH s1); [|done|done|by apply (run_op_bound op s)|done].
  intros op' k Hop'. apply Hops. by right.
Qed.

Lemma run_ops_exact U ops s s' :
  no_collision U → (∀ op k, op ∈ ops → op_key op = Some k → U k) →
  (∀ k, OpPruneIndex k ∉ ops) →
  keys_within U s → store_wf s → farthest_exact s → run_ops ops s = Some s' → farthest_exact s'.
Proof.
  intros Hnc. revert s. induction ops as [|op ops IH]; intros s Hops Hnp Hin Hwf Hex Hrun; simpl in Hrun.
  { by injection Hrun as <-. }
  apply bind_Some in Hrun as (s1 & Hs1 & Hrun).
  destruct (run_op_wf U op s s1) as [Hwf1 Hin1]; [done| |done..|].
  { intros k. apply Hops. by left. }
  apply (IH s1); [| |done|done| |done].
  - intros op' k Hop'. apply Hops. by right.
  - intros k Hk. apply (Hnp k). by right.
  - apply (run_op_exact op s); [|done..]. intros k ->. apply (Hnp k). by left.
Qed.

(** ** Operations return *)

(** A cache of a size and with entries made by a time. *)
Definition cache_ready (n : nat) (t : Z) (c : RecordCache) : Prop :=
  rc_size c = n ∧ (size (rc_records c) ≤ n)%nat ∧ ∀ k r ts, rc_records c !! k = Some (r, ts) → ts ≤ t + rc_timeout c.

Lemma cache_ready_new n t timeout : cache_ready n t (cache_new n timeout).
Proof. split_and!; simpl; [done|rewrite map_size_empty; lia|]. intros k r ts Hk. by rewrite lookup_empty in Hk. Qed.

Lemma cache_ready_remove n t k c : cache_ready n t c → cache_ready n t (cache_remove k c).2.
Proof.
  intros (Hn & Hsz & Hts). split_and!; simpl; [done| |].
  - etrans; [|exact Hsz]. apply map_subseteq_size, delete_subseteq.
  - intros k' r ts [_ Hk]%lookup_delete_Some. by eapply Hts.
Qed.

Lemma cache_ready_later n t t' c : t ≤ t' → cache_ready n t c → cache_ready n t' c.
Proof. intros Ht (Hn & Hsz & Hts). split_and!; [done..|]. intros k r ts Hk%Hts. lia. Qed.

Lemma push_back_ready n t t' fuel clk key r c :
  (0 < n ≤ fuel)%nat → (∀ j, t < clk j ≤ t') → cache_ready n t c → ∃ c', push_back fuel clk key r c = Some c' ∧ cache_ready n t' c'.
Proof.
  intros Hn Hclk (Hsize & Hsz & Hts).
  destruct (push_back_spec fuel clk key r c) as (c' & m & Hp & Hsz' & Hs' & Ht' & Hkey & Hrest); [lia|lia| |].
  { intros j k r' ts Hk%Hts. specialize (Hclk j). lia. }
  exists c'. split; [done|]. split_and!; [congruence|lia|]. intros k r' ts Hk. rewrite Ht'. destruct (decide (k = key)) as [->|Hne].
  - rewrite Hkey in Hk. simplify_eq. specialize (Hclk m). lia.
  - destruct (Hrest k Hne) as [E|E]; rewrite E in Hk; [|done]. apply Hts in Hk. specialize (Hclk 0%nat). lia.
Qed.

Lemma put_verified_returns n t t' fuel clk r vt client s :
  (0 < n ≤ fuel)%nat → (∀ j, t < clk j ≤ t') → cache_ready n t (ns_cache s) →
  ∃ res s' effs, put_verified fuel clk r vt client s = Some (res, s', effs) ∧ cache_ready n t' (ns_cache s').
Proof.
  intros Hn Hclk Hc. apply (cache_ready_remove n t (rec_key r)) in Hc. unfold put_verified. cbn [cache_remove].
  set (c1 := cache_with (ns_cache s) (delete (rec_key r) (rc_records (ns_cache s)))) in *. change (cache_ready n t c1) in Hc.
  assert (t ≤ t') as Htt by (specialize (Hclk 0%nat); lia).
  destruct (match rc_records (ns_cache s) !! rec_key r with Some _ => _ | None => None end) as [e|].
  { destruct (push_back_ready n t t' fuel clk (rec_key r) e c1) as (c & Hp & Hc'); [done..|]. cbn [ns_cache ns_with_cache]. rewrite Hp. simpl. eauto 6. }
  assert (∃ s1, (if client then ns_with_cache (ns_with_cache s c1) <$> push_back fuel clk (rec_key r) r (ns_cache (ns_with_cache s c1))
    else Some (ns_with_cache s c1)) = Some s1 ∧ cache_ready n t' (ns_cache s1)) as (s1 & -> & Hs1).
  { destruct client; [|eexists; split; [done|by eapply cache_ready_later]].
    destruct (push_back_ready n t t' fuel clk (rec_key r) r c1) as (c & Hp & Hc'); [done..|]. cbn [ns_cache ns_with_cache]. rewrite Hp. simpl. eauto. }
  cbn [mbind option_bind]. assert (cache_ready n t' (ns_cache (prune_records_if_needed (rec_key r) s1).1.2)) as Hp.
  { destruct (prune_cases (rec_key r) s1) as [->|(f & d & _ & ->)]; [done|].
    destruct (remove_fields f s1) as (_ & _ & _ & _ & -> & _). by apply cache_ready_remove. }
  destruct (prune_records_if_needed (rec_key r) s1) as [[[|e] s2] effs]; simpl in Hp; eauto 6.
Qed.

(** The clock moves on between the puts, and each has fuel for the cache. *)
Fixpoint timely (n : nat) (t : Z) (ops : list StoreOp) : Prop :=
  match ops with
  | [] => True
  | OpPutVerified fuel clk _ _ _ :: ops => (n ≤ fuel)%nat ∧ ∃ t', (∀ j, t < clk j ≤ t') ∧ timely n t' ops
  | _ :: ops => timely n t ops
  end.

Lemma run_ops_returns n t ops s : (0 < n)%nat → cache_ready n t (ns_cache s) → timely n t ops → ∃ s', run_ops ops s = Some s'.
Proof.
  intros Hn. revert t s. induction ops as [|op ops IH]; intros t s Hc Ht; [by eexists|].
  destruct op as [key vt dt|key|fuel clk r vt client| |d| |key]; cbn [run_ops run_op timely mbind option_bind] in *.
  - apply (IH t); [|done]. unfold mark_as_stored. simpl. by repeat case_match.
  - apply (IH t); [|done]. destruct (remove_fields key s) as (_ & _ & _ & _ & -> & _). by apply cache_ready_remove.
  - destruct Ht as (Hfuel & t' & Hclk & Ht). destruct (put_verified_returns n t t' fuel clk r vt client s) as (res & s' & effs & Hp & Hc'); [done..|].
    rewrite Hp. simpl. by apply (IH t').
  - apply (IH t); [|done]. destruct (cleanup_cases s) as [keys ->]. apply (remove_all_invariant (λ s, cache_ready n t (ns_cache s))); [done|].
    intros k s1 Hs1. destruct (remove_fields k s1) as (_ & _ & _ & _ & -> & _). by apply cache_ready_remove.
  - by apply (IH t).
  - by apply (IH t).
  - apply (IH t); [|done]. unfold pruning_indexing_cache. destruct (index_remove_fields key s) as (_ & _ & -> & _). done.
Qed.

(** C9: the index, the order by distance and the farthest record stay in step. From any start-up, through any sequence
    of operations on keys that do not collide under the key hash: every indexed key has its own address, the order
    by distance lists exactly the indexed keys at their distances, and no indexed key is farther than the farthest
    distance that is kept. As long as no key was dropped by [pruning_indexing_cache], which does not look at the farthest
    record, that record is an indexed one of the largest distance, and it is absent exactly when the store is empty.
    And the operations return, if the clock moves on between puts, the cache has room for a record, and each put has
    as much fuel as the cache has room. *)
Theorem store_index_invariant U local_id config historic now entries ops :
  let s0 := (with_config local_id config historic now entries).1 in
  no_collision U → keys_within U s0 → (∀ op k, op ∈ ops → op_key op = Some k → U k) →
  (∀ s', run_ops ops s0 = Some s' →
     store_wf s' ∧ keys_within U s' ∧ farthest_bound s' ∧ ((∀ k, OpPruneIndex k ∉ ops) → farthest_exact s')) ∧
  (∀ t, (0 < records_cache_size config)%nat → timely (records_cache_size config) t ops → ∃ s', run_ops ops s0 = Some s').
Proof.
  intros s0 Hnc Hin Hops. split.
  - intros s' Hrun. destruct (with_config_wf U local_id config historic now entries Hnc Hin) as [Hwf Hex].
    destruct (run_ops_wf U ops s0 s' Hnc Hops Hin Hwf) as (? & ? & ?);
      [by apply farthest_exact_bound | done |].
    split; [done|]. split; [done|]. split; [done|]. intros. by apply (run_ops_exact U ops s0).
  - intros t Hsize. apply run_ops_returns; [done|].
    assert (ns_cache s0 = cache_new (records_cache_size config) CACHE_TIMEOUT) as -> by (subst s0; unfold with_config; by repeat case_match).
    by apply cache_ready_new.
Qed.

(** ** Storing when full *)

(** What a verified put does to the index, and the tasks it starts. *)
Lemma put_verified_spec fuel clk r vt client s res s' effs :
  store_wf s → farthest_exact s → 0 < max_records (ns_config s) →
  put_verified fuel clk r vt client s = Some (res, s', effs) →
  (res = Ok tt ∧ ns_records s' = ns_records s ∧ effs = [] ∧
   ∃ e t, rc_records (ns_cache s) !! rec_key r = Some (e, t) ∧ rec_value e = rec_value r) ∨
  (¬ store_full s ∧ res = Ok tt ∧ ns_records s' = ns_records s ∧
   effs = [SpawnWrite (generate_filename (rec_key r)) r vt]) ∨
  (store_full s ∧ res = Err MaxRecords ∧ ns_records s' = ns_records s ∧ effs = [] ∧
   ∀ k, is_Some (ns_records s !! k) → store_distance s k < store_distance s (rec_key r)) ∨
  (∃ f, store_full s ∧ res = Ok tt ∧ is_Some (ns_records s !! f) ∧
   (∀ k, is_Some (ns_records s !! k) → store_distance s k ≤ store_distance s f) ∧
   store_distance s (rec_key r) ≤ store_distance s f ∧
   ns_records s' = delete f (ns_records s) ∧
   effs = [SpawnRemoveFile (generate_filename f); SpawnWrite (generate_filename (rec_key r)) r vt]).
Proof.
  intros Hwf Hex Hmax. unfold put_verified. simpl.
  destruct (match rc_records (ns_cache s) !! rec_key r with Some _ => _ | None => _ end) as [e|] eqn:Ee.
  { intros (c & _ & [= <- <- <-])%bind_Some. left. split; [done|]. split; [done|]. split; [done|].
    destruct (rc_records (ns_cache s) !! rec_key r) as [[e' t]|]; [|done].
    case_bool_decide; [|done]. exists e', t. done. }
  intros (s1 & Hs1 & Hres)%bind_Some. right.
  assert (∃ c, s1 = ns_with_cache s c) as [c ->].
  { destruct client; [|injection Hs1 as <-; by eexists].
    apply fmap_Some in Hs1 as (c & _ & ->). by exists c. }
  destruct (decide (store_full s)) as [Hfull|Hnf].
  - right. destruct (prune_full_spec (rec_key r) (ns_with_cache s c)) as [[Hp Hd]|(f & Hf & Hm & Hd & Hp)].
    + by apply (store_wf_proper s).
    + done.
    + done.
    + intros He. unfold store_full in Hfull. simpl in He. rewrite He, map_size_empty in Hfull. lia.
    + left. rewrite Hp in Hres. injection Hres as <- <- <-. done.
    + right. exists f. rewrite Hp in Hres. apply (inj Some) in Hres.
      apply pair_equal_spec in Hres as [[<- <-]%pair_equal_spec <-].
      rewrite remove_records by (by apply (store_wf_proper s)). done.
  - left. rewrite prune_not_full in Hres by done. injection Hres as <- <- <-. done.
Qed.





(** A verified put whose write completes, and whose report is handled, before the next one. *)
Definition put_and_mark (fuel : nat) (clk : nat → Z) (r : KadRecord) (vt : ValidationType)
    (client : bool) s : option NodeRecordStore :=
  '(_, s', effs) ← put_verified fuel clk r vt client s;
  Some (foldl (λ s e,
          match e with
          | SpawnWrite f r vt =>
            match (run_write (ns_encryption s) f r vt Written ∅).2 with
            | Some (AddLocalRecordAsStored k vt dt) => mark_as_stored k vt dt s
            | _ => s
            end
          | _ => s
          end) s' effs).

Fixpoint puts_and_marks (fuel : nat) (puts : list ((nat → Z) * KadRecord * ValidationType * bool)) s
    : option NodeRecordStore :=
  match puts with
  | [] => Some s
  | (clk, r, vt, client) :: puts' =>
    s' ← put_and_mark fuel clk r vt client s; puts_and_marks fuel puts' s'
  end.

Lemma run_write_key enc f r vt out disk k vt' dt :
  (run_write enc f r vt out disk).2 = Some (AddLocalRecordAsStored k vt' dt) → k = rec_key r.
Proof. unfold run_write. by repeat case_match; intros [= <- <- <-]. Qed.

Lemma mark_as_stored_size key vt dt s :
  (size (ns_records (mark_as_stored key vt dt s)) ≤ S (size (ns_records s)))%nat.
Proof.
  destruct (mark_as_stored_fields key vt dt s) as (_ & _ & _ & _ & -> & _).
  rewrite map_size_insert. case_match; simpl; lia.
Qed.

(** The properties a sequence of completed puts keeps. *)
Definition within_capacity (U : bytes → Prop) s : Prop :=
  store_wf s ∧ farthest_exact s ∧ keys_within U s ∧ 0 < max_records (ns_config s) ∧
  Z.of_nat (size (ns_records s)) ≤ max_records (ns_config s).

Lemma put_verified_config fuel clk r vt client s res s' effs :
  put_verified fuel clk r vt client s = Some (res, s', effs) → ns_config s' = ns_config s.
Proof.
  intros [c [->| ->]]%put_verified_cases; [done|].
  destruct (prune_cases (rec_key r) (ns_with_cache s c)) as [->|(f & d & _ & ->)]; [done|].
  by destruct (remove_fields f (ns_with_cache s c)) as (_ & -> & _).
Qed.

(** After a verified put there is room for the record it writes. *)
Lemma put_verified_room U fuel clk r vt client s res s' effs :
  no_collision U → within_capacity U s → U (rec_key r) →
  put_verified fuel clk r vt client s = Some (res, s', effs) →
  within_capacity U s' ∧
  (effs = [] ∨
   (∃ e, effs = e ++ [SpawnWrite (generate_filename (rec_key r)) r vt] ∧
      ∀ x f' r' vt', x ∈ e → x ≠ SpawnWrite f' r' vt') ∧
   Z.of_nat (size (ns_records s')) < max_records (ns_config s')).
Proof.
  intros Hnc (Hwf & Hex & Hin & Hpos & Hsz) Hr Hput.
  pose proof (put_verified_config _ _ _ _ _ _ _ _ _ Hput) as Hcfg.
  assert (run_op (OpPutVerified fuel clk r vt client) s = Some s') as Hop by (simpl; by rewrite Hput).
  destruct (run_op_wf U (OpPutVerified fuel clk r vt client) s s') as [Hwf' Hin']; [done..|].
  assert (farthest_exact s') as Hex' by (by apply (run_op_exact (OpPutVerified fuel clk r vt client) s)).
  unfold within_capacity. rewrite Hcfg.
  apply put_verified_spec in Hput as
    [(_ & Hrec & He & _)|[(Hnf & _ & Hrec & He)|[(_ & _ & Hrec & He & _)|(f & _ & _ & Hf & _ & _ & Hrec & He)]]];
    [| | | |done..]; rewrite Hrec.
  - split; [done|]. by left.
  - split; [done|]. right. split; [|unfold store_full in Hnf; lia].
    exists []. split; [done|]. by intros ? ? ? ? ?%elem_of_nil.
  - split; [done|]. by left.
  - rewrite map_size_delete. destruct Hf as [v Hf]. rewrite Hf.
    assert (size (ns_records s) ≠ 0%nat) as Hne
      by (intros E%map_size_empty_inv; by rewrite E, lookup_empty in Hf).
    split; [split_and!; try done; simpl; lia|]. right. split; [|simpl; lia].
    exists [SpawnRemoveFile (generate_filename f)]. split; [done|].
    by intros ? ? ? ? ->%list_elem_of_singleton.
Qed.

Lemma put_and_mark_capacity U fuel clk r vt client s s' :
  no_collision U → within_capacity U s → U (rec_key r) →
  put_and_mark fuel clk r vt client s = Some s' → within_capacity U s'.
Proof.
  intros Hnc Hcap Hr ([[res s1] effs] & Hput & Hs')%bind_Some. simplify_eq/=.
  destruct (put_verified_room _ _ _ _ _ _ _ _ _ _ Hnc Hcap Hr Hput)
    as (Hcap1 & [->|((e & -> & He) & Hroom)]); [done|].
  rewrite foldl_app. simpl.
  assert (foldl (λ s e, match e with
    | SpawnWrite f r vt => match (run_write (ns_encryption s) f r vt Written ∅).2 with
       | Some (AddLocalRecordAsStored k vt dt) => mark_as_stored k vt dt s | _ => s end
    | _ => s end) s1 e = s1) as ->.
  { apply (foldl_invariant (λ s, s = s1)); [done|]. intros s2 x -> Hx.
    destruct x; try done. by destruct (He _ _ _ _ Hx eq_refl). }
  destruct (run_write _ _ _ _ _ _).2 as [[k vt' dt|k|k]|] eqn:E; [|done..].
  apply run_write_key in E as ->. destruct Hcap1 as (Hwf & Hex & Hin & Hpos & Hsz).
  destruct (mark_as_stored_fields (rec_key r) vt' dt s1) as (_ & Hc & _ & _ & Hrec & _).
  split_and!.
  - by eapply mark_as_stored_wf.
  - by apply mark_as_stored_exact.
  - intros k. rewrite Hrec. intros [v [[<- _]|[_ Hk]]%lookup_insert_Some]; [done|]. apply Hin. by eexists.
  - by rewrite Hc.
  - rewrite Hc. pose proof (mark_as_stored_size (rec_key r) vt' dt s1). lia.
Qed.

(** Puts whose writes complete one at a time keep the store within its capacity: a store that
    starts with at most [max_records] records never holds more, whatever is put. *)
Theorem sequential_puts_capacity U fuel puts s s' :
  no_collision U → (∀ clk r vt client, (clk, r, vt, client) ∈ puts → U (rec_key r)) →
  store_wf s → farthest_exact s → keys_within U s → 0 < max_records (ns_config s) →
  Z.of_nat (size (ns_records s)) ≤ max_records (ns_config s) →
  puts_and_marks fuel puts s = Some s' →
  Z.of_nat (size (ns_records s')) ≤ max_records (ns_config s').
Proof.
  intros Hnc Hputs Hwf Hex Hin Hpos Hsz Hrun.
  assert (within_capacity U s) as Hcap by (by split_and!).
  clear Hwf Hex Hin Hpos Hsz. revert s Hcap Hrun.
  induction puts as [|[[[clk r] vt] client] puts IH]; intros s Hcap Hrun; simpl in Hrun.
  - injection Hrun as <-. apply Hcap.
  - apply bind_Some in Hrun as (s1 & Hs1 & Hrun). apply (IH ltac:(set_solver) s1); [|done].
    eapply (put_and_mark_capacity U); [done|done| |done]. eapply Hputs. by left.
Qed.

(** ** Cleanup *)

Lemma by_distance_sorted_length s : store_wf s → length (by_distance_sorted s) = size (ns_records s).
Proof.
  intros Hwf. pose proof (by_distance_count s (λ _, True) Hwf) as E.
  rewrite map_filter_id in E by done. rewrite <- E. by rewrite list_filter_all.
Qed.

Lemma remove_all_size keys s :
  store_wf s → NoDup keys → (∀ k, k ∈ keys → is_Some (ns_records s !! k)) →
  (size (ns_records (remove_all keys s).1) + length keys = size (ns_records s))%nat.
Proof.
  intros Hwf. induction keys as [|k keys IH] using rev_ind; intros Hnd Hin; [simpl; lia|].
  apply NoDup_app in Hnd as (Hnd & Hdisj & _).
  rewrite remove_all_snoc, remove_records, length_app by (by apply remove_all_wf).
  rewrite <- IH; [|done|set_solver]. rewrite map_size_delete.
  pose proof (remove_all_records keys s k Hwf) as Hk.
  rewrite bool_decide_eq_false_2 in Hk by (intros Hk'; eapply Hdisj; [done|by left]).
  destruct (Hin k ltac:(set_solver)) as [v Hv]. rewrite Hv in Hk. rewrite Hk.
  assert (size (ns_records (remove_all keys s).1) ≠ 0%nat)
    by (intros E%map_size_empty_inv; by rewrite E, lookup_empty in Hk).
  simpl. lia.
Qed.

(** The keys a cleanup removes: among the [n] farthest, those at least [d] away. *)
Lemma cleanup_keys_elem s d n k :
  store_wf s →
  k ∈ cleanup_keys s d n ↔
  d ≤ store_distance s k ∧ (store_distance s k, k) ∈ take (Z.to_nat n) (reverse (by_distance_sorted s)).
Proof.
  intros Hwf. unfold cleanup_keys. rewrite list_elem_of_fmap. split.
  - intros ([d' k'] & -> & [Hd Hin]%list_elem_of_filter). simpl in *.
    assert (d' = store_distance s k') as ->; [|done].
    apply (by_distance_sorted_elem s d' k' Hwf). apply elem_of_reverse.
    by eapply elem_of_take_weaken.
  - intros [Hd Hin]. exists (store_distance s k, k). split; [done|]. by apply list_elem_of_filter.
Qed.

Lemma cleanup_keys_indexed s d n k : store_wf s → k ∈ cleanup_keys s d n → is_Some (ns_records s !! k).
Proof.
  intros Hwf [_ Hin]%cleanup_keys_elem; [|done].
  apply (by_distance_sorted_elem s (store_distance s k) k Hwf), elem_of_reverse. by eapply elem_of_take_weaken.
Qed.

Lemma cleanup_keys_NoDup s d n : store_wf s → NoDup (cleanup_keys s d n).
Proof.
  intros Hwf. unfold cleanup_keys. apply NoDup_fmap_2_strong.
  - intros [d1 k1] [d2 k2] [_ Hi]%list_elem_of_filter [_ Hj]%list_elem_of_filter [= ->].
    apply elem_of_take_weaken, elem_of_reverse, (by_distance_sorted_elem s _ _ Hwf) in Hi as [_ ->].
    apply elem_of_take_weaken, elem_of_reverse, (by_distance_sorted_elem s _ _ Hwf) in Hj as [_ ->].
    done.
  - apply NoDup_filter. eapply sublist_NoDup; [|apply sublist_take].
    rewrite reverse_Permutation. apply by_distance_sorted_NoDup.
Qed.

(** A record kept by the cleanup is either within the distance or outside the [n] farthest. *)
Lemma cleanup_keys_kept s d n k :
  store_wf s → is_Some (ns_records s !! k) → k ∉ cleanup_keys s d n →
  store_distance s k < d ∨
  (store_distance s k, k) ∈ drop (Z.to_nat n) (reverse (by_distance_sorted s)).
Proof.
  intros Hwf Hk Hn. destruct (decide (d ≤ store_distance s k)) as [Hd|]; [right|left; lia].
  assert ((store_distance s k, k) ∈ reverse (by_distance_sorted s)) as Hin
    by (by apply elem_of_reverse, by_distance_sorted_elem).
  rewrite <- (take_drop (Z.to_nat n)), elem_of_app in Hin. destruct Hin as [Hin|]; [|done].
  destruct Hn. by apply cleanup_keys_elem.
Qed.

(** It is closer than every removed record. *)
Lemma cleanup_keys_closer s d n k k' :
  store_wf s → d ≤ store_distance s k →
  (store_distance s k, k) ∈ take (Z.to_nat n) (reverse (by_distance_sorted s)) →
  is_Some (ns_records s !! k') → k' ∉ cleanup_keys s d n → store_distance s k' < store_distance s k.
Proof.
  intros Hwf Hd Htop Hk' Hn.
  assert (k ∈ cleanup_keys s d n) as Hk by (by apply cleanup_keys_elem).
  destruct (cleanup_keys_kept s d n k' Hwf Hk' Hn) as [|Hdrop]; [lia|].
  pose proof (take_reverse_top fst _ _ _ _ (sort_by_key_sorted fst _) Htop Hdrop) as Hle. simpl in Hle.
  assert (store_distance s k' ≠ store_distance s k); [|lia].
  intros ->%(wf_distance_inj s k' k Hwf Hk'); [done|]. by eapply cleanup_keys_indexed.
Qed.

Lemma cleanup_keys_length s d n : 0 ≤ n → Z.of_nat (length (cleanup_keys s d n)) ≤ n.
Proof.
  intros Hn. unfold cleanup_keys. rewrite length_fmap.
  assert (length (filter (λ e, (d ≤ e.1)%Z) (take (Z.to_nat n) (reverse (by_distance_sorted s)))) ≤ Z.to_nat n)%nat; [|lia].
  etrans; [apply length_filter|]. rewrite length_take. lia.
Qed.

(** When a record that far is outside the [n] farthest, all of those are removed. *)
Lemma cleanup_keys_full s d n k :
  d ≤ store_distance s k → 0 ≤ n →
  (store_distance s k, k) ∈ drop (Z.to_nat n) (reverse (by_distance_sorted s)) →
  length (cleanup_keys s d n) = Z.to_nat n.
Proof.
  intros Hd Hn Hdrop. unfold cleanup_keys. rewrite length_fmap, list_filter_all.
  - rewrite length_take. apply list_elem_of_lookup in Hdrop as [i Hi%lookup_lt_Some].
    rewrite length_drop in Hi. lia.
  - intros e He. pose proof (take_reverse_top fst _ _ _ _ (sort_by_key_sorted fst _) He Hdrop) as Hle.
    simpl in Hle. lia.
Qed.

(** The records a cleanup may remove, when it runs at all. *)
Lemma cleanup_removes s :
  (cleanup_irrelevant_records s).1 = s ∨
  ∃ range, ns_responsible_range s = Some range ∧
    MAX_RECORDS_COUNT / 10 ≤ Z.of_nat (size (ns_records s)) ∧
    (cleanup_irrelevant_records s).1 =
      (remove_all (cleanup_keys s (saturating_mul u256_max range 10)
                     (Z.of_nat (size (ns_records s)) / 10)) s).1.
Proof.
  unfold cleanup_irrelevant_records.
  destruct (Z.ltb_spec (Z.of_nat (size (ns_records s))) (MAX_RECORDS_COUNT / 10)); [by left|].
  destruct (ns_responsible_range s) as [range|]; [|by left]. destruct (_ =? 0); [by left|].
  right. by exists range.
Qed.

(** Cleanup is conservative. It changes no record it keeps; it removes a record only when the
    store holds at least a tenth of the network's record limit, the node knows its range, the
    record is ten times as far as the range, and every record it keeps is closer; and it removes
    at most a tenth of the records. If it removes anything and a record that far stays, it has
    removed a full tenth. *)
Theorem cleanup_conservative s :
  store_wf s →
  let s' := (cleanup_irrelevant_records s).1 in
  (∀ k v, ns_records s' !! k = Some v → ns_records s !! k = Some v) ∧
  (∀ k, is_Some (ns_records s !! k) → ns_records s' !! k = None →
    MAX_RECORDS_COUNT / 10 ≤ Z.of_nat (size (ns_records s)) ∧
    ∃ range, ns_responsible_range s = Some range ∧
      saturating_mul u256_max range 10 ≤ store_distance s k ∧
      (∀ k', is_Some (ns_records s' !! k') → store_distance s k' < store_distance s k) ∧
      (∀ k', is_Some (ns_records s' !! k') → saturating_mul u256_max range 10 ≤ store_distance s k' →
        Z.of_nat (size (ns_records s')) = Z.of_nat (size (ns_records s)) - Z.of_nat (size (ns_records s)) / 10)) ∧
  Z.of_nat (size (ns_records s)) - Z.of_nat (size (ns_records s)) / 10 ≤ Z.of_nat (size (ns_records s')).
Proof.
  intros Hwf s'. unfold s'.
  assert (0 ≤ Z.of_nat (size (ns_records s)) / 10) as Hn by (apply Z.div_pos; lia).
  destruct (cleanup_removes s) as [->|(range & Hrange & Hmin & ->)].
  { split; [done|]. split; [intros k [v Hv] ?; congruence|]. lia. }
  set (d := saturating_mul _ _ _). set (n := Z.of_nat (size (ns_records s)) / 10).
  pose proof (remove_all_size (cleanup_keys s d n) s Hwf (cleanup_keys_NoDup s d n Hwf)
    (λ k, cleanup_keys_indexed s d n k Hwf)) as Hsize.
  pose proof (cleanup_keys_length s d n Hn) as Hlen.
  split; [|split; [|lia]].
  - intros k v. rewrite remove_all_records by done. by case_bool_decide.
  - intros k Hk. rewrite remove_all_records by done. case_bool_decide as Hck; [intros _|by rewrite eq_None_not_Some].
    apply (cleanup_keys_elem s d n k Hwf) in Hck as [Hd Htop]. split; [done|]. exists range. split; [done|]. split; [done|].
    split; intros k'; rewrite remove_all_records by done; case_bool_decide as Hck'; try by intros [].
    + intros Hk'. by eapply (cleanup_keys_closer s d n).
    + intros Hk' Hd'. destruct (cleanup_keys_kept s d n k' Hwf Hk' Hck'); [lia|].
      rewrite (cleanup_keys_full s d n k') in Hsize; [lia|done..].
Qed.

(** ** Quoting metrics *)

Lemma records_per_type_elem s i n :
  (i, n) ∈ records_per_type s ↔
  n = Z.of_nat (size (filter (λ e, get_index e.2.2 = i) (ns_records s))) ∧ 0 < n.
Proof.
  unfold records_per_type. rewrite sort_by_key_elem_of, elem_of_map_to_list.
  rewrite (foldl_ext _ (λ (m : gmap Z Z) x, <[get_index x.2.2 := default 0 (m !! get_index x.2.2) + 1]> m))
    by (by intros m [k [[a vt] dt]]).
  rewrite count_fold_lookup. simpl.
  assert (length (filter (λ x, get_index x.2.2 = i) (hm_iter (ns_records s))) =
          size (filter (λ e, get_index e.2.2 = i) (ns_records s))) as ->.
  { rewrite <- length_map_to_list. unfold hm_iter. rewrite hash_order_perm.
    apply Permutation_length, NoDup_Permutation; [apply NoDup_filter| |]; [apply NoDup_map_to_list..|].
    intros [k v]. by rewrite list_elem_of_filter, !elem_of_map_to_list, map_lookup_filter_Some, (comm and). }
  case_bool_decide; [split; [done|lia]|]. split; [intros [= <-]; lia | intros [-> _]; done].
Qed.

(** The metrics a node quotes from count what they say: the close records are the stored
    records within the responsible range (all of them while the range is unknown), the counts per
    type are the numbers of stored records of each type that occurs, the flag says whether the
    record is already stored, and the node's age is zero when the clock went back. *)
Theorem quoting_metrics_counts now key data_type data_size network_size s :
  store_wf s →
  let '(m, stored) := quoting_metrics now key data_type data_size network_size s in
  qm_close_records_stored m =
    match ns_responsible_range s with
    | Some range => Z.of_nat (size (filter (λ e, store_distance s e.1 < range) (ns_records s)))
    | None => Z.of_nat (size (ns_records s))
    end ∧
  (∀ dt n, (get_index dt, n) ∈ qm_records_per_type m ↔
    n = Z.of_nat (size (filter (λ e, e.2.2 = dt) (ns_records s))) ∧ 0 < n) ∧
  (stored = true ↔ is_Some (ns_records s !! key)) ∧
  qm_live_time m = Z.max 0 (now - ns_timestamp s) / NANOS.
Proof.
  intros Hwf. unfold quoting_metrics.
  destruct (match ns_responsible_range s with Some _ => _ | None => _ end) as [nd cl] eqn:E. simpl.
  split_and!.
  - destruct (ns_responsible_range s) as [range|]; injection E as <- <-; [|done].
    unfold get_records_within_distance_range. f_equal. exact (by_distance_count s (λ d, d < range) Hwf).
  - intros dt n. rewrite records_per_type_elem.
    assert (filter (λ e, get_index e.2.2 = get_index dt) (ns_records s) =
            filter (λ e, e.2.2 = dt) (ns_records s)) as ->; [|done].
    apply map_filter_ext. intros k v _. simpl. split; [|by intros ->].
    intros Hi. apply (inj Some). by rewrite <- !get_from_index, Hi.
  - apply contains_key_true.
  - unfold as_secs. destruct (Z.leb_spec (ns_timestamp s) now).
    + by rewrite Z.max_r by lia.
    + by rewrite Z.max_l by lia.
Qed.

(** ** Restart *)

(** The directory that holds a disk's files, as start-up lists it. *)
Definition dir_entries (disk : gmap bytes bytes) : list DirEntry :=
  (λ nc, {| de_is_file := true; de_name := Some nc.1; de_content := Some nc.2 |}) <$> map_to_list disk.

(** The content version a restart gives a record. *)
Definition restored_type (r : KadRecord) (dt : DataTypes) : ValidationType :=
  match dt with Chunk_t => VT_Chunk | _ => VT_NonChunk (xorname_from_content (rec_value r)) end.

Lemma get_data_type_value r r' : rec_value r = rec_value r' → get_data_type r = get_data_type r'.
Proof. unfold get_data_type, record_header_from_record. by intros ->. Qed.

Lemma process_entry_key enc e k v :
  (process_entry enc e).1 = Some (k, v) → ∃ n, de_name e = Some n ∧ hex_decode n = Some k.
Proof.
  unfold process_entry, get_data_from_filename. intros Hp.
  repeat case_match; simplify_eq/=; eauto.
Qed.

(** An entry that restores a key, and no other entry that does: the index has what it restores. *)
Lemma update_records_lookup enc entries k v :
  (∃ e, e ∈ entries ∧ (process_entry enc e).1 = Some (k, v)) →
  (∀ e v', e ∈ entries → (process_entry enc e).1 = Some (k, v') → v' = v) →
  update_records_from_an_existing_store enc entries !! k = Some v.
Proof.
  intros (e & He & Hp) Huniq. unfold update_records_from_an_existing_store.
  apply list_elem_of_split in He as (l1 & l2 & ->). rewrite foldl_app. simpl. rewrite Hp.
  set (m := <[k := v]> _). assert (m !! k = Some v) as Hm by apply lookup_insert_eq.
  revert Hm. generalize m. clear m. intros m Hm. apply (foldl_invariant (λ m, m !! k = Some v)); [done|].
  intros m' e' Hm' He'. destruct (process_entry enc e').1 as [[k' v']|] eqn:E; [|done].
  destruct (decide (k' = k)) as [->|]; [|by rewrite lookup_insert_ne].
  rewrite lookup_insert_eq. f_equal. eapply Huniq; [|exact E]. apply elem_of_app. right. by right.
Qed.
End ops.

Section restart.
Context `{XorNameLib, HexLaws, Bls, KadLaws, RmpHeader, AeadLaws, HashOrder}.

Lemma read_back enc r b :
  prepare_record_bytes r enc = Some b →
  get_record_from_bytes b (rec_key r) enc =
    Some {| rec_key := rec_key r; rec_value := rec_value r; rec_publisher := None; rec_expires := None |}.
Proof.
  unfold prepare_record_bytes, get_record_from_bytes. destruct enc as [c n].
  intros Hb%aead_roundtrip. by rewrite Hb.
Qed.

Lemma process_entry_restores enc r b dt :
  prepare_record_bytes r enc = Some b → get_data_type r = Ok dt →
  (process_entry enc {| de_is_file := true; de_name := Some (generate_filename (rec_key r));
                        de_content := Some b |}).1 =
  Some (rec_key r, (NA_RecordKey (rec_key r), restored_type r dt, dt)).
Proof.
  intros Hb Hdt. unfold process_entry, generate_filename, get_data_from_filename. simpl.
  rewrite hex_roundtrip, (read_back enc r b Hb).
  rewrite (get_data_type_value _ r) by done. rewrite Hdt. by destruct dt.
Qed.

(** C30: a record survives a restart. Once the write task has reported a record as stored, a store
    started on that disk with the same seed has it in its index with its type and content
    version, and reading it decrypts to the bytes that were put, whatever else the directory
    holds and in whatever order it is listed, as long as no other file name decodes to its key. *)
Theorem restart_restores r vt dt disk disk' cmd entries local_id config historic now :
  let enc := derive_aes256gcm_siv_from_seed (encryption_seed config) in
  let s := (with_config local_id config historic now entries).1 in
  run_write enc (generate_filename (rec_key r)) r vt Written disk = (disk', Some cmd) →
  get_data_type r = Ok dt → entries ≡ₚ dir_entries disk' →
  (∀ n, is_Some (disk' !! n) → hex_decode n = Some (rec_key r) → n = hex_encode (rec_key r)) →
  ns_records s !! rec_key r = Some (NA_RecordKey (rec_key r), restored_type r dt, dt) ∧
  get disk' (rec_key r) s =
    (Some {| rec_key := rec_key r; rec_value := rec_value r; rec_publisher := None; rec_expires := None |}, []).
Proof.
  intros enc s Hw Hdt Hent Huniq. unfold run_write in Hw. rewrite Hdt in Hw.
  destruct (prepare_record_bytes r enc) as [b|] eqn:Hb; [|done]. injection Hw as <- <-.
  assert (ns_records s !! rec_key r = Some (NA_RecordKey (rec_key r), restored_type r dt, dt)) as Hrec.
  { unfold s, with_config. destruct (match historic with Some _ => _ | None => _ end) as [pc ts].
    simpl. fold enc. apply update_records_lookup.
    - eexists. split; [|by apply process_entry_restores]. rewrite Hent. unfold dir_entries.
      apply list_elem_of_fmap. exists (generate_filename (rec_key r), b). split; [done|].
      apply elem_of_map_to_list, lookup_insert_eq.
    - intros e v' He Hp. pose proof (process_entry_key _ _ _ _ Hp) as (n & Hn & Hdec).
      rewrite Hent in He. apply list_elem_of_fmap in He as ([n' c] & -> & Hc%elem_of_map_to_list).
      simpl in Hn. injection Hn as ->. assert (n = hex_encode (rec_key r)) as -> by (by apply Huniq).
      unfold generate_filename in Hc. rewrite lookup_insert_eq in Hc. injection Hc as ->.
      pose proof (process_entry_restores enc r c dt Hb Hdt) as Hp'. unfold generate_filename in Hp'.
      simpl in Hp. congruence. }
  split; [done|]. unfold get, cache_get. 
  assert (rc_records (ns_cache s) = ∅ ∧ ns_encryption s = enc) as [-> ->].
  { unfold s, with_config. by destruct (match historic with Some _ => _ | None => _ end). }
  rewrite lookup_empty. unfold contains_key. rewrite bool_decide_eq_true_2 by (by eexists). simpl.
  unfold read_from_disk, mbind, option_bind. rewrite lookup_insert_eq. by rewrite (read_back enc r b Hb).
Qed.
End restart.

(** ** A farthest record left behind *)

Section stale.
Context `{XorNameLib, Hex, Bls, KadLaws, RmpHeader, Aead, HashOrder}.
Implicit Types s : NodeRecordStore.

(** The farthest record left behind by [pruning_indexing_cache] is removed a second time. *)
Lemma prune_stale f d k s :
  store_wf s → store_full s → ns_farthest s = Some (f, d) → ns_records s !! f = None →
  store_distance s k ≤ d →
  (prune_records_if_needed k s).1.1 = Ok tt ∧ ns_records (prune_records_if_needed k s).1.2 = ns_records s.
Proof.
  intros Hwf Hfull Hf Hn Hd. unfold prune_records_if_needed, store_full in *.
  destruct (Z.ltb_spec (Z.of_nat (size (ns_records s))) (max_records (ns_config s))); [lia|].
  rewrite Hf. fold (store_distance s k). destruct (Z.ltb_spec d (store_distance s k)); [lia|].
  pose proof (remove_records f s Hwf) as Hr. destruct (remove f s) as [s' effs]. simpl in *.
  split; [done|]. rewrite Hr. by apply delete_id.
Qed.

(** Dropping the farthest record from the index leaves it cached as the farthest, and the next
    put into the full store then makes no room. A store of exactly [max_records] records whose
    farthest record is dropped as out of sync, refilled by one closer record, accepts another
    closer record without evicting anything and ends up over its capacity by one. *)
Theorem stale_farthest_overflows U f d k1 k2 vt dt s :
  no_collision U → keys_within U s → U k1 → U k2 →
  store_wf s → farthest_exact s → ns_farthest s = Some (f, d) →
  Z.of_nat (size (ns_records s)) = max_records (ns_config s) →
  ns_records s !! k1 = None → ns_records s !! k2 = None → k1 ≠ k2 →
  store_distance s k1 < d → store_distance s k2 < d →
  let s1 := mark_as_stored k1 vt dt (pruning_indexing_cache f s) in
  let '(res, s2, _) := prune_records_if_needed k2 s1 in
  res = Ok tt ∧
  Z.of_nat (size (ns_records (mark_as_stored k2 vt dt s2))) = max_records (ns_config s) + 1.
Proof.
  intros Hnc Hin Hu1 Hu2 Hwf Hex Hf Hsz Hk1 Hk2 Hne Hd1 Hd2 s1.
  unfold farthest_exact in Hex. rewrite Hf in Hex. destruct Hex as (Hfin & -> & Hmax).
  assert (k1 ≠ f ∧ k2 ≠ f) as [Hf1 Hf2] by (split; intros ->; lia).
  set (s0 := pruning_indexing_cache f s) in *.
  assert (store_wf s0) as Hwf0 by (by apply pruning_indexing_cache_wf).
  assert (ns_records s0 = delete f (ns_records s)) as Hr0 by (by apply index_remove_records).
  destruct (index_remove_fields f s) as (Ha0 & Hc0 & _ & Hf0 & _).
  fold (pruning_indexing_cache f s) in Ha0, Hc0, Hf0. fold s0 in Ha0, Hc0, Hf0.
  assert (keys_within U s0) as Hin0.
  { intros k. rewrite Hr0. intros [v [_ Hk]%lookup_delete_Some]. apply Hin. by eexists. }
  destruct (mark_as_stored_fields k1 vt dt s0) as (Ha1 & Hc1 & _ & _ & Hr1 & _). fold s1 in Ha1, Hc1, Hr1.
  assert (store_wf s1) as Hwf1 by (by eapply mark_as_stored_wf).
  assert (ns_farthest s1 = Some (f, store_distance s f)) as Hf1'.
  { unfold s1, mark_as_stored. simpl. rewrite Hf0, Hf, Ha0.
    change (distance (ns_local_address s) (NA_RecordKey k1)) with (store_distance s k1).
    destruct (Z.ltb_spec (store_distance s f) (store_distance s k1)); [lia|]. simpl. by rewrite Hf0, Hf. }
  assert (size (ns_records s1) = size (ns_records s)) as Hsz1.
  { destruct Hfin as [v Hfin].
    assert (size (ns_records s) ≠ 0%nat) by (intros E%map_size_empty_inv; by rewrite E, lookup_empty in Hfin).
    rewrite Hr1, Hr0, map_size_insert_None by (by rewrite lookup_delete_ne).
    rewrite map_size_delete_Some by (by eexists). lia. }
  destruct (prune_stale f (store_distance s f) k2 s1) as [Hres Hr2]; [done| |done| | |].
  - unfold store_full. rewrite Hsz1, Hc1, Hc0. lia.
  - by rewrite Hr1, lookup_insert_ne, Hr0, lookup_delete_eq.
  - unfold store_distance in *. rewrite Ha1, Ha0. lia.
  - destruct (prune_records_if_needed k2 s1) as [[res s2] effs]. simpl in *. split; [done|].
    destruct (mark_as_stored_fields k2 vt dt s2) as (_ & _ & _ & _ & -> & _).
    rewrite map_size_insert_None, Hr2, Hsz1 by (by rewrite Hr2, Hr1, lookup_insert_ne, Hr0, lookup_delete_ne).
    lia.
Qed.
End stale.

(** * Witnesses *)

(** A keyed tag in front of the plaintext. *)
Definition toy_aead : Aead :=
  {| Cipher := bytes; hkdf_sha256 salt seed := salt ++ seed; aead_new okm := okm;
     aead_encrypt c n p := Some (Z.of_nat (length c) :: n ++ p);
     aead_decrypt c n b := match b with
                           | t :: b' => if bool_decide (t = Z.of_nat (length c) ∧ take (length n) b' = n)
                                        then Some (drop (length n) b') else None
                           | [] => None
                           end |}.

Lemma toy_aead_laws : @AeadLaws toy_aead.
Proof.
  split. intros c n p b [= <-]. simpl.
  rewrite bool_decide_eq_true_2; [by rewrite drop_app_length|]. by rewrite take_app_length.
Qed.

Section witnesses.
#[local] Existing Instances toy_kad toy_kad_laws toy_xorname toy_hex toy_hex_laws toy_bls
  toy_rmp_header toy_aead toy_aead_laws hash_order_rev.

(** Keys of one or two bytes. *)
Definition short_key (k : bytes) : Prop := ∃ a b, 0 ≤ a < 256 ∧ 0 ≤ b < 256 ∧ k = [a; b].

Lemma toy_no_collision : no_collision short_key.
Proof.
  intros k k' (a & b & Ha & Hb & ->) (a' & b' & Ha' & Hb' & ->). simpl.
  rewrite !Z.mod_small by lia. intros E. do 2 f_equal; lia.
Qed.

Definition ex_config (n : Z) : NodeRecordStoreConfig :=
  {| max_records := n; max_value_bytes := 100; records_cache_size := 2; encryption_seed := [1; 2; 3] |}.

(** A store at address 0 with the given records marked as stored. *)
Definition ex_store (n : Z) (keys : list bytes) : NodeRecordStore :=
  foldl (λ s k, mark_as_stored k VT_Chunk Chunk_t s) (with_config [] (ex_config n) None 0 []).1 keys.

Lemma ex_store_ok n keys :
  Forall short_key keys →
  store_wf (ex_store n keys) ∧ farthest_exact (ex_store n keys) ∧ keys_within short_key (ex_store n keys) ∧
  ns_config (ex_store n keys) = ex_config n.
Proof.
  intros Hkeys. rewrite Forall_forall in Hkeys. unfold ex_store.
  apply (foldl_invariant (λ s, store_wf s ∧ farthest_exact s ∧ keys_within short_key s ∧ ns_config s = ex_config n)).
  - assert (keys_within short_key (with_config [] (ex_config n) None 0 []).1) as Hin
      by (intros k [v Hv]; discriminate Hv).
    destruct (with_config_wf short_key [] (ex_config n) None 0 [] toy_no_collision Hin). done.
  - intros s k (Hwf & Hex & Hin & Hcfg) Hk.
    destruct (mark_as_stored_fields k VT_Chunk Chunk_t s) as (_ & Hc & _ & _ & Hr & _).
    split_and!; [|by apply mark_as_stored_exact| |by rewrite Hc].
    + eapply mark_as_stored_wf; [apply toy_no_collision|done|by apply Hkeys|done].
    + intros k'. rewrite Hr. intros [v [[<- _]|[_ Hk']]%lookup_insert_Some]; [by apply Hkeys|].
      apply Hin. by eexists.
Qed.

Definition ex_keys : list bytes := [[3; 0]; [9; 0]; [5; 0]].

Lemma ex_keys_short : Forall short_key ex_keys.
Proof. repeat constructor; do 2 eexists; (split; [|split; [|reflexivity]]); lia. Qed.

(** A clock reading per call, far enough apart. *)
Definition ex_clk : nat → Z := λ _, 5.

Definition ex_rec (k : bytes) : KadRecord := mk_record k [145; 2; 7].

Definition ex_ops : list StoreOp :=
  [OpMark [9; 0] VT_Chunk Chunk_t; OpPutVerified 10 (λ _, 1) (ex_rec [4; 0]) VT_Chunk true; OpMark [4; 0] VT_Chunk Chunk_t; OpRemove [9; 0]].

Lemma store_index_invariant_witness :
  ∃ s', run_ops ex_ops (with_config [] (ex_config 3) None 0 []).1 = Some s' ∧ store_wf s' ∧ farthest_exact s'.
Proof.
  edestruct (store_index_invariant short_key [] (ex_config 3) None 0 [] ex_ops) as [Hinv Hret]; [apply toy_no_collision| | |].
  - intros k [v Hv]. discriminate Hv.
  - intros op k Hop Hk. repeat (apply elem_of_cons in Hop as [->|Hop];
      [simpl in Hk; first [discriminate | injection Hk as <-; do 2 eexists; split; [|split; [|reflexivity]]; lia]|]).
    by apply elem_of_nil in Hop.
  - destruct (Hret 0) as [s' Hs']; [vm_compute; lia| |].
    { simpl. split; [vm_compute; lia|]. exists 1. split; [intros j; lia|done]. }
    exists s'. split; [exact Hs'|]. destruct (Hinv s' Hs') as (Hwf & _ & _ & Hex). split; [exact Hwf|]. apply Hex. intros k Hk.
    repeat (apply elem_of_cons in Hk as [Hk|Hk]; [discriminate|]). by apply elem_of_nil in Hk.
Defined.


Lemma sequential_puts_capacity_witness :
  ∃ s', puts_and_marks 10 [(ex_clk, ex_rec [4; 0], VT_Chunk, false); (ex_clk, ex_rec [1; 0], VT_Chunk, false)]
          (ex_store 3 ex_keys) = Some s' ∧
    Z.of_nat (size (ns_records s')) ≤ max_records (ns_config s').
Proof.
  destruct (ex_store_ok 3 ex_keys ex_keys_short) as (Hwf & Hex & Hin & _).
  eexists. split; [vm_compute; reflexivity|].
  eapply (sequential_puts_capacity short_key 10
    [(ex_clk, ex_rec [4; 0], VT_Chunk, false); (ex_clk, ex_rec [1; 0], VT_Chunk, false)] (ex_store 3 ex_keys));
    [apply toy_no_collision| |exact Hwf|exact Hex|exact Hin|vm_compute; reflexivity|vm_compute; discriminate|
     vm_compute; reflexivity].
  intros clk r vt client Hp. repeat (apply elem_of_cons in Hp as [Hp|Hp];
    [injection Hp as -> -> -> ->; do 2 eexists; split; [|split; [|reflexivity]]; lia|]).
  by apply elem_of_nil in Hp.
Defined.

(** Keys [0], [1], ..., in two bytes. *)
Definition ex_many (n : nat) : list bytes := (λ i, [Z.of_nat i mod 256; (Z.of_nat i / 256) mod 256]) <$> seq 0 n.

Lemma ex_many_short n : Forall short_key (ex_many n).
Proof.
  unfold ex_many. apply Forall_fmap, Forall_forall. intros i _. simpl.
  do 2 eexists. split; [|split; [|reflexivity]]; apply Z.mod_pos_bound; lia.
Qed.

(** 1,700 records and a range of 100. *)
Definition ex_big : NodeRecordStore :=
  set_responsible_distance_range 100 (ex_store 2000 (ex_many 1700)).

Lemma ex_big_wf : store_wf ex_big.
Proof.
  destruct (ex_store_ok 2000 (ex_many 1700) (ex_many_short 1700)) as (Hwf & _).
  revert Hwf. unfold ex_big. generalize (ex_store 2000 (ex_many 1700)). intros s Hwf.
  by apply (store_wf_proper s).
Qed.

Lemma ex_store_snoc n keys k :
  ex_store n (keys ++ [k]) = mark_as_stored k VT_Chunk Chunk_t (ex_store n keys).
Proof. unfold ex_store. by rewrite foldl_app. Qed.

Lemma ex_store_records n keys k : is_Some (ns_records (ex_store n keys) !! k) ↔ k ∈ keys.
Proof.
  induction keys as [|k0 keys IH] using rev_ind.
  { split; [by intros [v Hv] | by intros ?%elem_of_nil]. }
  rewrite ex_store_snoc, elem_of_app, list_elem_of_singleton, <- IH.
  destruct (mark_as_stored_fields k0 VT_Chunk Chunk_t (ex_store n keys)) as (_ & _ & _ & _ & -> & _).
  rewrite lookup_insert_is_Some'. naive_solver.
Qed.

Lemma ex_store_size n keys : NoDup keys → size (ns_records (ex_store n keys)) = length keys.
Proof.
  induction keys as [|k0 keys IH] using rev_ind; intros Hnd; [done|].
  apply NoDup_app in Hnd as (Hnd & Hdisj & _).
  rewrite ex_store_snoc, length_app.
  destruct (mark_as_stored_fields k0 VT_Chunk Chunk_t (ex_store n keys)) as (_ & _ & _ & _ & -> & _).
  rewrite map_size_insert_None, IH by (done || (apply eq_None_not_Some; rewrite ex_store_records;
    intros Hk; eapply Hdisj; [exact Hk|by left])). simpl. lia.
Qed.

Lemma set_range_records d (s : NodeRecordStore) : ns_records (set_responsible_distance_range d s) = ns_records s.
Proof. done. Qed.

Lemma ex_big_size : size (ns_records ex_big) = 1700%nat.
Proof.
  unfold ex_big. rewrite set_range_records, ex_store_size; [unfold ex_many; by rewrite length_fmap, length_seq|].
  apply NoDup_fmap_2_strong; [|apply NoDup_seq].
  intros i j Hi%elem_of_seq Hj%elem_of_seq [= Hm Hd].
  rewrite !(Z.mod_small (_ / 256)) in Hd by (split; [apply Z.div_pos; lia|apply Z.div_lt_upper_bound; lia]).
  pose proof (Z.div_mod (Z.of_nat i) 256). pose proof (Z.div_mod (Z.of_nat j) 256). lia.
Qed.

(** At least 1,530 of 1,700 records stay. *)
Lemma cleanup_conservative_witness :
  1530 ≤ Z.of_nat (size (ns_records (cleanup_irrelevant_records ex_big).1)).
Proof.
  destruct (cleanup_conservative ex_big ex_big_wf) as (_ & _ & Hle).
  rewrite ex_big_size in Hle. exact Hle.
Defined.

Lemma quoting_metrics_counts_witness :
  let s := set_responsible_distance_range 6 (ex_store 3 ex_keys) in
  qm_close_records_stored (quoting_metrics 0 [5; 0] 0 10 None s).1 = 2 ∧
  Z.of_nat (size (filter (λ e, store_distance s e.1 < 6) (ns_records s))) = 2.
Proof.
  intros s. destruct (ex_store_ok 3 ex_keys ex_keys_short) as (Hwf & _).
  split; [vm_compute; reflexivity|].
  destruct (quoting_metrics_counts 0 [5; 0] 0 10 None s) as [Hq _];
    [by apply (store_wf_proper (ex_store 3 ex_keys))|].
  etrans; [symmetry; exact Hq|]. vm_compute. reflexivity.
Defined.

Definition ex_disk : gmap bytes bytes :=
  (run_write (derive_aes256gcm_siv_from_seed [1; 2; 3]) (generate_filename [4; 0]) (ex_rec [4; 0]) VT_Chunk
     Written ∅).1.

Lemma restart_restores_witness :
  get ex_disk [4; 0] (with_config [] (ex_config 3) None 0 (dir_entries ex_disk)).1 = (Some (ex_rec [4; 0]), []).
Proof.
  refine (proj2 (restart_restores (ex_rec [4; 0]) VT_Chunk Pointer_t ∅ ex_disk
    (AddLocalRecordAsStored [4; 0] VT_Chunk Pointer_t) (dir_entries ex_disk) [] (ex_config 3) None 0
    _ _ _ _)); [vm_compute; reflexivity..|reflexivity|].
  intros n [c Hn] _.
  assert (ex_disk = <[ [4; 4; 0; 0] := [24; 1; 2; 3; 0; 4; 0; 0; 0; 0; 0; 0; 0; 145; 2; 7] ]> ∅) as E
    by (vm_compute; reflexivity).
  rewrite E in Hn. apply lookup_insert_Some in Hn as [[<- _]|[_ Hn]]; [reflexivity|].
  by rewrite lookup_empty in Hn.
Defined.

Lemma stale_farthest_overflows_witness :
  let s1 := mark_as_stored [4; 0] VT_Chunk Chunk_t (pruning_indexing_cache [9; 0] (ex_store 3 ex_keys)) in
  let '(res, s2, _) := prune_records_if_needed [1; 0] s1 in
  res = Ok tt ∧ Z.of_nat (size (ns_records (mark_as_stored [1; 0] VT_Chunk Chunk_t s2))) = 4.
Proof.
  destruct (ex_store_ok 3 ex_keys ex_keys_short) as (Hwf & Hex & Hin & _).
  refine (stale_farthest_overflows short_key [9; 0] 9 [4; 0] [1; 0] VT_Chunk Chunk_t (ex_store 3 ex_keys)
    toy_no_collision Hin _ _ Hwf Hex _ _ _ _ _ _ _); try (vm_compute; reflexivity);
    try (do 2 eexists; split; [|split; [|reflexivity]]; lia); discriminate.
Defined.
End witnesses.
