(* ===== verification/ReplicationFetcher.v ===== *)
(** * The replication fetcher

    Models src/ant-node/src/networking/replication_fetcher.rs: which of the records other nodes
    advertise are fetched, from whom and in which order. The state is [ReplicationFetcher]; an
    operation maps it to the new state, the keys to fetch and the events sent.

    Clock: every place that reads [Instant::now()] has its own reading, a field of [Readings] or an
    index of a clock; the readings of one such place during one loop over a map are taken equal. *)

From stdpp Require Import base gmap strings countable list.
From Stdlib Require Import ZArith Lia.
From S2P Require Import Prelude Protocol RecordCache.

Definition MAX_PARALLEL_FETCH : nat := 5.
Definition FETCH_TIMEOUT : Z := from_secs 20.
Definition PENDING_TIMEOUT : Z := from_secs 900.

(** The event the fetcher sends: [NetworkEvent::FailedToFetchHolders]. *)
Inductive FetcherEvent := FailedToFetchHolders (holders : gmap bytes bytes).

(** The clock readings of one call. *)
Record Readings := {
  at_accumulate : Z;     (* initial_majority_replicates: first seen *)
  at_expire_pending : Z; (* add_keys: outdated entries *)
  at_enqueue : Z;        (* add_keys: new entries *)
  at_expire_fetch : Z;   (* prune_expired_keys_and_slow_nodes: fetches *)
  at_expire_initial : Z; (* prune_expired_keys_and_slow_nodes: accumulator *)
  at_fetch : Z;          (* next_keys_to_fetch: new fetches *)
}.

Section fetcher.
Context `{XorNameLib, Bls, Kad, HashOrder}.

Record ReplicationFetcher := {
  rf_self_peer_id : bytes;
  rf_to_be_fetched : gmap (bytes * ValidationType * bytes) Z;
  rf_on_going_fetches : gmap (bytes * ValidationType) (bytes * Z);
  rf_distance_range : option Z;
  rf_farthest_acceptable_distance : option Z;
  rf_peers_scores : gmap bytes (list bool * Z);
  rf_initial_replicates : gmap (NetworkAddress * ValidationType) (gset bytes * Z);
}.

Implicit Types f : ReplicationFetcher.

Definition fetcher_new (self_peer_id : bytes) : ReplicationFetcher :=
  {| rf_self_peer_id := self_peer_id; rf_to_be_fetched := ∅; rf_on_going_fetches := ∅;
     rf_distance_range := None; rf_farthest_acceptable_distance := None; rf_peers_scores := ∅;
     rf_initial_replicates := ∅ |}.

(** Replaces the pending and the running fetches. *)
Definition rf_with_fetches f (pending : gmap (bytes * ValidationType * bytes) Z)
    (on_going : gmap (bytes * ValidationType) (bytes * Z)) : ReplicationFetcher :=
  {| rf_self_peer_id := rf_self_peer_id f; rf_to_be_fetched := pending; rf_on_going_fetches := on_going;
     rf_distance_range := rf_distance_range f;
     rf_farthest_acceptable_distance := rf_farthest_acceptable_distance f;
     rf_peers_scores := rf_peers_scores f; rf_initial_replicates := rf_initial_replicates f |}.

(** Replaces the accumulator. *)
Definition rf_with_initial f (m : gmap (NetworkAddress * ValidationType) (gset bytes * Z))
    : ReplicationFetcher :=
  {| rf_self_peer_id := rf_self_peer_id f; rf_to_be_fetched := rf_to_be_fetched f;
     rf_on_going_fetches := rf_on_going_fetches f; rf_distance_range := rf_distance_range f;
     rf_farthest_acceptable_distance := rf_farthest_acceptable_distance f;
     rf_peers_scores := rf_peers_scores f; rf_initial_replicates := m |}.

Definition set_replication_distance_range (d : Z) f : ReplicationFetcher :=
  {| rf_self_peer_id := rf_self_peer_id f; rf_to_be_fetched := rf_to_be_fetched f;
     rf_on_going_fetches := rf_on_going_fetches f; rf_distance_range := Some d;
     rf_farthest_acceptable_distance := rf_farthest_acceptable_distance f;
     rf_peers_scores := rf_peers_scores f; rf_initial_replicates := rf_initial_replicates f |}.

Definition rf_self_address f : NetworkAddress := NA_PeerId (rf_self_peer_id f).

(** ** Choosing what to fetch next *)

(** [prune_expired_keys_and_slow_nodes]: expired fetches go, with everything pending from their
    holders; accumulator entries expire after the pending timeout. *)
Definition prune_expired_keys_and_slow_nodes (r : Readings) f : ReplicationFetcher * list FetcherEvent :=
  let expired (e : bytes * Z) := e.2 <? at_expire_fetch r in
  let failed_fetches := filter (λ e, expired e.2 = true) (hm_iter (rf_on_going_fetches f)) in
  let on_going := retain (λ _ e, negb (expired e)) (rf_on_going_fetches f) in
  let failed_holders : gmap bytes bytes :=
    foldl (λ m e, <[e.2.1 := e.1.1]> m) ∅ failed_fetches in
  let pending := retain (λ k _, negb (contains_key k.2 failed_holders)) (rf_to_be_fetched f) in
  let events := if bool_decide (failed_holders = ∅) then [] else [FailedToFetchHolders failed_holders] in
  let initial :=
    retain (λ _ v, negb (PENDING_TIMEOUT <=? Z.max 0 (at_expire_initial r - v.2)))
      (rf_initial_replicates f) in
  (rf_with_initial (rf_with_fetches f pending on_going) initial, events).

(** The loop over the pending entries: starts a fetch per record and version not yet being fetched,
    until no slot is free. *)
Fixpoint fetch_loop (deadline : Z) (l : list (bytes * ValidationType * bytes))
    (on_going : gmap (bytes * ValidationType) (bytes * Z))
    : list (bytes * ValidationType * bytes) * gmap (bytes * ValidationType) (bytes * Z) :=
  match l with
  | [] => ([], on_going)
  | (key, t, holder) :: l' =>
    let start := (size on_going <? MAX_PARALLEL_FETCH)%nat && negb (contains_key (key, t) on_going) in
    let on_going := if start then <[(key, t) := (holder, deadline)]> on_going else on_going in
    let started := if start then [(key, t, holder)] else [] in
    if (MAX_PARALLEL_FETCH <=? size on_going)%nat then (started, on_going)
    else let '(rest, on_going) := fetch_loop deadline l' on_going in (started ++ rest, on_going)
  end.

Definition next_keys_to_fetch (r : Readings) f
    : list (bytes * bytes) * ReplicationFetcher * list FetcherEvent :=
  let '(f, events) := prune_expired_keys_and_slow_nodes r f in
  if (MAX_PARALLEL_FETCH <=? size (rf_on_going_fetches f))%nat then ([], f, events)
  else if bool_decide (rf_to_be_fetched f = ∅) then ([], f, events)
  else
    let to_be_fetched_sorted :=
      sort_by_key (λ e, distance (rf_self_address f) (NA_RecordKey e.1.1)) (hm_iter (rf_to_be_fetched f)).*1 in
    let '(data_to_fetch, on_going) :=
      fetch_loop (at_fetch r + FETCH_TIMEOUT) to_be_fetched_sorted (rf_on_going_fetches f) in
    let pending := foldl (λ m e, delete e m) (rf_to_be_fetched f) data_to_fetch in
    ((λ e, (e.2, e.1.1)) <$> data_to_fetch, rf_with_fetches f pending on_going, events).

(** ** Whom to believe *)

Definition is_peer_trustworthy (holder : bytes) f : option bool :=
  match rf_peers_scores f !! holder with
  | Some (scores, _) =>
    if (1 <? length scores)%nat
    then Some (1 <? length (filter (λ is_healthy, is_healthy = true) scores))%nat
    else None
  | None => None
  end.

(** One score: the window keeps the last two. *)
Definition add_score (scores : list bool) (is_healthy : bool) : list bool :=
  let scores := scores ++ [is_healthy] in
  if (2 <? length scores)%nat then drop 1 scores else scores.

Fixpoint add_scores (clk : nat → Z) (i : nat) (scores : list (bytes * bool))
    (m : gmap bytes (list bool * Z)) : gmap bytes (list bool * Z) * nat :=
  match scores with
  | [] => (m, i)
  | (peer_id, is_healthy) :: scores' =>
    let old := default [] (fst <$> m !! peer_id) in
    add_scores clk (S i) scores' (<[peer_id := (add_score old is_healthy, clk i)]> m)
  end.

(** The least recently seen peer before a time; [random_peer] stands for [PeerId::random()]. *)
Definition oldest_peer (now : Z) (random_peer : bytes) (m : gmap bytes (list bool * Z)) : bytes :=
  (foldl (λ acc e, if e.2.2 <? acc.1 then (e.2.2, e.1) else acc) (now, random_peer) (hm_iter m)).2.

(** [add_peer_scores]; the clock is read once per score and once for the pruning. *)
Definition add_peer_scores (clk : nat → Z) (random_peer : bytes) (scores : list (bytes * bool)) f
    : ReplicationFetcher :=
  let '(m, i) := add_scores clk 0 scores (rf_peers_scores f) in
  let m := if (20 <? size m)%nat then delete (oldest_peer (clk i) random_peer m) m else m in
  {| rf_self_peer_id := rf_self_peer_id f; rf_to_be_fetched := rf_to_be_fetched f;
     rf_on_going_fetches := rf_on_going_fetches f; rf_distance_range := rf_distance_range f;
     rf_farthest_acceptable_distance := rf_farthest_acceptable_distance f;
     rf_peers_scores := m; rf_initial_replicates := rf_initial_replicates f |}.

(** The accumulator with a report added, and whether it reaches the majority. *)
Definition accumulate_one (now : Z) (holder : bytes) (addr_val_type : NetworkAddress * ValidationType)
    (m : gmap (NetworkAddress * ValidationType) (gset bytes * Z))
    : gmap (NetworkAddress * ValidationType) (gset bytes * Z) * bool :=
  let '(peers, first_seen) := default (∅, now) (m !! addr_val_type) in
  let peers := peers ∪ {[ holder ]} in
  (<[addr_val_type := (peers, first_seen)]> m, (CLOSE_GROUP_SIZE / 2 <=? size peers)%nat).

Fixpoint accumulate (now : Z) (holder : bytes) (keys : list (NetworkAddress * ValidationType))
    (m : gmap (NetworkAddress * ValidationType) (gset bytes * Z))
    : gmap (NetworkAddress * ValidationType) (gset bytes * Z) * list (NetworkAddress * ValidationType) :=
  match keys with
  | [] => (m, [])
  | k :: keys' =>
    let '(m, majority) := accumulate_one now holder k m in
    let '(m, rest) := accumulate now holder keys' m in
    (m, if majority then k :: rest else rest)
  end.

(** The reports of the keys that reached the majority, which leave the accumulator. *)
Fixpoint take_majorities (majorities : list (NetworkAddress * ValidationType))
    (m : gmap (NetworkAddress * ValidationType) (gset bytes * Z))
    : gmap (NetworkAddress * ValidationType) (gset bytes * Z) * list (bytes * NetworkAddress * ValidationType) :=
  match majorities with
  | [] => (m, [])
  | k :: majorities' =>
    match m !! k with
    | Some (peers, _) =>
      let '(m', rest) := take_majorities majorities' (delete k m) in
      (m', ((λ peer, (peer, k.1, k.2)) <$> hs_iter peers) ++ rest)
    | None => take_majorities majorities' m
    end
  end.

Definition initial_majority_replicates (now : Z) (holder : bytes)
    (incoming_keys : list (NetworkAddress * ValidationType)) f
    : list (bytes * NetworkAddress * ValidationType) * ReplicationFetcher :=
  let '(m, majorities) := accumulate now holder incoming_keys (rf_initial_replicates f) in
  let '(m, result) := take_majorities majorities m in
  (result, rf_with_initial f m).

Definition in_range_new_keys (holder : bytes) (incoming_keys : list (NetworkAddress * ValidationType))
    (locally_stored_keys : gmap bytes (NetworkAddress * ValidationType * DataTypes))
    (closest_peers : list NetworkAddress) f : list (NetworkAddress * ValidationType) :=
  let self_address := rf_self_address f in
  let closest_peers := closest_peers ++ [self_address] in
  let new_incoming_keys :=
    filter (λ k, negb (contains_key (to_record_key k.1) locally_stored_keys) &&
                 negb (contains_key (to_record_key k.1, k.2, holder) (rf_to_be_fetched f)) = true)
      incoming_keys in
  let closest_peers := sort_by_key (distance self_address) closest_peers in
  match distance self_address <$> last closest_peers with
  | Some max_distance => filter (λ k, (distance self_address k.1 <=? max_distance) = true) new_incoming_keys
  | None => new_incoming_keys
  end.

(** Appends the candidates whose record and version are not among those already chosen. *)
Definition push_absent (result : list (bytes * NetworkAddress * ValidationType))
    (c : bytes * NetworkAddress * ValidationType) : list (bytes * NetworkAddress * ValidationType) :=
  if existsb (λ e, bool_decide (e.1.2 = c.1.2) && bool_decide (e.2 = c.2)) result
  then result else result ++ [c].

Definition valid_candidates (now : Z) (holder : bytes) (incoming_keys : list (NetworkAddress * ValidationType))
    (locally_stored_keys : gmap bytes (NetworkAddress * ValidationType * DataTypes))
    (closest_peers : list NetworkAddress) f
    : list (bytes * NetworkAddress * ValidationType) * ReplicationFetcher :=
  let new_incoming_keys := in_range_new_keys holder incoming_keys locally_stored_keys closest_peers f in
  match is_peer_trustworthy holder f with
  | Some true =>
    let result := (λ k, (holder, k.1, k.2)) <$> new_incoming_keys in
    let '(majority_results, f) := initial_majority_replicates now holder new_incoming_keys f in
    (foldl push_absent result majority_results, f)
  | Some false => ([], f)
  | None => initial_majority_replicates now holder new_incoming_keys f
  end.

(** ** Updates *)

(** Entries of records stored in that version are not needed any more. *)
Definition remove_stored_keys (existing_keys : gmap bytes (NetworkAddress * ValidationType * DataTypes)) f
    : ReplicationFetcher :=
  let needed (key : bytes) (t : ValidationType) :=
    match existing_keys !! key with
    | Some (_, record_type, _) => bool_decide (t ≠ record_type)
    | None => true
    end in
  rf_with_fetches f (retain (λ k _, needed k.1.1 k.1.2) (rf_to_be_fetched f))
    (retain (λ k _, needed k.1 k.2) (rf_on_going_fetches f)).

(** One candidate of [add_keys]: a fresh one starts at once, any other one is queued. *)
Definition add_candidate (now : Z) (holder : bytes) (is_fresh_replicate : bool)
    (acc : list (bytes * bytes) * ReplicationFetcher) (c : bytes * NetworkAddress * ValidationType)
    : list (bytes * bytes) * ReplicationFetcher :=
  let '(keys_to_fetch, f) := acc in
  let '(peer_id, addr, record_type) := c in
  let key := to_record_key addr in
  if is_fresh_replicate then
    match rf_on_going_fetches f !! (key, record_type) with
    | Some _ => (keys_to_fetch, f)
    | None =>
      (keys_to_fetch ++ [(holder, key)],
       rf_with_fetches f (rf_to_be_fetched f)
         (<[(key, record_type) := (holder, now + FETCH_TIMEOUT)]> (rf_on_going_fetches f)))
    end
  else
    match rf_to_be_fetched f !! (key, record_type, peer_id) with
    | Some _ => (keys_to_fetch, f)
    | None =>
      (keys_to_fetch,
       rf_with_fetches f (<[(key, record_type, peer_id) := now + PENDING_TIMEOUT]> (rf_to_be_fetched f))
         (rf_on_going_fetches f))
    end.

Definition add_keys (r : Readings) (holder : bytes) (incoming_keys : list (NetworkAddress * ValidationType))
    (locally_stored_keys : gmap bytes (NetworkAddress * ValidationType * DataTypes))
    (is_fresh_replicate : bool) (closest_k_peers : list NetworkAddress) f
    : list (bytes * bytes) * ReplicationFetcher * list FetcherEvent :=
  let '(candidates, f) :=
    if is_fresh_replicate then ((λ k, (holder, k.1, k.2)) <$> incoming_keys, f)
    else valid_candidates (at_accumulate r) holder incoming_keys locally_stored_keys closest_k_peers f in
  let f := remove_stored_keys locally_stored_keys f in
  let f := rf_with_fetches f (retain (λ _ time_out, at_expire_pending r <? time_out) (rf_to_be_fetched f))
             (rf_on_going_fetches f) in
  let '(keys_to_fetch, f) := foldl (add_candidate (at_enqueue r) holder is_fresh_replicate) ([], f) candidates in
  let '(next, f, events) := next_keys_to_fetch r f in
  (keys_to_fetch ++ next, f, events).

(** [set_farthest_on_full]: the limit only shrinks, and drops what is farther. *)
Definition set_farthest_on_full (farthest_in : option bytes) f : ReplicationFetcher :=
  match farthest_in with
  | None => f
  | Some farthest_in =>
    let d key := distance (rf_self_address f) (NA_RecordKey key) in
    let new_farthest_distance := d farthest_in in
    let keep := match rf_farthest_acceptable_distance f with
                | Some old_farthest_distance => old_farthest_distance <=? new_farthest_distance
                | None => false
                end in
    if keep then f else
    {| rf_self_peer_id := rf_self_peer_id f;
       rf_to_be_fetched := retain (λ k _, d k.1.1 <=? new_farthest_distance) (rf_to_be_fetched f);
       rf_on_going_fetches := retain (λ k _, d k.1 <=? new_farthest_distance) (rf_on_going_fetches f);
       rf_distance_range := rf_distance_range f;
       rf_farthest_acceptable_distance := Some new_farthest_distance;
       rf_peers_scores := rf_peers_scores f; rf_initial_replicates := rf_initial_replicates f |}
  end.

Definition notify_about_new_put (r : Readings) (new_put : bytes) (record_type : ValidationType) f
    : list (bytes * bytes) * ReplicationFetcher * list FetcherEvent :=
  next_keys_to_fetch r
    (rf_with_fetches f
       (retain (λ k _, bool_decide (k.1.1 ≠ new_put) || bool_decide (k.1.2 ≠ record_type)) (rf_to_be_fetched f))
       (retain (λ k _, bool_decide (k.1 ≠ new_put)) (rf_on_going_fetches f))).

Definition notify_fetch_early_completed (r : Readings) (key_in : bytes) (record_type : ValidationType) f
    : list (bytes * bytes) * ReplicationFetcher * list FetcherEvent :=
  next_keys_to_fetch r
    (rf_with_fetches f
       (retain (λ k _, if bool_decide (k.1.2 = record_type) then bool_decide (k.1.1 ≠ key_in) else true)
          (rf_to_be_fetched f))
       (retain (λ k _, if bool_decide (k.2 = record_type) then bool_decide (k.1 ≠ key_in) else true)
          (rf_on_going_fetches f))).
End fetcher.

#[global] Arguments next_keys_to_fetch : simpl never.
#[global] Arguments prune_expired_keys_and_slow_nodes : simpl never.
