(* ===== verification/FetcherProps.v ===== *)
(** * Properties of the replication fetcher

    Of the model in ReplicationFetcher: fetches are bounded, unique and closest first; what is
    queued comes from a trusted peer or from two peers that agree; the distance limit of a full
    node; the window of peer scores. *)

From stdpp Require Import base gmap strings countable list.
From Stdlib Require Import ZArith Lia Sorting.
From S2P Require Import Prelude Protocol RecordCache ReplicationFetcher.

#[local] Opaque MAX_PARALLEL_FETCH.

Section loop.
Context `{XorNameLib, Bls, Kad, HashOrder}.
Implicit Types f : ReplicationFetcher.

Definition entry_distance f (e : bytes * ValidationType * bytes) : Z :=
  distance (rf_self_address f) (NA_RecordKey e.1.1).

(** ** The loop that starts fetches *)

Lemma fetch_loop_cons deadline k t h l og :
  fetch_loop deadline ((k, t, h) :: l) og =
  if (size og <? MAX_PARALLEL_FETCH)%nat && negb (contains_key (k, t) og) then
    let og1 := <[(k, t) := (h, deadline)]> og in
    if (MAX_PARALLEL_FETCH <=? size og1)%nat then ([(k, t, h)], og1)
    else let '(rest, og2) := fetch_loop deadline l og1 in ((k, t, h) :: rest, og2)
  else if (MAX_PARALLEL_FETCH <=? size og)%nat then ([], og) else fetch_loop deadline l og.
Proof.
  cbn [fetch_loop]. destruct (_ && _); [done|]. destruct (MAX_PARALLEL_FETCH <=? size og)%nat; [done|].
  by destruct (fetch_loop deadline l og).
Qed.

Lemma fetch_loop_grow deadline l og out og' :
  (size og < MAX_PARALLEL_FETCH)%nat → fetch_loop deadline l og = (out, og') →
  size og' = (size og + length out)%nat ∧ (size og' ≤ MAX_PARALLEL_FETCH)%nat ∧ og ⊆ og'.
Proof.
  revert og out og'. induction l as [|[[k t] h] l IH]; intros og out og' Hsz; [simpl|rewrite fetch_loop_cons].
  { intros [= <- <-]. simpl. split; [lia|]. split; [lia|done]. }
  destruct (Nat.ltb_spec (size og) MAX_PARALLEL_FETCH); [simpl|lia].
  destruct (contains_key (k, t) og) eqn:Hc; simpl; bool_to_prop.
  - destruct (Nat.leb_spec MAX_PARALLEL_FETCH (size og)); [lia|]. by apply IH.
  - assert (size (<[(k, t) := (h, deadline)]> og) = S (size og)) as Hs by (by apply map_size_insert_None).
    assert (og ⊆ <[(k, t) := (h, deadline)]> og) as Hsub by (by apply insert_subseteq).
    destruct (Nat.leb_spec MAX_PARALLEL_FETCH (size (<[(k, t) := (h, deadline)]> og))).
    + intros [= <- <-]. simpl. split; [lia|]. split; [lia|done].
    + destruct (fetch_loop deadline l _) as [rest og1] eqn:E. intros [= <- <-].
      apply IH in E as (? & ? & ?); [|lia]. simpl. split; [lia|]. split; [lia|]. by etrans.
Qed.

Lemma fetch_loop_started deadline l og out og' k t h :
  fetch_loop deadline l og = (out, og') → (k, t, h) ∈ out →
  (k, t, h) ∈ l ∧ og !! (k, t) = None ∧ og' !! (k, t) = Some (h, deadline).
Proof.
  revert og out og'. induction l as [|[[k0 t0] h0] l IH]; intros og out og'; [simpl|rewrite fetch_loop_cons].
  { by intros [= <- <-] ?%elem_of_nil. }
  destruct ((size og <? MAX_PARALLEL_FETCH)%nat) eqn:Hs; simpl; bool_to_prop.
  2:{ destruct (MAX_PARALLEL_FETCH <=? size og)%nat; [by intros [= <- <-] ?%elem_of_nil|].
      intros E Hin. apply IH in E as (? & ? & ?); [|done]. split; [by right|done]. }
  destruct (contains_key (k0, t0) og) eqn:Hc; simpl; bool_to_prop.
  - destruct (MAX_PARALLEL_FETCH <=? size og)%nat; [by intros [= <- <-] ?%elem_of_nil|].
    intros E Hin. apply IH in E as (? & ? & ?); [|done]. split; [by right|done].
  - destruct (Nat.leb_spec MAX_PARALLEL_FETCH (size (<[(k0, t0) := (h0, deadline)]> og))) as [|Hlt].
    + intros [= <- <-] [= -> -> ->]%list_elem_of_singleton. rewrite lookup_insert_eq.
      split; [by left|done].
    + destruct (fetch_loop deadline l _) as [rest og1] eqn:E. intros [= <- <-].
      intros [[= -> -> ->]|Hin]%elem_of_cons.
      * split; [by left|]. split; [done|]. eapply lookup_weaken; [apply lookup_insert_eq|].
        by eapply fetch_loop_grow.
      * apply IH in E as (? & [? ?]%lookup_insert_None & ?); [|done]. split; [by right|done].
Qed.

Lemma fetch_loop_running deadline l og out og' kt v :
  fetch_loop deadline l og = (out, og') → og' !! kt = Some v →
  og !! kt = Some v ∨ ∃ h, (kt, h) ∈ out.
Proof.
  revert og out og'. induction l as [|[[k0 t0] h0] l IH]; intros og out og'; [simpl|rewrite fetch_loop_cons].
  { intros [= <- <-] ?. by left. }
  destruct (_ && _); simpl.
  - destruct (MAX_PARALLEL_FETCH <=? size (<[(k0, t0) := (h0, deadline)]> og))%nat.
    + intros [= <- <-] [[<- _]|[_ ?]]%lookup_insert_Some; [right|by left].
      exists h0. by left.
    + destruct (fetch_loop deadline l _) as [rest og1] eqn:E. intros [= <- <-] Hv.
      apply (IH _ _ _ E) in Hv as [[[<- _]|[_ ?]]%lookup_insert_Some|[h Hin]].
      * right. exists h0. by left.
      * by left.
      * right. exists h. by right.
  - destruct (MAX_PARALLEL_FETCH <=? size og)%nat; [intros [= <- <-] ?; by left|].
    by apply IH.
Qed.

(** What is left out is farther than what was started, and only for want of a slot. *)
Lemma fetch_loop_left_out (d : bytes * ValidationType * bytes → Z) deadline l og out og' k t h :
  StronglySorted (key_le d) l → (size og < MAX_PARALLEL_FETCH)%nat →
  fetch_loop deadline l og = (out, og') → (k, t, h) ∈ l → og' !! (k, t) = None →
  size og' = MAX_PARALLEL_FETCH ∧ ∀ o, o ∈ out → d o ≤ d (k, t, h).
Proof.
  intros Hsort. revert og out og'. induction Hsort as [|[[k0 t0] h0] l Hsort IH Hhd];
    intros og out og' Hsz; [simpl|rewrite fetch_loop_cons].
  { by intros _ ?%elem_of_nil. }
  rewrite Forall_forall in Hhd.
  destruct (Nat.ltb_spec (size og) MAX_PARALLEL_FETCH); [simpl|lia].
  destruct (contains_key (k0, t0) og) eqn:Hc; simpl; bool_to_prop.
  - destruct (Nat.leb_spec MAX_PARALLEL_FETCH (size og)); [lia|]. intros E.
    intros [[= -> -> ->]|Hin]%elem_of_cons Hn; [|by eapply IH].
    apply fetch_loop_grow in E as (_ & _ & Hsub); [|done].
    destruct Hc as [v Hv]. by rewrite (lookup_weaken _ _ _ _ Hv Hsub) in Hn.
  - assert (size (<[(k0, t0) := (h0, deadline)]> og) = S (size og)) as Hs by (by apply map_size_insert_None).
    destruct (Nat.leb_spec MAX_PARALLEL_FETCH (size (<[(k0, t0) := (h0, deadline)]> og))) as [|Hlt].
    + intros [= <- <-] [[= -> -> ->]|Hin]%elem_of_cons Hn; [by rewrite lookup_insert_eq in Hn|].
      split; [lia|]. intros o ->%list_elem_of_singleton. by apply Hhd.
    + destruct (fetch_loop deadline l _) as [rest og1] eqn:E. intros [= <- <-].
      intros [[= -> -> ->]|Hin]%elem_of_cons Hn.
      * assert (Some (h0, deadline) = None) as Hx; [|discriminate Hx]. rewrite <- Hn. symmetry.
        eapply lookup_weaken; [apply lookup_insert_eq|]. eapply fetch_loop_grow; [|exact E]. lia.
      * destruct (IH _ _ _ Hlt E Hin Hn) as [Hfull Hle]. split; [done|].
        intros o [->|Ho]%elem_of_cons; [by apply Hhd|by apply Hle].
Qed.

(** ** [next_keys_to_fetch] *)

Lemma foldl_delete_lookup {V} (m : gmap (bytes * ValidationType * bytes) V) l e :
  foldl (λ m e, delete e m) m l !! e = if bool_decide (e ∈ l) then None else m !! e.
Proof.
  induction l as [|x l IH] using rev_ind; [done|]. rewrite foldl_app. simpl.
  rewrite lookup_delete, IH. repeat case_bool_decide; case_decide; set_solver.
Qed.

Lemma pruned_holder r f kt h d k t :
  rf_on_going_fetches f !! kt = Some (h, d) → d < at_expire_fetch r →
  rf_to_be_fetched (prune_expired_keys_and_slow_nodes r f).1 !! (k, t, h) = None.
Proof.
  intros Hk Hd. unfold prune_expired_keys_and_slow_nodes. simpl.
  apply eq_None_not_Some. intros [v [_ Hn]%retain_lookup_Some]. simpl in Hn. bool_to_prop.
  revert Hn. apply not_eq_None_Some.
  assert ((kt, (h, d)) ∈ filter (λ e, (e.2.2 <? at_expire_fetch r) = true) (hm_iter (rf_on_going_fetches f))) as Hin.
  { apply list_elem_of_filter. split; [by apply Z.ltb_lt|]. by apply hm_iter_elem_of. }
  revert Hin. generalize (filter (λ e, (e.2.2 <? at_expire_fetch r) = true) (hm_iter (rf_on_going_fetches f))).
  intros l Hin. induction l as [|e l IH] using rev_ind; [by apply elem_of_nil in Hin|].
  rewrite foldl_app. simpl. rewrite lookup_insert_is_Some'.
  apply elem_of_app in Hin as [Hin|<-%list_elem_of_singleton]; [right; by apply IH|by left].
Qed.

Lemma prune_expired_fields r f :
  let f' := (prune_expired_keys_and_slow_nodes r f).1 in
  rf_self_peer_id f' = rf_self_peer_id f ∧ rf_peers_scores f' = rf_peers_scores f ∧
  rf_farthest_acceptable_distance f' = rf_farthest_acceptable_distance f ∧
  rf_to_be_fetched f' ⊆ rf_to_be_fetched f ∧ rf_initial_replicates f' ⊆ rf_initial_replicates f ∧
  rf_on_going_fetches f' = retain (λ _ e, negb (e.2 <? at_expire_fetch r)) (rf_on_going_fetches f).
Proof. simpl. split_and!; [done..| | |done]; apply retain_subseteq. Qed.

(** The queue after choosing: what was pending, less what was started. *)
Lemma next_keys_cases r f :
  let f1 := (prune_expired_keys_and_slow_nodes r f).1 in
  let '(out, f', _) := next_keys_to_fetch r f in
  (out = [] ∧ f' = f1 ∧ ((MAX_PARALLEL_FETCH ≤ size (rf_on_going_fetches f1))%nat ∨ rf_to_be_fetched f1 = ∅)) ∨
  ∃ l started og',
    (size (rf_on_going_fetches f1) < MAX_PARALLEL_FETCH)%nat ∧
    (∀ e, e ∈ l ↔ is_Some (rf_to_be_fetched f1 !! e)) ∧ StronglySorted (key_le (entry_distance f1)) l ∧
    fetch_loop (at_fetch r + FETCH_TIMEOUT) l (rf_on_going_fetches f1) = (started, og') ∧
    out = (λ e, (e.2, e.1.1)) <$> started ∧
    f' = rf_with_fetches f1 (foldl (λ m e, delete e m) (rf_to_be_fetched f1) started) og'.
Proof.
  unfold next_keys_to_fetch. destruct (prune_expired_keys_and_slow_nodes r f) as [f1 ev]. simpl.
  destruct (Nat.leb_spec MAX_PARALLEL_FETCH (size (rf_on_going_fetches f1))); [left; eauto|].
  case_bool_decide; [left; eauto|].
  destruct (fetch_loop _ _ _) as [started og'] eqn:E. right.
  eexists _, started, og'. split; [done|]. split; [|split; [apply sort_by_key_sorted|split; [exact E|done]]].
  intros e. rewrite sort_by_key_elem_of, list_elem_of_fmap. split.
  - intros ([e' v] & -> & Hin%hm_iter_elem_of). by eexists.
  - intros [v Hv]. exists (e, v). split; [done|]. by apply hm_iter_elem_of.
Qed.

(** Choosing the next fetches is safe, bounded, and closest first. Fetches that have not timed
    out go on; the pending entries of a holder that timed out are dropped. Each chosen record was
    pending from that holder, was not being fetched in that version, is being fetched now, and has
    left the queue. When anything is chosen, at most [MAX_PARALLEL_FETCH] fetches run, one more per
    chosen record. An entry stays queued without being fetched only when no slot is free, and then
    nothing chosen is farther than it. *)
Theorem next_keys_to_fetch_ok r f :
  let '(out, f', _) := next_keys_to_fetch r f in
  (∀ kt h d, rf_on_going_fetches f !! kt = Some (h, d) → at_expire_fetch r ≤ d →
    rf_on_going_fetches f' !! kt = Some (h, d)) ∧
  (∀ kt h d k t, rf_on_going_fetches f !! kt = Some (h, d) → d < at_expire_fetch r →
    rf_to_be_fetched f' !! (k, t, h) = None) ∧
  (∀ h k, (h, k) ∈ out → ∃ t,
    is_Some (rf_to_be_fetched f !! (k, t, h)) ∧ rf_to_be_fetched f' !! (k, t, h) = None ∧
    (∀ h' d, rf_on_going_fetches f !! (k, t) = Some (h', d) → d < at_expire_fetch r) ∧
    rf_on_going_fetches f' !! (k, t) = Some (h, at_fetch r + FETCH_TIMEOUT)) ∧
  (out ≠ [] → (size (rf_on_going_fetches f') ≤ MAX_PARALLEL_FETCH)%nat) ∧
  size (rf_on_going_fetches f') =
    (size (retain (λ _ e, negb (e.2 <? at_expire_fetch r)%Z) (rf_on_going_fetches f)) + length out)%nat ∧
  (∀ k t h, is_Some (rf_to_be_fetched f' !! (k, t, h)) → rf_on_going_fetches f' !! (k, t) = None →
    (MAX_PARALLEL_FETCH ≤ size (rf_on_going_fetches f'))%nat ∧
    ∀ h' k', (h', k') ∈ out →
      distance (rf_self_address f) (NA_RecordKey k') ≤ distance (rf_self_address f) (NA_RecordKey k)).
Proof.
  pose proof (next_keys_cases r f) as Hc. pose proof (pruned_holder r f) as Hph.
  pose proof (prune_expired_fields r f) as (Hself & _ & _ & Hpsub & _ & Hog). cbv zeta in *.
  destruct (next_keys_to_fetch r f) as [[out f'] ev].
  set (f1 := (prune_expired_keys_and_slow_nodes r f).1) in *.
  assert (∀ kt h d, rf_on_going_fetches f !! kt = Some (h, d) → at_expire_fetch r ≤ d →
    rf_on_going_fetches f1 !! kt = Some (h, d)) as Hkeep.
  { intros kt h d Hk Hd. rewrite Hog. apply retain_lookup_Some. split; [done|]. simpl.
    apply negb_true_iff, Z.ltb_ge. lia. }
  destruct Hc as [(-> & -> & Hc)|(l & started & og' & Hsz & Hl & Hsort & Hloop & -> & ->)].
  - split_and!; [done|done| |done| |].
    + by intros h k ?%elem_of_nil.
    + rewrite Hog. simpl. lia.
    + intros k t h Hin Hn. destruct Hc as [Hc|Hc]; [|rewrite Hc, lookup_empty in Hin; by destruct Hin].
      split; [done|]. by intros ? ? ?%elem_of_nil.
  - destruct (fetch_loop_grow _ _ _ _ _ Hsz Hloop) as (Hgrow & Hle & Hsub).
    split_and!; simpl.
    + intros kt h d Hk Hd. eapply lookup_weaken; [by apply Hkeep|done].
    + intros kt h d k t Hk Hd. rewrite foldl_delete_lookup. case_bool_decide; [done|].
      eapply Hph; [exact Hk|exact Hd].
    + intros h k ([[k' t] h'] & [= -> ->] & Hin)%list_elem_of_fmap.
      destruct (fetch_loop_started _ _ _ _ _ _ _ _ Hloop Hin) as (Hil & Hnone & Hrun).
      exists t. split_and!; [| | |done].
      * apply Hl in Hil as [v Hv]. exists v. by eapply lookup_weaken.
      * rewrite foldl_delete_lookup. by rewrite bool_decide_eq_true_2.
      * intros h'' d Hk. destruct (decide (d < at_expire_fetch r)) as [|Hge]; [done|].
        rewrite (Hkeep _ _ _ Hk) in Hnone by lia. done.
    + done.
    + rewrite <- Hog, length_fmap. done.
    + intros k t h Hin Hn. rewrite foldl_delete_lookup in Hin. case_bool_decide as Hst; [by destruct Hin|].
      apply Hl in Hin. destruct (fetch_loop_left_out _ _ _ _ _ _ _ _ _ Hsort Hsz Hloop Hin Hn) as [-> Hfar].
      split; [done|]. intros h' k' ([[k0 t0] h0] & [= -> ->] & Ho)%list_elem_of_fmap.
      apply Hfar in Ho. unfold entry_distance, rf_self_address in Ho. by rewrite Hself in Ho.
Qed.
End loop.

(** ** Whose word is taken *)

Section sources.
Context `{XorNameLib, Bls, Kad, HashOrder}.
Implicit Types f : ReplicationFetcher.

(** A peer's word about a record: whether it came as a fresh replicate, which the caller has
    verified, and what its scores said of the peer at that time. *)
Record Report := mkReport {
  rp_peer : bytes;
  rp_addr : NetworkAddress;
  rp_type : ValidationType;
  rp_fresh : bool;
  rp_trust : option bool;
}.

Implicit Types R : list Report.

(** Reported by a peer that was not known to be untrustworthy. *)
Definition vouched R (p : bytes) (addr : NetworkAddress) (t : ValidationType) : Prop :=
  ∃ q, q ≠ Some false ∧ mkReport p addr t false q ∈ R.

(** What may be fetched from [p]: a fresh replicate, the word of a trustworthy peer, or a record two
    different peers vouch for. *)
Definition justified R (k : bytes) (t : ValidationType) (p : bytes) : Prop :=
  ∃ addr, to_record_key addr = k ∧
    ((∃ q, mkReport p addr t true q ∈ R) ∨ mkReport p addr t false (Some true) ∈ R ∨
     (vouched R p addr t ∧ ∃ p', p' ≠ p ∧ vouched R p' addr t)).

Definition initial_ok R (m : gmap (NetworkAddress * ValidationType) (gset bytes * Z)) : Prop :=
  ∀ addr t peers fs p, m !! (addr, t) = Some (peers, fs) → p ∈ peers → vouched R p addr t.

Record sources_ok R f : Prop := {
  so_pending : ∀ k t p, is_Some (rf_to_be_fetched f !! (k, t, p)) → justified R k t p;
  so_running : ∀ k t p d, rf_on_going_fetches f !! (k, t) = Some (p, d) → justified R k t p;
  so_initial : initial_ok R (rf_initial_replicates f);
}.

Lemma justified_mono R R' k t p : R ⊆ R' → justified R k t p → justified R' k t p.
Proof.
  intros HR (addr & Hk & Hj). exists addr. split; [done|].
  assert (∀ p, vouched R p addr t → vouched R' p addr t) as Hv
    by (intros p' (q & Hq & Hin); exists q; split; [done|by apply HR]).
  destruct Hj as [(q & Hq)|[Ht|(Hp & p' & Hne & Hp')]]; [left; eauto|right; left; eauto|].
  right. right. eauto 6.
Qed.

Lemma sources_ok_mono R R' f : R ⊆ R' → sources_ok R f → sources_ok R' f.
Proof.
  intros HR [Hp Hr Hi]. split.
  - intros k t p Hin. by eapply justified_mono; [|apply Hp].
  - intros k t p d Hin. by eapply justified_mono; [|eapply Hr].
  - intros addr t peers fs p Hm Hin. destruct (Hi addr t peers fs p Hm Hin) as (q & Hq & HqR).
    exists q. split; [done|by apply HR].
Qed.

(** An operation that only drops entries keeps the sources. *)
Lemma sources_ok_sub R f f' :
  rf_to_be_fetched f' ⊆ rf_to_be_fetched f → rf_on_going_fetches f' ⊆ rf_on_going_fetches f →
  rf_initial_replicates f' ⊆ rf_initial_replicates f → sources_ok R f → sources_ok R f'.
Proof.
  intros Hp Hr Hi [Hpo Hro Hio]. split.
  - intros k t p [v Hv]. apply Hpo. exists v. by eapply lookup_weaken.
  - intros k t p d Hv. eapply Hro. by eapply lookup_weaken.
  - intros addr t peers fs p Hm Hin. eapply Hio; [|done]. by eapply lookup_weaken.
Qed.

(** *** The accumulator *)

Lemma accumulate_one_lookup now holder k m m' b k' peers fs :
  accumulate_one now holder k m = (m', b) → m' !! k' = Some (peers, fs) →
  (k' ≠ k ∧ m !! k' = Some (peers, fs)) ∨
  (k' = k ∧ b = (CLOSE_GROUP_SIZE / 2 <=? size peers)%nat ∧
   ∀ p, p ∈ peers ↔ p = holder ∨ ∃ ps fs', m !! k = Some (ps, fs') ∧ p ∈ ps).
Proof.
  unfold accumulate_one. destruct (default (∅, now) (m !! k)) as [ps fs0] eqn:E.
  intros [= <- <-] [[<- [= <- <-]]|[Hne Hk]]%lookup_insert_Some; [right|by left].
  split; [done|]. split; [done|]. intros p. rewrite elem_of_union, elem_of_singleton.
  destruct (m !! k) as [[ps' fs']|] eqn:Em; simpl in E; injection E as <- <-.
  - split; [|naive_solver]. intros [?|?]; [right; eauto|by left].
  - split; [|naive_solver]. intros [?%elem_of_empty|?]; [done|by left].
Qed.

Lemma accumulate_one_self now holder k m :
  ∃ peers fs, (accumulate_one now holder k m).1 !! k = Some (peers, fs) ∧
    (accumulate_one now holder k m).2 = (CLOSE_GROUP_SIZE / 2 <=? size peers)%nat.
Proof.
  unfold accumulate_one. destruct (default (∅, now) (m !! k)) as [ps fs]. simpl.
  rewrite lookup_insert_eq. eauto.
Qed.

Lemma accumulate_grows now holder keys m m' maj k peers fs :
  accumulate now holder keys m = (m', maj) → m !! k = Some (peers, fs) →
  ∃ peers', m' !! k = Some (peers', fs) ∧ peers ⊆ peers'.
Proof.
  revert m m' maj peers. induction keys as [|k0 keys IH]; intros m m' maj peers; simpl.
  { intros [= <- <-]. eauto. }
  destruct (accumulate_one now holder k0 m) as [m1 b] eqn:E1.
  destruct (accumulate now holder keys m1) as [m2 rest] eqn:E2. intros [= <- <-] Hk.
  assert (∃ ps, m1 !! k = Some (ps, fs) ∧ peers ⊆ ps) as (ps & Hps & Hsub).
  { unfold accumulate_one in E1. destruct (default (∅, now) (m !! k0)) as [ps0 fs0] eqn:E.
    injection E1 as <- <-. destruct (decide (k0 = k)) as [->|Hne].
    - rewrite Hk in E. injection E as -> ->. rewrite lookup_insert_eq. eexists. split; [done|set_solver].
    - rewrite lookup_insert_ne by done. eauto. }
  destruct (IH _ _ _ _ E2 Hps) as (ps' & ? & ?). exists ps'. split; [done|set_solver].
Qed.

Lemma accumulate_spec R now holder keys m m' maj :
  initial_ok R m → (∀ addr t, (addr, t) ∈ keys → vouched R holder addr t) →
  accumulate now holder keys m = (m', maj) →
  initial_ok R m' ∧
  ∀ k, k ∈ maj → k ∈ keys ∧ ∃ peers fs, m' !! k = Some (peers, fs) ∧ (CLOSE_GROUP_SIZE / 2 ≤ size peers)%nat.
Proof.
  revert m m' maj. induction keys as [|k0 keys IH]; intros m m' maj Hm Hkeys; simpl.
  { intros [= <- <-]. split; [done|]. by intros k ?%elem_of_nil. }
  destruct (accumulate_one now holder k0 m) as [m1 b] eqn:E1.
  destruct (accumulate now holder keys m1) as [m2 rest] eqn:E2. intros [= <- <-].
  assert (initial_ok R m1) as Hm1.
  { intros addr t peers fs p Hp Hin.
    destruct (accumulate_one_lookup _ _ _ _ _ _ _ _ _ E1 Hp) as [[_ Hp']|(<- & _ & Hps)]; [by eapply Hm|].
    apply Hps in Hin as [->|(ps & fs' & Hps' & Hin)]; [apply Hkeys; by left|by eapply Hm]. }
  destruct (IH m1 m2 rest Hm1 ltac:(set_solver) E2) as [Hm2 Hmaj]. split; [done|].
  intros k Hk. destruct b; [apply elem_of_cons in Hk as [->|Hk]|].
  - split; [by left|]. destruct (accumulate_one_self now holder k0 m) as (ps & fs & Hps & Hb).
    rewrite E1 in Hps, Hb. cbn [fst snd] in Hps, Hb.
    destruct (accumulate_grows _ _ _ _ _ _ _ _ _ E2 Hps) as (ps' & Hps' & Hsub).
    exists ps', fs. split; [done|]. symmetry in Hb. apply Nat.leb_le in Hb.
    etrans; [exact Hb|by apply subseteq_size].
  - destruct (Hmaj k Hk) as [? ?]. split; [by right|done].
  - destruct (Hmaj k Hk) as [? ?]. split; [by right|done].
Qed.

Lemma take_majorities_spec maj m m' res :
  take_majorities maj m = (m', res) →
  m' ⊆ m ∧ ∀ p addr t, (p, addr, t) ∈ res →
    (addr, t) ∈ maj ∧ ∃ peers fs, m !! (addr, t) = Some (peers, fs) ∧ p ∈ peers.
Proof.
  revert m m' res. induction maj as [|[addr0 t0] maj IH]; intros m m' res; simpl.
  { intros [= <- <-]. split; [done|]. by intros p addr t ?%elem_of_nil. }
  destruct (m !! (addr0, t0)) as [[peers fs]|] eqn:Em.
  - destruct (take_majorities maj (delete (addr0, t0) m)) as [m1 rest] eqn:E. intros [= <- <-].
    apply IH in E as [Hsub Hin]. split; [etrans; [exact Hsub|apply delete_subseteq]|].
    intros p addr t [(p' & [= -> -> ->] & Hp%hs_iter_elem_of)%list_elem_of_fmap|Hr]%elem_of_app.
    + split; [by left|eauto].
    + apply Hin in Hr as (? & ps & fs' & [_ ?]%lookup_delete_Some & ?). split; [by right|eauto].
  - intros E. apply IH in E as [Hsub Hin]. split; [done|].
    intros p addr t Hr. apply Hin in Hr as [? ?]. split; [by right|done].
Qed.

Lemma two_members (s : gset bytes) p : (2 ≤ size s)%nat → p ∈ s → ∃ p', p' ∈ s ∧ p' ≠ p.
Proof.
  intros Hs Hp. destruct (decide (s ∖ {[p]} = ∅)) as [E|[p' Hp']%set_choose_L]; [|set_solver].
  assert (size (s ∖ {[p]}) = (size s - 1)%nat) as Hd
    by (rewrite size_difference, size_singleton by set_solver; done).
  rewrite E, size_empty in Hd. lia.
Qed.

Lemma initial_majority_spec R now holder keys f res f' :
  initial_ok R (rf_initial_replicates f) → (∀ addr t, (addr, t) ∈ keys → vouched R holder addr t) →
  initial_majority_replicates now holder keys f = (res, f') →
  initial_ok R (rf_initial_replicates f') ∧ rf_to_be_fetched f' = rf_to_be_fetched f ∧
  rf_on_going_fetches f' = rf_on_going_fetches f ∧
  ∀ p addr t, (p, addr, t) ∈ res →
    (addr, t) ∈ keys ∧ vouched R p addr t ∧ ∃ p', p' ≠ p ∧ vouched R p' addr t.
Proof.
  intros Hm Hkeys. unfold initial_majority_replicates.
  destruct (accumulate now holder keys (rf_initial_replicates f)) as [m1 maj] eqn:E1.
  destruct (take_majorities maj m1) as [m2 result] eqn:E2. intros [= <- <-]. simpl.
  destruct (accumulate_spec R _ _ _ _ _ _ Hm Hkeys E1) as [Hm1 Hmaj].
  destruct (take_majorities_spec _ _ _ _ E2) as [Hsub Hres]. split_and!; [|done|done|].
  - intros addr t peers fs p Hp. eapply Hm1. by eapply lookup_weaken.
  - intros p addr t Hp. destruct (Hres p addr t Hp) as (Hin & peers & fs & Hpeers & Hpp).
    destruct (Hmaj _ Hin) as (? & ps & fs' & Hps & Hsz). rewrite Hpeers in Hps. injection Hps as <- <-.
    destruct (two_members peers p) as (p' & Hp' & Hne); [exact Hsz|done|].
    split; [done|]. split; [by eapply Hm1|]. exists p'. split; [done|]. by eapply Hm1.
Qed.

(** *** Candidates *)

Lemma push_absent_elem res cs c :
  c ∈ foldl push_absent res cs → c ∈ res ∨ c ∈ cs.
Proof.
  revert res. induction cs as [|c0 cs IH]; intros res; simpl; [by left|].
  intros Hc%IH. unfold push_absent in Hc. destruct (existsb _ res); set_solver.
Qed.

Lemma in_range_new_keys_spec holder incoming local closest f addr t :
  (addr, t) ∈ in_range_new_keys holder incoming local closest f →
  (addr, t) ∈ incoming ∧ local !! to_record_key addr = None ∧
  ∃ peer, peer ∈ closest ++ [rf_self_address f] ∧
    distance (rf_self_address f) addr ≤ distance (rf_self_address f) peer.
Proof.
  unfold in_range_new_keys.
  destruct (last (sort_by_key _ _)) as [peer|] eqn:E; simpl.
  - intros [Hd [Hf Hin]%list_elem_of_filter]%list_elem_of_filter. simpl in *. bool_to_prop.
    split; [done|]. split; [done|]. exists peer. split; [|done]. by apply sort_by_key_last_elem in E.
  - exfalso. apply last_None in E. apply (f_equal length) in E.
    rewrite sort_by_key_length, length_app in E. simpl in E. lia.
Qed.

Lemma valid_candidates_spec R now holder incoming local closest f cs f' :
  initial_ok R (rf_initial_replicates f) →
  (∀ addr t, (addr, t) ∈ incoming → mkReport holder addr t false (is_peer_trustworthy holder f) ∈ R) →
  valid_candidates now holder incoming local closest f = (cs, f') →
  initial_ok R (rf_initial_replicates f') ∧ rf_to_be_fetched f' = rf_to_be_fetched f ∧
  rf_on_going_fetches f' = rf_on_going_fetches f ∧
  (is_peer_trustworthy holder f = Some false → cs = [] ∧ f' = f) ∧
  ∀ p addr t, (p, addr, t) ∈ cs →
    justified R (to_record_key addr) t p ∧ (addr, t) ∈ in_range_new_keys holder incoming local closest f.
Proof.
  intros Hm Hrep. unfold valid_candidates.
  destruct (is_peer_trustworthy holder f) as [[]|] eqn:Et.
  - set (keys := in_range_new_keys _ _ _ _ _).
    destruct (initial_majority_replicates now holder keys f) as [maj f1] eqn:E. intros [= <- <-].
    assert (∀ addr t, (addr, t) ∈ keys → mkReport holder addr t false (Some true) ∈ R) as Hk
      by (intros addr t [Hin _]%in_range_new_keys_spec; by apply Hrep).
    destruct (initial_majority_spec R now holder keys f maj f1) as (? & ? & ? & Hmaj);
      [done|intros addr t Hin; exists (Some true); split; [done|by apply Hk]|done|].
    split_and!; [done..|]. intros p addr t [Hr|Hr]%push_absent_elem.
    + apply list_elem_of_fmap in Hr as ([addr' t'] & [= -> -> ->] & Hin). split; [|done].
      exists addr'. split; [done|]. right. left. by apply Hk.
    + destruct (Hmaj p addr t Hr) as (? & ? & ?). split; [|done]. exists addr. split; [done|]. right. by right.
  - intros [= <- <-]. split_and!; [done..|]. by intros p addr t ?%elem_of_nil.
  - intros E. set (keys := in_range_new_keys _ _ _ _ _) in *.
    assert (∀ addr t, (addr, t) ∈ keys → vouched R holder addr t) as Hk
      by (intros addr t [Hin _]%in_range_new_keys_spec; exists None; split; [done|by apply Hrep]).
    destruct (initial_majority_spec R _ _ _ _ _ _ Hm Hk E) as (? & ? & ? & Hmaj).
    split_and!; [done..|]. intros p addr t Hr. destruct (Hmaj p addr t Hr) as (? & ? & ?).
    split; [|done]. exists addr. split; [done|]. right. by right.
Qed.

(** *** Operations *)

Definition outs_justified R (out : list (bytes * bytes)) : Prop :=
  ∀ h k, (h, k) ∈ out → ∃ t, justified R k t h.

Lemma next_keys_sources R r f :
  sources_ok R f →
  let '(out, f', _) := next_keys_to_fetch r f in sources_ok R f' ∧ outs_justified R out.
Proof.
  intros Hso. pose proof (next_keys_cases r f) as Hc.
  pose proof (prune_expired_fields r f) as (_ & _ & _ & Hp & Hi & Hog). cbv zeta in *.
  destruct (next_keys_to_fetch r f) as [[out f'] ev].
  set (f1 := (prune_expired_keys_and_slow_nodes r f).1) in *.
  assert (sources_ok R f1) as Hso1.
  { apply (sources_ok_sub R f); [done| |done|done]. rewrite Hog. apply retain_subseteq. }
  destruct Hc as [(-> & -> & _)|(l & started & og' & Hsz & Hl & _ & Hloop & -> & ->)].
  { split; [done|]. by intros h k ?%elem_of_nil. }
  assert (∀ k t h, (k, t, h) ∈ started → justified R k t h) as Hst.
  { intros k t h Hin. destruct (fetch_loop_started _ _ _ _ _ _ _ _ Hloop Hin) as (Hin' & _ & _).
    apply (so_pending R f1 Hso1). by apply Hl. }
  split; [split; simpl|].
  - intros k t p. rewrite foldl_delete_lookup. case_bool_decide; [by intros []|]. apply (so_pending R f1 Hso1).
  - intros k t p d Hd. destruct (fetch_loop_running _ _ _ _ _ _ _ Hloop Hd) as [Hold|[h Hin]].
    + by eapply (so_running R f1 Hso1).
    + destruct (fetch_loop_started _ _ _ _ _ _ _ _ Hloop Hin) as (_ & _ & Hrun).
      rewrite Hd in Hrun. injection Hrun as -> _. by apply Hst.
  - apply Hso1.
  - intros h k ([[k' t] h'] & [= -> ->] & Hin)%list_elem_of_fmap. exists t. by apply Hst.
Qed.

Lemma add_candidates_sources R now holder (fresh : bool) (cs : list (bytes * NetworkAddress * ValidationType)) acc f ks f' :
  sources_ok R f → outs_justified R acc →
  (∀ (p : bytes) (addr : NetworkAddress) (t : ValidationType), (p, addr, t) ∈ cs →
    if fresh then ∃ q, mkReport holder addr t true q ∈ R else justified R (to_record_key addr) t p) →
  foldl (add_candidate now holder fresh) (acc, f) cs = (ks, f') →
  sources_ok R f' ∧ outs_justified R ks.
Proof.
  revert acc f. induction cs as [|[[p addr] t] cs IH]; intros acc f Hso Hacc Hcs; simpl.
  { by intros [= <- <-]. }
  pose proof (Hcs p addr t ltac:(by left)) as Hc.
  assert (∀ (p' : bytes) (addr' : NetworkAddress) (t' : ValidationType), (p', addr', t') ∈ cs →
    if fresh then ∃ q, mkReport holder addr' t' true q ∈ R else justified R (to_record_key addr') t' p') as Hcs'
    by (intros; apply Hcs; by right).
  destruct fresh.
  - assert (justified R (to_record_key addr) t holder) as Hj by (exists addr; split; [done|by left]).
    destruct (rf_on_going_fetches f !! (to_record_key addr, t)); [by apply IH|].
    apply IH; [|intros h k; rewrite elem_of_app, list_elem_of_singleton; intros [?|[= -> ->]]; eauto|done].
    split; simpl; [apply Hso| |apply Hso].
    intros k' t' p' d [[[= <- <-] [= <- <-]]|[_ Hk]]%lookup_insert_Some; [done|by eapply (so_running R f Hso)].
  - destruct (rf_to_be_fetched f !! (to_record_key addr, t, p)); [by apply IH|].
    apply IH; [|done|done]. split; simpl; [|apply Hso|apply Hso].
    intros k' t' p' [[= <- <- <-]|[_ Hk]]%lookup_insert_is_Some; [done|by apply (so_pending R f Hso)].
Qed.

(** The reports an [add_keys] call brings. *)
Definition reports_of (holder : bytes) (incoming : list (NetworkAddress * ValidationType)) (fresh : bool) f
    : list Report :=
  (λ k, mkReport holder k.1 k.2 fresh (is_peer_trustworthy holder f)) <$> incoming.

Lemma add_keys_sources R r holder incoming local fresh closest f :
  sources_ok R f → reports_of holder incoming fresh f ⊆ R →
  let '(out, f', _) := add_keys r holder incoming local fresh closest f in
  sources_ok R f' ∧ outs_justified R out.
Proof.
  intros Hso Hrep. unfold add_keys.
  destruct (if fresh then _ else _) as [cs f1] eqn:E.
  assert (sources_ok R f1 ∧ ∀ (p : bytes) (addr : NetworkAddress) (t : ValidationType), (p, addr, t) ∈ cs →
    if fresh then ∃ q, mkReport holder addr t true q ∈ R else justified R (to_record_key addr) t p) as [Hso1 Hcs].
  { assert (∀ addr t, (addr, t) ∈ incoming → mkReport holder addr t fresh (is_peer_trustworthy holder f) ∈ R) as Hin
      by (intros addr t Hin; apply Hrep, list_elem_of_fmap; by exists (addr, t)).
    destruct fresh.
    - injection E as <- <-. split; [done|].
      intros p addr t ([addr' t'] & [= -> -> ->] & Hk)%list_elem_of_fmap. eexists. by apply Hin.
    - destruct (valid_candidates_spec R _ _ _ _ _ _ _ _ (so_initial R f Hso) Hin E) as (Hi & Hp & Hr & _ & Hcs).
      split; [|intros p addr t Hc; by apply Hcs].
      split; [rewrite Hp; apply Hso|rewrite Hr; apply Hso|done]. }
  set (f2 := rf_with_fetches (remove_stored_keys local f1) _ _).
  assert (sources_ok R f2) as Hso2.
  { apply (sources_ok_sub R f1); [| |done|done]; simpl; [etrans; apply retain_subseteq|apply retain_subseteq]. }
  destruct (foldl _ ([], f2) cs) as [ks f3] eqn:E3.
  apply (add_candidates_sources R) in E3 as [Hso3 Hks]; [|done|by intros h k ?%elem_of_nil|done].
  pose proof (next_keys_sources R r f3 Hso3) as Hn.
  destruct (next_keys_to_fetch r f3) as [[out f4] ev]. destruct Hn as [Hso4 Hout]. split; [done|].
  intros h k [?|?]%elem_of_app; [by apply Hks|by apply Hout].
Qed.

(** The operations of the fetcher. *)
Inductive FetcherOp :=
  | FAddKeys (r : Readings) (holder : bytes) (incoming : list (NetworkAddress * ValidationType))
      (local : gmap bytes (NetworkAddress * ValidationType * DataTypes)) (fresh : bool)
      (closest : list NetworkAddress)
  | FSetFarthest (farthest : option bytes)
  | FNewPut (r : Readings) (key : bytes) (t : ValidationType)
  | FEarlyCompleted (r : Readings) (key : bytes) (t : ValidationType)
  | FNext (r : Readings)
  | FScores (clk : nat → Z) (random_peer : bytes) (scores : list (bytes * bool))
  | FSetRange (d : Z).

Definition run_fop (op : FetcherOp) f : list (bytes * bytes) * ReplicationFetcher :=
  match op with
  | FAddKeys r holder incoming local fresh closest => (add_keys r holder incoming local fresh closest f).1
  | FSetFarthest farthest => ([], set_farthest_on_full farthest f)
  | FNewPut r key t => (notify_about_new_put r key t f).1
  | FEarlyCompleted r key t => (notify_fetch_early_completed r key t f).1
  | FNext r => (next_keys_to_fetch r f).1
  | FScores clk p scores => ([], add_peer_scores clk p scores f)
  | FSetRange d => ([], set_replication_distance_range d f)
  end.

Definition op_reports (op : FetcherOp) f : list Report :=
  match op with
  | FAddKeys _ holder incoming _ fresh _ => reports_of holder incoming fresh f
  | _ => []
  end.

(** A run: the keys given out to fetch and the reports received, with the last state. *)
Fixpoint run_fops (ops : list FetcherOp) f : list (bytes * bytes) * list Report * ReplicationFetcher :=
  match ops with
  | [] => ([], [], f)
  | op :: ops' =>
    let '(out, f1) := run_fop op f in
    let '(outs, reps, f2) := run_fops ops' f1 in
    (out ++ outs, op_reports op f ++ reps, f2)
  end.

Lemma run_fop_sources R op f out f' :
  sources_ok R f → op_reports op f ⊆ R → run_fop op f = (out, f') → sources_ok R f' ∧ outs_justified R out.
Proof.
  intros Hso Hrep.
  assert (outs_justified R []) as Hnil by (by intros h k ?%elem_of_nil).
  assert (∀ r f0, sources_ok R f0 → (next_keys_to_fetch r f0).1 = (out, f') → sources_ok R f' ∧ outs_justified R out) as Hnext.
  { intros r f0 Hf0 E. pose proof (next_keys_sources R r f0 Hf0) as Hn.
    destruct (next_keys_to_fetch r f0) as [[? ?] ?]. simpl in E. by injection E as -> ->. }
  destruct op as [r holder incoming local fresh closest|farthest|r key t|r key t|r|clk p scores|d]; simpl.
  - pose proof (add_keys_sources R r holder incoming local fresh closest f Hso Hrep) as Hn.
    destruct (add_keys _ _ _ _ _ _ _) as [[? ?] ?]. simpl. by intros [= <- <-].
  - intros [= <- <-]. split; [|done]. unfold set_farthest_on_full. destruct farthest as [far|]; [|done].
    destruct (match rf_farthest_acceptable_distance f with Some _ => _ | None => _ end); [done|].
    apply (sources_ok_sub R f); [apply retain_subseteq..|done|done].
  - apply Hnext. apply (sources_ok_sub R f); [apply retain_subseteq..|done|done].
  - apply Hnext. apply (sources_ok_sub R f); [apply retain_subseteq..|done|done].
  - by apply Hnext.
  - intros [= <- <-]. split; [|done]. unfold add_peer_scores. destruct (add_scores _ _ _ _) as [m i].
    by apply (sources_ok_sub R f).
  - intros [= <- <-]. split; [|done]. by apply (sources_ok_sub R f).
Qed.

Lemma run_fops_sources R ops f outs reps f' :
  sources_ok R f → reps ⊆ R → run_fops ops f = (outs, reps, f') → sources_ok R f' ∧ outs_justified R outs.
Proof.
  revert f outs reps. induction ops as [|op ops IH]; intros f outs reps Hso Hrep; simpl.
  { intros [= <- <- <-]. split; [done|]. by intros h k ?%elem_of_nil. }
  destruct (run_fop op f) as [out f1] eqn:E1. destruct (run_fops ops f1) as [[outs' reps'] f2] eqn:E2.
  intros [= <- <- <-]. destruct (run_fop_sources R op f out f1 Hso ltac:(set_solver) E1) as [Hso1 Hout].
  destruct (IH f1 outs' reps' Hso1 ltac:(set_solver) E2) as [? Houts]. split; [done|].
  intros h k [?|?]%elem_of_app; [by apply Hout|by apply Houts].
Qed.

(** C23: nothing is fetched on the word of one unproven peer. In any run of a new fetcher, every key
    it gives out to fetch from a peer, and everything it queues or is fetching, was sent by that
    peer as a fresh replicate, or reported by that peer while its scores made it trustworthy, or
    reported by that peer and by a different one, neither untrustworthy when it reported. *)
Theorem fetch_sources_justified self ops outs reps f :
  run_fops ops (fetcher_new self) = (outs, reps, f) →
  (∀ h k, (h, k) ∈ outs → ∃ t, justified reps k t h) ∧
  (∀ k t p, is_Some (rf_to_be_fetched f !! (k, t, p)) → justified reps k t p) ∧
  (∀ k t p d, rf_on_going_fetches f !! (k, t) = Some (p, d) → justified reps k t p).
Proof.
  intros Hrun. destruct (run_fops_sources reps ops (fetcher_new self) outs reps f) as [Hso Hout]; [|done|done|].
  { split; simpl.
    - intros k t p [v Hv]. by rewrite lookup_empty in Hv.
    - intros k t p d Hv. by rewrite lookup_empty in Hv.
    - intros addr t peers fs p Hv. by rewrite lookup_empty in Hv. }
  split; [done|]. split; apply Hso.
Qed.

(** ** What is queued *)

Lemma add_candidates_queued now holder (cs : list (bytes * NetworkAddress * ValidationType)) acc f e :
  is_Some (rf_to_be_fetched (foldl (add_candidate now holder false) (acc, f) cs).2 !! e) →
  is_Some (rf_to_be_fetched f !! e) ∨ ∃ (p : bytes) (addr : NetworkAddress) (t : ValidationType), (p, addr, t) ∈ cs ∧ e = (to_record_key addr, t, p).
Proof.
  revert acc f. induction cs as [|[[p addr] t] cs IH]; intros acc f; simpl; [by left|].
  destruct (rf_to_be_fetched f !! (to_record_key addr, t, p)) eqn:E; intros [Hf|(p' & a' & t' & Hin & ->)]%IH.
  - by left.
  - right. exists p', a', t'. split; [by right|done].
  - simpl in Hf. apply lookup_insert_is_Some in Hf as [<-|[_ Hf]]; [right|by left].
    exists p, addr, t. split; [by left|done].
  - right. exists p', a', t'. split; [by right|done].
Qed.

Lemma next_keys_queue r f e :
  is_Some (rf_to_be_fetched (next_keys_to_fetch r f).1.2 !! e) → is_Some (rf_to_be_fetched f !! e).
Proof.
  pose proof (next_keys_cases r f) as Hc. pose proof (prune_expired_fields r f) as (_ & _ & _ & Hp & _).
  cbv zeta in *. destruct (next_keys_to_fetch r f) as [[out f'] ev]. cbn [fst snd].
  intros [v Hv]. exists v. eapply lookup_weaken; [|exact Hp].
  destruct Hc as [(_ & -> & _)|(l & started & og' & _ & _ & _ & _ & _ & ->)]; [done|].
  simpl in Hv. rewrite foldl_delete_lookup in Hv. by case_bool_decide.
Qed.

Lemma accumulate_keys now holder keys m k : k ∈ (accumulate now holder keys m).2 → k ∈ keys.
Proof.
  revert m. induction keys as [|k0 keys IH]; intros m; simpl; [done|].
  destruct (accumulate_one now holder k0 m) as [m1 b]. specialize (IH m1).
  destruct (accumulate now holder keys m1) as [m2 rest]. simpl in *. destruct b; set_solver.
Qed.

Lemma initial_majority_keys now holder keys f p addr t :
  (p, addr, t) ∈ (initial_majority_replicates now holder keys f).1 → (addr, t) ∈ keys.
Proof.
  unfold initial_majority_replicates.
  pose proof (accumulate_keys now holder keys (rf_initial_replicates f) (addr, t)) as Hk.
  destruct (accumulate _ _ _ _) as [m1 maj]. destruct (take_majorities maj m1) as [m2 res] eqn:E.
  intros Hin. apply Hk. by apply (take_majorities_spec _ _ _ _ E) in Hin as [? _].
Qed.

Lemma initial_majority_fields now holder keys f :
  rf_to_be_fetched (initial_majority_replicates now holder keys f).2 = rf_to_be_fetched f.
Proof.
  unfold initial_majority_replicates. destruct (accumulate _ _ _ _) as [m1 maj].
  by destruct (take_majorities maj m1).
Qed.

Lemma valid_candidates_queue now holder incoming local closest f cs f' :
  valid_candidates now holder incoming local closest f = (cs, f') →
  rf_to_be_fetched f' = rf_to_be_fetched f ∧ (is_peer_trustworthy holder f = Some false → cs = []).
Proof.
  unfold valid_candidates. set (keys := in_range_new_keys _ _ _ _ _).
  pose proof (initial_majority_fields now holder keys f) as Hf.
  destruct (initial_majority_replicates now holder keys f) as [maj f1].
  destruct (is_peer_trustworthy holder f) as [[]|]; by intros [= <- <-].
Qed.

Lemma valid_candidates_keys now holder incoming local closest f cs f' p addr t :
  valid_candidates now holder incoming local closest f = (cs, f') → (p, addr, t) ∈ cs →
  (addr, t) ∈ in_range_new_keys holder incoming local closest f.
Proof.
  unfold valid_candidates. set (keys := in_range_new_keys _ _ _ _ _).
  pose proof (initial_majority_keys now holder keys f p addr t) as Hk.
  destruct (initial_majority_replicates now holder keys f) as [maj f1].
  destruct (is_peer_trustworthy holder f) as [[]|]; intros [= <- <-].
  - intros [([addr' t'] & [= -> -> ->] & Hin)%list_elem_of_fmap|Hr]%push_absent_elem; [done|by apply Hk].
  - by intros ?%elem_of_nil.
  - apply Hk.
Qed.

(** A periodic replication list queues only what this node should hold and lacks. Every entry
    it adds to the queue is for an address of the list, whose record is not stored here, and which
    is no farther from this node than the farthest of its closest peers; and the list of a peer
    that is known to be untrustworthy adds nothing. *)
Theorem add_keys_queues_in_range r holder incoming local closest f k t p :
  is_Some (rf_to_be_fetched (add_keys r holder incoming local false closest f).1.2 !! (k, t, p)) →
  rf_to_be_fetched f !! (k, t, p) = None →
  is_peer_trustworthy holder f ≠ Some false ∧
  ∃ addr, to_record_key addr = k ∧ (addr, t) ∈ incoming ∧ local !! k = None ∧
    ∃ peer, peer ∈ closest ++ [rf_self_address f] ∧
      distance (rf_self_address f) (NA_RecordKey k) ≤ distance (rf_self_address f) peer.
Proof.
  unfold add_keys. destruct (valid_candidates _ _ _ _ _ _) as [cs f1] eqn:E.
  set (f2 := rf_with_fetches (remove_stored_keys local f1) _ _).
  destruct (foldl _ ([], f2) cs) as [ks f3] eqn:E3.
  pose proof (next_keys_queue r f3 (k, t, p)) as Hq.
  destruct (next_keys_to_fetch r f3) as [[out f4] ev]. cbn [fst snd] in *. intros Hin Hnone.
  apply Hq in Hin. change f3 with (ks, f3).2 in Hin. rewrite <- E3 in Hin.
  assert (rf_to_be_fetched f1 = rf_to_be_fetched f ∧ (is_peer_trustworthy holder f = Some false → cs = [])) as [Hf1 Hun].
  { apply valid_candidates_queue in E as [? ?]. done. }
  apply add_candidates_queued in Hin as [[v Hv]|(p' & addr & t' & Hc & [= -> -> ->])].
  { exfalso. apply retain_lookup_Some in Hv as [[Hv _]%retain_lookup_Some _]. rewrite Hf1 in Hv. congruence. }
  split; [intros Hf; rewrite (Hun Hf) in Hc; by apply elem_of_nil in Hc|].
  exists addr. split; [done|].
  apply (valid_candidates_keys _ _ _ _ _ _ _ _ _ _ _ E), in_range_new_keys_spec in Hc as (? & ? & peer & ? & ?).
  split; [done|]. split; [done|]. exists peer. split; [done|]. by rewrite distance_record_key.
Qed.
End sources.

(** ** The distance limit of a full node *)

Section limit.
Context `{XorNameLib, Bls, Kad, HashOrder}.
Implicit Types f : ReplicationFetcher.

(** Everything queued or being fetched is within a distance. *)
Definition within_limit (d : Z) f : Prop :=
  (∀ k t p, is_Some (rf_to_be_fetched f !! (k, t, p)) → distance (rf_self_address f) (NA_RecordKey k) ≤ d) ∧
  (∀ k t, is_Some (rf_on_going_fetches f !! (k, t)) → distance (rf_self_address f) (NA_RecordKey k) ≤ d).

(** The limit a full node sets only ever shrinks, is never above the distance of the farthest
    record it was given, and leaves nothing queued or being fetched beyond it. *)
Theorem farthest_limit_shrinks k f :
  (∀ d, rf_farthest_acceptable_distance f = Some d → within_limit d f) →
  let f' := set_farthest_on_full (Some k) f in
  ∃ d', rf_farthest_acceptable_distance f' = Some d' ∧
    d' ≤ distance (rf_self_address f) (NA_RecordKey k) ∧
    (∀ d, rf_farthest_acceptable_distance f = Some d → d' ≤ d) ∧
    within_limit d' f' ∧
    (∀ e, is_Some (rf_to_be_fetched f' !! e) ↔
      is_Some (rf_to_be_fetched f !! e) ∧ distance (rf_self_address f) (NA_RecordKey e.1.1) ≤ d').
Proof.
  intros Hlim f'. unfold f', set_farthest_on_full.
  set (dk := distance (rf_self_address f) (NA_RecordKey k)).
  destruct (match rf_farthest_acceptable_distance f with Some _ => _ | None => _ end) eqn:Ek.
  - destruct (rf_farthest_acceptable_distance f) as [d|] eqn:Ed; [|done]. apply Z.leb_le in Ek.
    destruct (Hlim d eq_refl) as [Hp Hr].
    exists d. split_and!; [done|done|by intros d0 [= ->]|by split|].
    intros [[k' t] p]. split; [|by intros [? _]]. intros He. split; [done|]. by eapply Hp.
  - exists dk. simpl. split_and!; [done|done| | |].
    + intros d Hd. rewrite Hd in Ek. apply Z.leb_gt in Ek. lia.
    + split; [intros k' t p [v [_ Hv]%retain_lookup_Some]|intros k' t [v [_ Hv]%retain_lookup_Some]];
        by apply Z.leb_le in Hv.
    + intros e. split.
      * intros [v [He Hv]%retain_lookup_Some]. apply Z.leb_le in Hv. split; [by eexists|done].
      * intros [[v He] Hv]. exists v. apply retain_lookup_Some. split; [done|]. by apply Z.leb_le.
Qed.

(** The fetcher with another limit. *)
Definition rf_with_limit (o : option Z) f : ReplicationFetcher :=
  {| rf_self_peer_id := rf_self_peer_id f; rf_to_be_fetched := rf_to_be_fetched f;
     rf_on_going_fetches := rf_on_going_fetches f; rf_distance_range := rf_distance_range f;
     rf_farthest_acceptable_distance := o; rf_peers_scores := rf_peers_scores f;
     rf_initial_replicates := rf_initial_replicates f |}.

Lemma next_keys_limit o r f :
  next_keys_to_fetch r (rf_with_limit o f) =
  let '(out, f', ev) := next_keys_to_fetch r f in (out, rf_with_limit o f', ev).
Proof.
  unfold next_keys_to_fetch, prune_expired_keys_and_slow_nodes. cbv zeta. cbn -[fetch_loop size].
  destruct (MAX_PARALLEL_FETCH <=? _)%nat; [done|]. case_bool_decide; [done|].
  by destruct (fetch_loop _ _ _).
Qed.

Lemma valid_candidates_limit o now holder incoming local closest f :
  valid_candidates now holder incoming local closest (rf_with_limit o f) =
  let '(cs, f') := valid_candidates now holder incoming local closest f in (cs, rf_with_limit o f').
Proof.
  unfold valid_candidates. change (is_peer_trustworthy holder (rf_with_limit o f)) with (is_peer_trustworthy holder f).
  change (in_range_new_keys holder incoming local closest (rf_with_limit o f))
    with (in_range_new_keys holder incoming local closest f).
  unfold initial_majority_replicates. simpl.
  destruct (accumulate _ _ _ _) as [m maj]. destruct (take_majorities maj m) as [m' res].
  by destruct (is_peer_trustworthy holder f) as [[]|].
Qed.

Lemma add_candidates_limit o now holder fresh cs acc f :
  foldl (add_candidate now holder fresh) (acc, rf_with_limit o f) cs =
  let '(ks, f') := foldl (add_candidate now holder fresh) (acc, f) cs in (ks, rf_with_limit o f').
Proof.
  revert acc f. induction cs as [|[[p addr] t] cs IH]; intros acc f; simpl; [done|].
  destruct fresh.
  - destruct (rf_on_going_fetches f !! _); [apply IH|]. rewrite <- IH. done.
  - destruct (rf_to_be_fetched f !! _); [apply IH|]. rewrite <- IH. done.
Qed.

(** New keys are accepted whatever the limit: changing the limit changes neither what a
    replication list queues nor what is fetched for it. A full node that has just dropped the
    fetches beyond its farthest record accepts the same keys again. *)
Theorem add_keys_ignores_limit o r holder incoming local fresh closest f :
  add_keys r holder incoming local fresh closest (rf_with_limit o f) =
  let '(out, f', ev) := add_keys r holder incoming local fresh closest f in (out, rf_with_limit o f', ev).
Proof.
  unfold add_keys. rewrite valid_candidates_limit.
  assert ((if fresh then ((λ k, (holder, k.1, k.2)) <$> incoming, rf_with_limit o f)
           else let '(cs, f') := valid_candidates (at_accumulate r) holder incoming local closest f
                in (cs, rf_with_limit o f')) =
          let '(cs, f') := if fresh then ((λ k, (holder, k.1, k.2)) <$> incoming, f)
                           else valid_candidates (at_accumulate r) holder incoming local closest f
          in (cs, rf_with_limit o f')) as -> by (by destruct fresh).
  destruct (if fresh then _ else _) as [cs f1].
  set (f2 := rf_with_fetches (remove_stored_keys local f1) _ _).
  change (rf_with_fetches (remove_stored_keys local (rf_with_limit o f1)) _ _) with (rf_with_limit o f2).
  rewrite add_candidates_limit. destruct (foldl _ ([], f2) cs) as [ks f3].
  rewrite next_keys_limit. by destruct (next_keys_to_fetch r f3) as [[out f4] ev].
Qed.
End limit.

(** ** Peer scores *)

Section scores.
Context `{XorNameLib, Bls, Kad, HashOrder}.
Implicit Types f : ReplicationFetcher.

(** The results recorded for a peer, in order. *)
Definition results_of (p : bytes) (scores : list (bytes * bool)) : list bool :=
  snd <$> filter (λ s, s.1 = p) scores.

Definition last_two (l : list bool) : list bool := drop (length l - 2) l.

Definition window (p : bytes) (m : gmap bytes (list bool * Z)) : list bool := default [] (fst <$> m !! p).

Lemma add_score_last_two l b : (length l ≤ 2)%nat → add_score l b = last_two (l ++ [b]).
Proof. by destruct l as [|x [|y [|z l]]]; simpl; try lia. Qed.

Lemma last_two_app l k : last_two (last_two l ++ k) = last_two (l ++ k).
Proof.
  unfold last_two. rewrite !length_app, length_drop.
  destruct (decide (length l ≤ 2)%nat) as [Hle|Hgt].
  - replace (length l - 2)%nat with 0%nat by lia. rewrite drop_0. f_equal. lia.
  - rewrite !drop_app, drop_drop, !length_drop. f_equal; f_equal; lia.
Qed.

Lemma last_two_short l : (length (last_two l) ≤ 2)%nat.
Proof. unfold last_two. rewrite length_drop. lia. Qed.

Lemma last_two_id l : (length l ≤ 2)%nat → last_two l = l.
Proof. intros Hl. unfold last_two. by replace (length l - 2)%nat with 0%nat by lia. Qed.

Lemma add_scores_window clk i scores m p :
  (∀ p, length (window p m) ≤ 2)%nat →
  window p (add_scores clk i scores m).1 = last_two (window p m ++ results_of p scores).
Proof.
  revert i m. induction scores as [|[p0 b] scores IH]; intros i m Hw; simpl.
  { rewrite app_nil_r. symmetry. by apply last_two_id. }
  rewrite IH.
  - unfold results_of. destruct (decide (p0 = p)) as [<-|Hne].
    + rewrite filter_cons_True by done. unfold window at 1. rewrite lookup_insert_eq. simpl.
      fold (window p0 m). rewrite add_score_last_two by done. by rewrite last_two_app, <- app_assoc.
    + rewrite filter_cons_False by done. unfold window at 1. by rewrite lookup_insert_ne.
  - intros p'. unfold window. destruct (decide (p0 = p')) as [<-|Hne].
    + rewrite lookup_insert_eq. simpl. fold (window p0 m). rewrite add_score_last_two by done. apply last_two_short.
    + rewrite lookup_insert_ne by done. apply Hw.
Qed.

Lemma add_scores_tracked clk i scores m p :
  is_Some ((add_scores clk i scores m).1 !! p) ↔ is_Some (m !! p) ∨ p ∈ scores.*1.
Proof.
  revert i m. induction scores as [|[p0 b] scores IH]; intros i m; simpl; [set_solver|].
  rewrite IH, lookup_insert_is_Some', elem_of_cons. naive_solver.
Qed.

Lemma add_scores_size clk i scores m :
  (size (add_scores clk i scores m).1 ≤ size m + length scores)%nat.
Proof.
  revert i m. induction scores as [|[p b] scores IH]; intros i m; simpl; [lia|].
  etrans; [apply IH|]. rewrite map_size_insert. case_match; simpl; lia.
Qed.

(** Trust is what the last two storage challenges say. After recording a round of results, a
    peer that is still tracked is judged by the last two of all its results: trustworthy when both
    are healthy, untrustworthy when one is not, unknown when there are fewer than two; and a round
    drops at most one peer, and none while there are at most twenty. *)
Theorem peer_trust_is_last_two clk random_peer scores f p :
  (∀ p, length (window p (rf_peers_scores f)) ≤ 2)%nat →
  let f' := add_peer_scores clk random_peer scores f in
  (is_Some (rf_peers_scores f' !! p) →
    is_peer_trustworthy p f' =
      match last_two (window p (rf_peers_scores f) ++ results_of p scores) with
      | [a; b] => Some (a && b)
      | _ => None
      end) ∧
  ∃ dropped : gset bytes, (size dropped ≤ 1)%nat ∧
    ((size (rf_peers_scores f) + length scores ≤ 20)%nat → dropped = ∅) ∧
    ∀ q, is_Some (rf_peers_scores f' !! q) ↔
      (is_Some (rf_peers_scores f !! q) ∨ q ∈ scores.*1) ∧ q ∉ dropped.
Proof.
  intros Hw f'. unfold f', add_peer_scores.
  pose proof (add_scores_window clk 0 scores (rf_peers_scores f) p Hw) as Hwin.
  pose proof (add_scores_tracked clk 0 scores (rf_peers_scores f)) as Htr.
  pose proof (add_scores_size clk 0 scores (rf_peers_scores f)) as Hsize.
  destruct (add_scores clk 0 scores (rf_peers_scores f)) as [m i]. cbn [fst] in *.
  set (m' := if (20 <? size m)%nat then _ else m). simpl.
  assert (∀ x, m' !! p = Some x → m !! p = Some x) as Hsub.
  { unfold m'. destruct (20 <? size m)%nat; [|done]. by intros x [_ ?]%lookup_delete_Some. }
  split.
  - intros [[w t] Hx]. unfold is_peer_trustworthy. cbn [rf_peers_scores]. rewrite Hx.
    apply Hsub in Hx. unfold window at 1 in Hwin. rewrite Hx in Hwin. simpl in Hwin. rewrite <- Hwin.
    pose proof (last_two_short (window p (rf_peers_scores f) ++ results_of p scores)) as Hs.
    rewrite <- Hwin in Hs. destruct w as [|[] [|[] [|]]]; simpl in *; try done; lia.
  - unfold m'. destruct (Nat.ltb_spec 20 (size m)).
    + exists {[ oldest_peer (clk i) random_peer m ]}. rewrite size_singleton. split; [done|]. split; [lia|].
      intros q. rewrite lookup_delete_is_Some, Htr. set_solver.
    + exists ∅. rewrite size_empty. split; [lia|]. split; [done|]. intros q. rewrite Htr. set_solver.
Qed.
End scores.

(** * Witnesses *)

Section fetcher_witnesses.
#[local] Existing Instances toy_kad toy_xorname toy_bls hash_order_rev.

Definition ex_readings : Readings :=
  {| at_accumulate := 0; at_expire_pending := 0; at_enqueue := 0; at_expire_fetch := 0;
     at_expire_initial := 0; at_fetch := 0 |}.

Definition ex_list (holder : bytes) : FetcherOp :=
  FAddKeys ex_readings holder [(NA_RecordKey [5], VT_Chunk); (NA_RecordKey [200], VT_Chunk)] ∅ false
    [NA_PeerId [100]].

(** One unknown peer starts nothing; the second one does, for the key in range. *)
Lemma fetch_sources_justified_witness :
  (run_fops [ex_list [1]] (fetcher_new [])).1.1 = [] ∧
  let '(outs, reps, f) := run_fops [ex_list [1]; ex_list [2]] (fetcher_new []) in
  length outs = 1%nat ∧ ∀ h k, (h, k) ∈ outs → ∃ t, justified reps k t h.
Proof.
  split; [vm_compute; reflexivity|].
  destruct (run_fops [ex_list [1]; ex_list [2]] (fetcher_new [])) as [[outs reps] f] eqn:E.
  split; [|exact (proj1 (fetch_sources_justified [] _ _ _ _ E))].
  change outs with (outs, reps, f).1.1. rewrite <- E. vm_compute. reflexivity.
Defined.

(** The state after the first report; the second one queues the key from both peers. *)
Definition ex_fetcher : ReplicationFetcher := (run_fop (ex_list [1]) (fetcher_new [])).2.

Lemma add_keys_queues_in_range_witness :
  ∃ p, is_Some (rf_to_be_fetched
    (add_keys ex_readings [2] [(NA_RecordKey [5], VT_Chunk); (NA_RecordKey [200], VT_Chunk)] ∅ false
      [NA_PeerId [100]] ex_fetcher).1.2 !! ([5], VT_Chunk, p)) ∧
    ∃ addr, to_record_key addr = [5] ∧ ∃ peer, peer ∈ [NA_PeerId [100]; rf_self_address ex_fetcher] ∧
      distance (rf_self_address ex_fetcher) (NA_RecordKey [5]) ≤ distance (rf_self_address ex_fetcher) peer.
Proof.
  assert (∃ p, is_Some (rf_to_be_fetched
    (add_keys ex_readings [2] [(NA_RecordKey [5], VT_Chunk); (NA_RecordKey [200], VT_Chunk)] ∅ false
      [NA_PeerId [100]] ex_fetcher).1.2 !! ([5], VT_Chunk, p))) as [p Hp].
  { first [exists [1]; vm_compute; eexists; reflexivity | exists [2]; vm_compute; eexists; reflexivity]. }
  exists p. split; [exact Hp|].
  destruct (add_keys_queues_in_range ex_readings [2] [(NA_RecordKey [5], VT_Chunk); (NA_RecordKey [200], VT_Chunk)]
    ∅ [NA_PeerId [100]] ex_fetcher [5] VT_Chunk p Hp eq_refl) as (_ & addr & Ha & _ & _ & peer & Hpeer & Hd).
  exists addr. split; [exact Ha|]. exists peer. split; [exact Hpeer|exact Hd].
Defined.

Lemma farthest_limit_shrinks_witness :
  ∃ d', rf_farthest_acceptable_distance (set_farthest_on_full (Some [9]) (fetcher_new [])) = Some d' ∧ d' ≤ 9.
Proof.
  destruct (farthest_limit_shrinks [9] (fetcher_new []) ltac:(discriminate)) as (d' & Hd & Hle & _).
  exists d'. split; [exact Hd|exact Hle].
Defined.

Lemma peer_trust_is_last_two_witness :
  is_peer_trustworthy [1] (add_peer_scores (λ _, 0) [] [([1], false); ([2], true); ([1], true); ([1], true)]
    (fetcher_new [])) = Some true.
Proof.
  etrans; [refine (proj1 (peer_trust_is_last_two (λ _, 0) [] [([1], false); ([2], true); ([1], true); ([1], true)]
    (fetcher_new []) [1] _) _)|reflexivity].
  - intros p. unfold window. simpl. rewrite lookup_empty. simpl. lia.
  - vm_compute. eexists. reflexivity.
Defined.
End fetcher_witnesses.
