(* ===== verification/MerkleTree.v ===== *)
(** * Merkle trees of batch payments

    Models src/ant-evm/src/merkle_payments/merkle_tree.rs: the tree over the content addresses of a
    batch, the reward candidates at its middle level, the branches that prove an address or a
    midpoint, and the check a node makes of a branch against the contract's data. The crate
    ant_merkle is the parameter [AntMerkle]; its laws say what a Merkle tree over [2^d] leaves is:
    its levels, its sibling paths, and that verification recomputes the root along the path. The
    random salts and padding are arguments. *)

From stdpp Require Import base gmap strings countable list.
From Stdlib Require Import ZArith Lia.
From S2P Require Import Prelude Protocol RecordCache.

(** tiny_keccak's SHA3-256 and alloy's Keccak-256. *)
Class Digests := {
  sha3_256 : bytes → bytes;
  keccak256 : bytes → bytes;
}.

Definition MAX_MERKLE_DEPTH : Z := 8.
Definition MIN_LEAVES : Z := 2.
Definition MAX_LEAVES : Z := Z.shiftl 1 MAX_MERKLE_DEPTH.
Definition MERKLE_PAYMENT_EXPIRATION : Z := 7 * 24 * 60 * 60.

(** [depth.div_ceil(2)]. *)
Definition midpoint_proof_depth (depth : Z) : Z := (depth + 1) / 2.

Definition midpoint_level (depth : Z) : Z := depth / 2.

Definition expected_reward_pools (depth : Z) : Z := Z.shiftl 1 (midpoint_proof_depth depth).

(** The loop of [tree_depth]: the number of shifts until zero. *)
Fixpoint depth_loop (fuel : nat) (depth n : Z) : option Z :=
  if n <=? 0 then Some depth else
  match fuel with
  | O => None
  | S fuel' => depth_loop fuel' (depth + 1) (Z.shiftr n 1)
  end.

(** A [usize] has 64 bits, so 64 iterations are enough. *)
Definition tree_depth (leaf_count : Z) : Z :=
  if leaf_count <=? 1 then 0 else default 0 (depth_loop 64 0 (leaf_count - 1)).

Inductive MerkleTreeError :=
  | TooFewLeaves (got : Z)
  | TooManyLeaves (got : Z)
  | InvalidLeafIndex (index leaf_count : Z)
  | InvalidMidpointIndex (index midpoint_count : Z)
  | MerkleInternal.

Inductive BadMerkleProof :=
  | InvalidAddressBranchProof
  | InvalidWinnerBranchProof
  | AddressProofDepthMismatch (expected got : Z)
  | WinnerProofDepthMismatch (expected got : Z)
  | AddressBranchRootMismatch (smart_contract_root branch_root : bytes)
  | WinnerBranchRootMismatch (smart_contract_root branch_root : bytes)
  | TimestampInFuture (payment_timestamp current_time : Z)
  | PaymentExpired (payment_timestamp current_time age_seconds : Z)
  | SystemTimeError
  | TimestampMismatch (pool_timestamp contract_timestamp : Z)
  | AddressHashNotBranchLeaf (leaf address : bytes).

Section hasher.
Context `{Digests}.

(** [Sha3Hasher::concat_and_hash]. *)
Definition concat_and_hash (left : bytes) (right : option bytes) : bytes :=
  match right with
  | Some r => sha3_256 (left ++ r)
  | None => sha3_256 left
  end.

(** What a Merkle tree over [2^d] leaves is. *)

Fixpoint pair_up (l : list bytes) : list bytes :=
  match l with
  | a :: b :: l' => concat_and_hash a (Some b) :: pair_up l'
  | _ => []
  end.

Fixpoint level_nodes (k : nat) (leaves : list bytes) : list bytes :=
  match k with
  | O => leaves
  | S k' => level_nodes k' (pair_up leaves)
  end.

(** The siblings on the way from a node to the top of [d] levels. *)
Fixpoint sibling_path (d : nat) (i : nat) (l : list bytes) : list bytes :=
  match d with
  | O => []
  | S d' => default [] (l !! (if Nat.even i then S i else Nat.pred i)) :: sibling_path d' (Nat.div2 i) (pair_up l)
  end.

(** The root recomputed from a node and its siblings. *)
Fixpoint path_root (path : list bytes) (i : nat) (h : bytes) : bytes :=
  match path with
  | [] => h
  | s :: path' =>
    path_root path' (Nat.div2 i)
      (if Nat.even i then concat_and_hash h (Some s) else concat_and_hash s (Some h))
  end.
End hasher.

(** ant_merkle, with the hasher above. *)
Class AntMerkle `{Digests} := {
  InnerTree : Type;
  inner_from_leaves : list bytes → InnerTree;
  inner_root : InnerTree → option bytes;
  inner_proof : InnerTree → list Z → list bytes;
  inner_nodes_at_level : InnerTree → Z → option (list (Z * bytes));
  inner_proof_from_node : InnerTree → Z → Z → option (list bytes);
  merkle_proof_verify : list bytes → bytes → list Z → list bytes → Z → bool;
}.

Class AntMerkleLaws `{AntMerkle} : Prop := {
  inner_root_spec : ∀ (d : nat) leaves, length leaves = (2 ^ d)%nat →
    inner_root (inner_from_leaves leaves) = head (level_nodes d leaves);
  inner_proof_spec : ∀ (d : nat) leaves (i : nat), length leaves = (2 ^ d)%nat → (i < 2 ^ d)%nat →
    inner_proof (inner_from_leaves leaves) [Z.of_nat i] = sibling_path d i leaves;
  inner_nodes_spec : ∀ (d k : nat) leaves, length leaves = (2 ^ d)%nat → (k ≤ d)%nat →
    inner_nodes_at_level (inner_from_leaves leaves) (Z.of_nat k) =
      Some (imap (λ i h, (Z.of_nat i, h)) (level_nodes k leaves));
  inner_proof_from_node_spec : ∀ (d k : nat) leaves (i : nat),
    length leaves = (2 ^ d)%nat → (k ≤ d)%nat → (i < 2 ^ (d - k))%nat →
    inner_proof_from_node (inner_from_leaves leaves) (Z.of_nat k) (Z.of_nat i) =
      Some (sibling_path (d - k) i (level_nodes k leaves));
  merkle_verify_spec : ∀ (path : list bytes) root (i : nat) h, (i < 2 ^ length path)%nat →
    merkle_proof_verify path root [Z.of_nat i] [h] (2 ^ Z.of_nat (length path)) =
      bool_decide (path_root path i h = root);
}.

(** A branch from a leaf or a midpoint to the root. *)
Record MerkleBranch := {
  mb_proof_hashes : list bytes;
  mb_leaf_index : Z;
  mb_total_leaves_count : Z;
  mb_unsalted_leaf_hash : bytes;
  mb_root : bytes;
  mb_salt : option bytes;
}.

Record MidpointProof := {
  mp_branch : MerkleBranch;
  mp_merkle_payment_timestamp : Z;
}.

#[global] Instance MerkleBranch_eq_dec : EqDecision MerkleBranch.
Proof. solve_decision. Defined.
#[global] Instance MidpointProof_eq_dec : EqDecision MidpointProof.
Proof. solve_decision. Defined.

Section tree.
Context `{XorNameLib, AntMerkle}.

Record MerkleTree := {
  mt_inner : InnerTree;
  mt_leaf_count : Z;
  mt_depth : Z;
  mt_root : bytes;
  mt_salts : list bytes;
}.

(** [hash(address || salt)]. *)
Definition salted_leaf (address salt : bytes) : bytes := sha3_256 (address ++ salt).

(** [MerkleTree::from_xornames]: [salt i] is the salt drawn for leaf [i], [dummy i] the random
    padding leaf at [i]. *)
Definition from_xornames (salt dummy : Z → bytes) (leaves : list bytes) : result MerkleTree MerkleTreeError :=
  let leaf_count := Z.of_nat (length leaves) in
  if leaf_count <? MIN_LEAVES then Err (TooFewLeaves leaf_count)
  else if MAX_LEAVES <? leaf_count then Err (TooManyLeaves leaf_count)
  else
    let salts := salt <$> seqZ 0 leaf_count in
    let depth := tree_depth leaf_count in
    let padded_size := Z.shiftl 1 depth in
    let salted_leaves := zip_with salted_leaf leaves salts ++
                         (dummy <$> seqZ leaf_count (padded_size - leaf_count)) in
    let inner := inner_from_leaves salted_leaves in
    match inner_root inner with
    | None => Err MerkleInternal
    | Some root =>
      Ok {| mt_inner := inner; mt_leaf_count := leaf_count; mt_depth := depth; mt_root := root;
            mt_salts := salts |}
    end.

(** [MerkleTree::midpoints]: the nodes at the midpoint level, with their indices. *)
Definition midpoints (t : MerkleTree) : result (list (Z * bytes)) MerkleTreeError :=
  ok_or (inner_nodes_at_level (mt_inner t) (midpoint_level (mt_depth t))) MerkleInternal.

Definition generate_midpoint_proof (t : MerkleTree) (midpoint_index : Z) (midpoint_hash : bytes)
    : result MerkleBranch MerkleTreeError :=
  let level := midpoint_level (mt_depth t) in
  let midpoint_count := expected_reward_pools (mt_depth t) in
  if midpoint_count <=? midpoint_index then Err (InvalidMidpointIndex midpoint_index midpoint_count)
  else
    (let? proof := ok_or (inner_proof_from_node (mt_inner t) level midpoint_index) MerkleInternal in
     Ok {| mb_proof_hashes := proof; mb_leaf_index := midpoint_index;
           mb_total_leaves_count := midpoint_count; mb_unsalted_leaf_hash := midpoint_hash;
           mb_root := mt_root t; mb_salt := None |})%rust.

(** Collects results, stopping at the first error. *)
Fixpoint collect {A E} (l : list (result A E)) : result (list A) E :=
  match l with
  | [] => Ok []
  | r :: l' => (let? x := r in let? xs := collect l' in Ok (x :: xs))%rust
  end.

Definition reward_candidates (t : MerkleTree) (merkle_payment_timestamp : Z)
    : result (list MidpointProof) MerkleTreeError :=
  (let? ms := midpoints t in
   collect ((λ m, let? branch := generate_midpoint_proof t m.1 m.2 in
                  Ok {| mp_branch := branch; mp_merkle_payment_timestamp := merkle_payment_timestamp |}) <$> ms))%rust.

(** [self.salts[address_index]] is in range: there is a salt per leaf. *)
Definition generate_address_proof (t : MerkleTree) (address_index : Z) (address_hash : bytes)
    : result MerkleBranch MerkleTreeError :=
  if mt_leaf_count t <=? address_index then Err (InvalidLeafIndex address_index (mt_leaf_count t))
  else
    Ok {| mb_proof_hashes := inner_proof (mt_inner t) [address_index]; mb_leaf_index := address_index;
          mb_total_leaves_count := Z.shiftl 1 (mt_depth t); mb_unsalted_leaf_hash := address_hash;
          mb_root := mt_root t; mb_salt := mt_salts t !! Z.to_nat address_index |}.

(** ** Verification *)

Definition branch_depth (b : MerkleBranch) : Z := Z.of_nat (length (mb_proof_hashes b)).

Definition branch_verify (b : MerkleBranch) : bool :=
  let hash := match mb_salt b with
              | Some salt => salted_leaf (mb_unsalted_leaf_hash b) salt
              | None => mb_unsalted_leaf_hash b
              end in
  merkle_proof_verify (mb_proof_hashes b) (mb_root b) [mb_leaf_index b] [hash] (mb_total_leaves_count b).

(** [MidpointProof::address]. *)
Definition midpoint_address (m : MidpointProof) : bytes :=
  xorname_from_content (mb_unsalted_leaf_hash (mp_branch m) ++ mb_root (mp_branch m) ++
                        to_le_bytes 8 (mp_merkle_payment_timestamp m)).

(** [MidpointProof::hash]. *)
Definition midpoint_hash_bytes (m : MidpointProof) : bytes :=
  let b := mp_branch m in
  mjoin (mb_proof_hashes b) ++ to_le_bytes 8 (mb_leaf_index b) ++ to_le_bytes 8 (mb_total_leaves_count b) ++
  mb_unsalted_leaf_hash b ++ mb_root b ++
  match mb_salt b with Some salt => 1 :: salt | None => [0] end ++
  to_le_bytes 8 (mp_merkle_payment_timestamp m).

Definition midpoint_hash (m : MidpointProof) : bytes := sha3_256 (midpoint_hash_bytes m).

(** [now] is [SystemTime::now()] in seconds since the epoch; [None] is a clock before the epoch. *)
Definition validate_payment_timestamp (now : option Z) (payment_timestamp pool_timestamp : Z)
    : result unit BadMerkleProof :=
  (let? current_time := ok_or now SystemTimeError in
   if current_time <? payment_timestamp then Err (TimestampInFuture payment_timestamp current_time)
   else
     let age := current_time - payment_timestamp in
     if MERKLE_PAYMENT_EXPIRATION <? age then Err (PaymentExpired payment_timestamp current_time age)
     else if negb (pool_timestamp =? payment_timestamp) then
       Err (TimestampMismatch pool_timestamp payment_timestamp)
     else Ok tt)%rust.

Definition verify_merkle_proof (now : option Z) (address_hash : bytes) (address_branch : MerkleBranch)
    (winner_pool_midpoint_proof : MidpointProof) (smart_contract_depth : Z) (smart_contract_root : bytes)
    (smart_contract_timestamp : Z) : result unit BadMerkleProof :=
  let winner_branch := mp_branch winner_pool_midpoint_proof in
  (let? _ := validate_payment_timestamp now smart_contract_timestamp
               (mp_merkle_payment_timestamp winner_pool_midpoint_proof) in
   if negb (branch_depth address_branch =? smart_contract_depth) then
     Err (AddressProofDepthMismatch smart_contract_depth (branch_depth address_branch))
   else if negb (branch_depth winner_branch =? midpoint_proof_depth smart_contract_depth) then
     Err (WinnerProofDepthMismatch (midpoint_proof_depth smart_contract_depth) (branch_depth winner_branch))
   else if negb (branch_verify address_branch) then Err InvalidAddressBranchProof
   else if negb (branch_verify winner_branch) then Err InvalidWinnerBranchProof
   else if bool_decide (address_hash ≠ mb_unsalted_leaf_hash address_branch) then
     Err (AddressHashNotBranchLeaf (mb_unsalted_leaf_hash address_branch) address_hash)
   else if bool_decide (mb_root address_branch ≠ smart_contract_root) then
     Err (AddressBranchRootMismatch smart_contract_root (mb_root address_branch))
   else if bool_decide (mb_root winner_branch ≠ smart_contract_root) then
     Err (WinnerBranchRootMismatch smart_contract_root (mb_root winner_branch))
   else Ok tt)%rust.
End tree.
