(* ===== verification/MerkleTreeProps.v ===== *)
(** * Properties of Merkle trees

    Of the model in MerkleTree: the depth is the rounded-up logarithm, every proof a client makes
    from its tree is accepted, and an accepted branch proves that its leaf is in the tree. *)

From stdpp Require Import base gmap strings countable list.
From Stdlib Require Import ZArith Lia.
From S2P Require Import Prelude Protocol RecordCache MerkleTree.

#[local] Arguments Nat.div : simpl never.

(** ** Depth *)

Lemma depth_loop_spec fuel depth n :
  0 ≤ n < 2 ^ Z.of_nat fuel →
  depth_loop fuel depth n = Some (depth + if n =? 0 then 0 else Z.log2 n + 1).
Proof.
  revert depth n. induction fuel as [|fuel IH]; intros depth n Hn; simpl.
  - assert (n = 0) as -> by (simpl in Hn; lia). simpl. f_equal. lia.
  - destruct (Z.leb_spec n 0) as [|Hpos].
    { assert (n = 0) as -> by lia. simpl. f_equal. lia. }
    rewrite Nat2Z.inj_succ, Z.pow_succ_r in Hn by lia.
    rewrite Z.shiftr_div_pow2 by lia. change (2 ^ 1) with 2.
    rewrite IH by (split; [apply Z.div_pos; lia|apply Z.div_lt_upper_bound; lia]).
    f_equal. destruct (Z.eqb_spec n 0); [lia|].
    destruct (Z.eqb_spec (n / 2) 0) as [E|E].
    + assert (n = 1) as -> by (apply Z.div_small_iff in E; lia). simpl. lia.
    + assert (Z.log2 n = Z.succ (Z.log2 (n / 2))) as ->; [|lia].
      rewrite <- Z.shiftr_div_pow2 with (n := 1) in * by lia. rewrite Z.log2_shiftr by lia.
      assert (0 < Z.log2 n) by (apply Z.log2_pos; destruct (decide (n = 1)) as [->|]; [done|lia]). lia.
Qed.

Lemma tree_depth_log2_up n : 1 ≤ n < 2 ^ 64 → tree_depth n = Z.log2_up n.
Proof.
  intros Hn. unfold tree_depth. destruct (Z.leb_spec n 1) as [|Hgt].
  { assert (n = 1) as -> by lia. done. }
  rewrite depth_loop_spec by (change (Z.of_nat 64) with 64; lia). simpl.
  destruct (Z.eqb_spec (n - 1) 0); [lia|]. unfold Z.log2_up.
  destruct (Z.compare_spec 1 n); [lia| |lia]. rewrite <- Z.sub_1_r. lia.
Qed.

(** The depth of a tree is the logarithm of the number of leaves, rounded up: the padded tree
    has room for every leaf and less than twice as many. *)
Theorem tree_depth_spec n :
  1 ≤ n < 2 ^ 64 →
  tree_depth n = Z.log2_up n ∧ n ≤ 2 ^ tree_depth n ∧ (1 < n → 2 ^ (tree_depth n - 1) < n).
Proof.
  intros Hn. rewrite tree_depth_log2_up by done. split; [done|].
  destruct (decide (n = 1)) as [->|Hne]; [done|].
  pose proof (Z.log2_up_spec n ltac:(lia)) as [Hlo Hhi]. rewrite <- Z.sub_1_r in Hlo. done.
Qed.

(** ** The levels of a tree *)

Section levels.
Context `{Digests}.

Lemma pair_up_length l : length (pair_up l) = Nat.div2 (length l).
Proof.
  revert l. fix IH 1. intros [|a [|b l]]; [done..|]. simpl. f_equal. apply IH.
Qed.

Lemma pair_up_length_pow l d : length l = (2 ^ S d)%nat → length (pair_up l) = (2 ^ d)%nat.
Proof. intros Hl. rewrite pair_up_length, Hl, Nat.pow_succ_r'. apply Nat.div2_double. Qed.

Lemma pair_up_lookup l j a b :
  l !! (2 * j)%nat = Some a → l !! S (2 * j) = Some b → pair_up l !! j = Some (concat_and_hash a (Some b)).
Proof.
  revert l. induction j as [|j IH]; intros [|x [|y l]]; simpl; try done; [congruence|].
  replace (j + S (j + 0))%nat with (S (2 * j))%nat by lia. simpl. apply IH.
Qed.

Lemma level_nodes_app a b l : level_nodes (a + b) l = level_nodes b (level_nodes a l).
Proof. revert l. induction a as [|a IH]; intros l; [done|]. simpl. apply IH. Qed.

Lemma level_nodes_length k d l : length l = (2 ^ (k + d))%nat → length (level_nodes k l) = (2 ^ d)%nat.
Proof. revert l. induction k as [|k IH]; intros l Hl; [done|]. simpl. apply IH. by apply pair_up_length_pow. Qed.

Lemma div2_lt_pow i d : (i < 2 ^ S d)%nat → (Nat.div2 i < 2 ^ d)%nat.
Proof. intros Hi. rewrite Nat.div2_div. apply Nat.Div0.div_lt_upper_bound. simpl in Hi. lia. Qed.

(** The node above [i]: the hash of [i] and its sibling, in their order. *)
Lemma parent_lookup l d i h :
  length l = (2 ^ S d)%nat → l !! i = Some h →
  ∃ s, l !! (if Nat.even i then S i else Nat.pred i) = Some s ∧
    pair_up l !! Nat.div2 i =
      Some (if Nat.even i then concat_and_hash h (Some s) else concat_and_hash s (Some h)).
Proof.
  intros Hl Hi. pose proof (lookup_lt_Some _ _ _ Hi) as Hlt. rewrite Hl in Hlt.
  pose proof (div2_lt_pow i d Hlt) as Hd.
  pose proof (Nat.div2_odd i) as Ho. rewrite <- Nat.negb_even in Ho.
  destruct (Nat.even i); simpl in Ho.
  - destruct (lookup_lt_is_Some_2 l (S i)) as [s Hs]; [rewrite Hl; simpl; lia|].
    exists s. split; [done|]. apply pair_up_lookup; [by replace (2 * Nat.div2 i)%nat with i by lia|].
    by replace (S (2 * Nat.div2 i)) with (S i) by lia.
  - destruct (lookup_lt_is_Some_2 l (Nat.pred i)) as [s Hs]; [rewrite Hl; lia|].
    exists s. split; [done|]. apply pair_up_lookup; [by replace (2 * Nat.div2 i)%nat with (Nat.pred i) by lia|].
    by replace (S (2 * Nat.div2 i)) with i by lia.
Qed.

Lemma sibling_path_length d i l : length (sibling_path d i l) = d.
Proof. revert i l. induction d as [|d IH]; intros i l; [done|]. simpl. by rewrite IH. Qed.

(** Recomputing the root along a node's siblings gives the root of the tree. *)
Lemma path_root_complete d l i h :
  length l = (2 ^ d)%nat → l !! i = Some h →
  head (level_nodes d l) = Some (path_root (sibling_path d i l) i h).
Proof.
  revert l i h. induction d as [|d IH]; intros l i h Hl Hi; simpl.
  - destruct l as [|x [|y l]]; try done. by destruct i; simpl in *; [congruence|].
  - destruct (parent_lookup l d i h Hl Hi) as (s & Hs & Hp). rewrite Hs. simpl.
    apply IH; [by apply pair_up_length_pow|done].
Qed.

(** The inputs hashed in a tree, and along a path. *)
Fixpoint pair_inputs (l : list bytes) : list bytes :=
  match l with
  | a :: b :: l' => (a ++ b) :: pair_inputs l'
  | _ => []
  end.

Fixpoint tree_inputs (d : nat) (l : list bytes) : list bytes :=
  match d with
  | O => []
  | S d' => pair_inputs l ++ tree_inputs d' (pair_up l)
  end.

Fixpoint path_inputs (path : list bytes) (i : nat) (h : bytes) : list bytes :=
  match path with
  | [] => []
  | s :: path' =>
    (if Nat.even i then h ++ s else s ++ h) ::
    path_inputs path' (Nat.div2 i) (if Nat.even i then concat_and_hash h (Some s) else concat_and_hash s (Some h))
  end.

(** No two of the inputs have the same hash. *)
Definition collision_free (inputs : list bytes) : Prop :=
  ∀ x y, x ∈ inputs → y ∈ inputs → sha3_256 x = sha3_256 y → x = y.

Lemma pair_inputs_lookup l j a b :
  l !! (2 * j)%nat = Some a → l !! S (2 * j) = Some b → a ++ b ∈ pair_inputs l.
Proof.
  revert l. induction j as [|j IH]; intros [|x [|y l]]; simpl; try done.
  - intros [= ->] [= ->]. by left.
  - replace (j + S (j + 0))%nat with (S (2 * j))%nat by lia. simpl. intros. right. by apply IH.
Qed.

Lemma pair_up_elem x l : x ∈ pair_up l → ∃ y, x = sha3_256 y.
Proof.
  revert l. fix IH 1. intros [|a [|b l]]; simpl; [by intros ?%elem_of_nil..|].
  intros [E|Hx]%elem_of_cons; [exists (a ++ b); exact E|exact (IH l Hx)].
Qed.

(** A path that recomputes the root of a tree of its height starts at the tree's node: the value at
    its index is the value of the path. *)
Lemma path_root_sound d path l i h x :
  (∀ y, length (sha3_256 y) = 32%nat) → Forall (λ y, length y = 32%nat) (x :: h :: path ++ l) →
  length path = d → length l = (2 ^ d)%nat → l !! i = Some x →
  collision_free (tree_inputs d l ++ path_inputs path i h) →
  head (level_nodes d l) = Some (path_root path i h) → h = x.
Proof.
  intros H32. revert path l i h x.
  induction d as [|d IH]; intros path l i h x H32s Hp Hl Hi Hcf; simpl.
  - destruct path; [|done]. destruct l as [|y [|z l]]; try done.
    intros [= ->]. destruct i; simpl in Hi; [congruence|done].
  - destruct path as [|s path]; [done|]. simpl in *. intros Hroot.
    destruct (parent_lookup l d i x Hl Hi) as (s' & Hs' & Hpar).
    inversion_clear H32s as [|? ? Hx H32s']. inversion_clear H32s' as [|? ? Hh H32s].
    inversion_clear H32s as [|? ? Hs H32s']. apply Forall_app in H32s' as [Hpath Hls].
    assert (length s' = 32%nat) as Hs'32 by (rewrite Forall_forall in Hls; apply Hls; by eapply list_elem_of_lookup_2).
    pose proof (pair_up_length_pow l d Hl) as Hl'.
    assert ((if Nat.even i then sha3_256 (h ++ s) else sha3_256 (s ++ h)) =
            (if Nat.even i then sha3_256 (x ++ s') else sha3_256 (s' ++ x))) as Heq.
    { apply (IH path (pair_up l) (Nat.div2 i)); [|lia|done|exact Hpar| |exact Hroot].
      - constructor; [by destruct (Nat.even i); apply H32|]. constructor; [by destruct (Nat.even i); apply H32|].
        apply Forall_app. split; [done|]. apply Forall_forall. intros y [z ->]%pair_up_elem. apply H32.
      - intros y z Hy Hz. apply Hcf; set_solver. }
    assert (∀ a b c e, a ++ b ∈ path_inputs (s :: path) i h → c ++ e ∈ pair_inputs l → length a = length c →
        sha3_256 (a ++ b) = sha3_256 (c ++ e) → a = c ∧ b = e) as Hinj.
    { intros a b c e Hab Hce Hlen E. apply app_inj_1; [done|]. apply Hcf; [set_solver..|done]. }
    pose proof (Nat.div2_odd i) as Ho. rewrite <- Nat.negb_even in Ho.
    simpl in Hinj. destruct (Nat.even i); simpl in Ho.
    + apply (Hinj h s x s'); [by left| |congruence|done].
      apply (pair_inputs_lookup l (Nat.div2 i)); [by replace (2 * Nat.div2 i)%nat with i by lia|].
      by replace (S (2 * Nat.div2 i)) with (S i) by lia.
    + apply (Hinj s h s' x); [by left| |congruence|done].
      apply (pair_inputs_lookup l (Nat.div2 i)); [by replace (2 * Nat.div2 i)%nat with (Nat.pred i) by lia|].
      by replace (S (2 * Nat.div2 i)) with i by lia.
Qed.
End levels.

(** ** Trees built from a batch *)

Section batch.
Context `{XorNameLib, AntMerkleLaws}.

(** The leaves of the inner tree: the salted addresses, then the padding. *)
Definition tree_leaves (salt dummy : Z → bytes) (leaves : list bytes) : list bytes :=
  let n := Z.of_nat (length leaves) in
  zip_with salted_leaf leaves (salt <$> seqZ 0 n) ++ (dummy <$> seqZ n (Z.shiftl 1 (tree_depth n) - n)).

Definition batch_sized (leaves : list bytes) : Prop :=
  MIN_LEAVES ≤ Z.of_nat (length leaves) ≤ MAX_LEAVES.

(** The depth of a batch's tree, as a natural number. *)
Definition batch_depth (leaves : list bytes) : nat := Z.to_nat (tree_depth (Z.of_nat (length leaves))).

Lemma batch_depth_spec leaves :
  batch_sized leaves →
  tree_depth (Z.of_nat (length leaves)) = Z.of_nat (batch_depth leaves) ∧
  (length leaves ≤ 2 ^ batch_depth leaves)%nat.
Proof.
  unfold batch_sized, batch_depth, MIN_LEAVES, MAX_LEAVES, MAX_MERKLE_DEPTH. change (Z.shiftl 1 8) with 256.
  intros Hn. rewrite tree_depth_log2_up by lia.
  pose proof (Z.log2_up_nonneg (Z.of_nat (length leaves))).
  pose proof (Z.log2_up_spec (Z.of_nat (length leaves)) ltac:(lia)) as [_ Hhi].
  split; [lia|]. apply Nat2Z.inj_le. rewrite Nat2Z.inj_pow, Z2Nat.id by lia. done.
Qed.

Lemma shiftl_pow d : Z.shiftl 1 (Z.of_nat d) = Z.of_nat (2 ^ d)%nat.
Proof. rewrite Z.shiftl_1_l, Nat2Z.inj_pow. done. Qed.

Lemma tree_leaves_length salt dummy leaves :
  batch_sized leaves → length (tree_leaves salt dummy leaves) = (2 ^ batch_depth leaves)%nat.
Proof.
  intros Hn. destruct (batch_depth_spec leaves Hn) as [Hd Hle]. unfold tree_leaves.
  rewrite Hd, shiftl_pow, length_app, length_zip_with, !length_fmap, !length_seqZ. lia.
Qed.

Lemma tree_leaves_lookup salt dummy leaves i addr :
  leaves !! i = Some addr → tree_leaves salt dummy leaves !! i = Some (salted_leaf addr (salt (Z.of_nat i))).
Proof.
  intros Hi. pose proof (lookup_lt_Some _ _ _ Hi) as Hlt. unfold tree_leaves.
  rewrite lookup_app_l by (rewrite length_zip_with, length_fmap, length_seqZ; lia).
  rewrite lookup_zip_with, Hi. simpl. rewrite list_lookup_fmap, lookup_seqZ_lt by lia. simpl.
  by rewrite Z.add_0_l.
Qed.

Lemma level_nodes_head d l : length l = (2 ^ d)%nat → is_Some (head (level_nodes d l)).
Proof.
  intros Hl. assert (length (level_nodes d l) = 1%nat) as Hone
    by (rewrite (level_nodes_length d 0) by (by rewrite Nat.add_0_r); done).
  destruct (level_nodes d l); [done|by eexists].
Qed.

(** A batch of an allowed size gives a tree with this root and depth. *)
Lemma from_xornames_ok salt dummy leaves :
  batch_sized leaves →
  ∃ root, head (level_nodes (batch_depth leaves) (tree_leaves salt dummy leaves)) = Some root ∧
    from_xornames salt dummy leaves =
      Ok {| mt_inner := inner_from_leaves (tree_leaves salt dummy leaves);
            mt_leaf_count := Z.of_nat (length leaves); mt_depth := Z.of_nat (batch_depth leaves);
            mt_root := root; mt_salts := salt <$> seqZ 0 (Z.of_nat (length leaves)) |}.
Proof.
  intros Hn. pose proof (tree_leaves_length salt dummy leaves Hn) as Hlen.
  destruct (level_nodes_head _ _ Hlen) as [root Hroot]. exists root. split; [done|].
  destruct (batch_depth_spec leaves Hn) as [Hd _]. unfold from_xornames, batch_sized in *.
  destruct (Z.ltb_spec (Z.of_nat (length leaves)) MIN_LEAVES); [lia|].
  destruct (Z.ltb_spec MAX_LEAVES (Z.of_nat (length leaves))); [lia|].
  fold (tree_leaves salt dummy leaves). rewrite (inner_root_spec _ _ Hlen), Hroot, Hd. done.
Qed.

Lemma branch_verify_unsalted path root (i : nat) leaf (n : Z) :
  (i < 2 ^ length path)%nat → n = 2 ^ Z.of_nat (length path) →
  branch_verify {| mb_proof_hashes := path; mb_leaf_index := Z.of_nat i; mb_total_leaves_count := n;
                   mb_unsalted_leaf_hash := leaf; mb_root := root; mb_salt := None |} =
  bool_decide (path_root path i leaf = root).
Proof. intros Hi ->. by apply merkle_verify_spec. Qed.

Lemma branch_verify_salted path root (i : nat) leaf salt (n : Z) :
  (i < 2 ^ length path)%nat → n = 2 ^ Z.of_nat (length path) →
  branch_verify {| mb_proof_hashes := path; mb_leaf_index := Z.of_nat i; mb_total_leaves_count := n;
                   mb_unsalted_leaf_hash := leaf; mb_root := root; mb_salt := Some salt |} =
  bool_decide (path_root path i (salted_leaf leaf salt) = root).
Proof. intros Hi ->. by apply merkle_verify_spec. Qed.

Lemma midpoint_level_split d :
  midpoint_level (Z.of_nat d) = Z.of_nat (Nat.div d 2) ∧
  midpoint_proof_depth (Z.of_nat d) = Z.of_nat (d - Nat.div d 2)%nat.
Proof.
  unfold midpoint_level, midpoint_proof_depth. rewrite Nat2Z.inj_sub by (apply Nat.Div0.div_le_upper_bound; lia).
  rewrite Nat2Z.inj_div. change (Z.of_nat 2) with 2. split; [done|].
  pose proof (Z.div_mod (Z.of_nat d) 2 ltac:(lia)). pose proof (Z.mod_pos_bound (Z.of_nat d) 2 ltac:(lia)).
  pose proof (Z.div_mod (Z.of_nat d + 1) 2 ltac:(lia)). pose proof (Z.mod_pos_bound (Z.of_nat d + 1) 2 ltac:(lia)). lia.
Qed.

Lemma collect_ok {A E} (l : list (result A E)) (xs : list A) :
  l = Ok <$> xs → collect l = Ok xs.
Proof. intros ->. induction xs as [|x xs IH]; [done|]. rewrite fmap_cons. cbn [collect]. by rewrite IH. Qed.

(** The tree of a batch. *)
Definition batch_tree (salt dummy : Z → bytes) (leaves : list bytes) (root : bytes) : MerkleTree :=
  {| mt_inner := inner_from_leaves (tree_leaves salt dummy leaves);
     mt_leaf_count := Z.of_nat (length leaves); mt_depth := Z.of_nat (batch_depth leaves);
     mt_root := root; mt_salts := salt <$> seqZ 0 (Z.of_nat (length leaves)) |}.

(** The branch of midpoint [i]. *)
Definition midpoint_branch (l : list bytes) (d : nat) (root : bytes) (i : nat) (h : bytes) : MerkleBranch :=
  let k := Nat.div d 2 in
  {| mb_proof_hashes := sibling_path (d - k) i (level_nodes k l); mb_leaf_index := Z.of_nat i;
     mb_total_leaves_count := expected_reward_pools (Z.of_nat d); mb_unsalted_leaf_hash := h;
     mb_root := root; mb_salt := None |}.

Lemma generate_midpoint_ok salt dummy leaves root i h :
  batch_sized leaves → let d := batch_depth leaves in let l := tree_leaves salt dummy leaves in
  (i < 2 ^ (d - Nat.div d 2))%nat →
  generate_midpoint_proof (batch_tree salt dummy leaves root) (Z.of_nat i) h = Ok (midpoint_branch l d root i h).
Proof.
  intros Hn d l Hi. unfold generate_midpoint_proof. cbn [mt_depth mt_inner mt_root batch_tree].
  destruct (midpoint_level_split d) as [Hlvl Hpd]. fold d l. rewrite Hlvl.
  unfold expected_reward_pools. rewrite Hpd, shiftl_pow.
  destruct (Z.leb_spec (Z.of_nat (2 ^ (d - Nat.div d 2))%nat) (Z.of_nat i)); [lia|].
  rewrite (inner_proof_from_node_spec d (Nat.div d 2) l i);
    [|by apply tree_leaves_length|apply Nat.Div0.div_le_upper_bound; lia|done].
  unfold midpoint_branch, expected_reward_pools. rewrite Hpd, shiftl_pow. done.
Qed.

Lemma reward_candidates_ok salt dummy leaves root ts :
  batch_sized leaves → let d := batch_depth leaves in let l := tree_leaves salt dummy leaves in
  reward_candidates (batch_tree salt dummy leaves root) ts =
  Ok (imap (λ i h, {| mp_branch := midpoint_branch l d root i h; mp_merkle_payment_timestamp := ts |})
        (level_nodes (Nat.div d 2) l)).
Proof.
  intros Hn d l. unfold reward_candidates, midpoints. cbn [mt_depth mt_inner batch_tree].
  destruct (midpoint_level_split d) as [Hlvl _]. fold d l. rewrite Hlvl.
  assert (Nat.div d 2 ≤ d)%nat as Hk by (apply Nat.Div0.div_le_upper_bound; lia).
  assert (length l = (2 ^ d)%nat) as Hlen by (by apply tree_leaves_length).
  rewrite (inner_nodes_spec d (Nat.div d 2) l Hlen Hk). simpl. apply collect_ok.
  apply list_eq. intros i. rewrite !list_lookup_fmap, !list_lookup_imap.
  destruct (level_nodes (Nat.div d 2) l !! i) as [h|] eqn:E; [|done]. simpl.
  apply lookup_lt_Some in E. rewrite (level_nodes_length (Nat.div d 2) (d - Nat.div d 2)) in E
    by (rewrite Hlen; f_equal; lia).
  by rewrite (generate_midpoint_ok salt dummy leaves root i h Hn E).
Qed.

Lemma midpoint_branch_ok d l root i h :
  length l = (2 ^ d)%nat → head (level_nodes d l) = Some root → level_nodes (Nat.div d 2) l !! i = Some h →
  branch_verify (midpoint_branch l d root i h) = true ∧
  branch_depth (midpoint_branch l d root i h) = midpoint_proof_depth (Z.of_nat d).
Proof.
  intros Hl Hroot Hh. destruct (midpoint_level_split d) as [_ Hpd].
  assert (Nat.div d 2 ≤ d)%nat as Hk by (apply Nat.Div0.div_le_upper_bound; lia).
  assert (length (level_nodes (Nat.div d 2) l) = (2 ^ (d - Nat.div d 2))%nat) as Hln
    by (apply level_nodes_length; rewrite Hl; f_equal; lia).
  unfold branch_depth. cbn [midpoint_branch mb_proof_hashes]. rewrite sibling_path_length, Hpd. split; [|done].
  unfold midpoint_branch. rewrite branch_verify_unsalted.
  - apply bool_decide_eq_true_2. apply (inj Some).
    rewrite <- (path_root_complete _ _ _ _ Hln Hh), <- Hroot. f_equal.
    rewrite <- level_nodes_app. f_equal. lia.
  - rewrite sibling_path_length, <- Hln. by apply lookup_lt_Some in Hh.
  - rewrite sibling_path_length. unfold expected_reward_pools. by rewrite Hpd, Z.shiftl_1_l.
Qed.

Lemma address_branch_ok salt dummy leaves root i addr :
  batch_sized leaves → head (level_nodes (batch_depth leaves) (tree_leaves salt dummy leaves)) = Some root →
  leaves !! i = Some addr →
  ∃ b, generate_address_proof (batch_tree salt dummy leaves root) (Z.of_nat i) addr = Ok b ∧
    branch_verify b = true ∧ branch_depth b = Z.of_nat (batch_depth leaves) ∧
    mb_unsalted_leaf_hash b = addr ∧ mb_root b = root.
Proof.
  intros Hn Hroot Hi. pose proof (lookup_lt_Some _ _ _ Hi) as Hlt.
  destruct (batch_depth_spec leaves Hn) as [_ Hle].
  pose proof (tree_leaves_length salt dummy leaves Hn) as Hlen.
  unfold generate_address_proof. cbn [mt_leaf_count batch_tree mt_inner mt_depth mt_root mt_salts].
  destruct (Z.leb_spec (Z.of_nat (length leaves)) (Z.of_nat i)); [lia|].
  eexists. split; [done|]. unfold branch_depth. cbn [mb_proof_hashes mb_unsalted_leaf_hash mb_root].
  rewrite (inner_proof_spec (batch_depth leaves) _ i Hlen) by lia. rewrite sibling_path_length.
  split; [|done]. rewrite Nat2Z.id, list_lookup_fmap, lookup_seqZ_lt by lia. simpl. rewrite Z.add_0_l.
  rewrite branch_verify_salted.
  - apply bool_decide_eq_true_2. apply (inj Some). rewrite <- Hroot. symmetry.
    apply path_root_complete; [done|]. by apply tree_leaves_lookup.
  - rewrite sibling_path_length. lia.
  - rewrite sibling_path_length. by rewrite Z.shiftl_1_l.
Qed.

(** C24: proofs made from a batch are accepted. For every batch of 2 to 256 addresses the tree and
    its reward candidates exist, there are as many candidates as the depth calls for, and for
    every address of the batch and every candidate the address's proof is made and passes the
    node's check against the tree's depth and root, up to a week after the payment. *)
Theorem batch_proofs_accepted salt dummy leaves ts :
  MIN_LEAVES ≤ Z.of_nat (length leaves) ≤ MAX_LEAVES →
  ∃ t cands, from_xornames salt dummy leaves = Ok t ∧ reward_candidates t ts = Ok cands ∧
    Z.of_nat (length cands) = expected_reward_pools (mt_depth t) ∧
    ∀ i addr m now, leaves !! i = Some addr → m ∈ cands → ts ≤ now ≤ ts + MERKLE_PAYMENT_EXPIRATION →
      ∃ b, generate_address_proof t (Z.of_nat i) addr = Ok b ∧
        verify_merkle_proof (Some now) addr b m (mt_depth t) (mt_root t) ts = Ok tt.
Proof.
  intros Hn. destruct (from_xornames_ok salt dummy leaves Hn) as (root & Hroot & Ht).
  fold (batch_tree salt dummy leaves root) in Ht. eexists _, _. split; [exact Ht|].
  split; [by apply reward_candidates_ok|].
  set (d := batch_depth leaves) in *. set (l := tree_leaves salt dummy leaves) in *.
  assert (length l = (2 ^ d)%nat) as Hlen by (by apply tree_leaves_length).
  split.
  { rewrite length_imap. cbn [mt_depth batch_tree]. fold d. unfold expected_reward_pools.
    destruct (midpoint_level_split d) as [_ ->]. rewrite shiftl_pow. f_equal.
    apply level_nodes_length. rewrite Hlen. f_equal.
    assert (Nat.div d 2 ≤ d)%nat by (apply Nat.Div0.div_le_upper_bound; lia). lia. }
  intros i addr m now Hi Hm Hnow.
  apply elem_of_lookup_imap in Hm as (j & h & -> & Hh).
  destruct (address_branch_ok salt dummy leaves root i addr Hn Hroot Hi) as (b & Hb & Hbv & Hbd & Hbl & Hbr).
  exists b. split; [done|].
  destruct (midpoint_branch_ok d l root j h Hlen Hroot Hh) as [Hmv Hmd].
  unfold verify_merkle_proof, validate_payment_timestamp. cbn [mp_branch mp_merkle_payment_timestamp batch_tree mt_depth mt_root ok_or].
  simpl rbind. destruct (Z.ltb_spec now ts); [lia|].
  destruct (Z.ltb_spec MERKLE_PAYMENT_EXPIRATION (now - ts)); [lia|]. rewrite Z.eqb_refl. simpl rbind.
  fold d. rewrite Hbd, Z.eqb_refl, Hmd, Z.eqb_refl, Hbv, Hmv, Hbl, Hbr. simpl.
  by rewrite !bool_decide_eq_false_2 by (by intros []).
Qed.

(** What the check of a proof establishes. *)
Lemma verify_merkle_proof_inv now addr b m depth root ts :
  verify_merkle_proof now addr b m depth root ts = Ok tt →
  (∃ t, now = Some t ∧ ts ≤ t ≤ ts + MERKLE_PAYMENT_EXPIRATION) ∧ mp_merkle_payment_timestamp m = ts ∧
  (branch_depth b = depth ∧ branch_verify b = true ∧ addr = mb_unsalted_leaf_hash b ∧ mb_root b = root) ∧
  branch_depth (mp_branch m) = midpoint_proof_depth depth ∧ branch_verify (mp_branch m) = true ∧
  mb_root (mp_branch m) = root.
Proof.
  unfold verify_merkle_proof, validate_payment_timestamp. intros Hok.
  destruct now as [t|]; [|done]. simpl in Hok.
  repeat case_match; try done; bool_to_prop; repeat match goal with H : ¬ (_ ≠ _) |- _ => apply dec_stable in H end.
  split; [exists t; split; [done|lia]|done].
Qed.

(** What a branch hashes: its leaf, with the salt if it has one. *)
Definition branch_hash (leaf : bytes) (salt : option bytes) : bytes :=
  match salt with Some salt => salted_leaf leaf salt | None => leaf end.

Lemma tree_leaves_padding salt dummy leaves i :
  batch_sized leaves → leaves !! i = None → (i < 2 ^ batch_depth leaves)%nat → tree_leaves salt dummy leaves !! i = Some (dummy (Z.of_nat i)).
Proof.
  intros Hn Hi Hlt. apply lookup_ge_None in Hi. destruct (batch_depth_spec leaves Hn) as [Hd Hle]. unfold tree_leaves.
  assert (length (zip_with salted_leaf leaves (salt <$> seqZ 0 (Z.of_nat (length leaves)))) = length leaves) as Hz
    by (rewrite length_zip_with, length_fmap, length_seqZ; lia).
  rewrite lookup_app_r, Hz by lia. rewrite list_lookup_fmap, lookup_seqZ_lt by (rewrite Hd, shiftl_pow; lia). simpl. do 2 f_equal. lia.
Qed.

(** What a leaf of the tree says of an accepted address, with or without a salt: the address and the salt of the batch
    at that place; or that the address, hashed with the salt or itself, is the leaf. *)
Definition leaf_proves (salt dummy : Z → bytes) (leaves : list bytes) (i : nat) (addr : bytes) (s : option bytes) : Prop :=
  match leaves !! i, s with
  | Some a, Some s =>
    length s = length (salt (Z.of_nat i)) → collision_free [addr ++ s; a ++ salt (Z.of_nat i)] → addr = a ∧ s = salt (Z.of_nat i)
  | Some a, None => addr = salted_leaf a (salt (Z.of_nat i))
  | None, Some s => salted_leaf addr s = dummy (Z.of_nat i)
  | None, None => addr = dummy (Z.of_nat i)
  end.

(** C25: an accepted address is in the batch, or is the hash of a leaf. If a node accepts a branch for an address against the
    depth and root of a batch's tree, and the branch names a leaf of a tree of that depth, then what it hashes is the
    tree's leaf at that index. So a branch with a salt, at an index of the batch, proves the address and the salt
    of the batch there; at an index of the padding, an address whose salted hash is the random padding. A branch without
    a salt, which the node accepts too, proves only an address that is itself a leaf: the hash of an address of
    the batch and its salt, or the padding. (SHA3 does not collide on the inputs hashed in the tree and along the branch.) *)
Theorem accepted_address_in_batch salt dummy leaves t now addr b m ts (i : nat) :
  MIN_LEAVES ≤ Z.of_nat (length leaves) ≤ MAX_LEAVES →
  (∀ y, length (sha3_256 y) = 32%nat) →
  Forall (λ y, length y = 32%nat) (mb_proof_hashes b ++ tree_leaves salt dummy leaves) →
  Forall (λ a, length a = 32%nat) leaves → length addr = 32%nat →
  from_xornames salt dummy leaves = Ok t →
  verify_merkle_proof now addr b m (mt_depth t) (mt_root t) ts = Ok tt →
  mb_leaf_index b = Z.of_nat i → (i < 2 ^ batch_depth leaves)%nat → mb_total_leaves_count b = 2 ^ mt_depth t →
  collision_free (tree_inputs (batch_depth leaves) (tree_leaves salt dummy leaves) ++ path_inputs (mb_proof_hashes b) i (branch_hash addr (mb_salt b))) →
  leaf_proves salt dummy leaves i addr (mb_salt b).
Proof.
  intros Hn H32 H32s Hls Haddr Ht Hv Hidx Hi Htot Hcf.
  destruct (from_xornames_ok salt dummy leaves Hn) as (root & Hroot & Ht').
  rewrite Ht in Ht'. injection Ht' as ->. cbn [mt_depth mt_root] in *.
  assert (branch_depth b = Z.of_nat (batch_depth leaves) ∧ branch_verify b = true ∧
          addr = mb_unsalted_leaf_hash b ∧ mb_root b = root) as (Hdep & Hbv & -> & Hbr)
    by (by apply verify_merkle_proof_inv in Hv as (_ & _ & ? & _)).
  assert (length (mb_proof_hashes b) = batch_depth leaves) as Hplen by (unfold branch_depth in Hdep; lia).
  set (h := branch_hash (mb_unsalted_leaf_hash b) (mb_salt b)) in *.
  assert (path_root (mb_proof_hashes b) i h = root) as Hpath.
  { revert Hbv. subst h. destruct b as [path li tot leaf rt sl].
    cbn [mb_proof_hashes mb_leaf_index mb_total_leaves_count mb_unsalted_leaf_hash mb_root mb_salt] in *. subst li rt.
    destruct sl as [sl|]; simpl; [rewrite branch_verify_salted|rewrite branch_verify_unsalted];
      try (by intros ?%bool_decide_eq_true); (by rewrite Hplen) || (by rewrite Htot, Hplen). }
  assert (length (tree_leaves salt dummy leaves) = (2 ^ batch_depth leaves)%nat) as Hlen by (by apply tree_leaves_length).
  destruct (lookup_lt_is_Some_2 (tree_leaves salt dummy leaves) i) as [x Hx]; [by rewrite Hlen|].
  assert (h = x) as Heq.
  { apply (path_root_sound (batch_depth leaves) (mb_proof_hashes b) (tree_leaves salt dummy leaves) i);
      [done| |done|done|done|done|by rewrite Hpath].
    constructor; [|constructor; [subst h; unfold branch_hash; destruct (mb_salt b); [apply H32|done]|done]].
    rewrite Forall_app in H32s. destruct H32s as [_ Hall]. rewrite Forall_forall in Hall. apply Hall. by eapply list_elem_of_lookup_2. }
  unfold leaf_proves. destruct (leaves !! i) as [a|] eqn:Ha.
  - rewrite (tree_leaves_lookup salt dummy leaves i a Ha) in Hx. injection Hx as <-. subst h. unfold branch_hash in Heq.
    destruct (mb_salt b) as [s|]; [|done]. intros Hs Hcf2. apply Hcf2 in Heq; [|by left|right; by left].
    apply app_inj_1 in Heq as [-> ->]; [done|]. rewrite Haddr. symmetry. rewrite Forall_forall in Hls. apply Hls. by eapply list_elem_of_lookup_2.
  - rewrite (tree_leaves_padding salt dummy leaves i Hn Ha Hi) in Hx. injection Hx as <-. by destruct (mb_salt b).
Qed.
End batch.

(** * Witnesses *)

(** A polynomial hash to 32 bytes. *)
Definition toy_digests : Digests :=
  let h (b : bytes) := to_le_bytes 32 (foldl (λ acc x, Z.land (acc * 257 + x) (Z.ones 256)) 7 b) in
  {| sha3_256 := h; keccak256 := h |}.

(** The tree itself, with its levels and paths computed. *)
Definition toy_ant_merkle : @AntMerkle toy_digests :=
  @Build_AntMerkle toy_digests (list bytes) (λ l, l)
    (λ l, head (@level_nodes toy_digests (Nat.log2 (length l)) l))
    (λ l idx, match idx with [i] => @sibling_path toy_digests (Nat.log2 (length l)) (Z.to_nat i) l | _ => [] end)
    (λ l k, Some (imap (λ i h, (Z.of_nat i, h)) (@level_nodes toy_digests (Z.to_nat k) l)))
    (λ l k i, Some (@sibling_path toy_digests (Nat.log2 (length l) - Z.to_nat k) (Z.to_nat i)
                      (@level_nodes toy_digests (Z.to_nat k) l)))
    (λ path root idx hs _,
       match idx, hs with
       | [i], [h] => bool_decide (@path_root toy_digests path (Z.to_nat i) h = root)
       | _, _ => false
       end).

Lemma toy_ant_merkle_laws : @AntMerkleLaws toy_digests toy_ant_merkle.
Proof.
  split.
  - intros d leaves Hl. cbn. by rewrite Hl, Nat.log2_pow2 by lia.
  - intros d leaves i Hl _. cbn. by rewrite Hl, Nat.log2_pow2, Nat2Z.id by lia.
  - intros d k leaves _ _. cbn. by rewrite Nat2Z.id.
  - intros d k leaves i Hl _ _. cbn. by rewrite Hl, Nat.log2_pow2, !Nat2Z.id by lia.
  - intros path root i h _. cbn. by rewrite Nat2Z.id.
Qed.

Section merkle_witnesses.
#[local] Existing Instances toy_xorname toy_digests toy_ant_merkle toy_ant_merkle_laws.

Definition ex_salt (i : Z) : bytes := replicate 32 (i + 1).
Definition ex_dummy (i : Z) : bytes := replicate 32 (i + 100).
Definition ex_batch : list bytes := [replicate 32 11; replicate 32 12; replicate 32 13].

Lemma tree_depth_spec_witness : tree_depth 5 = 3 ∧ 5 ≤ 2 ^ tree_depth 5.
Proof. destruct (tree_depth_spec 5 ltac:(lia)) as (Hd & Hle & _). split; [exact Hd|exact Hle]. Defined.

Lemma batch_proofs_accepted_witness :
  ∃ t cands, from_xornames ex_salt ex_dummy ex_batch = Ok t ∧ reward_candidates t 1000 = Ok cands ∧
    length cands = 2%nat ∧
    ∀ m, m ∈ cands → ∃ b, generate_address_proof t 1 (replicate 32 12) = Ok b ∧
      verify_merkle_proof (Some 2000) (replicate 32 12) b m (mt_depth t) (mt_root t) 1000 = Ok tt.
Proof.
  destruct (batch_proofs_accepted ex_salt ex_dummy ex_batch 1000 ltac:(done)) as (t & cands & Ht & Hc & Hlen & Hall).
  exists t, cands. split; [exact Ht|]. split; [exact Hc|]. split.
  - destruct (from_xornames_ok ex_salt ex_dummy ex_batch ltac:(done)) as (root & _ & Ht').
    rewrite Ht in Ht'. injection Ht' as ->. cbn [mt_depth] in Hlen.
    change (expected_reward_pools (Z.of_nat (batch_depth ex_batch))) with 2 in Hlen. lia.
  - intros m Hm. apply (Hall 1%nat (replicate 32 12) m 2000); [reflexivity|exact Hm|done].
Defined.

Lemma collision_free_check (l : list bytes) :
  bool_decide (Forall (λ x, Forall (λ y, sha3_256 x = sha3_256 y → x = y) l) l) = true → collision_free l.
Proof. intros Hf%bool_decide_eq_true x y Hx Hy. rewrite Forall_forall in Hf. specialize (Hf x Hx). rewrite Forall_forall in Hf. by apply Hf. Qed.

(** The tree of the example, and the branch of its second address. *)
Definition ex_tree : MerkleTree :=
  match from_xornames ex_salt ex_dummy ex_batch with
  | Ok t => t
  | Err _ => {| mt_inner := [] : InnerTree; mt_leaf_count := 0; mt_depth := 0; mt_root := []; mt_salts := [] |}
  end.

Definition ex_branch : MerkleBranch :=
  {| mb_proof_hashes := sibling_path 2 1 (tree_leaves ex_salt ex_dummy ex_batch); mb_leaf_index := 1;
     mb_total_leaves_count := 4; mb_unsalted_leaf_hash := replicate 32 12; mb_root := mt_root ex_tree;
     mb_salt := Some (ex_salt 1) |}.

Definition ex_midpoint : MidpointProof :=
  {| mp_branch := midpoint_branch (tree_leaves ex_salt ex_dummy ex_batch) 2 (mt_root ex_tree) 0
                    (default [] (level_nodes 1 (tree_leaves ex_salt ex_dummy ex_batch) !! 0%nat));
     mp_merkle_payment_timestamp := 1000 |}.

Lemma accepted_address_in_batch_witness : leaf_proves ex_salt ex_dummy ex_batch 1 (replicate 32 12) (Some (ex_salt 1)).
Proof.
  refine (accepted_address_in_batch ex_salt ex_dummy ex_batch ex_tree (Some 2000) (replicate 32 12) ex_branch
    ex_midpoint 1000 1 _ _ _ _ _ _ _ _ _ _ _).
  - done.
  - intros y. apply length_to_le_bytes.
  - apply (bool_decide_eq_true_1 _). vm_compute. reflexivity.
  - apply (bool_decide_eq_true_1 _). vm_compute. reflexivity.
  - reflexivity.
  - unfold ex_tree. destruct (from_xornames_ok ex_salt ex_dummy ex_batch ltac:(done)) as (root & _ & ->). reflexivity.
  - vm_compute. reflexivity.
  - reflexivity.
  - vm_compute. lia.
  - vm_compute. reflexivity.
  - apply collision_free_check. vm_compute. reflexivity.
Defined.
End merkle_witnesses.
