(* ===== verification/Payments.v ===== *)
(** * Payments

    Models src/ant-evm/src/data_payments.rs (quotes and the proof of payment a client attaches to a
    record), src/ant-evm/src/merkle_payments/merkle_payment.rs (candidate nodes, pools and the proof
    of a batch payment), src/evmlib/src/merkle_batch_payment.rs and quoting_metrics.rs (the packed
    cost units and the byte form of the metrics), and the sum over contract answers of
    src/evmlib/src/contract/payment_vault/mod.rs. libp2p's identities are the parameter
    [Libp2pIdentity]. Peer ids are their byte form. *)

From stdpp Require Import base gmap strings countable list.
From Stdlib Require Import ZArith Lia.
From S2P Require Import Prelude Protocol RecordCache RecordStore MerkleTree.

(** libp2p identities: protobuf-encoded public keys, their peer ids and signatures. *)
Class Libp2pIdentity := {
  IdentityKey : Type;
  try_decode_protobuf : bytes → option IdentityKey;
  peer_id_of_key : IdentityKey → bytes;
  identity_verify : IdentityKey → bytes → bytes → bool;
  peer_id_from_bytes : bytes → option bytes;
}.

#[global] Instance QuotingMetrics_eq_dec : EqDecision QuotingMetrics.
Proof. solve_decision. Defined.

(** ** Quotes: data_payments.rs *)

Definition LIVE_TIME_MARGIN : Z := 10.

Record PaymentQuote := {
  pq_content : bytes;
  pq_timestamp : Z; (* nanoseconds since the epoch *)
  pq_quoting_metrics : QuotingMetrics;
  pq_rewards_address : bytes;
  pq_pub_key : bytes;
  pq_signature : bytes;
}.

(** The encoded peer ids with their quotes. *)
Record ProofOfPayment := { peer_quotes : list (bytes * PaymentQuote) }.

Section quotes.
Context `{Libp2pIdentity, Digests, !Serde QuotingMetrics}.

(** [timestamp] is not before the epoch: it was read by serde, which has no negative times. *)
Definition bytes_for_signing (xorname : bytes) (timestamp : Z) (quoting_metrics : QuotingMetrics)
    (rewards_address : bytes) : bytes :=
  xorname ++ to_le_bytes 8 (as_secs timestamp) ++ default [] (rmp_to_vec quoting_metrics) ++ rewards_address.

Definition bytes_for_sig (q : PaymentQuote) : bytes :=
  bytes_for_signing (pq_content q) (pq_timestamp q) (pq_quoting_metrics q) (pq_rewards_address q).

(** [PaymentQuote::hash]. *)
Definition quote_hash (q : PaymentQuote) : bytes := keccak256 (bytes_for_sig q ++ pq_pub_key q ++ pq_signature q).

(** [PaymentQuote::peer_id]. *)
Definition quote_peer_id (q : PaymentQuote) : option bytes := peer_id_of_key <$> try_decode_protobuf (pq_pub_key q).

Definition check_is_signed_by_claimed_peer (q : PaymentQuote) (claimed_peer : bytes) : bool :=
  match try_decode_protobuf (pq_pub_key q) with
  | None => false
  | Some pub_key =>
    if bool_decide (peer_id_of_key pub_key ≠ claimed_peer) then false
    else identity_verify pub_key (bytes_for_sig q) (pq_signature q)
  end.

(** [ProofOfPayment::digest]. *)
Definition digest (p : ProofOfPayment) : list (bytes * QuotingMetrics * bytes) :=
  (λ '(_, q), (quote_hash q, pq_quoting_metrics q, pq_rewards_address q)) <$> peer_quotes p.

Definition payees (p : ProofOfPayment) : list bytes := omap (λ '(peer_id, _), peer_id_from_bytes peer_id) (peer_quotes p).

Definition quotes_by_peer (p : ProofOfPayment) (peer_id : bytes) : list PaymentQuote :=
  omap (λ '(_, q), if bool_decide (quote_peer_id q = Some peer_id) then Some q else None) (peer_quotes p).

Definition verify_for (p : ProofOfPayment) (peer_id : bytes) : bool :=
  bool_decide (peer_id ∈ payees p) &&
  forallb (λ '(encoded_peer_id, q),
             match peer_id_from_bytes encoded_peer_id with
             | Some claimed => check_is_signed_by_claimed_peer q claimed
             | None => false
             end) (peer_quotes p).

Definition verify_data_type (p : ProofOfPayment) (data_type : Z) : bool :=
  forallb (λ '(_, q), qm_data_type (pq_quoting_metrics q) =? data_type) (peer_quotes p).

Definition is_newer_than (q other : PaymentQuote) : bool := pq_timestamp other <? pq_timestamp q.

(** [SystemTime::elapsed]: an error when the time is ahead of the clock. *)
Definition elapsed (now timestamp : Z) : option Z := if timestamp <=? now then Some (now - timestamp) else None.

(** [historical_verify]; the clock is read for the old quote and for the new one. *)
Definition historical_verify (now_old now_new : Z) (q other : PaymentQuote) : bool :=
  let '(old_quote, new_quote) := if is_newer_than q other then (other, q) else (q, other) in
  let old_metrics := pq_quoting_metrics old_quote in
  let new_metrics := pq_quoting_metrics new_quote in
  if qm_live_time new_metrics <? qm_live_time old_metrics then false
  else if qm_received_payment_count new_metrics <? qm_received_payment_count old_metrics then false
  else
    match elapsed now_old (pq_timestamp old_quote) with
    | None => true
    | Some old_elapsed =>
      match elapsed now_new (pq_timestamp new_quote) with
      | None => true
      | Some new_elapsed =>
        let time_diff := Z.max 0 (as_secs old_elapsed - as_secs new_elapsed) in
        let live_time_diff := qm_live_time new_metrics - qm_live_time old_metrics in
        negb (time_diff + LIVE_TIME_MARGIN <? live_time_diff)
      end
    end.

(** ** The contract's answer: payment_vault/mod.rs *)

Record PaymentVerificationResult := {
  pv_quote_hash : bytes;
  pv_amount_paid : Z;
  pv_is_valid : bool;
}.

(** The loop of [verify_data_payment] over the contract's answers; the sum is a [U256]. *)
Fixpoint sum_owned (owned_quote_hashes : list bytes) (results : list PaymentVerificationResult) (amount : Z)
    : option Z :=
  match results with
  | [] => Some amount
  | r :: results' =>
    if negb (pv_is_valid r) then None
    else sum_owned owned_quote_hashes results'
           (if bool_decide (pv_quote_hash r ∈ owned_quote_hashes)
            then (amount + pv_amount_paid r) mod 2 ^ 256 else amount)
  end.

(** [verify_data_payment], given what the contract call [verify_payment] answers. *)
Definition verify_data_payment
    (verify_payment : list (bytes * QuotingMetrics * bytes) → option (list PaymentVerificationResult))
    (owned_quote_hashes : list bytes) (payment : list (bytes * QuotingMetrics * bytes)) : option Z :=
  results ← verify_payment payment; sum_owned owned_quote_hashes results 0.
End quotes.

(** ** Cost units: evmlib *)

Definition CANDIDATES_PER_POOL : nat := 16.
Definition TOTAL_COST_UNIT_BITS : Z := 248.
Definition COST_UNIT_GRAPH_ENTRY : Z := 1.
Definition COST_UNIT_SCRATCHPAD : Z := 100.
Definition COST_UNIT_CHUNK : Z := 10.
Definition COST_UNIT_POINTER : Z := 20.

(** [contract::data_type_conversion]: the data type's index in the contract. *)
Definition data_type_conversion (data_type : Z) : Z :=
  if data_type =? 0 then 2
  else if data_type =? 1 then 0
  else if data_type =? 2 then 3
  else if data_type =? 3 then 1
  else 4.

Definition cost_unit_for_data_type (solidity_data_type : Z) : Z :=
  if solidity_data_type =? 0 then COST_UNIT_GRAPH_ENTRY
  else if solidity_data_type =? 1 then COST_UNIT_SCRATCHPAD
  else if solidity_data_type =? 2 then COST_UNIT_CHUNK
  else if solidity_data_type =? 3 then COST_UNIT_POINTER
  else 0.

(** [None] is [CostUnitOverflow]; a left shift drops the bits above 256. *)
Definition encode_data_type_and_cost (data_type total_cost_unit : Z) : option Z :=
  if Z.shiftl 1 TOTAL_COST_UNIT_BITS <=? total_cost_unit then None
  else Some (Z.lor (Z.shiftl total_cost_unit 8 mod 2 ^ 256) data_type).

Definition decode_data_type_and_cost (packed : Z) : Z * Z := (Z.land packed 255, Z.shiftr packed 8).

(** Sums and products are [U256]. *)
Definition calculate_total_cost_unit (metrics : QuotingMetrics) : Z :=
  let total_from_types :=
    foldl (λ acc '(data_type, count),
             (acc + (cost_unit_for_data_type (data_type_conversion data_type) * count) mod 2 ^ 256) mod 2 ^ 256)
      0 (qm_records_per_type metrics) in
  if 0 <? total_from_types then total_from_types
  else
    let fallback := Z.max (qm_close_records_stored metrics) 1 in
    (cost_unit_for_data_type (data_type_conversion (qm_data_type metrics)) * fallback) mod 2 ^ 256.

Record CandidateNode := { cn_rewards_address : bytes; cn_metrics : QuotingMetrics }.
Record CandidateNodePacked := { cnp_rewards_address : bytes; cnp_data_type_and_total_cost_unit : Z }.
Record PoolCommitment := { pc_pool_hash : bytes; pc_candidates : list CandidateNode }.
Record PoolCommitmentPacked := { pcp_pool_hash : bytes; pcp_candidates : list CandidateNodePacked }.

#[global] Instance CandidateNode_eq_dec : EqDecision CandidateNode.
Proof. solve_decision. Defined.
#[global] Instance PoolCommitment_eq_dec : EqDecision PoolCommitment.
Proof. solve_decision. Defined.

Definition candidate_to_packed (c : CandidateNode) : option CandidateNodePacked :=
  packed ← encode_data_type_and_cost (data_type_conversion (qm_data_type (cn_metrics c)))
             (calculate_total_cost_unit (cn_metrics c));
  Some {| cnp_rewards_address := cn_rewards_address c; cnp_data_type_and_total_cost_unit := packed |}.

Definition pool_to_packed (p : PoolCommitment) : option PoolCommitmentPacked :=
  candidates ← mapM candidate_to_packed (pc_candidates p);
  Some {| pcp_pool_hash := pc_pool_hash p; pcp_candidates := candidates |}.

(** [QuotingMetrics::to_bytes]. *)
Definition metrics_to_bytes (m : QuotingMetrics) : bytes :=
  to_le_bytes 4 (qm_data_type m) ++ to_le_bytes 8 (qm_data_size m) ++ to_le_bytes 8 (qm_close_records_stored m) ++
  to_le_bytes 4 (Z.of_nat (length (qm_records_per_type m))) ++
  mjoin ((λ dc, to_le_bytes 4 dc.1 ++ to_le_bytes 4 dc.2) <$> qm_records_per_type m) ++
  to_le_bytes 8 (qm_max_records m) ++ to_le_bytes 8 (qm_received_payment_count m) ++ to_le_bytes 8 (qm_live_time m) ++
  match qm_network_density m with Some density => 1 :: density | None => [0] end ++
  match qm_network_size m with Some size => 1 :: to_le_bytes 8 size | None => [0] end.

(** ** Batch payments: merkle_payment.rs *)

Record MerklePaymentCandidateNode := {
  mc_pub_key : bytes;
  mc_quoting_metrics : QuotingMetrics;
  mc_reward_address : bytes;
  mc_merkle_payment_timestamp : Z;
  mc_signature : bytes;
}.

(** The source has an array of [CANDIDATES_PER_POOL] candidate nodes. *)
Record MerklePaymentCandidatePool := {
  pool_midpoint_proof : MidpointProof;
  pool_candidate_nodes : list MerklePaymentCandidateNode;
}.

Record MerklePaymentProof := {
  mpp_address : bytes;
  mpp_data_proof : MerkleBranch;
  mpp_winner_pool : MerklePaymentCandidatePool;
}.

Record OnChainPaymentInfo := {
  oc_depth : Z;
  oc_merkle_payment_timestamp : Z;
  oc_paid_node_addresses : list (bytes * Z);
}.

(** [MerklePaymentVerificationError], the variants the modelled functions return. *)
Inductive MerklePaymentError :=
  | WinnerPoolHashMismatch (expected got : bytes)
  | MerkleProofFailed (e : BadMerkleProof)
  | WrongPaidAddressCount (expected got : Z)
  | InvalidNodeSignature (address : bytes)
  | CandidateTimestampMismatch (address : bytes) (expected got : Z)
  | CommitmentDoesNotMatchPool
  | PaidNodeIndexOutOfBounds (index pool_size : Z)
  | PaidAddressMismatch (index : Z) (expected actual : bytes)
  | InvalidNodePeerId (index : Z) (address : bytes)
  | DataTypeMismatch (address : bytes) (expected got : Z)
  | DataSizeMismatch (address : bytes) (expected got : Z)
  | CostUnitMismatch (index : Z) (on_chain_packed expected_packed : Z)
  | WinnerPoolNotInCommitments
  | CostUnitOverflow.

(** Runs a check on each element in order, stopping at the first error. *)
Fixpoint check_each {A E} (check : A → result unit E) (l : list A) : result unit E :=
  match l with
  | [] => Ok tt
  | x :: l' => (let? _ := check x in check_each check l')%rust
  end.

Section merkle_payment.
Context `{XorNameLib, Libp2pIdentity, AntMerkle}.

Definition candidate_bytes_to_sign (metrics : QuotingMetrics) (reward_address : bytes) (timestamp : Z) : bytes :=
  metrics_to_bytes metrics ++ reward_address ++ to_le_bytes 8 timestamp.

(** [MerklePaymentCandidateNode::to_bytes]. *)
Definition candidate_to_bytes (n : MerklePaymentCandidateNode) : bytes :=
  mc_pub_key n ++ metrics_to_bytes (mc_quoting_metrics n) ++ mc_reward_address n ++
  to_le_bytes 8 (mc_merkle_payment_timestamp n) ++ mc_signature n.

Definition candidate_peer_id (n : MerklePaymentCandidateNode) : option bytes :=
  peer_id_of_key <$> try_decode_protobuf (mc_pub_key n).

Definition candidate_verify_signature (n : MerklePaymentCandidateNode) : bool :=
  match try_decode_protobuf (mc_pub_key n) with
  | None => false
  | Some pub_key =>
    identity_verify pub_key
      (candidate_bytes_to_sign (mc_quoting_metrics n) (mc_reward_address n) (mc_merkle_payment_timestamp n))
      (mc_signature n)
  end.

(** [MerklePaymentCandidatePool::hash]. *)
Definition pool_hash (p : MerklePaymentCandidatePool) : bytes :=
  sha3_256 (midpoint_hash (pool_midpoint_proof p) ++
            to_le_bytes 4 (Z.of_nat (length (pool_candidate_nodes p))) ++
            mjoin (candidate_to_bytes <$> pool_candidate_nodes p)).

Definition to_commitment (p : MerklePaymentCandidatePool) : PoolCommitment :=
  {| pc_pool_hash := pool_hash p;
     pc_candidates := (λ n, {| cn_rewards_address := mc_reward_address n;
                               cn_metrics := mc_quoting_metrics n |}) <$> pool_candidate_nodes p |}.

Definition to_commitment_packed (p : MerklePaymentCandidatePool) : option PoolCommitmentPacked :=
  pool_to_packed (to_commitment p).

(** The loop of [verify_cost_units] over the paired candidates. *)
Fixpoint check_cost_units (i : Z) (l : list (CandidateNodePacked * MerklePaymentCandidateNode))
    : result unit MerklePaymentError :=
  match l with
  | [] => Ok tt
  | (on_chain_candidate, signed_node) :: l' =>
    let expected_data_type := data_type_conversion (qm_data_type (mc_quoting_metrics signed_node)) in
    let expected_cost_unit := calculate_total_cost_unit (mc_quoting_metrics signed_node) in
    (let? expected_packed := ok_or (encode_data_type_and_cost expected_data_type expected_cost_unit)
                               CostUnitOverflow in
     if negb (cnp_data_type_and_total_cost_unit on_chain_candidate =? expected_packed) then
       Err (CostUnitMismatch i (cnp_data_type_and_total_cost_unit on_chain_candidate) expected_packed)
     else check_cost_units (i + 1) l')%rust
  end.

(** [MerklePaymentCandidatePool::verify_cost_units]. *)
Definition pool_verify_cost_units (p : MerklePaymentCandidatePool)
    (on_chain_commitments : list PoolCommitmentPacked) (winner_pool_hash : bytes)
    : result unit MerklePaymentError :=
  (let? on_chain_winner :=
     ok_or (snd <$> list_find (λ pc, pcp_pool_hash pc = winner_pool_hash) on_chain_commitments)
       WinnerPoolNotInCommitments in
   check_cost_units 0 (zip (pcp_candidates on_chain_winner) (pool_candidate_nodes p)))%rust.

Definition verify_signatures (p : MerklePaymentCandidatePool) (merkle_payment_timestamp : Z)
    : result unit MerklePaymentError :=
  (let? _ := check_each (λ n, if candidate_verify_signature n then Ok tt
                              else Err (InvalidNodeSignature (mc_reward_address n))) (pool_candidate_nodes p) in
   let? _ := check_each (λ n, if mc_merkle_payment_timestamp n =? merkle_payment_timestamp then Ok tt
                              else Err (CandidateTimestampMismatch (mc_reward_address n) merkle_payment_timestamp
                                          (mc_merkle_payment_timestamp n))) (pool_candidate_nodes p) in
   match pool_candidate_nodes p with
   | [] => Ok tt
   | first_node :: _ =>
     let expected_data_type := qm_data_type (mc_quoting_metrics first_node) in
     let expected_data_size := qm_data_size (mc_quoting_metrics first_node) in
     check_each (λ n,
       let m := mc_quoting_metrics n in
       if negb (qm_data_type m =? expected_data_type) then
         Err (DataTypeMismatch (mc_reward_address n) expected_data_type (qm_data_type m))
       else if negb (qm_data_size m =? expected_data_size) then
         Err (DataSizeMismatch (mc_reward_address n) expected_data_size (qm_data_size m))
       else Ok tt) (pool_candidate_nodes p)
   end)%rust.

Definition verify_commitment (p : MerklePaymentCandidatePool) (commitment : PoolCommitment)
    (merkle_payment_timestamp : Z) : result unit MerklePaymentError :=
  (let? _ := verify_signatures p merkle_payment_timestamp in
   if bool_decide (commitment ≠ to_commitment p) then Err CommitmentDoesNotMatchPool else Ok tt)%rust.

Definition winner_pool_hash (p : MerklePaymentProof) : bytes := pool_hash (mpp_winner_pool p).

(** The loop body of [corresponding_peer_ids]. *)
Definition paid_peer_id (nodes : list MerklePaymentCandidateNode) (paid : bytes * Z)
    : result bytes MerklePaymentError :=
  let '(expected_address, index) := paid in
  (let? node := ok_or (nodes !! Z.to_nat index) (PaidNodeIndexOutOfBounds index (Z.of_nat (length nodes))) in
   if bool_decide (mc_reward_address node ≠ expected_address) then
     Err (PaidAddressMismatch index expected_address (mc_reward_address node))
   else ok_or (candidate_peer_id node) (InvalidNodePeerId index (mc_reward_address node)))%rust.

Definition corresponding_peer_ids (p : MerklePaymentProof) (paid_nodes : list (bytes * Z))
    : result (list bytes) MerklePaymentError :=
  collect (paid_peer_id (pool_candidate_nodes (mpp_winner_pool p)) <$> paid_nodes).

(** [MerklePaymentProof::verify]. *)
Definition proof_verify (now : option Z) (p : MerklePaymentProof) (smart_contract_depth smart_contract_timestamp : Z)
    (smart_contract_pool_hash : bytes) (smart_contract_paid_nodes : list (bytes * Z))
    : result unit MerklePaymentError :=
  (let? _ := verify_signatures (mpp_winner_pool p) smart_contract_timestamp in
   let actual_hash := pool_hash (mpp_winner_pool p) in
   if bool_decide (actual_hash ≠ smart_contract_pool_hash) then
     Err (WinnerPoolHashMismatch smart_contract_pool_hash actual_hash)
   else
     let smart_contract_root := mb_root (mp_branch (pool_midpoint_proof (mpp_winner_pool p))) in
     let? _ := map_err MerkleProofFailed
                 (verify_merkle_proof now (mpp_address p) (mpp_data_proof p)
                    (pool_midpoint_proof (mpp_winner_pool p)) smart_contract_depth smart_contract_root
                    smart_contract_timestamp) in
     if negb (Z.of_nat (length smart_contract_paid_nodes) =? smart_contract_depth) then
       Err (WrongPaidAddressCount smart_contract_depth (Z.of_nat (length smart_contract_paid_nodes)))
     else
       let? _ := corresponding_peer_ids p smart_contract_paid_nodes in Ok tt)%rust.
End merkle_payment.
