(* ===== verification/PaymentsProps.v ===== *)
(** * Properties of payments

    Of the model in Payments: an honest node's quotes pass the historical check, a payment accepted
    for a peer is signed throughout and pays it, packed cost units decode and match exactly the
    signed metrics, the signed bytes of a candidate determine what it quotes, and what an accepted
    batch proof establishes. *)

From stdpp Require Import base gmap strings countable list.
From Stdlib Require Import ZArith Lia.
From S2P Require Import Prelude Protocol RecordCache RecordStore MerkleTree MerkleTreeProps Payments.

(** ** Quotes *)

(** A quote as a node makes it at a time: its age since [start], and a count of payments that grows. *)
Definition honest_quote (start : Z) (paid : Z → Z) (q : PaymentQuote) : Prop :=
  start ≤ pq_timestamp q ∧
  qm_live_time (pq_quoting_metrics q) = as_secs (pq_timestamp q - start) ∧
  qm_received_payment_count (pq_quoting_metrics q) = paid (pq_timestamp q).

Lemma as_secs_mono a b : a ≤ b → as_secs a ≤ as_secs b.
Proof. intros. unfold as_secs, NANOS. by apply Z.div_le_mono. Qed.

(** Differences of whole seconds are off by at most one. *)
Lemma as_secs_sub a b : as_secs a - as_secs b - 1 ≤ as_secs (a - b) ≤ as_secs a - as_secs b.
Proof.
  unfold as_secs, NANOS. pose proof (Z.div_mod a (10 ^ 9) ltac:(lia)). pose proof (Z.div_mod b (10 ^ 9) ltac:(lia)).
  pose proof (Z.div_mod (a - b) (10 ^ 9) ltac:(lia)). pose proof (Z.mod_pos_bound a (10 ^ 9) ltac:(lia)).
  pose proof (Z.mod_pos_bound b (10 ^ 9) ltac:(lia)). pose proof (Z.mod_pos_bound (a - b) (10 ^ 9) ltac:(lia)). lia.
Qed.

(** Quotes a node makes honestly pass the historical check, in either order, whenever it is
    made after the quotes with a clock that does not go back between its two readings by more than
    a few seconds. *)
Theorem honest_quotes_accepted start paid now_old now_new q1 q2 :
  (∀ a b, a ≤ b → paid a ≤ paid b) → honest_quote start paid q1 → honest_quote start paid q2 →
  now_new ≤ now_old + 5 * NANOS → historical_verify now_old now_new q1 q2 = true.
Proof.
  intros Hpaid Hq1 Hq2 Hnow. unfold historical_verify.
  destruct (if is_newer_than q1 q2 then (q2, q1) else (q1, q2)) as [old new] eqn:E.
  assert (honest_quote start paid old ∧ honest_quote start paid new ∧ pq_timestamp old ≤ pq_timestamp new)
    as ((Ho & Hol & Hop) & (Hn & Hnl & Hnp) & Hle).
  { unfold is_newer_than in E. destruct (Z.ltb_spec (pq_timestamp q2) (pq_timestamp q1));
      injection E as <- <-; (split; [done|split; [done|lia]]). }
  rewrite Hol, Hnl, Hop, Hnp.
  destruct (Z.ltb_spec (as_secs (pq_timestamp new - start)) (as_secs (pq_timestamp old - start))) as [Hlt|_].
  { pose proof (as_secs_mono (pq_timestamp old - start) (pq_timestamp new - start) ltac:(lia)). lia. }
  destruct (Z.ltb_spec (paid (pq_timestamp new)) (paid (pq_timestamp old))) as [Hlt|_].
  { pose proof (Hpaid _ _ Hle). lia. }
  unfold elapsed. destruct (Z.leb_spec (pq_timestamp old) now_old); [|done].
  destruct (Z.leb_spec (pq_timestamp new) now_new); [|done].
  apply negb_true_iff, Z.ltb_ge. unfold LIVE_TIME_MARGIN.
  pose proof (as_secs_sub (pq_timestamp new - start) (pq_timestamp old - start)) as [H1 _].
  pose proof (as_secs_sub (now_old - pq_timestamp old) (now_new - pq_timestamp new)) as [_ H2].
  replace (pq_timestamp new - start - (pq_timestamp old - start)) with (pq_timestamp new - pq_timestamp old) in H1 by lia.
  replace (now_old - pq_timestamp old - (now_new - pq_timestamp new))
    with (pq_timestamp new - pq_timestamp old - (now_new - now_old)) in H2 by lia.
  pose proof (as_secs_mono (pq_timestamp new - pq_timestamp old - 5 * NANOS)
    (pq_timestamp new - pq_timestamp old - (now_new - now_old)) ltac:(lia)) as H3.
  pose proof (as_secs_sub (pq_timestamp new - pq_timestamp old) (5 * NANOS)) as [H4 _].
  change (as_secs (5 * NANOS)) with 5 in H4. lia.
Qed.

Section quote_facts.
Context `{Libp2pIdentity, Digests, !Serde QuotingMetrics}.

(** What [verify_for] establishes. *)
Lemma verify_for_spec p peer :
  verify_for p peer = true →
  peer ∈ payees p ∧
  ∀ enc q, (enc, q) ∈ peer_quotes p →
    ∃ claimed key, peer_id_from_bytes enc = Some claimed ∧ try_decode_protobuf (pq_pub_key q) = Some key ∧
      peer_id_of_key key = claimed ∧ identity_verify key (bytes_for_sig q) (pq_signature q) = true.
Proof.
  unfold verify_for. intros [Hin Hall]%andb_true_iff. apply bool_decide_eq_true in Hin. split; [done|].
  intros enc q Hq. rewrite forallb_forall in Hall. apply list_elem_of_In in Hq. specialize (Hall _ Hq). simpl in Hall.
  destruct (peer_id_from_bytes enc) as [claimed|]; [|done]. unfold check_is_signed_by_claimed_peer in Hall.
  destruct (try_decode_protobuf (pq_pub_key q)) as [key|]; [|done].
  case_bool_decide as Hne; [done|]. by exists claimed, key.
Qed.

Lemma verify_for_own_quote p peer : verify_for p peer = true → quotes_by_peer p peer ≠ [].
Proof.
  intros [Hin Hall]%verify_for_spec Hnil.
  apply list_elem_of_omap in Hin as ([enc q] & Hq & Henc).
  destruct (Hall enc q Hq) as (claimed & key & Hc & Hk & Hp & _). rewrite Henc in Hc. injection Hc as <-.
  assert (q ∈ quotes_by_peer p peer) as Hx; [|rewrite Hnil in Hx; by apply elem_of_nil in Hx].
  apply list_elem_of_omap. exists (enc, q). split; [done|]. unfold quote_peer_id. rewrite Hk. simpl.
  by rewrite Hp, bool_decide_eq_true_2.
Qed.

(** A payment accepted for a peer pays it and is signed throughout: the peer is among the
    payees and has a quote of its own in the payment, and every quote is signed, with the key it
    carries, by the peer it is attributed to. *)
Theorem verified_payment_is_signed p peer :
  verify_for p peer = true →
  peer ∈ payees p ∧ quotes_by_peer p peer ≠ [] ∧
  ∀ enc q, (enc, q) ∈ peer_quotes p →
    ∃ claimed key, peer_id_from_bytes enc = Some claimed ∧ quote_peer_id q = Some claimed ∧
      try_decode_protobuf (pq_pub_key q) = Some key ∧
      identity_verify key (bytes_for_sig q) (pq_signature q) = true.
Proof.
  intros Hv. destruct (verify_for_spec p peer Hv) as [Hin Hall]. split; [done|]. split; [by apply verify_for_own_quote|].
  intros enc q Hq. destruct (Hall enc q Hq) as (claimed & key & ? & Hk & <- & ?). exists (peer_id_of_key key), key.
  unfold quote_peer_id. by rewrite Hk.
Qed.
End quote_facts.

(** ** Cost units *)

Lemma data_type_conversion_bound d : 0 ≤ data_type_conversion d < 256.
Proof. unfold data_type_conversion. repeat case_match; lia. Qed.

Lemma lor_shift c d : 0 ≤ c → 0 ≤ d < 256 → Z.lor (Z.shiftl c 8) d = c * 256 + d.
Proof.
  intros Hc Hd. pose proof (Z.add_lor_land (Z.shiftl c 8) d) as Hal.
  assert (Z.land (Z.shiftl c 8) d = 0) as E.
  { apply Z.bits_inj'. intros n Hn. rewrite Z.land_spec, Z.bits_0.
    destruct (Z.lt_ge_cases n 8).
    - rewrite Z.shiftl_spec_low by done. done.
    - rewrite (Z.bits_above_log2 d n); [by rewrite andb_false_r|lia|].
      destruct (decide (d = 0)) as [->|]; [simpl; lia|]. apply Z.log2_lt_pow2; [lia|].
      apply Z.lt_le_trans with (2 ^ 8); [lia|]. apply Z.pow_le_mono_r; lia. }
  rewrite E, Z.shiftl_mul_pow2 in * by lia. change (2 ^ 8) with 256 in *. lia.
Qed.

Lemma encode_value c d : 0 ≤ c < 2 ^ 248 → 0 ≤ d < 256 → encode_data_type_and_cost d c = Some (c * 256 + d).
Proof.
  intros Hc Hd. unfold encode_data_type_and_cost, TOTAL_COST_UNIT_BITS. rewrite Z.shiftl_1_l.
  destruct (Z.leb_spec (2 ^ 248) c); [lia|]. f_equal.
  rewrite Z.mod_small by (rewrite Z.shiftl_mul_pow2 by lia; change (2 ^ 256) with (2 ^ 248 * 2 ^ 8); nia).
  apply lor_shift; lia.
Qed.

Lemma calculate_total_cost_unit_nonneg m : 0 ≤ calculate_total_cost_unit m < 2 ^ 256.
Proof.
  unfold calculate_total_cost_unit. set (t := foldl _ _ _).
  assert (0 ≤ t < 2 ^ 256) as Ht.
  { apply (foldl_invariant (λ t, 0 ≤ t < 2 ^ 256)); [lia|]. intros a [d c] _ _. apply Z.mod_pos_bound. lia. }
  destruct (0 <? t); [done|]. apply Z.mod_pos_bound. lia.
Qed.

(** Packing a data type and a cost unit loses nothing and refuses exactly what does not fit:
    it fails when the cost unit needs more than 248 bits, and otherwise unpacks to both. *)
Theorem packed_cost_roundtrip data_type total_cost_unit :
  0 ≤ data_type < 256 → 0 ≤ total_cost_unit →
  (encode_data_type_and_cost data_type total_cost_unit = None ↔ 2 ^ 248 ≤ total_cost_unit) ∧
  ∀ packed, encode_data_type_and_cost data_type total_cost_unit = Some packed →
    0 ≤ packed < 2 ^ 256 ∧ decode_data_type_and_cost packed = (data_type, total_cost_unit).
Proof.
  intros Hd Hc. destruct (Z.lt_ge_cases total_cost_unit (2 ^ 248)) as [Hlt|Hge].
  - rewrite encode_value by lia. split; [split; [done|lia]|]. intros packed [= <-]. split.
    + change (2 ^ 256) with (2 ^ 248 * 256). nia.
    + unfold decode_data_type_and_cost. change 255 with (Z.ones 8). rewrite Z.land_ones by lia.
      rewrite Z.shiftr_div_pow2 by lia. change (2 ^ 8) with 256.
      rewrite Z.add_comm, Z.mod_add, Z.div_add by lia. rewrite Z.mod_small, Z.div_small by lia. f_equal; lia.
  - assert (encode_data_type_and_cost data_type total_cost_unit = None) as ->; [|split; [split; [done|done]|done]].
    unfold encode_data_type_and_cost, TOTAL_COST_UNIT_BITS. rewrite Z.shiftl_1_l.
    destruct (Z.leb_spec (2 ^ 248) total_cost_unit); [done|lia].
Qed.

Section pool_facts.
Context `{XorNameLib, Libp2pIdentity, AntMerkle}.

Lemma check_cost_units_spec i l :
  check_cost_units i l = Ok tt ↔
  ∀ c n, (c, n) ∈ l →
    encode_data_type_and_cost (data_type_conversion (qm_data_type (mc_quoting_metrics n)))
      (calculate_total_cost_unit (mc_quoting_metrics n)) = Some (cnp_data_type_and_total_cost_unit c).
Proof.
  revert i. induction l as [|[c n] l IH]; intros i; simpl; [split; [by intros _ ? ? ?%elem_of_nil|done]|].
  split.
  - intros Hok. inv_ok. destruct (Z.eqb_spec (cnp_data_type_and_total_cost_unit c) t) as [Et|]; simpl in Hok; [|discriminate].
    rewrite IH in Hok. intros c' n' [[= -> ->]|?]%elem_of_cons; [congruence|by apply Hok].
  - intros Hall. rewrite (Hall c n) by (by left). simpl. rewrite Z.eqb_refl. simpl. apply IH.
    intros c' n' ?. apply Hall. by right.
Qed.

(** The cost check is exact. Against the first on-chain commitment with the pool's hash, it
    passes exactly when every candidate's packed value on chain is what the candidate's signed
    metrics pack to; and the commitment an honest client submits for the pool passes. *)
Theorem cost_units_checked_exactly p commitments winner :
  list_find (λ pc, pcp_pool_hash pc = pool_hash p) commitments = Some winner →
  length (pcp_candidates winner.2) = length (pool_candidate_nodes p) →
  (pool_verify_cost_units p commitments (pool_hash p) = Ok tt ↔
   Forall2 (λ c n, encode_data_type_and_cost (data_type_conversion (qm_data_type (mc_quoting_metrics n)))
                     (calculate_total_cost_unit (mc_quoting_metrics n)) = Some (cnp_data_type_and_total_cost_unit c))
     (pcp_candidates winner.2) (pool_candidate_nodes p)) ∧
  (to_commitment_packed p = Some winner.2 → pool_verify_cost_units p commitments (pool_hash p) = Ok tt).
Proof.
  intros Hfind Hlen.
  assert (pool_verify_cost_units p commitments (pool_hash p) = Ok tt ↔
   Forall2 (λ c n, encode_data_type_and_cost (data_type_conversion (qm_data_type (mc_quoting_metrics n)))
                     (calculate_total_cost_unit (mc_quoting_metrics n)) = Some (cnp_data_type_and_total_cost_unit c))
     (pcp_candidates winner.2) (pool_candidate_nodes p)) as Hiff.
  { unfold pool_verify_cost_units. rewrite Hfind. simpl. rewrite check_cost_units_spec, Forall2_same_length_lookup.
    split.
    - intros Hall. split; [done|]. intros i c n Hc Hn. apply Hall.
      apply list_elem_of_lookup. exists i. by rewrite lookup_zip_with, Hc; simpl; rewrite Hn.
    - intros [_ Hall] c n (i & Hi)%list_elem_of_lookup. rewrite lookup_zip_with in Hi.
      apply bind_Some in Hi as (c' & Hc & (n' & Hn & [= -> ->])%bind_Some). by eapply Hall. }
  split; [done|]. intros Hp. apply Hiff. unfold to_commitment_packed, pool_to_packed in Hp.
  apply bind_Some in Hp as (cs & Hcs & [= Hw]). rewrite <- Hw. simpl. apply mapM_Some_1 in Hcs. simpl in Hcs.
  apply Forall2_fmap_l in Hcs. apply Forall2_flip. eapply Forall2_impl; [exact Hcs|].
  intros n c Hc. unfold candidate_to_packed in Hc. simpl in Hc.
  by apply bind_Some in Hc as (packed & Hpk & [= <-]).
Qed.
End pool_facts.

(** ** What a candidate signs *)

(** The widths of the metrics' fields. *)
Record metrics_sized (m : QuotingMetrics) : Prop := {
  ms_data_type : 0 ≤ qm_data_type m < 2 ^ 32;
  ms_data_size : 0 ≤ qm_data_size m < 2 ^ 64;
  ms_close : 0 ≤ qm_close_records_stored m < 2 ^ 64;
  ms_per_type : Forall (λ dc, 0 ≤ dc.1 < 2 ^ 32 ∧ 0 ≤ dc.2 < 2 ^ 32) (qm_records_per_type m);
  ms_per_type_length : Z.of_nat (length (qm_records_per_type m)) < 2 ^ 32;
  ms_max : 0 ≤ qm_max_records m < 2 ^ 64;
  ms_received : 0 ≤ qm_received_payment_count m < 2 ^ 64;
  ms_live : 0 ≤ qm_live_time m < 2 ^ 64;
  ms_density : ∀ d, qm_network_density m = Some d → length d = 32%nat;
  ms_size : ∀ n, qm_network_size m = Some n → 0 ≤ n < 2 ^ 64;
}.

(** Splits two equal concatenations at a field of fixed width. *)
Lemma le_field_inj n a b (k k' : bytes) :
  0 ≤ a < 256 ^ Z.of_nat n → 0 ≤ b < 256 ^ Z.of_nat n →
  to_le_bytes n a ++ k = to_le_bytes n b ++ k' → a = b ∧ k = k'.
Proof.
  intros Ha Hb E. apply app_eq_heads in E as [E ->]; [|by rewrite !length_to_le_bytes].
  by apply to_le_bytes_inj in E.
Qed.

Lemma per_type_inj (l k : list (Z * Z)) (r r' : bytes) :
  Forall (λ dc, 0 ≤ dc.1 < 2 ^ 32 ∧ 0 ≤ dc.2 < 2 ^ 32) l →
  Forall (λ dc, 0 ≤ dc.1 < 2 ^ 32 ∧ 0 ≤ dc.2 < 2 ^ 32) k → length l = length k →
  mjoin ((λ dc, to_le_bytes 4 dc.1 ++ to_le_bytes 4 dc.2) <$> l) ++ r =
  mjoin ((λ dc, to_le_bytes 4 dc.1 ++ to_le_bytes 4 dc.2) <$> k) ++ r' → l = k ∧ r = r'.
Proof.
  revert k. induction l as [|[d c] l IH]; intros [|[d' c'] k] Hl Hk Hlen E; try done.
  apply Forall_cons in Hl as [[Hd Hc] Hl]. apply Forall_cons in Hk as [[Hd' Hc'] Hk]. cbn [fst snd] in *.
  rewrite !fmap_cons in E. cbn [mjoin list_join fst snd] in E. rewrite <- !app_assoc in E.
  apply le_field_inj in E as [-> E]; [|done..]. apply le_field_inj in E as [-> E]; [|done..].
  apply IH in E as [-> ->]; [done..|]. simpl in Hlen. lia.
Qed.

Lemma density_inj (o o' : option bytes) (r r' : bytes) :
  (∀ d, o = Some d → length d = 32%nat) → (∀ d, o' = Some d → length d = 32%nat) →
  match o with Some d => 1 :: d | None => [0] end ++ r =
  match o' with Some d => 1 :: d | None => [0] end ++ r' → o = o' ∧ r = r'.
Proof.
  intros Ho Ho'. destruct o as [d|], o' as [d'|]; simpl; try done; [|by intros [= ->]].
  intros [= E]. apply app_eq_heads in E as [-> ->]; [done|]. by rewrite (Ho d), (Ho' d').
Qed.

Lemma network_size_inj (o o' : option Z) (r r' : bytes) :
  (∀ n, o = Some n → 0 ≤ n < 2 ^ 64) → (∀ n, o' = Some n → 0 ≤ n < 2 ^ 64) →
  match o with Some n => 1 :: to_le_bytes 8 n | None => [0] end ++ r =
  match o' with Some n => 1 :: to_le_bytes 8 n | None => [0] end ++ r' → o = o' ∧ r = r'.
Proof.
  intros Ho Ho'. destruct o as [n|], o' as [n'|]; [| |done|by intros [= ->]].
  - intros E. apply (inj (cons 1)) in E. apply le_field_inj in E as [-> ->]; [done|by apply Ho|by apply Ho'].
  - done.
Qed.

Lemma metrics_bytes_inj m m' r r' :
  metrics_sized m → metrics_sized m' →
  metrics_to_bytes m ++ r = metrics_to_bytes m' ++ r' → m = m' ∧ r = r'.
Proof.
  intros [] [] E. unfold metrics_to_bytes in E. rewrite <- !app_assoc in E.
  apply le_field_inj in E as [E1 E]; [|done..]. apply le_field_inj in E as [E2 E]; [|done..].
  apply le_field_inj in E as [E3 E]; [|done..].
  apply le_field_inj in E as [E4 E]; [|split; [lia|done]..].
  apply per_type_inj in E as [E5 E]; [|done..|lia].
  apply le_field_inj in E as [E6 E]; [|done..]. apply le_field_inj in E as [E7 E]; [|done..].
  apply le_field_inj in E as [E8 E]; [|done..]. apply density_inj in E as [E9 E]; [|done..].
  apply network_size_inj in E as [E10 ->]; [|done..].
  destruct m, m'; simpl in *; by subst.
Qed.

(** What a candidate node signs determines what it quotes: two candidates whose signed bytes
    agree quote the same metrics, reward address and timestamp, although the metrics hold a list
    and optional fields. *)
Theorem candidate_signature_binds m m' a a' ts ts' :
  metrics_sized m → metrics_sized m' → length a = 20%nat → length a' = 20%nat →
  0 ≤ ts < 2 ^ 64 → 0 ≤ ts' < 2 ^ 64 →
  candidate_bytes_to_sign m a ts = candidate_bytes_to_sign m' a' ts' → m = m' ∧ a = a' ∧ ts = ts'.
Proof.
  intros Hm Hm' Ha Ha' Hts Hts' E. unfold candidate_bytes_to_sign in E.
  apply metrics_bytes_inj in E as [-> E]; [|done..].
  apply app_eq_heads in E as [-> E]; [|by rewrite Ha, Ha'].
  apply to_le_bytes_inj in E as ->; done.
Qed.

(** ** What an accepted batch proof establishes *)

Section proof_facts.
Context `{XorNameLib, Libp2pIdentity, AntMerkle}.

Lemma check_each_ok {A E} (check : A → result unit E) l :
  check_each check l = Ok tt → ∀ x, x ∈ l → check x = Ok tt.
Proof.
  induction l as [|y l IH]; intros Hok x Hx; [by apply elem_of_nil in Hx|]. simpl in Hok.
  apply rbind_Ok_inv in Hok as ([] & Hy & Hok). apply elem_of_cons in Hx as [->|Hx]; [done|by apply IH].
Qed.

Lemma collect_Ok_inv {A E} (l : list (result A E)) xs : collect l = Ok xs → l = Ok <$> xs.
Proof.
  revert xs. induction l as [|r l IH]; intros xs Hok; simpl in Hok; inv_ok; [by subst|].
  subst. rewrite fmap_cons. by rewrite (IH t0).
Qed.

Lemma verify_signatures_ok p ts :
  verify_signatures p ts = Ok tt →
  ∃ data_type data_size, ∀ n, n ∈ pool_candidate_nodes p →
    candidate_verify_signature n = true ∧ mc_merkle_payment_timestamp n = ts ∧
    qm_data_type (mc_quoting_metrics n) = data_type ∧ qm_data_size (mc_quoting_metrics n) = data_size.
Proof.
  unfold verify_signatures. intros Hok. inv_ok.
  pose proof (check_each_ok _ _ Hok0) as Hsig. pose proof (check_each_ok _ _ Hok1) as Hts.
  destruct (pool_candidate_nodes p) as [|first nodes]; [exists 0, 0; by intros n ?%elem_of_nil|].
  pose proof (check_each_ok _ _ Hok) as Hm. eexists _, _. intros n Hn.
  specialize (Hsig n Hn). specialize (Hts n Hn). specialize (Hm n Hn). simpl in Hm.
  destruct (candidate_verify_signature n); [|done].
  destruct (Z.eqb_spec (mc_merkle_payment_timestamp n) ts); [|done].
  destruct (Z.eqb_spec (qm_data_type (mc_quoting_metrics n)) (qm_data_type (mc_quoting_metrics first))); [|done].
  destruct (Z.eqb_spec (qm_data_size (mc_quoting_metrics n)) (qm_data_size (mc_quoting_metrics first))); done.
Qed.

Lemma paid_peer_id_ok nodes a i peer :
  paid_peer_id nodes (a, i) = Ok peer →
  ∃ n, nodes !! Z.to_nat i = Some n ∧ mc_reward_address n = a ∧ candidate_peer_id n = Some peer.
Proof.
  unfold paid_peer_id. intros Hok. inv_ok. case_bool_decide as Ha; [discriminate|]. inv_ok.
  exists t. split; [done|]. split; [|done]. by apply dec_stable in Ha || done.
Qed.

(** An accepted batch proof means what it should. The address is the leaf of a verified branch
    of the contract's depth, under the same root as the verified midpoint of the winner pool, whose
    hash is the contract's; every candidate of the pool signed its metrics for the payment's
    timestamp and all quote the same type and size; the payment is not in the future nor older than
    a week; and as many nodes were paid as the depth, each the candidate at its index with the paid
    address and a valid peer id. *)
Theorem accepted_batch_proof now p depth ts pool paid :
  proof_verify now p depth ts pool paid = Ok tt →
  let w := mpp_winner_pool p in let mid := mp_branch (pool_midpoint_proof w) in
  pool_hash w = pool ∧
  (∃ t, now = Some t ∧ ts ≤ t ≤ ts + MERKLE_PAYMENT_EXPIRATION) ∧
  mp_merkle_payment_timestamp (pool_midpoint_proof w) = ts ∧
  (mb_unsalted_leaf_hash (mpp_data_proof p) = mpp_address p ∧ branch_verify (mpp_data_proof p) = true ∧
   branch_depth (mpp_data_proof p) = depth ∧ mb_root (mpp_data_proof p) = mb_root mid) ∧
  (branch_verify mid = true ∧ branch_depth mid = midpoint_proof_depth depth) ∧
  (∃ data_type data_size, ∀ n, n ∈ pool_candidate_nodes w →
    candidate_verify_signature n = true ∧ mc_merkle_payment_timestamp n = ts ∧
    qm_data_type (mc_quoting_metrics n) = data_type ∧ qm_data_size (mc_quoting_metrics n) = data_size) ∧
  Z.of_nat (length paid) = depth ∧
  ∀ a i, (a, i) ∈ paid → ∃ n, pool_candidate_nodes w !! Z.to_nat i = Some n ∧ mc_reward_address n = a ∧
    is_Some (candidate_peer_id n).
Proof.
  intros Hok w mid. unfold proof_verify in Hok. apply rbind_Ok_inv in Hok as ([] & Hsig & Hok).
  case_bool_decide as Hh; [discriminate|]. apply rbind_Ok_inv in Hok as ([] & Hm & Hok).
  apply map_err_Ok_inv, verify_merkle_proof_inv in Hm as (Hnow & Hts & (? & ? & Ha & ?) & ? & ? & _).
  destruct (Z.eqb_spec (Z.of_nat (length paid)) depth) as [Hlen|]; simpl in Hok; [|discriminate].
  apply rbind_Ok_inv in Hok as (peers & Hpeers & _). apply collect_Ok_inv in Hpeers.
  split_and!; [by apply dec_stable in Hh || done|done|done|done|done|done|done|done|done|by apply verify_signatures_ok|done|].
  intros a i Hin. assert (paid_peer_id (pool_candidate_nodes w) (a, i) ∈ Ok <$> peers) as Hp
    by (rewrite <- Hpeers; apply list_elem_of_fmap; by exists (a, i)).
  apply list_elem_of_fmap in Hp as (peer & Hp & _).
  destruct (paid_peer_id_ok _ _ _ _ Hp) as (n & ? & ? & Hpid). exists n. split; [done|]. split; [done|by eexists].
Qed.
End proof_facts.

(** * Witnesses *)

(** A key is a number; a signature is the key followed by the message. *)
Definition toy_identity : Libp2pIdentity :=
  {| IdentityKey := Z;
     try_decode_protobuf b := match b with [k] => Some k | _ => None end;
     peer_id_of_key k := [k];
     identity_verify k m s := bool_decide (s = k :: m);
     peer_id_from_bytes b := Some b |}.

Definition toy_serde_metrics : Serde QuotingMetrics :=
  {| rmp_to_vec m := Some (metrics_to_bytes m); rmp_from_slice _ := None |}.

Section payment_witnesses.
#[local] Existing Instances toy_xorname toy_digests toy_ant_merkle toy_ant_merkle_laws toy_identity toy_serde_metrics.

Definition ex_metrics (live paid : Z) : QuotingMetrics :=
  {| qm_data_type := 0; qm_data_size := 10; qm_close_records_stored := 3; qm_records_per_type := [(0, 2); (3, 1)];
     qm_max_records := 100; qm_received_payment_count := paid; qm_live_time := live; qm_network_density := None;
     qm_network_size := Some 1000 |}.

Definition ex_quote (key t : Z) : PaymentQuote :=
  let m := ex_metrics (as_secs t) 0 in
  {| pq_content := [1]; pq_timestamp := t; pq_quoting_metrics := m; pq_rewards_address := [7]; pq_pub_key := [key];
     pq_signature := key :: bytes_for_signing [1] t m [7] |}.

Lemma honest_quotes_accepted_witness :
  historical_verify (9 * NANOS) (9 * NANOS) (ex_quote 1 (2 * NANOS)) (ex_quote 1 (5 * NANOS)) = true.
Proof.
  refine (honest_quotes_accepted 0 (λ _, 0) (9 * NANOS) (9 * NANOS) (ex_quote 1 (2 * NANOS)) (ex_quote 1 (5 * NANOS))
    _ _ _ _); [done|split; [done|split; reflexivity]|split; [done|split; reflexivity]|done].
Defined.

Lemma verified_payment_is_signed_witness :
  let p := {| peer_quotes := [([4], ex_quote 4 NANOS); ([5], ex_quote 5 NANOS)] |} in
  verify_for p [5] = true ∧ quotes_by_peer p [5] ≠ [].
Proof.
  intros p. assert (verify_for p [5] = true) as Hv by (vm_compute; reflexivity). split; [exact Hv|].
  exact (proj1 (proj2 (verified_payment_is_signed p [5] Hv))).
Defined.

Lemma packed_cost_roundtrip_witness :
  encode_data_type_and_cost 2 1000 = Some 256002 ∧ decode_data_type_and_cost 256002 = (2, 1000).
Proof.
  split; [reflexivity|]. destruct (packed_cost_roundtrip 2 1000 ltac:(lia) ltac:(lia)) as [_ Hp].
  exact (proj2 (Hp 256002 eq_refl)).
Defined.

(** Candidate [k] of a pool, signed for a timestamp. *)
Definition ex_candidate (ts k : Z) : MerklePaymentCandidateNode :=
  let m := ex_metrics 50 k in
  {| mc_pub_key := [k]; mc_quoting_metrics := m; mc_reward_address := replicate 20 k;
     mc_merkle_payment_timestamp := ts; mc_signature := k :: candidate_bytes_to_sign m (replicate 20 k) ts |}.

Definition ex_pool : MerklePaymentCandidatePool :=
  {| pool_midpoint_proof := ex_midpoint; pool_candidate_nodes := ex_candidate 1000 <$> seqZ 1 16 |}.

Definition ex_commitment : PoolCommitmentPacked :=
  default {| pcp_pool_hash := []; pcp_candidates := [] |} (to_commitment_packed ex_pool).

Lemma cost_units_checked_exactly_witness :
  pool_verify_cost_units ex_pool [ex_commitment] (pool_hash ex_pool) = Ok tt.
Proof.
  refine (proj2 (cost_units_checked_exactly ex_pool [ex_commitment] (0%nat, ex_commitment) _ _) _);
    vm_compute; reflexivity.
Defined.

Lemma ex_metrics_sized live paid : 0 ≤ live < 2 ^ 64 → 0 ≤ paid < 2 ^ 64 → metrics_sized (ex_metrics live paid).
Proof.
  intros Hl Hp. split; simpl; try done; try lia.
  - repeat constructor; simpl; lia.
  - intros n [= <-]. lia.
Qed.

Lemma candidate_signature_binds_witness :
  candidate_bytes_to_sign (ex_metrics 50 1) (replicate 20 1) 1000 =
  candidate_bytes_to_sign (ex_metrics (25 + 25) 1) (replicate 20 (2 - 1)) 1000 ∧
  ex_metrics 50 1 = ex_metrics (25 + 25) 1.
Proof.
  split; [reflexivity|].
  exact (proj1 (candidate_signature_binds (ex_metrics 50 1) (ex_metrics (25 + 25) 1) (replicate 20 1) (replicate 20 (2 - 1))
    1000 1000 (ex_metrics_sized 50 1 ltac:(lia) ltac:(lia)) (ex_metrics_sized (25 + 25) 1 ltac:(lia) ltac:(lia))
    eq_refl eq_refl ltac:(lia) ltac:(lia) eq_refl)).
Defined.

Definition ex_proof : MerklePaymentProof :=
  {| mpp_address := replicate 32 12; mpp_data_proof := ex_branch; mpp_winner_pool := ex_pool |}.

Lemma accepted_batch_proof_witness :
  proof_verify (Some 2000) ex_proof 2 1000 (pool_hash ex_pool) [(replicate 20 3, 2); (replicate 20 7, 6)] = Ok tt ∧
  branch_verify (mpp_data_proof ex_proof) = true.
Proof.
  assert (proof_verify (Some 2000) ex_proof 2 1000 (pool_hash ex_pool) [(replicate 20 3, 2); (replicate 20 7, 6)] = Ok tt)
    as Hv by (vm_compute; reflexivity).
  split; [exact Hv|].
  destruct (accepted_batch_proof (Some 2000) ex_proof 2 1000 (pool_hash ex_pool)
    [(replicate 20 3, 2); (replicate 20 7, 6)] Hv) as (_ & _ & _ & (_ & Hb & _) & _). exact Hb.
Defined.
End payment_witnesses.
