(* ===== verification/PutValidation.v ===== *)
(** * Validation of incoming records

    Models src/ant-node/src/put_validation.rs: how a node checks a record uploaded by a client or
    replicated by another node, its payment included, and what it stores and reports. The requests
    to the swarm driver, the network and the EVM chain are answered by a [NodeEnv] of arbitrary
    answers; the commands sent are collected as effects. Logs and metrics are left out. *)

From stdpp Require Import base gmap strings countable list.
From Stdlib Require Import ZArith Lia.
From S2P Require Import Prelude Protocol Storage RecordCache RecordStore MerkleTree Payments.

Definition RETRY_PAYMENT_VERIFICATION_WAIT_TIME_SECS : Z := 5.
Definition MAX_COST_UNIT_FETCH_RETRIES : nat := 3.
Definition PEERS_TO_QUERY : nat := CANDIDATES_PER_POOL + CANDIDATES_PER_POOL / 4.

(** The reason of a [MerklePaymentVerificationFailed], a text in the source. *)
Inductive MerkleFailure :=
  | ProofForOtherAddress (proof_address target_address : bytes)
  | NoPaymentInfo (winner_pool_hash : bytes)
  | BadProof (e : MerklePaymentError)
  | NoCommitments
  | BadCostUnits (e : MerklePaymentError)
  | NoClosestPeers (midpoint_address : bytes)
  | NoPaidPeerIds (e : MerklePaymentError)
  | PaidNodesOutOfRange (nodes_outside_range : list (bytes * Z)).

Section errors.
Context `{Bls}.

(** [PutValidationError]; a printed record key is the key. *)
Inductive PutValidationError :=
  | LocalSwarmError
  | InvalidRecordHeader
  | InvalidRecord (key : bytes)
  | RecordKeyMismatch
  | RecordSerializationFailed (key : bytes)
  | NoPayment (key : bytes)
  | UnexpectedRecordWithPayment (key : bytes)
  | PaymentNotMadeToOurNode (key : bytes)
  | PaymentMadeToIncorrectDataType (key : bytes)
  | PaymentQuoteOutOfRange (key : bytes) (payees : list bytes)
  | PaymentVerificationFailed (key : bytes)
  | OversizedChunk (size max_size : Z)
  | OutdatedRecordCounter (counter expected : Z)
  | InvalidScratchpadSignature
  | ScratchpadTooBig (size : Z)
  | EmptyGraphEntry (key : bytes)
  | InvalidPointerSignature
  | MerklePaymentVerificationFailed (key : bytes) (error : MerkleFailure)
  | TopologyVerificationFailed (target_address : NetworkAddress) (valid_count total_paid closest_count : Z)
      (node_peers paid_peers : list bytes).
End errors.

(** The commands the handlers send. *)
Inductive NodeEffect :=
  | PutLocalRecord (record : KadRecord) (is_client_put : bool)
  | NotifyFetchCompleted (key : bytes) (record_type : ValidationType)
  | NotifyPaymentReceived.

(** The answers a handler gets, [None] for a failed request. The first argument of an EVM query is
    the attempt, from 1. *)
Record NodeEnv `{Bls} := {
  env_peer_id : bytes;
  env_is_record_key_present : bytes → option bool;
  env_get_local_record : bytes → option (option KadRecord);
  env_k_closest_local_peers : NetworkAddress → option (list bytes);
  env_network_density : option (option Z);
  env_verify_payment : nat → list (bytes * QuotingMetrics * bytes) → option (list PaymentVerificationResult);
  env_merkle_payment_info : nat → bytes → option OnChainPaymentInfo;
  env_packed_commitments : nat → bytes → Z → option (list PoolCommitmentPacked);
  env_closest_peers : NetworkAddress → nat → option (list bytes);
  env_now : option Z;
}.

(** ** Handlers: the commands sent so far and the result *)

Definition PutM `{Bls} (A : Type) : Type := list NodeEffect * result A PutValidationError.

Section monad.
Context `{Bls}.

Definition put_ret {A} (a : A) : PutM A := ([], Ok a).
Definition put_err {A} (e : PutValidationError) : PutM A := ([], Err e).
Definition put_lift {A} (r : result A PutValidationError) : PutM A := ([], r).
Definition put_emit (e : NodeEffect) : PutM unit := ([e], Ok tt).

Definition put_bind {A B} (m : PutM A) (k : A → PutM B) : PutM B :=
  match m.2 with
  | Ok a => (m.1 ++ (k a).1, (k a).2)
  | Err e => (m.1, Err e)
  end.

(** Awaits a handler and keeps its result as a value. *)
Definition put_try {A} (m : PutM A) : PutM (result A PutValidationError) := (m.1, Ok m.2).
End monad.

Declare Scope put_scope.
Delimit Scope put_scope with put.
Notation "'let!' x := m 'in' k" := (put_bind m (λ x, k))
  (at level 10, x pattern, m at level 100, k at level 200) : put_scope.

(** rmp_serde on the record bodies: what a client attaches a payment to is a pair. *)
Class BodySerde `{Bls} := {
  serde_bytes :: Serde bytes;
  serde_target :: Serde PointerTarget;
  serde_metrics :: Serde QuotingMetrics;
  serde_scratchpad :: Serde Scratchpad;
  serde_pointer :: Serde Pointer;
  serde_graph_entries :: Serde (list GraphEntry);
  serde_paid_bytes :: Serde (ProofOfPayment * bytes);
  serde_paid_scratchpad :: Serde (ProofOfPayment * Scratchpad);
  serde_paid_graph_entry :: Serde (ProofOfPayment * GraphEntry);
  serde_paid_pointer :: Serde (ProofOfPayment * Pointer);
  serde_merkle_bytes :: Serde (MerklePaymentProof * bytes);
  serde_merkle_scratchpad :: Serde (MerklePaymentProof * Scratchpad);
  serde_merkle_graph_entry :: Serde (MerklePaymentProof * GraphEntry);
  serde_merkle_pointer :: Serde (MerklePaymentProof * Pointer);
}.

(** The chunk of a pair is written as its value and its address recomputed. *)
#[global] Instance serde_paid_chunk `{XorNameLib} {P} `{Serde (P * bytes)} : Serde (P * Chunk) :=
  {| rmp_to_vec pc := rmp_to_vec (pc.1, chunk_value pc.2);
     rmp_from_slice b := (λ pv : P * bytes, (pv.1, chunk_new pv.2)) <$> rmp_from_slice b |}.

Section put_validation.
Context `{XorNameLib, Hex, Bls, Layout, Kad, RmpHeader, Libp2pIdentity, AntMerkle}.
Context `{!BodySerde}.
Context (env : NodeEnv).

#[local] Open Scope put_scope.

(** [Record { key, value, publisher: None, expires: None }]. *)
Definition local_record (key value : bytes) : KadRecord :=
  {| rec_key := key; rec_value := value; rec_publisher := None; rec_expires := None |}.

Definition validate_key_and_existence (address : NetworkAddress) (expected_record_key : bytes) : PutM bool :=
  let data_key := to_record_key address in
  if bool_decide (expected_record_key ≠ data_key) then put_err RecordKeyMismatch
  else put_lift (ok_or (env_is_record_key_present env data_key) LocalSwarmError).

Definition store_chunk (chunk : Chunk) (is_client_put : bool) : PutM unit :=
  let key := to_record_key (NA_ChunkAddress (chunk_address chunk)) in
  if chunk_is_too_big chunk then put_err (OversizedChunk (chunk_size chunk) CHUNK_MAX_SIZE)
  else
    let! value := put_lift (map_err (λ _, RecordSerializationFailed key)
                              (try_serialize_record chunk (DataOnly Chunk_t))) in
    put_emit (PutLocalRecord (local_record key value) is_client_put).

Definition validate_and_store_scratchpad_record (scratchpad : Scratchpad) (record_key : bytes)
    (is_client_put : bool) : PutM unit :=
  let scratchpad_key := to_record_key (NA_ScratchpadAddress (sp_address scratchpad)) in
  let store :=
    if negb (scratchpad_verify_signature scratchpad) then put_err InvalidScratchpadSignature
    else if scratchpad_is_too_big scratchpad then put_err (ScratchpadTooBig (scratchpad_size scratchpad))
    else
      let! value := put_lift (map_err (λ _, RecordSerializationFailed scratchpad_key)
                                (try_serialize_record scratchpad (DataOnly Scratchpad_t))) in
      put_emit (PutLocalRecord (local_record scratchpad_key value) is_client_put) in
  if bool_decide (scratchpad_key ≠ record_key) then put_err RecordKeyMismatch
  else
    let! local := put_lift (ok_or (env_get_local_record env scratchpad_key) LocalSwarmError) in
    match local with
    | Some local_pad =>
      let! local_pad := put_lift (map_err (λ _, InvalidRecord scratchpad_key)
                                    (try_deserialize_record (T := Scratchpad) local_pad)) in
      if bool_decide (local_pad = scratchpad) then put_ret tt
      else if sp_counter scratchpad <=? sp_counter local_pad then
        put_err (OutdatedRecordCounter (sp_counter scratchpad) (sp_counter local_pad))
      else store
    | None => store
    end.

Definition get_local_graphentries (addr : GraphEntryAddress) : PutM (list GraphEntry) :=
  let record_key := to_record_key (NA_GraphEntryAddress addr) in
  let! local := put_lift (ok_or (env_get_local_record env record_key) LocalSwarmError) in
  match local with
  | None => put_ret []
  | Some local_record =>
    put_lift (map_err (λ _, InvalidRecord record_key) (try_deserialize_record (T := list GraphEntry) local_record))
  end.

(** The record key of a graph entry. *)
Definition graph_entry_key (g : GraphEntry) : bytes := to_record_key (NA_GraphEntryAddress (graph_entry_address g)).

Definition validate_merge_and_store_graphentries (entries : list GraphEntry) (record_key : bytes)
    (is_client_put : bool) : PutM unit :=
  let entries_for_key := filter (λ s, graph_entry_key s = record_key) entries in
  if bool_decide (entries_for_key = []) then put_err (EmptyGraphEntry record_key)
  else
    let validated_entries :=
      bt_extend graph_entry_cmp [] (filter (λ t, graph_entry_verify_signature t = true) entries_for_key) in
    match validated_entries with
    | [] => put_ret tt
    | t :: _ =>
      let! local_entries := get_local_graphentries (graph_entry_address t) in
      let validated_entries := bt_extend graph_entry_cmp validated_entries local_entries in
      if bool_decide (length local_entries = length validated_entries) then put_ret tt
      else
        let! value := put_lift (map_err (λ _, RecordSerializationFailed record_key)
                                  (try_serialize_record validated_entries (DataOnly GraphEntry_t))) in
        put_emit (PutLocalRecord (local_record record_key value) is_client_put)
    end.

Definition get_local_pointer (addr : PointerAddress) : option Pointer :=
  let record_key := to_record_key (NA_PointerAddress addr) in
  match env_get_local_record env record_key with
  | Some (Some local_record) =>
    match record_header_from_record local_record with
    | Ok (DataOnly Pointer_t) => rok (try_deserialize_record (T := Pointer) local_record)
    | _ => None
    end
  | _ => None
  end.

Definition validate_and_store_pointer_record (pointer : Pointer) (key : bytes) (is_client_put : bool)
    : PutM unit :=
  let store :=
    let! value := put_lift (map_err (λ _, RecordSerializationFailed key)
                              (try_serialize_record pointer (DataOnly Pointer_t))) in
    put_emit (PutLocalRecord (local_record key value) is_client_put) in
  if negb (pointer_verify_signature pointer) then put_err InvalidPointerSignature
  else if bool_decide (key ≠ to_record_key (NA_PointerAddress (pointer_address pointer))) then
    put_err RecordKeyMismatch
  else
    match get_local_pointer (pointer_address pointer) with
    | Some local_pointer =>
      if bool_decide (pointer = local_pointer) then put_ret tt
      else if ptr_counter pointer <=? ptr_counter local_pointer then
        put_err (OutdatedRecordCounter (ptr_counter pointer) (ptr_counter local_pointer))
      else store
    | None => store
    end.

(** ** Payments *)

Definition payment_for_us_exists_and_is_still_valid (address : NetworkAddress) (data_type : DataTypes)
    (payment : ProofOfPayment) : PutM unit :=
  let key := to_record_key address in
  let self_peer_id := env_peer_id env in
  if negb (verify_for payment self_peer_id) then put_err (PaymentNotMadeToOurNode key)
  else
    let own_quotes := quotes_by_peer payment self_peer_id in
    if negb (verify_data_type payment (get_index data_type)) then put_err (PaymentMadeToIncorrectDataType key)
    else
      let! closest_k_peers := put_lift (ok_or (env_k_closest_local_peers env address) LocalSwarmError) in
      let payees := filter (λ peer_id, peer_id ∉ closest_k_peers) (payees payment) in
      let! _ :=
        if bool_decide (payees = []) then put_ret tt
        else
          let! network_density := put_lift (ok_or (env_network_density env) LocalSwarmError) in
          match network_density with
          | None => put_ret tt
          | Some network_density =>
            let payees := filter (λ peer_id, network_density < distance (NA_PeerId peer_id) address) payees in
            if bool_decide (payees = []) then put_ret tt else put_err (PaymentQuoteOutOfRange key payees)
          end in
      let payments_to_verify := digest payment in
      let owned_payment_quotes := quote_hash <$> own_quotes in
      let! reward_amount :=
        match verify_data_payment (env_verify_payment env 1) owned_payment_quotes payments_to_verify with
        | Some amount => put_ret amount
        | None =>
          put_lift (ok_or (verify_data_payment (env_verify_payment env 2) owned_payment_quotes payments_to_verify)
                      (PaymentVerificationFailed key))
        end in
      if negb (reward_amount =? 0) then put_emit NotifyPaymentReceived else put_ret tt.

(** The fetch of [verify_cost_units]: asks again while [retries] are left. *)
Fixpoint fetch_with_retries {A} (query : nat → option A) (attempt retries : nat) : option A :=
  match query attempt, retries with
  | Some a, _ => Some a
  | None, O => None
  | None, S retries' => fetch_with_retries query (S attempt) retries'
  end.

Definition verify_cost_units (proof : MerklePaymentProof) (payment_info : OnChainPaymentInfo)
    (winner_pool_hash record_key : bytes) : PutM unit :=
  let! on_chain_commitments :=
    put_lift (ok_or (fetch_with_retries
                       (λ attempt, env_packed_commitments env attempt winner_pool_hash
                                     (oc_merkle_payment_timestamp payment_info))
                       1 (MAX_COST_UNIT_FETCH_RETRIES - 1))
                (MerklePaymentVerificationFailed record_key NoCommitments)) in
  put_lift (map_err (λ e, MerklePaymentVerificationFailed record_key (BadCostUnits e))
              (pool_verify_cost_units (mpp_winner_pool proof) on_chain_commitments winner_pool_hash)).

(** A failed density request counts as an unknown density. *)
Definition verify_paid_nodes_distance (paid_peer_ids : list bytes) (target_address : NetworkAddress)
    : result unit MerkleFailure :=
  match env_network_density env with
  | Some (Some distance_range) =>
    let effective_range := saturating_mul u256_max distance_range 10 in
    let nodes_outside_range :=
      omap (λ peer_id, let d := distance (NA_PeerId peer_id) target_address in
                       if effective_range <? d then Some (peer_id, d) else None) paid_peer_ids in
    if bool_decide (nodes_outside_range ≠ []) then Err (PaidNodesOutOfRange nodes_outside_range) else Ok tt
  | _ => Ok tt
  end.

Definition verify_merkle_payment (proof : MerklePaymentProof) (target_address : NetworkAddress) : PutM unit :=
  let record_key := to_record_key target_address in
  let failed := MerklePaymentVerificationFailed record_key in
  if bool_decide (mpp_address proof ≠ as_bytes target_address) then
    put_err (failed (ProofForOtherAddress (mpp_address proof) (as_bytes target_address)))
  else
    let hash := winner_pool_hash proof in
    let! payment_info :=
      match env_merkle_payment_info env 1 hash with
      | Some info => put_ret info
      | None => put_lift (ok_or (env_merkle_payment_info env 2 hash) (failed (NoPaymentInfo hash)))
      end in
    let! _ := put_lift (map_err (λ e, failed (BadProof e))
                (proof_verify (env_now env) proof (oc_depth payment_info) (oc_merkle_payment_timestamp payment_info)
                   hash (oc_paid_node_addresses payment_info))) in
    let! _ := verify_cost_units proof payment_info hash record_key in
    let midpoint := midpoint_address (pool_midpoint_proof (mpp_winner_pool proof)) in
    let reward_pool_address := NA_ChunkAddress (mkChunkAddress midpoint) in
    let! closest_peers := put_lift (ok_or (env_closest_peers env reward_pool_address PEERS_TO_QUERY)
                                      (failed (NoClosestPeers midpoint))) in
    if (length closest_peers <? PEERS_TO_QUERY)%nat then put_ret tt
    else
      let candidate_peer_ids_set : gset bytes := list_to_set closest_peers in
      let! paid_peer_ids := put_lift (map_err (λ e, failed (NoPaidPeerIds e))
                                        (corresponding_peer_ids proof (oc_paid_node_addresses payment_info))) in
      let! _ := put_lift (map_err failed (verify_paid_nodes_distance paid_peer_ids reward_pool_address)) in
      let legitimate_paid_nodes := length (filter (λ peer_id, peer_id ∈ candidate_peer_ids_set) paid_peer_ids) in
      let candidates_len := size candidate_peer_ids_set in
      let paid_nodes_count := length (oc_paid_node_addresses payment_info) in
      let validity_threshold := (paid_nodes_count / 2)%nat in
      if negb (validity_threshold <? legitimate_paid_nodes)%nat then
        put_err (TopologyVerificationFailed reward_pool_address (Z.of_nat legitimate_paid_nodes)
                   (Z.of_nat paid_nodes_count) (Z.of_nat candidates_len) (elements candidate_peer_ids_set) paid_peer_ids)
      else put_ret tt.

(** ** Entry points *)

(** [try_deserialize_record] with the error of the handlers. *)
Definition parse_body (T : Type) `{Serde T} (record : KadRecord) : PutM T :=
  put_lift (map_err (λ _, InvalidRecord (rec_key record)) (try_deserialize_record (T := T) record)).

(** The content version of the received record. *)
Definition received_version (record : KadRecord) : ValidationType :=
  VT_NonChunk (xorname_from_content (rec_value record)).

(** Runs a storing handler, reports the fetch as completed when it succeeds, returns its result. *)
Definition store_and_notify (store : PutM unit) (key : bytes) (version : ValidationType) : PutM unit :=
  let! _ := store in put_emit (NotifyFetchCompleted key version).

Definition validate_and_store_merkle_payment_record (record : KadRecord) (data_type : DataTypes) : PutM unit :=
  let record_key := rec_key record in
  match data_type with
  | Chunk_t =>
    let! (proof, chunk) := parse_body (MerklePaymentProof * Chunk) record in
    let net_addr := chunk_network_address chunk in
    let! already_exists := validate_key_and_existence net_addr record_key in
    if already_exists then put_emit (NotifyFetchCompleted record_key VT_Chunk)
    else
      let! _ := verify_merkle_payment proof net_addr in
      store_and_notify (store_chunk chunk true) record_key VT_Chunk
  | Scratchpad_t =>
    let! (proof, scratchpad) := parse_body (MerklePaymentProof * Scratchpad) record in
    let! _ := verify_merkle_payment proof (scratchpad_network_address scratchpad) in
    store_and_notify (validate_and_store_scratchpad_record scratchpad record_key true) record_key
      (received_version record)
  | GraphEntry_t =>
    let! (proof, graph_entry) := parse_body (MerklePaymentProof * GraphEntry) record in
    let! _ := verify_merkle_payment proof (NA_GraphEntryAddress (graph_entry_address graph_entry)) in
    store_and_notify (validate_merge_and_store_graphentries [graph_entry] record_key true) record_key
      (received_version record)
  | Pointer_t =>
    let! (proof, pointer) := parse_body (MerklePaymentProof * Pointer) record in
    let! _ := verify_merkle_payment proof (NA_PointerAddress (pointer_address pointer)) in
    store_and_notify (validate_and_store_pointer_record pointer record_key true) record_key
      (received_version record)
  end.

(** The branches of [validate_and_store_record], by the record's kind. *)
Definition client_paid_chunk (record : KadRecord) : PutM unit :=
  let! (payment, chunk) := parse_body (ProofOfPayment * Chunk) record in
  let! already_exists := validate_key_and_existence (chunk_network_address chunk) (rec_key record) in
  let! payment_res :=
    put_try (payment_for_us_exists_and_is_still_valid (chunk_network_address chunk) Chunk_t payment) in
  if already_exists then put_emit (NotifyFetchCompleted (rec_key record) VT_Chunk)
  else
    let! _ := put_lift payment_res in
    store_and_notify (store_chunk chunk true) (rec_key record) VT_Chunk.

Definition client_paid_scratchpad (record : KadRecord) : PutM unit :=
  let! (payment, scratchpad) := parse_body (ProofOfPayment * Scratchpad) record in
  let! _ := validate_key_and_existence (scratchpad_network_address scratchpad) (rec_key record) in
  let! payment_res :=
    put_try (payment_for_us_exists_and_is_still_valid (scratchpad_network_address scratchpad) Scratchpad_t payment) in
  let! _ := put_lift payment_res in
  let! store_scratchpad_result :=
    put_try (validate_and_store_scratchpad_record scratchpad (rec_key record) true) in
  let! _ :=
    match store_scratchpad_result with
    | Ok _ | Err (OutdatedRecordCounter _ _) =>
      put_emit (NotifyFetchCompleted (rec_key record) (received_version record))
    | Err _ => put_ret tt
    end in
  put_lift store_scratchpad_result.

Definition client_scratchpad (record : KadRecord) : PutM unit :=
  let! scratchpad := parse_body Scratchpad record in
  let! exists_locally := validate_key_and_existence (NA_ScratchpadAddress (sp_address scratchpad)) (rec_key record) in
  if negb exists_locally then put_err (NoPayment (rec_key record))
  else validate_and_store_scratchpad_record scratchpad (rec_key record) true.

Definition client_paid_graph_entry (record : KadRecord) : PutM unit :=
  let! (payment, graph_entry) := parse_body (ProofOfPayment * GraphEntry) record in
  let net_addr := NA_GraphEntryAddress (graph_entry_address graph_entry) in
  let key := to_record_key net_addr in
  if bool_decide (rec_key record ≠ key) then put_err RecordKeyMismatch
  else
    let! already_exists := validate_key_and_existence net_addr key in
    let! payment_res := put_try (payment_for_us_exists_and_is_still_valid net_addr GraphEntry_t payment) in
    let! _ := if already_exists then put_ret tt else put_lift payment_res in
    store_and_notify (validate_merge_and_store_graphentries [graph_entry] key true) (rec_key record)
      (received_version record).

Definition client_pointer (record : KadRecord) : PutM unit :=
  let! pointer := parse_body Pointer record in
  let! already_exists := validate_key_and_existence (NA_PointerAddress (pointer_address pointer)) (rec_key record) in
  if negb already_exists then put_err (NoPayment (rec_key record))
  else
    store_and_notify (validate_and_store_pointer_record pointer (rec_key record) true) (rec_key record)
      (received_version record).

Definition client_paid_pointer (record : KadRecord) : PutM unit :=
  let! (payment, pointer) := parse_body (ProofOfPayment * Pointer) record in
  let net_addr := NA_PointerAddress (pointer_address pointer) in
  let! already_exists := validate_key_and_existence net_addr (rec_key record) in
  let! payment_res := put_try (payment_for_us_exists_and_is_still_valid net_addr Pointer_t payment) in
  let! _ := if already_exists then put_ret tt else put_lift payment_res in
  store_and_notify (validate_and_store_pointer_record pointer (rec_key record) true) (rec_key record)
    (received_version record).

Definition validate_and_store_record (record : KadRecord) : PutM unit :=
  let! kind := put_lift (map_err (λ _, InvalidRecordHeader) (record_header_from_record record)) in
  match kind with
  | DataWithPayment Chunk_t => client_paid_chunk record
  | DataOnly Chunk_t => put_err (NoPayment (rec_key record))
  | DataWithPayment Scratchpad_t => client_paid_scratchpad record
  | DataOnly Scratchpad_t => client_scratchpad record
  | DataOnly GraphEntry_t => put_err (NoPayment (rec_key record))
  | DataWithPayment GraphEntry_t => client_paid_graph_entry record
  | DataOnly Pointer_t => client_pointer record
  | DataWithPayment Pointer_t => client_paid_pointer record
  | DataWithMerklePayment data_type => validate_and_store_merkle_payment_record record data_type
  end.

Definition store_replicated_in_record (record : KadRecord) : PutM unit :=
  let! kind := put_lift (map_err (λ _, InvalidRecordHeader) (record_header_from_record record)) in
  match kind with
  | DataWithPayment _ | DataWithMerklePayment _ => put_err (UnexpectedRecordWithPayment (rec_key record))
  | DataOnly Chunk_t =>
    let! chunk := parse_body Chunk record in
    let! already_exists := validate_key_and_existence (chunk_network_address chunk) (rec_key record) in
    if already_exists then put_ret tt else store_chunk chunk false
  | DataOnly Scratchpad_t =>
    let! scratchpad := parse_body Scratchpad record in
    validate_and_store_scratchpad_record scratchpad (rec_key record) false
  | DataOnly GraphEntry_t =>
    let! graph_entries := parse_body (list GraphEntry) record in
    validate_merge_and_store_graphentries graph_entries (rec_key record) false
  | DataOnly Pointer_t =>
    let! pointer := parse_body Pointer record in
    validate_and_store_pointer_record pointer (rec_key record) false
  end.
End put_validation.
