(* ===== verification/PutValidationFacts.v ===== *)
(** * Facts about record validation

    What each storing handler of PutValidation sends, the stored bodies and when they are valid, and
    the order in which the body stored under a key may advance. *)

From stdpp Require Import base gmap strings countable list sorting.
From Stdlib Require Import ZArith Lia.
From S2P Require Import Prelude Protocol Storage RecordCache RecordStore MerkleTree Payments PutValidation.

(** ** Effects and results of the handler monad *)

Section effects.
Context `{Bls}.

Lemma elem_of_put_bind {A B} (m : PutM A) (k : A → PutM B) e :
  e ∈ (put_bind m k).1 ↔ e ∈ m.1 ∨ ∃ a, m.2 = Ok a ∧ e ∈ (k a).1.
Proof.
  unfold put_bind. destruct (m.2) as [a|err]; simpl; [|naive_solver].
  rewrite elem_of_app. naive_solver.
Qed.

Lemma put_bind_Ok_inv {A B} (m : PutM A) (k : A → PutM B) b :
  (put_bind m k).2 = Ok b → ∃ a, m.2 = Ok a ∧ (k a).2 = Ok b.
Proof. unfold put_bind. destruct (m.2); simpl; [eauto | done]. Qed.

Lemma put_lift_bind {A B} (a : A) (k : A → PutM B) : put_bind (put_lift (Ok a)) k = k a.
Proof. unfold put_bind. simpl. by destruct (k a). Qed.
End effects.

(** Takes apart that an effect is sent, or that a handler succeeds, down to the calls made. *)
Ltac inv_put :=
  repeat (cbv beta zeta in *; match goal with
  | H : _ ∈ (put_bind _ _).1 |- _ =>
      let a := fresh "a" in let Hr := fresh "Hr" in
      apply elem_of_put_bind in H as [H | (a & Hr & H)]
  | H : (put_bind _ _).2 = Ok _ |- _ =>
      let a := fresh "a" in let Hr := fresh "Hr" in apply put_bind_Ok_inv in H as (a & Hr & H)
  | H : _ ∈ (put_lift _).1 |- _ => by apply not_elem_of_nil in H
  | H : _ ∈ (put_ret _).1 |- _ => by apply not_elem_of_nil in H
  | H : _ ∈ (put_err _).1 |- _ => by apply not_elem_of_nil in H
  | H : _ ∈ (put_emit _).1 |- _ => apply list_elem_of_singleton in H
  | H : _ ∈ (put_try _).1 |- _ => cbn [put_try fst] in H
  | H : _ ∈ (parse_body _ _).1 |- _ => by apply not_elem_of_nil in H
  | H : (put_lift _).2 = _ |- _ => cbn [put_lift snd] in H
  | H : (put_ret _).2 = _ |- _ => cbn [put_ret snd] in H
  | H : (put_err _).2 = _ |- _ => cbn [put_err snd] in H
  | H : (put_emit _).2 = _ |- _ => cbn [put_emit snd] in H
  | H : (put_try _).2 = _ |- _ => cbn [put_try snd] in H
  | H : (parse_body _ _).2 = _ |- _ => unfold parse_body in H; cbn [put_lift snd] in H
  | H : _ ∈ (if ?b then _ else _).1 |- _ => destruct b eqn:?
  | H : (if ?b then _ else _).2 = Ok _ |- _ => destruct b eqn:?
  | H : _ ∈ (match ?x with _ => _ end).1 |- _ => destruct x eqn:?
  | H : (match ?x with _ => _ end).2 = Ok _ |- _ => destruct x eqn:?
  end; inv_ok; try discriminate).

(** ** Stored bodies *)

Section bodies.
Context `{XorNameLib, Hex, Bls, Layout, Kad, RmpHeader}.
Context `{!BodySerde}.

Inductive Body :=
  | B_Chunk (c : Chunk)
  | B_Scratchpad (s : Scratchpad)
  | B_Pointer (p : Pointer)
  | B_GraphEntries (es : list GraphEntry).

Definition body_serialize (b : Body) : result bytes ProtocolError :=
  match b with
  | B_Chunk c => try_serialize_record c (DataOnly Chunk_t)
  | B_Scratchpad s => try_serialize_record s (DataOnly Scratchpad_t)
  | B_Pointer p => try_serialize_record p (DataOnly Pointer_t)
  | B_GraphEntries es => try_serialize_record es (DataOnly GraphEntry_t)
  end.

Definition body_type (b : Body) : DataTypes :=
  match b with
  | B_Chunk _ => Chunk_t
  | B_Scratchpad _ => Scratchpad_t
  | B_Pointer _ => Pointer_t
  | B_GraphEntries _ => GraphEntry_t
  end.

(** The body authenticates itself under the key: a chunk by its hash, the others by the owner's
    signature, the owner's key hashing to the record's. *)
Definition body_valid (key : bytes) (b : Body) : Prop :=
  match b with
  | B_Chunk c => chunk_wf c ∧ key = xorname_from_content (chunk_value c) ∧ chunk_size c ≤ CHUNK_MAX_SIZE
  | B_Scratchpad s =>
    key = xorname_from_content (pk_to_bytes (scratchpad_owner s)) ∧ scratchpad_verify_signature s = true ∧
    scratchpad_size s ≤ SCRATCHPAD_MAX_SIZE
  | B_Pointer p => key = xorname_from_content (pk_to_bytes (ptr_owner p)) ∧ pointer_verify_signature p = true
  | B_GraphEntries es =>
    es ≠ [] ∧ StronglySorted (λ g h, graph_entry_cmp g h = Lt) es ∧
    Forall (λ g, key = xorname_from_content (pk_to_bytes (ge_owner g)) ∧ graph_entry_verify_signature g = true) es
  end.

(** A stored record: the serialised body, valid under the record's key. *)
Definition record_holds (r : KadRecord) (b : Body) : Prop :=
  ∃ v, body_serialize b = Ok v ∧ r = local_record (rec_key r) v ∧ body_valid (rec_key r) b.

(** How the body under a key may change: a pointer only to a pointer with a higher counter, any
    other body to a pointer, a scratchpad to one with a higher counter, graph entries to more of
    them; a chunk stays. *)
Definition body_le (b b' : Body) : Prop :=
  match b, b' with
  | B_Pointer p, B_Pointer q => p = q ∨ ptr_counter p < ptr_counter q
  | B_Pointer _, _ => False
  | _, B_Pointer _ => True
  | B_Scratchpad s, B_Scratchpad t => s = t ∨ sp_counter s < sp_counter t
  | B_GraphEntries es, B_GraphEntries fs => es ⊆ fs
  | B_Chunk c, B_Chunk d => c = d
  | _, _ => False
  end.

#[global] Instance body_le_preorder : PreOrder body_le.
Proof.
  split.
  - intros []; simpl; auto.
  - intros [] [] []; simpl; try done; intuition (subst; auto; try lia); try (right; lia); set_solver.
Qed.
End bodies.

(** rmp_serde reads back what it wrote, and does not read one body as another: a byte string, a
    struct of five and of four fields with an integer second, and a sequence of structs are
    different MessagePack values. *)
Class BodySerdeLaws `{BodySerde} : Prop := {
  bytes_laws :: SerdeLaws bytes;
  scratchpad_laws :: SerdeLaws Scratchpad;
  pointer_laws :: SerdeLaws Pointer;
  graph_entries_laws :: SerdeLaws (list GraphEntry);
  bytes_not_scratchpad : ∀ (v b : bytes), rmp_to_vec v = Some b → rmp_from_slice (T := Scratchpad) b = None;
  pointer_not_scratchpad : ∀ (p : Pointer) b, rmp_to_vec p = Some b → rmp_from_slice (T := Scratchpad) b = None;
  graph_not_scratchpad : ∀ (es : list GraphEntry) b,
    rmp_to_vec es = Some b → rmp_from_slice (T := Scratchpad) b = None;
  bytes_not_graph : ∀ (v b : bytes), rmp_to_vec v = Some b → rmp_from_slice (T := list GraphEntry) b = None;
  scratchpad_not_graph : ∀ (s : Scratchpad) b,
    rmp_to_vec s = Some b → rmp_from_slice (T := list GraphEntry) b = None;
  pointer_not_graph : ∀ (p : Pointer) b, rmp_to_vec p = Some b → rmp_from_slice (T := list GraphEntry) b = None;
}.

Section reading.
Context `{XorNameLib, Hex, Bls, Layout, Kad, RmpHeaderLaws}.
Context `{BSer : !BodySerde, BLaws : !BodySerdeLaws}.

(** The header and the body bytes of a serialised record. *)
Lemma serialized_parts {T} `{Serde T} (x : T) k v :
  try_serialize_record x k = Ok v →
  ∃ hdr body, v = hdr ++ body ∧ length hdr = RECORD_HEADER_SIZE ∧ rmp_to_vec x = Some body ∧
    record_header_try_serialize k = Ok hdr.
Proof.
  unfold try_serialize_record. intros Hv. inv_ok.
  destruct (record_header_serialize_ok k) as (b & Hb & Hlen & _).
  rewrite Hb in Hok. injection Hok as <-. subst v. eauto 6.
Qed.

(** What reads as another type than was written comes from the same body bytes. *)
Lemma deserialize_serialized {T U} `{Serde T, Serde U} (x : T) (y : U) k r v :
  try_serialize_record x k = Ok v → rec_value r = v → try_deserialize_record r = Ok y →
  ∃ body, rmp_to_vec x = Some body ∧ rmp_from_slice body = Some y.
Proof.
  intros (hdr & body & -> & Hlen & Hx & _)%serialized_parts Hr Hy. exists body. split; [done|].
  unfold try_deserialize_record in Hy. rewrite Hr in Hy. case_match; [|done]. inv_ok.
  by rewrite <- Hlen, drop_app_length in Hy.
Qed.

Lemma chunk_serialized_header (c : Chunk) k r v :
  try_serialize_record c k = Ok v → rec_value r = v → record_header_from_record r = Ok k.
Proof.
  intros Hc. change (try_serialize_record (chunk_value c) k = Ok v) in Hc.
  intros Hv. by destruct (serialize_record_inv _ _ _ r Hc Hv).
Qed.

Lemma record_holds_header r b :
  record_holds r b → record_header_from_record r = Ok (DataOnly (body_type b)).
Proof.
  intros (v & Hs & Hr & _). assert (rec_value r = v) as Hv by (by rewrite Hr).
  destruct b; simpl in Hs |- *; [by eapply chunk_serialized_header|..];
    by destruct (serialize_record_inv _ _ _ r Hs Hv).
Qed.

Lemma holds_scratchpad r b (s : Scratchpad) :
  record_holds r b → try_deserialize_record r = Ok s → b = B_Scratchpad s.
Proof.
  intros (v & Hs & Hr & _) Hd. assert (rec_value r = v) as Hv by (by rewrite Hr).
  destruct b as [c|s'|p|es]; simpl in Hs.
  - change (try_serialize_record (chunk_value c) (DataOnly Chunk_t) = Ok v) in Hs.
    destruct (deserialize_serialized _ _ _ _ _ Hs Hv Hd) as (b & Hb & Hb').
    rewrite (bytes_not_scratchpad _ _ Hb) in Hb'. done.
  - destruct (serialize_record_inv _ _ _ r Hs Hv) as [_ Hd']. congruence.
  - destruct (deserialize_serialized _ _ _ _ _ Hs Hv Hd) as (b & Hb & Hb').
    rewrite (pointer_not_scratchpad _ _ Hb) in Hb'. done.
  - destruct (deserialize_serialized _ _ _ _ _ Hs Hv Hd) as (b & Hb & Hb').
    rewrite (graph_not_scratchpad _ _ Hb) in Hb'. done.
Qed.

Lemma holds_graph_entries r b (es : list GraphEntry) :
  record_holds r b → try_deserialize_record r = Ok es → b = B_GraphEntries es.
Proof.
  intros (v & Hs & Hr & _) Hd. assert (rec_value r = v) as Hv by (by rewrite Hr).
  destruct b as [c|s'|p|es']; simpl in Hs.
  - change (try_serialize_record (chunk_value c) (DataOnly Chunk_t) = Ok v) in Hs.
    destruct (deserialize_serialized _ _ _ _ _ Hs Hv Hd) as (b & Hb & Hb').
    rewrite (bytes_not_graph _ _ Hb) in Hb'. done.
  - destruct (deserialize_serialized _ _ _ _ _ Hs Hv Hd) as (b & Hb & Hb').
    rewrite (scratchpad_not_graph _ _ Hb) in Hb'. done.
  - destruct (deserialize_serialized _ _ _ _ _ Hs Hv Hd) as (b & Hb & Hb').
    rewrite (pointer_not_graph _ _ Hb) in Hb'. done.
  - destruct (serialize_record_inv _ _ _ r Hs Hv) as [_ Hd']. congruence.
Qed.

(** A pointer that is not read locally is not there. *)
Lemma holds_pointer_read r p :
  record_holds r (B_Pointer p) → try_deserialize_record r = Ok p.
Proof.
  intros (v & Hs & Hr & _). assert (rec_value r = v) as Hv by (by rewrite Hr).
  by destruct (serialize_record_inv _ _ _ r Hs Hv).
Qed.
End reading.

(** ** What the storing handlers send *)

(** An ascending list is its own ordered set. *)
Lemma bt_insert_last {A} (cmp : A → A → comparison) `{!CmpLaws cmp} x s :
  (∀ y, y ∈ s → cmp y x = Lt) → bt_insert cmp x s = s ++ [x].
Proof.
  induction s as [|y s IH]; intros Hlt; [done|]. simpl. rewrite (cmp_antisym cmp y x), (Hlt y) by left. simpl.
  rewrite IH; [done|]. intros z Hz. apply Hlt. by right.
Qed.

Lemma bt_extend_ascending {A} (cmp : A → A → comparison) `{!CmpLaws cmp} s l :
  StronglySorted (λ x y, cmp x y = Lt) (s ++ l) → bt_extend cmp s l = s ++ l.
Proof.
  unfold bt_extend. revert s. induction l as [|x l IH]; intros s Hs; [by rewrite app_nil_r|]. simpl.
  rewrite bt_insert_last; [|done|].
  - rewrite IH; [by rewrite <- app_assoc|]. by rewrite <- app_assoc.
  - intros y Hy. apply StronglySorted_app in Hs as (Hall & _ & _). apply Hall; [done|by left].
Qed.

Lemma list_filter_all' {A} (P : A → Prop) `{∀ x, Decision (P x)} (l : list A) : (∀ x, x ∈ l → P x) → filter P l = l.
Proof.
  induction l as [|x l IH]; intros Hall; [done|]. rewrite filter_cons_True by (apply Hall; left). rewrite IH; [done|].
  intros y Hy. apply Hall. by right.
Qed.

Section handlers.
Context `{XorNameLib, Hex, BlsOrdLaws, Layout, Kad, RmpHeaderLaws, Libp2pIdentity, AntMerkle}.
Context `{BSer : !BodySerde, BLaws : !BodySerdeLaws}.
Context (env : NodeEnv).

(** The record found under a key is valid under it; and so for all keys. *)
Definition local_valid_at (k : bytes) : Prop :=
  ∀ l, env_get_local_record env k = Some (Some l) → rec_key l = k ∧ ∃ b, record_holds l b.
Definition locals_valid : Prop := ∀ k, local_valid_at k.

(** A record that may be written at a key: valid, and an advance on what is found there. *)
Definition put_ok (key : bytes) (r : KadRecord) : Prop :=
  rec_key r = key ∧ ∃ b, record_holds r b ∧
  (body_type b ≠ Chunk_t → ∀ l b0, env_get_local_record env key = Some (Some l) → record_holds l b0 → body_le b0 b) ∧
  (body_type b = Chunk_t → env_is_record_key_present env key = Some false).

Lemma validate_key_ok address key present :
  (validate_key_and_existence env address key).2 = Ok present →
  key = to_record_key address ∧ env_is_record_key_present env key = Some present.
Proof.
  unfold validate_key_and_existence. intros Hk. inv_put.
  apply bool_decide_eq_false, dec_stable in Heqb. by subst.
Qed.

Lemma validate_key_silent address key e : e ∉ (validate_key_and_existence env address key).1.
Proof. unfold validate_key_and_existence. intros He. inv_put. Qed.

Lemma store_chunk_effect c client e :
  chunk_wf c → e ∈ (store_chunk c client).1 →
  env_is_record_key_present env (chunk_name c) = Some false →
  ∃ r, e = PutLocalRecord r client ∧ put_ok (chunk_name c) r.
Proof.
  intros Hwf He Hp. unfold store_chunk in He. inv_put. simpl in *.
  eexists. split; [done|]. split; [done|]. exists (B_Chunk c). split; [|done].
  exists a. split; [done|]. split; [done|]. simpl. rewrite Hwf. simpl.
  split; [done|]. split; [done|]. unfold chunk_is_too_big in *. lia.
Qed.

Lemma scratchpad_effect s key client e :
  e ∈ (validate_and_store_scratchpad_record env s key client).1 →
  key = to_record_key (NA_ScratchpadAddress (sp_address s)) ∧ ∃ r, e = PutLocalRecord r client ∧ put_ok key r.
Proof.
  intros He. unfold validate_and_store_scratchpad_record in He. cbv zeta in He.
  destruct (bool_decide_reflect (to_record_key (NA_ScratchpadAddress (sp_address s)) ≠ key)) as [|Hkey]; [inv_put|].
  apply dec_stable in Hkey. rewrite Hkey in He.
  apply elem_of_put_bind in He as [He|(l & Hl & He)]; [inv_put|]. simpl in Hl. inv_ok.
  assert (∀ l b0, env_get_local_record env key = Some (Some l) → record_holds l b0 → body_le b0 (B_Scratchpad s)) as Hle.
  { intros l' b0 Hl' Hb. rewrite Hl in Hl'. injection Hl' as ->.
    apply elem_of_put_bind in He as [He|(old & Ho & He)]; [inv_put|]. simpl in Ho. inv_ok.
    rewrite (holds_scratchpad _ _ _ Hb Ho). simpl.
    destruct (Z.leb_spec (sp_counter s) (sp_counter old)); [|by right]. inv_put. }
  assert (e ∈ (if negb (scratchpad_verify_signature s) then put_err InvalidScratchpadSignature
    else if scratchpad_is_too_big s then put_err (ScratchpadTooBig (scratchpad_size s))
    else let! value := put_lift (map_err (λ _, RecordSerializationFailed key)
                                (try_serialize_record s (DataOnly Scratchpad_t))) in
      put_emit (PutLocalRecord (local_record key value) client))%put.1) as He'.
  { destruct l as [l|]; [|done].
    apply elem_of_put_bind in He as [He|(old & Ho & He)]; [inv_put|].
    case_bool_decide; [inv_put|]. case_match; [inv_put|done]. }
  clear He. split; [done|]. inv_put. eexists. split; [done|]. split; [done|]. exists (B_Scratchpad s).
  split; [|split; [intros _; exact Hle|done]].
  exists a. split; [done|]. split; [done|]. simpl. rewrite <- Hkey. split; [done|].
  apply negb_false_iff in Heqb. split; [done|]. unfold scratchpad_is_too_big in *. lia.
Qed.

Lemma pointer_effect p key client e :
  e ∈ (validate_and_store_pointer_record env p key client).1 →
  key = to_record_key (NA_PointerAddress (pointer_address p)) ∧ ∃ r, e = PutLocalRecord r client ∧ put_ok key r.
Proof.
  intros He. unfold validate_and_store_pointer_record in He. cbv zeta in He.
  destruct (pointer_verify_signature p) eqn:Hsig; cbn [negb] in He; [|inv_put].
  destruct (bool_decide_reflect (key ≠ to_record_key (NA_PointerAddress (pointer_address p)))) as [|Hkey]; [inv_put|].
  apply dec_stable in Hkey.
  assert (∀ l b0, env_get_local_record env key = Some (Some l) → record_holds l b0 → body_le b0 (B_Pointer p)) as Hle.
  { intros l b0 Hl Hb. destruct b0 as [| |q|]; try done.
    unfold get_local_pointer in He. rewrite <- Hkey, Hl in He.
    rewrite (record_holds_header _ _ Hb), (holds_pointer_read _ _ Hb) in He. simpl in He.
    case_bool_decide; [inv_put|]. destruct (Z.leb_spec (ptr_counter p) (ptr_counter q)); [inv_put|by right]. }
  assert (e ∈ (let! value := put_lift (map_err (λ _, RecordSerializationFailed key)
                                (try_serialize_record p (DataOnly Pointer_t))) in
      put_emit (PutLocalRecord (local_record key value) client))%put.1) as He'.
  { case_match; [|done]. case_bool_decide; [inv_put|]. case_match; [inv_put|done]. }
  clear He. split; [done|]. inv_put. eexists. split; [done|]. split; [done|]. exists (B_Pointer p).
  split; [|split; [intros _; exact Hle|done]].
  exists a. split; [done|]. split; [done|]. simpl. by rewrite Hkey.
Qed.

(** The entries of a list that are for the key and verify, in order and without duplicates. *)
Definition validated (entries : list GraphEntry) (key : bytes) : list GraphEntry :=
  bt_extend graph_entry_cmp []
    (filter (λ t, graph_entry_verify_signature t = true) (filter (λ s, graph_entry_key s = key) entries)).

Lemma elem_of_validated entries key g :
  g ∈ validated entries key ↔ g ∈ entries ∧ graph_entry_key g = key ∧ graph_entry_verify_signature g = true.
Proof.
  unfold validated. rewrite (elem_of_bt_extend _). rewrite !list_elem_of_filter. set_solver.
Qed.

Lemma validated_sorted entries key : StronglySorted (λ g h, graph_entry_cmp g h = Lt) (validated entries key).
Proof. apply (bt_extend_sorted _). constructor. Qed.

(** The entries found locally, when the request and the reading succeed. *)
Lemma local_graphentries_ok g les :
  local_valid_at (graph_entry_key g) → (get_local_graphentries env (graph_entry_address g)).2 = Ok les →
  (env_get_local_record env (graph_entry_key g) = Some None ∧ les = []) ∨
  (∃ l, env_get_local_record env (graph_entry_key g) = Some (Some l) ∧ record_holds l (B_GraphEntries les)).
Proof.
  intros Hloc Hl. unfold get_local_graphentries in Hl. cbv zeta in Hl.
  apply put_bind_Ok_inv in Hl as (o & Ho & Hl). simpl in Ho. inv_ok.
  destruct o as [l|]; [|by injection Hl as <-; left]. simpl in Hl. inv_ok. right. exists l. split; [done|].
  destruct (Hloc _ Ho) as [_ [b Hb]]. by rewrite <- (holds_graph_entries _ _ _ Hb Hl).
Qed.

Lemma local_graphentries_silent g e : e ∉ (get_local_graphentries env (graph_entry_address g)).1.
Proof.
  intros He. unfold get_local_graphentries in He. cbv zeta in He.
  apply elem_of_put_bind in He as [He|(o & _ & He)]; [inv_put|]. destruct o; inv_put.
Qed.

Lemma merged_valid entries key g les :
  local_valid_at key → g ∈ validated entries key →
  (get_local_graphentries env (graph_entry_address g)).2 = Ok les →
  body_valid key (B_GraphEntries (bt_extend graph_entry_cmp (validated entries key) les)).
Proof.
  intros Hloc Hg Hl. pose proof (proj1 (elem_of_validated _ _ _) Hg) as (_ & Hk & _). rewrite <- Hk in Hloc. simpl. split; [|split].
  - intros E. assert (g ∈ bt_extend graph_entry_cmp (validated entries key) les) as Hin
      by (apply (elem_of_bt_extend _); by right).
    rewrite E in Hin. by apply not_elem_of_nil in Hin.
  - apply (bt_extend_sorted _), validated_sorted.
  - apply Forall_forall. intros h [Hh|Hh]%(elem_of_bt_extend _).
    + apply (local_graphentries_ok _ _ Hloc) in Hl as [[_ ->]|(l & El & Hb)]; [by apply not_elem_of_nil in Hh|].
      destruct (Hloc _ El) as [Hkl _]. destruct Hb as (v & _ & _ & (_ & _ & Hall)).
      rewrite Hkl, Hk in Hall. rewrite Forall_forall in Hall. by apply Hall.
    + apply elem_of_validated in Hh as (_ & <- & Hv). done.
Qed.

Lemma graph_effect entries key client e :
  local_valid_at key → e ∈ (validate_merge_and_store_graphentries env entries key client).1 →
  (∃ g, g ∈ entries ∧ key = graph_entry_key g) ∧ ∃ r, e = PutLocalRecord r client ∧ put_ok key r.
Proof.
  intros Hloc He. unfold validate_merge_and_store_graphentries in He. cbv zeta in He.
  case_bool_decide; [inv_put|]. fold (validated entries key) in He.
  destruct (validated entries key) as [|g rest] eqn:Ev; [inv_put|]. rewrite <- Ev in He.
  assert (g ∈ validated entries key) as Hg by (rewrite Ev; left).
  pose proof (proj1 (elem_of_validated _ _ _) Hg) as (Hin & Hk & _). split; [by exists g|].
  apply elem_of_put_bind in He as [He|(les & Hl & He)]; [by apply local_graphentries_silent in He|].
  case_bool_decide; [inv_put|]. inv_put.
  eexists. split; [done|]. split; [done|]. eexists (B_GraphEntries _). split; [|split; [intros _|done]].
  - exists a. split; [done|]. split; [done|]. by eapply merged_valid.
  - intros l b0 El Hb. rewrite <- Hk in El, Hloc.
    apply (local_graphentries_ok _ _ Hloc) in Hl as [[El' _]|(l' & El' & Hb')]; [congruence|].
    rewrite El' in El. injection El as ->.
    assert (b0 = B_GraphEntries les) as ->.
    { destruct Hb' as (v' & Hs' & Hr' & _). eapply holds_graph_entries; [done|].
      by destruct (serialize_record_inv _ _ _ l Hs' ltac:(by rewrite Hr')). }
    simpl. intros h Hh. apply (elem_of_bt_extend _). by left.
Qed.

(** ** The payment checks store nothing *)

Lemma payment_no_put address t payment r c :
  PutLocalRecord r c ∉ (payment_for_us_exists_and_is_still_valid env address t payment).1.
Proof. intros He. unfold payment_for_us_exists_and_is_still_valid in He. inv_put. Qed.

Lemma verify_cost_units_silent proof info hash key e : e ∉ (verify_cost_units env proof info hash key).1.
Proof. intros He. unfold verify_cost_units in He. inv_put. Qed.

Lemma merkle_payment_silent proof address e : e ∉ (verify_merkle_payment env proof address).1.
Proof.
  intros He. unfold verify_merkle_payment in He. cbv zeta in He.
  inv_put; by eapply verify_cost_units_silent.
Qed.

Lemma store_and_notify_put m key vt r c :
  PutLocalRecord r c ∈ (store_and_notify m key vt).1 → PutLocalRecord r c ∈ m.1.
Proof. unfold store_and_notify. intros He. inv_put; done. Qed.

(** ** The entry points *)

(** The payment a record of the kind [DataWithPayment t] carries, and the batch payment proof. *)
Definition record_payment (record : KadRecord) (t : DataTypes) : option ProofOfPayment :=
  match t with
  | Chunk_t => fst <$> rok (try_deserialize_record (T := ProofOfPayment * Chunk) record)
  | Scratchpad_t => fst <$> rok (try_deserialize_record (T := ProofOfPayment * Scratchpad) record)
  | GraphEntry_t => fst <$> rok (try_deserialize_record (T := ProofOfPayment * GraphEntry) record)
  | Pointer_t => fst <$> rok (try_deserialize_record (T := ProofOfPayment * Pointer) record)
  end.

Definition record_merkle_proof (record : KadRecord) (t : DataTypes) : option MerklePaymentProof :=
  match t with
  | Chunk_t => fst <$> rok (try_deserialize_record (T := MerklePaymentProof * Chunk) record)
  | Scratchpad_t => fst <$> rok (try_deserialize_record (T := MerklePaymentProof * Scratchpad) record)
  | GraphEntry_t => fst <$> rok (try_deserialize_record (T := MerklePaymentProof * GraphEntry) record)
  | Pointer_t => fst <$> rok (try_deserialize_record (T := MerklePaymentProof * Pointer) record)
  end.

(** The record is paid for: it carries a payment, or a batch payment proof, that the node accepts
    for an address with the record's key. *)
Definition paid_for (record : KadRecord) : Prop :=
  ∃ t address, to_record_key address = rec_key record ∧
  ((record_header_from_record record = Ok (DataWithPayment t) ∧ ∃ payment, record_payment record t = Some payment ∧
    (payment_for_us_exists_and_is_still_valid env address t payment).2 = Ok tt) ∨
   (record_header_from_record record = Ok (DataWithMerklePayment t) ∧
    ∃ proof, record_merkle_proof record t = Some proof ∧ (verify_merkle_payment env proof address).2 = Ok tt)).

Lemma paid_chunk_wf {P} `{Serde (P * bytes)} record (pc : P * Chunk) :
  try_deserialize_record record = Ok pc → chunk_wf pc.2.
Proof.
  unfold try_deserialize_record. case_match; [|done]. intros Hd. inv_ok. simpl in Hd.
  apply fmap_Some in Hd as (pv & _ & ->). apply chunk_new_wf.
Qed.

Lemma plain_chunk_wf record (c : Chunk) : try_deserialize_record record = Ok c → chunk_wf c.
Proof.
  unfold try_deserialize_record. case_match; [|done]. intros Hd. inv_ok.
  by eapply chunk_from_slice_wf.
Qed.

(** What a client's put or a replicated record makes the node write. *)
Definition written (record r : KadRecord) (paid_needed : bool) : Prop :=
  put_ok (rec_key record) r ∧
  (paid_needed = true → env_is_record_key_present env (rec_key record) = Some true ∨ paid_for record).

Lemma chunk_written record (chunk : Chunk) client r c n :
  chunk_wf chunk → PutLocalRecord r c ∈ (store_chunk chunk client).1 →
  (validate_key_and_existence env (chunk_network_address chunk) (rec_key record)).2 = Ok false →
  (n = true → paid_for record) → written record r n.
Proof.
  intros Hwf He [Hk Hp]%validate_key_ok Hpaid. simpl in Hk. rewrite Hk in Hp.
  apply store_chunk_effect in He as (r' & [= <- _] & Hr); [|done|done].
  split; [by rewrite Hk | intros Hn; right; by apply Hpaid].
Qed.

Lemma merkle_written record t r c :
  local_valid_at (rec_key record) → record_header_from_record record = Ok (DataWithMerklePayment t) →
  PutLocalRecord r c ∈ (validate_and_store_merkle_payment_record env record t).1 → written record r true.
Proof.
  intros Hloc Hh He. unfold validate_and_store_merkle_payment_record in He. cbv zeta in He.
  assert (∀ proof address, record_merkle_proof record t = Some proof → rec_key record = to_record_key address →
    (verify_merkle_payment env proof address).2 = Ok tt → paid_for record) as Hpaid.
  { intros proof address Hp Hk Hv. exists t, address. split; [done|]. right. eauto. }
  destruct t; (apply elem_of_put_bind in He as [He|([proof x] & Hb & He)]; [inv_put|]);
    unfold parse_body in Hb; simpl in Hb; inv_ok; cbv beta iota zeta in He.
  - apply elem_of_put_bind in He as [He|(present & Hk & He)]; [by apply validate_key_silent in He|].
    destruct present; [inv_put|].
    apply elem_of_put_bind in He as [He|([] & Hv & He)]; [by apply merkle_payment_silent in He|].
    apply store_and_notify_put in He. eapply chunk_written; [by apply (paid_chunk_wf _ _ Hb)|done..|]. intros _.
    apply validate_key_ok in Hk as [Hk _]. eapply Hpaid; [|done|done]. simpl. by rewrite Hb.
  - apply elem_of_put_bind in He as [He|([] & Hv & He)]; [by apply merkle_payment_silent in He|].
    apply store_and_notify_put, graph_effect in He as ((g & Hg & Hk) & r' & [= <- _] & Hr); [|done].
    apply list_elem_of_singleton in Hg as ->. split; [done|]. intros _. right.
    eapply Hpaid; [|exact Hk|exact Hv]. simpl. by rewrite Hb.
  - apply elem_of_put_bind in He as [He|([] & Hv & He)]; [by apply merkle_payment_silent in He|].
    apply store_and_notify_put, pointer_effect in He as (Hk & r' & [= <- _] & Hr).
    split; [done|]. intros _. right. eapply Hpaid; [|done|done]. simpl. by rewrite Hb.
  - apply elem_of_put_bind in He as [He|([] & Hv & He)]; [by apply merkle_payment_silent in He|].
    apply store_and_notify_put, scratchpad_effect in He as (Hk & r' & [= <- _] & Hr).
    split; [done|]. intros _. right. eapply Hpaid; [|done|done]. simpl. by rewrite Hb.
Qed.

(** A payment checked before a store, its result kept. *)
Lemma payment_paid record t payment address :
  record_header_from_record record = Ok (DataWithPayment t) → record_payment record t = Some payment →
  rec_key record = to_record_key address →
  (payment_for_us_exists_and_is_still_valid env address t payment).2 = Ok tt → paid_for record.
Proof. intros Hh Hp Hk Hv. exists t, address. split; [done|]. left. eauto. Qed.

Lemma client_written record r c :
  local_valid_at (rec_key record) → PutLocalRecord r c ∈ (validate_and_store_record env record).1 → written record r true.
Proof.
  intros Hloc He. unfold validate_and_store_record, client_paid_chunk, client_paid_scratchpad, client_scratchpad,
    client_paid_graph_entry, client_pointer, client_paid_pointer in He. cbv zeta in He.
  apply elem_of_put_bind in He as [He|(kind & Hh & He)]; [inv_put|]. simpl in Hh. inv_ok.
  destruct kind as [[]|t|t]; [inv_put|inv_put|..|by eapply merkle_written].
  - apply elem_of_put_bind in He as [He|(p & Hb & He)]; [inv_put|].
    apply elem_of_put_bind in He as [He|(present & Hk & He)]; [by apply validate_key_silent in He|].
    destruct present; cbn [negb] in He; [|inv_put].
    apply store_and_notify_put, pointer_effect in He as (_ & r' & [= <- _] & Hr).
    apply validate_key_ok in Hk as [_ Hk]. split; [done|]. by left.
  - apply elem_of_put_bind in He as [He|(s & Hb & He)]; [inv_put|].
    apply elem_of_put_bind in He as [He|(present & Hk & He)]; [by apply validate_key_silent in He|].
    destruct present; cbn [negb] in He; [|inv_put].
    apply scratchpad_effect in He as (_ & r' & [= <- _] & Hr).
    apply validate_key_ok in Hk as [_ Hk]. split; [done|]. by left.
  - destruct t; (apply elem_of_put_bind in He as [He|([payment x] & Hb & He)]; [inv_put|]);
      unfold parse_body in Hb; simpl in Hb; inv_ok; cbv beta iota zeta in He.
    + apply elem_of_put_bind in He as [He|(present & Hk & He)]; [by apply validate_key_silent in He|].
      apply elem_of_put_bind in He as [He|(res & Hp & He)]; [by apply payment_no_put in He|].
      destruct present; [inv_put|]. injection Hp as Hp.
      apply elem_of_put_bind in He as [He|([] & Hv & He)]; [inv_put|].
      apply store_and_notify_put in He. eapply chunk_written; [by apply (paid_chunk_wf _ _ Hb)|done..|]. intros _.
      apply validate_key_ok in Hk as [Hk _].
      eapply payment_paid; [exact Hh|simpl; by rewrite Hb|exact Hk|exact (eq_trans Hp Hv)].
    + case_bool_decide as Hkey; [inv_put|].
      apply elem_of_put_bind in He as [He|(present & Hk & He)]; [by apply validate_key_silent in He|].
      apply elem_of_put_bind in He as [He|(res & Hp & He)]; [by apply payment_no_put in He|]. injection Hp as Hp.
      apply elem_of_put_bind in He as [He|([] & Hv & He)]; [destruct present; inv_put|].
      apply store_and_notify_put, graph_effect in He as (_ & r' & [= <- _] & Hr); [|by rewrite <- Hkey].
      rewrite <- Hkey in *. split; [done|]. intros _. apply validate_key_ok in Hk as [_ Hk].
      destruct present; [by left|]. right.
      eapply payment_paid; [exact Hh|simpl; by rewrite Hb|exact Hkey|exact (eq_trans Hp Hv)].
    + apply elem_of_put_bind in He as [He|(present & Hk & He)]; [by apply validate_key_silent in He|].
      apply elem_of_put_bind in He as [He|(res & Hp & He)]; [by apply payment_no_put in He|]. injection Hp as Hp.
      apply elem_of_put_bind in He as [He|([] & Hv & He)]; [destruct present; inv_put|].
      apply store_and_notify_put, pointer_effect in He as (Hkey & r' & [= <- _] & Hr).
      split; [done|]. intros _. apply validate_key_ok in Hk as [_ Hk]. destruct present; [by left|]. right.
      eapply payment_paid; [exact Hh|simpl; by rewrite Hb|exact Hkey|exact (eq_trans Hp Hv)].
    + apply elem_of_put_bind in He as [He|(present & Hk & He)]; [by apply validate_key_silent in He|].
      apply elem_of_put_bind in He as [He|(res & Hp & He)]; [by apply payment_no_put in He|]. injection Hp as Hp.
      apply elem_of_put_bind in He as [He|([] & Hv & He)]; [inv_put|].
      apply elem_of_put_bind in He as [He|(res' & _ & He)].
      * apply scratchpad_effect in He as (Hkey & r' & [= <- _] & Hr). split; [done|]. intros _. right.
        eapply payment_paid; [exact Hh|simpl; by rewrite Hb|exact Hkey|exact (eq_trans Hp Hv)].
      * inv_put.
Qed.

Lemma replicated_written record r c :
  local_valid_at (rec_key record) → PutLocalRecord r c ∈ (store_replicated_in_record env record).1 → written record r false.
Proof.
  intros Hloc He. unfold store_replicated_in_record in He. cbv zeta in He.
  apply elem_of_put_bind in He as [He|(kind & Hh & He)]; [inv_put|].
  destruct kind as [[]|t|t]; [..|inv_put|inv_put];
    (apply elem_of_put_bind in He as [He|(x & Hb & He)]; [inv_put|]);
    unfold parse_body in Hb; simpl in Hb; inv_ok.
  - apply elem_of_put_bind in He as [He|(present & Hk & He)]; [by apply validate_key_silent in He|].
    destruct present; [inv_put|]. eapply chunk_written; [by eapply plain_chunk_wf|done..].
  - apply graph_effect in He as (_ & r' & [= <- _] & Hr); [by split|done].
  - apply pointer_effect in He as (_ & r' & [= <- _] & Hr). by split.
  - apply scratchpad_effect in He as (_ & r' & [= <- _] & Hr). by split.
Qed.
(** ** A record that is not held is stored as it is *)

Lemma chunk_reads r v : try_deserialize_record (T := bytes) r = Ok v → try_deserialize_record (T := Chunk) r = Ok (chunk_new v).
Proof.
  unfold try_deserialize_record. destruct (_ <? _)%nat; [|done]. simpl. destruct (rmp_from_slice _) as [w|]; simpl; [|done].
  by intros [= ->].
Qed.

(** A record that is not yet held. *)
Definition absent (key : bytes) : Prop :=
  env_is_record_key_present env key = Some false ∧ env_get_local_record env key = Some None.

Abbreviation stores r b := (record_holds r b → absent (rec_key r) → store_replicated_in_record env r = ([PutLocalRecord r false], Ok tt)).

Lemma chunk_copy r c : stores r (B_Chunk c).
Proof.
  intros Hr [Hpresent Hget]. pose proof (record_holds_header _ _ Hr) as Hhead. destruct Hr as (v & Hs & Hrec & Hwf & Hkey & Hsize).
  assert (rec_value r = v) as Hv by (by rewrite Hrec). simpl in Hs. pose proof Hs as Hs'.
  change (try_serialize_record (chunk_value c) (DataOnly Chunk_t) = Ok v) in Hs'.
  destruct (serialize_record_inv _ _ _ r Hs' Hv) as [_ Hd]. apply chunk_reads in Hd.
  assert (chunk_new (chunk_value c) = c) as Hc by (destruct c as [a w]; unfold chunk_wf in Hwf; simpl in *; by subst a).
  rewrite Hc in Hd. unfold store_replicated_in_record, parse_body. rewrite Hhead. cbn [map_err put_lift put_bind fst snd body_type].
  rewrite Hd. cbn [map_err put_lift put_bind fst snd]. unfold validate_key_and_existence, store_chunk.
  assert (chunk_address_xorname (chunk_address c) = rec_key r) as Hck by (by rewrite Hwf, Hkey). simpl. rewrite !Hck.
  rewrite bool_decide_eq_false_2 by tauto. rewrite Hpresent. cbn [ok_or put_lift put_bind fst snd app].
  unfold chunk_is_too_big. destruct (Z.ltb_spec CHUNK_MAX_SIZE (chunk_size c)); [lia|]. rewrite Hs. simpl. by rewrite Hrec.
Qed.

Lemma scratchpad_copy r s : stores r (B_Scratchpad s).
Proof.
  intros Hr [_ Hget]. pose proof (record_holds_header _ _ Hr) as Hhead. destruct Hr as (v & Hs & Hrec & Hkey & Hsig & Hsize).
  assert (rec_value r = v) as Hv by (by rewrite Hrec). simpl in Hs. destruct (serialize_record_inv _ _ _ r Hs Hv) as [_ Hd].
  assert (to_record_key (NA_ScratchpadAddress (sp_address s)) = rec_key r) as Hk by (by rewrite Hkey).
  unfold store_replicated_in_record, parse_body. rewrite Hhead. cbn [map_err put_lift put_bind fst snd body_type].
  rewrite Hd. cbn [map_err put_lift put_bind fst snd]. unfold validate_and_store_scratchpad_record. rewrite Hk.
  rewrite bool_decide_eq_false_2 by tauto. rewrite Hget. cbn [ok_or put_lift put_bind fst snd app]. rewrite Hsig. cbn [negb].
  unfold scratchpad_is_too_big. destruct (Z.ltb_spec SCRATCHPAD_MAX_SIZE (scratchpad_size s)); [lia|]. rewrite Hs. simpl. by rewrite Hrec.
Qed.

Lemma pointer_copy r p : stores r (B_Pointer p).
Proof.
  intros Hr [_ Hget]. pose proof (record_holds_header _ _ Hr) as Hhead. destruct Hr as (v & Hs & Hrec & Hkey & Hsig).
  assert (rec_value r = v) as Hv by (by rewrite Hrec). simpl in Hs. destruct (serialize_record_inv _ _ _ r Hs Hv) as [_ Hd].
  assert (to_record_key (NA_PointerAddress (pointer_address p)) = rec_key r) as Hk by (by rewrite Hkey).
  unfold store_replicated_in_record, parse_body. rewrite Hhead. cbn [map_err put_lift put_bind fst snd body_type].
  rewrite Hd. cbn [map_err put_lift put_bind fst snd]. unfold validate_and_store_pointer_record, get_local_pointer.
  rewrite Hsig, Hk, bool_decide_eq_false_2 by tauto. cbn [negb]. rewrite Hget, Hs. simpl. by rewrite Hrec.
Qed.

Lemma graph_copy r es : stores r (B_GraphEntries es).
Proof.
  intros Hr [_ Hget]. pose proof (record_holds_header _ _ Hr) as Hhead. destruct Hr as (v & Hs & Hrec & Hne & Hsorted & Hall).
  assert (rec_value r = v) as Hv by (by rewrite Hrec). simpl in Hs. destruct (serialize_record_inv _ _ _ r Hs Hv) as [_ Hd].
  unfold store_replicated_in_record, parse_body. rewrite Hhead. cbn [map_err put_lift put_bind fst snd body_type].
  rewrite Hd. cbn [map_err put_lift put_bind fst snd]. unfold validate_merge_and_store_graphentries. cbv zeta.
  rewrite Forall_forall in Hall.
  assert (filter (λ g, graph_entry_key g = rec_key r) es = es) as ->.
  { apply list_filter_all'. intros g Hg. destruct (Hall g Hg) as [Hk _]. by rewrite Hk. }
  rewrite bool_decide_eq_false_2 by done.
  assert (filter (λ g, graph_entry_verify_signature g = true) es = es) as ->.
  { apply list_filter_all'. intros g Hg. by destruct (Hall g Hg). }
  rewrite (bt_extend_ascending graph_entry_cmp [] es) by done. simpl. destruct es as [|g es]; [done|].
  destruct (Hall g ltac:(left)) as [Hk _]. unfold get_local_graphentries.
  assert (to_record_key (NA_GraphEntryAddress (graph_entry_address g)) = rec_key r) as -> by (by rewrite Hk).
  rewrite Hget. cbn [ok_or put_lift put_bind put_ret fst snd app]. unfold bt_extend at 1. cbn [foldl]. rewrite bool_decide_eq_false_2 by done.
  unfold bt_extend. cbn [foldl]. rewrite Hs. simpl. by rewrite Hrec.
Qed.

Lemma record_copied r b : stores r b.
Proof. destruct b; [apply chunk_copy|apply scratchpad_copy|apply pointer_copy|apply graph_copy]. Qed.

End handlers.
