(* ===== verification/PutValidationProps.v ===== *)
(** * Properties of record validation

    Of the model in PutValidation. The records a node holds, over any sequence of client puts,
    replicated records and removals, authenticate themselves under their keys; versions only
    advance; a key appears only by an accepted payment or by replication; what an accepted payment
    and an accepted batch payment establish; how graph entries merge. *)

From stdpp Require Import base gmap strings countable list sorting relations.
From Stdlib Require Import ZArith Lia.
From S2P Require Import Prelude Protocol Storage RecordCache RecordStore MerkleTree MerkleTreeProps Payments PaymentsProps.
From S2P Require Import PutValidation PutValidationFacts.

Section store_runs.
Context `{XorNameLib, Hex, BlsOrdLaws, Layout, Kad, RmpHeaderLaws, Libp2pIdentity, AntMerkle}.
Context `{BSer : !BodySerde, BLaws : !BodySerdeLaws}.

(** ** Runs of the handlers over the local records *)

Inductive NodeRequest :=
  | ClientPut (record : KadRecord)
  | Replicated (record : KadRecord).

Definition request_record (q : NodeRequest) : KadRecord :=
  match q with ClientPut record | Replicated record => record end.

Definition handle (env : NodeEnv) (q : NodeRequest) : PutM unit :=
  match q with
  | ClientPut record => validate_and_store_record env record
  | Replicated record => store_replicated_in_record env record
  end.

Definition apply_effect (st : gmap bytes KadRecord) (e : NodeEffect) : gmap bytes KadRecord :=
  match e with
  | PutLocalRecord r _ => <[rec_key r := r]> st
  | _ => st
  end.

Definition apply_effects (st : gmap bytes KadRecord) (es : list NodeEffect) : gmap bytes KadRecord :=
  foldl apply_effect st es.

(** The swarm driver answers requests for local records, from the store; a request whether a key is
    present may fail. *)
Definition env_reads (env : NodeEnv) (st : gmap bytes KadRecord) : Prop :=
  (∀ k, env_get_local_record env k = Some (st !! k)) ∧
  (∀ k b, env_is_record_key_present env k = Some b → b = bool_decide (is_Some (st !! k))).

(** The same of one key, whatever is read under others. *)
Definition reads_at (env : NodeEnv) (st : gmap bytes KadRecord) (k : bytes) : Prop :=
  env_get_local_record env k = Some (st !! k) ∧
  (∀ b, env_is_record_key_present env k = Some b → b = bool_decide (is_Some (st !! k))).

(** A validation that finds the record under its key as it is when its put takes effect: no other put of
    that key takes effect in between. *)
Inductive put_step : gmap bytes KadRecord → gmap bytes KadRecord → Prop :=
  | put_step_handle env q st : reads_at env st (rec_key (request_record q)) → put_step st (apply_effects st (handle env q).1).

(** The record store may also drop records. *)
Inductive node_step : gmap bytes KadRecord → gmap bytes KadRecord → Prop :=
  | node_step_put st st' : put_step st st' → node_step st st'
  | node_step_drop k st : node_step st (delete k st).

(** The stores that come about when validations overlap in any way: what one reads under its key is from any
    store that can come about. *)
Inductive racing_store : gmap bytes KadRecord → Prop :=
  | racing_empty : racing_store ∅
  | racing_put env q st_read st :
    racing_store st_read → reads_at env st_read (rec_key (request_record q)) → racing_store st →
    racing_store (apply_effects st (handle env q).1)
  | racing_drop k st : racing_store st → racing_store (delete k st).

Definition store_valid (st : gmap bytes KadRecord) : Prop :=
  ∀ k r, st !! k = Some r → rec_key r = k ∧ ∃ b, record_holds r b.

Lemma apply_effects_lookup st es k r :
  apply_effects st es !! k = Some r → st !! k = Some r ∨ ∃ c, PutLocalRecord r c ∈ es ∧ rec_key r = k.
Proof.
  unfold apply_effects. revert st. induction es as [|e es IH]; intros st Hk; simpl in *; [by left|].
  apply IH in Hk as [Hk|(c & Hin & Hk)]; [|right; exists c; by split; [right|]].
  destruct e as [r' c| |]; simpl in Hk; [|by left..].
  apply lookup_insert_Some in Hk as [[Hk ->]|[_ Hk]]; [|by left]. right. exists c. split; [left|done].
Qed.

Lemma apply_effects_keeps st es k : is_Some (st !! k) → is_Some (apply_effects st es !! k).
Proof.
  unfold apply_effects. revert st. induction es as [|e es IH]; intros st Hk; simpl; [done|]. apply IH.
  destruct e as [r c| |]; simpl; [|done..]. rewrite lookup_insert_is_Some'. by right.
Qed.

Lemma env_reads_at env st k : env_reads env st → reads_at env st k.
Proof. intros [Hget Hpres]. split; [apply Hget|]. intros b. apply Hpres. Qed.

Lemma reads_at_valid env st k : store_valid st → reads_at env st k → local_valid_at env k.
Proof. intros Hst [Hget _] l Hl. rewrite Hget in Hl. injection Hl as Hl. by apply Hst. Qed.

(** Every write of a handled request is allowed by what was read. *)
Lemma handle_written env st q r c :
  store_valid st → reads_at env st (rec_key (request_record q)) → PutLocalRecord r c ∈ (handle env q).1 →
  put_ok env (rec_key (request_record q)) r ∧
  match q with
  | ClientPut record => env_is_record_key_present env (rec_key record) = Some true ∨ paid_for env record
  | Replicated _ => True
  end.
Proof.
  intros Hst Hr He. pose proof (reads_at_valid _ _ _ Hst Hr) as Hloc. destruct q as [record|record]; simpl in *.
  - apply (client_written _ _ _ _ Hloc) in He as [Hok Hp]. auto.
  - apply (replicated_written _ _ _ _ Hloc) in He as [Hok _]. auto.
Qed.

(** Whatever was read of a valid store, what is written is valid. *)
Lemma puts_valid env q st_read st :
  store_valid st_read → reads_at env st_read (rec_key (request_record q)) → store_valid st →
  store_valid (apply_effects st (handle env q).1).
Proof.
  intros Hread Hr Hst k r [Hk|(c & He & Hk)]%apply_effects_lookup; [by apply Hst|].
  split; [done|]. apply (handle_written _ st_read) in He as [(_ & b & Hb & _) _]; [by exists b|done..].
Qed.

Lemma put_step_valid st st' : store_valid st → put_step st st' → store_valid st'.
Proof. intros Hst Hs. destruct Hs as [env q st0 Hr]. by apply (puts_valid env q st0 st0). Qed.

Lemma racing_store_valid st : racing_store st → store_valid st.
Proof.
  induction 1 as [|env q st_read st _ IHr Hr _ IH|k st _ IH]; [done|exact (puts_valid env q st_read st IHr Hr IH)|].
  intros k' r [_ Hk]%lookup_delete_Some. by apply IH.
Qed.

Lemma node_step_valid st st' : store_valid st → node_step st st' → store_valid st'.
Proof.
  intros Hst Hs. destruct Hs as [st0 st1 Hs|k0 st0]; [by eapply put_step_valid|].
  intros k r [_ Hk]%lookup_delete_Some. by apply Hst.
Qed.

Lemma node_run_valid st : rtc node_step ∅ st → store_valid st.
Proof.
  assert (∀ st0, rtc node_step st0 st → store_valid st0 → store_valid st) as Hind.
  { induction 1 as [|st1 st2 st3 Hs _ IH]; [done|]. intros Hst. by eapply IH, node_step_valid. }
  intros Hrun. by apply (Hind ∅).
Qed.

Lemma put_step_advances st st' k r b :
  store_valid st → put_step st st' → st !! k = Some r → record_holds r b →
  ∃ r' b', st' !! k = Some r' ∧ record_holds r' b' ∧ body_le b b'.
Proof.
  intros Hst Hs Hk Hb. destruct Hs as [env q st0 Hr].
  destruct (apply_effects_keeps st0 (handle env q).1 k) as [r' Hr']; [by eexists|].
  exists r'. destruct (apply_effects_lookup _ _ _ _ Hr') as [Hk'|(c & He & Hk')].
  - assert (r' = r) as -> by congruence. exists b. by repeat split.
  - apply (handle_written _ st0) in He as [(Hkey & b' & Hb' & Hle & Hc) _]; [|done..].
    rewrite <- Hkey, Hk' in Hle, Hc. exists b'. split; [done|]. split; [done|].
    rewrite <- Hkey, Hk' in Hr. destruct Hr as [Hget Hpres]. destruct (decide (body_type b' = Chunk_t)) as [Ht|Ht].
    + apply Hc, Hpres in Ht. rewrite Hk in Ht. rewrite bool_decide_eq_true_2 in Ht; [done|by eexists].
    + eapply Hle; [done| |done]. by rewrite Hget, Hk.
Qed.

Lemma put_run_advances st st' k r b :
  store_valid st → rtc put_step st st' → st !! k = Some r → record_holds r b →
  ∃ r' b', st' !! k = Some r' ∧ record_holds r' b' ∧ body_le b b'.
Proof.
  intros Hst Hrun. revert r b Hst. induction Hrun as [st|st st1 st' Hs Hrun IH]; intros r b Hst Hk Hb.
  - exists r, b. by repeat split.
  - destruct (put_step_advances _ _ _ _ _ Hst Hs Hk Hb) as (r1 & b1 & Hk1 & Hb1 & Hle1).
    destruct (IH r1 b1) as (r2 & b2 & Hk2 & Hb2 & Hle2); [by eapply put_step_valid|done..|].
    exists r2, b2. split; [done|]. split; [done|]. by etransitivity.
Qed.


(** C1: whatever clients put, peers replicate and the store drops, and however validations overlap, every
    record a node holds authenticates itself under its key: a chunk by its hash and a scratchpad by the signature of
    the owner whose key hashes to the record's, both within their size limits; a pointer or a non-empty ascending
    set of graph entries by such signatures, of whatever size. And nothing more is asked of a record: any that
    does so, graph entries above the documented maximum included, is held once it is replicated to a node without it. *)
Theorem store_self_authenticating k r :
  (∀ st, racing_store st → st !! k = Some r → rec_key r = k ∧ ∃ b, record_holds r b) ∧
  (∀ env b, absent env k → rec_key r = k → record_holds r b →
     racing_store (apply_effects ∅ (handle env (Replicated r)).1) ∧ apply_effects ∅ (handle env (Replicated r)).1 !! k = Some r).
Proof.
  split; [intros st Hst; by apply racing_store_valid|]. intros env b Habsent <- Hb.
  assert ((handle env (Replicated r)).1 = [PutLocalRecord r false]) as Hput by (simpl; by rewrite (record_copied env r b Hb Habsent)).
  split.
  - apply (racing_put env (Replicated r) ∅); [constructor| |constructor]. destruct Habsent as [Hpres Hget].
    split; simpl; [by rewrite Hget|]. intros p. rewrite Hpres. by intros [= <-].
  - rewrite Hput. apply lookup_insert_eq.
Qed.

(** C2: while a record is not dropped, and no two validations of its key overlap, its version only advances: a
    scratchpad or a pointer is replaced only by one with a higher counter, graph entries are never lost, a chunk never
    changes, save that a pointer of the same owner may replace any other body. The condition is that each validation
    reads the record under its key as it is when its put takes effect, whatever happens to other keys; the node does
    not ensure it, and without it versions can go back ([DriverProps.racing_puts_go_back]). *)
Theorem store_versions_advance st st' k r :
  rtc node_step ∅ st → rtc put_step st st' → st !! k = Some r →
  ∃ r' b b', st' !! k = Some r' ∧ record_holds r b ∧ record_holds r' b' ∧ body_le b b'.
Proof.
  intros Hst%node_run_valid Hrun Hk. destruct (Hst _ _ Hk) as (_ & b & Hb).
  destruct (put_run_advances _ _ _ _ _ Hst Hrun Hk Hb) as (r' & b' & Hr' & Hb' & Hle). eauto 8.
Qed.

(** C3: a key that was not held appears only by a record replicated under it, or by a client's put
    that carries a payment, or a batch payment proof, the node accepts for an address with that
    key. *)
Theorem new_keys_are_paid env st q k r :
  rtc node_step ∅ st → env_reads env st → st !! k = None →
  apply_effects st (handle env q).1 !! k = Some r →
  rec_key (request_record q) = k ∧
  match q with
  | ClientPut record => paid_for env record
  | Replicated _ => True
  end.
Proof.
  intros Hst%node_run_valid Hr Hk Hk'. apply apply_effects_lookup in Hk' as [Hk'|(c & He & Hk')]; [congruence|].
  apply (handle_written _ st) in He as [(Hkey & _) Hp]; [|done|by apply env_reads_at].
  split; [congruence|]. destruct q as [record|record]; [|done]. simpl in *.
  destruct Hp as [Hp|Hp]; [|done]. apply Hr in Hp. rewrite <- Hkey, Hk', Hk in Hp. done.
Qed.
End store_runs.

(** ** Payments *)

Section payments.
Context `{XorNameLib, Hex, Bls, Layout, Kad, RmpHeader, Libp2pIdentity, AntMerkle}.
Context `{BSer : !BodySerde}.
Context (env : NodeEnv).

(** The amount a node is paid, from the first attempt or from the retry. *)
Definition reward (payment : ProofOfPayment) : option Z :=
  let verify attempt := verify_data_payment (env_verify_payment env attempt)
                          (quote_hash <$> quotes_by_peer payment (env_peer_id env)) (digest payment) in
  match verify 1%nat with Some amount => Some amount | None => verify 2%nat end.

(** A payee is known to be close to the address, or no more is known of the network. *)
Definition payees_in_range (address : NetworkAddress) (payment : ProofOfPayment) : Prop :=
  ∃ closest, env_k_closest_local_peers env address = Some closest ∧
  ((∀ peer, peer ∈ payees payment → peer ∈ closest) ∨
   ∃ density, env_network_density env = Some density ∧
     ∀ d peer, density = Some d → peer ∈ payees payment → peer ∈ closest ∨ distance (NA_PeerId peer) address ≤ d).

Lemma filter_nil_iff {A} (P : A → Prop) `{!∀ x, Decision (P x)} (l : list A) :
  filter P l = [] ↔ ∀ x, x ∈ l → ¬ P x.
Proof.
  split.
  - intros E x Hx HP. assert (x ∈ filter P l) as Hin by (by apply list_elem_of_filter).
    rewrite E in Hin. by apply not_elem_of_nil in Hin.
  - intros Hn. destruct (filter P l) as [|x l'] eqn:E; [done|].
    assert (x ∈ filter P l) as [HP Hx]%list_elem_of_filter by (rewrite E; left). by apply Hn in Hx.
Qed.

(** The range check of the payees, as the handler makes it. *)
Definition range_check (address : NetworkAddress) (payment : ProofOfPayment) (closest : list bytes) : PutM unit :=
  let far := filter (λ peer_id, peer_id ∉ closest) (payees payment) in
  (if bool_decide (far = []) then put_ret tt
   else
     let! network_density := put_lift (ok_or (env_network_density env) LocalSwarmError) in
     match network_density with
     | None => put_ret tt
     | Some network_density =>
       let payees := filter (λ peer_id, network_density < distance (NA_PeerId peer_id) address) far in
       if bool_decide (payees = []) then put_ret tt
       else put_err (PaymentQuoteOutOfRange (to_record_key address) payees)
     end)%put.

Lemma range_check_ok address payment closest :
  env_k_closest_local_peers env address = Some closest →
  (range_check address payment closest).1 = [] ∧
  ((range_check address payment closest).2 = Ok tt ↔ payees_in_range address payment).
Proof.
  intros Hc. unfold range_check, payees_in_range. cbv zeta. rewrite Hc.
  case_bool_decide as Hnil.
  { split; [done|]. split; [|done]. intros _. exists closest. split; [done|]. left. intros peer Hp.
    rewrite filter_nil_iff in Hnil. by eapply dec_stable, Hnil. }
  assert (¬ ∀ peer, peer ∈ payees payment → peer ∈ closest) as Hfar.
  { intros Hall. apply Hnil, filter_nil_iff. intros x Hx Hn. by apply Hn, Hall. }
  destruct (env_network_density env) as [[d|]|]; simpl.
  - case_bool_decide as Hd; simpl; (split; [done|]); (split; try done).
    + intros _. exists closest. split; [done|]. right. exists (Some d). split; [done|].
      intros d' peer [= <-] Hp. destruct (decide (peer ∈ closest)) as [|Hnot]; [by left|]. right.
      rewrite filter_nil_iff in Hd. apply Z.nlt_ge, Hd, list_elem_of_filter. done.
    + intros (c & [= <-] & [Hall|(density & [= <-] & Hall)]); [by destruct Hfar|].
      destruct Hd. apply filter_nil_iff. intros x [Hn Hx]%list_elem_of_filter.
      apply Z.nlt_ge. by destruct (Hall d x eq_refl Hx).
  - split; [done|]. split; [|done]. intros _. exists closest. split; [done|]. right. by exists None.
  - split; [done|]. split; [done|]. intros (c & [= <-] & [Hall|(density & [=] & _)]). by destruct Hfar.
Qed.

(** The payment check, in the order the node makes it. *)
Lemma payment_steps address t payment :
  let m := payment_for_us_exists_and_is_still_valid env address t payment in
  (m.2 = Ok tt ↔ verify_for payment (env_peer_id env) = true ∧ verify_data_type payment (get_index t) = true ∧
                 payees_in_range address payment ∧ is_Some (reward payment)) ∧
  (m.2 = Ok tt → m.1 = match reward payment with Some 0 | None => [] | Some _ => [NotifyPaymentReceived] end).
Proof.
  intros m. unfold m, payment_for_us_exists_and_is_still_valid. cbv zeta. clear m.
  destruct (verify_for payment (env_peer_id env)) eqn:Hv; cbn [negb]; [|split; [split; [done|naive_solver]|done]].
  destruct (verify_data_type payment (get_index t)) eqn:Hd; cbn [negb]; [|split; [split; [done|naive_solver]|done]].
  destruct (env_k_closest_local_peers env address) as [closest|] eqn:Hc; cbn [ok_or].
  2:{ split; [|done]. split; [done|]. intros (_ & _ & (c & Hc' & _) & _). congruence. }
  rewrite put_lift_bind. fold (range_check address payment closest).
  destruct (range_check_ok address payment closest Hc) as [Hsil Hrange].
  destruct (range_check address payment closest) as [es [[]|err]]; simpl in Hsil, Hrange; subst es; simpl.
  2:{ split; [|done]. split; [done|]. intros (_ & _ & Hin & _). by apply Hrange in Hin. }
  assert (payees_in_range address payment) as Hin by (by apply Hrange). unfold reward.
  destruct (verify_data_payment (env_verify_payment env 1) _ _) as [amount|]; simpl.
  { unfold put_bind; simpl. destruct (Z.eqb_spec amount 0) as [->|]; simpl; (split; [naive_solver|done || by destruct amount]). }
  destruct (verify_data_payment (env_verify_payment env 2) _ _) as [amount|]; simpl; unfold put_bind; simpl.
  2:{ split; [|done]. split; [done|]. by intros (_ & _ & _ & [? [=]]). }
  destruct (Z.eqb_spec amount 0) as [->|]; simpl; (split; [naive_solver|done || by destruct amount]).
Qed.

(** C28: a payment is accepted exactly when every quote of it is signed by the peer it names and
    pays this node, all quotes are for the record's data type, the payees are in range of the
    address as far as the node knows, and the chain confirms every payment in the first attempt or
    in the retry. It is then reported to the record store exactly when this node earned something. *)
Theorem payment_accepted_iff address t payment :
  let m := payment_for_us_exists_and_is_still_valid env address t payment in
  (m.2 = Ok tt ↔ verify_for payment (env_peer_id env) = true ∧ verify_data_type payment (get_index t) = true ∧
                 payees_in_range address payment ∧ is_Some (reward payment)) ∧
  (m.2 = Ok tt → m.1 = match reward payment with Some 0 | None => [] | Some _ => [NotifyPaymentReceived] end).
Proof. apply payment_steps. Qed.

(** A payment is not bound to the content it was quoted for: a payment the node accepted for
    one address it accepts again for any other address of the same data type to which the payees are
    as close. *)
Theorem payment_reusable address address' t payment closest :
  (payment_for_us_exists_and_is_still_valid env address t payment).2 = Ok tt →
  env_k_closest_local_peers env address' = Some closest →
  (∀ peer, peer ∈ payees payment → peer ∈ closest) →
  (payment_for_us_exists_and_is_still_valid env address' t payment).2 = Ok tt.
Proof.
  intros (Hv & Hd & _ & Hr)%payment_steps Hc Hall. apply payment_steps.
  split; [done|]. split; [done|]. split; [|done]. exists closest. auto.
Qed.

Lemma fetch_with_retries_Some {A} (query : nat → option A) attempt retries a :
  fetch_with_retries query attempt retries = Some a →
  ∃ n, (attempt ≤ n ≤ attempt + retries)%nat ∧ query n = Some a.
Proof.
  revert attempt. induction retries as [|retries IH]; intros attempt Hf; simpl in Hf;
    destruct (query attempt) eqn:Hq; try done.
  - exists attempt. split; [lia|congruence].
  - exists attempt. split; [lia|congruence].
  - apply IH in Hf as (n & Hn & Hf). exists n. split; [lia|done].
Qed.

Lemma verify_cost_units_ok proof info hash key :
  (verify_cost_units env proof info hash key).2 = Ok tt →
  ∃ attempt commitments, (1 ≤ attempt ≤ 3)%nat ∧
    env_packed_commitments env attempt hash (oc_merkle_payment_timestamp info) = Some commitments ∧
    pool_verify_cost_units (mpp_winner_pool proof) commitments hash = Ok tt.
Proof.
  unfold verify_cost_units. intros Hc. inv_put.
  apply fetch_with_retries_Some in Hr as (n & Hn & Hq). exists n, a. split; [|done].
  unfold MAX_COST_UNIT_FETCH_RETRIES in Hn. lia.
Qed.

Lemma verify_paid_nodes_distance_ok paid address :
  verify_paid_nodes_distance env paid address = Ok tt →
  ∀ range peer, env_network_density env = Some (Some range) → peer ∈ paid →
    distance (NA_PeerId peer) address ≤ saturating_mul u256_max range 10.
Proof.
  unfold verify_paid_nodes_distance. intros Hd range peer Hr Hp. rewrite Hr in Hd.
  case_bool_decide as Hn; [done|].
  destruct (Z.ltb_spec (saturating_mul u256_max range 10) (distance (NA_PeerId peer) address)) as [Hlt|]; [|done].
  exfalso. eapply not_elem_of_nil. rewrite <- Hn. apply list_elem_of_omap. exists peer. split; [done|].
  cbv zeta. apply Z.ltb_lt in Hlt. by rewrite Hlt.
Qed.

(** C29: what an accepted batch payment establishes: the proof is for the record's address; the
    contract knows the winner pool and, against its data, signatures, branches, timestamp and paid
    nodes verify; the cost units committed on chain are those of the signed metrics; and, unless the
    node knows fewer than twenty peers around the pool, the paid nodes are within ten times its range
    and more than half of them are among the closest peers. *)
Theorem merkle_payment_accepted proof address :
  (verify_merkle_payment env proof address).2 = Ok tt →
  mpp_address proof = as_bytes address ∧
  ∃ n info, (1 ≤ n ≤ 2)%nat ∧ env_merkle_payment_info env n (winner_pool_hash proof) = Some info ∧
  proof_verify (env_now env) proof (oc_depth info) (oc_merkle_payment_timestamp info) (winner_pool_hash proof)
    (oc_paid_node_addresses info) = Ok tt ∧
  (∃ attempt commitments, (1 ≤ attempt ≤ 3)%nat ∧
    env_packed_commitments env attempt (winner_pool_hash proof) (oc_merkle_payment_timestamp info) = Some commitments ∧
    pool_verify_cost_units (mpp_winner_pool proof) commitments (winner_pool_hash proof) = Ok tt) ∧
  let pool := NA_ChunkAddress (mkChunkAddress (midpoint_address (pool_midpoint_proof (mpp_winner_pool proof)))) in
  ∃ closest, env_closest_peers env pool 20 = Some closest ∧
  ((length closest < 20)%nat ∨
   ∃ paid, corresponding_peer_ids proof (oc_paid_node_addresses info) = Ok paid ∧
     (∀ range peer, env_network_density env = Some (Some range) → peer ∈ paid →
        distance (NA_PeerId peer) pool ≤ saturating_mul u256_max range 10) ∧
     (length (oc_paid_node_addresses info) / 2 < length (filter (λ peer, peer ∈ closest) paid))%nat).
Proof.
  intros Hm. unfold verify_merkle_payment in Hm. cbv zeta in Hm.
  case_bool_decide as Ha; [done|]. split; [done|].
  apply put_bind_Ok_inv in Hm as (info & Hinfo & Hm).
  assert (∃ n, (1 ≤ n ≤ 2)%nat ∧ env_merkle_payment_info env n (winner_pool_hash proof) = Some info) as (n & Hn & Hi).
  { destruct (env_merkle_payment_info env 1 (winner_pool_hash proof)) as [i|] eqn:E; simpl in Hinfo; inv_ok.
    - subst i. exists 1%nat. split; [lia|done].
    - exists 2%nat. split; [lia|done]. }
  exists n, info. split; [done|]. split; [done|].
  apply put_bind_Ok_inv in Hm as ([] & Hp & Hm). simpl in Hp. inv_ok. split; [done|].
  apply put_bind_Ok_inv in Hm as ([] & Hc & Hm). apply verify_cost_units_ok in Hc. split; [done|].
  apply put_bind_Ok_inv in Hm as (closest & Hcl & Hm). simpl in Hcl. inv_ok. exists closest. split; [done|].
  destruct (Nat.ltb_spec (length closest) PEERS_TO_QUERY) as [Hlt|_]; [by left|]. right.
  apply put_bind_Ok_inv in Hm as (paid & Hpaid & Hm). simpl in Hpaid. inv_ok. exists paid. split; [done|].
  apply put_bind_Ok_inv in Hm as ([] & Hd & Hm). simpl in Hd. inv_ok.
  split; [by apply verify_paid_nodes_distance_ok|].
  destruct (Nat.ltb_spec (length (oc_paid_node_addresses info) / 2)
    (length (filter (λ peer_id, peer_id ∈@{gset bytes} list_to_set closest) paid))) as [Hlt|]; [|done].
  eapply Nat.lt_le_trans; [exact Hlt|]. apply Nat.eq_le_incl. f_equal. apply list_filter_iff.
  intros x. by rewrite elem_of_list_to_set.
Qed.
End payments.

(** ** Graph entries and pointers *)

Section merging.
Context `{XorNameLib, Hex, BlsOrdLaws, Layout, Kad, RmpHeaderLaws, Libp2pIdentity, AntMerkle}.
Context `{BSer : !BodySerde, BLaws : !BodySerdeLaws}.
Context (env : NodeEnv).

(** The graph entries a node holds at a key. *)
Definition local_entries (key : bytes) (les : list GraphEntry) : Prop :=
  (env_get_local_record env key = Some None ∧ les = []) ∨
  (∃ l, env_get_local_record env key = Some (Some l) ∧ record_holds l (B_GraphEntries les)).

Lemma local_entries_read g les :
  local_entries (graph_entry_key g) les → get_local_graphentries env (graph_entry_address g) = put_ret les.
Proof.
  unfold get_local_graphentries. cbv zeta. fold (graph_entry_key g).
  intros [[-> ->]|(l & -> & (v & Hs & Hl & _))]; cbn [ok_or]; rewrite put_lift_bind; [done|].
  destruct (serialize_record_inv _ _ _ l Hs ltac:(by rewrite Hl)) as [_ Hd]. by rewrite Hd.
Qed.

Lemma local_entries_NoDup key les : local_entries key les → NoDup les.
Proof.
  intros [[_ ->]|(l & _ & (v & _ & _ & (_ & Hs & _)))]; [constructor|].
  by eapply (bt_sorted_NoDup graph_entry_cmp).
Qed.

(** A merge of the same length as the local entries has nothing new. *)
Lemma merge_length new les :
  StronglySorted (λ g h, graph_entry_cmp g h = Lt) new → NoDup les →
  length les = length (bt_extend graph_entry_cmp new les) ↔ new ⊆ les.
Proof.
  intros Hnew Hles. assert (NoDup (bt_extend graph_entry_cmp new les)) as Hm
    by (by apply (bt_sorted_NoDup graph_entry_cmp), (bt_extend_sorted graph_entry_cmp)).
  assert (∀ g, g ∈ bt_extend graph_entry_cmp new les ↔ g ∈ les ∨ g ∈ new) as Hin
    by (intros g; apply (elem_of_bt_extend _)).
  split.
  - intros Hlen g Hg. assert (les ≡ₚ bt_extend graph_entry_cmp new les) as Hp.
    { apply submseteq_length_Permutation; [|lia]. apply NoDup_submseteq; [done|]. intros x Hx. apply Hin. by left. }
    rewrite Hp. apply Hin. by right.
  - intros Hsub. apply Permutation_length, NoDup_Permutation; [done..|].
    intros x. rewrite Hin. split; [auto|]. intros [?|?]; auto.
Qed.

(** Graph entries merge: entries of other keys or with bad signatures are ignored, and a list
    without an entry for the key is refused; what is stored is the set of the local and the valid new
    entries, in order and without duplicates, and it is written exactly when some valid entry is
    new. *)
Theorem graph_merge_spec entries key client les :
  local_entries key les →
  let new := validated entries key in
  let merged := bt_extend graph_entry_cmp new les in
  let res := validate_merge_and_store_graphentries env entries key client in
  ((∀ g, g ∈ entries → graph_entry_key g ≠ key) → res = ([], Err (EmptyGraphEntry key))) ∧
  ((∃ g, g ∈ entries ∧ graph_entry_key g = key) → new ⊆ les → res = ([], Ok tt)) ∧
  (¬ new ⊆ les → ∀ v, try_serialize_record merged (DataOnly GraphEntry_t) = Ok v →
     res = ([PutLocalRecord (local_record key v) client], Ok tt)) ∧
  StronglySorted (λ g h, graph_entry_cmp g h = Lt) merged ∧
  (∀ g, g ∈ merged ↔ g ∈ les ∨ (g ∈ entries ∧ graph_entry_key g = key ∧ graph_entry_verify_signature g = true)).
Proof.
  intros Hloc new merged res. pose proof (local_entries_NoDup _ _ Hloc) as Hnd.
  pose proof (merge_length new les (validated_sorted _ _) Hnd) as Hlen.
  assert ((∃ g, g ∈ entries ∧ graph_entry_key g = key) →
    res = match new with [] => put_ret tt | _ :: _ =>
            if bool_decide (new ⊆ les) then put_ret tt else
            (let! value := put_lift (map_err (λ _, RecordSerializationFailed key)
                             (try_serialize_record merged (DataOnly GraphEntry_t))) in
             put_emit (PutLocalRecord (local_record key value) client))%put end) as Hres.
  { intros (g & Hg & Hgk). unfold res, validate_merge_and_store_graphentries. cbv zeta.
    rewrite bool_decide_eq_false_2
      by (rewrite filter_nil_iff; intros Hn; by apply (Hn g Hg)).
    fold (validated entries key). fold new. destruct new as [|t rest] eqn:Enew; [done|]. rewrite <- Enew in *.
    assert (t ∈ new) as (_ & Hk & _)%elem_of_validated by (rewrite Enew; left).
    rewrite (local_entries_read t les) by (by rewrite Hk). unfold put_ret at 1.
    change ([], Ok les) with (put_lift (Ok les)). rewrite put_lift_bind. fold merged.
    rewrite (bool_decide_ext _ _ Hlen).
    unfold merged. by rewrite <- Enew. }
  split; [|split; [|split; [|split]]].
  - intros Hn. unfold res, validate_merge_and_store_graphentries. cbv zeta.
    rewrite bool_decide_eq_true_2; [done|]. rewrite filter_nil_iff. auto.
  - intros Hex Hsub. rewrite (Hres Hex). rewrite bool_decide_eq_true_2 by done. by destruct new.
  - intros Hsub v Hv. destruct new as [|t rest] eqn:Enew; [by destruct Hsub; intros x Hx%not_elem_of_nil|].
    rewrite Hres.
    + rewrite bool_decide_eq_false_2 by done. rewrite Hv. cbn [map_err]. by rewrite put_lift_bind.
    + assert (t ∈ validated entries key) as (Hin & Hk & _)%elem_of_validated by (fold new; rewrite Enew; left). eauto.
  - apply (bt_extend_sorted _), validated_sorted.
  - intros g. unfold merged, new. rewrite (elem_of_bt_extend graph_entry_cmp). by rewrite elem_of_validated.
Qed.

(** A pointer replaces a scratchpad: the two kinds of address of an owner have the same record
    key and only a stored pointer is compared with an incoming one, so an owner's pointer, with any
    counter and without payment, overwrites the owner's scratchpad. *)
Theorem pointer_replaces_scratchpad `{!BlsLaws} sk counter target s l key v :
  let p := pointer_new sk counter target in
  key = to_record_key (NA_PointerAddress (pointer_address p)) →
  env_get_local_record env key = Some (Some l) → record_holds l (B_Scratchpad s) →
  env_is_record_key_present env key = Some true →
  try_serialize_record p (DataOnly Pointer_t) = Ok v →
  key = to_record_key (NA_ScratchpadAddress (mkScratchpadAddress (sk_public_key sk))) ∧
  validate_and_store_record env (local_record key v) =
    ([PutLocalRecord (local_record key v) true; NotifyFetchCompleted key (VT_NonChunk (xorname_from_content v))],
     Ok tt).
Proof.
  intros p Hkey Hl Hs Hp Hv. split; [by rewrite Hkey|].
  destruct (serialize_record_inv p _ v (local_record key v) Hv eq_refl) as [Hh Hd].
  unfold validate_and_store_record, client_pointer. rewrite Hh. cbn [map_err]. rewrite put_lift_bind.
  unfold parse_body. rewrite Hd. cbn [map_err]. rewrite put_lift_bind.
  unfold validate_key_and_existence. cbn [rec_key local_record]. rewrite <- Hkey, bool_decide_eq_false_2 by auto.
  rewrite Hp. cbn [ok_or]. rewrite put_lift_bind. cbn [negb].
  unfold store_and_notify, validate_and_store_pointer_record.
  assert (pointer_verify_signature p = true) as -> by apply bls_sign_verify. cbn [negb].
  rewrite <- Hkey, bool_decide_eq_false_2 by auto.
  assert (get_local_pointer env (pointer_address p) = None) as ->.
  { unfold get_local_pointer. by rewrite <- Hkey, Hl, (record_holds_header _ _ Hs). }
  rewrite Hv. cbn [map_err]. by rewrite put_lift_bind.
Qed.
End merging.

(** * Witnesses *)

(** A value is written as a tag and its position in a table. *)
Definition toy_table {T} `{EqDecision T} (tag : Z) (table : list T) : Serde T :=
  {| rmp_to_vec t := (λ x, [tag; Z.of_nat x.1]) <$> list_find (t =.) table;
     rmp_from_slice b := match b with
       | [g; n] => if g =? tag then table !! Z.to_nat n else None
       | _ => None end |}.

Lemma toy_table_laws {T} `{EqDecision T} tag (table : list T) : @SerdeLaws T (toy_table tag table).
Proof.
  split; intros t b ((n & y) & (Hn & <- & _)%list_find_Some & ->)%fmap_Some; simpl; [|done].
  by rewrite Z.eqb_refl, Nat2Z.id.
Qed.

Lemma toy_table_tag {T} `{EqDecision T} tag (table : list T) (t : T) b :
  @rmp_to_vec T (toy_table tag table) t = Some b → ∃ n, b = [tag; n].
Proof. intros ((n & y) & _ & ->)%fmap_Some. eauto. Qed.

(** Pairs are only read. *)
Definition toy_read {T} (tag : Z) (table : list T) : Serde T :=
  {| rmp_to_vec t := None;
     rmp_from_slice b := match b with
       | [g; n] => if g =? tag then table !! Z.to_nat n else None
       | _ => None end |}.

Definition toy_layout : Layout := {| size_of_scratchpad := 8; size_of_graph_entry := 8; size_of_pointer := 8 |}.

Section put_witnesses.
#[local] Existing Instances toy_xorname toy_hex toy_bls toy_bls_laws toy_bls_ord_laws toy_layout toy_kad toy_rmp_header
  toy_rmp_header_laws toy_identity toy_digests toy_ant_merkle toy_serde_target.

(** The owner [true]'s scratchpads, a pointer of the same owner, and two graph entries. *)
Definition ex_pad (n : Z) : Scratchpad := scratchpad_new 0 true 42 [n] n.
Definition ex_pointer : Pointer := pointer_new true 0 (PT_ChunkAddress (mkChunkAddress [9])).
Definition ex_entry (n : Z) : GraphEntry := graph_entry_new true [] (replicate 32 n) [].
Definition ex_chunk : bytes := replicate 32 12.
Definition ex_payment : ProofOfPayment := {| peer_quotes := [([4], ex_quote 4 NANOS); ([5], ex_quote 5 NANOS)] |}.

#[local] Instance toy_bodies : BodySerde :=
  {| serde_bytes := toy_serde_bytes; serde_target := toy_serde_target; serde_metrics := toy_serde_metrics;
     serde_scratchpad := toy_table 1 [ex_pad 1; ex_pad 2]; serde_pointer := toy_table 2 [ex_pointer];
     serde_graph_entries := toy_table 3 [[ex_entry 1]; [ex_entry 1; ex_entry 2]];
     serde_paid_bytes := toy_read 4 [(ex_payment, ex_chunk)]; serde_paid_scratchpad := toy_read 5 [];
     serde_paid_graph_entry := toy_read 6 []; serde_paid_pointer := toy_read 7 [];
     serde_merkle_bytes := toy_read 8 [(ex_proof, ex_chunk)]; serde_merkle_scratchpad := toy_read 9 [];
     serde_merkle_graph_entry := toy_read 10 []; serde_merkle_pointer := toy_read 11 [] |}.

#[local] Instance toy_bodies_laws : BodySerdeLaws.
Proof.
  split.
  - apply toy_serde_bytes_laws.
  - apply toy_table_laws.
  - apply toy_table_laws.
  - apply toy_table_laws.
  - by intros [|x [|y v]] b [= <-].
  - by intros p b (n & ->)%toy_table_tag.
  - by intros p b (n & ->)%toy_table_tag.
  - by intros [|x [|y v]] b [= <-].
  - by intros p b (n & ->)%toy_table_tag.
  - by intros p b (n & ->)%toy_table_tag.
Qed.

(** A node that reads its store, is close to everything and finds every payment confirmed. *)
Definition ex_env (st : gmap bytes KadRecord) : NodeEnv :=
  {| env_peer_id := [5];
     env_is_record_key_present k := Some (bool_decide (is_Some (st !! k)));
     env_get_local_record k := Some (st !! k);
     env_k_closest_local_peers _ := Some [[4]; [5]];
     env_network_density := Some None;
     env_verify_payment n payments :=
       Some ((λ '(h, _, _), {| pv_quote_hash := h; pv_amount_paid := 10; pv_is_valid := true |}) <$> payments);
     env_merkle_payment_info n _ :=
       Some {| oc_depth := 2; oc_merkle_payment_timestamp := 1000;
               oc_paid_node_addresses := [(replicate 20 3, 2); (replicate 20 7, 6)] |};
     env_packed_commitments n _ _ := if (n =? 3)%nat then Some [ex_commitment] else None;
     env_closest_peers _ n := Some ((λ k, [k]) <$> seqZ 1 (Z.of_nat n));
     env_now := Some 2000 |}.

Lemma ex_env_reads st : env_reads (ex_env st) st.
Proof. split; [done|]. by intros k b [= <-]. Qed.

Definition owner_key : bytes := resize 32 0 (pk_to_bytes (true : PublicKey)).
Definition ex_record (key : bytes) (kind tag n : Z) : KadRecord := local_record key [145; kind; tag; n].

(** The store after the first scratchpad was replicated, and after a client updated it. *)
Definition ex_store1 : gmap bytes KadRecord :=
  apply_effects ∅ (handle (ex_env ∅) (Replicated (ex_record owner_key 3 1 0))).1.
Definition ex_store2 : gmap bytes KadRecord :=
  apply_effects ex_store1 (handle (ex_env ex_store1) (ClientPut (ex_record owner_key 3 1 1))).1.

Lemma ex_run1 : rtc node_step ∅ ex_store1.
Proof. apply rtc_once, node_step_put. exact (put_step_handle _ (Replicated _) _ (env_reads_at _ _ _ (ex_env_reads ∅))). Qed.

Lemma ex_run2 : rtc put_step ex_store1 ex_store2.
Proof. apply rtc_once. exact (put_step_handle _ (ClientPut _) _ (env_reads_at _ _ _ (ex_env_reads ex_store1))). Qed.

(** The record that the first validation stores is valid, and is held by a node that it is replicated to. *)
Lemma store_self_authenticating_witness :
  ex_store1 !! owner_key = Some (ex_record owner_key 3 1 0) ∧ ∃ b, record_holds (ex_record owner_key 3 1 0) b ∧ racing_store ex_store1.
Proof.
  assert (ex_store1 !! owner_key = Some (ex_record owner_key 3 1 0)) as Hk by (vm_compute; reflexivity).
  split; [exact Hk|].
  assert (racing_store ex_store1) as Hst.
  { apply (racing_put (ex_env ∅) (Replicated _) ∅); [constructor|exact (env_reads_at _ _ _ (ex_env_reads ∅))|constructor]. }
  destruct (proj1 (store_self_authenticating _ _) _ Hst Hk) as (Hkey & b & Hb). exists b. split; [exact Hb|].
  exact (proj1 (proj2 (store_self_authenticating owner_key (ex_record owner_key 3 1 0)) (ex_env ∅) b (conj eq_refl eq_refl) Hkey Hb)).
Defined.

Lemma store_versions_advance_witness :
  ex_store1 !! owner_key = Some (ex_record owner_key 3 1 0) ∧
  ex_store2 !! owner_key = Some (ex_record owner_key 3 1 1) ∧
  ∃ r' b b', ex_store2 !! owner_key = Some r' ∧ record_holds (ex_record owner_key 3 1 0) b ∧ record_holds r' b' ∧
    body_le b b'.
Proof.
  assert (ex_store1 !! owner_key = Some (ex_record owner_key 3 1 0)) as Hk by (vm_compute; reflexivity).
  split; [exact Hk|]. split; [vm_compute; reflexivity|].
  exact (store_versions_advance _ _ _ _ ex_run1 ex_run2 Hk).
Defined.

(** A paid chunk. *)
Definition ex_put : KadRecord := ex_record ex_chunk 10 4 0.

Lemma new_keys_are_paid_witness :
  apply_effects ex_store1 (handle (ex_env ex_store1) (ClientPut ex_put)).1 !! ex_chunk =
    Some (local_record ex_chunk (145 :: 0 :: 196 :: ex_chunk)) ∧ paid_for (ex_env ex_store1) ex_put.
Proof.
  assert (apply_effects ex_store1 (handle (ex_env ex_store1) (ClientPut ex_put)).1 !! ex_chunk =
    Some (local_record ex_chunk (145 :: 0 :: 196 :: ex_chunk))) as Hk by (vm_compute; reflexivity).
  split; [exact Hk|].
  refine (proj2 (new_keys_are_paid _ _ (ClientPut ex_put) _ _ ex_run1 (ex_env_reads ex_store1) _ Hk)).
  vm_compute. reflexivity.
Defined.

Lemma payment_reusable_witness :
  (payment_for_us_exists_and_is_still_valid (ex_env ∅) (NA_ChunkAddress (mkChunkAddress [2])) Chunk_t ex_payment).2 = Ok tt.
Proof.
  refine (payment_reusable (ex_env ∅) (NA_ChunkAddress (mkChunkAddress [1])) (NA_ChunkAddress (mkChunkAddress [2]))
    Chunk_t ex_payment [[4]; [5]] _ _ _).
  - vm_compute. reflexivity.
  - reflexivity.
  - intros peer Hp. exact Hp.
Defined.

Lemma merkle_payment_accepted_witness :
  (verify_merkle_payment (ex_env ∅) ex_proof (NA_ChunkAddress (mkChunkAddress ex_chunk))).2 = Ok tt ∧
  mpp_address ex_proof = ex_chunk.
Proof.
  assert ((verify_merkle_payment (ex_env ∅) ex_proof (NA_ChunkAddress (mkChunkAddress ex_chunk))).2 = Ok tt) as Hv
    by (vm_compute; reflexivity).
  split; [exact Hv|]. exact (proj1 (merkle_payment_accepted (ex_env ∅) ex_proof _ Hv)).
Defined.

(** The store with one graph entry. *)
Definition ex_store3 : gmap bytes KadRecord := {[ owner_key := ex_record owner_key 1 3 0 ]}.

Lemma ex_store3_holds : record_holds (ex_record owner_key 1 3 0) (B_GraphEntries [ex_entry 1]).
Proof.
  exists [145; 1; 3; 0]. split; [vm_compute; reflexivity|]. split; [done|]. split; [done|].
  split; [repeat constructor|]. constructor; [|done]. split; vm_compute; reflexivity.
Qed.

Lemma graph_merge_spec_witness :
  validate_merge_and_store_graphentries (ex_env ex_store3) [ex_entry 2] owner_key true =
    ([PutLocalRecord (ex_record owner_key 1 3 1) true], Ok tt).
Proof.
  refine (proj1 (proj2 (proj2 (graph_merge_spec (ex_env ex_store3) [ex_entry 2] owner_key true [ex_entry 1] _)))
    _ [145; 1; 3; 1] _).
  - right. exists (ex_record owner_key 1 3 0). split; [vm_compute; reflexivity|exact ex_store3_holds].
  - apply (bool_decide_eq_false_1 _). vm_compute. reflexivity.
  - vm_compute. reflexivity.
Defined.

Lemma ex_store1_holds : record_holds (ex_record owner_key 3 1 0) (B_Scratchpad (ex_pad 1)).
Proof.
  exists [145; 3; 1; 0]. split; [vm_compute; reflexivity|]. split; [done|]. split; [vm_compute; reflexivity|].
  split; vm_compute; [reflexivity|discriminate].
Qed.

Lemma pointer_replaces_scratchpad_witness :
  (validate_and_store_record (ex_env ex_store1) (ex_record owner_key 2 2 0)).2 = Ok tt ∧
  owner_key = to_record_key (NA_ScratchpadAddress (sp_address (ex_pad 1))).
Proof.
  destruct (pointer_replaces_scratchpad (ex_env ex_store1) true 0 (PT_ChunkAddress (mkChunkAddress [9])) (ex_pad 1)
    (ex_record owner_key 3 1 0) owner_key [145; 2; 2; 0]) as [Hkey Hput].
  - vm_compute. reflexivity.
  - vm_compute. reflexivity.
  - exact ex_store1_holds.
  - vm_compute. reflexivity.
  - vm_compute. reflexivity.
  - split; [exact (f_equal snd Hput)|exact Hkey].
Defined.
End put_witnesses.
