(* ===== verification/NetworkWideReplication.v ===== *)
(** * Network-wide replication

    Models src/ant-node/src/networking/driver/network_wide_replication.rs: every record of the
    store is announced to the network once within a cycle of four days, some at each execution. A
    division of [f64]s rounded up is exact, as it is while fewer than 2^53 records are pending. *)

From stdpp Require Import base gmap list.
From Stdlib Require Import ZArith Lia.
From S2P Require Import Prelude Protocol RecordCache RecordStore RecordStoreFacts RecordStoreProps.

Definition REPLICATION_DEADLINE_SECS : Z := 4 * 24 * 60 * 60.
Definition NETWORK_LOAD_TIMEOUT_SECS : Z := 72 * 60 * 60.
Definition NETWORK_WIDE_REPLICATION_INTERVAL : Z := from_secs (15 * 60).

(** [(a as f64 / b as f64).ceil()]. *)
Definition div_ceil (a b : Z) : Z := (a + b - 1) / b.

(** How many of the pending keys an execution sends, if any. *)
Definition calculate_keys_to_send (pending_count time_remaining_secs : Z) (elapsed_since_last : option Z)
    (execute_interval_secs : Z) : option Z :=
  if pending_count =? 0 then None
  else
    let execute_runs_remaining :=
      if time_remaining_secs =? 0 then 0 else Z.max (time_remaining_secs / execute_interval_secs) 1 in
    if execute_runs_remaining =? 0 then Some pending_count
    else
      let keys_per_execution := div_ceil pending_count execute_runs_remaining in
      if (keys_per_execution =? 0) || (pending_count <? execute_runs_remaining) then
        let target_interval_secs := time_remaining_secs / pending_count in
        match elapsed_since_last with
        | Some elapsed =>
          if as_secs elapsed <? target_interval_secs then None
          else Some (Z.min (Z.max (as_secs elapsed / target_interval_secs) 1) pending_count)
        | None => Some 1
        end
      else Some (Z.min keys_per_execution pending_count).

Section network_wide.
Context `{XorNameLib, Hex, Bls, Kad, Aead, HashOrder}.

Definition PendingKey : Type := NetworkAddress * ValidationType.

Record NetworkWideReplication := {
  nw_last_record_count : Z;
  nw_pending_records : list PendingKey;
  nw_completed_records : list PendingKey;
  nw_last_replication_time : option Z;
  nw_complete_replication_within : Z;
  nw_network_is_under_load : option Z;
}.

Definition nw_new (now : Z) : NetworkWideReplication :=
  {| nw_last_record_count := 0; nw_pending_records := []; nw_completed_records := []; nw_last_replication_time := None;
     nw_complete_replication_within := now + from_secs REPLICATION_DEADLINE_SECS; nw_network_is_under_load := None |}.

Definition set_network_under_load (now : Z) (nw : NetworkWideReplication) : NetworkWideReplication :=
  {| nw_last_record_count := nw_last_record_count nw; nw_pending_records := nw_pending_records nw;
     nw_completed_records := nw_completed_records nw; nw_last_replication_time := nw_last_replication_time nw;
     nw_complete_replication_within := nw_complete_replication_within nw; nw_network_is_under_load := Some now |}.

Definition is_network_under_load (nw : NetworkWideReplication) : bool :=
  bool_decide (is_Some (nw_network_is_under_load nw)).

(** The records of the store as they are announced. *)
Definition announced (s : NodeRecordStore) : list PendingKey :=
  (λ e, (e.2.1.1, e.2.1.2)) <$> hm_iter (ns_records s).

(** The flag is reset, and the new records are queued if the number of records has changed. *)
Definition enqueue_new (now : Z) (s : NodeRecordStore) (nw : NetworkWideReplication) : NetworkWideReplication :=
  let load := match nw_network_is_under_load nw with
              | Some last_time => if from_secs NETWORK_LOAD_TIMEOUT_SECS <? Z.max 0 (now - last_time) then None else Some last_time
              | None => None
              end in
  let new_keys := filter (λ key, (key ∉ nw_pending_records nw) ∧ (key ∉ nw_completed_records nw)) (announced s) in
  {| nw_last_record_count := count s;
     nw_pending_records := if nw_last_record_count nw =? count s then nw_pending_records nw
                           else nw_pending_records nw ++ new_keys;
     nw_completed_records := nw_completed_records nw; nw_last_replication_time := nw_last_replication_time nw;
     nw_complete_replication_within := nw_complete_replication_within nw; nw_network_is_under_load := load |}.

Definition time_remaining_secs (now : Z) (nw : NetworkWideReplication) : Z :=
  if now <? nw_complete_replication_within nw then as_secs (nw_complete_replication_within nw - now) else 0.

(** The keys are sent, and a new cycle begins if the deadline has passed and none is pending. [sent]
    is whether the event reached the node. *)
Definition send_keys (now : Z) (sent : bool) (keys_to_send : Z) (nw : NetworkWideReplication) : NetworkWideReplication :=
  let n := Z.to_nat keys_to_send in
  let pending := drop n (nw_pending_records nw) in
  let completed := nw_completed_records nw ++ take n (nw_pending_records nw) in
  let cycle_completed := (time_remaining_secs now nw =? 0) && bool_decide (pending = []) in
  {| nw_last_record_count := nw_last_record_count nw; nw_pending_records := pending;
     nw_completed_records := if cycle_completed then [] else completed;
     nw_last_replication_time := if cycle_completed then None
                                 else if sent then Some now else nw_last_replication_time nw;
     nw_complete_replication_within := if cycle_completed then now + from_secs REPLICATION_DEADLINE_SECS
                                       else nw_complete_replication_within nw;
     nw_network_is_under_load := nw_network_is_under_load nw |}.

(** An execution: its two readings of the clock, and whether its event can be sent. *)
Record Execution := { ex_load_now : Z; ex_now : Z; ex_sent : bool }.

(** The state after, and the event's keys if one was made. *)
Definition execute (e : Execution) (s : NodeRecordStore) (nw : NetworkWideReplication)
    : NetworkWideReplication * option (list PendingKey) :=
  let nw := enqueue_new (ex_load_now e) s nw in
  let elapsed_since_last := (λ last_time, Z.max 0 (ex_now e - last_time)) <$> nw_last_replication_time nw in
  match calculate_keys_to_send (Z.of_nat (length (nw_pending_records nw))) (time_remaining_secs (ex_now e) nw)
          elapsed_since_last (as_secs NETWORK_WIDE_REPLICATION_INTERVAL) with
  | None => (nw, None)
  | Some keys_to_send =>
    (send_keys (ex_now e) (ex_sent e) keys_to_send nw, Some (take (Z.to_nat keys_to_send) (nw_pending_records nw)))
  end.

(** ** How many keys are sent *)

(** Executions send at least one key and at most all pending ones, and divide by no zero. *)
Lemma calculate_bounds pending remaining elapsed n :
  0 ≤ pending → 0 ≤ remaining → (∀ t, elapsed = Some t → 0 ≤ t) →
  calculate_keys_to_send pending remaining elapsed (as_secs NETWORK_WIDE_REPLICATION_INTERVAL) = Some n → 1 ≤ n ≤ pending.
Proof.
  unfold calculate_keys_to_send. intros Hp Hr He. destruct (Z.eqb_spec pending 0); [done|]. cbv zeta.
  set (runs := if remaining =? 0 then 0 else _). destruct (Z.eqb_spec runs 0) as [|Hruns]; [intros [= <-]; lia|].
  assert (1 ≤ runs) as Hr1 by (unfold runs in *; destruct (Z.eqb_spec remaining 0); lia).
  destruct (_ || _); [|intros [= <-]].
  - destruct elapsed as [t|]; [|intros [= <-]; lia]. destruct (_ <? _); [done|intros [= <-]; lia].
  - unfold div_ceil. assert (1 ≤ (pending + runs - 1) / runs) by (apply Z.div_le_lower_bound; lia). lia.
Qed.

(** After the deadline everything pending is sent. *)
Lemma calculate_overdue pending elapsed interval :
  pending ≠ 0 → calculate_keys_to_send pending 0 elapsed interval = Some pending.
Proof. intros Hp. unfold calculate_keys_to_send. by rewrite (proj2 (Z.eqb_neq pending 0) Hp). Qed.

(** ** Runs *)

(** Executions with the stores they see: the state after, and the keys of the events made. *)
Fixpoint run_network_wide (l : list (Execution * NodeRecordStore)) (nw : NetworkWideReplication)
    : NetworkWideReplication * list PendingKey :=
  match l with
  | [] => (nw, [])
  | (e, s) :: l' =>
    let '(nw, keys) := execute e s nw in
    let '(nw, log) := run_network_wide l' nw in
    (nw, default [] keys ++ log)
  end.

Lemma run_network_wide_app l1 l2 nw :
  run_network_wide (l1 ++ l2) nw =
    ((run_network_wide l2 (run_network_wide l1 nw).1).1,
     (run_network_wide l1 nw).2 ++ (run_network_wide l2 (run_network_wide l1 nw).1).2).
Proof.
  revert nw. induction l1 as [|[e s] l1 IH]; intros nw; simpl; [by destruct (run_network_wide l2 nw)|].
  destruct (execute e s nw) as [nw' keys]. rewrite IH. destruct (run_network_wide l1 nw') as [nw'' log]. simpl.
  by rewrite app_assoc.
Qed.

(** What an execution leaves pending: all but the keys of its event. *)
Lemma execute_pending e s nw nw' keys :
  execute e s nw = (nw', keys) →
  nw_pending_records (enqueue_new (ex_load_now e) s nw) = default [] keys ++ nw_pending_records nw'.
Proof.
  unfold execute. intros Hx. case_match; injection Hx as <- <-; [|done]. simpl. by rewrite take_drop.
Qed.

Lemma execute_completed e s nw nw' keys :
  execute e s nw = (nw', keys) →
  (nw_completed_records nw' = nw_completed_records nw ++ default [] keys ∧
   nw_complete_replication_within nw' = nw_complete_replication_within nw) ∨
  (nw_completed_records nw' = [] ∧ nw_pending_records nw' = [] ∧ is_Some keys ∧
   nw_complete_replication_within nw' = ex_now e + from_secs REPLICATION_DEADLINE_SECS).
Proof.
  unfold execute. intros Hx. case_match; injection Hx as <- <-; [|left; simpl; by rewrite app_nil_r].
  unfold send_keys. cbn. destruct (_ =? 0); cbn; [|by left]. case_bool_decide; [right|by left].
  split_and!; [done|done|by eexists|done].
Qed.

Lemma enqueue_keeps now s nw key :
  key ∈ nw_pending_records nw → key ∈ nw_pending_records (enqueue_new now s nw).
Proof. intros Hk. simpl. case_match; [done|]. apply elem_of_app. by left. Qed.

(** A pending key stays so under the same deadline, or is sent; it is sent if the deadline passed. *)
Lemma execute_pending_key e s nw nw' keys key :
  execute e s nw = (nw', keys) → key ∈ nw_pending_records (enqueue_new (ex_load_now e) s nw) →
  key ∈ default [] keys ∨
  key ∈ nw_pending_records nw' ∧ nw_complete_replication_within nw' = nw_complete_replication_within nw ∧
  ex_now e < nw_complete_replication_within nw.
Proof.
  intros Hx Hk. pose proof (execute_pending _ _ _ _ _ Hx) as Hp. rewrite Hp in Hk.
  apply elem_of_app in Hk as [Hk|Hk]; [by left|].
  destruct (execute_completed _ _ _ _ _ Hx) as [[_ Hd]|(_ & Hn & _)]; [|by rewrite Hn in Hk; apply not_elem_of_nil in Hk].
  destruct (Z.lt_ge_cases (ex_now e) (nw_complete_replication_within nw)) as [Hlt|Hge]; [by right|left].
  assert (time_remaining_secs (ex_now e) (enqueue_new (ex_load_now e) s nw) = 0) as Ht.
  { unfold time_remaining_secs. simpl. by rewrite (proj2 (Z.ltb_ge _ _) Hge). }
  unfold execute in Hx. rewrite Ht in Hx. rewrite calculate_overdue in Hx.
  - injection Hx as <- <-. simpl in *. rewrite Nat2Z.id in *. rewrite firstn_all in *. rewrite drop_all in Hk.
    by apply not_elem_of_nil in Hk.
  - rewrite Hp, length_app. apply list_elem_of_lookup in Hk as [i Hi]. apply lookup_lt_Some in Hi. lia.
Qed.

(** A pending key is sent by any execution past the deadline. *)
Lemma pending_sent l e' s' nw key :
  key ∈ nw_pending_records nw → nw_complete_replication_within nw ≤ ex_now e' →
  key ∈ (run_network_wide (l ++ [(e', s')]) nw).2.
Proof.
  revert nw. induction l as [|[e s] l IH]; intros nw Hk Hd; simpl.
  - destruct (execute e' s' nw) as [nw' keys] eqn:Hx. simpl. rewrite app_nil_r.
    destruct (execute_pending_key _ _ _ _ _ key Hx) as [|(_ & _ & Hlt)]; [by apply enqueue_keeps|done|lia].
  - destruct (execute e s nw) as [nw' keys] eqn:Hx. destruct (run_network_wide (l ++ _) nw') as [nw'' log] eqn:Hrun.
    simpl. apply elem_of_app.
    destruct (execute_pending_key _ _ _ _ _ key Hx) as [|(Hk' & Hd' & _)]; [by apply enqueue_keeps|by left|right].
    specialize (IH nw' Hk'). rewrite Hrun in IH. apply IH. lia.
Qed.

(** The completed keys were sent, and the deadline is within a cycle of the last execution. *)
Lemma run_completed_sent l nw log0 t :
  (∀ key, key ∈ nw_completed_records nw → key ∈ log0) →
  nw_complete_replication_within nw ≤ t + from_secs REPLICATION_DEADLINE_SECS → (∀ x, x ∈ l → ex_now x.1 ≤ t) →
  let '(nw', log) := run_network_wide l nw in
  (∀ key, key ∈ nw_completed_records nw' → key ∈ log0 ++ log) ∧
  nw_complete_replication_within nw' ≤ t + from_secs REPLICATION_DEADLINE_SECS.
Proof.
  revert nw log0. induction l as [|[e s] l IH]; intros nw log0 Hc Hd Ht; simpl; [by rewrite app_nil_r|].
  destruct (execute e s nw) as [nw1 keys] eqn:Hx.
  specialize (IH nw1 (log0 ++ default [] keys)).
  destruct (run_network_wide l nw1) as [nw2 log]. rewrite app_assoc.
  assert (ex_now e ≤ t) as He by apply (Ht (e, s)), list_elem_of_here.
  apply IH; [| |intros x Hin; by apply Ht, list_elem_of_further].
  - intros key Hk. apply elem_of_app.
    destruct (execute_completed _ _ _ _ _ Hx) as [[Hcs _]|(Hcs & _)]; rewrite Hcs in Hk; [|by apply not_elem_of_nil in Hk].
    apply elem_of_app in Hk as [Hk|Hk]; [left; by apply Hc|by right].
  - destruct (execute_completed _ _ _ _ _ Hx) as [[_ Hdl]|(_ & _ & _ & Hdl)]; rewrite Hdl; lia.
Qed.

(** Every record is announced within four days. A record that is in the store at an execution that
    finds the number of records changed is in one of the events made, at the latest by the first
    execution four days later. *)
Theorem network_wide_covers t0 l1 e s l2 e' s' key :
  t0 ≤ ex_now e → (∀ x, x ∈ l1 → ex_now x.1 ≤ ex_now e) →
  nw_last_record_count (run_network_wide l1 (nw_new t0)).1 ≠ count s → key ∈ announced s →
  ex_now e + from_secs REPLICATION_DEADLINE_SECS ≤ ex_now e' →
  key ∈ (run_network_wide (l1 ++ (e, s) :: l2 ++ [(e', s')]) (nw_new t0)).2.
Proof.
  intros Ht0 Ht Hcount Hkey Hlate. rewrite run_network_wide_app. cbn [snd].
  pose proof (run_completed_sent l1 (nw_new t0) [] (ex_now e)) as Hrun.
  destruct (run_network_wide l1 (nw_new t0)) as [nw1 log1]. cbn [fst snd] in *.
  destruct Hrun as [Hsent Hd]; [intros k Hk; by apply not_elem_of_nil in Hk|simpl; lia|done|].
  apply elem_of_app. destruct (decide (key ∈ nw_completed_records nw1)) as [Hc|Hc]; [left; by apply Hsent|right].
  cbn [run_network_wide]. destruct (execute e s nw1) as [nw2 keys] eqn:Hx.
  assert (key ∈ nw_pending_records (enqueue_new (ex_load_now e) s nw1)) as Hp.
  { simpl. rewrite (proj2 (Z.eqb_neq _ _) Hcount). apply elem_of_app.
    destruct (decide (key ∈ nw_pending_records nw1)) as [|Hn]; [by left|right]. by apply list_elem_of_filter. }
  destruct (run_network_wide (l2 ++ [(e', s')]) nw2) as [nw3 log] eqn:Hrun2. simpl. apply elem_of_app.
  destruct (execute_pending_key _ _ _ _ _ key Hx Hp) as [|(Hp2 & Hd2 & _)]; [by left|right].
  change log with (nw3, log).2. rewrite <- Hrun2. apply pending_sent; [done|lia].
Qed.

(** ** No repeats *)

Lemma announced_NoDup s : store_wf s → NoDup (announced s).
Proof.
  intros Hwf. unfold announced. apply NoDup_fmap_2_strong; [|apply (NoDup_fmap_1 fst), hm_iter_NoDup_fst].
  intros [k1 [[a1 v1] d1]] [k2 [[a2 v2] d2]] H1' H2' Heq. apply hm_iter_elem_of in H1', H2'. simpl in Heq.
  assert (k1 = k2) as ->; [|congruence].
  pose proof (wf_addr s Hwf _ _ _ _ H1'). pose proof (wf_addr s Hwf _ _ _ _ H2'). congruence.
Qed.

Definition queue_ok (nw : NetworkWideReplication) : Prop := NoDup (nw_completed_records nw ++ nw_pending_records nw).

Lemma enqueue_ok now s nw : store_wf s → queue_ok nw → queue_ok (enqueue_new now s nw).
Proof.
  intros Hs Hq. unfold queue_ok. simpl. case_match; [done|]. rewrite app_assoc. apply NoDup_app. split; [done|].
  split; [|by apply NoDup_filter, announced_NoDup].
  intros key [Hk|Hk]%elem_of_app [[? ?] _]%list_elem_of_filter; done.
Qed.

Lemma execute_ok e s nw : store_wf s → queue_ok nw → queue_ok (execute e s nw).1.
Proof.
  intros Hs Hq. apply (enqueue_ok (ex_load_now e) s nw Hs) in Hq. destruct (execute e s nw) as [nw' keys] eqn:Hx.
  unfold queue_ok in *. rewrite (execute_pending _ _ _ _ _ Hx), app_assoc in Hq. simpl.
  destruct (execute_completed _ _ _ _ _ Hx) as [[Hc _]|(Hc & Hp & _)]; [by rewrite Hc|]. rewrite Hc, Hp. constructor.
Qed.

Lemma run_queue_ok l nw :
  queue_ok nw → (∀ x, x ∈ l → store_wf x.2) → queue_ok (run_network_wide l nw).1.
Proof.
  revert nw. induction l as [|[e s] l IH]; intros nw Hq Hl; [done|]. cbn [run_network_wide].
  pose proof (execute_ok e s nw (Hl (e, s) (list_elem_of_here _ _)) Hq) as Hq1.
  destruct (execute e s nw) as [nw1 keys]. specialize (IH nw1 Hq1). destruct (run_network_wide l nw1).
  apply IH. intros x Hx. by apply Hl, list_elem_of_further.
Qed.

(** An event has at least one key. *)
Lemma execute_some e s nw nw' keys : execute e s nw = (nw', Some keys) → keys ≠ [].
Proof.
  unfold execute. intros Hx. case_match eqn:Hc; [|done]. injection Hx as _ <-. apply calculate_bounds in Hc.
  - intros Hnil. apply (f_equal length) in Hnil. rewrite length_take in Hnil. simpl in *. lia.
  - lia.
  - unfold time_remaining_secs, as_secs, NANOS. case_match eqn:Hlt; [|done]. apply Z.ltb_lt in Hlt. apply Z.div_pos; lia.
  - intros t Ht. destruct (nw_last_replication_time _); simplify_eq/=. lia.
Qed.

(** No record is announced twice in a cycle. Over any executions on well-formed stores, the
    keys of an event are distinct, and none was announced before in the cycle: those completed. An
    event completes its keys, unless it ends the cycle. *)
Theorem network_wide_no_repeats t0 l e s nw nw' keys :
  (∀ x, x ∈ l → store_wf x.2) → store_wf s → (run_network_wide l (nw_new t0)).1 = nw →
  execute e s nw = (nw', Some keys) →
  NoDup (nw_completed_records nw ++ keys) ∧ (keys ≠ []) ∧
  (nw_completed_records nw' = nw_completed_records nw ++ keys ∨
   nw_completed_records nw' = [] ∧ nw_pending_records nw' = []).
Proof.
  intros Hl Hs <- Hx. assert (queue_ok (run_network_wide l (nw_new t0)).1) as Hq by by apply run_queue_ok; [constructor|].
  set (nw := (run_network_wide l (nw_new t0)).1) in *. apply (enqueue_ok (ex_load_now e) s nw Hs) in Hq.
  unfold queue_ok in Hq. rewrite (execute_pending _ _ _ _ _ Hx), app_assoc in Hq. apply NoDup_app in Hq as [Hq _].
  split; [exact Hq|]. split; [by eapply execute_some|].
  destruct (execute_completed _ _ _ _ _ Hx) as [[Hc _]|(Hc & Hp & _)]; auto.
Qed.

(** ** The cycle that does not end *)

(** The cycle does not begin anew when all records were announced before the deadline: as long as
    the number of records stays, no event is made again, however much time passes. *)
Theorem network_wide_cycle_stalls nw l :
  nw_pending_records nw = [] → (∀ x, x ∈ l → count x.2 = nw_last_record_count nw) →
  (run_network_wide l nw).2 = [] ∧ nw_completed_records (run_network_wide l nw).1 = nw_completed_records nw.
Proof.
  revert nw. induction l as [|[e s] l IH]; intros nw Hp Hc; [done|]. cbn [run_network_wide].
  assert (count s = nw_last_record_count nw) as Hcount by apply (Hc (e, s)), list_elem_of_here.
  assert (execute e s nw = (enqueue_new (ex_load_now e) s nw, None)) as ->.
  { unfold execute. cbn [enqueue_new nw_pending_records]. by rewrite Hcount, Z.eqb_refl, Hp. }
  specialize (IH (enqueue_new (ex_load_now e) s nw)).
  destruct (run_network_wide l _) as [nw' log]. apply IH.
  - cbn [enqueue_new nw_pending_records]. by rewrite Hcount, Z.eqb_refl.
  - intros x Hx. cbn [enqueue_new nw_last_record_count]. rewrite Hcount. by apply Hc, list_elem_of_further.
Qed.
End network_wide.

(** * Witnesses *)

Section network_wide_witnesses.
#[local] Existing Instances toy_kad toy_kad_laws toy_xorname toy_hex toy_hex_laws toy_bls toy_aead hash_order_rev.

Definition DAY : Z := from_secs (24 * 60 * 60).

Definition ex_at (t : Z) : Execution := {| ex_load_now := t; ex_now := t; ex_sent := true |}.

(** Three records, first seen on the second day. *)
Definition ex_before : list (Execution * NodeRecordStore) := [(ex_at DAY, ex_store 8 [])].

Lemma network_wide_covers_witness :
  (NA_RecordKey [9; 0], VT_Chunk) ∈
    (run_network_wide (ex_before ++ (ex_at (2 * DAY), ex_store 8 ex_keys) :: [] ++ [(ex_at (7 * DAY), ex_store 8 ex_keys)])
      (nw_new 0)).2.
Proof.
  refine (network_wide_covers 0 ex_before (ex_at (2 * DAY)) (ex_store 8 ex_keys) [] (ex_at (7 * DAY)) (ex_store 8 ex_keys)
    (NA_RecordKey [9; 0], VT_Chunk) _ _ _ _ _).
  - vm_compute. discriminate.
  - intros x Hx. apply list_elem_of_singleton in Hx as ->. vm_compute. discriminate.
  - vm_compute. discriminate.
  - apply (bool_decide_eq_true_1 _). vm_compute. reflexivity.
  - vm_compute. discriminate.
Defined.

Lemma network_wide_no_repeats_witness :
  (execute (ex_at (4 * DAY)) (ex_store 8 ex_keys)
     (run_network_wide [(ex_at (2 * DAY), ex_store 8 ex_keys)] (nw_new 0)).1).2 =
    Some [(NA_RecordKey [5; 0], VT_Chunk); (NA_RecordKey [3; 0], VT_Chunk)] ∧
  NoDup (nw_completed_records (run_network_wide [(ex_at (2 * DAY), ex_store 8 ex_keys)] (nw_new 0)).1 ++
    [(NA_RecordKey [5; 0], VT_Chunk); (NA_RecordKey [3; 0], VT_Chunk)]).
Proof.
  destruct (ex_store_ok 8 ex_keys ex_keys_short) as (Hwf & _).
  destruct (execute (ex_at (4 * DAY)) (ex_store 8 ex_keys)
     (run_network_wide [(ex_at (2 * DAY), ex_store 8 ex_keys)] (nw_new 0)).1) as [nw' keys] eqn:Hx.
  assert (keys = Some [(NA_RecordKey [5; 0], VT_Chunk); (NA_RecordKey [3; 0], VT_Chunk)]) as ->.
  { change keys with (nw', keys).2. rewrite <- Hx. vm_compute. reflexivity. }
  split; [reflexivity|].
  refine (proj1 (network_wide_no_repeats 0 [(ex_at (2 * DAY), ex_store 8 ex_keys)] (ex_at (4 * DAY)) (ex_store 8 ex_keys)
    _ nw' _ _ Hwf eq_refl Hx)).
  intros x Hin. apply list_elem_of_singleton in Hin as ->. exact Hwf.
Defined.

(** One record, announced at once; nothing follows in the next hundred days. *)
Definition ex_announced : NetworkWideReplication := (execute (ex_at 1) (ex_store 8 [[3; 0]]) (nw_new 0)).1.

Lemma network_wide_cycle_stalls_witness :
  nw_completed_records ex_announced = [(NA_RecordKey [3; 0], VT_Chunk)] ∧
  (run_network_wide [(ex_at (5 * DAY), ex_store 8 [[3; 0]]); (ex_at (100 * DAY), ex_store 8 [[3; 0]])] ex_announced).2 = [].
Proof.
  split; [vm_compute; reflexivity|].
  refine (proj1 (network_wide_cycle_stalls ex_announced
    [(ex_at (5 * DAY), ex_store 8 [[3; 0]]); (ex_at (100 * DAY), ex_store 8 [[3; 0]])] _ _)).
  - vm_compute. reflexivity.
  - intros x Hx. apply elem_of_cons in Hx as [->|Hx]; [vm_compute; reflexivity|].
    apply list_elem_of_singleton in Hx as ->. vm_compute. reflexivity.
Defined.
End network_wide_witnesses.
