(* ===== verification/Driver.v ===== *)
(** * The swarm driver's local commands

    Models [SwarmDriver::handle_local_cmd] and its helpers in
    src/ant-node/src/networking/driver/cmd.rs, [add_keys_to_replication_fetcher] of
    driver/event/request_response.rs, the responsible-range tick of driver/mod.rs and
    circular_vec.rs: the single task that owns the record store, the replication fetcher and what the
    node remembers of its peers. libp2p's routing table is the argument [RoutingTable] of arbitrary
    answers; what the driver asks of libp2p and sends to the node is collected as events. Three
    commands that only read libp2p's state ([GetKBuckets], [GetPeersWithMultiaddr],
    [GetSwarmLocalState]) are left out, and so are metrics, logs and the count of peers they show. One
    reading of the clock stands for those that one pass over a peer's issues makes. *)

From stdpp Require Import base gmap strings countable list.
From Stdlib Require Import ZArith Lia.
From S2P Require Import Prelude Protocol RecordCache RecordStore ReplicationFetcher MerkleTree Payments NetworkWideReplication.

Definition MAX_CONTINUOUS_HDD_WRITE_ERROR : Z := 5.
Definition REPLICATION_TIMEOUT : Z := from_secs 45.
Definition MIN_REPLICATION_INTERVAL_S : Z := from_secs 30.
Definition REPLICATION_SENDER_CLOSE_GROUP_THRESHOLD : nat := 40.
Definition REPLICATION_SENDER_EXTENDED_DISTANCE_MULTIPLIER : Z := 10.
Definition K_VALUE : nat := 20.

(** ** CircularVec: circular_vec.rs *)

(** The items, oldest first, and the capacity the [VecDeque] was given, which is positive. *)
Record CircularVec (T : Type) := { cv_inner : list T; cv_capacity : nat }.
Arguments cv_inner {T} c.
Arguments cv_capacity {T} c.

Definition push_with_eviction {T} (item : T) (c : CircularVec T) : option T * CircularVec T :=
  let '(evicted, inner) :=
    if bool_decide (length (cv_inner c) = cv_capacity c) then (head (cv_inner c), tail (cv_inner c))
    else (None, cv_inner c) in
  (evicted, {| cv_inner := inner ++ [item]; cv_capacity := cv_capacity c |}).

(** [CircularVec::push]. *)
Definition circular_push {T} (item : T) (c : CircularVec T) : CircularVec T := (push_with_eviction item c).2.

Definition circular_contains {T} `{EqDecision T} (item : T) (c : CircularVec T) : bool :=
  bool_decide (item ∈ cv_inner c).

(** ** Data *)

Inductive NodeIssue :=
  | ConnectionIssue | WrongPeerId | ReplicationFailure | CloseNodesShunning | BadQuoting | FailedChunkProofCheck.

#[global] Instance NodeIssue_eq_dec : EqDecision NodeIssue.
Proof. solve_decision. Defined.

Inductive NetworkError :=
  | InCorrectRecordHeader
  | KademliaStoreError (e : StoreError).

(** The readings of [Instant::now()] made for one reported issue. *)
Record IssueReadings := { at_retain : Z; at_last : Z; at_push : Z }.

(** The readings of one command: [SystemTime] for the store, the fetcher's, one triple per issue,
    two per verified quote, three of the interval replication, one of the load flag, those of the
    peer scores, and the random peer id drawn there. *)
Record DriverReadings := {
  dr_system : nat → Z;
  dr_fetcher : Readings;
  dr_issue : nat → IssueReadings;
  dr_quote : nat → Z * Z;
  dr_since_replication : Z;
  dr_replication : Z;
  dr_targets : Z;
  dr_load : Z;
  dr_scores : nat → Z;
  dr_random_peer : bytes;
}.

Section driver.
Context `{XorNameLib, Hex, Bls, Kad, RmpHeader, Aead, HashOrder, Libp2pIdentity}.

(** libp2p's routing table: the closest local peers to a target, the estimated network size, whether
    a bucket has an entry of a peer, and whether removing a peer found it. *)
Record RoutingTable := {
  rt_closest_local_peers : Z → list bytes;
  rt_estimated_network_size : Z;
  rt_in_kbucket : bytes → bool;
  rt_remove_peer : bytes → bool;
}.

Record SwarmDriver := {
  sd_self_peer_id : bytes;
  sd_store : NodeRecordStore;
  sd_replication_fetcher : ReplicationFetcher;
  sd_hard_disk_write_error : Z;
  sd_bad_nodes : gmap bytes (list (NodeIssue * Z) * bool);
  sd_quotes_history : gmap bytes PaymentQuote;
  sd_replication_targets : gmap bytes Z;
  sd_last_replication : option Z;
  sd_peers_version : gmap bytes bytes;
  sd_blocklist_cache : CircularVec bytes;
  sd_network_wide_replication : NetworkWideReplication;
}.

(** The modelled commands of [LocalSwarmCmd]; a sender of a reply is the handler's reply. *)
Inductive LocalSwarmCmd :=
  | TriggerIntervalReplication
  | GetLocalQuotingMetrics (key : bytes) (data_type data_size : Z)
  | PaymentReceived
  | RecordNotAtTargetLocation
  | GetLocalRecord (key : bytes)
  | CmdPutLocalRecord (record : KadRecord) (is_client_put : bool)
  | FromStore (cmd : StoreCmd)
  | RecordStoreHasKey (key : bytes)
  | GetAllLocalRecordAddresses
  | GetKCloseLocalPeersToTarget (key : NetworkAddress)
  | AddPeerToBlockList (peer_id : bytes)
  | RecordNodeIssue (peer_id : bytes) (issue : NodeIssue)
  | IsPeerShunned (target : NetworkAddress)
  | QuoteVerification (quotes : list (bytes * PaymentQuote))
  | FetchCompleted (key : bytes) (record_type : ValidationType)
  | TriggerIrrelevantRecordCleanup
  | NotifyPeerScores (peer_scores : list (bytes * bool))
  | AddFreshReplicateRecords (holder : NetworkAddress) (keys : list (NetworkAddress * ValidationType))
  | NotifyPeerVersion (peer version : bytes)
  | GetNetworkDensity
  | RemovePeer (peer : bytes).

Inductive Reply :=
  | RepliedMetrics (m : QuotingMetrics) (is_already_stored : bool)
  | RepliedRecord (r : option KadRecord)
  | RepliedBool (b : bool)
  | RepliedAddresses (m : gmap NetworkAddress ValidationType)
  | RepliedPeers (peers : list bytes)
  | RepliedDensity (d : option Z).

(** Events to the node, requests to peers, and calls into libp2p. *)
Inductive DriverEvent :=
  | KeysToFetchForReplication (keys : list (bytes * bytes))
  | FetcherSent (e : FetcherEvent)
  | NetworkWideReplicationKeys (keys : list (NetworkAddress * ValidationType))
  | TerminateNode
  | PeerRemoved (peer : bytes)
  | SendReplicate (peer : bytes) (keys : list (NetworkAddress * ValidationType))
  | SendPeerConsideredAsBad (peer : bytes) (bad_behaviour : NodeIssue)
  | BlockPeer (peer : bytes)
  | UnblockPeer (peer : bytes).

(** What handling a command leaves besides the state. *)
Record Outcome := {
  out_result : result unit NetworkError;
  out_effects : list Effect;
  out_events : list DriverEvent;
  out_reply : option Reply;
}.

Definition sd_with_store (d : SwarmDriver) (s : NodeRecordStore) : SwarmDriver :=
  {| sd_self_peer_id := sd_self_peer_id d; sd_store := s; sd_replication_fetcher := sd_replication_fetcher d;
     sd_hard_disk_write_error := sd_hard_disk_write_error d; sd_bad_nodes := sd_bad_nodes d;
     sd_quotes_history := sd_quotes_history d; sd_replication_targets := sd_replication_targets d;
     sd_last_replication := sd_last_replication d; sd_peers_version := sd_peers_version d;
     sd_blocklist_cache := sd_blocklist_cache d; sd_network_wide_replication := sd_network_wide_replication d |}.

Definition sd_with_fetcher (d : SwarmDriver) (f : ReplicationFetcher) : SwarmDriver :=
  {| sd_self_peer_id := sd_self_peer_id d; sd_store := sd_store d; sd_replication_fetcher := f;
     sd_hard_disk_write_error := sd_hard_disk_write_error d; sd_bad_nodes := sd_bad_nodes d;
     sd_quotes_history := sd_quotes_history d; sd_replication_targets := sd_replication_targets d;
     sd_last_replication := sd_last_replication d; sd_peers_version := sd_peers_version d;
     sd_blocklist_cache := sd_blocklist_cache d; sd_network_wide_replication := sd_network_wide_replication d |}.

Definition sd_with_errors (d : SwarmDriver) (n : Z) : SwarmDriver :=
  {| sd_self_peer_id := sd_self_peer_id d; sd_store := sd_store d; sd_replication_fetcher := sd_replication_fetcher d;
     sd_hard_disk_write_error := n; sd_bad_nodes := sd_bad_nodes d;
     sd_quotes_history := sd_quotes_history d; sd_replication_targets := sd_replication_targets d;
     sd_last_replication := sd_last_replication d; sd_peers_version := sd_peers_version d;
     sd_blocklist_cache := sd_blocklist_cache d; sd_network_wide_replication := sd_network_wide_replication d |}.

(** Replaces what is remembered of peers: issues and quotes. *)
Definition sd_with_peers (d : SwarmDriver) (bad_nodes : gmap bytes (list (NodeIssue * Z) * bool))
    (quotes : gmap bytes PaymentQuote) : SwarmDriver :=
  {| sd_self_peer_id := sd_self_peer_id d; sd_store := sd_store d; sd_replication_fetcher := sd_replication_fetcher d;
     sd_hard_disk_write_error := sd_hard_disk_write_error d; sd_bad_nodes := bad_nodes;
     sd_quotes_history := quotes; sd_replication_targets := sd_replication_targets d;
     sd_last_replication := sd_last_replication d; sd_peers_version := sd_peers_version d;
     sd_blocklist_cache := sd_blocklist_cache d; sd_network_wide_replication := sd_network_wide_replication d |}.

Definition sd_with_replication (d : SwarmDriver) (last : option Z) (targets : gmap bytes Z) : SwarmDriver :=
  {| sd_self_peer_id := sd_self_peer_id d; sd_store := sd_store d; sd_replication_fetcher := sd_replication_fetcher d;
     sd_hard_disk_write_error := sd_hard_disk_write_error d; sd_bad_nodes := sd_bad_nodes d;
     sd_quotes_history := sd_quotes_history d; sd_replication_targets := targets;
     sd_last_replication := last; sd_peers_version := sd_peers_version d;
     sd_blocklist_cache := sd_blocklist_cache d; sd_network_wide_replication := sd_network_wide_replication d |}.

Definition sd_with_misc (d : SwarmDriver) (versions : gmap bytes bytes) (blocklist : CircularVec bytes)
    (nw : NetworkWideReplication) : SwarmDriver :=
  {| sd_self_peer_id := sd_self_peer_id d; sd_store := sd_store d; sd_replication_fetcher := sd_replication_fetcher d;
     sd_hard_disk_write_error := sd_hard_disk_write_error d; sd_bad_nodes := sd_bad_nodes d;
     sd_quotes_history := sd_quotes_history d; sd_replication_targets := sd_replication_targets d;
     sd_last_replication := sd_last_replication d; sd_peers_version := versions;
     sd_blocklist_cache := blocklist; sd_network_wide_replication := nw |}.

Definition as_peer_id (a : NetworkAddress) : option bytes :=
  match a with NA_PeerId b => peer_id_from_bytes b | _ => None end.

(** ** Peers *)

(** The peers with an entry; their multiaddresses are left out. *)
Definition collect_peers_info (rt : RoutingTable) (peers : list bytes) : list bytes :=
  filter (λ peer_id, rt_in_kbucket rt peer_id = true) peers.

Definition get_closest_local_peers_to_target (rt : RoutingTable) (target : NetworkAddress) (include_self : bool)
    (num_peers : nat) (d : SwarmDriver) : list bytes :=
  let num_peers := if include_self then (num_peers - 1)%nat else num_peers in
  let peer_ids := take num_peers (rt_closest_local_peers rt (as_kbucket_key target)) in
  if include_self then sd_self_peer_id d :: collect_peers_info rt peer_ids else collect_peers_info rt peer_ids.

Definition get_closest_local_peers_to_self (rt : RoutingTable) (num_peers : nat) (d : SwarmDriver) : list bytes :=
  get_closest_local_peers_to_target rt (NA_PeerId (sd_self_peer_id d)) true num_peers d.

Definition get_closest_k_local_peers_to_self (rt : RoutingTable) (d : SwarmDriver) : list bytes :=
  get_closest_local_peers_to_target rt (NA_PeerId (sd_self_peer_id d)) true K_VALUE d.

Definition get_peers_in_range (peers : list bytes) (address : NetworkAddress) (range : Z) : list bytes :=
  filter (λ peer_id, distance address (NA_PeerId peer_id) ≤ range) peers.

Definition get_replicate_candidates (rt : RoutingTable) (target : NetworkAddress) (d : SwarmDriver) : list bytes :=
  let expected_candidates :=
    match as_peer_id target with Some _ => (CLOSE_GROUP_SIZE * 2)%nat | None => CLOSE_GROUP_SIZE end in
  let closest_k_peers := get_closest_local_peers_to_target rt target false K_VALUE d in
  let fallback := take expected_candidates closest_k_peers in
  match ns_responsible_range (sd_store d) with
  | Some responsible_range =>
    let peers_in_range := get_peers_in_range closest_k_peers target responsible_range in
    if (expected_candidates <=? length peers_in_range)%nat then peers_in_range else fallback
  | None => fallback
  end.

(** [kademlia.remove_peer] and [update_on_peer_removal]. *)
Definition evict_peer (rt : RoutingTable) (peer_id : bytes) : list DriverEvent :=
  if rt_remove_peer rt peer_id then [PeerRemoved peer_id] else [].

(** [Instant::elapsed().as_secs()]; an [Instant] ahead of the clock has elapsed zero. *)
Definition elapsed_secs (now timestamp : Z) : Z := as_secs (Z.max 0 (now - timestamp)).

(** The number of reports of an issue that make a peer bad. *)
Definition issue_threshold (issue : NodeIssue) : nat := match issue with WrongPeerId => 1 | _ => 3 end.

Definition issue_count (issue : NodeIssue) (issues : list (NodeIssue * Z)) : nat :=
  length (filter (λ i, issue = i.1) issues).

(** The first issue reported often enough. *)
Definition repeated_issue (issues : list (NodeIssue * Z)) : option NodeIssue :=
  (λ x, x.2.1) <$> list_find (λ i, (issue_threshold i.1 ≤ issue_count i.1 issues)%nat) issues.

Definition record_node_issue (rt : RoutingTable) (t : IssueReadings) (peer_id : bytes) (issue : NodeIssue)
    (bad_nodes : gmap bytes (list (NodeIssue * Z) * bool))
    : gmap bytes (list (NodeIssue * Z) * bool) * list DriverEvent :=
  let '(issue_vec, is_bad) := default ([], false) (bad_nodes !! peer_id) in
  let informed (new_bad_behaviour : option NodeIssue) :=
    if is_bad then
      evict_peer rt peer_id ++
      match new_bad_behaviour with Some b => [SendPeerConsideredAsBad peer_id b] | None => [] end
    else [] in
  if is_bad then (<[peer_id := (issue_vec, is_bad)]> bad_nodes, informed None)
  else
    let issue_vec := filter (λ i, elapsed_secs (at_retain t) i.2 < 300) issue_vec in
    let issue_vec := if bool_decide (length issue_vec = 10%nat) then drop 1 issue_vec else issue_vec in
    let is_new_issue := match last issue_vec with
                        | Some (_, timestamp) => 10 <? elapsed_secs (at_last t) timestamp
                        | None => true
                        end in
    if negb is_new_issue then (<[peer_id := (issue_vec, is_bad)]> bad_nodes, [])
    else
      let issue_vec := issue_vec ++ [(issue, at_push t)] in
      match repeated_issue issue_vec with
      | Some ((ConnectionIssue | WrongPeerId) as eviction_issue) =>
        (<[peer_id := (filter (λ i, i.1 ≠ eviction_issue) issue_vec, is_bad)]> bad_nodes, evict_peer rt peer_id)
      | new_bad_behaviour => (<[peer_id := (issue_vec, is_bad)]> bad_nodes, informed new_bad_behaviour)
      end.

Definition verify_peer_quote (rt : RoutingTable) (t : IssueReadings) (now : Z * Z) (peer_id : bytes)
    (quote : PaymentQuote) (d : SwarmDriver) : SwarmDriver * list DriverEvent :=
  let keep := (sd_with_peers d (sd_bad_nodes d) (<[peer_id := quote]> (sd_quotes_history d)), []) in
  match sd_quotes_history d !! peer_id with
  | Some history_quote =>
    if negb (historical_verify now.1 now.2 history_quote quote) then
      let '(bad_nodes, events) := record_node_issue rt t peer_id BadQuoting (sd_bad_nodes d) in
      (sd_with_peers d bad_nodes (sd_quotes_history d), events)
    else if is_newer_than history_quote quote then (d, [])
    else keep
  | None => keep
  end.

(** The loop of [QuoteVerification]. *)
Fixpoint verify_quotes (rt : RoutingTable) (r : DriverReadings) (i : nat) (quotes : list (bytes * PaymentQuote))
    (d : SwarmDriver) : SwarmDriver * list DriverEvent :=
  match quotes with
  | [] => (d, [])
  | (peer_id, quote) :: quotes' =>
    match sd_bad_nodes d !! peer_id with
    | Some (_, true) => verify_quotes rt r (S i) quotes' d
    | _ =>
      let '(d, events) := verify_peer_quote rt (dr_issue r i) (dr_quote r i) peer_id quote d in
      let '(d, events') := verify_quotes rt r (S i) quotes' d in
      (d, events ++ events')
    end
  end.

(** ** Replication *)

Definition fetch_events (keys : list (bytes * bytes)) (events : list FetcherEvent) : list DriverEvent :=
  (FetcherSent <$> events) ++ match keys with [] => [] | _ :: _ => [KeysToFetchForReplication keys] end.

Definition try_interval_replication (rt : RoutingTable) (r : DriverReadings) (d : SwarmDriver)
    : SwarmDriver * list DriverEvent :=
  let skip := match sd_last_replication d with
              | Some last_replication => Z.max 0 (dr_since_replication r - last_replication) <? MIN_REPLICATION_INTERVAL_S
              | None => false
              end in
  if skip then (d, [])
  else
    let now := dr_targets r in
    let last := Some (dr_replication r) in
    let replicate_targets := get_replicate_candidates rt (NA_PeerId (sd_self_peer_id d)) d in
    let targets := retain (λ _ timestamp, now <? timestamp) (sd_replication_targets d) in
    let replicate_targets := filter (λ peer_id, contains_key peer_id targets = false) replicate_targets in
    let all_records := (hm_iter (ns_records (sd_store d))).*2 in
    if bool_decide (replicate_targets = []) || bool_decide (all_records = []) then
      (sd_with_replication d last targets, [])
    else
      let keys := (λ e : NetworkAddress * ValidationType * DataTypes, (e.1.1, e.1.2)) <$> all_records in
      (sd_with_replication d last (foldl (λ m peer_id, <[peer_id := now + REPLICATION_TIMEOUT]> m) targets replicate_targets),
       (λ peer_id, SendReplicate peer_id keys) <$> replicate_targets).

(** [add_keys_to_replication_fetcher]: a list from a peer out of range is ignored. *)
Definition add_keys_to_replication_fetcher (rt : RoutingTable) (r : DriverReadings) (sender : NetworkAddress)
    (incoming_keys : list (NetworkAddress * ValidationType)) (is_fresh_replicate : bool) (d : SwarmDriver)
    : SwarmDriver * list DriverEvent :=
  match as_peer_id sender with
  | None => (d, [])
  | Some holder =>
    let self_addr := NA_PeerId (sd_self_peer_id d) in
    let closest_40_peers := get_closest_local_peers_to_self rt REPLICATION_SENDER_CLOSE_GROUP_THRESHOLD d in
    let outside := bool_decide (holder ∉ closest_40_peers) || bool_decide (holder = sd_self_peer_id d) in
    let farthest_distance := from_option (λ peer_id, distance (NA_PeerId peer_id) self_addr) u256_max
                               (last closest_40_peers) in
    let increased_distance :=
      saturating_mul u256_max farthest_distance REPLICATION_SENDER_EXTENDED_DISTANCE_MULTIPLIER in
    let refused :=
      outside && (negb (is_network_under_load (sd_network_wide_replication d)) ||
                  (increased_distance <? distance (NA_PeerId holder) self_addr)) in
    if refused then (d, [])
    else
      let '(keys_to_fetch, f, events) :=
        add_keys (dr_fetcher r) holder incoming_keys (ns_records (sd_store d)) is_fresh_replicate
          (NA_PeerId <$> closest_40_peers) (sd_replication_fetcher d) in
      (sd_with_fetcher d f, fetch_events keys_to_fetch events)
  end.

(** ** Commands *)

(** The content version of a record to be stored. *)
Definition put_record_type (record : KadRecord) : result ValidationType NetworkError :=
  match record_header_from_record record with
  | Ok (DataOnly Chunk_t) => Ok VT_Chunk
  | Ok (DataOnly _) => Ok (VT_NonChunk (xorname_from_content (rec_value record)))
  | Ok (DataWithPayment _) | Ok (DataWithMerklePayment _) => Err InCorrectRecordHeader
  | Err _ => Err InCorrectRecordHeader
  end.

Definition handled (d : SwarmDriver) (effects : list Effect) (events : list DriverEvent) (reply : option Reply)
    : SwarmDriver * Outcome :=
  (d, {| out_result := Ok tt; out_effects := effects; out_events := events; out_reply := reply |}).

(** The command [PutLocalRecord]. *)
Definition put_local_record (fuel : nat) (r : DriverReadings) (record : KadRecord) (is_client_put : bool)
    (d : SwarmDriver) : option (SwarmDriver * Outcome) :=
  match put_record_type record with
  | Err e => Some (d, {| out_result := Err e; out_effects := []; out_events := []; out_reply := None |})
  | Ok record_type =>
    '(res, store, effects) ← put_verified fuel (dr_system r) record record_type is_client_put (sd_store d);
    let fetcher := match res with
                   | Err MaxRecords => set_farthest_on_full (get_farthest store) (sd_replication_fetcher d)
                   | _ => sd_replication_fetcher d
                   end in
    let '(new_keys_to_fetch, fetcher, fevents) :=
      notify_about_new_put (dr_fetcher r) (rec_key record) record_type fetcher in
    let fetcher := match ns_responsible_range store with
                   | Some range => set_replication_distance_range range fetcher
                   | None => fetcher
                   end in
    Some (sd_with_fetcher (sd_with_store d store) fetcher,
          {| out_result := map_err KademliaStoreError res; out_effects := effects;
             out_events := fetch_events new_keys_to_fetch fevents; out_reply := None |})
  end.

(** The commands the store's tasks send. *)
Definition handle_store_cmd (cmd : StoreCmd) (d : SwarmDriver) : SwarmDriver * Outcome :=
  match cmd with
  | AddLocalRecordAsStored key record_type data_type =>
    handled (sd_with_errors (sd_with_store d (mark_as_stored key record_type data_type (sd_store d))) 0) [] [] None
  | RemoveFailedLocalRecord key =>
    let '(store, effects) := remove key (sd_store d) in
    let errors := saturating_add usize_max (sd_hard_disk_write_error d) 1 in
    handled (sd_with_errors (sd_with_store d store) errors) effects
      (if MAX_CONTINUOUS_HDD_WRITE_ERROR <? errors then [TerminateNode] else []) None
  | RemoveOutOfSyncEntry key => handled (sd_with_store d (pruning_indexing_cache key (sd_store d))) [] [] None
  end.

(** [handle_local_cmd]; [None] is a cache eviction that has not ended within [fuel]. The directory
    is read by [GetLocalRecord]. *)
Definition handle_local_cmd (fuel : nat) (rt : RoutingTable) (r : DriverReadings) (disk : gmap bytes bytes)
    (cmd : LocalSwarmCmd) (d : SwarmDriver) : option (SwarmDriver * Outcome) :=
  match cmd with
  | TriggerIntervalReplication =>
    let '(d, events) := try_interval_replication rt r d in Some (handled d [] events None)
  | GetLocalQuotingMetrics key data_type data_size =>
    let '(metrics, is_already_stored) :=
      quoting_metrics (dr_system r 0%nat) key data_type data_size (Some (rt_estimated_network_size rt)) (sd_store d) in
    Some (handled d [] [] (Some (RepliedMetrics metrics is_already_stored)))
  | PaymentReceived =>
    let '(store, effects) := payment_received (sd_store d) in Some (handled (sd_with_store d store) effects [] None)
  | RecordNotAtTargetLocation =>
    Some (handled (sd_with_misc d (sd_peers_version d) (sd_blocklist_cache d)
      (set_network_under_load (dr_load r) (sd_network_wide_replication d))) [] [] None)
  | GetLocalRecord key =>
    let '(record, effects) := get disk key (sd_store d) in Some (handled d effects [] (Some (RepliedRecord record)))
  | CmdPutLocalRecord record is_client_put => put_local_record fuel r record is_client_put d
  | FromStore c => Some (handle_store_cmd c d)
  | RecordStoreHasKey key => Some (handled d [] [] (Some (RepliedBool (contains key (sd_store d)))))
  | GetAllLocalRecordAddresses => Some (handled d [] [] (Some (RepliedAddresses (record_addresses (sd_store d)))))
  | GetKCloseLocalPeersToTarget key =>
    Some (handled d [] [] (Some (RepliedPeers (get_closest_local_peers_to_target rt key true K_VALUE d))))
  | AddPeerToBlockList peer_id =>
    if circular_contains peer_id (sd_blocklist_cache d) then Some (handled d [] [] None)
    else
      let '(evicted, blocklist) := push_with_eviction peer_id (sd_blocklist_cache d) in
      Some (handled (sd_with_misc d (sd_peers_version d) blocklist (sd_network_wide_replication d)) []
              (match evicted with Some p => [UnblockPeer p] | None => [] end ++ [BlockPeer peer_id]) None)
  | RecordNodeIssue peer_id issue =>
    let '(bad_nodes, events) := record_node_issue rt (dr_issue r 0%nat) peer_id issue (sd_bad_nodes d) in
    Some (handled (sd_with_peers d bad_nodes (sd_quotes_history d)) [] events None)
  | IsPeerShunned target =>
    let is_bad := match as_peer_id target with
                  | Some peer_id => from_option snd false (sd_bad_nodes d !! peer_id)
                  | None => false
                  end in
    Some (handled d [] [] (Some (RepliedBool is_bad)))
  | QuoteVerification quotes =>
    let '(d, events) := verify_quotes rt r 0 quotes d in Some (handled d [] events None)
  | FetchCompleted key record_type =>
    let '(new_keys_to_fetch, f, events) :=
      notify_fetch_early_completed (dr_fetcher r) key record_type (sd_replication_fetcher d) in
    Some (handled (sd_with_fetcher d f) [] (fetch_events new_keys_to_fetch events) None)
  | TriggerIrrelevantRecordCleanup =>
    let '(store, effects) := cleanup_irrelevant_records (sd_store d) in
    Some (handled (sd_with_store d store) effects [] None)
  | NotifyPeerScores peer_scores =>
    Some (handled (sd_with_fetcher d
      (add_peer_scores (dr_scores r) (dr_random_peer r) peer_scores (sd_replication_fetcher d))) [] [] None)
  | AddFreshReplicateRecords holder keys =>
    let '(d, events) := add_keys_to_replication_fetcher rt r holder keys true d in Some (handled d [] events None)
  | NotifyPeerVersion peer version =>
    Some (handled (sd_with_misc d (<[peer := version]> (sd_peers_version d)) (sd_blocklist_cache d)
                  (sd_network_wide_replication d)) [] [] None)
  | GetNetworkDensity => Some (handled d [] [] (Some (RepliedDensity (ns_responsible_range (sd_store d)))))
  | RemovePeer peer => Some (handled d [] (evict_peer rt peer) None)
  end.

(** The [set_farthest_record_interval] branch of [SwarmDriver::run]: the responsible range is the
    expected distance to the fifth of the estimated nodes, and at least the distance to a close
    peer. *)
Definition set_farthest_record_tick (rt : RoutingTable) (d : SwarmDriver) : SwarmDriver :=
  if rt_estimated_network_size rt <=? Z.of_nat CLOSE_GROUP_SIZE then d
  else
    let density := u256_max / rt_estimated_network_size rt in
    let density_distance := density * Z.of_nat CLOSE_GROUP_SIZE in
    let closest_k_peers := get_closest_k_local_peers_to_self rt d in
    match closest_k_peers !! (CLOSE_GROUP_SIZE + 1)%nat with
    | Some peer =>
      if (length closest_k_peers <=? CLOSE_GROUP_SIZE + 2)%nat then d
      else
        let close_peers_distance := distance (NA_PeerId (sd_self_peer_id d)) (NA_PeerId peer) in
        let new_distance := Z.max density_distance close_peers_distance in
        sd_with_fetcher (sd_with_store d (set_responsible_distance_range new_distance (sd_store d)))
          (set_replication_distance_range new_distance (sd_replication_fetcher d))
    | None => d
    end.

(** The [network_wide_replication_interval] branch of [SwarmDriver::run]. *)
Definition network_wide_replication_tick (e : Execution) (d : SwarmDriver) : SwarmDriver * list DriverEvent :=
  let '(nw, keys) := execute e (sd_store d) (sd_network_wide_replication d) in
  (sd_with_misc d (sd_peers_version d) (sd_blocklist_cache d) nw,
   match keys with Some k => if ex_sent e then [NetworkWideReplicationKeys k] else [] | None => [] end).
End driver.
