(* ===== verification/DriverProps.v ===== *)
(** * Properties of the swarm driver

    The node as a system: the driver of Driver, the storage directory, the tasks the record store
    spawned, the commands on their way, and validations of PutValidation that read the local store
    at arbitrary earlier times. Whatever the interleaving, disk failures included, the store serves
    only records that authenticate themselves. And what the driver concludes about bad peers. *)

From stdpp Require Import base gmap strings countable list sorting relations.
From Stdlib Require Import ZArith Lia.
From S2P Require Import Prelude Protocol Storage RecordCache RecordStore RecordStoreFacts RecordStoreProps.
From S2P Require Import ReplicationFetcher MerkleTree MerkleTreeProps Payments PaymentsProps.
From S2P Require Import PutValidation PutValidationFacts PutValidationProps NetworkWideReplication Driver.

(** ** What the store holds and writes *)

Section store_content.
Context `{XorNameLib, Hex, Bls, Kad, RmpHeader, Aead, HashOrder, Libp2pIdentity}.
Context (P : bytes → KadRecord → Prop) (enc : Cipher * bytes).

Definition cache_ok (c : RecordCache) : Prop := ∀ k r ts, rc_records c !! k = Some (r, ts) → P k r.

Definition store_ok (s : NodeRecordStore) : Prop := ns_encryption s = enc ∧ cache_ok (ns_cache s).

Definition effects_ok (effs : list Effect) : Prop :=
  ∀ f r vt, SpawnWrite f r vt ∈ effs → f = generate_filename (rec_key r) ∧ P (rec_key r) r.

Lemma effects_ok_nil : effects_ok [].
Proof. intros f r vt Hin. by apply not_elem_of_nil in Hin. Qed.

Lemma effects_ok_app e1 e2 : effects_ok e1 → effects_ok e2 → effects_ok (e1 ++ e2).
Proof. intros H1' H2' f r vt [Hin|Hin]%elem_of_app; eauto. Qed.

Lemma cache_ok_sub c c' : rc_records c' ⊆ rc_records c → cache_ok c → cache_ok c'.
Proof. intros Hsub Hc k r ts Hk. eapply Hc. by eapply lookup_weaken. Qed.

Lemma remove_oldest_entry_sub now c : rc_records (remove_oldest_entry now c) ⊆ rc_records c.
Proof.
  unfold remove_oldest_entry. destruct (foldl _ _ _) as [t [k|]]; [|done]. apply delete_subseteq.
Qed.

Lemma cache_evict_sub fuel clk i c c' n : cache_evict fuel clk i c = Some (c', n) → rc_records c' ⊆ rc_records c.
Proof.
  revert i c. induction fuel as [|fuel IH]; intros i c Hc; simpl in Hc; case_match; simplify_eq; try done.
  etransitivity; [by eapply IH|]. apply remove_oldest_entry_sub.
Qed.

Lemma push_back_ok fuel clk key r c c' : push_back fuel clk key r c = Some c' → P key r → cache_ok c → cache_ok c'.
Proof.
  unfold push_back. intros ((c1 & n) & Hf & Hc')%bind_Some Hr Hc. injection Hc' as <-.
  assert (cache_ok c1) as Hc1.
  { eapply cache_ok_sub; [|exact Hc]. etransitivity; [by eapply cache_evict_sub|]. apply map_filter_subseteq. }
  intros k r' ts Hk. simpl in Hk. apply lookup_insert_Some in Hk as [[<- [= <- <-]]|[_ Hk]]; [done|]. by eapply Hc1.
Qed.

Lemma cache_remove_ok key c : cache_ok c → cache_ok (cache_remove key c).2.
Proof. apply cache_ok_sub. apply delete_subseteq. Qed.

Lemma remove_ok k s : store_ok s → store_ok (remove k s).1 ∧ effects_ok (remove k s).2.
Proof.
  intros [He Hc]. destruct (remove_fields k s) as (_ & _ & He' & _ & Hc' & _). split.
  - split; [congruence|]. rewrite Hc'. by apply cache_remove_ok.
  - unfold remove. simpl. intros f r vt Hin%list_elem_of_singleton. done.
Qed.

Lemma remove_all_ok keys s : store_ok s → store_ok (remove_all keys s).1 ∧ effects_ok (remove_all keys s).2.
Proof.
  intros Hs. unfold remove_all.
  apply (foldl_invariant (λ se : NodeRecordStore * list Effect, store_ok se.1 ∧ effects_ok se.2)).
  - split; [done|apply effects_ok_nil].
  - intros [s1 e1] k [Hs1 He1] _. cbn [fst snd] in *. destruct (remove_ok k s1 Hs1) as [Hs2 He2].
    destruct (remove k s1) as [s2 e2]. cbn [fst snd] in *. split; [done|]. by apply effects_ok_app.
Qed.

Lemma cleanup_ok s :
  store_ok s → store_ok (cleanup_irrelevant_records s).1 ∧ effects_ok (cleanup_irrelevant_records s).2.
Proof.
  intros Hs. unfold cleanup_irrelevant_records. case_match; [by split; [|apply effects_ok_nil]|].
  destruct (ns_responsible_range s); [|by split; [|apply effects_ok_nil]].
  case_match; [by split; [|apply effects_ok_nil]|]. by apply remove_all_ok.
Qed.

Lemma prune_ok k s :
  store_ok s → store_ok (prune_records_if_needed k s).1.2 ∧ effects_ok (prune_records_if_needed k s).2.
Proof.
  intros Hs. unfold prune_records_if_needed. case_match; [by split; [|apply effects_ok_nil]|].
  destruct (ns_farthest s) as [[f d]|]; [|by split; [|apply effects_ok_nil]].
  case_match; [by split; [|apply effects_ok_nil]|].
  pose proof (remove_ok f s Hs) as Hr. by destruct (remove f s).
Qed.

(** The part of a verified put that writes. *)
Lemma put_write_ok fuel clk r vt (client : bool) s res s' effs :
  P (rec_key r) r → store_ok s →
  (s1 ← (if client then ns_with_cache s <$> push_back fuel clk (rec_key r) r (ns_cache s) else Some s);
   match prune_records_if_needed (rec_key r) s1 with
   | (Err e, s2, effs) => Some (Err e, s2, effs)
   | (Ok _, s2, effs) => Some (Ok tt, s2, effs ++ [SpawnWrite (generate_filename (rec_key r)) r vt])
   end) = Some (res, s', effs) → store_ok s' ∧ effects_ok effs.
Proof.
  intros Hr [He Hc] (s1 & Hs1 & Hput)%bind_Some.
  assert (store_ok s1) as Hok1.
  { destruct client; [|by injection Hs1 as <-]. apply fmap_Some in Hs1 as (c & Hpush & ->).
    split; [done|]. by eapply push_back_ok. }
  destruct (prune_ok (rec_key r) s1 Hok1) as [Hok2 Heff].
  destruct (prune_records_if_needed (rec_key r) s1) as [[[|] s2] e2]; injection Hput as <- <- <-; [|done].
  split; [done|]. apply effects_ok_app; [done|]. intros f r' vt' Hin%list_elem_of_singleton.
  injection Hin as -> -> ->. done.
Qed.

Lemma put_verified_ok fuel clk r vt client s res s' effs :
  put_verified fuel clk r vt client s = Some (res, s', effs) → P (rec_key r) r → store_ok s →
  store_ok s' ∧ effects_ok effs.
Proof.
  intros Hput Hr [He Hc]. unfold put_verified in Hput. cbn [cache_remove] in Hput.
  set (s0 := ns_with_cache s (cache_with (ns_cache s) (delete (rec_key r) (rc_records (ns_cache s))))) in Hput.
  assert (store_ok s0) as Hs0 by (split; [done|]; by apply (cache_remove_ok (rec_key r))).
  destruct (rc_records (ns_cache s) !! rec_key r) as [[old ts]|] eqn:Hold; [|by eapply put_write_ok].
  case_bool_decide; [|by eapply put_write_ok].
  apply bind_Some in Hput as (c & Hpush & Hput). injection Hput as <- <- <-.
  split; [|apply effects_ok_nil]. split; [done|]. eapply push_back_ok; [exact Hpush|by eapply Hc|apply Hs0].
Qed.

(** ** Commands *)

Lemma verify_quotes_store rt r i quotes d : sd_store (verify_quotes rt r i quotes d).1 = sd_store d.
Proof.
  revert i d. induction quotes as [|[peer q] quotes IH]; intros i d; [done|]. cbn [verify_quotes].
  assert (sd_store (let '(d, events) := verify_peer_quote rt (dr_issue r i) (dr_quote r i) peer q d in
    let '(d, events') := verify_quotes rt r (S i) quotes d in (d, events ++ events')).1 = sd_store d) as Hstep.
  { assert (sd_store (verify_peer_quote rt (dr_issue r i) (dr_quote r i) peer q d).1 = sd_store d) as <-.
    { unfold verify_peer_quote. destruct (sd_quotes_history d !! peer); [|done].
      case_match; [|by case_match]. by destruct (record_node_issue _ _ _ _ _). }
    destruct (verify_peer_quote _ _ _ _ _ _) as [d1 e1]. simpl. specialize (IH (S i) d1).
    by destruct (verify_quotes _ _ _ _ _). }
  destruct (sd_bad_nodes d !! peer) as [[l []]|]; [apply IH|exact Hstep|exact Hstep].
Qed.

Lemma try_interval_replication_store rt r d : sd_store (try_interval_replication rt r d).1 = sd_store d.
Proof.
  unfold try_interval_replication. cbv zeta.
  destruct (match sd_last_replication d with Some _ => _ | None => _ end); [done|].
  by destruct (bool_decide _ || bool_decide _).
Qed.

Lemma add_keys_store rt r sender keys fresh d :
  sd_store (add_keys_to_replication_fetcher rt r sender keys fresh d).1 = sd_store d.
Proof.
  unfold add_keys_to_replication_fetcher. destruct (as_peer_id sender); [|done]. cbv zeta. case_match; [done|].
  by destruct (add_keys _ _ _ _ _ _ _) as [[? ?] ?].
Qed.

Lemma put_local_record_ok fuel r record client d d' out :
  put_local_record fuel r record client d = Some (d', out) → P (rec_key record) record → store_ok (sd_store d) →
  store_ok (sd_store d') ∧ effects_ok (out_effects out).
Proof.
  unfold put_local_record. intros Hput Hr Hs. destruct (put_record_type record) as [vt|e].
  - apply bind_Some in Hput as ([[res store] effs] & Hv & Hput).
    destruct (notify_about_new_put _ _ _ _) as [[keys f] evs]. injection Hput as <- <-. simpl.
    by eapply put_verified_ok.
  - injection Hput as <- <-. split; [done|apply effects_ok_nil].
Qed.

Lemma handle_store_cmd_ok cmd d :
  store_ok (sd_store d) →
  store_ok (sd_store (handle_store_cmd cmd d).1) ∧ effects_ok (out_effects (handle_store_cmd cmd d).2).
Proof.
  intros Hs. destruct cmd as [key vt dt|key|key]; cbn [handle_store_cmd].
  - split; [|apply effects_ok_nil]. destruct (mark_as_stored_fields key vt dt (sd_store d)) as (_ & _ & He & Hc & _).
    destruct Hs as [Hs1 Hs2]. split; [exact (eq_trans He Hs1)|].
    unfold cache_ok. cbn [handled fst sd_store sd_with_errors sd_with_store]. by rewrite Hc.
  - destruct (remove_ok key (sd_store d) Hs) as [Hr He]. by destruct (remove key (sd_store d)).
  - split; [|apply effects_ok_nil]. destruct (index_remove_fields key (sd_store d)) as (_ & _ & Hc & _ & He & _).
    destruct Hs as [Hs1 Hs2]. split; [exact (eq_trans He Hs1)|].
    unfold cache_ok. cbn [handled fst sd_store sd_with_store]. unfold pruning_indexing_cache. by rewrite Hc.
Qed.

(** Only a put of a record outside [P] could break the store. *)
Lemma handle_local_cmd_ok fuel rt r disk cmd d d' out :
  (∀ record c, cmd = CmdPutLocalRecord record c → P (rec_key record) record) → store_ok (sd_store d) →
  handle_local_cmd fuel rt r disk cmd d = Some (d', out) →
  store_ok (sd_store d') ∧ effects_ok (out_effects out).
Proof.
  intros Hcmd Hs Hh. destruct cmd; cbn [handle_local_cmd] in Hh; unfold handled in Hh;
    try (injection Hh as <- <-; simpl; split; [exact Hs|apply effects_ok_nil]).
  - pose proof (try_interval_replication_store rt r d) as Hst. destruct (try_interval_replication rt r d).
    injection Hh as <- <-. simpl in *. rewrite Hst. split; [done|apply effects_ok_nil].
  - destruct (quoting_metrics _ _ _ _ _ _). injection Hh as <- <-. split; [done|apply effects_ok_nil].
  - unfold payment_received in Hh. injection Hh as <- <-. simpl. split; [done|].
    intros f r0 vt Hin%list_elem_of_singleton. done.
  - destruct (get disk key (sd_store d)) as [o effs] eqn:Hg. injection Hh as <- <-. split; [done|].
    unfold get in Hg. intros f r0 vt Hin. simpl in Hin. repeat case_match; simplify_eq;
      try (by apply not_elem_of_nil in Hin). by apply list_elem_of_singleton in Hin.
  - eapply put_local_record_ok; [exact Hh|by eapply Hcmd|done].
  - pose proof (handle_store_cmd_ok cmd d Hs) as Hok. injection Hh as Hh. by rewrite Hh in Hok.
  - case_match; [injection Hh as <- <-; split; [done|apply effects_ok_nil]|].
    destruct (push_with_eviction _ _). injection Hh as <- <-. split; [done|apply effects_ok_nil].
  - destruct (record_node_issue _ _ _ _ _). injection Hh as <- <-. split; [done|apply effects_ok_nil].
  - pose proof (verify_quotes_store rt r 0 quotes d) as Hst. destruct (verify_quotes rt r 0 quotes d).
    injection Hh as <- <-. simpl in *. rewrite Hst. split; [done|apply effects_ok_nil].
  - destruct (notify_fetch_early_completed _ _ _ _) as [[? ?] ?]. injection Hh as <- <-. split; [done|apply effects_ok_nil].
  - destruct (cleanup_ok (sd_store d) Hs) as [Hc He]. destruct (cleanup_irrelevant_records (sd_store d)).
    injection Hh as <- <-. done.
  - pose proof (add_keys_store rt r holder keys true d) as Hst.
    destruct (add_keys_to_replication_fetcher rt r holder keys true d).
    injection Hh as <- <-. simpl in *. rewrite Hst. split; [done|apply effects_ok_nil].
Qed.
End store_content.

(** ** The node as a system *)

Section system.
Context `{XorNameLib, HexLaws, BlsOrdLaws, Layout, Kad, RmpHeaderLaws, Libp2pIdentity, AntMerkle, AeadLaws, HashOrder}.
Context `{BSer : !BodySerde, BLaws : !BodySerdeLaws}.

(** The driver, the storage directory, the spawned tasks, the commands on their way, and the local
    records that were given out. *)
Record NodeSystem := {
  sy_driver : SwarmDriver;
  sy_disk : gmap bytes bytes;
  sy_tasks : list Effect;
  sy_inbox : list LocalSwarmCmd;
  sy_answers : list (bytes * KadRecord);
}.

Definition effect_cmd (e : NodeEffect) : LocalSwarmCmd :=
  match e with
  | PutLocalRecord record is_client_put => CmdPutLocalRecord record is_client_put
  | NotifyFetchCompleted key record_type => FetchCompleted key record_type
  | NotifyPaymentReceived => PaymentReceived
  end.

(** The record a command gives out. *)
Definition given_out (cmd : LocalSwarmCmd) (out : Outcome) : list (bytes * KadRecord) :=
  match cmd, out_reply out with
  | GetLocalRecord key, Some (RepliedRecord (Some record)) => [(key, record)]
  | _, _ => []
  end.

(** The system after the driver handled a command. *)
Definition after_cmd (cmd : LocalSwarmCmd) (inbox : list LocalSwarmCmd) (d : SwarmDriver) (out : Outcome)
    (sys : NodeSystem) : NodeSystem :=
  {| sy_driver := d; sy_disk := sy_disk sys; sy_tasks := sy_tasks sys ++ out_effects out; sy_inbox := inbox;
     sy_answers := sy_answers sys ++ given_out cmd out |}.

(** A spawned task runs: what it leaves on disk and the commands it sends. *)
Definition run_task (encryption_details : Cipher * bytes) (outcome : WriteOutcome) (t : Effect) (disk : gmap bytes bytes)
    : gmap bytes bytes * list LocalSwarmCmd :=
  match t with
  | SpawnWrite filename r record_type =>
    let '(disk, cmd) := run_write encryption_details filename r record_type outcome disk in
    (disk, match cmd with Some c => [FromStore c] | None => [] end)
  | SpawnRemoveFile filename => (delete filename disk, [])
  | SendLocalSwarmCmd c => (disk, [FromStore c])
  | SpawnUnverifiedRecord _ | SpawnFlushMetrics _ => (disk, [])
  end.

(** What a failed write leaves of a record's file does not authenticate. *)
Definition outcome_ok (encryption_details : Cipher * bytes) (t : Effect) (outcome : WriteOutcome) : Prop :=
  match t, outcome with
  | SpawnWrite _ r _, WriteFailed (Some c) => get_record_from_bytes c (rec_key r) encryption_details = None
  | _, _ => True
  end.

(** A command that only validations and the store's tasks send. *)
Definition internal (cmd : LocalSwarmCmd) : bool :=
  match cmd with CmdPutLocalRecord _ _ | FromStore _ => true | _ => false end.

Definition sy_enc (sys : NodeSystem) : Cipher * bytes := ns_encryption (sd_store (sy_driver sys)).

(** A validation ends, having read local records at any earlier time; the driver takes one of the
    commands on their way, or another request; a task runs; the intervals of the range and of network-wide replication tick. *)
Inductive sys_step : NodeSystem → NodeSystem → Prop :=
  | step_validate env q sys :
    (∀ k l, env_get_local_record env k = Some (Some l) → (k, l) ∈ sy_answers sys) →
    sys_step sys {| sy_driver := sy_driver sys; sy_disk := sy_disk sys; sy_tasks := sy_tasks sys;
                    sy_inbox := sy_inbox sys ++ (effect_cmd <$> (handle env q).1); sy_answers := sy_answers sys |}
  | step_command fuel rt r cmd before after d out sys :
    sy_inbox sys = before ++ cmd :: after →
    handle_local_cmd fuel rt r (sy_disk sys) cmd (sy_driver sys) = Some (d, out) →
    sys_step sys (after_cmd cmd (before ++ after) d out sys)
  | step_request fuel rt r cmd d out sys :
    internal cmd = false →
    handle_local_cmd fuel rt r (sy_disk sys) cmd (sy_driver sys) = Some (d, out) →
    sys_step sys (after_cmd cmd (sy_inbox sys) d out sys)
  | step_task t before after outcome sys :
    sy_tasks sys = before ++ t :: after → outcome_ok (sy_enc sys) t outcome →
    sys_step sys {| sy_driver := sy_driver sys; sy_disk := (run_task (sy_enc sys) outcome t (sy_disk sys)).1;
                    sy_tasks := before ++ after;
                    sy_inbox := sy_inbox sys ++ (run_task (sy_enc sys) outcome t (sy_disk sys)).2;
                    sy_answers := sy_answers sys |}
  | step_tick rt sys :
    sys_step sys {| sy_driver := set_farthest_record_tick rt (sy_driver sys); sy_disk := sy_disk sys;
                    sy_tasks := sy_tasks sys; sy_inbox := sy_inbox sys; sy_answers := sy_answers sys |}
  | step_network_wide e sys :
    sys_step sys {| sy_driver := (network_wide_replication_tick e (sy_driver sys)).1; sy_disk := sy_disk sys;
                    sy_tasks := sy_tasks sys; sy_inbox := sy_inbox sys; sy_answers := sy_answers sys |}.

(** The record authenticates itself under the key. *)
Definition authentic (k : bytes) (r : KadRecord) : Prop := rec_key r = k ∧ ∃ b, record_holds r b.

Definition disk_ok (enc : Cipher * bytes) (disk : gmap bytes bytes) : Prop :=
  ∀ k r, read_from_disk enc k disk = Some r → authentic k r.

(** A started node: nothing cached, nothing under way, and a directory whose readable files are
    authentic, as an empty one is. *)
Definition sys_init (sys : NodeSystem) : Prop :=
  rc_records (ns_cache (sd_store (sy_driver sys))) = ∅ ∧ disk_ok (sy_enc sys) (sy_disk sys) ∧
  sy_tasks sys = [] ∧ sy_inbox sys = [] ∧ sy_answers sys = [].

Definition sys_ok (enc : Cipher * bytes) (sys : NodeSystem) : Prop :=
  store_ok authentic enc (sd_store (sy_driver sys)) ∧ disk_ok enc (sy_disk sys) ∧
  effects_ok authentic (sy_tasks sys) ∧
  (∀ r c, CmdPutLocalRecord r c ∈ sy_inbox sys → authentic (rec_key r) r) ∧
  (∀ k r, (k, r) ∈ sy_answers sys → authentic k r).

(** What the store gives out is cached or read from disk. *)
Lemma get_authentic enc disk k s r :
  store_ok authentic enc s → disk_ok enc disk → (get disk k s).1 = Some r → authentic k r.
Proof.
  intros [He Hc] Hd Hg. unfold get, cache_get in Hg.
  destruct (rc_records (ns_cache s) !! k) as [[r' ts]|] eqn:Hk; simpl in Hg; [injection Hg as <-; by eapply Hc|].
  case_match; [done|]. rewrite He in Hg. destruct (read_from_disk enc k disk) eqn:Hr; simplify_eq/=. by apply Hd.
Qed.

(** A written file reads back as the record, which has no publisher and no expiry. *)
Lemma run_write_disk_ok enc r vt outcome disk :
  authentic (rec_key r) r → disk_ok enc disk →
  outcome_ok enc (SpawnWrite (generate_filename (rec_key r)) r vt) outcome →
  disk_ok enc (run_write enc (generate_filename (rec_key r)) r vt outcome disk).1.
Proof.
  intros Ha Hd Ho. unfold run_write. destruct (get_data_type r); [|done].
  destruct (prepare_record_bytes r enc) as [b|] eqn:Hb; [|done].
  assert (∀ c, (∀ r', get_record_from_bytes c (rec_key r) enc = Some r' → authentic (rec_key r) r') →
    disk_ok enc (<[generate_filename (rec_key r) := c]> disk)) as Hins.
  { intros c Hc k r' Hr'. unfold read_from_disk in Hr'. apply bind_Some in Hr' as (b' & Hb' & Hr').
    apply lookup_insert_Some in Hb' as [[Hk <-]|[Hk Hb']].
    - apply hex_encode_inj in Hk as <-. by apply Hc.
    - apply Hd. unfold read_from_disk. by rewrite Hb'. }
  destruct outcome as [|[c|]]; simpl.
  - apply Hins. intros r' Hr'. destruct enc as [cipher nonce]. unfold prepare_record_bytes in Hb.
    unfold get_record_from_bytes in Hr'. rewrite (aead_roundtrip _ _ _ _ Hb) in Hr'. injection Hr' as <-.
    destruct Ha as [_ (body & v & Hs & Hr & Hv)]. split; [done|]. exists body, v. split; [done|].
    split; [|done]. simpl. by rewrite Hr.
  - apply Hins. intros r' Hr'. simpl in Ho. congruence.
  - done.
Qed.

Lemma after_cmd_ok enc fuel rt r cmd inbox d out sys :
  sys_ok enc sys → (∀ record c, cmd = CmdPutLocalRecord record c → authentic (rec_key record) record) →
  (∀ c, c ∈ inbox → c ∈ sy_inbox sys) →
  handle_local_cmd fuel rt r (sy_disk sys) cmd (sy_driver sys) = Some (d, out) → sys_ok enc (after_cmd cmd inbox d out sys).
Proof.
  intros (Hs & Hd & Ht & Hi & Ha) Hcmd Hin Hh.
  destruct (handle_local_cmd_ok _ _ _ _ _ _ _ _ _ _ Hcmd Hs Hh) as [Hs' He].
  split; [done|]. split; [done|]. split; [by apply effects_ok_app|]. split; [intros; eapply Hi, Hin; eassumption|].
  intros k r' [Hk|Hk]%elem_of_app; [by apply Ha|]. unfold given_out in Hk.
  destruct cmd; try (by apply not_elem_of_nil in Hk). cbn [handle_local_cmd] in Hh. unfold handled in Hh.
  destruct (get (sy_disk sys) key (sd_store (sy_driver sys))) as [o effs] eqn:Hg. injection Hh as <- <-. simpl in Hk.
  destruct o as [r0|]; [|by apply not_elem_of_nil in Hk]. apply list_elem_of_singleton in Hk. injection Hk as -> ->.
  eapply get_authentic; [exact Hs|exact Hd|]. by rewrite Hg.
Qed.

Lemma validated_puts_authentic env q r c :
  locals_valid env → PutLocalRecord r c ∈ (handle env q).1 → authentic (rec_key r) r.
Proof.
  intros Hloc He. destruct q as [record|record]; simpl in He.
  - apply (client_written _ _ _ _ (Hloc _)) in He as [(_ & b & Hb & _) _]. split; [done|by exists b].
  - apply (replicated_written _ _ _ _ (Hloc _)) in He as [(_ & b & Hb & _) _]. split; [done|by exists b].
Qed.

Lemma run_task_ok enc outcome t disk :
  effects_ok authentic [t] → disk_ok enc disk → outcome_ok enc t outcome →
  disk_ok enc (run_task enc outcome t disk).1 ∧
  ∀ r c, CmdPutLocalRecord r c ∉ (run_task enc outcome t disk).2.
Proof.
  intros Ht Hd Ho. destruct t as [f r vt|f|cmd|r|m]; simpl.
  - destruct (Ht f r vt) as [-> Ha]; [left|]. pose proof (run_write_disk_ok enc r vt outcome disk Ha Hd Ho) as Hok.
    destruct (run_write _ _ _ _ _ _) as [disk' [cmd|]]; simpl in *; (split; [done|]); set_solver.
  - split; [|set_solver]. intros k r Hr. apply Hd. unfold read_from_disk in *.
    apply bind_Some in Hr as (b & Hb & Hr). apply lookup_delete_Some in Hb as [_ Hb]. by rewrite Hb.
  - split; [done|set_solver].
  - split; [done|set_solver].
  - split; [done|set_solver].
Qed.

Lemma tick_store_ok enc rt d :
  store_ok authentic enc (sd_store d) → store_ok authentic enc (sd_store (set_farthest_record_tick rt d)).
Proof. intros Hs. unfold set_farthest_record_tick. cbv zeta. by repeat case_match. Qed.

Lemma sys_step_ok enc sys sys' : sys_ok enc sys → sys_step sys sys' → sys_ok enc sys'.
Proof.
  intros Hok Hstep. pose proof Hok as (Hs & Hd & Ht & Hi & Ha).
  assert (sy_enc sys = enc) as Henc by apply Hs.
  destruct Hstep as [env q sys Hreads|fuel rt r cmd before after d out sys Hin Hh|fuel rt r cmd d out sys Hint Hh
    |t before after outcome sys Hin Ho|rt sys|e sys].
  - repeat (split; [done|]). split; [|done]. simpl. intros r c [Hr|Hr]%elem_of_app; [by eapply Hi|].
    apply list_elem_of_fmap in Hr as (e & He & Hin). destruct e as [r' c'| |]; try done. injection He as -> ->.
    eapply validated_puts_authentic; [|exact Hin]. intros k l Hl. by apply Ha, Hreads.
  - eapply after_cmd_ok; [exact Hok| | |exact Hh].
    + intros r' c' ->. apply (Hi r' c'). rewrite Hin. set_solver.
    + intros c Hc. rewrite Hin. set_solver.
  - eapply after_cmd_ok; [exact Hok| |done|exact Hh]. by intros r' c' ->.
  - rewrite Henc in *. destruct (run_task_ok enc outcome t (sy_disk sys)) as [Hd' Hc]; [|done|done|].
    { intros f r vt Hr. apply (Ht f r vt). rewrite Hin. set_solver. }
    split; [done|]. split; [done|]. split; [|split; [|done]].
    + intros f r vt Hr. apply (Ht f r vt). rewrite Hin. simpl in Hr. set_solver.
    + intros r c [Hr|Hr]%elem_of_app; [by eapply Hi|by apply Hc in Hr].
  - split; [by apply tick_store_ok|]. done.
  - split; [|done]. simpl. unfold network_wide_replication_tick. by destruct (execute _ _ _).
Qed.

Lemma sys_run_ok sys0 sys : sys_init sys0 → rtc sys_step sys0 sys → sys_ok (sy_enc sys0) sys.
Proof.
  intros (Hc & Hd & Ht & Hi & Ha) Hrun. assert (sys_ok (sy_enc sys0) sys0) as Hok.
  { split; [split; [done|]|]. { intros k r ts Hk. by rewrite Hc, lookup_empty in Hk. }
    split; [done|]. rewrite Ht, Hi, Ha. split; [apply effects_ok_nil|]. split; set_solver. }
  assert (∀ enc s, rtc sys_step s sys → sys_ok enc s → sys_ok enc sys) as Hind; [|by eapply Hind].
  intros enc s Hr. induction Hr as [|s1 s2 s3 Hs _ IH]; [done|]. intros H1'. by eapply IH, sys_step_ok.
Qed.

(** C5: a node serves only authentic records. In every interleaving of validations (which may act on
    local records read earlier), commands, disk writes and removals that complete in any order or
    fail, and cache evictions, a record read from the local store authenticates itself under the key
    it was asked for. The node starts on a directory whose readable files are authentic, and what a
    failed write leaves of a file does not decrypt. *)
Theorem node_serves_authentic sys0 sys k r :
  sys_init sys0 → rtc sys_step sys0 sys →
  (get (sy_disk sys) k (sd_store (sy_driver sys))).1 = Some r → rec_key r = k ∧ ∃ b, record_holds r b.
Proof.
  intros Hinit Hrun Hg. destruct (sys_run_ok _ _ Hinit Hrun) as (Hs & Hd & _). by eapply get_authentic.
Qed.
End system.

(** ** Bad peers *)

Section bad_peers.
Context `{XorNameLib, Hex, Bls, Kad, RmpHeader, Aead, HashOrder, Libp2pIdentity}.

(** No peer is marked as bad, and at most ten issues of each are kept. *)
Definition peers_ok (bad_nodes : gmap bytes (list (NodeIssue * Z) * bool)) : Prop :=
  ∀ peer issues is_bad, bad_nodes !! peer = Some (issues, is_bad) → is_bad = false ∧ (length issues ≤ 10)%nat.

Lemma evict_peer_events rt peer e : e ∈ evict_peer rt peer → e = PeerRemoved peer.
Proof. unfold evict_peer. case_match; set_solver. Qed.

Lemma record_node_issue_ok rt t peer issue m :
  peers_ok m → let '(m', events) := record_node_issue rt t peer issue m in
  peers_ok m' ∧ ∀ e, e ∈ events → e = PeerRemoved peer.
Proof.
  intros Hm. unfold record_node_issue.
  assert (∃ l, default ([], false) (m !! peer) = (l, false) ∧ (length l ≤ 10)%nat) as (l & -> & Hl).
  { destruct (m !! peer) as [[l b]|] eqn:Hp; [|by exists []; split; [|simpl; lia]].
    apply Hm in Hp as [-> Hl]. by exists l. }
  assert (∀ l', (length l' ≤ 10)%nat → peers_ok (<[peer := (l', false)]> m)) as Hins.
  { intros l' Hl' p iss b [[<- [= <- <-]]|[_ Hp]]%lookup_insert_Some; [done|]. by apply Hm in Hp. }
  cbv zeta. set (l1 := filter _ l).
  assert (length l1 ≤ 10)%nat as Hl1 by (unfold l1; etransitivity; [apply length_filter|done]).
  set (l2 := if bool_decide (length l1 = 10%nat) then drop 1 l1 else l1).
  assert (length l2 < 10)%nat as Hl2 by (unfold l2; case_bool_decide; rewrite ?length_drop; lia).
  destruct (negb _); [split; [apply Hins; lia|set_solver]|].
  assert (length (l2 ++ [(issue, at_push t)]) ≤ 10)%nat as Hl3 by (rewrite length_app; simpl; lia).
  destruct (repeated_issue (l2 ++ [(issue, at_push t)])) as [[]|];
    (split; [apply Hins; try done|try (intros e; apply evict_peer_events); set_solver]);
    (etransitivity; [apply length_filter|done]).
Qed.

(** Events that neither inform nor block a peer. *)
Definition mild (events : list DriverEvent) : Prop :=
  ∀ e, e ∈ events → match e with SendPeerConsideredAsBad _ _ | BlockPeer _ => False | _ => True end.

Lemma mild_nil : mild [].
Proof. intros e He. by apply not_elem_of_nil in He. Qed.

Lemma mild_app a b : mild a → mild b → mild (a ++ b).
Proof. intros Ha Hb e [He|He]%elem_of_app; [by apply Ha|by apply Hb]. Qed.

Lemma fetch_events_mild keys events : mild (fetch_events keys events).
Proof.
  apply mild_app; [by intros e (x & -> & _)%list_elem_of_fmap|].
  destruct keys; [apply mild_nil|]. by intros e ->%list_elem_of_singleton.
Qed.

Lemma removed_mild peer events : (∀ e, e ∈ events → e = PeerRemoved peer) → mild events.
Proof. intros He e Hin. by rewrite (He e Hin). Qed.

Lemma verify_peer_quote_ok rt t now peer q d :
  peers_ok (sd_bad_nodes d) →
  peers_ok (sd_bad_nodes (verify_peer_quote rt t now peer q d).1) ∧ mild (verify_peer_quote rt t now peer q d).2.
Proof.
  intros Hd. unfold verify_peer_quote. destruct (sd_quotes_history d !! peer); [|by split; [|apply mild_nil]].
  case_match; [|case_match; by split; [|apply mild_nil]].
  pose proof (record_node_issue_ok rt t peer BadQuoting _ Hd) as Hr. destruct (record_node_issue _ _ _ _ _) as [m es].
  destruct Hr as [Hm Hes]. split; [done|]. by eapply removed_mild.
Qed.

Lemma verify_quotes_ok rt r i quotes d :
  peers_ok (sd_bad_nodes d) →
  peers_ok (sd_bad_nodes (verify_quotes rt r i quotes d).1) ∧ mild (verify_quotes rt r i quotes d).2.
Proof.
  revert i d. induction quotes as [|[peer q] quotes IH]; intros i d Hd; [by split; [|apply mild_nil]|].
  cbn [verify_quotes].
  destruct (verify_peer_quote_ok rt (dr_issue r i) (dr_quote r i) peer q d Hd) as [H1' He1].
  assert (peers_ok (sd_bad_nodes (let '(d, events) := verify_peer_quote rt (dr_issue r i) (dr_quote r i) peer q d in
    let '(d, events') := verify_quotes rt r (S i) quotes d in (d, events ++ events')).1) ∧
    mild (let '(d, events) := verify_peer_quote rt (dr_issue r i) (dr_quote r i) peer q d in
    let '(d, events') := verify_quotes rt r (S i) quotes d in (d, events ++ events')).2) as Hstep.
  { destruct (verify_peer_quote _ _ _ _ _ _) as [d1 e1]. destruct (IH (S i) d1 H1') as [H2' He2].
    destruct (verify_quotes _ _ _ _ _) as [d2 e2]. split; [done|]. by apply mild_app. }
  destruct (sd_bad_nodes d !! peer) as [[l []]|]; [by apply IH|exact Hstep|exact Hstep].
Qed.

Lemma try_interval_replication_peers rt r d :
  sd_bad_nodes (try_interval_replication rt r d).1 = sd_bad_nodes d ∧ mild (try_interval_replication rt r d).2.
Proof.
  unfold try_interval_replication. cbv zeta.
  destruct (match sd_last_replication d with Some _ => _ | None => _ end); [by split; [|apply mild_nil]|].
  destruct (bool_decide _ || bool_decide _); [by split; [|apply mild_nil]|].
  split; [done|]. by intros e (x & -> & _)%list_elem_of_fmap.
Qed.

Lemma add_keys_peers rt r sender keys fresh d :
  sd_bad_nodes (add_keys_to_replication_fetcher rt r sender keys fresh d).1 = sd_bad_nodes d ∧
  mild (add_keys_to_replication_fetcher rt r sender keys fresh d).2.
Proof.
  unfold add_keys_to_replication_fetcher. destruct (as_peer_id sender); [|by split; [|apply mild_nil]]. cbv zeta.
  case_match; [by split; [|apply mild_nil]|]. destruct (add_keys _ _ _ _ _ _ _) as [[? ?] ?].
  split; [done|apply fetch_events_mild].
Qed.

Lemma put_local_record_peers fuel r record client d d' out :
  put_local_record fuel r record client d = Some (d', out) →
  sd_bad_nodes d' = sd_bad_nodes d ∧ mild (out_events out).
Proof.
  unfold put_local_record. destruct (put_record_type record); intros Hput.
  - apply bind_Some in Hput as ([[res store] effs] & _ & Hput).
    destruct (notify_about_new_put _ _ _ _) as [[keys f] evs]. injection Hput as <- <-.
    split; [done|apply fetch_events_mild].
  - injection Hput as <- <-. split; [done|apply mild_nil].
Qed.

Lemma handle_store_cmd_peers cmd d :
  sd_bad_nodes (handle_store_cmd cmd d).1 = sd_bad_nodes d ∧ mild (out_events (handle_store_cmd cmd d).2).
Proof.
  destruct cmd as [key vt dt|key|key]; cbn [handle_store_cmd]; [by split; [|apply mild_nil]| |by split; [|apply mild_nil]].
  destruct (remove key (sd_store d)). split; [done|]. simpl. case_match; [|apply mild_nil].
  by intros e ->%list_elem_of_singleton.
Qed.

Lemma handle_local_cmd_peers fuel rt r disk cmd d d' out :
  peers_ok (sd_bad_nodes d) → handle_local_cmd fuel rt r disk cmd d = Some (d', out) →
  peers_ok (sd_bad_nodes d') ∧
  (mild (out_events out) ∨ ∃ p, cmd = AddPeerToBlockList p ∧ ∀ e, e ∈ out_events out → e = BlockPeer p ∨ ∃ p', e = UnblockPeer p').
Proof.
  intros Hd Hh. destruct cmd; cbn [handle_local_cmd] in Hh; unfold handled in Hh;
    try (injection Hh as <- <-; simpl; split; [exact Hd|left; apply mild_nil]).
  - destruct (try_interval_replication_peers rt r d) as [Hb Hm]. destruct (try_interval_replication rt r d).
    injection Hh as <- <-. simpl in *. rewrite Hb. auto.
  - destruct (quoting_metrics _ _ _ _ _ _). injection Hh as <- <-. split; [done|left; apply mild_nil].
  - destruct (get disk key (sd_store d)). injection Hh as <- <-. split; [done|left; apply mild_nil].
  - apply put_local_record_peers in Hh as [-> Hm]. auto.
  - destruct (handle_store_cmd_peers cmd d) as [Hb Hm]. injection Hh as Hh. rewrite Hh in Hb, Hm. simpl in *.
    rewrite Hb. auto.
  - case_match; [injection Hh as <- <-; split; [done|left; apply mild_nil]|].
    destruct (push_with_eviction _ _) as [o b]. injection Hh as <- <-. split; [done|]. right. exists peer_id.
    split; [done|]. simpl. intros e [He|He]%elem_of_app; [|left; set_solver].
    right. destruct o; set_solver.
  - pose proof (record_node_issue_ok rt (dr_issue r 0%nat) peer_id issue _ Hd) as Hr.
    destruct (record_node_issue _ _ _ _ _). injection Hh as <- <-. destruct Hr as [Hm He].
    split; [done|]. left. by eapply removed_mild.
  - destruct (verify_quotes_ok rt r 0 quotes d Hd) as [Hp Hm]. destruct (verify_quotes rt r 0 quotes d).
    injection Hh as <- <-. auto.
  - destruct (notify_fetch_early_completed _ _ _ _) as [[? ?] ?]. injection Hh as <- <-.
    split; [done|left; apply fetch_events_mild].
  - destruct (cleanup_irrelevant_records (sd_store d)). injection Hh as <- <-. split; [done|left; apply mild_nil].
  - destruct (add_keys_peers rt r holder keys true d) as [Hb Hm].
    destruct (add_keys_to_replication_fetcher rt r holder keys true d). injection Hh as <- <-. simpl in *. rewrite Hb. auto.
  - injection Hh as <- <-. split; [done|]. left. intros e He. by apply evict_peer_events in He as ->.
Qed.

(** The commands of a run, each with its fuel, routing table, readings and directory. *)
Definition CmdContext : Type := nat * RoutingTable * DriverReadings * gmap bytes bytes * LocalSwarmCmd.

Fixpoint run_cmds (l : list CmdContext) (d : SwarmDriver) : option (SwarmDriver * list (LocalSwarmCmd * Outcome)) :=
  match l with
  | [] => Some (d, [])
  | (fuel, rt, r, disk, cmd) :: l' =>
    '(d, out) ← handle_local_cmd fuel rt r disk cmd d;
    '(d, outs) ← run_cmds l' d;
    Some (d, (cmd, out) :: outs)
  end.

Lemma run_cmds_peers l d d' outs :
  peers_ok (sd_bad_nodes d) → run_cmds l d = Some (d', outs) →
  peers_ok (sd_bad_nodes d') ∧
  ∀ cmd out e, (cmd, out) ∈ outs → e ∈ out_events out →
    match e with SendPeerConsideredAsBad _ _ => False | BlockPeer p => cmd = AddPeerToBlockList p | _ => True end.
Proof.
  revert d outs. induction l as [|[[[[fuel rt] r] disk] cmd] l IH]; intros d outs Hd Hrun; simpl in Hrun.
  { injection Hrun as <- <-. split; [done|]. set_solver. }
  apply bind_Some in Hrun as ([d1 out1] & Hh & Hrun). apply bind_Some in Hrun as ([d2 outs2] & Hrun & Heq).
  injection Heq as <- <-. destruct (handle_local_cmd_peers _ _ _ _ _ _ _ _ Hd Hh) as [Hd1 Hm].
  destruct (IH d1 outs2 Hd1 Hrun) as [Hd2 Hall]. split; [done|].
  intros cmd' out e [[= -> ->]|Hin]%elem_of_cons He; [|by eapply Hall].
  destruct Hm as [Hm|(p & -> & Hp)]; [apply Hm in He; by destruct e|].
  by destruct (Hp e He) as [->|(p' & ->)].
Qed.

(** No peer is ever held to be bad. Whatever issues, quotes and other commands a driver handles
    from the start, it marks no peer as bad, keeps at most ten issues of each, tells no peer that it is
    considered bad, answers that no peer is shunned, and blocks a peer only on an explicit command. *)
Theorem no_peer_is_shunned l d d' outs :
  sd_bad_nodes d = ∅ → run_cmds l d = Some (d', outs) →
  (∀ peer issues is_bad, sd_bad_nodes d' !! peer = Some (issues, is_bad) → is_bad = false ∧ (length issues ≤ 10)%nat) ∧
  (∀ cmd out e, (cmd, out) ∈ outs → e ∈ out_events out →
    match e with SendPeerConsideredAsBad _ _ => False | BlockPeer p => cmd = AddPeerToBlockList p | _ => True end) ∧
  (∀ fuel rt r disk target, ∃ out,
    handle_local_cmd fuel rt r disk (IsPeerShunned target) d' = Some (d', out) ∧ out_reply out = Some (RepliedBool false)).
Proof.
  intros Hd Hrun. assert (peers_ok (sd_bad_nodes d)) as Hok by (rewrite Hd; intros peer iss b Hp; by rewrite lookup_empty in Hp).
  destruct (run_cmds_peers _ _ _ _ Hok Hrun) as [Hp He]. split; [exact Hp|]. split; [exact He|].
  intros fuel rt r disk target. eexists. split; [reflexivity|]. simpl. do 2 f_equal.
  destruct (as_peer_id target) as [peer|]; [|done]. destruct (sd_bad_nodes d' !! peer) as [[l' b]|] eqn:Hl; [|done].
  by apply Hp in Hl as [-> _].
Qed.
End bad_peers.

(** ** Interval replication *)

Section interval_replication.
Context `{XorNameLib, Hex, Bls, Kad, RmpHeader, Aead, HashOrder, Libp2pIdentity}.

Lemma foldl_insert_lookup (peers : list bytes) (v : Z) (m : gmap bytes Z) p :
  foldl (λ m q, <[q := v]> m) m peers !! p = if decide (p ∈ peers) then Some v else m !! p.
Proof.
  induction peers as [|q peers IH] using rev_ind; [done|]. rewrite foldl_app. simpl.
  destruct (decide (p = q)) as [->|Hne]; [rewrite lookup_insert_eq|rewrite lookup_insert_ne by done; rewrite IH].
  - by rewrite decide_True by (apply elem_of_app; right; left).
  - apply decide_ext. set_solver.
Qed.

(** The peer was sent the list at [t] or later, or the clock has gone past the timeout since. *)
Definition resting (p : bytes) (t now : Z) (d : SwarmDriver) : Prop :=
  (∃ ts, sd_replication_targets d !! p = Some ts ∧ t + REPLICATION_TIMEOUT ≤ ts) ∨ t + REPLICATION_TIMEOUT ≤ now.

(** A list is sent to a peer that is no target any more, and makes it one. *)
Lemma replicate_sent rt r d d' events p keys :
  try_interval_replication rt r d = (d', events) → SendReplicate p keys ∈ events →
  sd_replication_targets d' !! p = Some (dr_targets r + REPLICATION_TIMEOUT) ∧
  (∀ ts, sd_replication_targets d !! p = Some ts → ts ≤ dr_targets r) ∧
  keys = (λ e : NetworkAddress * ValidationType * DataTypes, (e.1.1, e.1.2)) <$> (hm_iter (ns_records (sd_store d))).*2.
Proof.
  unfold try_interval_replication. cbv zeta.
  destruct (match sd_last_replication d with Some _ => _ | None => _ end); [intros [= <- <-] Hin; by apply not_elem_of_nil in Hin|].
  destruct (bool_decide _ || bool_decide _); intros [= <- <-] Hin; [by apply not_elem_of_nil in Hin|].
  apply list_elem_of_fmap in Hin as (q & [= <- <-] & Hq). cbn [sd_replication_targets sd_with_replication].
  rewrite foldl_insert_lookup, decide_True by done. split; [done|]. split; [|done].
  intros ts Hts. apply list_elem_of_filter in Hq as [Hq _]. unfold contains_key in Hq.
  destruct (Z.le_gt_cases ts (dr_targets r)) as [|Hgt]; [done|].
  assert (retain (λ _ timestamp, dr_targets r <? timestamp) (sd_replication_targets d) !! p = Some ts) as Hr
    by (apply retain_lookup_Some; split; [done|by apply Z.ltb_lt]).
  rewrite Hr in Hq. discriminate Hq.
Qed.

Lemma try_interval_replication_rests rt r d p t now :
  t ≤ dr_targets r ≤ now → resting p t now d →
  resting p t now (try_interval_replication rt r d).1.
Proof.
  intros Ht [(ts & Hp & Hts)|]; [|by right]. unfold resting, try_interval_replication. cbv zeta.
  destruct (match sd_last_replication d with Some _ => _ | None => _ end); [left; by exists ts|].
  destruct (Z.le_gt_cases ts (dr_targets r)) as [|Hgt]; [right; lia|].
  assert (retain (λ _ timestamp, dr_targets r <? timestamp) (sd_replication_targets d) !! p = Some ts) as Hr
    by (apply retain_lookup_Some; split; [done|by apply Z.ltb_lt]).
  destruct (bool_decide _ || bool_decide _); [left; by exists ts|]. cbn [fst sd_replication_targets sd_with_replication].
  rewrite foldl_insert_lookup. destruct (decide _); [|rewrite Hr; left; by exists ts].
  left. eexists. split; [done|lia].
Qed.

Lemma verify_quotes_targets rt r i quotes d :
  sd_replication_targets (verify_quotes rt r i quotes d).1 = sd_replication_targets d.
Proof.
  revert i d. induction quotes as [|[peer q] quotes IH]; intros i d; [done|]. cbn [verify_quotes].
  assert (sd_replication_targets (verify_peer_quote rt (dr_issue r i) (dr_quote r i) peer q d).1 = sd_replication_targets d) as Hv.
  { unfold verify_peer_quote. destruct (sd_quotes_history d !! peer); [|done]. case_match; [|by case_match].
    by destruct (record_node_issue _ _ _ _ _). }
  destruct (verify_peer_quote _ _ _ _ _ _) as [d1 e1]. specialize (IH (S i)). pose proof (IH d1) as IH1.
  destruct (verify_quotes rt r (S i) quotes d1) as [d2 e2]. simpl in *.
  destruct (sd_bad_nodes d !! peer) as [[l []]|]; [apply IH| |]; simpl; congruence.
Qed.

(** Only interval replication touches its targets. *)
Lemma handle_local_cmd_targets fuel rt r disk cmd d d' out :
  cmd ≠ TriggerIntervalReplication → handle_local_cmd fuel rt r disk cmd d = Some (d', out) →
  sd_replication_targets d' = sd_replication_targets d.
Proof.
  intros Hcmd Hh. destruct cmd; try done; cbn [handle_local_cmd] in Hh; unfold handled in Hh;
    try (injection Hh as <- <-; done).
  - by destruct (quoting_metrics _ _ _ _ _ _); injection Hh as <- <-.
  - by destruct (get disk key (sd_store d)); injection Hh as <- <-.
  - unfold put_local_record in Hh. destruct (put_record_type record); [|by injection Hh as <- <-].
    apply bind_Some in Hh as ([[res store] effs] & _ & Hh).
    destruct (notify_about_new_put _ _ _ _) as [[keys f] evs]. by injection Hh as <- <-.
  - destruct cmd as [key vt dt|key|key]; cbn [handle_store_cmd] in Hh; try by injection Hh as <- <-.
  - case_match; [by injection Hh as <- <-|]. destruct (push_with_eviction _ _). by injection Hh as <- <-.
  - destruct (record_node_issue _ _ _ _ _). by injection Hh as <- <-.
  - pose proof (verify_quotes_targets rt r 0 quotes d) as Hv. destruct (verify_quotes rt r 0 quotes d).
    by injection Hh as <- <-.
  - destruct (notify_fetch_early_completed _ _ _ _) as [[? ?] ?]. by injection Hh as <- <-.
  - destruct (cleanup_irrelevant_records _). by injection Hh as <- <-.
  - unfold add_keys_to_replication_fetcher in Hh. destruct (as_peer_id holder); [|by injection Hh as <- <-].
    cbv zeta in Hh. destruct (_ && _); [by injection Hh as <- <-|]. destruct (add_keys _ _ _ _ _ _ _) as [[? ?] ?].
    by injection Hh as <- <-.
Qed.

Definition cmd_readings (c : CmdContext) : DriverReadings := c.1.1.2.

Lemma run_cmds_rests l d d' outs p t now :
  (∀ c, c ∈ l → t ≤ dr_targets (cmd_readings c) ≤ now) → resting p t now d → run_cmds l d = Some (d', outs) →
  resting p t now d'.
Proof.
  revert d outs. induction l as [|[[[[fuel rt] r] disk] cmd] l IH]; intros d outs Hl Hd Hrun; simpl in Hrun.
  { by injection Hrun as <- <-. }
  apply bind_Some in Hrun as ([d1 out1] & Hh & Hrun). apply bind_Some in Hrun as ([d2 outs2] & Hrun & Heq).
  injection Heq as <- <-. eapply IH; [intros c Hc; by apply Hl, list_elem_of_further| |exact Hrun].
  assert (cmd = TriggerIntervalReplication ∨ cmd ≠ TriggerIntervalReplication) as [->|Hne]
    by (destruct cmd; (by left) || (by right)).
  - cbn [handle_local_cmd] in Hh. destruct (try_interval_replication rt r d) as [d3 evs] eqn:Ht. injection Hh as <- <-.
    change d3 with (d3, evs).1. rewrite <- Ht. apply try_interval_replication_rests; [|done].
    apply (Hl (fuel, rt, r, disk, TriggerIntervalReplication)), list_elem_of_here.
  - apply handle_local_cmd_targets in Hh; [|done]. unfold resting in *. by rewrite Hh.
Qed.

(** Interval replication paces itself. Between two lists sent to the same peer, whatever commands
    the driver handles in between, lie at least 45 seconds; and a list names every stored record with its
    version. *)
Theorem replication_lists_paced fuel1 rt1 r1 disk1 fuel2 rt2 r2 disk2 l d1 d2 d3 d4 out1 outs out2 p keys1 keys2 :
  handle_local_cmd fuel1 rt1 r1 disk1 TriggerIntervalReplication d1 = Some (d2, out1) →
  run_cmds l d2 = Some (d3, outs) →
  handle_local_cmd fuel2 rt2 r2 disk2 TriggerIntervalReplication d3 = Some (d4, out2) →
  (∀ c, c ∈ l → dr_targets r1 ≤ dr_targets (cmd_readings c) ≤ dr_targets r2) →
  SendReplicate p keys1 ∈ out_events out1 → SendReplicate p keys2 ∈ out_events out2 →
  dr_targets r1 + REPLICATION_TIMEOUT ≤ dr_targets r2 ∧
  (∀ a vt, (a, vt) ∈ keys2 ↔ ∃ k dt, ns_records (sd_store d3) !! k = Some (a, vt, dt)).
Proof.
  cbn [handle_local_cmd]. intros Hh1 Hrun Hh2 Hl Hin1 Hin2.
  destruct (try_interval_replication rt1 r1 d1) as [d2' e1] eqn:Ht1. injection Hh1 as <- <-.
  destruct (try_interval_replication rt2 r2 d3) as [d4' e2] eqn:Ht2. injection Hh2 as <- <-.
  destruct (replicate_sent _ _ _ _ _ _ _ Ht1 Hin1) as (Hp1 & _ & _).
  destruct (replicate_sent _ _ _ _ _ _ _ Ht2 Hin2) as (_ & Hp2 & ->). split.
  - assert (resting p (dr_targets r1) (dr_targets r2) d3) as [(ts & Hts & Hle)|]; [|apply Hp2 in Hts; lia|done].
    eapply run_cmds_rests; [exact Hl| |exact Hrun]. left. by eexists.
  - intros a vt. rewrite list_elem_of_fmap. split.
    + intros ([[a' vt'] dt] & [= -> ->] & ([k v] & Heq & Hin)%list_elem_of_fmap). simpl in Heq. subst v.
      apply hm_iter_elem_of in Hin. eauto.
    + intros (k & dt & Hk). exists (a, vt, dt). split; [done|]. apply list_elem_of_fmap. exists (k, (a, vt, dt)).
      split; [done|]. by apply hm_iter_elem_of.
Qed.
End interval_replication.

(** * Witnesses *)

Section driver_witnesses.
#[local] Existing Instances toy_xorname toy_hex toy_hex_laws toy_bls toy_bls_laws toy_bls_ord_laws toy_layout toy_kad
  toy_rmp_header toy_rmp_header_laws toy_identity toy_digests toy_ant_merkle toy_aead toy_aead_laws hash_order_rev
  toy_bodies toy_bodies_laws.

(** A new node with an empty directory, and a routing table of two peers. *)
Definition ex_driver : SwarmDriver :=
  {| sd_self_peer_id := [5]; sd_store := (with_config [] (ex_config 8) None 0 []).1;
     sd_replication_fetcher := fetcher_new [5]; sd_hard_disk_write_error := 0; sd_bad_nodes := ∅;
     sd_quotes_history := ∅; sd_replication_targets := ∅; sd_last_replication := None; sd_peers_version := ∅;
     sd_blocklist_cache := {| cv_inner := []; cv_capacity := 2 |}; sd_network_wide_replication := nw_new 0 |}.

Definition ex_table : RoutingTable :=
  {| rt_closest_local_peers _ := [[4]; [7]]; rt_estimated_network_size := 100; rt_in_kbucket _ := true;
     rt_remove_peer _ := true |}.

(** All readings of a command are taken at one time. *)
Definition ex_readings (t : Z) : DriverReadings :=
  {| dr_system _ := t;
     dr_fetcher := {| at_accumulate := t; at_expire_pending := t; at_enqueue := t; at_expire_fetch := t;
                      at_expire_initial := t; at_fetch := t |};
     dr_issue _ := {| at_retain := t; at_last := t; at_push := t |}; dr_quote _ := (t, t);
     dr_since_replication := t; dr_replication := t; dr_targets := t; dr_load := t; dr_scores _ := t;
     dr_random_peer := [1] |}.

(** The node takes the first command on its way, and runs its first task. *)
Definition next_command (sys : NodeSystem) : option NodeSystem :=
  match sy_inbox sys with
  | cmd :: rest =>
    '(d, out) ← handle_local_cmd 10 ex_table (ex_readings 1) (sy_disk sys) cmd (sy_driver sys);
    Some (after_cmd cmd rest d out sys)
  | [] => None
  end.

Definition next_task (sys : NodeSystem) : option NodeSystem :=
  match sy_tasks sys with
  | t :: rest =>
    Some {| sy_driver := sy_driver sys; sy_disk := (run_task (sy_enc sys) Written t (sy_disk sys)).1; sy_tasks := rest;
            sy_inbox := sy_inbox sys ++ (run_task (sy_enc sys) Written t (sy_disk sys)).2;
            sy_answers := sy_answers sys |}
  | [] => None
  end.

Lemma next_command_step sys sys' : next_command sys = Some sys' → sys_step sys sys'.
Proof.
  unfold next_command. intros Hn. destruct (sy_inbox sys) as [|cmd rest] eqn:Hin; [done|].
  apply bind_Some in Hn as ([d out] & Hh & [= <-]). by apply (step_command _ _ _ _ [] rest _ _ _ Hin Hh).
Qed.

Lemma next_task_step sys sys' : next_task sys = Some sys' → sys_step sys sys'.
Proof.
  unfold next_task. intros Hn. destruct (sy_tasks sys) as [|t rest] eqn:Hin; [done|]. injection Hn as <-.
  apply (step_task t [] rest Written sys Hin). by destruct t.
Qed.

Definition ex_sys0 : NodeSystem :=
  {| sy_driver := ex_driver; sy_disk := ∅; sy_tasks := []; sy_inbox := []; sy_answers := [] |}.

(** A replicated scratchpad was validated. *)
Definition ex_sys1 : NodeSystem :=
  {| sy_driver := ex_driver; sy_disk := ∅; sy_tasks := [];
     sy_inbox := effect_cmd <$> (handle (ex_env ∅) (Replicated (ex_record owner_key 3 1 0))).1; sy_answers := [] |}.

(** It is put, written to disk and marked as stored. *)
Definition ex_sys : option NodeSystem := sys2 ← next_command ex_sys1; sys3 ← next_task sys2; next_command sys3.

Definition ex_served (sys : NodeSystem) : option KadRecord := (get (sy_disk sys) owner_key (sd_store (sy_driver sys))).1.

Lemma node_serves_authentic_witness :
  (ex_sys ≫= ex_served) = Some (ex_record owner_key 3 1 0) ∧ ∃ b, record_holds (ex_record owner_key 3 1 0) b.
Proof.
  assert ((ex_sys ≫= ex_served) = Some (ex_record owner_key 3 1 0)) as Hs by (vm_compute; reflexivity).
  split; [exact Hs|]. apply bind_Some in Hs as (sys & Hsys & Hg).
  apply bind_Some in Hsys as (sys2 & H1 & Hsys). apply bind_Some in Hsys as (sys3 & H2 & H3).
  assert (rtc sys_step ex_sys0 sys) as Hrun.
  { eapply rtc_l; [apply (step_validate (ex_env ∅) (Replicated (ex_record owner_key 3 1 0)) ex_sys0)|].
    - intros k l Hl. discriminate Hl.
    - eapply rtc_l; [exact (next_command_step ex_sys1 _ H1)|]. eapply rtc_l; [exact (next_task_step _ _ H2)|].
      apply rtc_once. exact (next_command_step _ _ H3). }
  refine (proj2 (node_serves_authentic ex_sys0 sys owner_key _ _ Hrun Hg)).
  split; [reflexivity|]. split; [|done]. intros k r Hr. discriminate Hr.
Defined.

(** ** Overlapping validations *)

(** A validation of a replicated record that found nothing under its key, put, written to disk and marked as stored. *)
Definition ex_validated (r : KadRecord) (sys : NodeSystem) : NodeSystem :=
  {| sy_driver := sy_driver sys; sy_disk := sy_disk sys; sy_tasks := sy_tasks sys;
     sy_inbox := sy_inbox sys ++ (effect_cmd <$> (handle (ex_env ∅) (Replicated r)).1); sy_answers := sy_answers sys |}.
Definition ex_stored (r : KadRecord) (sys : NodeSystem) : option NodeSystem :=
  sys2 ← next_command (ex_validated r sys); sys3 ← next_task sys2; next_command sys3.

Lemma ex_stored_run r sys sys' : ex_stored r sys = Some sys' → rtc sys_step sys sys'.
Proof.
  intros Hs. apply bind_Some in Hs as (sys2 & H1 & Hs). apply bind_Some in Hs as (sys3 & H2 & H3).
  eapply rtc_l; [apply (step_validate (ex_env ∅) (Replicated r) sys)|]; [by intros k l|].
  eapply rtc_l; [exact (next_command_step _ _ H1)|]. eapply rtc_l; [exact (next_task_step _ _ H2)|].
  apply rtc_once. exact (next_command_step _ _ H3).
Qed.

(** Two validations of one key that both found nothing: the node serves the scratchpad with the higher counter, and
    then the one with the lower. *)
Lemma racing_puts_go_back :
  ∃ sys sys', rtc sys_step ex_sys0 sys ∧ rtc sys_step sys sys' ∧
    ex_served sys = Some (ex_record owner_key 3 1 1) ∧ ex_served sys' = Some (ex_record owner_key 3 1 0) ∧
    record_holds (ex_record owner_key 3 1 1) (B_Scratchpad (ex_pad 2)) ∧
    record_holds (ex_record owner_key 3 1 0) (B_Scratchpad (ex_pad 1)) ∧ sp_counter (ex_pad 1) < sp_counter (ex_pad 2).
Proof.
  destruct (ex_stored (ex_record owner_key 3 1 1) ex_sys0) as [sys|] eqn:H1; [|exfalso; vm_compute in H1; discriminate].
  destruct (ex_stored (ex_record owner_key 3 1 0) sys) as [sys'|] eqn:H2;
    [|exfalso; vm_compute in H1; injection H1 as <-; vm_compute in H2; discriminate].
  exists sys, sys'. split; [by eapply ex_stored_run|]. split; [by eapply ex_stored_run|].
  vm_compute in H1. injection H1 as <-. vm_compute in H2. injection H2 as <-.
  split; [vm_compute; reflexivity|]. split; [vm_compute; reflexivity|].
  split; [exists [145; 3; 1; 1]; vm_compute; repeat split; discriminate|].
  split; [exists [145; 3; 1; 0]; vm_compute; repeat split; discriminate|]. by vm_compute.
Qed.

(** Three bad quotes of a peer, far enough apart, and a peer to block. *)
Definition ex_cmds : list CmdContext :=
  [(1%nat, ex_table, ex_readings 0, ∅, RecordNodeIssue [4] BadQuoting);
   (1%nat, ex_table, ex_readings (from_secs 20), ∅, RecordNodeIssue [4] BadQuoting);
   (1%nat, ex_table, ex_readings (from_secs 40), ∅, RecordNodeIssue [4] BadQuoting);
   (1%nat, ex_table, ex_readings (from_secs 41), ∅, AddPeerToBlockList [7])].

Lemma no_peer_is_shunned_witness :
  (λ p, (sd_bad_nodes p.1 !! [4], concat (out_events <$> p.2.*2))) <$> run_cmds ex_cmds ex_driver =
    Some (Some ([(BadQuoting, 0); (BadQuoting, from_secs 20); (BadQuoting, from_secs 40)], false), [BlockPeer [7]]) ∧
  ∀ d outs, run_cmds ex_cmds ex_driver = Some (d, outs) → ∀ issues is_bad, sd_bad_nodes d !! [4] = Some (issues, is_bad) → is_bad = false.
Proof.
  split; [vm_compute; reflexivity|]. intros d outs Hrun issues is_bad Hb.
  exact (proj1 (proj1 (no_peer_is_shunned ex_cmds ex_driver d outs eq_refl Hrun) [4] issues is_bad Hb)).
Defined.

(** The node with a record sends its list to both peers, and again after a minute. *)
Definition ex_stocked : SwarmDriver := sd_with_store ex_driver (ex_store 8 [[3; 0]]).

Definition ex_replicated (t : Z) (d : SwarmDriver) : option (SwarmDriver * Outcome) :=
  handle_local_cmd 1 ex_table (ex_readings t) ∅ TriggerIntervalReplication d.

Definition ex_key_list : list (NetworkAddress * ValidationType) := [(NA_RecordKey [3; 0], VT_Chunk)].

Lemma replication_lists_paced_witness :
  ∃ d2 out1 d4 out2,
    ex_replicated 0 ex_stocked = Some (d2, out1) ∧ ex_replicated (from_secs 60) d2 = Some (d4, out2) ∧
    out_events out1 = [SendReplicate [4] ex_key_list; SendReplicate [7] ex_key_list] ∧
    out_events out2 = [SendReplicate [4] ex_key_list; SendReplicate [7] ex_key_list] ∧
    dr_targets (ex_readings 0) + REPLICATION_TIMEOUT ≤ dr_targets (ex_readings (from_secs 60)).
Proof.
  destruct (ex_replicated 0 ex_stocked) as [[d2 out1]|] eqn:H1; [|vm_compute in H1; discriminate H1].
  assert (out_events out1 = [SendReplicate [4] ex_key_list; SendReplicate [7] ex_key_list]) as E1
    by (vm_compute in H1; injection H1 as <- <-; reflexivity).
  destruct (ex_replicated (from_secs 60) d2) as [[d4 out2]|] eqn:H2;
    [|vm_compute in H1; injection H1 as <- <-; vm_compute in H2; discriminate H2].
  assert (out_events out2 = [SendReplicate [4] ex_key_list; SendReplicate [7] ex_key_list]) as E2
    by (vm_compute in H1; injection H1 as <- <-; vm_compute in H2; injection H2 as <- <-; reflexivity).
  exists d2, out1, d4, out2. split; [reflexivity|]. split; [exact H2|]. split; [exact E1|]. split; [exact E2|].
  refine (proj1 (replication_lists_paced 1 ex_table (ex_readings 0) ∅ 1 ex_table (ex_readings (from_secs 60)) ∅ []
    ex_stocked d2 d2 d4 out1 [] out2 [4] ex_key_list ex_key_list H1 eq_refl H2 _ _ _)).
  - intros c Hc. by apply not_elem_of_nil in Hc.
  - rewrite E1. left.
  - rewrite E2. left.
Defined.
End driver_witnesses.
