(* ===== verification/VersionGate.v ===== *)
(** * The version gate

    Models src/ant-protocol/src/version_gate.rs (versions in agent strings, and the check a node
    makes of them), the agent strings of src/ant-protocol/src/version.rs that it reads, and
    [PackageVersion] of src/autonomi/src/networking/version.rs. The environment variable and the
    crate's own version are arguments. *)

From stdpp Require Import base list.
From Stdlib Require Import ZArith Lia String.
From S2P Require Import Prelude Text.

Record PeerVersion := { pv_major : Z; pv_minor : Z; pv_patch : Z }.

#[global] Instance PeerVersion_eq_dec : EqDecision PeerVersion.
Proof. solve_decision. Defined.

Definition MIN_NODE_VERSION : Z * Z * Z := (0, 4, 15).

Definition SLASH : Z := 47.
Definition DOT : Z := 46.
Definition DASH : Z := 45.

(** [PeerVersion::parse_semver]: a suffix after a dash is dropped. *)
Definition parse_semver (version_str : bytes) : option PeerVersion :=
  version_core ← head (split_on DASH version_str);
  match split_on DOT version_core with
  | p0 :: p1 :: p2 :: _ =>
    major ← parse_u16 p0; minor ← parse_u16 p1; patch ← parse_u16 p2;
    Some {| pv_major := major; pv_minor := minor; pv_patch := patch |}
  | _ => None
  end.

Definition get_min_node_version (env_version : option bytes) : PeerVersion :=
  let '(major, minor, patch) := MIN_NODE_VERSION in
  default {| pv_major := major; pv_minor := minor; pv_patch := patch |} (env_version ≫= parse_semver).

Definition parse_from_agent_string (agent : bytes) : option PeerVersion :=
  match split_on SLASH agent with
  | p0 :: _ :: _ :: p3 :: _ :: _ => if bool_decide (p0 = text "ant") then parse_semver p3 else None
  | _ => None
  end.

(** Tuples are compared lexicographically. *)
Definition version_cmp (v w : PeerVersion) : comparison :=
  prod_cmp (prod_cmp Z.compare Z.compare) Z.compare
    (pv_major v, pv_minor v, pv_patch v) (pv_major w, pv_minor w, pv_patch w).

Definition meets_minimum (v min_version : PeerVersion) : bool :=
  match version_cmp v min_version with Lt => false | _ => true end.

(** [Display for PeerVersion]. *)
Definition show_version (v : PeerVersion) : bytes :=
  join_on DOT [show_u16 (pv_major v); show_u16 (pv_minor v); show_u16 (pv_patch v)].

Inductive VersionCheckResult :=
  | VersionAccepted (version : PeerVersion)
  | VersionRejected (detected minimum : PeerVersion)
  | VersionLegacy
  | VersionParseError (agent_string : bytes).

#[global] Instance VersionCheckResult_eq_dec : EqDecision VersionCheckResult.
Proof. solve_decision. Defined.

Definition is_allowed (r : VersionCheckResult) (allow_legacy : bool) : bool :=
  match r with
  | VersionAccepted _ => true
  | VersionLegacy => allow_legacy
  | VersionRejected _ _ | VersionParseError _ => false
  end.

Inductive PeerType := PT_Node | PT_Client | PT_ReachabilityCheckClient | PT_Unknown.

#[global] Instance PeerType_eq_dec : EqDecision PeerType.
Proof. solve_decision. Defined.

(** [PeerType::from_agent_string]. *)
Definition peer_type_of (agent : bytes) : PeerType :=
  if contains_text (text "/node/") agent then PT_Node
  else if contains_text (text "reachability-check-peer") agent then PT_ReachabilityCheckClient
  else if contains_text (text "/client/") agent || contains_text (text "client") agent then PT_Client
  else PT_Unknown.

Definition check_peer_version (agent_string : bytes) (min_version : option PeerVersion) : VersionCheckResult :=
  match min_version with
  | None =>
    match parse_from_agent_string agent_string with
    | Some version => VersionAccepted version
    | None => VersionLegacy
    end
  | Some min_version =>
    match parse_from_agent_string agent_string with
    | Some version => if meets_minimum version min_version then VersionAccepted version
                      else VersionRejected version min_version
    | None => if starts_with (text "ant/") agent_string then VersionLegacy else VersionParseError agent_string
    end
  end.

(** ** Agent strings: version.rs *)

(** [get_truncate_version_str]; a version without a dot panics. *)
Definition get_truncate_version_str (pkg_version : bytes) : option bytes :=
  match split_on DOT pkg_version with
  | p0 :: p1 :: _ => Some (join_on DOT [p0; p1])
  | _ => None
  end.

Definition construct_user_agent (kind protocol_version version : bytes) (network_id : Z) : bytes :=
  join_on SLASH [text "ant"; kind; protocol_version; version; show_u16 network_id].

Definition construct_node_user_agent : bytes → bytes → Z → bytes := construct_user_agent (text "node").
Definition construct_client_user_agent : bytes → bytes → Z → bytes := construct_user_agent (text "client").

(** ** PackageVersion: networking/version.rs of the client *)

Record PackageVersion := { pkg_year : Z; pkg_month : Z; pkg_cycle : Z; pkg_cycle_counter : Z }.

Definition package_cmp (v w : PackageVersion) : comparison :=
  prod_cmp (prod_cmp (prod_cmp Z.compare Z.compare) Z.compare) Z.compare
    (pkg_year v, pkg_month v, pkg_cycle v, pkg_cycle_counter v)
    (pkg_year w, pkg_month w, pkg_cycle w, pkg_cycle_counter w).

Definition is_minimum (v other : PackageVersion) : bool :=
  match package_cmp v other with Lt => false | _ => true end.

Definition is_maximum (v other : PackageVersion) : bool :=
  match package_cmp v other with Gt => false | _ => true end.

Definition is_exact (v other : PackageVersion) : bool :=
  (pkg_year v =? pkg_year other) && (pkg_month v =? pkg_month other) && (pkg_cycle v =? pkg_cycle other) &&
  (pkg_cycle_counter v =? pkg_cycle_counter other).

(** [TryFrom<String> for PackageVersion]; the error's text is left out. *)
Definition package_try_from (value : bytes) : option PackageVersion :=
  match split_on DOT value with
  | p0 :: p1 :: p2 :: rest =>
    if (1 <? List.length rest)%nat then None
    else
      year ← parse_u16 p0; month ← parse_u16 p1; cycle ← parse_u16 p2;
      cycle_counter ← (match rest with p3 :: _ => parse_u16 p3 | [] => Some 0 end);
      Some {| pkg_year := year; pkg_month := month; pkg_cycle := cycle; pkg_cycle_counter := cycle_counter |}
  | _ => None
  end.

(** [Display for PackageVersion]. *)
Definition show_package (v : PackageVersion) : bytes :=
  join_on DOT [show_u16 (pkg_year v); show_u16 (pkg_month v); show_u16 (pkg_cycle v); show_u16 (pkg_cycle_counter v)].

(** ** Properties *)

Definition u16_bound (n : Z) : Prop := 0 ≤ n ≤ u16_max.

Definition version_bound (v : PeerVersion) : Prop := u16_bound (pv_major v) ∧ u16_bound (pv_minor v) ∧ u16_bound (pv_patch v).

(** A separator that is no digit does not occur in a number. *)
Lemma not_in_show c n : is_digit c = false → u16_bound n → c ∉ show_u16 n.
Proof.
  intros Hc Hn Hin. pose proof (show_u16_digits n Hn) as Hd. rewrite forallb_forall in Hd.
  apply list_elem_of_In in Hin. rewrite Hd in Hc by done. done.
Qed.

Lemma not_in_join c s parts : c ≠ s → (∀ p, p ∈ parts → c ∉ p) → c ∉ join_on s parts.
Proof.
  intros Hcs. induction parts as [|p [|p' parts] IH]; intros Hp; [apply not_elem_of_nil|apply Hp; left|].
  cbn [join_on]. rewrite elem_of_app, elem_of_cons. intros [Hin|[->|Hin]]; [|done|].
  - eapply Hp; [|exact Hin]. left.
  - apply IH in Hin; [done|]. intros q Hq. apply Hp. by right.
Qed.

Lemma not_in_show_version c v : is_digit c = false → c ≠ DOT → version_bound v → c ∉ show_version v.
Proof.
  intros Hc Hdot (H1 & H2 & H3). apply not_in_join; [done|].
  intros p. rewrite !elem_of_cons. intros [->|[->|[->|Hin]]]; try (by apply not_in_show). by apply not_elem_of_nil in Hin.
Qed.

(** What follows a dash is ignored. *)
Lemma parse_show_version v suffix :
  version_bound v → parse_semver (show_version v) = Some v ∧ parse_semver (show_version v ++ DASH :: suffix) = Some v.
Proof.
  intros Hv. assert (∀ parts, (version_core ← head (show_version v :: parts);
    match split_on DOT version_core with
    | p0 :: p1 :: p2 :: _ =>
      major ← parse_u16 p0; minor ← parse_u16 p1; patch ← parse_u16 p2;
      Some {| pv_major := major; pv_minor := minor; pv_patch := patch |}
    | _ => None
    end) = Some v) as Hcore.
  { intros parts. simpl. unfold show_version. destruct Hv as (H1 & H2 & H3). rewrite split_join; [|done|].
    - rewrite !parse_show_u16 by done. simpl. by destruct v.
    - intros p. rewrite !elem_of_cons. intros [->|[->|[->|Hin]]]; try (by apply not_in_show). by apply not_elem_of_nil in Hin. }
  assert (DASH ∉ show_version v) as Hd by by apply not_in_show_version.
  unfold parse_semver. by rewrite split_on_app, split_on_alone by done.
Qed.

(** An earlier version. *)
Definition version_lt (v w : PeerVersion) : Prop :=
  pv_major v < pv_major w ∨
  pv_major v = pv_major w ∧ (pv_minor v < pv_minor w ∨ pv_minor v = pv_minor w ∧ pv_patch v < pv_patch w).

#[global] Instance version_lt_dec v w : Decision (version_lt v w).
Proof. unfold version_lt. apply _. Defined.

Lemma meets_minimum_spec v w : meets_minimum v w = bool_decide (¬ version_lt v w).
Proof.
  unfold meets_minimum, version_cmp, prod_cmp, version_lt. simpl. unfold then_cmp.
  destruct (Z.compare_spec (pv_major v) (pv_major w)), (Z.compare_spec (pv_minor v) (pv_minor w)),
    (Z.compare_spec (pv_patch v) (pv_patch w)); case_bool_decide; try done; exfalso; lia.
Qed.

(** The gate reads versions as they are written, and admits exactly those not below the minimum. For
    every version, protocol version and network, the agent string a node makes of it is recognised
    as a node's, a pre-release suffix is ignored, and the check accepts the version when it is at
    least the minimum and rejects it with both versions otherwise. *)
Theorem version_gate_exact v suffix protocol_version network_id min_version :
  version_bound v → u16_bound network_id → SLASH ∉ protocol_version → SLASH ∉ suffix →
  let agent := construct_node_user_agent protocol_version (show_version v ++ suffix) network_id in
  (suffix = [] ∨ ∃ s, suffix = DASH :: s) →
  peer_type_of agent = PT_Node ∧ parse_from_agent_string agent = Some v ∧
  check_peer_version agent (Some min_version) =
    (if decide (version_lt v min_version) then VersionRejected v min_version else VersionAccepted v).
Proof.
  intros Hv Hn Hp Hs agent Hsuffix.
  assert (parse_from_agent_string agent = Some v) as Hparse.
  { unfold parse_from_agent_string, agent, construct_node_user_agent, construct_user_agent.
    rewrite split_join; [|done|].
    - rewrite bool_decide_eq_true_2 by done. destruct Hsuffix as [->|[s ->]]; [rewrite app_nil_r|];
        by apply (parse_show_version v).
    - intros p. rewrite !elem_of_cons. intros [->|[->|[->|[->|[->|Hin]]]]].
      + apply (bool_decide_eq_true_1 _). vm_compute. reflexivity.
      + apply (bool_decide_eq_true_1 _). vm_compute. reflexivity.
      + done.
      + rewrite elem_of_app. intros [Hin|Hin]; [by apply not_in_show_version in Hin|done].
      + by apply not_in_show.
      + by apply not_elem_of_nil in Hin. }
  split; [|split; [exact Hparse|]].
  - unfold peer_type_of. assert (contains_text (text "/node/") agent = true) as ->; [|done].
    apply contains_text_spec. exists (text "ant"). eexists. reflexivity.
  - unfold check_peer_version. rewrite Hparse, meets_minimum_spec. by case_decide; case_bool_decide.
Qed.

(** Agents that are neither a node's nor a client's are not held to a minimum. *)
Lemma check_unenforced agent :
  check_peer_version agent None = default VersionLegacy (VersionAccepted <$> parse_from_agent_string agent).
Proof. unfold check_peer_version. by destruct (parse_from_agent_string agent). Qed.

Lemma package_roundtrip v :
  u16_bound (pkg_year v) → u16_bound (pkg_month v) → u16_bound (pkg_cycle v) → u16_bound (pkg_cycle_counter v) →
  package_try_from (show_package v) = Some v.
Proof.
  intros H1 H2 H3 H4. unfold package_try_from, show_package. rewrite split_join; [|done|].
  - simpl. rewrite !parse_show_u16 by done. simpl. by destruct v.
  - intros p. rewrite !elem_of_cons. intros [->|[->|[->|[->|Hin]]]]; try (by apply not_in_show). by apply not_elem_of_nil in Hin.
Qed.

(** ** Witnesses *)

Definition ex_version : PeerVersion := {| pv_major := 0; pv_minor := 4; pv_patch := 9 |}.

Lemma version_gate_exact_witness :
  check_peer_version (text "ant/node/1.0/0.4.9-rc.1/1") (Some (get_min_node_version None)) =
    VersionRejected ex_version (get_min_node_version None).
Proof.
  refine (proj2 (proj2 (version_gate_exact ex_version (text "-rc.1") (text "1.0") 1 (get_min_node_version None) _ _ _ _ _))).
  - repeat split; vm_compute; discriminate.
  - split; vm_compute; discriminate.
  - apply (bool_decide_eq_true_1 _). vm_compute. reflexivity.
  - apply (bool_decide_eq_true_1 _). vm_compute. reflexivity.
  - right. by exists (text "rc.1").
Defined.
