(* ===== verification/Multiaddr.v ===== *)
(** * Multiaddresses

    libp2p's [Multiaddr] is a sequence of protocols; the functions of the repository that take them
    apart and build them: src/ant-bootstrap/src/lib.rs (the form of cached addresses),
    src/ant-node/src/networking/mod.rs (global addresses, ip and port), relay_manager.rs (relay
    addresses), driver/event/identify.rs and src/autonomi/src/networking/driver/swarm_events.rs
    (addresses of identified peers). IPv4 addresses are numbers below 2^32. *)

From stdpp Require Import base gmap countable list.
From Stdlib Require Import ZArith Lia.
From S2P Require Import Prelude Text.

(** ** Protocols *)

(** The protocols the code distinguishes, and any other. *)
Inductive Protocol :=
  | Ip4 (ip : Z)
  | Ip6 (ip : Z)
  | Udp (port : Z)
  | Tcp (port : Z)
  | QuicV1
  | Ws (path : bytes)
  | P2p (peer_id : bytes)
  | P2pCircuit
  | OtherProtocol (bytes : bytes).

#[global] Instance Protocol_eq_dec : EqDecision Protocol.
Proof. solve_decision. Defined.

Definition protocol_code (p : Protocol) : Z * Z + Z * bytes :=
  match p with
  | Ip4 ip => inl (0, ip)
  | Ip6 ip => inl (1, ip)
  | Udp port => inl (2, port)
  | Tcp port => inl (3, port)
  | QuicV1 => inl (4, 0)
  | P2pCircuit => inl (5, 0)
  | Ws path => inr (0, path)
  | P2p id => inr (1, id)
  | OtherProtocol b => inr (2, b)
  end.

Definition protocol_of_code (c : Z * Z + Z * bytes) : Protocol :=
  match c with
  | inl (t, n) =>
    if t =? 0 then Ip4 n else if t =? 1 then Ip6 n else if t =? 2 then Udp n else if t =? 3 then Tcp n
    else if t =? 4 then QuicV1 else P2pCircuit
  | inr (t, b) => if t =? 0 then Ws b else if t =? 1 then P2p b else OtherProtocol b
  end.

#[global] Instance Protocol_countable : Countable Protocol.
Proof. apply (inj_countable' protocol_code protocol_of_code). by intros []. Defined.

Definition Multiaddr : Type := list Protocol.

Definition is_ip4 (p : Protocol) : bool := match p with Ip4 _ => true | _ => false end.
Definition is_udp (p : Protocol) : bool := match p with Udp _ => true | _ => false end.
Definition is_tcp (p : Protocol) : bool := match p with Tcp _ => true | _ => false end.
Definition is_quic (p : Protocol) : bool := match p with QuicV1 => true | _ => false end.
Definition is_ws (p : Protocol) : bool := match p with Ws _ => true | _ => false end.
Definition is_p2p (p : Protocol) : bool := match p with P2p _ => true | _ => false end.
Definition is_circuit (p : Protocol) : bool := match p with P2pCircuit => true | _ => false end.

(** [addr.iter().find(..)]. *)
Definition find_protocol (f : Protocol → bool) (addr : Multiaddr) : option Protocol := snd <$> list_find (λ p, f p = true) addr.

(** ** ant-bootstrap/src/lib.rs *)

Definition craft_valid_multiaddr (addr : Multiaddr) (ignore_peer_id : bool) : option Multiaddr :=
  let peer_id := find_protocol is_p2p addr in
  ip ← find_protocol is_ip4 addr;
  output ← match find_protocol is_udp addr with
           | Some udp => Some ([ip; udp] ++ option_list (find_protocol is_quic addr))
           | None =>
             match find_protocol is_tcp addr with
             | Some tcp => Some ([ip; tcp] ++ option_list (find_protocol is_ws addr))
             | None => None
             end
           end;
  match peer_id with
  | Some peer_id => Some (output ++ [peer_id])
  | None => if ignore_peer_id then Some output else None
  end.

Definition multiaddr_get_peer_id (addr : Multiaddr) : option bytes :=
  match find_protocol is_p2p addr with Some (P2p id) => Some id | _ => None end.

(** ** ant-node/src/networking/mod.rs *)

(** The methods of [std::net::Ipv4Addr]. *)
Definition octet (ip i : Z) : Z := Z.land (Z.shiftr ip (8 * (3 - i))) 255.

Definition ip4_is_unspecified (ip : Z) : bool := ip =? 0.
Definition ip4_is_private (ip : Z) : bool :=
  (octet ip 0 =? 10) || ((octet ip 0 =? 172) && (16 <=? octet ip 1) && (octet ip 1 <=? 31)) ||
  ((octet ip 0 =? 192) && (octet ip 1 =? 168)).
Definition ip4_is_loopback (ip : Z) : bool := octet ip 0 =? 127.
Definition ip4_is_link_local (ip : Z) : bool := (octet ip 0 =? 169) && (octet ip 1 =? 254).
Definition ip4_is_documentation (ip : Z) : bool :=
  ((octet ip 0 =? 192) && (octet ip 1 =? 0) && (octet ip 2 =? 2)) ||
  ((octet ip 0 =? 198) && (octet ip 1 =? 51) && (octet ip 2 =? 100)) ||
  ((octet ip 0 =? 203) && (octet ip 1 =? 0) && (octet ip 2 =? 113)).
Definition ip4_is_broadcast (ip : Z) : bool := ip =? 2 ^ 32 - 1.

Definition multiaddr_is_global (addr : Multiaddr) : bool :=
  negb (existsb (λ p, match p with
                      | Ip4 ip => ip4_is_unspecified ip || ip4_is_private ip || ip4_is_loopback ip ||
                                  ip4_is_link_local ip || ip4_is_documentation ip || ip4_is_broadcast ip
                      | _ => false
                      end) addr).

(** [multiaddr_get_ip]; the version and the number. *)
Definition multiaddr_get_ip (addr : Multiaddr) : option (Z * Z) :=
  match find_protocol (λ p, match p with Ip4 _ | Ip6 _ => true | _ => false end) addr with
  | Some (Ip4 ip) => Some (4, ip)
  | Some (Ip6 ip) => Some (6, ip)
  | _ => None
  end.

Definition multiaddr_get_port (addr : Multiaddr) : option Z :=
  match find_protocol is_udp addr with Some (Udp port) => Some port | _ => None end.

(** ** relay_manager.rs *)

Definition multiaddr_is_relayed (addr : Multiaddr) : bool := existsb is_circuit addr.

Definition is_a_relayed_peer (addrs : list Multiaddr) : bool := existsb multiaddr_is_relayed addrs.

Definition craft_relay_address (addr : Multiaddr) (peer_id : option bytes) : option Multiaddr :=
  ip ← find_protocol is_ip4 addr;
  port ← find_protocol is_udp addr;
  peer_id ← match peer_id with Some peer_id => Some (P2p peer_id) | None => find_protocol is_p2p addr end;
  Some [ip; port; QuicV1; peer_id; P2pCircuit].

(** ** identify.rs, and the same function of the client *)

Definition craft_valid_multiaddr_without_p2p (addr : Multiaddr) : option Multiaddr :=
  ip ← find_protocol is_ip4 addr;
  port ← multiaddr_get_port addr;
  Some [ip; Udp port; QuicV1].

Fixpoint strip_relayed (before_relay_protocol : bool) (addr : Multiaddr) : Multiaddr :=
  match addr with
  | [] => []
  | p :: rest =>
    let before := if is_circuit p then false else before_relay_protocol in
    if is_p2p p && negb before then strip_relayed before rest else p :: strip_relayed before rest
  end.

Definition multiaddr_strip_p2p (addr : Multiaddr) : Multiaddr :=
  if multiaddr_is_relayed addr then strip_relayed true addr else filter (λ p, is_p2p p = false) addr.

(** ** Facts *)

Lemma find_protocol_Some f addr p : find_protocol f addr = Some p → p ∈ addr ∧ f p = true.
Proof.
  unfold find_protocol. intros ([i x] & Hf & Hx)%fmap_Some. apply list_find_Some in Hf as (Hi & Hfx & _). subst.
  split; [by eapply list_elem_of_lookup_2|done].
Qed.

Lemma find_protocol_cons f p addr : find_protocol f (p :: addr) = if f p then Some p else find_protocol f addr.
Proof.
  unfold find_protocol. simpl. destruct (f p) eqn:E; simpl; [done|]. by destruct (list_find _ addr) as [[]|].
Qed.

Lemma find_protocol_ip4 addr p : find_protocol is_ip4 addr = Some p → ∃ ip, p = Ip4 ip.
Proof. intros [_ Hf]%find_protocol_Some. destruct p; simplify_eq/=; eauto. Qed.

Lemma find_protocol_udp addr p : find_protocol is_udp addr = Some p → ∃ port, p = Udp port.
Proof. intros [_ Hf]%find_protocol_Some. destruct p; simplify_eq/=; eauto. Qed.

Lemma find_protocol_tcp addr p : find_protocol is_tcp addr = Some p → ∃ port, p = Tcp port.
Proof. intros [_ Hf]%find_protocol_Some. destruct p; simplify_eq/=; eauto. Qed.

Lemma find_protocol_quic addr p : find_protocol is_quic addr = Some p → p = QuicV1.
Proof. intros [_ Hf]%find_protocol_Some. by destruct p; simplify_eq/=. Qed.

Lemma find_protocol_ws addr p : find_protocol is_ws addr = Some p → ∃ path, p = Ws path.
Proof. intros [_ Hf]%find_protocol_Some. destruct p; simplify_eq/=; eauto. Qed.

Lemma find_protocol_p2p addr p : find_protocol is_p2p addr = Some p → ∃ id, p = P2p id.
Proof. intros [_ Hf]%find_protocol_Some. destruct p; simplify_eq/=; eauto. Qed.

(** The forms a crafted address has. *)
Inductive crafted : Multiaddr → Prop :=
  | crafted_intro ip transport tail peer :
      (∃ port, transport = Udp port ∧ (tail = [] ∨ tail = [QuicV1])) ∨
      (∃ port, transport = Tcp port ∧ (tail = [] ∨ ∃ path, tail = [Ws path])) →
      crafted ([Ip4 ip; transport] ++ tail ++ match peer with Some id => [P2p id] | None => [] end).

Lemma craft_valid_form addr ignore out :
  craft_valid_multiaddr addr ignore = Some out → crafted out ∧ multiaddr_get_peer_id out = multiaddr_get_peer_id addr ∧
    (ignore = false → is_Some (multiaddr_get_peer_id out)).
Proof.
  unfold craft_valid_multiaddr. intros (ip & Hip & (output & Hout & Hpeer)%bind_Some)%bind_Some.
  apply find_protocol_ip4 in Hip as [ip4 ->].
  assert (∃ transport tail, output = [Ip4 ip4; transport] ++ tail ∧
    ((∃ port, transport = Udp port ∧ (tail = [] ∨ tail = [QuicV1])) ∨
     (∃ port, transport = Tcp port ∧ (tail = [] ∨ ∃ path, tail = [Ws path])))) as (transport & tail & -> & Hform).
  { destruct (find_protocol is_udp addr) as [udp|] eqn:Hu.
    - apply find_protocol_udp in Hu as [port ->]. destruct (find_protocol is_quic addr) eqn:Hq; simplify_eq/=.
      + apply find_protocol_quic in Hq as ->. eexists _, [_]. eauto 10.
      + eexists _, []. eauto 10.
    - destruct (find_protocol is_tcp addr) as [tcp|] eqn:Ht; [|done].
      apply find_protocol_tcp in Ht as [port ->]. destruct (find_protocol is_ws addr) eqn:Hw; simplify_eq/=.
      + apply find_protocol_ws in Hw as [path ->]. eexists _, [_]. eauto 10.
      + eexists _, []. eauto 10. }
  unfold multiaddr_get_peer_id. destruct (find_protocol is_p2p addr) as [p|] eqn:Hp.
  - apply find_protocol_p2p in Hp as [id ->]. injection Hpeer as <-.
    split; [exact (crafted_intro ip4 transport tail (Some id) Hform)|]. naive_solver.
  - destruct ignore; [|done]. injection Hpeer as <-.
    split; [rewrite <- (app_nil_r tail); exact (crafted_intro ip4 transport tail None Hform)|]. naive_solver.
Qed.

(** Crafting keeps a crafted address, up to a peer id that is required and missing. *)
Lemma craft_valid_crafted addr ignore :
  crafted addr → (ignore = false → is_Some (multiaddr_get_peer_id addr)) → craft_valid_multiaddr addr ignore = Some addr.
Proof.
  intros [ip transport tail peer Hform] Hpeer.
  destruct peer as [id|]; [|destruct ignore; [|exfalso; destruct (Hpeer eq_refl)]];
    destruct Hform as [(port & -> & [->| ->])|(port & -> & [->|[path ->]])]; done.
Qed.

(** The address the bootstrap cache keeps of a peer. Crafting is idempotent, whatever address a
    peer gives: a crafted address is an IPv4 address, a UDP or TCP port with at most its QUIC or
    websocket transport, and the first peer id of the address, and crafting it again, as happens when
    it is read back, changes nothing. *)
Theorem craft_valid_idempotent addr ignore out :
  craft_valid_multiaddr addr ignore = Some out →
  crafted out ∧ multiaddr_get_peer_id out = multiaddr_get_peer_id addr ∧ craft_valid_multiaddr out ignore = Some out.
Proof.
  intros (Hcrafted & Hid & Hsome)%craft_valid_form. split_and!; [done..|]. by apply craft_valid_crafted.
Qed.

Lemma craft_valid_idempotent_witness :
  let addr := [Ip6 1; Udp 80; P2p [1]; Ip4 5; Tcp 7; P2p [2]] in
  crafted [Ip4 5; Udp 80; P2p [1]] ∧ multiaddr_get_peer_id [Ip4 5; Udp 80; P2p [1]] = multiaddr_get_peer_id addr ∧
  craft_valid_multiaddr [Ip4 5; Udp 80; P2p [1]] false = Some [Ip4 5; Udp 80; P2p [1]].
Proof. apply (craft_valid_idempotent [Ip6 1; Udp 80; P2p [1]; Ip4 5; Tcp 7; P2p [2]] false). reflexivity. Defined.

(** ** Relay addresses *)

Lemma craft_relay_form addr peer_id out :
  craft_relay_address addr peer_id = Some out →
  ∃ ip port relay, out = [Ip4 ip; Udp port; QuicV1; P2p relay; P2pCircuit] ∧
    (match peer_id with Some id => relay = id | None => multiaddr_get_peer_id addr = Some relay end).
Proof.
  unfold craft_relay_address. intros (ip & Hip & (port & Hport & (p & Hp & [= <-])%bind_Some)%bind_Some)%bind_Some.
  apply find_protocol_ip4 in Hip as [ip4 ->]. apply find_protocol_udp in Hport as [udp ->].
  destruct peer_id as [id|]; simplify_eq.
  - eauto 10.
  - unfold multiaddr_get_peer_id. rewrite Hp. apply find_protocol_p2p in Hp as [id ->]. eauto 10.
Qed.

(** The addresses of a relayed peer survive the routing table. The address crafted for a peer
    behind a relay is what is left of it once the peer's own id, which libp2p appends, is stripped
    again, so that an unchanged identify of a relayed peer neither adds nor removes addresses. *)
Theorem relay_address_strip_roundtrip addr peer_id out id :
  craft_relay_address addr peer_id = Some out →
  multiaddr_strip_p2p (out ++ [P2p id]) = out ∧ multiaddr_strip_p2p out = out ∧ multiaddr_is_relayed out = true.
Proof. intros (ip & port & relay & -> & _)%craft_relay_form. done. Qed.

Lemma relay_address_strip_roundtrip_witness :
  multiaddr_strip_p2p ([Ip4 5; Udp 80; QuicV1; P2p [1]; P2pCircuit] ++ [P2p [9]]) = [Ip4 5; Udp 80; QuicV1; P2p [1]; P2pCircuit] ∧
  multiaddr_strip_p2p [Ip4 5; Udp 80; QuicV1; P2p [1]; P2pCircuit] = [Ip4 5; Udp 80; QuicV1; P2p [1]; P2pCircuit] ∧
  multiaddr_is_relayed [Ip4 5; Udp 80; QuicV1; P2p [1]; P2pCircuit] = true.
Proof. apply (relay_address_strip_roundtrip [Ip4 5; Udp 80; P2p [1]; P2p [2]] None). reflexivity. Defined.
