(* ===== verification/RelayManager.v ===== *)
(** * The relay manager

    Models src/ant-node/src/networking/relay_manager.rs: a node behind a NAT listens through relay
    servers it makes reservations with, and keeps a rolling score of them. The state of the swarm is
    not part of the manager: what it asks of libp2p is collected as calls, and whether listening
    succeeds, with the listener's id, is an argument, as is the candidate a random number picks. The
    averages of the scores, which are floating point and only shown as metrics, are left out, and one
    reading of the clock stands for those of one pass over the connections. *)

From stdpp Require Import base gmap countable strings list.
From Stdlib Require Import ZArith Lia.
From S2P Require Import Prelude Text RecordCache Multiaddr.

Definition MAX_CONCURRENT_RELAY_CONNECTIONS : nat := 2.
Definition MAX_POTENTIAL_CANDIDATES : nat := 1000.
Definition MAX_DURATION_TO_TRACK_INCOMING_CONNECTIONS_PER_PEER : Z := from_secs 20.
Definition RESERVATION_SCORE_ROLLING_WINDOW : nat := 100.

(** ** Reservation health *)

(** A connection through a relay server: the server, the connection, its time, its success. *)
Definition ConnectionsFromPeer : Type := list (bytes * Z * Z * option bool).

(** The outcomes, oldest first. *)
Definition ReservationStat : Type := list bool.

Definition record_value (value : bool) (stat : ReservationStat) : ReservationStat :=
  let stat := stat ++ [value] in
  if (RESERVATION_SCORE_ROLLING_WINDOW <? length stat)%nat then tail stat else stat.

(** [success_rate], as successes and outcomes. *)
Definition success_rate (stat : ReservationStat) : nat * nat := (length (filter (.= true) stat), length stat).

Record RelayReservationHealth := {
  rh_incoming : gmap bytes ConnectionsFromPeer;
  rh_reservation_score : gmap bytes ReservationStat;
}.

(** The health's [on_incoming_connection], at the time [now]. *)
Definition health_on_incoming (connection_id now : Z) (local_addr send_back_addr : Multiaddr) (h : RelayReservationHealth)
    : RelayReservationHealth :=
  if negb (multiaddr_is_relayed local_addr) then h
  else
    match multiaddr_get_peer_id local_addr, multiaddr_get_peer_id send_back_addr with
    | Some relay_server, Some from_peer =>
      {| rh_incoming :=
           <[from_peer := default [] (rh_incoming h !! from_peer) ++ [(relay_server, connection_id, now, None)]]> (rh_incoming h);
         rh_reservation_score := rh_reservation_score h |}
    | _, _ => h
    end.

(** The first connection with the id gets the outcome. *)
Fixpoint set_outcome (connection_id : Z) (outcome : bool) (l : ConnectionsFromPeer) : ConnectionsFromPeer :=
  match l with
  | [] => []
  | (relay, id, time, r) :: l' =>
    if id =? connection_id then (relay, id, time, Some outcome) :: l' else (relay, id, time, r) :: set_outcome connection_id outcome l'
  end.

Definition mark_connection (from_peer : bytes) (connection_id : Z) (outcome : bool) (h : RelayReservationHealth)
    : RelayReservationHealth :=
  {| rh_incoming := alter (set_outcome connection_id outcome) from_peer (rh_incoming h);
     rh_reservation_score := rh_reservation_score h |}.

Definition score_relay (relay_server : bytes) (value : bool) (score : gmap bytes ReservationStat) : gmap bytes ReservationStat :=
  <[relay_server := record_value value (default [] (score !! relay_server))]> score.

(** What the connections of one peer add to the scores once none is recent. *)
Definition score_connections (connections : ConnectionsFromPeer) (score : gmap bytes ReservationStat) : gmap bytes ReservationStat :=
  let succeeded := filter (λ c : bytes * Z * Z * option bool, c.2 = Some true) connections in
  if bool_decide (succeeded ≠ []) then foldl (λ s c, score_relay c.1.1.1 true s) score succeeded
  else foldl (λ s c, score_relay c.1.1.1 false s) score (filter (λ c : bytes * Z * Z * option bool, c.2 ≠ None) connections).

(** [duration_since] is an error for a later time. *)
Definition connections_settled (now : Z) (connections : ConnectionsFromPeer) : bool :=
  match connections with
  | [] => false
  | c :: cs => let latest := foldl (λ t c, Z.max t c.1.2) c.1.2 cs in
               (latest <=? now) && (MAX_DURATION_TO_TRACK_INCOMING_CONNECTIONS_PER_PEER <=? now - latest)
  end.

(** [try_update_stat]; the [BTreeMap] is visited in the order of its keys, the argument [order]. *)
Definition try_update_stat (order : list bytes → list bytes) (now : Z) (h : RelayReservationHealth) : RelayReservationHealth :=
  let settled := filter (λ kc, connections_settled now kc.2 = true) (rh_incoming h) in
  {| rh_incoming := rh_incoming h ∖ settled;
     rh_reservation_score :=
       foldl (λ s from_peer, score_connections (default [] (settled !! from_peer)) s) (rh_reservation_score h)
         (order (map_to_list settled).*1) |}.

(** The health's [on_connection_established] and [on_incomming_connection_error]. *)
Definition health_on_established (order : list bytes → list bytes) (now : Z) (from_peer : bytes) (connection_id : Z)
    (h : RelayReservationHealth) : RelayReservationHealth :=
  try_update_stat order now (mark_connection from_peer connection_id true h).

Definition health_on_error (order : list bytes → list bytes) (now : Z) (send_back_addr : Multiaddr) (connection_id : Z)
    (h : RelayReservationHealth) : RelayReservationHealth :=
  match multiaddr_get_peer_id send_back_addr with
  | Some from_peer => try_update_stat order now (mark_connection from_peer connection_id false h)
  | None => h
  end.

(** ** The manager *)

Record RelayManager := {
  rm_self_peer_id : bytes;
  rm_candidates : list (bytes * Multiaddr);
  rm_waiting : gmap bytes Multiaddr;
  rm_connected : gmap bytes Multiaddr;
  rm_listeners : gmap Z bytes;
  rm_health : option RelayReservationHealth;
}.

Definition relay_manager_new (self_peer_id : bytes) : RelayManager :=
  {| rm_self_peer_id := self_peer_id; rm_candidates := []; rm_waiting := ∅; rm_connected := ∅; rm_listeners := ∅;
     rm_health := None |}.

(** What the manager asks of the swarm. *)
Inductive RelayCall :=
  | ListenOn (addr : Multiaddr)
  | AddExternalAddress (addr : Multiaddr)
  | RemoveExternalAddress (addr : Multiaddr)
  | PushIdentify (peers : list bytes).

Definition set_reservation_health_metrics (m : RelayManager) : RelayManager :=
  {| rm_self_peer_id := rm_self_peer_id m; rm_candidates := rm_candidates m; rm_waiting := rm_waiting m;
     rm_connected := rm_connected m; rm_listeners := rm_listeners m;
     rm_health := Some {| rh_incoming := ∅; rh_reservation_score := ∅ |} |}.

Definition keep_alive_peer (peer_id : bytes) (m : RelayManager) : bool :=
  contains_key peer_id (rm_connected m) || contains_key peer_id (rm_waiting m).

Definition does_it_support_relay_server_protocol (protocols : list bytes) : bool :=
  bool_decide (text "/libp2p/circuit/relay/0.2.0/stop" ∈ protocols).

Definition rm_with_candidates (m : RelayManager) (candidates : list (bytes * Multiaddr)) : RelayManager :=
  {| rm_self_peer_id := rm_self_peer_id m; rm_candidates := candidates; rm_waiting := rm_waiting m;
     rm_connected := rm_connected m; rm_listeners := rm_listeners m; rm_health := rm_health m |}.

Definition add_potential_candidates (peer_id : bytes) (addrs : list Multiaddr) (protocols : list bytes) (m : RelayManager)
    : RelayManager :=
  if (MAX_POTENTIAL_CANDIDATES <=? length (rm_candidates m))%nat then m
  else
    match addrs with
    | [] => m
    | addr :: _ =>
      if bool_decide (peer_id ∈ (rm_candidates m).*1) then m
      else if does_it_support_relay_server_protocol protocols then
        match craft_relay_address addr (Some peer_id) with
        | Some relay_addr => rm_with_candidates m (rm_candidates m ++ [(peer_id, relay_addr)])
        | None => m
        end
      else m
    end.

(** The loop of [try_connecting_to_relay]; every turn takes one candidate, the one at [pick i]
    modulo their number, so the number of candidates is enough fuel. [listen i addr] is the id of
    the listener, if there is one. *)
Fixpoint reserve_loop (pick : nat → nat) (listen : nat → Multiaddr → option Z) (is_bad : bytes → bool) (fuel i n : nat)
    (reservations_to_make : nat) (m : RelayManager) (calls : list RelayCall) : RelayManager * list RelayCall :=
  match fuel with
  | O => (m, calls)
  | S fuel =>
    if (n <? reservations_to_make)%nat then
      match rm_candidates m with
      | [] => (m, calls)
      | _ :: _ =>
        let index := (pick i mod length (rm_candidates m))%nat in
        match rm_candidates m !! index with
        | None => (m, calls)
        | Some (peer_id, relay_addr) =>
          let m := rm_with_candidates m (delete index (rm_candidates m)) in
          if is_bad peer_id || contains_key peer_id (rm_connected m) || contains_key peer_id (rm_waiting m)
          then reserve_loop pick listen is_bad fuel (S i) n reservations_to_make m calls
          else
            match listen i relay_addr with
            | Some id =>
              reserve_loop pick listen is_bad fuel (S i) (S n) reservations_to_make
                {| rm_self_peer_id := rm_self_peer_id m; rm_candidates := rm_candidates m;
                   rm_waiting := <[peer_id := relay_addr]> (rm_waiting m); rm_connected := rm_connected m;
                   rm_listeners := <[id := peer_id]> (rm_listeners m); rm_health := rm_health m |}
                (calls ++ [ListenOn relay_addr])
            | None => reserve_loop pick listen is_bad fuel (S i) n reservations_to_make m (calls ++ [ListenOn relay_addr])
            end
        end
      end
    else (m, calls)
  end.

Definition try_connecting_to_relay (pick : nat → nat) (listen : nat → Multiaddr → option Z) (is_bad : bytes → bool)
    (m : RelayManager) : RelayManager * list RelayCall :=
  if (MAX_CONCURRENT_RELAY_CONNECTIONS <=? size (rm_connected m))%nat || bool_decide (rm_candidates m = []) then (m, [])
  else
    reserve_loop pick listen is_bad (length (rm_candidates m)) 0 0 (MAX_CONCURRENT_RELAY_CONNECTIONS - size (rm_connected m)) m [].

Definition on_successful_reservation_by_client (peer_id : bytes) (live_peers : list bytes) (m : RelayManager)
    : RelayManager * list RelayCall :=
  let '(m, calls) :=
    match rm_waiting m !! peer_id with
    | Some addr =>
      ({| rm_self_peer_id := rm_self_peer_id m; rm_candidates := rm_candidates m; rm_waiting := delete peer_id (rm_waiting m);
          rm_connected := <[peer_id := addr]> (rm_connected m); rm_listeners := rm_listeners m; rm_health := rm_health m |},
       [AddExternalAddress addr])
    | None => (m, [])
    end in
  (m, calls ++ (if (size (rm_connected m) =? MAX_CONCURRENT_RELAY_CONNECTIONS)%nat then [PushIdentify (remove_dups live_peers)] else [])).

(** [with_p2p]: appends the id, unless the address ends with one; then it must be the same. *)
Definition with_p2p (addr : Multiaddr) (peer_id : bytes) : option Multiaddr :=
  match last addr with
  | Some (P2p id) => if bool_decide (id = peer_id) then Some addr else None
  | _ => Some (addr ++ [P2p peer_id])
  end.

Definition on_listener_closed (listener_id : Z) (m : RelayManager) : RelayManager * list RelayCall :=
  match rm_listeners m !! listener_id with
  | None => (m, [])
  | Some peer_id =>
    let listeners := delete listener_id (rm_listeners m) in
    match rm_connected m !! peer_id with
    | Some addr =>
      let connected := delete peer_id (rm_connected m) in
      match with_p2p addr (rm_self_peer_id m) with
      | None =>
        ({| rm_self_peer_id := rm_self_peer_id m; rm_candidates := rm_candidates m; rm_waiting := rm_waiting m;
            rm_connected := connected; rm_listeners := listeners; rm_health := rm_health m |},
         [RemoveExternalAddress addr])
      | Some addr_with_self =>
        ({| rm_self_peer_id := rm_self_peer_id m; rm_candidates := rm_candidates m;
            rm_waiting := delete peer_id (rm_waiting m);
            rm_connected := connected; rm_listeners := listeners; rm_health := rm_health m |},
         [RemoveExternalAddress addr; RemoveExternalAddress addr_with_self])
      end
    | None =>
      ({| rm_self_peer_id := rm_self_peer_id m; rm_candidates := rm_candidates m; rm_waiting := delete peer_id (rm_waiting m);
          rm_connected := rm_connected m; rm_listeners := listeners; rm_health := rm_health m |}, [])
    end
  end.

(** The manager's connection events only concern the health, when it is tracked. *)
Definition rm_with_health (f : RelayReservationHealth → RelayReservationHealth) (m : RelayManager) : RelayManager :=
  {| rm_self_peer_id := rm_self_peer_id m; rm_candidates := rm_candidates m; rm_waiting := rm_waiting m;
     rm_connected := rm_connected m; rm_listeners := rm_listeners m; rm_health := f <$> rm_health m |}.

Definition on_incoming_connection (connection_id now : Z) (local_addr send_back_addr : Multiaddr) : RelayManager → RelayManager :=
  rm_with_health (health_on_incoming connection_id now local_addr send_back_addr).

Definition on_connection_established (order : list bytes → list bytes) (now : Z) (from_peer : bytes) (connection_id : Z)
    : RelayManager → RelayManager :=
  rm_with_health (health_on_established order now from_peer connection_id).

Definition on_incomming_connection_error (order : list bytes → list bytes) (now : Z) (send_back_addr : Multiaddr)
    (connection_id : Z) : RelayManager → RelayManager :=
  rm_with_health (health_on_error order now send_back_addr connection_id).

(** ** Runs of the manager *)

Inductive RelayEvent :=
  | RE_Identified (peer_id : bytes) (addrs : list Multiaddr) (protocols : list bytes)
  | RE_Tick (pick : nat → nat) (listen : nat → Multiaddr → option Z) (is_bad : bytes → bool)
  | RE_ReservationAccepted (peer_id : bytes) (live_peers : list bytes)
  | RE_ListenerClosed (listener_id : Z)
  | RE_Health (f : RelayReservationHealth → RelayReservationHealth).

Definition relay_event (ev : RelayEvent) (m : RelayManager) : RelayManager * list RelayCall :=
  match ev with
  | RE_Identified peer_id addrs protocols => (add_potential_candidates peer_id addrs protocols m, [])
  | RE_Tick pick listen is_bad => try_connecting_to_relay pick listen is_bad m
  | RE_ReservationAccepted peer_id live_peers => on_successful_reservation_by_client peer_id live_peers m
  | RE_ListenerClosed id => on_listener_closed id m
  | RE_Health f => (rm_with_health f m, [])
  end.

(** The swarm gives each listener an id of its own. *)
Definition listeners_fresh (ev : RelayEvent) (m : RelayManager) : Prop :=
  match ev with
  | RE_Tick _ listen _ =>
    (∀ i addr id, listen i addr = Some id → rm_listeners m !! id = None) ∧
    ∀ i j addr addr' id, listen i addr = Some id → listen j addr' = Some id → i = j
  | _ => True
  end.

(** The relay address of a peer. *)
Definition relay_address_of (peer_id : bytes) (addr : Multiaddr) : Prop :=
  ∃ ip port, addr = [Ip4 ip; Udp port; QuicV1; P2p peer_id; P2pCircuit].

Definition in_use (m : RelayManager) (p : bytes) : Prop := is_Some (rm_waiting m !! p) ∨ is_Some (rm_connected m !! p).

(** The invariant: candidates are distinct and as many as allowed, addresses are those of relays,
    no server is both waited for and connected, and those in use are exactly those some listener
    is for, each for one. *)
Record relay_wf (m : RelayManager) : Prop := {
  wf_candidates : NoDup (rm_candidates m).*1;
  wf_candidates_len : (length (rm_candidates m) ≤ MAX_POTENTIAL_CANDIDATES)%nat;
  wf_candidate_addr : ∀ p a, (p, a) ∈ rm_candidates m → relay_address_of p a;
  wf_waiting_addr : ∀ p a, rm_waiting m !! p = Some a → relay_address_of p a;
  wf_connected_addr : ∀ p a, rm_connected m !! p = Some a → relay_address_of p a;
  wf_disjoint : rm_waiting m ##ₘ rm_connected m;
  wf_listeners : ∀ p, in_use m p ↔ ∃ id, rm_listeners m !! id = Some p;
  wf_listeners_inj : ∀ id1 id2 p, rm_listeners m !! id1 = Some p → rm_listeners m !! id2 = Some p → id1 = id2;
}.

Lemma relay_wf_new self_peer_id : relay_wf (relay_manager_new self_peer_id).
Proof.
  split; simpl; try done; try (intros *; rewrite lookup_empty; done); try set_solver.
  - constructor.
  - lia.
  - intros p. unfold in_use. simpl. setoid_rewrite lookup_empty. split; [intros [[? ?]|[? ?]]; done|by intros [? ?]].
Qed.

Lemma add_candidate_wf peer_id addrs protocols m : relay_wf m → relay_wf (add_potential_candidates peer_id addrs protocols m).
Proof.
  intros Hwf. unfold add_potential_candidates. destruct (Nat.leb_spec MAX_POTENTIAL_CANDIDATES (length (rm_candidates m))); [done|].
  destruct addrs as [|addr addrs]; [done|]. case_bool_decide as Hin; [done|]. destruct (does_it_support_relay_server_protocol _); [|done].
  destruct (craft_relay_address addr (Some peer_id)) as [relay_addr|] eqn:Hc; [|done].
  apply craft_relay_form in Hc as (ip & port & relay & -> & ->). destruct Hwf as [Hnd Hlen Haddr Hw Hcon Hdis Hl Hinj].
  split; simpl; try done.
  - rewrite fmap_app. apply NoDup_app. split; [done|]. split; [set_solver|apply NoDup_singleton].
  - rewrite length_app. simpl. lia.
  - intros p a [Hp|Hp]%elem_of_app; [by apply Haddr|]. apply list_elem_of_singleton in Hp as [= -> ->]. by eexists _, _.
Qed.

(** A reservation that is asked for. *)
Lemma reserve_wf m peer_id addr id candidates :
  relay_wf m → ¬ in_use m peer_id → relay_address_of peer_id addr → rm_listeners m !! id = None →
  NoDup candidates.*1 → (length candidates ≤ MAX_POTENTIAL_CANDIDATES)%nat → (∀ p a, (p, a) ∈ candidates → relay_address_of p a) →
  relay_wf {| rm_self_peer_id := rm_self_peer_id m; rm_candidates := candidates;
              rm_waiting := <[peer_id := addr]> (rm_waiting m); rm_connected := rm_connected m;
              rm_listeners := <[id := peer_id]> (rm_listeners m); rm_health := rm_health m |}.
Proof.
  intros [_ _ _ Hw Hcon Hdis Hl Hinj] Hfree Haddr Hid Hnd Hlen Hall. split; simpl; try done.
  - intros p a [[<- <-]|[_ Hp]]%lookup_insert_Some; [done|by apply Hw].
  - apply map_disjoint_insert_l. split; [|done]. apply eq_None_not_Some. intros Hs. apply Hfree. by right.
  - intros p. unfold in_use in *. simpl. destruct (decide (p = peer_id)) as [->|Hne].
    + split; [intros _; exists id; apply lookup_insert_eq|]. intros _. left. rewrite lookup_insert_eq. by eexists.
    + rewrite lookup_insert_ne by done. rewrite Hl. split; intros [id' Hid']; exists id'.
      * rewrite lookup_insert_ne; [done|]. intros ->. congruence.
      * apply lookup_insert_Some in Hid' as [[_ ->]|[_ Hid']]; done.
  - intros id1 id2 p [[<- <-]|[Hne1 H1]]%lookup_insert_Some [[<- Hp]|[Hne2 H2]]%lookup_insert_Some; [done|..]; [| |by eapply Hinj].
    + exfalso. apply Hfree, Hl. eauto.
    + subst. exfalso. apply Hfree, Hl. eauto.
Qed.

Lemma rm_with_candidates_wf m candidates :
  relay_wf m → NoDup candidates.*1 → (length candidates ≤ MAX_POTENTIAL_CANDIDATES)%nat →
  (∀ p a, (p, a) ∈ candidates → relay_address_of p a) → relay_wf (rm_with_candidates m candidates).
Proof. intros [_ _ _ Hw Hcon Hdis Hl Hinj] Hnd Hlen Hall. by split. Qed.

Lemma reserve_loop_wf pick listen is_bad fuel i n total m calls :
  relay_wf m → (∀ j addr id, (i ≤ j)%nat → listen j addr = Some id → rm_listeners m !! id = None) →
  (∀ j k addr addr' id, listen j addr = Some id → listen k addr' = Some id → j = k) →
  relay_wf (reserve_loop pick listen is_bad fuel i n total m calls).1.
Proof.
  revert i n m calls. induction fuel as [|fuel IH]; intros i n m calls Hwf Hfresh Hinj; [done|]. cbn [reserve_loop].
  destruct (n <? total)%nat; [|done]. destruct (rm_candidates m) as [|c cs] eqn:Hc; [done|].
  set (index := (pick i mod length (c :: cs))%nat). destruct ((c :: cs) !! index) as [[peer_id addr]|] eqn:Hi; [|done].
  set (rest := delete index (c :: cs)). cbv zeta.
  assert (rest ⊆+ c :: cs) as Hsub by apply submseteq_delete.
  pose proof Hwf as [Hnd Hlen Haddr _ _ _ _ _]. rewrite Hc in Hnd, Hlen, Haddr.
  assert (NoDup rest.*1 ∧ (length rest ≤ MAX_POTENTIAL_CANDIDATES)%nat ∧ ∀ p a, (p, a) ∈ rest → relay_address_of p a) as (Hnd' & Hlen' & Haddr').
  { split_and!; [|apply submseteq_length in Hsub; lia|intros p a Hp; apply Haddr; by eapply elem_of_submseteq].
    eapply sublist_NoDup; [exact Hnd|]. apply fmap_sublist, sublist_delete. }
  assert (relay_wf (rm_with_candidates m rest)) as Hwf' by by apply rm_with_candidates_wf.
  destruct (is_bad peer_id || _ || _) eqn:Hskip; [apply IH; [done| |done]; intros j a id Hj; apply Hfresh; lia|].
  apply orb_false_iff in Hskip as [[_ Hnc%contains_key_false]%orb_false_iff Hnw%contains_key_false].
  destruct (listen i addr) as [id|] eqn:Hlisten; (apply IH; [|..|done]).
  - apply (reserve_wf (rm_with_candidates m rest)); try done.
    + intros [[? ?]|[? ?]]; simpl in *; congruence.
    + apply Haddr. by eapply list_elem_of_lookup_2.
    + by eapply Hfresh.
  - intros j a id' Hj Hl'. simpl. rewrite lookup_insert_ne; [apply (Hfresh j a); [lia|done]|].
    intros ->. pose proof (Hinj _ _ _ _ _ Hlisten Hl'). lia.
  - done.
  - intros j a id' Hj. apply Hfresh. lia.
Qed.

Lemma reservation_accepted_wf peer_id live m : relay_wf m → relay_wf (on_successful_reservation_by_client peer_id live m).1.
Proof.
  intros Hwf. unfold on_successful_reservation_by_client. destruct (rm_waiting m !! peer_id) as [addr|] eqn:Hp; [|done].
  destruct Hwf as [Hnd Hlen Haddr Hw Hcon Hdis Hl Hinj]. split; simpl; try done.
  - intros p a [_ Ha]%lookup_delete_Some. by apply Hw.
  - intros p a [[<- <-]|[_ Ha]]%lookup_insert_Some; [by apply Hw|by apply Hcon].
  - apply map_disjoint_insert_r. split; [apply lookup_delete_eq|by apply map_disjoint_delete_l].
  - intros p. rewrite <- Hl. unfold in_use. simpl. destruct (decide (p = peer_id)) as [->|Hne].
    + rewrite lookup_delete_eq, lookup_insert_eq, Hp. split; intros _; [left|right]; by eexists.
    + by rewrite lookup_delete_ne, lookup_insert_ne by done.
Qed.

(** The address of a relay does not end with a peer id. *)
Lemma relay_with_p2p peer_id addr self : relay_address_of peer_id addr → with_p2p addr self = Some (addr ++ [P2p self]).
Proof. by intros (ip & port & ->). Qed.

Lemma listener_closed_wf id m : relay_wf m → relay_wf (on_listener_closed id m).1.
Proof.
  intros Hwf. unfold on_listener_closed. destruct (rm_listeners m !! id) as [peer_id|] eqn:Hid; [|done].
  assert (relay_wf {| rm_self_peer_id := rm_self_peer_id m; rm_candidates := rm_candidates m; rm_waiting := delete peer_id (rm_waiting m);
            rm_connected := delete peer_id (rm_connected m); rm_listeners := delete id (rm_listeners m); rm_health := rm_health m |}) as Hwf'.
  { destruct Hwf as [Hnd Hlen Haddr Hw Hcon Hdis Hl Hinj]. split; simpl; try done.
    - intros p a [_ Ha]%lookup_delete_Some. by apply Hw.
    - intros p a [_ Ha]%lookup_delete_Some. by apply Hcon.
    - by apply map_disjoint_delete_l, map_disjoint_delete_r.
    - intros p. unfold in_use in *. simpl. destruct (decide (p = peer_id)) as [->|Hne].
      + rewrite !lookup_delete_eq. split; [intros [[? ?]|[? ?]]; done|]. intros (id' & [Hne Hid']%lookup_delete_Some).
        by rewrite (Hinj _ _ _ Hid Hid') in Hne.
      + rewrite !lookup_delete_ne by done. rewrite Hl. split; intros [id' Hid']; exists id'.
        * rewrite lookup_delete_ne; [done|]. intros ->. congruence.
        * by apply lookup_delete_Some in Hid' as [_ Hid'].
    - intros id1 id2 p [_ H1]%lookup_delete_Some [_ H2]%lookup_delete_Some. by eapply Hinj. }
  destruct (rm_connected m !! peer_id) as [addr|] eqn:Hc.
  - rewrite (relay_with_p2p peer_id) by by apply (wf_connected_addr m Hwf). done.
  - simpl. by rewrite (delete_id (rm_connected m)) in Hwf' by done.
Qed.

Lemma relay_event_wf ev m : relay_wf m → listeners_fresh ev m → relay_wf (relay_event ev m).1.
Proof.
  intros Hwf Hfresh. destruct ev as [p addrs protocols|pick listen is_bad|p live|id|f]; simpl.
  - by apply add_candidate_wf.
  - unfold try_connecting_to_relay. destruct (_ || _); [done|]. destruct Hfresh as [Hf Hinj].
    apply reserve_loop_wf; [done| |done]. intros j addr id _. apply Hf.
  - by apply reservation_accepted_wf.
  - by apply listener_closed_wf.
  - destruct Hwf. by split.
Qed.

Fixpoint relay_run (l : list RelayEvent) (m : RelayManager) : RelayManager * list RelayCall :=
  match l with
  | [] => (m, [])
  | ev :: l => let '(m, calls) := relay_event ev m in let '(m, calls') := relay_run l m in (m, calls ++ calls')
  end.

Fixpoint relay_run_fresh (l : list RelayEvent) (m : RelayManager) : Prop :=
  match l with [] => True | ev :: l => listeners_fresh ev m ∧ relay_run_fresh l (relay_event ev m).1 end.

(** The relay manager's invariant, whatever peers are identified, reservations accepted and
    listeners closed: candidates are distinct, at most a thousand and with the address of their
    relay, no server is waited for and connected at once, and the servers in use are exactly those
    that one listener each is open for, so that a listener that closes always frees its server. *)
Theorem relay_manager_inv l self_peer_id :
  relay_run_fresh l (relay_manager_new self_peer_id) → relay_wf (relay_run l (relay_manager_new self_peer_id)).1.
Proof.
  generalize (relay_wf_new self_peer_id). generalize (relay_manager_new self_peer_id). induction l as [|ev l IH]; intros m Hwf Hf; [done|].
  destruct Hf as [Hev Hf]. simpl. pose proof (relay_event_wf ev m Hwf Hev) as Hwf'. specialize (IH _ Hwf' Hf).
  destruct (relay_event ev m) as [m' calls]. simpl in IH. by destruct (relay_run l m').
Qed.

(** ** The limit of connections *)

Definition ex_relay_peer (p : Z) : RelayEvent :=
  RE_Identified [p] [[Ip4 5; Udp p; QuicV1]] [text "/libp2p/circuit/relay/0.2.0/stop"].

(** Two ticks before the first answer, each with its listeners. *)
Definition ex_relay_run : list RelayEvent :=
  (ex_relay_peer <$> [1; 2; 3; 4]) ++
  [RE_Tick (λ _, 0%nat) (λ i _, [0; 1] !! i) (λ _, false); RE_Tick (λ _, 0%nat) (λ i _, [2; 3] !! i) (λ _, false)] ++
  ((λ p, RE_ReservationAccepted [p] []) <$> [1; 2; 3; 4]).

(** The manager does not keep to its limit of relay connections: it only counts those that
    are connected, not those it waits for, so that a second tick before the first reservations are
    answered asks for two more, and all four are connected once they are accepted. *)
Theorem relay_limit_exceeded :
  relay_run_fresh ex_relay_run (relay_manager_new [0]) ∧
  (MAX_CONCURRENT_RELAY_CONNECTIONS < size (rm_connected (relay_run ex_relay_run (relay_manager_new [0%Z])).1))%nat.
Proof.
  split; [|vm_compute; lia]. unfold ex_relay_run. repeat (split; [exact I|]).
  split; [|split; [|repeat (split; [exact I|]); exact I]]; split.
  - intros [|[|i]] addr id [= <-]; vm_compute; reflexivity.
  - intros [|[|i]] [|[|j]] addr addr' id [= <-] [=]; done.
  - intros [|[|i]] addr id [= <-]; vm_compute; reflexivity.
  - intros [|[|i]] [|[|j]] addr addr' id [= <-] [=]; done.
Qed.

Lemma relay_manager_inv_witness : relay_wf (relay_run (take 5 ex_relay_run) (relay_manager_new [0])).1.
Proof.
  apply relay_manager_inv. unfold ex_relay_run. repeat (split; [exact I|]). split; [|exact I]. split.
  - intros [|[|i]] addr id [= <-]; vm_compute; reflexivity.
  - intros [|[|i]] [|[|j]] addr addr' id [= <-] [=]; done.
Defined.
