(* ===== verification/ExternalAddress.v ===== *)
(** * External addresses of a public node

    Models src/ant-node/src/networking/external_address.rs: the addresses under which others report to
    see the node, which of them are announced, and the change to another ip address. Of the swarm only
    the set of announced addresses is used. *)

From stdpp Require Import base gmap countable list relations.
From Stdlib Require Import ZArith Lia.
From S2P Require Import Prelude Text Multiaddr.

Definition MAX_REPORTS_BEFORE_CONFIRMATION : Z := 3.
Definition MAX_REPORTS_BEFORE_SWITCHING_IP : Z := 10.
Definition MAX_CONFIRMED_ADDRESSES_BEFORE_SWITCHING_IP : nat := 5.
Definition MAX_CANDIDATES : nat := 50.

Definition IpAddr : Type := Z * Z.

Inductive ExternalAddressState :=
  | EA_Candidate (address : Multiaddr) (num_reports : Z) (ip_address : IpAddr)
  | EA_Confirmed (address : Multiaddr) (num_reports : Z) (ip_address : IpAddr)
  | EA_Listener (address : Multiaddr) (ip_address : IpAddr).

Definition ea_multiaddr (s : ExternalAddressState) : Multiaddr :=
  match s with EA_Candidate a _ _ | EA_Confirmed a _ _ | EA_Listener a _ => a end.

Definition ea_ip_address (s : ExternalAddressState) : IpAddr :=
  match s with EA_Candidate _ _ ip | EA_Confirmed _ _ ip | EA_Listener _ ip => ip end.

(** [u8] counts that saturate. *)
Definition ea_increment_reports (s : ExternalAddressState) : ExternalAddressState :=
  match s with
  | EA_Candidate a n ip => EA_Candidate a (Z.min 255 (n + 1)) ip
  | EA_Confirmed a n ip => EA_Confirmed a (Z.min 255 (n + 1)) ip
  | EA_Listener a ip => EA_Listener a ip
  end.

Definition ea_num_reports (s : ExternalAddressState) : Z :=
  match s with EA_Candidate _ n _ | EA_Confirmed _ n _ => n | EA_Listener _ _ => 255 end.

Definition ea_is_candidate (s : ExternalAddressState) : bool := match s with EA_Candidate _ _ _ => true | _ => false end.

Record ExternalAddressManager := {
  ea_address_states : list ExternalAddressState;
  ea_current_ip_address : option IpAddr;
  ea_peer_id : bytes;
  ea_connection_stats : gmap Z Z; (* the [ok] counts; the errors are not used *)
  ea_bad_ports : gset Z;
}.

Definition ea_with_states (m : ExternalAddressManager) (states : list ExternalAddressState) : ExternalAddressManager :=
  {| ea_address_states := states; ea_current_ip_address := ea_current_ip_address m; ea_peer_id := ea_peer_id m;
     ea_connection_stats := ea_connection_stats m; ea_bad_ports := ea_bad_ports m |}.
Definition ea_with_ip (m : ExternalAddressManager) (ip : IpAddr) : ExternalAddressManager :=
  {| ea_address_states := ea_address_states m; ea_current_ip_address := Some ip; ea_peer_id := ea_peer_id m;
     ea_connection_stats := ea_connection_stats m; ea_bad_ports := ea_bad_ports m |}.

Definition external_address_manager_new (peer_id : bytes) : ExternalAddressManager :=
  {| ea_address_states := []; ea_current_ip_address := None; ea_peer_id := peer_id; ea_connection_stats := ∅; ea_bad_ports := ∅ |}.

(** The addresses the swarm announces. *)
Definition Announced : Type := gset Multiaddr.

Definition candidate_addresses (m : ExternalAddressManager) : list Multiaddr :=
  omap (λ s, match s with EA_Candidate a _ _ => Some a | _ => None end) (ea_address_states m).

Definition craft_external_address (m : ExternalAddressManager) (given_address : Multiaddr) : option Multiaddr :=
  ip ← find_protocol is_ip4 given_address;
  match find_protocol is_ws given_address with
  | Some ws_protocol =>
    port ← find_protocol is_tcp given_address;
    Some [ip; port; ws_protocol; P2p (ea_peer_id m)]
  | None =>
    if existsb is_quic given_address then
      port ← find_protocol is_udp given_address;
      Some [ip; port; QuicV1; P2p (ea_peer_id m)]
    else None
  end.

(** The two passes of [switch_to_new_ip]. *)
Definition leaves_ip (new_ip : IpAddr) (s : ExternalAddressState) : bool :=
  negb (ea_is_candidate s) && bool_decide (ea_ip_address s ≠ new_ip).

Definition confirm_on_switch (new_ip : IpAddr) (s : ExternalAddressState) : ExternalAddressState :=
  match s with
  | EA_Candidate a n ip =>
    if bool_decide (ip = new_ip) && (MAX_REPORTS_BEFORE_SWITCHING_IP <=? n) then EA_Confirmed a n ip else s
  | _ => s
  end.

Definition announced_on_switch (new_ip : IpAddr) (s : ExternalAddressState) : option Multiaddr :=
  match s with
  | EA_Candidate a n ip => if bool_decide (ip = new_ip) && (MAX_REPORTS_BEFORE_SWITCHING_IP <=? n) then Some a else None
  | EA_Listener a ip => if bool_decide (ip = new_ip) then Some a else None
  | EA_Confirmed _ _ _ => None
  end.

Definition switch_to_new_ip (new_ip : IpAddr) (m : ExternalAddressManager) (swarm : Announced) : ExternalAddressManager * Announced :=
  let m := ea_with_ip m new_ip in
  let removed := filter (λ s, leaves_ip new_ip s = true) (ea_address_states m) in
  let states := filter (λ s, leaves_ip new_ip s = false) (ea_address_states m) in
  let swarm := foldl (λ sw s, sw ∖ {[ ea_multiaddr s ]}) swarm removed in
  let swarm := foldl (λ sw a, {[ a ]} ∪ sw) swarm (omap (announced_on_switch new_ip) states) in
  (ea_with_states m (confirm_on_switch new_ip <$> states), swarm).

Section external.
Context `{HashOrder}.

(** How many candidates of each other ip have been reported often. *)
Definition new_ip_map (current_ip_address : IpAddr) (states : list ExternalAddressState) : gmap IpAddr nat :=
  foldl (λ counts s,
    match s with
    | EA_Candidate _ n ip =>
      if bool_decide (current_ip_address ≠ ip) && (MAX_REPORTS_BEFORE_SWITCHING_IP <=? n)
      then <[ip := S (default 0%nat (counts !! ip))]> counts else counts
    | _ => counts
    end) ∅ states.

(** The ip with the most of them, if they are enough. *)
Definition ip_to_switch_to (m : ExternalAddressManager) : option IpAddr :=
  current_ip_address ← ea_current_ip_address m;
  '(new_ip, count) ← last (sort_by_key (λ x : IpAddr * nat, Z.of_nat x.2) (hm_iter (new_ip_map current_ip_address (ea_address_states m))));
  if (MAX_CONFIRMED_ADDRESSES_BEFORE_SWITCHING_IP <=? count)%nat then Some new_ip else None.

(** The part of [add_external_address_candidate] after the known addresses. *)
Definition add_candidate_or_switch (address : Multiaddr) (m : ExternalAddressManager) (swarm : Announced) : ExternalAddressManager * Announced :=
  match ip_to_switch_to m with
  | Some new_ip => switch_to_new_ip new_ip m swarm
  | None =>
    if (MAX_CANDIDATES <=? length (candidate_addresses m))%nat then (m, swarm)
    else if existsb (λ s, bool_decide (ea_multiaddr s = address)) (ea_address_states m) then (m, swarm)
    else match multiaddr_get_ip address with
         | None => (m, swarm)
         | Some ip_address => (ea_with_states m (ea_address_states m ++ [EA_Candidate address 0 ip_address]), swarm)
         end
  end.

Definition add_external_address_candidate (address : Multiaddr) (m : ExternalAddressManager) (swarm : Announced) : ExternalAddressManager * Announced :=
  if negb (multiaddr_is_global address) then (m, swarm)
  else
    match craft_external_address m address with
    | None => (m, swarm)
    | Some address =>
      match multiaddr_get_port address with
      | None => (m, swarm)
      | Some port =>
        if bool_decide (port ∈ ea_bad_ports m) then (m, swarm)
        else
          match list_find (λ s, ea_multiaddr s = address) (ea_address_states m) with
          | Some (i, state) =>
            let state := ea_increment_reports state in
            let m := ea_with_states m (<[i := state]> (ea_address_states m)) in
            if ea_is_candidate state then
              if MAX_REPORTS_BEFORE_CONFIRMATION <=? ea_num_reports state then
                let confirmed := match ea_current_ip_address m with
                                 | Some current_ip_address => bool_decide (current_ip_address = ea_ip_address state)
                                 | None => true
                                 end in
                if confirmed then
                  (ea_with_states m (<[i := EA_Confirmed address (ea_num_reports state) (ea_ip_address state)]> (ea_address_states m)),
                   {[ address ]} ∪ swarm)
                else add_candidate_or_switch address m swarm
              else add_candidate_or_switch address m swarm
            else (m, swarm)
          | None => add_candidate_or_switch address m swarm
          end
      end
    end.

Definition on_new_listen_addr (listen_addr : Multiaddr) (m : ExternalAddressManager) (swarm : Announced) : ExternalAddressManager * Announced :=
  if negb (multiaddr_is_global listen_addr) then (m, swarm)
  else
    match craft_external_address m listen_addr with
    | None => (m, swarm)
    | Some address =>
      match multiaddr_get_ip address with
      | None => (m, swarm)
      | Some ip_address =>
        let m := match ea_current_ip_address m with None => ea_with_ip m ip_address | Some _ => m end in
        if bool_decide (ea_current_ip_address m ≠ Some ip_address) then
          switch_to_new_ip ip_address (ea_with_states m (ea_address_states m ++ [EA_Listener address ip_address])) swarm
        else
          match list_find (λ s, ea_multiaddr s = address) (ea_address_states m) with
          | Some (i, EA_Candidate _ _ ip) => (ea_with_states m (<[i := EA_Listener address ip]> (ea_address_states m)), {[ address ]} ∪ swarm)
          | Some (i, EA_Confirmed _ _ ip) => (ea_with_states m (<[i := EA_Listener address ip]> (ea_address_states m)), swarm)
          | Some (i, EA_Listener _ _) => (m, swarm)
          | None => (ea_with_states m (ea_address_states m ++ [EA_Listener address ip_address]), {[ address ]} ∪ swarm)
          end
      end
    end.

Definition on_expired_listen_addr (listen_addr : Multiaddr) (m : ExternalAddressManager) : ExternalAddressManager :=
  if negb (multiaddr_is_global listen_addr) then m
  else
    match craft_external_address m listen_addr with
    | None => m
    | Some address => ea_with_states m (filter (λ s, ea_multiaddr s ≠ address) (ea_address_states m))
    end.

Definition on_established_incoming_connection (on_address : Multiaddr) (m : ExternalAddressManager) : ExternalAddressManager :=
  match multiaddr_get_port on_address with
  | None => m
  | Some port =>
    {| ea_address_states := ea_address_states m; ea_current_ip_address := ea_current_ip_address m; ea_peer_id := ea_peer_id m;
       ea_connection_stats := <[port := Z.min usize_max (default 0 (ea_connection_stats m !! port) + 1)]> (ea_connection_stats m);
       ea_bad_ports := ea_bad_ports m |}
  end.
End external.

(** ** Properties *)

Section external_facts.
Context `{HashOrder}.

(** An address of a public node: a global ip, a port with its transport, and the node's own id. *)
Definition own_address (me : bytes) (a : Multiaddr) : Prop :=
  multiaddr_is_global a = true ∧ ∃ ip, (∃ port, a = [Ip4 ip; Udp port; QuicV1; P2p me]) ∨ (∃ port path, a = [Ip4 ip; Tcp port; Ws path; P2p me]).

Lemma find_protocol_spec f addr p : find_protocol f addr = Some p → f p = true ∧ p ∈ addr.
Proof. intros ([i q] & Hf & ->)%fmap_Some. apply list_find_Some in Hf as (Hi & Hf & _). split; [done|]. by eapply list_elem_of_lookup_2. Qed.

Lemma global_ip_kept addr ip rest :
  multiaddr_is_global addr = true → Ip4 ip ∈ addr → Forall (λ p, is_ip4 p = false) rest → multiaddr_is_global (Ip4 ip :: rest) = true.
Proof.
  unfold multiaddr_is_global. intros Hg Hin Hrest. apply negb_true_iff in Hg. apply negb_true_iff. set (f := λ p, _) in *.
  assert (∀ l, existsb f l = false ↔ Forall (λ p, f p = false) l) as Hex.
  { induction l as [|p l IH]; simpl; [done|]. by rewrite orb_false_iff, IH, Forall_cons. }
  apply Hex. apply Hex in Hg. rewrite Forall_forall in Hg. constructor; [by apply Hg|]. eapply Forall_impl; [exact Hrest|]. by intros [].
Qed.

Lemma craft_own m addr a : multiaddr_is_global addr = true → craft_external_address m addr = Some a → own_address (ea_peer_id m) a.
Proof.
  intros Hg Hcraft. unfold craft_external_address in Hcraft.
  destruct (find_protocol is_ip4 addr) as [p|] eqn:Hip; [|done]. apply find_protocol_spec in Hip as [Hp Hin]. destruct p as [ip| | | | | | | |]; try done. simpl in Hcraft.
  assert (∀ rest, Forall (λ p, is_ip4 p = false) rest → multiaddr_is_global (Ip4 ip :: rest) = true) as Hglobal by (intros; by eapply global_ip_kept).
  destruct (find_protocol is_ws addr) as [w|] eqn:Hws.
  - apply find_protocol_spec in Hws as [Hw _]. destruct (find_protocol is_tcp addr) as [t|] eqn:Ht; [|done]. apply find_protocol_spec in Ht as [Ht _].
    destruct w; try done. destruct t; try done. injection Hcraft as <-. split; [apply Hglobal; by repeat constructor|]. exists ip. right. eauto.
  - destruct (existsb is_quic addr); [|done]. destruct (find_protocol is_udp addr) as [u|] eqn:Hu; [|done]. apply find_protocol_spec in Hu as [Hu _].
    destruct u; try done. injection Hcraft as <-. split; [apply Hglobal; by repeat constructor|]. exists ip. left. eauto.
Qed.

(** A state holds one of our addresses, with its ip and a count within [u8]. *)
Definition state_ok (me : bytes) (s : ExternalAddressState) : Prop :=
  own_address me (ea_multiaddr s) ∧ multiaddr_get_ip (ea_multiaddr s) = Some (ea_ip_address s) ∧ 0 ≤ ea_num_reports s ≤ 255.

(** What is confirmed or listened on. *)
Definition settled (s : ExternalAddressState) : Prop := ea_is_candidate s = false.

Definition n_candidates (states : list ExternalAddressState) : nat := length (filter (λ s, ea_is_candidate s = true) states).

Lemma candidate_addresses_length m : length (candidate_addresses m) = n_candidates (ea_address_states m).
Proof.
  unfold candidate_addresses, n_candidates. induction (ea_address_states m) as [|s l IH]; [done|]. rewrite filter_cons. destruct s; simpl; by rewrite <- IH.
Qed.

Lemma n_candidates_app l k : n_candidates (l ++ k) = (n_candidates l + n_candidates k)%nat.
Proof. unfold n_candidates. by rewrite filter_app, length_app. Qed.

Lemma n_candidates_insert l i s s' :
  l !! i = Some s → (ea_is_candidate s' = true → ea_is_candidate s = true) → (n_candidates (<[i := s']> l) ≤ n_candidates l)%nat.
Proof.
  intros Hi Hc. rewrite <- (take_drop_middle l i s Hi) at 2. rewrite (insert_take_drop l i s' (lookup_lt_Some _ _ _ Hi)).
  rewrite !n_candidates_app. apply Nat.add_le_mono_l. unfold n_candidates. rewrite !filter_cons.
  destruct (decide (ea_is_candidate s' = true)) as [E|]; [rewrite decide_True by auto; done|]. destruct (decide _); simpl; lia.
Qed.

Lemma n_candidates_filter (P : ExternalAddressState → Prop) `{∀ s, Decision (P s)} l : (n_candidates (filter P l) ≤ n_candidates l)%nat.
Proof.
  unfold n_candidates. induction l as [|s l IH]; [done|]. rewrite !(filter_cons _ s l). destruct (decide (P s)); [rewrite filter_cons|]; destruct (decide _); simpl; lia.
Qed.

Lemma n_candidates_switch new_ip l : (n_candidates (confirm_on_switch new_ip <$> filter (λ s, leaves_ip new_ip s = false) l) ≤ n_candidates l)%nat.
Proof.
  unfold n_candidates. induction l as [|s l IH]; [done|]. rewrite !filter_cons.
  destruct s as [a n ip|a n ip|a ip].
  - rewrite decide_True by done. rewrite fmap_cons, filter_cons. simpl. destruct (_ && _); simpl; lia.
  - destruct (decide (leaves_ip _ _ = false)); [rewrite fmap_cons, filter_cons|]; simpl; done.
  - destruct (decide (leaves_ip _ _ = false)); [rewrite fmap_cons, filter_cons|]; simpl; done.
Qed.

Definition ext_inv (m : ExternalAddressManager) (swarm : Announced) : Prop :=
  Forall (state_ok (ea_peer_id m)) (ea_address_states m) ∧ (length (candidate_addresses m) ≤ MAX_CANDIDATES)%nat ∧
  (∀ s, s ∈ ea_address_states m → settled s → ea_multiaddr s ∈ swarm) ∧ (∀ a, a ∈ swarm → own_address (ea_peer_id m) a) ∧
  (∀ a ip, EA_Listener a ip ∈ ea_address_states m → ea_current_ip_address m = Some ip).

(** All that is settled has the current ip. *)
Definition one_ip (m : ExternalAddressManager) : Prop :=
  ∃ ip, ea_current_ip_address m = Some ip ∧ ∀ s, s ∈ ea_address_states m → settled s → ea_ip_address s = ip.

Lemma elem_of_removed (swarm : Announced) l a :
  a ∈ foldl (λ sw s, sw ∖ {[ ea_multiaddr s ]}) swarm l ↔ a ∈ swarm ∧ ∀ s, s ∈ l → ea_multiaddr s ≠ a.
Proof.
  revert swarm. induction l as [|s l IH]; intros swarm; simpl; [set_solver|]. rewrite IH. set_solver.
Qed.

Lemma elem_of_added (swarm : Announced) l a : a ∈ foldl (λ sw b, {[ b ]} ∪ sw) swarm l ↔ a ∈ swarm ∨ a ∈ l.
Proof. revert swarm. induction l as [|b l IH]; intros swarm; simpl; [set_solver|]. rewrite IH. set_solver. Qed.

Lemma confirm_keeps new_ip s : ea_multiaddr (confirm_on_switch new_ip s) = ea_multiaddr s ∧ ea_ip_address (confirm_on_switch new_ip s) = ea_ip_address s ∧
  ea_num_reports (confirm_on_switch new_ip s) = ea_num_reports s.
Proof. destruct s as [a n ip|a n ip|a ip]; simpl; [by destruct (_ && _)|done..]. Qed.

(** After a switch every settled address has the new ip; what had it stays or becomes announced. *)
Lemma switch_ok new_ip m swarm :
  let '(m', swarm') := switch_to_new_ip new_ip m swarm in
  Forall (state_ok (ea_peer_id m)) (ea_address_states m) → (length (candidate_addresses m) ≤ MAX_CANDIDATES)%nat →
  (∀ s, s ∈ ea_address_states m → settled s → ea_multiaddr s ∈ swarm ∨ s = EA_Listener (ea_multiaddr s) new_ip) →
  (∀ a, a ∈ swarm → own_address (ea_peer_id m) a) → ext_inv m' swarm' ∧ one_ip m' ∧ ea_current_ip_address m' = Some new_ip.
Proof.
  unfold switch_to_new_ip. cbv zeta. intros Hok Hlen Hann Hown. set (states := ea_address_states m) in *.
  change (ea_address_states (ea_with_ip m new_ip)) with states.
  assert (∀ s, s ∈ confirm_on_switch new_ip <$> filter (λ s, leaves_ip new_ip s = false) states → settled s → ea_ip_address s = new_ip) as Hip.
  { intros s (s0 & -> & [Hl Hs0]%list_elem_of_filter)%list_elem_of_fmap Hset. destruct (confirm_keeps new_ip s0) as (_ & -> & _).
    unfold leaves_ip in Hl. apply andb_false_iff in Hl as [Hl|Hl]; [|by apply bool_decide_eq_false, dec_stable in Hl].
    destruct s0 as [a n ip|a n ip|a ip]; try done. unfold settled in Hset. simpl in Hset. case_bool_decide as E; [by subst|done]. }
  split_and!; [|exists new_ip; by split|done]. split_and!; simpl.
  - apply Forall_fmap, Forall_forall. intros s [_ Hs]%list_elem_of_filter. rewrite Forall_forall in Hok. destruct (Hok _ Hs) as (H1 & H2 & H3). unfold state_ok, compose.
    destruct (confirm_keeps new_ip s) as (-> & -> & ->). done.
  - rewrite candidate_addresses_length in *. etransitivity; [apply n_candidates_switch|done].
  - intros s (s0 & -> & [Hl Hs0]%list_elem_of_filter)%list_elem_of_fmap Hset. destruct (confirm_keeps new_ip s0) as (-> & Eip & _).
    assert (ea_ip_address s0 = new_ip) as Hs0ip by (rewrite <- Eip; apply Hip; [apply list_elem_of_fmap; exists s0; split; [done|by apply list_elem_of_filter]|done]).
    apply elem_of_added. destruct (announced_on_switch new_ip s0) as [a|] eqn:Ea.
    + right. apply list_elem_of_omap. exists s0. split; [by apply list_elem_of_filter|]. rewrite Ea. f_equal. destruct s0; simpl in Ea; try done; by case_match; simplify_eq.
    + left. apply elem_of_removed. split.
      * destruct s0 as [a n ip|a n ip|a ip]; simpl in Ea, Hset, Hs0ip; [|destruct (Hann _ Hs0 eq_refl) as [|[=]]; done|rewrite bool_decide_eq_true_2 in Ea; done].
        unfold settled in Hset. destruct (bool_decide (ip = new_ip) && _); [done|done].
      * intros s [Hls Hs]%list_elem_of_filter E. unfold leaves_ip in Hls. apply andb_true_iff in Hls as [_ Hne%bool_decide_eq_true].
        rewrite Forall_forall in Hok. destruct (Hok _ Hs) as (_ & H1 & _). destruct (Hok _ Hs0) as (_ & H2 & _). congruence.
  - intros a [[Ha _]%elem_of_removed|(s0 & [_ Hs0]%list_elem_of_filter & Ea)%list_elem_of_omap]%elem_of_added; [by apply Hown|].
    rewrite Forall_forall in Hok. destruct (Hok _ Hs0) as [Ho _]. destruct s0 as [b n ip|b n ip|b ip]; simpl in Ea, Ho; try done; case_match; by simplify_eq.
  - intros a ip Hin. f_equal. symmetry. by apply (Hip (EA_Listener a ip)).
Qed.
Lemma elem_of_insert_inv {A} (l : list A) i x y : x ∈ <[i := y]> l → x = y ∨ x ∈ l.
Proof.
  intros (j & Hj)%list_elem_of_lookup. apply list_lookup_insert_Some in Hj as [(_ & -> & _)|[_ Hj]]; [by left|]. right. by eapply list_elem_of_lookup_2.
Qed.

(** A state replaced by one of the same address. *)
Lemma replace_ok m swarm swarm' i s s' :
  ext_inv m swarm → ea_address_states m !! i = Some s → ea_multiaddr s' = ea_multiaddr s → ea_ip_address s' = ea_ip_address s →
  0 ≤ ea_num_reports s' ≤ 255 → (ea_is_candidate s' = true → ea_is_candidate s = true) → (settled s' → ea_multiaddr s' ∈ swarm') →
  swarm' ⊆ {[ ea_multiaddr s ]} ∪ swarm → swarm ⊆ swarm' → (∀ a ip, s' = EA_Listener a ip → ea_current_ip_address m = Some ip) →
  ext_inv (ea_with_states m (<[i := s']> (ea_address_states m))) swarm'.
Proof.
  intros (Hok & Hlen & Hann & Hown & Hlis) Hi Ea Eip Hn Hc Hset Hsub Hsup Hl.
  assert (s ∈ ea_address_states m) as Hs by (by eapply list_elem_of_lookup_2). pose proof Hok as Hok'. rewrite Forall_forall in Hok'. destruct (Hok' _ Hs) as (Ho & Hip & _).
  split_and!; simpl.
  - apply Forall_insert; [done|]. unfold state_ok. by rewrite Ea, Eip.
  - rewrite candidate_addresses_length in *. simpl. etransitivity; [by eapply n_candidates_insert|done].
  - intros t [->|Ht]%elem_of_insert_inv Hts; [by apply Hset|]. by apply Hsup, Hann.
  - intros a Ha. apply Hsub in Ha. apply elem_of_union in Ha as [->%elem_of_singleton|Ha]; [done|by apply Hown].
  - intros a ip [E|Ht]%elem_of_insert_inv; [by apply (Hl a)|by eapply Hlis].
Qed.

Lemma push_ok m swarm swarm' s :
  ext_inv m swarm → state_ok (ea_peer_id m) s → (ea_is_candidate s = true → (length (candidate_addresses m) < MAX_CANDIDATES)%nat) →
  (settled s → ea_multiaddr s ∈ swarm') → swarm' ⊆ {[ ea_multiaddr s ]} ∪ swarm → swarm ⊆ swarm' →
  (∀ a ip, s = EA_Listener a ip → ea_current_ip_address m = Some ip) →
  ext_inv (ea_with_states m (ea_address_states m ++ [s])) swarm'.
Proof.
  intros (Hok & Hlen & Hann & Hown & Hlis) Hs Hc Hset Hsub Hsup Hl. pose proof Hs as (Ho & _ & _). split_and!; simpl.
  - apply Forall_app. by split; [|apply Forall_singleton].
  - rewrite candidate_addresses_length in *. simpl. rewrite n_candidates_app. unfold n_candidates at 2. rewrite filter_cons.
    destruct (decide (ea_is_candidate s = true)) as [E|]; simpl; [specialize (Hc E)|]; lia.
  - intros t [Ht| ->%list_elem_of_singleton]%elem_of_app Hts; [by apply Hsup, Hann|by apply Hset].
  - intros a Ha. apply Hsub in Ha. apply elem_of_union in Ha as [->%elem_of_singleton|Ha]; [done|by apply Hown].
  - intros a ip [Ht|E%list_elem_of_singleton]%elem_of_app; [by eapply Hlis|by apply (Hl a)].
Qed.

Lemma settled_insert m i s s' :
  one_ip m → ea_address_states m !! i = Some s → ea_ip_address s' = ea_ip_address s → (settled s' → ∀ ip, ea_current_ip_address m = Some ip → ea_ip_address s = ip) →
  one_ip (ea_with_states m (<[i := s']> (ea_address_states m))).
Proof.
  intros (ip & Hip & Hall) Hi E Hs. exists ip. split; [done|]. intros t [->|Ht]%elem_of_insert_inv Hts; [|by apply Hall]. rewrite E. by apply Hs.
Qed.

Lemma found_state m address i s : list_find (λ s, ea_multiaddr s = address) (ea_address_states m) = Some (i, s) → ea_address_states m !! i = Some s ∧ ea_multiaddr s = address.
Proof. intros (Hi & Ha & _)%list_find_Some. done. Qed.

Lemma increment_keeps s : ea_multiaddr (ea_increment_reports s) = ea_multiaddr s ∧ ea_ip_address (ea_increment_reports s) = ea_ip_address s ∧
  ea_is_candidate (ea_increment_reports s) = ea_is_candidate s ∧ (0 ≤ ea_num_reports s ≤ 255 → 0 ≤ ea_num_reports (ea_increment_reports s) ≤ 255).
Proof. destruct s; simpl; split_and!; try done; lia. Qed.

Lemma own_ip me a : own_address me a → is_Some (multiaddr_get_ip a).
Proof. intros (_ & ip & [(port & ->)|(port & path & ->)]); by eexists. Qed.

(** What both invariants need of an operation. *)
Definition keeps (m : ExternalAddressManager) (swarm : Announced) (r : ExternalAddressManager * Announced) : Prop :=
  ext_inv m swarm → ext_inv r.1 r.2 ∧ (one_ip m → one_ip r.1) ∧ ea_peer_id r.1 = ea_peer_id m.

Lemma add_or_switch_keeps address m swarm : own_address (ea_peer_id m) address → keeps m swarm (add_candidate_or_switch address m swarm).
Proof.
  intros Ho Hinv. unfold add_candidate_or_switch. destruct (ip_to_switch_to m) as [new_ip|].
  - pose proof (switch_ok new_ip m swarm) as Hsw. unfold keeps. destruct (switch_to_new_ip new_ip m swarm) as [m' swarm'] eqn:E. simpl.
    destruct Hinv as (Hok & Hlen & Hann & Hown & Hlis). destruct Hsw as (H1 & H2 & _); [done|done|left; by apply Hann|done|].
    split_and!; [done|done|]. unfold switch_to_new_ip in E. by injection E as <- _.
  - destruct (Nat.leb_spec MAX_CANDIDATES (length (candidate_addresses m))) as [|Hlt]; [done|]. destruct (existsb _ _); [done|].
    destruct (multiaddr_get_ip address) as [ip|] eqn:Hip; [|done]. split_and!; [|by intros (ip0 & H1 & H2); exists ip0; split; [|intros s [Hs| ->%list_elem_of_singleton]%elem_of_app; [by apply H2|done]]|done].
    simpl. apply (push_ok m swarm swarm); [done|by split_and!|done|done|set_solver|done|done].
Qed.

Lemma add_candidate_keeps address m swarm : keeps m swarm (add_external_address_candidate address m swarm).
Proof.
  intros Hinv. unfold add_external_address_candidate. destruct (multiaddr_is_global address) eqn:Hg; [|done]. simpl.
  destruct (craft_external_address m address) as [a|] eqn:Hcraft; [|done]. pose proof (craft_own m address a Hg Hcraft) as Ho. clear address Hg Hcraft.
  destruct (multiaddr_get_port a); [|done]. case_bool_decide; [done|].
  destruct (list_find _ _) as [[i s]|] eqn:Hfind; [|by apply add_or_switch_keeps]. apply found_state in Hfind as [Hi Ha].
  destruct (increment_keeps s) as (Ea & Eip & Ec & En). set (s' := ea_increment_reports s) in *.
  assert (s ∈ ea_address_states m) as Hs by (by eapply list_elem_of_lookup_2).
  assert (state_ok (ea_peer_id m) s) as Hsok by (destruct Hinv as [Hok _]; rewrite Forall_forall in Hok; by apply Hok). pose proof Hsok as (_ & Hsip & Hsn).
  set (m' := ea_with_states m (<[i := s']> (ea_address_states m))).
  assert (ext_inv m' swarm) as Hinv'.
  { apply (replace_ok m swarm swarm i s); try done; [by apply En|by rewrite Ec| |set_solver|].
    - unfold settled. rewrite Ec, Ea. destruct Hinv as (_ & _ & Hann & _). by apply Hann.
    - intros b ip E. destruct Hinv as (_ & _ & _ & _ & Hlis). destruct s; try done. apply (Hlis b). by simplify_eq/=. }
  assert (one_ip m → one_ip m') as Hone.
  { intros H1. apply (settled_insert m i s); [done..|]. unfold settled. rewrite Ec. intros Hc ip Hip. destruct H1 as (ip0 & E0 & Hall). simplify_eq. by apply Hall. }
  destruct (ea_is_candidate s') eqn:Hc; [|done].
  assert (keeps m swarm (add_candidate_or_switch a m' swarm)) as Hrest.
  { intros _. destruct (add_or_switch_keeps a m' swarm Ho Hinv') as (H1 & H2 & H3). auto. }
  destruct (Z.leb_spec MAX_REPORTS_BEFORE_CONFIRMATION (ea_num_reports s')); [|by apply Hrest].
  destruct (match ea_current_ip_address m with Some c => bool_decide (c = ea_ip_address s') | None => true end) eqn:Econf; [|by apply Hrest].
  assert (ea_address_states m' !! i = Some s') as Hi' by (simpl; apply list_lookup_insert_eq; by eapply lookup_lt_Some). split_and!; simpl; [|intros Hm1|done].
  - apply (replace_ok m' swarm _ i s'); simpl; try done; [congruence|by apply En|set_solver|set_solver|set_solver].
  - apply (settled_insert m' i s'); [by apply Hone|done|done|]. intros _ ip Hip. change (ea_current_ip_address m = Some ip) in Hip. rewrite Hip in Econf. by apply bool_decide_eq_true in Econf.
Qed.
Lemma new_listen_keeps address m swarm : keeps m swarm (on_new_listen_addr address m swarm).
Proof.
  intros Hinv. unfold on_new_listen_addr. destruct (multiaddr_is_global address) eqn:Hg; [|done]. simpl.
  destruct (craft_external_address m address) as [a|] eqn:Hcraft; [|done]. pose proof (craft_own m address a Hg Hcraft) as Ho. clear address Hg Hcraft.
  destruct (multiaddr_get_ip a) as [ip|] eqn:Hip; [|done].
  set (m1 := match ea_current_ip_address m with Some _ => m | None => ea_with_ip m ip end).
  assert (ea_address_states m1 = ea_address_states m ∧ ea_peer_id m1 = ea_peer_id m) as [Es Ep] by (unfold m1; by destruct (ea_current_ip_address m)).
  assert (ext_inv m1 swarm) as Hinv1.
  { unfold m1. destruct (ea_current_ip_address m) as [c|] eqn:Hc; [done|]. destruct Hinv as (Hok & Hlen & Hann & Hown & Hlis). split_and!; try done.
    intros b ip0 Hb. specialize (Hlis b ip0 Hb). congruence. }
  assert (one_ip m → m1 = m) as Hm1 by (intros (ip0 & E & _); unfold m1; by rewrite E).
  case_bool_decide as Hdiff.
  - pose proof (switch_ok ip (ea_with_states m1 (ea_address_states m1 ++ [EA_Listener a ip])) swarm) as Hsw.
    destruct (switch_to_new_ip _ _ _) as [m' swarm'] eqn:E. simpl. destruct Hinv1 as (Hok & Hlen & Hann & Hown & Hlis). destruct Hsw as (H1 & H2 & _); simpl.
    + apply Forall_app. split; [done|]. apply Forall_singleton. rewrite Ep. split_and!; simpl; [done|done|lia|lia].
    + rewrite candidate_addresses_length in *. simpl. rewrite n_candidates_app. unfold n_candidates at 2. simpl. lia.
    + intros s [Hs| ->%list_elem_of_singleton]%elem_of_app Hset; [left; by apply Hann|by right].
    + done.
    + split_and!; [done|done|]. unfold switch_to_new_ip in E. injection E as <- _. done.
  - rewrite <- Ep in Ho |- *.
    assert (keeps m1 swarm (match list_find (λ s, ea_multiaddr s = a) (ea_address_states m1) with
      | Some (i, EA_Candidate _ _ ip) => (ea_with_states m1 (<[i := EA_Listener a ip]> (ea_address_states m1)), {[ a ]} ∪ swarm)
      | Some (i, EA_Confirmed _ _ ip) => (ea_with_states m1 (<[i := EA_Listener a ip]> (ea_address_states m1)), swarm)
      | Some (i, EA_Listener _ _) => (m1, swarm)
      | None => (ea_with_states m1 (ea_address_states m1 ++ [EA_Listener a ip]), {[ a ]} ∪ swarm) end)) as Hkeep.
    2: { destruct (Hkeep Hinv1) as (H1 & H2 & H3). split_and!; [done| |done]. intros Hone. apply H2. by rewrite (Hm1 Hone). }
    intros _. clear Hm1 Hinv Es Ep. destruct (list_find _ _) as [[i s]|] eqn:Hfind.
    + apply found_state in Hfind as [Hi Ha]. assert (s ∈ ea_address_states m1) as Hs by (by eapply list_elem_of_lookup_2). pose proof Hinv1 as (Hok & _ & Hann & _ & _).
      rewrite Forall_forall in Hok. destruct (Hok _ Hs) as (_ & Hsip & _). rewrite Ha, Hip in Hsip. injection Hsip as Hsip.
      assert (one_ip m1 → one_ip (ea_with_states m1 (<[i := EA_Listener a ip]> (ea_address_states m1)))) as Hone.
      { intros H1. apply (settled_insert m1 i s); [done|done|by simpl|]. intros _ ip0 E. rewrite <- Hsip. congruence. }
      destruct s as [b n ip0|b n ip0|b ip0]; simpl in Ha, Hsip; subst; [| |done]; (split_and!; [|done|done]); simpl.
      * apply (replace_ok m1 swarm _ i (EA_Candidate a n ip0)); simpl; try done; try lia; set_solver.
      * apply (replace_ok m1 swarm _ i (EA_Confirmed a n ip0)); simpl; try done; try lia; [|set_solver|by intros ? ? [= <- <-]]. intros _. by apply (Hann _ Hs).
    + split_and!; [| |done]; simpl.
      * apply (push_ok m1 swarm); simpl; try done; try set_solver.
      * intros (ip0 & E & Hall). exists ip0. split; [done|]. intros s [Hs| ->%list_elem_of_singleton]%elem_of_app Hset; [by apply Hall|]. simpl. congruence.
Qed.

Lemma expired_keeps address m swarm : keeps m swarm (on_expired_listen_addr address m, swarm).
Proof.
  intros Hinv. unfold on_expired_listen_addr. destruct (multiaddr_is_global address); [|done]. destruct (craft_external_address m address) as [a|]; [|done]. simpl.
  destruct Hinv as (Hok & Hlen & Hann & Hown & Hlis). set (states := filter _ _). assert (∀ s, s ∈ states → s ∈ ea_address_states m) as Hsub.
  { intros s Hs. by apply list_elem_of_filter in Hs as [_ Hs]. }
  split_and!; [split_and!; simpl| |done].
  - apply Forall_forall. intros s Hs%Hsub. rewrite Forall_forall in Hok. by apply Hok.
  - rewrite candidate_addresses_length in *. etransitivity; [|exact Hlen]. simpl. unfold states. apply n_candidates_filter.
  - intros s Hs%Hsub. by apply Hann.
  - done.
  - intros b ip Hb%Hsub. by eapply Hlis.
  - intros (ip & E & Hall). exists ip. split; [done|]. intros s Hs%Hsub. by apply Hall.
Qed.

(** ** Runs *)

Inductive ExtEvent := EE_Reported (a : Multiaddr) | EE_Listening (a : Multiaddr) | EE_Expired (a : Multiaddr) | EE_Incoming (a : Multiaddr).

Definition ext_handle (e : ExtEvent) (x : ExternalAddressManager * Announced) : ExternalAddressManager * Announced :=
  match e with
  | EE_Reported a => add_external_address_candidate a x.1 x.2
  | EE_Listening a => on_new_listen_addr a x.1 x.2
  | EE_Expired a => (on_expired_listen_addr a x.1, x.2)
  | EE_Incoming a => (on_established_incoming_connection a x.1, x.2)
  end.

Definition ext_run (events : list ExtEvent) (x : ExternalAddressManager * Announced) : ExternalAddressManager * Announced := foldl (λ x e, ext_handle e x) x events.

Lemma ext_handle_keeps e x : keeps x.1 x.2 (ext_handle e x).
Proof.
  destruct e as [a|a|a|a]; simpl; [apply add_candidate_keeps|apply new_listen_keeps|apply expired_keeps|].
  intros Hinv. unfold on_established_incoming_connection. by destruct (multiaddr_get_port a).
Qed.

Lemma ext_run_keeps events x : keeps x.1 x.2 (ext_run events x).
Proof.
  revert x. induction events as [|e events IH]; intros x; simpl; [done|]. intros Hinv. destruct (ext_handle_keeps e x Hinv) as (H1 & H2 & H3).
  destruct (IH _ H1) as (H4 & H5 & H6). split_and!; [done|auto|congruence].
Qed.

(** The external addresses of a node. Whatever is reported, listened on or expires, the node
    announces only addresses of its own with a global ip and a proper transport, among them all that are
    confirmed or listened on; there are never more than fifty candidates, counts stay within a byte, and
    it listens on one ip, the current one. If all confirmed addresses have the current ip, that remains
    so. *)
Theorem external_addresses_inv me events events' :
  let x := ext_run events (external_address_manager_new me, ∅) in
  let m := x.1 in
  (∀ a, a ∈ x.2 → own_address me a) ∧ (∀ s, s ∈ ea_address_states m → settled s → ea_multiaddr s ∈ x.2) ∧
  (length (candidate_addresses m) ≤ MAX_CANDIDATES)%nat ∧ (∀ s, s ∈ ea_address_states m → 0 ≤ ea_num_reports s ≤ 255) ∧
  (∀ a ip, EA_Listener a ip ∈ ea_address_states m → ea_current_ip_address m = Some ip) ∧
  (one_ip m → one_ip (ext_run events' x).1).
Proof.
  intros x m. assert (ext_inv (external_address_manager_new me) ∅) as H0 by (split_and!; simpl; try done; try set_solver; unfold MAX_CANDIDATES; lia).
  destruct (ext_run_keeps events (external_address_manager_new me, ∅) H0) as (Hinv & _ & Hme).
  pose proof Hinv as (Hok & Hlen & Hann & Hown & Hlis). rewrite Hme in Hown. split_and!; [exact Hown|exact Hann|exact Hlen| |exact Hlis|].
  - intros s Hs. rewrite Forall_forall in Hok. by destruct (Hok s Hs) as (_ & _ & ?).
  - destruct (ext_run_keeps events' x Hinv) as (_ & H1 & _). done.
Qed.

(** Reports of an address, as a confirmation needs. *)
Definition reported_often (a : Multiaddr) : list ExtEvent := replicate 4 (EE_Reported a).

(** Without a global listen address there is no current ip, and addresses with different ips are
    announced together; a listen address that expires is announced further. *)
Theorem external_ips_mixed :
  let me := [1] in
  let a := [Ip4 134744072; Udp 1; QuicV1] in
  let b := [Ip4 151587081; Udp 1; QuicV1] in
  let mixed := (ext_run (reported_often a ++ reported_often b) (external_address_manager_new me, ∅)).2 in
  (a ++ [P2p me] ∈ mixed ∧ b ++ [P2p me] ∈ mixed) ∧
  a ++ [P2p me] ∈ (ext_run [EE_Listening a; EE_Expired a] (external_address_manager_new me, ∅)).2.
Proof.
  intros me a b mixed. split_and!; apply (bool_decide_eq_true_1 _); vm_compute; reflexivity.
Qed.
End external_facts.

(** A node that listens on an address and is told of another one often. *)
Lemma external_addresses_inv_witness :
  let events := EE_Listening [Ip4 134744072; Udp 1; QuicV1] :: @reported_often [Ip4 134744072; Udp 2; QuicV1] in
  let x := @ext_run hash_order_rev events (external_address_manager_new [1], ∅) in
  length (ea_address_states x.1) = 2%nat ∧ ∀ a, a ∈ x.2 → own_address [1] a.
Proof.
  intros events x. split; [vm_compute; reflexivity|]. exact (proj1 (@external_addresses_inv hash_order_rev [1] events [])).
Defined.
