(* ===== verification/Connections.v ===== *)
(** * The swarm driver's connections

    Models what [SwarmDriver] keeps of its connections: src/ant-node/src/networking/driver/event/
    identify.rs (whom the routing table is offered), the connection, relay and dial-error events of
    event/swarm.rs with the pruning of connections, the closest-peers queries of event/kad.rs, and the
    dial queue of driver/mod.rs. libp2p's routing table is an argument of arbitrary answers, what is
    asked of libp2p and told to the node is collected as calls, and each event has one reading of the
    clock. Metrics and logs are left out, and the events that only touch the bootstrap, the external
    addresses or upnp. *)

From stdpp Require Import base gmap countable strings list.
From Stdlib Require Import ZArith Lia.
From S2P Require Import Prelude Text Protocol RecordCache RecordStore ReplicationFetcher MerkleTree Payments NetworkWideReplication Driver.
From S2P Require Import VersionGate Multiaddr RelayManager.

Definition DIAL_BACK_DELAY : Z := from_secs 180.
Definition DIAL_BACK_DELAY_SECS : Z := 180.
Definition CONNECTION_PRUNE_AFTER : Z := from_secs 120.
Definition CONNECTION_PRUNE_INTERVAL : Z := from_secs 30.
Definition MAX_ESTABLISHED_IDS : nat := 50.

(** ** Data *)

(** libp2p's routing table: the bucket a peer falls in, if it is not ourself, with its number of
    entries and the peer's addresses if it is one of them; whether removing a peer found it. *)
Record KadTable := {
  kt_kbucket : bytes → option (nat * option (list Multiaddr));
  kt_remove_peer : bytes → bool;
}.

Definition kt_contains (t : KadTable) (peer : bytes) : bool :=
  match kt_kbucket t peer with Some (_, Some _) => true | _ => false end.

(** libp2p's identify [Info]. *)
Record IdentifyInfo := {
  ii_protocol_version : bytes;
  ii_agent_version : bytes;
  ii_listen_addrs : list Multiaddr;
  ii_protocols : list bytes;
}.

(** Whom a closest-peers query is for: the node's own discovery, or a caller. *)
Inductive PendingGetClosestType := ForNetworkDiscovery | ForFunctionCall (sender : Z).

Record Connections := {
  cn_local : bool;
  cn_blocked : gset bytes;
  cn_live : gmap Z (bytes * Multiaddr * Z);
  cn_dialed : CircularVec bytes;
  cn_dial_queue : gmap bytes (list Multiaddr * Z * nat);
  cn_relay : option RelayManager;
  cn_relay_clients : gset bytes;
  cn_latest : gmap Z (Multiaddr * Z);
  cn_last_pruning : Z;
  cn_pending_closest : gmap Z (PendingGetClosestType * list (bytes * list Multiaddr));
}.

(** Calls into libp2p and events to the node. *)
Inductive ConnCall :=
  | CDisconnect (peer : bytes)
  | CBlock (peer : bytes)
  | CAddAddress (peer : bytes) (addr : Multiaddr)
  | CRemoveAddress (peer : bytes) (addr : Multiaddr)
  | CDoNotDisturb (peer : bytes) (secs : Z)
  | CDial (peer : bytes) (addrs : list Multiaddr)
  | CCloseConnection (id : Z)
  | CRelay (c : RelayCall)
  | EUnsupportedProtocol (ours theirs : bytes)
  | EVersionChecked (peer : bytes) (peer_type : PeerType) (result : VersionCheckResult)
  | EVersionRejected (peer : bytes) (peer_type : PeerType) (result : VersionCheckResult) (min_version : bytes)
  | EPeerRemoved (peer : bytes)
  | ENodeIssue (peer : bytes) (issue : NodeIssue)
  | EDiscovered (peers : list (bytes * list Multiaddr))
  | EReply (sender : Z) (peers : list (bytes * list Multiaddr)).

(** Updates of one field. *)
Definition cn_with_blocked (c : Connections) (blocked : gset bytes) : Connections :=
  {| cn_local := cn_local c; cn_blocked := blocked; cn_live := cn_live c; cn_dialed := cn_dialed c;
     cn_dial_queue := cn_dial_queue c; cn_relay := cn_relay c; cn_relay_clients := cn_relay_clients c;
     cn_latest := cn_latest c; cn_last_pruning := cn_last_pruning c; cn_pending_closest := cn_pending_closest c |}.

Definition cn_with_live (c : Connections) (live : gmap Z (bytes * Multiaddr * Z)) : Connections :=
  {| cn_local := cn_local c; cn_blocked := cn_blocked c; cn_live := live; cn_dialed := cn_dialed c;
     cn_dial_queue := cn_dial_queue c; cn_relay := cn_relay c; cn_relay_clients := cn_relay_clients c;
     cn_latest := cn_latest c; cn_last_pruning := cn_last_pruning c; cn_pending_closest := cn_pending_closest c |}.

Definition cn_with_dialed (c : Connections) (dialed : CircularVec bytes) : Connections :=
  {| cn_local := cn_local c; cn_blocked := cn_blocked c; cn_live := cn_live c; cn_dialed := dialed;
     cn_dial_queue := cn_dial_queue c; cn_relay := cn_relay c; cn_relay_clients := cn_relay_clients c;
     cn_latest := cn_latest c; cn_last_pruning := cn_last_pruning c; cn_pending_closest := cn_pending_closest c |}.

Definition cn_with_queue (c : Connections) (queue : gmap bytes (list Multiaddr * Z * nat)) : Connections :=
  {| cn_local := cn_local c; cn_blocked := cn_blocked c; cn_live := cn_live c; cn_dialed := cn_dialed c;
     cn_dial_queue := queue; cn_relay := cn_relay c; cn_relay_clients := cn_relay_clients c;
     cn_latest := cn_latest c; cn_last_pruning := cn_last_pruning c; cn_pending_closest := cn_pending_closest c |}.

Definition cn_with_relay (c : Connections) (relay : option RelayManager) (clients : gset bytes) : Connections :=
  {| cn_local := cn_local c; cn_blocked := cn_blocked c; cn_live := cn_live c; cn_dialed := cn_dialed c;
     cn_dial_queue := cn_dial_queue c; cn_relay := relay; cn_relay_clients := clients;
     cn_latest := cn_latest c; cn_last_pruning := cn_last_pruning c; cn_pending_closest := cn_pending_closest c |}.

Definition cn_with_latest (c : Connections) (latest : gmap Z (Multiaddr * Z)) : Connections :=
  {| cn_local := cn_local c; cn_blocked := cn_blocked c; cn_live := cn_live c; cn_dialed := cn_dialed c;
     cn_dial_queue := cn_dial_queue c; cn_relay := cn_relay c; cn_relay_clients := cn_relay_clients c;
     cn_latest := latest; cn_last_pruning := cn_last_pruning c; cn_pending_closest := cn_pending_closest c |}.

Definition cn_with_pruning (c : Connections) (now : Z) : Connections :=
  {| cn_local := cn_local c; cn_blocked := cn_blocked c; cn_live := cn_live c; cn_dialed := cn_dialed c;
     cn_dial_queue := cn_dial_queue c; cn_relay := cn_relay c; cn_relay_clients := cn_relay_clients c;
     cn_latest := cn_latest c; cn_last_pruning := now; cn_pending_closest := cn_pending_closest c |}.

Definition cn_with_closest (c : Connections) (pending : gmap Z (PendingGetClosestType * list (bytes * list Multiaddr)))
    : Connections :=
  {| cn_local := cn_local c; cn_blocked := cn_blocked c; cn_live := cn_live c; cn_dialed := cn_dialed c;
     cn_dial_queue := cn_dial_queue c; cn_relay := cn_relay c; cn_relay_clients := cn_relay_clients c;
     cn_latest := cn_latest c; cn_last_pruning := cn_last_pruning c; cn_pending_closest := pending |}.

Section connections.
Context `{HashOrder}.

(** ** Identify: identify.rs *)

Definition does_the_peer_support_dnd (info : IdentifyInfo) : bool :=
  existsb (contains_text (text "autonomi/dnd")) (ii_protocols info).

(** Addresses of the table that change; the sets are visited in some order. *)
Definition update_pre_existing_peer (t : KadTable) (peer_id : bytes) (new_addrs : list Multiaddr) (is_relayed_peer : bool)
    : list ConnCall :=
  match kt_kbucket t peer_id with
  | Some (_, Some addrs) =>
    let new_addrs : gset Multiaddr := list_to_set new_addrs in
    let existing_addrs : gset Multiaddr := list_to_set (multiaddr_strip_p2p <$> addrs) in
    (if is_relayed_peer then CRemoveAddress peer_id <$> hs_iter (existing_addrs ∖ new_addrs) else []) ++
    (CAddAddress peer_id <$> hs_iter (new_addrs ∖ existing_addrs))
  | _ => []
  end.

(** A queued peer that identifies itself again. *)
Definition requeue (now : Z) (addrs : list Multiaddr) (is_relayed_peer support_dnd : bool) (entry : list Multiaddr * Z * nat)
    : list Multiaddr * Z * nat * bool :=
  let '(old_addrs, _, resets) := entry in
  let resets := S resets in
  let send_dnd := (3 <=? resets)%nat in
  let time := if send_dnd && negb support_dnd then now else now + DIAL_BACK_DELAY in
  let merged := foldl (λ old addr, if bool_decide (addr ∈ old) then old else old ++ [addr]) old_addrs addrs in
  let merged := if is_relayed_peer then filter (λ a, multiaddr_is_relayed a = true) merged else merged in
  (merged, time, resets, send_dnd).

(** The addresses a peer may be reached at; none if it is not relayed and its connection has no
    usable address. *)
Definition identified_addrs (info : IdentifyInfo) (connection_addr : Multiaddr) : option (list Multiaddr) :=
  if is_a_relayed_peer (ii_listen_addrs info) then
    Some (foldl (λ acc a, if bool_decide (a ∈ acc) then acc else acc ++ [a]) []
            (omap (λ a, craft_relay_address a None) (ii_listen_addrs info)))
  else
    match craft_valid_multiaddr_without_p2p connection_addr with Some addr => Some [addr] | None => None end.

(** From the checks of the peer's version on. *)
Definition admit_peer (now : Z) (t : KadTable) (is_bootstrap_peer : bytes → bool) (peer_id : bytes) (info : IdentifyInfo)
    (connection_addr : Multiaddr) (c : Connections) : Connections * list ConnCall :=
  let has_dialed := circular_contains peer_id (cn_dialed c) in
  let is_relayed_peer := is_a_relayed_peer (ii_listen_addrs info) in
  match identified_addrs info connection_addr with
  | None => (c, [])
  | Some addrs =>
    if contains_text (text "reachability-check-peer") (ii_agent_version info) then
      (cn_with_queue c (<[peer_id := (addrs, now + DIAL_BACK_DELAY, 1%nat)]> (cn_dial_queue c)), [])
    else if contains_text (text "client") (ii_agent_version info) then (c, [])
    else
      let c := if negb is_relayed_peer && negb (is_bootstrap_peer peer_id) then
                 cn_with_relay c (add_potential_candidates peer_id addrs (ii_protocols info) <$> cn_relay c) (cn_relay_clients c)
               else c in
      match kt_kbucket t peer_id with
      | None => (c, [])
      | Some (num_peers, entry) =>
        let kbucket_full := (K_VALUE <=? num_peers)%nat in
        if kt_contains t peer_id then (c, update_pre_existing_peer t peer_id addrs is_relayed_peer)
        else if negb (cn_local c) && negb has_dialed then
          if kbucket_full && negb (contains_key peer_id (cn_dial_queue c)) then (c, [])
          else
            match cn_dial_queue c !! peer_id with
            | Some entry =>
              let '(entry, send_dnd) := requeue now addrs is_relayed_peer (does_the_peer_support_dnd info) entry in
              (cn_with_queue c (<[peer_id := entry]> (cn_dial_queue c)),
               if send_dnd && does_the_peer_support_dnd info then [CDoNotDisturb peer_id (DIAL_BACK_DELAY_SECS + 20)] else [])
            | None => (cn_with_queue c (<[peer_id := (addrs, now + DIAL_BACK_DELAY, 1%nat)]> (cn_dial_queue c)), [])
            end
        else (c, CAddAddress peer_id <$> addrs)
      end
  end.

(** [update_on_peer_removal], for the connections. *)
Definition update_on_peer_removal (peer : bytes) : list ConnCall := [CDisconnect peer; EPeerRemoved peer].

Definition handle_identify_received (now : Z) (t : KadTable) (is_bootstrap_peer : bytes → bool) (our_protocol : bytes)
    (min_node_version : PeerVersion) (peer_id : bytes) (info : IdentifyInfo) (connection_id : Z) (c : Connections)
    : Connections * list ConnCall :=
  if bool_decide (peer_id ∈ cn_blocked c) then (c, [CDisconnect peer_id])
  else
    match cn_live c !! connection_id with
    | None => (c, [])
    | Some (_, connection_addr, _) =>
      if bool_decide (ii_protocol_version info ≠ our_protocol) then
        (cn_with_blocked c ({[peer_id]} ∪ cn_blocked c),
         [EUnsupportedProtocol our_protocol (ii_protocol_version info); CBlock peer_id] ++
         (if kt_remove_peer t peer_id then update_on_peer_removal peer_id else []))
      else
        let peer_type := peer_type_of (ii_agent_version info) in
        let min_version_for_check := match peer_type with PT_Node => Some min_node_version | _ => None end in
        let version_result := check_peer_version (ii_agent_version info) min_version_for_check in
        let checked := EVersionChecked peer_id peer_type version_result in
        let should_reject := match version_result with VersionAccepted _ => false | _ => true end in
        if bool_decide (peer_type = PT_Node) && should_reject then
          (c, [checked; EVersionRejected peer_id peer_type version_result (show_version min_node_version); CDisconnect peer_id])
        else
          let '(c, calls) := admit_peer now t is_bootstrap_peer peer_id info connection_addr c in
          (c, checked :: calls)
    end.

(** ** Connections: swarm.rs *)

(** The first entry with the least time. *)
Definition oldest_id (l : list (Z * (Multiaddr * Z))) : option Z :=
  match l with
  | [] => None
  | e :: l => Some (foldl (λ best e, if e.2.2 <? best.2.2 then e else best) e l).1
  end.

(** [insert_latest_established_connection_ids]; every turn removes an entry. *)
Fixpoint evict_oldest (fuel : nat) (latest : gmap Z (Multiaddr * Z)) : gmap Z (Multiaddr * Z) :=
  match fuel with
  | O => latest
  | S fuel =>
    if (MAX_ESTABLISHED_IDS <=? size latest)%nat then
      match oldest_id (hm_iter latest) with
      | Some id => evict_oldest fuel (delete id latest)
      | None => latest
      end
    else latest
  end.

Definition insert_latest_established_connection_ids (now : Z) (id : Z) (addr : Multiaddr) (c : Connections) : Connections :=
  let latest := <[id := (addr, now)]> (cn_latest c) in cn_with_latest c (evict_oldest (size latest) latest).

(** [SwarmEvent::ConnectionEstablished]. *)
Definition on_established (order : list bytes → list bytes) (now : Z) (peer_id : bytes) (remote_addr : Multiaddr) (is_dialer : bool)
    (connection_id : Z) (c : Connections) : Connections :=
  let c := cn_with_relay c (on_connection_established order now peer_id connection_id <$> cn_relay c) (cn_relay_clients c) in
  let c := cn_with_live c (<[connection_id := (peer_id, remote_addr, now + CONNECTION_PRUNE_AFTER)]> (cn_live c)) in
  let c := insert_latest_established_connection_ids now connection_id remote_addr c in
  if is_dialer then cn_with_dialed c (circular_push peer_id (cn_dialed c)) else c.

(** [SwarmEvent::ConnectionClosed]. *)
Definition on_closed (peer_id : bytes) (num_established : nat) (connection_id : Z) (c : Connections) : Connections :=
  let c := cn_with_live c (delete connection_id (cn_live c)) in
  if (num_established =? 0)%nat then cn_with_relay c (cn_relay c) (cn_relay_clients c ∖ {[peer_id]}) else c.

(** [SwarmEvent::IncomingConnectionError]. *)
Definition on_incoming_error (order : list bytes → list bytes) (now : Z) (send_back_addr : Multiaddr) (connection_id : Z)
    (c : Connections) : Connections :=
  let c := cn_with_relay c (on_incomming_connection_error order now send_back_addr connection_id <$> cn_relay c) (cn_relay_clients c) in
  cn_with_live c (delete connection_id (cn_live c)).

(** libp2p's [DialError]; an error of a transport is unsupported, or has a text. *)
Inductive DialError :=
  | DE_Transport (errors : list (Multiaddr * option bytes))
  | DE_NoAddresses
  | DE_Aborted
  | DE_DialPeerConditionFalse
  | DE_LocalPeerId (address : Multiaddr)
  | DE_WrongPeerId (obtained : bytes) (address : Multiaddr)
  | DE_Denied.

Definition problematic_errors : list bytes := [text "ConnectionRefused"; text "HostUnreachable"; text "HandshakeTimedOut"].

(** The flags of a failed dial: a serious issue, and that no address is supported. [ignored] is
    that the peer is a bootstrap peer and bootstrapping is not over. *)
Definition transport_flags (ignored : bool) (errors : list (Multiaddr * option bytes)) : bool * bool :=
  foldl (λ flags e,
           match e.2 with
           | None => flags
           | Some error_msg =>
             (if ignored then false else flags.1 || existsb (λ s, contains_text s error_msg) problematic_errors, false)
           end) (false, true) errors.

Definition issue_of_dial_error (ignored : bool) (error : DialError) : option NodeIssue :=
  match error with
  | DE_Transport errors =>
    let '(serious, all_unsupported) := transport_flags ignored errors in
    if serious || all_unsupported then Some ConnectionIssue else None
  | DE_NoAddresses | DE_LocalPeerId _ | DE_Denied => Some ConnectionIssue
  | DE_Aborted | DE_DialPeerConditionFalse => None
  | DE_WrongPeerId _ _ => Some WrongPeerId
  end.

(** The address with the id the peer really has. *)
Definition redial_of (error : DialError) : option (Multiaddr * bytes) :=
  match error with
  | DE_WrongPeerId obtained address =>
    match last address with
    | Some (P2p _) => Some (removelast address ++ [P2p obtained], obtained)
    | _ => None
    end
  | _ => None
  end.

(** [SwarmEvent::OutgoingConnectionError] with a peer id. *)
Definition on_outgoing_error (ignored : bool) (failed_peer_id : bytes) (error : DialError) (connection_id : Z) (c : Connections)
    : Connections * list ConnCall :=
  (cn_with_live c (delete connection_id (cn_live c)),
   match issue_of_dial_error ignored error with Some issue => [ENodeIssue failed_peer_id issue] | None => [] end ++
   match redial_of error with Some (addr, peer) => [CDial peer [addr]] | None => [] end).

(** Whether pruning leaves a connection. *)
Definition keeps_connection (now : Z) (t : KadTable) (c : Connections) (conn : bytes * Multiaddr * Z) : bool :=
  let '(peer_id, _, timeout_time) := conn in
  (now <? timeout_time) || kt_contains t peer_id ||
  match cn_relay c with Some m => keep_alive_peer peer_id m | None => false end ||
  bool_decide (peer_id ∈ cn_relay_clients c).

Definition remove_outdated_connections (now : Z) (t : KadTable) (c : Connections) : Connections * list ConnCall :=
  if now <? cn_last_pruning c + CONNECTION_PRUNE_INTERVAL then (c, [])
  else
    let kept := filter (λ kc, keeps_connection now t c kc.2 = true) (cn_live c) in
    (cn_with_live (cn_with_pruning c now) kept, CCloseConnection <$> (map_to_list (cn_live c ∖ kept)).*1).

(** request_response.rs: a request puts off the pruning of its connection. *)
Definition on_request (now : Z) (connection_id : Z) (c : Connections) : Connections :=
  cn_with_live c (alter (λ conn, (conn.1, now + CONNECTION_PRUNE_AFTER)) connection_id (cn_live c)).

(** ** The dial queue: driver/mod.rs *)

Definition dial_queue_tick (now : Z) (c : Connections) : Connections * list ConnCall :=
  let due := filter (λ kv, (kv.2.1.2 <? now) = true) (cn_dial_queue c) in
  (cn_with_queue c (cn_dial_queue c ∖ due), (λ kv, CDial kv.1 kv.2.1.1) <$> hm_iter due).

(** ** Closest peers: kad.rs *)

(** The answer to whoever the query is for. *)
Definition answer_closest (get_closest_type : PendingGetClosestType) (peers : list (bytes * list Multiaddr)) : list ConnCall :=
  match get_closest_type with
  | ForNetworkDiscovery => [EDiscovered peers]
  | ForFunctionCall sender => [EReply sender peers]
  end.

(** The error is that the query is not known. *)
Definition on_closest_peers (id : Z) (peers : list (bytes * list Multiaddr)) (step_last : bool) (c : Connections)
    : Connections * list ConnCall * bool :=
  match cn_pending_closest c !! id with
  | None => (c, [], false)
  | Some (get_closest_type, current) =>
    let current := current ++ peers in
    if (K_VALUE <=? length current)%nat || step_last then
      (cn_with_closest c (delete id (cn_pending_closest c)), answer_closest get_closest_type current, true)
    else (cn_with_closest c (<[id := (get_closest_type, current)]> (cn_pending_closest c)), [], true)
  end.

(** A timeout; the caller of a function is sent no peers. *)
Definition on_closest_peers_timeout (id : Z) (peers : list (bytes * list Multiaddr)) (c : Connections)
    : Connections * list ConnCall * bool :=
  match cn_pending_closest c !! id with
  | None => (c, [], false)
  | Some (get_closest_type, current) =>
    (cn_with_closest c (delete id (cn_pending_closest c)),
     match get_closest_type with
     | ForNetworkDiscovery => [EDiscovered (current ++ peers)]
     | ForFunctionCall sender => [EReply sender []]
     end, true)
  end.

(** ** Relays: swarm.rs *)

(** [ReservationReqAccepted] of the relay client. *)
Definition on_reservation_accepted (relay_peer_id : bytes) (renewal : bool) (c : Connections) : Connections * list ConnCall :=
  if renewal then (c, [])
  else
    match cn_relay c with
    | None => (c, [])
    | Some m =>
      let '(m, calls) := on_successful_reservation_by_client relay_peer_id ((λ kv, kv.2.1.1) <$> map_to_list (cn_live c)) m in
      (cn_with_relay c (Some m) (cn_relay_clients c), CRelay <$> calls)
    end.

(** The relay server's reservations. *)
Definition on_relay_client_accepted (src : bytes) (c : Connections) : Connections :=
  cn_with_relay c (cn_relay c) ({[src]} ∪ cn_relay_clients c).

Definition on_relay_client_timed_out (src : bytes) (c : Connections) : Connections :=
  cn_with_relay c (cn_relay c) (cn_relay_clients c ∖ {[src]}).

(** [SwarmEvent::ListenerClosed]. *)
Definition on_closed_listener (listener_id : Z) (c : Connections) : Connections * list ConnCall :=
  match cn_relay c with
  | None => (c, [])
  | Some m =>
    let '(m, calls) := on_listener_closed listener_id m in
    (cn_with_relay c (Some m) (cn_relay_clients c), CRelay <$> calls)
  end.

(** [SwarmEvent::IncomingConnection]. *)
Definition on_incoming (now : Z) (connection_id : Z) (local_addr send_back_addr : Multiaddr) (c : Connections) : Connections :=
  cn_with_relay c (on_incoming_connection connection_id now local_addr send_back_addr <$> cn_relay c) (cn_relay_clients c).

(** [handle_network_cmd]'s [GetClosestPeersToAddressFromNetwork], with the id of the query. *)
Definition start_closest (id : Z) (get_closest_type : PendingGetClosestType) (c : Connections) : Connections :=
  cn_with_closest c (<[id := (get_closest_type, [])]> (cn_pending_closest c)).

(** The relay reservations of driver/mod.rs. *)
Definition relay_tick (pick : nat → nat) (listen : nat → Multiaddr → option Z) (is_bad : bytes → bool) (c : Connections)
    : Connections * list ConnCall :=
  match cn_relay c with
  | None => (c, [])
  | Some m =>
    let '(m, calls) := try_connecting_to_relay pick listen is_bad m in
    (cn_with_relay c (Some m) (cn_relay_clients c), CRelay <$> calls)
  end.

(** ** Runs *)

Inductive ConnEvent :=
  | CE_Identified (now : Z) (t : KadTable) (is_bootstrap_peer : bytes → bool) (our_protocol : bytes)
      (min_node_version : PeerVersion) (peer_id : bytes) (info : IdentifyInfo) (connection_id : Z)
  | CE_Established (order : list bytes → list bytes) (now : Z) (peer_id : bytes) (remote_addr : Multiaddr) (is_dialer : bool)
      (connection_id : Z)
  | CE_Closed (peer_id : bytes) (num_established : nat) (connection_id : Z)
  | CE_IncomingError (order : list bytes → list bytes) (now : Z) (send_back_addr : Multiaddr) (connection_id : Z)
  | CE_OutgoingError (ignored : bool) (failed_peer_id : bytes) (error : DialError) (connection_id : Z)
  | CE_Prune (now : Z) (t : KadTable)
  | CE_Request (now : Z) (connection_id : Z)
  | CE_DialTick (now : Z)
  | CE_StartClosest (id : Z) (get_closest_type : PendingGetClosestType)
  | CE_Closest (id : Z) (peers : list (bytes * list Multiaddr)) (step_last : bool)
  | CE_ClosestTimeout (id : Z) (peers : list (bytes * list Multiaddr))
  | CE_ReservationAccepted (relay_peer_id : bytes) (renewal : bool)
  | CE_RelayClient (src : bytes) (accepted : bool)
  | CE_ListenerClosed (listener_id : Z)
  | CE_Incoming (now : Z) (connection_id : Z) (local_addr send_back_addr : Multiaddr)
  | CE_RelayTick (pick : nat → nat) (listen : nat → Multiaddr → option Z) (is_bad : bytes → bool).

Definition conn_event (ev : ConnEvent) (c : Connections) : Connections * list ConnCall :=
  match ev with
  | CE_Identified now t boot ours min_version peer info id => handle_identify_received now t boot ours min_version peer info id c
  | CE_Established order now peer addr is_dialer id => (on_established order now peer addr is_dialer id c, [])
  | CE_Closed peer n id => (on_closed peer n id c, [])
  | CE_IncomingError order now addr id => (on_incoming_error order now addr id c, [])
  | CE_OutgoingError ignored peer error id => on_outgoing_error ignored peer error id c
  | CE_Prune now t => remove_outdated_connections now t c
  | CE_Request now id => (on_request now id c, [])
  | CE_DialTick now => dial_queue_tick now c
  | CE_StartClosest id ty => (start_closest id ty c, [])
  | CE_Closest id peers step_last => (on_closest_peers id peers step_last c).1
  | CE_ClosestTimeout id peers => (on_closest_peers_timeout id peers c).1
  | CE_ReservationAccepted peer renewal => on_reservation_accepted peer renewal c
  | CE_RelayClient src accepted => ((if accepted then on_relay_client_accepted else on_relay_client_timed_out) src c, [])
  | CE_ListenerClosed id => on_closed_listener id c
  | CE_Incoming now id local_addr send_back_addr => (on_incoming now id local_addr send_back_addr c, [])
  | CE_RelayTick pick listen is_bad => relay_tick pick listen is_bad c
  end.
End connections.
