(* ===== verification/ConnectionsProps.v ===== *)
(** * Properties of the swarm driver's connections

    Whom the routing table is offered and why; that, unless the network is local, a new peer was
    reached by a dial of ours first; which connections pruning closes; what becomes of the queries
    for closest peers; and who passes the version gate. *)

From stdpp Require Import base gmap countable strings list.
From Stdlib Require Import ZArith Lia.
From S2P Require Import Prelude Text Protocol RecordCache RecordStore ReplicationFetcher MerkleTree Payments NetworkWideReplication Driver.
From S2P Require Import VersionGate Multiaddr RelayManager Connections.

Section admission.
Context `{HashOrder}.
Implicit Types (c : Connections) (t : KadTable) (info : IdentifyInfo).

(** Addresses of the form the table gets: of a relay, or an IPv4 QUIC address. *)
Definition routable_address (a : Multiaddr) : Prop :=
  (∃ ip port relay, a = [Ip4 ip; Udp port; QuicV1; P2p relay; P2pCircuit]) ∨ (∃ ip port, a = [Ip4 ip; Udp port; QuicV1]).

Lemma unique_elem (l acc : list Multiaddr) a :
  a ∈ foldl (λ acc a, if bool_decide (a ∈ acc) then acc else acc ++ [a]) acc l ↔ a ∈ acc ∨ a ∈ l.
Proof. revert acc. induction l as [|x l IH]; intros acc; simpl; [set_solver|]. rewrite IH. case_bool_decide; set_solver. Qed.

Lemma identified_addrs_routable info conn addrs a :
  identified_addrs info conn = Some addrs → a ∈ addrs → routable_address a.
Proof.
  unfold identified_addrs. destruct (is_a_relayed_peer _).
  - intros [= <-] [Ha|Ha]%unique_elem; [by apply not_elem_of_nil in Ha|]. apply list_elem_of_omap in Ha as (x & _ & Hx).
    apply craft_relay_form in Hx as (ip & port & relay & -> & _). left. eauto.
  - unfold craft_valid_multiaddr_without_p2p, multiaddr_get_port.
    destruct (find_protocol is_ip4 conn) as [p|] eqn:Hp; [|done]. apply find_protocol_ip4 in Hp as [ip ->]. simpl.
    destruct (find_protocol is_udp conn) as [p|] eqn:Hu; [|done]. apply find_protocol_udp in Hu as [port ->]. simpl.
    intros [= <-] ->%list_elem_of_singleton. right. eauto.
Qed.

Lemma update_pre_existing_add t peer addrs relayed p a :
  CAddAddress p a ∈ update_pre_existing_peer t peer addrs relayed → p = peer ∧ a ∈ addrs ∧ kt_contains t peer = true.
Proof.
  unfold update_pre_existing_peer, kt_contains. destruct (kt_kbucket t peer) as [[n [old|]]|]; [|by intros Hin%not_elem_of_nil..].
  intros [Hin|Hin]%elem_of_app.
  - destruct relayed; [|by apply not_elem_of_nil in Hin]. by apply list_elem_of_fmap in Hin as (x & [=] & _).
  - apply list_elem_of_fmap in Hin as (x & [= -> ->] & Hx%hs_iter_elem_of). set_solver.
Qed.

(** The state an admission leaves, and why it offers an address. *)
Lemma admit_peer_adds now t boot peer info conn c p a :
  CAddAddress p a ∈ (admit_peer now t boot peer info conn c).2 →
  p = peer ∧ routable_address a ∧ contains_text (text "client") (ii_agent_version info) = false ∧
  contains_text (text "reachability-check-peer") (ii_agent_version info) = false ∧
  (cn_local c = true ∨ peer ∈ cv_inner (cn_dialed c) ∨ kt_contains t peer = true).
Proof.
  unfold admit_peer. destruct (identified_addrs info conn) as [addrs|] eqn:Haddrs; [|by intros Hin%not_elem_of_nil].
  destruct (contains_text (text "reachability-check-peer") _); [by intros Hin%not_elem_of_nil|].
  destruct (contains_text (text "client") _); [by intros Hin%not_elem_of_nil|]. cbv zeta.
  set (c1 := if negb _ && negb _ then _ else c). assert (cn_local c1 = cn_local c) as -> by (subst c1; by case_match).
  destruct (kt_kbucket t peer) as [[n entry]|] eqn:Hb; [|by intros Hin%not_elem_of_nil].
  destruct (kt_contains t peer) eqn:Hcon.
  - intros (-> & Ha & _)%update_pre_existing_add. split_and!; [done|by eapply identified_addrs_routable|done|done|auto].
  - destruct (negb (cn_local c) && negb (circular_contains peer (cn_dialed c))) eqn:Hdial.
    + destruct ((K_VALUE <=? n)%nat && _); [by intros Hin%not_elem_of_nil|]. destruct (cn_dial_queue c1 !! peer) as [e|]; [|by intros Hin%not_elem_of_nil].
      destruct (requeue _ _ _ _ e) as [e' send]. simpl. destruct (send && _); [|by intros Hin%not_elem_of_nil].
      by intros [=]%list_elem_of_singleton.
    + simpl. intros (x & [= -> ->] & Hx)%list_elem_of_fmap. split_and!; [done|by eapply identified_addrs_routable|done|done|].
      apply andb_false_iff in Hdial as [Hd|Hd]; apply negb_false_iff in Hd; [by left|].
      right. left. unfold circular_contains in Hd. by apply bool_decide_eq_true in Hd.
Qed.

Lemma identify_admission_spec now t boot ours min_version peer info conn c p a :
  CAddAddress p a ∈ (handle_identify_received now t boot ours min_version peer info conn c).2 →
  p = peer ∧ (peer ∉ cn_blocked c) ∧ is_Some (cn_live c !! conn) ∧ ii_protocol_version info = ours ∧
  peer_type_of (ii_agent_version info) ≠ PT_Client ∧ peer_type_of (ii_agent_version info) ≠ PT_ReachabilityCheckClient ∧
  (peer_type_of (ii_agent_version info) = PT_Node →
    ∃ v, parse_from_agent_string (ii_agent_version info) = Some v ∧ meets_minimum v min_version = true) ∧
  routable_address a ∧ (cn_local c = true ∨ peer ∈ cv_inner (cn_dialed c) ∨ kt_contains t peer = true).
Proof.
  unfold handle_identify_received. case_bool_decide as Hblocked; [by intros [=]%list_elem_of_singleton|].
  destruct (cn_live c !! conn) as [[[q connection_addr] time]|]; [|by intros Hin%not_elem_of_nil].
  case_bool_decide as Hproto.
  { simpl. destruct (kt_remove_peer t peer); simpl; set_solver. }
  cbv zeta.
  destruct (bool_decide (peer_type_of (ii_agent_version info) = PT_Node) && _) eqn:Hreject; [simpl; set_solver|].
  pose proof (admit_peer_adds now t boot peer info connection_addr c p a) as Hadd.
  destruct (admit_peer now t boot peer info connection_addr c) as [c' calls]. simpl in Hadd |- *.
  rewrite elem_of_cons. intros [[=]|Hin]. destruct (Hadd Hin) as (-> & Hroute & Hclient & Hreach & Hwhy).
  assert (peer_type_of (ii_agent_version info) ≠ PT_Client ∧ peer_type_of (ii_agent_version info) ≠ PT_ReachabilityCheckClient) as [Hnc Hnr].
  { unfold peer_type_of. rewrite Hreach, Hclient, orb_false_r. destruct (contains_text (text "/node/") _); [done|].
    destruct (contains_text (text "/client/") (ii_agent_version info)) eqn:Hc; [|done]. exfalso.
    apply contains_text_spec in Hc as (x & y & Hc).
    assert (contains_text (text "client") (ii_agent_version info) = true) as Hc'; [|congruence].
    apply contains_text_spec. exists (x ++ text "/"), (text "/" ++ y). rewrite Hc, <- !app_assoc. done. }
  split_and!; try done.
  intros Hnode. rewrite Hnode in Hreject. rewrite bool_decide_true in Hreject by done. simpl in Hreject.
  unfold check_peer_version in Hreject. destruct (parse_from_agent_string _) as [v|]; [|by destruct (starts_with _ _)].
  destruct (meets_minimum v min_version) eqn:Hm; [eauto|done].
Qed.

Lemma identify_admission_facts now t boot ours min_version peer info conn c p a :
  CAddAddress p a ∈ (handle_identify_received now t boot ours min_version peer info conn c).2 →
  p = peer ∧ (cn_local c = true ∨ peer ∈ cv_inner (cn_dialed c) ∨ kt_contains t peer = true).
Proof. intros Hin%identify_admission_spec. tauto. Qed.

(** Whom the routing table is offered. An address is only ever offered for the peer that
    identified itself, on a connection that is live; the peer is not blocked, speaks our protocol and
    is neither a client nor a reachability check; if its agent string is a node's, its version is at
    least the minimum; the address is an IPv4 QUIC address or that of a relay; and the peer is one
    that we dialed, or is in the table already, unless the network is local. *)
Theorem identify_admission now t boot ours min_version peer info conn c p a :
  CAddAddress p a ∈ (handle_identify_received now t boot ours min_version peer info conn c).2 →
  p = peer ∧ (peer ∉ cn_blocked c) ∧ is_Some (cn_live c !! conn) ∧ ii_protocol_version info = ours ∧
  peer_type_of (ii_agent_version info) ≠ PT_Client ∧ peer_type_of (ii_agent_version info) ≠ PT_ReachabilityCheckClient ∧
  (peer_type_of (ii_agent_version info) = PT_Node →
    ∃ v, parse_from_agent_string (ii_agent_version info) = Some v ∧ meets_minimum v min_version = true) ∧
  routable_address a ∧ (cn_local c = true ∨ peer ∈ cv_inner (cn_dialed c) ∨ kt_contains t peer = true).
Proof. apply identify_admission_spec. Qed.

(** The version gate is only for agent strings that look like a node's. A peer whose agent
    string has neither "/node/" nor the words for clients and reachability checks, with any version
    or none, is offered to the routing table as soon as it is one that we dialed, however high the
    minimum version is. *)
Theorem unknown_agent_admitted now t boot ours min_version peer info conn c q connection_addr time n addrs :
  peer ∉ cn_blocked c → cn_live c !! conn = Some (q, connection_addr, time) → ii_protocol_version info = ours →
  peer_type_of (ii_agent_version info) = PT_Unknown → identified_addrs info connection_addr = Some addrs →
  kt_kbucket t peer = Some (n, None) → peer ∈ cv_inner (cn_dialed c) →
  ∀ a, a ∈ addrs → CAddAddress peer a ∈ (handle_identify_received now t boot ours min_version peer info conn c).2.
Proof.
  intros Hb Hlive Hproto Htype Haddrs Hbucket Hdialed a Ha. unfold handle_identify_received.
  rewrite (bool_decide_false (peer ∈ _)), Hlive, (bool_decide_false (_ ≠ ours)) by tauto. cbv zeta. rewrite Htype.
  rewrite (bool_decide_false (PT_Unknown = PT_Node)) by done. simpl.
  assert (contains_text (text "reachability-check-peer") (ii_agent_version info) = false ∧
          contains_text (text "client") (ii_agent_version info) = false) as [Hreach Hclient].
  { unfold peer_type_of in Htype. destruct (contains_text (text "/node/") _); [done|].
    destruct (contains_text (text "reachability-check-peer") _); [done|].
    destruct (contains_text (text "client") _); [by rewrite orb_true_r in Htype|done]. }
  unfold admit_peer. rewrite Haddrs, Hreach, Hclient. cbv zeta. unfold kt_contains. rewrite Hbucket.
  assert (circular_contains peer (cn_dialed c) = true) as -> by by apply bool_decide_eq_true.
  rewrite andb_false_r. simpl. right. by apply list_elem_of_fmap_2.
Qed.

(** ** Reached first *)

(** Peers that we had a connection to by dialing. *)
Definition dialed_in (hist : list ConnEvent) (p : bytes) : Prop :=
  ∃ order now addr id, CE_Established order now p addr true id ∈ hist.

Lemma admit_peer_same now t boot peer info conn c :
  let c' := (admit_peer now t boot peer info conn c).1 in
  cn_local c' = cn_local c ∧ cn_dialed c' = cn_dialed c.
Proof.
  unfold admit_peer. cbv zeta. destruct (identified_addrs info conn); [|done]. destruct (contains_text _ _); [done|]. destruct (contains_text _ _); [done|].
  set (c1 := if negb _ && negb _ then _ else c).
  assert (cn_local c1 = cn_local c ∧ cn_dialed c1 = cn_dialed c) as Hc1 by (subst c1; by case_match).
  destruct (kt_kbucket t peer) as [[n e]|]; [|done]. destruct (kt_contains t peer); [done|].
  destruct (negb (cn_local c1) && _); [|done]. destruct ((K_VALUE <=? n)%nat && _); [done|].
  destruct (cn_dial_queue c1 !! peer) as [e'|]; [|done]. by destruct (requeue _ _ _ _ e') as [? ?].
Qed.

Lemma identify_same now t boot ours min_version peer info conn c :
  let c' := (handle_identify_received now t boot ours min_version peer info conn c).1 in
  cn_local c' = cn_local c ∧ cn_dialed c' = cn_dialed c.
Proof.
  unfold handle_identify_received. cbv zeta. case_bool_decide; [done|]. destruct (cn_live c !! conn) as [[[q a] time]|]; [|done].
  case_bool_decide; [done|]. destruct (_ && _); [done|]. pose proof (admit_peer_same now t boot peer info a c) as Hs.
  by destruct (admit_peer now t boot peer info a c).
Qed.

(** What an event does to the list of dialed peers. *)
Lemma conn_event_dialed ev c :
  let c' := (conn_event ev c).1 in
  cn_local c' = cn_local c ∧
  (cn_dialed c' = cn_dialed c ∨
   ∃ order now p addr id, ev = CE_Established order now p addr true id ∧ cn_dialed c' = circular_push p (cn_dialed c)).
Proof.
  destruct ev; simpl; try (split; [done|by left]).
  - pose proof (identify_same now t is_bootstrap_peer our_protocol min_node_version peer_id info connection_id c). naive_solver.
  - unfold on_established, insert_latest_established_connection_ids. destruct is_dialer; (split; [done|]); [right; eauto 10|by left].
  - unfold on_closed. case_match; (split; [done|by left]).
  - unfold remove_outdated_connections. case_match; (split; [done|by left]).
  - unfold on_closest_peers. repeat case_match; simplify_eq/=; (split; [done|by left]).
  - unfold on_closest_peers_timeout. repeat case_match; simplify_eq/=; (split; [done|by left]).
  - unfold on_reservation_accepted. repeat case_match; simplify_eq/=; (split; [done|by left]).
  - case_match; (split; [done|by left]).
  - unfold on_closed_listener. repeat case_match; simplify_eq/=; (split; [done|by left]).
  - unfold relay_tick. repeat case_match; simplify_eq/=; (split; [done|by left]).
Qed.

Lemma circular_push_elem {T} (x y : T) (v : CircularVec T) : x ∈ cv_inner (circular_push y v) → x = y ∨ x ∈ cv_inner v.
Proof.
  unfold circular_push, push_with_eviction. destruct (bool_decide _); simpl; rewrite elem_of_app, list_elem_of_singleton; [|tauto].
  destruct (cv_inner v); simpl; [tauto|]. rewrite elem_of_cons. tauto.
Qed.

(** The calls of a run, each with the events before it. *)
Fixpoint conn_run (hist l : list ConnEvent) c : list (list ConnEvent * ConnEvent * ConnCall) :=
  match l with
  | [] => []
  | ev :: l => ((λ call, (hist, ev, call)) <$> (conn_event ev c).2) ++ conn_run (hist ++ [ev]) l (conn_event ev c).1
  end.

Lemma non_identify_adds ev c p a :
  CAddAddress p a ∈ (conn_event ev c).2 →
  ∃ now t boot ours min_version peer info conn, ev = CE_Identified now t boot ours min_version peer info conn.
Proof.
  destruct ev; simpl; try (intros Hin%not_elem_of_nil; done); try (by eauto 10).
  - unfold on_outgoing_error. simpl. rewrite elem_of_app. intros [Hin|Hin]; repeat case_match; set_solver.
  - unfold remove_outdated_connections. case_match; simpl; [set_solver|]. by intros (x & [=] & _)%list_elem_of_fmap.
  - unfold dial_queue_tick. simpl. by intros (x & [=] & _)%list_elem_of_fmap.
  - unfold on_closest_peers, answer_closest. repeat case_match; simplify_eq/=; set_solver.
  - unfold on_closest_peers_timeout. repeat case_match; simplify_eq/=; set_solver.
  - unfold on_reservation_accepted. repeat case_match; simplify_eq/=; try set_solver; by intros (x & [=] & _)%list_elem_of_fmap.
  - unfold on_closed_listener. repeat case_match; simplify_eq/=; try set_solver; by intros (x & [=] & _)%list_elem_of_fmap.
  - unfold relay_tick. repeat case_match; simplify_eq/=; try set_solver; by intros (x & [=] & _)%list_elem_of_fmap.
Qed.

Lemma conn_run_reached hist0 l c hist ev p a :
  cn_local c = false → (∀ q, q ∈ cv_inner (cn_dialed c) → dialed_in hist0 q) →
  (hist, ev, CAddAddress p a) ∈ conn_run hist0 l c →
  dialed_in hist p ∨ ∃ now t boot ours min_version info conn, ev = CE_Identified now t boot ours min_version p info conn ∧ kt_contains t p = true.
Proof.
  revert hist0 c. induction l as [|ev0 l IH]; intros hist0 c Hlocal Hinv; simpl; [by intros Hin%not_elem_of_nil|].
  rewrite elem_of_app. intros [Hin|Hin].
  - apply list_elem_of_fmap in Hin as (call & [= -> -> <-] & Hin).
    destruct (non_identify_adds _ _ _ _ Hin) as (now & t & boot & ours & mv & peer & info & conn & ->). simpl in Hin.
    apply identify_admission_facts in Hin as (-> & [Hl|[Hd|Hk]]); [congruence|left; by apply Hinv|right; eauto 15].
  - destruct (conn_event_dialed ev0 c) as [Hl Hd]. apply (IH _ _) in Hin; [done|by rewrite Hl|].
    assert (∀ q, dialed_in hist0 q → dialed_in (hist0 ++ [ev0]) q) as Hmono.
    { intros q (order & now & addr & id & Hq). exists order, now, addr, id. set_solver. }
    intros q Hq. destruct Hd as [Hd|(order & now & q' & addr & id & -> & Hd)]; rewrite Hd in Hq; [by apply Hmono, Hinv|].
    apply circular_push_elem in Hq as [->|Hq]; [|by apply Hmono, Hinv]. exists order, now, addr, id. set_solver.
Qed.

Definition connections_new (capacity : nat) (relay : option RelayManager) (now : Z) : Connections :=
  {| cn_local := false; cn_blocked := ∅; cn_live := ∅; cn_dialed := {| cv_inner := []; cv_capacity := capacity |};
     cn_dial_queue := ∅; cn_relay := relay; cn_relay_clients := ∅; cn_latest := ∅; cn_last_pruning := now;
     cn_pending_closest := ∅ |}.

(** C12: a peer is reached before it is routed to. In every run of the driver of a node that is not
    in a local network, whatever peers do, an address is offered to the routing table only for a peer
    that a dial of ours established a connection to before, or that is in the table already; that a
    peer connected to us is not enough. *)
Theorem routed_peers_were_dialed l capacity relay now hist ev p a :
  (hist, ev, CAddAddress p a) ∈ conn_run [] l (connections_new capacity relay now) →
  dialed_in hist p ∨ ∃ now t boot ours min_version info conn, ev = CE_Identified now t boot ours min_version p info conn ∧ kt_contains t p = true.
Proof. apply conn_run_reached; [done|]. simpl. set_solver. Qed.
End admission.

Section upkeep.
Context `{HashOrder}.
Implicit Types (c : Connections) (t : KadTable).

(** Which connections pruning closes. Once the interval since the last pruning is over, it
    closes exactly the connections whose time is up to peers that are not in the routing table, are no
    relay servers in use and are not relayed by us, and forgets exactly these; before that it
    closes none. *)
Theorem prune_connections_exact now t c c' calls id :
  remove_outdated_connections now t c = (c', calls) →
  (CCloseConnection id ∈ calls ↔
    cn_last_pruning c + CONNECTION_PRUNE_INTERVAL ≤ now ∧
    ∃ p addr time, cn_live c !! id = Some (p, addr, time) ∧ time ≤ now ∧ kt_contains t p = false ∧
      (∀ m, cn_relay c = Some m → ¬ in_use m p) ∧ (p ∉ cn_relay_clients c)) ∧
  (CCloseConnection id ∈ calls → cn_live c' !! id = None) ∧
  (CCloseConnection id ∉ calls → cn_live c' !! id = cn_live c !! id).
Proof.
  unfold remove_outdated_connections. destruct (Z.ltb_spec now (cn_last_pruning c + CONNECTION_PRUNE_INTERVAL)) as [Hlt|Hge]; intros [= <- <-].
  { split_and!; [split; [by intros Hin%not_elem_of_nil|lia]|by intros Hin%not_elem_of_nil|done]. }
  set (kept := filter _ (cn_live c)).
  assert (CCloseConnection id ∈ CCloseConnection <$> (map_to_list (cn_live c ∖ kept)).*1 ↔
    ∃ conn, cn_live c !! id = Some conn ∧ keeps_connection now t c conn = false) as Hclosed.
  { rewrite list_elem_of_fmap. split.
    - intros (id' & [= ->] & ([k conn] & -> & Hin%elem_of_map_to_list)%list_elem_of_fmap).
      apply lookup_difference_Some in Hin as [Hin Hk]. exists conn. split; [done|]. apply not_true_iff_false. intros Hkeep.
      apply map_lookup_filter_None in Hk as [Hk|Hk]; [simpl in *; congruence|]. by apply (Hk conn).
    - intros (conn & Hin & Hkeep). exists id. split; [done|]. apply list_elem_of_fmap. exists (id, conn). split; [done|].
      apply elem_of_map_to_list, lookup_difference_Some. split; [done|]. apply map_lookup_filter_None. right. intros x Hx. simpl. congruence. }
  cbn [cn_with_live cn_live]. split_and!.
  - rewrite Hclosed. split.
    + intros ([[p addr] time] & Hin & Hkeep). split; [done|]. exists p, addr, time. unfold keeps_connection in Hkeep.
      rewrite !orb_false_iff in Hkeep. destruct Hkeep as [[[Htime%Z.ltb_ge Hk] Hrelay] Hcl%bool_decide_eq_false]. split_and!; try done.
      intros m Hm. rewrite Hm in Hrelay. unfold keep_alive_peer in Hrelay. apply orb_false_iff in Hrelay as [H1%contains_key_false H2%contains_key_false].
      intros [[? ?]|[? ?]]; congruence.
    + intros (_ & p & addr & time & Hin & Htime & Hk & Hrelay & Hcl). exists (p, addr, time). split; [done|]. unfold keeps_connection.
      rewrite !orb_false_iff. split_and!; [lia|done| |by apply bool_decide_eq_false].
      destruct (cn_relay c) as [m|]; [|done]. specialize (Hrelay m eq_refl). unfold keep_alive_peer. rewrite orb_false_iff, !contains_key_false.
      rewrite !eq_None_not_Some. unfold in_use in Hrelay. tauto.
  - rewrite Hclosed. intros (conn & Hin & Hkeep). apply map_lookup_filter_None. right. intros x Hx. simpl. congruence.
  - rewrite Hclosed. intros Hin. subst kept. destruct (cn_live c !! id) as [conn|] eqn:Hid; [|by apply map_lookup_filter_None; left].
    apply map_lookup_filter_Some. split; [done|]. simpl. apply not_false_iff_true. intros Hkeep. apply Hin. eauto.
Qed.

(** A run of events and its calls. *)
Fixpoint conn_steps (l : list ConnEvent) c : Connections * list ConnCall :=
  match l with
  | [] => (c, [])
  | ev :: l =>
    let '(c, calls) := conn_event ev c in
    let '(c, calls') := conn_steps l c in
    (c, calls ++ calls')
  end.

Lemma closest_batches id ty batches current c :
  cn_pending_closest c !! id = Some (ty, current) → (length (current ++ concat batches) < K_VALUE)%nat →
  let '(c', calls) := conn_steps ((λ b, CE_Closest id b false) <$> batches) c in
  cn_pending_closest c' !! id = Some (ty, current ++ concat batches) ∧ calls = [].
Proof.
  revert current c. induction batches as [|b batches IH]; intros current c Hc Hlen; simpl in *; [by rewrite app_nil_r|].
  unfold on_closest_peers. rewrite Hc. rewrite !length_app in Hlen.
  assert ((K_VALUE <=? length (current ++ b))%nat || false = false) as -> by (rewrite orb_false_r, length_app; apply Nat.leb_gt; lia). simpl.
  specialize (IH (current ++ b) (cn_with_closest c (<[id := (ty, current ++ b)]> (cn_pending_closest c)))).
  rewrite <- app_assoc in IH. destruct (conn_steps _ _) as [c' calls]. apply IH; [apply lookup_insert_eq|]. rewrite !length_app. lia.
Qed.

Lemma conn_steps_app l1 l2 c :
  conn_steps (l1 ++ l2) c =
    let '(c1, calls1) := conn_steps l1 c in let '(c2, calls2) := conn_steps l2 c1 in (c2, calls1 ++ calls2).
Proof.
  revert c. induction l1 as [|ev l1 IH]; intros c; simpl; [by destruct (conn_steps l2 c)|].
  destruct (conn_event ev c) as [c0 calls0]. rewrite IH. destruct (conn_steps l1 c0) as [c1 calls1].
  destruct (conn_steps l2 c1) as [c2 calls2]. by rewrite app_assoc.
Qed.

(** What becomes of a query for closest peers. The peers of its progress events are collected
    until there are twenty or the query says it is over; then whoever asked gets all of them, once.
    If the query times out instead, discovery gets all that was collected, but the caller of a
    function gets none of them, although they are kept for the caller to judge whether they are
    enough. *)
Theorem closest_query_outcome id ty batches b final c c' calls :
  (length (concat batches) < K_VALUE)%nat →
  conn_steps ([CE_StartClosest id ty] ++ ((λ b, CE_Closest id b false) <$> batches) ++ [final]) c = (c', calls) →
  (final = CE_Closest id b true ∨ (final = CE_Closest id b false ∧ K_VALUE ≤ length (concat batches ++ b))%nat →
    cn_pending_closest c' !! id = None ∧ calls = answer_closest ty (concat batches ++ b)) ∧
  (final = CE_ClosestTimeout id b →
    cn_pending_closest c' !! id = None ∧
    calls = match ty with ForNetworkDiscovery => [EDiscovered (concat batches ++ b)] | ForFunctionCall s => [EReply s []] end).
Proof.
  intros Hlen. simpl. rewrite conn_steps_app.
  pose proof (closest_batches id ty batches [] (start_closest id ty c) (lookup_insert_eq _ _ _) Hlen) as Hb.
  destruct (conn_steps ((λ b, CE_Closest id b false) <$> batches) (start_closest id ty c)) as [c1 calls1]. destruct Hb as [Hb ->]. simpl in Hb |- *. intros Hrun. split.
  - intros Hfinal. assert (∃ step_last, final = CE_Closest id b step_last ∧ (K_VALUE <=? length (concat batches ++ b))%nat || step_last = true)
      as (step_last & -> & Hdone).
    { destruct Hfinal as [->|[-> Hk]]; eexists; (split; [done|]); [by rewrite orb_true_r|]. rewrite orb_false_r. by apply Nat.leb_le. }
    simpl in Hrun. unfold on_closest_peers in Hrun. rewrite Hb, Hdone in Hrun. simpl in Hrun. injection Hrun as <- <-.
    rewrite app_nil_r. split; [apply lookup_delete_eq|done].
  - intros ->. simpl in Hrun. unfold on_closest_peers_timeout in Hrun. rewrite Hb in Hrun. simpl in Hrun. injection Hrun as <- <-.
    rewrite app_nil_r. split; [apply lookup_delete_eq|done].
Qed.
End upkeep.

(** ** Concrete connections *)

Section concrete.
#[local] Existing Instance hash_order_rev.

Definition ex_kad_table : KadTable := {| kt_kbucket := λ _, Some (3%nat, None); kt_remove_peer := λ _, false |}.

Definition ex_info (agent : bytes) : IdentifyInfo :=
  {| ii_protocol_version := text "ant/1"; ii_agent_version := agent; ii_listen_addrs := []; ii_protocols := [] |}.

Definition ex_min_version : PeerVersion := {| pv_major := 0; pv_minor := 4; pv_patch := 15 |}.

(** A peer connects, is dialed back and identifies itself again. *)
Definition ex_conn_run (agent : bytes) : list ConnEvent :=
  [CE_Established id 0 [7] [Ip4 5; Udp 9; QuicV1] false 1;
   CE_Identified 0 ex_kad_table (λ _, false) (text "ant/1") ex_min_version [7] (ex_info agent) 1;
   CE_DialTick (from_secs 200);
   CE_Established id (from_secs 200) [7] [Ip4 5; Udp 9; QuicV1] true 2;
   CE_Identified (from_secs 200) ex_kad_table (λ _, false) (text "ant/1") ex_min_version [7] (ex_info agent) 2].

Definition ex_connections (agent : bytes) (n : nat) : Connections :=
  (conn_steps (take n (ex_conn_run agent)) (connections_new 255 None 0)).1.

Definition ex_node_agent : bytes := text "ant/node/1.0/0.5.0/1".

Lemma identify_admission_witness :
  let c := ex_connections ex_node_agent 4 in
  [7] = [7] ∧ ([7] ∉ cn_blocked c) ∧ is_Some (cn_live c !! 2) ∧ text "ant/1" = text "ant/1" ∧
  peer_type_of ex_node_agent ≠ PT_Client ∧ peer_type_of ex_node_agent ≠ PT_ReachabilityCheckClient ∧
  (peer_type_of ex_node_agent = PT_Node → ∃ v, parse_from_agent_string ex_node_agent = Some v ∧ meets_minimum v ex_min_version = true) ∧
  routable_address [Ip4 5; Udp 9; QuicV1] ∧ (cn_local c = true ∨ [7] ∈ cv_inner (cn_dialed c) ∨ kt_contains ex_kad_table [7] = true).
Proof.
  apply (identify_admission (from_secs 200) ex_kad_table (λ _, false) (text "ant/1") ex_min_version [7] (ex_info ex_node_agent) 2
    (ex_connections ex_node_agent 4) [7] [Ip4 5; Udp 9; QuicV1]).
  vm_compute. right. left.
Defined.

Definition ex_unknown_agent : bytes := text "ant".

Lemma unknown_agent_admitted_witness :
  CAddAddress [7] [Ip4 5; Udp 9; QuicV1] ∈
  (handle_identify_received 0 ex_kad_table (λ _, false) (text "ant/1") ex_min_version [7] (ex_info ex_unknown_agent) 2
     (ex_connections ex_unknown_agent 4)).2.
Proof.
  apply (unknown_agent_admitted 0 ex_kad_table (λ _, false) (text "ant/1") ex_min_version [7] (ex_info ex_unknown_agent) 2
    (ex_connections ex_unknown_agent 4) [7] [Ip4 5; Udp 9; QuicV1] (from_secs 320) 3 [[Ip4 5; Udp 9; QuicV1]]).
  - apply (bool_decide_unpack _). vm_compute. exact I.
  - vm_compute. reflexivity.
  - reflexivity.
  - vm_compute. reflexivity.
  - vm_compute. reflexivity.
  - reflexivity.
  - vm_compute. left.
  - left.
Defined.

Lemma routed_peers_were_dialed_witness :
  let hist := take 4 (ex_conn_run ex_node_agent) in
  let ev := CE_Identified (from_secs 200) ex_kad_table (λ _, false) (text "ant/1") ex_min_version [7] (ex_info ex_node_agent) 2 in
  dialed_in hist [7] ∨
  ∃ now t boot ours min_version info conn, ev = CE_Identified now t boot ours min_version [7] info conn ∧ kt_contains t [7] = true.
Proof.
  intros hist ev. apply (routed_peers_were_dialed (ex_conn_run ex_node_agent) 255 None 0 hist ev [7] [Ip4 5; Udp 9; QuicV1]).
  subst hist ev. unfold ex_conn_run. cbn [conn_run take].
  rewrite !elem_of_app. do 4 right. left. apply list_elem_of_fmap. eexists. split; [reflexivity|]. vm_compute. right. left.
Defined.

Lemma prune_connections_exact_witness :
  let c := ex_connections ex_node_agent 4 in
  let '(c', calls) := remove_outdated_connections (from_secs 200) ex_kad_table c in
  (CCloseConnection 1 ∈ calls ↔
    cn_last_pruning c + CONNECTION_PRUNE_INTERVAL ≤ from_secs 200 ∧
    ∃ p addr time, cn_live c !! 1 = Some (p, addr, time) ∧ time ≤ from_secs 200 ∧ kt_contains ex_kad_table p = false ∧
      (∀ m, cn_relay c = Some m → ¬ in_use m p) ∧ (p ∉ cn_relay_clients c)) ∧
  (CCloseConnection 1 ∈ calls → cn_live c' !! 1 = None) ∧ (CCloseConnection 1 ∉ calls → cn_live c' !! 1 = cn_live c !! 1).
Proof.
  intros c. destruct (remove_outdated_connections (from_secs 200) ex_kad_table c) as [c' calls] eqn:E.
  exact (prune_connections_exact (from_secs 200) ex_kad_table c c' calls 1 E).
Defined.

(** A function's query that has collected a peer, and times out with another. *)
Lemma closest_query_outcome_witness :
  let c := connections_new 255 None 0 in
  let final := CE_ClosestTimeout 1 [([8], [])] in
  let '(c', calls) := conn_steps ([CE_StartClosest 1 (ForFunctionCall 5)] ++ ((λ b, CE_Closest 1 b false) <$> [[([7], [])]]) ++ [final]) c in
  calls = [EReply 5 []] ∧
  (final = CE_Closest 1 [([8], [])] true ∨ (final = CE_Closest 1 [([8], [])] false ∧ (K_VALUE ≤ 2)%nat) →
    cn_pending_closest c' !! 1 = None ∧ calls = answer_closest (ForFunctionCall 5) [([7], []); ([8], [])]) ∧
  (final = CE_ClosestTimeout 1 [([8], [])] → cn_pending_closest c' !! 1 = None ∧ calls = [EReply 5 []]).
Proof.
  intros c final. split; [reflexivity|].
  apply (closest_query_outcome 1 (ForFunctionCall 5) [[([7], [])]] [([8], [])] final c); [vm_compute; lia|reflexivity].
Defined.
End concrete.
