(* ===== verification/NetworkDiscovery.v ===== *)
(** * Network discovery

    Models src/ant-node/src/networking/driver/network_discovery.rs: the targets a node looks up to find
    more peers, which buckets of the routing table they are for, and how often it looks. Buckets of the
    routing table and random peer ids are arguments; the power of floating point numbers in the length
    of the interval is the function [scaled]. *)

From stdpp Require Import base gmap countable list sorting.
From Stdlib Require Import ZArith Lia.
From S2P Require Import Prelude Text Protocol RecordCache Driver Multiaddr Connections.

Definition MAX_PEERS_PER_BUCKET : nat := 5.
Definition LAST_PEER_ADDED_TIME_LIMIT : Z := 180 * NANOS.
Definition NO_PEER_ADDED_SLOWDOWN_INTERVAL_MAX_S : Z := 1200.

(** Buckets of addresses by the logarithm of their distance to us. *)
Abbreviation Candidates := (gmap Z (list bytes)).

Section discovery.
Context `{XorNameLib, Hex, Bls, Kad}.

(** [BTreeMap]s are read in the order of their keys. *)
Definition bt_iter (c : Candidates) : list (Z * list bytes) := sort_by_key fst (map_to_list c).

Record NetworkDiscoveryCandidates := { nd_self_peer_id : bytes; nd_candidates : Candidates }.

(** [distance(..).bucket_of()]; our own id has no bucket. *)
Definition bucket_of (self peer : bytes) : option Z :=
  let d := distance (NA_PeerId peer) (NA_PeerId self) in
  if d <=? 0 then None else Some (Z.log2 d).

(** Peers by their buckets, each in the order they come. *)
Definition by_bucket (self : bytes) (peers : list bytes) : Candidates :=
  foldl (λ acc peer, match bucket_of self peer with
                     | Some i => <[i := default [] (acc !! i) ++ [peer]]> acc
                     | None => acc
                     end) ∅ peers.

(** The [reduce] of [generate_candidates]: entries are filled up to five. *)
Definition merge_capped (acc map : Candidates) : Candidates :=
  foldl (λ acc (x : Z * list bytes),
           let entry := default [] (acc !! x.1) in
           <[x.1 := entry ++ take (MAX_PEERS_PER_BUCKET - length entry) x.2]> acc) acc (bt_iter map).

(** The random peers come in batches, as the threads take them. *)
Definition generate_candidates (self : bytes) (batches : list (list bytes)) : Candidates :=
  foldl merge_capped ∅ (by_bucket self <$> batches).

Definition insert_candidates (c : Candidates) (i : Z) (new_candidates : list bytes) : Candidates :=
  match c !! i with
  | Some existing_candidates =>
    let all := existing_candidates ++ filter (λ x, x ∉ existing_candidates) new_candidates in
    <[i := drop (length all - MAX_PEERS_PER_BUCKET) all]> c
  | None => <[i := new_candidates]> c
  end.

Definition insert_all (c new : Candidates) : Candidates := foldl (λ c x, insert_candidates c x.1 x.2) c (bt_iter new).

Definition nd_with (d : NetworkDiscoveryCandidates) (c : Candidates) : NetworkDiscoveryCandidates :=
  {| nd_self_peer_id := nd_self_peer_id d; nd_candidates := c |}.

Definition discovery_candidates_new (self_peer_id : bytes) (batches : list (list bytes)) : NetworkDiscoveryCandidates :=
  {| nd_self_peer_id := self_peer_id; nd_candidates := generate_candidates self_peer_id batches |}.

Definition handle_get_closest_query (d : NetworkDiscoveryCandidates) (closest_peers : list (bytes * list Multiaddr)) : NetworkDiscoveryCandidates :=
  nd_with d (insert_all (nd_candidates d) (by_bucket (nd_self_peer_id d) closest_peers.*1)).

Definition try_refresh_candidates (batches : list (list bytes)) (d : NetworkDiscoveryCandidates) : NetworkDiscoveryCandidates :=
  nd_with d (insert_all (nd_candidates d) (generate_candidates (nd_self_peer_id d) batches)).

(** [candidates[round_robin_index % candidates.len()]]; [None] where the remainder panics. *)
Definition round_robin {A} (round_robin_index : nat) (l : list A) : option A :=
  match l with [] => None | _ => l !! (round_robin_index mod length l)%nat end.

(** The candidates of empty buckets, until there are ten targets. *)
Fixpoint fill_targets (round_robin_index : nat) (known : list Z) (candidates : list (Z * list bytes)) (targets : list bytes) : list bytes :=
  match candidates with
  | [] => targets
  | (i, l) :: candidates =>
    if (10 <=? length targets)%nat then targets
    else if bool_decide (i ∈ known) then fill_targets round_robin_index known candidates targets
    else fill_targets round_robin_index known candidates (targets ++ option_list (round_robin round_robin_index l))
  end.

Definition get_candidates (batches : list (list bytes)) (non_full_non_empty_buckets full_buckets : list Z) (round_robin_index : nat)
    (d : NetworkDiscoveryCandidates) : list bytes * NetworkDiscoveryCandidates :=
  let d := try_refresh_candidates batches d in
  let targets := nd_self_peer_id d :: omap (λ i, l ← nd_candidates d !! i; round_robin round_robin_index l) non_full_non_empty_buckets in
  (fill_targets round_robin_index (non_full_non_empty_buckets ++ full_buckets) (bt_iter (nd_candidates d)) targets, d).

(** ** NetworkDiscovery *)

Record NetworkDiscovery := {
  nd_initial_bootstrap_done : bool;
  nd_last_peer_added : Z;
  nd_last_triggered : option Z;
  nd_known : NetworkDiscoveryCandidates;
}.

Definition network_discovery_new (now : Z) (self_peer_id : bytes) (batches : list (list bytes)) : NetworkDiscovery :=
  {| nd_initial_bootstrap_done := false; nd_last_peer_added := now; nd_last_triggered := None; nd_known := discovery_candidates_new self_peer_id batches |}.

Definition initiated (now : Z) (n : NetworkDiscovery) : NetworkDiscovery :=
  {| nd_initial_bootstrap_done := nd_initial_bootstrap_done n; nd_last_peer_added := nd_last_peer_added n;
     nd_last_triggered := Some now; nd_known := nd_known n |}.

Definition notify_new_peer (now : Z) (n : NetworkDiscovery) : bool * NetworkDiscovery :=
  (negb (nd_initial_bootstrap_done n),
   {| nd_initial_bootstrap_done := true; nd_last_peer_added := now; nd_last_triggered := nd_last_triggered n; nd_known := nd_known n |}).

(** [scaled] is [60.0 * 1.00673.powi(peers)] seconds, in nanoseconds. *)
Definition scaled_duration (scaled : Z → Z) (peers_in_rt : Z) : Z :=
  if 450 <=? peers_in_rt then 1200 * NANOS else scaled peers_in_rt.

(** [random] is the number of seconds drawn from 600 to 1199; the interval is its length. *)
Definition should_we_discover (scaled : Z → Z) (now random : Z) (peers_in_rt current_interval : Z) (n : NetworkDiscovery) : bool * option Z :=
  let should_network_discover := 1 <=? peers_in_rt in
  if (LAST_PEER_ADDED_TIME_LIMIT <? now - nd_last_peer_added n) && negb (peers_in_rt =? 0) then (should_network_discover, Some (random * NANOS))
  else
    let duration_based_on_peers := scaled_duration scaled peers_in_rt in
    (should_network_discover, if current_interval <? duration_based_on_peers then Some duration_based_on_peers else None).

(** ** The driver's part *)

(** A bucket of the routing table: its logarithm and its entries. *)
Definition KBucket : Type := option Z * list (bytes * list Multiaddr).

Definition is_full (kb : KBucket) : bool := (K_VALUE <=? length kb.2)%nat.

Definition get_refresh_targets (batches : list (list bytes)) (kbuckets : list KBucket) (round_robin_index : nat) (n : NetworkDiscovery)
    : (list bytes * list (bytes * list Multiaddr) * list (bytes * list Multiaddr)) * NetworkDiscovery :=
  let full_buckets := filter (λ kb, is_full kb = true) kbuckets in
  let non_full_buckets := filter (λ kb, is_full kb = false) kbuckets in
  let '(get_closest_candidates, known) := get_candidates batches (omap fst non_full_buckets) (omap fst full_buckets) round_robin_index (nd_known n) in
  let n := {| nd_initial_bootstrap_done := nd_initial_bootstrap_done n; nd_last_peer_added := nd_last_peer_added n;
              nd_last_triggered := nd_last_triggered n; nd_known := known |} in
  if (length full_buckets <? 2)%nat then ((get_closest_candidates, [], []), n)
  else
    let picked_full_bucket_peers := default [] (snd <$> round_robin round_robin_index full_buckets) in
    if bool_decide (non_full_buckets = []) then ((get_closest_candidates, [], picked_full_bucket_peers), n)
    else ((get_closest_candidates, default [] (snd <$> round_robin round_robin_index non_full_buckets), picked_full_bucket_peers), n).

(** What is asked of kademlia and reported to the node. *)
Inductive DiscoveryCall :=
  | D_GetClosestPeers (target : bytes)
  | D_PeersForVersionQuery (peers : list (bytes * list Multiaddr)).

Definition trigger_network_discovery (now : Z) (batches : list (list bytes)) (kbuckets : list KBucket) (round_robin_index : nat) (n : NetworkDiscovery)
    : NetworkDiscovery * list DiscoveryCall :=
  let '((get_closest_candidates, picked_non_full_bucket_peers, picked_full_bucket_peers), n) := get_refresh_targets batches kbuckets round_robin_index n in
  let version_query peers := if bool_decide (peers = []) then [] else [D_PeersForVersionQuery peers] in
  (initiated now n, (D_GetClosestPeers <$> get_closest_candidates) ++ version_query picked_full_bucket_peers ++ version_query picked_non_full_bucket_peers).

Definition run_network_discover_continuously (scaled : Z → Z) (now random : Z) (batches : list (list bytes)) (kbuckets : list KBucket)
    (peers_in_rt current_interval : Z) (round_robin_index : nat) (n : NetworkDiscovery) : NetworkDiscovery * list DiscoveryCall * option Z :=
  let '(should_discover, new_interval) := should_we_discover scaled now random peers_in_rt current_interval n in
  let '(n, calls) := if should_discover then trigger_network_discovery now batches kbuckets round_robin_index n else (n, []) in
  (n, calls, new_interval).
End discovery.

(** ** Maps updated key by key *)

Lemma foldl_update_lookup {K V A} `{Countable K} (g : option V → A → V) (kvs : list (K * A)) (acc : gmap K V) i :
  NoDup kvs.*1 →
  (∀ a, (i, a) ∈ kvs → foldl (λ m x, <[x.1 := g (m !! x.1) x.2]> m) acc kvs !! i = Some (g (acc !! i) a)) ∧
  (i ∉ kvs.*1 → foldl (λ m x, <[x.1 := g (m !! x.1) x.2]> m) acc kvs !! i = acc !! i).
Proof.
  revert acc. induction kvs as [|[k b] kvs IH]; intros acc Hnd; [split; [set_solver|done]|].
  rewrite fmap_cons in Hnd. apply NoDup_cons in Hnd as [Hk Hnd]. destruct (IH (<[k := g (acc !! k) b]> acc) Hnd) as [IH1 IH2]. simpl. split.
  - intros a [[= -> ->]|Ha]%elem_of_cons.
    + rewrite IH2 by done. apply lookup_insert_eq.
    + rewrite (IH1 a Ha), lookup_insert_ne; [done|]. intros ->. apply Hk. simpl. apply list_elem_of_fmap. by exists (i, a).
  - intros Hi. apply not_elem_of_cons in Hi as [Hne Hi]. rewrite IH2 by done. by apply lookup_insert_ne.
Qed.

Section discovery_facts.
Context `{XorNameLib, Hex, Bls, Kad}.

Lemma bt_iter_elem_of c i l : (i, l) ∈ bt_iter c ↔ c !! i = Some l.
Proof. unfold bt_iter. rewrite sort_by_key_elem_of. apply elem_of_map_to_list. Qed.

Lemma bt_iter_NoDup c : NoDup (bt_iter c).*1.
Proof. unfold bt_iter. rewrite sort_by_key_perm. apply NoDup_fst_map_to_list. Qed.

Lemma bt_iter_keys c i : i ∈ (bt_iter c).*1 ↔ is_Some (c !! i).
Proof.
  rewrite list_elem_of_fmap. split; [intros ([j l] & -> & Hl%bt_iter_elem_of); by exists l|]. intros [l Hl]. exists (i, l). split; [done|]. by apply bt_iter_elem_of.
Qed.

(** A map updated with another one. *)
Lemma update_all_lookup (g : option (list bytes) → list bytes → list bytes) (acc c : Candidates) i :
  foldl (λ m x, <[x.1 := g (m !! x.1) x.2]> m) acc (bt_iter c) !! i = match c !! i with Some l => Some (g (acc !! i) l) | None => acc !! i end.
Proof.
  destruct (foldl_update_lookup g (bt_iter c) acc i (bt_iter_NoDup c)) as [Hin Hout]. destruct (c !! i) as [l|] eqn:E.
  - by apply Hin, bt_iter_elem_of.
  - apply Hout. rewrite bt_iter_keys, E. by intros [].
Qed.

Definition in_bucket (self : bytes) (i : Z) (peers : list bytes) : list bytes := filter (λ p, bucket_of self p = Some i) peers.

(** A list as a map entry: none if it is empty. *)
Definition bucket_entry (l : list bytes) : option (list bytes) := match l with [] => None | _ => Some l end.

Lemma bucket_entry_default o l : o = bucket_entry l → default [] o = l.
Proof. intros ->. by destruct l. Qed.

Lemma by_bucket_lookup self peers i : by_bucket self peers !! i = bucket_entry (in_bucket self i peers).
Proof.
  unfold by_bucket. induction peers as [|p peers IH] using rev_ind; [done|]. rewrite foldl_app. simpl. unfold in_bucket. rewrite filter_app, filter_cons.
  fold (in_bucket self i peers). destruct (bucket_of self p) as [j|] eqn:Ep.
  - destruct (decide (j = i)) as [->|Hne].
    + rewrite decide_True by done. rewrite lookup_insert_eq, (bucket_entry_default _ _ IH). by destruct (in_bucket self i peers).
    + rewrite decide_False by congruence. rewrite lookup_insert_ne by done. by rewrite app_nil_r.
  - rewrite decide_False by done. by rewrite app_nil_r.
Qed.

Lemma merge_capped_lookup acc c i :
  merge_capped acc c !! i =
  match c !! i with
  | Some l => let entry := default [] (acc !! i) in Some (entry ++ take (MAX_PEERS_PER_BUCKET - length entry) l)
  | None => acc !! i
  end.
Proof. exact (update_all_lookup (λ o l, default [] o ++ take (MAX_PEERS_PER_BUCKET - length (default [] o)) l) acc c i). Qed.

Lemma take_more {A} n (l k : list A) : take n (l ++ k) = take n l ++ take (n - length (take n l)) k.
Proof.
  rewrite take_app. f_equal. destruct (decide (n ≤ length l)%nat); [rewrite length_take_le by done; by replace (n - length l)%nat with (n - n)%nat by lia|].
  by rewrite length_take_ge by lia.
Qed.

Lemma generate_lookup self batches i :
  generate_candidates self batches !! i = bucket_entry (take MAX_PEERS_PER_BUCKET (in_bucket self i (concat batches))).
Proof.
  unfold generate_candidates. induction batches as [|b batches IH] using rev_ind; [done|]. rewrite fmap_app, foldl_app. simpl.
  rewrite merge_capped_lookup, by_bucket_lookup, IH. cbv zeta. rewrite concat_app. unfold in_bucket. rewrite filter_app. simpl. rewrite app_nil_r. fold (in_bucket self i b).
  fold (in_bucket self i (concat batches)). set (l := in_bucket self i (concat batches)). set (k := in_bucket self i b). rewrite take_more.
  rewrite (bucket_entry_default _ _ eq_refl). destruct k as [|x k]; [by rewrite take_nil, app_nil_r|]. cbn [bucket_entry].
  by destruct (take MAX_PEERS_PER_BUCKET l) as [|y l'].
Qed.

(** How the random peers are spread over threads does not matter. Whatever the batches, the
    candidates generated for a bucket are the first five of its peers. *)
Theorem generate_candidates_exact self batches i :
  generate_candidates self batches !! i = bucket_entry (take MAX_PEERS_PER_BUCKET (in_bucket self i (concat batches))).
Proof.
  apply generate_lookup.
Qed.
(** Every bucket has candidates, and they belong to it. *)
Definition buckets_ok (self : bytes) (c : Candidates) : Prop := ∀ i l, c !! i = Some l → l ≠ [] ∧ ∀ p, p ∈ l → bucket_of self p = Some i.

Lemma generated_ok self batches : buckets_ok self (generate_candidates self batches).
Proof.
  intros i l. rewrite generate_lookup. intros E. assert (l = take MAX_PEERS_PER_BUCKET (in_bucket self i (concat batches)) ∧ l ≠ []) as [-> Hne].
  { destruct (take _ _) in E |- *; [done|]. by injection E as <-. }
  split; [done|]. intros p (k & Hk & _)%elem_of_take. apply list_elem_of_lookup_2 in Hk. by apply list_elem_of_filter in Hk as [Hp _].
Qed.

Lemma by_bucket_ok self peers : buckets_ok self (by_bucket self peers).
Proof.
  intros i l. rewrite by_bucket_lookup. intros E. assert (l = in_bucket self i peers ∧ l ≠ []) as [-> Hne].
  { destruct (in_bucket _ _ _) in E |- *; [done|]. by injection E as <-. }
  split; [done|]. intros p [Hp _]%list_elem_of_filter. done.
Qed.

(** What an insertion leaves in a bucket. *)
Definition inserted (o : option (list bytes)) (new : list bytes) : list bytes :=
  match o with
  | Some existing => let all := existing ++ filter (λ x, x ∉ existing) new in drop (length all - MAX_PEERS_PER_BUCKET) all
  | None => new
  end.

Lemma insert_all_lookup c new i : insert_all c new !! i = match new !! i with Some l => Some (inserted (c !! i) l) | None => c !! i end.
Proof.
  rewrite <- (update_all_lookup inserted c new i). unfold insert_all. f_equal. revert c. induction (bt_iter new) as [|x l IH]; intros c; simpl; [done|].
  rewrite IH. f_equal. unfold insert_candidates. by destruct (c !! x.1).
Qed.

Lemma insert_all_ok self c new : buckets_ok self c → buckets_ok self new → buckets_ok self (insert_all c new).
Proof.
  intros Hc Hnew i l. rewrite insert_all_lookup. destruct (new !! i) as [k|] eqn:Ek; [|apply Hc]. intros [= <-]. destruct (Hnew _ _ Ek) as [Hk Hkp].
  unfold inserted. destruct (c !! i) as [e|] eqn:Ee; [|done]. destruct (Hc _ _ Ee) as [He Hep]. set (all := e ++ _). split.
  - intros E. apply (f_equal length) in E. rewrite length_drop in E. simpl in E. assert (0 < length all)%nat by (unfold all; destruct e; simpl; [done|lia]).
    unfold MAX_PEERS_PER_BUCKET in E. lia.
  - intros p (j & Hj)%list_elem_of_lookup. rewrite lookup_drop in Hj. apply list_elem_of_lookup_2 in Hj as Hp. unfold all in Hp. apply elem_of_app in Hp as [Hp|[_ Hp]%list_elem_of_filter]; auto.
Qed.

(** The states of the candidates. *)
Inductive discovery_reachable (self : bytes) : NetworkDiscoveryCandidates → Prop :=
  | dr_new batches : discovery_reachable self (discovery_candidates_new self batches)
  | dr_closest d peers : discovery_reachable self d → discovery_reachable self (handle_get_closest_query d peers)
  | dr_targets d batches non_full full i : discovery_reachable self d → discovery_reachable self (get_candidates batches non_full full i d).2.

Lemma discovery_ok self d : discovery_reachable self d → nd_self_peer_id d = self ∧ buckets_ok self (nd_candidates d).
Proof.
  induction 1 as [batches|d peers Hd [Hs IH]|d batches non_full full i Hd [Hs IH]]; simpl.
  - split; [done|apply generated_ok].
  - split; [done|]. rewrite Hs. apply insert_all_ok; [done|apply by_bucket_ok].
  - split; [done|]. rewrite Hs. apply insert_all_ok; [done|apply generated_ok].
Qed.

Lemma round_robin_elem {A} i (l : list A) : l ≠ [] → ∃ x, round_robin i l = Some x ∧ x ∈ l.
Proof.
  intros Hne. unfold round_robin. destruct l as [|y l]; [done|]. set (k := y :: l). assert (i mod length k < length k)%nat as Hlt by (apply Nat.mod_upper_bound; done).
  destruct (lookup_lt_is_Some_2 k _ Hlt) as [x Hx]. exists x. split; [done|]. by eapply list_elem_of_lookup_2.
Qed.

Lemma fill_targets_spec rr known cands targets :
  (∀ i l, (i, l) ∈ cands → l ≠ []) →
  ∃ more, fill_targets rr known cands targets = targets ++ more ∧ (length (targets ++ more) ≤ 10 ∨ more = [])%nat ∧
    (∀ t, t ∈ more → ∃ i l, (i, l) ∈ cands ∧ (i ∉ known) ∧ t ∈ l) ∧
    ((length (targets ++ more) < 10)%nat → ∀ i l, (i, l) ∈ cands → (i ∉ known) → ∃ t, t ∈ more ∧ t ∈ l).
Proof.
  intros Hne. revert targets. induction cands as [|[i l] cands IH]; intros targets; cbn [fill_targets].
  - exists []. rewrite app_nil_r. split_and!; [done|by right|set_solver|set_solver].
  - assert (∀ i l, (i, l) ∈ cands → l ≠ []) as Hne' by (intros j k Hj; apply (Hne j); by right). specialize (IH Hne').
    destruct (Nat.leb_spec 10 (length targets)) as [Hfull|Hroom]; [exists []; rewrite app_nil_r; split_and!; [done|by right|set_solver|lia]|].
    case_bool_decide as Hknown.
    + destruct (IH targets) as (more & -> & F1 & F2 & F3). exists more. split_and!; [done|done|set_solver|]. intros Hlt j k [[= -> ->]|Hj]%elem_of_cons Hn; [done|by eapply F3].
    + destruct (round_robin_elem rr l) as (x & -> & Hx); [apply (Hne i); left|]. destruct (IH (targets ++ option_list (Some x))) as (more & -> & F1 & F2 & F3).
      exists (x :: more). simpl. rewrite <- app_assoc in *. simpl in *. split_and!; [done| | |].
      * destruct F1 as [F1| ->]; [by left|]. left. rewrite length_app. simpl. lia.
      * intros t [->|Ht]%elem_of_cons; [exists i, l; split_and!; [left|done|done]|]. destruct (F2 t Ht) as (j & k & Hj & Hrest). exists j, k. split; [by right|done].
      * intros Hlt j k [[= -> ->]|Hj]%elem_of_cons Hn; [exists x; split; [left|done]|]. destruct (F3 Hlt j k Hj Hn) as (t & Ht & Htk). exists t. split; [by right|done].
Qed.

Lemma omap_length_le {A B} (f : A → option B) l : (length (omap f l) ≤ length l)%nat.
Proof.
  induction l as [|a l IH]; [done|]. change (omap f (a :: l)) with (match f a with Some b => b :: omap f l | None => omap f l end). destruct (f a); simpl; lia.
Qed.

(** The targets of network discovery. The index into a bucket's candidates never fails, since a
    bucket has some. The first target is the node itself; every other one lies in a bucket that is not
    full, or is empty. Every bucket that is not full and has candidates gets a target; empty buckets are
    added until there are ten, and all of them if there are fewer. *)
Theorem discovery_targets_exact self d batches non_full full i :
  discovery_reachable self d →
  let '(targets, d') := get_candidates batches non_full full i d in
  head targets = Some self ∧
  (∀ t, t ∈ tail targets → ∃ b, bucket_of self t = Some b ∧ (b ∈ non_full ∨ (b ∉ full))) ∧
  (∀ b, b ∈ non_full → is_Some (nd_candidates d' !! b) → ∃ t, t ∈ targets ∧ bucket_of self t = Some b) ∧
  (length targets ≤ 10 `max` (1 + length non_full))%nat ∧
  ((length targets < 10)%nat → ∀ b, is_Some (nd_candidates d' !! b) → (b ∉ full) → ∃ t, t ∈ targets ∧ bucket_of self t = Some b).
Proof.
  intros Hreach. destruct (discovery_ok self _ (dr_targets self d batches non_full full i Hreach)) as [Hs' Hok].
  unfold get_candidates in *. cbn [snd] in *. set (d' := try_refresh_candidates batches d) in *. rewrite Hs'.
  set (pick := λ b, l ← nd_candidates d' !! b; round_robin i l).
  assert (∀ b, is_Some (nd_candidates d' !! b) → ∃ t, pick b = Some t ∧ bucket_of self t = Some b) as Hpick.
  { intros b [l Hl]. destruct (Hok _ _ Hl) as [Hne Hl']. destruct (round_robin_elem i l Hne) as (t & Ht & Htl). exists t. unfold pick. rewrite Hl. simpl. auto. }
  assert (∀ b t, pick b = Some t → bucket_of self t = Some b) as Hpick'.
  { intros b t Ht. unfold pick in Ht. destruct (nd_candidates d' !! b) as [l|] eqn:El; [|done]. destruct (Hpick b) as (t' & Ht' & Hb); [by eexists|]. unfold pick in Ht'. rewrite El in Ht'. simpl in *. congruence. }
  destruct (fill_targets_spec i (non_full ++ full) (bt_iter (nd_candidates d')) (self :: omap pick non_full)) as (more & -> & Hlen & Hmore & Hall).
  { intros b l Hl%bt_iter_elem_of. by apply (Hok b). }
  assert (∀ t b l, (b, l) ∈ bt_iter (nd_candidates d') → t ∈ l → bucket_of self t = Some b) as Hin by (intros t b l Hl%bt_iter_elem_of; by apply (Hok b)).
  assert (∀ b, b ∈ non_full → is_Some (nd_candidates d' !! b) → ∃ t, t ∈ (self :: omap pick non_full) ++ more ∧ bucket_of self t = Some b) as Hnf.
  { intros b Hb Hl. destruct (Hpick b Hl) as (t & Ht & Htb). exists t. split; [|done]. apply elem_of_app. left. right. apply list_elem_of_omap. by exists b. }
  split_and!; [done| |done| |].
  - simpl. intros t [(b & Hb & Ht)%list_elem_of_omap|Ht]%elem_of_app; [exists b; split; [by apply Hpick'|by left]|].
    destruct (Hmore t Ht) as (b & l & Hl & Hk & Htl). exists b. split; [by eapply Hin|]. right. set_solver.
  - assert (length (omap pick non_full) ≤ length non_full)%nat as Hle by apply omap_length_le.
    destruct Hlen as [Hlen| ->]; [lia|]. rewrite app_nil_r. simpl. lia.
  - intros Hlt b Hb Hnfull. destruct (decide (b ∈ non_full)) as [|Hnn]; [by apply Hnf|]. destruct Hb as [l Hl]. apply bt_iter_elem_of in Hl.
    destruct (Hall Hlt b l Hl ltac:(set_solver)) as (t & Ht & Htl). exists t. split; [set_solver|by eapply Hin].
Qed.

(** How long the node waits between two discoveries. When no peer was added for three minutes the
    interval is drawn anew from ten to twenty minutes, also when it was longer before; otherwise it only
    grows. *)
Theorem discovery_interval scaled now random peers current n new :
  (∀ x, 0 ≤ x < 450 → scaled x ≤ 1200 * NANOS) → 600 ≤ random < 1200 → 0 ≤ peers →
  (should_we_discover scaled now random peers current n).2 = Some new →
  new ≤ 1200 * NANOS ∧ (current < new ∨ (LAST_PEER_ADDED_TIME_LIMIT < now - nd_last_peer_added n ∧ new < 1200 * NANOS)).
Proof.
  intros Hscaled Hrandom Hpeers. unfold should_we_discover. destruct (Z.ltb_spec LAST_PEER_ADDED_TIME_LIMIT (now - nd_last_peer_added n)); simpl.
  - destruct (Z.eqb_spec peers 0); simpl; [|intros [= <-]; unfold NANOS; lia].
    destruct (Z.ltb_spec current (scaled_duration scaled peers)); [|done]. intros [= <-]. unfold scaled_duration in *. split; [|by left].
    destruct (Z.leb_spec 450 peers); [lia|]. apply Hscaled. lia.
  - destruct (Z.ltb_spec current (scaled_duration scaled peers)); [|done]. intros [= <-]. unfold scaled_duration in *. split; [|by left].
    destruct (Z.leb_spec 450 peers); [lia|]. apply Hscaled. lia.
Qed.
End discovery_facts.

(** * Witnesses *)

Section discovery_witnesses.
#[local] Existing Instances toy_xorname toy_hex toy_bls toy_kad.

(** Peer 1 is in bucket 0, peers 2 and 3 are in bucket 1. *)
Lemma discovery_targets_exact_witness :
  let d := discovery_candidates_new [0] [[[1]; [2]]; [[3]]] in
  (get_candidates [] [0] [] 0 d).1 = [[0]; [1]; [2]] ∧ head (get_candidates [] [0] [] 0 d).1 = Some [0].
Proof.
  intros d. split; [vm_compute; reflexivity|]. pose proof (discovery_targets_exact [0] d [] [0] [] 0 (dr_new _ _)) as Ht.
  destruct (get_candidates [] [0] [] 0 d) as [targets d']. exact (proj1 Ht).
Defined.

Lemma discovery_interval_witness :
  let n := network_discovery_new 0 [0] [] in
  (should_we_discover (λ _, 60 * NANOS) (200 * NANOS) 700 500 (1200 * NANOS) n).2 = Some (700 * NANOS) ∧ 700 * NANOS ≤ 1200 * NANOS.
Proof.
  intros n. assert ((should_we_discover (λ _, 60 * NANOS) (200 * NANOS) 700 500 (1200 * NANOS) n).2 = Some (700 * NANOS)) as E by reflexivity. split; [exact E|].
  refine (proj1 (discovery_interval (λ _, 60 * NANOS) (200 * NANOS) 700 500 (1200 * NANOS) n _ _ _ _ E)); [intros; unfold NANOS|..]; lia.
Defined.
End discovery_witnesses.
