(* ===== verification/BootstrapCache.v ===== *)
(** * The bootstrap cache

    Models src/ant-bootstrap/src/cache_store: the peers a node or a client remembers for its next start
    (cache_data_v1.rs), the older format (cache_data_v0.rs) and the store that merges what it learned
    with the file and writes it back (mod.rs). serde_json is the parameter [CacheJson]; the file system
    is the contents of the two files, and which of its operations fail is an argument. *)

From stdpp Require Import base gmap countable strings list.
From Stdlib Require Import ZArith Lia.
From S2P Require Import Prelude Text Protocol RecordCache Multiaddr.

(** ** Configuration *)

(** Durations are in nanoseconds; the directory of the cache is not modelled. *)
Record BootstrapConfig := {
  bc_backwards_compatible_writes : bool;
  bc_cache_save_scaling_factor : Z;
  bc_disable_cache_writing : bool;
  bc_disable_cache_reading : bool;
  bc_disable_env_peers : bool;
  bc_first : bool;
  bc_initial_peers : list Multiaddr;
  bc_local : bool;
  bc_max_cache_save_duration : Z;
  bc_max_concurrent_dials : nat;
  bc_max_contacted_peers_before_termination : nat;
  bc_max_cached_peers : nat;
  bc_max_addrs_per_cached_peer : nat;
  bc_min_cache_save_duration : Z;
  bc_network_contacts_url : list bytes;
}.

Definition nanos : Z := 10 ^ 9.

Definition MAX_CACHED_PEERS : nat := 1500.
Definition MAX_ADDRS_PER_CACHED_PEER : nat := 3.
Definition MIN_BOOTSTRAP_CACHE_SAVE_INTERVAL : Z := 30 * nanos.
Definition MAX_BOOTSTRAP_CACHE_SAVE_INTERVAL : Z := 3 * 60 * 60 * nanos.
Definition CONCURRENT_DIALS : nat := 10.
Definition MAX_PEERS_BEFORE_TERMINATION : nat := 5.

Definition bootstrap_config_default : BootstrapConfig :=
  {| bc_backwards_compatible_writes := false; bc_cache_save_scaling_factor := 2; bc_disable_cache_writing := false;
     bc_disable_cache_reading := false; bc_disable_env_peers := false; bc_first := false; bc_initial_peers := [];
     bc_local := false; bc_max_cache_save_duration := MAX_BOOTSTRAP_CACHE_SAVE_INTERVAL; bc_max_concurrent_dials := CONCURRENT_DIALS;
     bc_max_contacted_peers_before_termination := MAX_PEERS_BEFORE_TERMINATION; bc_max_cached_peers := MAX_CACHED_PEERS;
     bc_max_addrs_per_cached_peer := MAX_ADDRS_PER_CACHED_PEER; bc_min_cache_save_duration := MIN_BOOTSTRAP_CACHE_SAVE_INTERVAL;
     bc_network_contacts_url := [] |}.

Record InitialPeersConfig := {
  ip_first : bool; ip_addrs : list Multiaddr; ip_network_contacts_url : list bytes; ip_local : bool; ip_ignore_cache : bool;
  ip_bootstrap_cache_dir : option bytes;
}.

Definition config_of_initial_peers (config : InitialPeersConfig) : BootstrapConfig :=
  let d := bootstrap_config_default in
  {| bc_backwards_compatible_writes := bc_backwards_compatible_writes d; bc_cache_save_scaling_factor := bc_cache_save_scaling_factor d;
     bc_disable_cache_writing := bc_disable_cache_writing d; bc_disable_cache_reading := ip_ignore_cache config;
     bc_disable_env_peers := bc_disable_env_peers d; bc_first := ip_first config; bc_initial_peers := ip_addrs config;
     bc_local := ip_local config; bc_max_cache_save_duration := bc_max_cache_save_duration d; bc_max_concurrent_dials := bc_max_concurrent_dials d;
     bc_max_contacted_peers_before_termination := bc_max_contacted_peers_before_termination d; bc_max_cached_peers := bc_max_cached_peers d;
     bc_max_addrs_per_cached_peer := bc_max_addrs_per_cached_peer d; bc_min_cache_save_duration := bc_min_cache_save_duration d;
     bc_network_contacts_url := ip_network_contacts_url config |}.

(** ** Intervals of the periodic flush *)

Definition duration_max : Z := 2 ^ 64 * nanos - 1.

(** [duration_with_variance], for the draw of [gen_range(0..n)], which panics on an empty range. The
    product of the seconds and the variance of 10 or 1 percent in floating point, truncated, is the
    integer quotient for durations below 2^45 seconds. *)
Definition duration_with_variance (draw : Z → Z) (duration variance : Z) : option Z :=
  let n := (duration / nanos * variance) / 100 in
  if n =? 0 then None
  else
    let adjustment := draw n in
    if Z.even adjustment then Some (Z.max 0 (duration - adjustment * nanos))
    else Some (Z.min duration_max (duration + adjustment * nanos)).

(** The interval after [interval]: [checked_mul] and the minimum. *)
Definition next_interval (cfg : BootstrapConfig) (max_cache_save_duration interval : Z) : Z :=
  let scaled := interval * bc_cache_save_scaling_factor cfg in
  Z.min (if duration_max <? scaled then max_cache_save_duration else scaled) max_cache_save_duration.

(** The intervals [sync_and_flush_periodically] sleeps before its first n flushes, each with its own
    draws, and whether the task is alive after them or has panicked. *)
Fixpoint intervals_from (cfg : BootstrapConfig) (draw : nat → Z → Z) (n i : nat) (interval : Z) : list Z * bool :=
  match n with
  | O => ([], true)
  | S n =>
    match duration_with_variance (draw i) (bc_max_cache_save_duration cfg) 1 with
    | Some max_cache_save_duration =>
      let '(rest, alive) := intervals_from cfg draw n (S i) (next_interval cfg max_cache_save_duration interval) in
      (interval :: rest, alive)
    | None => ([interval], false)
    end
  end.

Definition sync_and_flush_periodically (cfg : BootstrapConfig) (draw : nat → Z → Z) (n : nat) : list Z * bool :=
  match duration_with_variance (draw 0%nat) (bc_min_cache_save_duration cfg) 10 with
  | Some interval => if bc_disable_cache_writing cfg then ([], true) else intervals_from cfg draw n 1 interval
  | None => ([], false)
  end.

(** ** Cache data, version 1 *)

Record CacheData := {
  cd_peers : list (bytes * list Multiaddr);
  cd_last_updated : Z;
  cd_network_version : bytes;
  cd_cache_version : bytes;
}.

Definition CACHE_DATA_VERSION : bytes := text "1".

Definition cache_default (now : Z) (network_version : bytes) : CacheData :=
  {| cd_peers := []; cd_last_updated := now; cd_network_version := network_version; cd_cache_version := CACHE_DATA_VERSION |}.

Definition cd_with_peers (d : CacheData) (peers : list (bytes * list Multiaddr)) : CacheData :=
  {| cd_peers := peers; cd_last_updated := cd_last_updated d; cd_network_version := cd_network_version d;
     cd_cache_version := cd_cache_version d |}.

(** [while l.len() > max { l.pop_back(); }]; each turn shortens the list. *)
Fixpoint pop_excess {A} (fuel max : nat) (l : list A) : list A :=
  match fuel with
  | O => l
  | S fuel => if (max <? length l)%nat then pop_excess fuel max (removelast l) else l
  end.

Definition shrink {A} (max : nat) (l : list A) : list A := pop_excess (length l) max l.

(** The addresses of a peer with those of the file pushed to the back. *)
Definition merge_addrs (addrs other_addrs : list Multiaddr) : list Multiaddr :=
  foldl (λ addrs other_addr, if decide (other_addr ∈ addrs) then addrs else addrs ++ [other_addr]) addrs other_addrs.

(** The loop of [sync] over the own peers. *)
Fixpoint sync_peers (max_addrs_per_peer : nat) (peers : list (bytes * list Multiaddr)) (other_peers : gmap bytes (list Multiaddr))
    : list (bytes * list Multiaddr) * gmap bytes (list Multiaddr) :=
  match peers with
  | [] => ([], other_peers)
  | (peer, addrs) :: peers =>
    let addrs := match other_peers !! peer with
                 | Some other_addrs => shrink max_addrs_per_peer (merge_addrs addrs other_addrs)
                 | None => addrs
                 end in
    let '(peers, other_peers) := sync_peers max_addrs_per_peer peers (delete peer other_peers) in
    ((peer, addrs) :: peers, other_peers)
  end.

(** ** Cache data, version 0 *)

Record BootstrapAddr := { ba_addr : Multiaddr; ba_success_count : Z; ba_failure_count : Z; ba_last_seen : Z }.

Record CacheDataV0 := {
  c0_peers : gmap bytes (list BootstrapAddr);
  c0_last_updated : Z;
  c0_network_version : bytes;
}.

(** serde_json on the two formats: a value is read back, with a newline after it, no other value is
    read from a part of its text, and none from an empty text. *)
Class CacheJson := {
  to_json_v1 : CacheData → option bytes;
  from_json_v1 : bytes → option CacheData;
  to_json_v0 : CacheDataV0 → option bytes;
  from_json_v0 : bytes → option CacheDataV0;
}.

Class CacheJsonLaws `{CacheJson} : Prop := {
  json_v1_roundtrip : ∀ d b, to_json_v1 d = Some b → from_json_v1 (b ++ [10]) = Some d;
  json_v1_prefix : ∀ d b n d', to_json_v1 d = Some b → from_json_v1 (take n (b ++ [10])) = Some d' → d' = d;
  json_v1_empty : from_json_v1 [] = None;
  json_v0_roundtrip : ∀ d b, to_json_v0 d = Some b → from_json_v0 (b ++ [10]) = Some d;
}.

(** ** Operations *)

Section cache.
Context `{HashOrder}.

Definition cache_sync (now : Z) (other : CacheData) (max_addrs_per_peer max_peers : nat) (d : CacheData) : CacheData :=
  let other_peers := foldl (λ m x, <[x.1 := x.2]> m) (∅ : gmap bytes (list Multiaddr)) (cd_peers other) in
  let '(peers, other_peers) := sync_peers max_addrs_per_peer (cd_peers d) other_peers in
  let peers := shrink max_peers peers in
  let required_len := (max_peers - length peers)%nat in
  {| cd_peers := peers ++ take required_len (hm_iter other_peers); cd_last_updated := now;
     cd_network_version := cd_network_version d; cd_cache_version := cd_cache_version d |}.

(** The addresses that are new are pushed to the front. *)
Definition add_addrs (addrs new_addrs : list Multiaddr) : list Multiaddr :=
  foldl (λ addrs addr, if decide (addr ∈ addrs) then addrs else addr :: addrs) addrs new_addrs.

(** [add_peer] on the first entry of that peer, which is kept in its place. *)
Fixpoint update_present (peer_id : bytes) (new_addrs : list Multiaddr) (max_addrs_per_peer : nat)
    (peers : list (bytes * list Multiaddr)) : option (list (bytes * list Multiaddr)) :=
  match peers with
  | [] => None
  | (id, addrs) :: peers =>
    if decide (id = peer_id) then Some ((id, shrink max_addrs_per_peer (add_addrs addrs new_addrs)) :: peers)
    else cons (id, addrs) <$> update_present peer_id new_addrs max_addrs_per_peer peers
  end.

Definition add_peer (peer_id : bytes) (addrs : list Multiaddr) (max_addrs_per_peer max_peers : nat) (d : CacheData) : CacheData :=
  cd_with_peers d
    (shrink max_peers
       match update_present peer_id addrs max_addrs_per_peer (cd_peers d) with
       | Some peers => peers
       | None => (peer_id, take max_addrs_per_peer addrs) :: cd_peers d
       end).

Definition cache_remove_peer (peer_id : bytes) (d : CacheData) : CacheData :=
  cd_with_peers d (filter (λ x, x.1 ≠ peer_id) (cd_peers d)).

Definition get_all_addrs (d : CacheData) : list Multiaddr := omap (λ x : bytes * list Multiaddr, head x.2) (cd_peers d).

(** The conversions between the formats. *)
Definition v0_of_v1 (now : Z) (d : CacheData) : CacheDataV0 :=
  {| c0_peers := foldl (λ m x, <[x.1 := (λ addr, {| ba_addr := addr; ba_success_count := 0; ba_failure_count := 0; ba_last_seen := now |}) <$> x.2]> m)
                   ∅ (cd_peers d);
     c0_last_updated := cd_last_updated d; c0_network_version := cd_network_version d |}.

Definition v1_of_v0 (d : CacheDataV0) : CacheData :=
  {| cd_peers := (λ x : bytes * list BootstrapAddr, (x.1, ba_addr <$> x.2)) <$> hm_iter (c0_peers d);
     cd_last_updated := c0_last_updated d; cd_network_version := c0_network_version d; cd_cache_version := CACHE_DATA_VERSION |}.

(** ** Files *)

Context `{!CacheJson}.

(** The contents of version_1/<name> and of <name>. *)
Record CacheFiles := { file_v1 : option bytes; file_v0 : option bytes }.

(** [lock_with_retry], for what each attempt gives. *)
Definition lock_with_retry (operation : nat → bool) : bool := operation 1%nat || operation 2%nat || operation 3%nat.

(** Reading: whether the lock is had at an attempt, and whether the file can be read. *)
Record ReadIo := { io_lock : nat → bool; io_read : bool; io_read_v0 : bool }.

Definition read_from_file (io : ReadIo) (f : CacheFiles) : option CacheData :=
  contents ← file_v1 f;
  if lock_with_retry (io_lock io) && io_read io then from_json_v1 contents else None.

Definition read_from_file_v0 (io : ReadIo) (f : CacheFiles) : option CacheDataV0 :=
  contents ← file_v0 f;
  if io_read_v0 io then from_json_v0 contents else None.

(** How far a write of the first format gets: not to the file; to the file, which is created when there is
    none, but not to its lock or its truncation; to its truncation and so many bytes; or to the end.
    The write of the older format is atomic. *)
Inductive WriteIo := NotOpened | NotLocked | Interrupted (written : nat) | Completed.

Definition write_to_file (io : WriteIo) (d : CacheData) (f : CacheFiles) : result unit unit * CacheFiles :=
  let contains c := {| file_v1 := Some c; file_v0 := file_v0 f |} in
  match io, to_json_v1 d with
  | NotOpened, _ => (Err tt, f)
  | NotLocked, _ | _, None => (Err tt, contains (default [] (file_v1 f)))
  | Interrupted n, Some data => (Err tt, contains (take n (data ++ [10])))
  | Completed, Some data => (Ok tt, contains (data ++ [10]))
  end.

Definition write_to_file_v0 (ok : bool) (d : CacheDataV0) (f : CacheFiles) : result unit unit * CacheFiles :=
  match ok, to_json_v0 d with
  | true, Some data => (Ok tt, {| file_v1 := file_v1 f; file_v0 := Some (data ++ [10]) |})
  | _, _ => (Err tt, f)
  end.

(** ** BootstrapCacheStore *)

Record BootstrapCacheStore := { cs_data : CacheData; cs_to_remove : gset bytes }.

Context (cfg : BootstrapConfig).

Definition queue_remove_peer (peer_id : bytes) (s : BootstrapCacheStore) : BootstrapCacheStore :=
  {| cs_data := cs_data s; cs_to_remove := {[peer_id]} ∪ cs_to_remove s |}.

Definition add_addr (addr : Multiaddr) (s : BootstrapCacheStore) : BootstrapCacheStore :=
  if existsb is_circuit addr then s
  else
    match craft_valid_multiaddr addr false with
    | None => s
    | Some addr =>
      match find_protocol is_p2p addr with
      | Some (P2p peer_id) =>
        {| cs_data := add_peer peer_id [addr] (bc_max_addrs_per_cached_peer cfg) (bc_max_cached_peers cfg) (cs_data s);
           cs_to_remove := cs_to_remove s |}
      | _ => s
      end
    end.

Definition load_cache_data (io : ReadIo) (f : CacheFiles) : option CacheData :=
  let limit d := cd_with_peers d (shrink (bc_max_cached_peers cfg) (cd_peers d)) in
  match read_from_file io f with
  | Some data => Some (limit data)
  | None =>
    match read_from_file_v0 io f with
    | Some data => Some (limit (v1_of_v0 data))
    | None => None
    end
  end.

Definition cache_write (now : Z) (io : WriteIo) (v0_ok : bool) (d : CacheData) (f : CacheFiles) : result unit unit * CacheFiles :=
  if bc_disable_cache_writing cfg then (Ok tt, f)
  else
    match write_to_file io d f with
    | (Ok _, f) => if bc_backwards_compatible_writes cfg then write_to_file_v0 v0_ok (v0_of_v1 now d) f else (Ok tt, f)
    | (Err e, f) => (Err e, f)
    end.

(** The first half of [sync_and_flush_to_disk]: the data is merged with the file and the queued peers
    are removed. [None] when there is nothing to do. *)
Definition sync_with_file (now : Z) (io : ReadIo) (f : CacheFiles) (s : BootstrapCacheStore) : option BootstrapCacheStore :=
  if bc_disable_cache_writing cfg then None
  else if (length (cd_peers (cs_data s)) =? 0)%nat then None
  else
    let data := match load_cache_data io f with
                | Some data_from_file =>
                  cache_sync now data_from_file (bc_max_addrs_per_cached_peer cfg) (bc_max_cached_peers cfg) (cs_data s)
                | None => cs_data s
                end in
    Some {| cs_data := foldl (λ d p, cache_remove_peer p d) data (hs_iter (cs_to_remove s)); cs_to_remove := ∅ |}.

(** The second half: the data is written and, if that succeeds, cleared. *)
Definition flush (now : Z) (io : WriteIo) (v0_ok : bool) (f : CacheFiles) (s : BootstrapCacheStore)
    : result unit unit * CacheFiles * BootstrapCacheStore :=
  match cache_write now io v0_ok (cs_data s) f with
  | (Ok _, f) => (Ok tt, f, {| cs_data := cd_with_peers (cs_data s) []; cs_to_remove := cs_to_remove s |})
  | (Err e, f) => (Err e, f, s)
  end.

Definition sync_and_flush_to_disk (now : Z) (rio : ReadIo) (wio : WriteIo) (v0_ok : bool) (f : CacheFiles) (s : BootstrapCacheStore)
    : result unit unit * CacheFiles * BootstrapCacheStore :=
  match sync_with_file now rio f s with
  | None => (Ok tt, f, s)
  | Some s => flush now wio v0_ok f s
  end.
End cache.
