(* ===== verification/BootstrapCacheProps.v ===== *)
(** * Properties of the bootstrap cache

    Of src/ant-bootstrap/src/cache_store: the periods of its flushes; whatever processes share the cache files, what is read from
    them is bounded and well formed; what a flush leaves in the file; and that a removal is forgotten
    when the write fails. *)

From stdpp Require Import base gmap countable strings list relations.
From Stdlib Require Import ZArith Lia.
From S2P Require Import Prelude Text Protocol RecordCache Multiaddr BootstrapCache.

Lemma pop_excess_take {A} fuel max (l : list A) : (length l ≤ fuel + max)%nat → pop_excess fuel max l = take max l.
Proof.
  revert l. induction fuel as [|fuel IH]; intros l Hlen; simpl; [by rewrite take_ge by lia|].
  destruct (Nat.ltb_spec max (length l)) as [Hlt|Hge]; [|by rewrite take_ge by lia].
  destruct l as [|x l _] using rev_ind; [simpl in Hlt; lia|]. rewrite removelast_last. rewrite length_app in Hlen, Hlt. simpl in Hlen, Hlt.
  rewrite IH by lia. by rewrite take_app_le by lia.
Qed.

Lemma shrink_take {A} max (l : list A) : shrink max l = take max l.
Proof. apply pop_excess_take. lia. Qed.

Lemma take_elem {A} n (l : list A) x : x ∈ take n l → x ∈ l.
Proof. rewrite <- (take_drop n l) at 2. set_solver. Qed.

Lemma NoDup_take {A} n (l : list A) : NoDup l → NoDup (take n l).
Proof. intros Hnd. exact (sublist_NoDup _ _ Hnd (sublist_take l n)). Qed.

(** ** Intervals *)

Section intervals.
Context (draw : nat → Z → Z) (Hdraw : ∀ i n, 0 < n → 0 ≤ draw i n < n).

Lemma duration_with_variance_spec i d v :
  0 ≤ d ≤ duration_max → 0 ≤ v ≤ 100 →
  match duration_with_variance (draw i) d v with
  | Some d' => (100 - v) * d ≤ 100 * d' ∧ 100 * d' ≤ (100 + v) * d ∧ 0 ≤ d' ≤ duration_max
  | None => d / nanos * v < 100
  end.
Proof.
  intros Hd Hv. unfold duration_with_variance. set (n := d / nanos * v / 100).
  assert (0 ≤ d / nanos ∧ d / nanos * nanos ≤ d) as [Hsecs Hle] by (unfold nanos; split; [apply Z.div_pos; lia|pose proof (Z.mul_div_le d (10 ^ 9)); lia]).
  assert (0 ≤ n ∧ 100 * n ≤ d / nanos * v) as [Hn Hn100] by (unfold n; split; [apply Z.div_pos; nia|apply Z.mul_div_le; lia]).
  assert (100 * (n * nanos) ≤ v * d) as Hadj by (unfold nanos in *; nia).
  destruct (Z.eqb_spec n 0) as [Hz|Hz].
  { unfold n in Hz. apply Z.div_small_iff in Hz; lia. }
  pose proof (Hdraw i n ltac:(lia)) as Hr. assert (0 ≤ draw i n * nanos ≤ n * nanos) as Hrn by (unfold nanos; lia).
  destruct (Z.even (draw i n)); split_and!; lia.
Qed.

Lemma next_interval_bounds cfg lo hi m x :
  1 ≤ bc_cache_save_scaling_factor cfg → 0 ≤ x → lo ≤ 100 * m → 100 * m ≤ hi → lo ≤ 100 * x → 0 ≤ m →
  lo ≤ 100 * next_interval cfg m x ∧ 100 * next_interval cfg m x ≤ hi ∧ 0 ≤ next_interval cfg m x.
Proof.
  intros Hf Hx Hlo Hhi Hlx Hm. unfold next_interval. assert (x ≤ x * bc_cache_save_scaling_factor cfg) by nia. destruct (_ <? _); lia.
Qed.

(** The periodic flush goes on for ever, with intervals within the configured ones and their variance,
    as long as the shortest interval is at least ten and the longest at least a hundred seconds. *)
Theorem flush_intervals_bounded cfg n :
  bc_disable_cache_writing cfg = false → 10 * nanos ≤ bc_min_cache_save_duration cfg ≤ duration_max →
  100 * nanos ≤ bc_max_cache_save_duration cfg ≤ duration_max → 1 ≤ bc_cache_save_scaling_factor cfg →
  ∃ intervals, sync_and_flush_periodically cfg draw n = (intervals, true) ∧ length intervals = n ∧
    ∀ x, x ∈ intervals → Z.min (90 * bc_min_cache_save_duration cfg) (99 * bc_max_cache_save_duration cfg) ≤ 100 * x ∧
      100 * x ≤ Z.max (110 * bc_min_cache_save_duration cfg) (101 * bc_max_cache_save_duration cfg).
Proof.
  intros Hw Hmin Hmax Hf. unfold sync_and_flush_periodically. set (lo := Z.min _ _). set (hi := Z.max _ _).
  pose proof (duration_with_variance_spec 0 (bc_min_cache_save_duration cfg) 10 ltac:(unfold nanos in *; lia) ltac:(lia)) as Hfirst.
  destruct (duration_with_variance _ _ 10) as [x0|].
  2: { assert (10 ≤ bc_min_cache_save_duration cfg / nanos) by (apply Z.div_le_lower_bound; unfold nanos in *; lia). lia. }
  rewrite Hw. assert (lo ≤ 100 * x0 ∧ 100 * x0 ≤ hi ∧ 0 ≤ x0) as Hx0 by (unfold lo, hi; lia). clear Hfirst Hmin. revert x0 Hx0. generalize 1%nat.
  induction n as [|n IH]; intros i x0 Hx0; simpl; [exists []; split_and!; [done..|set_solver]|].
  pose proof (duration_with_variance_spec i (bc_max_cache_save_duration cfg) 1 ltac:(unfold nanos in *; lia) ltac:(lia)) as Hm.
  destruct (duration_with_variance _ _ 1) as [m|].
  2: { assert (100 ≤ bc_max_cache_save_duration cfg / nanos) by (apply Z.div_le_lower_bound; unfold nanos in *; lia). lia. }
  destruct (IH (S i) (next_interval cfg m x0)) as (rest & -> & Hlen & Hall).
  { apply next_interval_bounds; try lia; unfold lo, hi; lia. }
  exists (x0 :: rest). split_and!; [done|simpl; lia|]. intros x [->|Hx]%elem_of_cons; [lia|by apply Hall].
Qed.

(** With a longest interval below a hundred seconds the task panics after the first flush, and with a
    shortest one below ten seconds before it. *)
Theorem flush_task_panics cfg n :
  bc_disable_cache_writing cfg = false → 0 ≤ bc_min_cache_save_duration cfg ≤ duration_max → 0 ≤ bc_max_cache_save_duration cfg ≤ duration_max →
  bc_min_cache_save_duration cfg < 10 * nanos ∨ bc_max_cache_save_duration cfg < 100 * nanos →
  ∃ intervals, sync_and_flush_periodically cfg draw (S n) = (intervals, false) ∧ (length intervals ≤ 1)%nat.
Proof.
  intros Hw Hmin Hmax Hshort. unfold sync_and_flush_periodically. rewrite Hw. unfold duration_with_variance at 1.
  destruct (Z.eqb_spec (bc_min_cache_save_duration cfg / nanos * 10 / 100) 0) as [|Hne]; [exists []; split; [done|simpl; lia]|].
  destruct Hshort as [Hshort|Hshort].
  { destruct Hne. assert (bc_min_cache_save_duration cfg / nanos < 10) by (apply Z.div_lt_upper_bound; unfold nanos in *; lia).
    apply Z.div_small. assert (0 ≤ bc_min_cache_save_duration cfg / nanos) by (apply Z.div_pos; unfold nanos; lia). lia. }
  assert (duration_with_variance (draw 1%nat) (bc_max_cache_save_duration cfg) 1 = None) as Hnone.
  { unfold duration_with_variance. rewrite Z.div_small; [done|].
    assert (bc_max_cache_save_duration cfg / nanos < 100) by (apply Z.div_lt_upper_bound; unfold nanos in *; lia).
    assert (0 ≤ bc_max_cache_save_duration cfg / nanos) by (apply Z.div_pos; unfold nanos; lia). lia. }
  destruct (Z.even _); simpl; rewrite Hnone; eexists _; (split; [done|simpl; lia]).
Qed.
End intervals.

(** A crafted address is crafted as it is, and has no relay part. *)
Lemma craft_valid_again addr a : craft_valid_multiaddr addr false = Some a → craft_valid_multiaddr a false = Some a.
Proof. intros (Hcrafted & _ & Hsome)%craft_valid_form. by apply craft_valid_crafted. Qed.

Lemma craft_valid_no_circuit addr a : craft_valid_multiaddr addr false = Some a → existsb is_circuit a = false.
Proof.
  intros ([ip transport tail peer Hform] & _)%craft_valid_form.
  destruct peer, Hform as [(port & -> & [->| ->])|(port & -> & [->|[path ->]])]; done.
Qed.

(** ** Peers *)

(** An address as the cache keeps it: in its crafted form, with the peer's id, and not relayed. *)
Definition addr_ok (p : bytes) (addr : Multiaddr) : Prop :=
  craft_valid_multiaddr addr false = Some addr ∧ multiaddr_get_peer_id addr = Some p ∧ existsb is_circuit addr = false.

Section props.
Context `{HashOrder} `{CacheJsonLaws}.
Context (cfg : BootstrapConfig).
Context (Hpos : (0 < bc_max_addrs_per_cached_peer cfg)%nat).

Abbreviation max_peers := (bc_max_cached_peers cfg).
Abbreviation max_addrs := (bc_max_addrs_per_cached_peer cfg).

Definition peer_ok (x : bytes * list Multiaddr) : Prop :=
  x.2 ≠ [] ∧ NoDup x.2 ∧ (length x.2 ≤ max_addrs)%nat ∧ ∀ addr, addr ∈ x.2 → addr_ok x.1 addr.

Definition peers_ok (peers : list (bytes * list Multiaddr)) : Prop :=
  NoDup peers.*1 ∧ (length peers ≤ max_peers)%nat ∧ ∀ x, x ∈ peers → peer_ok x.

Definition cache_ok (d : CacheData) : Prop := peers_ok (cd_peers d).

Lemma merge_addrs_spec addrs other :
  (∀ a, a ∈ merge_addrs addrs other ↔ a ∈ addrs ∨ a ∈ other) ∧ (NoDup addrs → NoDup (merge_addrs addrs other)) ∧
  ∃ more, merge_addrs addrs other = addrs ++ more.
Proof.
  unfold merge_addrs. revert addrs. induction other as [|o other IH]; intros addrs; simpl.
  { split_and!; [set_solver|done|exists []; by rewrite app_nil_r]. }
  destruct (IH (if decide (o ∈ addrs) then addrs else addrs ++ [o])) as (Hin & Hnd & more & E). rewrite E. rewrite E in Hin, Hnd.
  split_and!.
  - intros a. rewrite Hin. case_decide; set_solver.
  - intros Ha. apply Hnd. case_decide; [done|]. apply NoDup_app. split_and!; [done|set_solver|apply NoDup_singleton].
  - case_decide; [by exists more|]. exists (o :: more). by rewrite <- app_assoc.
Qed.

Lemma add_addrs_spec addrs new :
  (∀ a, a ∈ add_addrs addrs new ↔ a ∈ addrs ∨ a ∈ new) ∧ (NoDup addrs → NoDup (add_addrs addrs new)).
Proof.
  unfold add_addrs. revert addrs. induction new as [|o new IH]; intros addrs; simpl; [split; [set_solver|done]|].
  destruct (IH (if decide (o ∈ addrs) then addrs else o :: addrs)) as (Hin & Hnd). split.
  - intros a. rewrite Hin. case_decide; set_solver.
  - intros Ha. apply Hnd. case_decide; [done|by constructor].
Qed.

(** Shrinking the addresses of a peer leaves some. *)
Lemma peer_ok_shrink p l : l ≠ [] → NoDup l → (∀ a, a ∈ l → addr_ok p a) → peer_ok (p, shrink max_addrs l).
Proof.
  intros Hne Hnd Hok. rewrite shrink_take. unfold peer_ok. cbn [fst snd]. split_and!.
  - destruct l as [|a l]; [done|]. destruct max_addrs; [lia|done].
  - by apply NoDup_take.
  - rewrite length_take. lia.
  - intros a Ha. apply Hok. by eapply take_elem.
Qed.

Lemma peers_ok_shrink peers : NoDup peers.*1 → (∀ x, x ∈ peers → peer_ok x) → peers_ok (shrink max_peers peers).
Proof.
  intros Hnd Hok. rewrite shrink_take. split_and!; [rewrite fmap_take; by apply NoDup_take|rewrite length_take; lia|].
  intros x Hx. apply Hok. by eapply take_elem.
Qed.

(** ** add_peer and remove_peer *)

Lemma update_present_keys p new peers peers' :
  update_present p new max_addrs peers = Some peers' → peers'.*1 = peers.*1.
Proof.
  revert peers'. induction peers as [|[id addrs] peers IH]; intros peers'; simpl; [done|]. case_decide; [by intros [= <-]|].
  destruct (update_present p new max_addrs peers) as [l|]; simpl; [|done]. intros [= <-]. simpl. by rewrite IH.
Qed.

Lemma update_present_ok p new peers peers' :
  (∀ x, x ∈ peers → peer_ok x) → (∀ a, a ∈ new → addr_ok p a) → update_present p new max_addrs peers = Some peers' →
  ∀ x, x ∈ peers' → peer_ok x.
Proof.
  intros Hok Hnew. revert peers'. induction peers as [|[id addrs] peers IH]; intros peers'; simpl; [done|]. case_decide as Hid.
  - intros [= <-] x [->|Hx]%elem_of_cons; [|apply Hok; by right]. subst id. destruct (Hok (p, addrs) ltac:(left)) as (Hne & Hnd & _ & Ha).
    destruct (add_addrs_spec addrs new) as [Hin Hnd']. simpl in *. apply peer_ok_shrink; [|by apply Hnd'|].
    + destruct addrs as [|a addrs]; [done|]. intros E. assert (a ∈ add_addrs (a :: addrs) new) as Hin' by (apply Hin; left; left).
      rewrite E in Hin'. by apply not_elem_of_nil in Hin'.
    + intros a [Ha'|Ha']%Hin; auto.
  - destruct (update_present p new max_addrs peers) as [l|]; simpl; [|done]. intros [= <-] x [->|Hx]%elem_of_cons; [apply Hok; left|].
    eapply IH; [|done|done]. intros y Hy. apply Hok. by right.
Qed.

Lemma update_present_None p new peers : update_present p new max_addrs peers = None → p ∉ peers.*1.
Proof.
  induction peers as [|[id addrs] peers IH]; simpl; [set_solver|]. case_decide; [done|].
  destruct (update_present p new max_addrs peers); simpl; [done|]. set_solver.
Qed.

Lemma add_peer_ok p new d : new ≠ [] → NoDup new → (∀ a, a ∈ new → addr_ok p a) → cache_ok d → cache_ok (add_peer p new max_addrs max_peers d).
Proof.
  intros Hne Hndn Hnew (Hnd & Hlen & Hok). unfold cache_ok, add_peer. simpl.
  destruct (update_present p new max_addrs (cd_peers d)) as [peers|] eqn:E.
  - apply peers_ok_shrink; [by rewrite (update_present_keys _ _ _ _ E)|by eapply update_present_ok].
  - apply peers_ok_shrink; [constructor; [by eapply update_present_None|done]|].
    intros x [->|Hx]%elem_of_cons; [|by apply Hok]. rewrite <- shrink_take. by apply peer_ok_shrink.
Qed.

Lemma remove_peer_ok p d : cache_ok d → cache_ok (cache_remove_peer p d).
Proof.
  intros (Hnd & Hlen & Hok). unfold cache_ok, cache_remove_peer. simpl. split_and!.
  - apply (sublist_NoDup _ (cd_peers d).*1); [done|]. apply fmap_sublist, sublist_filter.
  - etrans; [apply length_filter|done].
  - intros x [_ Hx]%list_elem_of_filter. by apply Hok.
Qed.

(** ** sync *)

(** The addresses a peer has after a sync with the file's addresses for it. *)
Definition synced_addrs (addrs : list Multiaddr) (other : option (list Multiaddr)) : list Multiaddr :=
  match other with Some other_addrs => shrink max_addrs (merge_addrs addrs other_addrs) | None => addrs end.

Lemma sync_peers_spec (peers : list (bytes * list Multiaddr)) (other : gmap bytes (list Multiaddr)) :
  NoDup peers.*1 →
  (sync_peers max_addrs peers other).1 = (λ x, (x.1, synced_addrs x.2 (other !! x.1))) <$> peers ∧
  ∀ p, (sync_peers max_addrs peers other).2 !! p = if decide (p ∈ peers.*1) then None else other !! p.
Proof.
  revert other. induction peers as [|[p addrs] peers IH]; intros other Hnd; simpl.
  { split; [done|]. done. }
  apply NoDup_cons in Hnd as [Hp Hnd]. destruct (IH (delete p other) Hnd) as [Hfst Hsnd].
  destruct (sync_peers max_addrs peers (delete p other)) as [peers' other']. simpl in Hfst, Hsnd |- *. split.
  - f_equal. rewrite Hfst. apply list_fmap_ext. intros i [q qs] Hi. simpl. assert (q ≠ p) as Hne.
    { intros ->. apply Hp. apply list_elem_of_fmap. exists (p, qs). split; [done|]. by eapply list_elem_of_lookup_2. }
    by rewrite lookup_delete_ne by done.
  - intros q. rewrite Hsnd. destruct (decide (q = p)) as [->|Hne].
    + rewrite lookup_delete_eq. repeat case_decide; set_solver.
    + rewrite lookup_delete_ne by done. repeat case_decide; set_solver.
Qed.

Lemma from_peers_lookup {B} (peers : list (bytes * B)) (m : gmap bytes B) p b :
  foldl (λ m x, <[x.1 := x.2]> m) m peers !! p = Some b → (p, b) ∈ peers ∨ m !! p = Some b.
Proof.
  revert m. induction peers as [|[q c] peers IH]; intros m; simpl; [by right|]. intros [Hin|Hm]%IH; [left; by right|].
  destruct (decide (q = p)) as [->|Hne]; [rewrite lookup_insert_eq in Hm; simplify_eq; left; left|].
  rewrite lookup_insert_ne in Hm by done. by right.
Qed.

Lemma from_peers_NoDup {B} (peers : list (bytes * B)) (m : gmap bytes B) p b :
  NoDup peers.*1 → (p, b) ∈ peers → foldl (λ m x, <[x.1 := x.2]> m) m peers !! p = Some b.
Proof.
  revert m. induction peers as [|[q c] peers IH]; intros m; simpl; [set_solver|]. intros [Hq Hnd]%NoDup_cons [[= <- <-]|Hin]%elem_of_cons; [|by apply IH].
  clear IH. assert (∀ m' : gmap bytes B, m' !! p = Some b → foldl (λ m x, <[x.1 := x.2]> m) m' peers !! p = Some b) as Hkeep; [|apply Hkeep, lookup_insert_eq].
  clear Hnd. induction peers as [|[q c] peers IH]; intros m' Hm'; simpl; [done|]. apply IH; [set_solver|].
  rewrite lookup_insert_ne; [done|]. set_solver.
Qed.

(** The map of the peers of a file. *)
Definition file_map (d : CacheData) : gmap bytes (list Multiaddr) := foldl (λ m x, <[x.1 := x.2]> m) ∅ (cd_peers d).

Lemma file_map_ok d p addrs : cache_ok d → file_map d !! p = Some addrs → peer_ok (p, addrs).
Proof. intros (_ & _ & Hok) [Hin|He]%from_peers_lookup; [by apply Hok|by rewrite lookup_empty in He]. Qed.

Lemma synced_ok p addrs other :
  peer_ok (p, addrs) → (∀ o, other = Some o → peer_ok (p, o)) → peer_ok (p, synced_addrs addrs other).
Proof.
  intros (Hne & Hnd & Hlen & Ha) Ho. destruct other as [o|]; [|done]. destruct (Ho o eq_refl) as (_ & _ & _ & Hoa). simpl in *.
  destruct (merge_addrs_spec addrs o) as (Hin & Hnd' & more & E). apply peer_ok_shrink; [rewrite E; by destruct addrs|by apply Hnd'|].
  intros a [?|?]%Hin; auto.
Qed.

(** The own peers after a sync, before peers of the file are added. *)
Definition own_synced (other d : CacheData) : list (bytes * list Multiaddr) :=
  (λ x : bytes * list Multiaddr, (x.1, synced_addrs x.2 (file_map other !! x.1))) <$> cd_peers d.

Lemma cache_sync_peers now other d :
  cache_ok d → ∃ rest, cd_peers (cache_sync now other max_addrs max_peers d) = own_synced other d ++ take (max_peers - length (cd_peers d)) rest ∧
    NoDup rest.*1 ∧ ∀ p addrs, (p, addrs) ∈ rest ↔ (p ∉ (cd_peers d).*1) ∧ file_map other !! p = Some addrs.
Proof.
  intros (Hnd & Hlen & _). unfold cache_sync. fold (file_map other). destruct (sync_peers_spec (cd_peers d) (file_map other) Hnd) as [Hfst Hsnd].
  destruct (sync_peers max_addrs (cd_peers d) (file_map other)) as [peers' other']. simpl in Hfst, Hsnd. subst peers'. simpl.
  fold (own_synced other d). assert (length (own_synced other d) = length (cd_peers d)) as Hown by apply length_fmap.
  rewrite shrink_take, take_ge, Hown by lia. exists (hm_iter other'). split_and!; [done| |].
  - unfold hm_iter. rewrite hash_order_perm. apply NoDup_fst_map_to_list.
  - intros p addrs. rewrite hm_iter_elem_of, Hsnd. case_decide; naive_solver.
Qed.

Lemma sync_ok now other d : cache_ok d → cache_ok other → cache_ok (cache_sync now other max_addrs max_peers d).
Proof.
  intros Hd Hother. destruct (cache_sync_peers now other d Hd) as (rest & E & Hnd & Hrest). destruct Hd as (Hnd0 & Hlen & Hok).
  unfold cache_ok. rewrite E. assert ((own_synced other d).*1 = (cd_peers d).*1) as Hkeys by (unfold own_synced; by rewrite <- list_fmap_compose).
  split_and!.
  - rewrite fmap_app, Hkeys. apply NoDup_app. split_and!; [done| |rewrite fmap_take; by apply NoDup_take].
    intros p Hp Hin. rewrite fmap_take in Hin. apply take_elem, list_elem_of_fmap in Hin as ([q addrs] & -> & Hin). by apply Hrest in Hin as [? _].
  - rewrite length_app, length_take. unfold own_synced. rewrite length_fmap. lia.
  - intros x [Hx|Hx]%elem_of_app.
    + apply list_elem_of_fmap in Hx as ([p addrs] & -> & Hx). apply synced_ok; [by apply Hok|]. intros o Ho. by eapply file_map_ok.
    + apply take_elem in Hx. destruct x as [p addrs]. apply Hrest in Hx as [_ Hx]. by eapply file_map_ok.
Qed.

(** ** Files and processes *)

(** What can be read from the files, in whatever format, is well formed. *)
Definition files_ok (f : CacheFiles) : Prop :=
  (∀ c d, file_v1 f = Some c → from_json_v1 c = Some d → cache_ok d) ∧
  (∀ c d, file_v0 f = Some c → from_json_v0 c = Some d → cache_ok (v1_of_v0 d)).

Lemma from_peers_fmap {B C} (g : B → C) (peers : list (bytes * B)) m :
  foldl (λ m x, <[x.1 := g x.2]> m) (g <$> m) peers = g <$> foldl (λ (m : gmap bytes B) x, <[x.1 := x.2]> m) m peers.
Proof. revert m. induction peers as [|[p b] peers IH]; intros m; simpl; [done|]. by rewrite <- fmap_insert, IH. Qed.

Lemma from_peers_size {B} (peers : list (bytes * B)) (m : gmap bytes B) :
  (size (foldl (λ m x, <[x.1 := x.2]> m) m peers) ≤ size m + length peers)%nat.
Proof.
  revert m. induction peers as [|[p b] peers IH]; intros m; simpl; [lia|]. etrans; [apply IH|]. rewrite map_size_insert. case_match; simpl; lia.
Qed.

(** The formats are converted into one another without loss, but for the order of the peers. *)
Lemma v0_roundtrip_elem now d p addrs : (p, addrs) ∈ cd_peers (v1_of_v0 (v0_of_v1 now d)) ↔ file_map d !! p = Some addrs.
Proof.
  unfold v1_of_v0, v0_of_v1. simpl.
  set (g := λ addrs : list Multiaddr, (λ addr, {| ba_addr := addr; ba_success_count := 0; ba_failure_count := 0; ba_last_seen := now |}) <$> addrs).
  pose proof (from_peers_fmap g (cd_peers d) ∅) as E. rewrite fmap_empty in E. unfold g in E at 1. rewrite E. fold (file_map d).
  assert (∀ l, ba_addr <$> g l = l) as Hg by (intros l; unfold g; rewrite <- list_fmap_compose; apply list_fmap_id).
  rewrite list_elem_of_fmap. split.
  - intros ([q bs] & [= -> ->] & Hin). apply hm_iter_elem_of in Hin. rewrite lookup_fmap in Hin. simpl.
    destruct (file_map d !! q) as [a|]; simplify_eq/=. by rewrite Hg.
  - intros Hp. exists (p, g addrs). simpl. rewrite Hg. split; [done|]. apply hm_iter_elem_of. by rewrite lookup_fmap, Hp.
Qed.

Lemma v0_roundtrip_ok now d : cache_ok d → cache_ok (v1_of_v0 (v0_of_v1 now d)).
Proof.
  intros Hd. pose proof (v0_roundtrip_elem now d) as Helem. pose proof Hd as (_ & Hlen & _). split_and!.
  - unfold v1_of_v0. simpl. rewrite <- list_fmap_compose. unfold compose. simpl. unfold hm_iter. rewrite hash_order_perm. apply NoDup_fst_map_to_list.
  - unfold v1_of_v0, v0_of_v1. simpl. rewrite length_fmap, hm_iter_length.
    set (g := λ addrs : list Multiaddr, (λ addr, {| ba_addr := addr; ba_success_count := 0; ba_failure_count := 0; ba_last_seen := now |}) <$> addrs).
    pose proof (from_peers_fmap g (cd_peers d) ∅) as E. rewrite fmap_empty in E. unfold g in E at 1. rewrite E, map_size_fmap.
    etrans; [apply from_peers_size|]. by rewrite map_size_empty.
  - intros [p addrs] Hx. apply Helem in Hx. by eapply file_map_ok.
Qed.

Lemma limit_ok d : cache_ok d → cache_ok (cd_with_peers d (shrink max_peers (cd_peers d))).
Proof. intros (Hnd & _ & Hok). by apply peers_ok_shrink. Qed.

Lemma load_ok io f d : files_ok f → load_cache_data cfg io f = Some d → cache_ok d.
Proof.
  intros [Hv1 Hv0]. unfold load_cache_data, read_from_file, read_from_file_v0.
  destruct (file_v1 f) as [c|] eqn:Hc; simpl; [destruct (_ && _); [destruct (from_json_v1 c) as [d1|] eqn:Hj|]|].
  1: { intros [= <-]. apply limit_ok. by eapply Hv1. }
  all: destruct (file_v0 f) as [c0|] eqn:Hc0; simpl; [|done]; destruct (io_read_v0 io); [|done];
    destruct (from_json_v0 c0) as [d0|] eqn:Hj0; [|done]; intros [= <-]; apply limit_ok; by eapply Hv0.
Qed.

Lemma write_ok now io v0 d f : cache_ok d → files_ok f → files_ok (cache_write cfg now io v0 d f).2.
Proof.
  intros Hd Hf. unfold cache_write. destruct (bc_disable_cache_writing cfg); [done|].
  assert (files_ok (write_to_file io d f).2) as Hw.
  { destruct Hf as [Hv1 Hv0]. assert (files_ok {| file_v1 := Some (default [] (file_v1 f)); file_v0 := file_v0 f |}) as Hopened.
    { split; [|exact Hv0]. simpl. intros c d' [= <-]. destruct (file_v1 f) as [c|] eqn:Hc; simpl; [by apply Hv1|by rewrite json_v1_empty]. }
    unfold write_to_file. destruct io as [| |n|], (to_json_v1 d) as [b|] eqn:Hb; simpl; try exact Hopened; try (split; assumption);
      (split; [|exact Hv0]); simpl; intros c d' [= <-] Hj.
    - by rewrite (json_v1_prefix _ _ _ _ Hb Hj).
    - rewrite (json_v1_roundtrip _ _ Hb) in Hj. by injection Hj as <-. }
  destruct (write_to_file io d f) as [[u|e] f']; simpl in Hw |- *; [|done]. destruct (bc_backwards_compatible_writes cfg); [|done].
  unfold write_to_file_v0. destruct v0, (to_json_v0 (v0_of_v1 now d)) as [b|] eqn:Hb; simpl; try done. destruct Hw as [Hw1 _]. split; [exact Hw1|]. simpl.
  intros c d' [= <-] Hj. rewrite (json_v0_roundtrip _ _ Hb) in Hj. injection Hj as <-. by apply v0_roundtrip_ok.
Qed.

Lemma sync_with_file_ok now io f s s' :
  files_ok f → cache_ok (cs_data s) → sync_with_file cfg now io f s = Some s' → cache_ok (cs_data s').
Proof.
  intros Hf Hs. unfold sync_with_file. destruct (bc_disable_cache_writing cfg); [done|]. destruct (_ =? 0)%nat; [done|]. intros [= <-]. simpl.
  set (data := match load_cache_data cfg io f with Some _ => _ | None => _ end). assert (cache_ok data) as Hdata.
  { unfold data. destruct (load_cache_data cfg io f) as [df|] eqn:E; [|done]. apply sync_ok; [done|by eapply load_ok]. }
  clearbody data. generalize (hs_iter (cs_to_remove s)). intros l. revert data Hdata.
  induction l as [|p l IH]; intros data Hdata; simpl; [done|]. by apply IH, remove_peer_ok.
Qed.

(** Processes that share the files: each adds addresses, queues removals, and syncs and flushes in two
    steps between which others may write. *)
Inductive cache_step : CacheFiles * list BootstrapCacheStore → CacheFiles * list BootstrapCacheStore → Prop :=
  | step_add f ss i s addr : ss !! i = Some s → cache_step (f, ss) (f, <[i := add_addr cfg addr s]> ss)
  | step_queue f ss i s p : ss !! i = Some s → cache_step (f, ss) (f, <[i := queue_remove_peer p s]> ss)
  | step_sync f ss i s now io s' : ss !! i = Some s → sync_with_file cfg now io f s = Some s' → cache_step (f, ss) (f, <[i := s']> ss)
  | step_flush f ss i s now io v0 r f' s' :
      ss !! i = Some s → flush cfg now io v0 f s = (r, f', s') → cache_step (f, ss) (f', <[i := s']> ss).

Definition system_ok (x : CacheFiles * list BootstrapCacheStore) : Prop := files_ok x.1 ∧ ∀ s, s ∈ x.2 → cache_ok (cs_data s).

Lemma add_addr_ok addr s : cache_ok (cs_data s) → cache_ok (cs_data (add_addr cfg addr s)).
Proof.
  intros Hs. unfold add_addr. destruct (existsb is_circuit addr); [done|]. destruct (craft_valid_multiaddr addr false) as [a|] eqn:Ha; [|done].
  destruct (find_protocol is_p2p a) as [[]|] eqn:Hp; try done. simpl. apply add_peer_ok; [done|apply NoDup_singleton| |done].
  intros b ->%list_elem_of_singleton. split_and!.
  - by eapply craft_valid_again.
  - unfold multiaddr_get_peer_id. by rewrite Hp.
  - by eapply craft_valid_no_circuit.
Qed.

Lemma cache_step_ok x y : cache_step x y → system_ok x → system_ok y.
Proof.
  intros Hstep [Hf Hss].
  assert (∀ (ss : list BootstrapCacheStore) i (s s' : BootstrapCacheStore), (∀ s, s ∈ ss → cache_ok (cs_data s)) → cache_ok (cs_data s') →
            ∀ t, t ∈ <[i := s']> ss → cache_ok (cs_data t)) as Hins.
  { intros ss i _ s' Hall Hs' t Ht. apply list_elem_of_lookup in Ht as [j [(_ & <- & _)|[_ Hj]]%list_lookup_insert_Some]; [done|].
    apply Hall. by eapply list_elem_of_lookup_2. }
  assert (∀ (ss : list BootstrapCacheStore) i s, (∀ s, s ∈ ss → cache_ok (cs_data s)) → ss !! i = Some s → cache_ok (cs_data s)) as Hat
    by (intros ss i s Hall Hi; apply Hall; by eapply list_elem_of_lookup_2).
  destruct Hstep as [f ss i s addr Hi|f ss i s p Hi|f ss i s now io s' Hi Hsync|f ss i s now io v0 r f' s' Hi Hflush]; simpl in *.
  - split; [done|]. simpl. eapply (Hins ss i s); [done|]. apply add_addr_ok. exact (Hat _ _ _ Hss Hi).
  - split; [done|]. simpl. eapply (Hins ss i s); [done|]. exact (Hat _ _ _ Hss Hi).
  - split; [done|]. simpl. eapply (Hins ss i s); [done|]. eapply sync_with_file_ok; [done| |done]. exact (Hat _ _ _ Hss Hi).
  - pose proof (Hat _ _ _ Hss Hi) as Hs. unfold flush in Hflush. pose proof (write_ok now io v0 (cs_data s) f Hs Hf) as Hw.
    destruct (cache_write cfg now io v0 (cs_data s) f) as [[u|e] f1]; injection Hflush as <- <- <-; simpl in Hw; (split; [done|]); simpl.
    + eapply (Hins ss i s); [done|]. split_and!; simpl; [apply NoDup_nil_2|lia|set_solver].
    + by eapply (Hins ss i s).
Qed.

(** A call of sync_and_flush_to_disk that is not interrupted is at most these two steps. *)
Lemma sync_and_flush_run now rio wio v0 f ss i s :
  ss !! i = Some s → let run := sync_and_flush_to_disk cfg now rio wio v0 f s in rtc cache_step (f, ss) (run.1.2, <[i := run.2]> ss).
Proof.
  intros Hi run. unfold run, sync_and_flush_to_disk. destruct (sync_with_file cfg now rio f s) as [s1|] eqn:Hsync; simpl; [|by rewrite list_insert_id].
  eapply rtc_l; [by eapply step_sync|]. destruct (flush cfg now wio v0 f s1) as [[r f'] s2] eqn:Hflush. simpl. rewrite <- (list_insert_insert_eq ss i s2 s1).
  apply rtc_once. eapply step_flush; [|done]. apply list_lookup_insert_eq. by eapply lookup_lt_Some.
Qed.

(** C36: the shared cache stays well formed. Whatever processes that share the cache files do, in any
    interleaving, with locks that fail and writes that are cut short, all that can be loaded from the
    files and all that is held in memory are at most the configured number of distinct peers, each with
    at least one and at most the configured number of distinct addresses, which are in the cache's form,
    carry that peer's id and are not relayed. *)
Theorem cache_always_valid x y :
  system_ok x → rtc cache_step x y → system_ok y ∧ ∀ io d, load_cache_data cfg io y.1 = Some d → cache_ok d.
Proof.
  intros Hx Hrun. assert (system_ok y) as Hy by (induction Hrun; [done|]; eauto using cache_step_ok).
  split; [done|]. intros io d Hload. eapply load_ok; [apply Hy|done].
Qed.

(** ** A flush *)

Lemma removed_peers l d x :
  x ∈ cd_peers (foldl (λ d p, cache_remove_peer p d) d l) ↔ x ∈ cd_peers d ∧ x.1 ∉ l.
Proof.
  revert d. induction l as [|p l IH]; intros d; simpl; [set_solver|]. rewrite IH. unfold cache_remove_peer. simpl.
  rewrite list_elem_of_filter. set_solver.
Qed.

Lemma completed_write now v0 d f b :
  bc_disable_cache_writing cfg = false → to_json_v1 d = Some b →
  (bc_backwards_compatible_writes cfg = true → v0 = true ∧ is_Some (to_json_v0 (v0_of_v1 now d))) →
  ∃ f', cache_write cfg now Completed v0 d f = (Ok tt, f') ∧ file_v1 f' = Some (b ++ [10]).
Proof.
  intros Hw Hb Hv0. unfold cache_write, write_to_file. rewrite Hw, Hb. destruct (bc_backwards_compatible_writes cfg); [|eauto].
  destruct (Hv0 eq_refl) as [-> [b0 Hb0]]. unfold write_to_file_v0. rewrite Hb0. eauto.
Qed.

(** What a flush leaves. When a store with peers flushes and its write succeeds, its memory is
    cleared, and the file holds: no peer that was queued for removal; every other peer of the store,
    its own addresses before those of the file; and besides these only peers of the file, with
    their addresses there, all of them unless the configured number of peers was reached. *)
Theorem flush_exact now rio v0 f s df b :
  cache_ok (cs_data s) → cd_peers (cs_data s) ≠ [] → bc_disable_cache_writing cfg = false →
  load_cache_data cfg rio f = Some df → cache_ok df →
  let merged := foldl (λ d p, cache_remove_peer p d) (cache_sync now df max_addrs max_peers (cs_data s)) (hs_iter (cs_to_remove s)) in
  to_json_v1 merged = Some b →
  (bc_backwards_compatible_writes cfg = true → v0 = true ∧ is_Some (to_json_v0 (v0_of_v1 now merged))) →
  ∃ f' s' d', sync_and_flush_to_disk cfg now rio Completed v0 f s = (Ok tt, f', s') ∧ cd_peers (cs_data s') = [] ∧ cs_to_remove s' = ∅ ∧
    (∃ c, file_v1 f' = Some c ∧ from_json_v1 c = Some d') ∧
    (∀ p addrs, (p, addrs) ∈ cd_peers d' → (p ∉ cs_to_remove s) ∧ (p ∈ (cd_peers (cs_data s)).*1 ∨ (p, addrs) ∈ cd_peers df)) ∧
    (∀ p addrs, (p, addrs) ∈ cd_peers (cs_data s) → p ∉ cs_to_remove s → ∃ more, (p, take max_addrs (addrs ++ more)) ∈ cd_peers d') ∧
    (∀ p addrs, (p, addrs) ∈ cd_peers df → p ∉ (cd_peers (cs_data s)).*1 → p ∉ cs_to_remove s →
       (p, addrs) ∈ cd_peers d' ∨ length (cd_peers (cache_sync now df max_addrs max_peers (cs_data s))) = max_peers).
Proof.
  intros Hs Hne Hw Hload Hdf merged Hb Hv0. destruct (completed_write now v0 merged f b Hw Hb Hv0) as (f' & Hwrite & Hf').
  exists f', {| cs_data := cd_with_peers merged []; cs_to_remove := ∅ |}, merged.
  assert (∀ p, p ∈ hs_iter (cs_to_remove s) ↔ p ∈ cs_to_remove s) as Hq by (intros p; unfold hs_iter; rewrite hash_order_perm; apply elem_of_elements).
  destruct (cache_sync_peers now df (cs_data s) Hs) as (rest & Hpeers & Hnd & Hrest).
  assert (∀ p addrs, file_map df !! p = Some addrs ↔ (p, addrs) ∈ cd_peers df) as Hfile.
  { intros p addrs. split; [intros [?|He]%from_peers_lookup; [done|by rewrite lookup_empty in He]|]. intros Hin. destruct Hdf as [? _]. by apply from_peers_NoDup. }
  split_and!; [|done|done|exists (b ++ [10]); split; [done|by apply json_v1_roundtrip]|..].
  - unfold sync_and_flush_to_disk, sync_with_file. rewrite Hw, Hload. destruct (Nat.eqb_spec (length (cd_peers (cs_data s))) 0) as [E|_]; [by apply nil_length_inv in E|].
    unfold flush. simpl. fold merged. by rewrite Hwrite.
  - intros p addrs [Hin Hno]%removed_peers. simpl in Hno. rewrite Hq in Hno. split; [done|]. rewrite Hpeers in Hin.
    apply elem_of_app in Hin as [Hin|Hin].
    + left. apply list_elem_of_fmap in Hin as ([q qs] & [= -> _] & Hin). simpl. apply list_elem_of_fmap. by exists (q, qs).
    + right. apply take_elem, Hrest in Hin as [_ Hin]. by apply Hfile.
  - intros p addrs Hin Hno. assert (∃ more, synced_addrs addrs (file_map df !! p) = take max_addrs (addrs ++ more)) as [more Hmore].
    { unfold synced_addrs. destruct (file_map df !! p) as [o|].
      - destruct (merge_addrs_spec addrs o) as (_ & _ & more & ->). exists more. apply shrink_take.
      - exists []. rewrite app_nil_r. destruct Hs as (_ & _ & Hok). destruct (Hok _ Hin) as (_ & _ & Hlen & _). by rewrite take_ge. }
    exists more. apply removed_peers. simpl. rewrite Hq. split; [|done]. rewrite Hpeers, <- Hmore. apply elem_of_app. left.
    apply list_elem_of_fmap. by exists (p, addrs).
  - intros p addrs Hin Hown Hno. assert ((p, addrs) ∈ rest) as Hr by (apply Hrest; split; [done|by apply Hfile]).
    destruct (decide (length rest ≤ max_peers - length (cd_peers (cs_data s)))%nat) as [Hle|Hgt].
    + left. apply removed_peers. simpl. rewrite Hq. split; [|done]. rewrite Hpeers, take_ge by done. set_solver.
    + right. rewrite Hpeers, length_app, length_take. unfold own_synced. rewrite length_fmap. destruct Hs as (_ & Hlen & _). lia.
Qed.

(** A removal is forgotten when the write fails. A peer that is queued for removal, and is only in
    the file, is still there after a flush whose file could not be opened and a later flush that
    succeeds, as long as there is room for it. *)
Theorem failed_flush_forgets_removal now now' rio v0 v0' f s df b p addrs :
  cache_ok (cs_data s) → cache_ok df → bc_disable_cache_writing cfg = false → load_cache_data cfg rio f = Some df →
  p ∈ cs_to_remove s → (p, addrs) ∈ cd_peers df → (∀ q, q ∈ (cd_peers (cs_data s)).*1 → q ∉ cs_to_remove s) → cd_peers (cs_data s) ≠ [] →
  let s1 := (sync_and_flush_to_disk cfg now rio NotOpened v0 f s).2 in
  (length (cd_peers (cs_data s1)) + length (cd_peers df) ≤ max_peers)%nat →
  to_json_v1 (cache_sync now' df max_addrs max_peers (cs_data s1)) = Some b →
  (bc_backwards_compatible_writes cfg = true → v0' = true ∧ is_Some (to_json_v0 (v0_of_v1 now' (cache_sync now' df max_addrs max_peers (cs_data s1))))) →
  cs_to_remove s1 = ∅ ∧
  ∃ f' s' d', sync_and_flush_to_disk cfg now' rio Completed v0' f s1 = (Ok tt, f', s') ∧
    (∃ c, file_v1 f' = Some c ∧ from_json_v1 c = Some d') ∧ (p, addrs) ∈ cd_peers d'.
Proof.
  intros Hs Hdf Hw Hload Hqueued Hp Hkept Hne s1 Hroom Hb Hv0.
  assert (∀ q, q ∈ hs_iter (cs_to_remove s) ↔ q ∈ cs_to_remove s) as Hq by (intros q; unfold hs_iter; rewrite hash_order_perm; apply elem_of_elements).
  set (merged := foldl (λ d p, cache_remove_peer p d) (cache_sync now df max_addrs max_peers (cs_data s)) (hs_iter (cs_to_remove s))).
  assert (s1 = {| cs_data := merged; cs_to_remove := ∅ |}) as E.
  { unfold s1, sync_and_flush_to_disk, sync_with_file. rewrite Hw, Hload.
    destruct (Nat.eqb_spec (length (cd_peers (cs_data s))) 0) as [E|_]; [by apply nil_length_inv in E|].
    unfold flush, cache_write, write_to_file. simpl. by rewrite Hw. }
  rewrite E in *. clear E s1. simpl in *. split; [done|].
  assert (cache_ok merged) as Hmerged.
  { unfold merged. generalize (hs_iter (cs_to_remove s)). intros l. pose proof (sync_ok now df (cs_data s) Hs Hdf) as Hsync. revert Hsync.
    generalize (cache_sync now df max_addrs max_peers (cs_data s)). induction l as [|q l IH]; intros d Hd; simpl; [done|]. by apply IH, remove_peer_ok. }
  destruct (completed_write now' v0' _ f b Hw Hb Hv0) as (f' & Hwrite & Hf').
  eexists f', _, (cache_sync now' df max_addrs max_peers merged). split_and!.
  - unfold sync_and_flush_to_disk, sync_with_file. rewrite Hw, Hload. simpl. destruct (Nat.eqb_spec (length (cd_peers merged)) 0) as [Hz|_].
    + exfalso. apply nil_length_inv in Hz. destruct (cd_peers (cs_data s)) as [|[q qs] l] eqn:Hown; [done|].
      destruct (cache_sync_peers now df (cs_data s) Hs) as (rest & Hpeers & _).
      assert ((q, synced_addrs qs (file_map df !! q)) ∈ cd_peers merged) as Hin.
      { apply removed_peers. simpl. rewrite Hq. split; [|apply Hkept; left]. rewrite Hpeers. apply elem_of_app. left. unfold own_synced. rewrite Hown. left. }
      rewrite Hz in Hin. by apply not_elem_of_nil in Hin.
    + unfold flush. simpl. unfold hs_iter. rewrite elements_empty. 
      assert (hash_order (@nil bytes) = []) as -> by (apply Permutation_nil_r, hash_order_perm). simpl. by rewrite Hwrite.
  - exists (b ++ [10]). split; [done|by apply json_v1_roundtrip].
  - destruct (cache_sync_peers now' df merged Hmerged) as (rest & -> & Hnd & Hrest). apply elem_of_app. right.
    assert ((p, addrs) ∈ rest) as Hin.
    { apply Hrest. split; [|apply from_peers_NoDup; [by destruct Hdf|done]]. intros ([q qs] & -> & Hm)%list_elem_of_fmap.
      apply removed_peers in Hm as [_ Hm]. simpl in Hm. by rewrite Hq in Hm. }
    rewrite take_ge; [done|]. assert (length rest ≤ length (cd_peers df))%nat; [|lia].
    apply submseteq_length, NoDup_submseteq; [by eapply NoDup_fmap_1|]. intros [q qs] [_ [Hin'|He]%from_peers_lookup]%Hrest; [done|].
    by rewrite lookup_empty in He.
Qed.
End props.

(** ** Witnesses *)

(** A code of a text of one character. *)
Definition cache_data_code (d : CacheData) : list (bytes * list Multiaddr) * Z * bytes * bytes :=
  (cd_peers d, cd_last_updated d, cd_network_version d, cd_cache_version d).

Definition cache_data_decode (x : list (bytes * list Multiaddr) * Z * bytes * bytes) : CacheData :=
  let '(p, l, n, c) := x in {| cd_peers := p; cd_last_updated := l; cd_network_version := n; cd_cache_version := c |}.

Definition boot_addr_code (b : BootstrapAddr) : Multiaddr * Z * Z * Z := (ba_addr b, ba_success_count b, ba_failure_count b, ba_last_seen b).

Definition boot_addr_decode (x : Multiaddr * Z * Z * Z) : BootstrapAddr :=
  let '(a, s, f, t) := x in {| ba_addr := a; ba_success_count := s; ba_failure_count := f; ba_last_seen := t |}.

Definition cache_v0_code (d : CacheDataV0) : gmap bytes (list (Multiaddr * Z * Z * Z)) * Z * bytes :=
  ((λ l : list BootstrapAddr, boot_addr_code <$> l) <$> c0_peers d, c0_last_updated d, c0_network_version d).

Definition cache_v0_decode (x : gmap bytes (list (Multiaddr * Z * Z * Z)) * Z * bytes) : CacheDataV0 :=
  {| c0_peers := (λ l : list (Multiaddr * Z * Z * Z), boot_addr_decode <$> l) <$> x.1.1; c0_last_updated := x.1.2; c0_network_version := x.2 |}.

Lemma cache_v0_decode_code d : cache_v0_decode (cache_v0_code d) = d.
Proof.
  destruct d as [p l n]. unfold cache_v0_decode, cache_v0_code. simpl. f_equal. rewrite <- map_fmap_compose. rewrite <- (map_fmap_id p) at 2.
  apply map_fmap_ext. intros i x _. simpl. rewrite <- list_fmap_compose. rewrite <- (list_fmap_id x) at 2.
  apply list_fmap_ext. by intros j [].
Qed.

#[local] Instance code_json : CacheJson := {
  to_json_v1 := λ d, Some [Zpos (encode (cache_data_code d))];
  from_json_v1 := λ c, match c with Zpos p :: _ => cache_data_decode <$> decode p | _ => None end;
  to_json_v0 := λ d, Some [Zpos (encode (cache_v0_code d))];
  from_json_v0 := λ c, match c with Zpos p :: _ => cache_v0_decode <$> decode p | _ => None end;
}.

#[local] Instance code_json_laws : CacheJsonLaws.
Proof.
  split; simpl.
  - intros d b [= <-]. simpl. rewrite decode_encode. by destruct d.
  - intros d b n d' [= <-]. destruct n as [|n]; simpl; [done|]. rewrite decode_encode. intros [= <-]. by destruct d.
  - done.
  - intros d b [= <-]. simpl. rewrite decode_encode. simpl. by rewrite cache_v0_decode_code.
Qed.

#[local] Instance cache_order : HashOrder := hash_order_id.

Definition cfg5 : BootstrapConfig :=
  {| bc_backwards_compatible_writes := true; bc_cache_save_scaling_factor := 2; bc_disable_cache_writing := false;
     bc_disable_cache_reading := false; bc_disable_env_peers := false; bc_first := false; bc_initial_peers := [];
     bc_local := false; bc_max_cache_save_duration := 100 * nanos; bc_max_concurrent_dials := 2;
     bc_max_contacted_peers_before_termination := 5; bc_max_cached_peers := 5;
     bc_max_addrs_per_cached_peer := 2; bc_min_cache_save_duration := 10 * nanos; bc_network_contacts_url := [] |}.

Definition quic (n : Z) : Multiaddr := [Ip4 n; Udp 80; QuicV1; P2p [n]].

Definition no_files : CacheFiles := {| file_v1 := None; file_v0 := None |}.

Definition new_store : BootstrapCacheStore := {| cs_data := cache_default 0 (text "2"); cs_to_remove := ∅ |}.

(** A store that knows one peer and wants another removed, and a file with that one and a third. *)
Definition own_store : BootstrapCacheStore := queue_remove_peer [3] (add_addr cfg5 (quic 1) new_store).

Definition file_data : CacheData := cs_data (add_addr cfg5 (quic 2) (add_addr cfg5 (quic 3) new_store)).

Definition data_files : CacheFiles := (write_to_file Completed file_data no_files).2.

Definition good_read : ReadIo := {| io_lock := λ n, (n =? 3)%nat; io_read := true; io_read_v0 := true |}.

Lemma new_store_ok : cache_ok cfg5 (cs_data new_store).
Proof. split_and!; simpl; [apply NoDup_nil_2|lia|set_solver]. Qed.

Lemma own_store_ok : cache_ok cfg5 (cs_data own_store).
Proof. apply (add_addr_ok cfg5 ltac:(simpl; lia) (quic 1) new_store), new_store_ok. Qed.

Lemma file_data_ok : cache_ok cfg5 file_data.
Proof. apply add_addr_ok; [simpl; lia|]. apply add_addr_ok; [simpl; lia|apply new_store_ok]. Qed.

Lemma cache_always_valid_witness :
  let run := (sync_and_flush_to_disk cfg5 7 good_read Completed true no_files own_store) in
  system_ok cfg5 (run.1.2, [run.2]) ∧ ∀ io d, load_cache_data cfg5 io run.1.2 = Some d → cache_ok cfg5 d.
Proof.
  intros run. apply (cache_always_valid cfg5 ltac:(simpl; lia) (no_files, [new_store]) (run.1.2, [run.2])).
  - split; simpl; [split; intros c d [=]|]. intros s ->%list_elem_of_singleton. apply new_store_ok.
  - eapply rtc_l; [apply (step_add cfg5 no_files [new_store] 0 new_store (quic 1)); reflexivity|].
    eapply rtc_l; [apply (step_queue cfg5 no_files _ 0 (add_addr cfg5 (quic 1) new_store) [3]); reflexivity|].
    apply (sync_and_flush_run cfg5 7 good_read Completed true no_files [own_store] 0 own_store). reflexivity.
Defined.

Lemma flush_exact_witness :
  ∃ f' s' d', sync_and_flush_to_disk cfg5 7 good_read Completed true data_files own_store = (Ok tt, f', s') ∧
    cd_peers (cs_data s') = [] ∧ cs_to_remove s' = ∅ ∧ (∃ c, file_v1 f' = Some c ∧ from_json_v1 c = Some d') ∧
    (∀ p addrs, (p, addrs) ∈ cd_peers d' → (p ∉ ({[ [3] ]} : gset bytes)) ∧ (p ∈ [[1]] ∨ (p, addrs) ∈ [([2], [quic 2]); ([3], [quic 3])])) ∧
    (∃ more, ([1], take 2 (quic 1 :: more)) ∈ cd_peers d').
Proof.
  destruct (flush_exact cfg5 ltac:(simpl; lia) 7 good_read true data_files own_store file_data
              [Zpos (encode (cache_data_code (foldl (λ d p, cache_remove_peer p d) (cache_sync 7 file_data 2 5 (cs_data own_store)) [[3]])))])
    as (f' & s' & d' & Hflush & Hmem & Hq & Hfile & Honly & Hown & _);
    [apply own_store_ok|done|done|vm_compute; reflexivity|apply file_data_ok|reflexivity|split; [done|by eexists]|].
  exists f', s', d'. split_and!; [done..| |].
  - intros p addrs Hin. destruct (Honly p addrs Hin) as [Hno Hor]. split; [|exact Hor]. intros Hp. apply Hno. set_solver.
  - apply (Hown [1] [quic 1]); [left|]. intros Hp. vm_compute in Hp. done.
Defined.

Lemma failed_flush_forgets_removal_witness :
  let s1 := (sync_and_flush_to_disk cfg5 7 good_read NotOpened true data_files own_store).2 in
  cs_to_remove s1 = ∅ ∧ ∃ f' s' d', sync_and_flush_to_disk cfg5 9 good_read Completed true data_files s1 = (Ok tt, f', s') ∧
    (∃ c, file_v1 f' = Some c ∧ from_json_v1 c = Some d') ∧ ([3], [quic 3]) ∈ cd_peers d'.
Proof.
  eapply (failed_flush_forgets_removal cfg5 ltac:(simpl; lia) 7 9 good_read true true data_files own_store file_data _ [3] [quic 3]);
    [apply own_store_ok|apply file_data_ok|done|vm_compute; reflexivity|set_solver|right; left| |done|vm_compute; lia|reflexivity|split; [done|by eexists]].
  intros q Hq Hin. vm_compute in Hq. apply list_elem_of_singleton in Hq as ->. vm_compute in Hin. done.
Defined.
