(* ===== verification/Bootstrap.v ===== *)
(** * Bootstrapping

    Models src/ant-bootstrap/src/bootstrap.rs and contacts_fetcher.rs: the sources of bootstrap addresses
    (environment, arguments, cache file, contacts endpoints), which are fetched one at a time as their
    addresses run out, and the dialing of these addresses until enough peers are contacted. A spawned
    fetch is a task of the state, which ends whenever its environment says so; the swarm's answers to
    dials, http responses and the parsers of urls and addresses are arguments. *)

From stdpp Require Import base gmap countable strings list.
From Stdlib Require Import ZArith Lia.
From S2P Require Import Prelude Text Protocol RecordCache Multiaddr BootstrapCache.

(** Parsing of texts: [addr_str.parse::<Multiaddr>()] and [endpoint.parse::<Url>()]. *)
Class AddrParsers := {
  parse_multiaddr : bytes → option Multiaddr;
  parse_url : bytes → option bytes;
}.

(** [Error], without the texts it carries. *)
Inductive BootstrapError :=
  NoBootstrapPeersFound | FailedToParseCacheData | CouldNotObtainDataDir | FailedToObtainAddrsFromUrl | FailedToParseUrl | IoError | JsonError | HttpError | LockError.

Definition MAINNET_CONTACTS : list bytes :=
  [text "https://sn-testnet.s3.eu-west-2.amazonaws.com/network-contacts"; text "http://159.89.251.80/bootstrap_cache.json";
   text "http://159.65.210.89/bootstrap_cache.json"; text "http://159.223.246.45/bootstrap_cache.json";
   text "http://139.59.201.153/bootstrap_cache.json"; text "http://139.59.200.27/bootstrap_cache.json"].

Definition ALPHANET_CONTACTS : list bytes :=
  [text "http://188.166.133.208/bootstrap_cache.json"; text "http://188.166.133.125/bootstrap_cache.json";
   text "http://178.128.137.64/bootstrap_cache.json"; text "http://159.223.242.7/bootstrap_cache.json";
   text "http://143.244.197.147/bootstrap_cache.json"].

Definition MAX_RETRIES_ON_FETCH_FAILURE : nat := 2.

(** ** ContactsFetcher *)

Section fetcher.
Context `{HashOrder} `{CacheJson} `{AddrParsers}.

Definition craft_valid_multiaddr_from_str (addr_str : bytes) (ignore_peer_id : bool) : option Multiaddr :=
  addr ← parse_multiaddr addr_str; craft_valid_multiaddr addr ignore_peer_id.

Definition try_parse_response (our_network_version response : bytes) (ignore_peer_id : bool) : result (list Multiaddr) BootstrapError :=
  let cache_data := match from_json_v1 response with
                    | Some data => Some data
                    | None => v1_of_v0 <$> from_json_v0 response
                    end in
  match cache_data with
  | Some cache_data =>
    if decide (cd_network_version cache_data = our_network_version) then Ok (get_all_addrs cache_data) else Ok []
  | None =>
    let bootstrap_addresses := omap (λ s, craft_valid_multiaddr_from_str s ignore_peer_id) (split_on 10 response) in
    match bootstrap_addresses with
    | [] => Err FailedToParseCacheData
    | _ => Ok bootstrap_addresses
    end
  end.

(** What a request gives: an error, a status that is no success, a body that cannot be read, or a body. *)
Inductive HttpResponse := SendFailed | BadStatus | BodyFailed | Body (text : bytes).

(** The loop of [fetch_from_endpoint], which runs at most twice. *)
Fixpoint fetch_attempts (version : bytes) (ignore_peer_id : bool) (responses : nat → HttpResponse) (attempts retries : nat)
    : result (list Multiaddr) BootstrapError :=
  match attempts with
  | O => Err FailedToObtainAddrsFromUrl
  | S attempts =>
    let again := if (MAX_RETRIES_ON_FETCH_FAILURE <=? S retries)%nat then Err FailedToObtainAddrsFromUrl
                 else fetch_attempts version ignore_peer_id responses attempts (S retries) in
    match responses retries with
    | Body text => match try_parse_response version text ignore_peer_id with Ok addrs => Ok addrs | Err _ => again end
    | BodyFailed => Err HttpError
    | BadStatus | SendFailed => again
    end
  end.

Definition fetch_from_endpoint (version : bytes) (ignore_peer_id : bool) (responses : nat → HttpResponse) : result (list Multiaddr) BootstrapError :=
  fetch_attempts version ignore_peer_id responses MAX_RETRIES_ON_FETCH_FAILURE 0.

(** [fetch_bootstrap_addresses], on the results of the endpoints in the order in which they come. *)
Fixpoint collect_addrs (max_addrs : Z) (results : list (result (list Multiaddr) BootstrapError)) (bootstrap_addresses : list Multiaddr) : list Multiaddr :=
  match results with
  | [] => bootstrap_addresses
  | Ok addrs :: results =>
    let bootstrap_addresses := bootstrap_addresses ++ addrs in
    if max_addrs <=? Z.of_nat (length bootstrap_addresses) then bootstrap_addresses else collect_addrs max_addrs results bootstrap_addresses
  | Err _ :: results => collect_addrs max_addrs results bootstrap_addresses
  end.

Definition fetch_bootstrap_addresses (max_addrs : Z) (results : list (result (list Multiaddr) BootstrapError)) : list Multiaddr :=
  take (Z.to_nat max_addrs) (collect_addrs max_addrs results []).

(** ** ContactsProgress *)

(** The endpoints left; an empty list only while the last one is fetched. *)
Record ContactsProgress := { cp_remaining : list bytes }.

Definition contacts_progress_new (urls : list bytes) : option ContactsProgress :=
  match urls with [] => None | _ => Some {| cp_remaining := urls |} end.

Definition from_static (urls : list bytes) : option ContactsProgress := contacts_progress_new (omap parse_url urls).

Definition MAINNET_ID : Z := 1.
Definition ALPHANET_ID : Z := 2.

Definition build_contacts_progress (config : BootstrapConfig) (network_id : Z) : result (option ContactsProgress) BootstrapError :=
  if bc_first config then Ok None
  else if bc_local config then Ok None
  else
    match bc_network_contacts_url config with
    | (_ :: _) as urls => match mapM parse_url urls with Some endpoints => Ok (contacts_progress_new endpoints) | None => Err FailedToParseUrl end
    | [] =>
      if network_id =? MAINNET_ID then Ok (from_static MAINNET_CONTACTS)
      else if network_id =? ALPHANET_ID then Ok (from_static ALPHANET_CONTACTS)
      else Ok None
    end.

(** The value of the environment variable ANT_PEERS, if it is set. *)
Definition fetch_from_env (ant_peers : option bytes) : list Multiaddr :=
  match ant_peers with
  | Some addrs => omap (λ addr_str, craft_valid_multiaddr_from_str addr_str false) (split_on 44 addrs)
  | None => []
  end.
End fetcher.

(** ** Bootstrap *)

Inductive FetchEvent := CacheEvent (addrs : list Multiaddr) | ContactsEvent (addrs : list Multiaddr).

Inductive FetchKind := FetchCache | FetchContacts.

#[global] Instance FetchKind_eq_dec : EqDecision FetchKind.
Proof. solve_decision. Defined.

(** A spawned fetch. *)
Inductive FetchTask := CacheTask | ContactsTask (endpoint : bytes).

(** The fields of [Bootstrap], the events in its channel, and the tasks that it spawned. *)
Record Bootstrap := {
  b_addrs : list Multiaddr;
  b_cache_pending : bool;
  b_contacts_progress : option ContactsProgress;
  b_events : list FetchEvent;
  b_tasks : list FetchTask;
  b_fetch_in_progress : option FetchKind;
  b_ongoing_dials : gset Multiaddr;
  b_bootstrap_peer_ids : gset bytes;
  b_bootstrap_completed : bool;
}.

Definition bs_with_queue (b : Bootstrap) (addrs : list Multiaddr) (peer_ids : gset bytes) : Bootstrap :=
  {| b_addrs := addrs; b_cache_pending := b_cache_pending b; b_contacts_progress := b_contacts_progress b; b_events := b_events b;
     b_tasks := b_tasks b; b_fetch_in_progress := b_fetch_in_progress b; b_ongoing_dials := b_ongoing_dials b;
     b_bootstrap_peer_ids := peer_ids; b_bootstrap_completed := b_bootstrap_completed b |}.

Definition bs_with_fetch (b : Bootstrap) (cache_pending : bool) (contacts : option ContactsProgress) (events : list FetchEvent)
    (tasks : list FetchTask) (fetch : option FetchKind) : Bootstrap :=
  {| b_addrs := b_addrs b; b_cache_pending := cache_pending; b_contacts_progress := contacts; b_events := events; b_tasks := tasks;
     b_fetch_in_progress := fetch; b_ongoing_dials := b_ongoing_dials b; b_bootstrap_peer_ids := b_bootstrap_peer_ids b;
     b_bootstrap_completed := b_bootstrap_completed b |}.

Definition bs_with_dials (b : Bootstrap) (dials : gset Multiaddr) (completed : bool) : Bootstrap :=
  {| b_addrs := b_addrs b; b_cache_pending := b_cache_pending b; b_contacts_progress := b_contacts_progress b; b_events := b_events b;
     b_tasks := b_tasks b; b_fetch_in_progress := b_fetch_in_progress b; b_ongoing_dials := dials;
     b_bootstrap_peer_ids := b_bootstrap_peer_ids b; b_bootstrap_completed := completed |}.

(** ** Fetches *)

(** What the fetches give: the cache data, unless the load fails or times out, and the addresses of an
    endpoint, unless its fetch fails or times out. Each source is fetched once. *)
Record FetchResults := { fr_cache : option CacheData; fr_contacts : bytes → option (list Multiaddr) }.

(** The addresses a spawned task sends. *)
Definition task_addrs (results : FetchResults) (task : FetchTask) : list Multiaddr :=
  match task with
  | CacheTask => match fr_cache results with Some cache_data => get_all_addrs cache_data | None => [] end
  | ContactsTask endpoint => match fr_contacts results endpoint with Some addrs => addrs | None => [] end
  end.

Definition task_event (results : FetchResults) (task : FetchTask) : FetchEvent :=
  match task with CacheTask => CacheEvent (task_addrs results task) | ContactsTask _ => ContactsEvent (task_addrs results task) end.

(** The first task that runs ends. *)
Definition end_task (results : FetchResults) (b : Bootstrap) : Bootstrap :=
  match b_tasks b with
  | [] => b
  | task :: tasks =>
    bs_with_fetch b (b_cache_pending b) (b_contacts_progress b) (b_events b ++ [task_event results task]) tasks (b_fetch_in_progress b)
  end.

Definition push_addr (queue : list Multiaddr) (peer_ids : gset bytes) (addr : Multiaddr) : list Multiaddr * gset bytes :=
  (queue ++ [addr], match multiaddr_get_peer_id addr with Some peer_id => {[peer_id]} ∪ peer_ids | None => peer_ids end).

Definition push_addrs (queue : list Multiaddr) (peer_ids : gset bytes) (addrs : list Multiaddr) : list Multiaddr * gset bytes :=
  foldl (λ x addr, push_addr x.1 x.2 addr) (queue, peer_ids) addrs.

Definition extend_with_addrs (b : Bootstrap) (addrs : list Multiaddr) : Bootstrap :=
  let '(queue, peer_ids) := push_addrs (b_addrs b) (b_bootstrap_peer_ids b) addrs in bs_with_queue b queue peer_ids.

Definition process_event (b : Bootstrap) (event : FetchEvent) : Bootstrap :=
  let b := match event with
           | CacheEvent addrs => extend_with_addrs b addrs
           | ContactsEvent addrs =>
             let b := extend_with_addrs b addrs in
             match b_contacts_progress b with
             | Some {| cp_remaining := _ :: _ |} => b
             | _ => bs_with_fetch b (b_cache_pending b) None (b_events b) (b_tasks b) (b_fetch_in_progress b)
             end
           end in
  bs_with_fetch b (b_cache_pending b) (b_contacts_progress b) (b_events b) (b_tasks b) None.

Definition process_events (b : Bootstrap) : Bootstrap :=
  foldl process_event (bs_with_fetch b (b_cache_pending b) (b_contacts_progress b) [] (b_tasks b) (b_fetch_in_progress b)) (b_events b).

Definition start_cache_fetch (b : Bootstrap) : Bootstrap :=
  if decide (b_fetch_in_progress b = Some FetchCache) then b
  else bs_with_fetch b false (b_contacts_progress b) (b_events b) (b_tasks b ++ [CacheTask]) (Some FetchCache).

Definition start_contacts_fetch (b : Bootstrap) : Bootstrap :=
  if decide (b_fetch_in_progress b = Some FetchContacts) then b
  else
    match b_contacts_progress b with
    | None => b
    | Some {| cp_remaining := [] |} => bs_with_fetch b (b_cache_pending b) None (b_events b) (b_tasks b) (b_fetch_in_progress b)
    | Some {| cp_remaining := endpoint :: remaining |} =>
      bs_with_fetch b (b_cache_pending b) (Some {| cp_remaining := remaining |}) (b_events b) (b_tasks b ++ [ContactsTask endpoint]) (Some FetchContacts)
    end.

(** ** Addresses *)

Section run.
Context (cfg : BootstrapConfig) (results : FetchResults).

(** The loop of [next_addr]; [ended] says whether a running task has ended by a turn. *)
Fixpoint next_addr_loop (fuel : nat) (ended : nat → bool) (turn : nat) (b : Bootstrap)
    : option (result (option Multiaddr) BootstrapError * Bootstrap) :=
  match fuel with
  | O => None
  | S fuel =>
    let b := process_events (if ended turn then end_task results b else b) in
    match b_addrs b with
    | addr :: addrs => Some (Ok (Some addr), bs_with_queue b addrs (b_bootstrap_peer_ids b))
    | [] =>
      match b_fetch_in_progress b with
      | Some _ => Some (Ok None, b)
      | None =>
        if b_cache_pending b then next_addr_loop fuel ended (S turn) (start_cache_fetch b)
        else
          match b_contacts_progress b with
          | Some _ =>
            let b := start_contacts_fetch b in
            match b_fetch_in_progress b with
            | Some _ => Some (Ok None, b)
            | None => next_addr_loop fuel ended (S turn) b
            end
          | None => Some (Err NoBootstrapPeersFound, b)
          end
      end
    end
  end.

(** Three turns are enough: each but the last uses up a source. *)
Definition next_addr (ended : nat → bool) (b : Bootstrap) : option (result (option Multiaddr) BootstrapError * Bootstrap) :=
  next_addr_loop 3 ended 0 b.

(** ** Dials *)

Definition pop_p2p (addr : Multiaddr) : Multiaddr * option bytes :=
  match last addr with Some (P2p peer_id) => (removelast addr, Some peer_id) | _ => (addr, None) end.

Definition try_next_dial_addr (ended : nat → bool) (b : Bootstrap) : option (result (option Multiaddr) BootstrapError * Bootstrap) :=
  '(r, b) ← next_addr ended b;
  match r with
  | Err NoBootstrapPeersFound => Some (r, bs_with_dials b (b_ongoing_dials b) true)
  | _ => Some (r, b)
  end.

Definition has_bootstrap_completed (contacted_peers : nat) (b : Bootstrap) : bool :=
  b_bootstrap_completed b || (bc_max_contacted_peers_before_termination cfg <=? contacted_peers)%nat ||
  (bool_decide (b_addrs b = []) && negb (b_cache_pending b) && bool_decide (b_contacts_progress b = None) &&
   bool_decide (b_fetch_in_progress b = None)).

(** The loop of [trigger_bootstrapping_process] and the dials it asks of the swarm; [dial_ok] says which
    of them the swarm takes up, and any error leads on to the next address. *)
Fixpoint dial_loop (fuel : nat) (ended : nat → nat → bool) (dial_ok : nat → bool) (turn : nat) (b : Bootstrap)
    : option (list (Multiaddr * option bytes) * Bootstrap) :=
  match fuel with
  | O => None
  | S fuel =>
    if (bc_max_concurrent_dials cfg <=? size (b_ongoing_dials b))%nat then Some ([], b)
    else
      '(r, b) ← try_next_dial_addr (ended turn) b;
      match r with
      | Ok (Some addr) =>
        let b := if dial_ok turn then bs_with_dials b ({[addr]} ∪ b_ongoing_dials b) (b_bootstrap_completed b) else b in
        '(dials, b) ← dial_loop fuel ended dial_ok (S turn) b;
        Some (pop_p2p addr :: dials, b)
      | _ => Some ([], b)
      end
  end.

Definition trigger_bootstrapping_process (fuel : nat) (ended : nat → nat → bool) (dial_ok : nat → bool) (contacted_peers : nat) (b : Bootstrap)
    : option (bool * list (Multiaddr * option bytes) * Bootstrap) :=
  if has_bootstrap_completed contacted_peers b then
    Some (true, [], bs_with_dials (bs_with_queue b [] (b_bootstrap_peer_ids b)) ∅ true)
  else
    '(dials, b) ← dial_loop fuel ended dial_ok 0 b;
    Some (b_bootstrap_completed b, dials, b).

(** [endpoint] is the address of a [ConnectedPoint::Dialer]. *)
Definition bootstrap_on_established (peer_id : bytes) (endpoint : option Multiaddr) (b : Bootstrap) : Bootstrap :=
  if b_bootstrap_completed b then b
  else
    match endpoint with
    | Some address =>
      if decide (address ∈ b_ongoing_dials b) then bs_with_dials b (b_ongoing_dials b ∖ {[address]}) (b_bootstrap_completed b)
      else bs_with_dials b (filter (λ addr, multiaddr_get_peer_id addr ≠ Some peer_id) (b_ongoing_dials b)) (b_bootstrap_completed b)
    | None => b
    end.

Definition bootstrap_on_outgoing_error (peer_id : option bytes) (b : Bootstrap) : Bootstrap :=
  if b_bootstrap_completed b then b
  else
    match peer_id with
    | Some peer_id => bs_with_dials b (filter (λ addr, multiaddr_get_peer_id addr ≠ Some peer_id) (b_ongoing_dials b)) (b_bootstrap_completed b)
    | None => bs_with_dials b (filter (λ addr, is_Some (multiaddr_get_peer_id addr)) (b_ongoing_dials b)) (b_bootstrap_completed b)
    end.

Definition is_bootstrap_peer (peer_id : bytes) (b : Bootstrap) : bool := bool_decide (peer_id ∈ b_bootstrap_peer_ids b).

(** ** Construction *)

Definition MIN_INITIAL_ADDRS : nat := 5.

Definition try_finalize_initial_addrs (b : Bootstrap) (collected_addrs : list Multiaddr) (min_address : nat) : option Bootstrap :=
  if (length collected_addrs <? min_address)%nat then None else Some (extend_with_addrs b collected_addrs).

(** The loop of [new] that collects the first addresses; [timed_out] says whether the time is up at a turn. *)
Fixpoint collect_initial (fuel : nat) (ended : nat → nat → bool) (timed_out : nat → bool) (turn : nat) (collected_addrs : list Multiaddr)
    (b : Bootstrap) : option (result Bootstrap BootstrapError) :=
  match fuel with
  | O => None
  | S fuel =>
    '(r, b) ← next_addr (ended turn) b;
    match r with
    | Ok (Some addr) =>
      let collected_addrs := collected_addrs ++ [addr] in
      match try_finalize_initial_addrs b collected_addrs MIN_INITIAL_ADDRS with
      | Some b => Some (Ok b)
      | None => collect_initial fuel ended timed_out (S turn) collected_addrs b
      end
    | Ok None =>
      if timed_out turn then
        match try_finalize_initial_addrs b collected_addrs 1 with Some b => Some (Ok b) | None => Some (Err NoBootstrapPeersFound) end
      else collect_initial fuel ended timed_out (S turn) collected_addrs b
    | Err err =>
      match try_finalize_initial_addrs b collected_addrs 1 with Some b => Some (Ok b) | None => Some (Err err) end
    end
  end.

Context `{AddrParsers}.

(** The addresses of the environment and of the arguments. *)
Definition given_addrs (ant_peers : option bytes) : list Multiaddr :=
  if bc_first cfg then []
  else (if bc_disable_env_peers cfg then [] else fetch_from_env ant_peers) ++
       omap (λ addr, craft_valid_multiaddr addr false) (bc_initial_peers cfg).

(** The state of [new] before the collection. *)
Definition bootstrap_init (ant_peers : option bytes) (contacts_progress : option ContactsProgress) : Bootstrap :=
  let '(queue, peer_ids) := push_addrs [] ∅ (given_addrs ant_peers) in
  {| b_addrs := queue; b_cache_pending := negb (bc_first cfg) && negb (bc_disable_cache_reading cfg); b_contacts_progress := contacts_progress;
     b_events := []; b_tasks := []; b_fetch_in_progress := None; b_ongoing_dials := ∅; b_bootstrap_peer_ids := peer_ids;
     b_bootstrap_completed := bc_first cfg |}.

(** [new]; [cache_dir_ok] and [write_ok] say whether the cache directory exists or can be created, and, for
    the first node, whether the cleared cache can be written. *)
Definition bootstrap_new (fuel : nat) (ended : nat → nat → bool) (timed_out : nat → bool) (ant_peers : option bytes) (network_id : Z)
    (cache_dir_ok write_ok : bool) : option (result Bootstrap BootstrapError) :=
  match build_contacts_progress cfg network_id with
  | Err err => Some (Err err)
  | Ok contacts_progress =>
    if negb cache_dir_ok then Some (Err IoError)
    else
      let b := bootstrap_init ant_peers contacts_progress in
      if bc_first cfg then (if write_ok then Some (Ok b) else Some (Err IoError))
      else if (length (b_addrs b) <? MIN_INITIAL_ADDRS)%nat then collect_initial fuel ended timed_out 0 [] b
      else Some (Ok b)
  end.
End run.
