(* ===== verification/BootstrapProps.v ===== *)
(** * Properties of bootstrapping

    Of src/ant-bootstrap/src/bootstrap.rs: [next_addr] is an iterator over the addresses of all sources in
    their order, with one fetch at a time; the dialing keeps to its bound, and gives up only when every
    address was tried; what [new] leaves in the queue; and the periods of the cache's flushes. *)

From stdpp Require Import base gmap countable strings list relations.
From Stdlib Require Import ZArith Lia.
From S2P Require Import Prelude Text Protocol RecordCache Multiaddr BootstrapCache Bootstrap.

(** ** The iterator *)

Definition event_addrs (e : FetchEvent) : list Multiaddr := match e with CacheEvent addrs | ContactsEvent addrs => addrs end.
Definition event_kind (e : FetchEvent) : FetchKind := match e with CacheEvent _ => FetchCache | ContactsEvent _ => FetchContacts end.
Definition task_kind (t : FetchTask) : FetchKind := match t with CacheTask => FetchCache | ContactsTask _ => FetchContacts end.

Definition endpoints_left (b : Bootstrap) : list bytes := match b_contacts_progress b with Some p => cp_remaining p | None => [] end.

(** One fetch at a time: it runs or its event waits, and it is the one that is said to be in progress. *)
Definition boot_inv (b : Bootstrap) : Prop :=
  match b_fetch_in_progress b with
  | None => b_events b = [] ∧ b_tasks b = []
  | Some k => (∃ e, b_events b = [e] ∧ b_tasks b = [] ∧ event_kind e = k) ∨ (∃ t, b_events b = [] ∧ b_tasks b = [t] ∧ task_kind t = k)
  end ∧
  (b_contacts_progress b = Some {| cp_remaining := [] |} → b_fetch_in_progress b = Some FetchContacts).

(** What a list of addresses answers when it is taken apart: the next one, that it must be waited for,
    or that there is none left. *)
Inductive iter_step : list Multiaddr → result (option Multiaddr) BootstrapError → list Multiaddr → Prop :=
  | iter_next addr addrs : iter_step (addr :: addrs) (Ok (Some addr)) addrs
  | iter_wait addrs : iter_step addrs (Ok None) addrs
  | iter_exhausted : iter_step [] (Err NoBootstrapPeersFound) [].

Lemma push_addrs_queue queue ids addrs : (push_addrs queue ids addrs).1 = queue ++ addrs.
Proof.
  unfold push_addrs. revert queue ids. induction addrs as [|a addrs IH]; intros queue ids; simpl; [by rewrite app_nil_r|].
  destruct (push_addr queue ids a) as [q i] eqn:E. rewrite IH. unfold push_addr in E. simplify_eq/=. by rewrite <- app_assoc.
Qed.

Lemma extend_with_addrs_eq b addrs : ∃ ids, extend_with_addrs b addrs = bs_with_queue b (b_addrs b ++ addrs) ids.
Proof.
  unfold extend_with_addrs. pose proof (push_addrs_queue (b_addrs b) (b_bootstrap_peer_ids b) addrs) as Hq.
  destruct (push_addrs _ _ _) as [queue ids]. simpl in Hq. subst. by exists ids.
Qed.

Section props.
Context (cfg : BootstrapConfig) (results : FetchResults).

(** The addresses that are left: in the queue, in the channel, to be sent by the task that runs, and of
    the sources that are not fetched yet. *)
Definition contacts_addrs (urls : list bytes) : list Multiaddr := concat ((λ url, task_addrs results (ContactsTask url)) <$> urls).

Definition behind_queue (b : Bootstrap) : list Multiaddr :=
  concat (event_addrs <$> b_events b) ++ concat (task_addrs results <$> b_tasks b) ++
  (if b_cache_pending b then task_addrs results CacheTask else []) ++ contacts_addrs (endpoints_left b).

Definition pending_addrs (b : Bootstrap) : list Multiaddr := b_addrs b ++ behind_queue b.

(** The sources that are not used up, twice, and the fetch that runs. *)
Definition sources_left (b : Bootstrap) : nat :=
  2 * length (endpoints_left b) + (if b_cache_pending b then 2 else 0) + (if b_fetch_in_progress b is Some _ then 1 else 0).

(** The part of the state that the sources do not touch. *)
Definition same_dials (b b' : Bootstrap) : Prop :=
  b_ongoing_dials b' = b_ongoing_dials b ∧ b_bootstrap_completed b' = b_bootstrap_completed b.

Lemma end_task_inv b : boot_inv b → boot_inv (end_task results b).
Proof.
  unfold boot_inv, end_task. intros [Hf Hc]. destruct (b_tasks b) as [|t ts] eqn:Ht; [by rewrite Ht|]. simpl. split; [|done].
  destruct (b_fetch_in_progress b) as [k|]; [|naive_solver]. destruct Hf as [(e & _ & ? & _)|(t' & -> & [= -> ->] & <-)]; [done|].
  left. exists (task_event results t'). simpl. split_and!; [done..|]. by destruct t'.
Qed.

Lemma end_task_pending b : boot_inv b → pending_addrs (end_task results b) = pending_addrs b.
Proof.
  unfold boot_inv, end_task, pending_addrs, behind_queue, endpoints_left. intros [Hf _]. destruct (b_tasks b) as [|t ts] eqn:Ht; [by rewrite Ht|]. simpl.
  destruct (b_fetch_in_progress b) as [k|]; [|naive_solver]. destruct Hf as [(e & _ & ? & _)|(t' & -> & [= -> ->] & <-)]; [done|].
  simpl. by destruct t'; rewrite !app_nil_r.
Qed.

Lemma end_task_rest b :
  same_dials b (end_task results b) ∧ endpoints_left (end_task results b) = endpoints_left b ∧
  b_cache_pending (end_task results b) = b_cache_pending b ∧ b_contacts_progress (end_task results b) = b_contacts_progress b ∧
  b_fetch_in_progress (end_task results b) = b_fetch_in_progress b.
Proof. unfold end_task, same_dials, endpoints_left. by destruct (b_tasks b). Qed.

(** Events are taken up, with nothing lost. *)
Lemma process_events_spec b :
  boot_inv b → let b' := process_events b in
  boot_inv b' ∧ pending_addrs b' = pending_addrs b ∧ same_dials b b' ∧ b_cache_pending b' = b_cache_pending b ∧
  endpoints_left b' = endpoints_left b ∧
  (b_fetch_in_progress b' = None ∨ b' = b ∧ ∃ t, b_tasks b = [t]).
Proof.
  intros Hinv. unfold process_events. destruct Hinv as [Hf Hc]. destruct (b_fetch_in_progress b) as [k|] eqn:Hk.
  - destruct Hf as [(e & He & Ht & Hek)|(t & He & Ht & Htk)].
    + rewrite He. simpl. unfold process_event. destruct e as [addrs|addrs].
      * match goal with |- context [extend_with_addrs ?x ?y] => destruct (extend_with_addrs_eq x y) as [ids ->] end.
        split_and!; unfold pending_addrs, behind_queue, boot_inv, same_dials, endpoints_left; simpl; rewrite ?He, ?Ht; simpl; auto.
        -- split; [done|]. intros Hp. specialize (Hc Hp). subst k. done.
        -- by rewrite app_nil_r, <- !app_assoc.
      * match goal with |- context [extend_with_addrs ?x ?y] => destruct (extend_with_addrs_eq x y) as [ids ->] end. simpl.
        destruct (b_contacts_progress b) as [[[|u us]]|] eqn:Hp; simpl;
          split_and!; unfold pending_addrs, behind_queue, boot_inv, same_dials, endpoints_left; simpl; rewrite ?He, ?Ht, ?Hp; simpl; auto;
          try (by split; [|intros [=]]); by rewrite app_nil_r, <- !app_assoc.
    + rewrite He. simpl. replace (bs_with_fetch b (b_cache_pending b) (b_contacts_progress b) [] (b_tasks b) (Some k)) with b
        by (unfold bs_with_fetch; destruct b; simpl in *; congruence). split_and!; try done; [|right; eauto]. unfold boot_inv. rewrite Hk. split; [right; eauto|done].
  - destruct Hf as [He Ht]. rewrite He. simpl. replace (bs_with_fetch b (b_cache_pending b) (b_contacts_progress b) [] (b_tasks b) None) with b
      by (unfold bs_with_fetch; destruct b; simpl in *; congruence). split_and!; try done; [|by left]. unfold boot_inv. by rewrite Hk.
Qed.

Lemma start_cache_spec b :
  boot_inv b → b_fetch_in_progress b = None → b_cache_pending b = true → b_addrs b = [] →
  let b' := start_cache_fetch b in
  boot_inv b' ∧ pending_addrs b' = pending_addrs b ∧ same_dials b b' ∧ b_cache_pending b' = false ∧
  endpoints_left b' = endpoints_left b ∧ b_tasks b' = [CacheTask].
Proof.
  intros [Hf Hc] Hk Hpend Hq. rewrite Hk in Hf. destruct Hf as [He Ht]. unfold start_cache_fetch. rewrite Hk. simpl.
  split_and!; unfold boot_inv, pending_addrs, behind_queue, same_dials, endpoints_left; simpl; rewrite ?He, ?Ht, ?Hpend; simpl; auto.
  - split; [right; eauto|]. intros Hp. rewrite Hk in Hc. by specialize (Hc Hp).
  - by rewrite app_nil_r.
Qed.

Lemma start_contacts_spec b p :
  boot_inv b → b_fetch_in_progress b = None → b_cache_pending b = false → b_contacts_progress b = Some p → b_addrs b = [] →
  let b' := start_contacts_fetch b in
  boot_inv b' ∧ pending_addrs b' = pending_addrs b ∧ same_dials b b' ∧ b_cache_pending b' = false ∧ is_Some (b_fetch_in_progress b') ∧
  length (endpoints_left b) = S (length (endpoints_left b')).
Proof.
  intros [Hf Hc] Hk Hpend Hp Hq. rewrite Hk in Hf, Hc. destruct Hf as [He Ht]. unfold start_contacts_fetch. rewrite Hk, Hp. simpl.
  destruct p as [[|u us]]; [by specialize (Hc Hp)|].
  split_and!; unfold boot_inv, pending_addrs, behind_queue, same_dials, endpoints_left; simpl; rewrite ?He, ?Ht, ?Hpend, ?Hp; simpl; auto.
  - split; [right; eauto|done].
  - by rewrite app_nil_r.
Qed.

(** What a call of [next_addr] gives. *)
Definition next_spec (all_ended : bool) (b : Bootstrap) (r : result (option Multiaddr) BootstrapError) (b' : Bootstrap) : Prop :=
  boot_inv b' ∧ same_dials b b' ∧ iter_step (pending_addrs b) r (pending_addrs b') ∧
  match r with
  | Ok None => is_Some (b_fetch_in_progress b') ∧ (all_ended = true → (sources_left b' < sources_left b)%nat)
  | Ok (Some _) => True
  | Err _ => b_addrs b' = [] ∧ b_cache_pending b' = false ∧ b_contacts_progress b' = None ∧ b_fetch_in_progress b' = None
  end.

(** The turns that may be needed. *)
Definition turns (b : Bootstrap) : nat := (if b_cache_pending b then 1 else 0) + 1.

(** The start of a turn: a task may end, and the events are taken up. *)
Lemma turn_start (ended : bool) b :
  boot_inv b → let b' := process_events (if ended then end_task results b else b) in
  boot_inv b' ∧ pending_addrs b' = pending_addrs b ∧ same_dials b b' ∧ b_cache_pending b' = b_cache_pending b ∧ endpoints_left b' = endpoints_left b ∧
  (is_Some (b_fetch_in_progress b') → ended = false).
Proof.
  intros Hinv. set (b1 := if ended then end_task results b else b).
  assert (boot_inv b1 ∧ pending_addrs b1 = pending_addrs b ∧ same_dials b b1 ∧ b_cache_pending b1 = b_cache_pending b ∧ endpoints_left b1 = endpoints_left b ∧
    (ended = true → b_tasks b1 = [])) as (Hinv1 & Hpend1 & Hsame1 & Hcache1 & Hleft1 & Hended).
  { unfold b1. destruct ended; [|by split_and!].
    destruct (end_task_rest b) as (? & ? & ? & _). split_and!; auto using end_task_inv, end_task_pending.
    intros _. unfold end_task. destruct (b_tasks b) as [|t ts] eqn:Ht; simpl; [done|]. destruct Hinv as [Hf _].
    destruct (b_fetch_in_progress b); [destruct Hf as [(? & _ & ? & _)|(? & _ & ? & _)]|destruct Hf]; congruence. }
  clearbody b1. destruct (process_events_spec b1 Hinv1) as (Hinv2 & Hpend2 & [Hd2 Hc2] & Hcache2 & Hleft2 & Hfetch). destruct Hsame1 as [Hd1 Hc1].
  split_and!; [done|congruence|split; congruence|congruence|congruence|]. intros [k Hk]. destruct ended; [exfalso|done].
  destruct Hfetch as [Hfetch|[_ [t Ht]]]; [congruence|]. by rewrite (Hended eq_refl) in Ht.
Qed.

Lemma next_addr_loop_spec fuel ended turn b :
  boot_inv b → (turns b ≤ fuel)%nat →
  ∃ r b', next_addr_loop results fuel ended turn b = Some (r, b') ∧ ∀ all_ended, (all_ended = true → ∀ i, ended i = true) → next_spec all_ended b r b'.
Proof.
  revert turn b. induction fuel as [|fuel IH]; intros turn b Hinv Hfuel; [unfold turns in Hfuel; lia|]. cbn [next_addr_loop].
  destruct (turn_start (ended turn) b Hinv) as (Hinv2 & Hpend2 & [Hd2 Hc2] & Hcache2 & Hleft2 & Hrun).
  set (b2 := process_events _) in *. clearbody b2. unfold next_spec, sources_left, same_dials. rewrite <- Hpend2, <- Hcache2, <- Hleft2, <- Hd2, <- Hc2.
  destruct (b_addrs b2) as [|addr addrs] eqn:Hq.
  2: { eexists _, _. split; [done|]. intros all Hall. split_and!; [exact Hinv2|done..| |done]. unfold pending_addrs at 1. rewrite Hq. constructor. }
  destruct (b_fetch_in_progress b2) as [k|] eqn:Hk.
  { eexists _, _. split; [done|]. intros all Hall. split_and!; [done..|constructor|by rewrite Hk|].
    intros ->. specialize (Hrun ltac:(by eexists)). by rewrite (Hall eq_refl) in Hrun. }
  destruct (b_cache_pending b2) eqn:Hpend.
  - destruct (start_cache_spec b2 Hinv2 Hk Hpend Hq) as (Hinv3 & Hpend3 & [Hd3 Hc3] & Hcache3 & Hleft3 & Ht3).
    destruct (IH (S turn) (start_cache_fetch b2)) as (r & b' & Heq & Hspec); [done|unfold turns in *; rewrite Hcache3, <- Hcache2 in *; lia|].
    exists r, b'. split; [done|]. intros all Hall. destruct (Hspec all Hall) as (Hinv' & [Hd' Hc'] & Hiter & Hr). rewrite Hpend3 in Hiter.
    split_and!; [done|congruence|congruence|done|]. destruct r as [[a|]|e]; [done| |done]. destruct Hr as [Hf Hlt]. split; [done|].
    intros Ha. specialize (Hlt Ha). unfold sources_left in Hlt. rewrite Hleft3, Hcache3 in Hlt. destruct (b_fetch_in_progress (start_cache_fetch b2)); case_match; lia.
  - destruct (b_contacts_progress b2) as [p|] eqn:Hp.
    + destruct (start_contacts_spec b2 p Hinv2 Hk Hpend Hp Hq) as (Hinv3 & Hpend3 & [Hd3 Hc3] & Hcache3 & [k' Hk'] & Hlen). rewrite Hk'.
      eexists _, _. split; [done|]. intros all Hall. rewrite Hpend3, Hk', Hcache3. split_and!; [done|done|done|constructor|by eexists|]. intros _. case_match; lia.
    + eexists _, _. split; [done|]. intros all Hall.
      assert (pending_addrs b2 = []) as Hempty.
      { destruct Hinv2 as [Hf _]. rewrite Hk in Hf. destruct Hf as [He Ht]. unfold pending_addrs, behind_queue, endpoints_left. by rewrite Hq, He, Ht, Hpend, Hp. }
      rewrite Hempty. split_and!; [done..|constructor|done|done|done|done].
Qed.

(** [next_addr] is an iterator. For whatever times the fetches take, at most one at a time, the calls
    give the addresses of the environment, the arguments, the cache and the endpoints in this order and
    one by one, ask to wait only while a fetch is in progress, and fail only when nothing is left of
    any source; every call returns, and among calls for which the fetches end in time, each that asks to wait
    comes closer to the last source. *)
Theorem next_addr_iterates ended b :
  boot_inv b →
  ∃ r b', next_addr results ended b = Some (r, b') ∧ boot_inv b' ∧ same_dials b b' ∧ iter_step (pending_addrs b) r (pending_addrs b') ∧
    match r with
    | Ok None => is_Some (b_fetch_in_progress b') ∧ ((∀ i, ended i = true) → (sources_left b' < sources_left b)%nat)
    | Ok (Some _) => True
    | Err _ => b_addrs b' = [] ∧ b_cache_pending b' = false ∧ b_contacts_progress b' = None ∧ b_fetch_in_progress b' = None
    end.
Proof.
  intros Hinv. destruct (next_addr_loop_spec 3 ended 0 b Hinv) as (r & b' & Heq & Hspec); [unfold turns; case_match; lia|].
  exists r, b'. destruct (Hspec false) as (? & ? & ? & Hr); [done|]. split_and!; [done..|]. destruct r as [[a|]|e]; [done| |done].
  destruct Hr as [Hr _]. split; [done|]. intros Hall. destruct (Hspec true) as (_ & _ & _ & _ & Hlt); [done|]. by apply Hlt.
Qed.

(** ** Dialing *)

Lemma try_next_dial_spec ended b :
  boot_inv b →
  ∃ r b', try_next_dial_addr results ended b = Some (r, b') ∧ boot_inv b' ∧ b_ongoing_dials b' = b_ongoing_dials b ∧
    iter_step (pending_addrs b) r (pending_addrs b') ∧ (b_bootstrap_completed b = false → b_bootstrap_completed b' = true ↔ ∃ e, r = Err e).
Proof.
  intros Hinv. destruct (next_addr_loop_spec 3 ended 0 b Hinv) as (r & b1 & Heq & Hspec); [unfold turns; case_match; lia|].
  destruct (Hspec false) as (Hinv1 & [Hd Hc] & Hiter & _); [done|]. unfold try_next_dial_addr, next_addr. rewrite Heq. simpl.
  destruct r as [oa|e].
  - exists (Ok oa), b1. split_and!; [done..|]. intros Hb. rewrite Hc, Hb. naive_solver.
  - assert (e = NoBootstrapPeersFound) as -> by (by inversion Hiter). eexists _, _. split; [done|]. split_and!; [done..|]. simpl. naive_solver.
Qed.

Lemma dial_loop_spec fuel ended dial_ok turn b :
  boot_inv b → b_bootstrap_completed b = false → (size (b_ongoing_dials b) ≤ bc_max_concurrent_dials cfg)%nat →
  match dial_loop cfg results fuel ended dial_ok turn b with
  | Some (dials, b') =>
    ∃ tried, dials = pop_p2p <$> tried ∧ boot_inv b' ∧ (size (b_ongoing_dials b') ≤ bc_max_concurrent_dials cfg)%nat ∧
      pending_addrs b = tried ++ pending_addrs b' ∧ (b_bootstrap_completed b' = true → pending_addrs b' = [])
  | None => (fuel ≤ length (pending_addrs b))%nat
  end.
Proof.
  revert turn b. induction fuel as [|fuel IH]; intros turn b Hinv Hnot Hsize; cbn [dial_loop]; [lia|].
  destruct (Nat.leb_spec (bc_max_concurrent_dials cfg) (size (b_ongoing_dials b))) as [Hfull|Hroom].
  { exists []. split_and!; [done..|]. congruence. }
  destruct (try_next_dial_spec (ended turn) b Hinv) as (r & b1 & -> & Hinv1 & Hd1 & Hiter & Hcomp). specialize (Hcomp Hnot). simpl.
  remember (pending_addrs b) as l eqn:Hl. remember (pending_addrs b1) as l1 eqn:Hl1. destruct Hiter as [addr addrs|addrs|].
  2: { exists []. rewrite <- Hl1. split_and!; [done|done|by rewrite Hd1|done|]. intros [e [=]]%Hcomp. }
  2: { exists []. rewrite <- Hl1. split_and!; [done|done|by rewrite Hd1|done|done]. }
  assert (b_bootstrap_completed b1 = false) as Hnot1 by (destruct (b_bootstrap_completed b1); [|done]; by destruct Hcomp as [[e [=]] _]).
  set (b2 := if dial_ok turn then _ else b1).
  assert (boot_inv b2 ∧ b_bootstrap_completed b2 = false ∧ pending_addrs b2 = addrs ∧ (size (b_ongoing_dials b2) ≤ bc_max_concurrent_dials cfg)%nat) as (Hinv2 & Hnot2 & Hp2 & Hs2).
  { unfold b2. destruct (dial_ok turn); [|split_and!; [done..|rewrite Hd1; lia]]. split_and!; [done..|]. simpl. rewrite Hd1, size_union_alt, size_singleton.
    assert (size (b_ongoing_dials b ∖ {[addr]}) ≤ size (b_ongoing_dials b))%nat by (apply subseteq_size; set_solver). lia. }
  specialize (IH (S turn) b2 Hinv2 Hnot2 Hs2). destruct (dial_loop cfg results fuel ended dial_ok (S turn) b2) as [[dials b']|]; simpl; [|rewrite Hp2 in IH; lia].
  destruct IH as (tried & -> & Hinv' & Hs' & Hp' & Hdone). exists (addr :: tried). split_and!; [done..| |done]. simpl. by rewrite <- Hp', Hp2.
Qed.

(** ** Runs *)

(** The bootstrapping of a node: polls with the number of contacted peers, and what the swarm reports of dials.
    Remembered are the dials that were tried and whether a poll saw enough peers. *)
Record BootRun := { br_state : Bootstrap; br_tried : list (Multiaddr * option bytes); br_enough : bool }.

Inductive boot_step : BootRun → BootRun → Prop :=
  | boot_poll x fuel ended dial_ok contacted finished dials b :
      trigger_bootstrapping_process cfg results fuel ended dial_ok contacted (br_state x) = Some (finished, dials, b) →
      boot_step x {| br_state := b; br_tried := br_tried x ++ dials;
                     br_enough := br_enough x || (bc_max_contacted_peers_before_termination cfg <=? contacted)%nat |}
  | boot_established x peer_id endpoint :
      boot_step x {| br_state := bootstrap_on_established peer_id endpoint (br_state x); br_tried := br_tried x; br_enough := br_enough x |}
  | boot_error x peer_id :
      boot_step x {| br_state := bootstrap_on_outgoing_error peer_id (br_state x); br_tried := br_tried x; br_enough := br_enough x |}.

(** With the addresses that were there at the start. *)
Definition run_inv (all : list Multiaddr) (x : BootRun) : Prop :=
  let b := br_state x in
  boot_inv b ∧ (size (b_ongoing_dials b) ≤ bc_max_concurrent_dials cfg)%nat ∧
  (b_bootstrap_completed b = false → br_tried x ++ (pop_p2p <$> pending_addrs b) = pop_p2p <$> all) ∧
  (b_bootstrap_completed b = true → br_enough x = true ∨ br_tried x = pop_p2p <$> all) ∧
  br_tried x `prefix_of` (pop_p2p <$> all).

Lemma exhausted_pending b :
  boot_inv b → b_addrs b = [] → b_cache_pending b = false → b_contacts_progress b = None → b_fetch_in_progress b = None → pending_addrs b = [].
Proof.
  intros [Hf _] Hq Hpend Hp Hk. rewrite Hk in Hf. destruct Hf as [He Ht]. unfold pending_addrs, behind_queue, endpoints_left. by rewrite Hq, He, Ht, Hpend, Hp.
Qed.

(** The handlers of connections only remove dials. *)
Lemma fewer_dials all x dials :
  run_inv all x → dials ⊆ b_ongoing_dials (br_state x) →
  run_inv all {| br_state := bs_with_dials (br_state x) dials (b_bootstrap_completed (br_state x)); br_tried := br_tried x; br_enough := br_enough x |}.
Proof. intros (? & ? & ? & ? & ?) Hsub. split_and!; simpl; auto. etrans; [by apply subseteq_size|done]. Qed.

Lemma poll_inv all x fuel ended dial_ok contacted finished dials b :
  trigger_bootstrapping_process cfg results fuel ended dial_ok contacted (br_state x) = Some (finished, dials, b) → run_inv all x →
  run_inv all {| br_state := b; br_tried := br_tried x ++ dials;
                 br_enough := br_enough x || (bc_max_contacted_peers_before_termination cfg <=? contacted)%nat |} ∧
  finished = b_bootstrap_completed b.
Proof.
  intros Hpoll (Hinv & Hsize & Hgoing & Hdone & Hprefix). unfold trigger_bootstrapping_process in Hpoll.
  destruct (has_bootstrap_completed cfg contacted (br_state x)) eqn:Hhas.
  - injection Hpoll as <- <- <-. split; [|done]. split_and!; simpl; rewrite ?app_nil_r; [exact Hinv|apply Nat.le_0_l|done| |done]. intros _.
    unfold has_bootstrap_completed in Hhas. destruct (b_bootstrap_completed (br_state x)) eqn:Hc; [destruct (Hdone eq_refl) as [->|]; auto|].
    destruct (_ <=? contacted)%nat; [left; apply orb_true_r|]. right. simpl in Hhas.
    destruct (bool_decide (b_addrs _ = [])) eqn:E1, (b_cache_pending _) eqn:E2, (bool_decide (b_contacts_progress _ = None)) eqn:E3, (bool_decide (b_fetch_in_progress _ = None)) eqn:E4; try done.
    apply bool_decide_eq_true in E1, E3, E4. rewrite <- (Hgoing eq_refl), (exhausted_pending _ Hinv E1 E2 E3 E4). simpl. by rewrite app_nil_r.
  - assert (b_bootstrap_completed (br_state x) = false) as Hc by (unfold has_bootstrap_completed in Hhas; by destruct (b_bootstrap_completed _)).
    pose proof (dial_loop_spec fuel ended dial_ok 0 _ Hinv Hc Hsize) as Hloop. destruct (dial_loop _ _ _ _ _ _ _) as [[ds b']|]; [|done].
    injection Hpoll as <- <- <-. destruct Hloop as (tried & -> & Hinv' & Hs' & Hp & Hfin). split; [|done]. specialize (Hgoing Hc). rewrite Hp, fmap_app in Hgoing.
    split_and!; simpl; [done|done|by rewrite <- app_assoc| |].
    + intros Hc'. right. rewrite (Hfin Hc') in Hgoing. simpl in Hgoing. by rewrite app_nil_r in Hgoing.
    + rewrite <- Hgoing, app_assoc. by apply prefix_app_r.
Qed.

Lemma boot_step_inv all x y : boot_step x y → run_inv all x → run_inv all y.
Proof.
  intros Hstep Hx. destruct Hstep as [x fuel ended dial_ok contacted finished dials b Hpoll|x p endpoint|x p].
  - by eapply poll_inv.
  - unfold bootstrap_on_established. destruct (b_bootstrap_completed (br_state x)) eqn:Hc; [by destruct x|]. destruct endpoint as [address|]; [|by destruct x].
    rewrite <- Hc. case_decide; apply fewer_dials; set_solver.
  - unfold bootstrap_on_outgoing_error. destruct (b_bootstrap_completed (br_state x)) eqn:Hc; [by destruct x|].
    rewrite <- Hc. destruct p; apply fewer_dials; set_solver.
Qed.

(** From a state that is not completed, whatever the polls see, the swarm answers and the fetches take. *)
Lemma run_tries_all b y :
  boot_inv b → b_ongoing_dials b = ∅ → b_bootstrap_completed b = false →
  rtc boot_step {| br_state := b; br_tried := []; br_enough := false |} y →
  (size (b_ongoing_dials (br_state y)) ≤ bc_max_concurrent_dials cfg)%nat ∧
  br_tried y `prefix_of` (pop_p2p <$> pending_addrs b) ∧
  (b_bootstrap_completed (br_state y) = true → br_enough y = true ∨ br_tried y = pop_p2p <$> pending_addrs b) ∧
  ∀ fuel ended dial_ok contacted, (length (pending_addrs (br_state y)) < fuel)%nat →
    ∃ dials b', trigger_bootstrapping_process cfg results fuel ended dial_ok contacted (br_state y) = Some (b_bootstrap_completed b', dials, b').
Proof.
  intros Hinv Hd Hc Hrun.
  assert (run_inv (pending_addrs b) y) as Hy.
  { assert (run_inv (pending_addrs b) {| br_state := b; br_tried := []; br_enough := false |}) as Hx.
    { split_and!; simpl; [done|rewrite Hd; apply Nat.le_0_l|done|by rewrite Hc|apply prefix_nil]. }
    revert Hx. induction Hrun; eauto using boot_step_inv. }
  destruct Hy as (Hinv' & Hsize & _ & Hdone & Hprefix). split_and!; [done..|]. intros fuel ended dial_ok contacted Hfuel.
  unfold trigger_bootstrapping_process. destruct (has_bootstrap_completed cfg contacted (br_state y)) eqn:Hhas; [exists [], (bs_with_dials (bs_with_queue (br_state y) [] (b_bootstrap_peer_ids (br_state y))) ∅ true); reflexivity|].
  assert (b_bootstrap_completed (br_state y) = false) as Hc' by (unfold has_bootstrap_completed in Hhas; by destruct (b_bootstrap_completed (br_state y))).
  pose proof (dial_loop_spec fuel ended dial_ok 0 _ Hinv' Hc' Hsize) as Hloop. destruct (dial_loop _ _ _ _ _ _ _) as [[ds b']|]; [exists ds, b'; done|lia].
Qed.

(** ** Construction *)

(** What the collection of the first addresses gives: it takes addresses off the front and puts them
    behind what is then in the queue. *)
Definition collected_spec (b0 : Bootstrap) (collected : list Multiaddr) (b : Bootstrap) (b' : Bootstrap) : Prop :=
  boot_inv b' ∧ same_dials b0 b' ∧
  ∃ taken queue rest, collected ++ pending_addrs b = taken ++ queue ++ rest ∧ b_addrs b' = queue ++ taken ∧ behind_queue b' = rest ∧
    taken ≠ [] ∧ (length taken ≤ MIN_INITIAL_ADDRS)%nat.

Lemma finalize_spec b0 b collected min_address b' :
  boot_inv b → same_dials b0 b → (0 < min_address)%nat → (length collected ≤ MIN_INITIAL_ADDRS)%nat →
  try_finalize_initial_addrs b collected min_address = Some b' → collected_spec b0 collected b b'.
Proof.
  intros Hinv Hsame Hmin Hlen. unfold try_finalize_initial_addrs. destruct (Nat.ltb_spec (length collected) min_address) as [|Hge]; [done|].
  intros [= <-]. destruct (extend_with_addrs_eq b collected) as [ids ->]. split; [exact Hinv|]. split; [exact Hsame|].
  exists collected, (b_addrs b), (behind_queue b). split_and!; try done. intros ->. simpl in Hge. lia.
Qed.

Lemma collect_initial_spec fuel ended timed_out turn collected b :
  boot_inv b → (length collected < MIN_INITIAL_ADDRS)%nat →
  match collect_initial results fuel ended timed_out turn collected b with
  | Some (Ok b') => collected_spec b collected b b'
  | Some (Err e) => e = NoBootstrapPeersFound ∧ collected = [] ∧ (pending_addrs b = [] ∨ ∃ i, timed_out i = true)
  | None => ∀ T, (∀ i, (T ≤ i)%nat → timed_out i = true) → (fuel ≤ (T - turn) + (MIN_INITIAL_ADDRS - length collected))%nat
  end.
Proof.
  unfold collected_spec. revert turn collected b. induction fuel as [|fuel IH]; intros turn collected b Hinv Hlen; cbn [collect_initial]; [lia|].
  destruct (next_addr_loop_spec 3 (ended turn) 0 b Hinv) as (r & b1 & Heq & Hspec); [unfold turns; case_match; lia|].
  destruct (Hspec false) as (Hinv1 & Hsame & Hiter & _); [done|]. unfold next_addr. rewrite Heq. simpl.
  remember (pending_addrs b) as l eqn:Hl. remember (pending_addrs b1) as l1 eqn:Hl1. destruct Hiter as [addr addrs|addrs|].
  - destruct (try_finalize_initial_addrs b1 (collected ++ [addr]) MIN_INITIAL_ADDRS) as [b'|] eqn:Hfin.
    + apply (finalize_spec b) in Hfin as (? & ? & Hex); [|done|done|unfold MIN_INITIAL_ADDRS; lia|rewrite length_app; simpl; lia].
      split; [done|]. split; [done|]. by rewrite <- Hl1, <- app_assoc in Hex.
    + unfold try_finalize_initial_addrs in Hfin. destruct (Nat.ltb_spec (length (collected ++ [addr])) MIN_INITIAL_ADDRS) as [Hlt|]; [|done].
      specialize (IH (S turn) (collected ++ [addr]) b1 Hinv1 Hlt). rewrite <- Hl1, <- app_assoc in IH.
      destruct (collect_initial _ _ _ _ _ _ _) as [[b'|e]|].
      * destruct IH as (? & [? ?] & Hex). destruct Hsame as [? ?]. split; [done|]. split; [split; congruence|done].
      * destruct IH as (_ & Hnil & _). by destruct collected.
      * intros T HT. specialize (IH T HT). rewrite length_app in IH, Hlt. simpl in IH, Hlt. lia.
  - destruct (timed_out turn) eqn:Htime.
    + destruct (try_finalize_initial_addrs b1 collected 1) as [b'|] eqn:Hfin.
      * apply (finalize_spec b) in Hfin; [|done|done|lia|lia]. unfold collected_spec in Hfin. by rewrite <- Hl1 in Hfin.
      * unfold try_finalize_initial_addrs in Hfin. destruct collected; [|done]. split_and!; [done..|]. right. eauto.
    + specialize (IH (S turn) collected b1 Hinv1 Hlen). rewrite <- Hl1 in IH. destruct (collect_initial _ _ _ _ _ _ _) as [[b'|e]|]; [|done|].
      * destruct IH as (? & [? ?] & Hex). destruct Hsame as [? ?]. split; [done|]. split; [split; congruence|done].
      * intros T HT. specialize (IH T HT). destruct (decide (T ≤ turn)%nat) as [Hle|]; [by rewrite (HT _ Hle) in Htime|]. lia.
  - destruct (try_finalize_initial_addrs b1 collected 1) as [b'|] eqn:Hfin.
    + apply (finalize_spec b) in Hfin; [|done|done|lia|lia]. unfold collected_spec in Hfin. by rewrite <- Hl1 in Hfin.
    + unfold try_finalize_initial_addrs in Hfin. destruct collected; [|done]. split_and!; auto.
Qed.

Context `{AddrParsers}.

Lemma contacts_progress_nonempty network_id p : build_contacts_progress cfg network_id = Ok (Some p) → cp_remaining p ≠ [].
Proof.
  assert (∀ urls, contacts_progress_new urls = Some p → cp_remaining p ≠ []) as Hnew by (intros [|u us]; simpl; [done|by intros [= <-]]).
  unfold build_contacts_progress, from_static. intros Hb. repeat case_match; simplify_eq; eauto.
Qed.

(** The addresses of all sources, in their order. *)
Definition source_addrs (ant_peers : option bytes) (contacts : option ContactsProgress) : list Multiaddr :=
  given_addrs cfg ant_peers ++ (if bc_disable_cache_reading cfg then [] else task_addrs results CacheTask) ++
  contacts_addrs (match contacts with Some p => cp_remaining p | None => [] end).

Lemma bootstrap_init_spec ant_peers network_id contacts :
  bc_first cfg = false → build_contacts_progress cfg network_id = Ok contacts →
  let b := bootstrap_init cfg ant_peers contacts in
  boot_inv b ∧ b_ongoing_dials b = ∅ ∧ b_bootstrap_completed b = false ∧ pending_addrs b = source_addrs ant_peers contacts.
Proof.
  intros Hfirst Hcontacts. unfold bootstrap_init. pose proof (push_addrs_queue [] ∅ (given_addrs cfg ant_peers)) as Hq.
  destruct (push_addrs [] ∅ (given_addrs cfg ant_peers)) as [queue ids]. simpl in Hq. subst queue.
  split_and!; simpl; [| done|done|].
  - split; [done|]. simpl. intros ->. by apply contacts_progress_nonempty in Hcontacts.
  - unfold pending_addrs, source_addrs, behind_queue, endpoints_left. simpl. rewrite Hfirst. by destruct (bc_disable_cache_reading cfg).
Qed.

Lemma bootstrap_init_queue ant_peers contacts : b_addrs (bootstrap_init cfg ant_peers contacts) = given_addrs cfg ant_peers.
Proof.
  unfold bootstrap_init. pose proof (push_addrs_queue [] ∅ (given_addrs cfg ant_peers)) as Hq.
  by destruct (push_addrs [] ∅ (given_addrs cfg ant_peers)) as [queue ids].
Qed.

(** What a new bootstrap starts from. When the time runs out at some turn, [new] returns; it fails, once
    its contacts and directory are there, only if the sources have no address or none came in time;
    otherwise every address of every source is still to come, each as often as the sources have it, with up
    to five of the first ones moved behind what was in the queue. *)
Theorem bootstrap_new_keeps_sources fuel ended timed_out T ant_peers network_id contacts write_ok :
  bc_first cfg = false → build_contacts_progress cfg network_id = Ok contacts →
  (∀ i, (T ≤ i)%nat → timed_out i = true) → (T + MIN_INITIAL_ADDRS < fuel)%nat →
  match bootstrap_new cfg results fuel ended timed_out ant_peers network_id true write_ok with
  | Some (Ok b) =>
    boot_inv b ∧ b_ongoing_dials b = ∅ ∧ b_bootstrap_completed b = false ∧ pending_addrs b ≡ₚ source_addrs ant_peers contacts ∧
    ∃ taken queue rest, source_addrs ant_peers contacts = taken ++ queue ++ rest ∧ b_addrs b = queue ++ taken ∧ pending_addrs b = queue ++ taken ++ rest ∧
      (length taken ≤ MIN_INITIAL_ADDRS)%nat ∧ ((MIN_INITIAL_ADDRS ≤ length (given_addrs cfg ant_peers))%nat → taken = [])
  | Some (Err e) => e = NoBootstrapPeersFound ∧ (source_addrs ant_peers contacts = [] ∨ ∃ i, timed_out i = true)
  | None => False
  end.
Proof.
  intros Hfirst Hcontacts HT Hfuel. destruct (bootstrap_init_spec ant_peers network_id contacts Hfirst Hcontacts) as (Hinv & Hd & Hc & Hp).
  unfold bootstrap_new. rewrite Hcontacts, Hfirst. cbn [negb]. set (b := bootstrap_init cfg ant_peers contacts) in *.
  destruct (Nat.ltb_spec (length (b_addrs b)) MIN_INITIAL_ADDRS) as [Hlt|Hge].
  - pose proof (collect_initial_spec fuel ended timed_out 0 [] b Hinv ltac:(unfold MIN_INITIAL_ADDRS; simpl; lia)) as Hspec. simpl in Hspec. rewrite Hp in Hspec.
    destruct (collect_initial _ _ _ _ _ _ _) as [[b'|e]|]; [|naive_solver|specialize (Hspec T HT); unfold MIN_INITIAL_ADDRS in *; simpl in Hspec; lia].
    destruct Hspec as (Hinv' & [Hd' Hc'] & taken & queue & rest & Hsrc & Hq & Hrest & _ & Hlen). simpl in Hsrc. rewrite Hp in Hsrc.
    assert (pending_addrs b' = queue ++ taken ++ rest) as Hp' by (unfold pending_addrs; by rewrite Hq, Hrest, <- app_assoc).
    split_and!; [done|congruence|congruence| |exists taken, queue, rest; split_and!; [done..|]; by rewrite <- (bootstrap_init_queue ant_peers contacts); fold b; lia]. rewrite Hp', Hsrc, !app_assoc. f_equiv. apply Permutation_app_comm.
  - split_and!; [done..|by rewrite Hp|]. exists [], (b_addrs b), (behind_queue b). split_and!; [by rewrite <- Hp|by rewrite app_nil_r|done|simpl; lia|done].
Qed.

(** C35: bootstrapping gives up only when everything was tried. Take a new bootstrap of a node that is not the first, and
    whatever its polls see, the swarm answers and the fetches take. It remembers no more dials as under way than
    configured. The addresses it tries are those of the sources, each as often as they have it: the given ones, then
    those of the cache, then of the contacts; except that with fewer than five given, up to five of the first ones are
    moved behind those that were queued with them. When it has ended, a poll saw the configured number of
    peers or every address was tried. A poll ends with as many turns as there are addresses left, and one. (A failure that
    names no peer makes it forget all dials to addresses without a peer id, so that more may be under way than it
    remembers.) *)
Theorem bootstrap_tries_everything fuel0 ended0 timed_out T ant_peers network_id contacts write_ok b y :
  bc_first cfg = false → build_contacts_progress cfg network_id = Ok contacts →
  (∀ i, (T ≤ i)%nat → timed_out i = true) → (T + MIN_INITIAL_ADDRS < fuel0)%nat →
  bootstrap_new cfg results fuel0 ended0 timed_out ant_peers network_id true write_ok = Some (Ok b) →
  rtc boot_step {| br_state := b; br_tried := []; br_enough := false |} y →
  (size (b_ongoing_dials (br_state y)) ≤ bc_max_concurrent_dials cfg)%nat ∧
  (∃ taken queue rest, source_addrs ant_peers contacts = taken ++ queue ++ rest ∧ (length taken ≤ MIN_INITIAL_ADDRS)%nat ∧
     ((MIN_INITIAL_ADDRS ≤ length (given_addrs cfg ant_peers))%nat → taken = []) ∧
     let order := pop_p2p <$> queue ++ taken ++ rest in
     br_tried y `prefix_of` order ∧ (b_bootstrap_completed (br_state y) = true → br_enough y = true ∨ br_tried y = order)) ∧
  ∀ fuel ended dial_ok contacted, (length (pending_addrs (br_state y)) < fuel)%nat →
    ∃ dials b', trigger_bootstrapping_process cfg results fuel ended dial_ok contacted (br_state y) = Some (b_bootstrap_completed b', dials, b').
Proof.
  intros Hfirst Hcontacts HT Hfuel Hnew Hrun.
  pose proof (bootstrap_new_keeps_sources fuel0 ended0 timed_out T ant_peers network_id contacts write_ok Hfirst Hcontacts HT Hfuel) as Hb.
  rewrite Hnew in Hb. destruct Hb as (Hinv & Hd & Hc & _ & taken & queue & rest & Hsrc & _ & Hp & Hlen & Hgiven).
  destruct (run_tries_all b y Hinv Hd Hc Hrun) as (Hsize & Hprefix & Hdone & Hpoll). rewrite Hp in Hprefix, Hdone.
  split; [done|]. split; [|done]. exists taken, queue, rest. by split_and!.
Qed.
End props.

(** ** Witnesses *)

#[local] Instance no_parsers : AddrParsers := {| parse_multiaddr := λ _, None; parse_url := λ u, Some u |}.

Definition quic_addr (n : Z) : Multiaddr := [Ip4 n; Udp 80; QuicV1; P2p [n]].

Definition one_arg : BootstrapConfig :=
  {| bc_backwards_compatible_writes := false; bc_cache_save_scaling_factor := 2; bc_disable_cache_writing := false;
     bc_disable_cache_reading := false; bc_disable_env_peers := false; bc_first := false; bc_initial_peers := [quic_addr 1];
     bc_local := false; bc_max_cache_save_duration := 100 * nanos; bc_max_concurrent_dials := 2;
     bc_max_contacted_peers_before_termination := 5; bc_max_cached_peers := 5;
     bc_max_addrs_per_cached_peer := 2; bc_min_cache_save_duration := 10 * nanos; bc_network_contacts_url := [text "http://one"] |}.

(** A cache with as many peers, and an endpoint that gives one more. *)
Definition cached (ns : list Z) : FetchResults :=
  {| fr_cache := Some {| cd_peers := (λ n, ([n], [quic_addr n])) <$> ns; cd_last_updated := 0; cd_network_version := []; cd_cache_version := [] |};
     fr_contacts := λ _, Some [quic_addr 9] |}.

Definition one_contact : option ContactsProgress := Some {| cp_remaining := [text "http://one"] |}.

Lemma one_arg_init :
  let b := bootstrap_init one_arg None one_contact in
  boot_inv b ∧ b_ongoing_dials b = ∅ ∧ b_bootstrap_completed b = false ∧ pending_addrs (cached [2]) b = [quic_addr 1; quic_addr 2; quic_addr 9].
Proof. split_and!; [split; [done|intros [=]]|done|done|done]. Qed.

Lemma next_addr_iterates_witness :
  let b := bootstrap_init one_arg None one_contact in
  ∃ r b', next_addr (cached [2]) (λ _, true) b = Some (r, b') ∧ iter_step [quic_addr 1; quic_addr 2; quic_addr 9] r (pending_addrs (cached [2]) b').
Proof.
  destruct (next_addr_iterates (cached [2]) (λ _, true) (bootstrap_init one_arg None one_contact)) as (r & b' & Heq & _ & _ & Hiter & _);
    [apply one_arg_init|]. by exists r, b'.
Defined.

(** A poll of the bootstrap that was made from one argument, five cached peers and a contact. *)
Lemma bootstrap_tries_everything_witness :
  ∃ b b', bootstrap_new one_arg (cached [2; 3; 4; 5; 6]) 9 (λ _ _, true) (λ _, true) None 1 true true = Some (Ok b) ∧
    trigger_bootstrapping_process one_arg (cached [2; 3; 4; 5; 6]) 9 (λ _ _, true) (λ _, true) 0 b =
      Some (false, [([Ip4 6; Udp 80; QuicV1], Some [6]); ([Ip4 1; Udp 80; QuicV1], Some [1])], b') ∧
    (size (b_ongoing_dials b') ≤ 2)%nat.
Proof.
  destruct (bootstrap_new one_arg (cached [2; 3; 4; 5; 6]) 9 (λ _ _, true) (λ _, true) None 1 true true) as [[b|e]|] eqn:Hnew; [|vm_compute in Hnew; discriminate..].
  destruct (trigger_bootstrapping_process one_arg (cached [2; 3; 4; 5; 6]) 9 (λ _ _, true) (λ _, true) 0 b) as [[[fin dials] b']|] eqn:Hpoll;
    [|vm_compute in Hnew; injection Hnew as <-; vm_compute in Hpoll; discriminate].
  exists b, b'. split; [reflexivity|].
  destruct (bootstrap_tries_everything one_arg (cached [2; 3; 4; 5; 6]) 9 (λ _ _, true) (λ _, true) 0 None 1 one_contact true b
              {| br_state := b'; br_tried := dials; br_enough := false |}) as (Hsize & _); [reflexivity|reflexivity|done|unfold MIN_INITIAL_ADDRS; lia|exact Hnew| |].
  - apply rtc_once. exact (boot_poll one_arg (cached [2; 3; 4; 5; 6]) {| br_state := b; br_tried := []; br_enough := false |} _ _ _ _ _ _ _ Hpoll).
  - split; [|exact Hsize]. vm_compute in Hnew. injection Hnew as <-. vm_compute in Hpoll |- *. injection Hpoll as <- <- <-. reflexivity.
Defined.

Lemma bootstrap_new_keeps_sources_witness :
  match bootstrap_new one_arg (cached [2; 3; 4; 5; 6]) 9 (λ _ _, true) (λ _, true) None 1 true true with
  | Some (Ok b) => pending_addrs (cached [2; 3; 4; 5; 6]) b ≡ₚ quic_addr <$> [1; 2; 3; 4; 5; 6; 9]
  | _ => True
  end.
Proof.
  pose proof (bootstrap_new_keeps_sources one_arg (cached [2; 3; 4; 5; 6]) 9 (λ _ _, true) (λ _, true) 0 None 1 one_contact true
                eq_refl eq_refl ltac:(done) ltac:(unfold MIN_INITIAL_ADDRS; lia)) as Hspec.
  destruct (bootstrap_new one_arg _ _ _ _ _ _ _ _) as [[b|e]|]; [|done..]. by destruct Hspec as (_ & _ & _ & Hperm & _).
Defined.

(** The address of the arguments is dialed after one of the cache. *)
Lemma argument_after_cache :
  ∃ b, bootstrap_new one_arg (cached [2; 3; 4; 5; 6]) 9 (λ _ _, true) (λ _, true) None 1 true true = Some (Ok b) ∧
    b_addrs b = quic_addr <$> [6; 1; 2; 3; 4; 5].
Proof. eexists. split; [vm_compute; reflexivity|reflexivity]. Qed.
