(* ===== verification/DoNotDisturb.v ===== *)
(** * Do not disturb

    Models src/ant-node/src/networking/driver/behaviour/do_not_disturb.rs: a node asks a peer not to
    dial it for a while, so that the peer's address mappings expire before it is dialed back. The
    codec of the messages over a stream of bytes, the upgrades of both ends of a stream, the handler
    of a connection and the behaviour with the peers not to be dialed. A stream is the bytes to be
    read and, apart, the bytes written; writes succeed or fail by an argument. rmp_serde is the
    parameter [Serde]; a [tokio::time::Instant] is in nanoseconds. *)

From stdpp Require Import base gmap countable strings list sorting.
From Stdlib Require Import ZArith Lia.
From S2P Require Import Prelude Text Protocol RecordCache.

Definition MAX_DO_NOT_DISTURB_DURATION : Z := 5 * 60.
Definition MAX_DND_MESSAGE : Z := 1024.

Inductive DoNotDisturbMessage :=
  | DndRequest (duration : Z)
  | DndResponse (accepted : bool).

#[global] Instance DoNotDisturbMessage_eq_dec : EqDecision DoNotDisturbMessage.
Proof. solve_decision. Defined.

(** [io::Error]s: the stream ended, the data is invalid, or it could not be written. *)
Inductive IoError := UnexpectedEof | InvalidData (reason : bytes) | WriteFailed.

Section codec.
Context `{Serde DoNotDisturbMessage}.

(** ** DndCodec *)

(** [read_exact]. *)
Definition read_exact (n : nat) (stream : bytes) : result (bytes * bytes) IoError :=
  if (length stream <? n)%nat then Err UnexpectedEof else Ok (take n stream, drop n stream).

Definition read_message (stream : bytes) : result (DoNotDisturbMessage * bytes) IoError :=
  (let? r := read_exact 4 stream in
   let '(len_bytes, stream) := r in
   let len := from_be_bytes len_bytes in
   if MAX_DND_MESSAGE <? len then Err (InvalidData (text "Message too large"))
   else
     let? r := read_exact (Z.to_nat len) stream in
     let '(data, stream) := r in
     match rmp_from_slice data with
     | Some message => Ok (message, stream)
     | None => Err (InvalidData (text "deserialize"))
     end)%rust.

(** The bytes a message is written as: its length [as u32], and its encoding. *)
Definition message_frame (message : DoNotDisturbMessage) : option bytes :=
  match rmp_to_vec message with
  | Some data => Some (to_be_bytes 4 (Z.of_nat (length data) mod 2 ^ 32) ++ data)
  | None => None
  end.

Definition write_message (writable : bool) (message : DoNotDisturbMessage) : result bytes IoError :=
  match message_frame message with
  | None => Err (InvalidData (text "serialize"))
  | Some frame => if writable then Ok frame else Err WriteFailed
  end.

(** ** Upgrades *)

(** [upgrade_inbound]: the request, and the bytes answered; a failed answer is only logged. *)
Definition upgrade_inbound (writable : bool) (stream : bytes) : result (DoNotDisturbMessage * bytes) IoError :=
  (let? r := read_message stream in
   let '(request, _) := r in
   match request with
   | DndRequest _ =>
     Ok (request, match write_message writable (DndResponse true) with Ok frame => frame | Err _ => [] end)
   | DndResponse _ => Ok (request, [])
   end)%rust.

(** [upgrade_outbound]: the bytes sent, and the response read from the peer's bytes. *)
Definition upgrade_outbound (writable : bool) (message : DoNotDisturbMessage) (peer : bytes → bytes)
    : result DoNotDisturbMessage IoError :=
  (let? frame := write_message writable message in
   let? r := read_message (peer frame) in
   Ok r.1)%rust.
End codec.

(** ** The handler of a connection *)

Inductive HandlerInEvent := SendRequest (duration : Z).

Inductive HandlerOutEvent :=
  | OutRequestReceived (duration : Z)
  | OutResponseReceived (accepted : bool)
  | OutRequestFailed (error : bytes).

(** [Vec]s, whose [pop] takes the last. *)
Record Handler := {
  h_pending_events : list HandlerOutEvent;
  h_pending_outbound_requests : list DoNotDisturbMessage;
}.

Definition handler_default : Handler := {| h_pending_events := []; h_pending_outbound_requests := [] |}.

(** [Vec::pop]. *)
Definition vec_pop {A} (l : list A) : option (A * list A) :=
  match last l with Some x => Some (x, removelast l) | None => None end.

Inductive HandlerPoll :=
  | OutboundSubstreamRequest (message : DoNotDisturbMessage)
  | NotifyBehaviour (event : HandlerOutEvent)
  | HandlerPending.

Definition handler_poll (h : Handler) : HandlerPoll * Handler :=
  match vec_pop (h_pending_outbound_requests h) with
  | Some (message, rest) =>
    (OutboundSubstreamRequest message, {| h_pending_events := h_pending_events h; h_pending_outbound_requests := rest |})
  | None =>
    match vec_pop (h_pending_events h) with
    | Some (event, rest) =>
      (NotifyBehaviour event, {| h_pending_events := rest; h_pending_outbound_requests := h_pending_outbound_requests h |})
    | None => (HandlerPending, h)
    end
  end.

Definition on_behaviour_event (event : HandlerInEvent) (h : Handler) : Handler :=
  match event with
  | SendRequest duration =>
    {| h_pending_events := h_pending_events h;
       h_pending_outbound_requests := h_pending_outbound_requests h ++ [DndRequest duration] |}
  end.

(** libp2p's [ConnectionEvent]s. *)
Inductive HandlerConnectionEvent :=
  | FullyNegotiatedInbound (received : DoNotDisturbMessage)
  | FullyNegotiatedOutbound (response : DoNotDisturbMessage)
  | DialUpgradeError (error : bytes)
  | ListenUpgradeError (error : bytes)
  | OtherConnectionEvent.

Definition push_event (event : HandlerOutEvent) (h : Handler) : Handler :=
  {| h_pending_events := h_pending_events h ++ [event]; h_pending_outbound_requests := h_pending_outbound_requests h |}.

Definition on_connection_event (event : HandlerConnectionEvent) (h : Handler) : Handler :=
  match event with
  | FullyNegotiatedInbound (DndRequest duration) => push_event (OutRequestReceived duration) h
  | FullyNegotiatedOutbound (DndResponse accepted) => push_event (OutResponseReceived accepted) h
  | DialUpgradeError error => push_event (OutRequestFailed (text "Failed to establish outbound DND stream: " ++ error)) h
  | FullyNegotiatedInbound (DndResponse _) | FullyNegotiatedOutbound (DndRequest _) | ListenUpgradeError _
  | OtherConnectionEvent => h
  end.

(** ** The behaviour *)

Inductive DoNotDisturbEvent :=
  | RequestReceived (peer : bytes) (duration : Z)
  | ResponseReceived (peer : bytes) (accepted : bool)
  | RequestFailed (peer : bytes) (error : bytes).

Inductive ToSwarm :=
  | GenerateEvent (e : DoNotDisturbEvent)
  | NotifyHandler (peer : bytes) (event : HandlerInEvent).

Record DndBehaviour := {
  dnd_blocked_peers : gmap bytes Z;
  dnd_pending_events : list ToSwarm;
}.

Definition dnd_default : DndBehaviour := {| dnd_blocked_peers := ∅; dnd_pending_events := [] |}.

(** [block_peer], for a duration of whole seconds and its nanoseconds. *)
Definition dnd_block_peer (now : Z) (peer_id : bytes) (duration : Z) (b : DndBehaviour) : DndBehaviour :=
  let capped_duration := Z.min (duration / NANOS) MAX_DO_NOT_DISTURB_DURATION in
  {| dnd_blocked_peers := <[peer_id := now + from_secs capped_duration]> (dnd_blocked_peers b);
     dnd_pending_events := dnd_pending_events b |}.

Definition dnd_unblock_peer (peer_id : bytes) (b : DndBehaviour) : DndBehaviour :=
  {| dnd_blocked_peers := delete peer_id (dnd_blocked_peers b); dnd_pending_events := dnd_pending_events b |}.

Definition dnd_cleanup_expired (now : Z) (b : DndBehaviour) : DndBehaviour :=
  {| dnd_blocked_peers := filter (λ kv, (kv.2 <=? now) = false) (dnd_blocked_peers b);
     dnd_pending_events := dnd_pending_events b |}.

Definition dnd_is_blocked (now : Z) (peer_id : bytes) (b : DndBehaviour) : bool * DndBehaviour :=
  let b := dnd_cleanup_expired now b in (contains_key peer_id (dnd_blocked_peers b), b).

Definition dnd_push (e : ToSwarm) (b : DndBehaviour) : DndBehaviour :=
  {| dnd_blocked_peers := dnd_blocked_peers b; dnd_pending_events := dnd_pending_events b ++ [e] |}.

Definition send_do_not_disturb_request (peer : bytes) (duration_secs : Z) (b : DndBehaviour) : DndBehaviour :=
  dnd_push (NotifyHandler peer (SendRequest (Z.min duration_secs MAX_DO_NOT_DISTURB_DURATION))) b.

(** [handle_pending_outbound_connection]: refused with the time that remains, or allowed. *)
Definition handle_pending_outbound_connection {A} (now : Z) (maybe_peer : option bytes) (addresses : A) (b : DndBehaviour)
    : result A (bytes * Z) * DndBehaviour :=
  match maybe_peer with
  | Some peer_id =>
    match dnd_blocked_peers b !! peer_id with
    | Some unblock_time =>
      if now <? unblock_time then (Err (peer_id, unblock_time - now), b) else (Ok addresses, dnd_cleanup_expired now b)
    | None => (Ok addresses, b)
    end
  | None => (Ok addresses, b)
  end.

(** [on_connection_handler_event]. *)
Definition on_connection_handler_event (now : Z) (peer_id : bytes) (event : HandlerOutEvent) (b : DndBehaviour) : DndBehaviour :=
  match event with
  | OutRequestReceived duration =>
    dnd_push (GenerateEvent (RequestReceived peer_id duration))
      (dnd_block_peer now peer_id (from_secs (Z.min duration MAX_DO_NOT_DISTURB_DURATION)) b)
  | OutResponseReceived accepted => dnd_push (GenerateEvent (ResponseReceived peer_id accepted)) b
  | OutRequestFailed error => dnd_push (GenerateEvent (RequestFailed peer_id error)) b
  end.

Definition dnd_poll (now : Z) (b : DndBehaviour) : option ToSwarm * DndBehaviour :=
  let b := dnd_cleanup_expired now b in
  match vec_pop (dnd_pending_events b) with
  | Some (event, rest) => (Some event, {| dnd_blocked_peers := dnd_blocked_peers b; dnd_pending_events := rest |})
  | None => (None, b)
  end.

(** ** The codec *)

Section codec_props.
Context `{SerdeLaws DoNotDisturbMessage}.

Lemma read_exact_app n data rest : length data = n → read_exact n (data ++ rest) = Ok (data, rest).
Proof.
  intros <-. unfold read_exact. destruct (Nat.ltb_spec (length (data ++ rest)) (length data)) as [Hlt|_]; [rewrite length_app in Hlt; lia|].
  by rewrite take_app_length, drop_app_length.
Qed.

(** Reading a frame gives the message back and leaves the rest of the stream. *)
Lemma read_frame message data frame rest :
  rmp_to_vec message = Some data → Z.of_nat (length data) ≤ MAX_DND_MESSAGE → message_frame message = Some frame →
  read_message (frame ++ rest) = Ok (message, rest).
Proof.
  intros Hdata Hlen Hframe. unfold message_frame in Hframe. rewrite Hdata in Hframe. apply (inj Some) in Hframe as <-.
  assert (0 ≤ Z.of_nat (length data) < 2 ^ 32) as Hfit by (unfold MAX_DND_MESSAGE in Hlen; lia).
  rewrite Z.mod_small by exact Hfit. unfold read_message. rewrite <- app_assoc, read_exact_app by apply length_to_be_bytes. cbn [rbind].
  rewrite from_to_be_bytes by exact Hfit. destruct (Z.ltb_spec MAX_DND_MESSAGE (Z.of_nat (length data))); [lia|].
  rewrite read_exact_app by lia. cbn [rbind]. by rewrite (rmp_roundtrip _ _ Hdata).
Qed.

(** The codec of do-not-disturb messages. A message of at most 1024 bytes that is written is
    read back from the front of any stream, with what follows left in it; and whatever bytes a peer
    sends, at most 1028 of them are taken for one message. *)
Theorem dnd_codec_roundtrip message data frame rest :
  rmp_to_vec message = Some data → Z.of_nat (length data) ≤ MAX_DND_MESSAGE → write_message true message = Ok frame →
  read_message (frame ++ rest) = Ok (message, rest) ∧
  ∀ stream m rest', read_message stream = Ok (m, rest') → (length stream ≤ length rest' + 1028)%nat.
Proof.
  intros Hdata Hlen Hwrite. split.
  - unfold write_message in Hwrite. destruct (message_frame message) as [f|] eqn:Hf; simplify_eq. by eapply read_frame.
  - intros stream m rest' Hread. unfold read_message, read_exact in Hread.
    destruct (Nat.ltb_spec (length stream) 4); [done|]. cbn [rbind] in Hread.
    destruct (Z.ltb_spec MAX_DND_MESSAGE (from_be_bytes (take 4 stream))) as [|Hle]; [done|].
    destruct (Nat.ltb_spec (length (drop 4 stream)) (Z.to_nat (from_be_bytes (take 4 stream)))) as [|Hd]; [done|]. cbn [rbind] in Hread.
    destruct (rmp_from_slice _); simplify_eq. rewrite !length_drop in *. unfold MAX_DND_MESSAGE in Hle. lia.
Qed.
End codec_props.

(** ** The behaviour *)

(** What happens to a behaviour, each at a reading of the clock. *)
Inductive DndOp :=
  | OpBlock (peer : bytes) (duration : Z)
  | OpUnblock (peer : bytes)
  | OpIsBlocked (peer : bytes)
  | OpSend (peer : bytes) (duration_secs : Z)
  | OpDial (maybe_peer : option bytes)
  | OpHandler (peer : bytes) (event : HandlerOutEvent)
  | OpPoll.

Definition dnd_op (now : Z) (op : DndOp) (b : DndBehaviour) : DndBehaviour :=
  match op with
  | OpBlock peer duration => dnd_block_peer now peer duration b
  | OpUnblock peer => dnd_unblock_peer peer b
  | OpIsBlocked peer => (dnd_is_blocked now peer b).2
  | OpSend peer duration_secs => send_do_not_disturb_request peer duration_secs b
  | OpDial maybe_peer => (handle_pending_outbound_connection now maybe_peer tt b).2
  | OpHandler peer event => on_connection_handler_event now peer event b
  | OpPoll => (dnd_poll now b).2
  end.

Definition dnd_run (l : list (Z * DndOp)) (b : DndBehaviour) : DndBehaviour := foldl (λ b op, dnd_op op.1 op.2 b) b l.

(** The specification: until when a peer is not to be dialed, by what was last asked for it. *)
Definition dnd_until_step (p : bytes) (until : option Z) (op : Z * DndOp) : option Z :=
  match op with
  | (now, OpBlock peer duration) =>
    if decide (peer = p) then Some (now + from_secs (Z.min (duration / NANOS) MAX_DO_NOT_DISTURB_DURATION)) else until
  | (now, OpHandler peer (OutRequestReceived duration)) =>
    if decide (peer = p) then Some (now + from_secs (Z.min duration MAX_DO_NOT_DISTURB_DURATION)) else until
  | (_, OpUnblock peer) => if decide (peer = p) then None else until
  | _ => until
  end.

Definition dnd_until (p : bytes) (l : list (Z * DndOp)) : option Z := foldl (dnd_until_step p) None l.

(** The clock does not go back. *)
Definition clock_monotone (l : list (Z * DndOp)) (now : Z) : Prop := Sorted.StronglySorted Z.le (l.*1 ++ [now]).

(** The behaviour agrees with the specification up to entries that have expired. *)
Definition dnd_agrees (now : Z) (b : DndBehaviour) (until : bytes → option Z) : Prop :=
  ∀ p, dnd_blocked_peers b !! p = until p ∨ (dnd_blocked_peers b !! p = None ∧ ∃ u, until p = Some u ∧ u ≤ now).

Lemma cleanup_lookup now b p :
  dnd_blocked_peers (dnd_cleanup_expired now b) !! p =
    match dnd_blocked_peers b !! p with Some u => if u <=? now then None else Some u | None => None end.
Proof.
  simpl. rewrite map_lookup_filter. destruct (dnd_blocked_peers b !! p) as [u|]; simpl; [|done]. destruct (u <=? now); by simplify_option_eq.
Qed.

Lemma cleanup_agrees now b until : dnd_agrees now b until → dnd_agrees now (dnd_cleanup_expired now b) until.
Proof.
  intros Hb p. rewrite cleanup_lookup. destruct (Hb p) as [->|[-> Hu]]; [|by right].
  destruct (until p) as [u|]; [|by left]. destruct (Z.leb_spec u now); [right; eauto|by left].
Qed.

Lemma agrees_later now now' b until : now ≤ now' → dnd_agrees now b until → dnd_agrees now' b until.
Proof. intros Hle Hb p. destruct (Hb p) as [|[? (u & ? & ?)]]; [by left|right; eauto with lia]. Qed.

Lemma from_secs_div s : from_secs s / NANOS = s.
Proof. unfold from_secs. by rewrite Z.div_mul. Qed.

Lemma block_agrees now b until p0 d until' :
  dnd_agrees now b until → (∀ p, until' p = if decide (p0 = p) then Some (now + from_secs (Z.min (d / NANOS) MAX_DO_NOT_DISTURB_DURATION)) else until p) →
  dnd_agrees now (dnd_block_peer now p0 d b) until'.
Proof.
  intros Hb Hu p. rewrite Hu. simpl. destruct (decide (p0 = p)) as [->|Hne]; [left; by rewrite lookup_insert_eq|].
  rewrite lookup_insert_ne by done. apply Hb.
Qed.

Lemma dnd_op_agrees now op b until :
  dnd_agrees now b until → dnd_agrees now (dnd_op now op b) (λ p, dnd_until_step p (until p) (now, op)).
Proof.
  intros Hb. destruct op as [peer d|peer|peer|peer d|maybe|peer ev|]; simpl.
  - by apply (block_agrees now b until).
  - intros p. simpl. destruct (decide (peer = p)) as [->|Hne]; [left; by rewrite lookup_delete_eq|]. rewrite lookup_delete_ne by done. apply Hb.
  - by apply cleanup_agrees.
  - exact Hb.
  - unfold handle_pending_outbound_connection. destruct maybe as [p|]; [|done]. destruct (dnd_blocked_peers b !! p); [|done].
    destruct (_ <? _); [done|]. by apply cleanup_agrees.
  - destruct ev as [d| |]; [|exact Hb..]. apply (block_agrees now b until _ (from_secs (Z.min d MAX_DO_NOT_DISTURB_DURATION))); [done|].
    intros p. rewrite from_secs_div, <- Z.min_assoc, Z.min_id. done.
  - unfold dnd_poll. pose proof (cleanup_agrees now b until Hb) as Hc. destruct (vec_pop _) as [[e rest]|]; exact Hc.
Qed.

Lemma dnd_run_agrees l now :
  clock_monotone l now → dnd_agrees now (dnd_run l dnd_default) (λ p, dnd_until p l).
Proof.
  unfold clock_monotone, dnd_run, dnd_until. revert now. induction l as [|[t op] l IH] using rev_ind; intros now Hclock p; [by left|].
  rewrite fmap_app, <- app_assoc in Hclock. cbn [fmap list_fmap app fst] in Hclock. rewrite !foldl_app. simpl. revert p.
  assert (Sorted.StronglySorted Z.le (l.*1 ++ [t]) ∧ t ≤ now) as [Hl Ht].
  { change (l.*1 ++ [t; now]) with (l.*1 ++ [t] ++ [now]) in Hclock. rewrite app_assoc in Hclock.
    apply StronglySorted_app in Hclock as (Hall & Hs & _). split; [done|]. apply Hall; set_solver. }
  apply (agrees_later t); [done|]. apply (dnd_op_agrees t op (foldl _ dnd_default l) (λ p, foldl (dnd_until_step p) None l)). by apply IH.
Qed.

(** C34: the do-not-disturb behaviour implements its specification. After any calls, requests of
    peers and polls, at readings of a clock that does not go back, an outgoing connection to a peer
    is refused exactly if the last thing asked for that peer was to leave it alone and the time,
    at most five minutes, is not over; the error tells the time that remains, and connections with no
    known peer are never refused. *)
Theorem dnd_refines_spec l now p (addresses : list bytes) :
  clock_monotone l now →
  (handle_pending_outbound_connection now (Some p) addresses (dnd_run l dnd_default)).1 =
    match dnd_until p l with
    | Some until => if now <? until then Err (p, until - now) else Ok addresses
    | None => Ok addresses
    end ∧
  (handle_pending_outbound_connection now None addresses (dnd_run l dnd_default)).1 = Ok addresses.
Proof.
  intros Hclock. split; [|done]. pose proof (dnd_run_agrees l now Hclock p) as Ha. simpl in Ha. unfold handle_pending_outbound_connection.
  destruct Ha as [->|[-> (u & -> & Hu)]].
  - destruct (dnd_until p l) as [u|]; [|done]. by destruct (now <? u).
  - simpl. by destruct (Z.ltb_spec now u); [lia|].
Qed.

(** Who is left alone was asked to be, no longer ago than five minutes. *)
Definition dnd_asked (p : bytes) (l : list (Z * DndOp)) (u : Z) : Prop :=
  ∃ t op, (t, op) ∈ l ∧ u ≤ t + from_secs MAX_DO_NOT_DISTURB_DURATION ∧
    ((∃ d, op = OpBlock p d) ∨ ∃ d, op = OpHandler p (OutRequestReceived d)).

Lemma dnd_until_bounded p l u : dnd_until p l = Some u → dnd_asked p l u.
Proof.
  unfold dnd_until. revert u. induction l as [|[t op] l IH] using rev_ind; intros u; simpl; [done|]. rewrite foldl_app. simpl.
  assert (foldl (dnd_until_step p) None l = Some u → dnd_asked p (l ++ [(t, op)]) u) as Hold.
  { intros (t' & op' & Hin & Hrest)%IH. exists t', op'. split; [set_solver|exact Hrest]. }
  destruct op as [peer d|peer| | | |peer [d| |]|]; simpl; try exact Hold; case_decide; simplify_eq; try exact Hold; try done.
  - intros [= <-]. exists t, (OpBlock p d). split; [set_solver|]. split; [unfold from_secs, NANOS; lia|eauto].
  - intros [= <-]. exists t, (OpHandler p (OutRequestReceived d)). split; [set_solver|]. split; [unfold from_secs, NANOS; lia|eauto].
Qed.

(** ** From one node to the other *)

Section exchange.
Context `{SerdeLaws DoNotDisturbMessage}.

(** The answer of the node at the other end of a stream. *)
Definition answering_node (frame : bytes) : bytes :=
  match upgrade_inbound true frame with Ok (_, answer) => answer | Err _ => [] end.

(** A request is honoured. When a node asks a peer not to be disturbed, the behaviour's next
    poll notifies the handler, whose poll opens a stream with the request for at most five minutes;
    the peer's end reads that request and answers, and the asking end is told that it was accepted;
    the peer then refuses to dial the node exactly until the time is over. *)
Theorem dnd_request_honoured me peer now duration_secs data answer t (addresses : list bytes) :
  let d := Z.min duration_secs MAX_DO_NOT_DISTURB_DURATION in
  rmp_to_vec (DndRequest d) = Some data → Z.of_nat (length data) ≤ MAX_DND_MESSAGE →
  rmp_to_vec (DndResponse true) = Some answer → Z.of_nat (length answer) ≤ MAX_DND_MESSAGE → now ≤ t →
  (dnd_poll now (send_do_not_disturb_request peer duration_secs dnd_default)).1 = Some (NotifyHandler peer (SendRequest d)) ∧
  (handler_poll (on_behaviour_event (SendRequest d) handler_default)).1 = OutboundSubstreamRequest (DndRequest d) ∧
  upgrade_outbound true (DndRequest d) answering_node = Ok (DndResponse true) ∧
  (∃ frame sent, write_message true (DndRequest d) = Ok frame ∧ upgrade_inbound true frame = Ok (DndRequest d, sent)) ∧
  (handler_poll (on_connection_event (FullyNegotiatedInbound (DndRequest d)) handler_default)).1 = NotifyBehaviour (OutRequestReceived d) ∧
  ((handle_pending_outbound_connection t (Some me) addresses (on_connection_handler_event now me (OutRequestReceived d) dnd_default)).1 =
     Ok addresses ↔ now + from_secs d ≤ t).
Proof.
  intros d Hdata Hlen Hanswer Halen Ht.
  assert (∃ frame, message_frame (DndRequest d) = Some frame) as [frame Hframe] by (unfold message_frame; rewrite Hdata; eauto).
  assert (∃ aframe, message_frame (DndResponse true) = Some aframe) as [aframe Haframe] by (unfold message_frame; rewrite Hanswer; eauto).
  assert (upgrade_inbound true frame = Ok (DndRequest d, aframe)) as Hin.
  { unfold upgrade_inbound. rewrite <- (app_nil_r frame), (read_frame _ _ _ _ Hdata Hlen Hframe). cbn [rbind].
    unfold write_message. by rewrite Haframe. }
  split_and!; try done.
  - unfold upgrade_outbound, write_message. rewrite Hframe. cbn [rbind]. unfold answering_node. rewrite Hin.
    by rewrite <- (app_nil_r aframe), (read_frame _ _ _ _ Hanswer Halen Haframe).
  - exists frame, aframe. unfold write_message. by rewrite Hframe.
  - assert (Z.min d MAX_DO_NOT_DISTURB_DURATION = d) as Hcap by (unfold d; lia). clearbody d.
    unfold handle_pending_outbound_connection. simpl. rewrite lookup_insert_eq, from_secs_div, !Hcap. destruct (Z.ltb_spec t (now + from_secs d)) as [Hlt|Hge]; simpl.
    + split; [intros [=]|intros Hle; exfalso; lia].
    + split; [intros _; exact Hge|done].
Qed.
End exchange.

(** ** The order of requests *)

(** What a handler's polls report, until it has nothing more to report. *)
Fixpoint handler_reports (fuel : nat) (h : Handler) : list HandlerOutEvent :=
  match fuel with
  | O => []
  | S fuel =>
    match handler_poll h with
    | (NotifyBehaviour e, h) => e :: handler_reports fuel h
    | (OutboundSubstreamRequest _, h) => handler_reports fuel h
    | (HandlerPending, _) => []
    end
  end.

Lemma vec_pop_app {A} (l : list A) x : vec_pop (l ++ [x]) = Some (x, l).
Proof. unfold vec_pop. by rewrite last_snoc, removelast_last. Qed.

Lemma handler_reports_reversed events fuel :
  (length events ≤ fuel)%nat → handler_reports fuel {| h_pending_events := events; h_pending_outbound_requests := [] |} = reverse events.
Proof.
  revert fuel. induction events as [|e events IH] using rev_ind; intros fuel Hf; [by destruct fuel|].
  rewrite length_app in Hf. destruct fuel as [|fuel]; [simpl in Hf; lia|]. simpl. unfold handler_poll. simpl. rewrite vec_pop_app.
  rewrite IH by (simpl in Hf; lia). by rewrite reverse_app.
Qed.

(** Requests of a peer that are waiting are taken up last first. When a peer asked twice before
    the connection is polled, the older request is reported last, so that what it asked for is what
    holds, whatever the newer one said. *)
Theorem dnd_older_request_wins now me d1 d2 :
  let h := on_connection_event (FullyNegotiatedInbound (DndRequest d2))
             (on_connection_event (FullyNegotiatedInbound (DndRequest d1)) handler_default) in
  let b := foldl (λ b e, on_connection_handler_event now me e b) dnd_default (handler_reports 2 h) in
  dnd_blocked_peers b !! me = Some (now + from_secs (Z.min d1 MAX_DO_NOT_DISTURB_DURATION)).
Proof.
  cbv zeta. simpl. unfold push_event. simpl. rewrite lookup_insert_eq, from_secs_div, <- Z.min_assoc, Z.min_id. done.
Qed.

(** ** Concrete messages *)

Section concrete.
Definition toy_dnd_serde : Serde DoNotDisturbMessage :=
  {| rmp_to_vec m := Some match m with DndRequest d => [1; d] | DndResponse a => [2; if a then 1 else 0] end;
     rmp_from_slice b := match b with
                         | [t; d] => if t =? 1 then Some (DndRequest d) else Some (DndResponse (d =? 1))
                         | _ => None
                         end |}.

Lemma toy_dnd_laws : @SerdeLaws DoNotDisturbMessage toy_dnd_serde.
Proof. split; [by intros [d|[]] b [= <-]|by intros [d|[]] b [= <-]]. Qed.

#[local] Existing Instances toy_dnd_serde toy_dnd_laws.

Lemma dnd_codec_roundtrip_witness :
  read_message ([0; 0; 0; 2; 1; 200] ++ [7; 7]) = Ok (DndRequest 200, [7; 7]) ∧
  ∀ stream m rest', read_message stream = Ok (m, rest') → (length stream ≤ length rest' + 1028)%nat.
Proof.
  apply (dnd_codec_roundtrip (DndRequest 200) [1; 200] [0; 0; 0; 2; 1; 200] [7; 7]); [reflexivity|cbn; unfold MAX_DND_MESSAGE; lia|].
  vm_compute. reflexivity.
Defined.

(** A peer asks for ten minutes, is unblocked, asks for one and is polled; two readings later. *)
Definition ex_dnd_ops : list (Z * DndOp) :=
  [(0, OpHandler [7] (OutRequestReceived 600)); (from_secs 1, OpUnblock [7]); (from_secs 2, OpHandler [7] (OutRequestReceived 60));
   (from_secs 3, OpPoll)].

Lemma dnd_refines_spec_witness :
  (handle_pending_outbound_connection (from_secs 12) (Some [7]) [[1]] (dnd_run ex_dnd_ops dnd_default)).1 = Err ([7], from_secs 50) ∧
  (handle_pending_outbound_connection (from_secs 12) None [[1]] (dnd_run ex_dnd_ops dnd_default)).1 = Ok [[1]].
Proof.
  apply (dnd_refines_spec ex_dnd_ops (from_secs 12) [7] [[1]]).
  vm_compute. repeat constructor; by vm_compute.
Defined.

Lemma dnd_request_honoured_witness :
  (dnd_poll 0 (send_do_not_disturb_request [8] 200 dnd_default)).1 = Some (NotifyHandler [8] (SendRequest 200)) ∧
  (handler_poll (on_behaviour_event (SendRequest 200) handler_default)).1 = OutboundSubstreamRequest (DndRequest 200) ∧
  upgrade_outbound true (DndRequest 200) answering_node = Ok (DndResponse true) ∧
  (∃ frame sent, write_message true (DndRequest 200) = Ok frame ∧ upgrade_inbound true frame = Ok (DndRequest 200, sent)) ∧
  (handler_poll (on_connection_event (FullyNegotiatedInbound (DndRequest 200)) handler_default)).1 = NotifyBehaviour (OutRequestReceived 200) ∧
  ((handle_pending_outbound_connection (from_secs 9) (Some [7]) [[1]] (on_connection_handler_event 0 [7] (OutRequestReceived 200) dnd_default)).1 =
     Ok [[1]] ↔ 0 + from_secs 200 ≤ from_secs 9).
Proof.
  apply (dnd_request_honoured [7] [8] 0 200 [1; 200] [2; 1] (from_secs 9) [[1]]); try reflexivity; vm_compute; congruence.
Defined.
End concrete.
