(* ===== verification/CloseGroupTracker.v ===== *)
(** * The tracker of the close group

    Models CloseGroupTracker of src/ant-node/src/node.rs: a node replicates at once when a peer close
    to it comes or goes, but not for a peer that restarts. The tracker keeps the twenty closest peers,
    in a [BTreeSet] ordered by distance, and for each peer what it did; every change is answered with
    a directive. Times are nanoseconds; the order of peer ids, libp2p's, is a parameter. *)

From stdpp Require Import base gmap countable list sorting.
From Stdlib Require Import ZArith Lia.
From S2P Require Import Prelude Protocol RecordCache.

Definition CLOSE_GROUP_TRACKING_LIMIT : nat := 20.
Definition CLOSE_GROUP_RESTART_SUPPRESSION : Z := from_secs 90.

Record BehaviourEntry := {
  awaiting_rejoin : bool;
  restart_detected : bool;
  timer_deadline : option Z;
}.

Definition behaviour_default : BehaviourEntry :=
  {| awaiting_rejoin := false; restart_detected := false; timer_deadline := None |}.

Inductive ReplicationDirective := Trigger | Skip | Ignore.

Definition should_trigger (d : ReplicationDirective) : bool := match d with Trigger => true | _ => false end.

Section tracker.
Context `{XorNameLib, Bls, Kad}.
Context (peer_cmp : bytes → bytes → comparison) `{!CmpLaws peer_cmp}.

Record CloseGroupTracker := {
  ct_self_address : NetworkAddress;
  ct_close_up_peers : list (Z * bytes);
  ct_tracked_entries : gmap bytes BehaviourEntry;
}.

Definition tracker_new (self_peer_id : bytes) : CloseGroupTracker :=
  {| ct_self_address := NA_PeerId self_peer_id; ct_close_up_peers := []; ct_tracked_entries := ∅ |}.

Definition distance_to_peer (t : CloseGroupTracker) (peer_id : bytes) : Z := distance (ct_self_address t) (NA_PeerId peer_id).

(** [BTreeSet::remove]. *)
Definition bt_remove (x : Z * bytes) (s : list (Z * bytes)) : list (Z * bytes) := filter (λ y, y ≠ x) s.

Definition is_distance_within_close_range (t : CloseGroupTracker) (d : Z) : bool :=
  if (length (ct_close_up_peers t) <? CLOSE_GROUP_TRACKING_LIMIT)%nat then true
  else match last (ct_close_up_peers t) with Some (farthest_distance, _) => d <? farthest_distance | None => true end.

(** A close peer is entered, and the farthest one leaves when there are too many. *)
Definition enter_close_up (d : Z) (peer_id : bytes) (s : list (Z * bytes)) : list (Z * bytes) :=
  let s := bt_insert (prod_cmp Z.compare peer_cmp) (d, peer_id) s in
  if (CLOSE_GROUP_TRACKING_LIMIT <? length s)%nat then
    match last s with Some farthest => bt_remove farthest s | None => s end
  else s.

Definition record_peer_added (peer_id : bytes) (t : CloseGroupTracker) : ReplicationDirective * CloseGroupTracker :=
  let d := distance_to_peer t peer_id in
  let was_present := bool_decide ((d, peer_id) ∈ ct_close_up_peers t) in
  if is_distance_within_close_range t d then
    let close := enter_close_up d peer_id (ct_close_up_peers t) in
    let with_entry e := {| ct_self_address := ct_self_address t; ct_close_up_peers := close;
                           ct_tracked_entries := <[peer_id := e]> (ct_tracked_entries t) |} in
    match ct_tracked_entries t !! peer_id with
    | None => (if was_present then Ignore else Trigger, with_entry behaviour_default)
    | Some entry =>
      if awaiting_rejoin entry || bool_decide (is_Some (timer_deadline entry)) then
        (Skip, with_entry {| awaiting_rejoin := false; restart_detected := true; timer_deadline := None |})
      else if was_present then (Ignore, with_entry entry)
      else (Trigger, with_entry {| awaiting_rejoin := awaiting_rejoin entry; restart_detected := false;
                                   timer_deadline := timer_deadline entry |})
    end
  else (Ignore, {| ct_self_address := ct_self_address t; ct_close_up_peers := ct_close_up_peers t;
                   ct_tracked_entries := delete peer_id (ct_tracked_entries t) |}).

Definition record_peer_removed (now : Z) (peer_id : bytes) (t : CloseGroupTracker) : ReplicationDirective * CloseGroupTracker :=
  let d := distance_to_peer t peer_id in
  if bool_decide ((d, peer_id) ∈ ct_close_up_peers t) then
    let entry := default behaviour_default (ct_tracked_entries t !! peer_id) in
    let with_entry e := {| ct_self_address := ct_self_address t;
                           ct_close_up_peers := bt_remove (d, peer_id) (ct_close_up_peers t);
                           ct_tracked_entries := <[peer_id := e]> (ct_tracked_entries t) |} in
    if restart_detected entry then
      (Skip, with_entry {| awaiting_rejoin := false; restart_detected := restart_detected entry;
                           timer_deadline := Some (now + CLOSE_GROUP_RESTART_SUPPRESSION) |})
    else
      (Trigger, with_entry {| awaiting_rejoin := true; restart_detected := restart_detected entry; timer_deadline := None |})
  else (Ignore, t).

(** The timer of an entry is over. *)
Definition timer_over (now : Z) (e : BehaviourEntry) : bool :=
  match timer_deadline e with Some deadline => deadline <=? now | None => false end.

Definition is_relevant (close : list (Z * bytes)) (peer_id : bytes) (e : BehaviourEntry) : bool :=
  awaiting_rejoin e || restart_detected e || bool_decide (is_Some (timer_deadline e)) ||
  existsb (λ x, bool_decide (x.2 = peer_id)) close.

Definition handle_timer_expiry (now : Z) (t : CloseGroupTracker) : bool * CloseGroupTracker :=
  let expired := existsb (λ x, timer_over now x.2) (map_to_list (ct_tracked_entries t)) in
  let entries := (λ e, if timer_over now e then behaviour_default else e) <$> ct_tracked_entries t in
  (expired, {| ct_self_address := ct_self_address t; ct_close_up_peers := ct_close_up_peers t;
               ct_tracked_entries := retain (is_relevant (ct_close_up_peers t)) entries |}).

(** ** Runs *)

Inductive TrackerOp :=
  | PeerComes (peer_id : bytes)
  | PeerGoes (now : Z) (peer_id : bytes)
  | Tick (now : Z).

Definition tracker_step (t : CloseGroupTracker) (op : TrackerOp) : CloseGroupTracker :=
  match op with
  | PeerComes peer_id => (record_peer_added peer_id t).2
  | PeerGoes now peer_id => (record_peer_removed now peer_id t).2
  | Tick now => (handle_timer_expiry now t).2
  end.

Definition tracker_run (l : list TrackerOp) (t : CloseGroupTracker) : CloseGroupTracker := foldl tracker_step t l.

(** ** The specification: what a single peer did *)

Inductive Phase :=
  | Unknown             (** never came, or forgotten *)
  | Here                (** came *)
  | Away                (** left, and may come back *)
  | Back                (** came back: it is restarting *)
  | Suppressed (until : Z). (** left again while it restarts *)

Definition phase_comes (ph : Phase) : ReplicationDirective * Phase :=
  match ph with
  | Unknown => (Trigger, Here)
  | Here => (Ignore, Here)
  | Away | Suppressed _ => (Skip, Back)
  | Back => (Ignore, Back)
  end.

Definition phase_goes (now : Z) (ph : Phase) : ReplicationDirective * Phase :=
  match ph with
  | Here => (Trigger, Away)
  | Back => (Skip, Suppressed (now + CLOSE_GROUP_RESTART_SUPPRESSION))
  | ph => (Ignore, ph)
  end.

Definition phase_ticks (now : Z) (ph : Phase) : Phase :=
  match ph with Suppressed until => if until <=? now then Unknown else ph | _ => ph end.

Definition phase_step (p : bytes) (ph : Phase) (op : TrackerOp) : Phase :=
  match op with
  | PeerComes q => if decide (q = p) then (phase_comes ph).2 else ph
  | PeerGoes now q => if decide (q = p) then (phase_goes now ph).2 else ph
  | Tick now => phase_ticks now ph
  end.

Definition phase_of (p : bytes) (l : list TrackerOp) : Phase := foldl (phase_step p) Unknown l.
End tracker.
