(* ===== verification/CloseGroupTrackerProps.v ===== *)
(** * Properties of the tracker of the close group

    Of src/ant-node/src/node.rs (CloseGroupTracker). While there is room, the tracker follows a state
    machine of each peer on its own; it holds at most twenty peers, the closest of those that came;
    and what it remembers of peers that left is never forgotten. *)

From stdpp Require Import base gmap countable list sorting.
From Stdlib Require Import ZArith Lia.
From S2P Require Import Prelude Protocol RecordCache CloseGroupTracker.

Section props.
Context `{XorNameLib, Bls, Kad}.
Context (peer_cmp : bytes → bytes → comparison) `{!CmpLaws peer_cmp}.

Abbreviation cmp := (prod_cmp Z.compare peer_cmp).
Abbreviation bt_sorted := (StronglySorted (λ x y : Z * bytes, cmp x y = Lt)).
Abbreviation step := (tracker_step peer_cmp).
Abbreviation run := (tracker_run peer_cmp).

(** ** The set of close peers *)

Lemma bt_insert_length x s : (length (bt_insert cmp x s) ≤ S (length s))%nat.
Proof. induction s as [|y s IH]; simpl; [lia|]. destruct (cmp x y); simpl; lia. Qed.

Lemma bt_insert_length_new x s : x ∉ s → length (bt_insert cmp x s) = S (length s).
Proof.
  induction s as [|y s IH]; simpl; [done|]. intros [Hne Hnin]%not_elem_of_cons.
  destruct (cmp x y) eqn:E; simpl; [by apply (cmp_eq cmp) in E|done|]. by rewrite IH.
Qed.

Lemma bt_insert_present x s : bt_sorted s → x ∈ s → bt_insert cmp x s = s.
Proof.
  induction 1 as [|y s Hs IH Hy]; [set_solver|]. intros [->|Hin]%elem_of_cons; simpl; [by rewrite (cmp_refl cmp)|].
  rewrite Forall_forall in Hy. rewrite (cmp_antisym cmp y x), (Hy x Hin). simpl. by rewrite IH.
Qed.

Lemma elem_of_bt_remove x y s : x ∈ bt_remove y s ↔ x ∈ s ∧ x ≠ y.
Proof. unfold bt_remove. rewrite list_elem_of_filter. tauto. Qed.

Lemma bt_remove_sorted y s : bt_sorted s → bt_sorted (bt_remove y s).
Proof.
  unfold bt_remove. induction 1 as [|x s Hs IH Hx]; [constructor|]. destruct (decide (x = y)) as [->|Hne].
  - by rewrite filter_cons_False by tauto.
  - rewrite filter_cons_True by done. constructor; [done|]. rewrite Forall_forall in *. intros z [_ Hz]%list_elem_of_filter. by apply Hx.
Qed.

Lemma bt_remove_absent y s : y ∉ s → bt_remove y s = s.
Proof.
  unfold bt_remove. induction s as [|x s IH]; [done|]. intros [Hne Hnin]%not_elem_of_cons.
  rewrite filter_cons_True by congruence. by rewrite IH.
Qed.

Lemma bt_remove_length y s : NoDup s → y ∈ s → S (length (bt_remove y s)) = length s.
Proof.
  unfold bt_remove. induction 1 as [|z s Hz Hnd IH]; [set_solver|]. intros [<-|Hin]%elem_of_cons.
  - rewrite filter_cons_False by tauto. fold (bt_remove y s). by rewrite bt_remove_absent.
  - rewrite filter_cons_True by (intros ->; done). simpl. by rewrite IH.
Qed.

Lemma bt_remove_length_le y s : (length (bt_remove y s) ≤ length s)%nat.
Proof. apply length_filter. Qed.

(** The last element is the greatest. *)
Lemma bt_last s x y : bt_sorted s → last s = Some y → x ∈ s → x = y ∨ cmp x y = Lt.
Proof.
  intros Hs (s' & ->)%last_Some Hin. apply elem_of_app in Hin as [Hin|Hin]; [right|left; set_solver].
  apply StronglySorted_app in Hs as (Hall & _ & _). apply Hall; set_solver.
Qed.

Lemma cmp_lt_le x y : cmp x y = Lt → x.1 ≤ y.1.
Proof.
  unfold prod_cmp. destruct (Z.compare x.1 y.1) eqn:E; simpl; [intros _|intros _|done].
  - apply Z.compare_eq_iff in E. lia.
  - change (x.1 < y.1) in E. lia.
Qed.

Lemma bt_last_le s x y : bt_sorted s → last s = Some y → x ∈ s → x.1 ≤ y.1.
Proof. intros Hs Hl Hin. destruct (bt_last s x y Hs Hl Hin) as [->|?]; [lia|by apply cmp_lt_le]. Qed.

(** ** The invariant *)

(** At most twenty peers, in the order of their distances, each with its own distance. *)
Definition tracker_ok (self : NetworkAddress) (t : CloseGroupTracker) : Prop :=
  ct_self_address t = self ∧ bt_sorted (ct_close_up_peers t) ∧ (length (ct_close_up_peers t) ≤ CLOSE_GROUP_TRACKING_LIMIT)%nat ∧
  ∀ x, x ∈ ct_close_up_peers t → x.1 = distance self (NA_PeerId x.2).

Lemma enter_close_up_sorted d p s : bt_sorted s → bt_sorted (enter_close_up peer_cmp d p s).
Proof.
  intros Hs. unfold enter_close_up. pose proof (bt_insert_sorted cmp (d, p) s Hs) as Hi.
  destruct (_ <? _)%nat; [|done]. destruct (last _); [by apply bt_remove_sorted|done].
Qed.

Lemma enter_close_up_sub d p s x : x ∈ enter_close_up peer_cmp d p s → x = (d, p) ∨ x ∈ s.
Proof.
  unfold enter_close_up. intros Hx. rewrite <- (elem_of_bt_insert cmp). revert Hx.
  destruct (_ <? _)%nat; [|done]. destruct (last _); [|done]. by intros [? _]%elem_of_bt_remove.
Qed.

Lemma enter_close_up_length d p s :
  bt_sorted s → (length s ≤ CLOSE_GROUP_TRACKING_LIMIT)%nat → (length (enter_close_up peer_cmp d p s) ≤ CLOSE_GROUP_TRACKING_LIMIT)%nat.
Proof.
  intros Hs Hlen. unfold enter_close_up. pose proof (bt_insert_length (d, p) s) as Hl.
  destruct (Nat.ltb_spec CLOSE_GROUP_TRACKING_LIMIT (length (bt_insert cmp (d, p) s))) as [Hlt|]; [|done].
  pose proof (bt_insert_sorted cmp (d, p) s Hs) as Hi.
  destruct (last _) as [y|] eqn:Hy.
  - assert (y ∈ bt_insert cmp (d, p) s) as Hin by (apply last_Some in Hy as [? ->]; set_solver).
    pose proof (bt_remove_length y _ (bt_sorted_NoDup cmp _ Hi) Hin). lia.
  - apply last_None in Hy. rewrite Hy in Hlt. simpl in Hlt. lia.
Qed.

Lemma tracker_step_ok self t op : tracker_ok self t → tracker_ok self (step t op).
Proof.
  intros (Hself & Hs & Hlen & Hd). destruct op as [p|now p|now]; simpl.
  - unfold record_peer_added. cbv zeta.
    destruct (is_distance_within_close_range _ _); [|split_and!; done].
    assert (tracker_ok self {| ct_self_address := ct_self_address t;
      ct_close_up_peers := enter_close_up peer_cmp (distance_to_peer t p) p (ct_close_up_peers t); ct_tracked_entries := ∅ |}) as Hok.
    { split_and!; simpl; [done|by apply enter_close_up_sorted|by apply enter_close_up_length|].
      intros x [->|Hx]%enter_close_up_sub; [|by apply Hd]. simpl. unfold distance_to_peer. by rewrite Hself. }
    destruct (ct_tracked_entries t !! p) as [e|]; [|exact Hok]. destruct (_ || _); [exact Hok|]. by destruct (bool_decide _).
  - unfold record_peer_removed. cbv zeta. destruct (bool_decide _); [|done].
    assert (tracker_ok self {| ct_self_address := ct_self_address t;
      ct_close_up_peers := bt_remove (distance_to_peer t p, p) (ct_close_up_peers t); ct_tracked_entries := ∅ |}) as Hok.
    { split_and!; simpl; [done|by apply bt_remove_sorted|etrans; [apply bt_remove_length_le|done]|].
      intros x [Hx _]%elem_of_bt_remove. by apply Hd. }
    by destruct (restart_detected _).
  - by split_and!.
Qed.

Lemma tracker_run_ok self l t : tracker_ok self t → tracker_ok self (run l t).
Proof. unfold tracker_run. revert t. induction l as [|op l IH]; intros t Ht; [done|]. simpl. by apply IH, tracker_step_ok. Qed.

Lemma tracker_new_ok p : tracker_ok (NA_PeerId p) (tracker_new p).
Proof. split_and!; simpl; [done|constructor|lia|set_solver]. Qed.

(** ** The closest peers *)

(** What is not among the close peers is no closer than any of twenty that are. *)
Definition beyond (self : NetworkAddress) (close : list (Z * bytes)) (p : bytes) : Prop :=
  (distance self (NA_PeerId p), p) ∉ close →
  length close = CLOSE_GROUP_TRACKING_LIMIT ∧ ∀ x, x ∈ close → x.1 ≤ distance self (NA_PeerId p).

Lemma added_close_up t p :
  ct_close_up_peers (record_peer_added peer_cmp p t).2 =
    if is_distance_within_close_range t (distance_to_peer t p) then enter_close_up peer_cmp (distance_to_peer t p) p (ct_close_up_peers t)
    else ct_close_up_peers t.
Proof.
  unfold record_peer_added. cbv zeta. destruct (is_distance_within_close_range _ _); [|done].
  destruct (ct_tracked_entries t !! p); [|done]. destruct (_ || _); [done|]. by destruct (bool_decide _).
Qed.

Lemma enter_close_up_room d p s :
  (length s < CLOSE_GROUP_TRACKING_LIMIT)%nat → enter_close_up peer_cmp d p s = bt_insert cmp (d, p) s.
Proof.
  intros Hlen. unfold enter_close_up. pose proof (bt_insert_length (d, p) s).
  by destruct (Nat.ltb_spec CLOSE_GROUP_TRACKING_LIMIT (length (bt_insert cmp (d, p) s))); [lia|].
Qed.

(** A full set takes a peer that is closer than the farthest, which leaves. *)
Lemma enter_close_up_full d p s :
  bt_sorted s → length s = CLOSE_GROUP_TRACKING_LIMIT → (d, p) ∉ s →
  ∃ y, last (bt_insert cmp (d, p) s) = Some y ∧ enter_close_up peer_cmp d p s = bt_remove y (bt_insert cmp (d, p) s) ∧
    length (enter_close_up peer_cmp d p s) = CLOSE_GROUP_TRACKING_LIMIT.
Proof.
  intros Hs Hlen Hnin. pose proof (bt_insert_length_new (d, p) s Hnin) as Hl. pose proof (bt_insert_sorted cmp (d, p) s Hs) as Hi.
  destruct (last (bt_insert cmp (d, p) s)) as [y|] eqn:Hy; [|apply last_None in Hy; by rewrite Hy in Hl].
  assert (y ∈ bt_insert cmp (d, p) s) as Hin by (apply last_Some in Hy as [? ->]; set_solver).
  exists y. assert (enter_close_up peer_cmp d p s = bt_remove y (bt_insert cmp (d, p) s)) as E.
  { unfold enter_close_up. rewrite Hl, Hlen, Hy. by destruct (Nat.ltb_spec CLOSE_GROUP_TRACKING_LIMIT (S CLOSE_GROUP_TRACKING_LIMIT)); [|lia]. }
  split_and!; [done..|]. rewrite E. pose proof (bt_remove_length y _ (bt_sorted_NoDup cmp _ Hi) Hin). lia.
Qed.

Lemma added_beyond self t p q :
  tracker_ok self t → beyond self (ct_close_up_peers t) q ∨ q = p →
  beyond self (ct_close_up_peers (record_peer_added peer_cmp p t).2) q.
Proof.
  intros (Hself & Hs & Hlen & Hd) Hq. rewrite added_close_up. unfold is_distance_within_close_range, distance_to_peer. rewrite Hself.
  set (d := distance self (NA_PeerId p)).
  destruct (Nat.ltb_spec (length (ct_close_up_peers t)) CLOSE_GROUP_TRACKING_LIMIT) as [Hroom|Hfull].
  { rewrite enter_close_up_room by done. intros Hnin. rewrite (elem_of_bt_insert cmp) in Hnin.
    destruct Hq as [Hq| ->]; [|tauto]. destruct (Hq ltac:(tauto)). lia. }
  assert (length (ct_close_up_peers t) = CLOSE_GROUP_TRACKING_LIMIT) as Hfull' by lia.
  destruct (last (ct_close_up_peers t)) as [[fd fp]|] eqn:Hlast; [|apply last_None in Hlast; by rewrite Hlast in Hfull'].
  pose proof (λ x, bt_last_le _ x _ Hs Hlast) as Hmax. simpl in Hmax.
  destruct (Z.ltb_spec d fd) as [Hlt|Hge].
  2: { intros Hnin. split; [done|]. destruct Hq as [Hq| ->]; [by apply Hq|]. intros x Hx. fold d. etrans; [by apply Hmax|done]. }
  destruct (decide ((d, p) ∈ ct_close_up_peers t)) as [Hin|Hnin].
  { assert (enter_close_up peer_cmp d p (ct_close_up_peers t) = ct_close_up_peers t) as ->.
    { unfold enter_close_up. rewrite bt_insert_present by done. rewrite Hfull'.
      by destruct (Nat.ltb_spec CLOSE_GROUP_TRACKING_LIMIT CLOSE_GROUP_TRACKING_LIMIT); [lia|]. }
    destruct Hq as [Hq| ->]; [done|]. by intros Hnin. }
  destruct (enter_close_up_full d p _ Hs Hfull' Hnin) as (y & Hy & -> & Hlen'). intros Hout. split; [done|].
  pose proof (bt_insert_sorted cmp (d, p) _ Hs) as Hi. intros x [Hx Hxy]%elem_of_bt_remove.
  rewrite elem_of_bt_remove in Hout. destruct (decide ((distance self (NA_PeerId q), q) = y)) as [<-|Hne].
  { exact (bt_last_le _ x _ Hi Hy Hx). }
  assert ((distance self (NA_PeerId q), q) ∉ bt_insert cmp (d, p) (ct_close_up_peers t)) as Hnot by tauto.
  rewrite (elem_of_bt_insert cmp) in Hnot. destruct Hq as [Hq| ->]; [|tauto]. destruct (Hq ltac:(tauto)) as [_ Hall].
  apply (elem_of_bt_insert cmp) in Hx as [->|Hx]; [|by apply Hall]. simpl.
  etrans; [apply Z.lt_le_incl, Hlt|]. apply (Hall (fd, fp)). apply last_Some in Hlast as [? ->]. set_solver.
Qed.

(** The tracker holds the closest peers. After any peers came, in any order and however often, it
    holds at most twenty, all of them peers that came, ordered by their distance; and a peer that
    came and is not held is no closer than any of twenty that are. *)
Theorem tracker_keeps_closest self ps :
  let close := ct_close_up_peers (run (PeerComes <$> ps) (tracker_new self)) in
  (length close ≤ CLOSE_GROUP_TRACKING_LIMIT)%nat ∧ bt_sorted close ∧
  (∀ x, x ∈ close → x.2 ∈ ps ∧ x.1 = distance (NA_PeerId self) (NA_PeerId x.2)) ∧
  ∀ p, p ∈ ps → beyond (NA_PeerId self) close p.
Proof.
  cbv zeta. destruct (tracker_run_ok _ (PeerComes <$> ps) _ (tracker_new_ok self)) as (_ & Hs & Hlen & Hd).
  split_and!; [done..| |].
  - intros x Hx. split; [|by apply Hd]. clear Hs Hlen Hd. revert x Hx. induction ps as [|p ps IH] using rev_ind; [set_solver|].
    unfold tracker_run. rewrite fmap_app, foldl_app. simpl. fold (run (PeerComes <$> ps) (tracker_new self)). intros x.
    rewrite added_close_up. destruct (is_distance_within_close_range _ _).
    + intros [->|Hx]%enter_close_up_sub; [set_solver|]. apply IH in Hx. set_solver.
    + intros Hx%IH. set_solver.
  - clear Hs Hlen Hd. induction ps as [|p ps IH] using rev_ind; [set_solver|]. intros q Hq.
    unfold tracker_run. rewrite fmap_app, foldl_app. simpl. fold (run (PeerComes <$> ps) (tracker_new self)).
    apply added_beyond; [apply tracker_run_ok, tracker_new_ok|]. apply elem_of_app in Hq as [Hq|Hq]; [left; by apply IH|right; set_solver].
Qed.

(** ** Each peer on its own *)

(** What the tracker holds of a peer in a phase. *)
Definition is_here (ph : Phase) : bool := match ph with Here | Back => true | _ => false end.

Definition entry_of (ph : Phase) : option BehaviourEntry :=
  match ph with
  | Unknown => None
  | Here => Some behaviour_default
  | Away => Some {| awaiting_rejoin := true; restart_detected := false; timer_deadline := None |}
  | Back => Some {| awaiting_rejoin := false; restart_detected := true; timer_deadline := None |}
  | Suppressed until => Some {| awaiting_rejoin := false; restart_detected := true; timer_deadline := Some until |}
  end.

Definition follows (self : NetworkAddress) (t : CloseGroupTracker) (phase : bytes → Phase) : Prop :=
  tracker_ok self t ∧ ∀ p, ((distance self (NA_PeerId p), p) ∈ ct_close_up_peers t ↔ is_here (phase p) = true) ∧
                           ct_tracked_entries t !! p = entry_of (phase p).

(** There is room for one more peer. *)
Definition has_room (t : CloseGroupTracker) : bool := (length (ct_close_up_peers t) <? CLOSE_GROUP_TRACKING_LIMIT)%nat.

(** There is room all along a run. *)
Fixpoint roomy (t : CloseGroupTracker) (l : list TrackerOp) : bool :=
  has_room t && match l with [] => true | op :: l => roomy (step t op) l end.

Lemma added_follows self t phase p :
  follows self t phase → has_room t = true →
  (record_peer_added peer_cmp p t).1 = (phase_comes (phase p)).1 ∧
  (∀ q, (distance self (NA_PeerId q), q) ∈ ct_close_up_peers (record_peer_added peer_cmp p t).2 ↔
        is_here (phase_step q (phase q) (PeerComes p)) = true) ∧
  ∀ q, ct_tracked_entries (record_peer_added peer_cmp p t).2 !! q = entry_of (phase_step q (phase q) (PeerComes p)).
Proof.
  intros [(Hself & Hs & Hlen & Hd) Hph] Hroom.
  assert (is_distance_within_close_range t (distance_to_peer t p) = true) as Hclose.
  { unfold is_distance_within_close_range. unfold has_room in Hroom. by rewrite Hroom. }
  apply Nat.ltb_lt in Hroom. destruct (Hph p) as [Hhere Hentry]. split_and!.
  - unfold record_peer_added. cbv zeta. rewrite Hclose, Hentry. unfold distance_to_peer. rewrite Hself.
    rewrite (bool_decide_ext _ _ Hhere). by destruct (phase p).
  - intros q. rewrite added_close_up, Hclose, enter_close_up_room, (elem_of_bt_insert cmp) by done. destruct (Hph q) as [Hq _]. rewrite Hq.
    unfold distance_to_peer. rewrite Hself. unfold phase_step. destruct (decide (p = q)) as [->|Hne].
    + split; [|by left]. by destruct (phase q).
    + split; [intros [[=]|]; congruence|by right].
  - intros q. unfold record_peer_added. cbv zeta. rewrite Hclose, Hentry. unfold distance_to_peer. rewrite Hself.
    rewrite (bool_decide_ext _ _ Hhere). unfold phase_step. destruct (Hph q) as [_ Hq]. destruct (decide (p = q)) as [->|Hne].
    + destruct (phase q); simpl; by rewrite lookup_insert_eq.
    + destruct (phase p); simpl; by rewrite lookup_insert_ne.
Qed.

Lemma removed_follows self t phase now p :
  follows self t phase →
  (record_peer_removed now p t).1 = (phase_goes now (phase p)).1 ∧
  (∀ q, (distance self (NA_PeerId q), q) ∈ ct_close_up_peers (record_peer_removed now p t).2 ↔
        is_here (phase_step q (phase q) (PeerGoes now p)) = true) ∧
  ∀ q, ct_tracked_entries (record_peer_removed now p t).2 !! q = entry_of (phase_step q (phase q) (PeerGoes now p)).
Proof.
  intros [(Hself & Hs & Hlen & Hd) Hph]. destruct (Hph p) as [Hhere Hentry]. unfold record_peer_removed. cbv zeta.
  unfold distance_to_peer. rewrite Hself, Hentry, (bool_decide_ext _ _ Hhere).
  split_and!; [by destruct (phase p)|..]; intros q; destruct (Hph q) as [Hq Hqe]; unfold phase_step; destruct (decide (p = q)) as [<-|Hne].
  - destruct (phase p); simpl; rewrite ?elem_of_bt_remove; naive_solver.
  - rewrite <- Hq. destruct (phase p); simpl; rewrite ?elem_of_bt_remove; naive_solver.
  - destruct (phase p); simpl; rewrite ?lookup_insert_eq; done.
  - rewrite <- Hqe. destruct (phase p); simpl; rewrite ?lookup_insert_ne by done; done.
Qed.

Lemma lookup_retain {V} (f : bytes → V → bool) m k :
  retain f m !! k = match m !! k with Some v => if f k v then Some v else None | None => None end.
Proof.
  destruct (m !! k) as [v|] eqn:E; [|by apply retain_lookup_None]. destruct (f k v) eqn:Hf; [by apply retain_lookup_Some|].
  apply eq_None_not_Some. intros [w [Hw Hw']%retain_lookup_Some]. congruence.
Qed.

Lemma ticked_follows self t phase now :
  follows self t phase → ∀ q, ct_tracked_entries (handle_timer_expiry now t).2 !! q = entry_of (phase_ticks now (phase q)).
Proof.
  intros [(Hself & Hs & Hlen & Hd) Hph] q. simpl. rewrite lookup_retain, lookup_fmap. destruct (Hph q) as [Hq ->].
  assert (is_here (phase q) = true → existsb (λ x : Z * bytes, bool_decide (x.2 = q)) (ct_close_up_peers t) = true) as Hpresent.
  { intros Hh. apply existsb_exists. exists (distance self (NA_PeerId q), q). rewrite <- list_elem_of_In. split; [by apply Hq|by apply bool_decide_eq_true]. }
  destruct (phase q) as [| | | |u] eqn:E; simpl; try done.
  - unfold is_relevant. simpl. by rewrite Hpresent.
  - unfold timer_over. simpl. destruct (u <=? now); simpl; [|done]. unfold is_relevant. simpl.
    destruct (existsb _ _) eqn:Hex; [|done]. apply existsb_exists in Hex as ([d q'] & Hin & Hb). apply bool_decide_eq_true in Hb. simpl in Hb. subst q'.
    apply list_elem_of_In in Hin. pose proof (Hd _ Hin) as Hdist. simpl in Hdist. subst d. by apply Hq in Hin.
Qed.

Lemma step_follows self t phase op :
  follows self t phase → has_room t = true → follows self (step t op) (λ p, phase_step p (phase p) op).
Proof.
  intros Hf Hroom. split; [apply tracker_step_ok, Hf|]. intros q. destruct op as [p|now p|now].
  - destruct (added_follows self t phase p Hf Hroom) as (_ & Hhere & Hentry). split; [apply Hhere|apply Hentry].
  - destruct (removed_follows self t phase now p Hf) as (_ & Hhere & Hentry). split; [apply Hhere|apply Hentry].
  - split; [|by apply (ticked_follows self)]. simpl. destruct Hf as [_ Hph]. destruct (Hph q) as [-> _].
    destruct (phase q) as [| | | |u]; simpl; try done. by destruct (u <=? now).
Qed.

Lemma run_follows self l t phase :
  follows self t phase → roomy t l = true →
  follows self (run l t) (λ p, foldl (phase_step p) (phase p) l) ∧ has_room (run l t) = true.
Proof.
  revert t phase. induction l as [|op l IH]; intros t phase Hf; simpl; intros [Hroom Hr]%andb_true_iff; [done|].
  apply (IH (step t op) (λ p, phase_step p (phase p) op)); [by apply step_follows|done].
Qed.

Lemma new_follows self : follows (NA_PeerId self) (tracker_new self) (λ _, Unknown).
Proof. split; [apply tracker_new_ok|]. intros p. simpl. split; [set_solver|done]. Qed.

(** C33: the tracker implements, for each peer on its own, the state machine of a peer that comes,
    leaves and restarts. As long as fewer than twenty peers are held, the directive for a peer that
    comes or goes depends on what that peer did before and the ticks of the timer only, and it is the
    one of the state machine. *)
Theorem tracker_refines_phases self l p now :
  roomy (tracker_new self) l = true →
  (record_peer_added peer_cmp p (run l (tracker_new self))).1 = (phase_comes (phase_of p l)).1 ∧
  (record_peer_removed now p (run l (tracker_new self))).1 = (phase_goes now (phase_of p l)).1.
Proof.
  intros Hr. destruct (run_follows _ l _ _ (new_follows self) Hr) as [Hf Hroom].
  split; [by apply (added_follows _ _ _ p Hf Hroom)|by apply (removed_follows _ _ _ now p Hf)].
Qed.

(** ** Peers that left *)

(** Peers that came and left, one after the other, each at its time. *)
Definition visits (vs : list (Z * bytes)) : list TrackerOp := vs ≫= λ '(now, p), [PeerComes p; PeerGoes now p].

Definition visited (vs : list (Z * bytes)) (p : bytes) : Phase := if decide (p ∈ vs.*2) then Away else Unknown.

Lemma follows_ext self t φ ψ : (∀ p, φ p = ψ p) → follows self t φ → follows self t ψ.
Proof. intros E [Hok Hph]. split; [done|]. intros p. rewrite <- E. apply Hph. Qed.

Lemma nobody_here self t phase : follows self t phase → (∀ p, is_here (phase p) = false) → ct_close_up_peers t = [].
Proof.
  intros [(_ & _ & _ & Hd) Hph] Hno. destruct (ct_close_up_peers t) as [|[d p] close]; [done|].
  pose proof (Hd (d, p) ltac:(left)) as Hdp. simpl in Hdp. destruct (Hph p) as [Hp _]. rewrite <- Hdp, Hno in Hp.
  destruct Hp as [Hp _]. by specialize (Hp ltac:(left)).
Qed.

Lemma visited_away vs p : is_here (visited vs p) = false.
Proof. unfold visited. by destruct (decide _). Qed.

Lemma visits_follow self vs :
  NoDup vs.*2 → follows (NA_PeerId self) (run (visits vs) (tracker_new self)) (visited vs).
Proof.
  induction vs as [|[now p] vs IH] using rev_ind.
  { intros _. apply (follows_ext _ _ (λ _, Unknown)); [|apply new_follows]. intros p. unfold visited. case_decide; set_solver. }
  rewrite fmap_app. intros (Hnd & Hnin & _)%NoDup_app. simpl in Hnin. specialize (IH Hnd).
  unfold visits, tracker_run. rewrite bind_app, foldl_app. simpl. fold (visits vs). fold (run (visits vs) (tracker_new self)).
  pose proof (nobody_here _ _ _ IH (visited_away vs)) as Hempty.
  assert (has_room (run (visits vs) (tracker_new self)) = true) as Hroom by (unfold has_room; by rewrite Hempty).
  pose proof (step_follows _ _ _ (PeerComes p) IH Hroom) as Hcame.
  assert (has_room (step (run (visits vs) (tracker_new self)) (PeerComes p)) = true) as Hroom1.
  { unfold has_room, tracker_step. rewrite added_close_up, Hempty. by destruct (is_distance_within_close_range _ _). }
  refine (follows_ext _ _ _ _ _ (step_follows _ _ _ (PeerGoes now p) Hcame Hroom1)). intros q. unfold phase_step, visited.
  rewrite fmap_app. simpl. destruct (decide (p = q)) as [<-|Hne].
  - destruct (decide (p ∈ vs.*2)) as [Hin|_]; [by apply Hnin in Hin; set_solver|]. simpl. destruct (decide _); [done|set_solver].
  - destruct (decide (q ∈ vs.*2)), (decide (q ∈ vs.*2 ++ [p])); set_solver.
Qed.

Lemma ticks_follow self t phase ticks :
  follows self t phase → (∀ p, is_here (phase p) = false) → (∀ p now, phase_ticks now (phase p) = phase p) →
  follows self (run (Tick <$> ticks) t) phase.
Proof.
  intros Hf Hno Hticks. unfold tracker_run. revert t Hf. induction ticks as [|now ticks IH]; intros t Hf; [done|]. simpl. apply IH.
  apply (follows_ext _ _ (λ p, phase_ticks now (phase p))); [done|]. apply (step_follows _ _ _ (Tick now) Hf).
  unfold has_room. by rewrite (nobody_here _ _ _ Hf Hno).
Qed.

(** Peers that left are not forgotten. However many peers came and left once, and however much
    time passed since, an entry of each is kept, beyond the twenty of the limit; and when one
    comes back it counts as restarting, whatever the time it was away, so that nothing is replicated. *)
Theorem tracker_never_forgets self vs ticks p :
  NoDup vs.*2 → p ∈ vs.*2 →
  let t := run (Tick <$> ticks) (run (visits vs) (tracker_new self)) in
  ct_close_up_peers t = [] ∧ size (ct_tracked_entries t) = length vs ∧ (record_peer_added peer_cmp p t).1 = Skip.
Proof.
  intros Hnd Hp. cbv zeta. pose proof (visits_follow self vs Hnd) as Hf0.
  pose proof (ticks_follow _ _ _ ticks Hf0 (visited_away vs)) as Hf. specialize (Hf ltac:(intros q now; unfold visited; by destruct (decide _))).
  pose proof (nobody_here _ _ _ Hf (visited_away vs)) as Hempty. split_and!; [done| |].
  - destruct Hf as [_ Hph]. rewrite <- size_dom, <- (length_fmap snd vs), <- (size_list_to_set (C := gset bytes) vs.*2 Hnd). f_equal.
    apply set_eq. intros q. rewrite elem_of_dom, elem_of_list_to_set. destruct (Hph q) as [_ ->]. unfold visited.
    destruct (decide (q ∈ vs.*2)); simpl; naive_solver.
  - assert (has_room (run (Tick <$> ticks) (run (visits vs) (tracker_new self))) = true) as Hroom by (unfold has_room; by rewrite Hempty).
    destruct (added_follows _ _ _ p Hf Hroom) as (-> & _). unfold visited. by destruct (decide _).
Qed.
End props.

(** ** A concrete tracker *)

Section concrete.
#[local] Existing Instances toy_kad toy_xorname toy_bls.

Abbreviation toy_cmp := (list_cmp Z.compare).

(** A peer restarts: it leaves, comes back and leaves again; meanwhile another peer came. *)
Definition ex_ops : list TrackerOp :=
  [PeerComes [5]; PeerComes [9]; PeerGoes (from_secs 10) [5]; PeerComes [5]; Tick (from_secs 40)].

(** Thirty peers, one of them twice. *)
Definition ex_peers : list bytes := (λ k, [k]) <$> (seqZ 2 30 ++ [7]).

Lemma tracker_keeps_closest_witness :
  let close := ct_close_up_peers (tracker_run toy_cmp (PeerComes <$> ex_peers) (tracker_new [1])) in
  (length close ≤ CLOSE_GROUP_TRACKING_LIMIT)%nat ∧ StronglySorted (λ x y : Z * bytes, prod_cmp Z.compare toy_cmp x y = Lt) close ∧
  (∀ x, x ∈ close → x.2 ∈ ex_peers ∧ x.1 = distance (NA_PeerId [1]) (NA_PeerId x.2)) ∧
  ∀ p, p ∈ ex_peers → beyond (NA_PeerId [1]) close p.
Proof. apply (tracker_keeps_closest toy_cmp [1] ex_peers). Defined.

Lemma tracker_refines_phases_witness :
  (record_peer_added toy_cmp [5] (tracker_run toy_cmp ex_ops (tracker_new [1]))).1 = Ignore ∧
  (record_peer_removed (from_secs 900) [5] (tracker_run toy_cmp ex_ops (tracker_new [1]))).1 = Skip.
Proof. apply (tracker_refines_phases toy_cmp [1] ex_ops [5] (from_secs 900)). vm_compute. reflexivity. Defined.

Lemma tracker_never_forgets_witness :
  let t := tracker_run toy_cmp (Tick <$> [from_secs 100000]) (tracker_run toy_cmp (visits [(from_secs 1, [5]); (from_secs 2, [6])]) (tracker_new [1])) in
  ct_close_up_peers t = [] ∧ size (ct_tracked_entries t) = 2%nat ∧ (record_peer_added toy_cmp [6] t).1 = Skip.
Proof.
  apply (tracker_never_forgets toy_cmp [1] [(from_secs 1, [5]); (from_secs 2, [6])] [from_secs 100000] [6]); [|set_solver].
  repeat constructor; set_solver.
Defined.
End concrete.
