(* ===== verification/Messages.v ===== *)
(** * Protocol messages

    Models src/ant-protocol/src/messages (queries, their responses, chunk proofs) and the errors of
    src/ant-protocol/src/error.rs that responses carry. A [Multiaddr] is its byte form; strings are
    their bytes. *)

From stdpp Require Import base gmap countable list.
From Stdlib Require Import ZArith Lia.
From S2P Require Import Prelude Protocol RecordCache RecordStore MerkleTree Payments.

(** ** ChunkProof: chunk_proof.rs *)

(** The hash of a record's value followed by the challenger's nonce. *)
Definition ChunkProof : Type := bytes.

Definition chunk_proof_new `{Digests} (record_value : bytes) (nonce : Z) : ChunkProof :=
  sha3_256 (record_value ++ to_be_bytes 8 nonce).

Definition chunk_proof_verify (p other_proof : ChunkProof) : bool := bool_decide (p = other_proof).

(** libp2p's [Quorum] and [PeerInfo]. *)
Inductive Quorum := QuorumOne | QuorumMajority | QuorumAll | QuorumN (n : nat).

Record PeerInfo := { pi_peer_id : bytes; pi_addrs : list bytes }.

#[global] Instance PeerInfo_eq_dec : EqDecision PeerInfo.
Proof. solve_decision. Defined.

Section messages.
Context `{Bls}.

(** [ant_protocol::error::Error]. *)
Inductive MessageError :=
  | ME_ChunkDoesNotExist (address : NetworkAddress)
  | ME_ScratchpadCipherTextFailed
  | ME_ScratchpadCipherTextInvalid
  | ME_GetStoreQuoteFailed
  | ME_QuoteGenerationFailed
  | ME_ReplicatedRecordNotFound (holder key : NetworkAddress)
  | ME_RecordHeaderParsingFailed
  | ME_RecordParsingFailed
  | ME_RecordExists (key : bytes)
  | ME_PutRecordFailed (reason : bytes)
  | ME_OutdatedRecordCounter (counter expected : Z)
  | ME_GetMerkleCandidateQuoteFailed (reason : bytes)
  | ME_FailedToSignMerkleCandidate (reason : bytes)
  | ME_MerklePaymentVerificationFailed (reason : bytes)
  | ME_TopologyVerificationFailed (target_address : NetworkAddress) (valid_count total_paid closest_count : Z)
      (node_peers paid_peers : list bytes)
  | ME_Unknown.

(** [Query]; the developer query is not compiled in. *)
Inductive Query :=
  | Q_GetStoreQuote (key : NetworkAddress) (data_type data_size : Z) (nonce : option Z) (difficulty : nat)
  | Q_GetReplicatedRecord (requester key : NetworkAddress)
  | Q_GetChunkExistenceProof (key : NetworkAddress) (nonce : Z) (difficulty : nat)
  | Q_CheckNodeInProblem (target_address : NetworkAddress)
  | Q_GetClosestPeers (key : NetworkAddress) (num_of_peers : option nat) (range : option bytes) (sign_result : bool)
  | Q_GetVersion (address : NetworkAddress)
  | Q_PutRecord (holder : NetworkAddress) (serialized_record : bytes) (address : NetworkAddress)
  | Q_GetMerkleCandidateQuote (key : NetworkAddress) (data_type data_size merkle_payment_timestamp : Z).

(** [Query::dst]. *)
Definition query_dst (q : Query) : NetworkAddress :=
  match q with
  | Q_CheckNodeInProblem address | Q_GetVersion address => address
  | Q_GetStoreQuote key _ _ _ _ | Q_GetReplicatedRecord _ key | Q_GetChunkExistenceProof key _ _
  | Q_GetClosestPeers key _ _ _ | Q_GetMerkleCandidateQuote key _ _ _ => key
  | Q_PutRecord holder _ _ => holder
  end.

Definition StorageProofs : Type := list (NetworkAddress * result ChunkProof MessageError).

(** [QueryResponse]. *)
Inductive QueryResponse :=
  | R_GetStoreQuote (quote : result PaymentQuote MessageError) (peer_address : NetworkAddress)
      (storage_proofs : StorageProofs)
  | R_CheckNodeInProblem (reporter_address target_address : NetworkAddress) (is_in_trouble : bool)
  | R_GetReplicatedRecord (r : result (NetworkAddress * bytes) MessageError)
  | R_GetChunkExistenceProof (proofs : StorageProofs)
  | R_GetClosestPeers (target : NetworkAddress) (peers : list (NetworkAddress * list bytes)) (signature : option bytes)
  | R_GetVersion (peer : NetworkAddress) (version : bytes)
  | R_PutRecord (r : result unit MessageError) (peer_address record_addr : NetworkAddress)
  | R_GetMerkleCandidateQuote (r : result MerklePaymentCandidateNode MessageError).

(** [CmdResponse] and [Response]. *)
Inductive CmdResponse :=
  | C_Replicate (r : result unit MessageError)
  | C_FreshReplicate (r : result unit MessageError)
  | C_PeerConsideredAsBad (r : result unit MessageError).

Inductive Response :=
  | Resp_Cmd (r : CmdResponse)
  | Resp_Query (r : QueryResponse).
End messages.
