(* ===== verification/NodeQueries.v ===== *)
(** * Queries to a node

    Models the answers of a node to the queries of clients and peers: Node::handle_query of
    src/ant-node/src/node.rs with respond_get_closest_peers, calculate_get_closest_peers,
    respond_merkle_candidate_quote and respond_x_closest_record_proof, and src/ant-node/src/quote.rs.
    What the node's driver answers is part of [QueryEnv], which extends the environment of put
    validation; a failed request is [None]. The texts of errors are the parameter [NodeText]. *)

From stdpp Require Import base gmap countable list.
From Stdlib Require Import ZArith Lia.
From S2P Require Import Prelude Text Protocol Storage RecordCache RecordStore MerkleTree Payments PutValidation Messages.

(** Why a node gives no quote for a batch payment. *)
Inductive CandidateFailure :=
  | FutureTimestamp (timestamp now threshold : Z)
  | ExpiredTimestamp (timestamp age max : Z)
  | NoQuotingMetrics
  | NotSigned.

(** [format!] of errors. *)
Class NodeText `{Bls} := {
  put_error_text : PutValidationError → bytes;
  local_record_error_text : bytes;
  candidate_failure_text : CandidateFailure → NetworkAddress → bytes;
}.

(** The node's keys and the answers of its driver; the time is in nanoseconds since the epoch. *)
Record QueryEnv `{Bls, Libp2pIdentity} := {
  qe_node : NodeEnv;
  qe_public_key : IdentityKey;
  qe_pub_key : bytes;
  qe_sign : bytes → option bytes;
  qe_reward_address : bytes;
  qe_version : bytes;
  qe_now : Z;
  qe_quoting_metrics : bytes → Z → Z → option (QuotingMetrics * bool);
  qe_local_addresses : option (gmap NetworkAddress ValidationType);
  qe_local_peers : option (list (bytes * list bytes));
  qe_is_peer_shunned : NetworkAddress → option bool;
}.

Section queries.
Context `{XorNameLib, Hex, Bls, Layout, Kad, RmpHeader, Libp2pIdentity, AntMerkle, HashOrder}.
Context `{!BodySerde, !NodeText, !Serde NetworkAddress, !Serde (list (NetworkAddress * list bytes))}.
Context (env : QueryEnv).

Abbreviation self_address := (NA_PeerId (env_peer_id (qe_node env))).

(** ** quote.rs *)

(** The content a quote for an address is about; [XorName::default] for peers and record keys. *)
Definition quote_content (address : NetworkAddress) : bytes :=
  match address with
  | NA_ChunkAddress a => chunk_address_xorname a
  | NA_GraphEntryAddress a => graph_address_xorname a
  | NA_ScratchpadAddress a => scratchpad_address_xorname a
  | NA_PointerAddress a => pointer_address_xorname a
  | NA_PeerId _ | NA_RecordKey _ => repeat 0 32
  end.

Definition create_quote_for_storecost (address : NetworkAddress) (quoting_metrics : QuotingMetrics) (payment_address : bytes)
    : result PaymentQuote MessageError :=
  let content := quote_content address in
  let timestamp := qe_now env in
  match qe_sign env (bytes_for_signing content timestamp quoting_metrics payment_address) with
  | None => Err ME_QuoteGenerationFailed
  | Some signature =>
    Ok {| pq_content := content; pq_timestamp := timestamp; pq_quoting_metrics := quoting_metrics;
          pq_rewards_address := payment_address; pq_pub_key := qe_pub_key env; pq_signature := signature |}
  end.

Inductive QuoteError := InvalidQuoteContent | InvalidQuoteSignature.

(** [network.verify] uses the node's own key. *)
Definition verify_quote_for_storecost (quote : PaymentQuote) (address : NetworkAddress) : result unit QuoteError :=
  if bool_decide (quote_content address ≠ pq_content quote) then Err InvalidQuoteContent
  else if negb (identity_verify (qe_public_key env) (bytes_for_sig quote) (pq_signature quote)) then Err InvalidQuoteSignature
  else Ok tt.

(** A quote that the node has the duty to check against earlier ones of that peer. *)
Definition quote_for_nodes_duty (self_quote : PaymentQuote) (pq : bytes * PaymentQuote) : bool :=
  let '(peer_id, quote) := pq in
  let time_gap := from_secs 10 in
  let is_around_same_time :=
    if pq_timestamp self_quote <? pq_timestamp quote then pq_timestamp quote <? pq_timestamp self_quote + time_gap
    else pq_timestamp self_quote <? pq_timestamp quote + time_gap in
  bool_decide (pq_content quote = pq_content self_quote) && bool_decide (peer_id ≠ env_peer_id (qe_node env)) &&
  is_around_same_time && check_is_signed_by_claimed_peer quote peer_id.

(** What [quotes_verification] passes down to the driver. *)
Definition quotes_verification (quotes : list (bytes * PaymentQuote)) : option (list (bytes * PaymentQuote)) :=
  match list_find (λ pq, pq.1 = env_peer_id (qe_node env)) quotes with
  | Some (_, (_, self_quote)) =>
    let target_address := NA_ChunkAddress (mkChunkAddress (pq_content self_quote)) in
    if is_ok (verify_quote_for_storecost self_quote target_address)
    then Some (filter (λ pq, quote_for_nodes_duty self_quote pq = true) quotes)
    else None
  | None => None
  end.

(** ** Closest peers *)

Definition calculate_get_closest_peers (peer_addrs : list (bytes * list bytes)) (target : NetworkAddress)
    (num_of_peers : option nat) (range : option bytes) : list (NetworkAddress * list bytes) :=
  match num_of_peers, range with
  | _, Some value =>
    let d := from_be_bytes value in
    omap (λ '(peer_id, multi_addrs),
            let addr := NA_PeerId peer_id in if distance target addr <=? d then Some (addr, multi_addrs) else None) peer_addrs
  | Some num_of_peers, None =>
    let result := (λ '(peer_id, multi_addrs), (NA_PeerId peer_id, multi_addrs)) <$> peer_addrs in
    take num_of_peers (sort_by_key (λ x, distance target x.1) result)
  | None, None => []
  end.

Definition respond_get_closest_peers (target : NetworkAddress) (num_of_peers : option nat) (range : option bytes)
    (sign_result : bool) : QueryResponse :=
  let peers := match qe_local_peers env with
               | Some local_peers => calculate_get_closest_peers local_peers target num_of_peers range
               | None => []
               end in
  let signature := if sign_result then qe_sign env (default [] (rmp_to_vec target) ++ default [] (rmp_to_vec peers)) else None in
  R_GetClosestPeers target peers signature.

(** ** Quotes for batch payments *)

Definition TIMESTAMP_TOLERANCE : Z := 24 * 60 * 60.

(** The [u64] sums of seconds do not overflow: the clock is far below the bound. *)
Definition respond_merkle_candidate_quote (key : NetworkAddress) (data_type data_size merkle_payment_timestamp : Z)
    (payment_address : bytes) : QueryResponse :=
  let now := Z.max 0 (as_secs (qe_now env)) in
  let failed f := R_GetMerkleCandidateQuote (Err (ME_GetMerkleCandidateQuoteFailed (candidate_failure_text f key))) in
  let future_threshold := now + TIMESTAMP_TOLERANCE in
  if future_threshold <? merkle_payment_timestamp then failed (FutureTimestamp merkle_payment_timestamp now future_threshold)
  else
    let expiration_threshold := MERKLE_PAYMENT_EXPIRATION + TIMESTAMP_TOLERANCE in
    let age := Z.max 0 (now - merkle_payment_timestamp) in
    if expiration_threshold <? age then failed (ExpiredTimestamp merkle_payment_timestamp age expiration_threshold)
    else
      match qe_quoting_metrics env (to_record_key key) data_type data_size with
      | None => failed NoQuotingMetrics
      | Some (quoting_metrics, _) =>
        match qe_sign env (candidate_bytes_to_sign quoting_metrics payment_address merkle_payment_timestamp) with
        | None => R_GetMerkleCandidateQuote (Err (ME_FailedToSignMerkleCandidate (candidate_failure_text NotSigned key)))
        | Some signature =>
          R_GetMerkleCandidateQuote
            (Ok {| mc_pub_key := qe_pub_key env; mc_quoting_metrics := quoting_metrics; mc_reward_address := payment_address;
                   mc_merkle_payment_timestamp := merkle_payment_timestamp; mc_signature := signature |})
        end
      end.

(** ** Proofs of stored records *)

(** The addresses a proof may be about: of chunks only, or of all records. *)
Definition proof_candidates (all_local_records : gmap NetworkAddress ValidationType) (chunk_only : bool) : list NetworkAddress :=
  if chunk_only then omap (λ x : NetworkAddress * ValidationType, if decide (x.2 = VT_Chunk) then Some x.1 else None) (hm_iter all_local_records)
  else (hm_iter all_local_records).*1.

Definition respond_x_closest_record_proof (key : NetworkAddress) (nonce : Z) (difficulty : nat) (chunk_only : bool) : StorageProofs :=
  if (difficulty =? 1)%nat then
    [(key, match env_get_local_record (qe_node env) (to_record_key key) with
           | Some (Some record) => Ok (chunk_proof_new (rec_value record) nonce)
           | _ => Err (ME_ChunkDoesNotExist key)
           end)]
  else
    match qe_local_addresses env with
    | Some all_local_records =>
      let all_chunk_addrs := sort_by_key (distance key) (proof_candidates all_local_records chunk_only) in
      let workload_factor := Nat.min difficulty CLOSE_GROUP_SIZE in
      omap (λ addr, match env_get_local_record (qe_node env) (to_record_key addr) with
                    | Some (Some record) => Some (addr, Ok (chunk_proof_new (rec_value record) nonce))
                    | _ => None
                    end) (take workload_factor all_chunk_addrs)
    | None => []
    end.

(** ** handle_query *)

(** The errors of a put that a client is told apart; the others are a text. *)
Definition put_answer (r : result unit PutValidationError) : result unit MessageError :=
  match r with
  | Ok tt => Ok tt
  | Err (OutdatedRecordCounter counter expected) => Err (ME_OutdatedRecordCounter counter expected)
  | Err (TopologyVerificationFailed target_address valid_count total_paid closest_count node_peers paid_peers) =>
    Err (ME_TopologyVerificationFailed target_address valid_count total_paid closest_count node_peers paid_peers)
  | Err err => Err (ME_PutRecordFailed (put_error_text err))
  end.

(** The commands a query causes and its answer. *)
Definition handle_query (query : Query) : list NodeEffect * QueryResponse :=
  match query with
  | Q_GetStoreQuote key data_type data_size nonce difficulty =>
    let record_key := to_record_key key in
    let storage_proofs := match nonce with Some nonce => respond_x_closest_record_proof key nonce difficulty false | None => [] end in
    let quote :=
      match qe_quoting_metrics env record_key data_type data_size with
      | Some (quoting_metrics, is_already_stored) =>
        if is_already_stored : bool then Err (ME_RecordExists record_key)
        else create_quote_for_storecost key quoting_metrics (qe_reward_address env)
      | None => Err ME_GetStoreQuoteFailed
      end in
    ([], R_GetStoreQuote quote self_address storage_proofs)
  | Q_GetReplicatedRecord _ key =>
    ([], R_GetReplicatedRecord
           match env_get_local_record (qe_node env) (to_record_key key) with
           | Some (Some record) => Ok (self_address, rec_value record)
           | Some None => Err (ME_ReplicatedRecordNotFound self_address key)
           | None => Err (ME_PutRecordFailed local_record_error_text)
           end)
  | Q_GetChunkExistenceProof key nonce difficulty =>
    ([], R_GetChunkExistenceProof (respond_x_closest_record_proof key nonce difficulty true))
  | Q_CheckNodeInProblem target_address =>
    ([], R_CheckNodeInProblem self_address target_address (default false (qe_is_peer_shunned env target_address)))
  | Q_GetClosestPeers key num_of_peers range sign_result => ([], respond_get_closest_peers key num_of_peers range sign_result)
  | Q_GetVersion _ => ([], R_GetVersion self_address (qe_version env))
  | Q_PutRecord holder serialized_record address =>
    let record := local_record (to_record_key address) serialized_record in
    let '(effects, r) := validate_and_store_record (qe_node env) record in
    (effects, R_PutRecord (put_answer r) holder address)
  | Q_GetMerkleCandidateQuote key data_type data_size merkle_payment_timestamp =>
    ([], respond_merkle_candidate_quote key data_type data_size merkle_payment_timestamp (qe_reward_address env))
  end.
End queries.
