(* ===== verification/StorageChallenge.v ===== *)
(** * Storage challenges and replica checks

    Models the part of src/ant-node/src/node.rs by which a node judges its neighbours:
    storage_challenge with the scores of scoring_peer, mark_peer, duration_score_scheme and
    challenge_score_scheme, and verify_local_replication_health with its retry. The commands sent to
    the driver are its [LocalSwarmCmd]s. What other nodes answer, how long they take, the order in
    which tasks end and the random choices are arguments. A [Duration] is in nanoseconds. *)

From stdpp Require Import base gmap countable list.
From Stdlib Require Import ZArith Lia.
From S2P Require Import Prelude Text Protocol Storage RecordCache RecordStore MerkleTree Payments PutValidation.
From S2P Require Import ReplicationFetcher Driver Messages NodeQueries.

Definition HIGHEST_SCORE : Z := 100.
Definition MIN_ACCEPTABLE_HEALTHY_SCORE : Z := 3000.
Definition TIME_STEP : Z := 50.
Definition REPLICA_FETCH_PEER_COUNT : nat := 5.
Definition MIN_HEALTHY_REPLICA_COUNT : nat := 3.
Definition CLOSE_NEIGHBOUR_DISTANCE_INDEX : nat := 7.

Definition as_millis (d : Z) : Z := d / 10 ^ 6.

(** libp2p's [Distance::ilog2]. *)
Definition ilog2 (d : Z) : option Z := if d =? 0 then None else Some (Z.log2 d).

(** ** Scores *)

Definition duration_score_scheme (duration : Z) : Z :=
  let in_ms := if as_millis duration <=? usize_max then as_millis duration else HIGHEST_SCORE * TIME_STEP in
  let step := Z.min HIGHEST_SCORE (in_ms / TIME_STEP) in
  HIGHEST_SCORE - step.

Section challenge.
Context `{XorNameLib, Hex, Bls, Layout, Kad, RmpHeader, Libp2pIdentity, AntMerkle, HashOrder}.
Context `{!BodySerde, !NodeText, !Serde NetworkAddress, !Serde (list (NetworkAddress * list bytes))}.

(** The number of correct answers, or [None] when there is a false one. *)
Fixpoint correct_answers (answers : list (NetworkAddress * ChunkProof)) (expected_proofs : gmap NetworkAddress ChunkProof)
    (correct : Z) : option Z :=
  match answers with
  | [] => Some correct
  | (addr, chunk_proof) :: answers =>
    match expected_proofs !! addr with
    | Some expected_proof =>
      if chunk_proof_verify expected_proof chunk_proof then correct_answers answers expected_proofs (correct + 1) else None
    | None => correct_answers answers expected_proofs correct
    end
  end.

(** [None] is the panic of a division by zero. *)
Definition challenge_score_scheme (answers : list (NetworkAddress * ChunkProof)) (expected_proofs : gmap NetworkAddress ChunkProof)
    : option Z :=
  match correct_answers answers expected_proofs 0 with
  | None => Some 0
  | Some correct =>
    if (size expected_proofs =? 0)%nat then None
    else Some (Z.min HIGHEST_SCORE (HIGHEST_SCORE * correct / Z.of_nat (size expected_proofs)))
  end.

Definition mark_peer (duration : Z) (answers : list (NetworkAddress * ChunkProof)) (expected_proofs : gmap NetworkAddress ChunkProof)
    : option Z :=
  let duration_score := duration_score_scheme duration in
  match challenge_score_scheme answers expected_proofs with
  | Some challenge_score => Some (duration_score * challenge_score)
  | None => None
  end.

(** The answers that carry a proof. *)
Definition received_proofs (answers : StorageProofs) : list (NetworkAddress * ChunkProof) :=
  omap (λ x : NetworkAddress * result ChunkProof MessageError, match x.2 with Ok proof => Some (x.1, proof) | Err _ => None end) answers.

(** [scoring_peer], for the response of the peer, if there is one, and the time it took. *)
Definition scoring_peer (response : option Response) (elapsed : Z) (expected_proofs : gmap NetworkAddress ChunkProof) : option Z :=
  match response with
  | Some (Resp_Query (R_GetChunkExistenceProof answers)) =>
    if (length answers =? 0)%nat then Some 0 else mark_peer elapsed (received_proofs answers) expected_proofs
  | _ => Some 0
  end.

(** ** storage_challenge *)

(** The proofs the node itself has for the chunks closest to the target. *)
Definition expected_proofs_of (env : QueryEnv) (nonce : Z) (targets : list NetworkAddress) : gmap NetworkAddress ChunkProof :=
  foldl (λ m addr, match env_get_local_record (qe_node env) (to_record_key addr) with
                   | Some (Some record) => <[addr := chunk_proof_new (rec_value record) nonce]> m
                   | _ => m
                   end) ∅ targets.

(** One challenge of the neighbours: the query, whom it is sent to, and the proofs expected. *)
Record Challenge := {
  ch_query : Query;
  ch_peers : list bytes;
  ch_expected : gmap NetworkAddress ChunkProof;
}.

(** The first half of [storage_challenge]: [None] when it returns before anything is sent. [index] is
    drawn below half the number of candidates. *)
Definition make_challenge (env : QueryEnv) (closest_peers : option (list bytes)) (index : nat) (nonce : Z) : option Challenge :=
  match closest_peers with
  | None => None
  | Some closest_peers =>
    let closest_peers := take CLOSE_GROUP_SIZE closest_peers in
    if (length closest_peers <? CLOSE_GROUP_SIZE)%nat then None
    else
      match qe_local_addresses env with
      | None => None
      | Some all_keys =>
        let verify_candidates := proof_candidates all_keys true in
        if (length verify_candidates <? 50)%nat then None
        else
          let self_addr := NA_PeerId (env_peer_id (qe_node env)) in
          let verify_candidates := sort_by_key (distance self_addr) verify_candidates in
          match verify_candidates !! index with
          | None => None
          | Some target =>
            let difficulty := CLOSE_GROUP_SIZE in
            let verify_candidates := sort_by_key (distance target) verify_candidates in
            Some {| ch_query := Q_GetChunkExistenceProof target nonce difficulty;
                    ch_peers := filter (λ p, p ≠ env_peer_id (qe_node env)) closest_peers;
                    ch_expected := expected_proofs_of env nonce (take difficulty verify_candidates) |}
          end
      end
  end.

Definition is_healthy (score : Z) : bool := MIN_ACCEPTABLE_HEALTHY_SCORE <? score.

(** What is reported of the tasks that ended with a score; a task that panicked is only logged. *)
Definition report_scores (scored : list (bytes * option Z)) : list LocalSwarmCmd :=
  let scores := omap (λ x : bytes * option Z, match x.2 with Some score => Some (x.1, score) | None => None end) scored in
  omap (λ x : bytes * Z, if is_healthy x.2 then None else Some (RecordNodeIssue x.1 FailedChunkProofCheck)) scores ++
  match (λ x : bytes * Z, (x.1, is_healthy x.2)) <$> scores with
  | [] => []
  | peer_scores => [NotifyPeerScores peer_scores]
  end.

(** The second half: [joined] gives the tasks in the order they end. *)
Definition judge_peers (joined : list bytes → list bytes) (answer : bytes → option Response * Z) (c : Challenge) : list LocalSwarmCmd :=
  report_scores ((λ p, (p, scoring_peer (answer p).1 (answer p).2 (ch_expected c))) <$> joined (ch_peers c)).

(** ** verify_local_replication_health *)

(** The chunk in a response is a copy of the record that was asked for. *)
Definition is_copy (record_address : NetworkAddress) (response : option Response) : bool :=
  match response with
  | Some (Resp_Query (R_GetReplicatedRecord (Ok (_, value)))) =>
    match @try_deserialize_record Chunk _ (local_record (to_record_key record_address) value) with
    | Ok chunk => bool_decide (to_record_key (chunk_network_address chunk) = to_record_key record_address)
    | Err _ => false
    end
  | _ => false
  end.

(** [fetch_record_from_peers_with_addresses]: [joined] gives the peers in the order they answer. *)
Definition fetch_record_from_peers (record_address : NetworkAddress) (joined : list bytes → list bytes)
    (answer : bytes → option Response) (peers : list bytes) : list bytes * list bytes :=
  (filter (λ p, is_copy record_address (answer p) = true) (joined peers),
   filter (λ p, is_copy record_address (answer p) = false) (joined peers)).

(** [refresh_retry_candidate_addresses]: which of the peers the network still finds close. *)
Definition refresh_retry_candidates (closest : option (list bytes)) (retry_peers : gset bytes) : list bytes :=
  match closest with
  | None => []
  | Some closest_peers => filter (λ p, p ∈ closest_peers) (hs_iter retry_peers)
  end.

Definition evict_and_blacklist_peer (peer_id : bytes) : list LocalSwarmCmd := [RemovePeer peer_id; AddPeerToBlockList peer_id].

(** [schedule_record_fetch_retry], after its delay. *)
Definition schedule_record_fetch_retry (record_address : NetworkAddress) (closest : option (list bytes)) (joined : list bytes → list bytes)
    (answer : bytes → option Response) (failed_peers : list bytes) : list LocalSwarmCmd :=
  let retry_peers : gset bytes := list_to_set failed_peers in
  if decide (retry_peers = ∅) then []
  else
    let refreshed_candidates := refresh_retry_candidates closest retry_peers in
    let '(_, still_failed) := fetch_record_from_peers record_address joined answer refreshed_candidates in
    still_failed ≫= evict_and_blacklist_peer.

(** The chunks within the distance of the eighth closest peer, itself counted. *)
Definition nearby_records (env : QueryEnv) (closest_peers : list bytes) : list NetworkAddress :=
  let self_address := NA_PeerId (env_peer_id (qe_node env)) in
  match closest_peers !! CLOSE_NEIGHBOUR_DISTANCE_INDEX with
  | None => []
  | Some threshold_peer =>
    match ilog2 (distance self_address (NA_PeerId threshold_peer)), qe_local_addresses env with
    | Some threshold_ilog2, Some local_records =>
      filter (λ address, match ilog2 (distance self_address address) with
                         | Some record_ilog2 => record_ilog2 <=? threshold_ilog2
                         | None => false
                         end = true) (proof_candidates local_records true)
    | _, _ => []
    end
  end.

(** What happens around a replica check: the shuffled records, the close peers of the node and of a
    record, and the two rounds of answers. *)
Record ReplicaRound := {
  rr_closest : option (list bytes);
  rr_shuffle : list NetworkAddress → list NetworkAddress;
  rr_record_closest : NetworkAddress → option (list bytes);
  rr_joined : list bytes → list bytes;
  rr_answer : bytes → option Response;
  rr_closest_later : option (list bytes);
  rr_joined_later : list bytes → list bytes;
  rr_answer_later : bytes → option Response;
}.

Definition verify_local_replication_health (env : QueryEnv) (r : ReplicaRound) : list LocalSwarmCmd :=
  match rr_closest r with
  | None => []
  | Some closest_peers =>
    if (length closest_peers <=? CLOSE_NEIGHBOUR_DISTANCE_INDEX)%nat then []
    else
      match head (rr_shuffle r (nearby_records env closest_peers)) with
      | None => []
      | Some target_record =>
        match rr_record_closest r target_record with
        | None => []
        | Some peers =>
          let candidate_peers := take REPLICA_FETCH_PEER_COUNT (filter (λ p, p ≠ env_peer_id (qe_node env)) peers) in
          if (length candidate_peers <? REPLICA_FETCH_PEER_COUNT)%nat then []
          else
            let '(successful_peers, failed_peers) :=
              fetch_record_from_peers target_record (rr_joined r) (rr_answer r) candidate_peers in
            if (length failed_peers =? 0)%nat then []
            else if (length successful_peers <? MIN_HEALTHY_REPLICA_COUNT)%nat then []
            else
              schedule_record_fetch_retry target_record (rr_closest_later r) (rr_joined_later r) (rr_answer_later r) failed_peers
        end
      end
  end.

(** [storage_challenge]: the challenge of the neighbours, then the replica check; when the challenge
    is not made, nothing is. *)
Definition storage_challenge (env : QueryEnv) (closest_peers : option (list bytes)) (index : nat) (nonce : Z)
    (joined : list bytes → list bytes) (answer : bytes → option Response * Z) (r : ReplicaRound) : list LocalSwarmCmd :=
  match make_challenge env closest_peers index nonce with
  | None => []
  | Some c => judge_peers joined answer c ++ verify_local_replication_health env r
  end.
End challenge.
