(* ===== verification/NodeEvents.v ===== *)
(** * The node's events

    Models the loop of src/ant-node/src/node.rs, handle_network_event with the handlers it spawns and
    the ticks of run, and src/ant-node/src/replication.rs. A spawned task runs to its end where it is
    spawned; what it does is a list of [NodeAction]s. The answers of other nodes are [NodeNet]; a
    request that fails has none. Events that are only logged are [EvLogged]. *)

From stdpp Require Import base gmap countable strings list.
From Stdlib Require Import ZArith Lia.
From S2P Require Import Prelude Text Protocol Storage RecordCache RecordStore MerkleTree Payments PutValidation.
From S2P Require Import ReplicationFetcher Driver Messages NodeQueries StorageChallenge CloseGroupTracker.

Section events.
Context `{XorNameLib, Hex, Bls, Layout, Kad, RmpHeader, Libp2pIdentity, AntMerkle, HashOrder}.
Context `{!BodySerde, !NodeText, !Serde NetworkAddress, !Serde (list (NetworkAddress * list bytes))}.
Context (peer_cmp : bytes → bytes → comparison).

Inductive NodeEvent :=
  | ConnectedToNetwork
  | ChunkStored (address : ChunkAddress)
  | RewardReceived (amount : Z) (address : NetworkAddress)
  | ChannelClosed
  | TerminateNodeEvent (reason : bytes).

Definition FreshKey : Type := NetworkAddress * DataTypes * ValidationType * option ProofOfPayment.

(** [NetworkEvent]; a channel is a number. *)
Inductive NetworkEvent :=
  | EvPeerAdded (peer_id : bytes)
  | EvPeerRemoved (peer_id : bytes)
  | EvKeysToFetchForReplication (keys : list (bytes * bytes))
  | EvQueryRequestReceived (query : Query) (channel : Z)
  | EvUnverifiedRecord (record : KadRecord)
  | EvTerminateNode (reason : bytes)
  | EvFailedToFetchHolders (bad_nodes : list (bytes * bytes))
  | EvQuoteVerification (quotes : list (bytes * PaymentQuote))
  | EvFreshReplicateToFetch (holder : NetworkAddress) (keys : list FreshKey)
  | EvPeersForVersionQuery (peers : list bytes)
  | EvNetworkWideReplication (keys : list (NetworkAddress * ValidationType))
  | EvLogged.

Inductive NodeAction :=
  | ABroadcast (e : NodeEvent)
  | ACmd (c : LocalSwarmCmd)
  | AStore (e : NodeEffect)
  | ARespond (channel : Z) (r : QueryResponse)
  | ASendReplicate (peer : bytes) (keys : list (NetworkAddress * ValidationType)).

(** The answer of a peer to a query, and the closest peers a lookup in the network finds. *)
Record NodeNet := {
  nn_ask : bytes → Query → option Response;
  nn_closest : NetworkAddress → option (list bytes);
}.

Context (env : QueryEnv) (net : NodeNet).

Abbreviation self_address := (NA_PeerId (env_peer_id (qe_node env))).

(** ** replication.rs *)

(** One fetch of [fetch_replication_keys_without_wait]: an error while storing is only logged. *)
Definition fetch_replication_key (holder key : bytes) : list NodeEffect :=
  match nn_ask net holder (Q_GetReplicatedRecord self_address (NA_RecordKey key)) with
  | Some (Resp_Query (R_GetReplicatedRecord (Ok (_, record_content)))) =>
    (store_replicated_in_record (qe_node env) (local_record key record_content)).1
  | _ => []
  end.

Definition fetch_replication_keys_without_wait (keys_to_fetch : list (bytes * bytes)) : list NodeAction :=
  AStore <$> (keys_to_fetch ≫= λ '(holder, key), fetch_replication_key holder key).

(** Whether a fresh key is to be fetched, and what checking its payment sends. *)
Definition accept_fresh_key (k : FreshKey) : list NodeEffect * bool :=
  let '(addr, data_type, _, payment) := k in
  match payment with
  | Some payment =>
    let '(effects, r) := payment_for_us_exists_and_is_still_valid (qe_node env) addr data_type payment in (effects, is_ok r)
  | None =>
    let '(effects, r) := validate_key_and_existence (qe_node env) addr (to_record_key addr) in
    (effects, match r with Ok present => present | Err _ => false end)
  end.

Definition fresh_replicate_to_fetch (holder : NetworkAddress) (keys : list FreshKey) : list NodeAction :=
  let new_keys := omap (λ k : FreshKey, if (accept_fresh_key k).2 then Some (k.1.1.1, k.1.2) else None) keys in
  (AStore <$> (keys ≫= λ k, (accept_fresh_key k).1)) ++
  match new_keys with [] => [] | _ => [ACmd (AddFreshReplicateRecords holder new_keys)] end.

(** A peer that answers that it has not got the record. *)
Definition lacks_record (response : option Response) : bool :=
  match response with Some (Resp_Query (R_GetReplicatedRecord (Err _))) => true | _ => false end.

(** [network_wide_replication_per_key]; the responses are in the order of peer ids. *)
Definition network_wide_replication_per_key (key : NetworkAddress) (val_type : ValidationType) : list NodeAction :=
  match nn_closest net key with
  | None => []
  | Some peers =>
    let peers := take CLOSE_GROUP_SIZE (sort_by_key (λ peer_id, distance key (NA_PeerId peer_id)) peers) in
    let to_replicate := filter (λ p, lacks_record (nn_ask net p (Q_GetReplicatedRecord self_address key)) = true)
                               (bt_extend peer_cmp [] peers) in
    (if (CLOSE_GROUP_SIZE / 2 + 1 <=? length to_replicate)%nat then [ACmd RecordNotAtTargetLocation] else []) ++
    ((λ peer, ASendReplicate peer [(key, val_type)]) <$> to_replicate)
  end.

Definition perform_network_wide_replication (keys : list (NetworkAddress * ValidationType)) : list NodeAction :=
  keys ≫= λ '(key, val_type), network_wide_replication_per_key key val_type.

(** ** Handlers *)

Definition try_query_peer_version (peer : bytes) : list NodeAction :=
  match nn_ask net peer (Q_GetVersion (NA_PeerId peer)) with
  | Some (Resp_Query (R_GetVersion _ version)) => [ACmd (NotifyPeerVersion peer version)]
  | Some _ => [ACmd (NotifyPeerVersion peer (text "none"))]
  | None => [ACmd (RemovePeer peer)]
  end.

Definition query_peers_version (peers : list bytes) : list NodeAction := peers ≫= try_query_peer_version.

Definition on_failed_to_fetch (bad_nodes : list (bytes * bytes)) : list NodeAction :=
  omap (λ x : bytes * bytes, match env_is_record_key_present (qe_node env) x.2 with
                             | Some false => Some (ACmd (RecordNodeIssue x.1 ReplicationFailure))
                             | _ => None
                             end) bad_nodes.

Definition replicate_if (d : ReplicationDirective) : list NodeAction :=
  if should_trigger d then [ACmd TriggerIntervalReplication] else [].

(** The state of the loop. *)
Record NodeState := { nd_tracker : CloseGroupTracker; nd_peers_connected : Z }.

Definition node_state_new : NodeState := {| nd_tracker := tracker_new (env_peer_id (qe_node env)); nd_peers_connected := 0 |}.

(** [handle_network_event], at a reading of the clock. *)
Definition handle_network_event (now : Z) (event : NetworkEvent) (s : NodeState) : NodeState * list NodeAction :=
  match event with
  | EvPeerAdded peer_id =>
    let peers_connected := (nd_peers_connected s + 1) mod 2 ^ 64 in
    let connected := if peers_connected =? Z.of_nat CLOSE_GROUP_SIZE then [ABroadcast ConnectedToNetwork] else [] in
    let '(directive, tracker) := record_peer_added peer_cmp peer_id (nd_tracker s) in
    ({| nd_tracker := tracker; nd_peers_connected := peers_connected |},
     connected ++ try_query_peer_version peer_id ++ replicate_if directive)
  | EvPeerRemoved peer_id =>
    let '(directive, tracker) := record_peer_removed now peer_id (nd_tracker s) in
    ({| nd_tracker := tracker; nd_peers_connected := nd_peers_connected s |}, replicate_if directive)
  | EvKeysToFetchForReplication keys => (s, fetch_replication_keys_without_wait keys)
  | EvQueryRequestReceived query channel =>
    let '(effects, res) := handle_query env query in (s, (AStore <$> effects) ++ [ARespond channel res])
  | EvUnverifiedRecord record => (s, AStore <$> (validate_and_store_record (qe_node env) record).1)
  | EvTerminateNode reason => (s, [ABroadcast (TerminateNodeEvent reason)])
  | EvFailedToFetchHolders bad_nodes => (s, on_failed_to_fetch bad_nodes)
  | EvQuoteVerification quotes =>
    (s, match quotes_verification env quotes with Some quotes => [ACmd (QuoteVerification quotes)] | None => [] end)
  | EvFreshReplicateToFetch holder keys => (s, fresh_replicate_to_fetch holder keys)
  | EvPeersForVersionQuery peers => (s, query_peers_version peers)
  | EvNetworkWideReplication keys => (s, perform_network_wide_replication keys)
  | EvLogged => (s, [])
  end.

(** The branches of the loop of [run]. *)
Inductive LoopEvent :=
  | OnNetwork (event : NetworkEvent)
  | OnChannelClosed
  | OnReplicationTick
  | OnCleanupTick
  | OnChallengeTick (closest_peers : option (list bytes)) (index : nat) (nonce : Z) (joined : list bytes → list bytes)
      (elapsed : bytes → Z) (r : ReplicaRound).

(** What the branch of a storage challenge sends: each challenged peer is asked the query. *)
Definition run_storage_challenge (closest_peers : option (list bytes)) (index : nat) (nonce : Z) (joined : list bytes → list bytes)
    (elapsed : bytes → Z) (r : ReplicaRound) : list LocalSwarmCmd :=
  match make_challenge env closest_peers index nonce with
  | None => []
  | Some c => storage_challenge env closest_peers index nonce joined (λ p, (nn_ask net p (ch_query c), elapsed p)) r
  end.

Definition loop_step (now : Z) (event : LoopEvent) (s : NodeState) : NodeState * list NodeAction :=
  match event with
  | OnNetwork event => handle_network_event now event s
  | OnChannelClosed => (s, [ABroadcast ChannelClosed])
  | OnReplicationTick =>
    ({| nd_tracker := (handle_timer_expiry now (nd_tracker s)).2; nd_peers_connected := nd_peers_connected s |},
     [ACmd TriggerIntervalReplication])
  | OnCleanupTick => (s, [ACmd TriggerIrrelevantRecordCleanup])
  | OnChallengeTick closest_peers index nonce joined elapsed r =>
    (s, ACmd <$> run_storage_challenge closest_peers index nonce joined elapsed r)
  end.
End events.
