(* ===== verification/TaskHandler.v ===== *)
(** * The client's task handler

    Models src/autonomi/src/networking/driver/task_handler.rs, the tasks of interface/mod.rs, the
    events of driver/swarm_events.rs that complete them and [process_task] of driver/mod.rs: a
    client's requests are pending under the id libp2p gave them until an answer, a failure or, for
    records, a quorum of holders completes them. A [oneshot::Sender] is a number; whether its
    receiver is still there is an argument of each operation, and what is sent is collected as
    answers. The texts of errors are the parameter [ErrorText]. The developer query, which is not
    compiled in by default, is left out. *)

From stdpp Require Import base gmap countable strings list.
From Stdlib Require Import ZArith Lia.
From S2P Require Import Prelude Text Protocol RecordCache RecordStore MerkleTree Payments Messages Driver.

(** ** Errors *)

Section errors.
Context `{Bls}.

(** [NetworkError] of networking/mod.rs. *)
Inductive ClientError :=
  | NetworkDriverOffline
  | NetworkDriverReceive
  | IncompatibleNetworkProtocol
  | InvalidNonZeroUsize (n : nat)
  | GetClosestPeersTimeout
  | InsufficientPeers (got_peers expected_peers : nat) (peers : list PeerInfo)
  | PutRecordMissingTargets
  | PutRecordVerification (reason : bytes)
  | PutRecordQuorumFailed (peers : list bytes) (quorum : nat)
  | PutRecordTooManyPeerFailed (ok : list bytes) (failed : list (bytes * bytes))
  | PutRecordTimeout (peers : list bytes)
  | PutRecordRejected (reason : bytes)
  | OutdatedRecordRejected (counter expected : Z)
  | TopologyVerificationRejected (rejecting_node : bytes) (target_address : NetworkAddress)
      (valid_count total_paid closest_count : Z) (node_peers paid_peers : list bytes)
  | GetQuoteError (reason : bytes)
  | InvalidQuote (reason : bytes)
  | InvalidNodeMerkleCandidate (reason : bytes)
  | InsufficientQuotes (got_quotes record_exists_responses errors_len : nat) (errors : list ClientError)
  | SplitRecord (holders : gmap bytes KadRecord)
  | GetRecordTimeout (peers : list bytes)
  | GetRecordQuorumFailed (got_holders expected_holders : nat) (holders : gmap bytes KadRecord)
  | GetRecordError (reason : bytes)
  | GetVersionError (reason : bytes)
  | InvalidRetryStrategy.

Definition is_fatal (e : ClientError) : bool :=
  match e with NetworkDriverOffline | NetworkDriverReceive | IncompatibleNetworkProtocol => true | _ => false end.

Definition cannot_retry (e : ClientError) : bool :=
  match e with OutdatedRecordRejected _ _ => true | _ => false end || is_fatal e.

(** The texts errors are shown as; libp2p's failures of a request. *)
Class ErrorText := {
  message_error_text : MessageError → bytes;
  OutboundFailure : Type;
  unsupported_protocols : OutboundFailure;
  outbound_failure_text : OutboundFailure → bytes;
}.
End errors.

(** ** Quorums: utils.rs *)

Definition close_group_majority : nat := (CLOSE_GROUP_SIZE / 2 + 1)%nat.

Definition get_quorum_amount (quorum : Quorum) : nat :=
  match quorum with
  | QuorumMajority => close_group_majority
  | QuorumAll => CLOSE_GROUP_SIZE
  | QuorumN v => v
  | QuorumOne => 1
  end.

Section tasks.
Context `{Bls, Libp2pIdentity, Digests, !Serde QuotingMetrics, HashOrder, Kad, Hex, XorNameLib, !ErrorText}.

(** The receiving end of a request. *)
Definition Responder : Type := Z.

Inductive NetworkTask :=
  | GetClosestPeers (addr : NetworkAddress) (resp : Responder) (n : nat)
  | GetRecord (addr : NetworkAddress) (quorum : Quorum) (resp : Responder)
  | PutRecordKad (record : KadRecord) (to : list PeerInfo) (quorum : Quorum) (resp : Responder)
  | PutRecordReq (record : KadRecord) (to : PeerInfo) (resp : Responder)
  | GetQuote (addr : NetworkAddress) (peer : PeerInfo) (data_type data_size : Z) (resp : Responder)
  | GetVersion (peer : PeerInfo) (resp : Responder)
  | GetRecordFromPeer (addr : NetworkAddress) (peer : PeerInfo) (resp : Responder)
  | GetStorageProofsFromPeer (addr : NetworkAddress) (peer : PeerInfo) (nonce : Z) (difficulty : nat)
      (data_type : DataTypes) (data_size : Z) (resp : Responder)
  | GetClosestPeersFromPeer (addr : NetworkAddress) (peer : PeerInfo) (num_of_peers : option nat) (resp : Responder)
  | ConnectionsMade (resp : Responder)
  | GetMerkleCandidateQuote (addr : NetworkAddress) (peer : PeerInfo) (data_type data_size merkle_payment_timestamp : Z)
      (resp : Responder).

(** What is sent to a responder, by the type of its task. *)
Inductive Answer :=
  | A_Peers (r : result (list PeerInfo) ClientError)
  | A_Record (r : result (option KadRecord * list bytes) ClientError)
  | A_Put (r : result unit ClientError)
  | A_Quote (r : result (option (PeerInfo * PaymentQuote)) ClientError)
  | A_Version (r : result bytes ClientError)
  | A_RecordFromPeer (r : result (option KadRecord) ClientError)
  | A_StorageProofs (r : result (option PaymentQuote * StorageProofs) ClientError)
  | A_PeersFromPeer (r : result (list (NetworkAddress * list bytes)) ClientError)
  | A_Connections (n : Z)
  | A_MerkleCandidate (r : result MerklePaymentCandidateNode ClientError).

Definition Answers : Type := list (Responder * Answer).

Inductive TaskHandlerError :=
  | UnknownQuery (id : Z)
  | NetworkClientDropped (id : Z).

Record TaskHandler := {
  th_closest_peers : gmap Z Responder;
  th_put_record_kad : gmap Z Responder;
  th_put_record_req : gmap Z (Responder * PeerInfo);
  th_get_cost : gmap Z (Responder * Z * PeerInfo);
  th_get_record : gmap Z (Responder * Quorum);
  th_get_record_accumulator : gmap Z (gmap bytes KadRecord);
  th_get_version : gmap Z Responder;
  th_get_record_from_peer : gmap Z Responder;
  th_get_storage_proofs_from_peer : gmap Z Responder;
  th_get_closest_peers_from_peer : gmap Z Responder;
  th_get_merkle_candidate_quote : gmap Z Responder;
}.

(** [TaskHandler::new]. *)
Definition task_handler_new : TaskHandler :=
  {| th_closest_peers := ∅; th_put_record_kad := ∅; th_put_record_req := ∅; th_get_cost := ∅; th_get_record := ∅;
     th_get_record_accumulator := ∅; th_get_version := ∅; th_get_record_from_peer := ∅;
     th_get_storage_proofs_from_peer := ∅; th_get_closest_peers_from_peer := ∅; th_get_merkle_candidate_quote := ∅ |}.

(** The handler with the maps of kademlia queries, and of requests, replaced. *)
Definition with_kad (th : TaskHandler) (closest put : gmap Z Responder) (get : gmap Z (Responder * Quorum))
    (acc : gmap Z (gmap bytes KadRecord)) : TaskHandler :=
  {| th_closest_peers := closest; th_put_record_kad := put; th_put_record_req := th_put_record_req th;
     th_get_cost := th_get_cost th; th_get_record := get; th_get_record_accumulator := acc;
     th_get_version := th_get_version th; th_get_record_from_peer := th_get_record_from_peer th;
     th_get_storage_proofs_from_peer := th_get_storage_proofs_from_peer th;
     th_get_closest_peers_from_peer := th_get_closest_peers_from_peer th;
     th_get_merkle_candidate_quote := th_get_merkle_candidate_quote th |}.

Definition with_put_req (th : TaskHandler) (m : gmap Z (Responder * PeerInfo)) : TaskHandler :=
  {| th_closest_peers := th_closest_peers th; th_put_record_kad := th_put_record_kad th; th_put_record_req := m;
     th_get_cost := th_get_cost th; th_get_record := th_get_record th;
     th_get_record_accumulator := th_get_record_accumulator th;
     th_get_version := th_get_version th; th_get_record_from_peer := th_get_record_from_peer th;
     th_get_storage_proofs_from_peer := th_get_storage_proofs_from_peer th;
     th_get_closest_peers_from_peer := th_get_closest_peers_from_peer th;
     th_get_merkle_candidate_quote := th_get_merkle_candidate_quote th |}.

Definition with_cost (th : TaskHandler) (m : gmap Z (Responder * Z * PeerInfo)) : TaskHandler :=
  {| th_closest_peers := th_closest_peers th; th_put_record_kad := th_put_record_kad th;
     th_put_record_req := th_put_record_req th; th_get_cost := m; th_get_record := th_get_record th;
     th_get_record_accumulator := th_get_record_accumulator th;
     th_get_version := th_get_version th; th_get_record_from_peer := th_get_record_from_peer th;
     th_get_storage_proofs_from_peer := th_get_storage_proofs_from_peer th;
     th_get_closest_peers_from_peer := th_get_closest_peers_from_peer th;
     th_get_merkle_candidate_quote := th_get_merkle_candidate_quote th |}.

Definition with_direct (th : TaskHandler) (version from_peer proofs closest merkle : gmap Z Responder) : TaskHandler :=
  {| th_closest_peers := th_closest_peers th; th_put_record_kad := th_put_record_kad th;
     th_put_record_req := th_put_record_req th; th_get_cost := th_get_cost th; th_get_record := th_get_record th;
     th_get_record_accumulator := th_get_record_accumulator th;
     th_get_version := version; th_get_record_from_peer := from_peer;
     th_get_storage_proofs_from_peer := proofs; th_get_closest_peers_from_peer := closest;
     th_get_merkle_candidate_quote := merkle |}.

(** [TaskHandler::contains]: a pending kademlia query. *)
Definition th_contains (id : Z) (th : TaskHandler) : bool :=
  contains_key id (th_closest_peers th) || contains_key id (th_get_record th) || contains_key id (th_put_record_kad th).

(** A pending request. *)
Definition contains_query (id : Z) (th : TaskHandler) : bool :=
  contains_key id (th_get_cost th) || contains_key id (th_put_record_req th) || contains_key id (th_get_version th) ||
  contains_key id (th_get_record_from_peer th) || contains_key id (th_get_storage_proofs_from_peer th) ||
  contains_key id (th_get_closest_peers_from_peer th) || contains_key id (th_get_merkle_candidate_quote th).

Definition insert_task (id : Z) (task : NetworkTask) (th : TaskHandler) : TaskHandler :=
  match task with
  | GetClosestPeers _ resp _ =>
    with_kad th (<[id := resp]> (th_closest_peers th)) (th_put_record_kad th) (th_get_record th) (th_get_record_accumulator th)
  | GetRecord _ quorum resp =>
    with_kad th (th_closest_peers th) (th_put_record_kad th) (<[id := (resp, quorum)]> (th_get_record th))
      (th_get_record_accumulator th)
  | PutRecordKad _ _ _ resp =>
    with_kad th (th_closest_peers th) (<[id := resp]> (th_put_record_kad th)) (th_get_record th) (th_get_record_accumulator th)
  | _ => th
  end.

Definition insert_query (id : Z) (task : NetworkTask) (th : TaskHandler) : TaskHandler :=
  let version := th_get_version th in
  let from_peer := th_get_record_from_peer th in
  let proofs := th_get_storage_proofs_from_peer th in
  let closest := th_get_closest_peers_from_peer th in
  let merkle := th_get_merkle_candidate_quote th in
  match task with
  | GetQuote _ peer data_type _ resp => with_cost th (<[id := (resp, data_type, peer)]> (th_get_cost th))
  | PutRecordReq _ to resp => with_put_req th (<[id := (resp, to)]> (th_put_record_req th))
  | GetVersion _ resp => with_direct th (<[id := resp]> version) from_peer proofs closest merkle
  | GetRecordFromPeer _ _ resp => with_direct th version (<[id := resp]> from_peer) proofs closest merkle
  | GetStorageProofsFromPeer _ _ _ _ _ _ resp => with_direct th version from_peer (<[id := resp]> proofs) closest merkle
  | GetClosestPeersFromPeer _ _ _ resp => with_direct th version from_peer proofs (<[id := resp]> closest) merkle
  | GetMerkleCandidateQuote _ _ _ _ _ resp => with_direct th version from_peer proofs closest (<[id := resp]> merkle)
  | _ => th
  end.

(** ** Completing tasks *)

(** What an operation leaves: the handler, what it sent, and its result. *)
Definition Update (T : Type) : Type := TaskHandler * Answers * result T TaskHandlerError.

(** [responder.send(..).map_err(NetworkClientDropped)]: the sender is used up whether or not its
    receiver is still there. *)
Definition send_then {T} (alive : Responder → bool) (id : Z) (th : TaskHandler) (resp : Responder) (a : Answer) (t : T)
    : Update T :=
  (th, [(resp, a)], if alive resp then Ok t else Err (NetworkClientDropped id)).

Definition unknown {T} (id : Z) (th : TaskHandler) : Update T := (th, [], Err (UnknownQuery id)).

(** [GetClosestPeersOk]'s peers, or a timeout. *)
Definition update_closest_peers (alive : Responder → bool) (id : Z) (res : option (list PeerInfo)) (th : TaskHandler)
    : Update unit :=
  match th_closest_peers th !! id with
  | None => unknown id th
  | Some responder =>
    let th := with_kad th (delete id (th_closest_peers th)) (th_put_record_kad th) (th_get_record th)
                (th_get_record_accumulator th) in
    send_then alive id th responder (A_Peers (ok_or res GetClosestPeersTimeout)) tt
  end.

(** The [GetRecordOk] and [GetRecordError] events of a query. *)
Inductive GetRecordProgress :=
  | FoundRecord (peer : option bytes) (record : KadRecord)
  | FinishedWithNoAdditionalRecord
  | RecordNotFound
  | RecordQuorumFailed
  | RecordTimeout.

(** The largest number of holders of the same value. *)
Definition get_max_content_holders_count (holders : gmap bytes KadRecord) : option nat :=
  if bool_decide (holders = ∅) then None
  else
    let values := (λ kr, rec_value kr.2) <$> hm_iter holders in
    Some (foldr max 0%nat ((λ v, length (filter (.= v) values)) <$> values)).

(** [acc.contains]: the distinct records, in the order they appear. *)
Definition records_uniq (records : list KadRecord) : list KadRecord :=
  foldl (λ acc x, if bool_decide (x ∈ acc) then acc else acc ++ [x]) [] records.

Definition take_get_record (id : Z) (th : TaskHandler) : option (Responder * Quorum * gmap bytes KadRecord * TaskHandler) :=
  match th_get_record th !! id with
  | None => None
  | Some (responder, quorum) =>
    Some (responder, quorum, default ∅ (th_get_record_accumulator th !! id),
          with_kad th (th_closest_peers th) (th_put_record_kad th) (delete id (th_get_record th))
            (delete id (th_get_record_accumulator th)))
  end.

(** The answer to a finished query with these holders. *)
Definition get_record_answer (quorum : Quorum) (holders : gmap bytes KadRecord)
    : result (option KadRecord * list bytes) ClientError :=
  let expected_holders := get_quorum_amount quorum in
  if (size holders <? expected_holders)%nat then Err (GetRecordQuorumFailed (size holders) expected_holders holders)
  else
    let peers := (hm_iter holders).*1 in
    match records_uniq ((hm_iter holders).*2) with
    | [] => Ok (None, peers)
    | [one] => Ok (Some one, peers)
    | _ => Err (SplitRecord holders)
    end.

Definition send_get_record_result (alive : Responder → bool) (id : Z) (th : TaskHandler) : Update unit :=
  match take_get_record id th with
  | None => unknown id th
  | Some (responder, quorum, holders, th) => send_then alive id th responder (A_Record (get_record_answer quorum holders)) tt
  end.

(** Returns true if the task is finished. *)
Definition update_get_record (alive : Responder → bool) (id : Z) (res : GetRecordProgress) (th : TaskHandler) : Update bool :=
  let finish := match send_get_record_result alive id th with
                | (th, ans, Ok _) => (th, ans, Ok true)
                | (th, ans, Err e) => (th, ans, Err e)
                end in
  let failed (answer : list bytes → result (option KadRecord * list bytes) ClientError) : Update bool :=
    match take_get_record id th with
    | None => unknown id th
    | Some (responder, _, holders, th) => send_then alive id th responder (A_Record (answer ((hm_iter holders).*1))) false
    end in
  match res with
  | FoundRecord peer record =>
    let holders := default ∅ (th_get_record_accumulator th !! id) in
    let holders := match peer with Some peer_id => <[peer_id := record]> holders | None => holders end in
    let th := with_kad th (th_closest_peers th) (th_put_record_kad th) (th_get_record th)
                (<[id := holders]> (th_get_record_accumulator th)) in
    match th_get_record th !! id, get_max_content_holders_count holders with
    | Some (_, quorum), Some max_content_holders =>
      if (get_quorum_amount quorum <=? max_content_holders)%nat then
        match send_get_record_result alive id th with
        | (th, ans, Ok _) => (th, ans, Ok true)
        | (th, ans, Err e) => (th, ans, Err e)
        end
      else (th, [], Ok false)
    | _, _ => (th, [], Ok false)
    end
  | FinishedWithNoAdditionalRecord => finish
  | RecordNotFound | RecordQuorumFailed => failed (λ peers, Ok (None, peers))
  | RecordTimeout => failed (λ peers, Err (GetRecordTimeout peers))
  end.

(** [PutRecordOk], or the peers that stored the record before the quorum failed or the time was up. *)
Inductive PutRecordProgress :=
  | PutRecordOk
  | PutQuorumFailed (success : list bytes) (quorum : nat)
  | PutTimeout (success : list bytes).

Definition update_put_record_kad (alive : Responder → bool) (id : Z) (res : PutRecordProgress) (th : TaskHandler)
    : Update unit :=
  match th_put_record_kad th !! id with
  | None => unknown id th
  | Some responder =>
    let th := with_kad th (th_closest_peers th) (delete id (th_put_record_kad th)) (th_get_record th)
                (th_get_record_accumulator th) in
    send_then alive id th responder
      (A_Put match res with
             | PutRecordOk => Ok tt
             | PutQuorumFailed success quorum => Err (PutRecordQuorumFailed success quorum)
             | PutTimeout success => Err (PutRecordTimeout success)
             end) tt
  end.

Definition update_put_record_req (alive : Responder → bool) (id : Z) (res : result unit MessageError) (th : TaskHandler)
    : Update unit :=
  match th_put_record_req th !! id with
  | None => unknown id th
  | Some (responder, peer_info) =>
    let th := with_put_req th (delete id (th_put_record_req th)) in
    send_then alive id th responder
      (A_Put match res with
             | Ok _ => Ok tt
             | Err (ME_OutdatedRecordCounter counter expected) => Err (OutdatedRecordRejected counter expected)
             | Err (ME_TopologyVerificationFailed target valid total closest node_peers paid_peers) =>
               Err (TopologyVerificationRejected (pi_peer_id peer_info) target valid total closest node_peers paid_peers)
             | Err e => Err (PutRecordRejected (message_error_text e))
             end) tt
  end.

(** The texts of [InvalidQuote] name the peer. *)
Definition verify_quote (quote_res : result PaymentQuote MessageError) (peer_address : NetworkAddress)
    (expected_data_type : Z) : result (option PaymentQuote) ClientError :=
  match quote_res with
  | Err (ME_RecordExists _) => Ok None
  | Err e => Err (GetQuoteError (message_error_text e))
  | Ok quote =>
    match as_peer_id peer_address with
    | None => Err (InvalidQuote (text "Peer address is not a peer id"))
    | Some peer_id =>
      if negb (check_is_signed_by_claimed_peer quote peer_id) then
        Err (InvalidQuote (text "Quote is not signed by claimed peer"))
      else if negb (qm_data_type (pq_quoting_metrics quote) =? expected_data_type) then
        Err (InvalidQuote (text "Quote returned with wrong data type by peer"))
      else Ok (Some quote)
    end
  end.

Definition update_get_quote (alive : Responder → bool) (id : Z) (quote_res : result PaymentQuote MessageError)
    (peer_address : NetworkAddress) (th : TaskHandler) : Update unit :=
  match th_get_cost th !! id with
  | None => unknown id th
  | Some (resp, data_type, peer) =>
    let th := with_cost th (delete id (th_get_cost th)) in
    send_then alive id th resp
      (A_Quote match verify_quote quote_res peer_address data_type with
               | Ok (Some quote) => Ok (Some (peer, quote))
               | Ok None => Ok None
               | Err e => Err e
               end) tt
  end.

Definition update_get_version (alive : Responder → bool) (id : Z) (version : bytes) (th : TaskHandler) : Update unit :=
  match th_get_version th !! id with
  | None => unknown id th
  | Some responder =>
    let th := with_direct th (delete id (th_get_version th)) (th_get_record_from_peer th)
                (th_get_storage_proofs_from_peer th) (th_get_closest_peers_from_peer th) (th_get_merkle_candidate_quote th) in
    send_then alive id th responder (A_Version (Ok version)) tt
  end.

Definition update_get_record_from_peer (alive : Responder → bool) (id : Z)
    (res : result (NetworkAddress * bytes) MessageError) (th : TaskHandler) : Update unit :=
  match th_get_record_from_peer th !! id with
  | None => unknown id th
  | Some responder =>
    let th := with_direct th (th_get_version th) (delete id (th_get_record_from_peer th))
                (th_get_storage_proofs_from_peer th) (th_get_closest_peers_from_peer th) (th_get_merkle_candidate_quote th) in
    send_then alive id th responder
      (A_RecordFromPeer match res with
         | Ok (holder, record_content) =>
           Ok (Some {| rec_key := to_record_key holder; rec_value := record_content; rec_publisher := None; rec_expires := None |})
         | Err _ => Ok None
         end) tt
  end.

Definition update_get_storage_proofs_from_peer (alive : Responder → bool) (id : Z) (quote : option PaymentQuote)
    (storage_proofs : StorageProofs) (th : TaskHandler) : Update unit :=
  match th_get_storage_proofs_from_peer th !! id with
  | None => unknown id th
  | Some responder =>
    let th := with_direct th (th_get_version th) (th_get_record_from_peer th)
                (delete id (th_get_storage_proofs_from_peer th)) (th_get_closest_peers_from_peer th)
                (th_get_merkle_candidate_quote th) in
    send_then alive id th responder (A_StorageProofs (Ok (quote, storage_proofs))) tt
  end.

Definition update_get_closest_peers_from_peer (alive : Responder → bool) (id : Z)
    (peers : list (NetworkAddress * list bytes)) (th : TaskHandler) : Update unit :=
  match th_get_closest_peers_from_peer th !! id with
  | None => unknown id th
  | Some responder =>
    let th := with_direct th (th_get_version th) (th_get_record_from_peer th) (th_get_storage_proofs_from_peer th)
                (delete id (th_get_closest_peers_from_peer th)) (th_get_merkle_candidate_quote th) in
    send_then alive id th responder (A_PeersFromPeer (Ok peers)) tt
  end.

Definition update_get_merkle_candidate_quote (alive : Responder → bool) (id : Z)
    (res : result MerklePaymentCandidateNode MessageError) (th : TaskHandler) : Update unit :=
  match th_get_merkle_candidate_quote th !! id with
  | None => unknown id th
  | Some responder =>
    let th := with_direct th (th_get_version th) (th_get_record_from_peer th) (th_get_storage_proofs_from_peer th)
                (th_get_closest_peers_from_peer th) (delete id (th_get_merkle_candidate_quote th)) in
    send_then alive id th responder
      (A_MerkleCandidate (map_err (λ e, GetQuoteError (message_error_text e)) res)) tt
  end.

(** A request failed: whichever task it was for is told so. *)
Definition terminate_query (alive : Responder → bool) (id : Z) (error : OutboundFailure) (th : TaskHandler) : Update unit :=
  let version := th_get_version th in
  let from_peer := th_get_record_from_peer th in
  let proofs := th_get_storage_proofs_from_peer th in
  let closest := th_get_closest_peers_from_peer th in
  let merkle := th_get_merkle_candidate_quote th in
  match th_get_cost th !! id with
  | Some (resp, _, _) =>
    send_then alive id (with_cost th (delete id (th_get_cost th))) resp
      (A_Quote (Err (GetQuoteError (outbound_failure_text error)))) tt
  | None =>
  match th_put_record_req th !! id with
  | Some (responder, _) =>
    send_then alive id (with_put_req th (delete id (th_put_record_req th))) responder
      (A_Put (Err (if contains_text (text "Small(1)") (outbound_failure_text error) then IncompatibleNetworkProtocol
                   else PutRecordRejected (outbound_failure_text error)))) tt
  | None =>
  match from_peer !! id with
  | Some responder =>
    send_then alive id (with_direct th version (delete id from_peer) proofs closest merkle) responder
      (A_RecordFromPeer (Ok None)) tt
  | None =>
  match proofs !! id with
  | Some responder =>
    send_then alive id (with_direct th version from_peer (delete id proofs) closest merkle) responder
      (A_StorageProofs (Ok (None, []))) tt
  | None =>
  match closest !! id with
  | Some responder =>
    send_then alive id (with_direct th version from_peer proofs (delete id closest) merkle) responder
      (A_PeersFromPeer (Ok [])) tt
  | None =>
  match merkle !! id with
  | Some responder =>
    send_then alive id (with_direct th version from_peer proofs closest (delete id merkle)) responder
      (A_MerkleCandidate (Err (GetQuoteError (outbound_failure_text error)))) tt
  | None =>
  match version !! id with
  | Some responder =>
    send_then alive id (with_direct th (delete id version) from_peer proofs closest merkle) responder
      (A_Version (Err (GetVersionError (outbound_failure_text error)))) tt
  | None => (th, [], Ok tt)
  end end end end end end end.

(** ** The driver: swarm_events.rs and driver/mod.rs *)

(** The results of kademlia queries. *)
Inductive QueryResult :=
  | QR_GetClosestPeers (res : option (list PeerInfo))
  | QR_GetRecord (res : GetRecordProgress)
  | QR_PutRecord (res : PutRecordProgress)
  | QR_Other.

(** [handle_kad_progress_event]; the flag is whether the query is told to finish. *)
Definition handle_kad_progress_event (alive : Responder → bool) (id : Z) (res : QueryResult) (th : TaskHandler)
    : Update bool :=
  if negb (th_contains id th) then (th, [], Ok false)
  else
    let done (u : Update unit) : Update bool :=
      match u with (th, ans, Ok _) => (th, ans, Ok false) | (th, ans, Err e) => (th, ans, Err e) end in
    match res with
    | QR_GetClosestPeers res => done (update_closest_peers alive id res th)
    | QR_GetRecord res => update_get_record alive id res th
    | QR_PutRecord res => done (update_put_record_kad alive id res th)
    | QR_Other => (th, [], Ok false)
    end.

Definition handle_request_resp_event (alive : Responder → bool) (request_id : Z) (response : Response) (th : TaskHandler)
    : Update unit :=
  if negb (contains_query request_id th) then (th, [], Ok tt)
  else
    match response with
    | Resp_Query (R_GetStoreQuote quote peer_address storage_proofs) =>
      match update_get_quote alive request_id quote peer_address th with
      | (th, ans, Ok _) => (th, ans, Ok tt)
      | (th, ans, Err _) =>
        let '(th, ans', r) := update_get_storage_proofs_from_peer alive request_id (rok quote) storage_proofs th in
        (th, ans ++ ans', r)
      end
    | Resp_Query (R_GetMerkleCandidateQuote res) => update_get_merkle_candidate_quote alive request_id res th
    | Resp_Query (R_PutRecord res _ _) => update_put_record_req alive request_id res th
    | Resp_Query (R_GetVersion _ version) => update_get_version alive request_id version th
    | Resp_Query (R_GetReplicatedRecord res) => update_get_record_from_peer alive request_id res th
    | Resp_Query (R_GetClosestPeers _ peers _) => update_get_closest_peers_from_peer alive request_id peers th
    | Resp_Query (R_CheckNodeInProblem _ _ _) | Resp_Query (R_GetChunkExistenceProof _) | Resp_Cmd _ =>
      terminate_query alive request_id unsupported_protocols th
    end.

Definition handle_request_resp_outbound_failure (alive : Responder → bool) (request_id : Z) (error : OutboundFailure)
    (th : TaskHandler) : Update unit :=
  if negb (contains_query request_id th) then (th, [], Ok tt) else terminate_query alive request_id error th.

(** What [process_task] asks of libp2p. *)
Inductive NetworkCall :=
  | KadGetClosestPeers (key : bytes) (n : nat)
  | KadGetRecord (key : bytes)
  | KadPutRecordTo (record : KadRecord) (to : list bytes) (quorum : Quorum)
  | SendRequest (peer : PeerInfo) (query : Query).

(** [process_task], with the id libp2p gives the query or request and the connections made so far. *)
Definition process_task (alive : Responder → bool) (id : Z) (connections_made : Z) (task : NetworkTask) (th : TaskHandler)
    : TaskHandler * Answers * list NetworkCall :=
  match task with
  | GetClosestPeers addr _ n => (insert_task id task th, [], [KadGetClosestPeers (to_record_key addr) n])
  | GetRecord addr _ _ => (insert_task id task th, [], [KadGetRecord (to_record_key addr)])
  | PutRecordKad record to quorum resp =>
    if bool_decide (to = []) then (th, [(resp, A_Put (Err PutRecordMissingTargets))], [])
    else (insert_task id task th, [], [KadPutRecordTo record (pi_peer_id <$> to) quorum])
  | PutRecordReq record to _ =>
    (insert_query id task th, [],
     [SendRequest to (Q_PutRecord (NA_PeerId (pi_peer_id to)) (rec_value record) (NA_RecordKey (rec_key record)))])
  | GetQuote addr peer data_type data_size _ =>
    (insert_query id task th, [], [SendRequest peer (Q_GetStoreQuote addr data_type data_size None 0)])
  | GetVersion peer _ => (insert_query id task th, [], [SendRequest peer (Q_GetVersion (NA_PeerId (pi_peer_id peer)))])
  | GetRecordFromPeer addr peer _ =>
    (insert_query id task th, [], [SendRequest peer (Q_GetReplicatedRecord (NA_PeerId (pi_peer_id peer)) addr)])
  | GetStorageProofsFromPeer addr peer nonce difficulty data_type data_size _ =>
    (insert_query id task th, [],
     [SendRequest peer (Q_GetStoreQuote addr (get_index data_type) data_size (Some nonce) difficulty)])
  | GetClosestPeersFromPeer addr peer num_of_peers _ =>
    (insert_query id task th, [], [SendRequest peer (Q_GetClosestPeers addr num_of_peers None true)])
  | ConnectionsMade resp => (th, [(resp, A_Connections connections_made)], [])
  | GetMerkleCandidateQuote addr peer data_type data_size timestamp _ =>
    (insert_query id task th, [], [SendRequest peer (Q_GetMerkleCandidateQuote addr data_type data_size timestamp)])
  end.
End tasks.
