(* ===== verification/TaskHandlerProps.v ===== *)
(** * Properties of the client's task handler

    Every task handed to the driver is answered exactly once or still pending; a record is only
    returned when a quorum of peers gave that very record; what the answer to a finished query is;
    and the response that leaves a task pending for good. *)

From stdpp Require Import base gmap countable strings list.
From Stdlib Require Import ZArith Lia.
From S2P Require Import Prelude Text Protocol RecordCache RecordStore RecordStoreProps MerkleTree MerkleTreeProps.
From S2P Require Import Payments PaymentsProps Messages Driver TaskHandler.

(** ** Responders of a map *)

Section values.
Context {A : Type} (f : A → Responder).
Implicit Types m : gmap Z A.

Definition responders m : list Responder := f <$> (map_to_list m).*2.

Lemma responders_insert m i x : m !! i = None → responders (<[i := x]> m) ≡ₚ f x :: responders m.
Proof. intros Hi. unfold responders. by rewrite map_to_list_insert. Qed.

Lemma responders_delete m i x : m !! i = Some x → responders m ≡ₚ f x :: responders (delete i m).
Proof. intros Hi. unfold responders. by rewrite <- (map_to_list_delete m i x Hi). Qed.
End values.

Section conservation.
Context `{Bls, Libp2pIdentity, Digests, !Serde QuotingMetrics, HashOrder, Kad, Hex, XorNameLib, !ErrorText}.
Implicit Types th : TaskHandler.

(** The responders still waiting. *)
Definition pending th : list Responder :=
  responders id (th_closest_peers th) ++ responders id (th_put_record_kad th) ++
  responders fst (th_put_record_req th) ++ responders (λ x, x.1.1) (th_get_cost th) ++
  responders fst (th_get_record th) ++ responders id (th_get_version th) ++
  responders id (th_get_record_from_peer th) ++ responders id (th_get_storage_proofs_from_peer th) ++
  responders id (th_get_closest_peers_from_peer th) ++ responders id (th_get_merkle_candidate_quote th).

(** Whoever is no longer waiting was sent an answer, and nobody else. *)
Definition conserves {T} th (u : Update T) : Prop := pending th ≡ₚ u.1.2.*1 ++ pending u.1.1.

Lemma conserves_same {T} th (r : result T TaskHandlerError) : conserves th (th, [], r).
Proof. unfold conserves. reflexivity. Qed.

Ltac deleted :=
  match goal with
  | E : ?m !! ?i = Some ?x |- context [responders ?f ?m] => rewrite (responders_delete f m i x E)
  end.

Ltac conserve := unfold conserves, send_then, unknown, pending; simpl; try deleted; simpl; solve_Permutation.

Lemma update_closest_peers_conserves alive i res th : conserves th (update_closest_peers alive i res th).
Proof. unfold update_closest_peers. case_match eqn:E; [|apply conserves_same]. conserve. Qed.

Lemma update_put_record_kad_conserves alive i res th : conserves th (update_put_record_kad alive i res th).
Proof. unfold update_put_record_kad. case_match eqn:E; [|apply conserves_same]. conserve. Qed.

Lemma send_get_record_result_conserves alive i th : conserves th (send_get_record_result alive i th).
Proof.
  unfold send_get_record_result, take_get_record. destruct (th_get_record th !! i) as [[resp q]|] eqn:E; [|apply conserves_same]. conserve.
Qed.

Lemma update_get_record_conserves alive i res th : conserves th (update_get_record alive i res th).
Proof.
  unfold update_get_record. cbv zeta. destruct res as [peer record| | | |].
  - set (th1 := with_kad _ _ _ _ _). change (th_get_record th1) with (th_get_record th).
    assert (∀ {T} (u : Update T), conserves th1 u → conserves th u) as Hp by done.
    destruct (th_get_record th !! i) as [[resp q]|]; [|apply Hp, conserves_same].
    destruct (get_max_content_holders_count _) as [n|]; [|apply Hp, conserves_same].
    destruct (_ <=? n)%nat; [|apply Hp, conserves_same]. apply Hp.
    pose proof (send_get_record_result_conserves alive i th1) as Hc. unfold conserves in *.
    by destruct (send_get_record_result alive i th1) as [[? ?] [|]].
  - pose proof (send_get_record_result_conserves alive i th) as Hc. unfold conserves in *.
    by destruct (send_get_record_result alive i th) as [[? ?] [|]].
  - unfold take_get_record. destruct (th_get_record th !! i) as [[resp q]|] eqn:E; [|apply conserves_same]. conserve.
  - unfold take_get_record. destruct (th_get_record th !! i) as [[resp q]|] eqn:E; [|apply conserves_same]. conserve.
  - unfold take_get_record. destruct (th_get_record th !! i) as [[resp q]|] eqn:E; [|apply conserves_same]. conserve.
Qed.

Lemma update_put_record_req_conserves alive i res th : conserves th (update_put_record_req alive i res th).
Proof. unfold update_put_record_req. destruct (th_put_record_req th !! i) as [[resp p]|] eqn:E; [|apply conserves_same]. conserve. Qed.

Lemma update_get_quote_conserves alive i res a th : conserves th (update_get_quote alive i res a th).
Proof. unfold update_get_quote. destruct (th_get_cost th !! i) as [[[resp d] p]|] eqn:E; [|apply conserves_same]. conserve. Qed.

Lemma update_get_version_conserves alive i v th : conserves th (update_get_version alive i v th).
Proof. unfold update_get_version. case_match eqn:E; [|apply conserves_same]. conserve. Qed.

Lemma update_get_record_from_peer_conserves alive i r th : conserves th (update_get_record_from_peer alive i r th).
Proof. unfold update_get_record_from_peer. case_match eqn:E; [|apply conserves_same]. conserve. Qed.

Lemma update_storage_proofs_conserves alive i q p th : conserves th (update_get_storage_proofs_from_peer alive i q p th).
Proof. unfold update_get_storage_proofs_from_peer. case_match eqn:E; [|apply conserves_same]. conserve. Qed.

Lemma update_peers_from_peer_conserves alive i p th : conserves th (update_get_closest_peers_from_peer alive i p th).
Proof. unfold update_get_closest_peers_from_peer. case_match eqn:E; [|apply conserves_same]. conserve. Qed.

Lemma update_merkle_conserves alive i r th : conserves th (update_get_merkle_candidate_quote alive i r th).
Proof. unfold update_get_merkle_candidate_quote. case_match eqn:E; [|apply conserves_same]. conserve. Qed.

Lemma terminate_query_conserves alive i e th : conserves th (terminate_query alive i e th).
Proof.
  unfold terminate_query. cbv zeta.
  destruct (th_get_cost th !! i) as [[[resp d] p]|] eqn:E1; [conserve|].
  destruct (th_put_record_req th !! i) as [[resp p]|] eqn:E2; [conserve|].
  destruct (th_get_record_from_peer th !! i) eqn:E3; [conserve|].
  destruct (th_get_storage_proofs_from_peer th !! i) eqn:E4; [conserve|].
  destruct (th_get_closest_peers_from_peer th !! i) eqn:E5; [conserve|].
  destruct (th_get_merkle_candidate_quote th !! i) eqn:E6; [conserve|].
  destruct (th_get_version th !! i) eqn:E7; [conserve|apply conserves_same].
Qed.

Lemma handle_kad_conserves alive i res th : conserves th (handle_kad_progress_event alive i res th).
Proof.
  unfold handle_kad_progress_event. destruct (negb _); [apply conserves_same|]. destruct res as [res|res|res|]; [| | |apply conserves_same].
  - pose proof (update_closest_peers_conserves alive i res th) as Hc. unfold conserves in *.
    by destruct (update_closest_peers _ _ _ _) as [[? ?] [|]].
  - apply update_get_record_conserves.
  - pose proof (update_put_record_kad_conserves alive i res th) as Hc. unfold conserves in *.
    by destruct (update_put_record_kad _ _ _ _) as [[? ?] [|]].
Qed.

Lemma handle_response_conserves alive i resp th : conserves th (handle_request_resp_event alive i resp th).
Proof.
  unfold handle_request_resp_event. destruct (negb _); [apply conserves_same|].
  destruct resp as [cmd|[quote a proofs| | | | | | |]]; eauto using terminate_query_conserves, update_get_record_from_peer_conserves,
    update_peers_from_peer_conserves, update_get_version_conserves, update_put_record_req_conserves, update_merkle_conserves.
  pose proof (update_get_quote_conserves alive i quote a th) as Hc.
  destruct (update_get_quote alive i quote a th) as [[th1 ans1] [|e]]; [done|].
  pose proof (update_storage_proofs_conserves alive i (rok quote) proofs th1) as Hc2.
  destruct (update_get_storage_proofs_from_peer _ _ _ _ _) as [[th2 ans2] r]. unfold conserves in *. simpl in *.
  rewrite Hc, Hc2, fmap_app. solve_Permutation.
Qed.

(** ** Runs *)

Definition task_responder (task : NetworkTask) : Responder :=
  match task with
  | GetClosestPeers _ resp _ | GetRecord _ _ resp | PutRecordKad _ _ _ resp | PutRecordReq _ _ resp
  | GetQuote _ _ _ _ resp | GetVersion _ resp | GetRecordFromPeer _ _ resp | GetStorageProofsFromPeer _ _ _ _ _ _ resp
  | GetClosestPeersFromPeer _ _ _ resp | ConnectionsMade resp | GetMerkleCandidateQuote _ _ _ _ _ resp => resp
  end.

Inductive HandlerEvent :=
  | EvTask (i connections_made : Z) (task : NetworkTask)
  | EvKad (i : Z) (res : QueryResult)
  | EvResponse (i : Z) (response : Response)
  | EvFailure (i : Z) (error : OutboundFailure).

Definition client_event (alive : Responder → bool) (ev : HandlerEvent) th : TaskHandler * Answers :=
  match ev with
  | EvTask i n task => (process_task alive i n task th).1
  | EvKad i res => (handle_kad_progress_event alive i res th).1
  | EvResponse i response => (handle_request_resp_event alive i response th).1
  | EvFailure i error => (handle_request_resp_outbound_failure alive i error th).1
  end.

(** libp2p gives every query and every request an id of its own. *)
Definition event_fresh (ev : HandlerEvent) th : Prop :=
  match ev with
  | EvTask i _ (GetClosestPeers _ _ _ | GetRecord _ _ _ | PutRecordKad _ _ _ _) => th_contains i th = false
  | EvTask i _ _ => contains_query i th = false
  | _ => True
  end.

(** What the users of the network see: who asked, and who was told what they asked for. *)
Inductive Exchange := Asked (r : Responder) | Told (r : Responder).

Definition event_exchanges (alive : Responder → bool) (ev : HandlerEvent) th : list Exchange :=
  match ev with EvTask _ _ task => [Asked (task_responder task)] | _ => [] end ++
  (Told <$> (client_event alive ev th).2.*1).

(** Events with the receivers that are there when they are handled. *)
Fixpoint run_client (l : list ((Responder → bool) * HandlerEvent)) th : TaskHandler * Answers * list Exchange :=
  match l with
  | [] => (th, [], [])
  | (alive, ev) :: l' =>
    let '(th', ans) := client_event alive ev th in
    let '(th'', ans', exchanges) := run_client l' th' in
    (th'', ans ++ ans', event_exchanges alive ev th ++ exchanges)
  end.

Fixpoint run_fresh (l : list ((Responder → bool) * HandlerEvent)) th : Prop :=
  match l with
  | [] => True
  | (alive, ev) :: l' => event_fresh ev th ∧ run_fresh l' (client_event alive ev th).1
  end.

(** The specification: who asked waits until told. *)
Inductive exchanges_from : list Responder → list Exchange → list Responder → Prop :=
  | exchanges_nil w w' : w ≡ₚ w' → exchanges_from w [] w'
  | exchanges_asked w r l w' : exchanges_from (r :: w) l w' → exchanges_from w (Asked r :: l) w'
  | exchanges_told w w1 r l w' : w ≡ₚ r :: w1 → exchanges_from w1 l w' → exchanges_from w (Told r :: l) w'.

Lemma exchanges_perm w1 w2 l w' : w1 ≡ₚ w2 → exchanges_from w1 l w' → exchanges_from w2 l w'.
Proof.
  intros Hw Hl. revert w2 Hw. induction Hl as [w w' Hww|w r l w' _ IH|w w1 r l w' Hr Hl _]; intros w2 Hw.
  - constructor. by rewrite <- Hw.
  - constructor. apply IH. by rewrite Hw.
  - eapply exchanges_told; [|exact Hl]. by rewrite <- Hw.
Qed.

Lemma exchanges_told_all w ans l w' :
  exchanges_from w l w' → exchanges_from (ans ++ w) ((Told <$> ans) ++ l) w'.
Proof.
  intros Hl. induction ans as [|r ans IH]; [done|]. simpl. by eapply exchanges_told.
Qed.

(** A task is either answered at once or pending. *)
Lemma process_task_pending alive i n task th :
  event_fresh (EvTask i n task) th →
  task_responder task :: pending th ≡ₚ (process_task alive i n task th).1.2.*1 ++ pending (process_task alive i n task th).1.1.
Proof.
  intros Hf. destruct task; simpl in Hf; unfold th_contains, contains_query in Hf; rewrite ?orb_false_iff, ?contains_key_false in Hf;
    simpl; try (case_bool_decide; simpl);
    try (unfold pending; simpl; rewrite responders_insert by tauto; simpl; solve_Permutation); solve_Permutation.
Qed.

Lemma client_event_exchanges alive ev th l w' :
  event_fresh ev th → exchanges_from (pending (client_event alive ev th).1) l w' →
  exchanges_from (pending th) (event_exchanges alive ev th ++ l) w'.
Proof.
  intros Hf Hl. unfold event_exchanges. destruct ev as [i n task|i res|i resp|i e]; cbn [client_event] in *; rewrite <- app_assoc.
  - constructor. eapply exchanges_perm; [symmetry; by apply (process_task_pending alive)|].
    by apply exchanges_told_all.
  - eapply exchanges_perm; [symmetry; apply handle_kad_conserves|]. by apply exchanges_told_all.
  - eapply exchanges_perm; [symmetry; apply handle_response_conserves|]. by apply exchanges_told_all.
  - eapply exchanges_perm; [|by apply exchanges_told_all].
    unfold handle_request_resp_outbound_failure. destruct (negb _); [done|]. symmetry. apply terminate_query_conserves.
Qed.

Lemma run_client_exchanges l th :
  run_fresh l th → exchanges_from (pending th) (run_client l th).2 (pending (run_client l th).1.1).
Proof.
  revert th. induction l as [|[alive ev] l IH]; intros th Hf; [by constructor|]. cbn [run_fresh run_client] in *.
  destruct Hf as [Hev Hf]. specialize (IH _ Hf).
  assert (∀ w', exchanges_from (pending (client_event alive ev th).1) (run_client l (client_event alive ev th).1).2 w' →
    exchanges_from (pending th) (event_exchanges alive ev th ++ (run_client l (client_event alive ev th).1).2) w') as Hstep
    by (intros w'; by apply client_event_exchanges).
  specialize (Hstep _ IH). destruct (client_event alive ev th) as [th' ans]. cbn [fst snd] in *.
  by destruct (run_client l th') as [[th'' ans'] ex].
Qed.

(** Who is told, in the order of the run. *)
Definition told (l : list Exchange) : list Responder := omap (λ x, match x with Told r => Some r | _ => None end) l.
Definition asked (l : list Exchange) : list Responder := omap (λ x, match x with Asked r => Some r | _ => None end) l.

Lemma exchanges_balance w l w' : exchanges_from w l w' → w ++ asked l ≡ₚ told l ++ w'.
Proof.
  induction 1 as [w w' Hw|w r l w' _ IH|w w1 r l w' Hr _ IH]; simpl.
  - by rewrite app_nil_r.
  - rewrite <- IH. solve_Permutation.
  - rewrite Hr. simpl. by rewrite IH.
Qed.

Lemma run_client_told l th : told (run_client l th).2 = (run_client l th).1.2.*1.
Proof.
  revert th. induction l as [|[alive ev] l IH]; intros th; [done|]. cbn [run_client].
  assert (told (event_exchanges alive ev th) = (client_event alive ev th).2.*1) as Hev.
  { unfold event_exchanges, told. rewrite omap_app.
    assert (∀ rs : list Responder, omap (λ x, match x with Told r => Some r | _ => None end) (Told <$> rs) = rs) as Htold
      by (induction rs as [|r rs IHrs]; [done|]; cbn; by f_equal).
    rewrite Htold. by destruct ev. }
  specialize (IH (client_event alive ev th).1).
  destruct (client_event alive ev th) as [th' ans]. cbn [fst snd] in *.
  destruct (run_client l th') as [[th'' ans'] ex]. cbn [fst snd] in *. unfold told in *. by rewrite omap_app, fmap_app, Hev, IH.
Qed.

(** C10: the client's driver answers as specified. Whatever tasks, query results, responses and
    failures it handles, who asked waits until told, nobody is told who is not waiting, and those
    told together with those whose tasks are pending are exactly those who asked; so who asks
    once is told at most once, and not while the task is pending. *)
Theorem client_answers_once l th ans exchanges :
  run_fresh l task_handler_new → run_client l task_handler_new = (th, ans, exchanges) →
  exchanges_from [] exchanges (pending th) ∧ asked exchanges ≡ₚ ans.*1 ++ pending th ∧
  (NoDup (asked exchanges) → NoDup (ans.*1 ++ pending th)).
Proof.
  intros Hf Hrun. pose proof (run_client_exchanges l _ Hf) as Hex. pose proof (run_client_told l task_handler_new) as Htold.
  rewrite Hrun in Hex, Htold. cbn [fst snd] in *. split; [exact Hex|].
  pose proof (exchanges_balance _ _ _ Hex) as Hb. rewrite Htold in Hb. split; [exact Hb|]. by rewrite <- Hb.
Qed.
End conservation.

(** ** Records *)

Section records.
Context `{Bls, Libp2pIdentity, Digests, !Serde QuotingMetrics, HashOrder, Kad, Hex, XorNameLib, !ErrorText}.
Implicit Types (th : TaskHandler) (holders : gmap bytes KadRecord) (hist : list HandlerEvent).

Lemma records_uniq_elem records r : r ∈ records_uniq records ↔ r ∈ records.
Proof.
  unfold records_uniq. assert (∀ acc, r ∈ foldl (λ acc x, if bool_decide (x ∈ acc) then acc else acc ++ [x]) acc records
    ↔ r ∈ acc ∨ r ∈ records) as Hgen; [|rewrite Hgen; set_solver].
  induction records as [|x records IH]; intros acc; simpl; [set_solver|]. rewrite IH. case_bool_decide; set_solver.
Qed.

Lemma records_uniq_NoDup records : NoDup (records_uniq records).
Proof.
  unfold records_uniq. assert (∀ acc, NoDup acc → NoDup (foldl (λ acc x, if bool_decide (x ∈ acc) then acc else acc ++ [x]) acc records))
    as Hgen; [|apply Hgen, NoDup_nil_2].
  induction records as [|x records IH]; intros acc Hacc; simpl; [done|]. apply IH. case_bool_decide as Hx; [done|].
  apply NoDup_app. split; [done|]. split; [set_solver|apply NoDup_singleton].
Qed.

(** One distinct record: all of them are it. *)
Lemma records_uniq_one records r : records_uniq records = [r] ↔ records ≠ [] ∧ ∀ x, x ∈ records → x = r.
Proof.
  pose proof (λ x, records_uniq_elem records x) as Hel. pose proof (records_uniq_NoDup records) as Hnd. split.
  - intros Hone. rewrite Hone in Hel. split; [|set_solver]. intros ->. specialize (Hel r). set_solver.
  - intros [Hne Hall]. destruct (records_uniq records) as [|a [|b l]].
    + destruct records as [|x records]; [done|]. specialize (Hel x). set_solver.
    + f_equal. apply Hall, Hel. set_solver.
    + assert (a = r) by (apply Hall, Hel; set_solver). assert (b = r) by (apply Hall, Hel; set_solver). subst.
      inversion Hnd. set_solver.
Qed.

Lemma hm_iter_snd holders r : r ∈ (hm_iter holders).*2 ↔ ∃ p, holders !! p = Some r.
Proof.
  rewrite list_elem_of_fmap. split.
  - intros ([p r'] & -> & Hp%hm_iter_elem_of). eauto.
  - intros [p Hp%hm_iter_elem_of]. by exists (p, r).
Qed.

Lemma hm_iter_fst holders p : p ∈ (hm_iter holders).*1 ↔ is_Some (holders !! p).
Proof.
  rewrite list_elem_of_fmap. split.
  - intros ([p' r] & -> & Hp%hm_iter_elem_of). eauto.
  - intros [r Hp%hm_iter_elem_of]. by exists (p, r).
Qed.

(** What an answer says of the holders. *)
Definition answer_of_holders (quorum : Quorum) holders (answer : result (option KadRecord * list bytes) ClientError) : Prop :=
  match answer with
  | Err (GetRecordQuorumFailed got expected hs) =>
    (size holders < get_quorum_amount quorum)%nat ∧ got = size holders ∧ expected = get_quorum_amount quorum ∧ hs = holders
  | Err (SplitRecord hs) =>
    (get_quorum_amount quorum ≤ size holders)%nat ∧ hs = holders ∧
    ∃ p1 p2 r1 r2, holders !! p1 = Some r1 ∧ holders !! p2 = Some r2 ∧ r1 ≠ r2
  | Err _ => False
  | Ok (None, peers) => holders = ∅ ∧ get_quorum_amount quorum = 0%nat ∧ peers = []
  | Ok (Some r, peers) =>
    (get_quorum_amount quorum ≤ length peers)%nat ∧ NoDup peers ∧
    (∀ p, p ∈ peers ↔ is_Some (holders !! p)) ∧ ∀ p, p ∈ peers → holders !! p = Some r
  end.

Lemma get_record_answer_spec quorum holders : answer_of_holders quorum holders (get_record_answer quorum holders).
Proof.
  unfold get_record_answer, answer_of_holders. destruct (Nat.ltb_spec (size holders) (get_quorum_amount quorum)) as [Hlt|Hge]; [done|].
  pose proof (records_uniq_elem (hm_iter holders).*2) as Hel. pose proof (records_uniq_NoDup (hm_iter holders).*2) as Hnd.
  destruct (records_uniq (hm_iter holders).*2) as [|r [|r2 l]] eqn:E.
  - assert (holders = ∅) as ->.
    { apply map_eq. intros p. rewrite lookup_empty. destruct (holders !! p) as [r|] eqn:Hp; [|done].
      assert (r ∈ (hm_iter holders).*2) as Hr by (apply hm_iter_snd; eauto). apply Hel in Hr. set_solver. }
    rewrite map_size_empty in Hge. split_and!; [done|lia|]. apply nil_length_inv. by rewrite length_fmap, hm_iter_length.
  - apply records_uniq_one in E as [Hne Hall]. rewrite length_fmap, hm_iter_length.
    split_and!; [done|apply (NoDup_fmap_1 id)|apply hm_iter_fst|].
    + rewrite list_fmap_id. apply hm_iter_NoDup_fst.
    + intros p [x Hp]%hm_iter_fst. rewrite Hp. f_equal. apply Hall, hm_iter_snd. eauto.
  - split_and!; [done..|].
    assert (∃ p, holders !! p = Some r) as [p1 H1'] by (apply hm_iter_snd, Hel; set_solver).
    assert (∃ p, holders !! p = Some r2) as [p2 H2'] by (apply hm_iter_snd, Hel; set_solver).
    exists p1, p2, r, r2. split_and!; [done..|]. intros ->. inversion Hnd. set_solver.
Qed.
(** What the record queries of a handler rest on, after a history of events. *)
Definition accounted hist th : Prop :=
  (∀ i resp q, th_get_record th !! i = Some (resp, q) → ∃ n addr, EvTask i n (GetRecord addr q resp) ∈ hist) ∧
  (∀ i holders p r, th_get_record_accumulator th !! i = Some holders → holders !! p = Some r →
    EvKad i (QR_GetRecord (FoundRecord (Some p) r)) ∈ hist).

(** A record that is returned was asked for, and a quorum of distinct peers gave this very record. *)
Definition backed hist (a : Responder * Answer) : Prop :=
  match a with
  | (resp, A_Record (Ok (Some r, peers))) =>
    ∃ i n addr q, EvTask i n (GetRecord addr q resp) ∈ hist ∧ (get_quorum_amount q ≤ length peers)%nat ∧ NoDup peers ∧
      ∀ p, p ∈ peers → EvKad i (QR_GetRecord (FoundRecord (Some p) r)) ∈ hist
  | _ => True
  end.

(** The operations that are not about records leave their queries as they are. *)
Definition no_records {T} th (u : Update T) : Prop :=
  th_get_record u.1.1 = th_get_record th ∧ th_get_record_accumulator u.1.1 = th_get_record_accumulator th ∧
  ∀ a, a ∈ u.1.2 → match a.2 with A_Record _ => False | _ => True end.

Lemma no_records_same {T} th (r : result T TaskHandlerError) : no_records th (th, [], r).
Proof. split_and!; [done..|]. set_solver. Qed.

Lemma no_records_send {T} alive i th th' resp a (t : T) :
  th_get_record th' = th_get_record th → th_get_record_accumulator th' = th_get_record_accumulator th →
  match a with A_Record _ => False | _ => True end → no_records th (send_then alive i th' resp a t).
Proof. intros Hr Ha Hans. split_and!; [done..|]. intros b Hb. apply list_elem_of_singleton in Hb as ->. exact Hans. Qed.

Lemma no_records_terminate alive i e th : no_records th (terminate_query alive i e th).
Proof. unfold terminate_query; cbv zeta; repeat case_match; first [by apply no_records_send|apply no_records_same]. Qed.

Lemma no_records_closest alive i res th : no_records th (update_closest_peers alive i res th).
Proof. unfold update_closest_peers. case_match; [by apply no_records_send|apply no_records_same]. Qed.

Lemma no_records_put_kad alive i res th : no_records th (update_put_record_kad alive i res th).
Proof. unfold update_put_record_kad. case_match; [by apply no_records_send|apply no_records_same]. Qed.

Lemma no_records_response alive i resp th : no_records th (handle_request_resp_event alive i resp th).
Proof.
  unfold handle_request_resp_event. destruct (negb _); [apply no_records_same|].
  destruct resp as [cmd|[quote a proofs| | | | | | |]];
    [..|unfold update_get_merkle_candidate_quote; case_match; [by apply no_records_send|apply no_records_same]].
  - apply no_records_terminate.
  - unfold update_get_quote, update_get_storage_proofs_from_peer, unknown, send_then.
    repeat (case_match; simplify_eq/=); (split_and!; [done..|]); set_solver.
  - apply no_records_terminate.
  - unfold update_get_record_from_peer. case_match; [by apply no_records_send|apply no_records_same].
  - apply no_records_terminate.
  - unfold update_get_closest_peers_from_peer. case_match; [by apply no_records_send|apply no_records_same].
  - unfold update_get_version. case_match; [by apply no_records_send|apply no_records_same].
  - unfold update_put_record_req. repeat case_match; first [by apply no_records_send|apply no_records_same].
Qed.

Lemma accounted_weaken hist ev th : accounted hist th → accounted (hist ++ [ev]) th.
Proof.
  intros [Hget Hacc]. split.
  - intros i resp q (n & addr & Hin)%Hget. exists n, addr. set_solver.
  - intros i hs p r Hi Hp. pose proof (Hacc _ _ _ _ Hi Hp). set_solver.
Qed.

Lemma no_records_sound {T} hist th (u : Update T) :
  accounted hist th → no_records th u → accounted hist u.1.1 ∧ ∀ a, a ∈ u.1.2 → backed hist a.
Proof.
  intros [Hget Hacc] (Hr & Ha & Hans). split; [split; [by rewrite Hr|by rewrite Ha]|].
  intros [resp a] Hin%Hans. by destruct a.
Qed.

(** A query taken out leaves the others. *)
Lemma take_get_record_accounted hist i th resp q holders th' :
  accounted hist th → take_get_record i th = Some (resp, q, holders, th') →
  accounted hist th' ∧ (∃ n addr, EvTask i n (GetRecord addr q resp) ∈ hist) ∧
  ∀ p r, holders !! p = Some r → EvKad i (QR_GetRecord (FoundRecord (Some p) r)) ∈ hist.
Proof.
  intros [Hget Hacc] Htake. unfold take_get_record in Htake.
  destruct (th_get_record th !! i) as [[resp' q']|] eqn:Hi; simplify_eq. split_and!; [split|by apply Hget|].
  - cbn. intros j resp' q' [_ Hj]%lookup_delete_Some. by apply Hget.
  - cbn. intros j hs p r [_ Hj]%lookup_delete_Some. by apply Hacc.
  - intros p r Hp. destruct (th_get_record_accumulator th !! i) as [hs|] eqn:Ha; [by eapply Hacc|]. simpl in Hp.
    by rewrite lookup_empty in Hp.
Qed.

Lemma send_result_sound hist alive i th :
  accounted hist th →
  accounted hist (send_get_record_result alive i th).1.1 ∧ ∀ a, a ∈ (send_get_record_result alive i th).1.2 → backed hist a.
Proof.
  intros Hacc. unfold send_get_record_result. destruct (take_get_record i th) as [[[[resp q] holders] th']|] eqn:Ht; [|split; set_solver].
  destruct (take_get_record_accounted _ _ _ _ _ _ _ Hacc Ht) as (Hacc' & (n & addr & Hask) & Hgave).
  split; [done|]. intros a Ha. apply list_elem_of_singleton in Ha as ->. simpl.
  pose proof (get_record_answer_spec q holders) as Hcases. destruct (get_record_answer q holders) as [[[r|] peers]|]; [|done..].
  destruct Hcases as (Hlen & Hnd & _ & Hall). exists i, n, addr, q. split_and!; [done..|]. intros p Hp%Hall. by apply Hgave.
Qed.

(** A query that ends without a record. *)
Lemma failed_sound hist alive i th (answer : list bytes → result (option KadRecord * list bytes) ClientError) :
  accounted hist th → (∀ peers, answer peers = Ok (None, peers) ∨ ∃ e, answer peers = Err e) →
  let u : Update bool := match take_get_record i th with
           | None => unknown i th
           | Some (responder, _, holders, th) => send_then alive i th responder (A_Record (answer ((hm_iter holders).*1))) false
           end in
  accounted hist u.1.1 ∧ ∀ a, a ∈ u.1.2 → backed hist a.
Proof.
  intros Hacc Hans. cbv zeta. destruct (take_get_record i th) as [[[[resp q] holders] th']|] eqn:Ht; [|split; set_solver].
  destruct (take_get_record_accounted _ _ _ _ _ _ _ Hacc Ht) as (Hacc' & _ & _).
  split; [done|]. intros a Ha. apply list_elem_of_singleton in Ha as ->. simpl.
  by destruct (Hans (hm_iter holders).*1) as [->|[e ->]].
Qed.

Lemma update_get_record_sound hist alive i res th :
  accounted hist th →
  let u := update_get_record alive i res th in
  accounted (hist ++ [EvKad i (QR_GetRecord res)]) u.1.1 ∧ ∀ a, a ∈ u.1.2 → backed (hist ++ [EvKad i (QR_GetRecord res)]) a.
Proof.
  intros Hacc. cbv zeta. assert (∀ th0, accounted (hist ++ [EvKad i (QR_GetRecord res)]) th0 →
    let u := match send_get_record_result alive i th0 with (th, ans, Ok _) => (th, ans, Ok true) | (th, ans, Err e) => (th, ans, Err e) end in
    accounted (hist ++ [EvKad i (QR_GetRecord res)]) u.1.1 ∧ ∀ a, a ∈ u.1.2 → backed (hist ++ [EvKad i (QR_GetRecord res)]) a) as Hsend.
  { intros th0 Hth0. pose proof (send_result_sound _ alive i th0 Hth0) as Hs. cbv zeta.
    by destruct (send_get_record_result alive i th0) as [[? ?] [|]]. }
  pose proof (accounted_weaken _ (EvKad i (QR_GetRecord res)) _ Hacc) as Hacc1.
  destruct res as [peer record| | | |]; unfold update_get_record; cbv zeta.
  - set (holders := match peer with Some _ => _ | None => _ end). set (th1 := with_kad _ _ _ _ _).
    assert (accounted (hist ++ [EvKad i (QR_GetRecord (FoundRecord peer record))]) th1) as H1'.
    { destruct Hacc1 as [Hget Ha]. split; [exact Hget|]. intros j hs p r Hj Hp. subst th1. simpl in Hj.
      destruct (decide (j = i)) as [->|Hne]; [|rewrite lookup_insert_ne in Hj by done; by eapply Ha].
      rewrite lookup_insert_eq in Hj. injection Hj as <-. subst holders.
      assert (default ∅ (th_get_record_accumulator th !! i) !! p = Some r →
        EvKad i (QR_GetRecord (FoundRecord (Some p) r)) ∈ hist ++ [EvKad i (QR_GetRecord (FoundRecord peer record))]) as Hold.
      { destruct (th_get_record_accumulator th !! i) as [hs|] eqn:E; simpl; [by eapply Ha|by rewrite lookup_empty]. }
      destruct peer as [p0|]; [|by apply Hold]. apply lookup_insert_Some in Hp as [[-> ->]|[_ Hp]]; [|by apply Hold]. set_solver. }
    destruct (th_get_record th1 !! i) as [[resp q]|]; [|split; [done|set_solver]].
    destruct (get_max_content_holders_count holders); [|split; [done|set_solver]]. case_match; [by apply Hsend|split; [done|set_solver]].
  - by apply Hsend.
  - apply (failed_sound _ alive i th (λ peers, Ok (None, peers))); [done|]. by left.
  - apply (failed_sound _ alive i th (λ peers, Ok (None, peers))); [done|]. by left.
  - apply (failed_sound _ alive i th (λ peers, Err (GetRecordTimeout peers))); [done|]. right. eauto.
Qed.

Lemma client_event_sound hist alive ev th :
  accounted hist th →
  accounted (hist ++ [ev]) (client_event alive ev th).1 ∧ ∀ a, a ∈ (client_event alive ev th).2 → backed (hist ++ [ev]) a.
Proof.
  intros Hacc. pose proof (accounted_weaken _ ev _ Hacc) as Hacc1. destruct ev as [i n task|i res|i resp|i e]; cbn [client_event].
  - destruct task as [|addr q resp| | | | | | | | |]; simpl; try (case_bool_decide; simpl); try (split; [exact Hacc1|set_solver]).
    split; [|set_solver]. destruct Hacc1 as [Hget Ha]. split; [|exact Ha]. intros j resp' q' Hj. simpl in Hj.
    apply lookup_insert_Some in Hj as [[-> ?]|[_ Hj]]; [|by apply Hget]. simplify_eq. exists n, addr. set_solver.
  - unfold handle_kad_progress_event. destruct (negb _); [split; [done|set_solver]|]. destruct res as [res|res|res|]; [| | |split; [done|set_solver]].
    + pose proof (no_records_sound _ _ _ Hacc1 (no_records_closest alive i res th)) as Hs. by destruct (update_closest_peers alive i res th) as [[? ?] [|]].
    + by apply update_get_record_sound.
    + pose proof (no_records_sound _ _ _ Hacc1 (no_records_put_kad alive i res th)) as Hs. by destruct (update_put_record_kad alive i res th) as [[? ?] [|]].
  - by apply (no_records_sound _ th), no_records_response.
  - unfold handle_request_resp_outbound_failure. destruct (negb _); [split; [done|set_solver]|].
    by apply (no_records_sound _ th), no_records_terminate.
Qed.

Lemma run_client_sound hist l th a :
  accounted hist th → a ∈ (run_client l th).1.2 → backed (hist ++ l.*2) a.
Proof.
  revert hist th. induction l as [|[alive ev] l IH]; intros hist th Hacc Ha; simpl in Ha; [set_solver|].
  destruct (client_event_sound hist alive ev th Hacc) as [Hacc' Hback]. specialize (IH _ _ Hacc').
  destruct (client_event alive ev th) as [th' ans] eqn:E. simpl in *.
  destruct (run_client l th') as [[th'' ans'] ex] eqn:E'. simpl in *. rewrite <- app_assoc in IH. simpl in IH.
  apply elem_of_app in Ha as [Ha|Ha]; [|by apply IH].
  apply Hback in Ha. destruct a as [resp [|[[[r|] peers]|]| | | | | | | |]]; try done.
  destruct Ha as (i & n & addr & q & Hin & Hlen & Hnd & Hgave). exists i, n, addr, q.
  split_and!; [set_solver|done|done|]. intros p Hp%Hgave. set_solver.
Qed.

(** C13: whatever happens on the network, a record the client's driver returns to whoever asked
    for it was given, with all its fields, by as many distinct peers as the quorum of that request
    asks for, each in answer to this query; a peer that answers twice counts once. *)
Theorem get_record_quorum_sound l th ans exchanges resp r peers :
  run_client l task_handler_new = (th, ans, exchanges) → (resp, A_Record (Ok (Some r, peers))) ∈ ans →
  ∃ i n addr q, EvTask i n (GetRecord addr q resp) ∈ l.*2 ∧ (get_quorum_amount q ≤ length peers)%nat ∧ NoDup peers ∧
    ∀ p, p ∈ peers → EvKad i (QR_GetRecord (FoundRecord (Some p) r)) ∈ l.*2.
Proof.
  intros Hrun Hin. apply (run_client_sound [] l task_handler_new (resp, A_Record (Ok (Some r, peers)))).
  - split; intros *; simpl; by rewrite lookup_empty.
  - by rewrite Hrun.
Qed.

(** How many holders gave a value. *)
Definition agreeing (v : bytes) holders : nat := length (filter (λ kr, rec_value kr.2 = v) (map_to_list holders)).

Lemma agreeing_iter v holders : length (filter (.= v) ((λ kr, rec_value kr.2) <$> hm_iter holders)) = agreeing v holders.
Proof.
  unfold agreeing, hm_iter. rewrite hash_order_perm. induction (map_to_list holders) as [|kr l IH]; [done|]. rewrite fmap_cons, !filter_cons.
  case_decide; simpl; congruence.
Qed.

Lemma foldr_max_le (l : list nat) k : (k ≤ foldr max 0 l ↔ k = 0 ∨ ∃ x, x ∈ l ∧ k ≤ x)%nat.
Proof.
  induction l as [|a l IH]; simpl; [split; [lia|]; intros [?|(x & Hx & _)]; [lia|set_solver]|].
  rewrite Nat.max_le_iff, IH. setoid_rewrite elem_of_cons. naive_solver.
Qed.

Lemma max_content_holders holders k :
  holders ≠ ∅ →
  match get_max_content_holders_count holders with
  | Some n => (k ≤ n ↔ ∃ v, k ≤ agreeing v holders)%nat
  | None => False
  end.
Proof.
  intros Hne. unfold get_max_content_holders_count. rewrite bool_decide_false by done. rewrite foldr_max_le.
  setoid_rewrite list_elem_of_fmap. split.
  - intros [->|(n & (v & -> & Hv) & Hn)]; [exists []; lia|]. exists v. by rewrite agreeing_iter in Hn.
  - intros (v & Hk). destruct k as [|k]; [by left|]. right. exists (agreeing v holders). split; [|done].
    exists v. split; [by rewrite agreeing_iter|].
    rewrite <- agreeing_iter in Hk. destruct (filter (.= v) _) as [|x l] eqn:E; [simpl in Hk; lia|].
    assert (x ∈ filter (.= v) ((λ kr, rec_value kr.2) <$> hm_iter holders)) as Hin by (rewrite E; left).
    by apply list_elem_of_filter in Hin as [-> Hin].
Qed.

Lemma agreeing_size v holders : (agreeing v holders ≤ size holders)%nat.
Proof. unfold agreeing. rewrite <- length_map_to_list. apply length_filter. Qed.

(** The answer when there are enough holders, one of which gave [r]. *)
Lemma get_record_answer_agreed p r q holders :
  holders !! p = Some r → (get_quorum_amount q ≤ size holders)%nat →
  ((∀ p' r', holders !! p' = Some r' → r' = r) ∧ ∃ peers, get_record_answer q holders = Ok (Some r, peers)) ∨
  ((∃ p' r', holders !! p' = Some r' ∧ r' ≠ r) ∧ get_record_answer q holders = Err (SplitRecord holders)).
Proof.
  intros Hp Hsize. pose proof (get_record_answer_spec q holders) as Hans. unfold get_record_answer in *.
  destruct (Nat.ltb_spec (size holders) (get_quorum_amount q)); [lia|].
  destruct (records_uniq (hm_iter holders).*2) as [|r0 [|r1 l]]; simpl in Hans.
  - destruct Hans as [-> _]. by rewrite lookup_empty in Hp.
  - left. destruct Hans as (_ & _ & Hin & Hall).
    assert (∀ p' r', holders !! p' = Some r' → r' = r0) as Hsame.
    { intros p' r' Hp'. assert (holders !! p' = Some r0) as Hr by (apply Hall, Hin; eauto). congruence. }
    pose proof (Hsame p r Hp) as ->. eauto.
  - right. split; [|done]. destruct Hans as (_ & _ & p1 & p2 & a & b & Ha & Hb & Hab).
    destruct (decide (a = r)) as [->|Hne]; eauto.
Qed.

(** What a record that arrives for a pending query does. As long as no value has a quorum of
    holders nothing is answered and the record is kept; once one has, the query is over, and the
    answer is the record if every holder so far gave exactly it; a single holder that differs makes
    the answer a split, however many agree, and it is never that the quorum failed. *)
Theorem found_record_answer alive i th resp q p r :
  th_get_record th !! i = Some (resp, q) →
  let holders := <[p := r]> (default ∅ (th_get_record_accumulator th !! i)) in
  let '(th', ans, _) := update_get_record alive i (FoundRecord (Some p) r) th in
  ((∀ v, agreeing v holders < get_quorum_amount q)%nat ∧ ans = [] ∧
    th_get_record th' !! i = Some (resp, q) ∧ th_get_record_accumulator th' !! i = Some holders) ∨
  ((∃ v, get_quorum_amount q ≤ agreeing v holders)%nat ∧
    th_get_record th' !! i = None ∧ th_get_record_accumulator th' !! i = None ∧
    (((∀ p' r', holders !! p' = Some r' → r' = r) ∧ ∃ peers, ans = [(resp, A_Record (Ok (Some r, peers)))]) ∨
     ((∃ p' r', holders !! p' = Some r' ∧ r' ≠ r) ∧ ans = [(resp, A_Record (Err (SplitRecord holders)))]))).
Proof.
  intros Hi. cbv zeta. unfold update_get_record. cbv zeta. cbn [with_kad th_get_record].
  set (holders := <[p := r]> _). rewrite Hi. assert (holders ≠ ∅) as Hne by apply insert_non_empty.
  pose proof (max_content_holders holders (get_quorum_amount q) Hne) as Hmax.
  destruct (get_max_content_holders_count holders) as [n|]; [|done].
  destruct (Nat.leb_spec (get_quorum_amount q) n) as [Hle|Hgt].
  - apply Hmax in Hle as [v Hv]. unfold send_get_record_result, take_get_record. cbn [with_kad th_get_record th_get_record_accumulator].
    rewrite Hi, lookup_insert_eq. change (default ∅ (Some holders)) with holders.
    pose proof (agreeing_size v holders) as Hsize.
    destruct (get_record_answer_agreed p r q holders (lookup_insert_eq _ _ _)) as [(Hall & peers & ->)|[Hdiff ->]]; [lia|..];
      unfold send_then; destruct (alive resp); right; (split; [by exists v|]); simpl; rewrite !lookup_delete_eq; eauto 10.
  - left. split_and!; [|done|done|apply lookup_insert_eq]. intros v. apply Nat.nle_gt. intros Hv. apply Nat.lt_nge in Hgt.
    apply Hgt, Hmax. eauto.
Qed.
End records.

(** ** Requests to one peer *)

Inductive RequestKind := K_Cost | K_Put | K_Version | K_Record | K_Proofs | K_Closest | K_Merkle.

#[global] Instance RequestKind_eq_dec : EqDecision RequestKind.
Proof. solve_decision. Defined.

Section requests.
Context `{Bls, Libp2pIdentity, Digests, !Serde QuotingMetrics, HashOrder, Kad, Hex, XorNameLib, !ErrorText}.
Implicit Types th : TaskHandler.

(** Who waits for a request of a kind. *)
Definition pending_as (k : RequestKind) (i : Z) th : option Responder :=
  match k with
  | K_Cost => (λ x, x.1.1) <$> th_get_cost th !! i
  | K_Put => fst <$> th_put_record_req th !! i
  | K_Version => th_get_version th !! i
  | K_Record => th_get_record_from_peer th !! i
  | K_Proofs => th_get_storage_proofs_from_peer th !! i
  | K_Closest => th_get_closest_peers_from_peer th !! i
  | K_Merkle => th_get_merkle_candidate_quote th !! i
  end.

Definition only_pending (k : RequestKind) (resp : Responder) (i : Z) th : Prop :=
  pending_as k i th = Some resp ∧ ∀ k', k' ≠ k → pending_as k' i th = None.

(** The requests a response completes: those it is an answer to, or, for a response no request
    expects, all. *)
Definition completes (response : Response) (k : RequestKind) : bool :=
  match response, k with
  | Resp_Query (R_GetStoreQuote _ _ _), (K_Cost | K_Proofs) => true
  | Resp_Query (R_GetMerkleCandidateQuote _), K_Merkle => true
  | Resp_Query (R_PutRecord _ _ _), K_Put => true
  | Resp_Query (R_GetVersion _ _), K_Version => true
  | Resp_Query (R_GetReplicatedRecord _), K_Record => true
  | Resp_Query (R_GetClosestPeers _ _ _), K_Closest => true
  | (Resp_Query (R_CheckNodeInProblem _ _ _ | R_GetChunkExistenceProof _) | Resp_Cmd _), _ => true
  | _, _ => false
  end.

Lemma only_pending_lookups k resp i th :
  only_pending k resp i th →
  (if decide (k = K_Cost) then ∃ x, th_get_cost th !! i = Some x ∧ x.1.1 = resp else th_get_cost th !! i = None) ∧
  (if decide (k = K_Put) then ∃ x, th_put_record_req th !! i = Some x ∧ x.1 = resp else th_put_record_req th !! i = None) ∧
  th_get_version th !! i = (if decide (k = K_Version) then Some resp else None) ∧
  th_get_record_from_peer th !! i = (if decide (k = K_Record) then Some resp else None) ∧
  th_get_storage_proofs_from_peer th !! i = (if decide (k = K_Proofs) then Some resp else None) ∧
  th_get_closest_peers_from_peer th !! i = (if decide (k = K_Closest) then Some resp else None) ∧
  th_get_merkle_candidate_quote th !! i = (if decide (k = K_Merkle) then Some resp else None).
Proof.
  intros [Hk Hothers].
  pose proof (Hothers K_Cost) as H1'. pose proof (Hothers K_Put) as H2'. pose proof (Hothers K_Version) as H3'.
  pose proof (Hothers K_Record) as H4'. pose proof (Hothers K_Proofs) as H5'. pose proof (Hothers K_Closest) as H6'.
  pose proof (Hothers K_Merkle) as H7'. clear Hothers. simpl in *. rewrite !fmap_None in *.
  destruct k; simpl in *; split_and!; eauto; apply fmap_Some in Hk as (x & Hx & ->); eauto.
Qed.

(** What a response does to the one request that is pending under its id. If it is an
    answer to a request of that kind, or one no request expects, whoever asked is answered and
    the request is gone. If it answers another kind of request, nothing is answered and the
    request stays pending: its own failure is never reported, so whoever asked waits until the
    driver is dropped. *)
Theorem response_completes_or_hangs alive i response th k resp :
  only_pending k resp i th →
  let '(th', ans, res) := handle_request_resp_event alive i response th in
  if completes response k then (∃ a, ans = [(resp, a)]) ∧ contains_query i th' = false
  else th' = th ∧ ans = [] ∧ res = Err (UnknownQuery i).
Proof.
  intros (Hcost & Hput & Hver & Hrec & Hproofs & Hclosest & Hmerkle)%only_pending_lookups.
  assert (contains_query i th = true) as Hq.
  { unfold contains_query, contains_key. destruct k; simpl in *; rewrite ?orb_true_iff, ?bool_decide_eq_true; naive_solver. }
  unfold handle_request_resp_event. rewrite Hq. simpl negb.
  destruct k; simpl in Hcost, Hput, Hver, Hrec, Hproofs, Hclosest, Hmerkle;
    repeat match goal with E : ∃ _, _ ∧ _ |- _ => destruct E as (x & E & <-); repeat destruct x as [x ?] end;
    destruct response as [cmd|[]]; cbn [completes];
    unfold update_get_quote, update_get_storage_proofs_from_peer, update_get_merkle_candidate_quote, update_put_record_req,
      update_get_version, update_get_record_from_peer, update_get_closest_peers_from_peer, terminate_query, unknown, send_then;
    cbv zeta; rewrite ?Hcost, ?Hput, ?Hver, ?Hrec, ?Hproofs, ?Hclosest, ?Hmerkle; try done;
    repeat case_match; simplify_eq/=; (split; [by eexists|]); unfold contains_query; rewrite !orb_false_iff, !contains_key_false; simpl;
    rewrite ?lookup_delete_eq, ?Hcost, ?Hput, ?Hver, ?Hrec, ?Hproofs, ?Hclosest, ?Hmerkle; done.
Qed.
End requests.

(** ** Concrete runs *)

Definition toy_error_text `{Bls} : ErrorText :=
  {| message_error_text := λ _, text "error"; OutboundFailure := bytes; unsupported_protocols := text "unsupported";
     outbound_failure_text := λ e, e |}.

Section concrete.
#[local] Existing Instances toy_bls toy_identity toy_digests toy_serde_metrics hash_order_rev toy_kad toy_hex toy_xorname
  toy_error_text.

Definition toy_record (v : Z) : KadRecord := {| rec_key := [9]; rec_value := [v]; rec_publisher := None; rec_expires := None |}.
Definition toy_peer (p : Z) : PeerInfo := {| pi_peer_id := [p]; pi_addrs := [] |}.
Definition toy_found (p v : Z) : QueryResult := QR_GetRecord (FoundRecord (Some [p]) (toy_record v)).

(** Two requests, and a record that two peers hold; the second receiver has gone. *)
Definition toy_client_run : list ((Responder → bool) * HandlerEvent) :=
  (λ ev, (λ r, r =? 7, ev)) <$>
  [EvTask 1 0 (GetRecord (NA_RecordKey [9]) (QuorumN 2) 7); EvTask 1 0 (GetVersion (toy_peer 3) 8);
   EvKad 1 (toy_found 1 5); EvKad 1 (toy_found 1 5); EvKad 4 (toy_found 2 5); EvTask 3 0 (GetVersion (toy_peer 3) 6);
   EvKad 1 (toy_found 2 5); EvResponse 1 (Resp_Query (R_GetVersion (NA_PeerId [3]) (text "0.4"))); EvKad 1 (toy_found 4 6)].

Definition toy_run_result := run_client toy_client_run task_handler_new.

Lemma client_answers_once_witness :
  toy_run_result.1.2.*1 = [7; 8] ∧
  exchanges_from [] toy_run_result.2 (pending toy_run_result.1.1) ∧
  asked toy_run_result.2 ≡ₚ toy_run_result.1.2.*1 ++ pending toy_run_result.1.1 ∧
  (NoDup (asked toy_run_result.2) → NoDup (toy_run_result.1.2.*1 ++ pending toy_run_result.1.1)).
Proof.
  split; [vm_compute; reflexivity|].
  apply (client_answers_once toy_client_run); [vm_compute; repeat split|vm_compute; reflexivity].
Defined.

Lemma get_record_quorum_sound_witness :
  ∃ i n addr q, EvTask i n (GetRecord addr q 7) ∈ toy_client_run.*2 ∧ (get_quorum_amount q ≤ 2)%nat ∧ NoDup [[2]; [1]] ∧
    ∀ p, p ∈ [[2]; [1]] → EvKad i (QR_GetRecord (FoundRecord (Some p) (toy_record 5))) ∈ toy_client_run.*2.
Proof.
  apply (get_record_quorum_sound toy_client_run toy_run_result.1.1 toy_run_result.1.2 toy_run_result.2 7 (toy_record 5) [[2]; [1]]).
  - vm_compute. reflexivity.
  - vm_compute. left.
Defined.

(** The handler of a record query that one peer has answered, and of a request for a version. *)
Definition toy_pending : TaskHandler :=
  (run_client (take 3 toy_client_run) task_handler_new).1.1.

(** A second peer that differs, when one holder is a quorum. *)
Lemma found_record_answer_witness :
  th_get_record toy_pending !! 1 = Some (7, QuorumN 2) ∧
  (update_get_record (λ _, true) 1 (FoundRecord (Some [2]) (toy_record 6)) toy_pending).1.2 = [] ∧
  let th := insert_task 1 (GetRecord (NA_RecordKey [9]) QuorumOne 7) toy_pending in
  let holders := <[[2] := toy_record 6]> (default ∅ (th_get_record_accumulator th !! 1)) in
  let '(th', ans, _) := update_get_record (λ _, true) 1 (FoundRecord (Some [2]) (toy_record 6)) th in
  ((∀ v, agreeing v holders < get_quorum_amount QuorumOne)%nat ∧ ans = [] ∧
    th_get_record th' !! 1 = Some (7, QuorumOne) ∧ th_get_record_accumulator th' !! 1 = Some holders) ∨
  ((∃ v, get_quorum_amount QuorumOne ≤ agreeing v holders)%nat ∧
    th_get_record th' !! 1 = None ∧ th_get_record_accumulator th' !! 1 = None ∧
    (((∀ p' r', holders !! p' = Some r' → r' = toy_record 6) ∧ ∃ peers, ans = [(7, A_Record (Ok (Some (toy_record 6), peers)))]) ∨
     ((∃ p' r', holders !! p' = Some r' ∧ r' ≠ toy_record 6) ∧ ans = [(7, A_Record (Err (SplitRecord holders)))]))).
Proof.
  split; [vm_compute; reflexivity|]. split; [vm_compute; reflexivity|].
  apply (found_record_answer (λ _, true) 1 (insert_task 1 (GetRecord (NA_RecordKey [9]) QuorumOne 7) toy_pending) 7 QuorumOne
    [2] (toy_record 6)).
  vm_compute. reflexivity.
Defined.

(** A peer asked for its version that answers with closest peers. *)
Lemma response_completes_or_hangs_witness :
  let '(th', ans, res) := handle_request_resp_event (λ _, true) 1 (Resp_Query (R_GetClosestPeers (NA_PeerId [3]) [] None)) toy_pending in
  th' = toy_pending ∧ ans = [] ∧ res = Err (UnknownQuery 1).
Proof.
  apply (response_completes_or_hangs (λ _, true) 1 (Resp_Query (R_GetClosestPeers (NA_PeerId [3]) [] None)) toy_pending K_Version 8).
  split; [vm_compute; reflexivity|]. intros [] Hk; solve [congruence | vm_compute; reflexivity].
Defined.
End concrete.
