(* ===== verification/ClientNetwork.v ===== *)
(** * The client's view of the network

    Models the requests of [Network] in src/autonomi/src/networking/mod.rs that decide on what many
    peers answer (puts with a quorum, quotes, the verified closest peers, candidate quotes), the
    retries of retries.rs and the strategies of config.rs. Each request goes through the driver's
    channel, modelled as [DriverReply]; where requests run concurrently the order in which they
    complete is an argument. The delays between attempts come from the crate exponential_backoff,
    the parameter [Backoff]. Waiting for connectivity and the developer query are left out. *)

From stdpp Require Import base gmap countable strings list.
From Stdlib Require Import ZArith Lia.
From S2P Require Import Prelude Text Protocol RecordCache RecordStore MerkleTree Payments Messages Driver TaskHandler VersionGate.

Definition QUOTING_CANDIDATES : nat := 10.
Definition CLOSE_GROUP_SIZE_MAJORITY : nat := (CLOSE_GROUP_SIZE / 2 + 1)%nat.
Definition N_CLOSEST_PEERS : nat := (CLOSE_GROUP_SIZE + 2)%nat.
Definition FALLBACK_PEERS_COUNT : nat := 20.

(** ** Strategies: config.rs *)

Inductive RetryStrategy := RS_None | RS_Once | RS_Quick | RS_Balanced | RS_Persistent | RS_N (n : nat).

Definition attempts (s : RetryStrategy) : nat :=
  match s with
  | RS_N n => n
  | RS_None => 1
  | RS_Once => 2
  | RS_Quick => 4
  | RS_Balanced => 6
  | RS_Persistent => 10
  end.

(** exponential_backoff: one item per attempt, the delay after it or, for the last, nothing. *)
Class Backoff := { backoff_delays : nat → list (option Z) }.

Class BackoffLaws `{Backoff} : Prop := {
  backoff_items : ∀ n, (0 < n)%nat → ∃ delays, length delays = (n - 1)%nat ∧ backoff_delays n = (Some <$> delays) ++ [None];
}.

(** [self.attempts() as u32]. *)
Definition backoff `{Backoff} (s : RetryStrategy) : list (option Z) :=
  backoff_delays (Z.to_nat (Z.of_nat (attempts s) mod 2 ^ 32)).

Record Strategy := {
  put_quorum : Quorum;
  put_retry : RetryStrategy;
  verification_quorum : Quorum;
  get_quorum : Quorum;
  get_retry : RetryStrategy;
}.

Section network.
Context `{Bls, Libp2pIdentity, Digests, !Serde QuotingMetrics, HashOrder, Kad, Hex, XorNameLib, !ErrorText, Backoff}.

(** ** The driver's channel *)

(** The task could not be sent, its responder was dropped, or it was answered. *)
Inductive DriverReply (T : Type) :=
  | DriverOffline
  | DriverDropped
  | Replied (r : result T ClientError).
Arguments DriverOffline {T}.
Arguments DriverDropped {T}.
Arguments Replied {T} r.

(** [task_sender.send(task).await.map_err(..)?; rx.await?]. *)
Definition ask {T} (reply : DriverReply T) : result T ClientError :=
  match reply with
  | DriverOffline => Err NetworkDriverOffline
  | DriverDropped => Err NetworkDriverReceive
  | Replied r => r
  end.

(** [get_record]: the record without its holders. *)
Definition get_record (reply : DriverReply (option KadRecord * list bytes)) : result (option KadRecord) ClientError :=
  match ask reply with Ok (record, _) => Ok record | Err e => Err e end.

(** ** Puts *)

Definition expected_holders (quorum : Quorum) (total : nat) : nat :=
  match quorum with
  | QuorumOne => 1
  | QuorumMajority => (total / 2 + 1)%nat
  | QuorumAll => total
  | QuorumN n => n
  end.

(** The results of the puts, in the order they complete; [shown] is [to_string]. *)
Fixpoint collect_puts (shown : ClientError → bytes) (expected : nat) (ok_res : list bytes) (err_res : list (bytes * bytes))
    (arrivals : list (result unit ClientError * PeerInfo)) : result unit ClientError :=
  match arrivals with
  | [] => Err (PutRecordTooManyPeerFailed ok_res err_res)
  | (Ok _, peer) :: rest =>
    let ok_res := ok_res ++ [pi_peer_id peer] in
    if (expected <=? length ok_res)%nat then Ok tt else collect_puts shown expected ok_res err_res rest
  | (Err e, peer) :: rest => collect_puts shown expected ok_res (err_res ++ [(pi_peer_id peer, shown e)]) rest
  end.

Definition put_record (shown : ClientError → bytes) (to : list PeerInfo) (quorum : Quorum)
    (arrivals : list (result unit ClientError * PeerInfo)) : result unit ClientError :=
  let candidates := min CLOSE_GROUP_SIZE (length to) in
  if (candidates =? 0)%nat then Err (InvalidNonZeroUsize candidates)
  else collect_puts shown (expected_holders quorum candidates) [] [] arrivals.

(** ** Closest peers *)

Definition nonzero_count (count : option nat) : result nat ClientError :=
  match count with
  | Some c => if (c =? 0)%nat then Err (InvalidNonZeroUsize c) else Ok c
  | None => Ok N_CLOSEST_PEERS
  end.

(** The candidates of a kademlia query, if there are enough. *)
Definition enough_peers (n : nat) (reply : DriverReply (list PeerInfo)) : result (list PeerInfo) ClientError :=
  match ask reply with
  | Ok peers => if (length peers <? n)%nat then Err (InsufficientPeers (length peers) n peers) else Ok peers
  | Err e => Err e
  end.

Definition get_closest_peers_kad_only (count : option nat) (reply : DriverReply (list PeerInfo))
    : result (list PeerInfo) ClientError :=
  (let? n := nonzero_count count in enough_peers n reply)%rust.

(** What the candidates answered when asked for the peers they know closest. *)
Definition CloseReplies : Type := list (bytes * result (list (NetworkAddress * list bytes)) ClientError).

(** [*peer_counts.entry(peer).or_insert(0) += 1]. *)
Definition count_peer (peer : bytes) (counts : gmap bytes nat) : gmap bytes nat :=
  <[peer := S (default 0%nat (counts !! peer))]> counts.

Definition count_reply (acc : gmap bytes nat * gmap bytes (gset bytes))
    (reply : bytes * result (list (NetworkAddress * list bytes)) ClientError) : gmap bytes nat * gmap bytes (gset bytes) :=
  match reply with
  | (responder, Ok peers_list) =>
    foldl (λ acc e, match as_peer_id e.1 with
                    | Some peer_id =>
                      (count_peer peer_id acc.1, <[peer_id := default ∅ (acc.2 !! peer_id) ∪ list_to_set e.2]> acc.2)
                    | None => acc
                    end) (count_peer responder acc.1, acc.2) peers_list
  | (_, Err _) => acc
  end.

Definition count_replies (results : CloseReplies) : gmap bytes nat * gmap bytes (gset bytes) :=
  foldl count_reply (∅, ∅) results.

(** One tier: peers are appended, closest first, until there are [n]. *)
Definition select_tier (n : nat) (f : PeerInfo → Z) (tier : list PeerInfo) (sel : list PeerInfo * gset bytes)
    : list PeerInfo * gset bytes :=
  foldl (λ sel c, if (n <=? length sel.1)%nat then sel else (sel.1 ++ [c], {[pi_peer_id c]} ∪ sel.2)) sel
    (sort_by_key f tier).

Definition peer_distance (addr : NetworkAddress) (peer_id : bytes) : Z := distance addr (NA_PeerId peer_id).

(** Peers reported more than [n / 2] times. *)
Definition popular_peers (n : nat) (counts : gmap bytes nat) : gset bytes :=
  dom (filter (λ kc, (n / 2 < kc.2)%nat) counts).

(** Popular peers that kademlia did not give, with the addresses they were reported with. *)
Definition popular_not_in_candidates (popular : gset bytes) (addrs : gmap bytes (gset bytes)) (candidates : list PeerInfo)
    : list PeerInfo :=
  omap (λ peer_id, match addrs !! peer_id with
                   | Some set => if bool_decide (set = ∅) then None
                                 else Some {| pi_peer_id := peer_id; pi_addrs := hs_iter set |}
                   | None => None
                   end)
    (filter (λ id, id ∉ (pi_peer_id <$> candidates)) (hs_iter popular)).

(** [Iterator::max]. *)
Definition max_distance (ds : list Z) : option Z := match ds with [] => None | d :: ds => Some (foldl Z.max d ds) end.

(** [get_node_version], without the texts of its errors. *)
Definition get_node_version (reply : DriverReply bytes) : option PackageVersion :=
  match reply with Replied (Ok version_str) => package_try_from version_str | _ => None end.

(** [get_closest_n_peers] from the candidates on; the replies of the candidates, and whether the
    peers asked for their version answered, in the order they complete. *)
Definition select_closest (addr : NetworkAddress) (n : nat) (candidates : list PeerInfo) (results : CloseReplies)
    (version_results : list PeerInfo → list (PeerInfo * DriverReply bytes)) : result (list PeerInfo) ClientError :=
  let f c := peer_distance addr (pi_peer_id c) in
  let '(counts, addrs) := count_replies results in
  let popular := popular_peers n counts in
  let farthest := max_distance (peer_distance addr <$> hs_iter popular) in
  let sel := select_tier n f (filter (λ c, pi_peer_id c ∈ popular) candidates) ([], ∅) in
  let sel := if (length sel.1 <? n)%nat then
               select_tier n f ((filter (λ r, is_Some (get_node_version r.2)) (version_results (popular_not_in_candidates popular addrs candidates))).*1) sel
             else sel in
  let sel := match farthest with
             | Some farthest_popular =>
               if (length sel.1 <? n)%nat then
                 select_tier n f (filter (λ c, (pi_peer_id c ∉ sel.2) ∧ farthest_popular < f c) candidates) sel
               else sel
             | None => sel
             end in
  let sel := if (length sel.1 <? n)%nat then select_tier n f (filter (λ c, pi_peer_id c ∉ sel.2) candidates) sel else sel in
  if (length sel.1 <? n)%nat then Err (InsufficientPeers (length sel.1) n sel.1)
  else Ok (sort_by_key f sel.1).

Definition get_closest_n_peers (addr : NetworkAddress) (n : nat) (reply : DriverReply (list PeerInfo))
    (results : list PeerInfo → CloseReplies) (version_results : list PeerInfo → list (PeerInfo * DriverReply bytes))
    : result (list PeerInfo) ClientError :=
  (let? candidates := enough_peers n reply in
   select_closest addr n candidates (results candidates) version_results)%rust.

Definition get_closest_peers (addr : NetworkAddress) (count : option nat) (reply : DriverReply (list PeerInfo))
    (results : list PeerInfo → CloseReplies) (version_results : list PeerInfo → list (PeerInfo * DriverReply bytes))
    : result (list PeerInfo) ClientError :=
  (let? n := nonzero_count count in get_closest_n_peers addr n reply results version_results)%rust.

(** ** Quotes *)

(** The quotes, in the order they arrive. *)
Fixpoint collect_quotes (quotes : list (PeerInfo * PaymentQuote)) (no_need_to_pay : list PeerInfo) (errors : list ClientError)
    (arrivals : list (result (option (PeerInfo * PaymentQuote)) ClientError * PeerInfo))
    : result (option (list (PeerInfo * PaymentQuote))) ClientError :=
  match arrivals with
  | [] => Err (InsufficientQuotes (length quotes) (length no_need_to_pay) (length errors) errors)
  | (res, peer) :: rest =>
    let quotes := match res with Ok (Some quote) => quotes ++ [quote] | _ => quotes end in
    let no_need_to_pay := match res with Ok None => no_need_to_pay ++ [peer] | _ => no_need_to_pay end in
    let errors := match res with Err e => errors ++ [e] | _ => errors end in
    if (CLOSE_GROUP_SIZE <=? length quotes)%nat && (bool_decide (no_need_to_pay = []) || bool_decide (rest = []))
    then Ok (Some (take CLOSE_GROUP_SIZE quotes))
    else if (CLOSE_GROUP_SIZE_MAJORITY <=? length no_need_to_pay)%nat then Ok None
    else collect_quotes quotes no_need_to_pay errors rest
  end.

Definition get_quotes (closest : result (list PeerInfo) ClientError)
    (arrivals : list PeerInfo → list (result (option (PeerInfo * PaymentQuote)) ClientError * PeerInfo))
    : result (option (list (PeerInfo * PaymentQuote))) ClientError :=
  (let? closest_peers := closest in collect_quotes [] [] [] (arrivals closest_peers))%rust.

(** The texts of [InvalidNodeMerkleCandidate] carry the two values. *)
Definition get_merkle_candidate_quote (data_type data_size merkle_payment_timestamp : Z)
    (reply : DriverReply MerklePaymentCandidateNode) : result MerklePaymentCandidateNode ClientError :=
  (let? candidate := ask reply in
   if negb (candidate_verify_signature candidate) then Err (InvalidNodeMerkleCandidate (text "Invalid signature"))
   else if negb (mc_merkle_payment_timestamp candidate =? merkle_payment_timestamp) then
     Err (InvalidNodeMerkleCandidate (text "Timestamp mismatch"))
   else if negb (qm_data_type (mc_quoting_metrics candidate) =? data_type) then
     Err (InvalidNodeMerkleCandidate (text "Data type mismatch"))
   else if negb (qm_data_size (mc_quoting_metrics candidate) =? data_size) then
     Err (InvalidNodeMerkleCandidate (text "Data size mismatch"))
   else Ok candidate)%rust.

(** ** Retries: retries.rs *)

(** What a retried operation leaves: its result and the delays it slept. *)
Definition Retried (T : Type) : Type := result T ClientError * list Z.

(** [put_record_with_retries], [get_quotes_with_retries] and [get_closest_peers_with_retries] run
    the same loop over the delays; [op i] is the outcome of the attempt [i]. *)
Fixpoint retry_loop {T} (op : nat → result T ClientError) (i : nat) (slept : list Z) (delays : list (option Z)) : Retried T :=
  match delays with
  | [] => (Err InvalidRetryStrategy, slept)
  | duration :: rest =>
    match op i with
    | Ok t => (Ok t, slept)
    | Err err =>
      if cannot_retry err then (Err err, slept)
      else match duration with
           | Some retry_delay => retry_loop op (S i) (slept ++ [retry_delay]) rest
           | None => (Err err, slept)
           end
    end
  end.

Definition put_record_with_retries (shown : ClientError → bytes) (to : list PeerInfo) (strategy : Strategy)
    (arrivals : nat → list (result unit ClientError * PeerInfo)) : Retried unit :=
  retry_loop (λ i, put_record shown to (put_quorum strategy) (arrivals i)) 0 [] (backoff (put_retry strategy)).

Definition get_quotes_with_retries (attempt : nat → result (option (list (PeerInfo * PaymentQuote))) ClientError)
    : Retried (option (list (PeerInfo * PaymentQuote))) :=
  retry_loop attempt 0 [] (backoff RS_Once).

Definition get_closest_peers_with_retries (attempt : nat → result (list PeerInfo) ClientError) : Retried (list PeerInfo) :=
  retry_loop attempt 0 [] (backoff RS_Once).

(** [fetch_records_from_closest_peers_fallback]; the records in the order they arrive. *)
Definition fetch_records_from_closest_peers_fallback (closest : result (list PeerInfo) ClientError)
    (arrivals : list PeerInfo → list (result (option KadRecord) ClientError)) : result (option (list KadRecord)) ClientError :=
  match closest with
  | Err _ => Ok None
  | Ok closest_peers =>
    let records := omap (λ r, match r with Ok (Some record) => Some record | _ => None end) (arrivals closest_peers) in
    if bool_decide (records = []) then Ok None else Ok (Some records)
  end.

Definition is_split (e : ClientError) : bool := match e with SplitRecord _ => true | _ => false end.

Fixpoint get_record_loop (get : nat → result (option KadRecord) ClientError) (fallback : result (option (list KadRecord)) ClientError)
    (i : nat) (slept : list Z) (delays : list (option Z)) : Retried (option (list KadRecord)) :=
  match delays with
  | [] => (fallback, slept)
  | duration :: rest =>
    let again := match duration with
                 | Some retry_delay => get_record_loop get fallback (S i) (slept ++ [retry_delay]) rest
                 | None => (fallback, slept)
                 end in
    match get i with
    | Ok (Some record) => (Ok (Some [record]), slept)
    | Ok None => again
    | Err err => if is_split err then (Err err, slept) else if cannot_retry err then (Err err, slept) else again
    end
  end.

Definition get_record_with_retries (strategy : Strategy) (get : nat → result (option KadRecord) ClientError)
    (closest : result (list PeerInfo) ClientError) (arrivals : list PeerInfo → list (result (option KadRecord) ClientError))
    : Retried (option (list KadRecord)) :=
  get_record_loop get (fetch_records_from_closest_peers_fallback closest arrivals) 0 [] (backoff (get_retry strategy)).
End network.

Arguments DriverOffline {_ T}.
Arguments DriverDropped {_ T}.
Arguments Replied {_ T} r.
