(* ===== verification/ClientNetworkProps.v ===== *)
(** * Properties of the client's requests to many peers

    A put succeeds exactly when a quorum of the peers stored the record; what retries come to;
    the selection of closest peers always has as many as asked for, closest first, and prefers
    those the peers agree on; what quotes come to. *)

From stdpp Require Import base gmap countable strings list sorting.
From Stdlib Require Import ZArith Lia.
From S2P Require Import Prelude Text Protocol RecordCache RecordStore RecordStoreProps MerkleTree MerkleTreeProps.
From S2P Require Import Payments PaymentsProps Messages Driver TaskHandler TaskHandlerProps VersionGate ClientNetwork.

Section puts.
Context `{Bls, Libp2pIdentity, Digests, !Serde QuotingMetrics, HashOrder, Kad, Hex, XorNameLib, !ErrorText, Backoff}.
Implicit Types (arrivals : list (result unit ClientError * PeerInfo)) (shown : ClientError → bytes).

(** The peers that stored the record, and those that did not with the text of their error. *)
Definition stored arrivals : list bytes :=
  omap (λ a, match a.1 with Ok _ => Some (pi_peer_id a.2) | Err _ => None end) arrivals.
Definition refused shown arrivals : list (bytes * bytes) :=
  omap (λ a, match a.1 with Ok _ => None | Err e => Some (pi_peer_id a.2, shown e) end) arrivals.

(** A [NonZeroUsize]. *)
Definition quorum_nonzero (q : Quorum) : Prop := match q with QuorumN n => (0 < n)%nat | _ => True end.

Lemma expected_holders_pos q total : quorum_nonzero q → (0 < total)%nat → (0 < expected_holders q total)%nat.
Proof. destruct q; simpl; lia. Qed.

Lemma collect_puts_exact shown expected ok_res err_res arrivals :
  (length ok_res < expected)%nat →
  collect_puts shown expected ok_res err_res arrivals =
    if (expected <=? length ok_res + length (stored arrivals))%nat then Ok tt
    else Err (PutRecordTooManyPeerFailed (ok_res ++ stored arrivals) (err_res ++ refused shown arrivals)).
Proof.
  revert ok_res err_res. induction arrivals as [|[[[]|e] peer] arrivals IH]; intros ok_res err_res Hlt; simpl.
  - rewrite !app_nil_r. destruct (Nat.leb_spec expected (length ok_res + 0)); [lia|done].
  - rewrite length_app. simpl. destruct (Nat.leb_spec expected (length ok_res + 1)) as [Hle|Hgt].
    + by destruct (Nat.leb_spec expected (length ok_res + S (length (stored arrivals)))); [|lia].
    + rewrite IH by (rewrite length_app; simpl; lia). rewrite length_app, <- !app_assoc. simpl.
      by replace (length ok_res + 1 + length (stored arrivals))%nat with (length ok_res + S (length (stored arrivals)))%nat by lia.
  - rewrite IH by done. by rewrite <- !app_assoc.
Qed.

(** The put of one attempt. *)
Lemma put_record_exact shown to q arrivals :
  to ≠ [] → quorum_nonzero q →
  put_record shown to q arrivals =
    if (expected_holders q (min CLOSE_GROUP_SIZE (length to)) <=? length (stored arrivals))%nat then Ok tt
    else Err (PutRecordTooManyPeerFailed (stored arrivals) (refused shown arrivals)).
Proof.
  intros Hto Hq. unfold put_record. assert (0 < min CLOSE_GROUP_SIZE (length to))%nat as Hpos.
  { destruct to; [done|]. unfold CLOSE_GROUP_SIZE. simpl. lia. }
  destruct (Nat.eqb_spec (min CLOSE_GROUP_SIZE (length to)) 0); [lia|].
  by rewrite collect_puts_exact by by apply expected_holders_pos.
Qed.

(** The first attempt that is final, or the last one. *)
Lemma retry_loop_exact {T} (op : nat → result T ClientError) delays i slept :
  let final k := match op k with Ok _ => true | Err e => cannot_retry e end in
  let '(r, slept') := retry_loop op i slept ((Some <$> delays) ++ [None]) in
  ∃ k, (k ≤ length delays)%nat ∧ slept' = slept ++ take k delays ∧ r = op (i + k)%nat ∧
    (∀ j, (j < k)%nat → final (i + j)%nat = false) ∧ (final (i + k)%nat = true ∨ k = length delays).
Proof.
  cbv zeta. revert i slept. induction delays as [|d delays IH]; intros i slept; simpl.
  - destruct (op i) as [t|e] eqn:E; [|destruct (cannot_retry e) eqn:Hc]; exists 0%nat; rewrite Nat.add_0_r, E, app_nil_r; simpl;
      (split_and!; [done..|lia|auto]).
  - destruct (op i) as [t|e] eqn:E; [|destruct (cannot_retry e) eqn:Hc].
    + exists 0%nat. rewrite Nat.add_0_r, E, app_nil_r. split_and!; [lia|done|done|lia|by left].
    + exists 0%nat. rewrite Nat.add_0_r, E, app_nil_r. split_and!; [lia|done|done|lia|by left].
    + specialize (IH (S i) (slept ++ [d])). destruct (retry_loop op (S i) (slept ++ [d]) _) as [r slept'].
      destruct IH as (k & Hk & -> & -> & Hj & Hf). exists (S k). rewrite <- app_assoc. simpl. rewrite <- plus_n_Sm in *.
      split_and!; [lia|done|done| |].
      * intros [|j] Hlt; [by rewrite Nat.add_0_r, E|]. rewrite <- plus_n_Sm. apply Hj. lia.
      * destruct Hf; [by left|right; lia].
Qed.

(** How many attempts a strategy makes; a count that does not fit in 32 bits wraps. *)
Lemma backoff_attempts `{!BackoffLaws} s :
  (0 < attempts s)%nat → Z.of_nat (attempts s) < 2 ^ 32 →
  ∃ delays, length delays = (attempts s - 1)%nat ∧ backoff s = (Some <$> delays) ++ [None].
Proof.
  intros Hpos Hfit. unfold backoff. rewrite Z.mod_small by lia. rewrite Nat2Z.id. by apply backoff_items.
Qed.

(** A put with retries. It succeeds exactly if in one of the attempts of its strategy at
    least the quorum of the first five targets' size stored the record, and then at the first such
    attempt; otherwise every attempt is made, whatever the errors of the peers, and the error of
    the last one names who stored the record and who did not. In particular an answer that the
    record is outdated, which is meant not to be retried, is retried like any other. *)
Theorem put_with_retries_exact `{!BackoffLaws} shown to strategy (arrivals : nat → list (result unit ClientError * PeerInfo)) :
  let q := put_quorum strategy in
  let n := attempts (put_retry strategy) in
  let enough k := (expected_holders q (min CLOSE_GROUP_SIZE (length to)) ≤ length (stored (arrivals k)))%nat in
  to ≠ [] → quorum_nonzero q → (0 < n)%nat → Z.of_nat n < 2 ^ 32 →
  let '(r, slept) := put_record_with_retries shown to strategy arrivals in
  (r = Ok tt ∧ ∃ k, (k < n)%nat ∧ enough k ∧ (∀ j, (j < k)%nat → ¬ enough j) ∧ length slept = k) ∨
  (r = Err (PutRecordTooManyPeerFailed (stored (arrivals (n - 1)%nat)) (refused shown (arrivals (n - 1)%nat))) ∧
   (∀ k, (k < n)%nat → ¬ enough k) ∧ length slept = (n - 1)%nat).
Proof.
  intros q n enough Hto Hq Hn Hfit. unfold put_record_with_retries.
  destruct (backoff_attempts _ Hn Hfit) as (delays & Hlen & ->). fold n in Hlen.
  pose proof (retry_loop_exact (λ i, put_record shown to q (arrivals i)) delays 0 []) as Hloop. cbv zeta in Hloop. fold q.
  destruct (retry_loop _ _ _ _) as [r slept]. destruct Hloop as (k & Hk & -> & -> & Hj & Hfin). cbn [app Nat.add] in *.
  assert (∀ j, (j < k)%nat → ¬ enough j) as Hbefore.
  { intros j Hlt He. specialize (Hj j Hlt). rewrite put_record_exact in Hj by done. unfold enough in He.
    by destruct (Nat.leb_spec (expected_holders q (min CLOSE_GROUP_SIZE (length to))) (length (stored (arrivals j)))); [|lia]. }
  rewrite put_record_exact in * by done.
  destruct (Nat.leb_spec (expected_holders q (min CLOSE_GROUP_SIZE (length to))) (length (stored (arrivals k)))) as [He|He].
  - left. split; [done|]. exists k. rewrite length_take. split_and!; [lia|done|done|lia].
  - right. destruct Hfin as [Hfin| ->]; [done|]. rewrite Hlen, length_take in *. split_and!; [done| |lia].
    intros j Hlt. destruct (decide (j = n - 1)%nat) as [->|]; [unfold enough; lia|]. apply Hbefore. lia.
Qed.
End puts.

Section gets.
Context `{Bls, Libp2pIdentity, Digests, !Serde QuotingMetrics, HashOrder, Kad, Hex, XorNameLib, !ErrorText, Backoff}.
Implicit Types get : nat → result (option KadRecord) ClientError.

(** An outcome that ends the attempts: a record, a split, or an error that is not retried. *)
Definition decisive (o : result (option KadRecord) ClientError) : option (result (option (list KadRecord)) ClientError) :=
  match o with
  | Ok (Some record) => Some (Ok (Some [record]))
  | Ok None => None
  | Err e => if is_split e || cannot_retry e then Some (Err e) else None
  end.

Lemma get_record_loop_exact get fallback delays i slept :
  let '(r, slept') := get_record_loop get fallback i slept ((Some <$> delays) ++ [None]) in
  ∃ k, (k ≤ length delays)%nat ∧ slept' = slept ++ take k delays ∧ (∀ j, (j < k)%nat → decisive (get (i + j)%nat) = None) ∧
    (decisive (get (i + k)%nat) = Some r ∨ decisive (get (i + k)%nat) = None ∧ k = length delays ∧ r = fallback).
Proof.
  revert i slept. induction delays as [|d delays IH]; intros i slept.
  - simpl. destruct (get i) as [[record|]|e] eqn:E; [..|destruct (is_split e) eqn:Hs; [|destruct (cannot_retry e) eqn:Hc]];
      exists 0%nat; rewrite Nat.add_0_r, app_nil_r, E; simpl; rewrite ?Hs, ?Hc; (split_and!; [done|done|lia|auto]).
  - assert (decisive (get i) = None ∧ get_record_loop get fallback i slept ((Some <$> d :: delays) ++ [None]) =
              get_record_loop get fallback (S i) (slept ++ [d]) ((Some <$> delays) ++ [None]) ∨
            ∃ r, decisive (get i) = Some r ∧ get_record_loop get fallback i slept ((Some <$> d :: delays) ++ [None]) = (r, slept))
      as [[Hnone ->]|(r & Hr & ->)].
    { simpl. destruct (get i) as [[record|]|e]; simpl; [eauto..|]. destruct (is_split e); [eauto|]. destruct (cannot_retry e); eauto. }
    + specialize (IH (S i) (slept ++ [d])). destruct (get_record_loop _ _ _ _ _) as [r slept'].
      destruct IH as (k & Hk & -> & Hj & Hf). exists (S k). rewrite <- app_assoc. simpl. rewrite <- plus_n_Sm in *.
      split_and!; [lia|done| |].
      * intros [|j] Hlt; [by rewrite Nat.add_0_r|]. rewrite <- plus_n_Sm. apply Hj. lia.
      * destruct Hf as [?|(? & -> & ?)]; auto.
    + exists 0%nat. rewrite Nat.add_0_r, app_nil_r. split_and!; [lia|done|lia|by left].
Qed.

(** A get with retries returns the outcome of the first attempt that is decisive: a record, a
    split of the holders, or an error that is not retried. If none of the strategy's attempts is,
    it sleeps between all of them and returns what the closest peers give when asked directly: no
    record if they cannot be found or none has one, and otherwise all that they hold, with no
    quorum, the errors of the attempts being dropped. *)
Theorem get_with_retries_exact `{!BackoffLaws} strategy get closest arrivals :
  let n := attempts (get_retry strategy) in
  (0 < n)%nat → Z.of_nat n < 2 ^ 32 →
  let '(r, slept) := get_record_with_retries strategy get closest arrivals in
  (∃ k, (k < n)%nat ∧ length slept = k ∧ (∀ j, (j < k)%nat → decisive (get j) = None) ∧ decisive (get k) = Some r) ∨
  ((∀ k, (k < n)%nat → decisive (get k) = None) ∧ length slept = (n - 1)%nat ∧
   match r with
   | Ok None => ∀ peers record, closest = Ok peers → Ok (Some record) ∉ arrivals peers
   | Ok (Some records) =>
     records ≠ [] ∧ ∃ peers, closest = Ok peers ∧ ∀ record, record ∈ records ↔ Ok (Some record) ∈ arrivals peers
   | Err _ => False
   end).
Proof.
  intros n Hn Hfit. unfold get_record_with_retries. destruct (backoff_attempts _ Hn Hfit) as (delays & Hlen & ->). fold n in Hlen.
  pose proof (get_record_loop_exact get (fetch_records_from_closest_peers_fallback closest arrivals) delays 0 []) as Hloop.
  destruct (get_record_loop _ _ _ _ _) as [r slept]. destruct Hloop as (k & Hk & -> & Hj & Hfin). cbn [app Nat.add] in *.
  destruct Hfin as [Hdec|(Hnone & -> & ->)].
  - left. exists k. rewrite length_take. split_and!; [lia|lia|done|done].
  - right. rewrite length_take, Hlen in *. split_and!; [|lia|].
    + intros j Hlt. destruct (decide (j = n - 1)%nat) as [->|]; [done|]. apply Hj. lia.
    + unfold fetch_records_from_closest_peers_fallback. destruct closest as [peers|e]; [|done].
      set (records := omap _ _).
      assert (∀ record, record ∈ records ↔ Ok (Some record) ∈ arrivals peers) as Hin.
      { intros record. subst records. rewrite list_elem_of_omap. split; [|by eauto].
        intros ([[r|]|e] & Hr & ?); simplify_eq. done. }
      case_bool_decide as Hnil; [|by eauto]. intros peers' record [= <-] Hrec%Hin. rewrite Hnil in Hrec. set_solver.
Qed.
End gets.

Section closest.
Context `{Bls, Libp2pIdentity, Digests, !Serde QuotingMetrics, HashOrder, Kad, Hex, XorNameLib, !ErrorText, Backoff}.
Implicit Types (sel : list PeerInfo * gset bytes) (tier candidates : list PeerInfo) (n : nat) (f : PeerInfo → Z).

(** The ids of peers. *)
Definition ids (l : list PeerInfo) : list bytes := pi_peer_id <$> l.

(** A tier appends its closest peers up to [n]. *)
Lemma select_tier_exact n f tier sel :
  let new := take (n - length sel.1) (sort_by_key f tier) in
  select_tier n f tier sel = (sel.1 ++ new, list_to_set (reverse (ids new)) ∪ sel.2).
Proof.
  unfold select_tier. cbv zeta. revert sel. induction (sort_by_key f tier) as [|c l IH]; intros [s ids]; simpl.
  - rewrite take_nil, app_nil_r. simpl. f_equal. set_solver.
  - rewrite IH. destruct (Nat.leb_spec n (length s)) as [Hle|Hgt].
    + simpl. replace (n - length s)%nat with 0%nat by lia. simpl. rewrite take_0. by rewrite app_nil_r.
    + simpl. rewrite length_app. simpl. destruct (n - length s)%nat as [|k] eqn:Hk; [lia|].
      replace (n - (length s + 1))%nat with k by lia. simpl. rewrite <- app_assoc. f_equal.
      rewrite reverse_cons, list_to_set_app_L. set_solver.
Qed.

Lemma select_tier_full n f tier sel : (n ≤ length sel.1)%nat → select_tier n f tier sel = sel.
Proof.
  intros Hle. rewrite select_tier_exact. replace (n - length sel.1)%nat with 0%nat by lia. rewrite take_0, app_nil_r.
  destruct sel. simpl. f_equal. set_solver.
Qed.

(** The guard of a tier changes nothing. *)
Lemma select_tier_if n f tier sel :
  (if (length sel.1 <? n)%nat then select_tier n f tier sel else sel) = select_tier n f tier sel.
Proof. destruct (Nat.ltb_spec (length sel.1) n); [done|]. by rewrite select_tier_full. Qed.

Record sel_ok n sel : Prop := {
  sel_len : (length sel.1 ≤ n)%nat;
  sel_nodup : NoDup (ids sel.1);
  sel_ids : ∀ x, x ∈ sel.2 ↔ x ∈ ids sel.1;
}.

Lemma take_ids_elem k f tier x : x ∈ ids (take k (sort_by_key f tier)) → x ∈ ids tier.
Proof.
  unfold ids. rewrite !list_elem_of_fmap. intros (c & -> & Hc%elem_of_take_weaken). exists c. split; [done|]. by apply sort_by_key_elem_of in Hc.
Qed.

Lemma select_tier_ok n f tier sel :
  sel_ok n sel → NoDup (ids tier) → (∀ x, x ∈ ids tier → x ∉ ids sel.1) → sel_ok n (select_tier n f tier sel).
Proof.
  intros [Hlen Hnd Hids] Ht Hdisj. rewrite select_tier_exact. split; cbn [fst snd].
  - rewrite length_app, length_take. lia.
  - unfold ids in *. rewrite fmap_app. apply NoDup_app. split; [done|]. split; [intros x Hx Hx'%take_ids_elem; by eapply Hdisj|].
    unfold ids. rewrite fmap_take. eapply sublist_NoDup; [|apply sublist_take].
    by rewrite sort_by_key_perm.
  - intros x. unfold ids in *. rewrite elem_of_union, elem_of_list_to_set, elem_of_reverse, fmap_app, elem_of_app, Hids. tauto.
Qed.

(** The peers asked for their version are not candidates, and each is asked once. *)
Lemma popular_not_in_candidates_ids popular addrs candidates x :
  x ∈ ids (popular_not_in_candidates popular addrs candidates) → x ∈ popular ∧ (x ∉ ids candidates).
Proof.
  unfold popular_not_in_candidates, ids. rewrite list_elem_of_fmap. intros (c & -> & Hc). apply list_elem_of_omap in Hc as (id & Hid & Hc).
  apply list_elem_of_filter in Hid as [Hn Hid%hs_iter_elem_of]. destruct (addrs !! id); [|done]. case_bool_decide; simplify_eq. done.
Qed.

Lemma popular_not_in_candidates_NoDup popular addrs candidates :
  NoDup (ids (popular_not_in_candidates popular addrs candidates)).
Proof.
  unfold popular_not_in_candidates, ids.
  assert (NoDup (filter (λ id, id ∉ (pi_peer_id <$> candidates)) (hs_iter popular))) as Hnd.
  { apply NoDup_filter. unfold hs_iter. rewrite hash_order_perm. apply NoDup_elements. }
  induction Hnd as [|id l Hid Hnd IH]; simpl; [constructor|].
  destruct (addrs !! id) as [set|]; [|done]. case_bool_decide; [done|]. simpl. constructor; [|done].
  rewrite list_elem_of_fmap. intros (c & Hc & Hin). apply list_elem_of_omap in Hin as (id' & Hid' & Hc').
  destruct (addrs !! id'); [|done]. by case_bool_decide; simplify_eq/=.
Qed.

Lemma length_filter_split {A} (P : A → Prop) `{∀ x, Decision (P x)} (l : list A) :
  length l = (length (filter P l) + length (filter (λ x, ¬ P x) l))%nat.
Proof. induction l as [|x l IH]; [done|]. rewrite !filter_cons. repeat case_decide; simpl; try done; lia. Qed.

Lemma ids_filter_NoDup (P : PeerInfo → Prop) `{∀ x, Decision (P x)} l : NoDup (ids l) → NoDup (ids (filter P l)).
Proof. intros Hl. eapply sublist_NoDup; [exact Hl|]. apply fmap_sublist, sublist_filter. Qed.

Lemma ids_filter_elem (P : PeerInfo → Prop) `{∀ x, Decision (P x)} l x : x ∈ ids (filter P l) ↔ ∃ c, c ∈ l ∧ P c ∧ x = pi_peer_id c.
Proof.
  unfold ids. rewrite list_elem_of_fmap. setoid_rewrite list_elem_of_filter. naive_solver.
Qed.

(** The candidates that are not selected and those that are make at least all of them. *)
Lemma unselected_enough n sel candidates :
  sel_ok n sel → NoDup (ids candidates) → (length candidates ≤ length sel.1 + length (filter (λ c, pi_peer_id c ∉ sel.2) candidates))%nat.
Proof.
  intros [_ Hnd Hids] Hc. rewrite (length_filter_split (λ c, pi_peer_id c ∈ sel.2) candidates).
  assert (length (filter (λ c, pi_peer_id c ∈ sel.2) candidates) ≤ length sel.1)%nat; [|lia].
  rewrite <- (length_fmap pi_peer_id sel.1), <- (length_fmap pi_peer_id (filter _ _)).
  apply submseteq_length, NoDup_submseteq.
  - by apply ids_filter_NoDup.
  - intros x (c & _ & Hin & ->)%ids_filter_elem. by apply Hids.
Qed.

(** A tier of candidates not yet selected. *)
Lemma select_candidates_ok n f sel (P : PeerInfo → Prop) `{∀ x, Decision (P x)} candidates :
  sel_ok n sel → NoDup (ids candidates) → (∀ c, c ∈ candidates → P c → pi_peer_id c ∉ sel.2) →
  let sel' := select_tier n f (filter P candidates) sel in
  sel_ok n sel' ∧ ∃ r, sel'.1 = sel.1 ++ r ∧ ∀ p, p ∈ r → p ∈ candidates.
Proof.
  intros Hok Hnd HP. cbv zeta. split.
  - apply select_tier_ok; [done|by apply ids_filter_NoDup|]. intros x (c & Hc & Hp & ->)%ids_filter_elem Hx.
    apply (HP c Hc Hp). by apply (sel_ids _ _ Hok).
  - rewrite select_tier_exact. eexists. split; [done|]. intros p Hp%elem_of_take_weaken.
    by apply sort_by_key_elem_of, list_elem_of_filter in Hp as [_ Hp].
Qed.

(** The selection before it is sorted: the popular candidates, then peers that answered, then the
    other candidates. *)
Definition tier1 (addr : NetworkAddress) n candidates (popular : gset bytes) : list PeerInfo :=
  take n (sort_by_key (λ c, peer_distance addr (pi_peer_id c)) (filter (λ c, pi_peer_id c ∈ popular) candidates)).

(** The four tiers, with the peers that are no candidates but [asked] given. *)
Definition tiers n f (popular : gset bytes) (farthest : option Z) candidates (asked : list PeerInfo) : list PeerInfo * gset bytes :=
  let sel := select_tier n f (filter (λ c, pi_peer_id c ∈ popular) candidates) ([], ∅) in
  let sel := if (length sel.1 <? n)%nat then select_tier n f asked sel else sel in
  let sel := match farthest with
             | Some farthest_popular =>
               if (length sel.1 <? n)%nat then
                 select_tier n f (filter (λ c, (pi_peer_id c ∉ sel.2) ∧ farthest_popular < f c) candidates) sel
               else sel
             | None => sel
             end in
  if (length sel.1 <? n)%nat then select_tier n f (filter (λ c, pi_peer_id c ∉ sel.2) candidates) sel else sel.

(** The tiers fill all places with distinct peers, popular candidates first; the peers asked get all
    the places they need if these leave enough. *)
Lemma tiers_selection n f popular farthest candidates asked :
  NoDup (ids candidates) → (n ≤ length candidates)%nat → NoDup (ids asked) → (∀ x, x ∈ ids asked → x ∉ ids candidates) →
  let sel := tiers n f popular farthest candidates asked in
  let first := take n (sort_by_key f (filter (λ c, pi_peer_id c ∈ popular) candidates)) in
  ∃ rest, sel_ok n sel ∧ length sel.1 = n ∧ sel.1 = first ++ rest ∧
    (∀ p, p ∈ sel.1 → p ∈ candidates ∨ p ∈ asked) ∧
    ((length first + length asked ≤ n)%nat → ∀ p, p ∈ asked → p ∈ sel.1).
Proof.
  intros Hnd Hn Hasked Hids. unfold tiers. cbv zeta. set (first := take n _).
  set (sel1 := select_tier n f _ ([], ∅)). rewrite (select_tier_if n f asked sel1). set (sel2 := select_tier n f asked sel1).
  assert (sel_ok n sel1 ∧ sel1.1 = first) as [Hok1 Ht1].
  { split; [|subst sel1; rewrite select_tier_exact; simpl; by rewrite Nat.sub_0_r].
    apply select_tier_ok; [|by apply ids_filter_NoDup|set_solver]. split; simpl; [lia|constructor|set_solver]. }
  assert (∀ p, p ∈ first → p ∈ candidates) as Hfirst.
  { intros p Hp%elem_of_take_weaken. apply sort_by_key_elem_of, list_elem_of_filter in Hp. tauto. }
  assert (sel_ok n sel2) as Hok2.
  { apply select_tier_ok; [done|done|]. intros x Hx (p & -> & Hp)%list_elem_of_fmap. rewrite Ht1 in Hp.
    apply (Hids _ Hx). by apply list_elem_of_fmap_2, Hfirst. }
  assert (sel2.1 = first ++ take (n - length first) (sort_by_key f asked)) as Hr2 by (subst sel2; by rewrite select_tier_exact, Ht1).
  set (sel3 := match farthest with Some _ => _ | None => _ end).
  assert (sel_ok n sel3 ∧ ∃ r, sel3.1 = sel2.1 ++ r ∧ ∀ p, p ∈ r → p ∈ candidates) as (Hok3 & r3 & Hr3 & Hin3).
  { subst sel3. destruct farthest as [far|]; [|split; [done|]; exists []; rewrite app_nil_r; set_solver].
    rewrite select_tier_if. apply select_candidates_ok; [done|done|]. by intros c _ [? _]. }
  rewrite select_tier_if. set (sel4 := select_tier n f _ sel3).
  assert (sel_ok n sel4 ∧ ∃ r, sel4.1 = sel3.1 ++ r ∧ ∀ p, p ∈ r → p ∈ candidates) as (Hok4 & r4 & Hr4 & Hin4).
  { apply select_candidates_ok; [done|done|]. by intros c _ ?. }
  assert (length sel4.1 = n) as Hlen.
  { subst sel4. rewrite select_tier_exact. cbn [fst]. rewrite length_app, length_take, sort_by_key_length.
    pose proof (unselected_enough n sel3 candidates Hok3 Hnd). pose proof (sel_len _ _ Hok3). lia. }
  eexists. split_and!; [done|done|by rewrite Hr4, Hr3, Hr2, <- !app_assoc| |].
  - intros p. rewrite Hr4, Hr3, Hr2, !elem_of_app. intros [[[Hp|Hp]|Hp]|Hp]; [by left; auto| |by left; auto..].
    right. apply elem_of_take_weaken, sort_by_key_elem_of in Hp. done.
  - intros Hroom p Hp. rewrite Hr4, Hr3, Hr2, !elem_of_app. left. left. right.
    rewrite take_ge by (rewrite sort_by_key_length; lia). by apply sort_by_key_elem_of.
Qed.

(** The first of a sorted tier: one that is left out found the places taken, by peers at most as far. *)
Lemma tier_left_out k f tier p :
  p ∈ tier → p ∉ take k (sort_by_key f tier) →
  length (take k (sort_by_key f tier)) = k ∧ ∀ q, q ∈ take k (sort_by_key f tier) → f q ≤ f p.
Proof.
  intros Hp Hout. assert (p ∈ drop k (sort_by_key f tier)) as Hd.
  { assert (p ∈ take k (sort_by_key f tier) ++ drop k (sort_by_key f tier)) as [?|?]%elem_of_app by (rewrite take_drop; by apply sort_by_key_elem_of); done. }
  split.
  - rewrite length_take. assert (length (drop k (sort_by_key f tier)) ≠ 0%nat) as Hl by (intros E%length_zero_iff_nil; rewrite E in Hd; by apply not_elem_of_nil in Hd).
    rewrite length_drop in Hl. lia.
  - intros q Hq. pose proof (sort_by_key_sorted f tier) as Hs. rewrite <- (take_drop k (sort_by_key f tier)) in Hs.
    apply StronglySorted_app in Hs as (Hall & _). by apply Hall.
Qed.

(** The place of a peer in the order of the tiers. *)
Definition tier_rank (f : PeerInfo → Z) (popular : gset bytes) (farthest : option Z) candidates (p : PeerInfo) : nat :=
  if decide (p ∈ candidates) then
    if decide (pi_peer_id p ∈ popular) then 0 else
    match farthest with Some far => if decide (far < f p) then 2 else 3 | None => 3 end
  else 1.

(** A candidate that was not selected is not among the selected ids. *)
Lemma unselected_id n sel candidates asked p :
  sel_ok n sel → NoDup (ids candidates) → (∀ x, x ∈ ids asked → x ∉ ids candidates) → (∀ c, c ∈ sel.1 → c ∈ candidates ∨ c ∈ asked) →
  p ∈ candidates → p ∉ sel.1 → pi_peer_id p ∉ sel.2.
Proof.
  intros Hok Hnd Hids Hfrom Hp Hout. rewrite (sel_ids _ _ Hok). intros (c & Hid & Hc)%list_elem_of_fmap.
  destruct (Hfrom c Hc) as [Hc'|Hc'].
  - apply Hout. apply list_elem_of_lookup in Hp as [i Hi], Hc' as [j Hj].
    assert (i = j) as <- by (eapply (NoDup_lookup (ids candidates)); [done|..]; unfold ids; rewrite list_lookup_fmap; [by rewrite Hi|by rewrite Hj; simpl; f_equal]).
    by simplify_eq.
  - apply (Hids (pi_peer_id c)); [by apply list_elem_of_fmap_2|]. rewrite <- Hid. by apply list_elem_of_fmap_2.
Qed.

(** One tier after a selection: a peer of it that is left out finds the selection full, with peers of the
    tier at most as far. *)
Lemma select_left_out n f tier sel p :
  (length sel.1 ≤ n)%nat → p ∈ tier → p ∉ (select_tier n f tier sel).1 →
  length (select_tier n f tier sel).1 = n ∧ ∀ q, q ∈ (select_tier n f tier sel).1 → q ∈ sel.1 ∨ (q ∈ tier ∧ f q ≤ f p).
Proof.
  rewrite select_tier_exact. cbn [fst]. intros Hlen Hp [_ Hout]%not_elem_of_app. destruct (tier_left_out _ _ _ _ Hp Hout) as [Hk Hle].
  split; [rewrite length_app; lia|]. intros q [Hq|Hq]%elem_of_app; [by left|right]. split; [|by apply Hle].
  by apply elem_of_take_weaken, sort_by_key_elem_of in Hq.
Qed.

Lemma select_tier_elem n f tier sel q : q ∈ (select_tier n f tier sel).1 → q ∈ sel.1 ∨ q ∈ tier.
Proof.
  rewrite select_tier_exact. cbn [fst]. intros [Hq|Hq]%elem_of_app; [by left|right]. by apply elem_of_take_weaken, sort_by_key_elem_of in Hq.
Qed.

Lemma select_tier_keeps n f tier sel q : q ∈ sel.1 → q ∈ (select_tier n f tier sel).1.
Proof. rewrite select_tier_exact. cbn [fst]. intros Hq. apply elem_of_app. by left. Qed.

(** *** The order of the tiers

    A peer is left out only for peers of an earlier tier, or of its own and at most as far. *)
Section priority.
Context (n : nat) (f : PeerInfo → Z) (popular : gset bytes) (farthest : option Z) (candidates asked : list PeerInfo).
Context (Hnd : NoDup (ids candidates)) (Hasked : NoDup (ids asked)) (Hids : ∀ x, x ∈ ids asked → x ∉ ids candidates).

Let L1 := filter (λ c, pi_peer_id c ∈ popular) candidates.
Let sel1 := select_tier n f L1 ([], ∅).
Let sel2 := select_tier n f asked sel1.
Let L3 := match farthest with Some far => filter (λ c, (pi_peer_id c ∉ sel2.2) ∧ far < f c) candidates | None => [] end.
Let sel3 := select_tier n f L3 sel2.
Let L4 := filter (λ c, pi_peer_id c ∉ sel3.2) candidates.
Let sel4 := select_tier n f L4 sel3.
Let rank := tier_rank f popular farthest candidates.

Lemma tiers_are : tiers n f popular farthest candidates asked = sel4.
Proof.
  unfold tiers. fold L1. fold sel1. rewrite (select_tier_if n f asked sel1). fold sel2.
  assert (match farthest with
          | Some far => if (length sel2.1 <? n)%nat then select_tier n f (filter (λ c, (pi_peer_id c ∉ sel2.2) ∧ far < f c) candidates) sel2 else sel2
          | None => sel2 end = sel3) as ->.
  { subst sel3 L3. destruct farthest; [by rewrite select_tier_if|]. rewrite select_tier_exact. simpl. rewrite take_nil, app_nil_r. simpl.
    rewrite left_id_L by apply _. by destruct sel2. }
  by rewrite select_tier_if.
Qed.

(** Whence the members of each tier, and their ranks. *)
Lemma rank1 c : c ∈ L1 → c ∈ candidates ∧ rank c = 0%nat.
Proof. intros [Hp Hc]%list_elem_of_filter. split; [done|]. subst rank. unfold tier_rank. by rewrite !decide_True. Qed.

Lemma rank2 c : c ∈ asked → rank c = 1%nat.
Proof.
  intros Hc. subst rank. unfold tier_rank. rewrite decide_False; [done|].
  intros Hc'. apply (Hids (pi_peer_id c)); by apply list_elem_of_fmap_2.
Qed.

Lemma rank3 c : c ∈ L3 → c ∈ candidates ∧ (rank c ≤ 2)%nat.
Proof.
  intros Hc. subst L3 rank. unfold tier_rank. destruct farthest as [far|]; [|by apply not_elem_of_nil in Hc].
  apply list_elem_of_filter in Hc as [[_ Hf] Hc]. split; [done|]. rewrite decide_True by done. case_decide; [lia|]. rewrite decide_True by done. lia.
Qed.

Lemma from_tier1 c : c ∈ sel1.1 → c ∈ L1.
Proof. intros [Hc|Hc]%select_tier_elem; [by apply not_elem_of_nil in Hc|done]. Qed.

Lemma from_tiers2 c : c ∈ sel2.1 → c ∈ candidates ∨ c ∈ asked.
Proof. intros [Hc|Hc]%select_tier_elem; [left; by apply rank1, from_tier1|by right]. Qed.

Lemma from_tiers3 c : c ∈ sel3.1 → c ∈ candidates ∨ c ∈ asked.
Proof. intros [Hc|Hc]%select_tier_elem; [by apply from_tiers2|left; by apply rank3]. Qed.

Lemma rank_selected2 c : c ∈ sel2.1 → (rank c ≤ 1)%nat.
Proof. intros [Hc|Hc]%select_tier_elem; [rewrite (proj2 (rank1 _ (from_tier1 _ Hc)))|rewrite (rank2 _ Hc)]; lia. Qed.

(** The selections are well formed. *)
Lemma sel1_ok : sel_ok n sel1.
Proof. apply select_tier_ok; [|by apply ids_filter_NoDup|set_solver]. split; simpl; [lia|constructor|set_solver]. Qed.

Lemma sel2_ok : sel_ok n sel2.
Proof.
  apply select_tier_ok; [apply sel1_ok|done|]. intros x Hx (c & -> & Hc)%list_elem_of_fmap.
  apply (Hids _ Hx), list_elem_of_fmap_2. by apply rank1, from_tier1.
Qed.

Lemma sel3_ok : sel_ok n sel3.
Proof.
  pose proof sel2_ok as Hok2. subst sel3 L3. destruct farthest as [far|]; [|apply select_tier_ok; [done|constructor|set_solver]].
  apply (proj1 (select_candidates_ok n f sel2 (λ c, (pi_peer_id c ∉ sel2.2) ∧ far < f c) candidates Hok2 Hnd ltac:(by intros c _ [? _]))).
Qed.

(** Where a candidate of no majority that is left out belongs. *)
Lemma left_out_far p : p ∈ candidates → p ∉ sel4.1 → pi_peer_id p ∉ popular → p ∈ L3 → rank p = 2%nat.
Proof.
  intros Hp _ Hnp Hp3. subst rank L3. unfold tier_rank. rewrite decide_True, decide_False by done.
  destruct farthest as [far|]; [|by apply not_elem_of_nil in Hp3].
  apply list_elem_of_filter in Hp3 as [[_ Hf] _]. by rewrite decide_True.
Qed.

Lemma left_out_rest p : p ∈ candidates → p ∉ sel4.1 → pi_peer_id p ∉ popular → p ∉ L3 → p ∈ L4 ∧ rank p = 3%nat.
Proof.
  intros Hp Hout Hnp Hn3.
  assert (p ∉ sel3.1) as Hout3 by (intros ?; by apply Hout, select_tier_keeps).
  assert (p ∉ sel2.1) as Hout2 by (intros ?; by apply Hout3, select_tier_keeps).
  split; [apply list_elem_of_filter; split; [|done]; by apply (unselected_id n sel3 candidates asked p sel3_ok Hnd Hids from_tiers3)|].
  assert (pi_peer_id p ∉ sel2.2) as Hid by (by apply (unselected_id n sel2 candidates asked p sel2_ok Hnd Hids from_tiers2)).
  unfold rank, tier_rank. rewrite decide_True, decide_False by done. unfold L3 in Hn3. destruct farthest as [far|]; [|done].
  apply decide_False. intros Hf. by apply Hn3, list_elem_of_filter.
Qed.

Lemma tiers_priority p q :
  p ∈ candidates ∨ p ∈ asked → p ∉ (tiers n f popular farthest candidates asked).1 → q ∈ (tiers n f popular farthest candidates asked).1 →
  (rank q < rank p)%nat ∨ (rank q = rank p ∧ f q ≤ f p).
Proof.
  rewrite tiers_are. intros Hp Hout Hq.
  assert (p ∉ sel3.1) as Hout3 by (intros ?; by apply Hout, select_tier_keeps).
  assert (p ∉ sel2.1) as Hout2 by (intros ?; by apply Hout3, select_tier_keeps).
  assert (p ∉ sel1.1) as Hout1 by (intros ?; by apply Hout2, select_tier_keeps).
  destruct Hp as [Hp|Hp].
  - destruct (decide (p ∈ L1)) as [Hp1|Hn1].
    { destruct (select_left_out n f L1 ([], ∅) p) as [Hl Hle]; [simpl; lia|done..|]. fold sel1 in Hl, Hle.
      assert (sel2 = sel1) as E2 by (apply select_tier_full; lia). assert (sel3 = sel2) as E3 by (apply select_tier_full; rewrite E2; lia).
      assert (sel4 = sel3) as E4 by (apply select_tier_full; rewrite E3, E2; lia). rewrite E4, E3, E2 in Hq.
      right. destruct (Hle q Hq) as [Hq'|[Hq' Hf]]; [by apply not_elem_of_nil in Hq'|]. by rewrite (proj2 (rank1 _ Hp1)), (proj2 (rank1 _ Hq')). }
    assert (pi_peer_id p ∉ popular) as Hnp by (intros Hpop; apply Hn1, list_elem_of_filter; done).
    destruct (decide (p ∈ L3)) as [Hp3|Hn3].
    + rewrite (left_out_far p) by done.
      destruct (select_left_out n f L3 sel2 p) as [Hl Hle]; [apply (sel_len _ _ sel2_ok)|done..|]. fold sel3 in Hl, Hle.
      assert (sel4 = sel3) as E4 by (apply select_tier_full; lia). rewrite E4 in Hq.
      destruct (Hle q Hq) as [Hq'%rank_selected2|[[_ Hr]%rank3 Hf]]; [lia|]. destruct (decide (rank q = 2%nat)); [by right|left; lia].
    + destruct (left_out_rest p) as [Hp4 Hr]; [done..|]. rewrite Hr.
      destruct (select_left_out n f L4 sel3 p) as [_ Hle]; [apply (sel_len _ _ sel3_ok)|done..|].
      destruct (Hle q Hq) as [[Hq'%rank_selected2|[_ Hq']%rank3]%select_tier_elem|[_ Hf]]; [lia..|].
      assert (rank q ≤ 3)%nat by (unfold rank, tier_rank; repeat case_match; lia). destruct (decide (rank q = 3%nat)); [by right|left; lia].
  - destruct (select_left_out n f asked sel1 p) as [Hl Hle]; [apply (sel_len _ _ sel1_ok)|done..|]. fold sel2 in Hl, Hle.
    assert (sel3 = sel2) as E3 by (apply select_tier_full; lia). assert (sel4 = sel3) as E4 by (apply select_tier_full; rewrite E3; lia).
    rewrite E4, E3 in Hq. rewrite (rank2 _ Hp).
    destruct (Hle q Hq) as [Hq'|[Hq' Hf]]; [left; rewrite (proj2 (rank1 _ (from_tier1 _ Hq'))); lia|right; by rewrite (rank2 _ Hq')].
Qed.
End priority.

(** Peers that are no candidates but popular, and that answered with a version. *)
Definition answered_popular (n : nat) candidates (results : CloseReplies)
    (version_results : list PeerInfo → list (PeerInfo * DriverReply bytes)) (p : PeerInfo) : Prop :=
  let '(counts, addrs) := count_replies results in
  let popular := popular_peers n counts in
  pi_peer_id p ∈ popular ∧ (pi_peer_id p ∉ ids candidates) ∧
  ∃ reply, (p, reply) ∈ version_results (popular_not_in_candidates popular addrs candidates) ∧ is_Some (get_node_version reply).

Lemma select_closest_selection addr n candidates results version_results :
  NoDup (ids candidates) → (n ≤ length candidates)%nat → (∀ l, (version_results l).*1 ≡ₚ l) →
  ∃ sel rest, sel_ok n sel ∧ length sel.1 = n ∧
    sel.1 = tier1 addr n candidates (popular_peers n (count_replies results).1) ++ rest ∧
    (∀ p, p ∈ sel.1 → p ∈ candidates ∨ answered_popular n candidates results version_results p) ∧
    select_closest addr n candidates results version_results =
      Ok (sort_by_key (λ c, peer_distance addr (pi_peer_id c)) sel.1).
Proof.
  intros Hnd Hn Hver. unfold select_closest, answered_popular. destruct (count_replies results) as [counts addrs]. cbv zeta. cbn [fst].
  set (f := λ c, peer_distance addr (pi_peer_id c)). set (popular := popular_peers n counts).
  set (farthest := max_distance _). set (asked := filter _ (version_results _)).
  change (if (length (if (_ <? n)%nat then _ else _).1 <? n)%nat then _ else _) with
    (if (length (tiers n f popular farthest candidates asked.*1).1 <? n)%nat then
       Err (InsufficientPeers (length (tiers n f popular farthest candidates asked.*1).1) n (tiers n f popular farthest candidates asked.*1).1)
     else Ok (sort_by_key f (tiers n f popular farthest candidates asked.*1).1)).
  assert (∀ p, p ∈ asked.*1 → ∃ reply, (p, reply) ∈ version_results (popular_not_in_candidates popular addrs candidates) ∧
    is_Some (get_node_version reply)) as Hasked.
  { intros p ([p' reply] & -> & [Hok Hin]%list_elem_of_filter)%list_elem_of_fmap. eauto. }
  assert (∀ x, x ∈ ids asked.*1 → x ∈ popular ∧ (x ∉ ids candidates)) as Hids.
  { intros x (p & -> & (reply & Hin & _)%Hasked)%list_elem_of_fmap. apply (popular_not_in_candidates_ids _ addrs).
    apply list_elem_of_fmap_2. rewrite <- Hver. by apply (list_elem_of_fmap_2 fst) in Hin. }
  destruct (tiers_selection n f popular farthest candidates asked.*1) as (rest & Hok & Hlen & Hsel & Hfrom & _); [done|done| |by intros x [_ ?]%Hids|].
  { pose proof (popular_not_in_candidates_NoDup popular addrs candidates) as Hpop. unfold ids in Hpop. rewrite <- Hver in Hpop.
    eapply sublist_NoDup; [exact Hpop|]. do 2 apply fmap_sublist. apply sublist_filter. }
  destruct (Nat.ltb_spec (length (tiers n f popular farthest candidates asked.*1).1) n); [lia|].
  exists (tiers n f popular farthest candidates asked.*1), rest. split_and!; [done|done|done| |done].
  intros p [Hp|Hp]%Hfrom; [by left|]. right. destruct (Hids (pi_peer_id p)) as [? ?]; [by apply list_elem_of_fmap_2|].
  split_and!; [done..|by apply Hasked].
Qed.

(** The closest peers. If kademlia gives at least the [n] candidates asked for, exactly [n]
    distinct peers are returned, in the order of their distance, whatever the peers answer; each is
    a candidate, or was reported often enough and answered with a version; and a candidate that is
    reported often enough is left out only for [n] such candidates at most as far. *)
Theorem closest_peers_exact addr n candidates results version_results :
  NoDup (ids candidates) → (n ≤ length candidates)%nat → (∀ l, (version_results l).*1 ≡ₚ l) →
  let popular := popular_peers n (count_replies (results candidates)).1 in
  let dist p := peer_distance addr (pi_peer_id p) in
  ∃ peers, get_closest_n_peers addr n (Replied (Ok candidates)) results version_results = Ok peers ∧
    length peers = n ∧ NoDup (ids peers) ∧ StronglySorted (λ p1 p2, dist p1 ≤ dist p2) peers ∧
    (∀ p, p ∈ peers → p ∈ candidates ∨ answered_popular n candidates (results candidates) version_results p) ∧
    (∀ c, c ∈ candidates → pi_peer_id c ∈ popular →
      c ∈ peers ∨ ∀ p, p ∈ peers → p ∈ candidates ∧ pi_peer_id p ∈ popular ∧ dist p ≤ dist c).
Proof.
  intros Hnd Hn Hver popular dist.
  destruct (select_closest_selection addr n candidates (results candidates) version_results Hnd Hn Hver)
    as (sel & rest & Hok & Hlen & Hsel & Hfrom & Hres). fold dist popular in Hres, Hsel.
  unfold get_closest_n_peers, enough_peers. simpl. destruct (Nat.ltb_spec (length candidates) n); [lia|]. simpl.
  exists (sort_by_key dist sel.1). split_and!; [done|by rewrite sort_by_key_length| |apply sort_by_key_sorted| |].
  - unfold ids. rewrite sort_by_key_perm. apply (sel_nodup _ _ Hok).
  - intros p Hp%sort_by_key_elem_of. by apply Hfrom.
  - intros c Hc Hpop. setoid_rewrite sort_by_key_elem_of. rewrite Hsel. unfold tier1 in *.
    set (l := sort_by_key _ _) in *. assert (c ∈ l) as Hl by (subst l; by apply sort_by_key_elem_of, list_elem_of_filter).
    rewrite <- (take_drop n l), elem_of_app in Hl. destruct Hl as [Hl|Hl]; [left; set_solver|]. right.
    assert (rest = []) as ->.
    { apply nil_length_inv. rewrite Hsel, length_app, length_take in Hlen.
      assert (n < length l)%nat; [|lia]. apply list_elem_of_lookup in Hl as [i Hi%lookup_lt_Some]. rewrite length_drop in Hi. lia. }
    rewrite app_nil_r. intros p Hp. assert (StronglySorted (key_le dist) l) as Hs by apply sort_by_key_sorted.
    rewrite <- (take_drop n l) in Hs.
    assert (key_le dist p c) by by apply StronglySorted_app in Hs as (Hs & _ & _); apply Hs.
    apply elem_of_take_weaken, sort_by_key_elem_of, list_elem_of_filter in Hp. tauto.
Qed.

(** How often a peer is reported: once for each list it answered with, and once for each place in
    a list. *)
Definition mentions (p : bytes) (l : list (NetworkAddress * list bytes)) : nat :=
  length (filter (λ e, as_peer_id e.1 = Some p) l).

Fixpoint appearances (p : bytes) (results : CloseReplies) : nat :=
  match results with
  | [] => 0
  | (responder, Ok l) :: results => (if decide (responder = p) then 1 else 0) + mentions p l + appearances p results
  | (_, Err _) :: results => appearances p results
  end.

Lemma count_peer_lookup p q counts :
  default 0%nat (count_peer q counts !! p) = ((if decide (q = p) then 1 else 0) + default 0 (counts !! p))%nat.
Proof.
  unfold count_peer. case_decide as Hq; [subst; by rewrite lookup_insert_eq|by rewrite lookup_insert_ne].
Qed.

Lemma count_reply_lookup p responder l acc :
  default 0%nat ((count_reply acc (responder, Ok l)).1 !! p) =
    ((if decide (responder = p) then 1 else 0) + mentions p l + default 0 (acc.1 !! p))%nat.
Proof.
  simpl. rewrite <- Nat.add_assoc, (Nat.add_comm (mentions p l)), Nat.add_assoc, <- count_peer_lookup.
  set (acc1 := (count_peer responder acc.1, acc.2)). change (count_peer responder acc.1) with acc1.1.
  generalize acc1. clear acc acc1. unfold mentions. induction l as [|[a addrs] l IH]; intros acc; [simpl; lia|]. cbn [foldl]. rewrite IH, filter_cons. simpl.
  destruct (as_peer_id a) as [q|]; simpl; [rewrite count_peer_lookup|]; repeat case_decide; simplify_eq/=; lia.
Qed.

Lemma count_replies_lookup p results : default 0%nat ((count_replies results).1 !! p) = appearances p results.
Proof.
  assert (∀ acc, default 0%nat ((foldl count_reply acc results).1 !! p) = (appearances p results + default 0 (acc.1 !! p))%nat) as Hgen.
  { induction results as [|[responder [l|e]] results IH]; intros acc; [done|..]; cbn [foldl]; rewrite IH; [|done].
    rewrite count_reply_lookup. simpl. lia. }
  unfold count_replies. rewrite Hgen. simpl. rewrite lookup_empty. simpl. lia.
Qed.

(** Who counts as popular. A peer is popular exactly if it appears more than [n / 2] times,
    where every place in a list counts: one responder that names a peer often enough makes it
    popular alone, whoever else answers, though popularity is meant to say that several nodes
    agree. *)
Theorem popular_counts_appearances n results p :
  (p ∈ popular_peers n (count_replies results).1 ↔ (n / 2 < appearances p results)%nat) ∧
  (∀ responder l, (responder, Ok l) ∈ results → (n / 2 < mentions p l)%nat → p ∈ popular_peers n (count_replies results).1).
Proof.
  assert (p ∈ popular_peers n (count_replies results).1 ↔ (n / 2 < appearances p results)%nat) as Hiff.
  { unfold popular_peers. rewrite elem_of_dom, <- count_replies_lookup. unfold is_Some. setoid_rewrite map_lookup_filter_Some. simpl.
    split; [intros (c & -> & Hc); done|]. destruct ((count_replies results).1 !! p) as [c|]; simpl; [eauto|lia]. }
  split; [exact Hiff|]. intros responder l Hin Hl. apply Hiff. eapply Nat.lt_le_trans; [exact Hl|]. clear Hl Hiff.
  induction results as [|[r [l'|e]] results IH]; [by apply not_elem_of_nil in Hin|..]; simpl; apply elem_of_cons in Hin as [?|Hin]; simplify_eq;
    try specialize (IH Hin); lia.
Qed.
End closest.

Section quotes.
Context `{Bls, Libp2pIdentity, Digests, !Serde QuotingMetrics, HashOrder, Kad, Hex, XorNameLib, !ErrorText, Backoff}.
Implicit Types arrivals : list (result (option (PeerInfo * PaymentQuote)) ClientError * PeerInfo).

Definition quotes_of arrivals : list (PeerInfo * PaymentQuote) :=
  omap (λ a, match a.1 with Ok (Some q) => Some q | _ => None end) arrivals.
Definition free_of arrivals : list PeerInfo := omap (λ a, match a.1 with Ok None => Some a.2 | _ => None end) arrivals.
Definition errors_of arrivals : list ClientError := omap (λ a, match a.1 with Err e => Some e | _ => None end) arrivals.

Definition quotes_outcome quotes free errors (r : result (option (list (PeerInfo * PaymentQuote))) ClientError) : Prop :=
  match r with
  | Ok (Some qs) => length qs = CLOSE_GROUP_SIZE ∧ qs = take CLOSE_GROUP_SIZE quotes
  | Ok None => (CLOSE_GROUP_SIZE_MAJORITY ≤ length (free : list PeerInfo))%nat
  | Err e => e = InsufficientQuotes (length quotes) (length free) (length errors) errors ∧
             (length quotes < CLOSE_GROUP_SIZE)%nat ∧ (length free < CLOSE_GROUP_SIZE_MAJORITY)%nat
  end.

Lemma collect_quotes_outcome arrivals quotes free errors :
  (arrivals = [] → (length quotes < CLOSE_GROUP_SIZE)%nat) → (length free < CLOSE_GROUP_SIZE_MAJORITY)%nat →
  quotes_outcome (quotes ++ quotes_of arrivals) (free ++ free_of arrivals) (errors ++ errors_of arrivals)
    (collect_quotes quotes free errors arrivals).
Proof.
  revert quotes free errors. induction arrivals as [|[res peer] arrivals IH]; intros quotes free errors Hq Hf.
  - simpl. rewrite !app_nil_r. auto.
  - cbn [collect_quotes]. cbv zeta. set (quotes' := match res with Ok (Some _) => _ | _ => quotes end).
    set (free' := match res with Ok None => _ | _ => free end). set (errors' := match res with Err _ => _ | _ => errors end).
    assert (quotes ++ quotes_of ((res, peer) :: arrivals) = quotes' ++ quotes_of arrivals) as ->
      by (subst quotes'; destruct res as [[|]|]; simpl; by rewrite <- ?app_assoc).
    assert (free ++ free_of ((res, peer) :: arrivals) = free' ++ free_of arrivals) as ->
      by (subst free'; destruct res as [[|]|]; simpl; by rewrite <- ?app_assoc).
    assert (errors ++ errors_of ((res, peer) :: arrivals) = errors' ++ errors_of arrivals) as ->
      by (subst errors'; destruct res as [[|]|]; simpl; by rewrite <- ?app_assoc).
    destruct ((_ <=? _)%nat && _) eqn:Hdone.
    + apply andb_true_iff in Hdone as [Hle%Nat.leb_le _]. split; [rewrite length_take; lia|]. by rewrite take_app_le.
    + destruct (Nat.leb_spec CLOSE_GROUP_SIZE_MAJORITY (length free')) as [Hfree|Hfree]; [simpl; rewrite length_app; lia|].
      apply IH; [|done]. intros ->. rewrite (bool_decide_true ([] = [])) in Hdone by done.
      rewrite orb_true_r, andb_true_r in Hdone. by apply Nat.leb_gt in Hdone.
Qed.

(** What the answers to a request for quotes come to, in whatever order they arrive. Quotes
    are returned only as the first five that arrived; that nothing has to be paid only if three
    peers say so; the request fails only when there are fewer of both, so that of ten peers at
    least four failed. *)
Theorem get_quotes_outcome peers arrivals_of :
  let arrivals := arrivals_of peers in
  quotes_outcome (quotes_of arrivals) (free_of arrivals) (errors_of arrivals) (get_quotes (Ok peers) arrivals_of) ∧
  (∀ e, get_quotes (Ok peers) arrivals_of = Err e → (length arrivals ≤ length (errors_of arrivals) + 6)%nat).
Proof.
  cbv zeta. simpl. set (arrivals := arrivals_of peers).
  assert (quotes_outcome (quotes_of arrivals) (free_of arrivals) (errors_of arrivals) (collect_quotes [] [] [] arrivals)) as Hout
    by (apply (collect_quotes_outcome arrivals [] [] []); unfold CLOSE_GROUP_SIZE_MAJORITY, CLOSE_GROUP_SIZE; simpl; lia).
  split; [exact Hout|]. intros e He. rewrite He in Hout. destruct Hout as (_ & Hq & Hf).
  assert (length arrivals = length (quotes_of arrivals) + length (free_of arrivals) + length (errors_of arrivals))%nat as Hlen.
  { clear. induction arrivals as [|[[[q|]|e] p] arrivals IH]; simpl; [done|lia..]. }
  unfold CLOSE_GROUP_SIZE_MAJORITY, CLOSE_GROUP_SIZE in *. simpl in *. lia.
Qed.

(** A candidate quote is accepted exactly if it is signed and for the time, type and size
    that were asked for. *)
Theorem merkle_candidate_exact data_type data_size timestamp candidate node :
  get_merkle_candidate_quote data_type data_size timestamp (Replied (Ok candidate)) = Ok node ↔
  node = candidate ∧ candidate_verify_signature candidate = true ∧ mc_merkle_payment_timestamp candidate = timestamp ∧
  qm_data_type (mc_quoting_metrics candidate) = data_type ∧ qm_data_size (mc_quoting_metrics candidate) = data_size.
Proof.
  unfold get_merkle_candidate_quote. simpl. rewrite <- !Z.eqb_eq. destruct (candidate_verify_signature candidate), (_ =? timestamp), (_ =? data_type), (_ =? data_size);
    simpl; naive_solver.
Qed.
End quotes.

(** ** Concrete requests *)

Definition toy_backoff : Backoff := {| backoff_delays n := (Some <$> repeat 2 (n - 1)) ++ [None] |}.

Lemma toy_backoff_laws : @BackoffLaws toy_backoff.
Proof. split. intros n Hn. exists (repeat 2 (n - 1)). split; [apply repeat_length|done]. Qed.

Section concrete.
#[local] Existing Instances toy_bls toy_identity toy_digests toy_serde_metrics hash_order_rev toy_kad toy_hex toy_xorname
  toy_error_text toy_backoff toy_backoff_laws.

Definition toy_strategy : Strategy :=
  {| put_quorum := QuorumMajority; put_retry := RS_Once; verification_quorum := QuorumOne; get_quorum := QuorumOne;
     get_retry := RS_Quick |}.

(** Two of three peers say the record is outdated, twice. *)
Definition toy_puts (i : nat) : list (result unit ClientError * PeerInfo) :=
  [(Err (OutdatedRecordRejected 1 2), toy_peer 1); (Ok tt, toy_peer 2); (Err (OutdatedRecordRejected 1 2), toy_peer 3)].

Lemma put_with_retries_exact_witness :
  let '(r, slept) := put_record_with_retries (λ _, text "outdated") [toy_peer 1; toy_peer 2; toy_peer 3] toy_strategy toy_puts in
  length slept = 1%nat ∧
  ((r = Ok tt ∧ ∃ k, (k < 2)%nat ∧ (2 ≤ length (stored (toy_puts k)))%nat ∧ (∀ j, (j < k)%nat → ¬ (2 ≤ length (stored (toy_puts j)))%nat) ∧
     length slept = k) ∨
   (r = Err (PutRecordTooManyPeerFailed (stored (toy_puts 1)) (refused (λ _, text "outdated") (toy_puts 1))) ∧
    (∀ k, (k < 2)%nat → ¬ (2 ≤ length (stored (toy_puts k)))%nat) ∧ length slept = 1%nat)).
Proof.
  pose proof (put_with_retries_exact (λ _, text "outdated") [toy_peer 1; toy_peer 2; toy_peer 3] toy_strategy toy_puts
    ltac:(done) I ltac:(cbn; lia) ltac:(cbn; lia)) as Hput.
  destruct (put_record_with_retries _ _ _ _) as [r slept] eqn:E. split; [|exact Hput].
  vm_compute in E. by injection E as <- <-.
Defined.

(** No attempt finds the record, and the closest peers give two. *)
Lemma get_with_retries_exact_witness :
  let get (_ : nat) : result (option KadRecord) ClientError := Err (GetRecordTimeout []) in
  let closest := Ok [toy_peer 1; toy_peer 2] in
  let arrivals (_ : list PeerInfo) : list (result (option KadRecord) ClientError) := [Ok (Some (toy_record 5)); Ok None; Ok (Some (toy_record 6))] in
  let '(r, slept) := get_record_with_retries toy_strategy get closest arrivals in
  (∃ k, (k < 4)%nat ∧ length slept = k ∧ (∀ j, (j < k)%nat → decisive (get j) = None) ∧ decisive (get k) = Some r) ∨
  ((∀ k, (k < 4)%nat → decisive (get k) = None) ∧ length slept = 3%nat ∧
   match r with
   | Ok None => ∀ peers record, closest = Ok peers → Ok (Some record) ∉ arrivals peers
   | Ok (Some records) =>
     records ≠ [] ∧ ∃ peers, closest = Ok peers ∧ ∀ record, record ∈ records ↔ Ok (Some record) ∈ arrivals peers
   | Err _ => False
   end).
Proof.
  intros get closest arrivals. apply (get_with_retries_exact toy_strategy get closest arrivals); cbn; lia.
Defined.

(** Three candidates, of which two are asked for; each reports the others. *)
Definition toy_candidates : list PeerInfo := [toy_peer 1; toy_peer 2; toy_peer 3].
Definition toy_replies (l : list PeerInfo) : CloseReplies :=
  (λ c, (pi_peer_id c, Ok [(NA_PeerId [2], [[7]]); (NA_PeerId [3], [[7]]); (NA_PeerId [4], [[7]])])) <$> l.
Definition toy_versions (l : list PeerInfo) : list (PeerInfo * DriverReply bytes) :=
  (λ p, (p, Replied (Ok (text "2025.1.2.3")))) <$> l.

Lemma closest_peers_exact_witness :
  let popular := popular_peers 2 (count_replies (toy_replies toy_candidates)).1 in
  let dist p := peer_distance (NA_RecordKey [9]) (pi_peer_id p) in
  ∃ peers, get_closest_n_peers (NA_RecordKey [9]) 2 (Replied (Ok toy_candidates)) toy_replies toy_versions = Ok peers ∧
    length peers = 2%nat ∧ NoDup (ids peers) ∧ StronglySorted (λ p1 p2, dist p1 ≤ dist p2) peers ∧
    (∀ p, p ∈ peers → p ∈ toy_candidates ∨ answered_popular 2 toy_candidates (toy_replies toy_candidates) toy_versions p) ∧
    (∀ c, c ∈ toy_candidates → pi_peer_id c ∈ popular →
      c ∈ peers ∨ ∀ p, p ∈ peers → p ∈ toy_candidates ∧ pi_peer_id p ∈ popular ∧ dist p ≤ dist c).
Proof.
  apply (closest_peers_exact (NA_RecordKey [9]) 2 toy_candidates toy_replies toy_versions).
  - apply (bool_decide_unpack _). vm_compute. exact I.
  - cbn. lia.
  - intros l. unfold toy_versions. by rewrite <- list_fmap_compose, list_fmap_id.
Defined.
End concrete.
