(* ===== verification/Requests.v ===== *)
(** * Requests and responses of the driver

    Models the network commands of the swarm driver, [SwarmDriver::handle_network_cmd] of
    src/ant-node/src/networking/driver/cmd.rs with the commands of interface/network_cmd.rs, the
    requests and responses libp2p delivers, [handle_req_resp_events] of
    driver/event/request_response.rs, and the requests of src/ant-protocol/src/messages (messages.rs,
    cmd.rs). The driver remembers, for each request it sent, the one-shot channel of whoever awaits
    the response; a channel is a number. The id libp2p gives a request, its routing table, and which
    channels were closed meanwhile are arguments of arbitrary answers. What is sent, told to the node
    and put in the driver's own queue is collected as calls. Metrics and logs are left out. *)

From stdpp Require Import base gmap countable strings list.
From Stdlib Require Import ZArith Lia.
From S2P Require Import Prelude Text Protocol Storage RecordCache RecordStore MerkleTree Payments PutValidation.
From S2P Require Import ReplicationFetcher NetworkWideReplication Driver Multiaddr RelayManager Connections.
From S2P Require Import Messages NodeQueries StorageChallenge CloseGroupTracker NodeEvents.
From S2P Require Import RecordStoreProps FetcherProps PaymentsProps PutValidationFacts PutValidationProps DriverProps ConnectionsProps.

(** Who sent a response, and from where. *)
Record ConnectionInfo := { ci_peer_id : bytes; ci_response_origin : Multiaddr }.

(** libp2p's failures of a request. *)
Inductive OutboundFailure := OF_DialFailure | OF_Timeout | OF_ConnectionClosed | OF_UnsupportedProtocols | OF_Io.

Section requests.
Context `{XorNameLib, Hex, Bls, Kad, RmpHeader, Aead, HashOrder, Libp2pIdentity}.

(** ** Data *)

(** [Cmd] and [Request]. *)
Inductive Cmd :=
  | Cmd_Replicate (holder : NetworkAddress) (keys : list (NetworkAddress * ValidationType))
  | Cmd_FreshReplicate (holder : NetworkAddress) (keys : list FreshKey)
  | Cmd_PeerConsideredAsBad (detected_by bad_peer : NetworkAddress) (bad_behaviour : bytes).

Inductive Request :=
  | Req_Cmd (c : Cmd)
  | Req_Query (q : Query).

Definition cmd_dst (c : Cmd) : NetworkAddress :=
  match c with
  | Cmd_Replicate holder _ | Cmd_FreshReplicate holder _ => holder
  | Cmd_PeerConsideredAsBad _ bad_peer _ => bad_peer
  end.

Definition request_dst (r : Request) : NetworkAddress :=
  match r with Req_Cmd c => cmd_dst c | Req_Query q => query_dst q end.

(** Where a response goes: back to ourself, to a channel if it is awaited, or to a peer. *)
Inductive MsgResponder := FromSelf (sender : option Z) | FromPeer (channel : Z).

Inductive NetworkSwarmCmd :=
  | GetClosestPeersToAddressFromNetwork (key : NetworkAddress) (sender : Z) (n : option nat)
  | SendRequest (req : Request) (peer : bytes) (addrs : list Multiaddr) (sender : option Z)
  | SendResponse (resp : Response) (channel : MsgResponder).

(** The errors of requests among those of networking/error.rs. *)
Inductive RequestError :=
  | RQ_OutboundError (e : OutboundFailure)
  | RQ_InternalMsgChannelDropped
  | RQ_ReceivedResponseDropped (request_id : Z)
  | RQ_OutgoingResponseDropped (resp : Response).

Definition AwaitedResponse : Type := result (Response * option ConnectionInfo) RequestError.

Inductive TaskCall :=
  | TC_GetClosest (query_id : Z) (key : NetworkAddress) (n : option nat)
  | TC_SendRequest (request_id : Z) (peer : bytes) (req : Request) (addrs : list Multiaddr)
  | TC_SendResponse (channel : Z) (resp : Response)
  | TC_Queue (cmd : NetworkSwarmCmd)
  | TC_QueryRequestReceived (query : Query) (channel : MsgResponder)
  | TC_ResponseReceived (res : Response)
  | TC_FreshReplicateToFetch (holder : NetworkAddress) (keys : list FreshKey)
  | TC_Driver (e : DriverEvent)
  | TC_Reply (sender : Z) (r : AwaitedResponse).

(** The parts of the driver a request touches; [dk_pending] is [pending_requests]. *)
Record DriverTask := {
  dk_driver : SwarmDriver;
  dk_conn : Connections;
  dk_pending : gmap Z (option Z);
}.

Definition dk_with_pending (d : DriverTask) (pending : gmap Z (option Z)) : DriverTask :=
  {| dk_driver := dk_driver d; dk_conn := dk_conn d; dk_pending := pending |}.

Definition dk_with_conn (d : DriverTask) (conn : Connections) : DriverTask :=
  {| dk_driver := dk_driver d; dk_conn := conn; dk_pending := dk_pending d |}.

Definition dk_with_driver (d : DriverTask) (driver : SwarmDriver) : DriverTask :=
  {| dk_driver := driver; dk_conn := dk_conn d; dk_pending := dk_pending d |}.

Definition TaskOutcome : Type := DriverTask * list TaskCall * result unit RequestError.

(** [sender.send(r)]: the error is that the receiver is gone. *)
Definition reply_to (dropped : Z → bool) (sender : Z) (r : AwaitedResponse) (d : DriverTask) : TaskOutcome :=
  (d, [TC_Reply sender r], if dropped sender then Err RQ_InternalMsgChannelDropped else Ok tt).

(** ** Commands: cmd.rs *)

(** The buckets in order, with the addresses of their peers. *)
Fixpoint fetch_peer_addresses_from_local (kbuckets : list (list (bytes * list Multiaddr))) (peer : bytes) : list Multiaddr :=
  match kbuckets with
  | [] => []
  | kbucket :: kbuckets =>
    match filter (λ e, e.1 = peer) kbucket with
    | [] => fetch_peer_addresses_from_local kbuckets peer
    | e :: _ => e.2
    end
  end.

(** [handle_network_cmd]; [id] is what libp2p returns for the query or the request, and [closed]
    the peers' channels it can no longer respond to. *)
Definition handle_network_cmd (id : Z) (kbuckets : list (list (bytes * list Multiaddr))) (dropped closed : Z → bool)
    (cmd : NetworkSwarmCmd) (d : DriverTask) : TaskOutcome :=
  match cmd with
  | GetClosestPeersToAddressFromNetwork key sender n =>
    (dk_with_conn d (start_closest id (ForFunctionCall sender) (dk_conn d)), [TC_GetClosest id key n], Ok tt)
  | SendRequest req peer addrs sender =>
    if bool_decide (peer = sd_self_peer_id (dk_driver d)) then
      match req with
      | Req_Query query => (d, [TC_QueryRequestReceived query (FromSelf sender)], Ok tt)
      | Req_Cmd _ => (d, [], Ok tt)
      end
    else
      let addresses := match addrs with [] => fetch_peer_addresses_from_local kbuckets peer | _ => addrs end in
      (dk_with_pending d (<[id := sender]> (dk_pending d)), [TC_SendRequest id peer req addresses], Ok tt)
  | SendResponse resp (FromSelf (Some channel)) => reply_to dropped channel (Ok (resp, None)) d
  | SendResponse resp (FromSelf None) => (d, [TC_ResponseReceived resp], Ok tt)
  | SendResponse resp (FromPeer channel) =>
    (d, [TC_SendResponse channel resp], if closed channel then Err (RQ_OutgoingResponseDropped resp) else Ok tt)
  end.

(** ** Events: request_response.rs *)

Inductive ReqRespEvent :=
  | RR_Request (connection_id : Z) (request : Request) (channel : Z)
  | RR_Response (connection_id : Z) (request_id : Z) (response : Response)
  | RR_OutboundFailure (request_id : Z) (error : OutboundFailure)
  | RR_InboundFailure
  | RR_ResponseSent.

(** A request of a peer: commands are answered at once, whatever comes of them. *)
Definition on_peer_request (rt : RoutingTable) (r : DriverReadings) (request : Request) (channel : Z) (d : DriverTask)
    : DriverTask * list TaskCall :=
  let ok c := TC_Queue (SendResponse (Resp_Cmd c) (FromPeer channel)) in
  match request with
  | Req_Cmd (Cmd_Replicate holder keys) =>
    let '(driver, events) := add_keys_to_replication_fetcher rt r holder keys false (dk_driver d) in
    (dk_with_driver d driver, ok (C_Replicate (Ok tt)) :: (TC_Driver <$> events))
  | Req_Cmd (Cmd_FreshReplicate holder keys) => (d, [ok (C_FreshReplicate (Ok tt)); TC_FreshReplicateToFetch holder keys])
  | Req_Cmd (Cmd_PeerConsideredAsBad _ _ _) => (d, [ok (C_PeerConsideredAsBad (Ok tt))])
  | Req_Query query => (d, [TC_QueryRequestReceived query (FromPeer channel)])
  end.

(** The connection a response came by, if it still lives. *)
Definition connection_info (connection_id : Z) (d : DriverTask) : option ConnectionInfo :=
  (λ conn, {| ci_peer_id := conn.1.1; ci_response_origin := conn.1.2 |}) <$> (cn_live (dk_conn d) !! connection_id).

Definition on_response (dropped : Z → bool) (connection_id request_id : Z) (response : Response) (d : DriverTask)
    : TaskOutcome :=
  match dk_pending d !! request_id with
  | None => (d, [], Ok tt)
  | Some sender =>
    let d := dk_with_pending d (delete request_id (dk_pending d)) in
    match sender with
    | Some sender => reply_to dropped sender (Ok (response, connection_info connection_id d)) d
    | None =>
      (d, match response with Resp_Cmd (C_Replicate (Ok _)) => [] | _ => [TC_ResponseReceived response] end, Ok tt)
    end
  end.

Definition on_outbound_failure (dropped : Z → bool) (request_id : Z) (error : OutboundFailure) (d : DriverTask)
    : TaskOutcome :=
  match dk_pending d !! request_id with
  | None => (d, [], Err (RQ_ReceivedResponseDropped request_id))
  | Some sender =>
    let d := dk_with_pending d (delete request_id (dk_pending d)) in
    match sender with
    | Some sender => reply_to dropped sender (Err (RQ_OutboundError error)) d
    | None => (d, [], Err (RQ_ReceivedResponseDropped request_id))
    end
  end.

Definition handle_req_resp_events (now : Z) (rt : RoutingTable) (r : DriverReadings) (dropped : Z → bool)
    (event : ReqRespEvent) (d : DriverTask) : TaskOutcome :=
  match event with
  | RR_Request connection_id request channel =>
    (on_peer_request rt r request channel (dk_with_conn d (on_request now connection_id (dk_conn d))), Ok tt)
  | RR_Response connection_id request_id response => on_response dropped connection_id request_id response d
  | RR_OutboundFailure request_id error => on_outbound_failure dropped request_id error d
  | RR_InboundFailure | RR_ResponseSent => (d, [], Ok tt)
  end.

(** ** Runs *)

Inductive TaskEvent :=
  | TE_Cmd (id : Z) (kbuckets : list (list (bytes * list Multiaddr))) (dropped closed : Z → bool) (cmd : NetworkSwarmCmd)
  | TE_ReqResp (now : Z) (rt : RoutingTable) (r : DriverReadings) (dropped : Z → bool) (event : ReqRespEvent).

Definition task_step (ev : TaskEvent) (d : DriverTask) : TaskOutcome :=
  match ev with
  | TE_Cmd id kbuckets dropped closed cmd => handle_network_cmd id kbuckets dropped closed cmd d
  | TE_ReqResp now rt r dropped event => handle_req_resp_events now rt r dropped event d
  end.

(** An error ends the handling of one event and is logged. *)
Fixpoint task_run (evs : list TaskEvent) (d : DriverTask) : DriverTask * list TaskCall :=
  match evs with
  | [] => (d, [])
  | ev :: evs =>
    let '(d, calls, _) := task_step ev d in
    let '(d, calls') := task_run evs d in (d, calls ++ calls')
  end.
End requests.

(** * Properties

    No response channel is lost or used twice: the channels handed to the driver are, at any time,
    those of requests it still waits for, those it replied to, those it passed to the node, and those
    of commands to itself, which it drops. *)

Section ledger.
Context `{XorNameLib, Hex, Bls, Kad, RmpHeader, Aead, HashOrder, Libp2pIdentity}.
Implicit Types (d : DriverTask) (ev : TaskEvent) (c : TaskCall).

(** ** Where channels come from and go *)

(** Channels handed to the driver to await a response. *)
Definition submitted ev : list Z :=
  match ev with TE_Cmd _ _ _ _ (SendRequest _ _ _ (Some s)) => [s] | _ => [] end.

(** Channels the node gives back with its answer to its own query. *)
Definition returned ev : list Z :=
  match ev with TE_Cmd _ _ _ _ (SendResponse _ (FromSelf (Some s))) => [s] | _ => [] end.

(** Channels of commands to ourself. *)
Definition discarded (self : bytes) ev : list Z :=
  match ev with
  | TE_Cmd _ _ _ _ (SendRequest (Req_Cmd _) peer _ (Some s)) => if decide (peer = self) then [s] else []
  | _ => []
  end.

(** The ids libp2p gives. *)
Definition request_ids (self : bytes) ev : list Z :=
  match ev with
  | TE_Cmd id _ _ _ (SendRequest _ peer _ _) => if decide (peer = self) then [] else [id]
  | _ => []
  end.

Definition replied c : list Z := match c with TC_Reply s _ => [s] | _ => [] end.

Definition forwarded c : list Z := match c with TC_QueryRequestReceived _ (FromSelf (Some s)) => [s] | _ => [] end.

Definition awaiting (pending : gmap Z (option Z)) : list Z := omap snd (map_to_list pending).

Abbreviation self_of d := (sd_self_peer_id (dk_driver d)).

(** ** One step *)

Lemma awaiting_insert id s pending :
  pending !! id = None → awaiting (<[id := s]> pending) ≡ₚ option_list s ++ awaiting pending.
Proof.
  intros Hid. unfold awaiting. rewrite (omap_Permutation _ _ _ (map_to_list_insert pending id s Hid)). by destruct s.
Qed.

Lemma awaiting_delete id s pending :
  pending !! id = Some s → awaiting pending ≡ₚ option_list s ++ awaiting (delete id pending).
Proof.
  intros Hid. rewrite <- awaiting_insert by apply lookup_delete_eq. by rewrite insert_delete_id.
Qed.

Lemma bind_nil_all {A B} (f : A → list B) (l : list A) : (∀ x, x ∈ l → f x = []) → l ≫= f = [].
Proof.
  induction l as [|x l IH]; intros Hl; [done|]. simpl. rewrite Hl by apply list_elem_of_here.
  apply IH. intros y Hy. apply Hl. by apply list_elem_of_further.
Qed.

Lemma add_keys_keeps_self rt r sender keys fresh (d : SwarmDriver) :
  sd_self_peer_id (add_keys_to_replication_fetcher rt r sender keys fresh d).1 = sd_self_peer_id d.
Proof.
  unfold add_keys_to_replication_fetcher. destruct (as_peer_id sender); [|done]. cbv zeta. case_match; [done|].
  by destruct (add_keys _ _ _ _ _ _ _) as [[]].
Qed.

(** A request of a peer touches no channel. *)
Lemma peer_request_neutral rt r request channel d d' calls :
  on_peer_request rt r request channel d = (d', calls) →
  dk_pending d' = dk_pending d ∧ self_of d' = self_of d ∧ calls ≫= replied = [] ∧ calls ≫= forwarded = [].
Proof.
  intros Hr. unfold on_peer_request in Hr. destruct request as [[holder keys| |]|]; simplify_eq/=; try done.
  pose proof (add_keys_keeps_self rt r holder keys false (dk_driver d)) as Hself.
  destruct (add_keys_to_replication_fetcher _ _ _ _ _ _) as [driver events]. simplify_eq/=.
  repeat split; [done|..]; apply bind_nil_all; by intros ? (e & -> & _)%list_elem_of_fmap.
Qed.

Lemma step_keeps_self ev d d' calls res : task_step ev d = (d', calls, res) → self_of d' = self_of d.
Proof.
  intros Hs. destruct ev as [id kb dropped closed [key s n|req peer addrs s|resp [[s|]|ch]]|now rt r dropped [cid req ch|cid rid resp|rid e| |]];
    simpl in Hs; unfold on_response, on_outbound_failure, reply_to in Hs; try (simplify_eq/=; done).
  - case_bool_decide; [destruct req|]; by simplify_eq/=.
  - destruct (on_peer_request _ _ _ _ _) as [d1 calls1] eqn:E. simplify_eq/=. by apply peer_request_neutral in E as (_ & -> & _).
  - by repeat case_match; simplify_eq/=.
  - by repeat case_match; simplify_eq/=.
Qed.

(** The channels before a step with those it brings are those after it with those it uses. *)
Lemma step_conserves ev d d' calls res :
  task_step ev d = (d', calls, res) → (∀ id, id ∈ request_ids (self_of d) ev → dk_pending d !! id = None) →
  submitted ev ++ returned ev ++ awaiting (dk_pending d) ≡ₚ
  awaiting (dk_pending d') ++ (calls ≫= replied) ++ (calls ≫= forwarded) ++ discarded (self_of d) ev.
Proof.
  intros Hs Hid. destruct ev as [id kb dropped closed [key s n|req peer addrs s|resp [[s|]|ch]]|now rt r dropped [cid req ch|cid rid resp|rid e| |]];
    simpl in Hs; unfold on_response, on_outbound_failure, reply_to in Hs; try (simplify_eq/=; rewrite ?app_nil_r; done).
  - case_bool_decide as Hp.
    + destruct req as [c|q]; simplify_eq/=; destruct s; rewrite ?decide_True by done; simpl; rewrite ?app_nil_r; try done; apply Permutation_cons_append.
    + simplify_eq/=. rewrite decide_False in Hid by done. rewrite awaiting_insert by (apply Hid; set_solver).
      destruct s, req; rewrite ?decide_False by done; simpl; by rewrite ?app_nil_r.
  - simplify_eq/=. apply Permutation_cons_append.
  - destruct (on_peer_request _ _ _ _ _) as [d1 calls1] eqn:E. simplify_eq/=.
    apply peer_request_neutral in E as (-> & _ & -> & ->). by rewrite app_nil_r.
  - destruct (dk_pending d !! rid) as [[s|]|] eqn:Hl; [| |simplify_eq/=; by rewrite app_nil_r];
      rewrite (awaiting_delete _ _ _ Hl); repeat case_match; simplify_eq/=; rewrite ?app_nil_r; try done; apply Permutation_cons_append.
  - destruct (dk_pending d !! rid) as [[s|]|] eqn:Hl; [| |simplify_eq/=; by rewrite app_nil_r];
      rewrite (awaiting_delete _ _ _ Hl); simplify_eq/=; rewrite ?app_nil_r; try done; apply Permutation_cons_append.
Qed.

(** Only a request that is sent adds an id. *)
Lemma step_ids ev d d' calls res id :
  task_step ev d = (d', calls, res) → is_Some (dk_pending d' !! id) →
  is_Some (dk_pending d !! id) ∨ id ∈ request_ids (self_of d) ev.
Proof.
  intros Hs Hid. destruct ev as [id' kb dropped closed [key s n|req peer addrs s|resp [[s|]|ch]]|now rt r dropped [cid req ch|cid rid resp|rid e| |]];
    simpl in Hs; unfold reply_to, on_response, on_outbound_failure, reply_to in Hs; try (simplify_eq/=; by left).
  - case_bool_decide as Hp; [destruct req; simplify_eq/=; by left|]. simplify_eq/=. rewrite decide_False by done.
    destruct (decide (id = id')) as [->|Hne]; [right; set_solver|]. left. by rewrite lookup_insert_ne in Hid.
  - destruct (on_peer_request _ _ _ _ _) as [d1 calls1] eqn:E. simplify_eq/=.
    apply peer_request_neutral in E as (Hp & _). left. by rewrite Hp in Hid.
  - left. destruct (dk_pending d !! rid) as [[s|]|] eqn:Hl; simplify_eq/=; [..|done];
      destruct Hid as [x Hx]; apply lookup_delete_Some in Hx as [_ Hx]; by eexists.
  - left. destruct (dk_pending d !! rid) as [[s|]|] eqn:Hl; simplify_eq/=; [..|done];
      destruct Hid as [x Hx]; apply lookup_delete_Some in Hx as [_ Hx]; by eexists.
Qed.

(** ** Runs *)

Lemma run_conserves evs d d' calls :
  task_run evs d = (d', calls) → NoDup (evs ≫= request_ids (self_of d)) →
  (∀ id, id ∈ evs ≫= request_ids (self_of d) → dk_pending d !! id = None) →
  (evs ≫= submitted) ++ (evs ≫= returned) ++ awaiting (dk_pending d) ≡ₚ
  awaiting (dk_pending d') ++ (calls ≫= replied) ++ (calls ≫= forwarded) ++ (evs ≫= discarded (self_of d)).
Proof.
  revert d calls. induction evs as [|ev evs IH]; intros d calls Hrun Hnd Hfree; simpl in Hrun.
  { simplify_eq/=. by rewrite app_nil_r. }
  destruct (task_step ev d) as [[d1 calls1] res] eqn:Hs. destruct (task_run evs d1) as [d2 calls2] eqn:Hr. simplify_eq/=.
  apply NoDup_app in Hnd as (_ & Hdisj & Hnd).
  pose proof (step_keeps_self _ _ _ _ _ Hs) as Hself.
  pose proof (step_conserves _ _ _ _ _ Hs) as Hstep. rewrite <- Hself in *.
  specialize (Hstep ltac:(intros id Hid; apply Hfree; set_solver)).
  specialize (IH d1 calls2 Hr Hnd). rewrite !bind_app.
  assert (∀ id, id ∈ evs ≫= request_ids (self_of d1) → dk_pending d1 !! id = None) as Hfree1.
  { intros id Hid. apply eq_None_not_Some. intros Hsome.
    apply (step_ids _ _ _ _ _ id Hs) in Hsome as [Hsome|Hin]; [|rewrite <- Hself in Hin; by apply (Hdisj id)].
    rewrite Hfree in Hsome by set_solver. by apply is_Some_None in Hsome. }
  specialize (IH Hfree1).
  transitivity ((evs ≫= submitted) ++ (evs ≫= returned) ++ (submitted ev ++ returned ev ++ awaiting (dk_pending d))).
  { solve_Permutation. }
  rewrite Hstep.
  transitivity (((evs ≫= submitted) ++ (evs ≫= returned) ++ awaiting (dk_pending d1)) ++
                (calls1 ≫= replied) ++ (calls1 ≫= forwarded) ++ discarded (self_of d1) ev); [solve_Permutation|].
  rewrite IH. solve_Permutation.
Qed.

(** C7: Each awaited response is delivered at most once and no request is forgotten. In any run of the
    driver in which libp2p gives every request an id of its own, no channel is handed over twice and the
    node answers each of its own queries at most once, every channel handed over is in exactly one place: awaited,
    replied to, at the node with an unanswered query of the node to itself, or dropped with a command
    the node sent to itself; none is replied to twice. *)
Theorem awaited_responses_once evs d d' calls :
  task_run evs d = (d', calls) → dk_pending d = ∅ → NoDup (evs ≫= request_ids (self_of d)) →
  NoDup (evs ≫= submitted) → (evs ≫= returned) ⊆+ (calls ≫= forwarded) →
  ∃ unanswered,
    (calls ≫= forwarded) ≡ₚ (evs ≫= returned) ++ unanswered ∧
    (evs ≫= submitted) ≡ₚ awaiting (dk_pending d') ++ (calls ≫= replied) ++ unanswered ++ (evs ≫= discarded (self_of d)) ∧
    NoDup (awaiting (dk_pending d') ++ (calls ≫= replied) ++ unanswered ++ (evs ≫= discarded (self_of d))).
Proof.
  intros Hrun Hempty Hids Hnd [unanswered Hforward]%submseteq_Permutation. exists unanswered. split; [done|].
  pose proof (run_conserves _ _ _ _ Hrun Hids ltac:(intros; by rewrite Hempty)) as Hcons.
  rewrite Hempty in Hcons. change (awaiting ∅) with (@nil Z) in Hcons. rewrite app_nil_r, Hforward in Hcons.
  assert ((evs ≫= submitted) ≡ₚ awaiting (dk_pending d') ++ (calls ≫= replied) ++ unanswered ++ (evs ≫= discarded (self_of d))) as Hsub.
  { apply (Permutation_app_inv_r (evs ≫= returned)). rewrite Hcons. solve_Permutation. }
  split; [done|]. by rewrite <- Hsub.
Qed.

(** Whether an event ends the request [id] or sends another by its id. *)
Definition concerns (id : Z) ev : Prop :=
  match ev with
  | TE_Cmd id' _ _ _ (SendRequest _ _ _ _) => id' = id
  | TE_ReqResp _ _ _ _ (RR_Response _ id' _) | TE_ReqResp _ _ _ _ (RR_OutboundFailure id' _) => id' = id
  | _ => False
  end.

Lemma step_keeps_pending id ev d d' calls res :
  task_step ev d = (d', calls, res) → ¬ concerns id ev → dk_pending d' !! id = dk_pending d !! id.
Proof.
  intros Hs Hc. destruct ev as [id' kb dropped closed [key s n|req peer addrs s|resp [[s|]|ch]]|now rt r dropped [cid req ch|cid rid resp|rid e| |]];
    simpl in Hs, Hc; unfold on_response, on_outbound_failure, reply_to in Hs; try (by simplify_eq/=).
  - case_bool_decide; [by destruct req; simplify_eq/=|]. simplify_eq/=. by apply lookup_insert_ne.
  - destruct (on_peer_request _ _ _ _ _) as [d1 calls1] eqn:E. simplify_eq/=. by apply peer_request_neutral in E as (-> & _).
  - destruct (dk_pending d !! rid) as [[s|]|]; simplify_eq/=; try done; by apply lookup_delete_ne.
  - destruct (dk_pending d !! rid) as [[s|]|]; simplify_eq/=; try done; by apply lookup_delete_ne.
Qed.

Lemma run_keeps_pending id evs d :
  Forall (λ ev, ¬ concerns id ev) evs → dk_pending (task_run evs d).1 !! id = dk_pending d !! id.
Proof.
  intros Hall. revert d. induction Hall as [|ev evs Hev _ IH]; intros d; [done|]. simpl.
  destruct (task_step ev d) as [[d1 calls1] res] eqn:Hs. specialize (IH d1). destruct (task_run evs d1) as [d2 calls2]. simpl in *.
  rewrite IH. by eapply step_keeps_pending.
Qed.

(** A response reaches the one who awaits it, whatever happened meanwhile. The request of id [id] to
    another peer is sent to the addresses given or, if none are, to those of the routing table; when
    libp2p later delivers its response, or reports its failure, exactly the channel handed over with
    the request gets it, and the request is no longer pending. *)
Theorem response_reaches_requester id kb dropped closed req peer addrs s evs d :
  peer ≠ self_of d → Forall (λ ev, ¬ concerns id ev) evs →
  let d1 := (handle_network_cmd id kb dropped closed (SendRequest req peer addrs (Some s)) d).1.1 in
  let d2 := (task_run evs d1).1 in
  (handle_network_cmd id kb dropped closed (SendRequest req peer addrs (Some s)) d).1.2 =
    [TC_SendRequest id peer req (if addrs is [] then fetch_peer_addresses_from_local kb peer else addrs)] ∧
  (∀ now rt r dropped cid response, ∃ d3 res,
     task_step (TE_ReqResp now rt r dropped (RR_Response cid id response)) d2 =
       (d3, [TC_Reply s (Ok (response, connection_info cid d2))], res) ∧ dk_pending d3 !! id = None) ∧
  (∀ now rt r dropped error, ∃ d3 res,
     task_step (TE_ReqResp now rt r dropped (RR_OutboundFailure id error)) d2 =
       (d3, [TC_Reply s (Err (RQ_OutboundError error))], res) ∧ dk_pending d3 !! id = None).
Proof.
  intros Hp Hevs d1 d2.
  assert (dk_pending d2 !! id = Some (Some s)) as Hd2.
  { subst d2. rewrite run_keeps_pending by done. subst d1. simpl. rewrite bool_decide_eq_false_2 by done. simpl. apply lookup_insert_eq. }
  split; [simpl; rewrite bool_decide_eq_false_2 by done; by destruct addrs|].
  split; intros; cbn [task_step handle_req_resp_events]; unfold on_response, on_outbound_failure; rewrite Hd2;
    eexists _, _; (split; [done|apply lookup_delete_eq]).
Qed.

(** A query to ourself has no other way to its answer: the driver passes it to the node with the
    channel, and the response the node sends with it is what the channel gets. *)
Lemma self_query_answered id kb dropped closed query addrs s resp d :
  handle_network_cmd id kb dropped closed (SendRequest (Req_Query query) (self_of d) addrs (Some s)) d =
    (d, [TC_QueryRequestReceived query (FromSelf (Some s))], Ok tt) ∧
  (handle_network_cmd id kb dropped closed (SendResponse resp (FromSelf (Some s))) d).1 = (d, [TC_Reply s (Ok (resp, None))]).
Proof. split; [simpl; by rewrite bool_decide_eq_true_2|done]. Qed.
End ledger.

(** * A concrete run *)

Section concrete_requests.
#[local] Existing Instances toy_xorname toy_hex toy_bls toy_kad toy_rmp_header toy_identity toy_aead hash_order_rev.

Definition ex_task : DriverTask := {| dk_driver := ex_driver; dk_conn := connections_new 255 None 0; dk_pending := ∅ |}.

Definition ex_query : Query := Q_GetVersion (NA_PeerId [4]).
Definition ex_version : Response := Resp_Query (R_GetVersion (NA_PeerId [4]) [1]).

Definition ex_send (id : Z) (req : Request) (peer : bytes) (s : Z) : TaskEvent :=
  TE_Cmd id [[([4], [[Ip4 5]])]] (λ _, false) (λ _, false) (SendRequest req peer [] (Some s)).

Definition ex_deliver (e : ReqRespEvent) : TaskEvent := TE_ReqResp 0 DriverProps.ex_table (DriverProps.ex_readings 0) (λ _, false) e.

(** Two requests to others, one answered and one failed late, a query and a command to itself. *)
Definition ex_task_run : list TaskEvent :=
  [ex_send 1 (Req_Query ex_query) [4] 101; ex_send 2 (Req_Query ex_query) [7] 102;
   ex_send 3 (Req_Query ex_query) [5] 103; ex_send 3 (Req_Cmd (Cmd_Replicate (NA_PeerId [5]) [])) [5] 104;
   ex_deliver (RR_Response 0 1 ex_version); ex_deliver (RR_Response 0 1 ex_version);
   TE_Cmd 0 [] (λ _, false) (λ _, false) (SendResponse ex_version (FromSelf (Some 103)));
   ex_deliver (RR_OutboundFailure 9 OF_Timeout)].

Lemma awaited_responses_once_witness :
  let '(d', calls) := task_run ex_task_run ex_task in
  awaiting (dk_pending d') = [102] ∧ calls ≫= replied = [101; 103] ∧
  NoDup (ex_task_run ≫= submitted) ∧
  ∃ unanswered, (ex_task_run ≫= submitted) ≡ₚ
    awaiting (dk_pending d') ++ (calls ≫= replied) ++ unanswered ++ (ex_task_run ≫= discarded [5]).
Proof.
  destruct (task_run ex_task_run ex_task) as [d' calls] eqn:E.
  assert (NoDup (ex_task_run ≫= submitted)) as Hnd by (apply (bool_decide_unpack _); vm_compute; exact I).
  assert (calls = (task_run ex_task_run ex_task).2) as -> by by rewrite E.
  assert (d' = (task_run ex_task_run ex_task).1) as -> by by rewrite E.
  split; [vm_compute; reflexivity|]. split; [vm_compute; reflexivity|]. split; [exact Hnd|].
  destruct (awaited_responses_once ex_task_run ex_task _ _ (surjective_pairing _)) as (unanswered & _ & Hsub & _).
  - reflexivity.
  - apply (bool_decide_unpack _); vm_compute; exact I.
  - exact Hnd.
  - vm_compute. reflexivity.
  - exists unanswered. exact Hsub.
Defined.

Lemma response_reaches_requester_witness :
  [4] ≠ sd_self_peer_id (dk_driver ex_task) ∧ Forall (λ ev, ¬ concerns 1 ev) [ex_send 2 (Req_Query ex_query) [7] 102] ∧
  (handle_network_cmd 1 [[([4], [[Ip4 5]])]] (λ _, false) (λ _, false) (SendRequest (Req_Query ex_query) [4] [] (Some 101)) ex_task).1.2 =
    [TC_SendRequest 1 [4] (Req_Query ex_query) [[Ip4 5]]].
Proof.
  assert ([4] ≠ sd_self_peer_id (dk_driver ex_task)) as Hp by done.
  assert (Forall (λ ev, ¬ concerns 1 ev) [ex_send 2 (Req_Query ex_query) [7] 102]) as Hf by (repeat constructor; done).
  split; [exact Hp|]. split; [exact Hf|].
  exact (proj1 (response_reaches_requester 1 [[([4], [[Ip4 5]])]] (λ _, false) (λ _, false) (Req_Query ex_query) [4] [] 101 _ ex_task Hp Hf)).
Defined.
End concrete_requests.
