(* ===== verification/NodeNetwork.v ===== *)
(** * The node's network layer

    Models the lookups of [Network] in src/ant-node/src/networking/network/mod.rs: the closest peers
    kademlia finds, those a majority of them agrees on, with its retries, and one request to several
    peers. The driver behind it is [NetworkAnswers]: what it answers to a command, or that it dropped
    the channel. Several requests complete in an order that is an argument. The selection by tiers is
    the one of the client (its [select_tier]); a [Multiaddr] is its byte form. The methods that only
    put a command of [Driver] into its queue are left out. *)

From stdpp Require Import base gmap countable strings list.
From Stdlib Require Import ZArith Lia Sorting.Sorted.
From S2P Require Import Prelude Text Protocol Storage RecordCache RecordStore MerkleTree Payments PutValidation.
From S2P Require Import ReplicationFetcher Driver Multiaddr Connections Messages NodeEvents Requests.
From S2P Require Import ClientNetwork.
From S2P Require Import ClientNetworkProps.
From S2P Require Import RecordStoreProps PaymentsProps PutValidationFacts PutValidationProps.

Definition CLOSEST_PEERS_RETRY_ATTEMPTS : nat := 2.

Section network.
Context `{XorNameLib, Hex, Bls, Kad, RmpHeader, Aead, HashOrder, Libp2pIdentity, Backoff}.

Inductive NetworkLayerError :=
  | NL_SenderDropped
  | NL_Request (e : RequestError)
  | NL_GetClosestTimedOut
  | NL_EventChannelFailure.

(** What the driver answers to [GetClosestPeersToAddressFromNetwork] and to [SendRequest]; [None] is
    a channel it dropped. *)
Record NetworkAnswers := {
  na_closest : NetworkAddress → option nat → option (list PeerInfo);
  na_request : Request → bytes → list bytes → option AwaitedResponse;
}.

Definition send_request (net : NetworkAnswers) (req : Request) (peer : bytes) (addrs : list bytes)
    : result (Response * option ConnectionInfo) NetworkLayerError :=
  match na_request net req peer addrs with
  | None => Err NL_SenderDropped
  | Some (Ok r) => Ok r
  | Some (Err e) => Err (NL_Request e)
  end.

Definition get_closest_peers_from_peer (net : NetworkAnswers) (addr : NetworkAddress) (peer : PeerInfo) (num_of_peers : option nat)
    : result (list (NetworkAddress * list bytes)) NetworkLayerError :=
  match send_request net (Req_Query (Q_GetClosestPeers addr num_of_peers None true)) (pi_peer_id peer) (pi_addrs peer) with
  | Ok (Resp_Query (R_GetClosestPeers _ peers _), _) => Ok peers
  | Ok _ => Err NL_EventChannelFailure
  | Err e => Err e
  end.

(** No peers are a query that timed out. *)
Definition found_peers (answer : option (list PeerInfo)) : result (list PeerInfo) NetworkLayerError :=
  match answer with
  | None => Err NL_SenderDropped
  | Some [] => Err NL_GetClosestTimedOut
  | Some peers => Ok peers
  end.

Definition node_get_closest_peers (net : NetworkAnswers) (key : NetworkAddress) : result (list PeerInfo) NetworkLayerError :=
  found_peers (na_closest net key None).

(** ** The closest peers by majority *)

(** [NonZeroUsize::new]. *)
Definition nonzero (n : nat) : option nat := match n with O => None | S _ => Some n end.

(** What the candidates report, in the order they answer: how often each peer appears, and all the
    addresses it is reported with. *)
Definition Report : Type := bytes * result (list (NetworkAddress * list bytes)) NetworkLayerError.

Definition tally_report (acc : gmap bytes nat * gmap bytes (list bytes)) (report : Report)
    : gmap bytes nat * gmap bytes (list bytes) :=
  match report with
  | (responder, Ok peers_list) =>
    foldl (λ acc e, match as_peer_id e.1 with
                    | Some peer_id =>
                      (count_peer peer_id acc.1, <[peer_id := default [] (acc.2 !! peer_id) ++ e.2]> acc.2)
                    | None => acc
                    end) (count_peer responder acc.1, acc.2) peers_list
  | (_, Err _) => acc
  end.

Definition tally (reports : list Report) : gmap bytes nat * gmap bytes (list bytes) := foldl tally_report (∅, ∅) reports.

(** The reports of all candidates; each is asked for two peers more than there are candidates. *)
Definition candidate_reports (net : NetworkAnswers) (key : NetworkAddress) (candidates : list PeerInfo) : list Report :=
  (λ peer, (pi_peer_id peer, get_closest_peers_from_peer net key peer (Some (length candidates + 2)%nat))) <$> candidates.

(** Popular peers that kademlia did not find and that were reported with an address. *)
Definition popular_unknown (popular : gset bytes) (addrs : gmap bytes (list bytes)) (candidates : list PeerInfo) : list PeerInfo :=
  omap (λ peer_id, match addrs !! peer_id with
                   | Some [] | None => None
                   | Some addrs => Some {| pi_peer_id := peer_id; pi_addrs := addrs |}
                   end)
    (filter (λ id, id ∉ (pi_peer_id <$> candidates)) (hs_iter popular)).

(** Whether a peer answers the query for its version. *)
Definition answers_version (net : NetworkAnswers) (p : PeerInfo) : bool :=
  match send_request net (Req_Query (Q_GetVersion (NA_PeerId (pi_peer_id p)))) (pi_peer_id p) (pi_addrs p) with
  | Ok (Resp_Query (R_GetVersion _ _), _) => true
  | _ => false
  end.

(** The selection from the candidates and their reports, before it is sorted. *)
Definition select_verified (net : NetworkAnswers) (versions : list PeerInfo → list PeerInfo) (key : NetworkAddress)
    (candidates : list PeerInfo) (reports : list Report) : list PeerInfo :=
  let n := length candidates in
  let f c := peer_distance key (pi_peer_id c) in
  let '(counts, addrs) := tally reports in
  let popular := popular_peers n counts in
  let farthest := max_distance (peer_distance key <$> hs_iter popular) in
  let sel := select_tier n f (filter (λ c, pi_peer_id c ∈ popular) candidates) ([], ∅) in
  let sel := if (length sel.1 <? n)%nat then
               select_tier n f (filter (λ p, answers_version net p = true) (versions (popular_unknown popular addrs candidates))) sel
             else sel in
  let sel := match farthest with
             | Some farthest_popular =>
               if (length sel.1 <? n)%nat then
                 select_tier n f (filter (λ c, (pi_peer_id c ∉ sel.2) ∧ farthest_popular < f c) candidates) sel
               else sel
             | None => sel
             end in
  let sel := if (length sel.1 <? n)%nat then select_tier n f (filter (λ c, pi_peer_id c ∉ sel.2) candidates) sel else sel in
  sel.1.

(** [arrivals] and [versions] are the orders in which the reports and the versions come. *)
Definition get_closest_peers_with_majority_knowledge (net : NetworkAnswers) (arrivals : list Report → list Report)
    (versions : list PeerInfo → list PeerInfo) (key : NetworkAddress) (n : option nat) : result (list PeerInfo) NetworkLayerError :=
  (let? candidates := found_peers (na_closest net key (n ≫= nonzero)) in
   Ok (sort_by_key (λ c, peer_distance key (pi_peer_id c))
         (select_verified net versions key candidates (arrivals (candidate_reports net key candidates)))))%rust.

(** One attempt: what the driver answers in it, and the orders of the answers. *)
Record Attempt := {
  at_net : NetworkAnswers;
  at_arrivals : list Report → list Report;
  at_versions : list PeerInfo → list PeerInfo;
}.

(** The attempts, with the delay after each; the last has none. *)
Fixpoint try_closest (delays : list (option Z)) (i : nat) (attempt : nat → Attempt) (key : NetworkAddress) (n : option nat)
    : result (list PeerInfo) NetworkLayerError :=
  match delays with
  | [] => Err NL_GetClosestTimedOut
  | delay :: delays =>
    let a := attempt i in
    match get_closest_peers_with_majority_knowledge (at_net a) (at_arrivals a) (at_versions a) key n with
    | Ok peers => Ok peers
    | Err e => match delay with Some _ => try_closest delays (S i) attempt key n | None => Err e end
    end
  end.

Definition node_closest_peers_with_retries (attempt : nat → Attempt) (key : NetworkAddress) (n : option nat)
    : result (list PeerInfo) NetworkLayerError :=
  try_closest (backoff_delays CLOSEST_PEERS_RETRY_ATTEMPTS) 0 attempt key n.

(** ** A request to several peers *)

(** The responses in the order they complete, into a map; the first success alone if not all are
    asked for. *)
Fixpoint collect_responses (get_all_responses : bool) (completed : list (bytes * result (Response * option ConnectionInfo) NetworkLayerError))
    (responses : gmap bytes (result (Response * option ConnectionInfo) NetworkLayerError))
    : gmap bytes (result (Response * option ConnectionInfo) NetworkLayerError) :=
  match completed with
  | [] => responses
  | (peer, resp) :: completed =>
    if negb get_all_responses && is_ok resp then {[peer := resp]}
    else collect_responses get_all_responses completed (<[peer := resp]> responses)
  end.

Definition send_and_get_responses (net : NetworkAnswers) (order : list PeerInfo → list PeerInfo) (peers : list PeerInfo)
    (req : Request) (get_all_responses : bool) : gmap bytes (result (Response * option ConnectionInfo) NetworkLayerError) :=
  collect_responses get_all_responses ((λ p, (pi_peer_id p, send_request net req (pi_peer_id p) (pi_addrs p))) <$> order peers) ∅.
End network.

(** * Properties

    The closest peers by majority: how many are returned, which, and in what order; that one peer can
    make another popular; the retries; one request to several peers. *)

Section majority.
Context `{XorNameLib, Hex, Bls, Kad, RmpHeader, Aead, HashOrder, Libp2pIdentity, Backoff}.
Implicit Types (candidates : list PeerInfo) (reports : list Report) (popular : gset bytes).

(** ** Who is asked for a version *)

Lemma popular_unknown_ids popular addrs candidates x :
  x ∈ ids (popular_unknown popular addrs candidates) → x ∈ popular ∧ (x ∉ ids candidates).
Proof.
  unfold popular_unknown, ids. intros (c & -> & (id & [Hn Hid%hs_iter_elem_of]%list_elem_of_filter & Hc)%list_elem_of_omap)%list_elem_of_fmap.
  by destruct (addrs !! id) as [[|]|]; simplify_eq/=.
Qed.

Lemma popular_unknown_elem popular addrs candidates id l :
  id ∈ popular → id ∉ ids candidates → addrs !! id = Some l → l ≠ [] →
  {| pi_peer_id := id; pi_addrs := l |} ∈ popular_unknown popular addrs candidates.
Proof.
  intros Hp Hc Ha Hl. apply list_elem_of_omap. exists id. split; [by apply list_elem_of_filter; rewrite hs_iter_elem_of|].
  rewrite Ha. by destruct l.
Qed.

Lemma popular_unknown_NoDup popular addrs candidates : NoDup (ids (popular_unknown popular addrs candidates)).
Proof.
  unfold popular_unknown, ids.
  assert (NoDup (filter (λ id, id ∉ (pi_peer_id <$> candidates)) (hs_iter popular))) as Hnd.
  { apply NoDup_filter. unfold hs_iter. rewrite hash_order_perm. apply NoDup_elements. }
  induction Hnd as [|id l Hid Hnd IH]; simpl; [constructor|].
  destruct (addrs !! id) as [[|a t]|]; [done| |done]. simpl. constructor; [|done].
  rewrite list_elem_of_fmap. intros (c & Hc & (id' & Hid' & Hc')%list_elem_of_omap).
  by destruct (addrs !! id') as [[|]|]; simplify_eq/=.
Qed.

(** ** How often a peer is reported *)

Fixpoint reported (p : bytes) (reports : list Report) : nat :=
  match reports with
  | [] => 0
  | (responder, Ok l) :: reports => (if decide (responder = p) then 1 else 0) + mentions p l + reported p reports
  | (_, Err _) :: reports => reported p reports
  end.

Lemma tally_report_lookup p responder l acc :
  default 0%nat ((tally_report acc (responder, Ok l)).1 !! p) =
    ((if decide (responder = p) then 1 else 0) + mentions p l + default 0 (acc.1 !! p))%nat.
Proof.
  simpl. rewrite <- Nat.add_assoc, (Nat.add_comm (mentions p l)), Nat.add_assoc, <- count_peer_lookup.
  set (acc1 := (count_peer responder acc.1, acc.2)). change (count_peer responder acc.1) with acc1.1.
  generalize acc1. clear acc acc1. unfold mentions. induction l as [|[a addrs] l IH]; intros acc; [simpl; lia|].
  cbn [foldl]. rewrite IH, filter_cons. simpl.
  destruct (as_peer_id a) as [q|]; simpl; [rewrite count_peer_lookup|]; repeat case_decide; simplify_eq/=; lia.
Qed.

Lemma tally_lookup p reports : default 0%nat ((tally reports).1 !! p) = reported p reports.
Proof.
  assert (∀ acc, default 0%nat ((foldl tally_report acc reports).1 !! p) = (reported p reports + default 0 (acc.1 !! p))%nat) as Hgen.
  { induction reports as [|[responder [l|e]] reports IH]; intros acc; [done|..]; cbn [foldl]; rewrite IH; [|done].
    rewrite tally_report_lookup. simpl. lia. }
  unfold tally. rewrite Hgen. simpl. rewrite lookup_empty. simpl. lia.
Qed.

Lemma popular_reported n reports p : p ∈ popular_peers n (tally reports).1 ↔ (n / 2 < reported p reports)%nat.
Proof.
  unfold popular_peers. rewrite elem_of_dom, <- tally_lookup. unfold is_Some. setoid_rewrite map_lookup_filter_Some. simpl.
  split; [intros (c & -> & Hc); done|]. destruct ((tally reports).1 !! p) as [c|]; simpl; [eauto|lia].
Qed.

#[export] Instance reported_Proper p : Proper ((≡ₚ) ==> eq) (reported p).
Proof.
  induction 1 as [|[r [l|e]] l1 l2 _ IH|[r [l|e]] [r' [l'|e']] ls|]; simpl; try lia; congruence.
Qed.

(** ** The selection *)

(** Peers that are no candidates but popular, reported with these addresses, and that answer the
    query for their version. *)
Definition verified_unknown (net : NetworkAnswers) candidates reports (p : PeerInfo) : Prop :=
  (length candidates / 2 < reported (pi_peer_id p) reports)%nat ∧ (pi_peer_id p ∉ ids candidates) ∧
  (tally reports).2 !! pi_peer_id p = Some (pi_addrs p) ∧ pi_addrs p ≠ [] ∧ answers_version net p = true.

(** The four tiers, in the order of their priority: candidates a majority reports, the peers above,
    candidates farther than every peer a majority reports, if there is one, and the other candidates. *)
Definition by_majority candidates reports (id : bytes) : Prop := (length candidates / 2 < reported id reports)%nat.

Inductive in_tier (net : NetworkAnswers) (key : NetworkAddress) candidates reports (p : PeerInfo) : nat → Prop :=
  | tier_agreed : p ∈ candidates → by_majority candidates reports (pi_peer_id p) → in_tier net key candidates reports p 1
  | tier_verified : verified_unknown net candidates reports p → in_tier net key candidates reports p 2
  | tier_beyond id :
    p ∈ candidates → ¬ by_majority candidates reports (pi_peer_id p) → by_majority candidates reports id →
    (∀ id, by_majority candidates reports id → peer_distance key id < peer_distance key (pi_peer_id p)) →
    in_tier net key candidates reports p 3
  | tier_remaining :
    p ∈ candidates → ¬ by_majority candidates reports (pi_peer_id p) →
    (∀ id, by_majority candidates reports id →
       ∃ id', by_majority candidates reports id' ∧ peer_distance key (pi_peer_id p) ≤ peer_distance key id') →
    in_tier net key candidates reports p 4.

(** The peers of tier 2. *)
Definition asked_unknown (net : NetworkAnswers) (versions : list PeerInfo → list PeerInfo) candidates reports : list PeerInfo :=
  filter (λ p, answers_version net p = true)
    (versions (popular_unknown (popular_peers (length candidates) (tally reports).1) (tally reports).2 candidates)).

Lemma asked_unknown_verified net versions candidates reports p :
  (∀ l, versions l ≡ₚ l) → p ∈ asked_unknown net versions candidates reports ↔ verified_unknown net candidates reports p.
Proof.
  intros Hv. unfold asked_unknown. rewrite list_elem_of_filter, Hv. split.
  - intros [Hans Hin]. pose proof (list_elem_of_fmap_2 pi_peer_id _ _ Hin) as Hid.
    apply popular_unknown_ids in Hid as [Hpop%popular_reported Hc].
    apply list_elem_of_omap in Hin as (id & _ & Hp). by destruct ((tally reports).2 !! id) as [[|]|] eqn:E; simplify_eq/=.
  - intros (Hpop%popular_reported & Hc & Ha & Hne & Hans). split; [done|]. destruct p. by apply popular_unknown_elem.
Qed.

Lemma asked_unknown_apart net versions candidates reports x :
  (∀ l, versions l ≡ₚ l) → x ∈ ids (asked_unknown net versions candidates reports) → x ∉ ids candidates.
Proof. by intros Hv (p & -> & (_ & Hc & _)%asked_unknown_verified)%list_elem_of_fmap. Qed.

Lemma asked_unknown_NoDup net versions candidates reports :
  (∀ l, versions l ≡ₚ l) → NoDup (ids (asked_unknown net versions candidates reports)).
Proof. intros Hv. apply ids_filter_NoDup. unfold ids. rewrite Hv. apply popular_unknown_NoDup. Qed.

Lemma select_verified_tiers net versions key candidates reports :
  select_verified net versions key candidates reports =
    (tiers (length candidates) (λ c, peer_distance key (pi_peer_id c)) (popular_peers (length candidates) (tally reports).1)
       (max_distance (peer_distance key <$> hs_iter (popular_peers (length candidates) (tally reports).1)))
       candidates (asked_unknown net versions candidates reports)).1.
Proof. unfold select_verified, asked_unknown. by destruct (tally reports). Qed.

Lemma max_distance_popular {A} (g : A → Z) l :
  match max_distance (g <$> l) with
  | Some m => (∃ x, x ∈ l ∧ m = g x) ∧ ∀ x, x ∈ l → g x ≤ m
  | None => l = []
  end.
Proof.
  destruct l as [|a l]; [done|]. simpl.
  assert (∀ m, ((m = foldl Z.max m (g <$> l)) ∨ ∃ x, x ∈ l ∧ foldl Z.max m (g <$> l) = g x) ∧ m ≤ foldl Z.max m (g <$> l) ∧ ∀ x, x ∈ l → g x ≤ foldl Z.max m (g <$> l)) as Hfold.
  { induction l as [|b l IH]; intros m; [simpl; split_and!; [by left|lia|by intros ? ?%not_elem_of_nil]|]. rewrite fmap_cons. cbn [foldl].
    destruct (IH (m `max` g b)) as (Hm & Hle & Hall). set (r := foldl Z.max (m `max` g b) (g <$> l)) in *. split_and!; [|lia|].
    - destruct Hm as [Hm|(x & Hx & Hm)]; [|right; exists x; split; [by right|done]].
      destruct (Z.max_spec m (g b)) as [[? E]|[? E]]; [right; exists b; split; [by left|lia]|left; lia].
    - intros x [->|Hx]%elem_of_cons; [lia|by apply Hall]. }
  destruct (Hfold (g a)) as (Hm & Hle & Hall). split.
  - destruct Hm as [Hm|(x & Hx & Hm)]; [exists a; split; [by left|done]|exists x; split; [by right|done]].
  - intros x [->|Hx]%elem_of_cons; [done|by apply Hall].
Qed.

(** The declared tiers are those of the selection. *)
Lemma in_tier_rank net key versions candidates reports p i :
  (∀ l, versions l ≡ₚ l) → in_tier net key candidates reports p i →
  let popular := popular_peers (length candidates) (tally reports).1 in
  (p ∈ candidates ∨ p ∈ asked_unknown net versions candidates reports) ∧
  S (tier_rank (λ c, peer_distance key (pi_peer_id c)) popular (max_distance (peer_distance key <$> hs_iter popular)) candidates p) = i.
Proof.
  intros Hv Hp popular. unfold tier_rank. pose proof (max_distance_popular (peer_distance key) (hs_iter popular)) as Hmax.
  assert (∀ id, id ∈ hs_iter popular ↔ by_majority candidates reports id) as Hpop by (intros id; rewrite hs_iter_elem_of; apply popular_reported).
  destruct Hp as [Hc Hm|Hp|id Hc Hm Hid Hfar|Hc Hm Hnear].
  - split; [by left|]. rewrite !decide_True; [done| |done]. by apply popular_reported.
  - split; [right; by apply asked_unknown_verified|]. rewrite decide_False; [done|]. intros Hc. destruct Hp as (_ & Hn & _). by apply Hn, list_elem_of_fmap_2.
  - split; [by left|]. rewrite decide_True, decide_False; [|by intros ?%popular_reported|done].
    destruct (max_distance _) as [m|]; [|apply Hpop in Hid; rewrite Hmax in Hid; by apply not_elem_of_nil in Hid].
    destruct Hmax as [(x & Hx%Hpop & ->) _]. rewrite decide_True; [done|]. by apply Hfar.
  - split; [by left|]. rewrite decide_True, decide_False; [|by intros ?%popular_reported|done].
    destruct (max_distance _) as [m|]; [|done]. destruct Hmax as [(x & Hx%Hpop & Hxm) Hall].
    destruct (Hnear x Hx) as (y & Hy%Hpop%Hall & Hle). rewrite decide_False; [done|lia].
Qed.

(** C27: The closest peers a majority agrees on. If kademlia finds candidates for a key, exactly as
    many distinct peers are returned, in the order of their distance to the key, whatever the
    candidates report and in whatever order they do: all candidates reported more than half as often
    as there are candidates, then peers reported so often that answer the query for their version at
    the addresses they were reported with, then candidates farther than every peer reported so often,
    then the other candidates. A peer of one of these tiers is left out only if every returned peer is
    of an earlier tier, or of the same tier and at most as far; what counts as reported so often are
    the places in the reports, of one candidate too. *)
Theorem majority_peers_exact net arrivals versions key n candidates :
  na_closest net key (n ≫= nonzero) = Some candidates → candidates ≠ [] → NoDup (ids candidates) →
  (∀ l, arrivals l ≡ₚ l) → (∀ l, versions l ≡ₚ l) →
  let reports := arrivals (candidate_reports net key candidates) in
  let dist p := peer_distance key (pi_peer_id p) in
  ∃ peers, get_closest_peers_with_majority_knowledge net arrivals versions key n = Ok peers ∧
    length peers = length candidates ∧ NoDup (ids peers) ∧ StronglySorted (λ p1 p2, dist p1 ≤ dist p2) peers ∧
    (∀ p, p ∈ peers → p ∈ candidates ∨ verified_unknown net candidates reports p) ∧
    (∀ c, c ∈ candidates → (length candidates / 2 < reported (pi_peer_id c) (candidate_reports net key candidates))%nat → c ∈ peers) ∧
    (∀ p q i j, in_tier net key candidates reports p i → p ∉ peers → q ∈ peers → in_tier net key candidates reports q j →
       (j < i)%nat ∨ (j = i ∧ dist q ≤ dist p)).
Proof.
  intros Hk Hne Hnd Harr Hv reports dist. unfold get_closest_peers_with_majority_knowledge. rewrite Hk.
  assert (found_peers (Some candidates) = Ok candidates) as -> by by destruct candidates. cbn [rbind].
  rewrite select_verified_tiers. fold reports.
  edestruct (tiers_selection (length candidates) dist (popular_peers (length candidates) (tally reports).1)) as (rest & Hok & Hlen & Hsel & Hfrom & _);
    [done|done|by apply (asked_unknown_NoDup net versions candidates reports)| |].
  { intros x. by apply asked_unknown_apart. }
  eexists. split; [done|]. split_and!; [by rewrite sort_by_key_length| |apply sort_by_key_sorted| | |].
  - unfold ids. rewrite sort_by_key_perm. apply (sel_nodup _ _ Hok).
  - intros p [Hp|Hp]%sort_by_key_elem_of%Hfrom; [by left|right]. by eapply asked_unknown_verified.
  - intros c Hc Hpop. apply sort_by_key_elem_of. fold dist. rewrite Hsel. apply elem_of_app. left.
    rewrite take_ge by (rewrite sort_by_key_length; apply length_filter). apply sort_by_key_elem_of, list_elem_of_filter. split; [|done].
    apply popular_reported. subst reports. by rewrite Harr.
  - intros p q i j Hp Hout Hq Hj. rewrite sort_by_key_elem_of in Hout, Hq.
    apply (in_tier_rank _ _ versions) in Hp as [Hp <-]; [|done]. apply (in_tier_rank _ _ versions) in Hj as [_ <-]; [|done].
    pose proof (tiers_priority _ _ _ _ candidates _ Hnd (asked_unknown_NoDup net versions candidates reports Hv)
      (λ x, asked_unknown_apart net versions candidates reports x Hv) p q Hp Hout Hq) as [Hlt|[Heq Hle]]; [left; lia|right]. by rewrite Heq.
Qed.

(** One peer can make another popular. Every place in a report counts, so a single candidate that
    names a peer more than half as often as there are candidates makes it popular, though popularity
    is meant to say that several nodes agree; if the popular candidates leave room for the peers to be
    asked, the peer is returned in the place of a candidate as soon as it answers with a version. *)
Theorem one_reporter_admits net arrivals versions key n candidates responder l x addrs :
  na_closest net key (n ≫= nonzero) = Some candidates → NoDup (ids candidates) →
  (∀ l, arrivals l ≡ₚ l) → (∀ l, versions l ≡ₚ l) →
  let reports := arrivals (candidate_reports net key candidates) in
  (responder, Ok l) ∈ reports → (length candidates / 2 < mentions x l)%nat → x ∉ ids candidates →
  (tally reports).2 !! x = Some addrs → addrs ≠ [] → answers_version net {| pi_peer_id := x; pi_addrs := addrs |} = true →
  (length (filter (λ c, pi_peer_id c ∈ popular_peers (length candidates) (tally reports).1) candidates) +
   length (asked_unknown net versions candidates reports) ≤ length candidates)%nat →
  ∃ peers, get_closest_peers_with_majority_knowledge net arrivals versions key n = Ok peers ∧
    {| pi_peer_id := x; pi_addrs := addrs |} ∈ peers ∧ ∃ c, c ∈ candidates ∧ c ∉ peers.
Proof.
  intros Hk Hnd Harr Hv reports Hin Hm Hx Ha Hne Hans Hroom. set (f := λ c, peer_distance key (pi_peer_id c)).
  assert (candidates ≠ []) as Hc0.
  { intros ->. subst reports. rewrite Harr in Hin. by apply not_elem_of_nil in Hin. }
  unfold get_closest_peers_with_majority_knowledge. rewrite Hk.
  assert (found_peers (Some candidates) = Ok candidates) as -> by by destruct candidates. cbn [rbind].
  rewrite select_verified_tiers. fold reports f. set (far := max_distance _).
  destruct (tiers_selection (length candidates) f (popular_peers (length candidates) (tally reports).1) far candidates
    (asked_unknown net versions candidates reports)) as (rest & Hok & Hlen & Hsel & Hfrom & Hall);
    [done|done|by apply (asked_unknown_NoDup net versions candidates reports)| |].
  { intros y. by apply asked_unknown_apart. }
  assert ((length candidates / 2 < reported x reports)%nat) as Hrep.
  { eapply Nat.lt_le_trans; [exact Hm|]. clear -Hin. induction reports as [|[r [l'|e]] reports IH]; [by apply not_elem_of_nil in Hin|..];
      simpl; apply elem_of_cons in Hin as [?|Hin]; simplify_eq; try specialize (IH Hin); lia. }
  eexists. split; [done|]. set (sel := tiers _ _ _ _ _ _) in *.
  assert ({| pi_peer_id := x; pi_addrs := addrs |} ∈ sel.1) as Hsx.
  { apply Hall.
    - eapply Nat.le_trans; [|exact Hroom]. rewrite length_take, sort_by_key_length. lia.
    - apply list_elem_of_filter. split; [done|]. rewrite Hv. by apply popular_unknown_elem; [apply popular_reported|..]. }
  split; [by rewrite sort_by_key_elem_of|].
  destruct (decide (Exists (λ c, c ∉ sel.1) candidates)) as [(c & Hc & Hn)%Exists_exists|Hno].
  { exists c. split; [done|]. by intros Hin'%sort_by_key_elem_of. }
  exfalso. assert (ids candidates ≡ₚ ids sel.1) as Hperm.
  { apply submseteq_length_Permutation; [|unfold ids; rewrite !length_fmap; lia].
    apply NoDup_submseteq; [done|]. intros y (c & -> & Hc)%list_elem_of_fmap. apply list_elem_of_fmap_2.
    destruct (decide (c ∈ sel.1)); [done|]. exfalso. apply Hno, Exists_exists. eauto. }
  apply Hx. rewrite Hperm. by apply (list_elem_of_fmap_2 pi_peer_id) in Hsx.
Qed.

(** ** Retries and several peers *)

(** A lookup is tried twice: the first success is returned, and the error of the second attempt. *)
Theorem closest_retries_exact `{!BackoffLaws} attempt key n :
  let try i := get_closest_peers_with_majority_knowledge (at_net (attempt i)) (at_arrivals (attempt i)) (at_versions (attempt i)) key n in
  node_closest_peers_with_retries attempt key n = match try 0%nat with Ok peers => Ok peers | Err _ => try 1%nat end.
Proof.
  destruct (backoff_items CLOSEST_PEERS_RETRY_ATTEMPTS ltac:(unfold CLOSEST_PEERS_RETRY_ATTEMPTS; lia)) as ([|d [|]] & Hlen & Hd); try done.
  unfold node_closest_peers_with_retries. rewrite Hd. simpl.
  destruct (get_closest_peers_with_majority_knowledge (at_net (attempt 0%nat)) _ _ key n); [done|].
  by destruct (get_closest_peers_with_majority_knowledge (at_net (attempt 1%nat)) _ _ key n).
Qed.

Lemma collect_all_responses completed responses p :
  NoDup completed.*1 →
  collect_responses true completed responses !! p =
    match list_to_map (M := gmap bytes _) completed !! p with Some r => Some r | None => responses !! p end.
Proof.
  revert responses. induction completed as [|[q r] completed IH]; intros responses Hnd; [done|].
  apply NoDup_cons in Hnd as [Hq Hnd]. simpl. rewrite IH by done. destruct (decide (q = p)) as [->|Hne].
  - rewrite !lookup_insert_eq. by rewrite not_elem_of_list_to_map_1.
  - by rewrite !lookup_insert_ne.
Qed.

Lemma collect_first completed responses p r :
  (∀ q r, responses !! q = Some r → is_ok r = false) → collect_responses false completed responses !! p = Some r →
  if is_ok r then (p, r) ∈ completed ∧ collect_responses false completed responses = {[p := r]}
  else (∀ q r, (q, r) ∈ completed → is_ok r = false).
Proof.
  revert responses. induction completed as [|[q r'] completed IH]; intros responses Hres Hl; simpl in *.
  { apply Hres in Hl as ->. set_solver. }
  destruct (is_ok r') eqn:Hr'; simpl in *.
  - apply lookup_singleton_Some in Hl as [-> ->]. rewrite Hr'. split; [left|done].
  - specialize (IH (<[q := r']> responses)). ospecialize (IH _ Hl).
    { intros q' r''. rewrite lookup_insert_Some. intros [[_ <-]|[_ Hq]]; [done|by eapply Hres]. }
    destruct (is_ok r).
    + destruct IH as [? ?]. split; [by right|done].
    + intros q' r'' [?|Hin]%elem_of_cons; [by simplify_eq|by eapply IH].
Qed.

(** One request to several peers. If all responses are wanted, each peer's is there, whatever the
    order they come in; otherwise a success is alone in the result, and a failure is there only if
    every peer failed. *)
Theorem responses_of_peers net order peers req p :
  (∀ l, order l ≡ₚ l) → NoDup (ids peers) →
  let answer p := send_request net req (pi_peer_id p) (pi_addrs p) in
  (p ∈ peers → send_and_get_responses net order peers req true !! pi_peer_id p = Some (answer p)) ∧
  (∀ id r, send_and_get_responses net order peers req false !! id = Some r →
     if is_ok r then (∃ q, q ∈ peers ∧ id = pi_peer_id q ∧ r = answer q) ∧ send_and_get_responses net order peers req false = {[id := r]}
     else ∀ q, q ∈ peers → is_ok (answer q) = false).
Proof.
  intros Hord Hnd answer. unfold send_and_get_responses. set (completed := _ <$> order peers).
  assert (NoDup completed.*1) as Hnd'.
  { subst completed. rewrite <- list_fmap_compose. change (NoDup (pi_peer_id <$> order peers)). by rewrite Hord. }
  assert (∀ q, q ∈ peers → (pi_peer_id q, answer q) ∈ completed) as Hin.
  { intros q Hq. apply list_elem_of_fmap. exists q. split; [done|]. by rewrite Hord. }
  split.
  - intros Hp. rewrite collect_all_responses by done. by rewrite (elem_of_list_to_map_1 completed _ _ Hnd' (Hin p Hp)).
  - intros id r Hl. pose proof (collect_first completed ∅ id r ltac:(intros q r' Hq; by rewrite lookup_empty in Hq) Hl) as Hc. destruct (is_ok r).
    + destruct Hc as [Hid Heq]. split; [|done]. apply list_elem_of_fmap in Hid as (q & Hq & Hin'). rewrite Hord in Hin'.
      exists q. by simplify_eq.
    + intros q Hq. by eapply Hc, Hin.
Qed.
End majority.

(** * A concrete lookup *)

Section concrete_majority.
#[local] Existing Instances toy_xorname toy_hex toy_bls toy_kad toy_rmp_header toy_identity toy_aead hash_order_rev.

Definition ex_peer (n : Z) : PeerInfo := {| pi_peer_id := [n]; pi_addrs := [[n; n]] |}.

(** Three candidates; the first names the peer 9 twice, the second itself and the first, and the third
    does not answer. The peer 9 answers any query for its version. *)
Definition ex_majority_net : NetworkAnswers :=
  {| na_closest _ _ := Some [ex_peer 4; ex_peer 5; ex_peer 6];
     na_request req peer _ :=
       match req with
       | Req_Query (Q_GetClosestPeers key _ _ _) =>
         if bool_decide (peer = [4]) then Some (Ok (Resp_Query (R_GetClosestPeers key [(NA_PeerId [9], [[9; 9]]); (NA_PeerId [9], [[9; 9]])] None), None))
         else if bool_decide (peer = [5]) then Some (Ok (Resp_Query (R_GetClosestPeers key [(NA_PeerId [4], [[4; 4]]); (NA_PeerId [5], [[5; 5]])] None), None))
         else Some (Err (RQ_OutboundError OF_Timeout))
       | Req_Query (Q_GetVersion a) => Some (Ok (Resp_Query (R_GetVersion a [1]), None))
       | _ => None
       end |}.

Definition ex_key : NetworkAddress := NA_RecordKey [1].

Lemma majority_peers_exact_witness :
  na_closest ex_majority_net ex_key (Some 3%nat ≫= nonzero) = Some [ex_peer 4; ex_peer 5; ex_peer 6] ∧
  ∃ peers, get_closest_peers_with_majority_knowledge ex_majority_net id id ex_key (Some 3%nat) = Ok peers ∧ length peers = 3%nat ∧
    ex_peer 4 ∈ peers.
Proof.
  split; [reflexivity|].
  destruct (majority_peers_exact ex_majority_net id id ex_key (Some 3%nat) [ex_peer 4; ex_peer 5; ex_peer 6]) as (peers & Heq & Hlen & _ & _ & _ & Hall & _).
  - reflexivity.
  - discriminate.
  - apply (bool_decide_unpack _). vm_compute. exact I.
  - reflexivity.
  - reflexivity.
  - exists peers. split; [exact Heq|]. split; [exact Hlen|]. apply Hall; [left|]. apply Nat.ltb_lt. vm_compute. reflexivity.
Defined.

(** The peer that one candidate named twice takes the place of the third candidate. *)
Lemma one_reporter_admits_witness :
  ∃ peers, get_closest_peers_with_majority_knowledge ex_majority_net id id ex_key (Some 3%nat) = Ok peers ∧
    {| pi_peer_id := [9]; pi_addrs := [[9; 9]; [9; 9]] |} ∈ peers ∧ ∃ c, c ∈ [ex_peer 4; ex_peer 5; ex_peer 6] ∧ c ∉ peers.
Proof.
  apply (one_reporter_admits ex_majority_net id id ex_key (Some 3%nat) [ex_peer 4; ex_peer 5; ex_peer 6]
           [4] [(NA_PeerId [9], [[9; 9]]); (NA_PeerId [9], [[9; 9]])] [9] [[9; 9]; [9; 9]]).
  - reflexivity.
  - apply (bool_decide_unpack _). vm_compute. exact I.
  - reflexivity.
  - reflexivity.
  - vm_compute. left.
  - apply Nat.ltb_lt. vm_compute. reflexivity.
  - apply (bool_decide_unpack _). vm_compute. exact I.
  - vm_compute. reflexivity.
  - discriminate.
  - vm_compute. reflexivity.
  - apply Nat.leb_le. vm_compute. reflexivity.
Defined.
End concrete_majority.
