(* ===== verification/ClientPayment.v ===== *)
(** * Quotes and payments of the client

    Models src/autonomi/src/client/quote.rs and payment.rs, and [ClientProofOfPayment] of
    src/ant-evm/src/data_payments.rs: which of the quotes for an address are kept, what is paid to whom,
    and the receipt that goes with an upload. What lies outside of the client (the network, the contract,
    the wallet, random numbers) is a world [W] that its operations change, the class [ClientWorld]. *)

From stdpp Require Import base gmap countable strings list.
From Stdlib Require Import ZArith Lia.
From S2P Require Import Prelude Text Effects Protocol RecordCache RecordStore MerkleTree Payments Messages Driver TaskHandler.

(** ** ClientProofOfPayment and receipts *)

Section payment.
Context `{Libp2pIdentity, Digests, !Serde QuotingMetrics, Bls, HashOrder, Kad, Hex, XorNameLib}.

(** The encoded peer ids, the addresses and the quotes. *)
Record ClientProofOfPayment := { cpp_peer_quotes : list (bytes * list bytes * PaymentQuote) }.

Definition client_payees (p : ClientProofOfPayment) : list (bytes * list bytes) :=
  omap (λ '(peer_id, addrs, _), (λ id, (id, addrs)) <$> peer_id_from_bytes peer_id) (cpp_peer_quotes p).

Definition to_proof_of_payment (p : ClientProofOfPayment) : ProofOfPayment :=
  {| peer_quotes := (λ '(peer_id, _, quote), (peer_id, quote)) <$> cpp_peer_quotes p |}.

(** The proof and the amount for each address. *)
Definition Receipt : Type := gmap bytes (ClientProofOfPayment * Z).

(** A quote with the peer, its addresses and the price. *)
Definition QuoteEntry : Type := bytes * list bytes * PaymentQuote * Z.
Definition qe_peer (q : QuoteEntry) : bytes := q.1.1.1.
Definition qe_addrs (q : QuoteEntry) : list bytes := q.1.1.2.
Definition qe_quote (q : QuoteEntry) : PaymentQuote := q.1.2.
Definition qe_price (q : QuoteEntry) : Z := q.2.

Definition QuoteForAddress : Type := list QuoteEntry.
Definition StoreQuote : Type := gmap bytes QuoteForAddress.

(** Amounts are [U256], whose sums and products wrap around. *)
Definition amount_add (a b : Z) : Z := (a + b) mod 2 ^ 256.
Definition amount_sum (l : list Z) : Z := foldl amount_add 0 l.

Definition quote_price (q : QuoteForAddress) : Z := amount_sum (qe_price <$> q).
Definition store_quote_price (q : StoreQuote) : Z := amount_sum (quote_price <$> (hm_iter q).*2).

(** [payments]: hash, rewards address and price of each quote. *)
Definition payments (q : StoreQuote) : list (bytes * bytes * Z) :=
  concat ((λ x : bytes * QuoteForAddress, (λ e, (quote_hash (qe_quote e), pq_rewards_address (qe_quote e), qe_price e)) <$> x.2) <$> hm_iter q).

(** The receipt of an address; the encoded form of a peer id is its bytes. *)
Definition receipt_entry (paid_quote_hashes : option (gset bytes)) (quotes : QuoteForAddress) : ClientProofOfPayment * Z :=
  let paid := filter (λ e, match paid_quote_hashes with Some paid_hashes => bool_decide (quote_hash (qe_quote e) ∈ paid_hashes) | None => true end = true) quotes in
  ({| cpp_peer_quotes := (λ e, (qe_peer e, qe_addrs e, qe_quote e)) <$> paid |}, amount_sum (qe_price <$> paid)).

Definition receipt_from_store_quotes_filtered (quotes : StoreQuote) (paid_quote_hashes : option (gset bytes)) : Receipt :=
  omap (λ q, let entry := receipt_entry paid_quote_hashes q in
             if decide (cpp_peer_quotes entry.1 = []) then None else Some entry) quotes.

Definition receipt_from_store_quotes (quotes : StoreQuote) : Receipt := receipt_from_store_quotes_filtered quotes None.

(** ** Quotes *)

Inductive PaymentMode := Standard | SingleNode.

Inductive CostError :=
  | CostSelfEncryption
  | NotEnoughNodeQuotes (content_addr : bytes) (got required : nat)
  | CostSerialization
  | MarketPriceError
  | InvalidCost
  | CostNetwork (e : ClientError)
  | TotalCostOverflow (a b : Z)
  | NoAddressesForContent.

(** [AttoTokens::checked_add] and [add_costs]. *)
Definition atto_checked_add (a b : Z) : option Z := if 2 ^ 256 <=? a + b then None else Some (a + b).
Definition add_costs (a b : Z) : result Z CostError := ok_or (atto_checked_add a b) (TotalCostOverflow a b).

(** What [get_quotes_with_retries] gave for an address. *)
Definition fetch_store_quote (content_addr : bytes) (maybe_quotes : result (option (list (PeerInfo * PaymentQuote))) ClientError)
    : result (bytes * list (bytes * list bytes * PaymentQuote)) CostError :=
  match maybe_quotes with
  | Err e => Err (CostNetwork e)
  | Ok quotes =>
    Ok (content_addr,
        omap (λ '(peer, quote), (λ peer_id, (peer_id, pi_addrs peer, quote)) <$> quote_peer_id quote) (default [] quotes))
  end.

(** The quotes of the five peers closest to the address. *)
Definition keep_closest (content_addr : bytes) (raw_quotes : list (bytes * list bytes * PaymentQuote)) : list (bytes * list bytes * PaymentQuote) :=
  let target_addr := NA_ChunkAddress (mkChunkAddress content_addr) in
  take CLOSE_GROUP_SIZE (sort_by_key (λ q, distance (NA_PeerId q.1.1) target_addr) raw_quotes).

(** All quotes, each with its address; the first error ends it. *)
Fixpoint all_raw_quotes (raw_quotes_per_addr : list (result (bytes * list (bytes * list bytes * PaymentQuote)) CostError))
    : result (list (bytes * (bytes * list bytes * PaymentQuote))) CostError :=
  match raw_quotes_per_addr with
  | [] => Ok []
  | Err e :: _ => Err e
  | Ok (content_addr, raw_quotes) :: rest =>
    (let? quotes := all_raw_quotes rest in
     Ok (((λ q, (content_addr, q)) <$> keep_closest content_addr raw_quotes) ++ quotes))%rust
  end.

Definition GET_MARKET_PRICE_BATCH_LIMIT : nat := 2000.

(** [chunks(n)]; the fuel is the length. *)
Fixpoint chunks_of {A} (fuel n : nat) (l : list A) : list (list A) :=
  match fuel, l with
  | O, _ | _, [] => []
  | S fuel, _ => take n l :: chunks_of fuel n (drop n l)
  end.

(** The entry of an address, pushed to and sorted by price. *)
Definition push_quote (quotes_per_addr : gmap bytes QuoteForAddress) (x : bytes * QuoteEntry) : gmap bytes QuoteForAddress :=
  <[x.1 := sort_by_key qe_price (default [] (quotes_per_addr !! x.1) ++ [x.2])]> quotes_per_addr.

Definition MINIMUM_QUOTES_TO_PAY : nat := 5.

Definition without_price (q : QuoteEntry) : QuoteEntry := (q.1, 0).

(** At least five quotes are given. *)
Definition create_standard_quote_payment (quotes : QuoteForAddress) : QuoteForAddress :=
  match quotes with
  | q1 :: q2 :: q3 :: q4 :: q5 :: _ => [without_price q1; without_price q2; q3; q4; q5]
  | _ => []
  end.

Definition create_single_node_quote_payment (quotes : QuoteForAddress) : QuoteForAddress :=
  match quotes with
  | q1 :: q2 :: q3 :: q4 :: q5 :: _ =>
    [without_price q1; without_price q2; (q3.1, (qe_price q3 * 3) mod 2 ^ 256); without_price q4; without_price q5]
  | _ => []
  end.

(** Both modes: the addresses in the order of the map, up to the first with too few quotes. *)
Fixpoint quotes_to_pay (create : QuoteForAddress → QuoteForAddress) (quotes_per_addr : list (bytes * QuoteForAddress)) (acc : StoreQuote)
    : result StoreQuote CostError :=
  match quotes_per_addr with
  | [] => Ok acc
  | (content_addr, quotes) :: rest =>
    if (MINIMUM_QUOTES_TO_PAY <=? length quotes)%nat then quotes_to_pay create rest (<[content_addr := create quotes]> acc)
    else Err (NotEnoughNodeQuotes content_addr (length quotes) MINIMUM_QUOTES_TO_PAY)
  end.

Definition process_quotes_by_payment_mode (mode : PaymentMode) (quotes_per_addr : gmap bytes QuoteForAddress) : result StoreQuote CostError :=
  match mode with
  | Standard => quotes_to_pay create_standard_quote_payment (hm_iter quotes_per_addr) ∅
  | SingleNode => quotes_to_pay create_single_node_quote_payment (hm_iter quotes_per_addr) ∅
  end.

(** ** The world of the client *)

(** The wallet's error for too few tokens, and any other. *)
Inductive WalletError := InsufficientTokensForQuotes (have need : Z) | WalletOther.

(** [Strategy] and quorums of the client's configuration belong to the data type. *)
Class ClientWorld (W : Type) := {
  net_get_record_with_retries : DataTypes → NetworkAddress → W → result (option (list KadRecord)) ClientError * W;
  net_get_record : DataTypes → NetworkAddress → W → result (option KadRecord) ClientError * W;
  net_get_closest_peers_with_retries : NetworkAddress → W → result (list PeerInfo) ClientError * W;
  net_put_record_with_retries : DataTypes → KadRecord → list PeerInfo → W → result unit ClientError * W;
  net_get_quotes_with_retries : bytes → Z → Z → W → result (option (list (PeerInfo * PaymentQuote))) ClientError * W;
  evm_get_market_price : list QuotingMetrics → W → option (list Z) * W;
  evm_pay_for_quotes : list (bytes * bytes * Z) → CM W WalletError ();
  random_bytes : nat → W → bytes * W;
}.

Context `{ClientWorld W}.
Context (payment_mode : PaymentMode) (evm_network : bytes).

#[local] Open Scope cm_scope.

(** Quotes for addresses and sizes, in the order in which the requests complete. *)
Fixpoint get_raw_quotes (data_type : DataTypes) (content_addrs : list (bytes * Z)) (w : W)
    : list (result (bytes * list (bytes * list bytes * PaymentQuote)) CostError) * W :=
  match content_addrs with
  | [] => ([], w)
  | (content_addr, data_size) :: rest =>
    let '(maybe_quotes, w) := net_get_quotes_with_retries content_addr (get_index data_type) data_size w in
    let '(quotes, w) := get_raw_quotes data_type rest w in
    (fetch_store_quote content_addr maybe_quotes :: quotes, w)
  end.

(** The market prices of a batch after the other. *)
Fixpoint batch_prices (batches : list (list QuotingMetrics)) : CM W CostError (list Z) :=
  match batches with
  | [] => cm_ret []
  | batch :: rest =>
    let! prices := (λ w, let '(p, w) := evm_get_market_price batch w in (ok_or p MarketPriceError, w)) in
    let! more := batch_prices rest in
    cm_ret (prices ++ more)
  end.

Definition get_store_quotes (data_type : DataTypes) (content_addrs : list (bytes * Z)) : CM W CostError StoreQuote :=
  let! raw_quotes_per_addr := (λ w, let '(q, w) := get_raw_quotes data_type content_addrs w in (Ok q, w)) in
  let! all_quotes := cm_lift (all_raw_quotes raw_quotes_per_addr) in
  let metrics := (λ q : bytes * (bytes * list bytes * PaymentQuote), pq_quoting_metrics q.2.2) <$> all_quotes in
  let! all_prices := batch_prices (chunks_of (length metrics) GET_MARKET_PRICE_BATCH_LIMIT metrics) in
  let quotes_with_prices := zip_with (λ q price, (q.1, (q.2, price))) all_quotes all_prices in
  cm_lift (process_quotes_by_payment_mode payment_mode (foldl push_quote ∅ quotes_with_prices)).

(** ** Payment *)

Inductive PayError := EvmWalletNetworkMismatch | PayWalletError (e : WalletError) | PaySelfEncryption | PayCost (e : CostError).

Record EvmWallet := { wallet_network : bytes }.

Inductive PaymentOption := PO_Wallet (wallet : EvmWallet) | PO_Receipt (receipt : Receipt).

Definition pay (data_type : DataTypes) (content_addrs : list (bytes * Z)) (wallet : EvmWallet) : CM W PayError (Receipt * nat) :=
  if bool_decide (wallet_network wallet ≠ evm_network) then cm_err EvmWalletNetworkMismatch
  else
    let! quotes := cm_map_err PayCost (get_store_quotes data_type content_addrs) in
    let! _ := (if decide (quotes = ∅) then cm_ret tt
               else cm_map_err PayWalletError (evm_pay_for_quotes (payments quotes))) in
    cm_ret (receipt_from_store_quotes quotes, (length content_addrs - size quotes)%nat).

Definition pay_for_content_addrs (data_type : DataTypes) (content_addrs : list (bytes * Z)) (payment_option : PaymentOption)
    : CM W PayError (Receipt * nat) :=
  match payment_option with
  | PO_Wallet wallet => pay data_type content_addrs wallet
  | PO_Receipt receipt => cm_ret (receipt, 0%nat)
  end.
End payment.
