(* ===== verification/ClientData.v ===== *)
(** * Pointers, scratchpads and graph entries of the client

    Models src/autonomi/src/client/data_types: how a client reads a mutable record that several peers
    answer (mod.rs, [resolve_records_from_peers]), and how it creates, updates and reads pointers
    (pointer.rs), scratchpads (scratchpad.rs) and graph entries (graph.rs). The network is the world of
    ClientPayment; records are those of Protocol and Storage. *)

From stdpp Require Import base gmap countable strings list.
From Stdlib Require Import ZArith Lia.
From S2P Require Import Prelude Text Effects Protocol Storage RecordCache RecordStore MerkleTree Payments PutValidation Messages Driver TaskHandler.
From S2P Require Import ClientPayment.

(** ** Resolution: mod.rs *)

Section resolve.
Context `{HashOrder} {T E : Type} `{EqDecision T}.
Context (deserialize : KadRecord → result T E) (counter_of : T → Z) (same_content : T → T → bool)
  (fork_error : list T → E) (corrupt_error : E).

(** [iter_mut().find(..)] with the count, or a new group at the end. *)
Fixpoint count_content (item : T) (content_groups : list (T * nat)) : list (T * nat) :=
  match content_groups with
  | [] => [(item, 1%nat)]
  | (existing, count) :: rest =>
    if same_content existing item then (existing, S count) :: rest else (existing, count) :: count_content item rest
  end.

Definition group_contents (items : list T) : list (T * nat) := foldl (λ groups item, count_content item groups) [] items.

Definition max_count (groups : list (T * nat)) : nat := max_list (groups.*2).

(** The items of the groups with the most copies. *)
Definition best_groups (groups : list (T * nat)) : list T := (filter (λ g, g.2 = max_count groups) groups).*1.

Definition resolve_records_from_peers (records : list KadRecord) : result T E :=
  let items := omap (λ r, rok (deserialize r)) records in
  let items := sort_by_key counter_of items in
  match last items with
  | None => Err corrupt_error
  | Some latest =>
    let items_at_max := filter (λ item, counter_of item = counter_of latest) items in
    match hash_order (remove_dups (best_groups (group_contents items_at_max))) with
    | [one] => Ok one
    | [] => Err corrupt_error
    | best_vec => Err (fork_error best_vec)
    end
  end.
End resolve.

(** ** Errors *)

Section client_data.
Context `{XorNameLib, Hex, Bls, Layout, Kad, RmpHeader, Libp2pIdentity, Digests, HashOrder}.
Context `{!BodySerde}.
Context `{!ClientWorld W}.
Context (payment_mode : PaymentMode) (evm_network : bytes).

(** The variants of [GetError] and [PutError] these operations give. *)
Inductive GetError := GetNetwork (e : ClientError) | RecordNotFound | RecordKindMismatch (kind : RecordKind).

Record PutError := { pe_address : NetworkAddress; pe_network_error : ClientError; pe_payment : option Receipt }.

Inductive PointerError :=
  | PointerPutError (e : PutError)
  | PointerGetError (e : GetError)
  | PointerSerialization
  | PointerCorrupt
  | PointerBadSignature
  | PointerPay (e : PayError)
  | PointerWallet
  | PointerInvalidQuote
  | PointerAlreadyExists (a : PointerAddress)
  | CannotUpdateNewPointer
  | PointerFork (pointers : list Pointer).

#[local] Open Scope cm_scope.

(** The two forms a record is put in: with a proof of payment to its payees, or for free to the
    closest peers. *)
Definition record_of (address : NetworkAddress) (value : bytes) : KadRecord :=
  {| rec_key := to_record_key address; rec_value := value; rec_publisher := None; rec_expires := None |}.

Definition payee_infos (proof : ClientProofOfPayment) : list PeerInfo :=
  (λ x : bytes * list bytes, {| pi_peer_id := x.1; pi_addrs := x.2 |}) <$> client_payees proof.

Definition put_failed (address : NetworkAddress) (payment : option Receipt) (e : ClientError) : PutError :=
  {| pe_address := address; pe_network_error := e; pe_payment := payment |}.

(** [record_from] and [target_nodes] of the puts that may be paid: the record with its proof and the payees, or
    without and the closest peers. *)
Definition record_and_targets {E T} `{Serde T, Serde (ProofOfPayment * T)} (serialization : E) (put_error : PutError → E)
    (data_type : DataTypes) (net_addr : NetworkAddress) (data : T) (proof : option ClientProofOfPayment) : CM W E (KadRecord * list PeerInfo) :=
  match proof with
  | Some proof =>
    let! value := cm_lift (map_err (λ _, serialization) (try_serialize_record (to_proof_of_payment proof, data) (DataWithPayment data_type))) in
    cm_ret (record_of net_addr value, payee_infos proof)
  | None =>
    let! value := cm_lift (map_err (λ _, serialization) (try_serialize_record data (DataOnly data_type))) in
    let! target_nodes := cm_map_err (λ e, put_error (put_failed net_addr None e)) (net_get_closest_peers_with_retries net_addr) in
    cm_ret (record_of net_addr value, target_nodes)
  end.

(** ** Pointers: pointer.rs *)

Definition pointer_from_record (record : KadRecord) : result Pointer PointerError :=
  (let? kind := map_err (λ _, PointerCorrupt) (record_header_from_record record) in
   if bool_decide (kind ≠ DataOnly Pointer_t) then Err (PointerGetError (RecordKindMismatch (DataOnly Pointer_t)))
   else map_err (λ _, PointerCorrupt) (try_deserialize_record record))%rust.

Definition resolve_pointers (records : list KadRecord) : result Pointer PointerError :=
  resolve_records_from_peers pointer_from_record ptr_counter (λ a b, bool_decide (a = b)) PointerFork PointerCorrupt records.

Definition pointer_verify (pointer : Pointer) : result unit PointerError :=
  if pointer_verify_signature pointer then Ok tt else Err PointerBadSignature.

Definition pointer_get (address : PointerAddress) : CM W PointerError Pointer :=
  let! answer := cm_try (net_get_record_with_retries Pointer_t (NA_PointerAddress address)) in
  let! pointer := cm_lift match answer with
                          | Ok (Some records) => resolve_pointers records
                          | Ok None => Err (PointerGetError RecordNotFound)
                          | Err (SplitRecord result_map) => resolve_pointers (hm_iter result_map).*2
                          | Err err => Err (PointerGetError (GetNetwork err))
                          end in
  let! _ := cm_lift (pointer_verify pointer) in
  cm_ret pointer.

(** The existence checks of the three types. *)
Definition check_existence {E} (get_error : ClientError → E) (data_type : DataTypes) (key : NetworkAddress) : CM W E bool :=
  let! answer := cm_try (net_get_record data_type key) in
  match answer with
  | Ok None => cm_ret false
  | Ok (Some _) => cm_ret true
  | Err (SplitRecord _) => cm_ret true
  | Err err => cm_err (get_error err)
  end.

Definition pointer_check_existence (address : PointerAddress) : CM W PointerError bool :=
  check_existence (λ e, PointerGetError (GetNetwork e)) Pointer_t (NA_PointerAddress address).

Definition pointer_put (pointer : Pointer) (payment_option : PaymentOption) : CM W PointerError (Z * PointerAddress) :=
  let address := pointer_address pointer in
  let xor_name := pointer_address_xorname address in
  let! receipt := cm_map_err PointerPay
                    (pay_for_content_addrs payment_mode evm_network Pointer_t [(xor_name, size_of_pointer)] payment_option) in
  let payment_proofs := receipt.1 in
  let! rt := record_and_targets PointerSerialization PointerPutError Pointer_t (NA_PointerAddress address) pointer
               (fst <$> payment_proofs !! xor_name) in
  let! _ := cm_map_err (λ e, PointerPutError (put_failed (NA_PointerAddress address) (Some payment_proofs) e))
              (net_put_record_with_retries Pointer_t rt.1 rt.2) in
  cm_ret (default 0 (snd <$> payment_proofs !! xor_name), address).

Definition pointer_create (owner : SecretKey) (target : PointerTarget) (payment_option : PaymentOption) : CM W PointerError (Z * PointerAddress) :=
  let address := mkPointerAddress (sk_public_key owner) in
  let! already_exists := pointer_check_existence address in
  if already_exists then cm_err (PointerAlreadyExists address) else pointer_put (pointer_new owner 0 target) payment_option.

(** [current.counter() + 1] on [u64]. *)
Definition next_counter (counter : Z) : Z := (counter + 1) mod 2 ^ 64.

Definition pointer_update_from (current : Pointer) (owner : SecretKey) (new_target : PointerTarget) : CM W PointerError Pointer :=
  let net_addr := NA_PointerAddress (mkPointerAddress (sk_public_key owner)) in
  let pointer := pointer_new owner (next_counter (ptr_counter current)) new_target in
  let! rt := record_and_targets PointerSerialization PointerPutError Pointer_t net_addr pointer None in
  let! _ := cm_map_err (λ e, PointerPutError (put_failed net_addr None e)) (net_put_record_with_retries Pointer_t rt.1 rt.2) in
  cm_ret pointer.

(** [max_by_key]: the last of the greatest. *)
Definition max_by_key {A} (f : A → Z) (l : list A) : option A :=
  foldl (λ best x, match best with Some b => if f x <? f b then best else Some x | None => Some x end) None l.

Definition pointer_update (owner : SecretKey) (target : PointerTarget) : CM W PointerError unit :=
  let address := mkPointerAddress (sk_public_key owner) in
  let! got := cm_try (pointer_get address) in
  let! current := match got with
                  | Ok pointer => cm_ret (Some pointer)
                  | Err (PointerGetError (GetNetwork (SplitRecord result_map))) =>
                    cm_ret (max_by_key ptr_counter (omap (λ r, rok (try_deserialize_record (T := Pointer) r)) (hm_iter result_map).*2))
                  | Err err => cm_err err
                  end in
  match current with
  | Some p => let! _ := pointer_update_from p owner target in cm_ret tt
  | None => cm_err CannotUpdateNewPointer
  end.

Definition pointer_cost (key : PublicKey) : CM W CostError Z :=
  let! store_quote := get_store_quotes payment_mode Pointer_t [(pointer_address_xorname (mkPointerAddress key), size_of_pointer)] in
  cm_ret (store_quote_price store_quote).

(** ** Scratchpads: scratchpad.rs *)

Inductive ScratchpadError :=
  | ScratchpadPutError (e : PutError)
  | ScratchpadPay (e : PayError)
  | ScratchpadGetError (e : ClientError)
  | ScratchpadNotFound (a : ScratchpadAddress)
  | ScratchpadCorrupt (a : ScratchpadAddress)
  | ScratchpadSerialization
  | ScratchpadAlreadyExists (a : ScratchpadAddress)
  | CannotUpdateNewScratchpad
  | ClientScratchpadTooBig (size : Z)
  | ScratchpadBadSignature
  | ScratchpadFork (scratchpads : list Scratchpad).

Definition scratchpad_same_content (a b : Scratchpad) : bool :=
  (sp_data_encoding a =? sp_data_encoding b) && bool_decide (sp_encrypted_data a = sp_encrypted_data b).

Definition resolve_scratchpads (address : ScratchpadAddress) (records : list KadRecord) : result Scratchpad ScratchpadError :=
  resolve_records_from_peers (λ r, map_err (λ _, ScratchpadCorrupt address) (try_deserialize_record r)) sp_counter
    scratchpad_same_content ScratchpadFork (ScratchpadCorrupt address) records.

Definition scratchpad_verify (scratchpad : Scratchpad) : result unit ScratchpadError :=
  if negb (scratchpad_verify_signature scratchpad) then Err ScratchpadBadSignature
  else if scratchpad_is_too_big scratchpad then Err (ClientScratchpadTooBig (scratchpad_size scratchpad))
  else Ok tt.

Definition scratchpad_get (address : ScratchpadAddress) : CM W ScratchpadError Scratchpad :=
  let! answer := cm_try (net_get_record_with_retries Scratchpad_t (NA_ScratchpadAddress address)) in
  let! pad := cm_lift match answer with
                      | Ok (Some records) => resolve_scratchpads address records
                      | Ok None => Err (ScratchpadNotFound address)
                      | Err (SplitRecord result_map) => resolve_scratchpads address (hm_iter result_map).*2
                      | Err err => Err (ScratchpadGetError err)
                      end in
  let! _ := cm_lift (scratchpad_verify pad) in
  cm_ret pad.

Definition scratchpad_get_from_public_key (public_key : PublicKey) : CM W ScratchpadError Scratchpad :=
  scratchpad_get (mkScratchpadAddress public_key).

Definition scratchpad_check_existence (address : ScratchpadAddress) : CM W ScratchpadError bool :=
  check_existence ScratchpadGetError Scratchpad_t (NA_ScratchpadAddress address).

Definition scratchpad_put (scratchpad : Scratchpad) (payment_option : PaymentOption) : CM W ScratchpadError (Z * ScratchpadAddress) :=
  let address := sp_address scratchpad in
  let! _ := cm_lift (scratchpad_verify scratchpad) in
  let xor_name := scratchpad_address_xorname address in
  let! receipt := cm_map_err ScratchpadPay
                    (pay_for_content_addrs payment_mode evm_network Scratchpad_t [(xor_name, scratchpad_size scratchpad)] payment_option) in
  let payment_proofs := receipt.1 in
  let! rt := record_and_targets ScratchpadSerialization ScratchpadPutError Scratchpad_t (NA_ScratchpadAddress address) scratchpad
               (fst <$> payment_proofs !! xor_name) in
  let! _ := cm_map_err (λ e, ScratchpadPutError (put_failed (NA_ScratchpadAddress address) (Some payment_proofs) e))
              (net_put_record_with_retries Scratchpad_t rt.1 rt.2) in
  cm_ret (default 0 (snd <$> payment_proofs !! xor_name), address).

(** The randomness of the encryption is drawn from the world. *)
Definition scratchpad_new_random (owner : SecretKey) (content_type : Z) (data : bytes) (counter : Z) : CM W ScratchpadError Scratchpad :=
  λ w, let '(r, w) := random_bytes 32 w in (Ok (scratchpad_new (from_le_bytes r) owner content_type data counter), w).

Definition scratchpad_create (owner : SecretKey) (content_type : Z) (initial_data : bytes) (payment_option : PaymentOption)
    : CM W ScratchpadError (Z * ScratchpadAddress) :=
  let address := mkScratchpadAddress (sk_public_key owner) in
  let! already_exists := scratchpad_check_existence address in
  if already_exists then cm_err (ScratchpadAlreadyExists address)
  else let! scratchpad := scratchpad_new_random owner content_type initial_data 0 in scratchpad_put scratchpad payment_option.

Definition scratchpad_put_update (scratchpad : Scratchpad) : CM W ScratchpadError unit :=
  let! _ := cm_lift (scratchpad_verify scratchpad) in
  let net_addr := NA_ScratchpadAddress (sp_address scratchpad) in
  let! rt := record_and_targets ScratchpadSerialization ScratchpadPutError Scratchpad_t net_addr scratchpad None in
  cm_map_err (λ e, ScratchpadPutError (put_failed net_addr None e)) (net_put_record_with_retries Scratchpad_t rt.1 rt.2).

Definition scratchpad_update_from (current : Scratchpad) (owner : SecretKey) (content_type : Z) (data : bytes) : CM W ScratchpadError Scratchpad :=
  let! scratchpad := scratchpad_new_random owner content_type data (next_counter (sp_counter current)) in
  let! _ := scratchpad_put_update scratchpad in
  cm_ret scratchpad.

Definition client_scratchpad_update (owner : SecretKey) (content_type : Z) (data : bytes) : CM W ScratchpadError unit :=
  let! got := cm_try (scratchpad_get (mkScratchpadAddress (sk_public_key owner))) in
  let! current := match got with
                  | Ok scratchpad => cm_ret (Some scratchpad)
                  | Err (ScratchpadNotFound _) => cm_ret None
                  | Err (ScratchpadFork scratchpads) => cm_ret (max_by_key sp_counter scratchpads)
                  | Err err => cm_err err
                  end in
  match current with
  | Some p => let! _ := scratchpad_update_from p owner content_type data in cm_ret tt
  | None => cm_err CannotUpdateNewScratchpad
  end.

Definition scratchpad_cost (owner : PublicKey) : CM W CostError Z :=
  let! store_quote := get_store_quotes payment_mode Scratchpad_t [(scratchpad_address_xorname (mkScratchpadAddress owner), SCRATCHPAD_MAX_SIZE)] in
  cm_ret (store_quote_price store_quote).

(** ** Graph entries: graph.rs *)

Inductive GraphError :=
  | GraphPutError (e : PutError)
  | GraphCost (e : CostError)
  | GraphGetError (e : GetError)
  | GraphSerialization
  | GraphFailedVerification
  | GraphPay (e : PayError)
  | GraphWallet
  | GraphInvalidQuote
  | GraphAlreadyExists (a : GraphEntryAddress)
  | GraphFork (entries : list GraphEntry).

Definition get_graph_entry_from_record (record : KadRecord) : result (list GraphEntry) GraphError :=
  (let? kind := map_err (λ _, GraphSerialization) (record_header_from_record record) in
   if bool_decide (kind = DataOnly GraphEntry_t) then map_err (λ _, GraphSerialization) (try_deserialize_record record)
   else Err GraphSerialization)%rust.

(** The entry with the most copies. *)
Definition resolve_graph_entries (records : list KadRecord) : result GraphEntry GraphError :=
  let all_entries := concat (omap (λ r, rok (get_graph_entry_from_record r)) records) in
  match all_entries with
  | [] => Err (GraphGetError RecordNotFound)
  | _ =>
    match best_groups (group_contents (λ a b, bool_decide (a = b)) all_entries) with
    | [best_entry] => Ok best_entry
    | entries_with_max => Err (GraphFork entries_with_max)
    end
  end.

Definition graph_entry_get (address : GraphEntryAddress) : CM W GraphError GraphEntry :=
  let! answer := cm_map_err (λ e, GraphGetError (GetNetwork e)) (net_get_record_with_retries GraphEntry_t (NA_GraphEntryAddress address)) in
  cm_lift match answer with
          | Some records => resolve_graph_entries records
          | None => Err (GraphGetError RecordNotFound)
          end.

Definition graph_entry_check_existence (address : GraphEntryAddress) : CM W GraphError bool :=
  check_existence (λ e, GraphGetError (GetNetwork e)) GraphEntry_t (NA_GraphEntryAddress address).

(** The event sent to a listener, which changes nothing, is left out. *)
Definition graph_entry_put (entry : GraphEntry) (payment_option : PaymentOption) : CM W GraphError (Z * GraphEntryAddress) :=
  let address := graph_entry_address entry in
  let xor_name := graph_address_xorname address in
  let! receipt := cm_map_err GraphPay
                    (pay_for_content_addrs payment_mode evm_network GraphEntry_t [(xor_name, graph_entry_size entry)] payment_option) in
  let payment_proofs := receipt.1 in
  match payment_proofs !! xor_name with
  | None => cm_err (GraphAlreadyExists address)
  | Some (proof, price) =>
    let! value := cm_lift (map_err (λ _, GraphSerialization)
                             (try_serialize_record (to_proof_of_payment proof, entry) (DataWithPayment GraphEntry_t))) in
    let! _ := cm_map_err (λ e, GraphPutError (put_failed (NA_GraphEntryAddress address) (Some payment_proofs) e))
                (net_put_record_with_retries GraphEntry_t (record_of (NA_GraphEntryAddress address) value) (payee_infos proof)) in
    cm_ret (price, address)
  end.

Definition graph_entry_cost (key : PublicKey) : CM W CostError Z :=
  let! store_quote := get_store_quotes payment_mode GraphEntry_t [(graph_address_xorname (mkGraphEntryAddress key), GRAPH_ENTRY_MAX_SIZE)] in
  cm_ret (store_quote_price store_quote).
End client_data.
