(* ===== verification/ClientRegister.v ===== *)
(** * Registers of the client

    Models src/autonomi/src/client/key_derivation.rs and high_level/register (mod.rs, history.rs): a
    register is a chain of graph entries, each naming the key of the next, with a pointer to the last
    one; both are owned by keys derived from the owner's. blsttc's derivation is the parameter
    [BlsDerive]. *)

From stdpp Require Import base gmap countable strings list.
From Stdlib Require Import ZArith Lia.
From S2P Require Import Prelude Text Effects Protocol Storage RecordCache RecordStore MerkleTree Payments PutValidation Messages Driver TaskHandler.
From S2P Require Import ClientPayment ClientData.

(** ** Key derivation: key_derivation.rs *)

(** [derive_child] of secret and of public keys. *)
Class BlsDerive `{Bls} := {
  sk_derive_child : SecretKey → bytes → SecretKey;
  pk_derive_child : PublicKey → bytes → PublicKey;
}.

(** A key derived from the secret key belongs to the one derived from the public key. *)
Class BlsDeriveLaws `{BlsDerive} : Prop := {
  derive_public_key : ∀ sk index, sk_public_key (sk_derive_child sk index) = pk_derive_child (sk_public_key sk) index;
}.

(** An index of 32 bytes. *)
Definition DerivationIndex : Type := bytes.

(** [DerivationIndex::cmp]: the derived order of the bytes. *)
Definition index_cmp (a b : DerivationIndex) : comparison := list_cmp Z.compare a b.

Section register.
Context `{XorNameLib, Hex, Bls, Layout, Kad, RmpHeader, Libp2pIdentity, Digests, HashOrder}.
Context `{!BodySerde, !BlsDerive}.
Context `{!ClientWorld W}.
Context (payment_mode : PaymentMode) (evm_network : bytes).

#[local] Open Scope cm_scope.

(** [MainSecretKey::derive_key] and [MainPubkey::derive_key]. *)
Definition main_sk_derive_key (main : SecretKey) (index : DerivationIndex) : SecretKey := sk_derive_child main index.
Definition main_pk_derive_key (main : PublicKey) (index : DerivationIndex) : PublicKey := pk_derive_child main index.

Definition random_index {E} : CM W E DerivationIndex := λ w, let '(b, w) := random_bytes 32 w in (Ok b, w).

(** ** Registers: mod.rs *)

Inductive RegisterError :=
  | RegisterGraphError (e : GraphError)
  | RegisterPointerError (e : PointerError)
  | RegisterInvalidCost
  | InvalidHeadPointer (target : PointerTarget)
  | RegisterFork (values : list bytes)
  | RegisterCorrupt
  | CannotUpdateNewRegister
  | InvalidRegisterValueLength (len : nat).

Definition REGISTER_VALUE_SIZE : nat := 32.
Definition REGISTER_HEAD_DERIVATION_INDEX : DerivationIndex := replicate 32 0.

Definition register_key_from_name (owner : SecretKey) (name : bytes) : SecretKey :=
  main_sk_derive_key owner (xorname_from_content name).

Definition register_value_from_bytes (value : bytes) : result bytes RegisterError :=
  if (REGISTER_VALUE_SIZE <? length value)%nat then Err (InvalidRegisterValueLength (length value))
  else Ok (value ++ replicate (REGISTER_VALUE_SIZE - length value) 0).

(** A register's address is its owner's key. *)
Definition register_head_pointer_pk (addr : PublicKey) : PublicKey := main_pk_derive_key addr REGISTER_HEAD_DERIVATION_INDEX.
Definition register_head_pointer_address (addr : PublicKey) : PointerAddress := mkPointerAddress (register_head_pointer_pk addr).
Definition register_head_pointer_sk (register_owner : SecretKey) : SecretKey := main_sk_derive_key register_owner REGISTER_HEAD_DERIVATION_INDEX.

Definition get_derivation_from_graph_entry (entry : GraphEntry) : result DerivationIndex RegisterError :=
  match ge_descendants entry with
  | [(_, d)] => Ok d
  | _ => Err RegisterCorrupt
  end.

Definition register_create (owner : SecretKey) (initial_value : bytes) (payment_option : PaymentOption) : CM W RegisterError (Z * PublicKey) :=
  let public_key := sk_public_key owner in
  let! index := random_index in
  let next_key := main_pk_derive_key public_key index in
  let root_entry := graph_entry_new owner [] initial_value [(next_key, index)] in
  let! put := cm_map_err RegisterGraphError (graph_entry_put payment_mode evm_network root_entry payment_option) in
  let target := PT_GraphEntryAddress put.2 in
  let! created := cm_map_err RegisterPointerError
                    (pointer_create payment_mode evm_network (register_head_pointer_sk owner) target payment_option) in
  let! total_cost := cm_lift (ok_or (atto_checked_add put.1 created.1) RegisterInvalidCost) in
  cm_ret (total_cost, public_key).

(** [min_by]: the first of the least. *)
Definition min_by {A} (cmp : A → A → comparison) (l : list A) : option A :=
  foldl (λ best x, match best with Some b => match cmp x b with Lt => Some x | _ => best end | None => Some x end) None l.

Definition register_get_graph_entry_and_next_derivation_index (graph_entry_addr : GraphEntryAddress)
    : CM W RegisterError (GraphEntry * DerivationIndex) :=
  let! got := cm_try (graph_entry_get graph_entry_addr) in
  let! entry := cm_lift match got with
                        | Ok e => Ok e
                        | Err (GraphFork entries) =>
                          let valid := omap (λ e, (λ d, (e, d)) <$> rok (get_derivation_from_graph_entry e)) entries in
                          ok_or (fst <$> min_by (λ a b : GraphEntry * DerivationIndex, index_cmp a.2 b.2) valid) RegisterCorrupt
                        | Err err => Err (RegisterGraphError err)
                        end in
  let! new_derivation := cm_lift (get_derivation_from_graph_entry entry) in
  cm_ret (entry, new_derivation).

Definition head_graph_address (pointer : Pointer) : result GraphEntryAddress RegisterError :=
  match ptr_target pointer with
  | PT_GraphEntryAddress addr => Ok addr
  | other => Err (InvalidHeadPointer other)
  end.

Definition register_update (owner : SecretKey) (new_value : bytes) (payment_option : PaymentOption) : CM W RegisterError Z :=
  let pointer_addr := register_head_pointer_address (sk_public_key owner) in
  let! got := cm_try (pointer_get pointer_addr) in
  let! pointer := cm_lift match got with
                          | Ok pointer => Ok pointer
                          | Err (PointerGetError RecordNotFound) => Err CannotUpdateNewRegister
                          | Err err => Err (RegisterPointerError err)
                          end in
  let! graph_entry_addr := cm_lift (head_graph_address pointer) in
  let! head := register_get_graph_entry_and_next_derivation_index graph_entry_addr in
  let new_key := main_sk_derive_key owner head.2 in
  let! next_derivation := random_index in
  let next_pk := main_pk_derive_key (sk_public_key owner) next_derivation in
  let new_entry := graph_entry_new new_key [ge_owner head.1] new_value [(next_pk, next_derivation)] in
  let update_pointer address := cm_map_err RegisterPointerError
                                  (pointer_update (register_head_pointer_sk owner) (PT_GraphEntryAddress address)) in
  let! put := cm_try (graph_entry_put payment_mode evm_network new_entry payment_option) in
  match put with
  | Ok (cost, new_graph_entry_addr) =>
    let! _ := update_pointer new_graph_entry_addr in
    cm_ret cost
  | Err (GraphAlreadyExists address) =>
    let! _ := update_pointer address in
    cm_err RegisterCorrupt
  | Err err => cm_err (RegisterGraphError err)
  end.

Definition register_get (addr : PublicKey) : CM W RegisterError bytes :=
  let! pointer := cm_map_err RegisterPointerError (pointer_get (register_head_pointer_address addr)) in
  let! graph_entry_addr := cm_lift (head_graph_address pointer) in
  let! got := cm_try (graph_entry_get graph_entry_addr) in
  cm_lift match got with
          | Ok entry => Ok (ge_content entry)
          | Err (GraphFork entries) => Err (RegisterFork (ge_content <$> entries))
          | Err err => Err (RegisterGraphError err)
          end.

(** The two costs are asked for concurrently; here one after the other. *)
Definition register_cost (owner : PublicKey) : CM W CostError Z :=
  let! graph_entry_cost := cm_try (graph_entry_cost payment_mode owner) in
  let! pointer_cost := cm_try (pointer_cost payment_mode (register_head_pointer_pk owner)) in
  let! graph_entry_cost := cm_lift graph_entry_cost in
  let! pointer_cost := cm_lift pointer_cost in
  cm_lift (ok_or (atto_checked_add graph_entry_cost pointer_cost) InvalidCost).

(** ** History: history.rs *)

Record RegisterHistory := { rh_register_owner : PublicKey; rh_current_iter : GraphEntryAddress }.

Definition register_history (addr : PublicKey) : RegisterHistory :=
  {| rh_register_owner := addr; rh_current_iter := mkGraphEntryAddress addr |}.

Definition history_next (h : RegisterHistory) : CM W RegisterError (option bytes * RegisterHistory) :=
  let! got := cm_try (register_get_graph_entry_and_next_derivation_index (rh_current_iter h)) in
  match got with
  | Ok (entry, next_derivation) =>
    let next_entry_pk := main_pk_derive_key (rh_register_owner h) next_derivation in
    cm_ret (Some (ge_content entry), {| rh_register_owner := rh_register_owner h; rh_current_iter := mkGraphEntryAddress next_entry_pk |})
  | Err (RegisterGraphError (GraphGetError RecordNotFound)) => cm_ret (None, h)
  | Err e => cm_err e
  end.

(** The loop of [collect], with fuel; [None] when it is used up. *)
Fixpoint collect_from (fuel : nat) (h : RegisterHistory) (values : list bytes) : CM W RegisterError (option (list bytes)) :=
  match fuel with
  | O => cm_ret None
  | S fuel =>
    let! next := history_next h in
    match next.1 with
    | Some value => collect_from fuel next.2 (values ++ [value])
    | None => cm_ret (Some values)
    end
  end.

Definition history_collect (fuel : nat) (h : RegisterHistory) : CM W RegisterError (option (list bytes)) :=
  collect_from fuel {| rh_register_owner := rh_register_owner h; rh_current_iter := mkGraphEntryAddress (rh_register_owner h) |} [].
End register.
