(* ===== verification/ClientExamples.v ===== *)
(** * A concrete setting for the client

    Instances to evaluate the client's operations with: key pairs that are numbers, an encoding that
    writes every value, a network that gives fixed answers, and a node that finds every payment
    confirmed. *)

From stdpp Require Import base gmap countable strings list.
From Stdlib Require Import ZArith Lia.
From S2P Require Import Prelude Text Effects Protocol Storage RecordCache RecordStore MerkleTree MerkleTreeProps Payments PaymentsProps.
From S2P Require Import PutValidation PutValidationFacts PutValidationProps Messages Driver TaskHandler.
From S2P Require Import ClientPayment ClientRegister.

(** ** Keys *)

(** A key pair is a number; a derived one lies above it. *)
Definition num_bls : Bls :=
  {| PublicKey := Z; SecretKey := Z; Signature := Z * bytes; Ciphertext := Z * bytes;
     pk_compare := Z.compare;
     sig_compare := prod_cmp Z.compare (list_cmp Z.compare);
     pk_to_bytes pk := 128 :: pk :: replicate 46 0;
     sig_to_bytes s := s.1 :: s.2;
     sk_public_key sk := sk;
     sk_sign sk m := (sk, m);
     pk_verify pk s m := bool_decide (s = (pk, m));
     pk_encrypt r pk m := (pk, m);
     ct_to_bytes c := c.1 :: c.2;
     ct_from_bytes b := match b with x :: m => Some (x, m) | _ => None end;
     sk_decrypt sk c := if bool_decide (sk = c.1) then Some c.2 else None |}.

Lemma num_bls_laws : @BlsLaws num_bls.
Proof.
  split; simpl.
  - intros. by apply bool_decide_eq_true.
  - intros. by rewrite bool_decide_eq_true_2.
  - by intros [].
  - by intros x y [=].
  - done.
  - intros pk. do 2 eexists. split; [reflexivity|lia].
Qed.

Lemma num_bls_ord_laws : @BlsOrdLaws num_bls.
Proof. split; simpl; apply _. Qed.

Definition num_derive : @BlsDerive num_bls :=
  @Build_BlsDerive num_bls (λ sk index, (sk + 1 + default 0 (head index))%Z : @SecretKey num_bls) (λ pk index, (pk + 1 + default 0 (head index))%Z : @PublicKey num_bls).

Lemma num_derive_laws : @BlsDeriveLaws num_bls num_derive.
Proof. by split. Qed.

(** ** Encodings *)

(** A tag and the number of the value. *)
Definition counted {T} `{Countable T} (tag : Z) : Serde T :=
  {| rmp_to_vec t := Some [tag; Zpos (encode t)];
     rmp_from_slice b := match b with
       | [g; n] => if g =? tag then decode (Z.to_pos n) else None
       | _ => None end |}.

Lemma counted_laws {T} `{Countable T} tag : @SerdeLaws T (counted tag).
Proof. split; intros t b [= <-]; [|done]. simpl. rewrite Z.eqb_refl, Pos2Z.id || rewrite Z.eqb_refl; simpl; apply decode_encode. Qed.

Section countable.
Context `{Bls}.

#[export] Instance QuotingMetrics_countable : Countable QuotingMetrics.
Proof.
  refine (inj_countable' (λ m, (qm_data_type m, qm_data_size m, qm_close_records_stored m, qm_records_per_type m, qm_max_records m,
      qm_received_payment_count m, qm_live_time m, qm_network_density m, qm_network_size m))
    (λ '(a, b, c, d, e, f, g, h, i), Build_QuotingMetrics a b c d e f g h i) _). by intros [].
Defined.

#[export] Instance PaymentQuote_eq_dec : EqDecision PaymentQuote.
Proof. solve_decision. Defined.
#[export] Instance PaymentQuote_countable : Countable PaymentQuote.
Proof.
  refine (inj_countable' (λ q, (pq_content q, pq_timestamp q, pq_quoting_metrics q, pq_rewards_address q, pq_pub_key q, pq_signature q))
    (λ '(a, b, c, d, e, f), Build_PaymentQuote a b c d e f) _). by intros [].
Defined.

#[export] Instance ProofOfPayment_eq_dec : EqDecision ProofOfPayment.
Proof. solve_decision. Defined.
#[export] Instance ProofOfPayment_countable : Countable ProofOfPayment.
Proof. refine (inj_countable' peer_quotes Build_ProofOfPayment _). by intros []. Defined.

#[export] Instance PointerTarget_countable : Countable PointerTarget.
Proof.
  refine (inj_countable' (λ t, match t with
      | PT_ChunkAddress a => inl (chunk_address_xorname a) | PT_GraphEntryAddress a => inr (0, graph_address_owner a)
      | PT_PointerAddress a => inr (1, pointer_address_owner a) | PT_ScratchpadAddress a => inr (2, scratchpad_address_owner a) end)
    (λ x : bytes + Z * PublicKey, match x with
      | inl b => PT_ChunkAddress (mkChunkAddress b)
      | inr (n, pk) => if n =? 0 then PT_GraphEntryAddress (mkGraphEntryAddress pk)
                       else if n =? 1 then PT_PointerAddress (mkPointerAddress pk) else PT_ScratchpadAddress (mkScratchpadAddress pk) end) _).
  by intros [[]|[]|[]|[]].
Defined.

#[export] Instance Pointer_countable : Countable Pointer.
Proof.
  refine (inj_countable' (λ p, (ptr_owner p, ptr_counter p, ptr_target p, ptr_signature p)) (λ '(a, b, c, d), Build_Pointer a b c d) _).
  by intros [].
Defined.
#[export] Instance Scratchpad_countable : Countable Scratchpad.
Proof.
  refine (inj_countable' (λ s, (scratchpad_address_owner (sp_address s), sp_data_encoding s, sp_encrypted_data s, sp_counter s, sp_signature s))
    (λ '(a, b, c, d, e), Build_Scratchpad (mkScratchpadAddress a) b c d e) _). by intros [[]].
Defined.
End countable.

Section setting.
#[local] Existing Instances toy_xorname toy_hex num_bls num_bls_laws num_bls_ord_laws toy_layout toy_kad toy_rmp_header
  toy_rmp_header_laws toy_identity toy_digests toy_ant_merkle hash_order_rev.

Definition num_bodies : BodySerde :=
  {| serde_bytes := toy_serde_bytes; serde_target := counted 0; serde_metrics := toy_serde_metrics;
     serde_scratchpad := counted 1; serde_pointer := counted 2; serde_graph_entries := counted 3;
     serde_paid_bytes := counted 4; serde_paid_scratchpad := counted 5; serde_paid_graph_entry := counted 6; serde_paid_pointer := counted 7;
     serde_merkle_bytes := toy_read 8 []; serde_merkle_scratchpad := toy_read 9 [];
     serde_merkle_graph_entry := toy_read 10 []; serde_merkle_pointer := toy_read 11 [] |}.

Lemma num_bodies_laws : @BodySerdeLaws _ num_bodies.
Proof.
  split; try apply counted_laws; try (by intros p b [= <-]).
  - apply toy_serde_bytes_laws.
  - by intros [|x [|y v]] b [= <-].
  - by intros [|x [|y v]] b [= <-].
Qed.

#[local] Existing Instance num_bodies.

(** A quote for a type of data, signed by the peer. *)
Definition typed_quote (t : DataTypes) (key : Z) : PaymentQuote :=
  let m := {| qm_data_type := get_index t; qm_data_size := 10; qm_close_records_stored := 3; qm_records_per_type := [];
              qm_max_records := 100; qm_received_payment_count := 0; qm_live_time := 1; qm_network_density := None; qm_network_size := None |} in
  {| pq_content := [1]; pq_timestamp := NANOS; pq_quoting_metrics := m; pq_rewards_address := [7]; pq_pub_key := [key];
     pq_signature := key :: bytes_for_signing [1] NANOS m [7] |}.

Definition typed_proof (t : DataTypes) : ClientProofOfPayment :=
  {| cpp_peer_quotes := [([4], [], typed_quote t 4); ([5], [], typed_quote t 5)] |}.

(** A node close to everything that finds every payment confirmed. *)
Definition honest_env (st : gmap bytes KadRecord) : NodeEnv :=
  {| env_peer_id := [5];
     env_is_record_key_present k := Some (bool_decide (is_Some (st !! k)));
     env_get_local_record k := Some (st !! k);
     env_k_closest_local_peers _ := Some [[4]; [5]];
     env_network_density := Some None;
     env_verify_payment n payments :=
       Some ((λ '(h, _, _), {| pv_quote_hash := h; pv_amount_paid := 10; pv_is_valid := true |}) <$> payments);
     env_merkle_payment_info n _ := None;
     env_packed_commitments n _ _ := None;
     env_closest_peers _ n := None;
     env_now := Some 2000 |}.

Lemma honest_env_reads st : env_reads (honest_env st) st.
Proof. split; [done|]. by intros k b [= <-]. Qed.

Lemma honest_env_accepts st address t :
  (payment_for_us_exists_and_is_still_valid (honest_env st) address t (to_proof_of_payment (typed_proof t))).2 = Ok tt.
Proof. destruct t; vm_compute; reflexivity. Qed.

(** Every request for records gets the same answer. *)
Definition fixed_answers (answer : result (option (list KadRecord)) ClientError) : ClientWorld unit :=
  {| net_get_record_with_retries t a w := (answer, w); net_get_record t a w := (Ok None, w);
     net_get_closest_peers_with_retries a w := (Ok [], w); net_put_record_with_retries t r targets w := (Ok tt, w);
     net_get_quotes_with_retries a i s w := (Ok None, w); evm_get_market_price m w := (None, w);
     evm_pay_for_quotes p w := (Ok tt, w); random_bytes n w := (replicate n 1, w) |}.
End setting.
