(* ===== verification/ClientPaymentProps.v ===== *)
(** * Which quotes a client pays

    Of src/autonomi/src/client/quote.rs and payment.rs: from the priced quotes of many addresses to the
    amounts paid for each and to the receipts. *)

From stdpp Require Import base gmap countable strings list sorting.
From Stdlib Require Import ZArith Lia.
From S2P Require Import Prelude Text Effects Protocol RecordCache RecordStore MerkleTree MerkleTreeProps Payments PaymentsProps.
From S2P Require Import Messages Driver TaskHandler.
From S2P Require Import ClientPayment ClientExamples.

Section selection.
Context `{Libp2pIdentity, Digests, !Serde QuotingMetrics, Bls, HashOrder, Kad, Hex, XorNameLib}.

(** The quotes of an address. *)
Definition entries_of (addr : bytes) (priced : list (bytes * QuoteEntry)) : list QuoteEntry := (filter (λ x, x.1 = addr) priced).*2.

Lemma entries_of_snoc addr priced x :
  entries_of addr (priced ++ [x]) = entries_of addr priced ++ (if decide (x.1 = addr) then [x.2] else []).
Proof. unfold entries_of. rewrite filter_app, fmap_app. f_equal. rewrite filter_cons. by destruct (decide (x.1 = addr)). Qed.

(** The quotes of each address, in the order of their prices. *)
Lemma push_quotes_spec priced addr :
  match foldl push_quote ∅ priced !! addr with
  | None => entries_of addr priced = []
  | Some l => l ≡ₚ entries_of addr priced ∧ l ≠ [] ∧ StronglySorted (key_le qe_price) l
  end.
Proof.
  induction priced as [|x priced IH] using rev_ind; [done|]. rewrite foldl_app, entries_of_snoc. simpl. unfold push_quote at 1.
  destruct (decide (x.1 = addr)) as [<-|Hne].
  - rewrite lookup_insert_eq. set (l := default [] _ ++ [x.2]). assert (l ≡ₚ entries_of x.1 priced ++ [x.2]) as Hl.
    { unfold l. destruct (foldl push_quote ∅ priced !! x.1) as [l0|]; simpl; [destruct IH as [IH _]; by rewrite IH|by rewrite IH]. }
    split_and!; [by rewrite sort_by_key_perm| |apply sort_by_key_sorted]. intros E. pose proof (sort_by_key_length qe_price l) as Hlen.
    rewrite E, Hl, length_app in Hlen. simpl in Hlen. lia.
  - rewrite lookup_insert_ne by done. by rewrite app_nil_r.
Qed.

Lemma quotes_to_pay_spec create l acc :
  NoDup l.*1 →
  match quotes_to_pay create l acc with
  | Ok q => (∀ a quotes, (a, quotes) ∈ l → (5 ≤ length quotes)%nat ∧ q !! a = Some (create quotes)) ∧ ∀ a, a ∉ l.*1 → q !! a = acc !! a
  | Err e => ∃ a quotes, (a, quotes) ∈ l ∧ (length quotes < 5)%nat ∧ e = NotEnoughNodeQuotes a (length quotes) 5
  end.
Proof.
  revert acc. induction l as [|[a quotes] l IH]; intros acc Hnd; cbn [quotes_to_pay]; [set_solver|]. rewrite fmap_cons in Hnd. apply NoDup_cons in Hnd as [Ha Hnd].
  unfold MINIMUM_QUOTES_TO_PAY. destruct (Nat.leb_spec 5 (length quotes)) as [Hle|Hlt].
  - specialize (IH (<[a := create quotes]> acc) Hnd). destruct (quotes_to_pay create l _) as [q|e].
    + destruct IH as [Hin Hout]. split.
      * intros b bq [[= -> ->]|Hb]%elem_of_cons; [|by apply Hin]. rewrite Hout by done. split; [done|]. apply lookup_insert_eq.
      * intros b Hb. simpl in Hb. rewrite Hout by set_solver. apply lookup_insert_ne. set_solver.
    + destruct IH as (b & bq & Hb & Hrest). exists b, bq. split; [by right|done].
  - exists a, quotes. split_and!; [left|done|done].
Qed.

(** What the two modes make of the five cheapest quotes, and the amount. *)
Definition paid_quotes (mode : PaymentMode) (q1 q2 q3 q4 q5 : QuoteEntry) : QuoteForAddress :=
  match mode with
  | Standard => [without_price q1; without_price q2; q3; q4; q5]
  | SingleNode => [without_price q1; without_price q2; (q3.1, (qe_price q3 * 3) mod 2 ^ 256); without_price q4; without_price q5]
  end.
Definition paid_amount (mode : PaymentMode) (q3 q4 q5 : QuoteEntry) : Z :=
  match mode with Standard => (qe_price q3 + qe_price q4 + qe_price q5) mod 2 ^ 256 | SingleNode => (3 * qe_price q3) mod 2 ^ 256 end.

Definition create_payment (mode : PaymentMode) : QuoteForAddress → QuoteForAddress :=
  match mode with Standard => create_standard_quote_payment | SingleNode => create_single_node_quote_payment end.

Lemma paid_quotes_price mode q1 q2 q3 q4 q5 : quote_price (paid_quotes mode q1 q2 q3 q4 q5) = paid_amount mode q3 q4 q5.
Proof.
  unfold quote_price, amount_sum, amount_add, paid_quotes, paid_amount. assert (2 ^ 256 ≠ 0) as HM by lia. revert HM. generalize (2 ^ 256). intros M HM.
  destruct mode; simpl; unfold qe_price; simpl; rewrite ?Z.mod_0_l, ?Z.add_0_l, ?Z.add_0_r, ?Z.mod_mod by done.
  - by rewrite Zplus_mod_idemp_l, <- Z.add_assoc, Zplus_mod_idemp_l, Z.add_assoc.
  - f_equal. lia.
Qed.

Lemma receipt_lookup q addr :
  receipt_from_store_quotes q !! addr =
  quotes ← q !! addr; if decide (cpp_peer_quotes (receipt_entry None quotes).1 = []) then None else Some (receipt_entry None quotes).
Proof. unfold receipt_from_store_quotes, receipt_from_store_quotes_filtered. exact (lookup_omap _ q addr). Qed.

(** The amounts and receipts of a selection. *)
Lemma payment_selection mode priced :
  match process_quotes_by_payment_mode mode (foldl push_quote ∅ priced) with
  | Ok q =>
    ∀ addr, match entries_of addr priced with
            | [] => q !! addr = None ∧ receipt_from_store_quotes q !! addr = None
            | quotes =>
              ∃ q1 q2 q3 q4 q5 rest, q1 :: q2 :: q3 :: q4 :: q5 :: rest ≡ₚ quotes ∧
                StronglySorted (key_le qe_price) (q1 :: q2 :: q3 :: q4 :: q5 :: rest) ∧
                q !! addr = Some (paid_quotes mode q1 q2 q3 q4 q5) ∧
                receipt_from_store_quotes q !! addr =
                  Some ({| cpp_peer_quotes := (λ e, (qe_peer e, qe_addrs e, qe_quote e)) <$> [q1; q2; q3; q4; q5] |}, paid_amount mode q3 q4 q5)
            end
  | Err e => ∃ addr, (0 < length (entries_of addr priced) < 5)%nat ∧ e = NotEnoughNodeQuotes addr (length (entries_of addr priced)) 5
  end.
Proof.
  set (m := foldl push_quote ∅ priced). pose proof (push_quotes_spec priced) as Hm. fold m in Hm.
  pose proof (quotes_to_pay_spec (create_payment mode) (hm_iter m) ∅ (hm_iter_NoDup_fst m)) as Hpay.
  replace (process_quotes_by_payment_mode mode m) with (quotes_to_pay (create_payment mode) (hm_iter m) ∅) by (by destruct mode).
  destruct (quotes_to_pay _ _ _) as [q|e].
  - destruct Hpay as [Hin Hout]. intros addr. specialize (Hm addr). destruct (m !! addr) as [l|] eqn:El.
    + destruct Hm as (Hperm & Hne & Hsorted). destruct (Hin addr l) as [Hlen Hq]; [by apply hm_iter_elem_of|].
      destruct (entries_of addr priced) as [|x xs]; [by apply Permutation_nil_r in Hperm|].
      destruct l as [|q1 [|q2 [|q3 [|q4 [|q5 rest]]]]]; simpl in Hlen; try lia. exists q1, q2, q3, q4, q5, rest.
      assert (q !! addr = Some (paid_quotes mode q1 q2 q3 q4 q5)) as Hq' by (rewrite Hq; by destruct mode). split_and!; [done..|].
      rewrite receipt_lookup, Hq'. simpl. rewrite <- (paid_quotes_price mode q1 q2).
      by destruct mode.
    + assert (q !! addr = None) as Hq.
      { rewrite Hout; [done|]. intros ([a l] & Ea & Hal%hm_iter_elem_of)%list_elem_of_fmap. simpl in Ea. subst a. pose proof (eq_trans (eq_sym El) Hal) as [=]. }
      rewrite Hm. split; [done|]. by rewrite receipt_lookup, Hq.
  - destruct Hpay as (addr & l & Hl%hm_iter_elem_of & Hlt & ->). specialize (Hm addr). replace (m !! addr) with (Some l) in Hm by done. destruct Hm as (Hperm & Hne & _).
    exists addr. rewrite <- Hperm. split; [|done]. destruct l; [done|]. simpl in *. lia.
Qed.

(** An address with quotes has a receipt. *)
Lemma selection_has_receipt mode priced q addr :
  process_quotes_by_payment_mode mode (foldl push_quote ∅ priced) = Ok q → entries_of addr priced ≠ [] →
  is_Some (receipt_from_store_quotes q !! addr).
Proof.
  intros Hq Hne. pose proof (payment_selection mode priced) as Hsel. rewrite Hq in Hsel. specialize (Hsel addr).
  destruct (entries_of addr priced); [done|]. destruct Hsel as (q1 & q2 & q3 & q4 & q5 & rest & _ & _ & _ & ->). by eexists.
Qed.

(** C39: what is paid for which quotes. Of the quotes for an address the five cheapest count. In standard
    mode the three dearest of them are paid their prices, in single-node mode the middle one is paid
    three times its price; the others are paid nothing but belong to the receipt, which has all five. An
    address without any quote is left out; one with fewer than five makes the whole selection fail, and
    names such an address. *)
Theorem payment_selection_exact mode priced :
  match process_quotes_by_payment_mode mode (foldl push_quote ∅ priced) with
  | Ok q =>
    ∀ addr, match entries_of addr priced with
            | [] => q !! addr = None ∧ receipt_from_store_quotes q !! addr = None
            | quotes =>
              ∃ q1 q2 q3 q4 q5 rest, q1 :: q2 :: q3 :: q4 :: q5 :: rest ≡ₚ quotes ∧
                StronglySorted (key_le qe_price) (q1 :: q2 :: q3 :: q4 :: q5 :: rest) ∧
                q !! addr = Some (paid_quotes mode q1 q2 q3 q4 q5) ∧
                receipt_from_store_quotes q !! addr =
                  Some ({| cpp_peer_quotes := (λ e, (qe_peer e, qe_addrs e, qe_quote e)) <$> [q1; q2; q3; q4; q5] |}, paid_amount mode q3 q4 q5)
            end
  | Err e => ∃ addr, (0 < length (entries_of addr priced) < 5)%nat ∧ e = NotEnoughNodeQuotes addr (length (entries_of addr priced)) 5
  end.
Proof. apply payment_selection. Qed.
End selection.

(** * Witnesses *)

Section payment_witnesses.
#[local] Existing Instances num_bls toy_identity toy_digests toy_serde_metrics hash_order_rev toy_kad toy_hex toy_xorname.

(** Peer [n] asks for a price. *)
Definition ex_priced (n price : Z) : QuoteEntry := ([n], [], ex_quote n NANOS, price).

Lemma payment_selection_exact_witness :
  let five := (λ e, ([1], e)) <$> [ex_priced 1 9; ex_priced 2 4; ex_priced 3 6; ex_priced 4 8; ex_priced 5 5] in
  let priced := five ++ [([2], ex_priced 1 1)] in
  match process_quotes_by_payment_mode SingleNode (foldl push_quote ∅ five) with Ok q => snd <$> receipt_from_store_quotes q !! [1] | Err _ => None end = Some 18 ∧
  ∃ addr, (0 < length (entries_of addr priced) < 5)%nat ∧
    process_quotes_by_payment_mode SingleNode (foldl push_quote ∅ priced) = Err (NotEnoughNodeQuotes addr (length (entries_of addr priced)) 5).
Proof.
  intros five priced. split; [vm_compute; reflexivity|]. pose proof (payment_selection_exact SingleNode priced) as Hsel.
  assert (process_quotes_by_payment_mode SingleNode (foldl push_quote ∅ priced) = Err (NotEnoughNodeQuotes [2] 1 5)) as E by (vm_compute; reflexivity).
  rewrite E in Hsel |- *. destruct Hsel as (addr & Hlen & Hsel). exists addr. split; [exact Hlen|]. rewrite Hsel. reflexivity.
Defined.
End payment_witnesses.
