(* ===== verification/ClientDataProps.v ===== *)
(** * Properties of the client's mutable records

    Of src/autonomi/src/client/data_types: what the answers of several peers resolve to; what a read
    value guarantees and what it does not; and the effect of updates when peers disagree. *)

From stdpp Require Import base gmap countable strings list.
From Stdlib Require Import ZArith Lia.
From S2P Require Import Prelude Text Effects Protocol Storage RecordCache RecordStore MerkleTree MerkleTreeProps Payments PaymentsProps PutValidation PutValidationFacts PutValidationProps.
From S2P Require Import Messages Driver TaskHandler.
From S2P Require Import ClientPayment ClientData ClientExamples.

(** ** Groups of equal content *)

Section groups.
Context {T K : Type} `{EqDecision T, EqDecision K} (f : T → K).

(** How many of the items have the content of another. *)
Definition copies (x : T) (items : list T) : nat := length (filter (λ y, f y = f x) items).

Abbreviation same := (λ a b, bool_decide (f a = f b)).

Lemma copies_app x l k : copies x (l ++ k) = (copies x l + copies x k)%nat.
Proof. unfold copies. by rewrite filter_app, length_app. Qed.

Lemma copies_pos x items : x ∈ items → (0 < copies x items)%nat.
Proof.
  intros Hx. unfold copies. assert (x ∈ filter (λ y, f y = f x) items) as Hf by (by apply list_elem_of_filter).
  destruct (filter _ items); [by apply not_elem_of_nil in Hf|simpl; lia].
Qed.

Lemma copies_ext x y items : f x = f y → copies x items = copies y items.
Proof. intros E. unfold copies. by rewrite E. Qed.

Lemma count_content_cases x g :
  (∃ g1 y n g2, g = g1 ++ (y, n) :: g2 ∧ f y = f x ∧ count_content same x g = g1 ++ (y, S n) :: g2) ∨
  (f x ∉ f <$> g.*1) ∧ count_content same x g = g ++ [(x, 1%nat)].
Proof.
  induction g as [|[y n] g IH]; simpl; [right; set_solver|]. case_bool_decide as E.
  - left. by exists [], y, n, g.
  - destruct IH as [(g1 & z & m & g2 & -> & Hz & ->)|[Hx ->]]; [left; by exists ((y, n) :: g1), z, m, g2|].
    right. set_solver.
Qed.

(** The groups hold each content once, with an item of it and the number of its copies. *)
Lemma group_contents_spec items :
  let g := group_contents same items in
  NoDup (f <$> g.*1) ∧ (∀ y n, (y, n) ∈ g → y ∈ items ∧ n = copies y items) ∧ ∀ x, x ∈ items → f x ∈ f <$> g.*1.
Proof.
  induction items as [|x items IH] using rev_ind; simpl; [split_and!; [apply NoDup_nil_2|set_solver|set_solver]|].
  unfold group_contents. rewrite foldl_app. simpl. fold (group_contents same items). set (g := group_contents same items) in *.
  destruct IH as (Hnd & Hg & Hall). assert (copies x [x] = 1%nat) as H1 by (unfold copies; by rewrite filter_cons_True).
  assert (∀ z, f z ≠ f x → copies z [x] = 0%nat) as H0 by (intros z Hz; unfold copies; by rewrite filter_cons_False).
  destruct (count_content_cases x g) as [(g1 & y & n & g2 & E & Hy & ->)|[Hx ->]].
  - rewrite E in Hnd, Hg, Hall. rewrite !fmap_app, !fmap_cons in Hnd, Hall |- *. cbn [fst] in *. split_and!; [done| |].
    + assert (∀ z m, (z, m) ∈ g1 ++ g2 → f z ≠ f x) as Hne.
      { intros z m Hz Ez. rewrite <- Hy in Ez. apply NoDup_app in Hnd as (_ & Hnd & [Hnd' _]%NoDup_cons).
        apply elem_of_app in Hz as [Hz|Hz].
        - apply (Hnd (f y)); [|left]. rewrite <- Ez. apply list_elem_of_fmap. exists z. split; [done|]. apply list_elem_of_fmap. by exists (z, m).
        - apply Hnd'. rewrite <- Ez. apply list_elem_of_fmap. exists z. split; [done|]. apply list_elem_of_fmap. by exists (z, m). }
      intros z m Hz. rewrite copies_app. destruct (decide ((z, m) = (y, S n))) as [[= -> ->]|Hdiff].
      * destruct (Hg y n) as [Hyi ->]; [set_solver|]. split; [set_solver|]. rewrite (copies_ext y x [x] Hy), H1. lia.
      * assert ((z, m) ∈ g1 ++ g2) as Hz' by set_solver. destruct (Hg z m) as [Hzi ->]; [set_solver|]. split; [set_solver|].
        rewrite (H0 z) by (by eapply Hne). lia.
    + intros z [Hz|Hz]%elem_of_app; [by apply Hall|]. apply list_elem_of_singleton in Hz as ->. rewrite <- Hy. set_solver.
  - rewrite !fmap_app. simpl. split_and!.
    + apply NoDup_app. split_and!; [done|set_solver|apply NoDup_singleton].
    + intros z m [Hz|Hz]%elem_of_app; rewrite copies_app.
      * destruct (Hg z m Hz) as [Hzi ->]. split; [set_solver|]. rewrite H0; [lia|]. intros E. apply Hx. rewrite <- E.
        apply list_elem_of_fmap. exists z. split; [done|]. apply list_elem_of_fmap. by exists (z, copies z items).
      * apply list_elem_of_singleton in Hz as [= -> ->]. split; [set_solver|]. rewrite H1.
        assert (copies x items = 0%nat) as ->; [|done]. unfold copies. apply length_zero_iff_nil.
        destruct (filter (λ y, f y = f x) items) as [|y l] eqn:Ef; [done|]. exfalso.
        assert (y ∈ filter (λ y, f y = f x) items) as [Ey Hy]%list_elem_of_filter by (rewrite Ef; left). apply Hx. rewrite <- Ey. by apply Hall.
    + intros z [Hz|Hz]%elem_of_app; [|set_solver]. specialize (Hall z Hz). set_solver.
Qed.

(** An item with as many copies as any. *)
Definition most_copies (items : list T) (x : T) : Prop := x ∈ items ∧ ∀ y, y ∈ items → (copies y items ≤ copies x items)%nat.

#[global] Instance most_copies_perm : Proper ((≡ₚ) ==> (=) ==> (↔)) most_copies.
Proof.
  intros l k Hlk x ? <-. unfold most_copies, copies. rewrite Hlk.
  split; (intros [Hx Hle]; split; [done|]); intros y Hy; [rewrite <- Hlk in Hy|rewrite Hlk in Hy]; specialize (Hle y Hy); by rewrite Hlk in *.
Qed.

Lemma max_count_spec (g : list (T * nat)) : (∀ y n, (y, n) ∈ g → (n ≤ max_count g)%nat) ∧ (g ≠ [] → ∃ y, (y, max_count g) ∈ g).
Proof.
  unfold max_count. induction g as [|[y n] g [IH1 IH2]]; [split; [set_solver|done]|].
  change (max_list ((y, n) :: g).*2) with (n `max` max_list g.*2)%nat. split.
  - intros z m [[= -> ->]|Hz]%elem_of_cons; [lia|]. specialize (IH1 z m Hz). lia.
  - intros _. destruct (decide (max_list g.*2 ≤ n)%nat) as [Hle|Hgt].
    + exists y. rewrite Nat.max_l by lia. left.
    + destruct IH2 as [z Hz]; [intros ->; simpl in Hgt; lia|]. exists z. rewrite Nat.max_r by lia. by right.
Qed.

Lemma best_groups_spec items :
  let best := best_groups (group_contents same items) in
  NoDup (f <$> best) ∧ (∀ x, x ∈ best → most_copies items x) ∧ (∀ x, most_copies items x → f x ∈ f <$> best) ∧ (items ≠ [] → best ≠ []).
Proof.
  destruct (group_contents_spec items) as (Hnd & Hg & Hall). set (g := group_contents same items) in *. destruct (max_count_spec g) as [Hmax Hex].
  assert (∀ y, y ∈ best_groups g ↔ (y, max_count g) ∈ g) as Hbest.
  { intros y. unfold best_groups. rewrite list_elem_of_fmap. split.
    - intros ([z n] & -> & [Hn Hz]%list_elem_of_filter). simpl in *. by rewrite <- Hn.
    - intros Hy. exists (y, max_count g). split; [done|]. by apply list_elem_of_filter. }
  assert (∀ y, y ∈ items → ∃ z n, (z, n) ∈ g ∧ f z = f y ∧ n = copies y items) as Hrep.
  { intros y Hy. specialize (Hall y Hy). apply list_elem_of_fmap in Hall as (z & Hz & Hin). apply list_elem_of_fmap in Hin as ([z' n] & -> & Hin).
    simpl in Hz. destruct (Hg z' n Hin) as [_ ->]. exists z', (copies z' items). split_and!; [done|done|by apply copies_ext]. }
  split_and!.
  - unfold best_groups. apply (sublist_NoDup _ (f <$> g.*1)); [done|]. apply fmap_sublist, fmap_sublist, sublist_filter.
  - intros x Hx%Hbest. destruct (Hg x _ Hx) as [Hxi Hn]. split; [done|]. intros y Hy. destruct (Hrep y Hy) as (z & n & Hz & _ & <-).
    rewrite <- Hn. exact (Hmax z n Hz).
  - intros x [Hx Hle]. destruct (Hrep x Hx) as (z & n & Hz & Hfz & ->). rewrite <- Hfz. apply list_elem_of_fmap. exists z. split; [done|]. apply Hbest.
    assert (copies x items = max_count g) as <-; [|done]. apply Nat.le_antisymm; [exact (Hmax z _ Hz)|].
    destruct Hex as [y Hy]; [intros Eg; rewrite Eg in Hz; by apply not_elem_of_nil in Hz|]. destruct (Hg y _ Hy) as [Hyi ->]. by apply Hle.
  - intros Hne. destruct items as [|x items']; [done|]. destruct (Hrep x ltac:(left)) as (z & n & Hz & _). destruct Hex as [y Hy]; [intros Eg; rewrite Eg in Hz; by apply not_elem_of_nil in Hz|].
    apply Hbest in Hy. intros E. rewrite E in Hy. by apply not_elem_of_nil in Hy.
Qed.
End groups.

(** ** Resolution *)

Section resolution.
Context `{HashOrder} {T E K : Type} `{EqDecision T, EqDecision K}.
Context (deserialize : KadRecord → result T E) (counter_of : T → Z) (f : T → K) (fork_error : list T → E) (corrupt_error : E).

Definition valid_items (records : list KadRecord) : list T := omap (λ r, rok (deserialize r)) records.

(** An item with the highest counter. *)
Definition latest (items : list T) (x : T) : Prop := x ∈ items ∧ ∀ y, y ∈ items → counter_of y ≤ counter_of x.

(** The items with the counter of another. *)
Definition at_counter_of (x : T) (items : list T) : list T := filter (λ y, counter_of y = counter_of x) items.

(** The latest content that most peers gave. *)
Definition winner (items : list T) (x : T) : Prop := latest items x ∧ most_copies f (at_counter_of x items) x.

(** The winners are the items with the most copies among the latest. *)
Lemma winner_top items l x : latest items l → winner items x ↔ most_copies f (at_counter_of l items) x.
Proof.
  intros [Hl Hmax]. unfold winner, latest.
  assert (∀ y, y ∈ at_counter_of l items → at_counter_of y items = at_counter_of l items) as Hsame.
  { intros y [Ey _]%list_elem_of_filter. unfold at_counter_of. by rewrite Ey. }
  split.
  - intros [[Hx Hle] Hmost]. assert (x ∈ at_counter_of l items) as Hx'.
    { apply list_elem_of_filter. split; [|done]. specialize (Hle l Hl). specialize (Hmax x Hx). lia. }
    by rewrite Hsame in Hmost.
  - intros Hmost. pose proof Hmost as [Hx _]. rewrite (Hsame x Hx). split; [|done]. apply list_elem_of_filter in Hx as [Ex Hx]. split; [done|].
    intros y Hy. rewrite Ex. by apply Hmax.
Qed.

(** What the resolution gives: one item of the only such content, or an item of each. *)
Lemma resolve_spec records :
  let items := valid_items records in
  match items with
  | [] => resolve_records_from_peers deserialize counter_of (λ a b, bool_decide (f a = f b)) fork_error corrupt_error records = Err corrupt_error
  | _ =>
    ∃ best, NoDup (f <$> best) ∧ (∀ x, x ∈ best → winner items x) ∧ (∀ x, winner items x → f x ∈ f <$> best) ∧
      resolve_records_from_peers deserialize counter_of (λ a b, bool_decide (f a = f b)) fork_error corrupt_error records =
      match best with [one] => Ok one | _ => Err (fork_error best) end ∧ best ≠ []
  end.
Proof.
  cbv zeta. unfold resolve_records_from_peers. fold (valid_items records). set (items := valid_items records). clearbody items.
  destruct items as [|x0 items0] eqn:Eitems; [done|]. rewrite <- Eitems. set (sorted := sort_by_key counter_of items).
  assert (items ≠ []) as Hne by (by rewrite Eitems). clear Eitems x0 items0.
  assert (sorted ≡ₚ items) as Hperm by apply sort_by_key_perm.
  destruct (last sorted) as [l|] eqn:Hlast.
  2: { apply last_None in Hlast. rewrite Hlast in Hperm. symmetry in Hperm. by apply Permutation_nil_r in Hperm. }
  assert (latest items l) as Hl by (split; [by eapply sort_by_key_last_elem|intros y Hy; by eapply sort_by_key_last_max]).
  set (top := filter (λ item, counter_of item = counter_of l) sorted).
  destruct (best_groups_spec f top) as (Hnd & Hin & Hall & Hnonempty). set (best := best_groups _) in *. clearbody best.
  assert (top ≡ₚ at_counter_of l items) as Htop by (unfold top, at_counter_of; by rewrite Hperm).
  assert (l ∈ top) as Hltop by (rewrite Htop; apply list_elem_of_filter; split; [done|apply Hl]).
  assert (top ≠ []) as Hne' by (intros Et; rewrite Et in Hltop; by apply not_elem_of_nil in Hltop). specialize (Hnonempty Hne').
  assert (∀ x, winner items x ↔ most_copies f top x) as Hwin by (intros x; by rewrite Htop, (winner_top items l)).
  assert (NoDup best) as Hnd' by (by eapply NoDup_fmap_1).
  assert (hash_order (remove_dups best) ≡ₚ best) as Hbp.
  { rewrite hash_order_perm. apply NoDup_Permutation; [apply NoDup_remove_dups|done|apply elem_of_remove_dups]. }
  exists (hash_order (remove_dups best)). split_and!; [by rewrite Hbp|..].
  - intros x Hx. rewrite Hbp in Hx. by apply Hwin, Hin.
  - intros x Hx%Hwin%Hall. by rewrite Hbp.
  - destruct (hash_order (remove_dups best)) as [|x [|y l']] eqn:Eb; [|done|done]. by apply Permutation_nil_l in Hbp.
  - intros Eb. rewrite Eb in Hbp. by apply Permutation_nil_l in Hbp.
Qed.
End resolution.

(** ** Reads and updates *)

Section reads.
Context `{XorNameLib, Hex, Bls, Layout, Kad, RmpHeader, Libp2pIdentity, Digests, HashOrder}.
Context `{!BodySerde}.
Context `{!ClientWorld W}.

(** The pointers in the records that are pointers. *)
Definition pointers_in (records : list KadRecord) : list Pointer := valid_items pointer_from_record records.

Definition pointer_winner : list Pointer → Pointer → Prop := winner ptr_counter id.

Lemma resolve_pointers_exact records :
  let pointers := pointers_in records in
  match resolve_pointers records with
  | Ok p => pointer_winner pointers p ∧ ∀ q, pointer_winner pointers q → q = p
  | Err (PointerFork ps) => NoDup ps ∧ (2 ≤ length ps)%nat ∧ ∀ q, q ∈ ps ↔ pointer_winner pointers q
  | Err PointerCorrupt => pointers = []
  | Err _ => False
  end.
Proof.
  pose proof (resolve_spec pointer_from_record ptr_counter id PointerFork PointerCorrupt records) as Hspec. cbv zeta in Hspec |- *.
  change (resolve_pointers records) with (resolve_records_from_peers pointer_from_record ptr_counter (λ a b, bool_decide (id a = id b)) PointerFork PointerCorrupt records).
  unfold pointers_in, pointer_winner. set (items := valid_items _ records) in *. clearbody items. destruct items as [|x l]; [by rewrite Hspec|].
  set (items := x :: l) in *. clearbody items. destruct Hspec as (best & Hnd & Hin & Hall & -> & Hne). rewrite list_fmap_id in Hnd. setoid_rewrite list_fmap_id in Hall.
  destruct best as [|p [|q best]]; [done| |].
  - split; [apply Hin; left|]. intros q Hq. by apply Hall, list_elem_of_singleton in Hq.
  - split_and!; [done|simpl; lia|]. intros r. split; [apply Hin|apply Hall].
Qed.

(** C20: which pointer several answers resolve to. The records that are no pointers count for nothing;
    of the others the highest counter counts, and of the pointers with that counter the one that most
    records hold. If two have as many, these are given as a fork, each once; without any pointer the
    answer is corrupt. The order of the answers does not matter. *)
Theorem pointer_resolution_exact records :
  let pointers := pointers_in records in
  match resolve_pointers records with
  | Ok p => pointer_winner pointers p ∧ ∀ q, pointer_winner pointers q → q = p
  | Err (PointerFork ps) => NoDup ps ∧ (2 ≤ length ps)%nat ∧ ∀ q, q ∈ ps ↔ pointer_winner pointers q
  | Err PointerCorrupt => pointers = []
  | Err _ => False
  end.
Proof. apply resolve_pointers_exact. Qed.

Lemma pointer_resolution_only records p : p ∈ pointers_in records → (∀ q, q ∈ pointers_in records → q ≠ p → ptr_counter q < ptr_counter p) → resolve_pointers records = Ok p.
Proof.
  intros Hp Hlt. pose proof (resolve_pointers_exact records) as Hres. cbv zeta in Hres.
  assert (∀ q, pointer_winner (pointers_in records) q → q = p) as Honly.
  { intros q [[Hq Hmax] _]. destruct (decide (q = p)) as [|Hne]; [done|]. specialize (Hmax p Hp). specialize (Hlt q Hq Hne). lia. }
  destruct (resolve_pointers records) as [q|e].
  - destruct Hres as [Hq _]. by rewrite (Honly q Hq).
  - destruct e; try done; [by rewrite Hres in Hp; apply not_elem_of_nil in Hp|]. destruct Hres as (Hnd & Hlen & Hin).
    destruct pointers as [|a [|b l]]; simpl in Hlen; [lia|lia|]. exfalso. assert (a = b) as ->.
    { rewrite (Honly a), (Honly b); [done|apply Hin; right; left|apply Hin; left]. }
    apply NoDup_cons in Hnd as [Hnd _]. apply Hnd. left.
Qed.

(** The records a read of pointers resolves. *)
Definition answered (answer : result (option (list KadRecord)) ClientError) (records : list KadRecord) : Prop :=
  answer = Ok (Some records) ∨ ∃ m, answer = Err (SplitRecord m) ∧ records = (hm_iter m).*2.

Lemma pointer_get_answered address w w' answer records :
  net_get_record_with_retries Pointer_t (NA_PointerAddress address) w = (answer, w') → answered answer records →
  pointer_get address w = (match resolve_pointers records with Ok p => (match pointer_verify p with Ok _ => Ok p | Err e => Err e end) | Err e => Err e end, w').
Proof.
  intros Hnet Hans. unfold pointer_get, cm_bind, cm_try. rewrite Hnet.
  destruct Hans as [->|(m & -> & ->)]; unfold cm_lift; destruct (resolve_pointers _) as [p|e]; try done; by destruct (pointer_verify p).
Qed.

(** A single forged answer hides a pointer. When one of the records that peers give in answer to a
    read holds a pointer with a higher counter than the others and a signature that is not valid, the
    read fails, whatever valid pointers the other peers gave. *)
Theorem forged_pointer_blocks_read address w w' answer records forged :
  net_get_record_with_retries Pointer_t (NA_PointerAddress address) w = (answer, w') → answered answer records →
  forged ∈ pointers_in records → (∀ q, q ∈ pointers_in records → q ≠ forged → ptr_counter q < ptr_counter forged) →
  pointer_verify_signature forged = false → pointer_get address w = (Err PointerBadSignature, w').
Proof.
  intros Hnet Hans Hin Hlt Hsig. rewrite (pointer_get_answered _ _ _ _ _ Hnet Hans), (pointer_resolution_only _ _ Hin Hlt).
  unfold pointer_verify. by rewrite Hsig.
Qed.

(** What a read trusts. A pointer with a valid signature is returned whoever owns it, also when
    another pointer was asked for; a graph entry is returned whoever owns it and whatever its signature
    is. *)
Theorem reads_trust_the_network w w' r :
  (∀ address p, net_get_record_with_retries Pointer_t (NA_PointerAddress address) w = (Ok (Some [r]), w') →
     pointer_from_record r = Ok p → pointer_verify_signature p = true → pointer_get address w = (Ok p, w')) ∧
  (∀ address g, net_get_record_with_retries GraphEntry_t (NA_GraphEntryAddress address) w = (Ok (Some [r]), w') →
     get_graph_entry_from_record r = Ok [g] → graph_entry_get address w = (Ok g, w')).
Proof.
  split.
  - intros address p Hnet Hp Hsig. rewrite (pointer_get_answered _ _ _ _ [r] Hnet ltac:(by left)).
    assert (pointers_in [r] = [p]) as Hin by (unfold pointers_in, valid_items; simpl; by rewrite Hp).
    rewrite (pointer_resolution_only [r] p) by (rewrite Hin; set_solver). unfold pointer_verify. by rewrite Hsig.
  - intros address g Hnet Hg. unfold graph_entry_get, cm_bind, cm_map_err. rewrite Hnet. simpl. unfold cm_lift, resolve_graph_entries. simpl.
    rewrite Hg. simpl. done.
Qed.

Lemma max_by_key_spec {A} (g : A → Z) (l : list A) :
  match max_by_key g l with Some x => x ∈ l ∧ ∀ y, y ∈ l → g y ≤ g x | None => l = [] end.
Proof.
  unfold max_by_key. induction l as [|a l IH] using rev_ind; [done|]. rewrite foldl_app. simpl.
  destruct (foldl _ None l) as [b|]; [|subst; set_solver]. destruct IH as [Hb Hmax].
  destruct (Z.ltb_spec (g a) (g b)); (split; [set_solver|]); intros y [Hy| ->%list_elem_of_singleton]%elem_of_app; try specialize (Hmax y Hy); lia.
Qed.

(** A read of a pointer does not fail with a split: it resolves it. *)
Lemma pointer_get_no_split address w m : (pointer_get address w).1 ≠ Err (PointerGetError (GetNetwork (SplitRecord m))).
Proof.
  destruct (net_get_record_with_retries Pointer_t (NA_PointerAddress address) w) as [answer w'] eqn:Hnet.
  assert (∀ records, answered answer records → (pointer_get address w).1 ≠ Err (PointerGetError (GetNetwork (SplitRecord m)))) as Hans.
  { intros records Ha. rewrite (pointer_get_answered _ _ _ _ _ Hnet Ha). simpl. pose proof (resolve_pointers_exact records) as Hres.
    destruct (resolve_pointers records) as [p|[]]; try done. unfold pointer_verify. by destruct (pointer_verify_signature p). }
  destruct answer as [[records|]|e].
  - apply (Hans records). by left.
  - unfold pointer_get, cm_bind, cm_try. by rewrite Hnet.
  - assert ((∃ m', e = SplitRecord m') ∨ ∀ m', e ≠ SplitRecord m') as [[m' ->]|Hno] by (destruct e; eauto).
    + apply (Hans (hm_iter m').*2). right. eauto.
    + unfold pointer_get, cm_bind, cm_try. rewrite Hnet. unfold cm_lift. destruct e; simpl; intros [=]; by eapply Hno.
Qed.

(** Forks and updates. A scratchpad on which peers disagree is updated: the update goes on from one
    of the conflicting versions with the highest counter. A pointer on which peers disagree cannot be
    updated by [pointer_update]: it fails with the fork and asks nothing more of the network, and the
    branch for a split is never taken. *)
Theorem forks_and_updates w w' (owner : SecretKey) :
  (∀ pads content_type data, scratchpad_get (mkScratchpadAddress (sk_public_key owner)) w = (Err (ScratchpadFork pads), w') → pads ≠ [] →
     ∃ pad, pad ∈ pads ∧ (∀ q, q ∈ pads → sp_counter q ≤ sp_counter pad) ∧
       client_scratchpad_update owner content_type data w =
       match scratchpad_update_from pad owner content_type data w' with (Ok _, w2) => (Ok tt, w2) | (Err e, w2) => (Err e, w2) end) ∧
  (∀ pointers target, pointer_get (mkPointerAddress (sk_public_key owner)) w = (Err (PointerFork pointers), w') →
     pointer_update owner target w = (Err (PointerFork pointers), w')) ∧
  (∀ address m, (pointer_get address w).1 ≠ Err (PointerGetError (GetNetwork (SplitRecord m)))).
Proof.
  split_and!; [| |intros; apply pointer_get_no_split].
  - intros pads content_type data Hget Hne. unfold client_scratchpad_update, cm_bind, cm_try. rewrite Hget. unfold cm_ret.
    pose proof (max_by_key_spec sp_counter pads) as Hmax. destruct (max_by_key sp_counter pads) as [pad|]; [|done].
    exists pad. destruct Hmax as [Hin Hmax]. split_and!; [done..|]. by destruct (scratchpad_update_from pad owner content_type data w') as [[]].
  - intros pointers target Hget. unfold pointer_update, cm_bind, cm_try. by rewrite Hget.
Qed.
End reads.

(** * Witnesses *)

Section client_data_witnesses.
#[local] Existing Instances toy_xorname toy_hex num_bls num_bls_laws num_bls_ord_laws toy_layout toy_kad toy_rmp_header
  toy_rmp_header_laws toy_identity toy_digests toy_ant_merkle hash_order_rev num_bodies num_bodies_laws.

Definition ex_target : PointerTarget := PT_ChunkAddress (mkChunkAddress [9]).
Definition ex_ptr (owner counter : Z) : Pointer := pointer_new (owner : @SecretKey num_bls) counter ex_target.

(** A signature of someone else. *)
Definition ex_forged : Pointer := {| ptr_owner := (10 : @PublicKey num_bls); ptr_counter := 9; ptr_target := ex_target; ptr_signature := (11, []) : @Signature num_bls |}.

Definition ex_pointer_record (p : Pointer) : KadRecord :=
  local_record [] match try_serialize_record p (DataOnly Pointer_t) with Ok v => v | Err _ => [] end.

Lemma pointer_resolution_exact_witness :
  let records := ex_pointer_record <$> [ex_ptr 10 1; ex_ptr 10 3; ex_ptr 11 3; ex_ptr 10 3] in
  resolve_pointers records = Ok (ex_ptr 10 3) ∧ ∀ q, pointer_winner (pointers_in records) q → q = ex_ptr 10 3.
Proof.
  intros records. pose proof (pointer_resolution_exact records) as Hres. cbv zeta in Hres.
  assert (resolve_pointers records = Ok (ex_ptr 10 3)) as E by (vm_compute; reflexivity). split; [exact E|]. rewrite E in Hres. exact (proj2 Hres).
Defined.

Lemma forged_pointer_blocks_read_witness :
  pointer_get (ClientWorld0 := fixed_answers (Ok (Some (ex_pointer_record <$> [ex_ptr 10 1; ex_forged; ex_ptr 10 2])))) (mkPointerAddress (10 : @PublicKey num_bls)) tt =
  (Err PointerBadSignature, tt).
Proof.
  pose (records := ex_pointer_record <$> [ex_ptr 10 1; ex_forged; ex_ptr 10 2]).
  assert (pointers_in records = [ex_ptr 10 1; ex_forged; ex_ptr 10 2]) as Hin by (vm_compute; reflexivity).
  refine (forged_pointer_blocks_read (ClientWorld0 := fixed_answers (Ok (Some records))) _ tt tt _ records ex_forged eq_refl _ _ _ _).
  - left. reflexivity.
  - rewrite Hin. right. left.
  - rewrite Hin. intros q Hq Hne. repeat (apply elem_of_cons in Hq as [-> |Hq]; [done || (simpl; lia)|]). by apply not_elem_of_nil in Hq.
  - vm_compute. reflexivity.
Defined.

(** Another owner's pointer is read for the pointer of 10. *)
Lemma reads_trust_the_network_witness :
  pointer_get (ClientWorld0 := fixed_answers (Ok (Some [ex_pointer_record (ex_ptr 11 1)]))) (mkPointerAddress (10 : @PublicKey num_bls)) tt =
  (Ok (ex_ptr 11 1), tt).
Proof.
  refine (proj1 (reads_trust_the_network (ClientWorld0 := fixed_answers (Ok (Some [ex_pointer_record (ex_ptr 11 1)]))) tt tt
    (ex_pointer_record (ex_ptr 11 1))) _ (ex_ptr 11 1) eq_refl _ _).
  - vm_compute. reflexivity.
  - vm_compute. reflexivity.
Defined.

Lemma forks_and_updates_witness :
  let records := ex_pointer_record <$> [ex_ptr 10 3; ex_ptr 11 3] in
  (pointer_update (ClientWorld0 := fixed_answers (Ok (Some records))) (10 : @SecretKey num_bls) ex_target tt).1 =
  Err (PointerFork [ex_ptr 11 3; ex_ptr 10 3]).
Proof.
  intros records.
  assert (pointer_get (ClientWorld0 := fixed_answers (Ok (Some records))) (mkPointerAddress (sk_public_key (10 : @SecretKey num_bls))) tt =
          (Err (PointerFork [ex_ptr 11 3; ex_ptr 10 3]), tt)) as Hget by (vm_compute; reflexivity).
  rewrite (proj1 (proj2 (forks_and_updates (ClientWorld0 := fixed_answers (Ok (Some records))) tt tt (10 : @SecretKey num_bls)))
    _ ex_target Hget). reflexivity.
Defined.
End client_data_witnesses.
