(* ===== verification/ClientRegisterProps.v ===== *)
(** * Registers refine lists of values

    Of src/autonomi/src/client/high_level/register over the data types of the client: on a network that
    keeps the records it accepts, a register is the list of the values written to it. What the network
    promises is the interface [RecordNetworkLaws]; the node's handlers of PutValidation discharge it. *)

From stdpp Require Import base gmap countable strings list.
From Stdlib Require Import ZArith Lia Ascii.
From S2P Require Import Prelude Text Effects Protocol Storage RecordCache RecordStore MerkleTree MerkleTreeProps Payments PaymentsProps.
From S2P Require Import PutValidation PutValidationFacts PutValidationProps Messages Driver TaskHandler.
From S2P Require Import ClientPayment ClientData ClientDataProps ClientRegister ClientExamples.

(** rmp_serde writes every value of a type. *)
Class SerdeTotal (T : Type) `{Serde T} : Prop := rmp_total : ∀ x : T, is_Some (rmp_to_vec x).

Lemma serialize_total `{RmpHeaderLaws} {T} `{SerdeTotal T} (x : T) k : ∃ v, try_serialize_record x k = Ok v.
Proof.
  unfold try_serialize_record. destruct (record_header_serialize_ok k) as (hdr & -> & _). destruct (rmp_total x) as [body ->]. simpl. eauto.
Qed.

(** ** What a network promises *)

Section network.
Context `{XorNameLib, Hex, BlsOrdLaws, Layout, Kad, RmpHeaderLaws, Libp2pIdentity, Digests, HashOrder}.
Context `{BSer : !BodySerde, BLaws : !BodySerdeLaws}.

(** The record keys of an owner's graph entry and pointer. *)
Definition owner_record_key (owner : PublicKey) : bytes := to_record_key (NA_GraphEntryAddress (mkGraphEntryAddress owner)).

(** The records a network holds, and the payments it accepts. *)
Class RecordNetwork (W : Type) := {
  net_store : W → gmap bytes KadRecord;
  net_accepts : NetworkAddress → DataTypes → ProofOfPayment → Prop;
}.

(** A put that stores a body. *)
Definition puts_body `{RecordNetwork W} (w : W) (put : result unit ClientError * W) (key : bytes) (b : Body) : Prop :=
  ∃ w' r, put = (Ok tt, w') ∧ rec_key r = key ∧ record_holds r b ∧ net_store w' = <[key := r]> (net_store w).

(** Reads give what is held. *)
Class RecordReadLaws (W : Type) `{!ClientWorld W, !RecordNetwork W} : Prop := {
  net_get t a (w : W) : net_get_record_with_retries t a w = (Ok ((λ r, [r]) <$> net_store w !! to_record_key a), w);
  net_get_one t a (w : W) : net_get_record t a w = (Ok (net_store w !! to_record_key a), w);
}.

(** Besides, a paid entry or pointer with a free key is stored, and so is a pointer that follows a stored one. *)
Class RecordNetworkLaws (W : Type) `{!ClientWorld W, !RecordNetwork W} : Prop := {
  net_reads :: RecordReadLaws W;
  net_closest a (w : W) : ∃ peers, net_get_closest_peers_with_retries a w = (Ok peers, w);
  net_random n (w : W) : net_store (random_bytes n w).2 = net_store w;
  net_put_entry g payment v targets (w : W) :
    graph_entry_verify_signature g = true → net_store w !! owner_record_key (ge_owner g) = None →
    net_accepts (NA_GraphEntryAddress (graph_entry_address g)) GraphEntry_t payment →
    try_serialize_record (payment, g) (DataWithPayment GraphEntry_t) = Ok v →
    puts_body w (net_put_record_with_retries GraphEntry_t (local_record (owner_record_key (ge_owner g)) v) targets w)
      (owner_record_key (ge_owner g)) (B_GraphEntries [g]);
  net_put_pointer p payment v targets (w : W) :
    pointer_verify_signature p = true → net_store w !! owner_record_key (ptr_owner p) = None →
    net_accepts (NA_PointerAddress (pointer_address p)) Pointer_t payment →
    try_serialize_record (payment, p) (DataWithPayment Pointer_t) = Ok v →
    puts_body w (net_put_record_with_retries Pointer_t (local_record (owner_record_key (ptr_owner p)) v) targets w)
      (owner_record_key (ptr_owner p)) (B_Pointer p);
  net_update_pointer p p0 r0 v targets (w : W) :
    pointer_verify_signature p = true → net_store w !! owner_record_key (ptr_owner p) = Some r0 →
    record_holds r0 (B_Pointer p0) → ptr_counter p0 < ptr_counter p →
    try_serialize_record p (DataOnly Pointer_t) = Ok v →
    puts_body w (net_put_record_with_retries Pointer_t (local_record (owner_record_key (ptr_owner p)) v) targets w)
      (owner_record_key (ptr_owner p)) (B_Pointer p);
}.
End network.

(** ** Reads *)

Section reads.
Context `{XorNameLib, Hex, BlsOrdLaws, Layout, Kad, RmpHeaderLaws, Libp2pIdentity, Digests, HashOrder}.
Context `{BSer : !BodySerde, BLaws : !BodySerdeLaws}.
Context `{!ClientWorld W, !RecordNetwork W, !RecordReadLaws W}.

Implicit Types (w : W) (st : gmap bytes KadRecord).

(** The key holds an owner's only graph entry, or pointer. *)
Definition holds_entry st (owner : PublicKey) (g : GraphEntry) : Prop :=
  ∃ r, st !! owner_record_key owner = Some r ∧ record_holds r (B_GraphEntries [g]).
Definition holds_pointer st (owner : PublicKey) (p : Pointer) : Prop :=
  ∃ r, st !! owner_record_key owner = Some r ∧ record_holds r (B_Pointer p).

Lemma graph_entry_get_held w owner g :
  holds_entry (net_store w) owner g → graph_entry_get (mkGraphEntryAddress owner) w = (Ok g, w).
Proof.
  intros (r & Hr & Hb). unfold graph_entry_get, cm_bind, cm_map_err, cm_lift. rewrite net_get. fold (owner_record_key owner). rewrite Hr. simpl.
  assert (get_graph_entry_from_record r = Ok [g]) as Hg.
  { unfold get_graph_entry_from_record. rewrite (record_holds_header _ _ Hb). simpl. destruct Hb as (v & Hs & Hr' & _).
    assert (rec_value r = v) as Hv by (by rewrite Hr'). destruct (serialize_record_inv _ _ _ r Hs Hv) as [_ ->]. done. }
  unfold resolve_graph_entries. simpl. rewrite Hg. done.
Qed.

Lemma graph_entry_get_absent w owner :
  net_store w !! owner_record_key owner = None → graph_entry_get (mkGraphEntryAddress owner) w = (Err (GraphGetError RecordNotFound), w).
Proof. intros Hr. unfold graph_entry_get, cm_bind, cm_map_err, cm_lift. rewrite net_get. fold (owner_record_key owner). by rewrite Hr. Qed.

End reads.

(** ** Reads and writes on such a network *)

Section register.
Context `{XorNameLib, Hex, BlsOrdLaws, Layout, Kad, RmpHeaderLaws, Libp2pIdentity, Digests, HashOrder}.
Context `{BSer : !BodySerde, BLaws : !BodySerdeLaws, !BlsLaws, !BlsDerive, !BlsDeriveLaws}.
Context `{!SerdeTotal Pointer, !SerdeTotal (ProofOfPayment * GraphEntry), !SerdeTotal (ProofOfPayment * Pointer)}.
Context `{!ClientWorld W, !RecordNetwork W, !RecordNetworkLaws W}.
Context (payment_mode : PaymentMode) (evm_network : bytes).

Implicit Types (w : W) (st : gmap bytes KadRecord).

Lemma pointer_get_held w owner p :
  holds_pointer (net_store w) owner p → pointer_get (mkPointerAddress owner) w = (Ok p, w).
Proof.
  intros (r & Hr & Hb). assert (to_record_key (NA_PointerAddress (mkPointerAddress owner)) = owner_record_key owner) as Hkey by done.
  rewrite (pointer_get_answered _ w w (Ok (Some [r])) [r]); [|by rewrite net_get, Hkey, Hr|by left].
  assert (pointers_in [r] = [p]) as Hin.
  { unfold pointers_in, valid_items, pointer_from_record. simpl. rewrite (record_holds_header _ _ Hb), (holds_pointer_read _ _ Hb). done. }
  rewrite (pointer_resolution_only [r] p) by (rewrite Hin; set_solver). unfold pointer_verify.
  destruct Hb as (v & _ & _ & _ & ->). done.
Qed.


(** The sole body of a key. *)
Lemma holds_entry_inj st owner g g' : holds_entry st owner g → holds_entry st owner g' → g = g'.
Proof.
  intros (r & Hr & v & Hs & Hr' & _) (r2 & Hr2 & Hb2). assert (r2 = r) as -> by congruence.
  destruct (serialize_record_inv _ _ _ r Hs ltac:(by rewrite Hr')) as [_ Hd]. pose proof (holds_graph_entries _ _ _ Hb2 Hd) as [=]. done.
Qed.

Lemma holds_not_both st owner owner' g p :
  holds_entry st owner g → holds_pointer st owner' p → owner_record_key owner ≠ owner_record_key owner'.
Proof.
  intros (r & Hr & Hb%record_holds_header) (r2 & Hr2 & Hb2%record_holds_header) E. rewrite E in Hr. simpl in *. congruence.
Qed.

Lemma holds_entry_insert st owner g k r :
  owner_record_key owner ≠ k → holds_entry st owner g → holds_entry (<[k := r]> st) owner g.
Proof. intros Hk (r0 & Hr & Hb). exists r0. by rewrite lookup_insert_ne. Qed.

Lemma holds_pointer_insert st owner p k r :
  owner_record_key owner ≠ k → holds_pointer st owner p → holds_pointer (<[k := r]> st) owner p.
Proof. intros Hk (r0 & Hr & Hb). exists r0. by rewrite lookup_insert_ne. Qed.

(** A receipt that pays for a key. *)
Definition receipt_pays (receipt : Receipt) (address : NetworkAddress) (t : DataTypes) (price : Z) : Prop :=
  ∃ proof, receipt !! as_bytes address = Some (proof, price) ∧ net_accepts address t (to_proof_of_payment proof).

Lemma graph_entry_put_stores w (sk : SecretKey) parents content descendants receipt price :
  let g := graph_entry_new sk parents content descendants in
  net_store w !! owner_record_key (sk_public_key sk) = None →
  receipt_pays receipt (NA_GraphEntryAddress (graph_entry_address g)) GraphEntry_t price →
  ∃ w' r, graph_entry_put payment_mode evm_network g (PO_Receipt receipt) w = (Ok (price, graph_entry_address g), w') ∧
    record_holds r (B_GraphEntries [g]) ∧ net_store w' = <[owner_record_key (sk_public_key sk) := r]> (net_store w).
Proof.
  intros g Hnone (proof & Hproof & Hacc). destruct (serialize_total (to_proof_of_payment proof, g) (DataWithPayment GraphEntry_t)) as [v Hv].
  destruct (net_put_entry g (to_proof_of_payment proof) v (payee_infos proof) w) as (w' & r & Hput & Hkey & Hb & Hst); [by apply bls_sign_verify|done..|].
  exists w', r. split_and!; [|done..].
  change (net_put_record_with_retries GraphEntry_t (record_of (NA_GraphEntryAddress (graph_entry_address g)) v) (payee_infos proof) w = (Ok tt, w')) in Hput.
  unfold graph_entry_put, pay_for_content_addrs, cm_bind, cm_map_err, cm_ret, cm_lift. simpl in Hproof |- *.
  rewrite Hproof. simpl. rewrite Hv. simpl. by rewrite Hput.
Qed.

Lemma pointer_put_stores w (sk : SecretKey) counter target receipt price :
  let p := pointer_new sk counter target in
  net_store w !! owner_record_key (sk_public_key sk) = None →
  receipt_pays receipt (NA_PointerAddress (pointer_address p)) Pointer_t price →
  ∃ w' r, pointer_put payment_mode evm_network p (PO_Receipt receipt) w = (Ok (price, pointer_address p), w') ∧
    record_holds r (B_Pointer p) ∧ net_store w' = <[owner_record_key (sk_public_key sk) := r]> (net_store w).
Proof.
  intros p Hnone (proof & Hproof & Hacc). destruct (serialize_total (to_proof_of_payment proof, p) (DataWithPayment Pointer_t)) as [v Hv].
  destruct (net_put_pointer p (to_proof_of_payment proof) v (payee_infos proof) w) as (w' & r & Hput & Hkey & Hb & Hst); [by apply bls_sign_verify|done..|].
  exists w', r. split_and!; [|done..].
  change (net_put_record_with_retries Pointer_t (record_of (NA_PointerAddress (pointer_address p)) v) (payee_infos proof) w = (Ok tt, w')) in Hput.
  unfold pointer_put, pay_for_content_addrs, record_and_targets, cm_bind, cm_map_err, cm_ret, cm_lift. simpl in Hproof |- *.
  rewrite Hproof. simpl. rewrite Hv. simpl. by rewrite Hput.
Qed.

Lemma pointer_create_stores w (sk : SecretKey) target receipt price :
  net_store w !! owner_record_key (sk_public_key sk) = None →
  receipt_pays receipt (NA_PointerAddress (mkPointerAddress (sk_public_key sk))) Pointer_t price →
  ∃ w' r, pointer_create payment_mode evm_network sk target (PO_Receipt receipt) w = (Ok (price, mkPointerAddress (sk_public_key sk)), w') ∧
    record_holds r (B_Pointer (pointer_new sk 0 target)) ∧ net_store w' = <[owner_record_key (sk_public_key sk) := r]> (net_store w).
Proof.
  intros Hnone Hpays. destruct (pointer_put_stores w sk 0 target receipt price Hnone Hpays) as (w' & r & Hput & Hb & Hst).
  exists w', r. split_and!; [|done..]. unfold pointer_create, pointer_check_existence, check_existence, cm_bind, cm_try, cm_ret. rewrite net_get_one.
  change (to_record_key (NA_PointerAddress (mkPointerAddress (sk_public_key sk)))) with (owner_record_key (sk_public_key sk)). rewrite Hnone.
  exact Hput.
Qed.

Lemma pointer_update_stores w (sk : SecretKey) target p0 :
  holds_pointer (net_store w) (sk_public_key sk) p0 → 0 ≤ ptr_counter p0 < 2 ^ 64 - 1 →
  ∃ w' r, pointer_update sk target w = (Ok tt, w') ∧ record_holds r (B_Pointer (pointer_new sk (ptr_counter p0 + 1) target)) ∧
    net_store w' = <[owner_record_key (sk_public_key sk) := r]> (net_store w).
Proof.
  intros Hheld Hcount. pose proof Hheld as (r0 & Hr0 & Hb0). set (p := pointer_new sk (ptr_counter p0 + 1) target).
  assert (next_counter (ptr_counter p0) = ptr_counter p0 + 1) as Hnext by (unfold next_counter; rewrite Z.mod_small; lia).
  destruct (serialize_total p (DataOnly Pointer_t)) as [v Hv].
  destruct (net_closest (NA_PointerAddress (mkPointerAddress (sk_public_key sk))) w) as [targets Htargets].
  destruct (net_update_pointer p p0 r0 v targets w) as (w' & r & Hput & Hkey & Hb & Hst); [by apply bls_sign_verify|done|done|simpl; lia|done|].
  exists w', r. split_and!; [|done..]. unfold pointer_update, cm_bind, cm_try. rewrite (pointer_get_held _ _ _ Hheld). unfold cm_ret.
  unfold pointer_update_from, record_and_targets, cm_bind, cm_map_err, cm_lift, cm_ret. rewrite Hnext. fold p. rewrite Hv. simpl. rewrite Htargets. simpl.
  change (record_of (NA_PointerAddress (mkPointerAddress (sk_public_key sk))) v) with (local_record (owner_record_key (ptr_owner p)) v).
  by rewrite Hput.
Qed.
(** ** The chain of a register *)

(** The entries from a key on hold the values, and the last of them names the key [next]. *)
Fixpoint chain st (owner cur : PublicKey) (values : list bytes) (next : PublicKey) : Prop :=
  match values with
  | [] => cur = next
  | v :: values =>
    ∃ g index, holds_entry st cur g ∧ ge_content g = v ∧ get_derivation_from_graph_entry g = Ok index ∧
      chain st owner (main_pk_derive_key owner index) values next
  end.

Lemma chain_app st owner cur l k next : chain st owner cur (l ++ k) next ↔ ∃ mid, chain st owner cur l mid ∧ chain st owner mid k next.
Proof.
  revert cur. induction l as [|v l IH]; intros cur; simpl; [split; [intros Hc; by exists cur|by intros (mid & -> & Hc)]|].
  split.
  - intros (g & index & Hg & Hv & Hd & (mid & Hl & Hk)%IH). exists mid. split; [|done]. by exists g, index.
  - intros (mid & (g & index & Hg & Hv & Hd & Hl) & Hk). exists g, index. split_and!; [done..|]. apply IH. by exists mid.
Qed.

(** A chain survives what keeps the entries. *)
Lemma chain_mono st st' owner cur values next :
  (∀ o g, holds_entry st o g → holds_entry st' o g) → chain st owner cur values next → chain st' owner cur values next.
Proof.
  intros Hmono. revert cur. induction values as [|v values IH]; intros cur; simpl; [done|].
  intros (g & index & Hg & Hv & Hd & Hc). exists g, index. split_and!; [by apply Hmono|done..|by apply IH].
Qed.

(** A free key and the key of a pointer can be written. *)
Lemma holds_entry_write st k r :
  (st !! k = None ∨ ∃ o p, k = owner_record_key o ∧ holds_pointer st o p) → ∀ o g, holds_entry st o g → holds_entry (<[k := r]> st) o g.
Proof.
  intros Hk o g Hg. apply holds_entry_insert; [|done]. destruct Hk as [Hk|(o' & p & -> & Hp)]; [|by eapply holds_not_both].
  destruct Hg as (r0 & Hr & _). intros E. congruence.
Qed.

(** The list of values a register stands for; [next] is the key of the entry to come. *)
Definition is_register st (owner : PublicKey) (values : list bytes) (next : PublicKey) : Prop :=
  ∃ prefix v last p, values = prefix ++ [v] ∧ chain st owner owner prefix last ∧ chain st owner last [v] next ∧
    st !! owner_record_key next = None ∧ holds_pointer st (register_head_pointer_pk owner) p ∧
    ptr_target p = PT_GraphEntryAddress (mkGraphEntryAddress last) ∧ ptr_counter p = Z.of_nat (length prefix).

Lemma entry_and_index_held w cur g index :
  holds_entry (net_store w) cur g → get_derivation_from_graph_entry g = Ok index →
  register_get_graph_entry_and_next_derivation_index (mkGraphEntryAddress cur) w = (Ok (g, index), w).
Proof.
  intros Hg Hd. unfold register_get_graph_entry_and_next_derivation_index, cm_bind, cm_try, cm_lift, cm_ret.
  by rewrite (graph_entry_get_held _ _ _ Hg), Hd.
Qed.

(** ** History *)

Lemma collect_chain w owner cur values next fuel acc :
  chain (net_store w) owner cur values next →
  collect_from (length values + fuel) {| rh_register_owner := owner; rh_current_iter := mkGraphEntryAddress cur |} acc w =
  collect_from fuel {| rh_register_owner := owner; rh_current_iter := mkGraphEntryAddress next |} (acc ++ values) w.
Proof.
  revert cur acc. induction values as [|v values IH]; intros cur acc; simpl; [intros ->; by rewrite app_nil_r|].
  intros (g & index & Hg & <- & Hd & Hc). unfold history_next, cm_bind, cm_try, cm_ret. simpl.
  rewrite (entry_and_index_held _ _ _ _ Hg Hd). simpl. rewrite (IH _ _ Hc). by rewrite <- app_assoc.
Qed.

Lemma collect_end w owner next fuel acc :
  net_store w !! owner_record_key next = None →
  collect_from (S fuel) {| rh_register_owner := owner; rh_current_iter := mkGraphEntryAddress next |} acc w = (Ok (Some acc), w).
Proof.
  intros Hnone. simpl. unfold history_next, cm_bind, cm_try, cm_ret, register_get_graph_entry_and_next_derivation_index, cm_lift, cm_bind, cm_try. simpl.
  by rewrite (graph_entry_get_absent _ _ Hnone).
Qed.

Lemma collect_starved w owner cur values next fuel acc :
  chain (net_store w) owner cur values next → (fuel ≤ length values)%nat →
  collect_from fuel {| rh_register_owner := owner; rh_current_iter := mkGraphEntryAddress cur |} acc w = (Ok None, w).
Proof.
  intros Hc Hle. rewrite <- (take_drop fuel values) in Hc. apply chain_app in Hc as (mid & Hc & _).
  assert (length (take fuel values) = fuel) as Hlen by (rewrite length_take; lia).
  pose proof (collect_chain w owner cur _ mid 0 acc Hc) as E. rewrite Hlen, Nat.add_0_r in E. exact E.
Qed.

Lemma chain_loops st owner cur loop n : chain st owner cur loop cur → chain st owner cur (concat (replicate n loop)) cur.
Proof. intros Hc. induction n as [|n IH]; simpl; [done|]. apply chain_app. by exists cur. Qed.

Lemma history_of_chain w owner values next fuel :
  chain (net_store w) owner owner values next → net_store w !! owner_record_key next = None → (length values < fuel)%nat →
  history_collect fuel (register_history owner) w = (Ok (Some values), w).
Proof.
  intros Hc Hnone Hlt. unfold history_collect, register_history. simpl. replace fuel with (length values + S (fuel - length values - 1))%nat by lia.
  rewrite (collect_chain _ _ _ _ _ _ _ Hc). by rewrite collect_end.
Qed.

(** The history of a register. From the owner's own key the collection follows the keys the entries
    name. It ends exactly at a key without an entry, with the values on the way to it, in as many steps
    as there are values and one more. If an entry names a key that was passed already, it never ends. *)
Theorem history_exact w owner values next :
  chain (net_store w) owner owner values next →
  (net_store w !! owner_record_key next = None →
     (∀ fuel, (length values < fuel)%nat → history_collect fuel (register_history owner) w = (Ok (Some values), w)) ∧
     ∀ fuel, (fuel ≤ length values)%nat → history_collect fuel (register_history owner) w = (Ok None, w)) ∧
  (∀ loop, loop ≠ [] → chain (net_store w) owner next loop next → ∀ fuel, history_collect fuel (register_history owner) w = (Ok None, w)).
Proof.
  intros Hc. split; [intros Hnone; split; [intros fuel; by apply (history_of_chain _ _ _ next)|]|]; unfold history_collect, register_history; simpl.
  - intros fuel Hle. by apply (collect_starved _ _ _ values next).
  - intros loop Hne Hloop fuel. apply (collect_starved _ _ _ (values ++ concat (replicate fuel loop)) next).
    + apply chain_app. exists next. split; [done|]. by apply chain_loops.
    + rewrite length_app. destruct loop as [|b loop]; [done|]. clear. induction fuel as [|fuel IH]; simpl; [lia|]. rewrite length_app. lia.
Qed.
(** ** Operations *)

Lemma register_create_stores (owner : SecretKey) value receipt price1 price2 w :
  let pk := sk_public_key owner in
  let '(index, w1) := random_bytes 32 w in
  let next := main_pk_derive_key pk index in
  let head := register_head_pointer_pk pk in
  NoDup (owner_record_key <$> [pk; head; next]) → Forall (λ o, net_store w !! owner_record_key o = None) [pk; head; next] →
  receipt_pays receipt (NA_GraphEntryAddress (mkGraphEntryAddress pk)) GraphEntry_t price1 →
  receipt_pays receipt (NA_PointerAddress (mkPointerAddress head)) Pointer_t price2 → price1 + price2 < 2 ^ 256 →
  ∃ w', register_create payment_mode evm_network owner value (PO_Receipt receipt) w = (Ok (price1 + price2, pk), w') ∧
    is_register (net_store w') pk [value] next.
Proof.
  intros pk. destruct (random_bytes 32 w) as [index w1] eqn:Hrand. pose proof (net_random 32 w) as Hst1. rewrite Hrand in Hst1. simpl in Hst1.
  intros next head Hnd Hfree Hpay1 Hpay2 Hsum.
  apply NoDup_cons in Hnd as [Hpk [Hhead _]%NoDup_cons]. apply Forall_cons in Hfree as [Hfpk [Hfhead [Hfnext _]%Forall_cons]%Forall_cons].
  set (root := graph_entry_new owner [] value [(next, index)]).
  destruct (graph_entry_put_stores w1 owner [] value [(next, index)] receipt price1) as (w2 & r & Hput & Hr & Hst2); [by rewrite Hst1|done|]. fold root in Hput, Hr.
  assert (sk_public_key (register_head_pointer_sk owner) = head) as Hsk by apply derive_public_key.
  set (target := PT_GraphEntryAddress (mkGraphEntryAddress pk)).
  destruct (pointer_create_stores w2 (register_head_pointer_sk owner) target receipt price2) as (w3 & rp & Hcreate & Hrp & Hst3); rewrite Hsk in *; [|done|].
  { rewrite Hst2, Hst1, lookup_insert_ne; [done|]. intros E. apply Hpk. simpl. fold pk in E. rewrite E. left. }
  exists w3. split.
  - unfold register_create, cm_bind, cm_map_err, cm_lift, random_index, cm_ret. cbv zeta. fold pk. rewrite Hrand. fold next. change (graph_entry_new owner [] value [(next, index)]) with root. rewrite Hput. simpl.
    change (PT_GraphEntryAddress (graph_entry_address root)) with target. rewrite Hcreate. simpl. unfold atto_checked_add.
    by destruct (Z.leb_spec (2 ^ 256) (price1 + price2)); [lia|].
  - rewrite Hst3, Hst2, Hst1. exists [], value, pk, (pointer_new (register_head_pointer_sk owner) 0 target).
    assert (owner_record_key pk ≠ owner_record_key head ∧ owner_record_key pk ≠ owner_record_key next ∧ owner_record_key head ≠ owner_record_key next) as (N1 & N2 & N3)
      by (simpl in *; set_solver).
    split_and!; [done|done| |by rewrite !lookup_insert_ne by done| |done..].
    + exists root, index. split_and!; [|done..]. exists r. split; [|done]. by rewrite lookup_insert_ne, lookup_insert_eq.
    + exists rp. split; [|done]. by rewrite lookup_insert_eq.
Qed.

Lemma register_update_stores (owner : SecretKey) value receipt price values next w :
  let pk := sk_public_key owner in
  is_register (net_store w) pk values next → Z.of_nat (length values) < 2 ^ 64 →
  receipt_pays receipt (NA_GraphEntryAddress (mkGraphEntryAddress next)) GraphEntry_t price →
  let next' := main_pk_derive_key pk (random_bytes 32 w).1 in
  net_store w !! owner_record_key next' = None → owner_record_key next' ≠ owner_record_key next →
  ∃ w', register_update payment_mode evm_network owner value (PO_Receipt receipt) w = (Ok price, w') ∧
    is_register (net_store w') pk (values ++ [value]) next'.
Proof.
  intros pk (prefix & v & cur & p & -> & Hpre & Hcur & Hnext & Hp & Htarget & Hcounter) Hlen Hpay next' Hfree Hdiff.
  pose proof Hcur as (g & index & Hg & Hv & Hd & Enext). simpl in Enext.
  assert (sk_public_key (main_sk_derive_key owner index) = next) as Hnk by (rewrite <- Enext; apply derive_public_key).
  assert (sk_public_key (register_head_pointer_sk owner) = register_head_pointer_pk pk) as Hsk by apply derive_public_key.
  destruct (random_bytes 32 w) as [index' w1] eqn:Hrand. pose proof (net_random 32 w) as Hst1. rewrite Hrand in Hst1. simpl in next', Hst1.
  set (entry := graph_entry_new (main_sk_derive_key owner index) [ge_owner g] value [(next', index')]).
  destruct (graph_entry_put_stores w1 (main_sk_derive_key owner index) [ge_owner g] value [(next', index')] receipt price) as (w2 & r & Hput & Hr & Hst2);
    [by rewrite Hst1, Hnk|simpl; unfold graph_entry_address; simpl; by rewrite Hnk|]. fold entry in Hput, Hr. rewrite Hnk, Hst1 in Hst2.
  assert (graph_entry_address entry = mkGraphEntryAddress next) as Haddr by (unfold graph_entry_address; simpl; by rewrite Hnk). rewrite Haddr in Hput.
  assert (owner_record_key (register_head_pointer_pk pk) ≠ owner_record_key next) as Hpn by (destruct Hp as (rp & Hrp & _); congruence).
  assert (holds_pointer (net_store w2) (register_head_pointer_pk pk) p) as Hp2 by (rewrite Hst2; by apply holds_pointer_insert).
  rewrite length_app in Hlen. simpl in Hlen.
  destruct (pointer_update_stores w2 (register_head_pointer_sk owner) (PT_GraphEntryAddress (mkGraphEntryAddress next)) p) as (w3 & rp & Hupd & Hrp & Hst3);
    [by rewrite Hsk|rewrite Hcounter; lia|]. rewrite Hsk in Hst3.
  exists w3. split.
  - unfold register_update, cm_bind, cm_try, cm_map_err, cm_lift, cm_ret, random_index. cbv zeta. fold pk. unfold register_head_pointer_address. rewrite (pointer_get_held _ _ _ Hp). unfold head_graph_address. rewrite Htarget.
    rewrite (entry_and_index_held _ _ _ _ Hg Hd). cbn [fst snd]. rewrite Hrand.
    change (graph_entry_new (main_sk_derive_key owner index) [ge_owner g] value [(main_pk_derive_key pk index', index')]) with entry. rewrite Hput. by rewrite Hupd.
  - assert (∀ o e, holds_entry (net_store w) o e → holds_entry (net_store w3) o e) as Hmono.
    { intros o e He. rewrite Hst3. apply holds_entry_write; [right; by eexists _, p|]. rewrite Hst2. apply holds_entry_write; [by left|done]. }
    exists (prefix ++ [v]), value, next, (pointer_new (register_head_pointer_sk owner) (ptr_counter p + 1) (PT_GraphEntryAddress (mkGraphEntryAddress next))).
    split_and!; [done| | | | |done|].
    + apply chain_app. exists cur. split; eapply chain_mono; eauto.
    + exists entry, index'. split_and!; [|done..]. exists r. split; [|done]. by rewrite Hst3, lookup_insert_ne, Hst2, lookup_insert_eq.
    + rewrite Hst3, lookup_insert_ne, Hst2, lookup_insert_ne; [done..|]. intros E. destruct Hp as (rp0 & Hrp0 & _). fold next' in Hfree. congruence.
    + exists rp. split; [|done]. by rewrite Hst3, lookup_insert_eq.
    + simpl. rewrite Hcounter, length_app. simpl. lia.
Qed.

Lemma register_get_held w owner values next :
  is_register (net_store w) owner values next → ∃ v, last values = Some v ∧ register_get owner w = (Ok v, w).
Proof.
  intros (prefix & v & cur & p & -> & _ & (g & index & Hg & <- & _) & _ & Hp & Htarget & _). exists (ge_content g). split; [by rewrite last_snoc|].
  unfold register_get, cm_bind, cm_map_err, cm_try, cm_lift, register_head_pointer_address. rewrite (pointer_get_held _ _ _ Hp). unfold head_graph_address. simpl. rewrite Htarget.
  by rewrite (graph_entry_get_held _ _ _ Hg).
Qed.

(** C18: a register is the list of the values written to it. On a network that keeps what it accepts,
    creation makes the list of the first value and costs what its two records cost; an update appends
    its value, whatever random key it draws as long as it is free; a read gives the last value, and the
    history all of them in order. *)
Theorem register_refines_list (owner : SecretKey) value receipt price1 price2 w :
  let pk := sk_public_key owner in
  let next' := main_pk_derive_key pk (random_bytes 32 w).1 in
  let head := register_head_pointer_pk pk in
  (NoDup (owner_record_key <$> [pk; head; next']) → Forall (λ o, net_store w !! owner_record_key o = None) [pk; head; next'] →
   receipt_pays receipt (NA_GraphEntryAddress (mkGraphEntryAddress pk)) GraphEntry_t price1 →
   receipt_pays receipt (NA_PointerAddress (mkPointerAddress head)) Pointer_t price2 → price1 + price2 < 2 ^ 256 →
   ∃ w', register_create payment_mode evm_network owner value (PO_Receipt receipt) w = (Ok (price1 + price2, pk), w') ∧
     is_register (net_store w') pk [value] next') ∧
  (∀ values next, is_register (net_store w) pk values next →
   (Z.of_nat (length values) < 2 ^ 64 → receipt_pays receipt (NA_GraphEntryAddress (mkGraphEntryAddress next)) GraphEntry_t price1 →
    net_store w !! owner_record_key next' = None → owner_record_key next' ≠ owner_record_key next →
    ∃ w', register_update payment_mode evm_network owner value (PO_Receipt receipt) w = (Ok price1, w') ∧
      is_register (net_store w') pk (values ++ [value]) next') ∧
   (∃ v, last values = Some v ∧ register_get pk w = (Ok v, w)) ∧
   ∀ fuel, (length values < fuel)%nat → history_collect fuel (register_history pk) w = (Ok (Some values), w)).
Proof.
  intros pk next' head. split.
  - pose proof (register_create_stores owner value receipt price1 price2 w) as Hc. cbv zeta in Hc.
    destruct (random_bytes 32 w) as [index w1]. exact Hc.
  - intros values next Hreg. split_and!; [by intros; apply (register_update_stores owner _ _ _ values next)|by apply (register_get_held _ _ _ next)|].
    destruct Hreg as (prefix & v & cur & p & -> & Hpre & Hcur & Hnext & _). intros fuel. apply (history_of_chain w pk (prefix ++ [v]) next); [|done].
    apply chain_app. by exists cur.
Qed.
End register.

(** ** The node keeps what it accepts *)

Section node_network.
Context `{XorNameLib, Hex, BlsOrdLaws, Layout, Kad, RmpHeaderLaws, Libp2pIdentity, AntMerkle, HashOrder}.
Context `{BSer : !BodySerde, BLaws : !BodySerdeLaws}.
Context `{!SerdeTotal Pointer, !SerdeTotal (list GraphEntry), !SerdeLaws (ProofOfPayment * GraphEntry), !SerdeLaws (ProofOfPayment * Pointer)}.

(** A network of nodes that hold the same records: a put runs the handler of PutValidation on one of
    them, whose environment reads the records held. Random numbers come from a list. *)
Context (env : gmap bytes KadRecord → NodeEnv).
Context (env_ok : ∀ st, env_reads (env st) st) (env_present : ∀ st k, is_Some (env_is_record_key_present (env st) k)).

Record NodeWorld := { nw_store : gmap bytes KadRecord; nw_random : list bytes }.

#[local] Instance node_client_world : ClientWorld NodeWorld := {|
  net_get_record_with_retries t a w := (Ok ((λ r, [r]) <$> nw_store w !! to_record_key a), w);
  net_get_record t a w := (Ok (nw_store w !! to_record_key a), w);
  net_get_closest_peers_with_retries a w := (Ok [], w);
  net_put_record_with_retries t r targets w :=
    let '(effects, res) := handle (env (nw_store w)) (ClientPut r) in
    (match res with Ok _ => Ok tt | Err _ => Err (PutRecordRejected []) end,
     {| nw_store := apply_effects (nw_store w) effects; nw_random := nw_random w |});
  net_get_quotes_with_retries a i s w := (Ok None, w);
  evm_get_market_price m w := (None, w);
  evm_pay_for_quotes p w := (Err WalletOther, w);
  random_bytes n w := (default [] (head (nw_random w)), {| nw_store := nw_store w; nw_random := tail (nw_random w) |});
|}.

#[local] Instance node_record_network : RecordNetwork NodeWorld := {|
  net_store := nw_store;
  net_accepts address t payment := ∀ st, (payment_for_us_exists_and_is_still_valid (env st) address t payment).2 = Ok tt;
|}.

Lemma apply_effects_silent st es : (∀ r c, PutLocalRecord r c ∉ es) → apply_effects st es = st.
Proof.
  unfold apply_effects. revert st. induction es as [|e es IH]; intros st Hes; simpl; [done|]. rewrite IH by set_solver.
  destruct e as [r c| |]; [|done..]. destruct (Hes r c). left.
Qed.

Lemma present_reads st k : env_is_record_key_present (env st) k = Some (bool_decide (is_Some (st !! k))).
Proof. destruct (env_present st k) as [b Hb]. destruct (env_ok st) as [_ Hpres]. by rewrite Hb, <- (Hpres _ _ Hb). Qed.

(** A handler that stores one record, besides commands that store nothing. *)
Definition stores_record (m : PutM unit) (r : KadRecord) : Prop :=
  ∃ before after, m = (before ++ PutLocalRecord r true :: after, Ok tt) ∧
    (∀ r c, PutLocalRecord r c ∉ before) ∧ ∀ r c, PutLocalRecord r c ∉ after.

Lemma handled_put t r0 r targets key b w :
  stores_record (handle (env (nw_store w)) (ClientPut r0)) r → rec_key r = key → record_holds r b →
  puts_body w (net_put_record_with_retries t r0 targets w) key b.
Proof.
  intros (before & after & Hm & Hb & Ha) Hkey Hr. eexists _, r. split_and!; [|done..|]; [cbn [net_put_record_with_retries node_client_world]; rewrite Hm; done|].
  simpl. unfold apply_effects. rewrite foldl_app. fold (apply_effects (nw_store w) before). rewrite (apply_effects_silent _ _ Hb). simpl.
  rewrite Hkey. by apply apply_effects_silent.
Qed.

Lemma merge_first_entry st g :
  graph_entry_verify_signature g = true → st !! owner_record_key (ge_owner g) = None →
  ∃ r, validate_merge_and_store_graphentries (env st) [g] (owner_record_key (ge_owner g)) true = ([PutLocalRecord r true], Ok tt) ∧
    rec_key r = owner_record_key (ge_owner g) ∧ record_holds r (B_GraphEntries [g]).
Proof.
  intros Hsig Hnone. destruct (serialize_total [g] (DataOnly GraphEntry_t)) as [v Hv]. set (key := owner_record_key (ge_owner g)) in *.
  exists (local_record key v). split_and!; [|done|].
  - unfold validate_merge_and_store_graphentries. cbv zeta. rewrite (filter_cons_True _ _ []), filter_nil, (filter_cons_True _ _ []), filter_nil by done. simpl. unfold get_local_graphentries. change (to_record_key (NA_GraphEntryAddress (graph_entry_address g))) with key.
    destruct (env_ok st) as [Hget _]. rewrite Hget, Hnone. simpl. unfold put_bind. simpl. by rewrite Hv.
  - exists v. split_and!; [done..|]. split_and!; [done|by repeat constructor|]. by constructor.
Qed.

Lemma store_free_pointer st p :
  pointer_verify_signature p = true →
  match st !! owner_record_key (ptr_owner p) with None => True | Some r0 => ∃ p0, record_holds r0 (B_Pointer p0) ∧ ptr_counter p0 < ptr_counter p end →
  ∃ r, validate_and_store_pointer_record (env st) p (owner_record_key (ptr_owner p)) true = ([PutLocalRecord r true], Ok tt) ∧
    rec_key r = owner_record_key (ptr_owner p) ∧ record_holds r (B_Pointer p).
Proof.
  intros Hsig Hlocal. destruct (serialize_total p (DataOnly Pointer_t)) as [v Hv]. set (key := owner_record_key (ptr_owner p)) in *.
  exists (local_record key v). split_and!; [|done|by exists v].
  unfold validate_and_store_pointer_record. rewrite Hsig. simpl. change (to_record_key (NA_PointerAddress (pointer_address p))) with key.
  rewrite bool_decide_eq_false_2 by auto. unfold get_local_pointer. change (to_record_key (NA_PointerAddress (pointer_address p))) with key.
  destruct (env_ok st) as [Hget _]. rewrite Hget, Hv. destruct (st !! key) as [r0|]; [|done]. destruct Hlocal as (p0 & Hr0 & Hlt).
  rewrite (record_holds_header _ _ Hr0). simpl. rewrite (holds_pointer_read _ _ Hr0). simpl.
  rewrite bool_decide_eq_false_2 by (intros ->; lia). by destruct (Z.leb_spec (ptr_counter p) (ptr_counter p0)); [lia|].
Qed.

(** The end of a paid put under a free key: the payment is checked, the body stored. *)
Lemma paid_put_stores (env0 : NodeEnv) address t payment (m : PutM unit) r key version :
  (payment_for_us_exists_and_is_still_valid env0 address t payment).2 = Ok tt → m = ([PutLocalRecord r true], Ok tt) →
  stores_record (let! payment_res := put_try (payment_for_us_exists_and_is_still_valid env0 address t payment) in
                 let! _ := put_lift payment_res in
                 store_and_notify m key version)%put r.
Proof.
  intros Hacc ->. pose proof (payment_no_put env0 address t payment) as Hsilent.
  destruct (payment_for_us_exists_and_is_still_valid env0 address t payment) as [before res]. simpl in Hacc, Hsilent. subst res.
  exists before, [NotifyFetchCompleted key version]. split_and!; [done|done|set_solver].
Qed.

Lemma free_key_ok st address key : key = to_record_key address → st !! key = None → validate_key_and_existence (env st) address key = put_lift (Ok false).
Proof. intros -> Hnone. unfold validate_key_and_existence. rewrite bool_decide_eq_false_2 by auto. by rewrite present_reads, Hnone. Qed.

#[local] Instance node_record_network_laws : RecordNetworkLaws NodeWorld.
Proof.
  split; [by split|by exists []|done|..].
  - intros g payment v targets w Hsig Hnone Hacc Hv. set (key := owner_record_key (ge_owner g)) in *.
    destruct (merge_first_entry (nw_store w) g Hsig Hnone) as (r & Hm & Hkey & Hr). apply (handled_put _ _ r); [|done..].
    destruct (serialize_record_inv _ _ _ (local_record key v) Hv eq_refl) as [Hh Hd].
    unfold handle, validate_and_store_record, client_paid_graph_entry, parse_body. rewrite Hh, Hd. cbn [map_err]. rewrite !put_lift_bind. cbv zeta.
    change (to_record_key (NA_GraphEntryAddress (graph_entry_address g))) with key. rewrite bool_decide_eq_false_2 by auto.
    rewrite free_key_ok, put_lift_bind by done. apply paid_put_stores; [apply Hacc|done].
  - intros p payment v targets w Hsig Hnone Hacc Hv. set (key := owner_record_key (ptr_owner p)) in *.
    destruct (store_free_pointer (nw_store w) p Hsig) as (r & Hm & Hkey & Hr); [by replace (nw_store w !! _) with (@None KadRecord)|].
    apply (handled_put _ _ r); [|done..].
    destruct (serialize_record_inv _ _ _ (local_record key v) Hv eq_refl) as [Hh Hd].
    unfold handle, validate_and_store_record, client_paid_pointer, parse_body. rewrite Hh, Hd. cbn [map_err]. rewrite !put_lift_bind. cbv zeta.
    rewrite free_key_ok, put_lift_bind by done. apply paid_put_stores; [apply Hacc|done].
  - intros p p0 r0 v targets w Hsig Hr0 Hp0 Hlt Hv. set (key := owner_record_key (ptr_owner p)) in *.
    destruct (store_free_pointer (nw_store w) p Hsig) as (r & Hm & Hkey & Hr); [replace (nw_store w !! _) with (Some r0); by exists p0|].
    apply (handled_put _ _ r); [|done..].
    destruct (serialize_record_inv _ _ _ (local_record key v) Hv eq_refl) as [Hh Hd].
    unfold handle, validate_and_store_record, client_pointer, parse_body. rewrite Hh, Hd. cbn [map_err]. rewrite !put_lift_bind.
    unfold validate_key_and_existence. rewrite bool_decide_eq_false_2 by auto. rewrite present_reads.
    change (to_record_key (NA_PointerAddress (pointer_address p))) with key. rewrite bool_decide_eq_true_2 by (by exists r0). cbn [ok_or]. rewrite put_lift_bind. cbn [negb].
    unfold store_and_notify. change (rec_key (local_record key v)) with key. fold key in Hm. rewrite Hm. exists [], [NotifyFetchCompleted key (received_version (local_record key v))].
    split_and!; [done|set_solver..].
Qed.
End node_network.

(** * Witnesses *)

Section register_witnesses.
#[local] Existing Instances toy_xorname toy_hex num_bls num_bls_laws num_bls_ord_laws num_derive num_derive_laws toy_layout toy_kad toy_rmp_header
  toy_rmp_header_laws toy_identity toy_digests toy_ant_merkle hash_order_rev num_bodies num_bodies_laws.

#[local] Instance total_pointer : SerdeTotal Pointer.
Proof. intros x. by eexists. Qed.
#[local] Instance total_entries : SerdeTotal (list GraphEntry).
Proof. intros x. by eexists. Qed.
#[local] Instance total_paid_entry : SerdeTotal (ProofOfPayment * GraphEntry).
Proof. intros x. by eexists. Qed.
#[local] Instance total_paid_pointer : SerdeTotal (ProofOfPayment * Pointer).
Proof. intros x. by eexists. Qed.
#[local] Instance laws_paid_entry : SerdeLaws (ProofOfPayment * GraphEntry) := counted_laws 6.
#[local] Instance laws_paid_pointer : SerdeLaws (ProofOfPayment * Pointer) := counted_laws 7.

#[local] Instance honest_world : ClientWorld NodeWorld := node_client_world honest_env.
#[local] Instance honest_network : RecordNetwork NodeWorld := node_record_network honest_env.
#[local] Instance honest_network_laws : RecordNetworkLaws NodeWorld.
Proof. apply node_record_network_laws; [apply honest_env_reads|]. intros st k. by eexists. Qed.

(** The owner 10: the head pointer belongs to 11, entries to 10, 15 and 17. *)
Definition ex_owner : @SecretKey num_bls := 10.
Definition ex_pk : @PublicKey num_bls := 10.
Definition ex_price (t : DataTypes) : Z := if decide (t = Pointer_t) then 2 else 5.
Definition ex_paid (owner : Z) (t : DataTypes) : bytes * (ClientProofOfPayment * Z) :=
  (xorname_from_content (pk_to_bytes (owner : PublicKey)), (typed_proof t, ex_price t)).
Definition ex_receipt : Receipt := list_to_map [ex_paid 10 GraphEntry_t; ex_paid 11 Pointer_t; ex_paid 15 GraphEntry_t].
Definition ex_world : NodeWorld := {| nw_store := ∅; nw_random := [[4]; [6]] |}.

Lemma ex_receipt_pays owner t :
  ex_receipt !! xorname_from_content (pk_to_bytes (owner : PublicKey)) = Some (typed_proof t, ex_price t) →
  ∀ address, as_bytes address = xorname_from_content (pk_to_bytes (owner : PublicKey)) → receipt_pays ex_receipt address t (ex_price t).
Proof. intros Hr address Ha. exists (typed_proof t). rewrite Ha. split; [done|]. intros st. apply honest_env_accepts. Qed.

Definition ex_created : NodeWorld := (register_create Standard [] ex_owner [1] (PO_Receipt ex_receipt) ex_world).2.
Definition ex_updated : NodeWorld := (register_update Standard [] ex_owner [2] (PO_Receipt ex_receipt) ex_created).2.

Lemma register_refines_list_witness :
  (register_create Standard [] ex_owner [1] (PO_Receipt ex_receipt) ex_world).1 = Ok (7, ex_pk) ∧
  (register_update Standard [] ex_owner [2] (PO_Receipt ex_receipt) ex_created).1 = Ok 5 ∧
  register_get ex_pk ex_updated = (Ok [2], ex_updated) ∧
  history_collect 3 (register_history ex_pk) ex_updated = (Ok (Some [[1]; [2]]), ex_updated).
Proof.
  destruct (proj1 (register_refines_list Standard [] ex_owner [1] ex_receipt 5 2 ex_world)) as (w1 & E1 & Hreg1).
  - vm_compute. repeat constructor; set_solver.
  - repeat constructor.
  - apply (ex_receipt_pays 10 GraphEntry_t); vm_compute; reflexivity.
  - apply (ex_receipt_pays 11 Pointer_t); vm_compute; reflexivity.
  - done.
  - split; [by rewrite E1|]. assert (ex_created = w1) as Hw1 by (unfold ex_created; by rewrite E1). rewrite <- Hw1 in Hreg1.
    destruct (proj2 (register_refines_list Standard [] ex_owner [2] ex_receipt 5 0 ex_created) _ _ Hreg1) as [Hupd _].
    destruct Hupd as (w2 & E2 & Hreg2); [done|apply (ex_receipt_pays 15 GraphEntry_t); vm_compute; reflexivity|vm_compute; reflexivity|vm_compute; congruence|].
    split; [by rewrite E2|]. assert (ex_updated = w2) as Hw2 by (unfold ex_updated; by rewrite E2). rewrite <- Hw2 in Hreg2.
    destruct (proj2 (register_refines_list Standard [] ex_owner [] ex_receipt 0 0 ex_updated) _ _ Hreg2) as (_ & (v & Hv & Hget) & Hhist).
    injection Hv as <-. split; [exact Hget|]. apply Hhist. simpl. lia.
Defined.
(** The second entry names its own key. *)
Definition ex_link (owner : @SecretKey num_bls) (value index : bytes) : GraphEntry :=
  graph_entry_new owner [] value [(main_pk_derive_key ex_pk index, index)].
Definition ex_entry_record (g : GraphEntry) : KadRecord :=
  local_record (owner_record_key (ge_owner g)) match try_serialize_record [g] (DataOnly GraphEntry_t) with Ok v => v | Err _ => [] end.
Definition ex_looping : NodeWorld :=
  {| nw_store := list_to_map ((λ g, (owner_record_key (ge_owner g), ex_entry_record g)) <$> [ex_link 10 [1] [4]; ex_link 15 [2] [4]]); nw_random := [] |}.

Lemma ex_entry_holds (owner : @SecretKey num_bls) value index :
  let g := ex_link owner value index in record_holds (ex_entry_record g) (B_GraphEntries [g]).
Proof.
  intros g. destruct (serialize_total [g] (DataOnly GraphEntry_t)) as [v Hv]. exists v. unfold ex_entry_record. rewrite Hv.
  split_and!; [done|done|]. split_and!; [done|by repeat constructor|]. constructor; [|done]. split; [done|]. apply bls_sign_verify.
Qed.

Lemma history_exact_witness :
  (∀ fuel, history_collect fuel (register_history ex_pk) ex_looping = (Ok None, ex_looping)) ∧
  history_collect 2 (register_history ex_pk) ex_created = (Ok (Some [[1]]), ex_created).
Proof.
  split.
  - apply (proj2 (history_exact ex_looping ex_pk [[1]] 15 ltac:(exists (ex_link 10 [1] [4]), [4]; split_and!;
      [exists (ex_entry_record (ex_link 10 [1] [4])); split; [vm_compute; reflexivity|exact (ex_entry_holds 10 [1] [4])]|done..])) [[2]]); [done|].
    exists (ex_link 15 [2] [4]), [4]. split_and!; [|done..]. exists (ex_entry_record (ex_link 15 [2] [4])).
    split; [vm_compute; reflexivity|exact (ex_entry_holds 15 [2] [4])].
  - assert (chain (net_store ex_created) ex_pk ex_pk [[1]] 15) as Hc.
    { exists (ex_link 10 [1] [4]), [4]. split_and!; [|done..]. exists (ex_entry_record (ex_link 10 [1] [4])).
      split; [vm_compute; reflexivity|exact (ex_entry_holds 10 [1] [4])]. }
    apply (proj1 (proj1 (history_exact ex_created ex_pk [[1]] 15 Hc) ltac:(vm_compute; reflexivity))). simpl. lia.
Defined.
End register_witnesses.
