(* ===== verification/Encryption.v ===== *)
(** * Self-encryption and encryption streams of the client

    Models src/autonomi/src/self_encryption: [encrypt] (memory_encryption.rs), the streams of encrypted
    chunks that uploads draw from and the encryption of directories (stream_encryption.rs), and the
    concurrent tasks of src/autonomi/src/utils.rs. The crate self_encryption is the parameter
    [SelfEncryption]; the disk and the order in which concurrent tasks complete belong to the world. *)

From stdpp Require Import base gmap countable strings list.
From Stdlib Require Import ZArith Lia.
From S2P Require Import Prelude Text Effects Protocol Storage.

(** ** Concurrent tasks: utils.rs *)

(** The order in which the world completes [n] tasks that run at the same time: their indices. *)
Class Scheduler (W : Type) := { task_completion : nat → W → list nat * W }.

Section tasks.
Context {W R : Type}.

Fixpoint run_tasks (tasks : list (W → R * W)) (w : W) : list R * W :=
  match tasks with
  | [] => ([], w)
  | task :: rest => let '(r, w) := task w in let '(rs, w) := run_tasks rest w in (r :: rs, w)
  end.

(** [buffer_unordered]: the results in the order of completion. *)
Definition process_tasks_with_max_concurrency `{!Scheduler W} (tasks : list (W → R * W)) (w : W) : list R * W :=
  let '(order, w) := task_completion (length tasks) w in
  run_tasks (omap (λ i, tasks !! i) order) w.
End tasks.

(** ** The crate self_encryption *)

(** [ChunkInfo] and [DataMap], whose fields the client reads and writes. *)
Record ChunkInfo := { ci_index : Z; ci_dst_hash : bytes; ci_src_hash : bytes; ci_src_size : Z }.
Record DataMap := { dm_chunk_identifiers : list ChunkInfo; dm_child : option Z }.

#[export] Instance ChunkInfo_eq_dec : EqDecision ChunkInfo.
Proof. solve_decision. Defined.
#[export] Instance DataMap_eq_dec : EqDecision DataMap.
Proof. solve_decision. Defined.

(** [stream_encrypt]'s stream: the chunks with their hashes in order, an error ending them, and the data map
    after them. *)
Class SelfEncryption := {
  SeError : Type;
  se_generic : bytes → SeError;
  se_encrypt : bytes → result (DataMap * list bytes) SeError;
  se_decrypt : DataMap → list bytes → result bytes SeError;
  se_get_root_data_map : ∀ {W : Type}, DataMap → (bytes → CM W SeError bytes) → CM W SeError DataMap;
  se_stream_encrypt : Z → list bytes → result (list (result (bytes * bytes) SeError) * option DataMap) SeError;
  se_infos : DataMap → list ChunkInfo;
  se_is_child : DataMap → bool;
  MAX_CHUNK_SIZE : Z;
  OldDataMap : Type;
  old_infos : OldDataMap → list ChunkInfo;
}.

(** ** In memory: memory_encryption.rs *)

Section memory.
Context `{XorNameLib, SelfEncryption, !Serde DataMap}.

Inductive EncryptionError := EncEncoding | EncSelfEncryption (e : SeError).

(** The levels of the data maps of older versions. *)
Inductive DataMapLevel := DML_First (map : OldDataMap) | DML_Additional (map : OldDataMap).

Definition wrap_data_map (data_map : DataMap) : result bytes EncryptionError := ok_or (rmp_to_vec data_map) EncEncoding.

Definition pack_data_map (data_map : DataMap) : result Chunk EncryptionError :=
  (let? chunk_content := wrap_data_map data_map in Ok (chunk_new chunk_content))%rust.

Definition encrypt (data : bytes) : result (Chunk * list Chunk) EncryptionError :=
  (let? dc := map_err EncSelfEncryption (se_encrypt data) in
   let? data_map_chunk := pack_data_map dc.1 in
   Ok (data_map_chunk, chunk_new <$> dc.2))%rust.
End memory.

(** ** Streams: stream_encryption.rs *)

(** Paths are their components. *)
Definition PathBuf : Type := list bytes.

Record Metadata := { md_created : Z; md_modified : Z; md_size : Z; md_extra : option bytes }.

Definition metadata_new_with_size (now size : Z) : Metadata :=
  {| md_created := now; md_modified := now; md_size := size; md_extra := None |}.
Definition metadata_empty : Metadata := {| md_created := 0; md_modified := 0; md_size := 0; md_extra := None |}.

(** [DataMapChunk] wraps a chunk. *)
Definition DataMapChunk : Type := Chunk.

(** Both ends of the channels of the encrypting thread: the chunks it has still to send before it drops its
    end, and whether a data map was sent before that. *)
Record StreamProgressState := {
  sp_chunk_receiver : list Chunk;
  sp_datamap_receiver : option DataMapChunk;
  sp_chunk_count : nat;
  sp_total_estimated_chunks : nat;
}.

Inductive EncryptionState :=
  | ES_InMemory (chunks : list Chunk) (data_map_chunk : DataMapChunk)
  | ES_StreamInProgress (progress : StreamProgressState)
  | ES_StreamDone (data_map_chunk : DataMapChunk) (total_chunk_count : nat).

Record EncryptionStream := {
  es_file_path : bytes;
  es_relative_path : PathBuf;
  es_metadata : Metadata;
  es_is_public : bool;
  es_state : EncryptionState;
}.

Definition es_with_state (s : EncryptionStream) (state : EncryptionState) : EncryptionStream :=
  {| es_file_path := es_file_path s; es_relative_path := es_relative_path s; es_metadata := es_metadata s;
     es_is_public := es_is_public s; es_state := state |}.

Definition total_chunks (s : EncryptionStream) : nat :=
  match es_state s with
  | ES_InMemory chunks _ => length chunks
  | ES_StreamInProgress state => sp_total_estimated_chunks state
  | ES_StreamDone _ total_chunk_count => total_chunk_count
  end.

(** The batch drawn from a stream in progress and the state after it. When the sender is gone before the
    batch is full and the data map was sent, the new state is done, with the count of the batches before,
    and of the data map of a public stream. *)
Definition next_stream_batch (is_public : bool) (progress : StreamProgressState) (batch_size : nat) : list Chunk * EncryptionState :=
  let received := take batch_size (sp_chunk_receiver progress) in
  let counted (batch : list Chunk) (count : nat) : StreamProgressState :=
    {| sp_chunk_receiver := drop batch_size (sp_chunk_receiver progress); sp_datamap_receiver := sp_datamap_receiver progress;
       sp_chunk_count := (count + length batch)%nat; sp_total_estimated_chunks := sp_total_estimated_chunks progress |} in
  if (length (sp_chunk_receiver progress) <? batch_size)%nat then
    match sp_datamap_receiver progress with
    | Some datamap_chunk =>
      if is_public then (received ++ [datamap_chunk], ES_StreamDone datamap_chunk (S (sp_chunk_count progress)))
      else (received, ES_StreamDone datamap_chunk (sp_chunk_count progress))
    | None => (received, ES_StreamInProgress (counted received (sp_chunk_count progress)))
    end
  else (received, ES_StreamInProgress (counted received (sp_chunk_count progress))).

Definition next_batch (s : EncryptionStream) (batch_size : nat) : option (list Chunk) * EncryptionStream :=
  if decide (batch_size = 0%nat) then (Some [], s)
  else
    match es_state s with
    | ES_InMemory chunks data_map_chunk =>
      let batch := take batch_size chunks in
      if decide (batch = []) then (None, s)
      else (Some batch, es_with_state s (ES_InMemory (drop batch_size chunks) data_map_chunk))
    | ES_StreamInProgress progress =>
      let '(batch, state) := next_stream_batch (es_is_public s) progress batch_size in
      (if decide (batch = []) then None else Some batch, es_with_state s state)
    | ES_StreamDone _ _ => (None, s)
    end.

Definition data_map_chunk (s : EncryptionStream) : option DataMapChunk :=
  match es_state s with
  | ES_InMemory _ data_map_chunk => Some data_map_chunk
  | ES_StreamInProgress _ => None
  | ES_StreamDone data_map_chunk _ => Some data_map_chunk
  end.

(** [DataAddress] wraps a name. *)
Definition data_address (s : EncryptionStream) : option bytes :=
  data_map_chunk ← data_map_chunk s;
  if es_is_public s then Some (chunk_name data_map_chunk) else None.

(** What the client uses of the disk: [tokio::fs::read], the blocks that successive reads of an open file
    give ([None] is an error), and the entries of a directory walk. Times are in seconds from the epoch. *)
Record FsMetadata := { fm_created : option Z; fm_modified : option Z; fm_len : Z }.
Record DirEntry := { de_is_file : bool; de_path : PathBuf; de_metadata : option FsMetadata }.

(** Times that cannot be read or lie before the epoch are zero. *)
Definition unix_time (time : option Z) : Z := Z.max 0 (default 0 time).

Definition metadata_from_entry (entry : DirEntry) : Metadata :=
  match de_metadata entry with
  | None => metadata_empty
  | Some fs => {| md_created := unix_time (fm_created fs); md_modified := unix_time (fm_modified fs); md_size := fm_len fs; md_extra := None |}
  end.

Class Disk (W : Type) := {
  disk_read : PathBuf → W → option bytes * W;
  disk_open_blocks : PathBuf → W → option (list (option bytes));
  disk_walk : PathBuf → W → list (option DirEntry);
  disk_is_file : PathBuf → W → bool;
  disk_exists : PathBuf → W → bool;
  disk_create_dir_all : PathBuf → W → bool * W;
  disk_create_file : PathBuf → W → bool * W;
  disk_write : PathBuf → bytes → W → bool * W;
  disk_remove_file : PathBuf → W → bool * W;
  disk_now : W → Z;
  path_lossy : PathBuf → bytes;
}.

(** The blocks up to the end of the file or the first read that fails. *)
Fixpoint file_data_iterator (blocks : list (option bytes)) : list bytes :=
  match blocks with
  | Some [] :: _ | None :: _ | [] => []
  | Some block :: rest => block :: file_data_iterator rest
  end.

Section streams.
Context `{XorNameLib, SelfEncryption, !Serde DataMap}.

Definition new_in_memory_with (file_path : bytes) (relative_path : PathBuf) (metadata : Metadata) (is_public : bool) (data : bytes)
    : result (EncryptionStream * DataMapChunk) EncryptionError :=
  (let? dc := encrypt data in
   let chunks := if is_public then dc.2 ++ [dc.1] else dc.2 in
   Ok ({| es_file_path := file_path; es_relative_path := relative_path; es_metadata := metadata; es_is_public := is_public;
          es_state := ES_InMemory chunks dc.1 |}, dc.1))%rust.

Definition new_in_memory (now : Z) (data : bytes) (is_public : bool) : result (EncryptionStream * DataMapChunk) EncryptionError :=
  new_in_memory_with [] [] (metadata_new_with_size now 0) is_public data.

(** The chunks up to the first error. *)
Fixpoint sent_chunks (results : list (result (bytes * bytes) SeError)) : list Chunk :=
  match results with
  | Ok (_, content) :: rest => chunk_new content :: sent_chunks rest
  | _ => []
  end.

(** The encrypting thread: what it sends. The data map is sent if nothing failed. *)
Definition encrypting_thread (file : option (list (option bytes))) (file_size : Z) : list Chunk * option DataMapChunk :=
  match file with
  | None => ([], None)
  | Some blocks =>
    match se_stream_encrypt file_size (file_data_iterator blocks) with
    | Err _ => ([], None)
    | Ok (results, datamap) =>
      (sent_chunks results,
       if decide (length (sent_chunks results) = length results) then datamap ← datamap; chunk_new <$> rmp_to_vec datamap else None)
    end
  end.

Context `{!Disk W, !Scheduler W}.

(** The estimate is at least three chunks. *)
Definition new_stream_from_file (path : PathBuf) (relative_path : PathBuf) (metadata : Metadata) (is_public : bool)
    (file_size : Z) (w : W) : EncryptionStream :=
  let '(chunks, datamap) := encrypting_thread (disk_open_blocks path w) file_size in
  {| es_file_path := path_lossy path; es_relative_path := relative_path; es_metadata := metadata; es_is_public := is_public;
     es_state := ES_StreamInProgress
       {| sp_chunk_receiver := chunks; sp_datamap_receiver := datamap; sp_chunk_count := 0;
          sp_total_estimated_chunks := Z.to_nat (Z.max 3 (file_size / MAX_CHUNK_SIZE)) |} |}.

(** The messages of the errors. *)
Inductive FileError := FE_CouldNotRead (path : PathBuf) | FE_TooSmall (path : PathBuf) | FE_Encrypting (path : PathBuf) (e : EncryptionError)
  | FE_Size (path : PathBuf) | FE_NoName (path : PathBuf) | FE_StripPrefix (path : PathBuf) | FE_NoDatamap (file_path : bytes).


Context (IN_MEMORY_ENCRYPTION_MAX_SIZE : Z).

#[local] Open Scope cm_scope.

(** A file of less than three bytes is refused. *)
Definition encrypt_file_in_memory (file_path : PathBuf) (is_public : bool) (metadata : Metadata) (relative_path : PathBuf) : CM W FileError EncryptionStream :=
  let! data := (λ w, let '(data, w) := disk_read file_path w in (ok_or data (FE_CouldNotRead file_path), w)) in
  if (length data <? 3)%nat then cm_err (FE_TooSmall file_path)
  else
    let! sd := cm_lift (map_err (FE_Encrypting file_path) (new_in_memory_with (path_lossy file_path) relative_path metadata is_public data)) in
    cm_ret sd.1.

Definition encrypt_file_in_stream (file_path : PathBuf) (is_public : bool) (metadata : Metadata) (relative_path : PathBuf) (file_size : Z)
    : CM W FileError EncryptionStream :=
  cm_get (new_stream_from_file file_path relative_path metadata is_public file_size).

Definition encrypt_file (relative_path file_path : PathBuf) (file_size : Z) (metadata : Metadata) (is_public : bool) : CM W FileError EncryptionStream :=
  if IN_MEMORY_ENCRYPTION_MAX_SIZE <? file_size then encrypt_file_in_stream file_path is_public metadata relative_path file_size
  else encrypt_file_in_memory file_path is_public metadata relative_path.

(** [file_name], [parent] and [strip_prefix] of paths. *)
Definition path_file_name_of (path : PathBuf) : option bytes :=
  name ← last path; if decide (name = text "..") then None else Some name.
Definition path_parent_of (path : PathBuf) : PathBuf := take (length path - 1) path.
Definition path_strip_prefix (prefix path : PathBuf) : option PathBuf :=
  if decide (take (length prefix) path = prefix) then Some (drop (length prefix) path) else None.

Definition get_relative_file_path_from_abs_file_and_folder_path (is_file : bool) (abs_file_path abs_folder_path : PathBuf) : result PathBuf FileError :=
  (let? dir_name := ok_or (path_file_name_of abs_folder_path) (FE_NoName abs_folder_path) in
   if is_file then Ok [dir_name]
   else ok_or (path_strip_prefix (path_parent_of abs_folder_path) abs_file_path) (FE_StripPrefix abs_file_path))%rust.

(** The walk stops at its first error; directories and links are skipped. *)
Fixpoint walk_files (entries : list (option DirEntry)) : option (list DirEntry) :=
  match entries with
  | [] => Some []
  | None :: _ => None
  | Some entry :: rest => (λ files, if de_is_file entry then entry :: files else files) <$> walk_files rest
  end.

Definition encrypt_entry (dir_path : PathBuf) (is_public : bool) (entry : DirEntry) : CM W FileError EncryptionStream :=
  let! is_file := cm_get (disk_is_file dir_path) in
  let! relative_path := cm_lift (get_relative_file_path_from_abs_file_and_folder_path is_file (de_path entry) dir_path) in
  let! file_size := cm_lift (ok_or (fm_len <$> de_metadata entry) (FE_Size (de_path entry))) in
  encrypt_file relative_path (de_path entry) file_size (metadata_from_entry entry) is_public.

(** [None] is the error of the walk; the results come in the order in which the files are done. *)
Definition encrypt_directory_files (dir_path : PathBuf) (is_public : bool) (w : W) : option (list (result EncryptionStream FileError)) * W :=
  match walk_files (disk_walk dir_path w) with
  | None => (None, w)
  | Some files =>
    let '(results, w) := process_tasks_with_max_concurrency ((λ entry, encrypt_entry dir_path is_public entry) <$> files) w in
    (Some results, w)
  end.
End streams.
