(* ===== verification/ClientChunks.v ===== *)
(** * Chunks of the client

    Models src/autonomi/src/client/data_types/chunk.rs, chunk_cache.rs, put_error_state.rs and
    data_map_restoration.rs: reading a chunk through the cache on the disk or from the network, paying for
    and storing chunks, batches of them with the record of what failed, and fetching what a data map
    stands for. *)

From stdpp Require Import base gmap countable strings list.
From Stdlib Require Import ZArith Lia.
From S2P Require Import Prelude Text Effects Protocol Storage RecordCache RecordStore MerkleTree Payments PutValidation Messages Driver TaskHandler.
From S2P Require Import ClientPayment ClientData Encryption.

(** ** The cache: chunk_cache.rs *)

Section cache.
Context `{Hex, XorNameLib, !Disk W}.

Inductive ChunkCacheError := CacheIo | CacheDirectoryCreation.

Definition CHUNK_CACHE_FOLDER : bytes := text "chunk_cache".

(** [data_dir] is the user's directory for data, if the system has one. *)
Definition default_cache_dir (data_dir : option PathBuf) : result PathBuf ChunkCacheError :=
  (let? cache_dir := ok_or data_dir CacheDirectoryCreation in
   Ok (cache_dir ++ [text "autonomi"; text "client"; CHUNK_CACHE_FOLDER]))%rust.

Definition chunk_file_path (cache_dir : PathBuf) (chunk_addr : ChunkAddress) : PathBuf :=
  cache_dir ++ [hex_encode (chunk_address_xorname chunk_addr) ++ text ".chunk"].

Definition is_chunk_cached (cache_dir : PathBuf) (chunk_addr : ChunkAddress) (w : W) : bool := disk_exists (chunk_file_path cache_dir chunk_addr) w.

#[local] Open Scope cm_scope.

Definition cm_io (op : W → bool * W) (e : ChunkCacheError) : CM W ChunkCacheError () :=
  λ w, let '(ok, w) := op w in (if ok then Ok () else Err e, w).

Definition cache_store_chunk (cache_dir : PathBuf) (chunk_addr : ChunkAddress) (chunk : Chunk) : CM W ChunkCacheError () :=
  let! dir_exists := cm_get (disk_exists cache_dir) in
  let! _ := (if dir_exists : bool then cm_ret () else cm_io (disk_create_dir_all cache_dir) CacheDirectoryCreation) in
  cm_io (disk_write (chunk_file_path cache_dir chunk_addr) (chunk_value chunk)) CacheIo.

Definition load_chunk (cache_dir : PathBuf) (chunk_addr : ChunkAddress) : CM W ChunkCacheError (option Chunk) :=
  let path := chunk_file_path cache_dir chunk_addr in
  let! exists_ := cm_get (disk_exists path) in
  if exists_ : bool then λ w, let '(data, w) := disk_read path w in (Ok (chunk_new <$> data), w) else cm_ret None.

Definition delete_chunk (cache_dir : PathBuf) (chunk_addr : ChunkAddress) : CM W ChunkCacheError () :=
  let path := chunk_file_path cache_dir chunk_addr in
  let! exists_ := cm_get (disk_exists path) in
  if exists_ : bool then cm_io (disk_remove_file path) CacheIo else cm_ret ().

Definition delete_chunks (cache_dir : PathBuf) (chunk_addrs : list ChunkAddress) : CM W ChunkCacheError () :=
  cm_for chunk_addrs (delete_chunk cache_dir).
End cache.

(** ** Errors *)

Section client_chunks.
Context `{XorNameLib, Hex, Bls, Layout, Kad, RmpHeader, Libp2pIdentity, Digests, HashOrder, SelfEncryption}.
Context `{!BodySerde, !Serde DataMap, !Serde DataMapLevel}.

(** [ChunkBatchUploadState]; an error is its text. *)
Record ChunkBatchUploadState := {
  bu_successful : list ChunkAddress;
  bu_failed : list (ChunkAddress * bytes);
  bu_payment : option Receipt;
}.

(** The variants of [PutError] of these operations, the network's being ClientData's [PutError]. *)
Inductive ChunkPutError :=
  | CPE_SelfEncryption (e : EncryptionError)
  | CPE_CostError (e : CostError)
  | CPE_PayError (e : PayError)
  | CPE_Serialization
  | CPE_PayeesMissing
  | CPE_Network (e : PutError)
  | CPE_Batch (state : ChunkBatchUploadState).

(** The variants of [GetError] of these operations. *)
Inductive ChunkGetError :=
  | CGE_InvalidDataMap
  | CGE_Decryption (e : SeError)
  | CGE_Deserialization
  | CGE_Network (e : ClientError)
  | CGE_Protocol (e : ProtocolError)
  | CGE_RecordNotFound
  | CGE_RecordKindMismatch (kind : RecordKind)
  | CGE_Configuration
  | CGE_TooLargeForMemory (data_map : DataMap).

(** The texts of errors. *)
Class PutErrorText := {
  network_error_text : ClientError → bytes;
  chunk_put_error_text : ChunkPutError → bytes;
  fetch_error_text : ChunkAddress → ChunkGetError → bytes;
}.

Context `{!PutErrorText}.

Definition batch_state_default : ChunkBatchUploadState := {| bu_successful := []; bu_failed := []; bu_payment := None |}.

(** [push_error]: a network failure is recorded under the address it names, with its receipt; one that names no chunk
    is dropped. *)
Definition push_error (self : ChunkBatchUploadState) (address : ChunkAddress) (err : ChunkPutError) : ChunkBatchUploadState :=
  match err with
  | CPE_Network e =>
    match pe_address e with
    | NA_ChunkAddress chunk_addr =>
      {| bu_successful := bu_successful self;
         bu_failed := bu_failed self ++ [(chunk_addr, network_error_text (pe_network_error e))];
         bu_payment := match bu_payment self with
                       | Some ours => Some (default ∅ (pe_payment e) ∪ ours)
                       | None => pe_payment e
                       end |}
    | _ => self
    end
  | err => {| bu_successful := bu_successful self; bu_failed := bu_failed self ++ [(address, chunk_put_error_text err)]; bu_payment := bu_payment self |}
  end.

(** ** The client *)

(** [Client] and the parts of [ClientOperatingStrategy] used here. *)
Record Client := {
  cl_events_enabled : bool;
  cl_evm_network : bytes;
  cl_chunk_cache_enabled : bool;
  cl_chunk_cache_dir : option PathBuf;
  cl_retry_failed : nat;
  cl_payment_mode : PaymentMode;
}.

Context `{!ClientWorld W, !Disk W, !Scheduler W}.
Context (self : Client) (data_dir : option PathBuf).

#[local] Open Scope cm_scope.

Definition get_chunk_cache_dir : result PathBuf ChunkGetError :=
  match cl_chunk_cache_dir self with
  | Some dir => Ok dir
  | None => map_err (λ _, CGE_Configuration) (default_cache_dir data_dir)
  end.

Definition try_load_chunk_from_cache (addr : ChunkAddress) : CM W ChunkGetError (option Chunk) :=
  if negb (cl_chunk_cache_enabled self) then cm_ret None
  else
    let! cache_dir := cm_lift get_chunk_cache_dir in
    let! cached := cm_get (is_chunk_cached cache_dir addr) in
    if cached : bool then
      let! loaded := cm_try (load_chunk cache_dir addr) in
      cm_ret match loaded with Ok (Some cached_chunk) => Some cached_chunk | _ => None end
    else cm_ret None.

(** A failure to write the cache is only logged. *)
Definition try_cache_chunk (addr : ChunkAddress) (chunk : Chunk) : CM W ChunkGetError () :=
  if cl_chunk_cache_enabled self then
    let! cache_dir := cm_lift get_chunk_cache_dir in
    let! _ := cm_try (cache_store_chunk cache_dir addr chunk) in
    cm_ret ()
  else cm_ret ().

Definition cleanup_cached_chunks (chunk_addrs : list ChunkAddress) : CM W ChunkGetError () :=
  if cl_chunk_cache_enabled self then
    match get_chunk_cache_dir with
    | Ok cache_dir => let! _ := cm_try (delete_chunks cache_dir chunk_addrs) in cm_ret ()
    | Err _ => cm_ret ()
    end
  else cm_ret ().

(** ** Reading: chunk.rs *)

Definition chunk_from_record (record : KadRecord) : result Chunk ChunkGetError :=
  (let? is_chunk := map_err CGE_Protocol (is_record_of_type_chunk record) in
   if is_chunk : bool then map_err CGE_Protocol (try_deserialize_record record)
   else Err (CGE_RecordKindMismatch (DataOnly Chunk_t)))%rust.

Definition fetch_chunk_from_network (addr : ChunkAddress) : CM W ChunkGetError Chunk :=
  let key := NA_ChunkAddress addr in
  let! answer := cm_map_err CGE_Network (net_get_record_with_retries Chunk_t key) in
  let! records := cm_lift (ok_or answer CGE_RecordNotFound) in
  let! record := cm_lift (ok_or (head records) CGE_RecordNotFound) in
  cm_lift (chunk_from_record record).

Definition chunk_get (addr : ChunkAddress) : CM W ChunkGetError Chunk :=
  let! cached := try_load_chunk_from_cache addr in
  match cached with
  | Some cached_chunk => cm_ret cached_chunk
  | None =>
    let! chunk := fetch_chunk_from_network addr in
    let! _ := try_cache_chunk addr chunk in
    cm_ret chunk
  end.

(** ** Storing *)

(** The price is that of the receipt; a chunk that is not in it was paid before. *)
Definition chunk_put (chunk : Chunk) (payment_option : PaymentOption) : CM W ChunkPutError (Z * ChunkAddress) :=
  let address := chunk_network_address chunk in
  if chunk_is_too_big chunk then cm_err CPE_Serialization
  else
    let xor_name := chunk_name chunk in
    let! paid := cm_map_err CPE_PayError
                   (pay_for_content_addrs (cl_payment_mode self) (cl_evm_network self) Chunk_t [(xor_name, chunk_size chunk)] payment_option) in
    let payment_proofs := paid.1 in
    match payment_proofs !! xor_name with
    | None => cm_ret (0, chunk_address chunk)
    | Some (proof, price) =>
      let! value := cm_lift (map_err (λ _, CPE_Serialization)
                               (try_serialize_record (to_proof_of_payment proof, chunk) (DataWithPayment Chunk_t))) in
      let! _ := cm_map_err (λ e, CPE_Network (put_failed address (Some payment_proofs) e))
                  (net_put_record_with_retries Chunk_t (record_of address value) (payee_infos proof)) in
      cm_ret (price, chunk_address chunk)
    end.

Definition chunk_cost (addr : ChunkAddress) : CM W CostError Z :=
  let! store_quote := get_store_quotes (cl_payment_mode self) Chunk_t [(chunk_address_xorname addr, CHUNK_MAX_SIZE)] in
  cm_ret (store_quote_price store_quote).

Definition chunk_upload_with_payment (chunk : Chunk) (payment : ClientProofOfPayment) (price : Z) : CM W ChunkPutError ChunkAddress :=
  let storing_nodes := payee_infos payment in
  if decide (storing_nodes = []) then cm_err CPE_PayeesMissing
  else
    let! value := cm_lift (map_err (λ _, CPE_Serialization)
                             (try_serialize_record (to_proof_of_payment payment, chunk) (DataWithPayment Chunk_t))) in
    let! _ := cm_map_err (λ e, CPE_Network (put_failed (chunk_network_address chunk) (Some {[chunk_name chunk := (payment, price)]}) e))
                (net_put_record_with_retries Chunk_t (record_of (chunk_network_address chunk) value) storing_nodes) in
    cm_ret (chunk_address chunk).

(** The chunks with a receipt; the others are taken to be stored. *)
Definition upload_tasks (chunks : list Chunk) (receipt : Receipt) : list (W → result ChunkAddress (Chunk * ChunkPutError) * W) :=
  omap (λ chunk, (λ '(proof, price), cm_map_err (λ e, (chunk, e)) (chunk_upload_with_payment chunk proof price)) <$> receipt !! chunk_name chunk) chunks.

Definition push_upload (state : ChunkBatchUploadState) (res : result ChunkAddress (Chunk * ChunkPutError)) : ChunkBatchUploadState :=
  match res with
  | Ok addr => {| bu_successful := bu_successful state ++ [addr]; bu_failed := bu_failed state; bu_payment := bu_payment state |}
  | Err (chunk, err) => push_error state (chunk_address chunk) err
  end.

Definition is_err {A E} (r : result A E) : bool := match r with Err _ => true | Ok _ => false end.

Definition chunk_batch_upload (chunks : list Chunk) (receipt : Receipt) : CM W ChunkPutError () :=
  let! uploads := (λ w, let '(rs, w) := process_tasks_with_max_concurrency (upload_tasks chunks receipt) w in (Ok rs, w)) in
  if existsb is_err uploads then cm_err (CPE_Batch (foldl push_upload batch_state_default uploads))
  else cm_ret ().

(** ** Data maps *)

Definition chunk_addrs_of (data_map : DataMap) : list ChunkAddress := (λ info, mkChunkAddress (ci_dst_hash info)) <$> se_infos data_map.

(** The chunks are decrypted in the order in which they arrive; the cached ones are deleted after that. *)
Definition fetch_from_data_map (data_map : DataMap) : CM W ChunkGetError bytes :=
  let chunk_addrs := chunk_addrs_of data_map in
  let! results := (λ w, let '(rs, w) := process_tasks_with_max_concurrency (chunk_get <$> chunk_addrs) w in (Ok rs, w)) in
  let! chunks := cm_lift (collect results) in
  let! data := cm_lift (map_err CGE_Decryption (se_decrypt data_map (chunk_value <$> chunks))) in
  let! _ := cleanup_cached_chunks chunk_addrs in
  cm_ret data.

(** ** Restoration: data_map_restoration.rs *)

(** The closure given to the crate: a chunk's value by its name. *)
Definition chunk_fetcher (xor_name : bytes) : CM W SeError bytes :=
  let chunk_addr := mkChunkAddress xor_name in
  let! chunk := cm_map_err (λ e, se_generic (fetch_error_text chunk_addr e)) (chunk_get chunk_addr) in
  let! _ := cm_map_err (λ e, se_generic (fetch_error_text chunk_addr e)) (cleanup_cached_chunks [chunk_addr]) in
  cm_ret (chunk_value chunk).

Definition fetch_new_data_map (data_map : DataMap) : CM W ChunkGetError DataMap :=
  cm_map_err CGE_Decryption (se_get_root_data_map data_map chunk_fetcher).

Definition deserialize_data_map (data_map_bytes : bytes) : result DataMap ChunkGetError :=
  match rmp_from_slice (T := DataMap) data_map_bytes with
  | Some data_map => Ok data_map
  | None =>
    (let? data_map_level := ok_or (rmp_from_slice (T := DataMapLevel) data_map_bytes) CGE_InvalidDataMap in
     let '(old_data_map, child) := match data_map_level with DML_First map => (map, None) | DML_Additional map => (map, Some 0) end in
     Ok {| dm_chunk_identifiers := (λ ck_info, {| ci_index := ci_index ck_info; ci_dst_hash := ci_dst_hash ck_info;
                                                  ci_src_hash := ci_src_hash ck_info; ci_src_size := ci_src_size ck_info |}) <$> old_infos old_data_map;
           dm_child := child |})%rust
  end.

Definition without_child (data_map : DataMap) : DataMap := {| dm_chunk_identifiers := dm_chunk_identifiers data_map; dm_child := None |}.

(** The loop over the levels of older data maps, with fuel; [None] when it is used up. *)
Fixpoint restore_levels (fuel : nat) (data_map_bytes : bytes) : CM W ChunkGetError (option DataMap) :=
  match fuel with
  | O => cm_ret None
  | S fuel =>
    match deserialize_data_map data_map_bytes with
    | Err _ => cm_err CGE_Configuration
    | Ok data_map =>
      if se_is_child data_map then
        let! data_map_bytes := fetch_from_data_map (without_child data_map) in
        restore_levels fuel data_map_bytes
      else cm_ret (Some data_map)
    end
  end.

Definition restore_data_map_from_chunk (fuel : nat) (data_map_chunk : DataMapChunk) : CM W ChunkGetError (option DataMap) :=
  match rmp_from_slice (T := DataMap) (chunk_value data_map_chunk) with
  | Some data_map => let! file_data_map := fetch_new_data_map data_map in cm_ret (Some file_data_map)
  | None => restore_levels fuel (chunk_value data_map_chunk)
  end.

(** ** Data in memory: high_level/data *)

Context (MAX_IN_MEMORY_DOWNLOAD_SIZE : nat).

Definition data_get (fuel : nat) (data_map : DataMapChunk) : CM W ChunkGetError (option bytes) :=
  let! restored := restore_data_map_from_chunk fuel data_map in
  match restored with
  | None => cm_ret None
  | Some datamap =>
    if (MAX_IN_MEMORY_DOWNLOAD_SIZE <? length (se_infos datamap))%nat then cm_err (CGE_TooLargeForMemory datamap)
    else let! data := fetch_from_data_map (without_child datamap) in cm_ret (Some data)
  end.

Definition data_get_public (fuel : nat) (addr : bytes) : CM W ChunkGetError (option bytes) :=
  let! datamap_chunk := chunk_get (mkChunkAddress addr) in
  data_get fuel datamap_chunk.

(** The data map's address comes first. *)
Definition get_content_addrs (data : bytes) : result (list (bytes * Z)) CostError :=
  (let? dc := map_err (λ _ : EncryptionError, CostSelfEncryption) (encrypt data) in
   Ok ((chunk_name dc.1, chunk_size dc.1) :: ((λ chunk, (chunk_name chunk, chunk_size chunk)) <$> dc.2)))%rust.

Definition get_cost_estimation (content_addrs : list (bytes * Z)) : CM W CostError Z :=
  let! store_quote := get_store_quotes (cl_payment_mode self) Chunk_t content_addrs in
  cm_ret (store_quote_price store_quote).

Definition data_cost (data : bytes) : CM W CostError Z :=
  let! content_addrs := cm_lift (get_content_addrs data) in
  get_cost_estimation content_addrs.

(** [fetch_chunks_parallel] of files/mod.rs, for streams and downloads. *)
Definition fetch_chunks_parallel (chunk_addresses : list (nat * ChunkAddress)) : CM W SeError (list (nat * bytes)) :=
  let! results := (λ w, let '(rs, w) := process_tasks_with_max_concurrency
      ((λ '(i, addr) w, let '(r, w) := chunk_get addr w in
         (match r with Ok chunk => Ok (i, chunk_value chunk) | Err e => Err (se_generic (fetch_error_text addr e)) end, w)) <$> chunk_addresses) w in (Ok rs, w)) in
  cm_lift (collect results).
End client_chunks.
