(* ===== verification/ClientUpload.v ===== *)
(** * Uploads of the client

    Models src/autonomi/src/client/high_level/data/helpers.rs and the puts of private.rs and public.rs:
    the flow that draws batches of chunks from encryption streams, pays for each batch and uploads it,
    and retries what failed within a number of attempts. The loop takes fuel; ClientUploadProps proves how
    much is enough. *)

From stdpp Require Import base gmap countable strings list.
From Stdlib Require Import ZArith Lia.
From S2P Require Import Prelude Text Effects Protocol Storage RecordCache RecordStore MerkleTree Payments PutValidation Messages Driver TaskHandler.
From S2P Require Import ClientPayment ClientData Encryption ClientChunks.

(** The receipt of batch payments: merkle_payments/payments.rs. *)
Record MerklePaymentReceipt := {
  mr_proofs : gmap bytes MerklePaymentProof;
  mr_file_chunk_counts : gmap bytes nat;
  mr_amount_paid : Z;
  mr_already_existed : gset bytes;
  mr_uploaded : gset bytes;
}.

Definition merkle_receipt_default : MerklePaymentReceipt :=
  {| mr_proofs := ∅; mr_file_chunk_counts := ∅; mr_amount_paid := 0; mr_already_existed := ∅; mr_uploaded := ∅ |}.

Record UploadSummary := { us_records_paid : nat; us_records_already_paid : nat; us_tokens_spent : Z }.

Inductive ClientEvent :=
  | CE_UploadComplete (summary : UploadSummary)
  | CE_MerkleBatchPaymentComplete (receipt : MerklePaymentReceipt)
  | CE_RegularBatchPaymentComplete (receipt : Receipt).

(** The channel of the client's events, and pauses. *)
Class UploadWorld (W : Type) := {
  client_event : ClientEvent → W → W;
  client_pause : Z → W → W;
}.

Definition UPLOAD_RETRY_PAUSE_SECS : Z := 60.

Section uploads.
Context `{XorNameLib, Hex, Bls, Layout, Kad, RmpHeader, Libp2pIdentity, Digests, HashOrder, SelfEncryption}.
Context `{!BodySerde, !Serde DataMap, !Serde DataMapLevel, !PutErrorText}.
Context `{!ClientWorld W, !Disk W, !Scheduler W, !UploadWorld W}.
Context (self : Client) (UPLOAD_FLOW_BATCH_SIZE : nat).

(** ** Events *)

Definition send_event (event : ClientEvent) (w : W) : W := if cl_events_enabled self then client_event event w else w.

Definition send_upload_complete (records_paid records_already_paid : nat) (tokens_spent : Z) : W → W :=
  send_event (CE_UploadComplete {| us_records_paid := records_paid; us_records_already_paid := records_already_paid; us_tokens_spent := tokens_spent |}).

Definition send_merkle_batch_payment_complete (receipt : MerklePaymentReceipt) : W → W := send_event (CE_MerkleBatchPaymentComplete receipt).
Definition send_regular_batch_payment_complete (receipt : Receipt) : W → W := send_event (CE_RegularBatchPaymentComplete receipt).

(** The costs of all receipts. *)
Definition calculate_total_cost (total_chunks : nat) (payment_receipts : list Receipt) (total_free_chunks : nat) (w : W) : Z * W :=
  let total_tokens := amount_sum (mjoin ((λ receipt, (hm_iter receipt).*2.*2) <$> payment_receipts)) in
  (total_tokens, send_upload_complete (total_chunks - total_free_chunks) total_free_chunks total_tokens w).

(** ** A batch: quote, pay, upload *)

(** A chunk with its file, index and the estimate of the total, for messages. *)
Definition AggregatedChunks : Type := list (bytes * nat * nat * Chunk).

Definition insufficient_tokens (e : PayError) : bool := match e with PayWalletError (InsufficientTokensForQuotes _ _) => true | _ => false end.

Definition is_wallet (o : PaymentOption) : bool := match o with PO_Wallet _ => true | PO_Receipt _ => false end.

(** What of a batch is tried again after an upload. *)
Definition retry_after (batch : AggregatedChunks) (state : ChunkBatchUploadState) : AggregatedChunks :=
  filter (λ x, chunk_address x.2 ∈ (bu_failed state).*1) batch.

Definition process_chunk_batch (batch : AggregatedChunks) (payment_option : PaymentOption) (retry_on_failure : bool) (w : W)
    : (AggregatedChunks * list Receipt * nat * option ChunkPutError) * W :=
  let payment_info := (λ x : bytes * nat * nat * Chunk, (chunk_name x.2, chunk_size x.2)) <$> batch in
  match pay_for_content_addrs (cl_payment_mode self) (cl_evm_network self) Chunk_t payment_info payment_option w with
  | (Err err, w) =>
    if insufficient_tokens err then (([], [], 0%nat, Some (CPE_PayError err)), w)
    else if retry_on_failure then ((batch, [], 0%nat, None), w)
    else (([], [], 0%nat, Some (CPE_PayError err)), w)
  | (Ok (receipt, free_chunks), w) =>
    let w := if is_wallet payment_option && negb (bool_decide (receipt = ∅)) then send_regular_batch_payment_complete receipt w else w in
    let '(res, w) := chunk_batch_upload (batch.*2) receipt w in
    let '(retry_chunks, put_error) :=
      match res with
      | Ok () => ([], None)
      | Err err =>
        if retry_on_failure then
          match err with CPE_Batch upload_state => (retry_after batch upload_state, None) | _ => ([], Some err) end
        else ([], Some err)
      end in
    ((retry_chunks, [receipt], free_chunks, put_error), w)
  end.

(** ** A file *)

(** What the loop changes. *)
Record UploadLoop := {
  ul_file : EncryptionStream;
  ul_processed_chunks : nat;
  ul_total_free_chunks : nat;
  ul_receipts : list Receipt;
  ul_retry_on_failure : bool;
  ul_attempted_uploads : nat;
  ul_current_batch : AggregatedChunks;
}.

(** The batch is filled up from the stream. *)
Definition fill_batch (est_total_todo : nat) (s : UploadLoop) : UploadLoop :=
  let '(next, file) := next_batch (ul_file s) (UPLOAD_FLOW_BATCH_SIZE - length (ul_current_batch s)) in
  match next with
  | Some next_batch =>
    {| ul_file := file; ul_processed_chunks := (ul_processed_chunks s + length next_batch)%nat; ul_total_free_chunks := ul_total_free_chunks s;
       ul_receipts := ul_receipts s; ul_retry_on_failure := ul_retry_on_failure s; ul_attempted_uploads := ul_attempted_uploads s;
       ul_current_batch := ul_current_batch s ++
         imap (λ i chunk, (es_file_path file, (ul_processed_chunks s + i)%nat, est_total_todo, chunk)) next_batch |}
  | None =>
    {| ul_file := file; ul_processed_chunks := ul_processed_chunks s; ul_total_free_chunks := ul_total_free_chunks s;
       ul_receipts := ul_receipts s; ul_retry_on_failure := ul_retry_on_failure s; ul_attempted_uploads := ul_attempted_uploads s;
       ul_current_batch := ul_current_batch s |}
  end.

Definition allowed_attempts (est_total_todo : nat) : nat := (est_total_todo + Nat.max 20 (est_total_todo * cl_retry_failed self))%nat.

(** A turn of the loop with a batch that is not empty. *)
Definition upload_turn (est_total_todo : nat) (payment_option : PaymentOption) (s : UploadLoop) : CM W ChunkPutError UploadLoop :=
  λ w,
  let attempted_uploads := (ul_attempted_uploads s + length (ul_current_batch s))%nat in
  let '((retry_chunks, receipt, free_chunks_count, put_error), w) :=
    process_chunk_batch (ul_current_batch s) payment_option (ul_retry_on_failure s) w in
  match put_error with
  | Some err => (Err err, w)
  | None =>
    let exhausted := (allowed_attempts est_total_todo <? attempted_uploads)%nat in
    let failed := negb (bool_decide (retry_chunks = [])) in
    (Ok {| ul_file := ul_file s; ul_processed_chunks := ul_processed_chunks s;
           ul_total_free_chunks := (ul_total_free_chunks s + free_chunks_count)%nat; ul_receipts := ul_receipts s ++ receipt;
           ul_retry_on_failure := if failed && exhausted then false else ul_retry_on_failure s;
           ul_attempted_uploads := attempted_uploads; ul_current_batch := retry_chunks |},
     if failed then client_pause UPLOAD_RETRY_PAUSE_SECS w else w)
  end.

#[local] Open Scope cm_scope.

(** The loop, with fuel; [None] when it is used up. *)
Fixpoint upload_loop (fuel : nat) (est_total_todo : nat) (payment_option : PaymentOption) (s : UploadLoop) : CM W ChunkPutError (option UploadLoop) :=
  match fuel with
  | O => cm_ret None
  | S fuel =>
    let s := fill_batch est_total_todo s in
    if decide (ul_current_batch s = []) then cm_ret (Some s)
    else
      let! s := upload_turn est_total_todo payment_option s in
      upload_loop fuel est_total_todo payment_option s
  end.

Definition upload_start (file : EncryptionStream) : UploadLoop :=
  {| ul_file := file; ul_processed_chunks := 0; ul_total_free_chunks := 0; ul_receipts := []; ul_retry_on_failure := true;
     ul_attempted_uploads := 0; ul_current_batch := [] |}.

(** The counts, the receipts and the stream after it. *)
Definition pay_and_upload_file (fuel : nat) (payment_option : PaymentOption) (file : EncryptionStream)
    : CM W ChunkPutError (option (nat * nat * list Receipt * EncryptionStream)) :=
  let! s := upload_loop fuel (total_chunks file) payment_option (upload_start file) in
  cm_ret ((λ s, (ul_processed_chunks s, ul_total_free_chunks s, ul_receipts s, ul_file s)) <$> s).

(** ** All files *)

Fixpoint upload_files (fuel : nat) (payment_option : PaymentOption) (streams : list EncryptionStream) (acc : nat * nat * list Receipt)
    : CM W ChunkPutError (option (nat * nat * list Receipt * list EncryptionStream)) :=
  match streams with
  | [] => cm_ret (Some (acc, []))
  | stream :: rest =>
    let! done := pay_and_upload_file fuel payment_option stream in
    match done with
    | None => cm_ret None
    | Some (processed_chunks, free_chunks, receipt, stream) =>
      let! more := upload_files fuel payment_option rest ((acc.1.1 + processed_chunks)%nat, (acc.1.2 + free_chunks)%nat, acc.2 ++ receipt) in
      cm_ret ((λ m : nat * nat * list Receipt * list EncryptionStream, (m.1, stream :: m.2)) <$> more)
    end
  end.

(** The cost and the streams after it. *)
Definition pay_and_upload (fuel : nat) (payment_option : PaymentOption) (encryption_streams : list EncryptionStream)
    : CM W ChunkPutError (option (Z * list EncryptionStream)) :=
  let! done := upload_files fuel payment_option encryption_streams (0%nat, 0%nat, []) in
  match done with
  | None => cm_ret None
  | Some (total_chunks, total_free_chunks, receipts, streams) =>
    λ w, let '(cost, w) := calculate_total_cost total_chunks receipts total_free_chunks w in (Ok (Some (cost, streams)), w)
  end.

(** ** Data in memory *)

Definition data_put_internal (fuel : nat) (data : bytes) (payment_option : PaymentOption) (is_public : bool)
    : CM W ChunkPutError (option (Z * DataMapChunk)) :=
  let! now := cm_get disk_now in
  let! sd := cm_lift (map_err CPE_SelfEncryption (new_in_memory now data is_public)) in
  let! done := pay_and_upload fuel payment_option [sd.1] in
  cm_ret ((λ d : Z * list EncryptionStream, (d.1, sd.2)) <$> done).

Definition data_put (fuel : nat) (data : bytes) (payment_option : PaymentOption) : CM W ChunkPutError (option (Z * DataMapChunk)) :=
  data_put_internal fuel data payment_option false.

Definition data_put_public (fuel : nat) (data : bytes) (payment_option : PaymentOption) : CM W ChunkPutError (option (Z * bytes)) :=
  let! done := data_put_internal fuel data payment_option true in
  cm_ret ((λ d : Z * DataMapChunk, (d.1, chunk_name d.2)) <$> done).
End uploads.
