(* ===== verification/ClientUploadProps.v ===== *)
(** * Properties of the client's uploads

    Of src/autonomi/src/client/high_level/data/helpers.rs and data_types/chunk.rs: an upload ends, one that
    reports success has stored every chunk of its stream, and what a client reads back. What a network
    promises is the interface [ChunkNetworkLaws], under which requests may fail at any time. *)

From stdpp Require Import base gmap countable strings list.
From Stdlib Require Import ZArith Lia.
From S2P Require Import Prelude Text Effects Protocol Storage RecordCache RecordStore MerkleTree MerkleTreeProps Payments PaymentsProps.
From S2P Require Import PutValidation PutValidationFacts PutValidationProps Messages Driver TaskHandler.
From S2P Require Import ClientPayment ClientData ClientExamples ClientPaymentProps ClientDataProps Encryption ClientChunks ClientUpload.

(** ** What the network promises *)

Section network.
Context `{XorNameLib, Hex, Bls, Layout, Kad, RmpHeader, Libp2pIdentity, Digests, HashOrder}.
Context `{!BodySerde}.

(** Which chunks are stored, and the steps in which what is stored stays. *)
Class ChunkNetwork (W : Type) := {
  net_holds : W → Chunk → Prop;
  net_grows :: SqSubsetEq W;
}.

(** Nothing the client does loses a chunk; a put that succeeds stores its chunk; only a stored chunk is without
    quotes; every task runs; the contract prices all metrics. *)
Class ChunkNetworkLaws (W : Type) `{!ClientWorld W, !Scheduler W, !UploadWorld W, !ChunkNetwork W} : Prop := {
  net_preorder :: PreOrder (⊑@{W});
  holds_mono (w w' : W) c : w ⊑ w' → net_holds w c → net_holds w' c;
  grows_put t r targets (w : W) : w ⊑ (net_put_record_with_retries t r targets w).2;
  grows_get t a (w : W) : w ⊑ (net_get_record_with_retries t a w).2;
  grows_quotes a i s (w : W) : w ⊑ (net_get_quotes_with_retries a i s w).2;
  grows_prices m (w : W) : w ⊑ (evm_get_market_price m w).2;
  grows_pay p (w : W) : w ⊑ (evm_pay_for_quotes p w).2;
  grows_completion n (w : W) : w ⊑ (task_completion n w).2;
  grows_event e (w : W) : w ⊑ client_event e w;
  grows_pause s (w : W) : w ⊑ client_pause s w;
  completion_all n (w : W) : (task_completion n w).1 ≡ₚ seq 0 n;
  put_holds (c : Chunk) (payment : ProofOfPayment) v targets (w w' : W) :
    try_serialize_record (payment, c) (DataWithPayment Chunk_t) = Ok v →
    net_put_record_with_retries Chunk_t (record_of (chunk_network_address c) v) targets w = (Ok tt, w') → net_holds w' c;
  quotes_none (c : Chunk) i s (w w' : W) : net_get_quotes_with_retries (chunk_name c) i s w = (Ok None, w') → net_holds w' c;
  quotes_some a i s qs (w w' : W) : net_get_quotes_with_retries a i s w = (Ok (Some qs), w') → ∃ q, q ∈ qs ∧ is_Some (quote_peer_id q.2);
  prices_all m ps (w w' : W) : evm_get_market_price m w = (Some ps, w') → length ps = length m;
}.
End network.

(** ** Streams *)

Section stream_facts.
Context `{XorNameLib}.

(** The chunks a stream has still to give. *)
Definition stream_chunks (s : EncryptionStream) : list Chunk :=
  match es_state s with
  | ES_InMemory chunks _ => chunks
  | ES_StreamInProgress p => sp_chunk_receiver p ++ (if es_is_public s then option_list (sp_datamap_receiver p) else [])
  | ES_StreamDone _ _ => []
  end.

(** A batch is taken off the front, is not larger than asked for, and is missing only at the end. *)
Lemma next_batch_spec s n o s' :
  next_batch s n = (o, s') → stream_chunks s = default [] o ++ stream_chunks s' ∧ (length (default [] o) ≤ n)%nat ∧
  ((0 < n)%nat → default [] o = [] → stream_chunks s' = []) ∧ (o = Some [] → n = 0%nat).
Proof.
  unfold next_batch. destruct (decide (n = 0%nat)) as [->|Hn]; [intros [= <- <-]; simpl; split_and!; [done|lia|lia|done]|].
  unfold stream_chunks. destruct (es_state s) as [chunks d|p|d k] eqn:Es.
  - destruct (decide (take n chunks = [])) as [Ht|Ht]; intros [= <- <-]; simpl.
    + rewrite Es. assert (chunks = []) as -> by (destruct chunks, n; done). split_and!; [done|lia|done|done].
    + rewrite take_drop, length_take. split_and!; [done|lia|intros; congruence|intros; congruence].
  - unfold next_stream_batch. set (l := sp_chunk_receiver p).
    assert ((length l < n)%nat → take n l = l ∧ drop n l = []) as Hshort by (intros; split; [apply take_ge|apply drop_ge]; lia).
    destruct (Nat.ltb_spec (length l) n) as [Hlt|Hge].
    + destruct (Hshort Hlt) as [Ht Hd]. rewrite Ht.
      destruct (sp_datamap_receiver p) as [dm|] eqn:Edm; [destruct (es_is_public s) eqn:Epub|].
      * destruct (decide _) as [E|E]; [by destruct l|]. intros [= <- <-]. simpl. rewrite app_nil_r, length_app. simpl.
        split_and!; [done|lia|intros; congruence|intros; congruence].
      * destruct (decide _) as [E|E]; intros [= <- <-]; simpl; rewrite ?E, ?app_nil_r; split_and!; simpl; try done; try lia; intros; congruence.
      * destruct (decide _) as [E|E]; intros [= <- <-]; simpl; rewrite ?Hd, ?E, ?Edm; split_and!; simpl; try done; try lia;
          try (by destruct (es_is_public s)); intros; congruence.
    + destruct (decide _) as [E|E]; intros [= <- <-]; simpl.
      * assert (l = []) as Hl by (destruct l, n; done). rewrite Hl in Hge. simpl in Hge. lia.
      * rewrite app_assoc, take_drop, length_take. split_and!; [done|lia|intros; congruence|intros; congruence].
  - intros [= <- <-]. simpl. rewrite Es. split_and!; [done|lia|done|done].
Qed.
End stream_facts.

(** ** Tasks *)

Section tasks.
Context {W : Type} `{!Scheduler W, SqSubsetEq W, !PreOrder (⊑@{W})}.

Lemma run_tasks_spec {X R} (g : X → W → R * W) (Q : X → R → W → Prop) items w rs w' :
  (∀ x w, x ∈ items → w ⊑ (g x w).2 ∧ Q x (g x w).1 (g x w).2) → (∀ x r w w', w ⊑ w' → Q x r w → Q x r w') →
  run_tasks (g <$> items) w = (rs, w') → w ⊑ w' ∧ Forall2 (λ x r, Q x r w') items rs.
Proof.
  intros Hg HQ. revert w rs. induction items as [|x items IH]; intros w rs; [by intros [= <- <-]|].
  rewrite fmap_cons. cbn [run_tasks]. destruct (g x w) as [r w1] eqn:Egx. destruct (run_tasks (g <$> items) w1) as [rs2 w2] eqn:Er. intros [= <- <-].
  destruct (Hg x w) as [Hle Hq]; [left|]. rewrite Egx in Hle, Hq. simpl in *.
  destruct (IH (λ y w Hy, Hg y w (list_elem_of_further _ _ _ Hy)) w1 rs2 Er) as [Hle2 HF].
  split; [by etrans|]. constructor; [|done]. by eapply HQ.
Qed.

Lemma select_all {A} (l : list A) order : order ≡ₚ seq 0 (length l) → omap (λ i, l !! i) order ≡ₚ l.
Proof.
  intros ->. assert (∀ (a : A) (l : list A) (k : list nat), omap (λ i, (a :: l) !! i) (S <$> k) = omap (λ i, l !! i) k) as Hshift.
  { intros a l' k. symmetry. apply list_omap_ext, Forall2_fmap_r, Forall_Forall2_diag, Forall_true. done. }
  assert (omap (λ i, l !! i) (seq 0 (length l)) = l) as Hl; [|by rewrite Hl].
  induction l as [|a l IH]; [done|]. transitivity (a :: omap (λ i, (a :: l) !! i) (seq 1 (length l))); [done|]. f_equal. by rewrite <- fmap_S_seq, Hshift.
Qed.

(** Every task has its result, and every result a task. *)
Lemma process_tasks_spec {X R} (g : X → W → R * W) (Q : X → R → W → Prop) items w rs w' :
  (∀ n w, w ⊑ (task_completion n w).2 ∧ (task_completion n w).1 ≡ₚ seq 0 n) →
  (∀ x w, x ∈ items → w ⊑ (g x w).2 ∧ Q x (g x w).1 (g x w).2) → (∀ x r w w', w ⊑ w' → Q x r w → Q x r w') →
  process_tasks_with_max_concurrency (g <$> items) w = (rs, w') → ∃ items', items' ≡ₚ items ∧ w ⊑ w' ∧ Forall2 (λ x r, Q x r w') items' rs.
Proof.
  intros Hsched Hg HQ. unfold process_tasks_with_max_concurrency. destruct (Hsched (length (g <$> items)) w) as [Hle Hall].
  destruct (task_completion _ w) as [order w1]. simpl in *. rewrite length_fmap in Hall.
  assert (omap (λ i, (g <$> items) !! i) order = g <$> omap (λ i, items !! i) order) as ->.
  { rewrite list_fmap_omap. apply list_omap_ext, Forall_Forall2_diag, Forall_forall. intros i _. apply list_lookup_fmap. }
  pose proof (select_all items order Hall) as Hsel. intros Hrun. exists (omap (λ i, items !! i) order). split; [done|].
  destruct (run_tasks_spec g Q (omap (λ i, items !! i) order) w1 rs w') as [Hle' HF]; [|done..|by split; [etrans|]]. intros x w2. rewrite Hsel. apply Hg.
Qed.
End tasks.

(** ** The loop *)

Section loop.
Context `{XorNameLib, Hex, Bls, Layout, Kad, RmpHeader, Libp2pIdentity, Digests, HashOrder, SelfEncryption}.
Context `{!BodySerde, !Serde DataMap, !Serde DataMapLevel, !PutErrorText}.
Context `{!ClientWorld W, !Disk W, !Scheduler W, !UploadWorld W}.
Context (self : Client) (UPLOAD_FLOW_BATCH_SIZE : nat).

Implicit Types (w : W) (po : PaymentOption).

Abbreviation fill := (fill_batch UPLOAD_FLOW_BATCH_SIZE).
Abbreviation turn := (upload_turn self).
Abbreviation uploads := (upload_loop self UPLOAD_FLOW_BATCH_SIZE).

(** What a turn has still to do. *)
Definition todo (s : UploadLoop) : list Chunk := (ul_current_batch s).*2 ++ stream_chunks (ul_file s).

Lemma fill_batch_spec est s :
  (length (ul_current_batch s) ≤ UPLOAD_FLOW_BATCH_SIZE)%nat →
  todo (fill est s) = todo s ∧ (length (ul_current_batch (fill est s)) ≤ UPLOAD_FLOW_BATCH_SIZE)%nat ∧
  ((0 < UPLOAD_FLOW_BATCH_SIZE)%nat → ul_current_batch (fill est s) = [] → stream_chunks (ul_file (fill est s)) = []) ∧
  (length (stream_chunks (ul_file (fill est s))) + length (ul_current_batch (fill est s)) =
   length (stream_chunks (ul_file s)) + length (ul_current_batch s))%nat ∧
  (length (ul_current_batch s) ≤ length (ul_current_batch (fill est s)))%nat ∧
  ul_retry_on_failure (fill est s) = ul_retry_on_failure s ∧ ul_attempted_uploads (fill est s) = ul_attempted_uploads s.
Proof.
  intros Hlen. unfold fill_batch. destruct (next_batch _ _) as [o file] eqn:Enb. destruct (next_batch_spec _ _ _ _ Enb) as (Hs & Hl & Hend & _).
  assert (∀ (g : nat → bytes * nat * nat) (l : list Chunk), (imap (λ i c, (g i, c)) l).*2 = l) as Himap.
  { intros g l. rewrite fmap_imap. apply list_eq. intros i. rewrite list_lookup_imap. by destruct (l !! i). }
  destruct o as [nb|]; unfold todo; simpl in *; rewrite ?Hs.
  - rewrite fmap_app, Himap, !length_app, length_imap, app_assoc. split_and!; try done; try lia.
    intros HB [Hc Hi]%app_nil. rewrite Hc in *. simpl in *. apply Hend; [lia|]. apply (f_equal length) in Hi. rewrite length_imap in Hi.
    by apply length_zero_iff_nil in Hi.
  - split_and!; try done; try lia. intros HB Hc. rewrite Hc in *. simpl in *. apply Hend; [lia|done].
Qed.

(** Nothing is tried again unless that is asked for. *)
Lemma process_chunk_batch_counts (batch : AggregatedChunks) po retry w rc receipts free err w' :
  process_chunk_batch self batch po retry w = ((rc, receipts, free, err), w') → (length rc ≤ length batch)%nat ∧ (retry = false → rc = []).
Proof.
  unfold process_chunk_batch. destruct (pay_for_content_addrs _ _ _ _ _ w) as [[[receipt n]|e] w1].
  - destruct (chunk_batch_upload _ _ _) as [[[]|e] w3]; [|destruct retry; [destruct e|]]; intros [= <- <- <- <- <-]; split; try done; try (simpl; lia).
    apply length_filter.
  - destruct (insufficient_tokens e); [|destruct retry]; intros [= <- <- <- <- <-]; split; try done; simpl; lia.
Qed.

Lemma upload_turn_counts est po s w s' w' :
  turn est po s w = (Ok s', w') →
  ul_file s' = ul_file s ∧ (length (ul_current_batch s') ≤ length (ul_current_batch s))%nat ∧
  ul_attempted_uploads s' = (ul_attempted_uploads s + length (ul_current_batch s))%nat ∧
  (ul_retry_on_failure s = false → ul_current_batch s' = []) ∧
  (ul_current_batch s' = [] → ul_retry_on_failure s' = ul_retry_on_failure s) ∧
  (ul_current_batch s' ≠ [] → (allowed_attempts self est < ul_attempted_uploads s')%nat → ul_retry_on_failure s' = false).
Proof.
  unfold upload_turn. destruct (process_chunk_batch _ _ _ _ _) as [[[[rc receipts] free] [e|]] w1] eqn:Ep; [done|].
  destruct (process_chunk_batch_counts _ _ _ _ _ _ _ _ _ Ep) as (Hlen & Hno). intros [= <- <-]. simpl. split_and!; try done.
  - intros ->. by rewrite bool_decide_eq_true_2.
  - intros Hne Hlt. rewrite bool_decide_eq_false_2 by done. simpl. destruct (Nat.ltb_spec (allowed_attempts self est) (ul_attempted_uploads s + length (ul_current_batch s))); [done|lia].
Qed.

(** A bound on the turns that are left. *)
Definition upload_measure (est : nat) (s : UploadLoop) : nat :=
  (S (allowed_attempts self est) - ul_attempted_uploads s) + (if ul_retry_on_failure s then 1 else 0) +
  length (stream_chunks (ul_file s)) + (if decide (ul_current_batch s = []) then 0 else 1).

Lemma upload_loop_ends fuel est po s w :
  (length (ul_current_batch s) ≤ UPLOAD_FLOW_BATCH_SIZE)%nat → (upload_measure est s < fuel)%nat → (uploads fuel est po s w).1 ≠ Ok None.
Proof.
  revert s w. induction fuel as [|fuel IH]; intros s w Hlen Hm; [lia|]. cbn [upload_loop].
  destruct (fill_batch_spec est s Hlen) as (_ & Hlen' & _ & Hcount & Hmore & Hretry & Hatt). destruct (decide _) as [Hc|Hc]; [done|].
  unfold cm_bind. destruct (turn est po (fill est s) w) as [[s1|e] w1] eqn:Et; [|done].
  destruct (upload_turn_counts _ _ _ _ _ _ Et) as (Hfile & Hl & Hatt1 & Hno & Hkeep & Hstop). apply IH; [lia|].
  assert (0 < length (ul_current_batch (fill est s)))%nat as Hpos by (destruct (ul_current_batch (fill est s)); [done|simpl; lia]).
  unfold upload_measure in *. rewrite Hfile, Hatt1, Hatt. rewrite Hretry in *.
  assert (ul_current_batch s = [] → length (ul_current_batch s) = 0%nat) as Hz by (by intros ->).
  assert (ul_current_batch s1 ≠ [] → ul_retry_on_failure s = true ∧
    ((allowed_attempts self est < ul_attempted_uploads s + length (ul_current_batch (fill est s)))%nat → ul_retry_on_failure s1 = false)) as Hfail.
  { intros E1. split; [destruct (ul_retry_on_failure s); [done|by destruct E1; apply Hno]|]. rewrite <- Hatt, <- Hatt1. by apply Hstop. }
  destruct (decide (ul_current_batch s1 = [])) as [E1|E1].
  - rewrite (Hkeep E1). destruct (decide (ul_current_batch s = [])) as [E|E]; [specialize (Hz E)|]; lia.
  - destruct (Hfail E1) as [Hr Hx]. rewrite Hr in *. destruct (ul_retry_on_failure s1).
    + assert (¬ allowed_attempts self est < ul_attempted_uploads s + length (ul_current_batch (fill est s)))%nat by (by intros ?%Hx).
      destruct (decide (ul_current_batch s = [])) as [E|E]; [specialize (Hz E)|]; lia.
    + destruct (decide (ul_current_batch s = [])) as [E|E]; [specialize (Hz E)|]; lia.
Qed.

(** With a given receipt, every turn adds it. *)
Lemma upload_turn_receipt est r s w s' w' : turn est (PO_Receipt r) s w = (Ok s', w') → ul_receipts s' = ul_receipts s ++ [r].
Proof.
  unfold upload_turn, process_chunk_batch. simpl. destruct (chunk_batch_upload _ _ _) as [[[]|e] w1]; [by intros [= <- <-]|].
  destruct (ul_retry_on_failure s); [destruct e|]; simpl; by intros [= <- <-].
Qed.

Lemma upload_loop_receipts fuel est r s w s' w' :
  (0 < UPLOAD_FLOW_BATCH_SIZE)%nat → (length (ul_current_batch s) ≤ UPLOAD_FLOW_BATCH_SIZE)%nat → uploads fuel est (PO_Receipt r) s w = (Ok (Some s'), w') →
  ∃ k, ul_receipts s' = ul_receipts s ++ replicate k r ∧ (length (todo s) ≤ k * UPLOAD_FLOW_BATCH_SIZE)%nat.
Proof.
  intros HB. revert s w. induction fuel as [|fuel IH]; intros s w Hlen; [done|]. cbn [upload_loop].
  destruct (fill_batch_spec est s Hlen) as (Htodo & Hlen' & Hend & _). destruct (decide _) as [Hc|Hc].
  - intros [= <- <-]. exists 0%nat. split; [unfold fill_batch; destruct (next_batch _ _) as [[] ?]; by rewrite app_nil_r|].
    rewrite <- Htodo. unfold todo. by rewrite Hc, (Hend HB Hc).
  - unfold cm_bind. destruct (turn est (PO_Receipt r) (fill est s) w) as [[s1|e] w1] eqn:Et; [|done].
    destruct (upload_turn_counts _ _ _ _ _ _ Et) as (Hfile & Hl & _). pose proof (upload_turn_receipt _ _ _ _ _ _ Et) as Hr. intros Hrun.
    destruct (IH s1 w1) as (k & Hk & Hlen2); [lia|done|]. exists (S k). rewrite Hk, Hr. split.
    + rewrite <- app_assoc. f_equal. unfold fill_batch. by destruct (next_batch _ _) as [[] ?].
    + rewrite <- Htodo. unfold todo in *. rewrite length_app, length_fmap in *. rewrite Hfile in Hlen2. lia.
Qed.

(** A receipt is counted once for every batch. The upload of a stream with a receipt that was paid before gives the
    whole receipt back for each turn, so that the cost that is reported for a stream of more chunks than one batch has is
    a multiple of what was paid. *)
Theorem receipt_counted_per_batch fuel r file w p f rs file' w' :
  (0 < UPLOAD_FLOW_BATCH_SIZE)%nat → pay_and_upload_file self UPLOAD_FLOW_BATCH_SIZE fuel (PO_Receipt r) file w = (Ok (Some (p, f, rs, file')), w') →
  ∃ k, rs = replicate k r ∧ (length (stream_chunks file) ≤ k * UPLOAD_FLOW_BATCH_SIZE)%nat.
Proof.
  intros HB. unfold pay_and_upload_file, cm_bind. destruct (uploads _ _ _ _ w) as [[[s|]|e] w1] eqn:Eu; [|done..]. intros [= _ _ <- _ _].
  eapply upload_loop_receipts in Eu as (k & Hk & Hlen); [by exists k|done|simpl; lia].
Qed.

(** Fuel for a file: its allowed attempts, its chunks, and three. *)
Definition enough_fuel (file : EncryptionStream) : nat := (allowed_attempts self (total_chunks file) + length (stream_chunks file) + 3)%nat.

Lemma pay_and_upload_file_ends fuel po file w : (enough_fuel file ≤ fuel)%nat → (pay_and_upload_file self UPLOAD_FLOW_BATCH_SIZE fuel po file w).1 ≠ Ok None.
Proof.
  intros Hf. unfold pay_and_upload_file, cm_bind. pose proof (upload_loop_ends fuel (total_chunks file) po (upload_start file) w) as Hends.
  destruct (upload_loop _ _ _ _ _ _ _) as [[[s|]|e] w']; simpl in *; [done| |done]. exfalso. apply Hends; [lia| |done].
  unfold upload_measure, enough_fuel in *. simpl. lia.
Qed.

Lemma upload_files_end fuel po streams acc w :
  (∀ s, s ∈ streams → (enough_fuel s ≤ fuel)%nat) → (upload_files self UPLOAD_FLOW_BATCH_SIZE fuel po streams acc w).1 ≠ Ok None.
Proof.
  revert acc w. induction streams as [|s streams IH]; intros acc w Hf; [done|]. cbn [upload_files]. unfold cm_bind.
  pose proof (pay_and_upload_file_ends fuel po s w (Hf s (list_elem_of_here _ _))) as Hends.
  destruct (pay_and_upload_file _ _ _ _ _ _) as [[[[[[p f] r] s']|]|e] w']; simpl in *; [|done..].
  specialize (IH ((acc.1.1 + p)%nat, (acc.1.2 + f)%nat, acc.2 ++ r) w' (λ x Hx, Hf x (list_elem_of_further _ _ _ Hx))).
  by destruct (upload_files _ _ _ _ _ _ _) as [[[]|] ?].
Qed.

(** C40: an upload ends, whatever the network does. However often quotes, payments and puts fail, the loop over
    the batches of each stream comes to a result within three turns more than its chunks and the attempts allowed
    for it: the estimated number of its chunks, and again as many times that as [retry_failed] says, but at
    least twenty, also if [retry_failed] is zero. Each failed turn uses up attempts, and after they are exceeded a failure
    ends the upload. *)
Theorem upload_ends fuel po streams w :
  (∀ s, s ∈ streams → (total_chunks s + Nat.max 20 (total_chunks s * cl_retry_failed self) + length (stream_chunks s) + 3 ≤ fuel)%nat) →
  (pay_and_upload self UPLOAD_FLOW_BATCH_SIZE fuel po streams w).1 ≠ Ok None.
Proof.
  intros Hf. unfold pay_and_upload, cm_bind. pose proof (upload_files_end fuel po streams (0%nat, 0%nat, []) w Hf) as Hends.
  destruct (upload_files _ _ _ _ _ _ _) as [[[[[[p f] r] s']|]|e] w']; simpl in *; done.
Qed.
End loop.

(** ** Quotes and receipts *)

Section uploads.
Context `{XorNameLib, Hex, Bls, Layout, Kad, RmpHeader, Libp2pIdentity, Digests, HashOrder, SelfEncryption}.
Context `{!BodySerde, !Serde DataMap, !Serde DataMapLevel, !PutErrorText}.
Context `{!ClientWorld W, !Disk W, !Scheduler W, !UploadWorld W, !ChunkNetwork W, !ChunkNetworkLaws W}.
Context (self : Client) (UPLOAD_FLOW_BATCH_SIZE : nat).

Implicit Types (w : W) (c : Chunk) (po : PaymentOption).

(** An operation that loses no chunk. *)
Definition keeps {E A} (m : CM W E A) : Prop := ∀ w, w ⊑ (m w).2.

Lemma keeps_ret {E A} (a : A) : keeps (E := E) (cm_ret a).
Proof. by intros w. Qed.
Lemma keeps_lift {E A} (r : result A E) : keeps (cm_lift r).
Proof. by intros w. Qed.
Lemma keeps_bind {E A B} (m : CM W E A) (k : A → CM W E B) : keeps m → (∀ a, keeps (k a)) → keeps (cm_bind m k).
Proof. intros Hm Hk w. unfold cm_bind. specialize (Hm w). destruct (m w) as [[a|e] w']; [|done]. etrans; [done|apply Hk]. Qed.
Lemma keeps_map_err {E E' A} (f : E → E') (m : CM W E A) : keeps m → keeps (cm_map_err f m).
Proof. intros Hm w. unfold cm_map_err. specialize (Hm w). by destruct (m w). Qed.

Lemma get_raw_quotes_keeps t addrs : ∀ w, w ⊑ (get_raw_quotes t addrs w).2.
Proof.
  induction addrs as [|[a s] addrs IH]; intros w; simpl; [done|]. pose proof (grows_quotes a (get_index t) s w) as Hq.
  destruct (net_get_quotes_with_retries _ _ _ w) as [m w1]. specialize (IH w1). destruct (get_raw_quotes t addrs w1). simpl in *. by etrans.
Qed.

(** Each address has its answer, and a chunk without quotes is stored. *)
Lemma get_raw_quotes_spec t addrs : ∀ w qs w', get_raw_quotes t addrs w = (qs, w') → ∀ a s, (a, s) ∈ addrs →
  ∃ ans, fetch_store_quote a ans ∈ qs ∧ (∀ c, chunk_name c = a → ans = Ok None → net_holds w' c) ∧
    ∀ l, ans = Ok (Some l) → ∃ q, q ∈ l ∧ is_Some (quote_peer_id q.2).
Proof.
  induction addrs as [|[a0 s0] addrs IH]; intros w qs w' Hrun a s Hin; [by apply not_elem_of_nil in Hin|]. simpl in Hrun.
  destruct (net_get_quotes_with_retries _ _ _ w) as [m w1] eqn:Em. pose proof (get_raw_quotes_keeps t addrs w1) as Hk.
  destruct (get_raw_quotes t addrs w1) as [qs1 w2] eqn:Eq. injection Hrun as <- <-.
  apply elem_of_cons in Hin as [[= -> ->]|Hin].
  - exists m. split_and!; [left| |].
    + intros c <- ->. eapply holds_mono; [done|]. by eapply quotes_none.
    + intros l ->. by eapply quotes_some.
  - destruct (IH w1 qs1 w2 Eq a s Hin) as (ans & Hans & Hrest). exists ans. split; [by right|done].
Qed.

Lemma all_raw_quotes_in qs l a raws : all_raw_quotes qs = Ok l → Ok (a, raws) ∈ qs → raws ≠ [] → ∃ q, (a, q) ∈ l.
Proof.
  revert l. induction qs as [|[[a0 raws0]|e] qs IH]; intros l Hl Hin Hne; [by apply not_elem_of_nil in Hin| |done].
  simpl in Hl. inv_ok. apply elem_of_cons in Hin as [[= -> ->]|Hin].
  - assert (keep_closest a0 raws0 ≠ []) as Hk.
    { unfold keep_closest. intros Hk%(f_equal length). rewrite length_take, sort_by_key_length in Hk. destruct raws0; [done|]. simpl in Hk. lia. }
    destruct (keep_closest a0 raws0) as [|q rest]; [done|]. exists q. subst l. left.
  - destruct (IH _ Hok Hin Hne) as [q Hq]. exists q. set_solver.
Qed.

Lemma chunks_of_join {A} (fuel n : nat) (l : list A) : (0 < n)%nat → (length l ≤ fuel)%nat → mjoin (chunks_of fuel n l) = l.
Proof.
  intros Hn. revert l. induction fuel as [|fuel IH]; intros l Hl; [by destruct l; simpl in Hl; [|lia]|]. destruct l as [|x l]; [done|].
  cbn [chunks_of]. set (k := x :: l) in *. cbn [mjoin list_join]. rewrite IH; [apply take_drop|]. rewrite length_drop. simpl in *. lia.
Qed.

Lemma batch_prices_keeps batches : keeps (batch_prices batches).
Proof.
  induction batches as [|b batches IH]; simpl; [apply keeps_ret|].
  apply keeps_bind; [|intros ps; apply keeps_bind; [done|intros; apply keeps_ret]]. intros w. pose proof (grows_prices b w) as Hp.
  by destruct (evm_get_market_price b w).
Qed.

Lemma batch_prices_length batches : ∀ w ps w', batch_prices batches w = (Ok ps, w') → length ps = length (mjoin batches).
Proof.
  induction batches as [|b batches IH]; intros w ps w'; simpl; [by intros [= <- <-]|]. unfold cm_bind.
  destruct (evm_get_market_price b w) as [[p|] w1] eqn:Ep; simpl; [|done]. destruct (batch_prices batches w1) as [[more|e] w2] eqn:Eb; [|done].
  intros [= <- <-]. rewrite !length_app. f_equal; [by eapply prices_all|by eapply IH].
Qed.

(** A chunk for which a selection of quotes has no receipt is stored. *)
Lemma get_store_quotes_spec mode t addrs w q w' :
  get_store_quotes mode t addrs w = (Ok q, w') →
  w ⊑ w' ∧ ∀ c s, (chunk_name c, s) ∈ addrs → receipt_from_store_quotes q !! chunk_name c = None → net_holds w' c.
Proof.
  unfold get_store_quotes, cm_bind. pose proof (get_raw_quotes_keeps t addrs w) as Hk1.
  destruct (get_raw_quotes t addrs w) as [raws w1] eqn:Er. simpl in Hk1. cbn [cm_lift].
  destruct (all_raw_quotes raws) as [all|e] eqn:Eall; [|done]. unfold cm_lift at 1.
  set (metrics := _ <$> all). set (batches := chunks_of _ _ metrics). pose proof (batch_prices_keeps batches w1) as Hk2.
  destruct (batch_prices batches w1) as [[ps|e] w2] eqn:Eps; [|done]. simpl in Hk2. unfold cm_lift. intros [= Hq <-].
  split; [by etrans|]. intros c s Hin Hnone.
  destruct (get_raw_quotes_spec t addrs w raws w1 Er _ s Hin) as (ans & Hans & Hnoq & Hsome).
  destruct ans as [[l|]|e]; simpl in Hans; [|by eapply holds_mono; [|apply Hnoq]|].
  - exfalso. destruct (Hsome l eq_refl) as ([p pq] & Hpq & [id Hid]). simpl in Hid.
    edestruct (all_raw_quotes_in raws all (chunk_name c)) as [[[qp qa] qq] Hqin]; [done|exact Hans| |].
    { apply (elem_of_not_nil (id, pi_addrs p, pq)), list_elem_of_omap. exists (p, pq). split; [done|]. by rewrite Hid. }
    assert (length ps = length all) as Hlen.
    { rewrite (batch_prices_length _ _ _ _ Eps). unfold batches. rewrite chunks_of_join; [by unfold metrics; rewrite length_fmap|unfold GET_MARKET_PRICE_BATCH_LIMIT; lia|done]. }
    apply list_elem_of_lookup in Hqin as [i Hi]. destruct (lookup_lt_is_Some_2 ps i) as [price Hprice]; [rewrite Hlen; by eapply lookup_lt_Some|].
    set (priced := zip_with (λ q price, (q.1, (q.2, price))) all ps) in Hq.
    destruct (selection_has_receipt mode priced q (chunk_name c) Hq) as [r Hr]; [|congruence].
    unfold entries_of. intros Hnil%fmap_nil_inv. revert Hnil. apply (elem_of_not_nil (chunk_name c, (qp, qa, qq, price))), list_elem_of_filter.
    split; [done|]. apply list_elem_of_lookup. exists i. unfold priced. by rewrite lookup_zip_with, Hi, Hprice.
  - exfalso. clear -Hans Eall. revert all Eall. induction raws as [|r raws IH]; intros all; [by apply not_elem_of_nil in Hans|].
    apply elem_of_cons in Hans as [<-|Hans]; [done|]. destruct r as [[a l]|]; [|done]. simpl. destruct (all_raw_quotes raws); [|done]. intros _. by eapply IH.
Qed.

Lemma get_store_quotes_keeps mode t addrs : keeps (get_store_quotes mode t addrs).
Proof.
  apply keeps_bind; [|intros raws; apply keeps_bind; [apply keeps_lift|intros all; apply keeps_bind; [apply batch_prices_keeps|intros; apply keeps_lift]]].
  intros w. pose proof (get_raw_quotes_keeps t addrs w). by destruct (get_raw_quotes t addrs w).
Qed.

(** A chunk is stored, or the given receipt leaves it out. *)
Definition settled po w c : Prop := net_holds w c ∨ ∃ r, po = PO_Receipt r ∧ r !! chunk_name c = None.

Lemma settled_mono po w w' c : w ⊑ w' → settled po w c → settled po w' c.
Proof. intros Hle [Hc|Hc]; [left; by eapply holds_mono|by right]. Qed.

Abbreviation pays := (pay_for_content_addrs (cl_payment_mode self) (cl_evm_network self) Chunk_t).

Lemma pay_keeps addrs po : keeps (pays addrs po).
Proof.
  destruct po as [wallet|r]; [|apply keeps_ret]. simpl. unfold pay. case_bool_decide; [by intros w|].
  apply keeps_bind; [apply keeps_map_err, get_store_quotes_keeps|intros q]. apply keeps_bind; [|intros; apply keeps_ret].
  destruct (decide (q = ∅)); [apply keeps_ret|apply keeps_map_err; intros w; apply grows_pay].
Qed.

Lemma pay_spec addrs po w receipt free w' :
  pays addrs po w = (Ok (receipt, free), w') → ∀ c s, (chunk_name c, s) ∈ addrs → receipt !! chunk_name c = None → settled po w' c.
Proof.
  destruct po as [wallet|r]; simpl; [|intros [= <- <- <-] c s _ Hr; right; by exists r].
  unfold pay. case_bool_decide; [done|]. unfold cm_bind at 1, cm_map_err at 1.
  destruct (get_store_quotes _ _ _ w) as [[q|e] w1] eqn:Eq; [|done]. cbn [map_err].
  destruct (get_store_quotes_spec _ _ _ _ _ _ Eq) as [_ Hq]. unfold cm_bind.
  assert (∀ w2, w1 ⊑ w2 → ∀ c s, (chunk_name c, s) ∈ addrs → receipt_from_store_quotes q !! chunk_name c = None → settled (PO_Wallet wallet) w2 c) as Hdone.
  { intros w2 Hle c s Hin Hnone. left. eapply holds_mono; [done|]. by eapply Hq. }
  destruct (decide (q = ∅)); [intros [= <- _ <-]; by apply Hdone|]. pose proof (grows_pay (payments q) w1) as Hg. unfold cm_map_err.
  destruct (evm_pay_for_quotes (payments q) w1) as [[|] w2]; [|done]. intros [= <- _ <-]. by apply Hdone.
Qed.

(** ** Batches *)

(** The failures of an upload name its chunk. *)
Definition names_chunk c (e : ChunkPutError) : Prop :=
  match e with CPE_Network e => pe_address e = chunk_network_address c | CPE_PayeesMissing | CPE_Serialization => True | _ => False end.

Lemma chunk_upload_spec c proof price w :
  w ⊑ (chunk_upload_with_payment c proof price w).2 ∧
  match (chunk_upload_with_payment c proof price w).1 with
  | Ok _ => net_holds (chunk_upload_with_payment c proof price w).2 c
  | Err e => names_chunk c e
  end.
Proof.
  unfold chunk_upload_with_payment. destruct (decide _); [done|]. unfold cm_bind, cm_lift.
  destruct (try_serialize_record _ _) as [v|e] eqn:Ev; [|done]. cbn [map_err]. unfold cm_map_err.
  match goal with |- context [net_put_record_with_retries ?t ?r ?tg w] => pose proof (grows_put t r tg w) as Hg; destruct (net_put_record_with_retries t r tg w) as [[[]|e] w'] eqn:Ep end;
    simpl in *; [|done]. split; [done|]. by eapply put_holds.
Qed.

(** The chunks of a batch that are paid for. *)
Definition paid_chunks (chunks : list Chunk) (receipt : Receipt) : list (Chunk * (ClientProofOfPayment * Z)) :=
  omap (λ c, (λ pp, (c, pp)) <$> receipt !! chunk_name c) chunks.
Definition upload_task (x : Chunk * (ClientProofOfPayment * Z)) : W → result ChunkAddress (Chunk * ChunkPutError) * W :=
  cm_map_err (λ e, (x.1, e)) (chunk_upload_with_payment x.1 x.2.1 x.2.2).

Lemma upload_tasks_fmap chunks receipt : upload_tasks chunks receipt = upload_task <$> paid_chunks chunks receipt.
Proof.
  unfold upload_tasks, paid_chunks. rewrite list_fmap_omap. apply list_omap_ext, Forall_Forall2_diag, Forall_true. intros c.
  by destruct (receipt !! chunk_name c) as [[]|].
Qed.

Definition upload_outcome (x : Chunk * (ClientProofOfPayment * Z)) (r : result ChunkAddress (Chunk * ChunkPutError)) w : Prop :=
  match r with Ok _ => net_holds w x.1 | Err (c, e) => c = x.1 ∧ names_chunk c e end.

Lemma push_upload_failed (rs : list (result ChunkAddress (Chunk * ChunkPutError))) st c e :
  names_chunk c e → Err (c, e) ∈ rs → chunk_address c ∈ (bu_failed (foldl push_upload st rs)).*1.
Proof.
  intros He. revert st. assert (∀ l st a, a ∈ (bu_failed st).*1 → a ∈ (bu_failed (foldl push_upload st l)).*1) as Hkeep.
  { induction l as [|r l IH]; intros st a Ha; [done|]. simpl. apply IH. destruct r as [?|[? []]]; simpl; rewrite ?fmap_app; try set_solver.
    destruct (pe_address e0); simpl; rewrite ?fmap_app; set_solver. }
  induction rs as [|r rs IH]; intros st Hin; [by apply not_elem_of_nil in Hin|]. simpl. apply elem_of_cons in Hin as [<-|Hin]; [|by apply IH].
  apply Hkeep. destruct e; simpl in *; try done; rewrite ?fmap_app; try set_solver. rewrite He. simpl. rewrite fmap_app. set_solver.
Qed.

Lemma chunk_batch_upload_spec chunks receipt w res w' :
  chunk_batch_upload chunks receipt w = (res, w') →
  w ⊑ w' ∧ ∀ c, c ∈ chunks → is_Some (receipt !! chunk_name c) →
    net_holds w' c ∨ ∃ st, res = Err (CPE_Batch st) ∧ chunk_address c ∈ (bu_failed st).*1.
Proof.
  unfold chunk_batch_upload, cm_bind. rewrite upload_tasks_fmap.
  destruct (process_tasks_with_max_concurrency _ w) as [rs w1] eqn:Ep. intros Hres.
  destruct (process_tasks_spec upload_task upload_outcome (paid_chunks chunks receipt) w rs w1) as (items & Hperm & Hle & HF).
  { intros n w0. split; [apply grows_completion|apply completion_all]. }
  { intros [c [proof price]] w0 _. unfold upload_task, cm_map_err, upload_outcome. simpl. destruct (chunk_upload_spec c proof price w0) as [Hg Hr].
    by destruct (chunk_upload_with_payment c proof price w0) as [[]]. }
  { intros x r w0 w2 Hle Hq. unfold upload_outcome in *. destruct r as [a|[c e]]; [by eapply holds_mono|done]. }
  { done. }
  assert (w' = w1) as -> by (destruct (existsb is_err rs); by injection Hres). split; [done|]. intros c Hc [[proof price] Hr].
  assert ((c, (proof, price)) ∈ items) as Hin.
  { rewrite Hperm. apply list_elem_of_omap. exists c. by rewrite Hr. }
  apply list_elem_of_lookup in Hin as [i Hi]. destruct (Forall2_lookup_l _ _ _ _ _ HF Hi) as (r & Hri & Ho).
  destruct r as [a|[c' e]]; [by left|]. destruct Ho as [-> Hn]. simpl in *. right.
  assert (Err (c, e) ∈ rs) as Hers by (by eapply list_elem_of_lookup_2).
  assert (existsb is_err rs = true) as Ht by (apply existsb_exists; exists (Err (c, e)); split; [by apply list_elem_of_In|done]).
  rewrite Ht in Hres. injection Hres as <-. eexists. split; [done|]. by eapply push_upload_failed.
Qed.

Lemma send_event_keeps e w : w ⊑ send_event self e w.
Proof. unfold send_event. destruct (cl_events_enabled self); [apply grows_event|done]. Qed.

(** A batch: each chunk is settled, tried again, or the upload ends with an error. *)
Lemma process_chunk_batch_spec (batch : AggregatedChunks) po retry w rc receipts free err w' :
  process_chunk_batch self batch po retry w = ((rc, receipts, free, err), w') →
  w ⊑ w' ∧ (err = None → ∀ x, x ∈ batch → settled po w' x.2 ∨ x ∈ rc).
Proof.
  unfold process_chunk_batch. set (info := _ <$> batch). pose proof (pay_keeps info po w) as Hk.
  destruct (pays info po w) as [[[receipt n]|e] w1] eqn:Epay; simpl in Hk.
  - pose proof (pay_spec _ _ _ _ _ _ Epay) as Hpay. set (w2 := if is_wallet po && _ then _ else _).
    assert (w1 ⊑ w2) as Hk2 by (unfold w2; destruct (_ && _); [apply send_event_keeps|done]).
    destruct (chunk_batch_upload (batch.*2) receipt w2) as [res w3] eqn:Eup. destruct (chunk_batch_upload_spec _ _ _ _ _ Eup) as [Hk3 Hup].
    assert (w ⊑ w3) as Hk4 by (etrans; [done|by etrans]).
    assert (∀ x, x ∈ batch → settled po w3 x.2 ∨ ∃ st, res = Err (CPE_Batch st) ∧ chunk_address x.2 ∈ (bu_failed st).*1) as Hx.
    { intros x Hx. destruct (receipt !! chunk_name x.2) as [pp|] eqn:Er.
      - destruct (Hup x.2) as [Hh|Hf]; [by apply list_elem_of_fmap_2|by rewrite Er|left; by left|by right].
      - left. eapply settled_mono; [|eapply Hpay; [|exact Er]]; [by etrans|]. apply list_elem_of_fmap. by exists x. }
    destruct res as [[]|e]; [|destruct retry; [destruct e|]]; intros [= <- <- <- <- <-]; split; try done.
    + intros _ x Hb. destruct (Hx x Hb) as [?|(st & ? & _)]; [by left|done].
    + intros _ x Hb. destruct (Hx x Hb) as [?|(st & [= ->] & Hf)]; [by left|right; by apply list_elem_of_filter].
  - destruct (insufficient_tokens e); [|destruct retry]; intros [= <- <- <- <- <-]; split; try done. intros _ x Hx. by right.
Qed.

(** ** The loop, on such a network *)

Abbreviation fill := (fill_batch UPLOAD_FLOW_BATCH_SIZE).
Abbreviation turn := (upload_turn self).
Abbreviation uploads := (upload_loop self UPLOAD_FLOW_BATCH_SIZE).

Lemma upload_turn_spec est po s w s' w' :
  turn est po s w = (Ok s', w') → w ⊑ w' ∧ ∀ c, c ∈ (ul_current_batch s).*2 → settled po w' c ∨ c ∈ (ul_current_batch s').*2.
Proof.
  unfold upload_turn. destruct (process_chunk_batch _ _ _ _ _) as [[[[rc receipts] free] [e|]] w1] eqn:Ep; [done|].
  destruct (process_chunk_batch_spec _ _ _ _ _ _ _ _ _ Ep) as (Hk & Hall). intros [= <- <-]. simpl. split.
  - case_bool_decide; simpl; [done|]. etrans; [done|apply grows_pause].
  - intros c (x & -> & Hx)%list_elem_of_fmap. destruct (Hall eq_refl x Hx) as [Hs|Hs].
    + left. eapply settled_mono; [|done]. case_bool_decide; simpl; [done|apply grows_pause].
    + right. by apply list_elem_of_fmap_2.
Qed.

(** An upload that succeeds leaves nothing of its batch and stream behind. *)
Lemma upload_loop_settles fuel est po s w s' w' :
  (0 < UPLOAD_FLOW_BATCH_SIZE)%nat → (length (ul_current_batch s) ≤ UPLOAD_FLOW_BATCH_SIZE)%nat →
  uploads fuel est po s w = (Ok (Some s'), w') → w ⊑ w' ∧ ∀ c, c ∈ todo s → settled po w' c.
Proof.
  intros HB. revert s w. induction fuel as [|fuel IH]; intros s w Hlen; [done|]. cbn [upload_loop].
  destruct (fill_batch_spec UPLOAD_FLOW_BATCH_SIZE est s Hlen) as (Htodo & Hlen' & Hend & _). destruct (decide _) as [Hc|Hc].
  - intros [= <- <-]. split; [done|]. intros c. rewrite <- Htodo. unfold todo. rewrite Hc, (Hend HB Hc). by intros ?%not_elem_of_nil.
  - unfold cm_bind. destruct (turn est po (fill est s) w) as [[s1|e] w1] eqn:Et; [|done].
    destruct (upload_turn_spec _ _ _ _ _ _ Et) as (Hk & Hall). destruct (upload_turn_counts _ _ _ _ _ _ _ Et) as (Hfile & Hl & _). intros Hrun. destruct (IH s1 w1) as [Hk' Hdone]; [lia|done|].
    split; [by etrans|]. intros c. rewrite <- Htodo. unfold todo. intros [Hin|Hin]%elem_of_app.
    + destruct (Hall c Hin) as [Hs|Hs]; [by eapply settled_mono|]. apply Hdone. unfold todo. set_solver.
    + apply Hdone. unfold todo. rewrite Hfile. set_solver.
Qed.


Lemma pay_and_upload_file_settles fuel po file w p f r file' w' :
  (0 < UPLOAD_FLOW_BATCH_SIZE)%nat → pay_and_upload_file self UPLOAD_FLOW_BATCH_SIZE fuel po file w = (Ok (Some (p, f, r, file')), w') →
  w ⊑ w' ∧ ∀ c, c ∈ stream_chunks file → settled po w' c.
Proof.
  intros HB. unfold pay_and_upload_file, cm_bind. destruct (uploads _ _ _ _ w) as [[[s|]|e] w1] eqn:Eu; [|done..]. intros [= _ _ _ _ <-].
  eapply upload_loop_settles in Eu; [exact Eu|done|simpl; lia].
Qed.

Lemma upload_files_settle fuel po streams acc w d streams' w' :
  (0 < UPLOAD_FLOW_BATCH_SIZE)%nat → upload_files self UPLOAD_FLOW_BATCH_SIZE fuel po streams acc w = (Ok (Some (d, streams')), w') →
  w ⊑ w' ∧ ∀ s c, s ∈ streams → c ∈ stream_chunks s → settled po w' c.
Proof.
  intros HB. revert acc w d streams'. induction streams as [|s streams IH]; intros acc w d streams'; cbn [upload_files].
  { intros [= _ _ <-]. split; [done|]. by intros s c ?%not_elem_of_nil. }
  unfold cm_bind. destruct (pay_and_upload_file _ _ _ _ _ _) as [[[[[[p f] r] s']|]|e] w1] eqn:Es; [|done..].
  destruct (pay_and_upload_file_settles _ _ _ _ _ _ _ _ _ HB Es) as [Hk Hs].
  destruct (upload_files _ _ _ _ _ _ _) as [[[[d1 rest]|]|e] w2] eqn:Ef; [|done..]. intros [= _ _ <-].
  destruct (IH _ _ _ _ Ef) as [Hk' Hrest]. split; [by etrans|]. intros x c [->|Hx]%elem_of_cons Hc; [|by eapply Hrest].
  eapply settled_mono; [done|]. by apply Hs.
Qed.

Lemma pay_and_upload_settles fuel po streams w cost streams' w' :
  (0 < UPLOAD_FLOW_BATCH_SIZE)%nat → pay_and_upload self UPLOAD_FLOW_BATCH_SIZE fuel po streams w = (Ok (Some (cost, streams')), w') →
  w ⊑ w' ∧ ∀ s c, s ∈ streams → c ∈ stream_chunks s → settled po w' c.
Proof.
  intros HB. unfold pay_and_upload, cm_bind. destruct (upload_files _ _ _ _ _ _ _) as [[[[[[p f] r] s']|]|e] w1] eqn:Ef; [|done..].
  destruct (upload_files_settle _ _ _ _ _ _ _ _ HB Ef) as [Hk Hs]. unfold calculate_total_cost. intros [= _ _ <-].
  assert (∀ x y z, w1 ⊑ send_upload_complete self x y z w1) as Hk2 by (intros; apply send_event_keeps).
  split; [by etrans|]. intros s c Hin Hc. eapply settled_mono; [apply Hk2|]. by eapply Hs.
Qed.

(** C14: an upload that reports success has stored everything. Whatever requests fail on the way, and in whatever
    order the uploads of a batch complete: when the upload of some streams gives a cost, every chunk of theirs
    is stored on the network, the data maps of public streams included; but for those that the receipt the client was
    given has no payment for, which are taken to be stored. The batch size must not be zero. *)
Theorem upload_stores_everything fuel po streams w cost streams' w' :
  (0 < UPLOAD_FLOW_BATCH_SIZE)%nat → pay_and_upload self UPLOAD_FLOW_BATCH_SIZE fuel po streams w = (Ok (Some (cost, streams')), w') →
  ∀ s c, s ∈ streams → c ∈ stream_chunks s →
    net_holds w' c ∨ ∃ receipt, po = PO_Receipt receipt ∧ receipt !! chunk_name c = None.
Proof. intros HB Hrun. by destruct (pay_and_upload_settles _ _ _ _ _ _ _ HB Hrun). Qed.
End uploads.
