(* ===== verification/ClientReadProps.v ===== *)
(** * Properties of the client's reads

    Of src/autonomi/src/client/data_types/chunk.rs, chunk_cache.rs, data_map_restoration.rs and
    high_level/data: data that was put is read back, through the cache on the disk and in whatever order the
    chunks arrive; a chunk's content is not compared with the address it is asked for, and the cache keeps
    what it was given. *)

From stdpp Require Import base gmap countable strings list.
From Stdlib Require Import ZArith Lia.
From S2P Require Import Prelude Text Effects Protocol Storage RecordCache RecordStore MerkleTree MerkleTreeProps Payments PaymentsProps.
From S2P Require Import PutValidation PutValidationFacts PutValidationProps Messages Driver TaskHandler.
From S2P Require Import ClientPayment ClientData ClientExamples ClientPaymentProps ClientDataProps Encryption ClientChunks ClientUpload ClientUploadProps.

(** ** What the crate and the disk promise *)

(** A data map and the contents of chunks stand for some data: with a fetcher that gives the contents by their names, the
    root data map is found, its chunks are among the contents, and they decrypt to the data in any order. [I] is what
    the fetcher needs of the world and keeps. *)
Definition decrypts_to `{XorNameLib, SelfEncryption} (data : bytes) (dm : DataMap) (contents : list bytes) : Prop :=
  ∀ (W : Type) (I : W → Prop) (fetch : bytes → CM W SeError bytes),
    (∀ c w, c ∈ contents → I w → ∃ w', fetch (xorname_from_content c) w = (Ok c, w') ∧ I w') →
    ∀ w, I w → ∃ root w' cs, se_get_root_data_map dm fetch w = (Ok root, w') ∧ I w' ∧
      cs ⊆ contents ∧ ci_dst_hash <$> se_infos root = xorname_from_content <$> cs ∧
      ∀ l, l ≡ₚ cs → se_decrypt (without_child root) l = Ok data.

(** self_encryption: encrypted data is decrypted. *)
Class SelfEncryptionLaws `{XorNameLib, SelfEncryption} : Prop := {
  se_infos_without_child d : se_infos (without_child d) = se_infos d;
  se_roundtrip data dm contents : se_encrypt data = Ok (dm, contents) → decrypts_to data dm contents;
}.

(** The files of the disk; the network does not change them. *)
Class DiskFiles (W : Type) := { disk_files : W → gmap PathBuf bytes }.

Class DiskLaws (W : Type) `{!Disk W, !DiskFiles W} : Prop := {
  disk_read_file p (w : W) : disk_read p w = (disk_files w !! p, w);
  disk_exists_file p (w : W) : is_Some (disk_files w !! p) → disk_exists p w = true;
  disk_write_file p d (w : W) : disk_files (disk_write p d w).2 = <[p := d]> (disk_files w) ∨ disk_files (disk_write p d w).2 = disk_files w;
  disk_written p d (w w' : W) : disk_write p d w = (true, w') → disk_files w' = <[p := d]> (disk_files w);
  disk_create_dir_files p (w : W) : disk_files (disk_create_dir_all p w).2 = disk_files w;
  disk_removed p (w : W) : disk_files (disk_remove_file p w).2 = delete p (disk_files w) ∨ disk_files (disk_remove_file p w).2 = disk_files w;
}.

Section reads.
Context `{XorNameLib, HexLaws, Bls, Layout, Kad, RmpHeader, Libp2pIdentity, Digests, HashOrder, SelfEncryption}.
Context `{!BodySerde, !Serde DataMap, !Serde DataMapLevel, !PutErrorText}.

(** A stored chunk is read, and reading and files do not touch each other. *)
Class ChunkReadLaws (W : Type) `{!ClientWorld W, !Disk W, !Scheduler W, !ChunkNetwork W, !DiskFiles W} : Prop := {
  get_held (c : Chunk) (w : W) : chunk_wf c → net_holds w c → ∃ r rs w', net_get_record_with_retries Chunk_t (chunk_network_address c) w = (Ok (Some (r :: rs)), w') ∧
    chunk_from_record r = Ok c;
  get_keeps_files t a (w : W) : disk_files (net_get_record_with_retries t a w).2 = disk_files w;
  completion_keeps_files n (w : W) : disk_files (task_completion n w).2 = disk_files w;
  get_keeps_held t a c (w : W) : net_holds w c → net_holds (net_get_record_with_retries t a w).2 c;
  completion_keeps_held n c (w : W) : net_holds w c → net_holds (task_completion n w).2 c;
  completion_every n (w : W) : (task_completion n w).1 ≡ₚ seq 0 n;
  disk_keeps_held c (w : W) : net_holds w c → (∀ p d, net_holds (disk_write p d w).2 c) ∧ (∀ p, net_holds (disk_create_dir_all p w).2 c) ∧
    ∀ p, net_holds (disk_remove_file p w).2 c;
}.

Context `{!ClientWorld W, !Disk W, !Scheduler W, !ChunkNetwork W, !DiskFiles W, !DiskLaws W, !ChunkReadLaws W}.
Context (self : Client) (data_dir : option PathBuf).

Implicit Types (w : W) (c : Chunk) (S : list Chunk) (F : gmap PathBuf bytes).

(** The file of a chunk's cache. *)
Definition cache_path (a : ChunkAddress) : option PathBuf :=
  if cl_chunk_cache_enabled self then match get_chunk_cache_dir self data_dir with Ok dir => Some (chunk_file_path dir a) | Err _ => None end else None.

Definition is_cache_path (p : PathBuf) : Prop := ∃ a, cache_path a = Some p.

(** The chunks are stored, what the cache has of them is theirs, and the files outside of the cache are [F]. *)
Record readable S F w : Prop := {
  rd_held c : c ∈ S → chunk_wf c ∧ net_holds w c;
  rd_cached c p d : c ∈ S → cache_path (chunk_address c) = Some p → disk_files w !! p = Some d → d = chunk_value c;
  rd_files p : ¬ is_cache_path p → disk_files w !! p = F !! p;
}.

(** The cache has a directory, or is disabled. *)
Definition cache_configured : Prop := cl_chunk_cache_enabled self = true → ∃ dir, get_chunk_cache_dir self data_dir = Ok dir.

Lemma chunk_file_path_inj dir a b : chunk_file_path dir a = chunk_file_path dir b → a = b.
Proof.
  unfold chunk_file_path. intros [= Hh]%app_inv_head. apply app_inv_tail in Hh. apply (f_equal hex_decode) in Hh. rewrite !hex_roundtrip in Hh.
  destruct a, b. by injection Hh as ->.
Qed.

(** Stored chunks of one address are equal. *)
Lemma held_inj c c' w : chunk_wf c → chunk_wf c' → net_holds w c → net_holds w c' → chunk_address c = chunk_address c' → c = c'.
Proof.
  intros Hwf Hwf' Hc Hc' Ha. destruct (get_held c w Hwf Hc) as (r & rs & w' & Hr & Er). destruct (get_held c' w Hwf' Hc') as (r' & rs' & w'' & Hr' & Er').
  unfold chunk_network_address in *. rewrite Ha in Hr. rewrite Hr in Hr'. injection Hr' as <- <- <-. congruence.
Qed.

(** What keeps the files, or writes a chunk's own file, keeps the chunks readable. *)
Lemma readable_files S F w w' :
  readable S F w → (∀ c, net_holds w c → net_holds w' c) → disk_files w' = disk_files w → readable S F w'.
Proof.
  intros [Hh Hf HF] Hk Hfiles. split; [intros c Hc; split; [by apply Hh|by apply Hk, Hh]|intros c p d; rewrite Hfiles; apply Hf|intros p Hp; by rewrite Hfiles, HF].
Qed.

Lemma readable_write S F w w' c p :
  readable S F w → c ∈ S → cache_path (chunk_address c) = Some p → (∀ c, net_holds w c → net_holds w' c) →
  disk_files w' = <[p := chunk_value c]> (disk_files w) → readable S F w'.
Proof.
  intros [Hh Hf HF] Hin Hp Hk Hfiles. split; [intros x Hx; split; [by apply Hh|by apply Hk, Hh]| |].
  - intros x q d Hx Hq. rewrite Hfiles.
    destruct (decide (p = q)) as [->|Hne]; [|rewrite lookup_insert_ne by done; by apply Hf]. rewrite lookup_insert_eq. intros [= <-].
    enough (c = x) as -> by done. destruct (Hh c Hin) as [Hwc Hc], (Hh x Hx) as [Hwx Hx']. apply (held_inj _ _ w Hwc Hwx Hc Hx').
    unfold cache_path in Hp, Hq. destruct (cl_chunk_cache_enabled self); [|done]. destruct (get_chunk_cache_dir self data_dir) as [dir|]; [|done].
    apply (chunk_file_path_inj dir). congruence.
  - intros q Hq. rewrite Hfiles, lookup_insert_ne; [by apply HF|]. intros ->. apply Hq. by exists (chunk_address c).
Qed.

Lemma readable_delete S F w w' p :
  readable S F w → is_cache_path p → (∀ c, net_holds w c → net_holds w' c) → disk_files w' = delete p (disk_files w) → readable S F w'.
Proof.
  intros [Hh Hf HF] Hp Hk Hfiles. split; [intros x Hx; split; [by apply Hh|by apply Hk, Hh]| |].
  - intros x q d Hx Hq. rewrite Hfiles. intros [_ Hl]%lookup_delete_Some. by eapply Hf.
  - intros q Hq. rewrite Hfiles, lookup_delete_ne; [by apply HF|]. by intros ->.
Qed.

Lemma cache_path_dir a dir : cl_chunk_cache_enabled self = true → get_chunk_cache_dir self data_dir = Ok dir → cache_path a = Some (chunk_file_path dir a).
Proof. unfold cache_path. by intros -> ->. Qed.

Lemma wp_cache_load S F c w (Q : result (option Chunk) ChunkGetError → W → Prop) :
  cache_configured → readable S F w → c ∈ S → Q (Ok (Some c)) w → Q (Ok None) w → wp (try_load_chunk_from_cache self data_dir (chunk_address c)) Q w.
Proof.
  intros Hconf [Hh Hf] Hc Hsome Hnone. unfold try_load_chunk_from_cache, cache_configured in *. destruct (cl_chunk_cache_enabled self) eqn:Een; [|by wp_steps].
  destruct (Hconf eq_refl) as [dir Hdir]. simpl. rewrite Hdir. wp_steps. unfold is_chunk_cached. destruct (disk_exists _ w) eqn:Eex; [|by wp_steps].
  wp_steps. unfold load_chunk. wp_steps. rewrite Eex. unfold wp. rewrite disk_read_file. simpl.
  destruct (disk_files w !! _) as [d|] eqn:Ed; [|done]. simpl. rewrite (Hf c _ d Hc (cache_path_dir _ _ Een Hdir) Ed).
  destruct (Hh c Hc) as [Hwf _]. unfold chunk_wf in Hwf. destruct c as [a v]. simpl in *. unfold chunk_new. by rewrite <- Hwf.
Qed.

Lemma wp_cache_store S F c w :
  cache_configured → readable S F w → c ∈ S → wp (try_cache_chunk self data_dir (chunk_address c) c) (λ r w', r = Ok () ∧ readable S F w') w.
Proof.
  intros Hconf Hr Hc. unfold try_cache_chunk, cache_configured in *. destruct (cl_chunk_cache_enabled self) eqn:Een; [|by wp_steps].
  destruct (Hconf eq_refl) as [dir Hdir]. rewrite Hdir. wp_steps. unfold cache_store_chunk. wp_steps.
  set (write := disk_write (chunk_file_path dir (chunk_address c)) (chunk_value c)).
  assert (∀ w, readable S F w → wp (cm_io write CacheIo) (λ _ w', readable S F w') w) as Hwrite.
  { intros w0 Hr0. unfold wp, cm_io, write. pose proof (disk_write_file (chunk_file_path dir (chunk_address c)) (chunk_value c) w0) as Hd.
    assert (∀ x, net_holds w0 x → net_holds (disk_write (chunk_file_path dir (chunk_address c)) (chunk_value c) w0).2 x) as Hk
      by (intros x Hx; by apply (disk_keeps_held x w0 Hx)).
    destruct (disk_write _ _ w0) as [ok w1]. simpl in *. destruct Hd as [Hd|Hd]; [|by eapply readable_files].
    eapply readable_write; [done..| |done|done]. by apply cache_path_dir. }
  destruct (disk_exists dir w).
  - wp_steps. eapply wp_mono; [by apply Hwrite|]. by intros [] w1 Hr1; wp_steps.
  - unfold cm_io at 1. eapply wp_mono with (P := λ _ w', readable S F w').
    + unfold wp. pose proof (disk_create_dir_files dir w) as Hd. assert (∀ x, net_holds w x → net_holds (disk_create_dir_all dir w).2 x) as Hk
        by (intros x Hx; by apply (disk_keeps_held x w Hx)).
      destruct (disk_create_dir_all dir w) as [ok w1]. simpl in *. by eapply readable_files.
    + intros [[]|e] w1 Hr1; [|by wp_steps]. eapply wp_mono; [by apply Hwrite|]. by intros [] w2 Hr2; wp_steps.
Qed.

(** A stored chunk is read, from the cache or from the network. *)
Lemma wp_chunk_get S F c w :
  cache_configured → readable S F w → c ∈ S → wp (chunk_get self data_dir (chunk_address c)) (λ r w', r = Ok c ∧ readable S F w') w.
Proof.
  intros Hconf Hr Hc. unfold chunk_get. wp_steps. apply (wp_cache_load S F); [done..|by wp_steps|]. cbn beta iota. wp_steps.
  destruct (get_held c w) as (r & rs & w1 & Hget & Hrec); [by apply Hr..|].
  unfold fetch_chunk_from_network. wp_steps. unfold wp. change (NA_ChunkAddress (chunk_address c)) with (chunk_network_address c).
  assert (readable S F w1) as Hr1.
  { pose proof (get_keeps_files Chunk_t (chunk_network_address c) w) as Hfiles. eapply readable_files; [exact Hr| |].
    - intros x Hx. pose proof (get_keeps_held Chunk_t (chunk_network_address c) x w Hx) as Hh. by rewrite Hget in Hh.
    - by rewrite Hget in Hfiles. }
  rewrite Hget. simpl. rewrite Hrec. apply wp_bind. eapply wp_mono; [by apply (wp_cache_store S F)|]. intros ? w2 [-> Hr2]. by wp_steps.
Qed.

Lemma wp_cleanup S F w addrs : readable S F w → wp (cleanup_cached_chunks self data_dir addrs) (λ r w', r = Ok () ∧ readable S F w') w.
Proof.
  intros Hr. unfold cleanup_cached_chunks. destruct (cl_chunk_cache_enabled self) eqn:Een; [|by wp_steps].
  destruct (get_chunk_cache_dir self data_dir) as [dir|] eqn:Edir; [|by wp_steps]. wp_steps. unfold delete_chunks.
  eapply wp_mono; [eapply (wp_for _ _ (λ _ w, readable S F w) (λ _ w, readable S F w)); [done|]|by intros [] w1 Hr1; wp_steps].
  clear w Hr. intros a _ w Hr. unfold delete_chunk. wp_steps. destruct (disk_exists _ w); [|by wp_steps]. unfold wp, cm_io.
  pose proof (disk_removed (chunk_file_path dir a) w) as Hd.
  assert (∀ x, net_holds w x → net_holds (disk_remove_file (chunk_file_path dir a) w).2 x) as Hk by (intros x Hx; by apply (disk_keeps_held x w Hx)).
  assert (is_cache_path (chunk_file_path dir a)) as Hp by (exists a; by apply cache_path_dir).
  destruct (disk_remove_file _ w) as [[] w1]; simpl in *; (destruct Hd as [Hd|Hd]; [by eapply readable_delete|by eapply readable_files]).
Qed.

(** Tasks that keep an invariant and succeed, in any order. *)
Lemma run_tasks_ok {X A E} (g : X → CM W E A) (f : X → A) (I : W → Prop) items w :
  (∀ x w, x ∈ items → I w → wp (g x) (λ r w', r = Ok (f x) ∧ I w') w) → I w →
  (run_tasks (g <$> items) w).1 = (λ x, Ok (f x)) <$> items ∧ I (run_tasks (g <$> items) w).2.
Proof.
  revert w. induction items as [|x items IH]; intros w Hg HI; [done|]. rewrite !fmap_cons. cbn [run_tasks].
  destruct (Hg x w (list_elem_of_here _ _) HI) as [Hr HI']. destruct (g x w) as [r w1]. simpl in Hr, HI'. subst r.
  destruct (IH w1 (λ y w Hy, Hg y w (list_elem_of_further _ _ _ Hy)) HI') as [Hrs HI2]. destruct (run_tasks (g <$> items) w1). simpl in *.
  split; [by rewrite Hrs|done].
Qed.

Lemma process_tasks_ok {X A E} (g : X → CM W E A) (f : X → A) (I : W → Prop) items w :
  (∀ n w, I w → I (task_completion n w).2) → (∀ x w, x ∈ items → I w → wp (g x) (λ r w', r = Ok (f x) ∧ I w') w) → I w →
  ∃ items', items' ≡ₚ items ∧ (process_tasks_with_max_concurrency (g <$> items) w).1 = (λ x, Ok (f x)) <$> items' ∧
    I (process_tasks_with_max_concurrency (g <$> items) w).2.
Proof.
  intros Hc Hg HI. unfold process_tasks_with_max_concurrency. pose proof (completion_every (length (g <$> items)) w) as Hperm.
  specialize (Hc (length (g <$> items)) w HI). destruct (task_completion _ w) as [order w1]. simpl in Hperm, Hc. rewrite length_fmap in Hperm.
  set (selected := omap _ order). assert (selected = g <$> omap (λ i, items !! i) order) as ->.
  { unfold selected. rewrite list_fmap_omap. apply list_omap_ext, Forall_Forall2_diag, Forall_true. intros i. apply list_lookup_fmap. }
  pose proof (select_all items order Hperm) as Hsel. exists (omap (λ i, items !! i) order). split; [done|].
  apply run_tasks_ok; [|done]. intros x w2. rewrite Hsel. apply Hg.
Qed.

(** The chunks of a data map are fetched and decrypted. *)
Lemma wp_fetch_from_data_map S F d cs data w :
  cache_configured → readable S F w → chunk_new <$> cs ⊆ S → ci_dst_hash <$> se_infos d = xorname_from_content <$> cs →
  (∀ l, l ≡ₚ cs → se_decrypt d l = Ok data) → wp (fetch_from_data_map self data_dir d) (λ r w', r = Ok data ∧ readable S F w') w.
Proof.
  intros Hconf Hr Hsub Hinfos Hdec. unfold fetch_from_data_map.
  assert (chunk_addrs_of d = chunk_address <$> (chunk_new <$> cs)) as Haddrs.
  { unfold chunk_addrs_of. rewrite <- list_fmap_compose. transitivity (mkChunkAddress <$> (ci_dst_hash <$> se_infos d)); [by rewrite <- list_fmap_compose|].
    rewrite Hinfos. by rewrite <- list_fmap_compose. }
  wp_steps. rewrite Haddrs, <- list_fmap_compose. unfold wp at 1.
  edestruct (process_tasks_ok (chunk_get self data_dir ∘ chunk_address) id (readable S F) (chunk_new <$> cs) w) as (items & Hperm & Hrs & Hr1).
  { intros n w0 Hr0. eapply readable_files; [exact Hr0|intros; by apply completion_keeps_held|apply completion_keeps_files]. }
  { intros x w2 Hx Hr2. apply wp_chunk_get; [done..|]. by apply Hsub. }
  { done. }
  destruct (process_tasks_with_max_concurrency _ w) as [rs w1]. simpl in Hrs, Hr1 |- *. rewrite Hrs.
  change (λ x, Ok (id x)) with (@Ok Chunk ChunkGetError). rewrite (collect_ok _ _ eq_refl). wp_steps.
  rewrite Hdec; [|rewrite Hperm, <- list_fmap_compose; change (chunk_value ∘ chunk_new <$> cs) with (id <$> cs); by rewrite list_fmap_id].
  simpl. wp_steps. eapply wp_mono; [by apply wp_cleanup|]. intros ? w3 [-> Hr3]. by wp_steps.
Qed.

(** ** Round trips *)

Context `{!SelfEncryptionLaws, !SerdeLaws DataMap}.
Context (MAX_IN_MEMORY_DOWNLOAD_SIZE : nat).

Abbreviation get_private := (data_get self data_dir MAX_IN_MEMORY_DOWNLOAD_SIZE).
Abbreviation get_public := (data_get_public self data_dir MAX_IN_MEMORY_DOWNLOAD_SIZE).

(** The read of data gives it, or says that it has too many chunks for memory. *)
Definition reads_back (data : bytes) (r : result (option bytes) ChunkGetError) : Prop :=
  r = Ok (Some data) ∨ ∃ d, r = Err (CGE_TooLargeForMemory d) ∧ (MAX_IN_MEMORY_DOWNLOAD_SIZE < length (se_infos d))%nat.

Lemma wp_chunk_fetcher S F (b : bytes) w :
  cache_configured → readable S F w → chunk_new b ∈ S → ∃ w', chunk_fetcher self data_dir (xorname_from_content b) w = (Ok b, w') ∧ readable S F w'.
Proof.
  intros Hconf Hr Hc. assert (wp (chunk_fetcher self data_dir (xorname_from_content b)) (λ r w', r = Ok b ∧ readable S F w') w) as Hwp.
  { unfold chunk_fetcher. wp_steps. change (mkChunkAddress (xorname_from_content b)) with (chunk_address (chunk_new b)).
    eapply wp_mono; [by apply (wp_chunk_get S F)|]. intros ? w1 [-> Hr1]. simpl. wp_steps. eapply wp_mono; [by apply wp_cleanup|].
    intros ? w2 [-> Hr2]. simpl. by wp_steps. }
  unfold wp in Hwp. destruct (chunk_fetcher _ _ _ _) as [r w']. simpl in Hwp. destruct Hwp as [-> Hr']. eauto.
Qed.

(** A chunk with a data map of some data, the chunks of which have some contents. *)
Definition map_chunk_of (data : bytes) (contents : list bytes) (dmc : Chunk) : Prop :=
  ∃ dm v, rmp_to_vec dm = Some v ∧ dmc = chunk_new v ∧ decrypts_to data dm contents.

Lemma encrypt_map_chunk data dmc chunks : encrypt data = Ok (dmc, chunks) → ∃ contents, chunks = chunk_new <$> contents ∧ map_chunk_of data contents dmc.
Proof.
  intros Henc. unfold encrypt in Henc. inv_ok. destruct t as [dm contents]. simpl in *. unfold pack_data_map, wrap_data_map in Hok0. inv_ok. simplify_eq.
  exists contents. split; [done|]. exists dm, t. split_and!; [done..|]. by apply se_roundtrip.
Qed.

(** The root data map is restored, and its chunks decrypt to the data. *)
Lemma restore_map_chunk S F fuel data contents dmc w :
  cache_configured → readable S F w → map_chunk_of data contents dmc → chunk_new <$> contents ⊆ S →
  ∃ root w' cs, restore_data_map_from_chunk self data_dir fuel dmc w = (Ok (Some root), w') ∧ readable S F w' ∧ cs ⊆ contents ∧
    ci_dst_hash <$> se_infos root = xorname_from_content <$> cs ∧ ∀ l, l ≡ₚ cs → se_decrypt (without_child root) l = Ok data.
Proof.
  intros Hconf Hr (dm & v & Hv & -> & Hdec) Hsub. assert (rmp_from_slice (T := DataMap) (chunk_value (chunk_new v)) = Some dm) as Hdm by (by apply rmp_roundtrip).
  unfold restore_data_map_from_chunk. rewrite Hdm. unfold fetch_new_data_map.
  edestruct (Hdec W (readable S F) (chunk_fetcher self data_dir)) as (root & w1 & cs & Hroot & Hr1 & Hcs & Hinfos & Hd); [|exact Hr|].
  { intros c w0 Hc Hr0. apply (wp_chunk_fetcher S F); [done..|]. by apply Hsub, list_elem_of_fmap_2. }
  exists root, w1, cs. split_and!; [|done..]. unfold cm_bind, cm_map_err. by rewrite Hroot.
Qed.

Lemma contents_subset (cs contents : list bytes) S : chunk_new <$> contents ⊆ S → cs ⊆ contents → chunk_new <$> cs ⊆ S.
Proof. intros Hsub Hcs x (y & -> & Hy)%list_elem_of_fmap. by apply Hsub, list_elem_of_fmap_2, Hcs. Qed.

Lemma data_get_encrypted S F fuel data contents dmc w :
  cache_configured → readable S F w → map_chunk_of data contents dmc → chunk_new <$> contents ⊆ S →
  wp (get_private fuel dmc) (λ r w', reads_back data r ∧ readable S F w') w.
Proof.
  intros Hconf Hr Hmap Hsub. destruct (restore_map_chunk S F fuel data contents dmc w Hconf Hr Hmap Hsub) as (root & w1 & cs & Hroot & Hr1 & Hcs & Hinfos & Hdec).
  unfold ClientChunks.data_get. apply wp_bind. unfold wp at 1. rewrite Hroot. cbn [fst snd].
  destruct (Nat.ltb_spec MAX_IN_MEMORY_DOWNLOAD_SIZE (length (se_infos root))) as [Hlt|_]; [wp_steps; split; [right; by exists root|done]|].
  apply wp_bind. eapply wp_mono; [apply (wp_fetch_from_data_map S F (without_child root) cs data); [done..|by eapply contents_subset|by rewrite se_infos_without_child|done]|].
  intros ? w2 [-> Hr2]. wp_steps. split; [by left|done].
Qed.

(** The data maps of public data are read first. *)
Lemma data_get_public_encrypted S F fuel data contents dmc w :
  cache_configured → readable S F w → map_chunk_of data contents dmc → chunk_new <$> contents ⊆ S → dmc ∈ S →
  wp (get_public fuel (chunk_name dmc)) (λ r w', reads_back data r ∧ readable S F w') w.
Proof.
  intros Hconf Hr Hmap Hsub Hin. unfold ClientChunks.data_get_public. wp_steps.
  assert (mkChunkAddress (chunk_name dmc) = chunk_address dmc) as -> by (unfold chunk_name; by destruct (chunk_address dmc)).
  eapply wp_mono; [by apply (wp_chunk_get S F)|]. intros ? w1 [-> Hr1]. by eapply data_get_encrypted.
Qed.

Context `{!UploadWorld W, !ChunkNetworkLaws W}.
Context (UPLOAD_FLOW_BATCH_SIZE : nat).

Abbreviation put_private := (data_put self UPLOAD_FLOW_BATCH_SIZE).
Abbreviation put_public := (data_put_public self UPLOAD_FLOW_BATCH_SIZE).

(** What the cache has of the chunks of some data is right. *)
Definition cache_clean (data : bytes) w : Prop :=
  ∀ dmc chunks c p d, encrypt data = Ok (dmc, chunks) → c ∈ chunks ++ [dmc] → cache_path (chunk_address c) = Some p → disk_files w !! p = Some d → d = chunk_value c.

Lemma data_put_holds is_public fuel data wallet w cost dmc w' :
  (0 < UPLOAD_FLOW_BATCH_SIZE)%nat → data_put_internal self UPLOAD_FLOW_BATCH_SIZE fuel data (PO_Wallet wallet) is_public w = (Ok (Some (cost, dmc)), w') →
  w ⊑ w' ∧ ∃ chunks, encrypt data = Ok (dmc, chunks) ∧ ∀ c, c ∈ (if is_public : bool then chunks ++ [dmc] else chunks) → net_holds w' c.
Proof.
  intros HB. unfold data_put_internal, cm_bind, cm_get, cm_lift, new_in_memory, new_in_memory_with.
  destruct (encrypt data) as [[dm chunks]|e] eqn:Henc; [|done]. simpl.
  set (stream := Build_EncryptionStream _ _ _ _ _). destruct (pay_and_upload _ _ _ _ _ _) as [[[[cost' streams]|]|e] w1] eqn:Ep; [|done..].
  intros [= <- <- <-]. destruct (pay_and_upload_settles _ _ _ _ _ _ _ _ _ HB Ep) as [Hw Hs]. split; [done|]. exists chunks. split; [done|]. intros c Hc.
  destruct (Hs stream c) as [Hh|(r & Hr & _)]; [set_solver|by destruct is_public|done|done].
Qed.

Lemma encrypt_wf data dmc chunks c : encrypt data = Ok (dmc, chunks) → c ∈ chunks ++ [dmc] → chunk_wf c.
Proof.
  unfold encrypt, pack_data_map. intros Henc Hc. inv_ok. simplify_eq. apply elem_of_app in Hc as [(b & -> & _)%list_elem_of_fmap| ->%list_elem_of_singleton]; done.
Qed.

Lemma clean_readable data dmc chunks S w :
  encrypt data = Ok (dmc, chunks) → cache_clean data w → S ⊆ chunks ++ [dmc] → (∀ c, c ∈ S → net_holds w c) → readable S (disk_files w) w.
Proof.
  intros Henc Hclean Hsub Hh. split; [intros c Hc; split; [eapply encrypt_wf; [done|by apply Hsub]|by apply Hh]| |done].
  intros c p d Hc. eapply Hclean; [done|by apply Hsub].
Qed.

(** C15: data that was put is read back. When a put of private or of public data that is paid from a wallet has
    succeeded, on a network that may have refused and lost requests on the way, the data map it gave, or the address of the
    public data, leads back to the data, in whatever order the chunks arrive, unless the data has more chunks than the
    client reads into memory, which it says. The cache must not hold wrong files for the chunks, and the batch size of
    uploads must not be zero. *)
Theorem data_roundtrip fuel fuel' data wallet w w' :
  (0 < UPLOAD_FLOW_BATCH_SIZE)%nat → cache_configured → cache_clean data w' →
  (∀ cost data_map, put_private fuel data (PO_Wallet wallet) w = (Ok (Some (cost, data_map)), w') → reads_back data (get_private fuel' data_map w').1) ∧
  (∀ cost addr, put_public fuel data (PO_Wallet wallet) w = (Ok (Some (cost, addr)), w') → reads_back data (get_public fuel' addr w').1).
Proof.
  intros HB Hconf Hclean. split.
  - intros cost dmc Hput. destruct (data_put_holds _ _ _ _ _ _ _ _ HB Hput) as (_ & chunks & Henc & Hh). pose proof Henc as (contents & -> & Hmap)%encrypt_map_chunk.
    apply (data_get_encrypted (chunk_new <$> contents) (disk_files w') fuel' data contents dmc w'); [done| |done..]. eapply clean_readable; [done..|set_solver|done].
  - intros cost addr. unfold ClientUpload.data_put_public, cm_bind. destruct (data_put_internal _ _ _ _ _ _ _) as [[[[cost' dmc]|]|e] w1] eqn:Hput; [|done..].
    intros [= <- <- <-]. destruct (data_put_holds _ _ _ _ _ _ _ _ HB Hput) as (_ & chunks & Henc & Hh). pose proof Henc as (contents & -> & Hmap)%encrypt_map_chunk.
    apply (data_get_public_encrypted ((chunk_new <$> contents) ++ [dmc]) (disk_files w1) fuel' data contents dmc w1); [done| |done|set_solver..].
    by eapply clean_readable.
Qed.
End reads.

(** ** Chunks are not verified *)

Section unverified.
Context `{XorNameLib, HexLaws, Bls, Layout, Kad, RmpHeader, Libp2pIdentity, Digests, HashOrder, SelfEncryption}.
Context `{!BodySerde, !Serde DataMap, !Serde DataMapLevel, !PutErrorText}.
Context `{!ClientWorld W, !Disk W, !DiskFiles W, !DiskLaws W}.
Context (self : Client) (data_dir : option PathBuf).

Implicit Types (w : W).

(** A chunk that is on the disk is read from there, and the network is not asked. *)
Lemma chunk_get_cached addr dir w (b : bytes) :
  cl_chunk_cache_enabled self = true → get_chunk_cache_dir self data_dir = Ok dir → disk_files w !! chunk_file_path dir addr = Some b →
  chunk_get self data_dir addr w = (Ok (chunk_new b), w).
Proof.
  intros Hen Hdir Hfile. assert (disk_exists (chunk_file_path dir addr) w = true) as Hex by (apply disk_exists_file; by rewrite Hfile).
  unfold chunk_get, try_load_chunk_from_cache, load_chunk, is_chunk_cached. rewrite Hen, Hdir. unfold cm_bind, cm_lift, cm_get, cm_try. simpl.
  rewrite Hex, Hex, disk_read_file, Hfile. done.
Qed.

(** A read of a chunk gives the content of the first record that comes back, whatever it is: it is not compared with
    the address, although the read is documented to validate it. With the cache enabled, as by default, the wrong
    content is written to the file of the address, and every later read gives it without asking the network, until the
    file is deleted. *)
Theorem wrong_chunk_is_cached addr dir r rs (c : Chunk) w w1 :
  cl_chunk_cache_enabled self = true → get_chunk_cache_dir self data_dir = Ok dir → disk_exists (chunk_file_path dir addr) w = false →
  net_get_record_with_retries Chunk_t (NA_ChunkAddress addr) w = (Ok (Some (r :: rs)), w1) → chunk_from_record r = Ok c →
  (∀ p d w, (disk_write p d w).1 = true) → (∀ p w, (disk_create_dir_all p w).1 = true) →
  ∃ w', chunk_get self data_dir addr w = (Ok c, w') ∧ disk_files w' !! chunk_file_path dir addr = Some (chunk_value c) ∧
    ∀ w'', disk_files w'' !! chunk_file_path dir addr = Some (chunk_value c) → chunk_get self data_dir addr w'' = (Ok c, w'').
Proof.
  intros Hen Hdir Hno Hget Hrec Hwrite Hcreate. assert (c = chunk_new (chunk_value c)) as Hwf.
  { unfold chunk_from_record, is_record_of_type_chunk, try_deserialize_record in Hrec. inv_ok. destruct t; [|done]. inv_ok. destruct (_ <? _)%nat; [|done]. inv_ok.
    simpl in Hrec. destruct (rmp_from_slice _) as [v|]; [|done]. by injection Hrec as <-. }
  set (p := chunk_file_path dir addr) in *. assert (∀ w, ∃ w2, try_cache_chunk self data_dir addr c w = (Ok (), w2) ∧ disk_files w2 !! p = Some (chunk_value c)) as Hstore.
  { intros w0. unfold try_cache_chunk, cache_store_chunk, cm_io. rewrite Hen, Hdir. unfold cm_bind, cm_lift, cm_try, cm_get. simpl. fold p.
    assert (∀ w3, ∃ w2, disk_write p (chunk_value c) w3 = (true, w2) ∧ disk_files w2 !! p = Some (chunk_value c)) as Hw.
    { intros w3. specialize (Hwrite p (chunk_value c) w3). destruct (disk_write p _ w3) as [b w2] eqn:Ew. simpl in Hwrite. subst b. exists w2.
      split; [done|]. rewrite (disk_written _ _ _ _ Ew). by rewrite lookup_insert_eq. }
    destruct (disk_exists dir w0); simpl.
    - destruct (Hw w0) as (w2 & -> & Hw2). eauto.
    - specialize (Hcreate dir w0). destruct (disk_create_dir_all dir w0) as [b w3]. simpl in Hcreate. subst b. destruct (Hw w3) as (w2 & -> & Hw2). eauto. }
  destruct (Hstore w1) as (w2 & Hc & Hf). exists w2. split_and!; [|done|].
  - unfold chunk_get, try_load_chunk_from_cache, is_chunk_cached, fetch_chunk_from_network. rewrite Hen, Hdir. unfold cm_bind, cm_lift, cm_get, cm_map_err. simpl. fold p.
    rewrite Hno. unfold cm_ret at 1. rewrite Hget. simpl. rewrite Hrec, Hc. done.
  - intros w'' Hw. rewrite (chunk_get_cached _ dir _ _ Hen Hdir Hw). by rewrite <- Hwf.
Qed.
End unverified.
