(* ===== verification/ClientMerkle.v ===== *)
(** * Batch payments of the client

    Models src/autonomi/src/client/merkle_payments: candidate pools and the payment of a Merkle tree
    (payments.rs), uploads with proofs and their retries (upload.rs), and the upload of the files of a
    directory, tree by tree (file.rs); and the existence check of network.rs. *)

From stdpp Require Import base gmap countable strings list.
From Stdlib Require Import ZArith Lia.
From S2P Require Import Prelude Text Effects Protocol Storage RecordCache RecordStore MerkleTree Payments PutValidation Messages Driver TaskHandler.
From S2P Require Import ClientPayment ClientData Encryption ClientChunks ClientUpload.

(** ** Receipts *)

(** Amounts saturate. *)
Definition amount_saturating_add (a b : Z) : Z := Z.min (a + b) (2 ^ 256 - 1).

Definition merkle_receipt_merge (self other : MerklePaymentReceipt) : MerklePaymentReceipt :=
  {| mr_proofs := mr_proofs other ∪ mr_proofs self;
     mr_file_chunk_counts := mr_file_chunk_counts other ∪ mr_file_chunk_counts self;
     mr_amount_paid := amount_saturating_add (mr_amount_paid self) (mr_amount_paid other);
     mr_already_existed := mr_already_existed self ∪ mr_already_existed other;
     mr_uploaded := mr_uploaded self ∪ mr_uploaded other |}.

Definition add_already_existed (self : MerklePaymentReceipt) (chunks : gset bytes) : MerklePaymentReceipt :=
  {| mr_proofs := mr_proofs self; mr_file_chunk_counts := mr_file_chunk_counts self; mr_amount_paid := mr_amount_paid self;
     mr_already_existed := mr_already_existed self ∪ chunks; mr_uploaded := mr_uploaded self |}.

Definition add_uploaded (self : MerklePaymentReceipt) (chunks : gset bytes) : MerklePaymentReceipt :=
  {| mr_proofs := mr_proofs self; mr_file_chunk_counts := mr_file_chunk_counts self; mr_amount_paid := mr_amount_paid self;
     mr_already_existed := mr_already_existed self; mr_uploaded := mr_uploaded self ∪ chunks |}.

Section merkle.
Context `{XorNameLib, Hex, Bls, Layout, Kad, RmpHeader, Libp2pIdentity, AntMerkle, HashOrder, SelfEncryption}.
Context `{!BodySerde, !Serde DataMap, !Serde DataMapLevel, !PutErrorText}.

(** [MerklePaymentError] of the client. *)
Inductive ClientMerkleError :=
  | CME_Network (e : ClientError)
  | CME_MerkleTree (e : MerkleTreeError)
  | CME_InsufficientCandidates (got needed : nat)
  | CME_SmartContract
  | CME_EvmWalletNetworkMismatch
  | CME_EvmWalletError (e : WalletError)
  | CME_MerklePaymentVault
  | CME_TimestampError
  | CME_PoolVerification (e : MerklePaymentError).

Inductive MerklePutError :=
  | MPE_Network (e : ClientError)
  | MPE_Serialization
  | MPE_Batch (failed : list (Chunk * bytes))
  | MPE_MissingPaymentProofFor (xor_name : bytes)
  | MPE_StreamShouldHaveDatamap.

Inductive MerkleUploadError :=
  | MUE_Encryption (e : option FileError)
  | MUE_Payment (e : ClientMerkleError)
  | MUE_Upload (e : MerklePutError).

(** The receipt of the payments made before the failure. *)
Record MerkleUploadErrorWithReceipt := { ue_receipt : option MerklePaymentReceipt; ue_error : MerkleUploadError }.

Definition upload_error (receipt : MerklePaymentReceipt) (kind : MerkleUploadError) : MerkleUploadErrorWithReceipt :=
  {| ue_receipt := if decide (mr_proofs receipt = ∅) then None else Some receipt; ue_error := kind |}.

(** What these operations ask of the network, the contract and the clock besides; the salts and padding leaves of a tree are
    random. *)
Class MerkleWorld (W : Type) := {
  net_get_closest_n : NetworkAddress → nat → CM W ClientError (list PeerInfo);
  net_get_closest_peers_kad_only : NetworkAddress → option nat → CM W ClientError (list PeerInfo);
  net_get_merkle_candidate_quote : NetworkAddress → PeerInfo → Z → Z → Z → CM W ClientError MerklePaymentCandidateNode;
  net_get_record_one : NetworkAddress → CM W ClientError (option KadRecord);
  wallet_pay_for_merkle_tree : Z → list PoolCommitment → Z → CM W WalletError (bytes * Z);
  random_salts : W → (Z → bytes) * (Z → bytes) * W;
  unix_now : W → option Z;
  merkle_put_error_text : MerklePutError → bytes;
}.

Context `{!ClientWorld W, !Disk W, !Scheduler W, !UploadWorld W, !MerkleWorld W}.
Context (self : Client) (UPLOAD_FLOW_BATCH_SIZE CHUNK_UPLOAD_BATCH_SIZE : nat) (IN_MEMORY_ENCRYPTION_MAX_SIZE : Z).

#[local] Open Scope cm_scope.

Definition cm_tasks {E A R} (tasks : list (CM W E A)) : CM W R (list (result A E)) :=
  λ w, let '(rs, w) := process_tasks_with_max_concurrency tasks w in (Ok rs, w).

(** ** Candidate pools: payments.rs *)

Definition MERKLE_K_VALUE : nat := 20.

Definition candidate_distance (network_addr : NetworkAddress) (peer_id : bytes) : Z := distance network_addr (NA_PeerId peer_id).

(** The quotes of peers, as they come; failures are left out. *)
Definition quote_peers (network_addr : NetworkAddress) (data_type : DataTypes) (data_size timestamp : Z) (peers : list PeerInfo)
    : CM W ClientMerkleError (list (bytes * MerklePaymentCandidateNode)) :=
  let! results := cm_tasks ((λ peer w, let '(r, w) := net_get_merkle_candidate_quote network_addr peer (get_index data_type) data_size timestamp w in
                              (match r with Ok candidate => Ok (pi_peer_id peer, candidate) | Err e => Err e end, w)) <$> peers) in
  cm_ret (omap rok results).

(** At least sixteen different peers to ask, completed with the closest of those known to kademlia. *)
Definition merkle_peers (network_addr : NetworkAddress) : CM W ClientMerkleError (list PeerInfo) :=
  let! closest_peers := cm_map_err CME_Network (net_get_closest_n network_addr PEERS_TO_QUERY) in
  let unique_peers : gmap bytes PeerInfo := foldl (λ m p, <[pi_peer_id p := p]> m) ∅ closest_peers in
  if (CANDIDATES_PER_POOL <=? size unique_peers)%nat then cm_ret (hm_iter unique_peers).*2
  else
    let! kad := cm_try (net_get_closest_peers_kad_only network_addr (Some MERKLE_K_VALUE)) in
    let unique_peers := match kad with
      | Ok kad_peers =>
        let new_peers := filter (λ p, unique_peers !! pi_peer_id p = None) kad_peers in
        let new_peers := sort_by_key (λ p, candidate_distance network_addr (pi_peer_id p)) new_peers in
        foldl (λ m p, match m !! pi_peer_id p with None => <[pi_peer_id p := p]> m | Some _ => m end) unique_peers
          (take (CANDIDATES_PER_POOL - size unique_peers) new_peers)
      | Err _ => unique_peers
      end in
    if (size unique_peers <? CANDIDATES_PER_POOL)%nat then cm_err (CME_InsufficientCandidates (size unique_peers) CANDIDATES_PER_POOL)
    else cm_ret (hm_iter unique_peers).*2.

(** More quotes from peers known to kademlia, as many as are missing. *)
Definition complete_quotes (network_addr : NetworkAddress) (data_type : DataTypes) (data_size timestamp : Z) (queried : list PeerInfo)
    (successful_candidates : list (bytes * MerklePaymentCandidateNode)) : CM W ClientMerkleError (list (bytes * MerklePaymentCandidateNode)) :=
  if (CANDIDATES_PER_POOL <=? length successful_candidates)%nat then cm_ret successful_candidates
  else
    let! kad := cm_try (net_get_closest_peers_kad_only network_addr (Some MERKLE_K_VALUE)) in
    match kad with
    | Err _ => cm_ret successful_candidates
    | Ok kad_peers =>
      let unqueried := filter (λ p, pi_peer_id p ∉ (pi_peer_id <$> queried)) kad_peers in
      if decide (unqueried = []) then cm_ret successful_candidates
      else
        let! new_successes := quote_peers network_addr data_type data_size timestamp unqueried in
        let new_successes := sort_by_key (λ x, candidate_distance network_addr x.1) new_successes in
        cm_ret (successful_candidates ++ take (CANDIDATES_PER_POOL - length successful_candidates) new_successes)
    end.

Definition get_merkle_candidate_pool (target_address : bytes) (data_type : DataTypes) (data_size timestamp : Z)
    : CM W ClientMerkleError (list MerklePaymentCandidateNode) :=
  let network_addr := NA_ChunkAddress (mkChunkAddress target_address) in
  let! peers := merkle_peers network_addr in
  let! successful_candidates := quote_peers network_addr data_type data_size timestamp peers in
  let! successful_candidates := complete_quotes network_addr data_type data_size timestamp peers successful_candidates in
  let candidates := snd <$> take CANDIDATES_PER_POOL (sort_by_key (λ x, candidate_distance network_addr x.1) successful_candidates) in
  if decide (length candidates = CANDIDATES_PER_POOL) then cm_ret candidates
  else cm_err (CME_InsufficientCandidates (length candidates) CANDIDATES_PER_POOL).

Definition build_single_candidate_pool (midpoint_proof : MidpointProof) (data_type : DataTypes) (data_size : Z)
    : CM W ClientMerkleError MerklePaymentCandidatePool :=
  let timestamp := mp_merkle_payment_timestamp midpoint_proof in
  let! candidate_nodes := get_merkle_candidate_pool (midpoint_address midpoint_proof) data_type data_size timestamp in
  let pool := {| pool_midpoint_proof := midpoint_proof; pool_candidate_nodes := candidate_nodes |} in
  let! _ := cm_lift (map_err CME_PoolVerification (verify_signatures pool timestamp)) in
  cm_ret pool.

(** [try_join_all]: the pools in order, or an error. *)
Fixpoint build_candidate_pools (midpoint_proofs : list MidpointProof) (data_type : DataTypes) (data_size : Z)
    : CM W ClientMerkleError (list MerklePaymentCandidatePool) :=
  match midpoint_proofs with
  | [] => cm_ret []
  | proof :: rest =>
    let! pool := build_single_candidate_pool proof data_type data_size in
    let! pools := build_candidate_pools rest data_type data_size in
    cm_ret (pool :: pools)
  end.

(** A single address is doubled. *)
Definition prepare_merkle_batch (data_type : DataTypes) (addresses : list bytes) (data_size : Z)
    : CM W ClientMerkleError (MerkleTree * list MerklePaymentCandidatePool * list PoolCommitment * Z) :=
  let leaves := match addresses with [only_one] => [only_one; only_one] | _ => addresses end in
  let! salts := (λ w, let '(salts, w) := random_salts w in (Ok salts, w)) in
  let! tree := cm_lift (map_err CME_MerkleTree (from_xornames salts.1 salts.2 leaves)) in
  let! now := cm_get unix_now in
  let! merkle_payment_timestamp := cm_lift (ok_or now CME_TimestampError) in
  let! midpoint_proofs := cm_lift (map_err CME_MerkleTree (reward_candidates tree merkle_payment_timestamp)) in
  let! candidate_pools := build_candidate_pools midpoint_proofs data_type data_size in
  cm_ret (tree, candidate_pools, to_commitment <$> candidate_pools, merkle_payment_timestamp).

(** The proofs of the addresses from the one with index [i]. *)
Fixpoint payment_proofs (tree : MerkleTree) (winner_pool : MerklePaymentCandidatePool) (i : Z) (addresses : list bytes) (proofs : gmap bytes MerklePaymentProof)
    : result (gmap bytes MerklePaymentProof) ClientMerkleError :=
  match addresses with
  | [] => Ok proofs
  | address :: rest =>
    (let? address_proof := map_err CME_MerkleTree (generate_address_proof tree i address) in
     payment_proofs tree winner_pool (i + 1) rest
       (<[address := {| mpp_address := address; mpp_data_proof := address_proof; mpp_winner_pool := winner_pool |}]> proofs))%rust
  end.

Definition pay_for_single_merkle_batch (data_type : DataTypes) (addresses : list bytes) (data_size : Z) (wallet : EvmWallet)
    : CM W ClientMerkleError MerklePaymentReceipt :=
  let! (tree, candidate_pools, pool_commitments, merkle_payment_timestamp) := prepare_merkle_batch data_type addresses data_size in
  let! (winner_pool_hash, amount) := cm_map_err CME_EvmWalletError (wallet_pay_for_merkle_tree (mt_depth tree) pool_commitments merkle_payment_timestamp) in
  let! winner_pool := cm_lift (ok_or (snd <$> list_find (λ pool, pool_hash pool = winner_pool_hash) candidate_pools) CME_SmartContract) in
  let! proofs := cm_lift (payment_proofs tree winner_pool 0 addresses ∅) in
  cm_ret {| mr_proofs := proofs; mr_file_chunk_counts := ∅; mr_amount_paid := amount; mr_already_existed := ∅; mr_uploaded := ∅ |}.

Fixpoint pay_batches (data_type : DataTypes) (batches : list (list bytes)) (data_size : Z) (wallet : EvmWallet) (merged_receipt : MerklePaymentReceipt)
    : CM W ClientMerkleError MerklePaymentReceipt :=
  match batches with
  | [] => cm_ret merged_receipt
  | batch :: rest =>
    let! receipt := pay_for_single_merkle_batch data_type batch data_size wallet in
    pay_batches data_type rest data_size wallet (merkle_receipt_merge merged_receipt receipt)
  end.

(** [MAX_LEAVES] as a number of items. *)
Definition max_leaves : nat := Z.to_nat MAX_LEAVES.

Definition pay_for_merkle_batch (data_type : DataTypes) (content_addrs : list bytes) (data_size : Z) (wallet : EvmWallet)
    : CM W ClientMerkleError MerklePaymentReceipt :=
  if bool_decide (wallet_network wallet ≠ cl_evm_network self) then cm_err CME_EvmWalletNetworkMismatch
  else pay_batches data_type (chunks_of (length content_addrs) max_leaves content_addrs) data_size wallet merkle_receipt_default.

(** ** Uploads: upload.rs *)

(** The closest peers, or what kademlia knows; then once more with the latter. *)
Definition upload_record_with_merkle_proof (network_addr : NetworkAddress) (data_type : DataTypes) (value : bytes) : CM W MerklePutError () :=
  let record := record_of network_addr value in
  let! closest := cm_try (net_get_closest_peers_with_retries network_addr) in
  let! storing_nodes := match closest with
                        | Ok peers => cm_ret peers
                        | Err _ => cm_map_err MPE_Network (net_get_closest_peers_kad_only network_addr None)
                        end in
  let! put := cm_try (net_put_record_with_retries Chunk_t record storing_nodes) in
  match put with
  | Ok _ => cm_ret ()
  | Err _ =>
    let! fallback_nodes := cm_map_err MPE_Network (net_get_closest_peers_kad_only network_addr None) in
    cm_map_err MPE_Network (net_put_record_with_retries Chunk_t record fallback_nodes)
  end.

Definition upload_chunk_with_merkle_proof (chunk : Chunk) (proof : MerklePaymentProof) : CM W MerklePutError ChunkAddress :=
  let! value := cm_lift (map_err (λ _, MPE_Serialization) (try_serialize_record (proof, chunk) (DataWithMerklePayment Chunk_t))) in
  let! _ := upload_record_with_merkle_proof (chunk_network_address chunk) Chunk_t value in
  cm_ret (chunk_address chunk).

(** The chunks to upload with their proofs; a missing proof ends it. *)
Fixpoint merkle_tasks (receipt : MerklePaymentReceipt) (dont_reupload : gset bytes) (chunks : list Chunk) : result (list (Chunk * MerklePaymentProof)) MerklePutError :=
  match chunks with
  | [] => Ok []
  | chunk :: rest =>
    if bool_decide (chunk_name chunk ∈ dont_reupload) then merkle_tasks receipt dont_reupload rest
    else (let? proof := ok_or (mr_proofs receipt !! chunk_name chunk) (MPE_MissingPaymentProofFor (chunk_name chunk)) in
          let? tasks := merkle_tasks receipt dont_reupload rest in
          Ok ((chunk, proof) :: tasks))%rust
  end.

Definition merkle_upload_task (x : Chunk * MerklePaymentProof) : CM W (Chunk * MerklePutError) ChunkAddress :=
  cm_map_err (λ e, (x.1, e)) (upload_chunk_with_merkle_proof x.1 x.2).

(** Successes are not uploaded again, failures are kept. *)
Definition collect_uploads (results : list (result ChunkAddress (Chunk * MerklePutError))) (acc : gset bytes * list (Chunk * bytes))
    : gset bytes * list (Chunk * bytes) :=
  foldl (λ acc r, match r with
                  | Ok addr => ({[chunk_address_xorname addr]} ∪ acc.1, acc.2)
                  | Err (chunk, err) => (acc.1, acc.2 ++ [(chunk, merkle_put_error_text err)])
                  end) acc results.

(** What the loop changes; a completed file is its path, data map and metadata. *)
Definition FileResult : Type := PathBuf * DataMapChunk * Metadata.

Record MerkleLoop := {
  ml_streams : list EncryptionStream;
  ml_dont_reupload : gset bytes;
  ml_completed_files : list FileResult;
  ml_failed_chunks : list (Chunk * bytes);
  ml_chunks_attempted : nat;
}.

Definition file_result (s : EncryptionStream) : option FileResult := (λ d, (es_relative_path s, d, es_metadata s)) <$> data_map_chunk s.

(** Chunks are taken from the first stream until [limit] were tried, not counting those that are skipped. *)
Fixpoint upload_batch_loop (fuel : nat) (receipt : MerklePaymentReceipt) (limit : nat) (s : MerkleLoop) : CM W MerklePutError (option MerkleLoop) :=
  match fuel with
  | O => cm_ret None
  | S fuel =>
    if (limit <=? ml_chunks_attempted s)%nat then cm_ret (Some s)
    else match ml_streams s with
    | [] => cm_ret (Some s)
    | stream :: rest =>
      match next_batch stream (Nat.min UPLOAD_FLOW_BATCH_SIZE (limit - ml_chunks_attempted s)) with
      | (Some (c :: cs), stream) =>
        let! tasks := cm_lift (merkle_tasks receipt (ml_dont_reupload s) (c :: cs)) in
        let! results := cm_tasks (merkle_upload_task <$> tasks) in
        let '(dont_reupload, failed) := collect_uploads results (ml_dont_reupload s, ml_failed_chunks s) in
        upload_batch_loop fuel receipt limit
          {| ml_streams := stream :: rest; ml_dont_reupload := dont_reupload; ml_completed_files := ml_completed_files s;
             ml_failed_chunks := failed; ml_chunks_attempted := (ml_chunks_attempted s + length tasks)%nat |}
      | (_, stream) =>
        let! file := cm_lift (ok_or (file_result stream) MPE_StreamShouldHaveDatamap) in
        upload_batch_loop fuel receipt limit
          {| ml_streams := rest; ml_dont_reupload := ml_dont_reupload s; ml_completed_files := ml_completed_files s ++ [file];
             ml_failed_chunks := ml_failed_chunks s; ml_chunks_attempted := ml_chunks_attempted s |}
      end
    end
  end.

(** The streams that are left, the files that are done, the chunks that failed, and the names not to upload again. *)
Definition upload_batch_with_merkle (fuel : nat) (streams : list EncryptionStream) (receipt : MerklePaymentReceipt) (dont_reupload : gset bytes) (limit : nat)
    : CM W MerklePutError (option MerkleLoop) :=
  upload_batch_loop fuel receipt limit
    {| ml_streams := streams; ml_dont_reupload := dont_reupload; ml_completed_files := []; ml_failed_chunks := []; ml_chunks_attempted := 0 |}.

Fixpoint retry_failed_merkle_chunks (max_retries : nat) (failed_chunks : list (Chunk * bytes)) (receipt : MerklePaymentReceipt) (already_exist : gset bytes)
    (retry_pause_secs : Z) : CM W MerklePutError (list (Chunk * bytes) * gset bytes) :=
  match max_retries, failed_chunks with
  | O, _ | _, [] => cm_ret (failed_chunks, already_exist)
  | S max_retries, _ =>
    let! _ := cm_modify (client_pause retry_pause_secs) in
    let! tasks := cm_lift (merkle_tasks receipt already_exist failed_chunks.*1) in
    let! results := cm_tasks (merkle_upload_task <$> tasks) in
    let '(already_exist, failed_chunks) := collect_uploads results (already_exist, []) in
    retry_failed_merkle_chunks max_retries failed_chunks receipt already_exist retry_pause_secs
  end.

(** ** Existence: network.rs *)

(** One answer of any content counts. *)
Definition check_record_exists (addr : NetworkAddress) (w : W) : option NetworkAddress * W :=
  match net_get_record_one addr w with
  | (Ok (Some _), w) | (Err (SplitRecord _), w) => (Some addr, w)
  | (_, w) => (None, w)
  end.

Fixpoint check_batches (batches : list (list NetworkAddress)) (existing : gset NetworkAddress) (w : W) : gset NetworkAddress * W :=
  match batches with
  | [] => (existing, w)
  | batch :: rest =>
    let '(results, w) := process_tasks_with_max_concurrency (check_record_exists <$> batch) w in
    check_batches rest (existing ∪ list_to_set (omap id results)) w
  end.

Definition check_records_exist_batch (addresses : list NetworkAddress) (batch_size : nat) (w : W) : gset NetworkAddress * W :=
  check_batches (chunks_of (length addresses) batch_size addresses) ∅ w.

(** ** Files: file.rs *)

(** The chunks of a stream, drawn until it is exhausted. *)
Fixpoint drain_stream (fuel batch_size : nat) (stream : EncryptionStream) (chunks : list Chunk) : option (list Chunk * EncryptionStream) :=
  match fuel with
  | O => None
  | S fuel =>
    match next_batch stream batch_size with
    | (Some batch, stream) => drain_stream fuel batch_size stream (chunks ++ batch)
    | (None, stream) => Some (chunks, stream)
    end
  end.

(** [None] when the fuel is used up. *)
Definition collect_xor_names_from_stream (fuel : nat) (encryption_stream : EncryptionStream) : option (result (list bytes * FileResult) FileError) :=
  match drain_stream fuel (Nat.max 32 CHUNK_UPLOAD_BATCH_SIZE) encryption_stream [] with
  | None => None
  | Some (chunks, stream) =>
    Some (let? file := ok_or (file_result stream) (FE_NoDatamap (es_file_path stream)) in Ok (chunk_name <$> chunks, file))%rust
  end.

Fixpoint collect_streams (fuel : nat) (streams : list EncryptionStream) (acc : list bytes * gmap bytes nat * list FileResult)
    : option (result (list bytes * gmap bytes nat * list FileResult) FileError) :=
  match streams with
  | [] => Some (Ok acc)
  | stream :: rest =>
    collected ← collect_xor_names_from_stream fuel stream;
    match collected with
    | Err e => Some (Err e)
    | Ok (xor_names, file) =>
      collect_streams fuel rest (acc.1.1 ++ xor_names, <[es_file_path stream := length xor_names]> acc.1.2, acc.2 ++ [file])
    end
  end.

(** The streams of a directory; [None] for an error of the walk. *)
Definition directory_streams (path : PathBuf) (is_public : bool) : CM W (option FileError) (list EncryptionStream) :=
  let! found := (λ w, let '(r, w) := encrypt_directory_files IN_MEMORY_ENCRYPTION_MAX_SIZE path is_public w in (ok_or r None, w)) in
  cm_lift (map_err Some (collect found)).

Definition collect_xornames_from_dir (fuel : nat) (path : PathBuf) (is_public : bool)
    : CM W (option FileError) (option (list bytes * gmap bytes nat * list FileResult)) :=
  let! streams := directory_streams path is_public in
  match collect_streams fuel streams ([], ∅, []) with
  | None => cm_ret None
  | Some (Ok collected) => cm_ret (Some collected)
  | Some (Err e) => cm_err (Some e)
  end.

(** [filter(|xn| seen.insert(xn))]: the first occurrences. *)
Fixpoint dedup (seen : gset bytes) (xornames : list bytes) : list bytes :=
  match xornames with
  | [] => []
  | xn :: rest => if bool_decide (xn ∈ seen) then dedup seen rest else xn :: dedup ({[xn]} ∪ seen) rest
  end.

Definition split_existing_and_new_chunks (xornames : list bytes) (receipt : MerklePaymentReceipt) (w : W) : (gset bytes * list bytes) * W :=
  let unique_ordered := dedup ∅ xornames in
  let known xn := bool_decide (xn ∈ mr_already_existed receipt) || bool_decide (xn ∈ mr_uploaded receipt) in
  let known_existing : gset bytes := list_to_set (filter (λ xn, known xn = true) unique_ordered) in
  let need_check := filter (λ xn, known xn = false ∧ mr_proofs receipt !! xn = None) unique_ordered in
  if decide (need_check = []) then ((known_existing, filter (λ xn, xn ∉ known_existing) unique_ordered), w)
  else
    let '(existing_addrs, w) := check_records_exist_batch ((λ xn, NA_ChunkAddress (mkChunkAddress xn)) <$> need_check) (Nat.max 16 CHUNK_UPLOAD_BATCH_SIZE) w in
    let all_existing := known_existing ∪ list_to_set (omap network_address_xorname (hs_iter existing_addrs)) in
    ((all_existing, filter (λ xn, xn ∉ all_existing) unique_ordered), w).

Definition pay_for_merkle_tree_batch (wallet : option EvmWallet) (batch_xornames : list bytes) (receipt : MerklePaymentReceipt)
    : CM W MerkleUploadError MerklePaymentReceipt :=
  let missing_xn := default (replicate 32 0) (head (filter (λ xn, mr_proofs receipt !! xn = None) batch_xornames)) in
  let! wallet := cm_lift (ok_or wallet (MUE_Upload (MPE_MissingPaymentProofFor missing_xn))) in
  let! batch_receipt := cm_map_err MUE_Payment (pay_for_single_merkle_batch Chunk_t batch_xornames MAX_CHUNK_SIZE wallet) in
  cm_ret (merkle_receipt_merge receipt batch_receipt).

Definition UPLOAD_MAX_RETRIES : nat := 3.

(** What the batches change. *)
Record FilesLoop := {
  fl_receipt : MerklePaymentReceipt;
  fl_already_exist : gset bytes;
  fl_streams : list EncryptionStream;
  fl_results : list FileResult;
}.

(** A batch: pay if a proof is missing, upload as many chunks as it has names, retry what failed. *)
Definition merkle_batch (fuel : nat) (wallet : option EvmWallet) (batch_xornames : list bytes) (s : FilesLoop)
    : CM W MerkleUploadErrorWithReceipt (option FilesLoop) :=
  let! receipt := (if decide (Exists (λ xn, mr_proofs (fl_receipt s) !! xn = None) batch_xornames) then
                     let! receipt := cm_map_err (upload_error (fl_receipt s)) (pay_for_merkle_tree_batch wallet batch_xornames (fl_receipt s)) in
                     let! _ := cm_modify (send_merkle_batch_payment_complete self receipt) in
                     cm_ret receipt
                   else cm_ret (fl_receipt s)) in
  let! uploaded := cm_map_err (λ e, upload_error receipt (MUE_Upload e))
                     (upload_batch_with_merkle fuel (fl_streams s) receipt (fl_already_exist s) (length batch_xornames)) in
  match uploaded with
  | None => cm_ret None
  | Some u =>
    let max_retries := if decide (cl_retry_failed self = 0%nat) then UPLOAD_MAX_RETRIES else cl_retry_failed self in
    let! already_exist := (if decide (ml_failed_chunks u = []) then cm_ret (ml_dont_reupload u)
                           else
                             let! retried := cm_map_err (λ e, upload_error receipt (MUE_Upload e))
                               (retry_failed_merkle_chunks max_retries (ml_failed_chunks u) receipt (ml_dont_reupload u) UPLOAD_RETRY_PAUSE_SECS) in
                             if decide (retried.1 = []) then cm_ret retried.2
                             else cm_err (upload_error receipt (MUE_Upload (MPE_Batch retried.1)))) in
    let newly_uploaded := already_exist ∖ fl_already_exist s in
    let! receipt := (if decide (newly_uploaded = ∅) then cm_ret receipt
                     else
                       let receipt := add_uploaded receipt newly_uploaded in
                       let! _ := cm_modify (send_merkle_batch_payment_complete self receipt) in
                       cm_ret receipt) in
    cm_ret (Some {| fl_receipt := receipt; fl_already_exist := already_exist; fl_streams := ml_streams u;
                    fl_results := fl_results s ++ ml_completed_files u |})
  end.

Fixpoint merkle_batches (fuel : nat) (wallet : option EvmWallet) (batches : list (list bytes)) (s : FilesLoop)
    : CM W MerkleUploadErrorWithReceipt (option FilesLoop) :=
  match batches with
  | [] => cm_ret (Some s)
  | batch_xornames :: rest =>
    let! done := merkle_batch fuel wallet batch_xornames s in
    match done with None => cm_ret None | Some s => merkle_batches fuel wallet rest s end
  end.

(** The streams that are left give their data maps; one still in progress is drained first. *)
Fixpoint remaining_streams (fuel : nat) (receipt : MerklePaymentReceipt) (streams : list EncryptionStream) (results : list FileResult)
    : result (option (list FileResult)) MerkleUploadErrorWithReceipt :=
  match streams with
  | [] => Ok (Some results)
  | stream :: rest =>
    match file_result stream with
    | Some file => remaining_streams fuel receipt rest (results ++ [file])
    | None =>
      match drain_stream fuel 16 stream [] with
      | None => Ok None
      | Some (_, stream) =>
        match file_result stream with
        | Some file => remaining_streams fuel receipt rest (results ++ [file])
        | None => Err (upload_error receipt (MUE_Upload MPE_StreamShouldHaveDatamap))
        end
      end
    end
  end.

Definition with_chunk_counts (receipt : MerklePaymentReceipt) (counts : gmap bytes nat) : MerklePaymentReceipt :=
  {| mr_proofs := mr_proofs receipt; mr_file_chunk_counts := counts; mr_amount_paid := mr_amount_paid receipt;
     mr_already_existed := mr_already_existed receipt; mr_uploaded := mr_uploaded receipt |}.

(** The amount paid and the files. *)
Definition files_put_with_merkle_payment_internal (fuel : nat) (path : PathBuf) (is_public : bool) (wallet : option EvmWallet) (receipt : MerklePaymentReceipt)
    : CM W MerkleUploadErrorWithReceipt (option (Z * list FileResult)) :=
  if match wallet with Some w => bool_decide (wallet_network w ≠ cl_evm_network self) | None => false end then
    cm_err (upload_error receipt (MUE_Payment CME_EvmWalletNetworkMismatch))
  else
    let! collected := cm_map_err (λ e, upload_error receipt (MUE_Encryption e)) (collect_xornames_from_dir fuel path is_public) in
    match collected with
    | None => cm_ret None
    | Some (all_xor_names, file_chunk_counts, first_pass_results) =>
      let receipt := with_chunk_counts receipt file_chunk_counts in
      let! (already_exist, xor_to_pay_ordered) := (λ w, let '(r, w) := split_existing_and_new_chunks all_xor_names receipt w in (Ok r, w)) in
      let already_paid_count := size already_exist in
      let receipt := add_already_existed receipt already_exist in
      let! _ := cm_modify (if decide (mr_proofs receipt = ∅ ∧ mr_already_existed receipt = ∅) then id else send_merkle_batch_payment_complete self receipt) in
      if decide (xor_to_pay_ordered = []) then
        let! _ := cm_modify (send_upload_complete self (size (mr_proofs receipt)) already_paid_count (mr_amount_paid receipt)) in
        cm_ret (Some (mr_amount_paid receipt, first_pass_results))
      else
        let! streams := cm_map_err (λ e, upload_error receipt (MUE_Encryption e)) (directory_streams path is_public) in
        let! done := merkle_batches fuel wallet (chunks_of (length xor_to_pay_ordered) max_leaves xor_to_pay_ordered)
                       {| fl_receipt := receipt; fl_already_exist := already_exist; fl_streams := streams; fl_results := [] |} in
        match done with
        | None => cm_ret None
        | Some s =>
          let! results := cm_lift (remaining_streams fuel (fl_receipt s) (fl_streams s) (fl_results s)) in
          match results with
          | None => cm_ret None
          | Some results =>
            let! _ := cm_modify (send_upload_complete self (size (mr_proofs (fl_receipt s))) already_paid_count (mr_amount_paid (fl_receipt s))) in
            cm_ret (Some (mr_amount_paid (fl_receipt s), results))
          end
        end
    end.

Inductive MerklePaymentOption :=
  | MPO_Wallet (wallet : EvmWallet)
  | MPO_Receipt (receipt : MerklePaymentReceipt)
  | MPO_ContinueWithReceipt (wallet : EvmWallet) (receipt : MerklePaymentReceipt).

Definition files_put_with_merkle_payment (fuel : nat) (path : PathBuf) (is_public : bool) (payment : MerklePaymentOption)
    : CM W MerkleUploadErrorWithReceipt (option (Z * list FileResult)) :=
  match payment with
  | MPO_Wallet wallet => files_put_with_merkle_payment_internal fuel path is_public (Some wallet) merkle_receipt_default
  | MPO_Receipt receipt => files_put_with_merkle_payment_internal fuel path is_public None receipt
  | MPO_ContinueWithReceipt wallet receipt => files_put_with_merkle_payment_internal fuel path is_public (Some wallet) receipt
  end.
End merkle.
