(* ===== verification/ClientMerkleProps.v ===== *)
(** * Properties of uploads with batch payments

    Of src/autonomi/src/client/merkle_payments: the loops end; an upload that succeeds has stored every
    chunk of files in which no chunk occurs twice; and chunks that occur twice make it leave others out. *)

From stdpp Require Import base gmap countable strings list.
From Stdlib Require Import ZArith Lia.
From S2P Require Import Prelude Text Effects Protocol Storage RecordCache RecordStore MerkleTree MerkleTreeProps Payments PaymentsProps.
From S2P Require Import PutValidation PutValidationFacts PutValidationProps Messages Driver TaskHandler.
From S2P Require Import ClientPayment ClientData ClientExamples Encryption ClientChunks ClientUpload ClientUploadProps ClientMerkle.

Section merkle.
Context `{XorNameLib, Hex, Bls, Layout, Kad, RmpHeader, Libp2pIdentity, AntMerkle, HashOrder, SelfEncryption}.
Context `{!BodySerde, !Serde DataMap, !Serde DataMapLevel, !PutErrorText}.

(** Nothing of it loses a chunk; a put with a batch proof that succeeds stores its chunk; who answers for a chunk's
    existence tells the truth. *)
Class MerkleNetworkLaws (W : Type) `{!ClientWorld W, !Disk W, !Scheduler W, !UploadWorld W, !MerkleWorld W, !ChunkNetwork W} : Prop := {
  merkle_chunk_laws :: ChunkNetworkLaws W;
  grows_closest a (w : W) : w ⊑ (net_get_closest_peers_with_retries a w).2;
  grows_closest_n a n (w : W) : w ⊑ (net_get_closest_n a n w).2;
  grows_kad_only a n (w : W) : w ⊑ (net_get_closest_peers_kad_only a n w).2;
  grows_candidate a p i s t (w : W) : w ⊑ (net_get_merkle_candidate_quote a p i s t w).2;
  grows_get_one a (w : W) : w ⊑ (net_get_record_one a w).2;
  grows_pay_tree d p t (w : W) : w ⊑ (wallet_pay_for_merkle_tree d p t w).2;
  grows_salts (w : W) : w ⊑ (random_salts w).2;
  grows_read p (w : W) : w ⊑ (disk_read p w).2;
  merkle_put_holds (c : Chunk) (proof : MerklePaymentProof) v targets (w w' : W) :
    try_serialize_record (proof, c) (DataWithMerklePayment Chunk_t) = Ok v →
    net_put_record_with_retries Chunk_t (record_of (chunk_network_address c) v) targets w = (Ok tt, w') → net_holds w' c;
  exists_holds (c : Chunk) (w w' : W) :
    (check_record_exists (chunk_network_address c) w).1 ≠ None → (check_record_exists (chunk_network_address c) w).2 = w' → net_holds w' c;
}.

(** ** The loops end *)

Context `{!ClientWorld W, !Disk W, !Scheduler W, !UploadWorld W, !MerkleWorld W}.
Context (self : Client) (UPLOAD_FLOW_BATCH_SIZE CHUNK_UPLOAD_BATCH_SIZE : nat) (IN_MEMORY_ENCRYPTION_MAX_SIZE : Z).

Implicit Types (w : W) (c : Chunk).

(** The chunks some streams have still to give. *)
Definition all_chunks (streams : list EncryptionStream) : list Chunk := mjoin (stream_chunks <$> streams).

Lemma all_chunks_cons s streams : all_chunks (s :: streams) = stream_chunks s ++ all_chunks streams.
Proof. done. Qed.

Lemma drain_stream_ends fuel n s acc :
  (0 < n)%nat → (length (stream_chunks s) < fuel)%nat → ∃ s', drain_stream fuel n s acc = Some (acc ++ stream_chunks s, s') ∧ stream_chunks s' = [].
Proof.
  intros Hn. revert s acc. induction fuel as [|fuel IH]; intros s acc Hf; [lia|]. cbn [drain_stream].
  destruct (next_batch s n) as [o s'] eqn:Enb. destruct (next_batch_spec _ _ _ _ Enb) as (Hs & _ & Hend & Hsome). rewrite Hs in Hf |- *. rewrite length_app in Hf.
  destruct o as [batch|]; simpl in *.
  - assert (batch ≠ []) as Hne by (intros ->; by specialize (Hsome eq_refl); lia).
    destruct (IH s' (acc ++ batch)) as (s2 & Hd & Hs2); [destruct batch; [done|]; simpl in Hf; lia|]. exists s2. by rewrite Hd, <- app_assoc.
  - exists s'. by rewrite (Hend Hn eq_refl), app_nil_r.
Qed.

Lemma upload_batch_loop_ends fuel receipt limit s w :
  (length (all_chunks (ml_streams s)) + length (ml_streams s) < fuel)%nat → (upload_batch_loop UPLOAD_FLOW_BATCH_SIZE fuel receipt limit s w).1 ≠ Ok None.
Proof.
  revert s w. induction fuel as [|fuel IH]; intros s w Hf; [lia|]. cbn [upload_batch_loop].
  destruct (_ <=? _)%nat; [done|]. destruct (ml_streams s) as [|st rest] eqn:Es; [done|].
  destruct (next_batch st _) as [o st'] eqn:Enb. destruct (next_batch_spec _ _ _ _ Enb) as (Hs & _).
  rewrite all_chunks_cons, Hs, !length_app in Hf. cbn [length] in Hf. destruct o as [[|c cs]|]; cbn [default length] in Hf.
  - unfold cm_bind, cm_lift. destruct (ok_or _ _); [|done]. apply IH. cbn [ml_streams]. lia.
  - unfold cm_bind, cm_lift, cm_tasks. destruct (merkle_tasks _ _ _) as [tasks|]; [|done].
    destruct (process_tasks_with_max_concurrency _ _) as [rs w1]. destruct (collect_uploads _ _). apply IH. cbn [ml_streams]. rewrite all_chunks_cons, length_app. cbn [length]. simpl in Hf. lia.
  - unfold cm_bind, cm_lift. destruct (ok_or _ _); [|done]. apply IH. cbn [ml_streams]. lia.
Qed.

Lemma upload_batch_loop_draws fuel receipt limit s w s' w' :
  upload_batch_loop UPLOAD_FLOW_BATCH_SIZE fuel receipt limit s w = (Ok (Some s'), w') →
  (length (all_chunks (ml_streams s')) + length (ml_streams s') ≤ length (all_chunks (ml_streams s)) + length (ml_streams s))%nat.
Proof.
  revert s w. induction fuel as [|fuel IH]; intros s w; [done|]. cbn [upload_batch_loop].
  destruct (_ <=? _)%nat; [by intros [= <- <-]|]. destruct (ml_streams s) as [|st rest] eqn:Es; [intros [= <- <-]; by rewrite Es|].
  destruct (next_batch st _) as [o st'] eqn:Enb. destruct (next_batch_spec _ _ _ _ Enb) as (Hs & _). rewrite all_chunks_cons, Hs, !length_app.
  destruct o as [[|c chunks]|]; unfold cm_bind, cm_lift, cm_tasks.
  - destruct (ok_or _ _); [|done]. intros Hrun%IH. simpl in *. lia.
  - destruct (merkle_tasks _ _ _) as [tasks|]; [|done]. destruct (process_tasks_with_max_concurrency _ _) as [rs w1].
    destruct (collect_uploads _ _). intros Hrun%IH. cbn [ml_streams default length] in *. rewrite all_chunks_cons, length_app in Hrun. lia.
  - destruct (ok_or _ _); [|done]. intros Hrun%IH. simpl in *. lia.
Qed.

Lemma merkle_batches_end fuel wallet batches s w :
  (length (all_chunks (fl_streams s)) + length (fl_streams s) < fuel)%nat →
  match (merkle_batches self UPLOAD_FLOW_BATCH_SIZE fuel wallet batches s w).1 with
  | Ok None => False
  | Ok (Some s') => (length (all_chunks (fl_streams s')) + length (fl_streams s') < fuel)%nat
  | Err _ => True end.
Proof.
  revert s w. induction batches as [|names batches IH]; intros s w Hf; cbn [merkle_batches]; [done|]. unfold cm_bind at 1.
  cut (match (merkle_batch self UPLOAD_FLOW_BATCH_SIZE fuel wallet names s w).1 with
       | Ok None => False | Ok (Some s') => (length (all_chunks (fl_streams s')) + length (fl_streams s') < fuel)%nat | Err _ => True end).
  { destruct (merkle_batch _ _ _ _ _ _ w) as [[[s1|]|e] w1]; simpl; [apply IH|done..]. }
  clear IH. unfold merkle_batch. match goal with |- context [cm_bind ?m ?k w] => unfold cm_bind at 1; destruct (m w) as [[receipt|e] w1]; [|done] end.
  unfold cm_bind at 1, cm_map_err. destruct (upload_batch_with_merkle _ _ _ _ _ _ w1) as [[[u|]|e] w2] eqn:Eu; [| |done].
  - apply upload_batch_loop_draws in Eu. simpl in Eu. cbn [map_err].
    match goal with |- context [cm_bind ?m ?k w2] => unfold cm_bind at 1; destruct (m w2) as [[D|e] w3]; [|done] end.
    match goal with |- context [cm_bind ?m ?k w3] => unfold cm_bind at 1; destruct (m w3) as [[r|e] w4]; [|done] end. simpl. lia.
  - exfalso. apply (upload_batch_loop_ends fuel receipt (length names)
      {| ml_streams := fl_streams s; ml_dont_reupload := fl_already_exist s; ml_completed_files := []; ml_failed_chunks := []; ml_chunks_attempted := 0 |} w1 Hf).
    unfold upload_batch_with_merkle in Eu. by rewrite Eu.
Qed.

Lemma all_chunks_in st ss : st ∈ ss → (length (stream_chunks st) ≤ length (all_chunks ss))%nat.
Proof. intros (l & k & ->)%list_elem_of_split. unfold all_chunks. rewrite fmap_app, fmap_cons, join_app, length_app. simpl. rewrite length_app. lia. Qed.

Lemma collect_streams_end fuel ss acc : (∀ st, st ∈ ss → (length (stream_chunks st) < fuel)%nat) → collect_streams CHUNK_UPLOAD_BATCH_SIZE fuel ss acc ≠ None.
Proof.
  revert acc. induction ss as [|st ss IH]; intros acc Hf; [done|]. cbn [collect_streams]. unfold collect_xor_names_from_stream.
  destruct (drain_stream_ends fuel (Nat.max 32 CHUNK_UPLOAD_BATCH_SIZE) st []) as (st' & -> & _); [lia|apply Hf; left|]. simpl.
  destruct (file_result st'); simpl; [|done]. apply IH. intros x Hx. apply Hf. by right.
Qed.

Lemma remaining_streams_end fuel receipt ss results : (∀ st, st ∈ ss → (length (stream_chunks st) < fuel)%nat) → remaining_streams fuel receipt ss results ≠ Ok None.
Proof.
  revert results. induction ss as [|st ss IH]; intros results Hf; [done|]. cbn [remaining_streams].
  assert (∀ st, st ∈ ss → (length (stream_chunks st) < fuel)%nat) as Hf' by (intros x Hx; apply Hf; by right).
  destruct (file_result st); [by apply IH|]. destruct (drain_stream_ends fuel 16 st []) as (st' & -> & _); [lia|apply Hf; left|].
  destruct (file_result st'); [by apply IH|done].
Qed.

(** An upload of a directory with batch payments ends: with more turns than its files have chunks and it has files, no loop is cut
    short. *)
Theorem merkle_upload_ends (fuel : nat) (path : PathBuf) (is_public : bool) (wallet : option EvmWallet) (receipt : MerklePaymentReceipt) w :
  (∀ w1 ss w2, directory_streams IN_MEMORY_ENCRYPTION_MAX_SIZE path is_public w1 = (Ok ss, w2) → (length (all_chunks ss) + length ss < fuel)%nat) →
  (files_put_with_merkle_payment_internal self UPLOAD_FLOW_BATCH_SIZE CHUNK_UPLOAD_BATCH_SIZE IN_MEMORY_ENCRYPTION_MAX_SIZE fuel path is_public wallet receipt w).1 ≠ Ok None.
Proof.
  intros Hf. unfold files_put_with_merkle_payment_internal. destruct (match wallet with Some w => _ | None => _ end); [done|].
  unfold collect_xornames_from_dir, cm_map_err, cm_bind, cm_lift, cm_modify. destruct (directory_streams _ _ _ w) as [[ss1|e] w1] eqn:E1; [|done].
  pose proof (collect_streams_end fuel ss1 ([], ∅, [])) as Hc. destruct (collect_streams _ _ ss1 _) as [[[[names counts] files]|e]|]; [|done|].
  2: { exfalso. apply Hc; [|done]. intros st Hst. pose proof (Hf _ _ _ E1). pose proof (all_chunks_in _ _ Hst). lia. }
  cbn [cm_ret map_err]. destruct (split_existing_and_new_chunks _ names _ w1) as [[existing to_pay] w2].
  destruct (decide (to_pay = [])); [done|]. match goal with |- context [(if decide ?P then id else ?f) w2] => generalize ((if decide P then id else f) w2) end. intros w3.
  destruct (directory_streams _ _ _ w3) as [[ss2|e] w4] eqn:E2; [|done]. cbn [map_err].
  match goal with |- context [merkle_batches _ _ _ _ ?b ?s w4] => pose proof (merkle_batches_end fuel wallet b s w4 (Hf _ _ _ E2)) as Hb end.
  destruct (merkle_batches _ _ _ _ _ _ w4) as [[[s|]|e] w5]; [|done..]. simpl in Hb.
  pose proof (remaining_streams_end fuel (fl_receipt s) (fl_streams s) (fl_results s)) as Hr. destruct (remaining_streams _ _ _ _) as [[results|]|e]; [done| |done].
  exfalso. apply Hr; [|done]. intros st Hst. pose proof (all_chunks_in _ _ Hst). lia.
Qed.

(** ** Tasks *)

Context `{!ChunkNetwork W, !MerkleNetworkLaws W}.

#[local] Instance merkle_grows_preorder : PreOrder (⊑@{W}) := net_preorder.

Lemma keeps_err {E A} (e : E) : keeps (cm_err (A := A) e).
Proof. by intros w. Qed.
Lemma keeps_get {E A} (f : W → A) : keeps (cm_get (E := E) f).
Proof. by intros w. Qed.
Lemma keeps_modify {E} (f : W → W) : (∀ w, w ⊑ f w) → keeps (cm_modify (E := E) f).
Proof. intros Hf w. apply Hf. Qed.
Lemma keeps_try {E E' A} (m : CM W E A) : keeps m → keeps (cm_try (E := E') m).
Proof. intros Hm w. unfold cm_try. specialize (Hm w). by destruct (m w). Qed.

(** Takes an operation apart as far as its shape tells. *)
Ltac keeps_steps :=
  repeat match goal with
  | |- keeps (cm_bind _ _) => apply keeps_bind; [|intros ?]
  | |- keeps (cm_map_err _ _) => apply keeps_map_err
  | |- keeps (cm_try _) => apply keeps_try
  | |- keeps (cm_ret _) => apply keeps_ret
  | |- keeps (cm_err _) => apply keeps_err
  | |- keeps (cm_lift _) => apply keeps_lift
  | |- keeps (cm_get _) => apply keeps_get
  | |- keeps (if ?b then _ else _) => destruct b
  | |- keeps (match ?x with _ => _ end) => destruct x
  end.

Lemma run_tasks_keeps {X R} (g : X → W → R * W) items w : (∀ x w, w ⊑ (g x w).2) → w ⊑ (process_tasks_with_max_concurrency (g <$> items) w).2.
Proof.
  intros Hg. destruct (process_tasks_with_max_concurrency (g <$> items) w) as [rs w'] eqn:Ep.
  destruct (process_tasks_spec g (λ _ _ _, True) items w rs w') as (_ & _ & Hle & _); [|by split; [apply Hg|]|done..].
  intros n w0. split; [apply grows_completion|apply completion_all].
Qed.

Lemma cm_tasks_keeps {X E A R} (g : X → CM W E A) items : (∀ x, keeps (g x)) → keeps (cm_tasks (R := R) (g <$> items)).
Proof.
  intros Hg w. unfold cm_tasks. pose proof (run_tasks_keeps g items w (λ x, Hg x)) as Hk. unfold CM in *. by destruct (process_tasks_with_max_concurrency _ w).
Qed.

Lemma quote_peers_keeps a t s ts peers : keeps (quote_peers a t s ts peers).
Proof.
  unfold quote_peers. keeps_steps. apply cm_tasks_keeps. intros p w. pose proof (grows_candidate a p (get_index t) s ts w). by destruct (net_get_merkle_candidate_quote _ _ _ _ _ w).
Qed.

Lemma candidate_pool_keeps a t s ts : keeps (get_merkle_candidate_pool a t s ts).
Proof.
  unfold get_merkle_candidate_pool, merkle_peers, complete_quotes.
  keeps_steps; try apply quote_peers_keeps; try (intros w; apply grows_closest_n); intros w; apply grows_kad_only.
Qed.

Lemma build_pools_keeps proofs t s : keeps (build_candidate_pools proofs t s).
Proof.
  induction proofs as [|p proofs IH]; simpl; [apply keeps_ret|]. keeps_steps; [|done]. unfold build_single_candidate_pool. keeps_steps. apply candidate_pool_keeps.
Qed.

Lemma pay_single_keeps t addresses s wallet : keeps (pay_for_single_merkle_batch t addresses s wallet).
Proof.
  unfold pay_for_single_merkle_batch, prepare_merkle_batch. keeps_steps; try apply build_pools_keeps; [|intros w; apply grows_pay_tree].
  intros w. pose proof (grows_salts w). by destruct (random_salts w).
Qed.

Lemma upload_record_spec c (proof : MerklePaymentProof) v w :
  try_serialize_record (proof, c) (DataWithMerklePayment Chunk_t) = Ok v →
  w ⊑ (upload_record_with_merkle_proof (chunk_network_address c) Chunk_t v w).2 ∧
  ((upload_record_with_merkle_proof (chunk_network_address c) Chunk_t v w).1 = Ok () → net_holds (upload_record_with_merkle_proof (chunk_network_address c) Chunk_t v w).2 c).
Proof.
  intros Hv. set (a := chunk_network_address c). set (r := record_of a v).
  assert (∀ targets w, wp (net_put_record_with_retries Chunk_t r targets) (λ res w', w ⊑ w' ∧ (res = Ok () → net_holds w' c)) w) as Hput.
  { intros targets w0. unfold wp. split; [apply grows_put|]. destruct (net_put_record_with_retries _ _ _ w0) as [res w1] eqn:Ep. simpl. intros ->. by eapply merkle_put_holds. }
  assert (∀ n w, wp (net_get_closest_peers_kad_only a n) (λ _ w', w ⊑ w') w) as Hkad by (intros n w0; apply grows_kad_only).
  change (wp (upload_record_with_merkle_proof a Chunk_t v) (λ res w', w ⊑ w' ∧ (res = Ok () → net_holds w' c)) w).
  unfold upload_record_with_merkle_proof. fold r. wp_steps. eapply (wp_mono _ (λ _ w', w ⊑ w')); [apply grows_closest|]. intros closest w1 Hw1. cbn beta iota.
  assert (∀ nodes w2, w ⊑ w2 → wp (cm_bind (cm_try (net_put_record_with_retries Chunk_t r nodes))
    (λ put, match put with
            | Ok _ => cm_ret ()
            | Err _ => cm_bind (cm_map_err MPE_Network (net_get_closest_peers_kad_only a None))
                         (λ fallback_nodes, cm_map_err MPE_Network (net_put_record_with_retries Chunk_t r fallback_nodes))
            end)) (λ res w', w ⊑ w' ∧ (res = Ok () → net_holds w' c)) w2) as Hrest.
  { intros nodes w2 Hw2. wp_steps. eapply wp_mono; [apply Hput|]. intros [[]|e] w3 [Hw3 Hok]; cbn beta iota; wp_steps.
    - split; [by etrans|auto].
    - eapply wp_mono; [apply Hkad|]. intros [nodes'|e'] w4 Hw4; cbn [map_err]; wp_steps; [|split; [do 2 (etrans; [done|]); done|done]].
      eapply wp_mono; [apply Hput|]. intros [[]|e'] w5 [Hw5 Hok5]; (split; [do 3 (etrans; [done|]); done|]); [auto|done]. }
  apply wp_bind. destruct closest as [peers|e]; [apply wp_ret; by apply Hrest|]. apply wp_map_err.
  eapply wp_mono; [apply Hkad|]. intros [nodes|e'] w2 Hw2; cbn [map_err]; [apply Hrest; by etrans|]. split; [by etrans|done].
Qed.

(** A task stores its chunk or fails with it. *)
Definition merkle_outcome (x : Chunk * MerklePaymentProof) (r : result ChunkAddress (Chunk * MerklePutError)) w : Prop :=
  match r with Ok a => a = chunk_address x.1 ∧ net_holds w x.1 | Err (c, _) => c = x.1 end.

Lemma merkle_upload_task_spec x w : w ⊑ (merkle_upload_task x w).2 ∧ merkle_outcome x (merkle_upload_task x w).1 (merkle_upload_task x w).2.
Proof.
  destruct x as [c proof]. unfold merkle_upload_task, cm_map_err, upload_chunk_with_merkle_proof, cm_bind, cm_lift. simpl.
  destruct (try_serialize_record (proof, c) _) as [v|e] eqn:Ev; [|done]. simpl. destruct (upload_record_spec c proof v w Ev) as [Hk Hh].
  by destruct (upload_record_with_merkle_proof _ _ _ w) as [[[]|e] w1]; simpl in *; auto.
Qed.

Lemma merkle_tasks_spec receipt D chunks tasks : merkle_tasks receipt D chunks = Ok tasks → tasks.*1 = filter (λ c, chunk_name c ∉ D) chunks.
Proof.
  revert tasks. induction chunks as [|c chunks IH]; intros tasks; simpl; [by intros [= <-]|]. case_bool_decide as Hin.
  - intros Ht. rewrite filter_cons_False by auto. by apply IH.
  - intros Ht. inv_ok. subst tasks. rewrite filter_cons_True by done. rewrite fmap_cons. by rewrite (IH _ Hok0).
Qed.

(** The chunks of some tasks are then stored or among the failures. *)
Lemma collect_uploads_spec items rs D F w :
  Forall2 (λ x r, merkle_outcome x r w) items rs →
  let '(D', F') := collect_uploads rs (D, F) in
  D ⊆ D' ∧ (∀ n, n ∈ D' → n ∈ D ∨ ∃ x, x ∈ items ∧ chunk_name x.1 = n ∧ net_holds w x.1) ∧
  (∀ x, x ∈ items → chunk_name x.1 ∈ D' ∨ x.1 ∈ F'.*1) ∧ (∀ c, c ∈ F.*1 → c ∈ F'.*1) ∧ (∀ c, c ∈ F'.*1 → c ∈ F.*1 ∨ c ∈ items.*1).
Proof.
  intros HF. revert D F. induction HF as [|x r items rs Hx HF IH]; intros D F; [simpl; split_and!; set_solver|].
  unfold collect_uploads. simpl. fold (collect_uploads rs). destruct r as [a|[c e]].
  - destruct Hx as [-> Hh]. specialize (IH ({[chunk_name x.1]} ∪ D) F). unfold chunk_name in IH at 1. unfold collect_uploads in IH.
    destruct (foldl _ _ rs) as [D' F']. destruct IH as (H1' & H2' & H3' & H4' & H5'). split_and!.
    + set_solver.
    + intros n Hn. destruct (H2' n Hn) as [[->%elem_of_singleton|?]%elem_of_union|(y & Hy & ?)]; [right; exists x; split; [left|done]|by left|right; exists y; split; [by right|done]].
    + intros y [->|Hy]%elem_of_cons; [left; set_solver|by apply H3'].
    + done.
    + intros y Hy. destruct (H5' y Hy); [by left|right; by right].
  - simpl in Hx. subst c. specialize (IH D (F ++ [(x.1, merkle_put_error_text e)])). unfold collect_uploads in IH.
    destruct (foldl _ _ rs) as [D' F']. destruct IH as (H1' & H2' & H3' & H4' & H5'). rewrite fmap_app in *. split_and!; [done| | | |].
    + intros n Hn. destruct (H2' n Hn) as [?|(y & Hy & ?)]; [by left|right; exists y; split; [by right|done]].
    + intros y [->|Hy]%elem_of_cons; [right; apply H4'; set_solver|by apply H3'].
    + intros y Hy. apply H4'. set_solver.
    + intros y Hy. destruct (H5' y Hy) as [[?|Hy']%elem_of_app|?]; [by left|right; simpl in *; set_solver|right; by right].
Qed.

(** A round of uploads. *)
Lemma uploads_spec chunks D F receipt tasks rs w w' D' F' :
  merkle_tasks receipt D chunks = Ok tasks → cm_tasks (R := MerklePutError) (merkle_upload_task <$> tasks) w = (Ok rs, w') → collect_uploads rs (D, F) = (D', F') →
  w ⊑ w' ∧ length tasks = length (filter (λ c, chunk_name c ∉ D) chunks) ∧ D ⊆ D' ∧
  (∀ n, n ∈ D' → n ∈ D ∨ ∃ c, c ∈ chunks ∧ chunk_name c = n ∧ net_holds w' c) ∧ (∀ c, c ∈ chunks → chunk_name c ∈ D' ∨ c ∈ F'.*1) ∧
  (∀ c, c ∈ F.*1 → c ∈ F'.*1) ∧ (∀ c, c ∈ F'.*1 → c ∈ F.*1 ∨ c ∈ chunks).
Proof.
  intros Ht Hrun Hcol. pose proof (merkle_tasks_spec _ _ _ _ Ht) as Htasks.
  unfold cm_tasks in Hrun. destruct (process_tasks_with_max_concurrency _ w) as [rs' w1] eqn:Ep. injection Hrun as -> ->.
  destruct (process_tasks_spec merkle_upload_task merkle_outcome tasks w rs w') as (items & Hperm & Hle & HF).
  { intros n w0. split; [apply grows_completion|apply completion_all]. }
  { intros x w0 _. apply merkle_upload_task_spec. }
  { intros x r w0 w2 Hw0. unfold merkle_outcome. destruct r as [a|[]]; [|done]. intros [-> Hh]. split; [done|by eapply holds_mono]. }
  { done. }
  pose proof (collect_uploads_spec items rs D F w' HF) as Hspec. rewrite Hcol in Hspec. destruct Hspec as (HD & Hnew & Hall & HFF & HFonly).
  assert (∀ c, c ∈ items.*1 ↔ c ∈ chunks ∧ chunk_name c ∉ D) as Hitems by (intros c; rewrite Hperm, Htasks; rewrite list_elem_of_filter; tauto).
  split_and!; [done|by rewrite <- Htasks, length_fmap|done| | |done|].
  - intros n Hn. destruct (Hnew n Hn) as [Hd|(x & Hx & <- & Hh)]; [by left|right]. exists x.1. split; [by apply Hitems, list_elem_of_fmap_2|done].
  - intros c Hc. destruct (decide (chunk_name c ∈ D)) as [Hd|Hd]; [left; set_solver|]. assert (c ∈ items.*1) as (x & -> & Hx)%list_elem_of_fmap by (by apply Hitems). by apply Hall.
  - intros c Hc. destruct (HFonly c Hc) as [?|Hi]; [by left|right]. by apply Hitems in Hi as [? _].
Qed.

(** ** Files without equal chunks *)

Section distinct.
Context (cs : list Chunk) (existing : gset bytes).
Context (distinct : NoDup (chunk_name <$> cs)).

Implicit Types (D : gset bytes).

(** The names that are not uploaded again are known to exist or those of stored chunks. *)
Definition accounted D w : Prop := existing ⊆ D ∧ ∀ n, n ∈ D → n ∈ existing ∨ ∃ c, c ∈ cs ∧ chunk_name c = n ∧ net_holds w c.

Lemma accounted_mono D w w' : w ⊑ w' → accounted D w → accounted D w'.
Proof. intros Hw [He Ha]. split; [done|]. intros n Hn. destruct (Ha n Hn) as [?|(c & ? & ? & ?)]; [by left|right; exists c; split_and!; [done..|by eapply holds_mono]]. Qed.

Lemma accounted_grow D D' w w' :
  w ⊑ w' → D ⊆ D' → accounted D w → (∀ n, n ∈ D' → n ∈ D ∨ ∃ c, c ∈ cs ∧ chunk_name c = n ∧ net_holds w' c) → accounted D' w'.
Proof.
  intros Hw HD Ha Hnew. pose proof (accounted_mono _ _ _ Hw Ha) as [He Ha']. split; [set_solver|]. intros n Hn. destruct (Hnew n Hn); [by apply Ha'|by right].
Qed.

Lemma accounted_held D w c : accounted D w → c ∈ cs → chunk_name c ∈ D → chunk_name c ∈ existing ∨ net_holds w c.
Proof.
  intros [_ Ha] Hc Hn. destruct (Ha _ Hn) as [?|(c' & Hc' & Hname & Hh)]; [by left|right].
  apply list_elem_of_lookup in Hc as [i Hi]. apply list_elem_of_lookup in Hc' as [j Hj].
  assert (i = j) as ->; [|congruence]. eapply NoDup_lookup; [exact distinct|by rewrite list_lookup_fmap, Hi|by rewrite list_lookup_fmap, Hj, <- Hname].
Qed.

(** How many chunks are new. *)
Definition new_count (l : list Chunk) : nat := length (filter (λ c, chunk_name c ∉ existing) l).

Lemma new_count_app l k : new_count (l ++ k) = (new_count l + new_count k)%nat.
Proof. unfold new_count. by rewrite filter_app, length_app. Qed.

Lemma new_count_names l : new_count l = length (filter (λ n, n ∉ existing) (chunk_name <$> l)).
Proof.
  unfold new_count. induction l as [|c l IH]; [done|]. rewrite fmap_cons. destruct (decide (chunk_name c ∉ existing)).
  - rewrite !filter_cons_True by done. simpl. by rewrite IH.
  - by rewrite !filter_cons_False by done.
Qed.

Lemma no_new l c : new_count l = 0%nat → c ∈ l → chunk_name c ∈ existing.
Proof.
  intros Hz Hc. destruct (decide (chunk_name c ∈ existing)) as [?|Hno]; [done|]. apply length_zero_iff_nil in Hz.
  assert (c ∈ filter (λ c, chunk_name c ∉ existing) l) as Hin by by apply list_elem_of_filter. rewrite Hz in Hin. by apply elem_of_nil in Hin.
Qed.

(** What is left of the streams is new to the names that are not uploaded again, but for the existing ones. *)
Definition fresh D (rest : list Chunk) : Prop := ∀ c, c ∈ rest → chunk_name c ∈ D → chunk_name c ∈ existing.

Lemma fresh_filter D rest : existing ⊆ D → fresh D rest → filter (λ c, chunk_name c ∉ D) rest = filter (λ c, chunk_name c ∉ existing) rest.
Proof.
  intros He Hf. induction rest as [|c rest IH]; [done|]. assert (fresh D rest) as Hf' by (intros x Hx; apply Hf; by right).
  destruct (decide (chunk_name c ∈ existing)) as [Hin|Hin].
  - rewrite !filter_cons_False by (intros Hn; apply Hn; set_solver). by apply IH.
  - rewrite !filter_cons_True; [by rewrite IH|done|]. intros Hn. apply Hin. apply Hf; [left|done].
Qed.

(** The state of a batch: the streams' rest is a suffix of all chunks, of different names. *)
Record batch_state (rest : list Chunk) D w : Prop := {
  bs_sub : rest ⊆ cs;
  bs_nodup : NoDup (chunk_name <$> rest);
  bs_accounted : accounted D w;
  bs_fresh : fresh D rest;
}.

(** A round of uploads of a batch of chunks. *)
Lemma upload_round chunks rest D F receipt tasks rs w w' D' F' :
  batch_state (chunks ++ rest) D w → merkle_tasks receipt D chunks = Ok tasks → cm_tasks (R := MerklePutError) (merkle_upload_task <$> tasks) w = (Ok rs, w') →
  collect_uploads rs (D, F) = (D', F') →
  w ⊑ w' ∧ length tasks = new_count chunks ∧ batch_state rest D' w' ∧ D ⊆ D' ∧ (∀ c, c ∈ chunks → chunk_name c ∈ D' ∨ c ∈ F'.*1) ∧
  (∀ c, c ∈ F.*1 → c ∈ F'.*1) ∧ (∀ c, c ∈ F'.*1 → c ∈ F.*1 ∨ c ∈ chunks).
Proof.
  intros [Hsub Hnd Hacc Hfr] Ht Hrun Hcol. destruct (uploads_spec _ _ _ _ _ _ _ _ _ _ Ht Hrun Hcol) as (Hle & Hlen & HD & Hnew & Hall & HFF & HFonly).
  assert (fresh D chunks) as Hfc by (intros c Hc; apply Hfr; set_solver).
  rewrite fmap_app in Hnd. apply NoDup_app in Hnd as (Hndc & Hdisj & Hndr). split_and!; [done| |split|done..].
  - rewrite Hlen. unfold new_count. by rewrite (fresh_filter D) by (done || apply Hacc).
  - set_solver.
  - done.
  - eapply accounted_grow; [done..|]. intros n Hn. destruct (Hnew n Hn) as [?|(c & Hc & ? & ?)]; [by left|right; exists c; split_and!; [apply Hsub; set_solver|done..]].
  - intros c Hc Hn. destruct (Hnew _ Hn) as [Hd|(x & Hx & Hname & _)]; [apply Hfr; [set_solver|done]|]. exfalso.
    apply (Hdisj (chunk_name c)); [|by apply list_elem_of_fmap_2]. rewrite <- Hname. by apply list_elem_of_fmap_2.
Qed.

Lemma new_count_le l : (new_count l ≤ length l)%nat.
Proof. apply length_filter. Qed.

(** The chunks a batch takes off the streams are uploaded or among its failures; it tries as many new ones as it has names,
    unless the streams end. *)
Definition batch_done (s s' : MerkleLoop) w w' (drawn : list Chunk) : Prop :=
  all_chunks (ml_streams s) = drawn ++ all_chunks (ml_streams s') ∧ w ⊑ w' ∧ batch_state (all_chunks (ml_streams s')) (ml_dont_reupload s') w' ∧
  ml_dont_reupload s ⊆ ml_dont_reupload s' ∧ (∀ c, c ∈ drawn → chunk_name c ∈ ml_dont_reupload s' ∨ c ∈ (ml_failed_chunks s').*1) ∧
  (∀ c, c ∈ (ml_failed_chunks s).*1 → c ∈ (ml_failed_chunks s').*1) ∧ (∀ c, c ∈ (ml_failed_chunks s').*1 → c ∈ (ml_failed_chunks s).*1 ∨ c ∈ drawn) ∧
  ml_chunks_attempted s' = (ml_chunks_attempted s + new_count drawn)%nat.

Lemma batch_done_refl s w : batch_state (all_chunks (ml_streams s)) (ml_dont_reupload s) w → batch_done s s w w [].
Proof. intros Hb. unfold batch_done. split_and!; try done; try set_solver; unfold new_count; simpl; lia. Qed.

Lemma batch_done_trans s1 s2 s3 w1 w2 w3 d1 d2 : batch_done s1 s2 w1 w2 d1 → batch_done s2 s3 w2 w3 d2 → batch_done s1 s3 w1 w3 (d1 ++ d2).
Proof.
  intros (Ha1 & Hw1 & Hb1 & HD1 & Hd1 & HF1 & Ho1 & Hn1) (Ha2 & Hw2 & Hb2 & HD2 & Hd2 & HF2 & Ho2 & Hn2). unfold batch_done. split_and!.
  - by rewrite Ha1, Ha2, app_assoc.
  - by etrans.
  - done.
  - set_solver.
  - intros c [Hc|Hc]%elem_of_app; [destruct (Hd1 c Hc); [left; set_solver|right; auto]|auto].
  - auto.
  - intros c Hc. destruct (Ho2 c Hc) as [Hc1|Hc2]; [destruct (Ho1 c Hc1)|]; set_solver.
  - rewrite new_count_app. lia.
Qed.

Lemma upload_batch_loop_spec fuel receipt limit s w s' w' :
  (0 < UPLOAD_FLOW_BATCH_SIZE)%nat → batch_state (all_chunks (ml_streams s)) (ml_dont_reupload s) w → (ml_chunks_attempted s ≤ limit)%nat →
  upload_batch_loop UPLOAD_FLOW_BATCH_SIZE fuel receipt limit s w = (Ok (Some s'), w') →
  ∃ drawn, batch_done s s' w w' drawn ∧ (ml_chunks_attempted s' = limit ∨ ml_streams s' = []).
Proof.
  intros HB. revert s w. induction fuel as [|fuel IH]; intros s w Hb Hle; [done|]. cbn [upload_batch_loop].
  destruct (Nat.leb_spec limit (ml_chunks_attempted s)) as [Hlim|Hlim]; [intros [= <- <-]; exists []; split; [by apply batch_done_refl|left; lia]|].
  destruct (ml_streams s) as [|st rest] eqn:Es; [intros [= <- <-]; exists []; rewrite <- Es in Hb; split; [by apply batch_done_refl|by right]|].
  set (n := Nat.min _ _). destruct (next_batch st n) as [o st'] eqn:Enb. destruct (next_batch_spec _ _ _ _ Enb) as (Hs & Hn & Hend & _).
  rewrite all_chunks_cons, Hs, <- app_assoc in Hb. assert (0 < n)%nat as Hpos by lia.
  assert (∀ file, default [] o = [] → cm_bind (cm_lift (Ok file)) (λ file, upload_batch_loop UPLOAD_FLOW_BATCH_SIZE fuel receipt limit
      {| ml_streams := rest; ml_dont_reupload := ml_dont_reupload s; ml_completed_files := ml_completed_files s ++ [file];
         ml_failed_chunks := ml_failed_chunks s; ml_chunks_attempted := ml_chunks_attempted s |}) w = (Ok (Some s'), w') →
    ∃ drawn, batch_done s s' w w' drawn ∧ (ml_chunks_attempted s' = limit ∨ ml_streams s' = [])) as Hskip.
  { intros file Ho Hrun. pose proof (Hend Hpos Ho) as Hnil. rewrite Ho, Hnil in Hb. simpl in Hb. unfold cm_bind, cm_lift in Hrun. apply IH in Hrun as (drawn & Hd & Hstop); [|done|simpl; lia].
    exists drawn. split; [|done]. unfold batch_done in *. simpl in Hd. rewrite Es, all_chunks_cons, Hs, Ho, Hnil. exact Hd. }
  destruct o as [[|c chunks]|]; [| |].
  - destruct (file_result st') as [file|]; [by apply Hskip|done].
  - clear Hskip. simpl in Hb, Hn, Hs. set (batch := c :: chunks) in *. unfold cm_bind at 1, cm_lift. destruct (merkle_tasks _ _ _) as [tasks|e] eqn:Et; [|done].
    unfold cm_bind at 1. destruct (cm_tasks _ w) as [[rs|e] w1] eqn:Er; [|done].
    destruct (collect_uploads rs _) as [D' F'] eqn:Ec. intros Hrun.
    destruct (upload_round batch (stream_chunks st' ++ all_chunks rest) _ _ _ _ _ _ _ _ _ Hb Et Er Ec) as (Hw1 & Hlen & Hb' & HD & Hdone & HF & Hon).
    pose proof (new_count_le batch) as Hcl. apply IH in Hrun as (drawn & Hd & Hstop); [|done|simpl; subst batch; simpl in *; lia].
    exists (batch ++ drawn). split; [|done]. eapply (batch_done_trans _ _ _ _ w1); [|exact Hd]. unfold batch_done. simpl. rewrite Es, all_chunks_cons, all_chunks_cons, Hs.
    split_and!; try done; [by rewrite !app_assoc|by rewrite Hlen].
  - destruct (file_result st') as [file|]; [by apply Hskip|done].
Qed.

Lemma retry_spec max failed receipt D pause w failed' D' w' :
  failed.*1 ⊆ cs → accounted D w → retry_failed_merkle_chunks max failed receipt D pause w = (Ok (failed', D'), w') →
  w ⊑ w' ∧ accounted D' w' ∧ D ⊆ D' ∧ (∀ n, n ∈ D' → n ∈ D ∨ n ∈ chunk_name <$> failed.*1) ∧ (∀ c, c ∈ failed.*1 → chunk_name c ∈ D' ∨ c ∈ failed'.*1) ∧
  failed'.*1 ⊆ failed.*1.
Proof.
  revert failed D w. induction max as [|max IH]; intros failed D w Hsub Ha; [intros [= <- <- <-]; split_and!; auto|].
  destruct failed as [|f failed]; [intros [= <- <- <-]; split_and!; auto|]. cbn [retry_failed_merkle_chunks]. cbv match. set (F := f :: failed) in *.
  unfold cm_bind at 1, cm_modify. unfold cm_bind at 1, cm_lift. destruct (merkle_tasks _ _ _) as [tasks|e] eqn:Et; [|done].
  unfold cm_bind at 1. destruct (cm_tasks _ (client_pause pause w)) as [[rs|e] w1] eqn:Er; [|done]. destruct (collect_uploads rs _) as [D1 F1] eqn:Ec. intros Hrun.
  destruct (uploads_spec _ _ _ _ _ _ _ _ _ _ Et Er Ec) as (Hle & _ & HD & Hnew & Hall & _ & Honly).
  assert (w ⊑ w1) as Hw1 by (transitivity (client_pause pause w); [apply grows_pause|done]).
  apply IH in Hrun as (Hw' & Ha' & HD' & Hnew' & Hall' & Hsub'); [|intros c Hc; destruct (Honly c Hc); set_solver|].
  2: { eapply accounted_grow; [done..|]. intros n Hn. destruct (Hnew n Hn) as [?|(c & Hc & ? & ?)]; [by left|right; exists c; split_and!; [by apply Hsub|done..]]. }
  assert (F1.*1 ⊆ F.*1) as HF1 by (intros c Hc; destruct (Honly c Hc); set_solver). split_and!; [by etrans|done|set_solver| | |set_solver].
  - intros n Hn. destruct (Hnew' n Hn) as [Hn1|Hn1].
    + destruct (Hnew n Hn1) as [?|(c & Hc & <- & _)]; [by left|right; by apply list_elem_of_fmap_2].
    + right. apply list_elem_of_fmap in Hn1 as (c & -> & Hc). apply list_elem_of_fmap_2. by apply HF1.
  - intros c Hc. destruct (Hall c Hc); [left; set_solver|auto].
Qed.

(** Between batches every chunk is still to come or accounted for. *)
Record files_state (s : FilesLoop) w : Prop := {
  fs_batch : batch_state (all_chunks (fl_streams s)) (fl_already_exist s) w;
  fs_cover c : c ∈ cs → c ∈ all_chunks (fl_streams s) ∨ chunk_name c ∈ fl_already_exist s;
}.

Lemma batch_state_mono rest D w w' : w ⊑ w' → batch_state rest D w → batch_state rest D w'.
Proof. intros Hw [? ? ? ?]. split; [done..|by eapply accounted_mono|done]. Qed.

(** After the retries that leave nothing: what was drawn is accounted for. *)
Lemma retried_state (s : MerkleLoop) drawn rest D1 receipt max pause w w1 D2 :
  drawn ++ rest ⊆ cs → NoDup (chunk_name <$> drawn ++ rest) → batch_state rest D1 w →
  (∀ c, c ∈ drawn → chunk_name c ∈ D1 ∨ c ∈ (ml_failed_chunks s).*1) → (∀ c, c ∈ (ml_failed_chunks s).*1 → c ∈ drawn) →
  retry_failed_merkle_chunks max (ml_failed_chunks s) receipt D1 pause w = (Ok ([], D2), w1) →
  w ⊑ w1 ∧ batch_state rest D2 w1 ∧ D1 ⊆ D2 ∧ ∀ c, c ∈ drawn → chunk_name c ∈ D2.
Proof.
  intros Hsub Hnd [Hs1 Hn1 Ha1 Hf1] Hd Hon Hr. assert ((ml_failed_chunks s).*1 ⊆ cs) as Hfs by set_solver. destruct (retry_spec _ _ _ _ _ _ _ _ _ Hfs Ha1 Hr) as (Hw & Ha & HD & Hnew & Hall & _).
  split_and!; [done|split; [done..|]|done|].
  - intros c Hc Hn. destruct (Hnew _ Hn) as [?|Hn']; [by apply Hf1|]. exfalso. apply list_elem_of_fmap in Hn' as (c' & Hname & Hc').
    rewrite fmap_app in Hnd. apply NoDup_app in Hnd as (_ & Hdisj & _). apply (Hdisj (chunk_name c)); [rewrite Hname|]; apply list_elem_of_fmap_2; auto.
  - intros c Hc. destruct (Hd c Hc) as [?|Hc']; [set_solver|]. destruct (Hall c Hc') as [?|Hc2]; [done|by apply elem_of_nil in Hc2].
Qed.

Lemma pay_tree_keeps wallet names receipt : keeps (pay_for_merkle_tree_batch wallet names receipt).
Proof. unfold pay_for_merkle_tree_batch. keeps_steps. apply pay_single_keeps. Qed.

Lemma merkle_batch_spec fuel wallet names s w s' w' :
  (0 < UPLOAD_FLOW_BATCH_SIZE)%nat → files_state s w → merkle_batch self UPLOAD_FLOW_BATCH_SIZE fuel wallet names s w = (Ok (Some s'), w') →
  w ⊑ w' ∧ files_state s' w' ∧ (new_count (all_chunks (fl_streams s')) ≤ new_count (all_chunks (fl_streams s)) - length names)%nat.
Proof.
  intros HB [Hb Hcov] Hrun.
  cut (wp (merkle_batch self UPLOAD_FLOW_BATCH_SIZE fuel wallet names s) (λ r w', match r with
    | Ok (Some s') => w ⊑ w' ∧ files_state s' w' ∧ (new_count (all_chunks (fl_streams s')) ≤ new_count (all_chunks (fl_streams s)) - length names)%nat
    | _ => True end) w); [unfold wp; by rewrite Hrun|].
  unfold merkle_batch. apply wp_bind. eapply (wp_mono _ (λ r w1, w ⊑ w1)).
  { match goal with |- wp ?m _ _ => cut (keeps m); [intros Hk; apply Hk|] end. keeps_steps; [apply pay_tree_keeps|]. apply keeps_modify. intros w0. apply send_event_keeps. }
  intros [receipt|e] w1 Hw1; [|done]. apply wp_bind, wp_map_err.
  eapply (wp_mono _ (λ r w2, match r with Ok (Some u) => ∃ drawn, batch_done
      {| ml_streams := fl_streams s; ml_dont_reupload := fl_already_exist s; ml_completed_files := []; ml_failed_chunks := []; ml_chunks_attempted := 0 |} u w1 w2 drawn ∧
      (ml_chunks_attempted u = length names ∨ ml_streams u = []) | _ => True end)).
  { unfold wp. destruct (upload_batch_with_merkle _ _ _ _ _ _ w1) as [[[u|]|e] w2] eqn:Eu; [|done..]. simpl. eapply upload_batch_loop_spec; [done| | |exact Eu]; simpl; [|lia].
    by eapply batch_state_mono. }
  intros [[u|]|e] w2 Hu; cbn [map_err]; [|by apply wp_ret|done]. destruct Hu as (drawn & (Hall & Hw2 & Hb2 & HD & Hdr & _ & Hon & Hatt) & Hstop). simpl in *.
  apply wp_bind. eapply (wp_mono _ (λ r w3, match r with Ok D => w2 ⊑ w3 ∧ batch_state (all_chunks (ml_streams u)) D w3 ∧ ml_dont_reupload u ⊆ D ∧ (∀ c, c ∈ drawn → chunk_name c ∈ D) | _ => True end)).
  { destruct (decide (ml_failed_chunks u = [])) as [Hnil|_].
    - apply wp_ret. split_and!; [done..|]. intros c Hc. destruct (Hdr c Hc) as [?|Hc']; [done|]. rewrite Hnil in Hc'. by apply elem_of_nil in Hc'.
    - apply wp_bind, wp_map_err. unfold wp at 1. destruct (retry_failed_merkle_chunks _ _ _ _ _ w2) as [[[failed D]|e] w3] eqn:Er; [|done]. simpl.
      destruct (decide (failed = [])) as [->|_]; [apply wp_ret|done]. destruct Hb as [Hs0 Hn0 _ _]. rewrite Hall in Hs0, Hn0.
      eapply retried_state; [exact Hs0|exact Hn0|done|done| |exact Er]. intros c Hc. destruct (Hon c Hc) as [Hc'|?]; [by apply elem_of_nil in Hc'|done]. }
  intros [D|e] w3; [|done]. intros (Hw3 & Hb3 & HD3 & Hdr3). apply wp_bind. eapply (wp_mono _ (λ r w4, w3 ⊑ w4)).
  { match goal with |- wp ?m _ _ => cut (keeps m); [intros Hk; apply Hk|] end. keeps_steps. apply keeps_modify. intros w0. apply send_event_keeps. }
  intros [receipt'|e] w4 Hw4; [|done]. apply wp_ret. split_and!; [do 3 (etrans; [done|]); done| |].
  - split; simpl; [by eapply batch_state_mono|]. intros c Hc. destruct (Hcov c Hc) as [Hc'|?]; [|right; set_solver].
    rewrite Hall in Hc'. apply elem_of_app in Hc' as [?|?]; [right; auto|by left].
  - simpl. rewrite Hall, new_count_app. destruct Hstop as [Hl| ->]; [lia|]. unfold new_count at 1. simpl. lia.
Qed.

Lemma merkle_batches_spec fuel wallet batches s w s' w' :
  (0 < UPLOAD_FLOW_BATCH_SIZE)%nat → files_state s w → merkle_batches self UPLOAD_FLOW_BATCH_SIZE fuel wallet batches s w = (Ok (Some s'), w') →
  w ⊑ w' ∧ files_state s' w' ∧ (new_count (all_chunks (fl_streams s')) ≤ new_count (all_chunks (fl_streams s)) - length (mjoin batches))%nat.
Proof.
  intros HB. revert s w. induction batches as [|names batches IH]; intros s w Hs; cbn [merkle_batches]; [intros [= <- <-]; split_and!; [done..|simpl; lia]|].
  unfold cm_bind. destruct (merkle_batch _ _ _ _ _ _ w) as [[[s1|]|e] w1] eqn:Eb; [|done..]. intros Hrun.
  destruct (merkle_batch_spec _ _ _ _ _ _ _ HB Hs Eb) as (Hw1 & Hs1 & Hc1). destruct (IH _ _ Hs1 Hrun) as (Hw2 & Hs2 & Hc2).
  split_and!; [by etrans|done|]. change (mjoin (names :: batches)) with (names ++ mjoin batches). rewrite length_app. lia.
Qed.

Lemma files_start receipt ss results w :
  all_chunks ss ≡ₚ cs → files_state {| fl_receipt := receipt; fl_already_exist := existing; fl_streams := ss; fl_results := results |} w.
Proof.
  intros Hp. split; simpl; [split|]; [intros c; by rewrite Hp|by rewrite Hp|split; [done|by left]|by intros c _|]. intros c Hc. left. by rewrite Hp.
Qed.

(** When the batches are as long as there are new chunks, every chunk is stored or was there. *)
Lemma all_settled s w : files_state s w → new_count (all_chunks (fl_streams s)) = 0%nat → ∀ c, c ∈ cs → chunk_name c ∈ existing ∨ net_holds w c.
Proof.
  intros [[Hs Hn Ha Hf] Hcov] H0' c Hc. destruct (Hcov c Hc) as [Hrest|HD]; [|by eapply accounted_held].
  left. by eapply no_new.
Qed.
End distinct.

(** ** The first pass *)

Lemma collect_streams_spec fuel ss acc acc' :
  collect_streams CHUNK_UPLOAD_BATCH_SIZE fuel ss acc = Some (Ok acc') → acc'.1.1 = acc.1.1 ++ (chunk_name <$> all_chunks ss).
Proof.
  assert (∀ fuel n s acc r, (0 < n)%nat → drain_stream fuel n s acc = Some r → r.1 = acc ++ stream_chunks s) as Hdrain.
  { intros f n s0 ac r Hn. revert s0 ac. induction f as [|f IH]; intros s0 ac; [done|]. cbn [drain_stream].
    destruct (next_batch s0 n) as [o s'] eqn:Enb. destruct (next_batch_spec _ _ _ _ Enb) as (Hs & _ & Hend & _). rewrite Hs.
    destruct o as [batch|]; cbn [default]; [intros Hd; by rewrite (IH _ _ Hd), app_assoc|intros [= <-]; by rewrite (Hend Hn eq_refl), app_nil_r]. }
  revert acc. induction ss as [|st ss IH]; intros acc; [intros [= <-]; by rewrite app_nil_r|]. cbn [collect_streams]. unfold collect_xor_names_from_stream.
  destruct (drain_stream _ _ st []) as [[chunks st']|] eqn:Ed; [|done]. apply Hdrain in Ed; [|lia]. simpl in Ed. subst chunks.
  simpl. destruct (file_result st') as [file|]; [|done]. simpl. intros Hrun. apply IH in Hrun. rewrite Hrun. simpl. by rewrite all_chunks_cons, fmap_app, app_assoc.
Qed.

Lemma dedup_nodup seen l : NoDup l → (∀ x, x ∈ l → x ∉ seen) → dedup seen l = l.
Proof.
  revert seen. induction l as [|x l IH]; intros seen Hnd Hseen; [done|]. apply NoDup_cons in Hnd as [Hx Hnd]. simpl.
  rewrite bool_decide_false by (apply Hseen; left). f_equal. apply IH; [done|]. intros y Hy. assert (y ∉ seen) by (apply Hseen; by right). set_solver.
Qed.

(** An address that is found is that of a stored chunk, and one that was asked for. *)
Definition found_held (a : NetworkAddress) w : Prop := ∀ c, chunk_network_address c = a → net_holds w c.

Lemma check_batches_spec batches found w found' w' :
  check_batches batches found w = (found', w') → w ⊑ w' ∧ ∀ a, a ∈ found' → a ∈ found ∨ (a ∈ mjoin batches ∧ found_held a w').
Proof.
  revert found w. induction batches as [|b batches IH]; intros found w; cbn [check_batches]; [intros [= <- <-]; auto|].
  destruct (process_tasks_with_max_concurrency _ w) as [rs w1] eqn:Ep. intros Hrun. destruct (IH _ _ Hrun) as [Hw1 Hf].
  destruct (process_tasks_spec check_record_exists (λ a r w, ∀ x, r = Some x → x = a ∧ found_held a w) b w rs w1) as (items & Hperm & Hle & HF).
  { intros n w0. split; [apply grows_completion|apply completion_all]. }
  { intros a w0 _. split.
    - unfold check_record_exists. pose proof (grows_get_one a w0) as Hg. destruct (net_get_record_one a w0) as [[[?|]|[]] w2]; done.
    - intros x Hx. split; [|intros c <-; eapply exists_holds; [by rewrite Hx|done]].
      revert Hx. unfold check_record_exists. destruct (net_get_record_one a w0) as [[[?|]|[]] w2]; simpl; congruence. }
  { intros a r w0 w2 Hw0 Hr x Hx. destruct (Hr x Hx) as [-> Hh]. split; [done|]. intros c Hc. eapply holds_mono; [done|by apply Hh]. }
  { done. }
  split; [by etrans|]. intros a Ha. destruct (Hf a Ha) as [[?|Hn]%elem_of_union|[Hj ?]]; [by left| |right; split; [apply elem_of_app; by right|done]].
  right. apply elem_of_list_to_set, list_elem_of_omap in Hn as (r & Hr & Hx). simpl in Hx. subst r.
  apply list_elem_of_lookup in Hr as [i Hi]. destruct (Forall2_lookup_r _ _ _ _ _ HF Hi) as (b' & Hb'%list_elem_of_lookup_2 & Hx). destruct (Hx _ eq_refl) as [-> Hh]. split; [apply elem_of_app; left; by rewrite <- Hperm|].
  intros c Hc. eapply holds_mono; [done|by apply Hh].
Qed.

(** The names that are said to exist are of the receipt or of stored chunks; the others are to be paid for. *)
Lemma split_spec names receipt w existing to_pay w' :
  NoDup names → split_existing_and_new_chunks CHUNK_UPLOAD_BATCH_SIZE names receipt w = ((existing, to_pay), w') →
  w ⊑ w' ∧ to_pay = filter (λ n, n ∉ existing) names ∧
  ∀ c, chunk_name c ∈ existing → chunk_name c ∈ mr_already_existed receipt ∪ mr_uploaded receipt ∨ net_holds w' c.
Proof.
  intros Hnd. unfold split_existing_and_new_chunks. rewrite (dedup_nodup ∅ names) by (done || set_solver).
  set (known := λ xn : bytes, bool_decide (xn ∈ mr_already_existed receipt) || bool_decide (xn ∈ mr_uploaded receipt)).
  set (kn := list_to_set (filter (λ xn, known xn = true) names) : gset bytes).
  assert (∀ n, n ∈ kn → n ∈ mr_already_existed receipt ∪ mr_uploaded receipt) as Hknown.
  { intros n Hn. unfold kn in Hn. apply elem_of_list_to_set, list_elem_of_filter in Hn as [Hk _]. unfold known in Hk.
    apply orb_true_iff in Hk as [Hk%bool_decide_eq_true|Hk%bool_decide_eq_true]; set_solver. }
  destruct (decide _) as [_|_]; [intros [= <- <- <-]; split_and!; [done..|]; intros c Hc; left; by apply Hknown|].
  destruct (check_records_exist_batch _ _ w) as [found w1] eqn:Ef. intros [= <- <- <-]. destruct (check_batches_spec _ _ _ _ _ Ef) as [Hw1 Hfound].
  split_and!; [done..|]. intros c [Hc|Hc]%elem_of_union; [left; by apply Hknown|right].
  apply elem_of_list_to_set, list_elem_of_omap in Hc as (a & Ha%hs_iter_elem_of & Hx). destruct (Hfound a Ha) as [?|[Hin Hh]]; [set_solver|].
  rewrite chunks_of_join in Hin by lia. apply list_elem_of_fmap in Hin as (xn & -> & _). injection Hx as ->. apply Hh. unfold chunk_network_address, chunk_name. by destruct (chunk_address c).
Qed.

Lemma directory_streams_keeps path is_public : keeps (directory_streams IN_MEMORY_ENCRYPTION_MAX_SIZE path is_public).
Proof.
  unfold directory_streams. keeps_steps. intros w. unfold encrypt_directory_files. destruct (walk_files _) as [files|]; [|done].
  assert (∀ entry, keeps (encrypt_entry IN_MEMORY_ENCRYPTION_MAX_SIZE path is_public entry)) as Hk.
  { intros entry. unfold encrypt_entry, encrypt_file, encrypt_file_in_stream, encrypt_file_in_memory. keeps_steps. intros w0. pose proof (grows_read (de_path entry) w0). by destruct (disk_read _ w0). }
  pose proof (run_tasks_keeps (λ entry, encrypt_entry IN_MEMORY_ENCRYPTION_MAX_SIZE path is_public entry) files w (λ x, Hk x)) as Hr. unfold CM in *.
  by destruct (process_tasks_with_max_concurrency _ w).
Qed.

Lemma merkle_upload_settles (fuel : nat) (path : PathBuf) (is_public : bool) (wallet : option EvmWallet) (receipt : MerklePaymentReceipt) (cs : list Chunk) w paid w' :
  (0 < UPLOAD_FLOW_BATCH_SIZE)%nat → NoDup (chunk_name <$> cs) →
  (∀ w1 ss w2, w ⊑ w1 → directory_streams IN_MEMORY_ENCRYPTION_MAX_SIZE path is_public w1 = (Ok ss, w2) → all_chunks ss ≡ₚ cs) →
  files_put_with_merkle_payment_internal self UPLOAD_FLOW_BATCH_SIZE CHUNK_UPLOAD_BATCH_SIZE IN_MEMORY_ENCRYPTION_MAX_SIZE fuel path is_public wallet receipt w = (Ok (Some paid), w') →
  ∀ c, c ∈ cs → net_holds w' c ∨ chunk_name c ∈ mr_already_existed receipt ∪ mr_uploaded receipt.
Proof.
  intros HB Hnd Hdir Hrun c Hc. revert Hrun. unfold files_put_with_merkle_payment_internal. destruct (match wallet with Some w => _ | None => _ end); [done|].
  unfold collect_xornames_from_dir, cm_map_err, cm_bind, cm_lift, cm_modify. pose proof (directory_streams_keeps path is_public w) as Hw1. destruct (directory_streams _ _ _ w) as [[ss1|e] w1] eqn:E1; [|done]. simpl in Hw1.
  destruct (collect_streams _ _ ss1 _) as [[[[names counts] files]|e]|] eqn:Ec; [|done..]. cbn [cm_ret map_err].
  apply collect_streams_spec in Ec. simpl in Ec. pose proof (Hdir w _ _ ltac:(done) E1) as Hp1. assert (names ≡ₚ chunk_name <$> cs) as Hnames by (by rewrite Ec, Hp1).
  destruct (split_existing_and_new_chunks _ names _ w1) as [[existing to_pay] w2] eqn:Es. apply split_spec in Es as (Hw2 & Hpay & Hex); [|by rewrite Hnames].
  simpl in Hex. set (r2 := add_already_existed _ _). cbn [cm_ret].
  match goal with |- context [(if decide ?P then id else ?f) w2] =>
    set (w3 := (if decide P then id else f) w2); assert (w2 ⊑ w3) as Hw3 by (unfold w3; destruct (decide P); [done|apply send_event_keeps]) end.
  assert (∀ w4, w3 ⊑ w4 → chunk_name c ∈ existing ∨ net_holds w4 c → net_holds w4 c ∨ chunk_name c ∈ mr_already_existed receipt ∪ mr_uploaded receipt) as Hfinal.
  { intros w4 Hw4 [Hin|?]; [|by left]. destruct (Hex c Hin) as [?|Hh]; [by right|left]. eapply holds_mono; [|done]. by etrans. }
  assert (length to_pay = new_count existing cs) as Hlen by (by rewrite Hpay, new_count_names, Hnames).
  destruct (decide (to_pay = [])) as [Hnil|_].
  { intros [= <- <-]. eapply Hfinal; [apply send_event_keeps|left]. rewrite Hnil in Hlen. by eapply no_new. }
  pose proof (directory_streams_keeps path is_public w3) as Hw4. destruct (directory_streams _ _ _ w3) as [[ss2|e] w4] eqn:E2; [|done]. simpl in Hw4.
  assert (w ⊑ w3) as Hw by (do 2 (etrans; [done|]); done). pose proof (Hdir _ _ _ Hw E2) as Hp2. cbn [map_err]. destruct (merkle_batches _ _ _ _ _ _ w4) as [[[s|]|e] w5] eqn:Eb; [|done..].
  destruct (remaining_streams _ _ _ _) as [[results|]|e]; [|done..]. intros [= <- <-].
  destruct (merkle_batches_spec cs existing Hnd _ _ _ _ _ _ _ HB (files_start cs existing Hnd _ _ _ _ Hp2) Eb) as (Hw5 & Hs & Hcount). simpl in Hcount.
  rewrite chunks_of_join in Hcount by (done || unfold max_leaves, MAX_LEAVES; vm_compute; lia).
  apply Hfinal; [do 2 (etrans; [done|]); apply send_event_keeps|]. destruct (all_settled cs existing Hnd _ _ Hs) with c as [?|Hh]; [|done|by left|].
  - enough (new_count existing (all_chunks ss2) = new_count existing cs) by lia. unfold new_count. by rewrite Hp2.
  - right. eapply holds_mono; [apply send_event_keeps|done].
Qed.

(** C19: with batch payments too, an upload of a directory that reports success leaves every chunk of its files on the network, but
    for those the given receipt already lists; whatever requests failed and were tried again. This holds when no
    chunk occurs twice in the files, encrypting them again gives the same chunks, in whatever order, and the batch size
    of uploads is not zero. *)
Theorem merkle_upload_stores_everything (fuel : nat) (path : PathBuf) (is_public : bool) (wallet : option EvmWallet) (receipt : MerklePaymentReceipt) (cs : list Chunk) w paid w' :
  (0 < UPLOAD_FLOW_BATCH_SIZE)%nat → NoDup (chunk_name <$> cs) →
  (∀ w1 ss w2, w ⊑ w1 → directory_streams IN_MEMORY_ENCRYPTION_MAX_SIZE path is_public w1 = (Ok ss, w2) → all_chunks ss ≡ₚ cs) →
  files_put_with_merkle_payment_internal self UPLOAD_FLOW_BATCH_SIZE CHUNK_UPLOAD_BATCH_SIZE IN_MEMORY_ENCRYPTION_MAX_SIZE fuel path is_public wallet receipt w = (Ok (Some paid), w') →
  ∀ c, c ∈ cs → net_holds w' c ∨ chunk_name c ∈ mr_already_existed receipt ∪ mr_uploaded receipt.
Proof. intros HB Hnd Hdir Hrun. by eapply merkle_upload_settles. Qed.
End merkle.
