(* ===== verification/ClientUploadExamples.v ===== *)
(** * A world to upload to

    A network of stored records with put failures, a disk, a contract and an encryption that cuts data
    into pieces, in which the client's uploads and reads can be evaluated; the laws of the interfaces hold in
    it. *)

From stdpp Require Import base gmap countable strings list.
From Stdlib Require Import ZArith Lia.
From S2P Require Import Prelude Text Effects Protocol Storage RecordCache RecordStore MerkleTree MerkleTreeProps Payments PaymentsProps.
From S2P Require Import PutValidation PutValidationFacts PutValidationProps Messages Driver TaskHandler.
From S2P Require Import ClientPayment ClientData ClientExamples ClientPaymentProps ClientDataProps Encryption ClientChunks ClientUpload ClientUploadProps ClientReadProps ClientMerkle ClientMerkleProps.

(** ** Encryption *)

(** Names are contents. *)
Definition content_name : XorNameLib := {| xorname_from_content b := b |}.

Definition info_of (piece : bytes) : ChunkInfo := {| ci_index := 0; ci_dst_hash := piece; ci_src_hash := piece; ci_src_size := Z.of_nat (length piece) |}.

(** Data of three bytes or more is cut into its first byte, its second byte and the rest. *)
Definition pieces (data : bytes) : list bytes := [take 1 data; take 1 (drop 1 data); drop 2 data].

Fixpoint assemble (infos : list ChunkInfo) (l : list bytes) : option bytes :=
  match infos with
  | [] => Some []
  | info :: infos => x ← list_find (λ c, c = ci_dst_hash info) l; rest ← assemble infos l; Some (x.2 ++ rest)
  end.

Definition cutting : SelfEncryption :=
  {| SeError := bytes;
     se_generic b := b;
     se_encrypt data := if (length data <? 3)%nat then Err [] else Ok ({| dm_chunk_identifiers := info_of <$> pieces data; dm_child := None |}, pieces data);
     se_decrypt d l := ok_or (assemble (dm_chunk_identifiers d) l) [];
     se_get_root_data_map W d fetch := cm_ret d;
     se_stream_encrypt size blocks := let data := mjoin blocks in
       Ok ((λ p, Ok (p, p)) <$> pieces data, Some {| dm_chunk_identifiers := info_of <$> pieces data; dm_child := None |});
     se_infos := dm_chunk_identifiers;
     se_is_child d := bool_decide (is_Some (dm_child d));
     MAX_CHUNK_SIZE := 4190208;
     OldDataMap := list ChunkInfo;
     old_infos l := l |}.

Lemma assemble_pieces ps l : ps ⊆ l → assemble (info_of <$> ps) l = Some (mjoin ps).
Proof.
  induction ps as [|p ps IH]; intros Hsub; [done|]. rewrite fmap_cons. cbn [assemble].
  destruct (list_find_elem_of (λ c, c = ci_dst_hash (info_of p)) l p) as [[i x] Hf]; [set_solver|done|]. rewrite Hf. apply list_find_Some in Hf as (_ & -> & _).
  simpl. rewrite IH by set_solver. done.
Qed.

Lemma pieces_join data : mjoin (pieces data) = data.
Proof. unfold pieces. destruct data as [|x [|y data]]; try done. unfold mjoin. simpl. by rewrite app_nil_r. Qed.

Definition cut_map (data : bytes) : DataMap := {| dm_chunk_identifiers := info_of <$> pieces data; dm_child := None |}.

Lemma cutting_decrypts data : @decrypts_to content_name cutting data (cut_map data) (pieces data).
Proof.
  intros W I fetch Hf w HI. exists (cut_map data), w, (pieces data). split_and!; [done..|]. intros l Hl.
  cbn [se_decrypt cutting without_child cut_map dm_chunk_identifiers]. unfold without_child. cbn [dm_chunk_identifiers].
  rewrite assemble_pieces; [by rewrite pieces_join|]. intros x. by rewrite Hl.
Qed.

Lemma cutting_laws : @SelfEncryptionLaws content_name cutting.
Proof. split; [done|]. intros data dm contents. cbn [se_encrypt cutting]. destruct (_ <? _)%nat; [done|]. intros [= <- <-]. apply cutting_decrypts. Qed.

#[export] Instance ChunkInfo_countable : Countable ChunkInfo.
Proof.
  refine (inj_countable' (λ i, (ci_index i, ci_dst_hash i, ci_src_hash i, ci_src_size i)) (λ '(a, b, c, d), Build_ChunkInfo a b c d) _). by intros [].
Defined.
#[export] Instance DataMap_countable : Countable DataMap.
Proof. refine (inj_countable' (λ d, (dm_chunk_identifiers d, dm_child d)) (λ '(a, b), Build_DataMap a b) _). by intros []. Defined.

Definition numbered_data_maps : Serde DataMap := counted 20.

(** No data maps of older versions. *)
Definition no_levels : Serde (@DataMapLevel cutting) := {| rmp_to_vec _ := None; rmp_from_slice _ := None |}.

(** ** The world *)

(** The keys of the records that are stored, the files of the disk, and whether the next puts fail. *)
Record World := { wd_stored : gset bytes; wd_files : gmap PathBuf bytes; wd_faults : list bool }.

Section world.
#[local] Existing Instances content_name toy_hex num_bls toy_layout toy_kad toy_rmp_header toy_identity toy_digests toy_ant_merkle hash_order_rev
  cutting numbered_data_maps no_levels.

(** Of a batch proof and its content the content is written. *)
Definition upload_bodies : BodySerde :=
  {| serde_bytes := toy_serde_bytes; serde_target := counted 0; serde_metrics := toy_serde_metrics;
     serde_scratchpad := counted 1; serde_pointer := counted 2; serde_graph_entries := counted 3;
     serde_paid_bytes := counted 4; serde_paid_scratchpad := counted 5; serde_paid_graph_entry := counted 6; serde_paid_pointer := counted 7;
     serde_merkle_bytes := {| rmp_to_vec x := Some (8 :: x.2); rmp_from_slice _ := None |}; serde_merkle_scratchpad := toy_read 9 [];
     serde_merkle_graph_entry := toy_read 10 []; serde_merkle_pointer := toy_read 11 [] |}.
#[local] Existing Instance upload_bodies.

Definition texts : PutErrorText := {| network_error_text _ := []; chunk_put_error_text _ := []; fetch_error_text _ _ := [] |}.
#[local] Existing Instance texts.

Definition five_quotes : list (PeerInfo * PaymentQuote) := (λ k, ({| pi_peer_id := [k]; pi_addrs := [] |}, typed_quote Chunk_t k)) <$> [4; 5; 6; 7; 8].

(** The record of a chunk that is stored under a name. *)
Definition stored_record (name : bytes) : KadRecord :=
  record_of (NA_ChunkAddress (mkChunkAddress name)) (default [] (rok (try_serialize_record (chunk_new name) (DataOnly Chunk_t)))).

Definition lookup_name (a : NetworkAddress) (w : World) : option KadRecord :=
  if decide (to_record_key a ∈ wd_stored w) then Some (stored_record (to_record_key a)) else None.

Definition store_record (r : KadRecord) (w : World) : result unit ClientError * World :=
  match wd_faults w with
  | true :: faults => (Err NetworkDriverOffline, {| wd_stored := wd_stored w; wd_files := wd_files w; wd_faults := faults |})
  | faults => (Ok tt, {| wd_stored := {[rec_key r]} ∪ wd_stored w; wd_files := wd_files w; wd_faults := drop 1 faults |})
  end.

Definition network_of_keys : ClientWorld World :=
  {| net_get_record_with_retries t a w := (Ok ((λ r, [r]) <$> lookup_name a w), w);
     net_get_record t a w := (Ok (lookup_name a w), w);
     net_get_closest_peers_with_retries a w := (Ok [], w);
     net_put_record_with_retries t r targets w := store_record r w;
     net_get_quotes_with_retries a i s w := (Ok (if decide (a ∈ wd_stored w) then None else Some five_quotes), w);
     evm_get_market_price m w := (Some (replicate (length m) 10), w);
     evm_pay_for_quotes p w := (Ok tt, w);
     random_bytes n w := (replicate n 1, w) |}.

Definition with_files (files : gmap PathBuf bytes) (w : World) : World := {| wd_stored := wd_stored w; wd_files := files; wd_faults := wd_faults w |}.

Definition disk_of_files : Disk World :=
  {| disk_read p w := (wd_files w !! p, w);
     disk_open_blocks p w := (λ d, [Some d]) <$> wd_files w !! p;
     disk_walk p w := (λ x : PathBuf * bytes, Some {| de_is_file := true; de_path := x.1; de_metadata := Some {| fm_created := None; fm_modified := None; fm_len := Z.of_nat (length x.2) |} |})
                        <$> map_to_list (wd_files w);
     disk_is_file p w := bool_decide (is_Some (wd_files w !! p));
     disk_exists p w := bool_decide (is_Some (wd_files w !! p));
     disk_create_dir_all p w := (true, w);
     disk_create_file p w := (true, with_files (<[p := []]> (wd_files w)) w);
     disk_write p d w := (true, with_files (<[p := d]> (wd_files w)) w);
     disk_remove_file p w := (true, with_files (delete p (wd_files w)) w);
     disk_now w := 1000;
     path_lossy p := mjoin p |}.

(** The last task that was started completes first. *)
Definition last_first : Scheduler World := {| task_completion n w := (rev (seq 0 n), w) |}.

Definition unheard : UploadWorld World := {| client_event e w := w; client_pause s w := w |}.

(** No payments for trees. *)
Definition no_trees : MerkleWorld World :=
  {| net_get_closest_n a n w := (Ok [], w); net_get_closest_peers_kad_only a n w := (Ok [], w);
     net_get_merkle_candidate_quote a p i s t w := (Err NetworkDriverOffline, w); net_get_record_one a w := (Ok (lookup_name a w), w);
     wallet_pay_for_merkle_tree d p t w := (Err WalletOther, w); random_salts w := ((λ _, [], λ _, [], w));
     unix_now w := Some 1000; merkle_put_error_text e := [] |}.

#[local] Existing Instances network_of_keys disk_of_files last_first unheard no_trees.

(** A chunk is stored when a record with its name is; requests of the network leave the files. *)
Definition by_name : ChunkNetwork World :=
  {| net_holds w c := chunk_name c ∈ wd_stored w; net_grows w w' := wd_stored w ⊆ wd_stored w' ∧ wd_files w = wd_files w' |}.
#[local] Existing Instance by_name.

Lemma world_keeps (w : World) : w ⊑ w.
Proof. by split. Qed.

Lemma store_record_keeps r (w : World) : w ⊑ (store_record r w).2.
Proof. unfold store_record. destruct (wd_faults w) as [|[] faults]; simpl; split; simpl; set_solver. Qed.

Lemma store_record_stores r (w w' : World) : store_record r w = (Ok tt, w') → rec_key r ∈ wd_stored w'.
Proof. unfold store_record. destruct (wd_faults w) as [|[] faults]; intros [= <-]; simpl; set_solver. Qed.

Lemma chunk_laws : ChunkNetworkLaws World.
Proof.
  split; simpl; try (intros; exact (world_keeps _)).
  - split; [intros ?; apply world_keeps|]. intros ? ? ? [Ha Hb] [Hc Hd]. split; [set_solver|congruence].
  - intros w w' c [Hs _] Hc. set_solver.
  - intros. apply store_record_keeps.
  - intros n w. symmetry. apply Permutation_rev.
  - intros c payment v targets w w' _ Hp. by apply store_record_stores in Hp.
  - intros c i s w w'. destruct (decide _) as [Hin|]; [|done]. by intros [= <-].
  - intros a i s qs w w'. destruct (decide _) as [Hin|]; [done|]. intros [= <- <-]. eexists. split; [left|by eexists].
  - intros m ps w w' [= <- <-]. by rewrite length_replicate.
Qed.

Lemma merkle_laws : MerkleNetworkLaws World.
Proof.
  split; simpl; try (intros; exact (world_keeps _)).
  - apply chunk_laws.
  - intros c proof v targets w w' _ Hp. by apply store_record_stores in Hp.
  - intros c w w'. unfold check_record_exists. simpl. unfold lookup_name. destruct (decide _) as [Hin|]; simpl; [by intros _ <-|done].
Qed.

Definition files_of : DiskFiles World := {| disk_files := wd_files |}.
#[local] Existing Instance files_of.

Lemma disk_laws : DiskLaws World.
Proof.
  split; simpl; try done.
  - intros p w Hp. by apply bool_decide_eq_true_2.
  - by left.
  - by intros p d w w' [= <-].
  - by left.
Qed.

Lemma read_laws : ChunkReadLaws World.
Proof.
  split; simpl; try done.
  - intros c w Hwf Hin. unfold lookup_name. rewrite decide_True by done. simpl. do 3 eexists. split; [done|].
    destruct c as [a v]. unfold chunk_wf in Hwf. simpl in Hwf. subst a. reflexivity.
  - intros n w. symmetry. apply Permutation_rev.
Qed.

#[local] Existing Instances chunk_laws merkle_laws disk_laws read_laws cutting_laws toy_hex_laws.

Lemma numbered_laws : SerdeLaws DataMap.
Proof. apply counted_laws. Qed.
#[local] Existing Instance numbered_laws.

(** ** Uploads *)

Definition client : Client :=
  {| cl_events_enabled := false; cl_evm_network := [1]; cl_chunk_cache_enabled := true; cl_chunk_cache_dir := Some [text "cache"];
     cl_retry_failed := 2; cl_payment_mode := SingleNode |}.
Definition wallet : EvmWallet := {| wallet_network := [1] |}.

(** The first puts fail. *)
Definition start : World := {| wd_stored := ∅; wd_files := ∅; wd_faults := [true; false; true] |}.
Definition data : bytes := [1; 2; 3; 4; 5].

(** Private data is put, although puts fail, and read back; then the cache is empty again. *)
Example put_and_get :
  match data_put client 2 60 data (PO_Wallet wallet) start with
  | (Ok (Some (_, d)), w) => wd_stored w = {[ [1]; [2]; [3; 4; 5] ]} ∧ (data_get client None 10 5 d w).1 = Ok (Some data) ∧
      wd_files (data_get client None 10 5 d w).2 = ∅
  | _ => False end.
Proof. vm_compute. split_and!; reflexivity. Qed.

Definition stream_of (contents : list bytes) : EncryptionStream :=
  {| es_file_path := []; es_relative_path := []; es_metadata := metadata_empty; es_is_public := false; es_state := ES_InMemory (chunk_new <$> contents) (chunk_new []) |}.

Lemma upload_ends_witness : (pay_and_upload client 2 60 (PO_Wallet wallet) [stream_of [[1]; [2]; [3]]] start).1 ≠ Ok None.
Proof. apply (upload_ends client 2 60). intros s ->%list_elem_of_singleton. vm_compute. lia. Defined.

Lemma upload_stores_everything_witness :
  ∃ cost ss w, pay_and_upload client 2 60 (PO_Wallet wallet) [stream_of [[1]; [2]; [3]]] start = (Ok (Some (cost, ss)), w) ∧
    ∀ c, c ∈ chunk_new <$> [[1]; [2]; [3]] → net_holds w c ∨ ∃ receipt, PO_Wallet wallet = PO_Receipt receipt ∧ receipt !! chunk_name c = None.
Proof.
  destruct (pay_and_upload client 2 60 (PO_Wallet wallet) [stream_of [[1]; [2]; [3]]] start) as [[[[cost ss]|]|e] w] eqn:E;
    [|by vm_compute in E..]. exists cost, ss, w. split; [done|]. intros c Hc. eapply upload_stores_everything; [|exact E|left|exact Hc]. lia.
Defined.

Lemma data_roundtrip_witness :
  ∃ cost d w, data_put client 2 60 data (PO_Wallet wallet) start = (Ok (Some (cost, d)), w) ∧ reads_back 10 data (data_get client None 10 5 d w).1.
Proof.
  destruct (data_put client 2 60 data (PO_Wallet wallet) start) as [[[[cost d]|]|e] w] eqn:E; [|by vm_compute in E..]. exists cost, d, w. split; [done|].
  assert (wd_files w = ∅) as Hfiles by (change (wd_files (Ok (E := ChunkPutError) (Some (cost, d)), w).2 = ∅); rewrite <- E; vm_compute; reflexivity).
  eapply (data_roundtrip client None 10 2 60 5 data wallet start w); [lia|by eexists| |exact E].
  intros dmc chunks c p b _ _ _ Hf. unfold disk_files, files_of in Hf. rewrite Hfiles in Hf. done.
Defined.

(** ** Uploads with batch payments *)

Definition dir : PathBuf := [text "dir"].

(** A directory with files of some contents. *)
Definition directory (contents : list bytes) : World :=
  {| wd_stored := ∅; wd_files := list_to_map (imap (λ i d, (dir ++ [[Z.of_nat i]], d)) contents); wd_faults := [true; true; true] |}.

Definition some_proof (name : bytes) : MerklePaymentProof :=
  let branch := {| mb_proof_hashes := []; mb_leaf_index := 0; mb_total_leaves_count := 2; mb_unsalted_leaf_hash := name; mb_root := []; mb_salt := None |} in
  {| mpp_address := name; mpp_data_proof := branch;
     mpp_winner_pool := {| pool_midpoint_proof := {| mp_branch := branch; mp_merkle_payment_timestamp := 1000 |}; pool_candidate_nodes := [] |} |}.

(** A receipt of a payment for some names. *)
Definition receipt_for (names : list bytes) : MerklePaymentReceipt :=
  {| mr_proofs := list_to_map ((λ n, (n, some_proof n)) <$> names); mr_file_chunk_counts := ∅; mr_amount_paid := 10; mr_already_existed := ∅; mr_uploaded := ∅ |}.

Definition upload_dir (fuel : nat) (receipt : MerklePaymentReceipt) (w : World) :=
  files_put_with_merkle_payment_internal client 10 4 1000 fuel dir false None receipt w.

(** A file of three zeros has three equal chunks. Batches count it as three, although it is paid once, so the chunks of the
    other file are not all uploaded; the upload reports success with both files. *)
Example equal_chunks_leave_others_out :
  match upload_dir 30 (receipt_for [[0]; [1]; [2]; [3]]) (directory [[1; 2; 3]; [0; 0; 0]]) with
  | (Ok (Some (_, files)), w) => length files = 2%nat ∧ wd_stored w = {[ [0]; [1] ]}
  | _ => False end.
Proof. vm_compute. split; reflexivity. Qed.

Definition two_files : World := directory [[1; 2; 3]; [4; 5; 6]].
Definition two_files_chunks : list Chunk := chunk_new <$> [[4]; [5]; [6]; [1]; [2]; [3]].

Lemma merkle_upload_stores_everything_witness :
  ∃ paid w, upload_dir 30 (receipt_for (chunk_name <$> two_files_chunks)) two_files = (Ok (Some paid), w) ∧
    ∀ c, c ∈ two_files_chunks → net_holds w c ∨ chunk_name c ∈ (∅ ∪ ∅ : gset bytes).
Proof.
  destruct (upload_dir 30 (receipt_for (chunk_name <$> two_files_chunks)) two_files) as [[[paid|]|e] w] eqn:E; [|by vm_compute in E..].
  exists paid, w. split; [done|].
  apply (merkle_upload_stores_everything client 10 4 1000 30 dir false None (receipt_for (chunk_name <$> two_files_chunks)) two_files_chunks two_files paid w); [lia| | |exact E].
  - apply (bool_decide_unpack _). vm_compute. exact I.
  - intros [stored files faults] ss w2 [_ Hf] Hd. simpl in Hf. subst files. vm_compute in Hd. injection Hd as <- _. vm_compute. reflexivity.
Defined.

(** Whatever happens, the disk has the same two files. *)
Definition fixed_disk : Disk World :=
  {| disk_read p w := (wd_files two_files !! p, w);
     disk_open_blocks p w := (λ d, [Some d]) <$> wd_files two_files !! p;
     disk_walk p w := disk_walk p two_files; disk_is_file p w := false; disk_exists p w := false; disk_create_dir_all p w := (false, w);
     disk_create_file p w := (false, w); disk_write p d w := (false, w); disk_remove_file p w := (false, w); disk_now w := 1000; path_lossy p := mjoin p |}.

Lemma merkle_upload_ends_witness :
  (files_put_with_merkle_payment_internal (Disk0 := fixed_disk) client 10 4 1000 9 dir false (Some wallet) merkle_receipt_default start).1 ≠ Ok None.
Proof.
  apply (merkle_upload_ends (Disk0 := fixed_disk) client 10 4 1000 9). intros w1 ss w2 Hd. vm_compute in Hd. injection Hd as <- _. vm_compute. lia.
Defined.
End world.
