(* ===== verification/Amount.v ===== *)
(** * Amounts of tokens

    Models [AttoTokens] of src/ant-evm/src/amount.rs: its text form and the reading of one. An amount is
    a [U256] of the crate ruint, whose decimal text and its reading are the parameter [AmountText]; its
    products and sums wrap around. *)

From stdpp Require Import base list strings.
From Stdlib Require Import ZArith Lia.
From S2P Require Import Prelude Text.

Definition TOKEN_TO_RAW_POWER_OF_10_CONVERSION : nat := 18.
Definition TOKEN_TO_RAW_CONVERSION : Z := 10 ^ 18.

Definition u256_bound : Z := 2 ^ 256.

(** ruint: [parse], the display, and the display with at least 18 places filled with zeros. *)
Class AmountText := {
  parse_amount : bytes → option Z;
  show_amount : Z → bytes;
  show_amount_18 : Z → bytes;
}.

(** Decimal digits are read as their number, and a number is shown as its digits. *)
Class AmountTextLaws `{AmountText} : Prop := {
  parse_amount_digits ds : ds ≠ [] → forallb is_digit ds = true → digits_value ds < u256_bound → parse_amount ds = Some (digits_value ds);
  show_amount_digits n : 0 ≤ n < u256_bound → show_amount n = show_digits 78 n;
  show_amount_18_digits n : 0 ≤ n < u256_bound → show_amount_18 n = replicate (18 - length (show_digits 78 n)) 48 ++ show_digits 78 n;
}.

Inductive AttoError :=
  | CantParseTokenUnits
  | CantParseTokenRemainder
  | AttoExcessiveValue
  | LossOfPrecision.

Section amounts.
Context `{AmountText}.

(** [splitn(2, c)]: what comes before the first [c], and after it if there is one. *)
Fixpoint split_first (c : Z) (s : bytes) : bytes * option bytes :=
  match s with
  | [] => ([], None)
  | x :: s => if x =? c then ([], Some s) else let '(a, b) := split_first c s in (x :: a, b)
  end.

(** [trim_end_matches(c)]. *)
Fixpoint trim_end (c : Z) (s : bytes) : bytes :=
  match s with
  | [] => []
  | x :: s => match trim_end c s with [] => if x =? c then [] else [x] | t => x :: t end
  end.

(** The units; more than [u64::MAX] tokens are refused. *)
Definition parse_units (s : bytes) : result Z AttoError :=
  match parse_amount s with
  | None => Err CantParseTokenUnits
  | Some units =>
    if u64_max <? units then Err AttoExcessiveValue
    else if u256_bound <=? units * TOKEN_TO_RAW_CONVERSION then Err AttoExcessiveValue
    else Ok (units * TOKEN_TO_RAW_CONVERSION)
  end.

(** What follows the point, of at most 18 places. *)
Definition parse_remainder (s : bytes) : result Z AttoError :=
  let remainder_str := trim_end 48 s in
  if bool_decide (remainder_str = []) then Ok 0
  else
    match parse_amount remainder_str with
    | None => Err CantParseTokenRemainder
    | Some parsed_remainder =>
      if (TOKEN_TO_RAW_POWER_OF_10_CONVERSION <? length remainder_str)%nat then Err LossOfPrecision
      else
        let remainder_conversion := (TOKEN_TO_RAW_POWER_OF_10_CONVERSION - length remainder_str)%nat in
        if (32 <? remainder_conversion)%nat then Err LossOfPrecision
        else Ok ((parsed_remainder * 10 ^ Z.of_nat remainder_conversion) mod u256_bound)
    end.

Definition atto_from_str (value_str : bytes) : result Z AttoError :=
  let '(units, rest) := split_first 46 value_str in
  (let? converted_units := parse_units units in
   let? remainder := parse_remainder (default [] rest) in
   Ok ((converted_units + remainder) mod u256_bound))%rust.

Definition atto_display (a : Z) : bytes :=
  show_amount (a / TOKEN_TO_RAW_CONVERSION) ++ 46 :: show_amount_18 (a mod TOKEN_TO_RAW_CONVERSION).

(** [checked_sub]. *)
Definition atto_checked_sub (a b : Z) : option Z := if a <? b then None else Some (a - b).
End amounts.

(** ** Properties *)

Section amount_laws.
Context `{AmountTextLaws}.

Lemma split_first_at c a b : c ∉ a → split_first c (a ++ c :: b) = (a, Some b).
Proof.
  induction a as [|x a IH]; intros Hc; simpl; [by rewrite Z.eqb_refl|].
  apply not_elem_of_cons in Hc as [Hx Hc]. rewrite (proj2 (Z.eqb_neq x c)) by done. by rewrite IH.
Qed.

Lemma trim_end_split c s : ∃ k, s = trim_end c s ++ replicate k c.
Proof.
  induction s as [|x s [k IH]]; [by exists 0%nat|]. simpl. destruct (trim_end c s) as [|y t] eqn:E.
  - destruct (Z.eqb_spec x c) as [->|Hx]; [exists (S k)|exists k]; simpl in *; by rewrite IH at 1.
  - exists k. simpl in *. by rewrite IH at 1.
Qed.

Lemma digits_value_app ds es : digits_value (ds ++ es) = digits_value ds * 10 ^ Z.of_nat (length es) + digits_value es.
Proof.
  revert ds. induction es as [|e es IH] using rev_ind; intros ds; [rewrite app_nil_r; unfold digits_value at 3; simpl; lia|].
  rewrite app_assoc, !digits_value_snoc, IH, length_app. cbn [length]. rewrite Nat2Z.inj_add, Z.pow_add_r by lia.
  change (10 ^ Z.of_nat 1) with 10. ring.
Qed.

Lemma digits_value_zeros k : digits_value (replicate k 48) = 0.
Proof.
  induction k as [|k IH]; [done|]. rewrite replicate_S. change (48 :: replicate k 48) with ([48] ++ replicate k 48).
  rewrite digits_value_app, IH. unfold digits_value. simpl. lia.
Qed.

Lemma digits_value_nonneg ds : forallb is_digit ds = true → 0 ≤ digits_value ds < 10 ^ Z.of_nat (length ds).
Proof.
  induction ds as [|d ds IH] using rev_ind; intros Hd; [done|]. rewrite forallb_app in Hd. apply andb_true_iff in Hd as [Hds Hd].
  simpl in Hd. rewrite andb_true_r in Hd. unfold is_digit in Hd. apply andb_true_iff in Hd as [H1%Z.leb_le H2%Z.leb_le].
  specialize (IH Hds). rewrite digits_value_snoc, length_app. simpl. rewrite Nat2Z.inj_add, Z.pow_add_r by lia. simpl. lia.
Qed.

Lemma forallb_replicate_zero k : forallb is_digit (replicate k 48) = true.
Proof. by induction k. Qed.

(** A number has no more digits than its size needs. *)
Lemma show_digits_length fuel n k :
  0 ≤ n < 10 ^ Z.of_nat k → (0 < k)%nat → (length (show_digits fuel n) ≤ k)%nat.
Proof.
  revert n k. induction fuel as [|fuel IH]; intros n k Hn Hk; [simpl; lia|]. cbn [show_digits]. rewrite length_app. simpl.
  destruct (Z.ltb_spec n 10); [simpl; lia|]. destruct k as [|[|k]]; [lia|simpl in Hn; lia|].
  assert (length (show_digits fuel (n / 10)) ≤ S k)%nat; [|lia]. apply IH; [|lia].
  split; [apply Z.div_pos; lia|]. apply Z.div_lt_upper_bound; [lia|]. rewrite <- Z.pow_succ_r by lia. rewrite <- Nat2Z.inj_succ. apply Hn.
Qed.

Lemma show_digits_256 n : 0 ≤ n < u256_bound →
  forallb is_digit (show_digits 78 n) = true ∧ digits_value (show_digits 78 n) = n ∧ show_digits 78 n ≠ [].
Proof. intros Hn. apply show_digits_spec; [|done]. unfold u256_bound in Hn. split; [lia|]. eapply Z.lt_le_trans; [apply Hn|]. by vm_compute. Qed.

(** The digits after the point are read as what they stand for. *)
Lemma parse_remainder_digits ds :
  forallb is_digit ds = true → length ds = 18%nat → parse_remainder ds = Ok (digits_value ds).
Proof.
  intros Hd Hlen. unfold parse_remainder. destruct (trim_end_split 48 ds) as [k Hk]. set (t := trim_end 48 ds) in *.
  assert (digits_value ds = digits_value t * 10 ^ Z.of_nat k) as Hv.
  { rewrite Hk, digits_value_app, digits_value_zeros, length_replicate. lia. }
  assert (length t + k = 18)%nat as Hl by (rewrite <- Hlen, Hk, length_app, length_replicate; done).
  pose proof (digits_value_nonneg ds Hd) as Hb. rewrite Hlen in Hb.
  case_bool_decide as Ht; [rewrite Hv, Ht; done|].
  assert (forallb is_digit t = true) as Htd by (rewrite Hk, forallb_app in Hd; by apply andb_true_iff in Hd as [? _]).
  assert (10 ^ Z.of_nat 18 < u256_bound) as Hsmall by (by vm_compute).
  rewrite parse_amount_digits; [|done|done|].
  - destruct (Nat.ltb_spec TOKEN_TO_RAW_POWER_OF_10_CONVERSION (length t)); [unfold TOKEN_TO_RAW_POWER_OF_10_CONVERSION in *; lia|].
    unfold TOKEN_TO_RAW_POWER_OF_10_CONVERSION. replace (18 - length t)%nat with k by lia.
    destruct (Nat.ltb_spec 32 k); [lia|]. rewrite <- Hv, Z.mod_small by lia. done.
  - pose proof (digits_value_nonneg t Htd) as Htb. eapply Z.lt_trans; [apply Htb|]. eapply Z.le_lt_trans; [|exact Hsmall].
    apply Z.pow_le_mono_r; lia.
Qed.

(** C31: Amounts survive being written and read. The text of any amount is read back as the amount
    itself if it is of at most [u64::MAX] whole tokens, and refused as excessive otherwise. *)
Theorem atto_roundtrip a :
  0 ≤ a < u256_bound →
  atto_from_str (atto_display a) = if a / TOKEN_TO_RAW_CONVERSION <=? u64_max then Ok a else Err AttoExcessiveValue.
Proof.
  intros Ha. unfold atto_display, atto_from_str. set (units := a / _). set (rest := a mod _).
  assert (TOKEN_TO_RAW_CONVERSION = 10 ^ Z.of_nat 18) as Hconv by done.
  pose proof (Z.div_mod a TOKEN_TO_RAW_CONVERSION ltac:(done)) as Hdm. fold units rest in Hdm.
  assert (0 ≤ rest < TOKEN_TO_RAW_CONVERSION) as Hrest by (apply Z.mod_pos_bound; done).
  assert (0 ≤ units ≤ a) as Hunits.
  { split; [apply Z.div_pos; [lia|done]|]. apply Z.div_le_upper_bound; [done|]. unfold TOKEN_TO_RAW_CONVERSION. lia. }
  assert (10 ^ Z.of_nat 18 < u256_bound) as Hsmall by (by vm_compute).
  rewrite show_amount_digits, show_amount_18_digits by lia.
  destruct (show_digits_256 units) as (Hud & Huv & Hune); [lia|]. destruct (show_digits_256 rest) as (Hrd & Hrv & _); [lia|].
  rewrite split_first_at.
  2:{ intros Hin. rewrite forallb_forall in Hud. apply list_elem_of_In in Hin. by apply Hud in Hin. }
  unfold parse_units. rewrite parse_amount_digits by (rewrite ?Huv; lia || done). rewrite Huv.
  destruct (Z.leb_spec units u64_max) as [Hle|Hgt]; [rewrite (proj2 (Z.ltb_ge _ _)) by done|by rewrite (proj2 (Z.ltb_lt _ _))].
  destruct (Z.leb_spec u256_bound (units * TOKEN_TO_RAW_CONVERSION)) as [Hov|_].
  { exfalso. rewrite (Z.mul_comm units) in Hov. lia. }
  cbn [rbind default from_option id]. rewrite parse_remainder_digits.
  - cbn [rbind]. rewrite digits_value_app, digits_value_zeros, Hrv. f_equal. rewrite Z.mod_small; lia.
  - by rewrite forallb_app, forallb_replicate_zero.
  - rewrite length_app, length_replicate. pose proof (show_digits_length 78 rest 18 ltac:(lia) ltac:(lia)). lia.
Qed.
End amount_laws.

(** ** A concrete text *)

Section concrete_amounts.

(** Decimal digits only. *)
#[local] Instance toy_amount_text : AmountText :=
  {| parse_amount s := if bool_decide (s = []) || negb (forallb is_digit s) then None
                       else if digits_value s <? u256_bound then Some (digits_value s) else None;
     show_amount n := show_digits 78 n;
     show_amount_18 n := replicate (18 - length (show_digits 78 n)) 48 ++ show_digits 78 n |}.

#[local] Instance toy_amount_text_laws : AmountTextLaws.
Proof.
  split; [|done|done]. intros ds Hne Hd Hv. simpl. rewrite bool_decide_eq_false_2 by done. rewrite Hd. simpl.
  by rewrite (proj2 (Z.ltb_lt _ _)).
Qed.

Lemma atto_roundtrip_witness :
  0 ≤ 1100000000000000001 < u256_bound ∧
  atto_display 1100000000000000001 = text "1.100000000000000001" ∧
  atto_from_str (atto_display 1100000000000000001) = Ok 1100000000000000001.
Proof.
  split; [by vm_compute|]. split; [vm_compute; reflexivity|]. exact (atto_roundtrip 1100000000000000001 ltac:(by vm_compute)).
Defined.

(** What the tests of amount.rs say of texts that are no amounts. *)
Example atto_refused :
  atto_from_str (text "a") = Err CantParseTokenUnits ∧ atto_from_str (text "0.a") = Err CantParseTokenRemainder ∧
  atto_from_str (text "0.0.0") = Err CantParseTokenRemainder ∧
  atto_from_str (text "0.0000000000000000001") = Err LossOfPrecision ∧
  atto_from_str (text "340282366920938463463374607431768211455") = Err AttoExcessiveValue.
Proof. by vm_compute. Qed.
End concrete_amounts.
