(* ===== verification/Transactions.v ===== *)
(** * Transactions and their retries

    Models src/evmlib/src/retry.rs and transaction_config.rs: the fees of a transaction, its sending,
    watching and receipt, and the retries of both calls and transactions. The provider (alloy's) and the
    chain behind it are the class [Provider], operations that change a world [W] and can fail; a request
    for a transaction is a record of what the code sets in it. Errors keep no texts. *)

From stdpp Require Import base list.
From Stdlib Require Import ZArith Lia.
From S2P Require Import Prelude Effects.

Definition MAX_RETRIES : nat := 3.
Definition DEFAULT_RETRY_INTERVAL_MS : Z := 4000.
Definition WATCH_TIMEOUT_MS : Z := 1000.

Definition u128_max : Z := 2 ^ 128 - 1.

(** ** Data *)

Record GasInfo := {
  gi_estimated_gas : Z;
  gi_gas_with_buffer : Z;
  gi_max_fee_per_gas : option Z;
  gi_max_priority_fee_per_gas : option Z;
  gi_actual_gas_used : Z;
  gi_effective_gas_price : Z;
  gi_gas_cost_wei : Z;
}.

Inductive TransactionError :=
  | CouldNotGetGasPrice
  | GasPriceAboveLimit (limit : Z)
  | TransactionFailedToSend
  | TransactionFailedToConfirm (nonce : option Z)
  | TransactionReverted (revert_data : option bytes) (nonce : option Z).

Inductive MaxFeePerGas := FeeAuto | FeeLimitedAuto (limit : Z) | FeeUnlimited | FeeCustom (max_fee : Z).

Record TransactionConfig := { tc_max_fee_per_gas : MaxFeePerGas }.

Record Eip1559Fees := { max_fee_per_gas : Z; max_priority_fee_per_gas : Z }.

Record TransactionRequest := {
  tr_to : bytes;
  tr_input : bytes;
  tr_fees : option Eip1559Fees;
  tr_gas_limit : option Z;
  tr_nonce : option Z;
}.

(** A receipt's status, gas used and price of gas. *)
Record TxReceipt := { rc_status : bool; rc_gas_used : Z; rc_effective_gas_price : Z }.

(** [provider.send_transaction] within its time. *)
Inductive Broadcast := Pending (tx_hash : bytes) | SendError | SendTimeout.

(** alloy's provider: the nonce of the request it starts from, fees, gas, sending, watching a pending
    transaction, and receipts; and the passing of a number of milliseconds. *)
Class Provider (W : Type) := {
  pv_initial_nonce : option Z;
  pv_estimate_eip1559_fees : W → option Eip1559Fees * W;
  pv_estimate_gas : TransactionRequest → W → option Z * W;
  pv_send_transaction : TransactionRequest → W → Broadcast * W;
  pv_watch : bytes → W → option bytes * W;
  pv_get_transaction_receipt : bytes → W → result (option TxReceipt) unit * W;
  pv_sleep : Z → W → W;
}.

(** A request for a transaction starts empty. *)
Class ProviderLaws (W : Type) `{Provider W} : Prop := { pv_initial_nonce_none : pv_initial_nonce = None }.

Section transactions.
Context {W : Type} `{Provider W}.

(** ** Retries of a call *)

(** The attempts from [retries] on; [remaining] are the retries still allowed, so that [retries + remaining]
    is [MAX_RETRIES]. *)
Fixpoint retry_from {T E} (action : CM W E T) (retry_interval_ms : Z) (retries remaining : nat) : CM W E T := λ w,
  match action w with
  | (Ok result, w) => (Ok result, w)
  | (Err err, w) =>
    match remaining with
    | O => (Err err, w)
    | S remaining =>
      let retries := S retries in
      retry_from action retry_interval_ms retries remaining (pv_sleep (retry_interval_ms * Z.of_nat retries ^ 2) w)
    end
  end.

Definition retry {T E} (action : CM W E T) (retry_interval_ms : option Z) : CM W E T :=
  retry_from action (default DEFAULT_RETRY_INTERVAL_MS retry_interval_ms) 0 MAX_RETRIES.

(** ** Fees *)

Definition get_eip1559_fees (transaction_config : TransactionConfig) : CM W TransactionError (option Eip1559Fees) := λ w,
  match tc_max_fee_per_gas transaction_config with
  | FeeUnlimited => (Ok None, w)
  | mode =>
    let '(estimated, w) := pv_estimate_eip1559_fees w in
    (match estimated with
     | None => Err CouldNotGetGasPrice
     | Some fees =>
       match mode with
       | FeeLimitedAuto limit => if limit <? max_fee_per_gas fees then Err (GasPriceAboveLimit limit) else Ok (Some fees)
       | FeeCustom max_fee => Ok (Some {| max_fee_per_gas := max_fee; max_priority_fee_per_gas := max_priority_fee_per_gas fees |})
       | _ => Ok (Some fees)
       end
     end, w)
  end.

(** ** One transaction *)

(** [extract_revert_data] finds none. *)
Definition extract_revert_data : option bytes := None.

Definition gas_with_buffer (estimated_gas : Z) : Z := saturating_mul u64_max estimated_gas 120 / 100.

(** The receipt of a mined transaction. *)
Definition check_receipt (tx_hash : bytes) (gas_info : GasInfo) (nonce : option Z) (receipt : result (option TxReceipt) unit)
    : result (bytes * GasInfo) TransactionError :=
  match receipt with
  | Ok (Some receipt) =>
    let gas_info := {| gi_estimated_gas := gi_estimated_gas gas_info; gi_gas_with_buffer := gi_gas_with_buffer gas_info;
                       gi_max_fee_per_gas := gi_max_fee_per_gas gas_info;
                       gi_max_priority_fee_per_gas := gi_max_priority_fee_per_gas gas_info;
                       gi_actual_gas_used := rc_gas_used receipt; gi_effective_gas_price := rc_effective_gas_price receipt;
                       gi_gas_cost_wei := saturating_mul u128_max (rc_gas_used receipt) (rc_effective_gas_price receipt) |} in
    if rc_status receipt then Ok (tx_hash, gas_info) else Err (TransactionReverted None nonce)
  | Ok None | Err _ => Err (TransactionFailedToConfirm nonce)
  end.

Local Open Scope cm_scope.

Definition send_transaction (calldata to : bytes) (nonce : option Z) (transaction_config : TransactionConfig)
    : CM W TransactionError (bytes * GasInfo) :=
  let! eip1559_fees := get_eip1559_fees transaction_config in
  let request := {| tr_to := to; tr_input := calldata; tr_fees := eip1559_fees; tr_gas_limit := None; tr_nonce := pv_initial_nonce |} in
  let! estimated_gas := (λ w, let '(gas, w) := pv_estimate_gas request w in (ok_or gas TransactionFailedToSend, w)) in
  let gas_info := {| gi_estimated_gas := estimated_gas; gi_gas_with_buffer := gas_with_buffer estimated_gas;
                     gi_max_fee_per_gas := max_fee_per_gas <$> eip1559_fees;
                     gi_max_priority_fee_per_gas := max_priority_fee_per_gas <$> eip1559_fees;
                     gi_actual_gas_used := 0; gi_effective_gas_price := 0; gi_gas_cost_wei := 0 |} in
  let nonce := match nonce with Some nonce => Some nonce | None => tr_nonce request end in
  let request := {| tr_to := to; tr_input := calldata; tr_fees := eip1559_fees;
                    tr_gas_limit := Some (gas_with_buffer estimated_gas); tr_nonce := nonce |} in
  let! pending := (λ w, let '(sent, w) := pv_send_transaction request w in
                        (match sent with Pending tx_hash => Ok tx_hash | SendError | SendTimeout => Err TransactionFailedToSend end, w)) in
  let! watched := cm_try (retry (λ w, let '(mined, w) := pv_watch pending w in (ok_or mined tt, w)) (Some WATCH_TIMEOUT_MS)) in
  match watched with
  | Ok tx_hash =>
    let! receipt := (λ w, let '(receipt, w) := pv_get_transaction_receipt tx_hash w in (Ok receipt, w)) in
    cm_lift (check_receipt tx_hash gas_info nonce receipt)
  | Err _ =>
    cm_err (match extract_revert_data with
            | Some revert_data => TransactionReverted (Some revert_data) nonce
            | None => TransactionFailedToConfirm nonce
            end)
  end.

(** ** Retries of a transaction *)

(** The nonce of the next attempt; [None] if the error is final. *)
Definition next_nonce (previous_nonce : option Z) (err : TransactionError) : option (option Z) :=
  match err with
  | CouldNotGetGasPrice | GasPriceAboveLimit _ | TransactionFailedToSend => Some previous_nonce
  | TransactionFailedToConfirm nonce => Some nonce
  | TransactionReverted _ _ => None
  end.

Fixpoint send_from (calldata to : bytes) (transaction_config : TransactionConfig) (previous_nonce : option Z) (retries remaining : nat)
    : CM W TransactionError (bytes * GasInfo) := λ w,
  match send_transaction calldata to previous_nonce transaction_config w with
  | (Ok r, w) => (Ok r, w)
  | (Err err, w) =>
    match remaining with
    | O => (Err err, w)
    | S remaining =>
      match next_nonce previous_nonce err with
      | None => (Err err, w)
      | Some previous_nonce =>
        let retries := S retries in
        send_from calldata to transaction_config previous_nonce retries remaining
          (pv_sleep (DEFAULT_RETRY_INTERVAL_MS * Z.of_nat retries ^ 2) w)
      end
    end
  end.

Definition send_transaction_with_retries (calldata to : bytes) (transaction_config : TransactionConfig)
    : CM W TransactionError (bytes * GasInfo) :=
  send_from calldata to transaction_config None 0 MAX_RETRIES.
End transactions.

(** * Properties

    What is broadcast, and how often, for one transaction asked for, whatever the provider answers; that
    success is of a mined transaction that did not fail; that a retry never replaces what was sent
    before. *)

(** ** A provider that remembers what it broadcasts *)

(** The requests given to [send_transaction], and the receipts seen, newest last. *)
Record TxLog := { log_sent : list TransactionRequest; log_receipts : list (bytes * TxReceipt) }.

Definition logging {W} (P : Provider W) : Provider (W * TxLog) :=
  {| pv_initial_nonce := pv_initial_nonce (W := W);
     pv_estimate_eip1559_fees w := let '(r, w1) := pv_estimate_eip1559_fees w.1 in (r, (w1, w.2));
     pv_estimate_gas request w := let '(r, w1) := pv_estimate_gas request w.1 in (r, (w1, w.2));
     pv_send_transaction request w :=
       let '(r, w1) := pv_send_transaction request w.1 in
       (r, (w1, {| log_sent := log_sent w.2 ++ [request]; log_receipts := log_receipts w.2 |}));
     pv_watch tx_hash w := let '(r, w1) := pv_watch tx_hash w.1 in (r, (w1, w.2));
     pv_get_transaction_receipt tx_hash w :=
       let '(r, w1) := pv_get_transaction_receipt tx_hash w.1 in
       (r, (w1, match r with
                | Ok (Some receipt) => {| log_sent := log_sent w.2; log_receipts := log_receipts w.2 ++ [(tx_hash, receipt)] |}
                | _ => w.2
                end));
     pv_sleep ms w := (pv_sleep ms w.1, w.2) |}.

Section transactions_props.
Context {W : Type} (P : Provider W).

#[local] Existing Instance logging.
Implicit Types (w : W * TxLog) (config : TransactionConfig) (request : TransactionRequest).

(** The fees a configuration allows a request to have. *)
Definition fees_allowed config request : Prop :=
  match tc_max_fee_per_gas config with
  | FeeAuto => is_Some (tr_fees request)
  | FeeLimitedAuto limit => ∃ fees, tr_fees request = Some fees ∧ max_fee_per_gas fees ≤ limit
  | FeeCustom max_fee => ∃ fees, tr_fees request = Some fees ∧ max_fee_per_gas fees = max_fee
  | FeeUnlimited => tr_fees request = None
  end.

(** A request for the given call. *)
Definition request_for (calldata to : bytes) config request : Prop :=
  tr_input request = calldata ∧ tr_to request = to ∧ fees_allowed config request.

(** The last receipt is of this transaction, and a success with this gas. *)
Definition settled w (r : bytes * GasInfo) : Prop :=
  ∃ receipt, last (log_receipts w.2) = Some (r.1, receipt) ∧ rc_status receipt = true ∧
    gi_actual_gas_used r.2 = rc_gas_used receipt ∧ gi_effective_gas_price r.2 = rc_effective_gas_price receipt ∧
    gi_gas_cost_wei r.2 = saturating_mul u128_max (rc_gas_used receipt) (rc_effective_gas_price receipt).

(** ** Retries of a call *)

(** An operation that leaves the log alone does so when it is retried. *)
Lemma retry_from_log {T E} (action : CM (W * TxLog) E T) interval retries remaining w :
  (∀ w, (action w).2.2 = w.2) → (retry_from action interval retries remaining w).2.2 = w.2.
Proof.
  intros Ha. revert retries w. induction remaining as [|remaining IH]; intros retries w; simpl; specialize (Ha w) as Hw;
    destruct (action w) as [[r|e] w1]; simpl in *; try done. rewrite IH. done.
Qed.

(** A call that is retried gives the first success of its first four attempts, or the error of the
    fourth: with attempts that never succeed it is made exactly [MAX_RETRIES + 1] times. *)
Lemma retry_outcome {T E} (action : CM (W * TxLog) E T) interval retries remaining w :
  (∃ r, (retry_from action interval retries remaining w).1 = Ok r) ∨
  (∃ ws, length ws = S remaining ∧ head ws = Some w ∧ (∀ w', w' ∈ ws → ∃ e, (action w').1 = Err e) ∧
         ∃ wl, last ws = Some wl ∧ retry_from action interval retries remaining w = action wl).
Proof.
  revert retries w. induction remaining as [|remaining IH]; intros retries w; simpl.
  - destruct (action w) as [[r|e] w1] eqn:Ew; [left; by eexists|]. right. exists [w]. split_and!; [done|done| |by exists w].
    intros w' ->%list_elem_of_singleton. rewrite Ew. by eexists.
  - destruct (action w) as [[r|e] w1] eqn:Ew; [left; by eexists|].
    destruct (IH (S retries) (pv_sleep (interval * Z.of_nat (S retries) ^ 2) w1)) as [Hok|(ws & Hlen & Hhead & Hall & wl & Hl & Heq)]; [by left|].
    right. exists (w :: ws). split_and!; [simpl; lia|done| |].
    + intros w' [->|Hin]%elem_of_cons; [rewrite Ew; by eexists|by apply Hall].
    + exists wl. split; [|done]. by destruct ws.
Qed.

(** ** One transaction *)

Lemma fees_are_allowed config w fees w' :
  get_eip1559_fees config w = (Ok fees, w') →
  w'.2 = w.2 ∧ ∀ to calldata gas nonce, fees_allowed config {| tr_to := to; tr_input := calldata; tr_fees := fees; tr_gas_limit := gas; tr_nonce := nonce |}.
Proof.
  unfold get_eip1559_fees, fees_allowed. simpl. destruct (pv_estimate_eip1559_fees w.1) as [[est|] w1]; intros Hf;
    destruct (tc_max_fee_per_gas config) as [|limit| |fee]; simplify_eq/=; try done.
  - destruct (Z.ltb_spec limit (max_fee_per_gas est)); simplify_eq/=. split; [done|]. eauto.
  - eauto.
Qed.

Lemma fees_error_log config w e w' : get_eip1559_fees config w = (Err e, w') → w'.2 = w.2 ∧ (∀ n, e ≠ TransactionFailedToConfirm n) ∧ (∀ d n, e ≠ TransactionReverted d n).
Proof.
  unfold get_eip1559_fees. simpl. destruct (pv_estimate_eip1559_fees w.1) as [[est|] w1]; intros Hf;
    destruct (tc_max_fee_per_gas config) as [|limit| |fee]; repeat case_match; by simplify_eq/=.
Qed.

(** The nonce of a request: what an earlier attempt reported or, if none did, what an empty request has. *)
Definition nonce_used (nonce : option Z) : option Z :=
  match nonce with Some n => Some n | None => pv_initial_nonce (W := W) end.

(** What an error says of the nonce. *)
Definition error_nonce (nonce : option Z) (e : TransactionError) : Prop :=
  match e with
  | TransactionFailedToConfirm n => n = nonce_used nonce
  | TransactionReverted data n => data = None ∧ n = nonce_used nonce
  | _ => True
  end.

(** At most one request is broadcast, for the call asked for and with allowed fees. *)
Lemma send_transaction_once calldata to nonce config w r w' :
  send_transaction calldata to nonce config w = (r, w') →
  ∃ sent, log_sent w'.2 = log_sent w.2 ++ sent ∧ (length sent ≤ 1)%nat ∧
    Forall (λ q, request_for calldata to config q ∧ tr_nonce q = nonce_used nonce) sent ∧
    log_receipts w.2 `prefix_of` log_receipts w'.2 ∧
    match r with Ok r => settled w' r ∧ length sent = 1%nat | Err e => error_nonce nonce e end.
Proof.
  unfold send_transaction. cbv zeta. unfold cm_bind at 1. destruct (get_eip1559_fees config w) as [[fees|e] w1] eqn:Ef; intros Hs.
  2:{ apply fees_error_log in Ef as (Hlog & Hc & Hr). simplify_eq. exists []. rewrite app_nil_r, Hlog. split_and!; [done|simpl; lia|done|done|].
      destruct e; try done; [by destruct (Hc nonce0)|by destruct (Hr revert_data nonce0)]. }
  apply fees_are_allowed in Ef as [Hlog1 Hfees]. unfold cm_bind at 1 in Hs. simpl in Hs.
  destruct (pv_estimate_gas _ w1.1) as [[gas|] w2]; simpl in Hs;
    [|simplify_eq; exists []; simpl; rewrite app_nil_r, Hlog1; by split_and!; try lia].
  unfold cm_bind at 1 in Hs. simpl in Hs. set (request := Build_TransactionRequest _ _ _ _ _) in Hs.
  assert (request_for calldata to config request ∧ tr_nonce request = nonce_used nonce) as Hreq by (split; [split_and!; [done|done|apply Hfees]|done]).
  destruct (pv_send_transaction request w2) as [[tx_hash| |] w3]; simpl in Hs;
    [|simplify_eq; exists [request]; simpl; rewrite Hlog1; split_and!; try done; by constructor..].
  exists [request].
  unfold cm_bind at 1, cm_try at 1 in Hs. unfold retry in Hs. match type of Hs with context [retry_from ?a ?i ?k ?m ?ws] =>
    pose proof (retry_from_log a i k m ws) as Hlog; destruct (retry_from a i k m ws) as [[mined|[]] w4] end; simpl in Hs, Hlog.
  all: specialize (Hlog ltac:(intros wx; by destruct (pv_watch tx_hash wx.1) as [[]])).
  2:{ injection Hs as <- <-. rewrite Hlog. simpl. rewrite Hlog1. split_and!; try done. by constructor. }
  unfold cm_bind, cm_lift in Hs. simpl in Hs. destruct (pv_get_transaction_receipt mined w4.1) as [[[receipt|]|[]] w5]; simplify_eq/=;
    rewrite Hlog, Hlog1; (split; [done|]); (split; [done|]); (split; [by constructor|]); [|done..].
  split; [by apply prefix_app_r|].
  destruct (rc_status receipt) eqn:Es; [|done]. split; [|done]. exists receipt. simpl. by rewrite last_snoc.
Qed.

(** ** A transaction with its retries *)

Lemma send_from_bounded calldata to config previous_nonce retries remaining w r w' :
  send_from calldata to config previous_nonce retries remaining w = (r, w') →
  previous_nonce = None ∨ previous_nonce = pv_initial_nonce (W := W) →
  ∃ sent, log_sent w'.2 = log_sent w.2 ++ sent ∧ (length sent ≤ S remaining)%nat ∧
    Forall (λ q, request_for calldata to config q ∧ tr_nonce q = pv_initial_nonce (W := W)) sent ∧
    log_receipts w.2 `prefix_of` log_receipts w'.2 ∧
    match r with
    | Ok r => settled w' r ∧ (0 < length sent)%nat
    | Err (TransactionReverted data _) => data = None
    | Err _ => True
    end.
Proof.
  assert (∀ n, n = None ∨ n = pv_initial_nonce (W := W) → nonce_used n = pv_initial_nonce (W := W)) as Hused.
  { unfold nonce_used. intros n [->| ->]; [done|]. by destruct (pv_initial_nonce (W := W)). }
  revert previous_nonce retries w. induction remaining as [|remaining IH]; intros previous_nonce retries w Hs Hn; simpl in Hs;
    destruct (send_transaction calldata to previous_nonce config w) as [[r1|e] w1] eqn:E1;
    apply send_transaction_once in E1 as (sent & Hsent & Hlen & Hall & Hpre & Hr); rewrite (Hused _ Hn) in Hall; simplify_eq/=.
  - exists sent. split_and!; [done|lia|done|done|naive_solver|destruct Hr; lia].
  - exists sent. split_and!; [done|lia|done|done|by destruct e; naive_solver].
  - exists sent. split_and!; [done|lia|done|done|naive_solver|destruct Hr; lia].
  - destruct (next_nonce previous_nonce e) as [n|] eqn:En.
    2:{ simplify_eq. exists sent. split_and!; [done|lia|done|done|by destruct e; naive_solver]. }
    apply IH in Hs as (sent' & Hsent' & Hlen' & Hall' & Hpre' & Hr').
    + exists (sent ++ sent'). rewrite Hsent'. simpl. rewrite Hsent, app_assoc, length_app. split_and!; [done|lia|by apply Forall_app|by etrans|].
      destruct r as [r|[]]; try done. split; [naive_solver|destruct Hr'; lia].
    + destruct e; simplify_eq/=; try done. right. by apply Hused.
Qed.

(** C26: What is broadcast for one transaction. Whatever the provider answers, at most four requests
    are broadcast, each of the call asked for and with fees the configuration allows (never above the
    limit of [LimitedAuto], exactly the fee of [Custom]); success is reported only for a transaction whose
    receipt was fetched last and says that it succeeded, with the gas of that receipt; and a revert is
    reported without data. *)
Theorem broadcasts_bounded calldata to config w r w' :
  send_transaction_with_retries calldata to config w = (r, w') →
  ∃ sent, log_sent w'.2 = log_sent w.2 ++ sent ∧ (length sent ≤ MAX_RETRIES + 1)%nat ∧
    Forall (request_for calldata to config) sent ∧
    match r with
    | Ok r => settled w' r ∧ (0 < length sent)%nat
    | Err (TransactionReverted data _) => data = None
    | Err _ => True
    end.
Proof.
  intros Hs. apply send_from_bounded in Hs as (sent & Hsent & Hlen & Hall & _ & Hr); [|by left].
  exists sent. split_and!; [done|unfold MAX_RETRIES in *; lia| |done]. eapply Forall_impl; [exact Hall|]. naive_solver.
Qed.

(** A retry does not replace. The code keeps the nonce of a transaction that was not confirmed in time
    so that the next attempt replaces it; but the nonce is read from the request before the provider
    fills it in, where there is none. So every attempt is broadcast without a nonce, as a new transaction,
    and each of them may be mined. *)
Theorem retries_do_not_replace `{!ProviderLaws W} calldata to config w r w' :
  send_transaction_with_retries calldata to config w = (r, w') →
  ∃ sent, log_sent w'.2 = log_sent w.2 ++ sent ∧ ∀ q, q ∈ sent → tr_nonce q = None.
Proof.
  intros Hs. apply send_from_bounded in Hs as (sent & Hsent & _ & Hall & _); [|by left].
  exists sent. split; [done|]. intros q Hq. rewrite Forall_forall in Hall. apply Hall in Hq as [_ ->]. apply pv_initial_nonce_none.
Qed.
End transactions_props.

(** * A slow chain *)

Section slow_chain.

(** Transactions are mined, but watching one never ends in time; the world counts the mined. *)
#[local] Instance slow_provider : Provider Z :=
  {| pv_initial_nonce := None;
     pv_estimate_eip1559_fees w := (Some {| max_fee_per_gas := 100; max_priority_fee_per_gas := 1 |}, w);
     pv_estimate_gas _ w := (Some 21000, w);
     pv_send_transaction _ w := (Pending [w], w + 1);
     pv_watch _ w := (None, w);
     pv_get_transaction_receipt _ w := (Ok None, w);
     pv_sleep _ w := w |}.

#[local] Instance slow_provider_laws : ProviderLaws Z.
Proof. by split. Qed.

#[local] Existing Instance logging.

Definition ex_config : TransactionConfig := {| tc_max_fee_per_gas := FeeLimitedAuto 100 |}.
Definition ex_log : Z * TxLog := (0, {| log_sent := []; log_receipts := [] |}).

Definition ex_outcome : result (bytes * GasInfo) TransactionError * (Z * TxLog) :=
  send_transaction_with_retries (W := Z * TxLog) [1] [2] ex_config ex_log.

(** One transaction asked for is mined four times, and reported as not confirmed. *)
Lemma retries_do_not_replace_witness :
  ex_outcome.1 = Err (TransactionFailedToConfirm None) ∧ ex_outcome.2.1 = 4 ∧ length (log_sent ex_outcome.2.2) = 4%nat ∧
  ∃ sent, log_sent ex_outcome.2.2 = log_sent ex_log.2 ++ sent ∧ ∀ q, q ∈ sent → tr_nonce q = None.
Proof.
  split; [vm_compute; reflexivity|]. split; [vm_compute; reflexivity|]. split; [vm_compute; reflexivity|].
  exact (retries_do_not_replace slow_provider [1] [2] ex_config ex_log ex_outcome.1 ex_outcome.2 (surjective_pairing _)).
Defined.

Lemma broadcasts_bounded_witness :
  ∃ sent, log_sent ex_outcome.2.2 = log_sent ex_log.2 ++ sent ∧ (length sent ≤ 4)%nat ∧ Forall (request_for [1] [2] ex_config) sent.
Proof.
  destruct (broadcasts_bounded slow_provider [1] [2] ex_config ex_log ex_outcome.1 ex_outcome.2 (surjective_pairing _)) as (sent & Hsent & Hlen & Hall & _).
  exists sent. split; [exact Hsent|]. split; [exact Hlen|exact Hall].
Defined.
End slow_chain.
