(* ===== verification/Wallet.v ===== *)
(** * The wallet and the contracts it pays

    Models src/evmlib/src/wallet.rs (payments for quotes and for merkle trees), the handlers of
    contract/network_token.rs, contract/payment_vault/handler.rs and
    contract/merkle_payment_vault/handler.rs with their errors. The contracts are the class [Contracts]:
    the calls that read them, which can fail, and the ABI encodings that alloy generates; transactions go
    through [Transactions]. Amounts are [U256] values. Deployment and conversions between the contract's
    structs and the code's are left out. *)

From stdpp Require Import base gmap countable list.
From Stdlib Require Import ZArith Lia.
From S2P Require Import Prelude Effects Protocol RecordCache RecordStore MerkleTree Payments ClientNetwork ClientPayment Transactions.

Definition MAX_TRANSFERS_PER_TRANSACTION : nat := 256.
Definition U256_MAX : Z := 2 ^ 256 - 1.

Definition ARBITRUM_BLOCKS_PER_SECOND : Z := 4.
Definition LOOKBACK_PADDING_SECS : Z := 3600.
Definition MIN_LOOKBACK_BLOCKS : Z := 200000.
Definition MAX_LOOKBACK_BLOCKS : Z := 2500000.
Definition LOOKBACK_MARGIN_DIVISOR : Z := 5.

(** ** Errors *)

(** [network_token::Error]: a call or a transaction that failed. *)
Inductive TokenError := TokenContractError | TokenTransaction (e : TransactionError).

(** [payment_vault::error::Error], for what the wallet does. *)
Inductive PaymentVaultError := VaultCallError | VaultTransaction (e : TransactionError).

(** The custom errors of the merkle payment vault. *)
Inductive MerkleContractError :=
  | AntTokenNull | BatchLimitExceeded | DepthTooLarge (depth max : Z) | GracePeriodNotOver | InvalidAmount
  | InvalidChainlinkPrice | InvalidInputLength | InvalidQuoteHash | InvalidRecipientsCount | InvalidRoot
  | InvalidTreeDepth | PaymentAlreadyExists (pool_hash : bytes) | PaymentNotFound (pool_hash : bytes) | PriceFeedNull
  | RootAlreadyPaid | SequencerDown | WrongCandidateCount (pool_idx expected got : Z) | WrongPoolCount (expected got : Z).

(** [merkle_payment_vault::error::Error]. *)
Inductive MerkleVaultError :=
  | MV_Contract
  | MV_Rpc
  | MV_MerklePaymentsAddressNotConfigured
  | MV_Transaction (e : TransactionError)
  | MV_Custom (e : MerkleContractError).

(** [wallet::Error]. *)
Inductive EvmWalletError :=
  | EW_InsufficientTokensForQuotes (have need : Z)
  | EW_NetworkTokenContract (e : TokenError)
  | EW_ChunkPaymentsContract (e : PaymentVaultError)
  | EW_MerklePaymentVaultContract (e : MerkleVaultError)
  | EW_CostUnitOverflow.

(** Numbers of the contract's errors are [U256]; what does not fit becomes [u64::MAX]. *)
Definition to_u64_or_max (n : Z) : Z := if n <=? u64_max then n else u64_max.

(** [from_contract_error]. *)
Definition from_contract_error (e : MerkleContractError) : MerkleVaultError :=
  MV_Custom match e with
            | WrongCandidateCount pool_idx expected got =>
              WrongCandidateCount (to_u64_or_max pool_idx) (to_u64_or_max expected) (to_u64_or_max got)
            | WrongPoolCount expected got => WrongPoolCount (to_u64_or_max expected) (to_u64_or_max got)
            | e => e
            end.

(** ** The contracts *)

(** A quote's hash, who is paid, and the amount. *)
Definition QuotePayment : Type := bytes * bytes * Z.

(** The addresses of a network. *)
Record EvmAddresses := {
  payment_token_address : bytes;
  data_payments_address : bytes;
  merkle_payments_address : option bytes;
}.

Record MerklePaymentMade := { mpm_winner_pool_hash : bytes; mpm_total_amount : Z }.

(** A log entry: an event and the hash of its transaction. *)
Definition MerkleLog : Type := MerklePaymentMade * option bytes.

Class Contracts (W : Type) := {
  ct_balance_of : bytes → CM W unit Z;
  ct_allowance : bytes → bytes → CM W unit Z;
  ct_get_quote : list QuotingMetrics → CM W unit (list Z);
  ct_estimate_merkle_tree_cost : Z → list PoolCommitment → Z → CM W unit Z;
  ct_payment_depth : bytes → CM W unit Z;
  ct_transaction_by_hash : bytes → CM W unit (option (option Z * bytes));
  ct_block_number : CM W unit Z;
  ct_merkle_payment_logs : option bytes → Z → Z → CM W unit (list MerkleLog);
  abi_approve : bytes → Z → bytes;
  abi_transfer : bytes → Z → bytes;
  abi_pay_for_quotes : list QuotePayment → bytes;
  abi_pay_for_merkle_tree2 : Z → list PoolCommitmentPacked → Z → bytes;
  abi_decode_pay_for_merkle_tree2 : bytes → option (list PoolCommitmentPacked);
  abi_decode_merkle_error : bytes → bytes → option MerkleContractError;
}.

Section wallet.
Context {W : Type} `{Provider W, Contracts W, Backoff}.
Context (account : bytes) (network : EvmAddresses) (transaction_config : TransactionConfig).

Local Open Scope cm_scope.

(** ** network_token.rs *)

Definition balance_of (account : bytes) : CM W TokenError Z :=
  cm_map_err (λ _, TokenContractError) (retry (ct_balance_of account) None).

Definition allowance (owner spender : bytes) : CM W TokenError Z :=
  cm_map_err (λ _, TokenContractError) (retry (ct_allowance owner spender) None).

Definition approve (spender : bytes) (value : Z) : CM W TokenError bytes :=
  let! r := cm_map_err TokenTransaction
              (send_transaction_with_retries (abi_approve spender value) (payment_token_address network) transaction_config) in
  cm_ret r.1.

Definition transfer (receiver : bytes) (amount : Z) : CM W TokenError bytes :=
  let! r := cm_map_err TokenTransaction
              (send_transaction_with_retries (abi_transfer receiver amount) (payment_token_address network) transaction_config) in
  cm_ret r.1.

(** ** payment_vault/handler.rs *)

(** One price for all is taken for each. *)
Definition get_quote (metrics : list QuotingMetrics) : CM W PaymentVaultError (list Z) :=
  let! amounts := cm_map_err (λ _, VaultCallError) (retry (ct_get_quote metrics) None) in
  cm_ret match amounts with [value] => replicate (length metrics) value | _ => amounts end.

Definition handler_pay_for_quotes (data_payments : list QuotePayment) : CM W PaymentVaultError (bytes * GasInfo) :=
  cm_map_err VaultTransaction
    (send_transaction_with_retries (abi_pay_for_quotes data_payments) (data_payments_address network) transaction_config).

(** ** Paying for quotes: wallet.rs *)

Definition gas_default : GasInfo :=
  {| gi_estimated_gas := 0; gi_gas_with_buffer := 0; gi_max_fee_per_gas := None; gi_max_priority_fee_per_gas := None;
     gi_actual_gas_used := 0; gi_effective_gas_price := 0; gi_gas_cost_wei := 0 |}.

Definition max_option (a b : option Z) : option Z :=
  match a, b with
  | Some a, Some b => Some (Z.max a b)
  | Some a, None => Some a
  | None, b => b
  end.

Definition aggregate_gas (a g : GasInfo) : GasInfo :=
  {| gi_estimated_gas := saturating_add u64_max (gi_estimated_gas a) (gi_estimated_gas g);
     gi_gas_with_buffer := saturating_add u64_max (gi_gas_with_buffer a) (gi_gas_with_buffer g);
     gi_max_fee_per_gas := max_option (gi_max_fee_per_gas a) (gi_max_fee_per_gas g);
     gi_max_priority_fee_per_gas := max_option (gi_max_priority_fee_per_gas a) (gi_max_priority_fee_per_gas g);
     gi_actual_gas_used := saturating_add u64_max (gi_actual_gas_used a) (gi_actual_gas_used g);
     gi_effective_gas_price := gi_effective_gas_price a;
     gi_gas_cost_wei := saturating_add u128_max (gi_gas_cost_wei a) (gi_gas_cost_wei g) |}.

(** The average price from the totals. *)
Definition average_gas (g : GasInfo) : GasInfo :=
  {| gi_estimated_gas := gi_estimated_gas g; gi_gas_with_buffer := gi_gas_with_buffer g;
     gi_max_fee_per_gas := gi_max_fee_per_gas g; gi_max_priority_fee_per_gas := gi_max_priority_fee_per_gas g;
     gi_actual_gas_used := gi_actual_gas_used g;
     gi_effective_gas_price := if 0 <? gi_actual_gas_used g then gi_gas_cost_wei g / gi_actual_gas_used g else gi_effective_gas_price g;
     gi_gas_cost_wei := gi_gas_cost_wei g |}.

Abbreviation TxHashes := (gmap bytes bytes).

(** [PayForQuotesError]: the error, and what was paid before it. *)
Definition PayForQuotesError : Type := EvmWalletError * TxHashes.

(** The loop over the batches. *)
Fixpoint pay_quote_batches (batches : list (list QuotePayment)) (tx_hashes_by_quote : TxHashes) (gas : GasInfo)
    : CM W PayForQuotesError (TxHashes * GasInfo) :=
  match batches with
  | [] => cm_ret (tx_hashes_by_quote, gas)
  | batch :: batches =>
    let! r := cm_map_err (λ err, (EW_ChunkPaymentsContract err, tx_hashes_by_quote)) (handler_pay_for_quotes batch) in
    pay_quote_batches batches
      (foldl (λ m q, <[q.1.1 := r.1]> m) tx_hashes_by_quote batch) (aggregate_gas gas r.2)
  end.

(** Payments of nothing are left out. *)
Definition payments_due (payments : list QuotePayment) : list QuotePayment := filter (λ q, 0 < q.2) payments.

Definition pay_for_quotes (payments : list QuotePayment) : CM W PayForQuotesError (TxHashes * GasInfo) :=
  let early {A} (m : CM W TokenError A) : CM W PayForQuotesError A := cm_map_err (λ err, (EW_NetworkTokenContract err, ∅)) m in
  let total_amount_to_be_paid := amount_sum (payments.*2) in
  let! wallet_balance := early (balance_of account) in
  if wallet_balance <? total_amount_to_be_paid then cm_err (EW_InsufficientTokensForQuotes wallet_balance total_amount_to_be_paid, ∅)
  else
    let! allowed := early (allowance account (data_payments_address network)) in
    let! _ := (if allowed <? total_amount_to_be_paid then
                 let! _ := early (approve (data_payments_address network) U256_MAX) in cm_ret tt
               else cm_ret tt) in
    let payment_for_batch := payments_due payments in
    let! paid := pay_quote_batches (chunks_of (length payment_for_batch) MAX_TRANSFERS_PER_TRANSACTION payment_for_batch) ∅ gas_default in
    cm_ret (paid.1, average_gas paid.2).

(** ** merkle_payment_vault/handler.rs *)

Definition rpc {A} (m : CM W unit A) : CM W MerkleVaultError A := cm_map_err (λ _, MV_Rpc) m.

(** The first log entry with the hash. *)
Definition find_log (tx_hash : bytes) (logs : list MerkleLog) : option MerklePaymentMade :=
  fst <$> head (filter (λ e : MerkleLog, e.2 = Some tx_hash) logs).

(** One attempt: the events of the transaction's block. *)
Definition try_get_merkle_payment_event (tx_hash : bytes) : CM W MerkleVaultError MerklePaymentMade :=
  let! tx := rpc (ct_transaction_by_hash tx_hash) in
  let! tx := cm_lift (ok_or tx MV_Rpc) in
  let! block_number := cm_lift (ok_or tx.1 MV_Rpc) in
  let! logs := rpc (ct_merkle_payment_logs None block_number block_number) in
  cm_lift (ok_or (find_log tx_hash logs) MV_Rpc).

Definition MERKLE_EVENT_MAX_ATTEMPTS : nat := 3.

Fixpoint get_event_from (delays : list (option Z)) (last_error : option MerkleVaultError) (tx_hash : bytes)
    : CM W MerkleVaultError MerklePaymentMade := λ w,
  match delays with
  | [] => (Err (default MV_Rpc last_error), w)
  | delay :: delays =>
    match try_get_merkle_payment_event tx_hash w with
    | (Ok event, w) => (Ok event, w)
    | (Err e, w) => get_event_from delays (Some e) tx_hash (match delay with Some d => pv_sleep d w | None => w end)
    end
  end.

Definition get_merkle_payment_event (tx_hash : bytes) : CM W MerkleVaultError MerklePaymentMade :=
  get_event_from (backoff_delays MERKLE_EVENT_MAX_ATTEMPTS) None tx_hash.

(** [Error::try_decode_revert]: a selector of four bytes and the data of the error. *)
Definition try_decode_revert (data : bytes) : option MerkleVaultError :=
  if (length data <? 4)%nat then None else from_contract_error <$> abi_decode_merkle_error (take 4 data) (drop 4 data).

Definition decode_revert_error (revert_data : option bytes) (nonce : option Z) : MerkleVaultError :=
  match revert_data ≫= try_decode_revert with
  | Some decoded_err => decoded_err
  | None => MV_Transaction (TransactionReverted revert_data nonce)
  end.

Definition send_transaction_and_handle_errors (calldata to : bytes) : CM W MerkleVaultError (bytes * GasInfo) :=
  cm_map_err (λ err, match err with
                     | TransactionReverted revert_data nonce => decode_revert_error revert_data nonce
                     | other_err => MV_Transaction other_err
                     end) (send_transaction_with_retries calldata to transaction_config).

Definition handler_pay_for_merkle_tree (vault : bytes) (depth : Z) (pool_commitments : list PoolCommitmentPacked)
    (merkle_payment_timestamp : Z) : CM W MerkleVaultError (bytes * Z * GasInfo) :=
  let! sent := send_transaction_and_handle_errors (abi_pay_for_merkle_tree2 depth pool_commitments merkle_payment_timestamp) vault in
  let! event := get_merkle_payment_event sent.1 in
  cm_ret (mpm_winner_pool_hash event, mpm_total_amount event, sent.2).

(** How many blocks back the events of a payment are looked for. *)
Definition lookback (now_unix merkle_payment_timestamp : Z) : Z :=
  let age_secs := Z.max 0 (now_unix - merkle_payment_timestamp) in
  let raw_blocks := saturating_mul u64_max age_secs ARBITRUM_BLOCKS_PER_SECOND in
  let buffered := saturating_add u64_max (saturating_add u64_max raw_blocks (raw_blocks / LOOKBACK_MARGIN_DIVISOR))
                    (saturating_mul u64_max LOOKBACK_PADDING_SECS ARBITRUM_BLOCKS_PER_SECOND) in
  Z.min (Z.max buffered MIN_LOOKBACK_BLOCKS) MAX_LOOKBACK_BLOCKS.

(** The commitments a payment was made with, from its transaction; [now_unix] is the clock's reading. *)
Definition get_payment_packed_commitments (now_unix : Z) (winner_pool_hash : bytes) (merkle_payment_timestamp : Z)
    : CM W MerkleVaultError (list PoolCommitmentPacked) :=
  let! current_block := rpc ct_block_number in
  let from_block := Z.max 0 (current_block - lookback now_unix merkle_payment_timestamp) in
  let! logs := rpc (ct_merkle_payment_logs (Some winner_pool_hash) from_block current_block) in
  let! log := cm_lift (ok_or (head logs) MV_Rpc) in
  let! tx_hash := cm_lift (ok_or log.2 MV_Rpc) in
  let! tx := rpc (ct_transaction_by_hash tx_hash) in
  let! tx := cm_lift (ok_or tx MV_Rpc) in
  cm_lift (ok_or (abi_decode_pay_for_merkle_tree2 tx.2) MV_Rpc).

(** The depth of a payment is 0 if there is none. *)
Definition get_payment_info (winner_pool_hash : bytes) : CM W MerkleVaultError Z :=
  let! depth := cm_map_err (λ _, MV_Contract) (ct_payment_depth winner_pool_hash) in
  if depth =? 0 then cm_err (MV_Custom (PaymentNotFound winner_pool_hash)) else cm_ret depth.

(** ** Paying for a merkle tree: wallet.rs *)

Definition pay_for_merkle_tree (depth : Z) (pool_commitments : list PoolCommitment) (merkle_payment_timestamp : Z)
    : CM W EvmWalletError (bytes * Z * GasInfo) :=
  let! merkle_vault_address := cm_lift (ok_or (merkle_payments_address network)
                                          (EW_MerklePaymentVaultContract MV_MerklePaymentsAddressNotConfigured)) in
  let! packed := cm_lift (ok_or (mapM pool_to_packed pool_commitments) EW_CostUnitOverflow) in
  let! estimated_cost := cm_map_err (λ _, EW_MerklePaymentVaultContract MV_Contract)
                           (ct_estimate_merkle_tree_cost depth pool_commitments merkle_payment_timestamp) in
  let! wallet_balance := cm_map_err EW_NetworkTokenContract (balance_of account) in
  if wallet_balance <? estimated_cost then cm_err (EW_InsufficientTokensForQuotes wallet_balance estimated_cost)
  else
    let! allowed := cm_map_err EW_NetworkTokenContract (allowance account merkle_vault_address) in
    let! _ := (if allowed <? estimated_cost then
                 let! _ := cm_map_err EW_NetworkTokenContract (approve merkle_vault_address U256_MAX) in cm_ret tt
               else cm_ret tt) in
    cm_map_err EW_MerklePaymentVaultContract (handler_pay_for_merkle_tree merkle_vault_address depth packed merkle_payment_timestamp).
End wallet.
