(* ===== verification/WalletProps.v ===== *)
(** * Properties of the wallet

    Payments for quotes: which quotes are reported as paid, on success and on failure, and what is
    broadcast for them. Payments for merkle trees: whose event is taken, what errors can be seen, and how
    far back a payment is looked for. *)

From stdpp Require Import base gmap countable list.
From Stdlib Require Import ZArith Lia.
From S2P Require Import Prelude Effects Protocol RecordCache RecordStore MerkleTree Payments ClientNetwork ClientPayment ClientUploadProps.
From S2P Require Import Transactions Wallet.

(** The contracts beside the log of transactions. *)
Definition logged_contracts {W} (C : Contracts W) : Contracts (W * TxLog) :=
  {| ct_balance_of a := cm_on_fst (ct_balance_of a);
     ct_allowance a b := cm_on_fst (ct_allowance a b);
     ct_get_quote m := cm_on_fst (ct_get_quote m);
     ct_estimate_merkle_tree_cost d p t := cm_on_fst (ct_estimate_merkle_tree_cost d p t);
     ct_payment_depth h := cm_on_fst (ct_payment_depth h);
     ct_transaction_by_hash h := cm_on_fst (ct_transaction_by_hash h);
     ct_block_number := cm_on_fst ct_block_number;
     ct_merkle_payment_logs h a b := cm_on_fst (ct_merkle_payment_logs h a b);
     abi_approve := abi_approve;
     abi_transfer := abi_transfer;
     abi_pay_for_quotes := abi_pay_for_quotes;
     abi_pay_for_merkle_tree2 := abi_pay_for_merkle_tree2;
     abi_decode_pay_for_merkle_tree2 := abi_decode_pay_for_merkle_tree2;
     abi_decode_merkle_error := abi_decode_merkle_error |}.

Section wallet_props.
Context {W : Type} (P : Provider W) (C : Contracts W) `{Backoff}.
Context (account : bytes) (network : EvmAddresses) (config : TransactionConfig).

#[local] Existing Instances logging logged_contracts.
Implicit Types (w : W * TxLog) (payments due batch : list QuotePayment) (batches : list (list QuotePayment)) (paid : gmap bytes bytes).

(** ** What a part of a program broadcasts *)

(** At most [n] requests, all of the kind [Q]; receipts are only added. *)
Definition logged (Q : TransactionRequest → Prop) (n : nat) w w' : Prop :=
  ∃ sent, log_sent w'.2 = log_sent w.2 ++ sent ∧ (length sent ≤ n)%nat ∧ Forall Q sent ∧ log_receipts w.2 `prefix_of` log_receipts w'.2.

Lemma logged_same Q n w w' : w'.2 = w.2 → logged Q n w w'.
Proof. unfold logged. intros ->. exists []. rewrite app_nil_r. split_and!; [done|simpl; lia|done|done]. Qed.

Lemma logged_trans Q n m w w1 w2 : logged Q n w w1 → logged Q m w1 w2 → logged Q (n + m) w w2.
Proof.
  intros (s1 & E1 & L1 & F1 & R1) (s2 & E2 & L2 & F2 & R2). exists (s1 ++ s2). rewrite E2, E1, app_assoc, length_app.
  split_and!; [done|lia|by apply Forall_app|by etrans].
Qed.

Lemma logged_mono (Q Q' : TransactionRequest → Prop) n m w w' : (∀ q, Q q → Q' q) → (n ≤ m)%nat → logged Q n w w' → logged Q' m w w'.
Proof. intros HQ Hnm (s & E & L & F & R). exists s. split_and!; [done|lia|by eapply Forall_impl|done]. Qed.

Definition request_to (to calldata : bytes) (q : TransactionRequest) : Prop := tr_to q = to ∧ tr_input q = calldata.

(** A receipt of success. *)
Definition succeeded w (tx_hash : bytes) : Prop := ∃ receipt, (tx_hash, receipt) ∈ log_receipts w.2 ∧ rc_status receipt = true.

Lemma succeeded_logged Q n w w' tx_hash : logged Q n w w' → succeeded w tx_hash → succeeded w' tx_hash.
Proof. intros (_ & _ & _ & _ & [t Ht]) (receipt & Hin & Hs). exists receipt. rewrite Ht, elem_of_app. auto. Qed.

Lemma send_logged calldata to w r w' :
  send_transaction_with_retries calldata to config w = (r, w') →
  logged (request_to to calldata) 4 w w' ∧ match r with Ok r => succeeded w' r.1 | Err _ => True end.
Proof.
  intros Hs. apply send_from_bounded in Hs as (sent & Hsent & Hlen & Hall & Hpre & Hr); [|by left]. split.
  - exists sent. split_and!; [done|unfold MAX_RETRIES in Hlen; lia| |done]. eapply Forall_impl; [exact Hall|].
    intros q [(Hi & Ht & _) _]. done.
  - destruct r as [r|]; [|done]. destruct Hr as [(receipt & Hl & Hst & _) _]. exists receipt. split; [|done].
    by apply last_Some_elem_of in Hl.
Qed.

(** Reading a contract, with retries, broadcasts nothing. *)
Lemma read_logged {A} (m : CM W unit A) interval w : (retry (W := W * TxLog) (cm_on_fst m) interval w).2.2 = w.2.
Proof. apply retry_from_log. intros wx. unfold cm_on_fst. by destruct (m wx.1). Qed.

Lemma balance_of_logged a w : (balance_of (W := W * TxLog) a w).2.2 = w.2.
Proof.
  unfold balance_of, cm_map_err. pose proof (read_logged (ct_balance_of a) None w) as Hr. simpl.
  destruct (retry _ None w). exact Hr.
Qed.

Lemma allowance_logged a b w : (allowance (W := W * TxLog) a b w).2.2 = w.2.
Proof.
  unfold allowance, cm_map_err. pose proof (read_logged (ct_allowance a b) None w) as Hr. simpl.
  destruct (retry _ None w). exact Hr.
Qed.

Lemma approve_logged spender value w r w' :
  approve network config spender value w = (r, w') →
  logged (request_to (payment_token_address network) (abi_approve spender value)) 4 w w'.
Proof.
  unfold approve, cm_bind, cm_map_err. simpl.
  destruct (send_transaction_with_retries _ _ config w) as [[s|e] w1] eqn:E; apply send_logged in E as [Hl _]; by intros [= <- <-].
Qed.

(** ** The batches *)

Definition hashes (l : list QuotePayment) : gset bytes := list_to_set l.*1.*1.

(** Only what succeeded is recorded as paid. *)
Definition recorded paid w : Prop := ∀ h tx, paid !! h = Some tx → succeeded w tx.

Definition pays_batch batches (q : TransactionRequest) : Prop :=
  ∃ batch, batch ∈ batches ∧ request_to (data_payments_address network) (abi_pay_for_quotes batch) q.

Lemma record_batch (tx : bytes) batch paid :
  dom (foldl (λ m q, <[q.1.1 := tx]> m) paid batch) = hashes batch ∪ dom paid ∧
  (∀ h tx', foldl (λ m q, <[q.1.1 := tx]> m) paid batch !! h = Some tx' → tx' = tx ∨ paid !! h = Some tx').
Proof.
  revert paid. induction batch as [|q batch IH]; intros paid; simpl; [split; [set_solver|auto]|].
  destruct (IH (<[q.1.1 := tx]> paid)) as [Hd Hl]. split.
  - rewrite Hd. rewrite dom_insert_L. unfold hashes. simpl. set_solver.
  - intros h tx' [->|Hh]%Hl; [by left|]. apply lookup_insert_Some in Hh as [[_ ->]|[_ Hh]]; [by left|by right].
Qed.

(** The quotes of each batch with the hash of its transaction, batch after batch. *)
Definition record_txs (l : list (list QuotePayment * bytes)) paid : gmap bytes bytes :=
  foldl (λ m bt, foldl (λ m q, <[q.1.1 := bt.2]> m) m bt.1) paid l.

(** The batches are paid one after the other, with these transactions. *)
Inductive paid_in_turn : list (list QuotePayment) → W * TxLog → list bytes → W * TxLog → Prop :=
  | turn_none w : paid_in_turn [] w [] w
  | turn_one batch batches w tx gas w1 txs w2 :
    handler_pay_for_quotes network config batch w = (Ok (tx, gas), w1) → paid_in_turn batches w1 txs w2 →
    paid_in_turn (batch :: batches) w (tx :: txs) w2.

Lemma hashes_app l1 l2 : hashes (l1 ++ l2) = hashes l1 ∪ hashes l2.
Proof. unfold hashes. by rewrite !fmap_app, list_to_set_app_L. Qed.

Lemma handler_logged batch w r w' :
  handler_pay_for_quotes network config batch w = (r, w') →
  logged (request_to (data_payments_address network) (abi_pay_for_quotes batch)) 4 w w' ∧ match r with Ok r => succeeded w' r.1 | Err _ => True end.
Proof.
  unfold handler_pay_for_quotes, cm_map_err. destruct (send_transaction_with_retries _ _ config w) as [[[tx g]|e] w1] eqn:E;
    apply send_logged in E as [Hl Hs]; intros [= <- <-]; by split.
Qed.

(** Such batches broadcast at most four transactions each, and record the hashes of those that succeeded. *)
Lemma turn_records batches w txs w' paid :
  paid_in_turn batches w txs w' → recorded paid w →
  logged (pays_batch batches) (4 * length batches) w w' ∧ recorded (record_txs (zip batches txs) paid) w' ∧
  dom (record_txs (zip batches txs) paid) = hashes (mjoin batches) ∪ dom paid.
Proof.
  intros Ht. revert paid. induction Ht as [w|batch batches w tx gas w1 txs w2 Hh _ IH]; intros paid Hrec.
  { split; [by apply logged_same|]. split; [done|]. simpl. set_solver. }
  apply handler_logged in Hh as [Hl Hs]. destruct (record_batch tx batch paid) as [Hdom Hlook].
  match type of Hdom with dom ?x = _ => set (paid1 := x) in * end.
  assert (recorded paid1 w1) as Hrec1.
  { intros h tx' [->|Hh]%Hlook; [done|]. eapply succeeded_logged; [exact Hl|by eapply Hrec]. }
  destruct (IH paid1 Hrec1) as (Hl' & Hr & Hd). split_and!; [|exact Hr|].
  - replace (4 * length (batch :: batches))%nat with (4 + 4 * length batches)%nat by (simpl; lia).
    eapply logged_trans; [eapply logged_mono; [|done|exact Hl]|eapply logged_mono; [|done|exact Hl']].
    + intros q Hq. exists batch. split; [left|done].
    + intros q (b & Hb & Hq). exists b. split; [by right|done].
  - change (dom (record_txs (zip batches txs) paid1) = hashes (batch ++ mjoin batches) ∪ dom paid). rewrite Hd, Hdom, hashes_app. set_solver.
Qed.

(** All batches are paid in turn, or those before the one that fails. *)
Lemma pay_quote_batches_spec batches paid gas w r w' :
  pay_quote_batches network config batches paid gas w = (r, w') →
  match r with
  | Ok (paid', _) => ∃ txs, paid_in_turn batches w txs w' ∧ paid' = record_txs (zip batches txs) paid
  | Err (e, paid') => ∃ err k batch txs wk, e = EW_ChunkPaymentsContract err ∧ batches !! k = Some batch ∧
      paid_in_turn (take k batches) w txs wk ∧ handler_pay_for_quotes network config batch wk = (Err err, w') ∧
      paid' = record_txs (zip (take k batches) txs) paid
  end.
Proof.
  revert paid gas w. induction batches as [|batch batches IH]; intros paid gas w Hp; simpl in Hp.
  { injection Hp as <- <-. exists []. split; [constructor|done]. }
  unfold cm_bind, cm_map_err in Hp. destruct (handler_pay_for_quotes network config batch w) as [[[tx g]|e] w1] eqn:E; simpl in Hp.
  2:{ injection Hp as <- <-. exists e, 0%nat, batch, [], w. split_and!; [done|done|constructor|done|done]. }
  apply IH in Hp. destruct r as [[paid' g']|[e paid']].
  - destruct Hp as (txs & Ht & ->). exists (tx :: txs). split; [by econstructor|done].
  - destruct Hp as (err & k & b & txs & wk & -> & Hk & Ht & Hf & ->). exists err, (S k), b, (tx :: txs), wk.
    split_and!; [done|done|simpl; by econstructor|done|done].
Qed.

Lemma chunks_of_short {A} (fuel n : nat) (l chunk : list A) : chunk ∈ chunks_of fuel n l → (length chunk ≤ n)%nat.
Proof.
  revert l. induction fuel as [|fuel IH]; intros [|x l]; simpl; try by intros ?%not_elem_of_nil.
  intros [->|Hin]%elem_of_cons; [rewrite length_take; lia|by eapply IH].
Qed.

(** ** Paying for quotes *)

Definition batches_of payments : list (list QuotePayment) :=
  chunks_of (length (payments_due payments)) MAX_TRANSFERS_PER_TRANSACTION (payments_due payments).

(** A request to let the vault spend, or to pay a batch of at most 256 quotes. *)
Definition payment_request payments (q : TransactionRequest) : Prop :=
  request_to (payment_token_address network) (abi_approve (data_payments_address network) U256_MAX) q ∨
  ∃ batch, batch ∈ batches_of payments ∧ (length batch ≤ MAX_TRANSFERS_PER_TRANSACTION)%nat ∧
    request_to (data_payments_address network) (abi_pay_for_quotes batch) q.

(** The state in which the batches are begun: the balance is enough, and the vault may spend the total. *)
Definition ready_to_pay payments w w0 : Prop :=
  ∃ balance allowed w1 w2, balance_of account w = (Ok balance, w1) ∧ amount_sum payments.*2 ≤ balance ∧
    allowance account (data_payments_address network) w1 = (Ok allowed, w2) ∧
    if decide (allowed < amount_sum payments.*2)
    then ∃ tx, approve network config (data_payments_address network) U256_MAX w2 = (Ok tx, w0) else w0 = w2.

Lemma ready_logged payments w w0 : ready_to_pay payments w w0 → logged (payment_request payments) 4 w w0.
Proof.
  intros (balance & allowed & w1 & w2 & Hb & _ & Ha & Hap).
  pose proof (balance_of_logged account w) as Hb'. rewrite Hb in Hb'. simpl in Hb'.
  pose proof (allowance_logged account (data_payments_address network) w1) as Ha'. rewrite Ha in Ha'. simpl in Ha'.
  destruct (decide _); [|subst w2; apply logged_same; congruence]. destruct Hap as [tx Hap%approve_logged].
  apply (logged_trans _ 0 4 _ w2); [apply logged_same; congruence|]. eapply logged_mono; [|done|exact Hap]. intros q Hq. by left.
Qed.

(** What comes before the batches: they are begun, or an error with nothing paid ends the payment. *)
Lemma pay_for_quotes_start payments w r w' :
  pay_for_quotes account network config payments w = (r, w') →
  (∃ w0 rb, ready_to_pay payments w w0 ∧ pay_quote_batches network config (batches_of payments) ∅ gas_default w0 = (rb, w') ∧
     r = match rb with Ok p => Ok (p.1, average_gas p.2) | Err e => Err e end) ∨
  ((¬ ∃ w0, ready_to_pay payments w w0) ∧ logged (payment_request payments) 4 w w' ∧
     ((∃ balance w1, balance_of account w = (Ok balance, w1) ∧ balance < amount_sum payments.*2 ∧ w' = w1 ∧
        r = Err (EW_InsufficientTokensForQuotes balance (amount_sum payments.*2), ∅)) ∨
      ∃ e, r = Err (EW_NetworkTokenContract e, ∅) ∧ ∀ balance w1, balance_of account w = (Ok balance, w1) → amount_sum payments.*2 ≤ balance)).
Proof.
  unfold pay_for_quotes. cbv zeta. unfold cm_bind at 1, cm_map_err at 1. pose proof (balance_of_logged account w) as Hb.
  destruct (balance_of account w) as [[balance|e] w1] eqn:Eb; simpl in Hb; cbn [map_err].
  2:{ intros [= <- <-]. right. split; [intros (w0 & b & a & w2 & w3 & E & _); congruence|]. split; [by apply logged_same|]. right. exists e. split; [done|]. intros b w2 [=]. }
  destruct (Z.ltb_spec balance (amount_sum payments.*2)) as [Hlt|Hge].
  { unfold cm_err. cbv beta iota. intros [= <- <-]. right. split; [intros (w0 & b & a & w2 & w3 & E & Hle & _); rewrite Eb in E; simplify_eq; lia|]. split; [by apply logged_same|]. left. eauto 8. }
  unfold cm_bind at 1, cm_map_err at 1. pose proof (allowance_logged account (data_payments_address network) w1) as Ha.
  destruct (allowance account (data_payments_address network) w1) as [[allowed|e] w2] eqn:Ea; simpl in Ha; cbn [map_err].
  2:{ intros [= <- <-]. right. split; [intros (w0 & b & a & w3 & w4 & E & _ & E' & _); rewrite Eb in E; simplify_eq; congruence|].
      split; [apply logged_same; congruence|]. right. exists e. split; [done|]. by intros b w3 [= <- _]. }
  assert (∀ w0, (if decide (allowed < amount_sum payments.*2)
    then ∃ tx, approve network config (data_payments_address network) U256_MAX w2 = (Ok tx, w0) else w0 = w2) → ready_to_pay payments w w0) as Hready.
  { intros w0 Hw0. exists balance, allowed, w1, w2. done. }
  unfold cm_bind at 1. destruct (Z.ltb_spec allowed (amount_sum payments.*2)) as [Hal|Hal].
  - unfold cm_bind at 1, cm_map_err at 1. destruct (approve _ _ _ _ w2) as [[tx|e] w3] eqn:Eap; simpl.
    + unfold cm_bind. fold (batches_of payments). destruct (pay_quote_batches _ _ _ ∅ _ w3) as [rb w4] eqn:E. intros Hr. left.
      exists w3, rb. split; [apply Hready; rewrite decide_True by done; by eexists|]. destruct rb; injection Hr as <- <-; done.
    + intros [= <- <-]. right. split; [|split].
      * intros (w0 & b & a & w4 & w5 & E & _ & E' & Hd). rewrite Eb in E. simplify_eq. rewrite Ea in E'. simplify_eq. rewrite decide_True in Hd by done. destruct Hd as [tx Hd]. congruence.
      * apply approve_logged in Eap. apply (logged_trans _ 0 4 _ w2); [apply logged_same; congruence|]. eapply logged_mono; [|done|exact Eap]. intros q Hq. by left.
      * right. exists e. split; [done|]. by intros b w4 [= <- _].
  - unfold cm_ret at 1, cm_bind. fold (batches_of payments). destruct (pay_quote_batches _ _ _ ∅ _ w2) as [rb w4] eqn:E. intros Hr. left.
    exists w2, rb. split; [apply Hready; by rewrite decide_False by lia|]. destruct rb; injection Hr as <- <-; done.
Qed.

(** C6: Paying for quotes. With a balance below the total nothing is broadcast and that is the error. Otherwise, once
    the vault may spend the total, the batches of at most 256 quotes of an amount above zero are paid one after the
    other. On success all of them were, and each quote is reported with the transaction of its batch; when the
    payment of a batch fails, exactly the quotes of the batches before it are reported; nothing is reported when an error
    comes before the first. A transaction is reported only if a receipt says that it succeeded, whatever the chain does.
    At most four transactions are broadcast for the approval and for each batch, and none of anything else. *)
Theorem quotes_paid_in_batches payments w r w' :
  pay_for_quotes account network config payments w = (r, w') →
  logged (payment_request payments) (4 + 4 * length (batches_of payments)) w w' ∧
  (∀ balance w1, balance_of account w = (Ok balance, w1) → balance < amount_sum payments.*2 →
     r = Err (EW_InsufficientTokensForQuotes balance (amount_sum payments.*2), ∅) ∧ log_sent w'.2 = log_sent w.2) ∧
  match r with
  | Ok (paid, _) => recorded paid w' ∧ dom paid = hashes (payments_due payments) ∧
    ∃ w0 txs, ready_to_pay payments w w0 ∧ paid_in_turn (batches_of payments) w0 txs w' ∧ paid = record_txs (zip (batches_of payments) txs) ∅
  | Err (EW_ChunkPaymentsContract err, paid) => recorded paid w' ∧
    ∃ w0 k batch txs wk, ready_to_pay payments w w0 ∧ paid_in_turn (take k (batches_of payments)) w0 txs wk ∧
      batches_of payments !! k = Some batch ∧ handler_pay_for_quotes network config batch wk = (Err err, w') ∧
      dom paid = hashes (mjoin (take k (batches_of payments))) ∧ paid = record_txs (zip (take k (batches_of payments)) txs) ∅
  | Err (_, paid) => paid = ∅ ∧ ¬ ∃ w0, ready_to_pay payments w w0
  end.
Proof.
  assert (∀ wx, recorded ∅ wx) as Hnone by (intros wx h tx Hh; by rewrite lookup_empty in Hh).
  assert (∀ bs q, (∀ b, b ∈ bs → b ∈ batches_of payments) → pays_batch bs q → payment_request payments q) as Hreq.
  { intros bs q Hbs (b & Hb & Hq). right. exists b. split_and!; [by apply Hbs| |done]. eapply chunks_of_short, Hbs, Hb. }
  intros [(w0 & rb & Hready & Hb & ->)|(Hnot & Hl & Hr)]%pay_for_quotes_start.
  - pose proof (ready_logged _ _ _ Hready) as Hl0. apply pay_quote_batches_spec in Hb.
    assert (∀ balance w1, balance_of account w = (Ok balance, w1) → ¬ balance < amount_sum payments.*2) as Henough.
    { intros balance w1 E. destruct Hready as (b & a & w2 & w3 & E' & Hle & _). rewrite E in E'. simplify_eq. lia. }
    destruct rb as [[paid g]|[e paid]].
    + destruct Hb as (txs & Ht & ->). destruct (turn_records _ _ _ _ _ Ht (Hnone _)) as (Hl & Hrec & Hdom).
      split; [eapply logged_trans; [exact Hl0|]; eapply logged_mono; [|done|exact Hl]; intros q; by apply Hreq|].
      split; [by intros b w1 E Hlt%(Henough b w1)|]. simpl. split; [done|]. split; [|eauto]. rewrite Hdom, dom_empty_L, right_id_L by apply _. unfold batches_of.
      by rewrite chunks_of_join by (unfold MAX_TRANSFERS_PER_TRANSACTION; lia).
    + destruct Hb as (err & k & batch & txs & wk & -> & Hk & Ht & Hf & ->). pose proof Hf as [Hlf _]%handler_logged.
      destruct (turn_records _ _ _ _ _ Ht (Hnone _)) as (Hl & Hrec & Hdom). pose proof (lookup_lt_Some _ _ _ Hk) as Hlt.
      split; [|split; [by intros b w1 E Hlt'%(Henough b w1)|]].
      * replace (4 + 4 * length (batches_of payments))%nat with (4 + (4 * k + 4 * (length (batches_of payments) - k)))%nat by lia.
        eapply logged_trans; [exact Hl0|]. eapply logged_trans.
        -- eapply logged_mono; [| |exact Hl]; [intros q; apply Hreq; intros b; apply subseteq_take|rewrite length_take; lia].
        -- eapply logged_mono; [| |exact Hlf]; [|lia]. intros q Hq. apply (Hreq [batch]); [|exists batch; split; [left|done]].
           intros b ->%list_elem_of_singleton. by eapply list_elem_of_lookup_2.
      * simpl. split; [intros h tx Hh; eapply succeeded_logged; [exact Hlf|by eapply Hrec]|].
        exists w0, k, batch, txs, wk. split_and!; [done..| |done]. by rewrite Hdom, dom_empty_L, right_id_L by apply _.
  - split; [eapply logged_mono; [done| |exact Hl]; lia|].
    destruct Hr as [(b & w1 & Eb & Hlt & -> & ->)|(e & -> & Henough)]; (split; [|done]).
    + intros b' w1' E _. rewrite Eb in E. simplify_eq. split; [done|]. pose proof (balance_of_logged account w) as Hs. rewrite Eb in Hs. simpl in Hs. by rewrite Hs.
    + intros b w1 E Hlt. apply Henough in E. lia.
Qed.

(** ** Paying for a merkle tree *)

Lemma event_attempt_logged tx_hash w r w' :
  try_get_merkle_payment_event tx_hash w = (r, w') →
  w'.2 = w.2 ∧ match r with
               | Ok event => ∃ block (u1 : W) logs u2, @ct_merkle_payment_logs W C None block block u1 = (Ok logs, u2) ∧ (event, Some tx_hash) ∈ logs
               | Err e => e = MV_Rpc
               end.
Proof.
  unfold try_get_merkle_payment_event, rpc, cm_bind, cm_map_err, cm_lift. simpl. unfold cm_on_fst.
  destruct (ct_transaction_by_hash tx_hash w.1) as [[[[[block|] input]|]|] w1]; simpl; try (by intros [= <- <-]).
  destruct (ct_merkle_payment_logs None block block w1) as [[logs|] w2] eqn:El; simpl; [|by intros [= <- <-]].
  destruct (find_log tx_hash logs) as [event|] eqn:Ef; intros [= <- <-]; simpl; split; try done.
  exists block, w1, logs, w2. split; [done|]. unfold find_log in Ef. apply fmap_Some in Ef as ([ev h] & Hh & ->).
  destruct (filter _ logs) as [|e l] eqn:Efl; [done|]. simpl in Hh. injection Hh as ->.
  assert ((ev, h) ∈ filter (λ e : MerkleLog, e.2 = Some tx_hash) logs) as Hin by (rewrite Efl; left).
  apply list_elem_of_filter in Hin as [Hh Hin]. simpl in Hh. by subst h.
Qed.

Lemma get_event_logged delays e0 tx_hash w r w' :
  get_event_from delays e0 tx_hash w = (r, w') → (∀ e, e0 = Some e → e = MV_Rpc) →
  w'.2 = w.2 ∧ match r with
               | Ok event => ∃ block (u1 : W) logs u2, @ct_merkle_payment_logs W C None block block u1 = (Ok logs, u2) ∧ (event, Some tx_hash) ∈ logs
               | Err e => e = MV_Rpc
               end.
Proof.
  revert e0 w. induction delays as [|d delays IH]; intros e0 w Hg He0; simpl in Hg.
  { injection Hg as <- <-. split; [done|]. destruct e0 as [e|]; [by apply He0|done]. }
  destruct (try_get_merkle_payment_event tx_hash w) as [[event|e] w1] eqn:E; apply event_attempt_logged in E as [Hlog Hr].
  - injection Hg as <- <-. done.
  - apply IH in Hg as [Hlog' Hr']; [|intros ? [= <-]; done]. split; [|done]. rewrite Hlog'. by destruct d.
Qed.

(** Paying for a merkle tree. Success means that a transaction was mined and succeeded, and the pool
    and amount returned are those of an event of that very transaction. No failure is ever one of the
    contract's own errors, not even when the contract refuses because the tree was paid for before: the
    revert's data is never fetched. *)
Theorem merkle_payment_outcome depth commitments timestamp w r w' :
  pay_for_merkle_tree account network config depth commitments timestamp w = (r, w') →
  match r with
  | Ok (pool_hash, amount, _) => ∃ tx_hash block (u1 : W) logs u2,
      succeeded w' tx_hash ∧ @ct_merkle_payment_logs W C None block block u1 = (Ok logs, u2) ∧
      ({| mpm_winner_pool_hash := pool_hash; mpm_total_amount := amount |}, Some tx_hash) ∈ logs
  | Err e => ∀ c, e ≠ EW_MerklePaymentVaultContract (MV_Custom c)
  end.
Proof.
  unfold pay_for_merkle_tree, cm_bind at 1, cm_lift at 1. destruct (merkle_payments_address network) as [vault|]; simpl; [|by intros [= <- <-]].
  unfold cm_bind at 1, cm_lift at 1. destruct (mapM pool_to_packed commitments) as [packed|]; simpl; [|by intros [= <- <-]].
  unfold cm_bind at 1, cm_map_err at 1. destruct (cm_on_fst _ w) as [[cost|] w1]; simpl; [|by intros [= <- <-]].
  unfold cm_bind at 1, cm_map_err at 1. destruct (balance_of account w1) as [[balance|] w2]; simpl; [|by intros [= <- <-]].
  destruct (balance <? cost); [by intros [= <- <-]|].
  unfold cm_bind at 1, cm_map_err at 1. destruct (allowance account vault w2) as [[allowed|] w3]; simpl; [|by intros [= <- <-]].
  unfold cm_bind at 1. match goal with |- context [if ?c then ?a else ?b] => set (step := if c then a else b) end.
  assert (∀ e w', step w3 = (Err e, w') → ∀ c, e ≠ EW_MerklePaymentVaultContract (MV_Custom c)) as Hstep.
  { intros e w4. subst step. destruct (allowed <? cost); [|done]. unfold cm_bind, cm_map_err. destruct (approve _ _ _ _ w3) as [[|] ?]; by intros [= <- _]. }
  destruct (step w3) as [[[]|e] w4]; [|intros [= <- <-]; by apply (Hstep e w4)].
  unfold cm_map_err, handler_pay_for_merkle_tree, send_transaction_and_handle_errors, cm_bind, cm_map_err. simpl.
  destruct (send_transaction_with_retries _ vault config w4) as [[[tx gas]|e] w5] eqn:Es; simpl.
  - apply send_logged in Es as [_ Hok]. simpl in Hok. unfold get_merkle_payment_event.
    destruct (get_event_from _ None tx w5) as [[event|e] w6] eqn:Ee; simpl; apply get_event_logged in Ee as [Hlog He]; try done; intros [= <- <-].
    + destruct He as (block & wa & logs & wb & Hlogs & Hin). exists tx, block, wa, logs, wb. split_and!; [|done|by destruct event].
      destruct Hok as (receipt & Hr & Hst). exists receipt. by rewrite Hlog.
    + by subst e.
  - apply send_from_bounded in Es as (_ & _ & _ & _ & _ & Hr); [|by left]. intros [= <- <-]. destruct e as [| | | |data nonce]; try done. by subst data.
Qed.
End wallet_props.

(** ** How far back a payment is looked for *)

(** The blocks searched for a payment are always between the two bounds, and they reach the payment:
    if it is at most seven days old, as long as a payment is valid, and the chain made at most four blocks a
    second since an hour before its timestamp, then the block of the payment is searched. *)
Theorem lookback_reaches_payment now timestamp current_block block :
  0 ≤ timestamp → now < 2 ^ 40 →
  MIN_LOOKBACK_BLOCKS ≤ lookback now timestamp ≤ MAX_LOOKBACK_BLOCKS ∧
  (now - timestamp ≤ MERKLE_PAYMENT_EXPIRATION →
   0 ≤ block ≤ current_block → current_block - block ≤ ARBITRUM_BLOCKS_PER_SECOND * (Z.max 0 (now - timestamp) + LOOKBACK_PADDING_SECS) →
   Z.max 0 (current_block - lookback now timestamp) ≤ block).
Proof.
  intros Hts Hnow. unfold lookback, saturating_mul, saturating_add, ARBITRUM_BLOCKS_PER_SECOND, LOOKBACK_PADDING_SECS, LOOKBACK_MARGIN_DIVISOR,
    MIN_LOOKBACK_BLOCKS, MAX_LOOKBACK_BLOCKS, MERKLE_PAYMENT_EXPIRATION, u64_max in *.
  set (age := Z.max 0 (now - timestamp)).
  assert (0 ≤ age < 2 ^ 40) as Hage by lia.
  rewrite (Z.min_l (age * 4)) by lia. assert (0 ≤ age * 4 / 5 ≤ age * 4) as Hdiv.
  { split; [apply Z.div_pos; lia|]. apply Z.div_le_upper_bound; lia. }
  split; [lia|]. intros Hexp Hb He. assert (age ≤ 604800) by lia. lia.
Qed.

(** * A concrete wallet *)

Section concrete_wallet.

(** A chain that mines what it is sent; the world counts the transactions. *)
#[local] Instance fast_provider : Provider Z :=
  {| pv_initial_nonce := None;
     pv_estimate_eip1559_fees w := (Some {| max_fee_per_gas := 100; max_priority_fee_per_gas := 1 |}, w);
     pv_estimate_gas _ w := (Some 21000, w);
     pv_send_transaction _ w := (Pending [w], w + 1);
     pv_watch h w := (Some h, w);
     pv_get_transaction_receipt _ w := (Ok (Some {| rc_status := true; rc_gas_used := 20000; rc_effective_gas_price := 10 |}), w);
     pv_sleep _ w := w |}.

(** A wallet with a thousand tokens that nobody may spend yet; the second transaction paid for a pool. *)
#[local] Instance toy_contracts : Contracts Z :=
  {| ct_balance_of _ := cm_ret 1000;
     ct_allowance _ _ := cm_ret 0;
     ct_get_quote m := cm_ret [7];
     ct_estimate_merkle_tree_cost _ _ _ := cm_ret 500;
     ct_payment_depth _ := cm_ret 1;
     ct_transaction_by_hash h := cm_ret (Some (Some 9, h));
     ct_block_number := cm_ret 10;
     ct_merkle_payment_logs _ _ _ := cm_ret [({| mpm_winner_pool_hash := [3]; mpm_total_amount := 4 |}, Some [8]);
                                             ({| mpm_winner_pool_hash := [7]; mpm_total_amount := 500 |}, Some [1])];
     abi_approve a v := 1 :: a;
     abi_transfer a v := 2 :: a;
     abi_pay_for_quotes l := 3 :: mjoin (l.*1.*1);
     abi_pay_for_merkle_tree2 _ l _ := 4 :: mjoin (pcp_pool_hash <$> l);
     abi_decode_pay_for_merkle_tree2 _ := None;
     abi_decode_merkle_error _ _ := None |}.

#[local] Instance toy_delays : Backoff := {| backoff_delays n := replicate (n - 1) (Some 1) ++ [None] |}.

#[local] Existing Instances logging logged_contracts.

Definition ex_addresses : EvmAddresses :=
  {| payment_token_address := [50]; data_payments_address := [51]; merkle_payments_address := Some [52] |}.

Definition ex_start : Z * TxLog := (0, {| log_sent := []; log_receipts := [] |}).

Definition ex_payments : list QuotePayment := [([11], [1], 5); ([12], [2], 0); ([13], [3], 6)].

Definition ex_paid : result (gmap bytes bytes * GasInfo) PayForQuotesError * (Z * TxLog) :=
  pay_for_quotes (W := Z * TxLog) [9] ex_addresses {| tc_max_fee_per_gas := FeeAuto |} ex_payments ex_start.

Lemma quotes_paid_in_batches_witness :
  ex_paid.2.1 = 2 ∧ logged (payment_request toy_contracts ex_addresses ex_payments) 8 ex_start ex_paid.2 ∧
  ∃ paid gas, ex_paid.1 = Ok (paid, gas) ∧ dom paid = hashes (payments_due ex_payments).
Proof.
  split; [vm_compute; reflexivity|].
  destruct (quotes_paid_in_batches fast_provider toy_contracts [9] ex_addresses {| tc_max_fee_per_gas := FeeAuto |} ex_payments ex_start
              ex_paid.1 ex_paid.2 (surjective_pairing _)) as [Hlog Hr].
  split; [exact Hlog|]. destruct ex_paid.1 as [[paid gas]|e] eqn:E.
  - exists paid, gas. split; [reflexivity|]. exact (proj1 (proj2 (proj2 Hr))).
  - exfalso. vm_compute in E. discriminate.
Defined.

Definition ex_merkle : result (bytes * Z * GasInfo) EvmWalletError * (Z * TxLog) :=
  pay_for_merkle_tree (W := Z * TxLog) [9] ex_addresses {| tc_max_fee_per_gas := FeeAuto |} 4 [] 0 ex_start.

(** The event of another's transaction in the same block is passed over. *)
Lemma merkle_payment_outcome_witness :
  match ex_merkle.1 with Ok r => r.1 = ([7], 500) | Err _ => False end ∧
  match ex_merkle.1 with Ok _ => ∃ tx_hash, succeeded ex_merkle.2 tx_hash | Err _ => False end.
Proof.
  split; [vm_compute; reflexivity|].
  pose proof (merkle_payment_outcome fast_provider toy_contracts [9] ex_addresses {| tc_max_fee_per_gas := FeeAuto |} 4 [] 0 ex_start
                ex_merkle.1 ex_merkle.2 (surjective_pairing _)) as Hr.
  destruct ex_merkle.1 as [[[pool amount] gas]|e] eqn:E; [|vm_compute in E; discriminate].
  destruct Hr as (tx_hash & _ & _ & _ & _ & Hok & _). exists tx_hash. exact Hok.
Defined.

Lemma lookback_reaches_payment_witness :
  0 ≤ 1700000000 ∧ 1700600000 < 2 ^ 40 ∧ lookback 1700600000 1700000000 = 2500000 ∧
  Z.max 0 (300000000 - lookback 1700600000 1700000000) ≤ 297600000.
Proof.
  split; [lia|]. split; [lia|]. split; [reflexivity|].
  apply (lookback_reaches_payment 1700600000 1700000000 300000000 297600000); vm_compute; try split; discriminate.
Defined.
End concrete_wallet.
