(* ===== verification/Files.v ===== *)
(** * Files and archives of the client

    Models src/autonomi/src/client/high_level/files: archives, which map the paths of files to their
    addresses or data maps (archive_public.rs, archive_private.rs), uploads of files and directories with
    either kind of payment (mod.rs, fs_public.rs, fs_private.rs), downloads to the disk, and the estimates of
    costs (cost.rs). *)

From stdpp Require Import base gmap countable strings list sorting.
From Stdlib Require Import ZArith Lia.
From S2P Require Import Prelude Text Effects Protocol Storage RecordCache RecordStore MerkleTree Payments PutValidation Messages Driver TaskHandler.
From S2P Require Import ClientPayment ClientData Encryption ClientChunks ClientUpload ClientMerkle.

(** ** Paths *)

(** [String::from_utf8_lossy]: the ranges of the bytes that may follow a first byte. *)
Definition utf8_following (b : Z) : option (list (Z * Z)) :=
  let any := (128, 191) in
  if b <? 128 then Some []
  else if b <? 194 then None
  else if b <=? 223 then Some [any]
  else if b =? 224 then Some [(160, 191); any]
  else if b =? 237 then Some [(128, 159); any]
  else if b <=? 239 then Some [any; any]
  else if b =? 240 then Some [(144, 191); any; any]
  else if b <=? 243 then Some [any; any; any]
  else if b =? 244 then Some [(128, 143); any; any]
  else None.

Fixpoint utf8_matched (ranges : list (Z * Z)) (s : bytes) : nat :=
  match ranges, s with
  | (low, high) :: ranges, c :: s => if (low <=? c) && (c <=? high) then S (utf8_matched ranges s) else 0
  | _, _ => 0
  end.

(** What is not text becomes the replacement character. *)
Fixpoint utf8_lossy_loop (fuel : nat) (s : bytes) : bytes :=
  match fuel, s with
  | S fuel, b :: rest =>
    match utf8_following b with
    | Some ranges =>
      let n := utf8_matched ranges rest in
      (if decide (n = length ranges) then b :: take n rest else [239; 191; 189]) ++ utf8_lossy_loop fuel (drop n rest)
    | None => [239; 191; 189] ++ utf8_lossy_loop fuel rest
    end
  | _, _ => []
  end.
Definition utf8_lossy (s : bytes) : bytes := utf8_lossy_loop (length s) s.

(** [/] and [\]. *)
Definition SLASH : Z := 47.
Definition BACKSLASH : Z := 92.

(** The components of a path: the root is a slash, empty components and dots are left out, but for a dot at the beginning. *)
Definition path_from (s : bytes) : PathBuf :=
  (if starts_with [SLASH] s then [[SLASH]] else match split_on SLASH s with [46] :: _ => [[46]] | _ => [] end) ++
  filter (λ c, c ≠ [] ∧ c ≠ [46]) (split_on SLASH s).

Fixpoint replace_double_slash (s : bytes) : bytes :=
  match s with
  | a :: (b :: rest) as tail => if (a =? SLASH) && (b =? SLASH) then SLASH :: replace_double_slash rest else a :: replace_double_slash tail
  | s => s
  end.

Definition normalize_path (path : PathBuf) : PathBuf :=
  path_from (replace_double_slash ((λ c, if c =? BACKSLASH then SLASH else c) <$> join_on SLASH (utf8_lossy <$> path))).

(** [Path::join], which an absolute path replaces, and [Path::parent]. *)
Definition path_join (base path : PathBuf) : PathBuf :=
  if decide (head path = Some [SLASH] ∨ base = []) then path else base ++ filter (λ c, c ≠ [46]) path.
Definition path_parent (path : PathBuf) : option PathBuf :=
  if decide (path = [] ∨ path = [[SLASH]]) then None else Some (take (length path - 1) path).

(** The order of paths: by components, the root before a dot, before two dots, before names. *)
Definition component_rank (c : bytes) : Z := if decide (c = [SLASH]) then 0 else if decide (c = [46]) then 1 else if decide (c = [46; 46]) then 2 else 3.
Definition component_cmp (a b : bytes) : comparison := then_cmp (component_rank a ?= component_rank b) (list_cmp Z.compare a b).
Definition path_cmp : PathBuf → PathBuf → comparison := list_cmp component_cmp.

(** ** Archives *)

(** A [BTreeMap]; the two kinds of archives differ in what they keep of a file. *)
Definition Archive (A : Type) : Type := gmap PathBuf (A * Metadata).

Inductive RenameError := RenameFileNotFound (path : PathBuf).

Section archive.
Context {A : Type}.
Implicit Types (self : Archive A).

Definition with_modified (meta : Metadata) (now : Z) : Metadata :=
  {| md_created := md_created meta; md_modified := now; md_size := md_size meta; md_extra := md_extra meta |}.

Definition archive_new : Archive A := ∅.

(** New paths are not normalised. *)
Definition archive_rename_file (now : Z) self (old_path new_path : PathBuf) : result (Archive A) RenameError :=
  match self !! old_path with
  | None => Err (RenameFileNotFound old_path)
  | Some (data, meta) => Ok (<[new_path := (data, with_modified meta now)]> (delete old_path self))
  end.

Definition archive_add_file self (path : PathBuf) (data : A) (meta : Metadata) : Archive A := <[normalize_path path := (data, meta)]> self.

Definition path_before (x y : PathBuf * (A * Metadata)) : Prop := path_cmp x.1 y.1 ≠ Gt.
#[export] Instance path_before_dec x y : Decision (path_before x y) := _.

Definition archive_iter self : list (PathBuf * (A * Metadata)) := merge_sort path_before (map_to_list self).
Definition archive_files self : list (PathBuf * Metadata) := (λ x, (x.1, x.2.2)) <$> archive_iter self.
Definition archive_values self : list A := (λ x, x.2.1) <$> archive_iter self.

(** The files of the other archive are kept. *)
Definition archive_merge self (other : Archive A) : Archive A := (other : gmap PathBuf (A * Metadata)) ∪ self.
End archive.

(** The address of a public file, and the data map of a private one. *)
Definition PublicArchive : Type := Archive bytes.
Definition PrivateArchive : Type := Archive DataMapChunk.
Inductive PublicArchiveVersioned := PublicV0 (archive : PublicArchive).
Inductive PrivateArchiveVersioned := PrivateV0 (archive : PrivateArchive).

Definition private_rename_file : Z → PrivateArchive → PathBuf → PathBuf → result PrivateArchive RenameError := archive_rename_file.
Definition private_add_file : PrivateArchive → PathBuf → DataMapChunk → Metadata → PrivateArchive := archive_add_file.
Definition private_merge : PrivateArchive → PrivateArchive → PrivateArchive := archive_merge.
Definition private_iter : PrivateArchive → list (PathBuf * (DataMapChunk * Metadata)) := archive_iter.
Definition data_maps : PrivateArchive → list DataMapChunk := archive_values.

(** What the client uses of the disk besides: a walk that follows links, and the size of a file. *)
Class FilesDisk (W : Type) := {
  disk_walk_following : PathBuf → W → list (option DirEntry);
  disk_file_len : PathBuf → W → option Z;
}.

(** [streaming_decrypt_from_storage] of the crate self_encryption, which writes a file from the chunks that a function fetches by their
    indices and names. *)
Class StreamingDecrypt `{SelfEncryption} (W : Type) := {
  se_streaming_decrypt_from_storage : DataMap → PathBuf → (list (nat * bytes) → CM W SeError (list (nat * bytes))) → CM W SeError ();
}.

Definition MERKLE_PAYMENT_THRESHOLD : nat := 64.

(** [BulkPaymentOption] of payment.rs. *)
Inductive BulkPaymentOption :=
  | BPO_Wallet (wallet : EvmWallet)
  | BPO_ForceMerkle (wallet : EvmWallet)
  | BPO_ForceRegular (wallet : EvmWallet)
  | BPO_Receipt (receipt : Receipt)
  | BPO_MerkleReceipt (receipt : MerklePaymentReceipt)
  | BPO_ContinueMerkle (wallet : EvmWallet) (receipt : MerklePaymentReceipt).

Definition bulk_wallet (o : BulkPaymentOption) : option EvmWallet :=
  match o with
  | BPO_Wallet w | BPO_ForceMerkle w | BPO_ForceRegular w | BPO_ContinueMerkle w _ => Some w
  | BPO_Receipt _ | BPO_MerkleReceipt _ => None
  end.
Definition to_payment_option (o : BulkPaymentOption) : option PaymentOption := PO_Wallet <$> bulk_wallet o.

Section files.
Context `{XorNameLib, Hex, Bls, Layout, Kad, RmpHeader, Libp2pIdentity, AntMerkle, HashOrder, SelfEncryption}.
Context `{!BodySerde, !Serde DataMap, !Serde DataMapLevel, !Serde PublicArchiveVersioned, !Serde PrivateArchiveVersioned, !PutErrorText}.
Context `{!ClientWorld W, !Disk W, !FilesDisk W, !Scheduler W, !UploadWorld W, !MerkleWorld W, !StreamingDecrypt W}.
Context (self : Client) (data_dir : option PathBuf) (UPLOAD_FLOW_BATCH_SIZE CHUNK_UPLOAD_BATCH_SIZE MAX_IN_MEMORY_DOWNLOAD_SIZE : nat)
  (IN_MEMORY_ENCRYPTION_MAX_SIZE : Z).

#[local] Open Scope cm_scope.

(** The messages of encryption are those of a file, or that there is no file. *)
Inductive UploadError :=
  | UE_WalkDir
  | UE_IoError
  | UE_PutError (e : ChunkPutError)
  | UE_Encryption (e : option FileError)
  | UE_MerkleUpload (e : MerkleUploadErrorWithReceipt).

Inductive DownloadError := DE_GetError (e : ChunkGetError) | DE_IoError.

Inductive FileCostError :=
  | FCE_Cost (e : CostError)
  | FCE_IoError
  | FCE_Serialization
  | FCE_WalkDir
  | FCE_MerklePayment (e : ClientMerkleError)
  | FCE_Encryption (e : FileError).

Definition cm_disk {E} (op : W → bool * W) (e : E) : CM W E () := λ w, let '(ok, w) := op w in (if ok then Ok () else Err e, w).

(** ** Archives on the network: archive_public.rs, archive_private.rs *)

Definition public_from_bytes (data : bytes) : option PublicArchive := (λ '(PublicV0 root), root) <$> rmp_from_slice data.
Definition public_to_bytes (archive : PublicArchive) : option bytes := rmp_to_vec (PublicV0 archive).
Definition private_from_bytes (data : bytes) : option PrivateArchive := (λ '(PrivateV0 root), root) <$> rmp_from_slice data.
Definition private_to_bytes (archive : PrivateArchive) : option bytes := rmp_to_vec (PrivateV0 archive).

(** [None] when the fuel is used up, here and below. *)
Definition archive_get_public (fuel : nat) (addr : bytes) : CM W ChunkGetError (option PublicArchive) :=
  let! data := data_get_public self data_dir MAX_IN_MEMORY_DOWNLOAD_SIZE fuel addr in
  match data with
  | None => cm_ret None
  | Some data => let! archive := cm_lift (ok_or (public_from_bytes data) CGE_Deserialization) in cm_ret (Some archive)
  end.

Definition archive_put_public (fuel : nat) (archive : PublicArchive) (payment_option : PaymentOption) : CM W ChunkPutError (option (Z * bytes)) :=
  let! data := cm_lift (ok_or (public_to_bytes archive) CPE_Serialization) in
  data_put_public self UPLOAD_FLOW_BATCH_SIZE fuel data payment_option.

Definition archive_cost (archive : PublicArchive) : CM W CostError Z :=
  let! data := cm_lift (ok_or (public_to_bytes archive) CostSerialization) in
  data_cost self data.

Definition archive_get (fuel : nat) (addr : DataMapChunk) : CM W ChunkGetError (option PrivateArchive) :=
  let! data := data_get self data_dir MAX_IN_MEMORY_DOWNLOAD_SIZE fuel addr in
  match data with
  | None => cm_ret None
  | Some data => let! archive := cm_lift (ok_or (private_from_bytes data) CGE_Deserialization) in cm_ret (Some archive)
  end.

Definition archive_put (fuel : nat) (archive : PrivateArchive) (payment_option : PaymentOption) : CM W ChunkPutError (option (Z * DataMapChunk)) :=
  let! data := cm_lift (ok_or (private_to_bytes archive) CPE_Serialization) in
  data_put self UPLOAD_FLOW_BATCH_SIZE fuel data payment_option.

(** ** Uploads: mod.rs *)

(** At least three chunks for each file. *)
Definition estimate_file_chunks (size : Z) : nat := Z.to_nat (Z.max 3 ((size + MAX_CHUNK_SIZE - 1) / MAX_CHUNK_SIZE)).

(** Links are followed, and entries with errors skipped. *)
Definition estimate_directory_chunks (dir_path : PathBuf) (w : W) : option nat :=
  if disk_is_file dir_path w then estimate_file_chunks <$> disk_file_len dir_path w
  else Some (sum_list (omap (λ e, entry ← e; if de_is_file entry then Some (estimate_file_chunks (default 0 (fm_len <$> de_metadata entry))) else None)
                       (disk_walk_following dir_path w))).

Fixpoint streams_to_file_results (streams : list EncryptionStream) : result (list FileResult) UploadError :=
  match streams with
  | [] => Ok []
  | stream :: rest =>
    (let? file := ok_or (file_result stream) (UE_Encryption (Some (FE_NoDatamap (es_file_path stream)))) in
     let? files := streams_to_file_results rest in
     Ok (file :: files))%rust
  end.

Definition dir_content_upload_internal (fuel : nat) (dir_path : PathBuf) (payment_option : PaymentOption) (is_public : bool)
    : CM W UploadError (option (Z * list EncryptionStream)) :=
  let! encryption_results := (λ w, let '(r, w) := encrypt_directory_files IN_MEMORY_ENCRYPTION_MAX_SIZE dir_path is_public w in (ok_or r UE_WalkDir, w)) in
  let! chunk_iterators := cm_lift (map_err (λ e, UE_Encryption (Some e)) (collect encryption_results)) in
  cm_map_err UE_PutError (pay_and_upload self UPLOAD_FLOW_BATCH_SIZE fuel payment_option chunk_iterators).

Definition regular_upload (fuel : nat) (dir_path : PathBuf) (payment_option : PaymentOption) (is_public : bool) : CM W UploadError (option (Z * list FileResult)) :=
  let! done := dir_content_upload_internal fuel dir_path payment_option is_public in
  match done with
  | None => cm_ret None
  | Some (cost, streams) => let! results := cm_lift (streams_to_file_results streams) in cm_ret (Some (cost, results))
  end.

Definition merkle_upload (fuel : nat) (dir_path : PathBuf) (payment : MerklePaymentOption) (is_public : bool) : CM W UploadError (option (Z * list FileResult)) :=
  cm_map_err UE_MerkleUpload
    (files_put_with_merkle_payment self UPLOAD_FLOW_BATCH_SIZE CHUNK_UPLOAD_BATCH_SIZE IN_MEMORY_ENCRYPTION_MAX_SIZE fuel dir_path is_public payment).

Definition bulk_upload_internal {A} (fuel : nat) (dir_path : PathBuf) (payment_option : BulkPaymentOption) (is_public : bool) (build_archive : list FileResult → A)
    : CM W UploadError (option (Z * A)) :=
  let! done :=
    match payment_option with
    | BPO_Wallet wallet =>
      let! estimate := cm_get (estimate_directory_chunks dir_path) in
      let! estimated_chunks := cm_lift (ok_or estimate UE_IoError) in
      if (MERKLE_PAYMENT_THRESHOLD <=? estimated_chunks)%nat then merkle_upload fuel dir_path (MPO_Wallet wallet) is_public
      else regular_upload fuel dir_path (PO_Wallet wallet) is_public
    | BPO_ForceMerkle wallet => merkle_upload fuel dir_path (MPO_Wallet wallet) is_public
    | BPO_ForceRegular wallet => regular_upload fuel dir_path (PO_Wallet wallet) is_public
    | BPO_Receipt receipt => regular_upload fuel dir_path (PO_Receipt receipt) is_public
    | BPO_MerkleReceipt receipt => merkle_upload fuel dir_path (MPO_Receipt receipt) is_public
    | BPO_ContinueMerkle wallet receipt => merkle_upload fuel dir_path (MPO_ContinueWithReceipt wallet receipt) is_public
    end in
  cm_ret ((λ d : Z * list FileResult, (d.1, build_archive d.2)) <$> done).

(** The first file that comes back. *)
Definition file_upload_internal (fuel : nat) (path : PathBuf) (payment_option : BulkPaymentOption) (is_public : bool) : CM W UploadError (option (Z * DataMapChunk)) :=
  let! done := bulk_upload_internal fuel path payment_option is_public id in
  match done with
  | None => cm_ret None
  | Some (cost, results) =>
    let! datamap := cm_lift (ok_or ((λ r : FileResult, r.1.2) <$> head results) (UE_Encryption None)) in
    cm_ret (Some (cost, datamap))
  end.

(** fs_private.rs *)

Definition dir_content_upload (fuel : nat) (dir_path : PathBuf) (payment_option : BulkPaymentOption) : CM W UploadError (option (Z * PrivateArchive)) :=
  bulk_upload_internal fuel dir_path payment_option false
    (foldl (λ archive '(path, datamap, metadata), archive_add_file archive path datamap metadata) archive_new).

Definition dir_upload (fuel : nat) (dir_path : PathBuf) (wallet : EvmWallet) : CM W UploadError (option (Z * DataMapChunk)) :=
  let! content := dir_content_upload fuel dir_path (BPO_Wallet wallet) in
  match content with
  | None => cm_ret None
  | Some (cost1, archive) =>
    let! put := cm_map_err UE_PutError (archive_put fuel archive (PO_Wallet wallet)) in
    match put with
    | None => cm_ret None
    | Some (cost2, archive_addr) =>
      let! total_cost := cm_lift (map_err (λ e, UE_PutError (CPE_CostError e)) (add_costs cost1 cost2)) in
      cm_ret (Some (total_cost, archive_addr))
    end
  end.

Definition file_content_upload (fuel : nat) (path : PathBuf) (payment_option : BulkPaymentOption) : CM W UploadError (option (Z * DataMapChunk)) :=
  file_upload_internal fuel path payment_option false.

(** fs_public.rs *)

Definition dir_content_upload_public (fuel : nat) (dir_path : PathBuf) (payment_option : BulkPaymentOption) : CM W UploadError (option (Z * PublicArchive)) :=
  bulk_upload_internal fuel dir_path payment_option true
    (foldl (λ archive '(path, datamap, metadata), archive_add_file archive path (chunk_name datamap) metadata) archive_new).

Definition dir_upload_public (fuel : nat) (dir_path : PathBuf) (wallet : EvmWallet) : CM W UploadError (option (Z * bytes)) :=
  let! content := dir_content_upload_public fuel dir_path (BPO_Wallet wallet) in
  match content with
  | None => cm_ret None
  | Some (cost1, archive) =>
    let! put := cm_map_err UE_PutError (archive_put_public fuel archive (PO_Wallet wallet)) in
    match put with
    | None => cm_ret None
    | Some (cost2, archive_addr) =>
      let! total_cost := cm_lift (map_err (λ e, UE_PutError (CPE_CostError e)) (add_costs cost1 cost2)) in
      cm_ret (Some (total_cost, archive_addr))
    end
  end.

Definition file_content_upload_public (fuel : nat) (path : PathBuf) (payment_option : BulkPaymentOption) : CM W UploadError (option (Z * bytes)) :=
  let! done := file_upload_internal fuel path payment_option true in
  cm_ret ((λ d : Z * DataMapChunk, (d.1, chunk_name d.2)) <$> done).

(** ** Downloads *)

Definition parallel_chunk_fetcher (chunk_names : list (nat * bytes)) : CM W SeError (list (nat * bytes)) :=
  fetch_chunks_parallel self data_dir ((λ x, (x.1, mkChunkAddress x.2)) <$> chunk_names).

(** The file is created and removed first, to see that it can be. *)
Definition stream_download_from_datamap (data_map : DataMap) (to_dest : PathBuf) : CM W DownloadError () :=
  let! _ := cm_disk (disk_create_file to_dest) DE_IoError in
  let! _ := cm_disk (disk_remove_file to_dest) DE_IoError in
  let! _ := cm_map_err (λ e, DE_GetError (CGE_Decryption e)) (se_streaming_decrypt_from_storage data_map to_dest parallel_chunk_fetcher) in
  cm_map_err DE_GetError (cleanup_cached_chunks self data_dir (chunk_addrs_of data_map)).

Definition file_download (fuel : nat) (data_map : DataMapChunk) (to_dest : PathBuf) : CM W DownloadError (option ()) :=
  let! _ := match path_parent to_dest with Some parent => cm_disk (disk_create_dir_all parent) DE_IoError | None => cm_ret () end in
  let! datamap := cm_map_err DE_GetError (restore_data_map_from_chunk self data_dir fuel data_map) in
  match datamap with
  | None => cm_ret None
  | Some datamap => let! _ := stream_download_from_datamap datamap to_dest in cm_ret (Some ())
  end.

Definition file_download_public (fuel : nat) (data_addr : bytes) (to_dest : PathBuf) : CM W DownloadError (option ()) :=
  let! data_map_chunk := cm_map_err DE_GetError (chunk_get self data_dir (mkChunkAddress data_addr)) in
  file_download fuel data_map_chunk to_dest.

(** The files of an archive, in the order of their paths. *)
Fixpoint download_files {A} (download : A → PathBuf → CM W DownloadError (option ())) (to_dest : PathBuf) (files : list (PathBuf * (A * Metadata)))
    : CM W DownloadError (option ()) :=
  match files with
  | [] => cm_ret (Some ())
  | (path, (data, _)) :: rest =>
    let! done := download data (path_join to_dest path) in
    match done with None => cm_ret None | Some _ => download_files download to_dest rest end
  end.

Definition dir_download (fuel : nat) (archive_access : DataMapChunk) (to_dest : PathBuf) : CM W DownloadError (option ()) :=
  let! archive := cm_map_err DE_GetError (archive_get fuel archive_access) in
  match archive with
  | None => cm_ret None
  | Some archive => download_files (file_download fuel) to_dest (archive_iter archive)
  end.

Definition dir_download_public (fuel : nat) (archive_addr : bytes) (to_dest : PathBuf) : CM W DownloadError (option ()) :=
  let! archive := cm_map_err DE_GetError (archive_get_public fuel archive_addr) in
  match archive with
  | None => cm_ret None
  | Some archive => download_files (file_download_public fuel) to_dest (archive_iter archive)
  end.

(** ** Costs: cost.rs *)

(** [estimate_merkle_payment_cost] of the contract. *)
Context (estimate_merkle_payment_cost : Z → list PoolCommitment → Z → W → option Z * W).

Definition read_file (path : PathBuf) : CM W FileCostError bytes := λ w, let '(data, w) := disk_read path w in (ok_or data FCE_IoError, w).

(** The addresses of the chunks of every file; the data map comes first and is left out of private ones. *)
Fixpoint file_content_addrs (is_public : bool) (entries : list (option DirEntry)) (content_addrs : list (bytes * Z)) : CM W FileCostError (list (bytes * Z)) :=
  match entries with
  | [] => cm_ret content_addrs
  | None :: _ => cm_err FCE_WalkDir
  | Some entry :: rest =>
    if negb (de_is_file entry) then file_content_addrs is_public rest content_addrs
    else
      let! data := read_file (de_path entry) in
      let! addrs := cm_lift (map_err FCE_Cost (get_content_addrs data)) in
      file_content_addrs is_public rest (content_addrs ++ (if is_public then addrs else drop 1 addrs))
  end.

Definition file_cost_regular (path : PathBuf) (is_public : bool) : CM W FileCostError Z :=
  let! entries := cm_get (disk_walk path) in
  let! content_addrs := file_content_addrs is_public entries [] in
  cm_map_err FCE_Cost (get_cost_estimation self content_addrs).

Fixpoint collect_stream_names (fuel : nat) (streams : list (result EncryptionStream FileError)) (all_xor_names : list bytes)
    : option (result (list bytes) FileCostError) :=
  match streams with
  | [] => Some (Ok all_xor_names)
  | Err e :: _ => Some (Err (FCE_Encryption e))
  | Ok stream :: rest =>
    drained ← drain_stream fuel 32 stream [];
    collect_stream_names fuel rest (all_xor_names ++ (chunk_name <$> drained.1))
  end.

Definition collect_xornames_for_cost (fuel : nat) (path : PathBuf) (is_public : bool) : CM W FileCostError (option (list bytes)) :=
  let! streams := (λ w, let '(r, w) := encrypt_directory_files IN_MEMORY_ENCRYPTION_MAX_SIZE path is_public w in (ok_or r FCE_WalkDir, w)) in
  match collect_stream_names fuel streams [] with
  | None => cm_ret None
  | Some names => let! names := cm_lift names in cm_ret (Some names)
  end.

Fixpoint estimate_batches (batches : list (list bytes)) (total_cost : Z) : CM W FileCostError Z :=
  match batches with
  | [] => cm_ret total_cost
  | batch_xornames :: rest =>
    let! (tree, _, pool_commitments, merkle_payment_timestamp) := cm_map_err FCE_MerklePayment (prepare_merkle_batch Chunk_t batch_xornames MAX_CHUNK_SIZE) in
    let! batch_cost := (λ w, let '(cost, w) := estimate_merkle_payment_cost (mt_depth tree) pool_commitments merkle_payment_timestamp w in
                             (ok_or cost (FCE_MerklePayment CME_MerklePaymentVault), w)) in
    estimate_batches rest (amount_saturating_add total_cost batch_cost)
  end.

Definition file_cost_merkle (fuel : nat) (path : PathBuf) (is_public : bool) : CM W FileCostError (option Z) :=
  let! all_xor_names := collect_xornames_for_cost fuel path is_public in
  match all_xor_names with
  | None => cm_ret None
  | Some all_xor_names =>
    let! cost := estimate_batches (chunks_of (length all_xor_names) max_leaves all_xor_names) 0 in
    cm_ret (Some cost)
  end.

(** Files are entered with their own paths, addresses with zeros, and data maps as zeros of their size. *)
Fixpoint placeholder_archives (is_public : bool) (entries : list (option DirEntry)) (archives : PublicArchive * PrivateArchive)
    : CM W FileCostError (PublicArchive * PrivateArchive) :=
  match entries with
  | [] => cm_ret archives
  | None :: _ => cm_err FCE_WalkDir
  | Some entry :: rest =>
    if negb (de_is_file entry) then placeholder_archives is_public rest archives
    else
      let metadata := metadata_from_entry entry in
      if is_public then placeholder_archives is_public rest (archive_add_file archives.1 (de_path entry) (replicate 32 0) metadata, archives.2)
      else
        let! data := read_file (de_path entry) in
        let! addrs := cm_lift (map_err FCE_Cost (get_content_addrs data)) in
        let datamap_size := default 0 (snd <$> head addrs) in
        placeholder_archives is_public rest
          (archives.1, archive_add_file archives.2 (de_path entry) (chunk_new (replicate (Z.to_nat datamap_size) 0)) metadata)
  end.

Definition estimate_archive_cost (path : PathBuf) (is_public : bool) : CM W FileCostError Z :=
  let! is_file := cm_get (disk_is_file path) in
  if is_file : bool then cm_ret 0
  else
    let! entries := cm_get (disk_walk path) in
    let! archives := placeholder_archives is_public entries (archive_new, archive_new) in
    let! archive_bytes := cm_lift (ok_or (if is_public then public_to_bytes archives.1 else private_to_bytes archives.2) FCE_Serialization) in
    let! archive_addrs := cm_lift (map_err FCE_Cost (get_content_addrs archive_bytes)) in
    cm_map_err FCE_Cost (get_cost_estimation self (if is_public then archive_addrs else drop 1 archive_addrs)).

Definition file_cost (fuel : nat) (path : PathBuf) (is_public include_archive : bool) : CM W FileCostError (option Z) :=
  let! estimate := cm_get (estimate_directory_chunks path) in
  let! estimated_chunks := cm_lift (ok_or estimate FCE_IoError) in
  let! content_cost := (if (MERKLE_PAYMENT_THRESHOLD <=? estimated_chunks)%nat then file_cost_merkle fuel path is_public
                        else let! cost := file_cost_regular path is_public in cm_ret (Some cost)) in
  match content_cost with
  | None => cm_ret None
  | Some content_cost =>
    let! is_file := cm_get (disk_is_file path) in
    if include_archive && negb is_file then
      let! archive_cost := estimate_archive_cost path is_public in
      let! total_cost := cm_lift (map_err FCE_Cost (add_costs content_cost archive_cost)) in
      cm_ret (Some total_cost)
    else cm_ret (Some content_cost)
  end.
End files.
