(* ===== verification/FilesProps.v ===== *)
(** * Files are downloaded as they were uploaded

    Of src/autonomi/src/client/high_level/files: a directory whose upload succeeded, with either kind of
    payment, is downloaded again file by file. *)

From stdpp Require Import base gmap countable strings list sorting.
From Stdlib Require Import ZArith Lia.
From S2P Require Import Prelude Text Effects Protocol Storage RecordCache RecordStore MerkleTree MerkleTreeProps Payments PaymentsProps.
From S2P Require Import PutValidation PutValidationFacts PutValidationProps Messages Driver TaskHandler.
From S2P Require Import ClientPayment ClientData ClientExamples ClientPaymentProps ClientDataProps Encryption ClientChunks ClientUpload ClientUploadProps ClientReadProps.
From S2P Require Import ClientMerkle ClientMerkleProps Files.

(** ** What becomes of the streams *)

Section streams.
Context `{XorNameLib, Hex, Bls, Layout, Kad, RmpHeader, Libp2pIdentity, AntMerkle, HashOrder, SelfEncryption}.
Context `{!BodySerde, !Serde DataMap, !Serde DataMapLevel, !PutErrorText}.
Context `{!ClientWorld W, !Disk W, !Scheduler W, !UploadWorld W, !MerkleWorld W}.
Context (self : Client) (UPLOAD_FLOW_BATCH_SIZE CHUNK_UPLOAD_BATCH_SIZE : nat) (IN_MEMORY_ENCRYPTION_MAX_SIZE : Z).

Implicit Types (w : W).

(** The data map a stream has or will have, and the file it is of. *)
Definition stream_map (s : EncryptionStream) : option Chunk :=
  match es_state s with
  | ES_InMemory _ d | ES_StreamDone d _ => Some d
  | ES_StreamInProgress p => sp_datamap_receiver p
  end.
Definition stream_file (s : EncryptionStream) : PathBuf * option Chunk * Metadata := (es_relative_path s, stream_map s, es_metadata s).
Definition result_file (r : FileResult) : PathBuf * option Chunk * Metadata := (r.1.1, Some r.1.2, r.2).

Lemma next_batch_file s n o s' : next_batch s n = (o, s') → stream_file s' = stream_file s.
Proof.
  unfold next_batch. destruct (decide (n = 0%nat)); [by intros [= _ <-]|]. unfold stream_file, stream_map. destruct (es_state s) as [chunks d|p|d k] eqn:Es.
  - destruct (decide (take n chunks = [])); intros [= _ <-]; [by rewrite Es|done].
  - unfold next_stream_batch. destruct (_ <? _)%nat; [|by intros [= _ <-]].
    destruct (sp_datamap_receiver p) as [dm|] eqn:Edm; [destruct (es_is_public s)|]; by intros [= _ <-].
  - intros [= _ <-]. by rewrite Es.
Qed.

Lemma file_result_file s f : file_result s = Some f → result_file f = stream_file s.
Proof. unfold file_result, data_map_chunk, stream_file, stream_map. destruct (es_state s); simpl; by intros [= <-]. Qed.

(** Regular uploads. *)
Lemma fill_batch_file n est s : stream_file (ul_file (fill_batch n est s)) = stream_file (ul_file s).
Proof. unfold fill_batch. destruct (next_batch _ _) as [[b|] f] eqn:En; by apply next_batch_file in En. Qed.

Lemma upload_turn_file est po s w s' w' : upload_turn self est po s w = (Ok s', w') → ul_file s' = ul_file s.
Proof. unfold upload_turn. destruct (process_chunk_batch _ _ _ _ w) as [[[[rc r] f] [e|]] w1]; [done|]. by intros [= <- <-]. Qed.

Lemma upload_loop_file fuel est po s w s' w' :
  upload_loop self UPLOAD_FLOW_BATCH_SIZE fuel est po s w = (Ok (Some s'), w') → stream_file (ul_file s') = stream_file (ul_file s).
Proof.
  revert s w. induction fuel as [|fuel IH]; intros s w; [done|]. cbn [upload_loop]. cbv zeta. rewrite <- (fill_batch_file UPLOAD_FLOW_BATCH_SIZE est s).
  destruct (decide _); [by intros [= <- _]|]. unfold cm_bind. destruct (upload_turn _ _ _ _ w) as [[s1|] w1] eqn:Et; [|done].
  intros Hrun. rewrite (IH _ _ Hrun). by rewrite (upload_turn_file _ _ _ _ _ _ Et).
Qed.

Lemma upload_files_file fuel po ss acc w d ss' w' :
  upload_files self UPLOAD_FLOW_BATCH_SIZE fuel po ss acc w = (Ok (Some (d, ss')), w') → stream_file <$> ss' = stream_file <$> ss.
Proof.
  revert acc w d ss'. induction ss as [|s ss IH]; intros acc w d ss'; cbn [upload_files]; [by intros [= _ <- _]|].
  unfold cm_bind at 1, pay_and_upload_file, cm_bind at 1. destruct (upload_loop _ _ _ _ _ _ w) as [[[s1|]|] w1] eqn:El; [|done..]. simpl.
  unfold cm_bind. destruct (upload_files _ _ _ _ ss _ w1) as [[[[d' ss1]|]|] w2] eqn:Ef; [|done..]. intros [= _ <- <-].
  rewrite !fmap_cons. f_equal; [by apply upload_loop_file in El|by eapply IH].
Qed.

Lemma pay_and_upload_file_list fuel po ss w cost ss' w' :
  pay_and_upload self UPLOAD_FLOW_BATCH_SIZE fuel po ss w = (Ok (Some (cost, ss')), w') → stream_file <$> ss' = stream_file <$> ss.
Proof.
  unfold pay_and_upload, cm_bind. destruct (upload_files _ _ _ _ _ _ w) as [[[[[[n f] rs] ss1]|]|] w1] eqn:Ef; [|done..].
  destruct (calculate_total_cost _ _ _ _ _) as [c w2]. intros [= _ <- _]. by eapply upload_files_file.
Qed.

Lemma streams_to_file_results_files ss fs : streams_to_file_results ss = Ok fs → result_file <$> fs = stream_file <$> ss.
Proof.
  revert fs. induction ss as [|s ss IH]; intros fs; simpl; [by intros [= <-]|]. intros Hok. inv_ok. simplify_eq. rewrite !fmap_cons.
  f_equal; [by apply file_result_file|by apply IH].
Qed.

(** Uploads with batch payments. *)
Lemma drain_stream_file fuel n s acc cs s' : drain_stream fuel n s acc = Some (cs, s') → stream_file s' = stream_file s.
Proof.
  revert s acc. induction fuel as [|fuel IH]; intros s acc; simpl; [done|]. destruct (next_batch s n) as [[b|] s1] eqn:En; apply next_batch_file in En.
  - intros Hd. by rewrite (IH _ _ Hd).
  - by intros [= _ <-].
Qed.

Lemma collect_streams_files fuel ss acc acc' :
  collect_streams CHUNK_UPLOAD_BATCH_SIZE fuel ss acc = Some (Ok acc') → result_file <$> acc'.2 = (result_file <$> acc.2) ++ (stream_file <$> ss).
Proof.
  revert acc. induction ss as [|s ss IH]; intros acc; cbn [collect_streams]; [intros [= <-]; by rewrite app_nil_r|].
  unfold collect_xor_names_from_stream. destruct (drain_stream _ _ s []) as [[cs s']|] eqn:Ed; [|done]. simpl.
  destruct (file_result s') as [f|] eqn:Ef; [|done]. simpl. intros Hc. rewrite (IH _ Hc). simpl. rewrite fmap_app, <- app_assoc. simpl.
  by rewrite (file_result_file _ _ Ef), (drain_stream_file _ _ _ _ _ _ Ed).
Qed.

Definition loop_files (results : list FileResult) (ss : list EncryptionStream) : list (PathBuf * option Chunk * Metadata) := (result_file <$> results) ++ (stream_file <$> ss).

Lemma upload_batch_loop_files fuel receipt limit s w s' w' :
  upload_batch_loop UPLOAD_FLOW_BATCH_SIZE fuel receipt limit s w = (Ok (Some s'), w') →
  loop_files (ml_completed_files s') (ml_streams s') = loop_files (ml_completed_files s) (ml_streams s).
Proof.
  revert s w. induction fuel as [|fuel IH]; intros s w; [done|]. cbn [upload_batch_loop]. destruct (_ <=? _)%nat; [by intros [= <- _]|].
  destruct (ml_streams s) as [|st rest] eqn:Ess; [intros [= <- _]; by rewrite Ess|]. destruct (next_batch st _) as [o st'] eqn:En. apply next_batch_file in En.
  assert (∀ w, (let! file := cm_lift (ok_or (file_result st') MPE_StreamShouldHaveDatamap) in
      upload_batch_loop UPLOAD_FLOW_BATCH_SIZE fuel receipt limit {| ml_streams := rest; ml_dont_reupload := ml_dont_reupload s;
        ml_completed_files := ml_completed_files s ++ [file]; ml_failed_chunks := ml_failed_chunks s; ml_chunks_attempted := ml_chunks_attempted s |})%cm w = (Ok (Some s'), w') →
    loop_files (ml_completed_files s') (ml_streams s') = loop_files (ml_completed_files s) (st :: rest)) as Hdone.
  { intros w0. unfold cm_bind, cm_lift. destruct (file_result st') as [f|] eqn:Ef; [|done]. simpl. intros Hrun. rewrite (IH _ _ Hrun). unfold loop_files. simpl.
    rewrite fmap_app, <- app_assoc. simpl. by rewrite (file_result_file _ _ Ef), En. }
  destruct o as [[|c cs]|]; [by apply Hdone| |by apply Hdone]. unfold cm_bind at 1, cm_lift. destruct (merkle_tasks _ _ _) as [tasks|]; [|done].
  unfold cm_bind at 1. destruct (cm_tasks _ w) as [[results|] w1]; [|done]. destruct (collect_uploads _ _) as [d f]. intros Hrun. rewrite (IH _ _ Hrun). unfold loop_files. simpl.
  by rewrite En.
Qed.

Lemma remaining_streams_files fuel receipt ss results results' :
  remaining_streams fuel receipt ss results = Ok (Some results') → result_file <$> results' = loop_files results ss.
Proof.
  unfold loop_files. revert results. induction ss as [|s ss IH]; intros results; cbn [remaining_streams]; [intros [= <-]; by rewrite app_nil_r|].
  assert (∀ f, result_file f = stream_file s → remaining_streams fuel receipt ss (results ++ [f]) = Ok (Some results') →
    result_file <$> results' = (result_file <$> results) ++ (stream_file <$> s :: ss)) as Hnext.
  { intros f Hf Hrun. rewrite (IH _ Hrun), fmap_app, <- app_assoc. simpl. by rewrite Hf. }
  destruct (file_result s) as [f|] eqn:Ef; [apply Hnext; by apply file_result_file|]. destruct (drain_stream _ _ s []) as [[cs s']|] eqn:Ed; [|done].
  destruct (file_result s') as [f|] eqn:Ef'; [|done]. apply Hnext. by rewrite (file_result_file _ _ Ef'), (drain_stream_file _ _ _ _ _ _ Ed).
Qed.
End streams.

(** ** What the crate and the disk promise *)

(** self_encryption: what is encrypted as a stream is decrypted. *)
Class StreamEncryptionLaws `{XorNameLib, SelfEncryption} : Prop := {
  se_stream_roundtrip blocks (pieces : list (bytes * bytes)) dm :
    se_stream_encrypt (Z.of_nat (length (mjoin blocks))) blocks = Ok (Ok <$> pieces, Some dm) → decrypts_to (mjoin blocks) dm pieces.*2;
}.

(** The files of a walk are there with their sizes, and can be read in blocks. *)
Class DirectoryLaws (W : Type) `{!Disk W, !DiskFiles W} : Prop := {
  walk_file dir (w : W) e : Some e ∈ disk_walk dir w → de_is_file e = true →
    ∃ d, disk_files w !! de_path e = Some d ∧ ∀ m, de_metadata e = Some m → fm_len m = Z.of_nat (length d);
  blocks_of_file p d (w : W) : disk_files w !! p = Some d → ∃ blocks, disk_open_blocks p w = Some blocks ∧ mjoin (file_data_iterator blocks) = d;
  is_file_files p (w : W) : disk_is_file p w = bool_decide (is_Some (disk_files w !! p));
}.

Section laws.
Context `{XorNameLib, Hex, Bls, Layout, Kad, RmpHeader, Libp2pIdentity, Digests, HashOrder, SelfEncryption}.

(** Files are created empty or not at all; a disk that works does all it is asked. What decrypts in memory is decrypted to a
    file, from chunks that are fetched by their indices and names, with [I] what the fetcher needs and keeps; nothing else
    is touched, and only the disk may fail. *)
Class DownloadLaws (W : Type) `{!ClientWorld W, !Disk W, !ChunkNetwork W, !DiskFiles W, !StreamingDecrypt W} := {
  disk_works : Prop;
  works_create_dir p (w : W) : disk_works → (disk_create_dir_all p w).1 = true;
  works_create p (w : W) : disk_works → (disk_create_file p w).1 = true;
  works_remove p (w : W) : disk_works → is_Some (disk_files w !! p) → (disk_remove_file p w).1 = true;
  created_file p (w w' : W) : disk_create_file p w = (true, w') → disk_files w' = <[p := []]> (disk_files w);
  create_keeps_held c p (w : W) : net_holds w c → net_holds (disk_create_file p w).2 c;
  streaming_decrypts root out data cs (fetch : list (nat * bytes) → CM W SeError (list (nat * bytes))) (I : W → Prop) (w : W) :
    ci_dst_hash <$> se_infos root = xorname_from_content <$> cs → (∀ l, l ≡ₚ cs → se_decrypt (without_child root) l = Ok data) →
    (∀ (req : list (nat * bytes)) w, I w → (∀ x, x ∈ req → x.2 ∈ cs) →
       ∃ got w', fetch ((λ x, (x.1, xorname_from_content x.2)) <$> req) w = (Ok got, w') ∧ got ≡ₚ req ∧ I w') →
    (∀ w w', I w → (∀ p, p ≠ out → disk_files w' !! p = disk_files w !! p) → (∀ c, net_holds w c → net_holds w' c) → I w') → I w →
    ∃ r w', se_streaming_decrypt_from_storage root out fetch w = (r, w') ∧ I w' ∧ (r = Ok () → disk_files w' !! out = Some data) ∧ (disk_works → r = Ok ());
}.
End laws.

(** ** Downloads *)

Section downloads.
Context `{XorNameLib, HexLaws, Bls, Layout, Kad, RmpHeader, Libp2pIdentity, AntMerkle, HashOrder, SelfEncryption}.
Context `{!BodySerde, !Serde DataMap, !SerdeLaws DataMap, !Serde DataMapLevel, !PutErrorText, !SelfEncryptionLaws}.
Context `{!ClientWorld W, !Disk W, !Scheduler W, !ChunkNetwork W, !DiskFiles W, !DiskLaws W, !ChunkReadLaws W, !StreamingDecrypt W, !DownloadLaws W}.
Context (self : Client) (data_dir : option PathBuf).

Implicit Types (w : W) (c : Chunk) (S : list Chunk) (F : gmap PathBuf bytes).

Abbreviation reads := (readable self data_dir).
Abbreviation cached := (is_cache_path self data_dir).

(** A change of one file outside of the cache. *)
Lemma readable_out S F w w' out :
  reads S F w → ¬ cached out → (∀ p, p ≠ out → disk_files w' !! p = disk_files w !! p) → (∀ c, net_holds w c → net_holds w' c) →
  reads S (partial_alter (λ _, disk_files w' !! out) out F) w'.
Proof.
  intros [Hh Hf HF] Hout Hp Hk. split.
  - intros c Hc. split; [by apply Hh|by apply Hk, Hh].
  - intros c p d Hc Hcache. rewrite Hp; [by apply Hf|]. intros ->. apply Hout. by exists (chunk_address c).
  - intros p Hnp. destruct (decide (p = out)) as [->|Hne]; [by rewrite lookup_partial_alter_eq|]. rewrite lookup_partial_alter_ne by done. rewrite Hp by done. by apply HF.
Qed.

(** The chunks asked for, in the order in which they come. *)
Lemma fetcher_ok S F (cs : list bytes) (req : list (nat * bytes)) w :
  cache_configured self data_dir → reads S F w → chunk_new <$> cs ⊆ S → (∀ x, x ∈ req → x.2 ∈ cs) →
  ∃ got w', parallel_chunk_fetcher self data_dir ((λ x, (x.1, xorname_from_content x.2)) <$> req) w = (Ok got, w') ∧ got ≡ₚ req ∧ reads S F w'.
Proof.
  intros Hconf Hr Hsub Hreq. unfold parallel_chunk_fetcher, fetch_chunks_parallel, cm_bind.
  edestruct (process_tasks_ok (W := W) (λ (x : nat * bytes) w, let '(r, w) := chunk_get self data_dir (mkChunkAddress (xorname_from_content x.2)) w in
    (match r with Ok chunk => Ok (x.1, chunk_value chunk) | Err e => Err (se_generic (fetch_error_text (mkChunkAddress (xorname_from_content x.2)) e)) end, w))
    id (reads S F) req w) as (items & Hperm & Hrs & Hr1).
  { intros n w0 Hr0. eapply readable_files; [exact Hr0|intros; by apply completion_keeps_held|apply completion_keeps_files]. }
  { intros [i b] w0 Hx Hr0. change (mkChunkAddress (xorname_from_content b)) with (chunk_address (chunk_new b)).
    destruct (wp_chunk_get self data_dir S F (chunk_new b) w0 Hconf Hr0) as [Hg Hr']; [apply Hsub, list_elem_of_fmap_2; by apply (Hreq (i, b))|].
    unfold wp. simpl. change (mkChunkAddress (xorname_from_content b)) with (chunk_address (chunk_new b)). destruct (chunk_get _ _ _ w0) as [r w1]. simpl in *. by subst r. }
  { done. }
  match type of Hr1 with context [process_tasks_with_max_concurrency (?g <$> _) w] =>
    match goal with |- context [process_tasks_with_max_concurrency ?l w] => assert (l = g <$> req) as -> end end.
  { rewrite <- !list_fmap_compose. apply list_fmap_ext. by intros ? []. }
  destruct (process_tasks_with_max_concurrency _ w) as [rs w1]. simpl in *. exists items, w1. split_and!; [|done..]. unfold cm_lift. rewrite Hrs.
  change (λ x, Ok (id x)) with (@Ok (nat * bytes) SeError). by rewrite (collect_ok _ _ eq_refl).
Qed.

(** A download writes the file, or the disk failed. *)
Definition download_done (P : W → Prop) (r : result (option ()) DownloadError) w : Prop :=
  match r with Ok (Some _) => P w | Ok None => False | Err _ => ¬ disk_works end.

Lemma alter_out F out (d : bytes) : partial_alter (λ _, Some d) out F = <[out := d]> F.
Proof. done. Qed.

Lemma wp_disk {E} (op : W → bool * W) (e : E) (Q : result () E → W → Prop) w :
  (∀ w', op w = (true, w') → Q (Ok ()) w') → (∀ w', op w = (false, w') → Q (Err e) w') → wp (cm_disk op e) Q w.
Proof. intros Ht Hf. unfold wp, cm_disk. destruct (op w) as [[] w']; simpl; auto. Qed.

Lemma wp_stream_download S F root cs data out w :
  cache_configured self data_dir → reads S F w → ¬ cached out → chunk_new <$> cs ⊆ S →
  ci_dst_hash <$> se_infos root = xorname_from_content <$> cs → (∀ l, l ≡ₚ cs → se_decrypt (without_child root) l = Ok data) →
  wp (stream_download_from_datamap self data_dir root out) (λ r w', match r with Ok _ => reads S (<[out := data]> F) w' | Err _ => ¬ disk_works end) w.
Proof.
  intros Hconf Hr Hout Hsub Hinfos Hdec. unfold stream_download_from_datamap.
  apply wp_bind, wp_disk; [|intros w1 Ec Hd; pose proof (works_create out w Hd) as Hw1; by rewrite Ec in Hw1]. intros w1 Ec. cbn beta iota.
  pose proof (λ c, create_keeps_held c out w) as Hk1. rewrite Ec in Hk1. apply created_file in Ec.
  assert (reads S (<[out := []]> F) w1) as Hr1.
  { pose proof (readable_out S F w w1 out Hr Hout) as Hro. rewrite Ec, lookup_insert_eq, alter_out in Hro. apply Hro; [|done]. intros p Hp. by rewrite lookup_insert_ne. }
  apply wp_bind, wp_disk.
  2: { intros w2 Er Hd. pose proof (works_remove out w1 Hd) as Hw2. rewrite Er in Hw2. discriminate Hw2. rewrite Ec, lookup_insert_eq. eauto. }
  intros w2 Er. cbn beta iota. pose proof (disk_removed out w1) as Hrem.
  assert (∀ c, net_holds w1 c → net_holds (disk_remove_file out w1).2 c) as Hk2 by (intros c Hc; by apply (disk_keeps_held c w1 Hc)). rewrite Er in Hrem, Hk2. simpl in Hrem, Hk2.
  set (I := λ w, ∃ x, reads S (partial_alter (λ _, x) out F) w).
  assert (∀ w w', I w → (∀ p, p ≠ out → disk_files w' !! p = disk_files w !! p) → (∀ c, net_holds w c → net_holds w' c) → I w') as HI.
  { intros w3 w4 [x Hx] Hp Hk. exists (disk_files w4 !! out). pose proof (readable_out _ _ _ _ _ Hx Hout Hp Hk) as Hro.
    rewrite partial_alter_partial_alter_eq in Hro. exact Hro. }
  assert (I w2) as HI2.
  { apply (HI w1); [by exists (Some [])| |done]. intros p Hp. destruct Hrem as [->| ->]; [by rewrite lookup_delete_ne|done]. }
  destruct (streaming_decrypts root out data cs (parallel_chunk_fetcher self data_dir) I w2) as (r & w3 & Hrun & [x Hx] & Hfile & Hworks); [done..| |done|done|].
  { intros req w3 [x Hx] Hreq. destruct (fetcher_ok S _ cs req w3 Hconf Hx Hsub Hreq) as (got & w4 & ? & ? & ?). exists got, w4. split_and!; [done..|]. by exists x. }
  apply wp_bind, wp_map_err. unfold wp at 1. rewrite Hrun. cbn [fst snd]. destruct r as [[]|e]; cbn [map_err]; [|intros Hd; by specialize (Hworks Hd)].
  assert (x = Some data) as ->. { rewrite <- (Hfile eq_refl), (rd_files _ _ _ _ _ Hx out Hout). by rewrite lookup_partial_alter_eq. }
  apply wp_map_err. eapply wp_mono; [by apply wp_cleanup|]. by intros ? w4 [-> Hr4].
Qed.

Lemma wp_file_download S F fuel data contents dmc out w :
  cache_configured self data_dir → reads S F w → ¬ cached out → map_chunk_of data contents dmc → chunk_new <$> contents ⊆ S →
  wp (file_download self data_dir fuel dmc out) (download_done (reads S (<[out := data]> F))) w.
Proof.
  intros Hconf Hr Hout Hmap Hsub. unfold file_download. apply wp_bind.
  assert (wp (match path_parent out with Some parent => cm_disk (disk_create_dir_all parent) DE_IoError | None => cm_ret () end)
    (λ r w', match r with Ok _ => reads S F w' | Err _ => ¬ disk_works end) w) as Hdir.
  { destruct (path_parent out) as [parent|]; [|by wp_steps]. pose proof (disk_create_dir_files parent w) as Hd.
    assert (∀ x, net_holds w x → net_holds (disk_create_dir_all parent w).2 x) as Hk by (intros x Hx; by apply (disk_keeps_held x w Hx)).
    apply wp_disk; intros w1 Ec; rewrite Ec in Hd, Hk; [by eapply readable_files|]. intros Hdw. pose proof (works_create_dir parent w Hdw) as Hw. by rewrite Ec in Hw. }
  eapply wp_mono; [exact Hdir|]. intros [[]|e] w1 Hr1; [|done].
  destruct (restore_map_chunk self data_dir S F fuel data contents dmc w1 Hconf Hr1 Hmap Hsub) as (root & w2 & cs & Hroot & Hr2 & Hcs & Hinfos & Hdec).
  apply wp_bind, wp_map_err. unfold wp at 1. rewrite Hroot. simpl. apply wp_bind.
  eapply wp_mono; [apply (wp_stream_download S F root cs data out); [done..|by eapply contents_subset|done|done]|]. intros [[]|e] w3 Hr3; [by wp_steps|done].
Qed.

Lemma wp_file_download_public S F fuel data contents dmc out w :
  cache_configured self data_dir → reads S F w → ¬ cached out → map_chunk_of data contents dmc → chunk_new <$> contents ⊆ S → dmc ∈ S →
  wp (file_download_public self data_dir fuel (chunk_name dmc) out) (download_done (reads S (<[out := data]> F))) w.
Proof.
  intros Hconf Hr Hout Hmap Hsub Hin. unfold file_download_public. apply wp_bind, wp_map_err.
  assert (mkChunkAddress (chunk_name dmc) = chunk_address dmc) as -> by (unfold chunk_name; by destruct (chunk_address dmc)).
  eapply wp_mono; [by apply (wp_chunk_get self data_dir S F)|]. intros ? w1 [-> Hr1]. simpl. by eapply wp_file_download.
Qed.

(** Files one after the other, each with its data. *)
Definition written {A} (to_dest : PathBuf) (files : list (PathBuf * (A * Metadata))) (datas : list bytes) F : gmap PathBuf bytes :=
  foldl (λ F x, <[x.1 := x.2]> F) F (zip ((λ f, path_join to_dest f.1) <$> files) datas).

Lemma wp_download_files {A} (download : A → PathBuf → CM W DownloadError (option ())) S F to_dest (files : list (PathBuf * (A * Metadata))) datas w :
  Forall2 (λ f d, ¬ cached (path_join to_dest f.1) ∧
    ∀ F w, reads S F w → wp (download f.2.1 (path_join to_dest f.1)) (download_done (reads S (<[path_join to_dest f.1 := d]> F))) w) files datas →
  reads S F w → wp (download_files download to_dest files) (download_done (reads S (written to_dest files datas F))) w.
Proof.
  intros Hall. revert F w. induction Hall as [|[path [a m]] d files datas [Hout Hd] Hall IH]; intros F w Hr; cbn [download_files]; [by wp_steps|].
  apply wp_bind. eapply wp_mono; [by apply Hd|]. intros [[[]|]|e] w1 Hr1; [|done..]. apply IH. exact Hr1.
Qed.
End downloads.

(** ** Encryption of directories *)

Section directories.
Context `{XorNameLib, HexLaws, Bls, Layout, Kad, RmpHeader, Libp2pIdentity, AntMerkle, HashOrder, SelfEncryption}.
Context `{!BodySerde, !Serde DataMap, !SerdeLaws DataMap, !Serde DataMapLevel, !PutErrorText, !SelfEncryptionLaws, !StreamEncryptionLaws}.
Context `{!ClientWorld W, !Disk W, !Scheduler W, !ChunkNetwork W, !DiskFiles W, !DiskLaws W, !ChunkReadLaws W, !DirectoryLaws W}.
Context (IN_MEMORY_ENCRYPTION_MAX_SIZE : Z).

Implicit Types (w : W) (s : EncryptionStream).

(** A stream that has a data map has one of the data, and its chunks. *)
Definition encrypts (data : bytes) (is_public : bool) s : Prop :=
  Forall chunk_wf (stream_chunks s) ∧
  ∀ dmc, stream_map s = Some dmc → ∃ contents, map_chunk_of data contents dmc ∧ chunk_new <$> contents ⊆ stream_chunks s ∧ (is_public = true → dmc ∈ stream_chunks s).

Lemma new_chunks_wf (contents : list bytes) : Forall chunk_wf (chunk_new <$> contents).
Proof. apply Forall_fmap, Forall_true. done. Qed.

Lemma map_chunk_wf data contents dmc : map_chunk_of data contents dmc → chunk_wf dmc.
Proof. by intros (dm & v & _ & -> & _). Qed.

Lemma in_memory_encrypts file_path rel meta is_public data s dmc :
  new_in_memory_with file_path rel meta is_public data = Ok (s, dmc) → encrypts data is_public s ∧ es_relative_path s = rel ∧ es_metadata s = meta.
Proof.
  unfold new_in_memory_with. destruct (encrypt data) as [[dm chunks]|] eqn:Henc; [|done]. intros [= <- <-]. apply encrypt_map_chunk in Henc as (contents & -> & Hmap).
  pose proof (map_chunk_wf _ _ _ Hmap) as Hwf. split_and!; [split|done..]; unfold stream_chunks, stream_map; simpl.
  - destruct is_public; [apply Forall_app; split; [|by constructor]|]; apply new_chunks_wf.
  - intros ? [= <-]. exists contents. split; [done|]. split; [destruct is_public; set_solver|]. intros ->. set_solver.
Qed.

Lemma sent_all (rs : list (result (bytes * bytes) SeError)) :
  length (sent_chunks rs) = length rs → ∃ pieces, rs = Ok <$> pieces ∧ sent_chunks rs = chunk_new <$> pieces.*2.
Proof.
  induction rs as [|[[h c]|e] rs IH]; simpl; [by exists []| |done]. intros [= Hlen]. destruct (IH Hlen) as (pieces & -> & ->). by exists ((h, c) :: pieces).
Qed.

Lemma sent_wf (rs : list (result (bytes * bytes) SeError)) : Forall chunk_wf (sent_chunks rs).
Proof. induction rs as [|[[h c]|e] rs IH]; simpl; constructor; done. Qed.

Lemma stream_encrypts p rel meta is_public data w :
  disk_files w !! p = Some data → encrypts data is_public (new_stream_from_file p rel meta is_public (Z.of_nat (length data)) w).
Proof.
  intros Hp. destruct (blocks_of_file p data w Hp) as (blocks & Hb & Hdata). unfold new_stream_from_file, encrypting_thread. rewrite Hb.
  destruct (se_stream_encrypt _ _) as [[results dm]|e] eqn:Ese; [|split; [by destruct is_public; constructor|done]].
  destruct (decide (length (sent_chunks results) = length results)) as [Hlen|Hlen].
  2: { split; unfold stream_chunks, stream_map; simpl; [|done]. rewrite Forall_app. split; [apply sent_wf|by destruct is_public; constructor]. }
  destruct (sent_all _ Hlen) as (pieces & Hpieces & Hsent).
  assert (∀ v, (dm ← dm; chunk_new <$> rmp_to_vec dm) = Some v → chunk_wf v) as Hwf.
  { intros v. destruct dm as [dm|]; simpl; [|done]. by destruct (rmp_to_vec dm) as [b|]; simpl; intros [= <-]. }
  split; unfold stream_chunks, stream_map; simpl.
  - rewrite Forall_app. split; [apply sent_wf|]. destruct is_public; [|done]. destruct (dm ← dm; _) as [v|] eqn:Ev; constructor; [by apply Hwf|done].
  - intros dmc Hdmc. destruct dm as [dm|]; simpl in Hdmc; [|done]. destruct (rmp_to_vec dm) as [v|] eqn:Ev; [|done]. injection Hdmc as <-.
    exists pieces.*2. split; [exists dm, v; split_and!; [done..|]|]; [|rewrite Hsent; split; [set_solver|intros ->; simpl; rewrite Ev; set_solver]].
    rewrite <- Hdata in *. apply (se_stream_roundtrip _ pieces). by rewrite Ese, Hpieces.
Qed.

(** The files of a directory: where each lies below the directory, and what is in it. *)
Definition relative_path (dir : PathBuf) (F : gmap PathBuf bytes) (e : DirEntry) : PathBuf :=
  default [] (rok (get_relative_file_path_from_abs_file_and_folder_path (bool_decide (is_Some (F !! dir))) (de_path e) dir)).
Definition content (F : gmap PathBuf bytes) (e : DirEntry) : bytes := default [] (F !! de_path e).

Definition well_sized (F : gmap PathBuf bytes) (e : DirEntry) : Prop := ∃ d, F !! de_path e = Some d ∧ ∀ m, de_metadata e = Some m → fm_len m = Z.of_nat (length d).

Definition encrypted_entry (dir : PathBuf) (is_public : bool) (F : gmap PathBuf bytes) (e : DirEntry) (r : result EncryptionStream FileError) : Prop :=
  ∀ s, r = Ok s → es_relative_path s = relative_path dir F e ∧ encrypts (content F e) is_public s.

Lemma encrypt_entry_spec dir is_public F e w :
  disk_files w = F → well_sized F e →
  encrypted_entry dir is_public F e (encrypt_entry IN_MEMORY_ENCRYPTION_MAX_SIZE dir is_public e w).1 ∧
  disk_files (encrypt_entry IN_MEMORY_ENCRYPTION_MAX_SIZE dir is_public e w).2 = F.
Proof.
  intros HF (d & Hd & Hlen). apply (wp_mono (encrypt_entry IN_MEMORY_ENCRYPTION_MAX_SIZE dir is_public e) (λ r w', encrypted_entry dir is_public F e r ∧ disk_files w' = F)
    (λ r w', encrypted_entry dir is_public F e r ∧ disk_files w' = F)); [|done].
  unfold encrypt_entry. wp_steps. rewrite is_file_files, HF. destruct (get_relative_file_path_from_abs_file_and_folder_path _ _ _) as [rel|err] eqn:Erel; [|split; [done|done]].
  assert (relative_path dir F e = rel) as Hrel by (unfold relative_path; by rewrite Erel). assert (content F e = d) as Hc by (unfold content; by rewrite Hd).
  wp_steps. destruct (de_metadata e) as [m|] eqn:Em; [|by split]. simpl. rewrite (Hlen m eq_refl). unfold encrypt_file. destruct (_ <? _).
  - unfold encrypt_file_in_stream. wp_steps. split; [|done]. intros s [= <-]. rewrite Hrel, Hc. split; [by unfold new_stream_from_file; destruct (encrypting_thread _ _)|].
    apply stream_encrypts. by rewrite HF.
  - unfold encrypt_file_in_memory. apply wp_bind. unfold wp at 1. rewrite disk_read_file, HF, Hd. simpl. destruct (length d <? 3)%nat; [by split|]. wp_steps.
    destruct (new_in_memory_with _ _ _ _ _) as [[s dmc]|err] eqn:Enew; [|by split]. simpl. wp_steps. split; [|done]. intros ? [= <-].
    rewrite Hrel, Hc. by apply in_memory_encrypts in Enew as (? & ? & _).
Qed.

(** Tasks that keep an invariant, in any order. *)
Lemma process_tasks_each {X R} (g : X → W → R * W) (Q : X → R → Prop) (I : W → Prop) items w :
  (∀ n w, I w → I (task_completion n w).2) → (∀ x w, x ∈ items → I w → Q x (g x w).1 ∧ I (g x w).2) → I w →
  ∃ items', items' ≡ₚ items ∧ Forall2 Q items' (process_tasks_with_max_concurrency (g <$> items) w).1 ∧ I (process_tasks_with_max_concurrency (g <$> items) w).2.
Proof.
  intros Hcomp Hg HI. unfold process_tasks_with_max_concurrency. pose proof (completion_every (length (g <$> items)) w) as Hperm.
  specialize (Hcomp (length (g <$> items)) w HI). destruct (task_completion _ w) as [order w1]. simpl in Hperm, Hcomp. rewrite length_fmap in Hperm.
  set (selected := omap _ order). assert (selected = g <$> omap (λ i, items !! i) order) as ->.
  { unfold selected. rewrite list_fmap_omap. apply list_omap_ext, Forall_Forall2_diag, Forall_true. intros i. apply list_lookup_fmap. }
  pose proof (select_all items order Hperm) as Hsel. exists (omap (λ i, items !! i) order). split; [done|].
  assert (∀ x w, x ∈ omap (λ i, items !! i) order → I w → Q x (g x w).1 ∧ I (g x w).2) as Hg' by (intros x w2; rewrite Hsel; apply Hg).
  clear Hg HI Hperm Hsel. revert w1 Hcomp. induction (omap (λ i, items !! i) order) as [|x l IH]; intros w1 HI; [by split|]. rewrite fmap_cons. cbn [run_tasks].
  destruct (Hg' x w1 (list_elem_of_here _ _) HI) as [Hq HI']. destruct (g x w1) as [r w2]. simpl in Hq, HI'.
  destruct (IH (λ y w Hy, Hg' y w (list_elem_of_further _ _ _ Hy)) w2 HI') as [Hrs HI2]. destruct (run_tasks (g <$> l) w2). simpl in *. split; [by constructor|done].
Qed.

Lemma walk_files_in entries files e : walk_files entries = Some files → e ∈ files → Some e ∈ entries ∧ de_is_file e = true.
Proof.
  revert files. induction entries as [|[x|] entries IH]; intros files; simpl; [by intros [= <-] ?%elem_of_nil| |done].
  destruct (walk_files entries) as [files'|] eqn:Ew; [|done]. intros [= <-] He. destruct (de_is_file x) eqn:Ex.
  - apply elem_of_cons in He as [->|He]; [split; [left|done]|]. destruct (IH files' eq_refl He). split; [by right|done].
  - destruct (IH files' eq_refl He). split; [by right|done].
Qed.

Lemma collect_all {A E} (rs : list (result A E)) l : collect rs = Ok l → rs = Ok <$> l.
Proof. revert l. induction rs as [|[a|e] rs IH]; intros l; simpl; [by intros [= <-]| |done]. intros Hc. inv_ok. simplify_eq. by rewrite (IH _ Hok). Qed.

(** The streams of a directory, one for each file. *)
Lemma encrypt_directory_spec dir is_public w files rs w' ss :
  walk_files (disk_walk dir w) = Some files → encrypt_directory_files IN_MEMORY_ENCRYPTION_MAX_SIZE dir is_public w = (Some rs, w') → collect rs = Ok ss →
  disk_files w' = disk_files w ∧
  ∃ files', files' ≡ₚ files ∧ Forall2 (λ e s, es_relative_path s = relative_path dir (disk_files w) e ∧ encrypts (content (disk_files w) e) is_public s) files' ss.
Proof.
  intros Hwalk. unfold encrypt_directory_files. rewrite Hwalk.
  edestruct (process_tasks_each (λ e, encrypt_entry IN_MEMORY_ENCRYPTION_MAX_SIZE dir is_public e) (encrypted_entry dir is_public (disk_files w))
    (λ w', disk_files w' = disk_files w) files w) as (files' & Hperm & HQ & HI).
  { intros n w0 H0'. by rewrite completion_keeps_files. }
  { intros e w0 He H0'. apply encrypt_entry_spec; [done|]. destruct (walk_files_in _ _ _ Hwalk He) as [Hin Hfile]. by apply (walk_file dir w e). }
  { done. }
  destruct (process_tasks_with_max_concurrency _ w) as [rs' w1]. simpl in *. intros [= <- <-] ->%collect_all. split; [done|]. exists files'. split; [done|].
  rewrite Forall2_fmap_r in HQ. eapply Forall2_impl; [exact HQ|]. intros e s Hs. by apply Hs.
Qed.
End directories.

(** ** Round trips *)

Section roundtrips.
Context `{XorNameLib, HexLaws, Bls, Layout, Kad, RmpHeader, Libp2pIdentity, AntMerkle, HashOrder, SelfEncryption}.
Context `{!BodySerde, !Serde DataMap, !SerdeLaws DataMap, !Serde DataMapLevel, !PutErrorText, !SelfEncryptionLaws, !StreamEncryptionLaws}.
Context `{!Serde PublicArchiveVersioned, !SerdeLaws PublicArchiveVersioned, !Serde PrivateArchiveVersioned, !SerdeLaws PrivateArchiveVersioned}.
Context `{!ClientWorld W, !Disk W, !FilesDisk W, !Scheduler W, !UploadWorld W, !MerkleWorld W, !StreamingDecrypt W}.
Context `{!ChunkNetwork W, !MerkleNetworkLaws W, !DiskFiles W, !DiskLaws W, !ChunkReadLaws W, !DirectoryLaws W, !DownloadLaws W}.
Context (self : Client) (data_dir : option PathBuf) (UPLOAD_FLOW_BATCH_SIZE CHUNK_UPLOAD_BATCH_SIZE MAX_IN_MEMORY_DOWNLOAD_SIZE : nat)
  (IN_MEMORY_ENCRYPTION_MAX_SIZE : Z).

Implicit Types (w : W) (c : Chunk) (S : list Chunk) (F : gmap PathBuf bytes) (r : FileResult).

Abbreviation rel dir F := (relative_path dir F).
Abbreviation streams_of := (directory_streams IN_MEMORY_ENCRYPTION_MAX_SIZE).

(** What an upload of a directory gives back, and has stored. *)
Definition stored_file is_public (data : bytes) S (dmc : Chunk) : Prop :=
  ∃ contents, map_chunk_of data contents dmc ∧ chunk_new <$> contents ⊆ S ∧ (is_public = true → dmc ∈ S).
Definition uploaded dir is_public F (files : list DirEntry) (results : list FileResult) w : Prop :=
  ∃ S ps, Forall (λ c, chunk_wf c ∧ net_holds w c) S ∧ ps.*1 ≡ₚ files ∧ ps.*2 = results ∧
    Forall (λ p : DirEntry * FileResult, p.2.1.1 = rel dir F p.1 ∧ stored_file is_public (content F p.1) S p.2.1.2) ps.

Lemma uploaded_streams dir is_public F files files' ss results w :
  files' ≡ₚ files → Forall2 (λ e s, es_relative_path s = rel dir F e ∧ encrypts (content F e) is_public s) files' ss →
  result_file <$> results = stream_file <$> ss → (∀ s c, s ∈ ss → c ∈ stream_chunks s → net_holds w c) → uploaded dir is_public F files results w.
Proof.
  intros Hperm Hall Hres Hheld. exists (mjoin (stream_chunks <$> ss)), (zip files' results).
  assert (length files' = length results) as Hlen.
  { rewrite (Forall2_length _ _ _ Hall). apply (f_equal length) in Hres. by rewrite !length_fmap in Hres. }
  rewrite fst_zip, snd_zip by lia. split_and!; [|done..|].
  - apply Forall_forall. intros c (l & Hc & (s & -> & Hs)%list_elem_of_fmap)%list_elem_of_join. split; [|by eapply Hheld].
    apply (Forall2_Forall_r _ (λ s, Forall chunk_wf (stream_chunks s))) in Hall; [|apply Forall_true; by intros ? ? (_ & ? & _)].
    rewrite Forall_forall in Hall. specialize (Hall s Hs). rewrite Forall_forall in Hall. by apply Hall.
  - apply Forall_lookup. intros i [e r] (He & Hr)%lookup_zip_Some. simpl. destruct (Forall2_lookup_l _ _ _ _ _ Hall He) as (s & Hs & Hrel & _ & Henc).
    assert (result_file r = stream_file s) as Hf. { apply (f_equal (lookup i)) in Hres. rewrite !list_lookup_fmap, Hr, Hs in Hres. by apply (inj Some) in Hres. }
    unfold result_file, stream_file in Hf. injection Hf as Hp Hm _. split; [by rewrite Hp|]. destruct (Henc _ (eq_sym Hm)) as (contents & Hmap & Hsub & Hpub).
    assert (stream_chunks s ⊆ mjoin (stream_chunks <$> ss)) as Hin.
    { intros c Hc. apply list_elem_of_join. exists (stream_chunks s). split; [done|]. by apply list_elem_of_fmap_2, (list_elem_of_lookup_2 _ i). }
    exists contents. split_and!; [done|set_solver|intros E; by apply Hin, Hpub].
Qed.

(** With regular payments. *)
Lemma regular_upload_spec fuel dir wallet is_public files w cost results w' :
  (0 < UPLOAD_FLOW_BATCH_SIZE)%nat → walk_files (disk_walk dir w) = Some files →
  regular_upload self UPLOAD_FLOW_BATCH_SIZE IN_MEMORY_ENCRYPTION_MAX_SIZE fuel dir (PO_Wallet wallet) is_public w = (Ok (Some (cost, results)), w') →
  uploaded dir is_public (disk_files w) files results w'.
Proof.
  intros HB Hwalk. unfold regular_upload, dir_content_upload_internal. unfold cm_bind at 1 2. destruct (encrypt_directory_files _ _ _ w) as [[rs|] w1] eqn:Ee; [|done]. simpl.
  unfold cm_bind at 1, cm_lift at 1. destruct (collect rs) as [ss|] eqn:Ec; [|done]. simpl. destruct (encrypt_directory_spec _ _ _ _ _ _ _ _ Hwalk Ee Ec) as (_ & files' & Hperm & Hall).
  unfold cm_map_err. destruct (pay_and_upload _ _ _ _ _ w1) as [[[[cost1 ss1]|]|] w2] eqn:Ep; [|done..]. simpl. unfold cm_bind, cm_lift.
  destruct (streams_to_file_results ss1) as [rs'|] eqn:Ef; [|done]. intros [= _ <- <-]. eapply uploaded_streams; [done..| |].
  - rewrite (streams_to_file_results_files _ _ Ef). by eapply pay_and_upload_file_list.
  - intros s c Hs Hc. destruct (pay_and_upload_settles _ _ _ _ _ _ _ _ _ HB Ep) as [_ Hset]. destruct (Hset s c Hs Hc) as [?|(r & Hr & _)]; done.
Qed.

(** With batch payments. *)
Lemma merkle_batches_files fuel wallet batches s w s' w' :
  merkle_batches self UPLOAD_FLOW_BATCH_SIZE fuel wallet batches s w = (Ok (Some s'), w') → loop_files (fl_results s') (fl_streams s') = loop_files (fl_results s) (fl_streams s).
Proof.
  revert s w. induction batches as [|b batches IH]; intros s w; cbn [merkle_batches]; [by intros [= <- _]|]. unfold cm_bind at 1.
  destruct (merkle_batch _ _ _ _ _ _ w) as [[[s1|]|e] w1] eqn:Eb; [|done..]. intros Hrun. rewrite (IH _ _ Hrun). clear IH Hrun.
  unfold merkle_batch in Eb. unfold cm_bind at 1 in Eb. match type of Eb with context [match ?m w with _ => _ end] => destruct (m w) as [[receipt|] w2]; [|done] end.
  unfold cm_bind at 1, cm_map_err at 1 in Eb. destruct (upload_batch_with_merkle _ _ _ _ _ _ w2) as [[[u|]|e] w3] eqn:Eu; [|done..]. cbn [map_err] in Eb.
  unfold cm_bind at 1 in Eb. match type of Eb with context [match ?m w3 with _ => _ end] => destruct (m w3) as [[existing|] w4]; [|done] end.
  unfold cm_bind at 1 in Eb. match type of Eb with context [match ?m w4 with _ => _ end] => destruct (m w4) as [[receipt2|] w5]; [|done] end. injection Eb as <- _.
  apply upload_batch_loop_files in Eu. unfold loop_files in *. simpl in *. by rewrite fmap_app, <- app_assoc, Eu.
Qed.

Lemma split_keeps names receipt w found w' : split_existing_and_new_chunks CHUNK_UPLOAD_BATCH_SIZE names receipt w = (found, w') → w ⊑ w'.
Proof.
  unfold split_existing_and_new_chunks. destruct (decide _); [by intros [= _ <-]|]. destruct (check_records_exist_batch _ _ w) as [f w1] eqn:Ef. intros [= _ <-].
  by destruct (check_batches_spec _ _ _ _ _ Ef).
Qed.

Lemma merkle_results fuel dir is_public wallet receipt w cost results w' :
  files_put_with_merkle_payment_internal self UPLOAD_FLOW_BATCH_SIZE CHUNK_UPLOAD_BATCH_SIZE IN_MEMORY_ENCRYPTION_MAX_SIZE fuel dir is_public wallet receipt w = (Ok (Some (cost, results)), w') →
  ∃ w1 ss w2, w ⊑ w1 ∧ streams_of dir is_public w1 = (Ok ss, w2) ∧ result_file <$> results = stream_file <$> ss.
Proof.
  unfold files_put_with_merkle_payment_internal. destruct (match wallet with Some w => _ | None => _ end); [done|].
  unfold collect_xornames_from_dir, cm_map_err, cm_bind, cm_lift, cm_modify. pose proof (directory_streams_keeps IN_MEMORY_ENCRYPTION_MAX_SIZE dir is_public w) as Hw1.
  destruct (directory_streams _ _ _ w) as [[ss1|e] w1] eqn:E1; [|done]. simpl in Hw1.
  destruct (collect_streams _ _ ss1 _) as [[[[names counts] files]|e]|] eqn:Ec; [|done..]. cbn [cm_ret map_err].
  destruct (split_existing_and_new_chunks _ names _ w1) as [[existing to_pay] w2] eqn:Es. cbn [cm_ret].
  destruct (decide (to_pay = [])).
  { intros [= _ <- _]. exists w, ss1, w1. split_and!; [done..|]. by apply collect_streams_files in Ec. }
  match goal with |- context [directory_streams _ _ _ ?w] => set (w3 := w) end. destruct (directory_streams _ _ _ w3) as [[ss2|e] w4] eqn:E2; [|done]. cbn [map_err].
  destruct (merkle_batches _ _ _ _ _ _ w4) as [[[s|]|e] w5] eqn:Eb; [|done..]. apply merkle_batches_files in Eb.
  destruct (remaining_streams _ _ _ _) as [[rs|]|e] eqn:Er; [|done..]. intros [= _ <- _]. exists w3, ss2, w4. split_and!; [|done|].
  - etrans; [exact Hw1|]. etrans; [by eapply split_keeps|]. unfold w3. destruct (decide _); [done|apply send_event_keeps].
  - rewrite (remaining_streams_files _ _ _ _ _ Er), Eb. done.
Qed.

(** The directory stays as it is while it is uploaded: encrypting it again gives the same chunks, and none occurs twice. *)
Definition steady dir is_public w : Prop :=
  (∀ w1, w ⊑ w1 → disk_files w1 = disk_files w ∧ disk_walk dir w1 = disk_walk dir w) ∧
  ∃ cs, NoDup (chunk_name <$> cs) ∧ ∀ w1 ss w2, w ⊑ w1 → streams_of dir is_public w1 = (Ok ss, w2) → all_chunks ss ≡ₚ cs.

Lemma merkle_upload_spec fuel dir wallet is_public files w cost results w' :
  (0 < UPLOAD_FLOW_BATCH_SIZE)%nat → walk_files (disk_walk dir w) = Some files → steady dir is_public w →
  merkle_upload self UPLOAD_FLOW_BATCH_SIZE CHUNK_UPLOAD_BATCH_SIZE IN_MEMORY_ENCRYPTION_MAX_SIZE fuel dir (MPO_Wallet wallet) is_public w = (Ok (Some (cost, results)), w') →
  uploaded dir is_public (disk_files w) files results w'.
Proof.
  intros HB Hwalk (Hsame & cs & Hnd & Hcs). unfold merkle_upload, cm_map_err. simpl. destruct (files_put_with_merkle_payment_internal _ _ _ _ _ _ _ _ _ w) as [[[paid|]|] w1] eqn:Ef; [|done..].
  intros [= -> ->]. destruct (merkle_results _ _ _ _ _ _ _ _ _ Ef) as (w2 & ss & w3 & Hw2 & Hss & Hres). destruct (Hsame w2 Hw2) as [Hfiles Hw].
  pose proof Hss as Hss'. unfold directory_streams, cm_bind, cm_lift in Hss'. destruct (encrypt_directory_files _ _ _ w2) as [[rs|] w4] eqn:Ee; [|done]. simpl in Hss'.
  destruct (collect rs) as [ss'|] eqn:Ec; [|done]. injection Hss' as -> _. rewrite <- Hw in Hwalk. destruct (encrypt_directory_spec _ _ _ _ _ _ _ _ Hwalk Ee Ec) as (_ & files' & Hperm & Hall).
  rewrite Hfiles in Hall. eapply uploaded_streams; [done..|]. intros s c Hs Hc.
  destruct (merkle_upload_settles _ _ _ _ _ _ _ _ _ cs _ _ _ HB Hnd Hcs Ef c) as [?|Hin]; [|done|set_solver].
  rewrite <- (Hcs _ _ _ Hw2 Hss). unfold all_chunks. apply list_elem_of_join. exists (stream_chunks s). split; [done|by apply list_elem_of_fmap_2].
Qed.

Lemma bulk_upload_spec {A} fuel dir wallet is_public (build : list FileResult → A) files w cost a w' :
  (0 < UPLOAD_FLOW_BATCH_SIZE)%nat → walk_files (disk_walk dir w) = Some files →
  ((∃ n, estimate_directory_chunks dir w = Some n ∧ (MERKLE_PAYMENT_THRESHOLD ≤ n)%nat) → steady dir is_public w) →
  bulk_upload_internal self UPLOAD_FLOW_BATCH_SIZE CHUNK_UPLOAD_BATCH_SIZE IN_MEMORY_ENCRYPTION_MAX_SIZE fuel dir (BPO_Wallet wallet) is_public build w = (Ok (Some (cost, a)), w') →
  ∃ results, a = build results ∧ uploaded dir is_public (disk_files w) files results w'.
Proof.
  intros HB Hwalk Hsteady. unfold bulk_upload_internal. unfold cm_bind at 1 2 3, cm_get, cm_lift. destruct (estimate_directory_chunks dir w) as [n|] eqn:En; [|done]. cbn [ok_or].
  destruct (Nat.leb_spec MERKLE_PAYMENT_THRESHOLD n) as [Hle|_].
  - destruct (merkle_upload _ _ _ _ _ _ _ _ w) as [[[[c1 results]|]|] w1] eqn:Eu; [|done..]. intros [= _ <- <-]. exists results. split; [done|].
    eapply merkle_upload_spec; [done..| |done]. apply Hsteady. eauto.
  - destruct (regular_upload _ _ _ _ _ _ _ w) as [[[[c1 results]|]|] w1] eqn:Eu; [|done..]. intros [= _ <- <-]. exists results. split; [done|].
    by eapply regular_upload_spec.
Qed.

(** The archive lists the files once each, if their paths differ. *)
Definition archive_of {A} (f : Chunk → A) (results : list FileResult) : Archive A :=
  foldl (λ archive r, archive_add_file archive r.1.1 (f r.1.2) r.2) archive_new results.
Definition archive_item {A} (f : Chunk → A) r : PathBuf * (A * Metadata) := (normalize_path r.1.1, (f r.1.2, r.2)).

Lemma archive_of_fold {A} (f : Chunk → A) (results : list FileResult) :
  foldl (λ archive '(path, datamap, metadata), archive_add_file archive path (f datamap) metadata) archive_new results = archive_of f results.
Proof. unfold archive_of. generalize (archive_new (A := A)). induction results as [|[[p d] m] results IH]; intros a; simpl; [done|apply IH]. Qed.

Lemma archive_of_items {A} (f : Chunk → A) (results : list FileResult) :
  NoDup ((λ r, normalize_path r.1.1) <$> results) → archive_iter (archive_of f results) ≡ₚ archive_item f <$> results.
Proof.
  intros Hnd. unfold archive_iter. rewrite merge_sort_Permutation. unfold archive_of.
  assert (∀ m : gmap PathBuf (A * Metadata), (∀ r, r ∈ results → m !! normalize_path r.1.1 = None) →
    map_to_list (foldl (λ archive r, archive_add_file archive r.1.1 (f r.1.2) r.2) m results : gmap PathBuf (A * Metadata)) ≡ₚ map_to_list m ++ (archive_item f <$> results)) as Hm.
  { induction results as [|r results IH]; intros m Hm; simpl; [by rewrite app_nil_r|]. apply NoDup_cons in Hnd as [Hr Hnd]. rewrite IH; [|done|].
    - etrans; [apply Permutation_app_tail; exact (map_to_list_insert m _ (f r.1.2, r.2) (Hm r (list_elem_of_here _ _)))|]. simpl. by rewrite <- Permutation_middle.
    - intros x Hx. change (<[normalize_path r.1.1 := (f r.1.2, r.2)]> m !! normalize_path x.1.1 = None). rewrite lookup_insert_ne; [apply Hm; by right|]. intros E. apply Hr. rewrite E. by apply (list_elem_of_fmap_2 (λ r, normalize_path r.1.1)). }
  pose proof (Hm ∅ (λ _ _, lookup_empty _)) as Hp. rewrite map_to_list_empty in Hp. exact Hp.
Qed.

(** ** Archives and what they list *)

Lemma zip_fmap {X A B} (f : X → A) (g : X → B) (l : list X) : zip (f <$> l) (g <$> l) = (λ x, (f x, g x)) <$> l.
Proof. induction l as [|x l IH]; [done|]. simpl. by f_equal. Qed.

Lemma foldl_insert_spec (l : list (PathBuf * bytes)) F :
  NoDup l.*1 → (∀ p d, (p, d) ∈ l → foldl (λ F x, <[x.1 := x.2]> F) F l !! p = Some d) ∧ (∀ p, p ∉ l.*1 → foldl (λ F x, <[x.1 := x.2]> F) F l !! p = F !! p).
Proof.
  revert F. induction l as [|[q b] l IH]; intros F Hnd; simpl; [split; [by intros ? ? ?%elem_of_nil|done]|]. apply NoDup_cons in Hnd as [Hq Hnd].
  destruct (IH (<[q := b]> F) Hnd) as [Hin Hout]. split.
  - intros p d [[= -> ->]|Hp]%elem_of_cons; [|by apply Hin]. rewrite Hout by done. by rewrite lookup_insert_eq.
  - intros p [Hne Hp]%not_elem_of_cons. rewrite Hout by done. by rewrite lookup_insert_ne.
Qed.

(** Where a file of the directory is downloaded to. *)
Definition destination dir F (to_dest : PathBuf) (e : DirEntry) : PathBuf := path_join to_dest (normalize_path (rel dir F e)).

(** The files are at their destinations, and the others outside of the cache as they were. *)
Definition restored dir F to_dest (files : list DirEntry) F1 w : Prop :=
  (∀ e, e ∈ files → disk_files w !! destination dir F to_dest e = Some (content F e)) ∧
  ∀ p, p ∉ destination dir F to_dest <$> files → ¬ is_cache_path self data_dir p → disk_files w !! p = F1 !! p.

Lemma stored_file_mono is_public data S S' dmc : S ⊆ S' → stored_file is_public data S dmc → stored_file is_public data S' dmc.
Proof. intros Hsub (contents & Hmap & Hc & Hp). exists contents. split_and!; [done|set_solver|auto]. Qed.

Lemma download_archive {A} (f : Chunk → A) (download : A → PathBuf → CM W DownloadError (option ())) dir is_public F F1 to_dest files S ps w :
  (∀ data dmc out F w, stored_file is_public data S dmc → ¬ is_cache_path self data_dir out → readable self data_dir S F w →
     wp (download (f dmc) out) (download_done (readable self data_dir S (<[out := data]> F))) w) →
  ps.*1 ≡ₚ files → Forall (λ p : DirEntry * FileResult, p.2.1.1 = rel dir F p.1 ∧ stored_file is_public (content F p.1) S p.2.1.2) ps →
  NoDup (destination dir F to_dest <$> files) → (∀ e, e ∈ files → ¬ is_cache_path self data_dir (destination dir F to_dest e)) → readable self data_dir S F1 w →
  wp (download_files download to_dest (archive_iter (archive_of f ps.*2))) (download_done (restored dir F to_dest files F1)) w.
Proof.
  intros Hdl Hfiles Hps Hnd Hcache Hr. rewrite <- Hfiles in Hnd. set (dest := destination dir F to_dest) in *.
  assert (∀ p, p ∈ ps → path_join to_dest (archive_item f p.2).1 = dest p.1) as Hdest.
  { intros p Hp. rewrite Forall_forall in Hps. unfold dest, destination, archive_item. simpl. f_equal. f_equal. by apply Hps. }
  assert (path_join to_dest <$> ((λ r : FileResult, normalize_path r.1.1) <$> ps.*2) = dest <$> ps.*1) as Hpaths.
  { rewrite <- !list_fmap_compose. apply list_fmap_ext. intros i p Hp. apply Hdest. by eapply list_elem_of_lookup_2. }
  assert (archive_iter (archive_of f ps.*2) ≡ₚ (archive_item f ∘ snd) <$> ps) as Hperm.
  { rewrite archive_of_items, <- list_fmap_compose; [done|]. apply (NoDup_fmap_1 (path_join to_dest)). by rewrite Hpaths. }
  apply Permutation_map_inv in Hperm as (ps' & Hiter & Hps'). rewrite Hiter. change (map (archive_item f ∘ snd) ps') with ((archive_item f ∘ snd) <$> ps').
  assert (∀ p, p ∈ ps' → p ∈ ps) as Hin by (intros p; by rewrite Hps'). rewrite Forall_forall in Hps.
  eapply wp_mono; [apply (wp_download_files self data_dir download S F1 to_dest _ ((λ p, content F p.1) <$> ps')); [|done]|].
  - apply Forall2_fmap, Forall_Forall2_diag, Forall_forall. intros p Hp%Hin. unfold compose. rewrite (Hdest p Hp). destruct (Hps p Hp) as [_ Hst].
    assert (¬ is_cache_path self data_dir (dest p.1)) as Hnc by (apply Hcache; rewrite <- Hfiles; by apply list_elem_of_fmap_2). split; [done|]. intros. by apply Hdl.
  - intros [[[]|]|e] w1 Hr1; [|done..]. unfold download_done, written in *. rewrite <- list_fmap_compose, zip_fmap in Hr1.
    destruct (foldl_insert_spec ((λ p : DirEntry * FileResult, (((λ f : PathBuf * (A * Metadata), path_join to_dest f.1) ∘ (archive_item f ∘ snd)) p, content F p.1)) <$> ps') F1) as [Hl1 Hl2].
    { rewrite <- list_fmap_compose. erewrite (list_fmap_ext _ (λ p, dest p.1)); [|intros i p Hp; apply (Hdest p), Hin; by eapply list_elem_of_lookup_2].
      rewrite <- Hps'. by rewrite <- list_fmap_compose in Hnd. }
    split.
    + intros e He. rewrite (rd_files _ _ _ _ _ Hr1) by (by apply Hcache). apply Hl1. rewrite <- Hfiles in He. apply list_elem_of_fmap in He as (p & -> & Hp).
      apply list_elem_of_fmap. exists p. split; [|by rewrite <- Hps']. unfold compose. by rewrite (Hdest p Hp).
    + intros p Hp Hnc. rewrite (rd_files _ _ _ _ _ Hr1) by done. apply Hl2. rewrite <- list_fmap_compose. intros (x & -> & Hx%Hin)%list_elem_of_fmap. apply Hp.
      rewrite <- Hfiles. change (path_join to_dest (archive_item f x.2).1 ∈ dest <$> ps.*1). rewrite (Hdest x Hx). by do 2 apply list_elem_of_fmap_2.
Qed.

(** ** Directories *)

(** What the cache has of stored chunks is theirs. *)
Definition cache_right w : Prop :=
  ∀ c p d, chunk_wf c → net_holds w c → cache_path self data_dir (chunk_address c) = Some p → disk_files w !! p = Some d → d = chunk_value c.

Lemma held_readable S w : cache_right w → Forall (λ c, chunk_wf c ∧ net_holds w c) S → readable self data_dir S (disk_files w) w.
Proof. rewrite Forall_forall. intros Hright HS. split; [done| |done]. intros c p d Hc. by apply Hright; apply HS. Qed.

(** The download restores the files, or the archive is too large for memory, or the disk failed. *)
Definition download_outcome dir F to_dest (files : list DirEntry) F1 (r : result (option ()) DownloadError) w : Prop :=
  match r with
  | Ok (Some _) => restored dir F to_dest files F1 w
  | Ok None => False
  | Err e => ¬ disk_works ∨ ∃ d, e = DE_GetError (CGE_TooLargeForMemory d) ∧ (MAX_IN_MEMORY_DOWNLOAD_SIZE < length (se_infos d))%nat
  end.

(** The chunks of a put, with the data map of a public one, are stored. *)
Lemma data_put_stored is_public fuel data wallet w cost dmc w' :
  (0 < UPLOAD_FLOW_BATCH_SIZE)%nat → data_put_internal self UPLOAD_FLOW_BATCH_SIZE fuel data (PO_Wallet wallet) is_public w = (Ok (Some (cost, dmc)), w') →
  w ⊑ w' ∧ ∃ S, Forall (λ c, chunk_wf c ∧ net_holds w' c) S ∧ stored_file is_public data S dmc.
Proof.
  intros HB Hput. destruct (data_put_holds _ _ _ _ _ _ _ _ _ _ HB Hput) as (Hw & chunks & Henc & Hh). split; [done|].
  exists (if is_public then chunks ++ [dmc] else chunks). split.
  - apply Forall_forall. intros c Hc. split; [|by apply Hh]. eapply encrypt_wf; [done|]. destruct is_public; set_solver.
  - destruct (encrypt_map_chunk _ _ _ Henc) as (contents & -> & Hmap). exists contents. split_and!; [done|destruct is_public; set_solver|]. intros ->. set_solver.
Qed.

(** The content of the directory and the archive are both stored. *)
Lemma stored_together dir is_public F files results data fuel wallet w1 cost dmc w2 :
  (0 < UPLOAD_FLOW_BATCH_SIZE)%nat → uploaded dir is_public F files results w1 →
  data_put_internal self UPLOAD_FLOW_BATCH_SIZE fuel data (PO_Wallet wallet) is_public w1 = (Ok (Some (cost, dmc)), w2) →
  ∃ S ps, Forall (λ c, chunk_wf c ∧ net_holds w2 c) S ∧ stored_file is_public data S dmc ∧ ps.*1 ≡ₚ files ∧ ps.*2 = results ∧
    Forall (λ p : DirEntry * FileResult, p.2.1.1 = rel dir F p.1 ∧ stored_file is_public (content F p.1) S p.2.1.2) ps.
Proof.
  intros HB (S & ps & HS & Hfiles & Hres & Hps) Hput. destruct (data_put_stored _ _ _ _ _ _ _ _ HB Hput) as (Hw & S2 & HS2 & Hst). exists (S ++ S2), ps. split_and!; [|..|done|done|].
  - apply Forall_app. split; [|done]. eapply Forall_impl; [exact HS|]. intros c [? ?]. split; [done|]. by eapply holds_mono.
  - eapply stored_file_mono; [|done]. set_solver.
  - eapply Forall_impl; [exact Hps|]. intros p [? Hp]. split; [done|]. eapply stored_file_mono; [|done]. set_solver.
Qed.

Abbreviation upload := (dir_upload self UPLOAD_FLOW_BATCH_SIZE CHUNK_UPLOAD_BATCH_SIZE IN_MEMORY_ENCRYPTION_MAX_SIZE).
Abbreviation upload_public := (dir_upload_public self UPLOAD_FLOW_BATCH_SIZE CHUNK_UPLOAD_BATCH_SIZE IN_MEMORY_ENCRYPTION_MAX_SIZE).
Abbreviation download := (dir_download self data_dir MAX_IN_MEMORY_DOWNLOAD_SIZE).
Abbreviation download_public := (dir_download_public self data_dir MAX_IN_MEMORY_DOWNLOAD_SIZE).

(** C16: a directory that was uploaded is downloaded again. When an upload of a directory that is paid from a wallet has succeeded,
    whether its chunks were paid one by one or in batches, a download of the archive it gave puts every file with its
    content to its path below the destination and leaves all other files but those of the cache as they are; the only
    reasons to fail are the disk, and an archive with more chunks than are read into memory. The normalised paths of the
    files must differ and lie outside of the cache, which must hold no wrong files; for batch payments the directory must
    stay as it is and no chunk occur twice; and the batch size of uploads must not be zero. *)
Theorem dir_roundtrip fuel fuel' dir to_dest wallet files w w' :
  (0 < UPLOAD_FLOW_BATCH_SIZE)%nat → cache_configured self data_dir → cache_right w' → walk_files (disk_walk dir w) = Some files →
  NoDup (destination dir (disk_files w) to_dest <$> files) →
  (∀ e, e ∈ files → ¬ is_cache_path self data_dir (destination dir (disk_files w) to_dest e)) →
  ((∃ n, estimate_directory_chunks dir w = Some n ∧ (MERKLE_PAYMENT_THRESHOLD ≤ n)%nat) → ∀ is_public, steady dir is_public w) →
  (∀ cost data_map, upload fuel dir wallet w = (Ok (Some (cost, data_map)), w') →
    wp (download fuel' data_map to_dest) (download_outcome dir (disk_files w) to_dest files (disk_files w')) w') ∧
  (∀ cost addr, upload_public fuel dir wallet w = (Ok (Some (cost, addr)), w') →
    wp (download_public fuel' addr to_dest) (download_outcome dir (disk_files w) to_dest files (disk_files w')) w').
Proof.
  intros HB Hconf Hright Hwalk Hnd Hcache Hsteady. split.
  - intros cost data_map. unfold dir_upload, dir_content_upload, cm_bind at 1. destruct (bulk_upload_internal _ _ _ _ _ _ _ _ _ w) as [[[[c1 archive]|]|] w1] eqn:Eb; [|done..].
    destruct (bulk_upload_spec _ _ _ _ _ files _ _ _ _ HB Hwalk (λ Hn, Hsteady Hn false) Eb) as (results & -> & Hup).
    unfold cm_bind at 1, cm_map_err, archive_put, cm_bind at 1, cm_lift. destruct (private_to_bytes _) as [data|] eqn:Ed; [|done]. cbn [ok_or].
    destruct (data_put _ _ _ _ _ w1) as [[[[c2 dmc]|]|] w2] eqn:Ep; [|done..]. cbn [map_err]. unfold cm_bind. destruct (add_costs c1 c2) as [total|]; [|done]. intros [= _ <- <-].
    destruct (stored_together _ _ _ _ _ _ _ _ _ _ _ _ HB Hup Ep) as (S & ps & HS & (contents & Hmap & Hsub & _) & Hfiles & Hres & Hps).
    unfold dir_download, archive_get. apply wp_bind, wp_map_err, wp_bind.
    eapply wp_mono; [apply (data_get_encrypted self data_dir MAX_IN_MEMORY_DOWNLOAD_SIZE S (disk_files w2) fuel' data contents dmc w2 Hconf); [by apply held_readable|done..]|].
    intros r w3 [[->|(d & -> & Hd)] Hr3]; [|right; eauto]. wp_steps. assert (private_from_bytes data = Some (archive_of id results)) as ->.
    { unfold private_from_bytes, private_to_bytes in *. apply rmp_roundtrip in Ed. rewrite Ed. simpl. f_equal. apply (archive_of_fold id). }
    cbn [ok_or]. wp_steps. cbn [map_err]. rewrite <- Hres. eapply wp_mono; [eapply (download_archive id (file_download self data_dir fuel') dir false (disk_files w) (disk_files w2) to_dest files S ps); [|done..]|].
    + intros data' dmc' out F' w4 (cs & Hmap' & Hsub' & _) Hout Hr4. by eapply wp_file_download.
    + intros [[]|e] w4; [done..|]. by left.
  - intros cost addr. unfold dir_upload_public, dir_content_upload_public, cm_bind at 1. destruct (bulk_upload_internal _ _ _ _ _ _ _ _ _ w) as [[[[c1 archive]|]|] w1] eqn:Eb; [|done..].
    destruct (bulk_upload_spec _ _ _ _ _ files _ _ _ _ HB Hwalk (λ Hn, Hsteady Hn true) Eb) as (results & -> & Hup).
    unfold cm_bind at 1, cm_map_err, archive_put_public, cm_bind at 1, cm_lift. destruct (public_to_bytes _) as [data|] eqn:Ed; [|done]. cbn [ok_or].
    unfold data_put_public, cm_bind at 1. destruct (data_put_internal _ _ _ _ _ _ w1) as [[[[c2 dmc]|]|] w2] eqn:Ep; [|done..]. simpl. unfold cm_bind.
    destruct (add_costs c1 c2) as [total|]; [|done]. intros [= _ <- <-].
    destruct (stored_together _ _ _ _ _ _ _ _ _ _ _ _ HB Hup Ep) as (S & ps & HS & (contents & Hmap & Hsub & Hpub) & Hfiles & Hres & Hps).
    unfold dir_download_public, archive_get_public. apply wp_bind, wp_map_err, wp_bind.
    eapply wp_mono; [apply (data_get_public_encrypted self data_dir MAX_IN_MEMORY_DOWNLOAD_SIZE S (disk_files w2) fuel' data contents dmc w2 Hconf); [by apply held_readable|auto..]|].
    intros r w3 [[->|(d & -> & Hd)] Hr3]; [|right; eauto]. wp_steps. assert (public_from_bytes data = Some (archive_of chunk_name results)) as ->.
    { unfold public_from_bytes, public_to_bytes in *. apply rmp_roundtrip in Ed. rewrite Ed. simpl. f_equal. apply (archive_of_fold chunk_name). }
    cbn [ok_or]. wp_steps. cbn [map_err]. rewrite <- Hres. eapply wp_mono; [eapply (download_archive chunk_name (file_download_public self data_dir fuel') dir true (disk_files w) (disk_files w2) to_dest files S ps); [|done..]|].
    + intros data' dmc' out F' w4 (cs & Hmap' & Hsub' & Hpub') Hout Hr4. eapply wp_file_download_public; [done..|auto].
    + intros [[]|e] w4; [done..|]. by left.
Qed.

(** ** Archives of others *)

(** The paths of an archive are joined to the destination as they are, so an archive that lists a file under an absolute path has it written
    there, wherever the download was to go. *)
Theorem archive_writes_anywhere fuel to_dest path (file data : bytes) dmc meta S F archive_map w :
  cache_configured self data_dir → readable self data_dir S F w → head path = Some [SLASH] → ¬ is_cache_path self data_dir path →
  private_to_bytes {[path := (dmc, meta)]} = Some data → stored_file false data S archive_map → stored_file false file S dmc →
  wp (download fuel archive_map to_dest) (λ res w', match res with
    | Ok (Some _) => disk_files w' !! path = Some file
    | Ok None => False
    | Err e => ¬ disk_works ∨ ∃ d, e = DE_GetError (CGE_TooLargeForMemory d) ∧ (MAX_IN_MEMORY_DOWNLOAD_SIZE < length (se_infos d))%nat end) w.
Proof.
  intros Hconf Hr Hroot Hcache Hbytes (cs & Hmap & Hsub & _) (cs' & Hmap' & Hsub' & _). unfold dir_download, archive_get. apply wp_bind, wp_map_err, wp_bind.
  eapply wp_mono; [by apply (data_get_encrypted self data_dir MAX_IN_MEMORY_DOWNLOAD_SIZE S F fuel data cs archive_map w Hconf)|].
  intros r w1 [[->|(d & -> & Hd)] Hr1]; [|right; eauto]. wp_steps. unfold private_from_bytes, private_to_bytes in *. rewrite (rmp_roundtrip _ _ Hbytes). cbn [fmap option_fmap option_map ok_or].
  wp_steps. cbn [map_err]. assert (archive_iter ({[path := (dmc, meta)]} : PrivateArchive) = [(path, (dmc, meta))]) as Hiter.
  { apply Permutation_singleton_r. unfold archive_iter. rewrite merge_sort_Permutation. pose proof (map_to_list_singleton (M := gmap PathBuf) path (dmc, meta)) as Hl. exact (reflexive_eq _ _ Hl). }
  match goal with |- context [archive_iter ?a] => change (archive_iter a) with (archive_iter ({[path := (dmc, meta)]} : PrivateArchive)) end. rewrite Hiter.
  assert (path_join to_dest path = path) as Hjoin by (unfold path_join; by rewrite decide_True by (by left)). cbn [download_files]. rewrite Hjoin. apply wp_bind.
  eapply wp_mono; [by eapply wp_file_download|]. intros [[[]|]|e] w2 Hr2; [|done|by left]. wp_steps. unfold download_done in Hr2. rewrite (rd_files _ _ _ _ _ Hr2) by done. by rewrite lookup_insert_eq.
Qed.
End roundtrips.
