(* ===== verification/FilesExamples.v ===== *)
(** * Directories in a small world

    The world of ClientUploadExamples, in which a directory is uploaded, although requests fail, and
    downloaded to another place; and what becomes of some paths. *)

From stdpp Require Import base gmap countable strings list sorting.
From Stdlib Require Import ZArith Lia.
From S2P Require Import Prelude Text Effects Protocol Storage RecordCache RecordStore MerkleTree MerkleTreeProps Payments PaymentsProps.
From S2P Require Import PutValidation PutValidationFacts PutValidationProps Messages Driver TaskHandler.
From S2P Require Import ClientPayment ClientData ClientExamples ClientPaymentProps ClientDataProps Encryption ClientChunks ClientUpload ClientUploadProps ClientReadProps.
From S2P Require Import ClientMerkle ClientMerkleProps ClientUploadExamples Files FilesProps.

(** ** Paths *)

(** Root, separators and backslashes; and a file whose name has a backslash, which gets the path of another file. *)
Example normalized_paths :
  normalize_path [[SLASH]; text "folder"; text "file.txt"] = [[SLASH]; text "folder"; text "file.txt"] ∧
  normalize_path [text "folder\test\file.txt"] = [text "folder"; text "test"; text "file.txt"] ∧
  normalize_path [text "dir"; text "a\b"] = normalize_path [text "dir"; text "a"; text "b"] ∧
  normalize_path [[255]] = [[239; 191; 189]].
Proof. vm_compute. split_and!; reflexivity. Qed.

(** ** An encoding *)

(** Values one after the other, lists after their lengths. *)
Class Flat (A : Type) := { flat : A → bytes; unflat : bytes → option (A * bytes) }.
Class FlatLaws (A : Type) `{Flat A} : Prop := { unflat_flat (a : A) rest : unflat (flat a ++ rest) = Some (a, rest) }.

Section flat.
Context `{FlatLaws A, FlatLaws B}.

#[export] Instance flat_Z : Flat Z := {| flat z := [z]; unflat b := match b with z :: rest => Some (z, rest) | [] => None end |}.
#[export] Instance flat_Z_laws : FlatLaws Z.
Proof. done. Qed.

#[export] Instance flat_pair : Flat (A * B) :=
  {| flat x := flat x.1 ++ flat x.2; unflat b := x ← unflat b; y ← unflat x.2; Some ((x.1, y.1), y.2) |}.
#[export] Instance flat_pair_laws : FlatLaws (A * B).
Proof. split. intros [a b] rest. simpl. rewrite <- app_assoc, unflat_flat. simpl. by rewrite unflat_flat. Qed.

Fixpoint unflat_list (n : nat) (b : bytes) : option (list A * bytes) :=
  match n with
  | O => Some ([], b)
  | S n => x ← unflat b; l ← unflat_list n x.2; Some (x.1 :: l.1, l.2)
  end.
#[export] Instance flat_list : Flat (list A) :=
  {| flat l := Z.of_nat (length l) :: concat (flat <$> l); unflat b := match b with n :: rest => unflat_list (Z.to_nat n) rest | [] => None end |}.
#[export] Instance flat_list_laws : FlatLaws (list A).
Proof.
  split. intros l rest. cbn [flat unflat flat_list app]. rewrite Nat2Z.id. induction l as [|x l IH]; [done|]. rewrite fmap_cons. cbn [length unflat_list concat].
  rewrite <- app_assoc, unflat_flat. cbn [mbind option_bind fst snd]. by rewrite IH.
Qed.
End flat.

(** By way of another type, after two zeros. *)
Definition flat_serde {A T} `{Flat A} (f : T → A) (g : A → T) : Serde T :=
  {| rmp_to_vec t := Some (0 :: 0 :: flat (f t)); rmp_from_slice b := x ← unflat (drop 2 b); match x.2 with [] => Some (g x.1) | _ => None end |}.

Lemma flat_serde_laws {A T} `{FlatLaws A} (f : T → A) (g : A → T) : (∀ t, g (f t) = t) → @SerdeLaws T (flat_serde f g).
Proof.
  intros Hfg. split; intros t b [= <-]; [|done]. simpl. rewrite drop_0. pose proof (unflat_flat (f t) []) as Hu. rewrite app_nil_r in Hu. rewrite Hu. simpl. by rewrite Hfg.
Qed.

Definition flat_option {A} (o : option A) : list A := match o with Some a => [a] | None => [] end.

Definition info_parts (i : ChunkInfo) : Z * bytes * bytes * Z := (ci_index i, ci_dst_hash i, ci_src_hash i, ci_src_size i).
Definition parts_info (x : Z * bytes * bytes * Z) : ChunkInfo := {| ci_index := x.1.1.1; ci_dst_hash := x.1.1.2; ci_src_hash := x.1.2; ci_src_size := x.2 |}.
Definition data_map_parts (d : DataMap) : list (Z * bytes * bytes * Z) * list Z := (info_parts <$> dm_chunk_identifiers d, flat_option (dm_child d)).
Definition parts_data_map (x : list (Z * bytes * bytes * Z) * list Z) : DataMap := {| dm_chunk_identifiers := parts_info <$> x.1; dm_child := head x.2 |}.
Definition metadata_parts (m : Metadata) : Z * Z * Z * list bytes := (md_created m, md_modified m, md_size m, flat_option (md_extra m)).
Definition parts_metadata (x : Z * Z * Z * list bytes) : Metadata := {| md_created := x.1.1.1; md_modified := x.1.1.2; md_size := x.1.2; md_extra := head x.2 |}.
Definition chunk_parts (c : Chunk) : bytes * bytes := (chunk_address_xorname (chunk_address c), chunk_value c).
Definition parts_chunk (x : bytes * bytes) : Chunk := {| chunk_address := mkChunkAddress x.1; chunk_value := x.2 |}.

Definition archive_parts {A B} (f : A → B) (a : Archive A) : list (PathBuf * (B * (Z * Z * Z * list bytes))) :=
  (λ x, (x.1, (f x.2.1, metadata_parts x.2.2))) <$> map_to_list (a : gmap PathBuf (A * Metadata)).
Definition parts_archive {A B} (g : B → A) (l : list (PathBuf * (B * (Z * Z * Z * list bytes)))) : Archive A :=
  list_to_map ((λ x, (x.1, (g x.2.1, parts_metadata x.2.2))) <$> l).

Lemma head_flat_option {A} (o : option A) : head (flat_option o) = o.
Proof. by destruct o. Qed.

Lemma archive_parts_inv {A B} (f : A → B) (g : B → A) (a : Archive A) : (∀ x, g (f x) = x) → parts_archive g (archive_parts f a) = a.
Proof.
  intros Hfg. unfold parts_archive, archive_parts. rewrite <- list_fmap_compose. rewrite list_fmap_ext with (g := id); [rewrite list_fmap_id; exact (list_to_map_to_list (a : gmap PathBuf (A * Metadata)))|].
  intros i [p [x m]] _. unfold compose, parts_metadata, metadata_parts. simpl. rewrite Hfg, head_flat_option. by destruct m.
Qed.

Definition flat_data_maps : Serde DataMap := flat_serde data_map_parts parts_data_map.
Definition public_archives : Serde PublicArchiveVersioned := flat_serde (λ '(PublicV0 a), archive_parts id a) (λ l, PublicV0 (parts_archive id l)).
Definition private_archives : Serde PrivateArchiveVersioned := flat_serde (λ '(PrivateV0 a), archive_parts chunk_parts a) (λ l, PrivateV0 (parts_archive parts_chunk l)).

Section world.
#[local] Existing Instances content_name toy_hex num_bls toy_layout toy_kad toy_rmp_header toy_identity toy_digests toy_ant_merkle hash_order_rev
  cutting flat_data_maps no_levels upload_bodies texts network_of_keys disk_of_files last_first unheard no_trees by_name files_of
  chunk_laws merkle_laws disk_laws read_laws cutting_laws toy_hex_laws public_archives private_archives.

#[local] Instance flat_data_map_laws : SerdeLaws DataMap.
Proof.
  apply flat_serde_laws. intros [l c]. unfold parts_data_map, data_map_parts. simpl. rewrite head_flat_option, <- list_fmap_compose. f_equal.
  rewrite list_fmap_ext with (g := id); [apply list_fmap_id|]. by intros i [] _.
Qed.
#[local] Instance public_archive_laws : SerdeLaws PublicArchiveVersioned.
Proof. apply flat_serde_laws. intros [a]. f_equal. by apply archive_parts_inv. Qed.
#[local] Instance private_archive_laws : SerdeLaws PrivateArchiveVersioned.
Proof. apply flat_serde_laws. intros [a]. f_equal. apply archive_parts_inv. by intros [[]]. Qed.

Lemma ok_pairs {E} (l : list bytes) ps : (λ p, Ok (p, p)) <$> l = @Ok _ E <$> ps → ps.*2 = l.
Proof. revert ps. induction l as [|x l IH]; intros [|p ps]; simpl; intros Hp; try discriminate Hp; [done|]. injection Hp as <- Hp. f_equal. by apply IH. Qed.

#[local] Instance cutting_stream_laws : StreamEncryptionLaws.
Proof.
  split. intros blocks ps dm Hok. assert (ps.*2 = pieces (mjoin blocks)) as ->.
  - apply (ok_pairs (E := bytes)). exact (f_equal (λ r : result (list (result (bytes * bytes) bytes) * option DataMap) bytes, match r with Ok x => x.1 | Err _ => [] end) Hok).
  - assert (cut_map (mjoin blocks) = dm) as <-; [|apply cutting_decrypts].
    exact (f_equal (λ r : result (list (result (bytes * bytes) bytes) * option DataMap) bytes, match r with Ok (_, Some x) => x | _ => dm end) Hok).
Qed.

#[local] Instance files_disk : FilesDisk World := {| disk_walk_following := disk_walk; disk_file_len p w := (λ d, Z.of_nat (length d)) <$> wd_files w !! p |}.

#[local] Instance directory_laws : DirectoryLaws World.
Proof.
  split; simpl; [|intros p d w ->|done].
  - intros dir w e ([p d] & [= ->] & Hx)%list_elem_of_fmap _. apply elem_of_map_to_list in Hx. exists d. split; [done|]. by intros m [= <-].
  - eexists. split; [done|]. destruct d; [done|]. simpl. unfold mjoin. simpl. by rewrite app_nil_r.
Qed.

(** All chunks are fetched at once. *)
#[local] Instance writing : StreamingDecrypt World :=
  {| se_streaming_decrypt_from_storage d out fetch w :=
       match fetch (imap (λ i info, (i, ci_dst_hash info)) (dm_chunk_identifiers d)) w with
       | (Ok got, w) => match assemble (dm_chunk_identifiers d) got.*2 with
                        | Some data => (Ok (), with_files (<[out := data]> (wd_files w)) w)
                        | None => (Err [], w) end
       | (Err e, w) => (Err e, w) end |}.

#[local] Instance writing_laws : DownloadLaws World.
Proof.
  refine {| disk_works := True |}; try done; simpl.
  - by intros p w w' [= <-].
  - intros root out data cs fetch I w Hinfos Hdec Hfetch Hkeep HI. rewrite list_fmap_id in Hinfos.
    destruct (Hfetch (imap (λ i info, (i, ci_dst_hash info)) (dm_chunk_identifiers root)) w HI) as (got & w1 & Hf & Hperm & HI1).
    { intros x (i & info & -> & Hi)%elem_of_lookup_imap. simpl. rewrite <- Hinfos. apply list_elem_of_fmap_2. by eapply list_elem_of_lookup_2. }
    rewrite list_fmap_ext with (g := id) in Hf by (by intros ? []). rewrite list_fmap_id in Hf. rewrite Hf.
    assert (got.*2 ≡ₚ cs) as Hcs. { rewrite Hperm, <- Hinfos, fmap_imap.
      change (imap (const ci_dst_hash) (dm_chunk_identifiers root) ≡ₚ ci_dst_hash <$> dm_chunk_identifiers root). by rewrite imap_const. }
    specialize (Hdec _ Hcs). destruct (assemble (dm_chunk_identifiers root) got.*2) as [d|]; [|done]. injection Hdec as ->.
    exists (Ok ()), (with_files (<[out := data]> (wd_files w1)) w1). split_and!; [done| |intros _; apply lookup_insert_eq|done].
    apply (Hkeep w1); [done| |done]. intros p Hp. by apply lookup_insert_ne.
Defined.

(** Two files, and where they go. *)
Definition out : PathBuf := [text "out"].
Definition up (w : World) := dir_upload client 10 4 1000 60 dir wallet w.
Definition down (d : Chunk) (w : World) := dir_download client None 10 5 d out w.

Example up_and_down :
  match up two_files with
  | (Ok (Some (_, d)), w) => match down d w with
    | (Ok (Some _), w) => wd_files w !! (out ++ dir ++ [[0]]) = Some [1; 2; 3] ∧ wd_files w !! (out ++ dir ++ [[1]]) = Some [4; 5; 6]
    | _ => False end
  | _ => False end.
Proof. vm_compute. split; reflexivity. Qed.

Definition two_entries : list DirEntry :=
  (λ n, {| de_is_file := true; de_path := dir ++ [[n]]; de_metadata := Some {| fm_created := None; fm_modified := None; fm_len := 3 |} |}) <$> [0; 1].

Lemma cache_elsewhere p : is_cache_path client None p → head p = Some (text "cache").
Proof. intros [a Ha]. unfold cache_path in Ha. simpl in Ha. injection Ha as <-. done. Qed.

Lemma two_files_paths p d : wd_files two_files !! p = Some d → head p ≠ Some (text "cache").
Proof. intros Hp%elem_of_map_to_list. vm_compute in Hp. apply elem_of_cons in Hp as [[= -> ->]|Hp]; [done|]. apply elem_of_cons in Hp as [[= -> ->]|Hp]; [done|]. by apply elem_of_nil in Hp. Qed.

Lemma dir_roundtrip_witness :
  ∃ cost d w, up two_files = (Ok (Some (cost, d)), w) ∧
    wp (down d) (λ r w', match r with Ok (Some _) => ∀ e, e ∈ two_entries → wd_files w' !! destination dir (wd_files two_files) out e = Some (content (wd_files two_files) e)
                                   | Ok None => False | Err _ => True end) w.
Proof.
  destruct (up two_files) as [[[[cost d]|]|e] w] eqn:E; [|by vm_compute in E..]. exists cost, d, w. split; [done|].
  assert (wd_files w = wd_files two_files) as Hfiles by (change (wd_files (Ok (E := UploadError) (Some (cost, d)), w).2 = wd_files two_files); rewrite <- E; vm_compute; reflexivity).
  eapply wp_mono; [eapply (proj1 (dir_roundtrip client None 10 4 10 1000 60 5 dir out wallet two_entries two_files w _ _ _ _ _ _ _) cost d E)|].
  { intros [[[]|]|e] w'; [by intros [Hr _]|done|done]. }
Unshelve.
  - lia.
  - by eexists.
  - intros c p b _ _ Hp Hb. destruct (two_files_paths p b); [by rewrite <- Hfiles|]. apply cache_elsewhere. by eexists.
  - vm_compute. reflexivity.
  - apply (bool_decide_unpack _). vm_compute. exact I.
  - intros e [->|[->|[]%elem_of_nil]%elem_of_cons]%elem_of_cons Hc%cache_elsewhere; by vm_compute in Hc.
  - intros (n & Hn & Hle). exfalso. vm_compute in Hn. injection Hn as <-. unfold MERKLE_PAYMENT_THRESHOLD in Hle. lia.
Defined.
End world.
