(* ===== verification/Vault.v ===== *)
(** * Vaults of the client

    Models src/autonomi/src/client/high_level/vault (mod.rs, key.rs, user_data.rs): a vault is a chain of
    graph entries, each naming the next one and a number of scratchpads, all owned by keys derived
    from the vault's; its content is cut into pieces that fill the scratchpads one after the other. *)

From stdpp Require Import base gmap countable strings list.
From Stdlib Require Import ZArith Lia.
From S2P Require Import Prelude Text Effects Protocol Storage RecordCache RecordStore MerkleTree Payments PutValidation Messages Driver TaskHandler.
From S2P Require Import ClientPayment ClientData ClientRegister Encryption.

(** [Scratchpad::MAX_SIZE - 1024] and 1000. The operations below take these numbers as arguments, and what is shown of them
    holds for all positive ones. *)
Definition MAX_CONTENT_PER_SCRATCHPAD : nat := Z.to_nat (SCRATCHPAD_MAX_SIZE - 1024).
Definition NUM_OF_SCRATCHPADS_PER_GRAPH_ENTRY : nat := 1000.

Definition VAULT_HEAD_DERIVATION_INDEX : DerivationIndex := replicate 32 0.

Definition vault_split_bytes (max_content : nat) (input : bytes) : list bytes := chunks_of (length input) max_content input.

Section vault.
Context `{XorNameLib, Hex, Bls, Layout, Kad, RmpHeader, Libp2pIdentity, Digests, HashOrder}.
Context `{!BodySerde, !BlsDerive}.

Inductive VaultError :=
  | VaultScratchpad (e : ScratchpadError)
  | VaultGraphEntry (e : GraphError)
  | VaultCost (e : CostError)
  | VaultProtocol (e : ProtocolError)
  | VaultNotEnoughGraphDescendants (descendants : nat)
  | VaultWithZeroContentSize.

Context `{!ClientWorld W, !Scheduler W}.
Context (payment_mode : PaymentMode) (evm_network : bytes) (max_content num_scratchpads : nat).

#[local] Open Scope cm_scope.

(** ** Reading *)

(** Content, content type, and whether a scratchpad that is not full was found, which ends the content. *)
Fixpoint fetch_scratchpads_of_one_graph_entry_and_decrypt (main_secret_key : SecretKey) (scratchpad_addresses : list (PublicKey * bytes))
    (decrypted_full_text : list bytes) (content_type : Z) : CM W VaultError (bytes * Z * bool) :=
  match scratchpad_addresses with
  | [] => cm_ret (concat decrypted_full_text, content_type, false)
  | (pub_key, derive_bytes) :: rest =>
    let secret_key := main_sk_derive_key main_secret_key derive_bytes in
    let! sp := cm_map_err VaultScratchpad (scratchpad_get (mkScratchpadAddress pub_key)) in
    let content_type := sp_data_encoding sp in
    let! decrypt_data := cm_lift (map_err VaultProtocol (scratchpad_decrypt_data sp secret_key)) in
    let decrypted_full_text := decrypted_full_text ++ [decrypt_data] in
    if (length (sp_encrypted_data sp) <? max_content)%nat then cm_ret (concat decrypted_full_text, content_type, true)
    else fetch_scratchpads_of_one_graph_entry_and_decrypt main_secret_key rest decrypted_full_text content_type
  end.

(** The loop of [vault_get], with fuel; [None] when it is used up. *)
Fixpoint vault_get_loop (fuel : nat) (main_secret_key : SecretKey) (cur_graph_entry_addr : GraphEntryAddress) (decrypted_full_text : list bytes)
    : CM W VaultError (option (bytes * Z)) :=
  match fuel with
  | O => cm_ret None
  | S fuel =>
    let! graph_entry := cm_map_err VaultGraphEntry (graph_entry_get cur_graph_entry_addr) in
    match ge_descendants graph_entry with
    | [] => cm_err (VaultNotEnoughGraphDescendants 0)
    | (first, _) :: rest =>
      let! (decrypt_data, cur_content_type, is_end_reached) := fetch_scratchpads_of_one_graph_entry_and_decrypt main_secret_key rest [] 0 in
      let decrypted_full_text := decrypted_full_text ++ [decrypt_data] in
      if is_end_reached : bool then cm_ret (Some (concat decrypted_full_text, cur_content_type))
      else vault_get_loop fuel main_secret_key (mkGraphEntryAddress first) decrypted_full_text
    end
  end.

Definition vault_get (fuel : nat) (secret_key : SecretKey) : CM W VaultError (option (bytes * Z)) :=
  let public_key := sk_public_key (main_sk_derive_key secret_key VAULT_HEAD_DERIVATION_INDEX) in
  vault_get_loop fuel secret_key (mkGraphEntryAddress public_key) [].

(** ** Cost *)

(** The quotients are of [u64], the sum of [U256]. *)
Definition vault_cost (owner : SecretKey) (max_size : Z) : CM W VaultError Z :=
  if max_size =? 0 then cm_err VaultWithZeroContentSize
  else
    let public_key := sk_public_key (main_sk_derive_key owner VAULT_HEAD_DERIVATION_INDEX) in
    let! graph_entry_cost := cm_map_err VaultCost (graph_entry_cost payment_mode public_key) in
    if graph_entry_cost =? 0 then cm_ret graph_entry_cost
    else
      let! scratchpad_cost := cm_map_err VaultCost (scratchpad_cost payment_mode public_key) in
      let num_of_scratchpads := max_size / Z.of_nat max_content + 1 in
      let num_of_graph_entry := num_of_scratchpads / Z.of_nat num_scratchpads + 1 in
      cm_ret ((num_of_graph_entry * graph_entry_cost + num_of_scratchpads * scratchpad_cost) mod 2 ^ 256).

(** ** Capacity *)

(** The derivation of the first graph entry that does not exist, and the scratchpads of those that do. *)
Fixpoint vault_claimed_capacity (fuel : nat) (main_secret_key : SecretKey) (cur_free_graphentry_derivation : DerivationIndex)
    (scratchpad_derivations : list (PublicKey * bytes)) : CM W VaultError (option (DerivationIndex * list (PublicKey * bytes))) :=
  match fuel with
  | O => cm_ret None
  | S fuel =>
    let public_key := sk_public_key (main_sk_derive_key main_secret_key cur_free_graphentry_derivation) in
    let! got := cm_try (graph_entry_get (mkGraphEntryAddress public_key)) in
    match got with
    | Ok entry =>
      if (length (ge_descendants entry) <=? num_scratchpads)%nat then cm_err (VaultNotEnoughGraphDescendants (length (ge_descendants entry)))
      else match ge_descendants entry with
      | [] => cm_err (VaultNotEnoughGraphDescendants 0)
      | (_, next) :: rest => vault_claimed_capacity fuel main_secret_key next (scratchpad_derivations ++ rest)
      end
    | Err (GraphGetError RecordNotFound) => cm_ret (Some (cur_free_graphentry_derivation, scratchpad_derivations))
    | Err err => cm_err (VaultGraphEntry err)
    end
  end.

(** A key derived from a random index, with the index. *)
Definition random_descendant {E} (main_secret_key : SecretKey) : CM W E (PublicKey * bytes) :=
  let! derivation_index := random_index in
  cm_ret (sk_public_key (main_sk_derive_key main_secret_key derivation_index), derivation_index).

Fixpoint random_descendants {E} (n : nat) (main_secret_key : SecretKey) : CM W E (list (PublicKey * bytes)) :=
  match n with
  | O => cm_ret []
  | S n => let! d := random_descendant main_secret_key in let! rest := random_descendants n main_secret_key in cm_ret (d :: rest)
  end.

Definition vault_expand_capacity (main_secret_key : SecretKey) (cur_graphentry_derivation : DerivationIndex) (payment_option : PaymentOption)
    : CM W VaultError (DerivationIndex * list (PublicKey * bytes) * Z) :=
  let own_secret_key := main_sk_derive_key main_secret_key cur_graphentry_derivation in
  let! first := random_descendant main_secret_key in
  let! scratchpad_derivations := random_descendants num_scratchpads main_secret_key in
  let graph_entry := graph_entry_new own_secret_key [] (replicate 32 0) (first :: scratchpad_derivations) in
  let! put := cm_map_err VaultGraphEntry (graph_entry_put payment_mode evm_network graph_entry payment_option) in
  cm_ret (first.2, scratchpad_derivations, put.1).

(** Amounts wrap. *)
Definition vault_add_cost (a b : Z) : Z := (a + b) mod 2 ^ 256.

(** Entries are added until there are scratchpads for all pieces; with fuel. *)
Fixpoint claim_capacity (fuel : nat) (main_secret_key : SecretKey) (payment_option : PaymentOption) (pieces : nat)
    (cur_free_graphentry_derivation : DerivationIndex) (scratchpad_derivations : list (PublicKey * bytes)) (total_cost : Z)
    : CM W VaultError (option (list (PublicKey * bytes) * Z)) :=
  if (pieces <=? length scratchpad_derivations)%nat then cm_ret (Some (scratchpad_derivations, total_cost))
  else match fuel with
  | O => cm_ret None
  | S fuel =>
    let! (next, new_scratchpad_derivations, graph_cost) := vault_expand_capacity main_secret_key cur_free_graphentry_derivation payment_option in
    claim_capacity fuel main_secret_key payment_option pieces next (scratchpad_derivations ++ new_scratchpad_derivations) (vault_add_cost total_cost graph_cost)
  end.

(** ** Writing *)

(** A piece is written to its scratchpad, which is created if it does not exist. *)
Definition vault_write_piece (payment_option : PaymentOption) (content_type : Z) (main_secret_key : SecretKey) (piece : bytes * (PublicKey * bytes))
    : CM W VaultError (option Z) :=
  let '(content, (_, derive_bytes)) := piece in
  let sp_secret_key := main_sk_derive_key main_secret_key derive_bytes in
  let! already_exists := cm_map_err VaultScratchpad (scratchpad_check_existence (mkScratchpadAddress (sk_public_key sp_secret_key))) in
  if already_exists : bool then
    let! _ := cm_map_err VaultScratchpad (client_scratchpad_update sp_secret_key content_type content) in
    cm_ret None
  else
    let! created := cm_map_err VaultScratchpad (scratchpad_create payment_mode evm_network sp_secret_key content_type content payment_option) in
    cm_ret (Some created.1).

Fixpoint sum_prices (results : list (result (option Z) VaultError)) (total_cost : Z) : result Z VaultError :=
  match results with
  | [] => Ok total_cost
  | Ok (Some price) :: rest => sum_prices rest (vault_add_cost total_cost price)
  | Ok None :: rest => sum_prices rest total_cost
  | Err e :: _ => Err e
  end.

Definition vault_put (fuel : nat) (data : bytes) (payment_option : PaymentOption) (secret_key : SecretKey) (content_type : Z) : CM W VaultError (option Z) :=
  if decide (data = []) then cm_err VaultWithZeroContentSize
  else
    let! claimed := vault_claimed_capacity fuel secret_key VAULT_HEAD_DERIVATION_INDEX [] in
    match claimed with
    | None => cm_ret None
    | Some (cur_free_graphentry_derivation, scratchpad_derivations) =>
      let contents := vault_split_bytes max_content data in
      let! capacity := claim_capacity fuel secret_key payment_option (length contents) cur_free_graphentry_derivation scratchpad_derivations 0 in
      match capacity with
      | None => cm_ret None
      | Some (scratchpad_derivations, total_cost) =>
        let! update_results := (λ w, let '(rs, w) := process_tasks_with_max_concurrency
          (vault_write_piece payment_option content_type secret_key <$> zip contents scratchpad_derivations) w in (Ok rs, w)) in
        let! total_cost := cm_lift (sum_prices update_results total_cost) in
        cm_ret (Some total_cost)
      end
    end.

(** ** User data: user_data.rs *)

(** Archives and files are known by their addresses, private ones by the content of their data map chunks, registers by their
    owners' keys; each has a name. *)
Record UserData := {
  ud_file_archives : gmap bytes bytes;
  ud_private_file_archives : gmap bytes bytes;
  ud_register_addresses : gmap PublicKey bytes;
  ud_register_key : option bytes;
  ud_scratchpad_key : option bytes;
  ud_pointer_key : option bytes;
  ud_public_files : gmap bytes bytes;
  ud_private_files : gmap bytes bytes;
}.

Definition user_data_new : UserData :=
  {| ud_file_archives := ∅; ud_private_file_archives := ∅; ud_register_addresses := ∅; ud_register_key := None; ud_scratchpad_key := None;
     ud_pointer_key := None; ud_public_files := ∅; ud_private_files := ∅ |}.

Definition ud_with_archives (u : UserData) (public private : gmap bytes bytes) (registers : gmap PublicKey bytes) : UserData :=
  {| ud_file_archives := public; ud_private_file_archives := private; ud_register_addresses := registers; ud_register_key := ud_register_key u;
     ud_scratchpad_key := ud_scratchpad_key u; ud_pointer_key := ud_pointer_key u; ud_public_files := ud_public_files u; ud_private_files := ud_private_files u |}.

(** The name that was there before, and the new data. *)
Definition add_register (u : UserData) (register : PublicKey) (name : bytes) : option bytes * UserData :=
  (ud_register_addresses u !! register, ud_with_archives u (ud_file_archives u) (ud_private_file_archives u) (<[register := name]> (ud_register_addresses u))).
Definition add_file_archive_with_name (u : UserData) (archive name : bytes) : option bytes * UserData :=
  (ud_file_archives u !! archive, ud_with_archives u (<[archive := name]> (ud_file_archives u)) (ud_private_file_archives u) (ud_register_addresses u)).
Definition add_file_archive (u : UserData) (archive : bytes) : option bytes * UserData := add_file_archive_with_name u archive [].
Definition add_private_file_archive_with_name (u : UserData) (archive name : bytes) : option bytes * UserData :=
  (ud_private_file_archives u !! archive, ud_with_archives u (ud_file_archives u) (<[archive := name]> (ud_private_file_archives u)) (ud_register_addresses u)).
Definition add_private_file_archive (u : UserData) (archive : bytes) : option bytes * UserData := add_private_file_archive_with_name u archive [].
Definition remove_file_archive (u : UserData) (archive : bytes) : option bytes * UserData :=
  (ud_file_archives u !! archive, ud_with_archives u (delete archive (ud_file_archives u)) (ud_private_file_archives u) (ud_register_addresses u)).
Definition remove_private_file_archive (u : UserData) (archive : bytes) : option bytes * UserData :=
  (ud_private_file_archives u !! archive, ud_with_archives u (ud_file_archives u) (delete archive (ud_private_file_archives u)) (ud_register_addresses u)).

Inductive UserDataVaultError :=
  | UDV_Vault (e : VaultError)
  | UDV_UnsupportedVaultContentType (content_type : Z)
  | UDV_Serialization
  | UDV_GetError (e : GetError).

(** The content type is a hash of the name UserData. *)
Context `{!Serde UserData} (USER_DATA_VAULT_CONTENT_IDENTIFIER : Z).

Definition vault_get_user_data (fuel : nat) (secret_key : SecretKey) : CM W UserDataVaultError (option UserData) :=
  let! got := cm_map_err UDV_Vault (vault_get fuel secret_key) in
  match got with
  | None => cm_ret None
  | Some (content, content_type) =>
    if negb (content_type =? USER_DATA_VAULT_CONTENT_IDENTIFIER) then cm_err (UDV_UnsupportedVaultContentType content_type)
    else let! vault := cm_lift (ok_or (rmp_from_slice content) UDV_Serialization) in cm_ret (Some vault)
  end.

Definition vault_put_user_data (fuel : nat) (secret_key : SecretKey) (payment_option : PaymentOption) (user_data : UserData) : CM W UserDataVaultError (option Z) :=
  let! content := cm_lift (ok_or (rmp_to_vec user_data) UDV_Serialization) in
  cm_map_err UDV_Vault (vault_put fuel content payment_option secret_key USER_DATA_VAULT_CONTENT_IDENTIFIER).
End vault.

(** ** The key of a vault: key.rs *)

(** What it uses of the wallet's key, of sha2, blst and blsttc. *)
Class VaultKeys `{Bls} := {
  BlstSecretKey : Type;
  evm_sign_message : bytes → bytes → option bytes;
  vault_sha256 : bytes → bytes;
  blst_key_gen : bytes → bytes → option BlstSecretKey;
  blst_to_bytes : BlstSecretKey → bytes;
  bls_sk_from_bytes : bytes → option SecretKey;
}.

Inductive VaultKeyError := FailedToSignMessage | FailedToGenerateVaultSecretKey | BlsConversionError | KeyGenerationError.

Section vault_keys.
Context `{VaultKeys, Hex}.

Definition VAULT_SECRET_KEY_SEED : bytes := text "Massive Array of Internet Disks Secure Access For Everyone".

Definition derive_secret_key_from_seed (seed : bytes) : result BlstSecretKey VaultKeyError :=
  ok_or (blst_key_gen (vault_sha256 seed) []) KeyGenerationError.

Definition blst_to_blsttc (sk : BlstSecretKey) : result SecretKey VaultKeyError := ok_or (bls_sk_from_bytes (blst_to_bytes sk)) BlsConversionError.

Definition vault_derive_key (evm_sk_hex : bytes) : result SecretKey VaultKeyError :=
  (let? signature := ok_or (evm_sign_message evm_sk_hex VAULT_SECRET_KEY_SEED) FailedToSignMessage in
   let? blst_key := derive_secret_key_from_seed signature in
   blst_to_blsttc blst_key)%rust.

Definition vault_key_from_signature_hex (signature_hex : bytes) : result SecretKey VaultKeyError :=
  (let? signature_bytes := ok_or (hex_decode signature_hex) FailedToGenerateVaultSecretKey in
   let? blst_key := derive_secret_key_from_seed signature_bytes in
   blst_to_blsttc blst_key)%rust.
End vault_keys.
