(* ===== verification/VaultProps.v ===== *)
(** * Vaults are read back

    Of src/autonomi/src/client/high_level/vault: what is put into a vault is read back, unless the last
    piece fills its scratchpad. What the network promises is [VaultNetworkLaws], under which puts and
    payments may fail; keys derived from random indices are taken to be new ([KeyDraws]). *)

From stdpp Require Import base gmap countable strings list.
From Stdlib Require Import ZArith Lia.
From S2P Require Import Prelude Text Effects Protocol Storage RecordCache RecordStore MerkleTree MerkleTreeProps Payments PaymentsProps.
From S2P Require Import PutValidation PutValidationFacts PutValidationProps Messages Driver TaskHandler.
From S2P Require Import ClientPayment ClientData ClientDataProps ClientRegister ClientExamples ClientRegisterProps Encryption ClientUploadProps Vault.

(** ** What is promised *)

(** Encryption makes data longer by as many bytes as it takes. *)
Class BlsSizeLaws `{Bls} := {
  ct_overhead : nat;
  ct_length r pk m : length (ct_to_bytes (pk_encrypt r pk m)) = (length m + ct_overhead)%nat;
}.

Section laws.
Context `{XorNameLib, Hex, BlsOrdLaws, Layout, Kad, RmpHeaderLaws, Libp2pIdentity, Digests, HashOrder}.
Context `{BSer : !BodySerde, BLaws : !BodySerdeLaws}.

(** A put of a scratchpad that succeeds stores it, and a graph entry is stored under a free key; other requests leave the records. *)
Class VaultNetworkLaws (W : Type) `{!ClientWorld W, !Scheduler W, !RecordNetwork W} : Prop := {
  vault_reads :: RecordReadLaws W;
  quiet_closest a (w : W) : net_store (net_get_closest_peers_with_retries a w).2 = net_store w;
  quiet_quotes a i s (w : W) : net_store (net_get_quotes_with_retries a i s w).2 = net_store w;
  quiet_prices m (w : W) : net_store (evm_get_market_price m w).2 = net_store w;
  quiet_pay p (w : W) : net_store (evm_pay_for_quotes p w).2 = net_store w;
  quiet_random n (w : W) : net_store (random_bytes n w).2 = net_store w;
  quiet_completion n (w : W) : net_store (task_completion n w).2 = net_store w;
  completion_perm n (w : W) : (task_completion n w).1 ≡ₚ seq 0 n;
  put_pad_stores (s : Scratchpad) v targets (w w' : W) :
    try_serialize_record s (DataOnly Scratchpad_t) = Ok v ∨
    (∃ payment : ProofOfPayment, try_serialize_record (payment, s) (DataWithPayment Scratchpad_t) = Ok v) →
    net_put_record_with_retries Scratchpad_t (record_of (NA_ScratchpadAddress (sp_address s)) v) targets w = (Ok tt, w') →
    ∃ r, record_holds r (B_Scratchpad s) ∧ net_store w' = <[owner_record_key (scratchpad_owner s) := r]> (net_store w);
  put_entry_stores (g : GraphEntry) (payment : ProofOfPayment) v targets (w w' : W) :
    try_serialize_record (payment, g) (DataWithPayment GraphEntry_t) = Ok v → net_store w !! owner_record_key (ge_owner g) = None →
    net_put_record_with_retries GraphEntry_t (record_of (NA_GraphEntryAddress (graph_entry_address g)) v) targets w = (Ok tt, w') →
    ∃ r, record_holds r (B_GraphEntries [g]) ∧ net_store w' = <[owner_record_key (ge_owner g) := r]> (net_store w);
}.

(** Which record keys are spoken for. A key derived from the next random index is not, and then is; no step gives one up. *)
Class KeyDraws `{!BlsDerive} (W : Type) `{!ClientWorld W, !Scheduler W, !RecordNetwork W} (main : SecretKey) := {
  reserved : W → bytes → Prop;
  stored_reserved (w : W) k : is_Some (net_store w !! k) → reserved w k;
  draw_fresh (w : W) : ¬ reserved w (owner_record_key (sk_public_key (main_sk_derive_key main (random_bytes 32 w).1)));
  draw_reserved (w : W) : reserved (random_bytes 32 w).2 (owner_record_key (sk_public_key (main_sk_derive_key main (random_bytes 32 w).1)));
  keeps_random n (w : W) k : reserved w k → reserved (random_bytes n w).2 k;
  keeps_closest a (w : W) k : reserved w k → reserved (net_get_closest_peers_with_retries a w).2 k;
  keeps_put t r targets (w : W) k : reserved w k → reserved (net_put_record_with_retries t r targets w).2 k;
  keeps_quotes a i s (w : W) k : reserved w k → reserved (net_get_quotes_with_retries a i s w).2 k;
  keeps_prices m (w : W) k : reserved w k → reserved (evm_get_market_price m w).2 k;
  keeps_pay p (w : W) k : reserved w k → reserved (evm_pay_for_quotes p w).2 k;
  keeps_completion n (w : W) k : reserved w k → reserved (task_completion n w).2 k;
}.
End laws.

Section vault.
Context `{XorNameLib, Hex, BlsOrdLaws, Layout, Kad, RmpHeaderLaws, Libp2pIdentity, Digests, HashOrder}.
Context `{BSer : !BodySerde, BLaws : !BodySerdeLaws, !BlsLaws, !BlsSizeLaws, !BlsDerive}.
Context `{!ClientWorld W, !Scheduler W, !RecordNetwork W, !VaultNetworkLaws W}.
Context (payment_mode : PaymentMode) (evm_network : bytes) (max_content num_scratchpads : nat).
Context (main : SecretKey) `{!KeyDraws W main}.

Implicit Types (w : W) (st : gmap bytes KadRecord) (pads : list (PublicKey * bytes)).

(** The public key derived from an index, and its record key. *)
Definition pk_of (index : DerivationIndex) : PublicKey := sk_public_key (main_sk_derive_key main index).
Definition key_of (index : DerivationIndex) : bytes := owner_record_key (pk_of index).

(** ** Scratchpads *)

Lemma resolve_scratchpads_one address r (s : Scratchpad) : try_deserialize_record r = Ok s → resolve_scratchpads address [r] = Ok s.
Proof.
  intros Hs. unfold resolve_scratchpads, resolve_records_from_peers. simpl. rewrite Hs. simpl.
  rewrite filter_cons_True by done. change (filter _ []) with (@nil Scratchpad). change (group_contents _ [s]) with [(s, 1%nat)].
  assert (best_groups [(s, 1%nat)] = [s]) as -> by (unfold best_groups; by rewrite filter_cons_True).
  assert (hash_order (remove_dups [s]) = [s]) as ->; [|done]. apply Permutation_singleton_r. by rewrite hash_order_perm.
Qed.

Lemma held_pad_reads r (s : Scratchpad) : record_holds r (B_Scratchpad s) → try_deserialize_record r = Ok s ∧ scratchpad_verify s = Ok tt.
Proof.
  intros (v & Hs & Hr & _ & Hsig & Hsize). assert (rec_value r = v) as Hv by (by rewrite Hr). destruct (serialize_record_inv _ _ _ r Hs Hv) as [_ Hd].
  split; [done|]. unfold scratchpad_verify, scratchpad_is_too_big. rewrite Hsig. simpl. by destruct (Z.ltb_spec SCRATCHPAD_MAX_SIZE (scratchpad_size s)); [lia|].
Qed.

(** The key of an index holds a scratchpad with a content. *)
Definition holds_piece st (index : DerivationIndex) (content_type : Z) (content : bytes) : Prop :=
  ∃ r random counter, st !! key_of index = Some r ∧ record_holds r (B_Scratchpad (scratchpad_new random (main_sk_derive_key main index) content_type content counter)).

Lemma scratchpad_get_held w index content_type content :
  holds_piece (net_store w) index content_type content →
  ∃ s, scratchpad_get (mkScratchpadAddress (pk_of index)) w = (Ok s, w) ∧ sp_data_encoding s = content_type ∧
    scratchpad_decrypt_data s (main_sk_derive_key main index) = Ok content ∧ length (sp_encrypted_data s) = (length content + ct_overhead)%nat.
Proof.
  intros (r & random & counter & Hr & Hb). destruct (held_pad_reads _ _ Hb) as [Hd Hver]. eexists. split_and!.
  - unfold scratchpad_get, cm_bind, cm_try, cm_lift, cm_ret. rewrite net_get. change (to_record_key (NA_ScratchpadAddress (mkScratchpadAddress (pk_of index)))) with (key_of index).
    rewrite Hr. simpl. rewrite (resolve_scratchpads_one _ _ _ Hd), Hver. reflexivity.
  - done.
  - unfold scratchpad_decrypt_data. simpl. rewrite ct_roundtrip. simpl. by rewrite bls_decrypt.
  - apply ct_length.
Qed.

Lemma scratchpad_get_absent w index :
  net_store w !! key_of index = None → scratchpad_get (mkScratchpadAddress (pk_of index)) w = (Err (ScratchpadNotFound (mkScratchpadAddress (pk_of index))), w).
Proof.
  intros Hr. unfold scratchpad_get, cm_bind, cm_try, cm_lift. rewrite net_get. change (to_record_key (NA_ScratchpadAddress (mkScratchpadAddress (pk_of index)))) with (key_of index).
  by rewrite Hr.
Qed.

(** ** Steps that leave the records *)

(** Nothing is stored, and no key is given up. *)
Definition leaves {E A} (m : CM W E A) : Prop := ∀ w, net_store (m w).2 = net_store w ∧ ∀ k, reserved (main := main) w k → reserved (main := main) (m w).2 k.

Lemma leaves_ret {E A} (a : A) : leaves (E := E) (cm_ret a).
Proof. done. Qed.
Lemma leaves_err {E A} (e : E) : leaves (cm_err (A := A) e).
Proof. done. Qed.
Lemma leaves_lift {E A} (r : result A E) : leaves (cm_lift r).
Proof. done. Qed.
Lemma leaves_bind {E A B} (m : CM W E A) (k : A → CM W E B) : leaves m → (∀ a, leaves (k a)) → leaves (cm_bind m k).
Proof.
  intros Hm Hk w. unfold cm_bind. specialize (Hm w). destruct (m w) as [[a|e] w1]; simpl in *; [|done]. destruct (Hk a w1) as [Hs Hr], Hm as [Hs1 Hr1].
  split; [by rewrite Hs|auto].
Qed.
Lemma leaves_map_err {E E' A} (f : E → E') (m : CM W E A) : leaves m → leaves (cm_map_err f m).
Proof. intros Hm w. unfold cm_map_err. specialize (Hm w). by destruct (m w). Qed.

Lemma get_raw_quotes_leaves t addrs w :
  net_store (get_raw_quotes t addrs w).2 = net_store w ∧ ∀ k, reserved (main := main) w k → reserved (main := main) (get_raw_quotes t addrs w).2 k.
Proof.
  revert w. induction addrs as [|[a s] addrs IH]; intros w; simpl; [done|]. pose proof (quiet_quotes a (get_index t) s w) as Hq.
  pose proof (λ k, keeps_quotes (main := main) a (get_index t) s w k) as Hk. destruct (net_get_quotes_with_retries a (get_index t) s w) as [m w1].
  destruct (IH w1) as [Hs Hr]. destruct (get_raw_quotes t addrs w1). simpl in *. split; [by rewrite Hs|auto].
Qed.

Lemma batch_prices_leaves batches : leaves (batch_prices batches).
Proof.
  induction batches as [|b batches IH]; simpl; [apply leaves_ret|]. apply leaves_bind; [|intros ps; apply leaves_bind; [done|intros; apply leaves_ret]].
  intros w. pose proof (quiet_prices b w) as Hq. pose proof (λ k, keeps_prices (main := main) b w k) as Hk. by destruct (evm_get_market_price b w) as [[]].
Qed.

Lemma pay_leaves t addrs po : leaves (pay_for_content_addrs payment_mode evm_network t addrs po).
Proof.
  destruct po as [wallet|r]; [|apply leaves_ret]. simpl. unfold pay. case_bool_decide; [apply leaves_err|].
  apply leaves_bind; [apply leaves_map_err|intros q].
  - unfold get_store_quotes. apply leaves_bind; [|intros raws; apply leaves_bind; [apply leaves_lift|intros all; apply leaves_bind; [apply batch_prices_leaves|intros; apply leaves_lift]]].
    intros w. pose proof (get_raw_quotes_leaves t addrs w). by destruct (get_raw_quotes t addrs w).
  - apply leaves_bind; [|intros; apply leaves_ret]. destruct (decide (q = ∅)); [apply leaves_ret|apply leaves_map_err].
    intros w. split; [apply quiet_pay|intros k; apply keeps_pay].
Qed.

(** ** Writing pieces *)

Abbreviation reserved_by w := (reserved (main := main) w).

(** A scratchpad is stored, and no key given up. *)
Definition stores_pad (s : Scratchpad) w w' : Prop :=
  (∃ r, record_holds r (B_Scratchpad s) ∧ net_store w' = <[owner_record_key (scratchpad_owner s) := r]> (net_store w)) ∧ ∀ k, reserved_by w k → reserved_by w' k.

Lemma stores_pad_from s w0 w w' : net_store w = net_store w0 → (∀ k, reserved_by w0 k → reserved_by w k) → stores_pad s w w' → stores_pad s w0 w'.
Proof. intros Hst Hres [Hs Hr]. unfold stores_pad. rewrite <- Hst. split; [done|auto]. Qed.

Lemma put_pad_ok (s : Scratchpad) v targets w w' :
  try_serialize_record s (DataOnly Scratchpad_t) = Ok v ∨ (∃ payment : ProofOfPayment, try_serialize_record (payment, s) (DataWithPayment Scratchpad_t) = Ok v) →
  net_put_record_with_retries Scratchpad_t (record_of (NA_ScratchpadAddress (sp_address s)) v) targets w = (Ok tt, w') → stores_pad s w w'.
Proof.
  intros Hv Hput. split; [by eapply put_pad_stores|]. intros k Hk. pose proof (keeps_put (main := main) Scratchpad_t (record_of (NA_ScratchpadAddress (sp_address s)) v) targets w k Hk) as Hr.
  by rewrite Hput in Hr.
Qed.

(** What is put, with or without a proof of payment, and to whom. *)
Lemma pad_record_targets (s : Scratchpad) proof w rt w1 :
  record_and_targets ScratchpadSerialization ScratchpadPutError Scratchpad_t (NA_ScratchpadAddress (sp_address s)) s proof w = (Ok rt, w1) →
  ∃ v, rt.1 = record_of (NA_ScratchpadAddress (sp_address s)) v ∧
    (try_serialize_record s (DataOnly Scratchpad_t) = Ok v ∨ ∃ payment : ProofOfPayment, try_serialize_record (payment, s) (DataWithPayment Scratchpad_t) = Ok v) ∧
    net_store w1 = net_store w ∧ ∀ k, reserved_by w k → reserved_by w1 k.
Proof.
  unfold record_and_targets, cm_bind, cm_lift, cm_map_err, cm_ret. destruct proof as [p|].
  - destruct (try_serialize_record (to_proof_of_payment p, s) _) as [v|] eqn:Hv; [|done]. intros [= <- <-]. exists v. split_and!; eauto.
  - destruct (try_serialize_record s _) as [v|] eqn:Hv; [|done]. simpl. pose proof (quiet_closest (NA_ScratchpadAddress (sp_address s)) w) as Hq.
    pose proof (λ k, keeps_closest (main := main) (NA_ScratchpadAddress (sp_address s)) w k) as Hk.
    destruct (net_get_closest_peers_with_retries _ w) as [[peers|] w2]; [|done]. intros [= <- <-]. exists v. split_and!; eauto.
Qed.

Lemma scratchpad_put_stores (s : Scratchpad) po w x w' : scratchpad_put payment_mode evm_network s po w = (Ok x, w') → stores_pad s w w'.
Proof.
  unfold scratchpad_put. unfold cm_bind at 1, cm_lift. destruct (scratchpad_verify s) as [[]|]; [|done].
  unfold cm_bind at 1, cm_map_err at 1. destruct (pay_leaves Scratchpad_t [(scratchpad_address_xorname (sp_address s), scratchpad_size s)] po w) as [Hs1 Hr1].
  destruct (pay_for_content_addrs _ _ _ _ _ w) as [[receipt|] w1]; [|done]. cbn [map_err]. simpl in Hs1, Hr1. unfold cm_bind at 1.
  destruct (record_and_targets _ _ _ _ _ _ w1) as [[rt|] w2] eqn:Ert; [|done]. destruct (pad_record_targets _ _ _ _ _ Ert) as (v & Hv & Hser & Hs2 & Hr2).
  unfold cm_bind, cm_map_err. rewrite Hv. destruct (net_put_record_with_retries _ _ _ w2) as [[[]|] w3] eqn:Eput; [|done]. intros [= _ <-].
  eapply stores_pad_from; [| |by eapply put_pad_ok]; [by rewrite Hs2|auto].
Qed.

Lemma scratchpad_put_update_stores (s : Scratchpad) w x w' : scratchpad_put_update s w = (Ok x, w') → stores_pad s w w'.
Proof.
  unfold scratchpad_put_update. unfold cm_bind at 1, cm_lift. destruct (scratchpad_verify s) as [[]|]; [|done]. unfold cm_bind at 1.
  destruct (record_and_targets _ _ _ _ _ _ w) as [[rt|] w2] eqn:Ert; [|done]. destruct (pad_record_targets _ _ _ _ _ Ert) as (v & Hv & Hser & Hs2 & Hr2).
  unfold cm_map_err. rewrite Hv. destruct (net_put_record_with_retries _ _ _ w2) as [[[]|] w3] eqn:Eput; [|done]. intros [= _ <-].
  eapply stores_pad_from; [| |by eapply put_pad_ok]; [by rewrite Hs2|auto].
Qed.

Lemma scratchpad_get_leaves address : leaves (scratchpad_get address).
Proof.
  intros w. unfold scratchpad_get, cm_bind, cm_try, cm_lift, cm_ret. rewrite net_get. destruct (match _ with Some _ => _ | None => _ end) as [s|e]; [|done].
  by destruct (scratchpad_verify s).
Qed.

Lemma new_random_leaves owner ct content counter w s w1 :
  scratchpad_new_random owner ct content counter w = (Ok s, w1) → (∃ random, s = scratchpad_new random owner ct content counter) ∧
  net_store w1 = net_store w ∧ ∀ k, reserved_by w k → reserved_by w1 k.
Proof.
  unfold scratchpad_new_random. pose proof (quiet_random 32 w) as Hq. pose proof (λ k, keeps_random (main := main) 32 w k) as Hk.
  destruct (random_bytes 32 w) as [b w2]. intros [= <- <-]. eauto.
Qed.

(** A piece that was written is in its scratchpad. *)
Definition stores_piece (index : DerivationIndex) ct content w w' : Prop :=
  ∃ random counter, stores_pad (scratchpad_new random (main_sk_derive_key main index) ct content counter) w w'.

Lemma write_piece_stores po ct content pk index w price w' :
  vault_write_piece payment_mode evm_network po ct main (content, (pk, index)) w = (Ok price, w') → stores_piece index ct content w w'.
Proof.
  unfold vault_write_piece. set (sk := main_sk_derive_key main index). unfold cm_bind at 1, cm_map_err at 1, scratchpad_check_existence, check_existence, cm_bind at 1, cm_try at 1.
  rewrite net_get_one. destruct (net_store w !! _) as [r0|]; cbn [cm_ret map_err].
  - unfold cm_bind at 1, cm_map_err. unfold client_scratchpad_update, cm_bind at 1, cm_try. destruct (scratchpad_get_leaves (mkScratchpadAddress (sk_public_key sk)) w) as [Hs1 Hr1].
    destruct (scratchpad_get _ w) as [got w1]. simpl in Hs1, Hr1. intros Hrun.
    assert (∃ current w2, net_store w2 = net_store w ∧ (∀ k, reserved_by w k → reserved_by w2 k) ∧ ∃ x, scratchpad_update_from current sk ct content w2 = (Ok x, w')) as (cur & w2 & Hs2 & Hr2 & x & Hup).
    { destruct got as [cur|[]]; try done; [|destruct (max_by_key sp_counter scratchpads) as [cur|]; [|done]].
      all: exists cur, w1; split; [done|split; [done|]]. all: unfold cm_bind, cm_ret in Hrun.
      all: destruct (scratchpad_update_from cur sk ct content w1) as [[x|e] w3]; [|done]; exists x; by injection Hrun as _ <-. }
    unfold scratchpad_update_from, cm_bind in Hup. destruct (scratchpad_new_random _ _ _ _ w2) as [[s|] w3] eqn:Es; [|done].
    destruct (new_random_leaves _ _ _ _ _ _ _ Es) as ([random ->] & Hs3 & Hr3). destruct (scratchpad_put_update _ w3) as [[[]|] w4] eqn:Ep; [|done].
    injection Hup as _ <-. exists random, (next_counter (sp_counter cur)). eapply stores_pad_from; [| |by eapply scratchpad_put_update_stores]; [by rewrite Hs3|auto].
  - unfold cm_bind at 1, cm_map_err. unfold scratchpad_create, scratchpad_check_existence, check_existence, cm_bind at 1 2, cm_try. rewrite net_get_one.
    destruct (net_store w !! _); cbn [cm_ret]; [done|]. unfold cm_bind. destruct (scratchpad_new_random _ _ _ _ w) as [[s|] w1] eqn:Es; [|done].
    destruct (new_random_leaves _ _ _ _ _ _ _ Es) as ([random ->] & Hs1 & Hr1). destruct (scratchpad_put _ _ _ _ w1) as [[x|] w2] eqn:Ep; [|done].
    intros [= _ <-]. exists random, 0. eapply stores_pad_from; [done|done|]. by eapply scratchpad_put_stores.
Qed.

Abbreviation write_piece po ct := (vault_write_piece payment_mode evm_network po ct main).

(** The record key of a piece. *)
Definition piece_key (x : bytes * (PublicKey * bytes)) : bytes := key_of x.2.2.

Definition all_ok {A E} (rs : list (result A E)) : Prop := Forall (λ r, ∃ a, r = Ok a) rs.

(** Pieces with different keys are all in place when each was written. *)
Definition pieces_written ct (items : list (bytes * (PublicKey * bytes))) w w' : Prop :=
  (∀ x, x ∈ items → holds_piece (net_store w') x.2.2 ct x.1) ∧ (∀ k, k ∉ piece_key <$> items → net_store w' !! k = net_store w !! k) ∧
  ∀ k, reserved_by w k → reserved_by w' k.

Lemma run_pieces po ct items w rs w' :
  run_tasks (write_piece po ct <$> items) w = (rs, w') → all_ok rs → NoDup (piece_key <$> items) → pieces_written ct items w w'.
Proof.
  revert w rs. induction items as [|[content [pk index]] items IH]; intros w rs; [intros [= <- <-] _ _; split_and!; [set_solver|done..]|].
  rewrite !fmap_cons. cbn [run_tasks]. destruct (write_piece po ct (content, (pk, index)) w) as [r w1] eqn:Ew.
  destruct (run_tasks _ w1) as [rs' w2] eqn:Er. intros [= <- <-] [[price ->] Hok]%Forall_cons [Hk Hnd]%NoDup_cons.
  destruct (write_piece_stores _ _ _ _ _ _ _ _ Ew) as (random & counter & (r & Hr & Hst) & Hres). destruct (IH _ _ Er Hok Hnd) as (Hin & Hout & Hres2).
  change (owner_record_key (scratchpad_owner (scratchpad_new random (main_sk_derive_key main index) ct content counter))) with (key_of index) in Hst.
  change (piece_key (content, (pk, index))) with (key_of index) in *. split_and!.
  - intros x [->|Hx]%elem_of_cons; [|by apply Hin]. exists r, random, counter. split; [|done]. simpl. rewrite Hout by done. by rewrite Hst, lookup_insert_eq.
  - intros k Hn. rewrite Hout by set_solver. rewrite Hst, lookup_insert_ne; [done|]. set_solver.
  - auto.
Qed.

Lemma process_pieces po ct items w rs w' :
  process_tasks_with_max_concurrency (write_piece po ct <$> items) w = (rs, w') → all_ok rs → NoDup (piece_key <$> items) → pieces_written ct items w w'.
Proof.
  unfold process_tasks_with_max_concurrency. pose proof (completion_perm (length (write_piece po ct <$> items)) w) as Hperm.
  pose proof (quiet_completion (length (write_piece po ct <$> items)) w) as Hq. pose proof (λ k, keeps_completion (main := main) (length (write_piece po ct <$> items)) w k) as Hk.
  destruct (task_completion _ w) as [order w1]. simpl in Hperm, Hq, Hk. rewrite length_fmap in Hperm.
  set (selected := omap _ order). assert (selected = write_piece po ct <$> omap (λ i, items !! i) order) as ->.
  { unfold selected. rewrite list_fmap_omap. apply list_omap_ext, Forall_Forall2_diag, Forall_true. intros i. apply list_lookup_fmap. }
  pose proof (select_all items order Hperm) as Hsel. intros Hrun Hok Hnd.
  destruct (run_pieces _ _ _ _ _ _ Hrun Hok) as (Hin & Hout & Hres); [by rewrite Hsel|].
  split_and!; [intros x Hx; apply Hin; by rewrite Hsel|intros k Hn; rewrite Hout by (by rewrite Hsel); by rewrite Hq|auto].
Qed.

Lemma sum_prices_ok rs cost total : sum_prices rs cost = Ok total → all_ok rs.
Proof.
  revert cost. induction rs as [|[[p|]|e] rs IH]; intros cost; simpl; [constructor|..|done]; intros Hs; (constructor; [eauto|by eapply IH]).
Qed.

(** ** The chain of graph entries *)

(** Entries with their indices and their scratchpads, from an index on; [next] is the index of the entry to come. *)
Fixpoint vault_chain st (index : DerivationIndex) (entries : list (DerivationIndex * list (PublicKey * bytes))) (next : DerivationIndex) : Prop :=
  match entries with
  | [] => index = next
  | (i, pads) :: rest =>
    i = index ∧ ∃ g nxt, holds_entry st (pk_of index) g ∧ ge_descendants g = (pk_of nxt, nxt) :: pads ∧ (num_scratchpads ≤ length pads)%nat ∧
      Forall (λ p, p.1 = pk_of p.2) pads ∧ vault_chain st nxt rest next
  end.

Definition vault_pads (entries : list (DerivationIndex * list (PublicKey * bytes))) : list (PublicKey * bytes) := concat entries.*2.

(** The indices of the entries, of the next one, and of the scratchpads. *)
Definition vault_indices (entries : list (DerivationIndex * list (PublicKey * bytes))) (next : DerivationIndex) : list DerivationIndex :=
  entries.*1 ++ next :: (vault_pads entries).*2.

Record is_vault w (entries : list (DerivationIndex * list (PublicKey * bytes))) (next : DerivationIndex) : Prop := {
  iv_chain : vault_chain (net_store w) VAULT_HEAD_DERIVATION_INDEX entries next;
  iv_free : net_store w !! key_of next = None;
  iv_nodup : NoDup (key_of <$> vault_indices entries next);
  iv_reserved : ∀ i, i ∈ vault_indices entries next → reserved_by w (key_of i);
}.

Lemma vault_chain_app st index l k next : vault_chain st index (l ++ k) next ↔ ∃ mid, vault_chain st index l mid ∧ vault_chain st mid k next.
Proof.
  revert index. induction l as [|[i pads] l IH]; intros index; simpl; [split; [intros Hc; by exists index|by intros (mid & -> & Hc)]|]. split.
  - intros (-> & g & nxt & Hg & Hd & Hn & Hp & (mid & Hl & Hk)%IH). exists mid. split; [|done]. split; [done|]. by exists g, nxt.
  - intros (mid & (-> & g & nxt & Hg & Hd & Hn & Hp & Hl) & Hk). split; [done|]. exists g, nxt. split_and!; [done..|]. apply IH. by exists mid.
Qed.

(** The chain is not touched by writes elsewhere. *)
Lemma vault_chain_keep st st' index entries next :
  (∀ i, i ∈ entries.*1 → st' !! key_of i = st !! key_of i) → vault_chain st index entries next → vault_chain st' index entries next.
Proof.
  revert index. induction entries as [|[i pads] entries IH]; intros index Hsame; simpl; [done|].
  intros (-> & g & nxt & (r & Hr & Hb) & Hrest). split; [done|]. exists g, nxt. split; [exists r; split; [|done]; fold (key_of index); rewrite Hsame by (simpl; set_solver); exact Hr|].
  destruct Hrest as (Hd & Hn & Hp & Hc). split_and!; [done..|]. apply IH; [|done]. intros j Hj. apply Hsame. simpl. set_solver.
Qed.

Lemma claimed_spec fuel index entries next acc w :
  vault_chain (net_store w) index entries next → net_store w !! key_of next = None →
  vault_claimed_capacity num_scratchpads fuel main index acc w =
  (Ok (if (fuel <=? length entries)%nat then None else Some (next, acc ++ vault_pads entries)), w).
Proof.
  revert fuel index acc. induction entries as [|[i pads] entries IH]; intros fuel index acc; simpl.
  - intros -> Hfree. destruct fuel as [|fuel]; [done|]. cbn [vault_claimed_capacity]. unfold cm_bind, cm_try. fold (pk_of next).
    rewrite (graph_entry_get_absent _ _ Hfree). by rewrite app_nil_r.
  - intros (-> & g & nxt & Hg & Hd & Hn & Hp & Hc) Hfree. destruct fuel as [|fuel]; [done|]. cbn [vault_claimed_capacity]. unfold cm_bind, cm_try. fold (pk_of index).
    rewrite (graph_entry_get_held _ _ _ Hg), Hd. rewrite (proj2 (Nat.leb_gt _ _)) by (simpl; lia).
    rewrite (IH _ _ _ Hc Hfree). by rewrite <- app_assoc.
Qed.

(** ** Capacity *)

(** Keys drawn at random are new and different. *)
Lemma random_descendants_spec {E} n w ds w1 :
  random_descendants (E := E) n main w = (Ok ds, w1) →
  length ds = n ∧ Forall (λ d, d.1 = pk_of d.2) ds ∧ net_store w1 = net_store w ∧ (∀ k, reserved_by w k → reserved_by w1 k) ∧
  NoDup (key_of <$> ds.*2) ∧ (∀ d, d ∈ ds → ¬ reserved_by w (key_of d.2)) ∧ ∀ d, d ∈ ds → reserved_by w1 (key_of d.2).
Proof.
  revert w ds. induction n as [|n IH]; intros w ds; cbn [random_descendants]; [intros [= <- <-]; split_and!; try done; [constructor|set_solver..]|].
  unfold cm_bind at 1, random_descendant, cm_bind at 1, random_index, cm_ret at 1. pose proof (quiet_random 32 w) as Hq. pose proof (λ k, keeps_random (main := main) 32 w k) as Hk.
  pose proof (draw_fresh (main := main) w) as Hfresh. pose proof (draw_reserved (main := main) w) as Hdrawn. destruct (random_bytes 32 w) as [b w2]. simpl in *.
  fold (pk_of b) in *. fold (key_of b) in *. unfold cm_bind. destruct (random_descendants n main w2) as [[ds'|] w3] eqn:Er; [|done]. intros [= <- <-].
  destruct (IH _ _ Er) as (Hlen & Hpk & Hst & Hres & Hnd & Hnew & Hin). split_and!.
  - simpl. lia.
  - by constructor.
  - by rewrite Hst.
  - auto.
  - rewrite !fmap_cons. constructor; [|done]. intros (i & Hi & (d & -> & Hd)%list_elem_of_fmap)%list_elem_of_fmap. simpl in Hi. apply (Hnew d Hd). rewrite Hi in Hdrawn. exact Hdrawn.
  - intros d [->|Hd]%elem_of_cons; [done|]. intros Hr. apply (Hnew d Hd). auto.
  - intros d [->|Hd]%elem_of_cons; [auto|by apply Hin].
Qed.

Lemma vault_indices_snoc entries i pads next :
  vault_indices (entries ++ [(i, pads)]) next ≡ₚ vault_indices entries i ++ next :: pads.*2.
Proof.
  unfold vault_indices, vault_pads. rewrite !fmap_app, concat_app. simpl. rewrite app_nil_r, fmap_app. rewrite <- !app_assoc. simpl.
  apply Permutation_app_head. constructor. by rewrite Permutation_middle.
Qed.

Lemma expand_spec entries next po w n' pads cost w' :
  is_vault w entries next → vault_expand_capacity payment_mode evm_network num_scratchpads main next po w = (Ok (n', pads, cost), w') →
  is_vault w' (entries ++ [(next, pads)]) n' ∧ length pads = num_scratchpads ∧ (∀ k, k ≠ key_of next → net_store w' !! k = net_store w !! k) ∧
  ∀ p, p ∈ pads → net_store w' !! key_of p.2 = None.
Proof.
  intros [Hc Hfree Hnd Hres]. unfold vault_expand_capacity.
  assert (∀ E, cm_bind (random_descendant (E := E) main) (λ d, cm_bind (random_descendants num_scratchpads main) (λ ds, cm_ret (d :: ds))) = random_descendants (S num_scratchpads) main) as Hdraw by done.
  unfold cm_bind at 1. destruct (random_descendant main w) as [[first|e] w1] eqn:E1; [|done].
  unfold cm_bind at 1. destruct (random_descendants num_scratchpads main w1) as [[ds|e] w2] eqn:E2; [|done].
  destruct (random_descendants_spec (E := VaultError) (S num_scratchpads) w (first :: ds) w2) as (Hlen & Hpk & Hst & Hr & Hnd2 & Hnew & Hin).
  { rewrite <- Hdraw. unfold cm_bind. by rewrite E1, E2. }
  clear Hdraw E1 E2. set (g := graph_entry_new _ _ _ _). unfold cm_bind, cm_map_err, graph_entry_put, cm_bind, cm_map_err.
  destruct (pay_leaves GraphEntry_t [(graph_address_xorname (graph_entry_address g), graph_entry_size g)] po w2) as [Hs3 Hr3].
  destruct (pay_for_content_addrs _ _ _ _ _ w2) as [[receipt|] w3]; [|done]. simpl in Hs3, Hr3. cbn [map_err].
  destruct (receipt.1 !! _) as [[proof price]|]; [|done]. unfold cm_lift. destruct (try_serialize_record _ _) as [v|] eqn:Ev; [|done]. cbn [map_err].
  pose proof (λ k, keeps_put (main := main) GraphEntry_t (record_of (NA_GraphEntryAddress (graph_entry_address g)) v) (payee_infos proof) w3 k) as Hr4.
  destruct (net_put_record_with_retries _ _ _ w3) as [[[]|] w4] eqn:Ep; [|done]. intros [= <- <- _ <-]. simpl in Hr4.
  destruct (put_entry_stores g _ _ _ _ _ Ev ltac:(rewrite Hs3, Hst; exact Hfree) Ep) as (r & Hb & Hst4).
  change (owner_record_key (ge_owner g)) with (key_of next) in Hst4. rewrite Hs3, Hst in Hst4. apply Forall_cons in Hpk as [Hpk1 Hpk]. simpl in Hlen.
  assert (∀ d, d ∈ first :: ds → key_of d.2 ∉ key_of <$> vault_indices entries next) as Hdisj.
  { intros d Hd (i & Hi & Hin')%list_elem_of_fmap. apply (Hnew d Hd). rewrite Hi. by apply Hres. }
  split_and!; [|lia|intros k Hk; by rewrite Hst4, lookup_insert_ne|].
  2: { intros p Hp. rewrite Hst4, lookup_insert_ne; [|intros E; apply (Hdisj p); [by right|]; rewrite <- E; apply list_elem_of_fmap_2; unfold vault_indices; set_solver].
       apply eq_None_not_Some. intros Hs. apply (Hnew p); [by right|]. by eapply stored_reserved. }
  assert (∀ k, reserved_by w k → reserved_by w4 k) as Hrall by auto.
  split.
  - apply vault_chain_app. exists next. split.
    + eapply vault_chain_keep; [|exact Hc]. intros i Hi. rewrite Hst4. apply lookup_insert_ne. intros E. unfold vault_indices in Hnd. rewrite fmap_app in Hnd.
      apply NoDup_app in Hnd as (_ & Hd & _). apply (Hd (key_of i)); [by apply list_elem_of_fmap_2|]. rewrite <- E, fmap_cons. left.
    + split; [done|]. exists g, first.2. split_and!; [|destruct first as [fp fi]; cbn in Hpk1; subst fp; done|simpl; lia|done|done].
      exists r. split; [|done]. fold (key_of next). by rewrite Hst4, lookup_insert_eq.
  - rewrite Hst4, lookup_insert_ne; [|intros E; apply (Hdisj first); [left|]; apply list_elem_of_fmap; exists next; split; [symmetry; exact E|unfold vault_indices; set_solver]].
    apply eq_None_not_Some. intros Hs. apply (Hnew first); [left|]. by eapply stored_reserved.
  - rewrite vault_indices_snoc, fmap_app. apply NoDup_app. split; [done|]. split; [|exact Hnd2]. intros k Hk1 (i & -> & Hi)%list_elem_of_fmap.
    change (first.2 :: ds.*2) with ((first :: ds).*2) in Hi. apply list_elem_of_fmap in Hi as (d & -> & Hd). by apply (Hdisj d Hd).
  - intros i Hi. rewrite vault_indices_snoc in Hi. apply elem_of_app in Hi as [Hi|Hi]; [by apply Hrall, Hres|].
    change (first.2 :: ds.*2) with ((first :: ds).*2) in Hi. apply list_elem_of_fmap in Hi as (d & -> & Hd). auto.
Qed.

(** The keys of scratchpads are not that of the next entry, nor those of the entries. *)
Lemma pad_key_not_next w entries next p : is_vault w entries next → p ∈ vault_pads entries → key_of p.2 ≠ key_of next ∧ key_of p.2 ∉ key_of <$> entries.*1.
Proof.
  intros [_ _ Hnd _] Hp. unfold vault_indices in Hnd. rewrite fmap_app, fmap_cons in Hnd. apply NoDup_app in Hnd as (_ & Hd & [Hn _]%NoDup_cons).
  assert (key_of p.2 ∈ key_of <$> (vault_pads entries).*2) as Hk by (by apply list_elem_of_fmap_2, list_elem_of_fmap_2). split; [intros E; apply Hn; by rewrite <- E|].
  intros Hin. apply (Hd _ Hin). by right.
Qed.

Lemma vault_pads_snoc entries i pads : vault_pads (entries ++ [(i, pads)]) = vault_pads entries ++ pads.
Proof. unfold vault_pads. rewrite fmap_app, concat_app. simpl. by rewrite app_nil_r. Qed.

Lemma claim_spec fuel entries next po pieces cost w pads total w' :
  is_vault w entries next →
  claim_capacity payment_mode evm_network num_scratchpads fuel main po pieces next (vault_pads entries) cost w = (Ok (Some (pads, total)), w') →
  ∃ more next', is_vault w' (entries ++ more) next' ∧ pads = vault_pads (entries ++ more) ∧ (pieces ≤ length pads)%nat ∧
    (∀ p, p ∈ vault_pads entries → net_store w' !! key_of p.2 = net_store w !! key_of p.2) ∧ ∀ p, p ∈ vault_pads more → net_store w' !! key_of p.2 = None.
Proof.
  revert entries next cost w. induction fuel as [|fuel IH]; intros entries next cost w Hv; cbn [claim_capacity]; (destruct (Nat.leb_spec pieces (length (vault_pads entries))) as [Hle|Hlt];
    [intros [= <- _ <-]; exists [], next; rewrite app_nil_r; split_and!; [done..|set_solver]|]); [done|].
  unfold cm_bind. destruct (vault_expand_capacity _ _ _ _ _ _ w) as [[[[n' new] c]|e] w1] eqn:Ex; [|done].
  destruct (expand_spec _ _ _ _ _ _ _ _ Hv Ex) as (Hv1 & Hlen & Hst & Habs). intros Hrun.
  rewrite <- (vault_pads_snoc _ next) in Hrun. destruct (IH _ _ _ _ Hv1 Hrun) as (more & next' & Hv2 & Hpads & Hle & Hkeep & Habs2). rewrite <- app_assoc in Hv2, Hpads.
  rewrite vault_pads_snoc in Hkeep. exists ([(next, new)] ++ more), next'. split_and!; [done|done|done| |].
  - intros p Hp. rewrite Hkeep by set_solver. apply Hst. by eapply pad_key_not_next.
  - intros p. unfold vault_pads. simpl. rewrite elem_of_app. intros [Hp|Hp]; [|by apply Habs2]. rewrite Hkeep by set_solver. by apply Habs.
Qed.

(** ** Reading *)

(** A piece that makes its scratchpad look full. *)
Definition full (content : bytes) : Prop := (max_content ≤ length content + ct_overhead)%nat.

(** The pieces are in the scratchpads, one after the other. *)
Definition pads_hold st ct (contents : list bytes) pads : Prop := ∀ i c (p : PublicKey * bytes), contents !! i = Some c → pads !! i = Some p → holds_piece st p.2 ct c.

Lemma pads_hold_cons st ct c contents p pads : pads_hold st ct (c :: contents) (p :: pads) → holds_piece st p.2 ct c ∧ pads_hold st ct contents pads.
Proof. intros Hh. split; [by apply (Hh 0%nat)|]. intros i. apply (Hh (S i)). Qed.

Abbreviation fetch := (fetch_scratchpads_of_one_graph_entry_and_decrypt max_content main).

Lemma fetch_one w ct c p pads acc ct0 :
  holds_piece (net_store w) p.2 ct c → p.1 = pk_of p.2 →
  fetch (p :: pads) acc ct0 w = if (length c + ct_overhead <? max_content)%nat then (Ok (concat (acc ++ [c]), ct, true), w) else fetch pads (acc ++ [c]) ct w.
Proof.
  intros Hh Hp. destruct p as [pk index]. simpl in Hh, Hp. subst pk. destruct (scratchpad_get_held _ _ _ _ Hh) as (s & Hget & Hct & Hdec & Hlen).
  cbn [fetch_scratchpads_of_one_graph_entry_and_decrypt]. unfold cm_bind at 1, cm_map_err. rewrite Hget. cbn [map_err]. unfold cm_bind, cm_lift. rewrite Hdec. cbn [map_err].
  rewrite Hlen, Hct. by destruct (_ <? _)%nat.
Qed.

Lemma fetch_full w ct contents pads acc ct0 :
  pads_hold (net_store w) ct contents pads → Forall (λ p, p.1 = pk_of p.2) pads → Forall full contents → (length contents ≤ length pads)%nat →
  ∃ ct', fetch pads acc ct0 w = fetch (drop (length contents) pads) (acc ++ contents) ct' w.
Proof.
  revert pads acc ct0. induction contents as [|c contents IH]; intros pads acc ct0 Hh Hpk Hfull Hlen; [exists ct0; by rewrite app_nil_r|].
  destruct pads as [|p pads]; [simpl in Hlen; lia|]. apply pads_hold_cons in Hh as [Hc Hh]. apply Forall_cons in Hpk as [Hp Hpk]. apply Forall_cons in Hfull as [Hf Hfull].
  rewrite (fetch_one _ _ _ _ _ _ _ Hc Hp). destruct (Nat.ltb_spec (length c + ct_overhead) max_content); [unfold full in Hf; lia|].
  simpl in Hlen. destruct (IH pads (acc ++ [c]) ct Hh Hpk Hfull ltac:(lia)) as [ct' Hct]. exists ct'. rewrite Hct, <- app_assoc. done.
Qed.

Lemma pads_hold_take st ct contents pads n : pads_hold st ct contents pads → pads_hold st ct (take n contents) pads.
Proof. intros Hh i c p [Hi _]%lookup_take_Some Hp. by eapply Hh. Qed.

Lemma pads_hold_drop st ct contents pads rest : pads_hold st ct contents (pads ++ rest) → pads_hold st ct (drop (length pads) contents) rest.
Proof. intros Hh i c p Hi Hp. rewrite lookup_drop in Hi. eapply Hh; [exact Hi|]. rewrite lookup_app_r by apply Nat.le_add_r. by replace (length pads + i - length pads)%nat with i by lia. Qed.

Lemma pads_hold_app_l st ct contents pads rest : pads_hold st ct contents (pads ++ rest) → pads_hold st ct contents pads.
Proof. intros Hh i c p Hi Hp. eapply Hh; [exact Hi|]. rewrite lookup_app_l; [done|]. by eapply lookup_lt_Some. Qed.

Abbreviation get_loop := (vault_get_loop max_content).

(** An entry of the chain is read, then its scratchpads. *)
Lemma get_loop_step fuel index pads entries next acc w :
  vault_chain (net_store w) index ((index, pads) :: entries) next →
  ∃ nxt, vault_chain (net_store w) nxt entries next ∧ Forall (λ p, p.1 = pk_of p.2) pads ∧
    get_loop (S fuel) main (mkGraphEntryAddress (pk_of index)) acc w =
    cm_bind (fetch pads [] 0) (λ '(d, ct, is_end), if is_end : bool then cm_ret (Some (concat (acc ++ [d]), ct)) else get_loop fuel main (mkGraphEntryAddress (pk_of nxt)) (acc ++ [d])) w.
Proof.
  intros (_ & g & nxt & Hg & Hd & _ & Hpk & Hc). exists nxt. split_and!; [done..|]. cbn [vault_get_loop]. unfold cm_bind at 1, cm_map_err.
  rewrite (graph_entry_get_held _ _ _ Hg). cbn [map_err]. rewrite Hd. unfold cm_bind. destruct (fetch pads [] 0 w) as [[[[d ct] []]|e] w1]; done.
Qed.

(** The scratchpads of an entry that the pieces go beyond are read. *)
Lemma get_loop_full fuel index pads entries next acc w ct contents :
  vault_chain (net_store w) index ((index, pads) :: entries) next → pads_hold (net_store w) ct contents (pads ++ vault_pads entries) →
  Forall full (take (length pads) contents) → (length pads ≤ length contents)%nat →
  ∃ nxt, vault_chain (net_store w) nxt entries next ∧ pads_hold (net_store w) ct (drop (length pads) contents) (vault_pads entries) ∧
    get_loop (S fuel) main (mkGraphEntryAddress (pk_of index)) acc w =
    get_loop fuel main (mkGraphEntryAddress (pk_of nxt)) (acc ++ [concat (take (length pads) contents)]) w.
Proof.
  intros Hc Hh Hfull Hlen. destruct (get_loop_step fuel _ _ _ _ acc w Hc) as (nxt & Hc' & Hpk & Hstep). exists nxt. split_and!; [done|by eapply pads_hold_drop|].
  rewrite Hstep. unfold cm_bind. destruct (fetch_full w ct (take (length pads) contents) pads [] 0) as [ct' Hf];
    [by eapply pads_hold_take, pads_hold_app_l|done|done|rewrite length_take; lia|]. rewrite Hf, length_take, Nat.min_l, drop_all by lia. done.
Qed.

Lemma get_loop_reads fuel index entries next acc w ct front l :
  vault_chain (net_store w) index entries next → pads_hold (net_store w) ct (front ++ [l]) (vault_pads entries) →
  Forall full front → ¬ full l → (length front < length (vault_pads entries))%nat → (length entries ≤ fuel)%nat →
  get_loop fuel main (mkGraphEntryAddress (pk_of index)) acc w = (Ok (Some (concat acc ++ concat (front ++ [l]), ct)), w).
Proof.
  revert fuel index acc front. induction entries as [|[i pads] entries IH]; intros fuel index acc front Hc Hh Hfull Hl Hlen Hfuel; [unfold vault_pads in Hlen; simpl in Hlen; lia|].
  destruct fuel as [|fuel]; [simpl in Hfuel; lia|]. pose proof Hc as [-> _]. change (vault_pads ((index, pads) :: entries)) with (pads ++ vault_pads entries) in *.
  rewrite length_app in Hlen. destruct (Nat.lt_ge_cases (length front) (length pads)) as [Hlt|Hge].
  - destruct (get_loop_step fuel _ _ _ _ acc w Hc) as (nxt & _ & Hpk & ->). unfold cm_bind.
    destruct (fetch_full w ct front pads [] 0) as [ct' Hf]; [|done|done|lia|].
    { apply pads_hold_app_l in Hh. apply (pads_hold_take _ _ _ _ (length front)) in Hh. by rewrite take_app_length in Hh. }
    rewrite Hf. destruct (drop (length front) pads) as [|p rest] eqn:Ed; [apply (f_equal length) in Ed; rewrite length_drop in Ed; simpl in Ed; lia|].
    assert (pads !! length front = Some p) as Hp by (by rewrite <- (Nat.add_0_r (length front)), <- lookup_drop, Ed).
    rewrite (fetch_one w ct l); [| |rewrite Forall_lookup in Hpk; by eapply Hpk].
    + destruct (Nat.ltb_spec (length l + ct_overhead) max_content); [|unfold full in Hl; lia]. simpl. rewrite (concat_app acc). simpl. by rewrite app_nil_r.
    + apply (Hh (length front) l p); [by rewrite lookup_app_r, Nat.sub_diag by lia|]. by apply lookup_app_l_Some.
  - destruct (get_loop_full fuel index pads entries next acc w ct (front ++ [l]) Hc Hh) as (nxt & Hc' & Hh' & ->).
    { rewrite take_app_le by lia. by apply Forall_take. }
    { rewrite length_app. lia. }
    rewrite drop_app_le in Hh' by lia. rewrite (IH _ _ _ (drop (length pads) front) Hc' Hh'); [|by apply Forall_drop|done|rewrite length_drop; lia|simpl in Hfuel; lia].
    f_equal. f_equal. f_equal. f_equal. rewrite concat_app. simpl. rewrite app_nil_r, take_app_le, <- app_assoc, <- concat_app, app_assoc, take_drop by lia. done.
Qed.

Lemma get_loop_overruns fuel index entries next acc w ct contents :
  vault_chain (net_store w) index entries next → net_store w !! key_of next = None → pads_hold (net_store w) ct contents (vault_pads entries) →
  Forall full contents → (length contents ≤ length (vault_pads entries))%nat →
  (∀ i (p : PublicKey * bytes), (length contents ≤ i)%nat → vault_pads entries !! i = Some p → net_store w !! key_of p.2 = None) →
  ∀ r, (get_loop fuel main (mkGraphEntryAddress (pk_of index)) acc w).1 ≠ Ok (Some r).
Proof.
  revert fuel index acc contents. induction entries as [|[i pads] entries IH]; intros fuel index acc contents Hc Hfree Hh Hfull Hlen Habs r; (destruct fuel as [|fuel]; [done|]).
  { simpl in Hc. subst index. cbn [vault_get_loop]. unfold cm_bind at 1, cm_map_err. by rewrite (graph_entry_get_absent _ _ Hfree). }
  pose proof Hc as [-> _]. change (vault_pads ((index, pads) :: entries)) with (pads ++ vault_pads entries) in *. rewrite length_app in Hlen.
  destruct (Nat.lt_ge_cases (length contents) (length pads)) as [Hlt|Hge].
  - destruct (get_loop_step fuel _ _ _ _ acc w Hc) as (nxt & _ & Hpk & ->). unfold cm_bind.
    destruct (fetch_full w ct contents pads [] 0) as [ct' Hf]; [by eapply pads_hold_app_l|done|done|lia|]. rewrite Hf.
    destruct (drop (length contents) pads) as [|[pk d] rest] eqn:Ed; [apply (f_equal length) in Ed; rewrite length_drop in Ed; simpl in Ed; lia|].
    assert (pads !! length contents = Some (pk, d)) as Hp by (by rewrite <- (Nat.add_0_r (length contents)), <- lookup_drop, Ed).
    assert (pk = pk_of d) as -> by (rewrite Forall_lookup in Hpk; by apply (Hpk _ _ Hp)).
    cbn [fetch_scratchpads_of_one_graph_entry_and_decrypt]. unfold cm_bind at 1, cm_map_err. rewrite scratchpad_get_absent; [done|].
    apply (Habs (length contents) (pk_of d, d)); [lia|]. by apply lookup_app_l_Some.
  - destruct (get_loop_full fuel index pads entries next acc w ct contents Hc Hh) as (nxt & Hc' & Hh' & ->); [by apply Forall_take|lia|].
    apply (IH _ _ _ (drop (length pads) contents)); [done|done|done|by apply Forall_drop|rewrite length_drop; lia|].
    intros j p Hj Hp. rewrite length_drop in Hj. apply (Habs (length pads + j)%nat); [lia|]. rewrite lookup_app_r by lia. by replace (length pads + j - length pads)%nat with j by lia.
Qed.

(** ** Pieces *)

Lemma chunks_of_pieces fuel (l : bytes) :
  (0 < max_content)%nat → l ≠ [] → (length l ≤ fuel)%nat →
  ∃ front last, chunks_of fuel max_content l = front ++ [last] ∧ Forall (λ c, length c = max_content) front ∧ length last = ((length l - 1) mod max_content + 1)%nat.
Proof.
  intros Hm. revert l. induction fuel as [|fuel IH]; intros l Hl Hlen; [destruct l; [done|simpl in Hlen; lia]|].
  assert (chunks_of (S fuel) max_content l = take max_content l :: chunks_of fuel max_content (drop max_content l)) as -> by (by destruct l).
  assert (0 < length l)%nat as Hpos by (destruct l; [done|simpl; lia]). destruct (Nat.le_gt_cases (length l) max_content) as [Hle|Hgt].
  - exists [], l. rewrite take_ge, drop_ge by lia. split_and!; [by destruct fuel|constructor|]. rewrite Nat.mod_small; lia.
  - destruct (IH (drop max_content l)) as (front & last & -> & Hf & Hlast).
    { intros E. apply (f_equal length) in E. rewrite length_drop in E. simpl in E. lia. }
    { rewrite length_drop. lia. }
    exists (take max_content l :: front), last. split_and!; [done|constructor; [rewrite length_take; lia|done]|]. rewrite Hlast, length_drop.
    replace (length l - 1)%nat with (length l - max_content - 1 + 1 * max_content)%nat by lia. by rewrite Nat.Div0.mod_add.
Qed.

Lemma mjoin_concat {A} (l : list (list A)) : mjoin l = concat l.
Proof. induction l as [|x l IH]; [done|]. change (mjoin (x :: l)) with (x ++ mjoin l). by rewrite IH. Qed.

Lemma vault_split_spec data :
  (0 < max_content)%nat → data ≠ [] →
  ∃ front last, vault_split_bytes max_content data = front ++ [last] ∧ concat (front ++ [last]) = data ∧ Forall full front ∧
    length last = ((length data - 1) mod max_content + 1)%nat.
Proof.
  intros Hm Hd. destruct (chunks_of_pieces (length data) data Hm Hd) as (front & last & Hs & Hf & Hl); [done|]. exists front, last. split_and!; [done| | |done].
  - rewrite <- Hs, <- mjoin_concat. by apply chunks_of_join.
  - eapply Forall_impl; [exact Hf|]. unfold full. intros c ->. lia.
Qed.

Lemma zip_snd {A B} (l : list A) (k : list B) : (zip l k).*2 = take (length l) k.
Proof. revert k. induction l as [|x l IH]; intros [|y k]; [done..|]. simpl. f_equal. apply IH. Qed.

Lemma pads_nodup w entries next : is_vault w entries next → NoDup (key_of <$> (vault_pads entries).*2).
Proof. intros [_ _ Hnd _]. unfold vault_indices in Hnd. rewrite fmap_app, fmap_cons in Hnd. by apply NoDup_app in Hnd as (_ & _ & [_ ?]%NoDup_cons). Qed.

Lemma piece_keys (contents : list bytes) pads : piece_key <$> zip contents pads = take (length contents) (key_of <$> pads.*2).
Proof. rewrite <- !fmap_take, <- zip_snd. rewrite <- !list_fmap_compose. done. Qed.

(** Pieces written to the scratchpads of a vault leave it a vault, which then has them. *)
Lemma written_vault ct contents entries next w w' :
  is_vault w entries next → (length contents ≤ length (vault_pads entries))%nat → pieces_written ct (zip contents (vault_pads entries)) w w' →
  is_vault w' entries next ∧ pads_hold (net_store w') ct contents (vault_pads entries) ∧
  ∀ i (p : PublicKey * bytes), (length contents ≤ i)%nat → vault_pads entries !! i = Some p → net_store w' !! key_of p.2 = net_store w !! key_of p.2.
Proof.
  intros Hv Hlen (Hin & Hout & Hres). pose proof Hv as [Hc Hfree Hnd Hr]. set (pads := vault_pads entries) in *.
  assert (∀ k, k ∈ piece_key <$> zip contents pads → ∃ p, p ∈ pads ∧ k = key_of p.2) as Hkeys.
  { intros k (x & -> & Hx)%list_elem_of_fmap. exists x.2. split; [|done]. apply (list_elem_of_fmap_2 snd) in Hx. rewrite zip_snd in Hx. by eapply subseteq_take. }
  split_and!.
  - split; [| |done|auto].
    + eapply vault_chain_keep; [|exact Hc]. intros i Hi. apply Hout. intros (p & Hp & E)%Hkeys. destruct (pad_key_not_next _ _ _ _ Hv Hp) as [_ Hn].
      apply Hn. rewrite <- E. by apply list_elem_of_fmap_2.
    + rewrite Hout; [done|]. intros (p & Hp & E)%Hkeys. by destruct (pad_key_not_next _ _ _ _ Hv Hp) as [Hn _].
  - intros i c p Hi Hp. apply (Hin (c, p)). apply (list_elem_of_lookup_2 _ i). apply lookup_zip_with_Some. eauto.
  - intros i p Hi Hp. apply Hout. rewrite piece_keys. intros (j & Hj & Hlt)%elem_of_take. enough (i = j) by lia.
    eapply (NoDup_lookup _ i j); [exact (pads_nodup _ _ _ Hv)| |exact Hj]. rewrite !list_lookup_fmap. unfold pads in Hp. by rewrite Hp.
Qed.

(** C17: what is put into a vault is read back. Whatever payments and puts may fail on the way, after a put that succeeded the
    graph entries and scratchpads are those of a vault again, the ones that were there among them, and a read gives the
    data and its type, if the last piece, encrypted, is shorter than a full one. Otherwise the end of the content is not
    noticed: a new vault with such data can never be read. *)
Theorem vault_roundtrip (fuel : nat) (data : bytes) (po : PaymentOption) (ct : Z) entries next w cost w' :
  (0 < max_content)%nat → is_vault w entries next →
  vault_put payment_mode evm_network max_content num_scratchpads fuel data po main ct w = (Ok (Some cost), w') →
  let last_piece := ((length data - 1) mod max_content + 1)%nat in
  ∃ more next', is_vault w' (entries ++ more) next' ∧
    ((last_piece + ct_overhead < max_content)%nat →
       ∀ fuel', (length (entries ++ more) ≤ fuel')%nat → vault_get max_content fuel' main w' = (Ok (Some (data, ct)), w')) ∧
    ((max_content ≤ last_piece + ct_overhead)%nat → entries = [] → ∀ fuel' r, (vault_get max_content fuel' main w').1 ≠ Ok (Some r)).
Proof.
  intros Hm Hv. unfold vault_put. destruct (decide (data = [])) as [|Hd]; [done|]. unfold cm_bind at 1.
  rewrite (claimed_spec _ _ _ _ _ _ (iv_chain _ _ _ Hv) (iv_free _ _ _ Hv)). destruct (fuel <=? length entries)%nat; [done|]. simpl app.
  destruct (vault_split_spec data Hm Hd) as (front & last & -> & Hcat & Hfull & Hlast). unfold cm_bind at 1.
  destruct (claim_capacity _ _ _ _ _ _ _ _ _ _ w) as [[[[pads total]|]|e] w1] eqn:Ecl; [|done..].
  destruct (claim_spec _ _ _ _ _ _ _ _ _ _ Hv Ecl) as (more & next' & Hv1 & -> & Hlen & _ & Habs). unfold cm_bind.
  destruct (process_tasks_with_max_concurrency _ w1) as [rs w2] eqn:Ep. unfold cm_lift. destruct (sum_prices rs total) as [c|] eqn:Es; [|done]. intros [= _ <-].
  apply sum_prices_ok in Es. assert (pieces_written ct (zip (front ++ [last]) (vault_pads (entries ++ more))) w1 w2) as Hw.
  { eapply process_pieces; [exact Ep|done|]. rewrite piece_keys. eapply sublist_NoDup; [by eapply pads_nodup|apply sublist_take]. }
  destruct (written_vault _ _ _ _ _ _ Hv1 Hlen Hw) as (Hv2 & Hhold & Hother). exists more, next'. split_and!; [done| |].
  - intros Hfits fuel' Hfuel. unfold vault_get. fold (pk_of VAULT_HEAD_DERIVATION_INDEX).
    rewrite (get_loop_reads _ _ _ _ _ _ ct front last (iv_chain _ _ _ Hv2) Hhold Hfull); [by rewrite Hcat| |rewrite length_app in Hlen; simpl in Hlen; lia|done].
    unfold full. rewrite Hlast. lia.
  - intros Hover -> fuel' r. unfold vault_get. fold (pk_of VAULT_HEAD_DERIVATION_INDEX).
    apply (get_loop_overruns _ _ _ _ _ _ ct (front ++ [last]) (iv_chain _ _ _ Hv2) (iv_free _ _ _ Hv2) Hhold); [|done|].
    + apply Forall_app. split; [done|]. constructor; [|constructor]. unfold full. by rewrite Hlast.
    + intros i p Hi Hp. rewrite (Hother i p Hi Hp). apply Habs. by eapply list_elem_of_lookup_2.
Qed.
End vault.

(** * Witness *)

Section vault_witness.
#[local] Existing Instances toy_xorname toy_hex num_bls num_bls_laws num_bls_ord_laws num_derive num_derive_laws toy_layout toy_kad toy_rmp_header
  toy_rmp_header_laws toy_identity toy_digests toy_ant_merkle hash_order_rev num_bodies num_bodies_laws.

#[local] Instance num_size_laws : BlsSizeLaws.
Proof. exists 1%nat. intros r pk m. simpl. lia. Defined.

(** Records, and a number above those drawn. *)
Record VaultWorld := { vw_store : gmap bytes KadRecord; vw_drawn : Z }.

(** Scratchpads and entries that verify are stored in place of what was there. *)
Definition accepted_body (r : KadRecord) : option Body :=
  match record_header_from_record r with
  | Ok (DataOnly Scratchpad_t) => B_Scratchpad <$> rok (try_deserialize_record r)
  | Ok (DataWithPayment Scratchpad_t) => (λ x : ProofOfPayment * Scratchpad, B_Scratchpad x.2) <$> rok (try_deserialize_record r)
  | Ok (DataWithPayment GraphEntry_t) => (λ x : ProofOfPayment * GraphEntry, B_GraphEntries [x.2]) <$> rok (try_deserialize_record r)
  | _ => None
  end.

Definition body_verifies (b : Body) : bool :=
  match b with
  | B_Scratchpad s => scratchpad_verify_signature s && (scratchpad_size s <=? SCRATCHPAD_MAX_SIZE)
  | B_GraphEntries [g] => graph_entry_verify_signature g
  | _ => false
  end.

Definition vault_store_record (r : KadRecord) (w : VaultWorld) : result unit ClientError * VaultWorld :=
  match accepted_body r with
  | Some b => match body_serialize b with
    | Ok v => if body_verifies b then (Ok tt, {| vw_store := <[rec_key r := local_record (rec_key r) v]> (vw_store w); vw_drawn := vw_drawn w |}) else (Err (PutRecordRejected []), w)
    | Err _ => (Err (PutRecordRejected []), w)
    end
  | None => (Err (PutRecordRejected []), w)
  end.

(** A number above the keys of all records and those drawn. *)
Definition next_draw (w : VaultWorld) : Z := foldr Z.max (vw_drawn w) ((λ kr, default 0 (kr.1 !! 1%nat)) <$> map_to_list (vw_store w)).

#[local] Instance vault_world : ClientWorld VaultWorld := {|
  net_get_record_with_retries t a w := (Ok ((λ r, [r]) <$> vw_store w !! to_record_key a), w);
  net_get_record t a w := (Ok (vw_store w !! to_record_key a), w);
  net_get_closest_peers_with_retries a w := (Ok [], w);
  net_put_record_with_retries t r targets w := vault_store_record r w;
  net_get_quotes_with_retries a i s w := (Ok None, w);
  evm_get_market_price m w := (None, w);
  evm_pay_for_quotes p w := (Err WalletOther, w);
  random_bytes n w := ([next_draw w], {| vw_store := vw_store w; vw_drawn := next_draw w + 1 |});
|}.
#[local] Instance vault_schedule : Scheduler VaultWorld := {| task_completion n w := (rev (seq 0 n), w) |}.
#[local] Instance vault_records : RecordNetwork VaultWorld := {| net_store := vw_store; net_accepts _ _ _ := True |}.

Lemma vault_put_stores r b w w' :
  accepted_body r = Some b → (body_verifies b = true → body_valid (rec_key r) b) → vault_store_record r w = (Ok tt, w') →
  ∃ r', record_holds r' b ∧ vw_store w' = <[rec_key r := r']> (vw_store w).
Proof.
  intros Hb Hvalid. unfold vault_store_record. rewrite Hb. destruct (body_serialize b) as [v|] eqn:Es; [|done].
  destruct (body_verifies b); [|done]. intros [= <-]. exists (local_record (rec_key r) v). split; [|done]. exists v. auto.
Qed.

#[local] Instance paid_pad_laws : SerdeLaws (ProofOfPayment * Scratchpad) := counted_laws 5.
#[local] Instance paid_entry_laws : SerdeLaws (ProofOfPayment * GraphEntry) := counted_laws 6.

#[local] Instance vault_world_laws : VaultNetworkLaws VaultWorld.
Proof.
  split; try done; [intros n w; simpl; symmetry; apply Permutation_rev|..].
  - intros s v targets w w' Hv Hput. apply (vault_put_stores (record_of (NA_ScratchpadAddress (sp_address s)) v) (B_Scratchpad s) w w'); [| |exact Hput].
    + destruct Hv as [Hv|[payment Hv]]; destruct (serialize_record_inv _ _ _ (record_of (NA_ScratchpadAddress (sp_address s)) v) Hv eq_refl) as [Hh Hd];
        unfold accepted_body; by rewrite Hh, Hd.
    + simpl. intros [? ?%Z.leb_le]%andb_prop. done.
  - intros g payment v targets w w' Hv Hfree Hput. apply (vault_put_stores (record_of (NA_GraphEntryAddress (graph_entry_address g)) v) (B_GraphEntries [g]) w w'); [| |exact Hput].
    + destruct (serialize_record_inv _ _ _ (record_of (NA_GraphEntryAddress (graph_entry_address g)) v) Hv eq_refl) as [Hh Hd].
      unfold accepted_body. by rewrite Hh, Hd.
    + simpl. intros Hsig. split_and!; [done|by repeat constructor|by constructor].
Qed.

Definition ex_main : @SecretKey num_bls := 0.

Lemma next_draw_drawn w : vw_drawn w ≤ next_draw w.
Proof. unfold next_draw. induction (_ <$> _); simpl; lia. Qed.

Lemma next_draw_above w k : is_Some (vw_store w !! k) → default 0 (k !! 1%nat) ≤ next_draw w.
Proof.
  intros [r Hr%elem_of_map_to_list]. unfold next_draw. apply (list_elem_of_fmap_2 (λ kr, default 0 (kr.1 !! 1%nat))) in Hr. simpl in Hr.
  induction (_ <$> _) as [|x l IH]; [by apply elem_of_nil in Hr|]. apply elem_of_cons in Hr as [<-|Hr]; simpl; [lia|]. specialize (IH Hr). lia.
Qed.

Lemma owner_key_number (pk : Z) : owner_record_key (pk : PublicKey) !! 1%nat = Some pk.
Proof. done. Qed.

(** Keys of records, and those with numbers drawn. *)
#[local] Instance vault_draws : KeyDraws VaultWorld ex_main.
Proof.
  refine {| reserved w k := is_Some (vw_store w !! k) ∨ ∃ pk : Z, pk ≤ vw_drawn w ∧ k = owner_record_key (pk : PublicKey) |}; try done.
  - intros w k Hk. by left.
  - intros w [Hr%next_draw_above|(pk & Hle & E)].
    + change (sk_public_key _) with (ex_main + 1 + next_draw w) in Hr. rewrite owner_key_number in Hr. simpl in Hr. unfold ex_main in Hr. lia.
    + apply (f_equal (lookup 1%nat)) in E. change (sk_public_key _) with (ex_main + 1 + next_draw w) in E. rewrite !owner_key_number in E. injection E as E.
      pose proof (next_draw_drawn w). unfold ex_main in E. lia.
  - intros w. right. exists (next_draw w + 1). split; [simpl; lia|]. f_equal. change (ex_main + 1 + next_draw w = next_draw w + 1). unfold ex_main. lia.
  - intros n w k [Hk|(pk & Hle & E)]; [by left|]. right. exists pk. split; [|done]. pose proof (next_draw_drawn w). simpl. lia.
  - intros t r targets w k [Hk|Hk]; simpl; unfold vault_store_record; (destruct (accepted_body r) as [b|]; [destruct (body_serialize b); [destruct (body_verifies b)|]|]); simpl; auto.
    destruct (decide (rec_key r = k)) as [->|Hne]; [rewrite lookup_insert_eq|rewrite lookup_insert_ne by done]; eauto.
Defined.

(** Pieces have four bytes, entries two scratchpads; the head of the vault is paid for. *)
Definition ex_head_receipt : Receipt := list_to_map [(xorname_from_content (pk_to_bytes (1 : PublicKey)), (typed_proof GraphEntry_t, 5))].
Definition ex_empty : VaultWorld := {| vw_store := ∅; vw_drawn := 1 |}.
Definition ex_put (data : bytes) := vault_put Standard [] 4 2 3 data (PO_Receipt ex_head_receipt) ex_main 77.

Lemma ex_empty_vault : is_vault 2 ex_main ex_empty [] VAULT_HEAD_DERIVATION_INDEX.
Proof.
  split; [done|done| |].
  - apply NoDup_singleton.
  - intros i ->%list_elem_of_singleton. right. exists 1. done.
Qed.

Lemma vault_roundtrip_witness :
  (∃ w', ex_put [1; 2; 3; 4; 5; 6] ex_empty = (Ok (Some 5), w') ∧ ∃ n, ∀ fuel, (n ≤ fuel)%nat → vault_get 4 fuel ex_main w' = (Ok (Some ([1; 2; 3; 4; 5; 6], 77)), w')) ∧
  ∃ w', ex_put [1; 2; 3; 4] ex_empty = (Ok (Some 5), w') ∧ ∀ fuel r, (vault_get 4 fuel ex_main w').1 ≠ Ok (Some r).
Proof.
  split.
  - exists (ex_put [1; 2; 3; 4; 5; 6] ex_empty).2. assert (ex_put [1; 2; 3; 4; 5; 6] ex_empty = (Ok (Some 5), (ex_put [1; 2; 3; 4; 5; 6] ex_empty).2)) as E.
    { rewrite (surjective_pairing (ex_put _ _)) at 1. by f_equal. }
    split; [exact E|]. destruct (vault_roundtrip Standard [] 4 2 ex_main 3 _ _ _ _ _ _ _ _ ltac:(lia) ex_empty_vault E) as (more & next & _ & Hread & _).
    exists (length ([] ++ more)). apply Hread. simpl. lia.
  - exists (ex_put [1; 2; 3; 4] ex_empty).2. assert (ex_put [1; 2; 3; 4] ex_empty = (Ok (Some 5), (ex_put [1; 2; 3; 4] ex_empty).2)) as E.
    { rewrite (surjective_pairing (ex_put _ _)) at 1. by f_equal. }
    split; [exact E|]. destruct (vault_roundtrip Standard [] 4 2 ex_main 3 _ _ _ _ _ _ _ _ ltac:(lia) ex_empty_vault E) as (more & next & _ & _ & Hnever).
    apply Hnever; [simpl; lia|done].
Defined.
End vault_witness.
