(* ===== verification/NodeQueriesProps.v ===== *)
(** * Properties of the answers to queries

    Of src/ant-node/src/node.rs (handle_query) and src/ant-node/src/quote.rs: a node's quotes pass the
    checks of payments, its quotes for batch payments pass the checks of the client, the closest peers
    it names are the closest it knows, and its proofs are about the closest records it holds. *)

From stdpp Require Import base gmap countable strings list sorting.
From Stdlib Require Import ZArith Lia.
From S2P Require Import Prelude Text Protocol Storage RecordCache RecordStore MerkleTree MerkleTreeProps Payments PaymentsProps.
From S2P Require Import PutValidation PutValidationFacts PutValidationProps Messages TaskHandler TaskHandlerProps ClientNetwork ClientNetworkProps NodeQueries.

(** The first elements of a sorted list are at most the others. *)
Lemma take_sorted_low {A} (f : A → Z) l n x y :
  x ∈ take n (sort_by_key f l) → y ∈ l → y ∈ take n (sort_by_key f l) ∨ f x ≤ f y.
Proof.
  intros Hx Hy. apply (sort_by_key_elem_of f) in Hy. pose proof (sort_by_key_sorted f l) as Hs.
  rewrite <- (take_drop n (sort_by_key f l)) in Hy, Hs. apply elem_of_app in Hy as [Hy|Hy]; [by left|right].
  by apply (StronglySorted_app_1_elem_of (key_le f) _ _ x y Hs).
Qed.

Lemma take_sorted_elem {A} (f : A → Z) l n x : x ∈ take n (sort_by_key f l) → x ∈ l.
Proof. intros Hx. apply (sort_by_key_elem_of f). rewrite <- (take_drop n (sort_by_key f l)). set_solver. Qed.

Section props.
Context `{XorNameLib, Hex, Bls, Layout, Kad, RmpHeader, Libp2pIdentity, AntMerkle, HashOrder}.
Context `{!BodySerde, !NodeText, !Serde NetworkAddress, !Serde (list (NetworkAddress * list bytes))}.
Context (env : QueryEnv).

Abbreviation self := (env_peer_id (qe_node env)).

(** The node's key pair: its public key decodes from the bytes it sends, gives its peer id and
    verifies what it signs. *)
Definition keypair_ok : Prop :=
  try_decode_protobuf (qe_pub_key env) = Some (qe_public_key env) ∧ peer_id_of_key (qe_public_key env) = self ∧
  ∀ m s, qe_sign env m = Some s → identity_verify (qe_public_key env) m s = true.

(** ** Quotes *)

Lemma created_quote_signed key metrics address quote :
  keypair_ok → create_quote_for_storecost env key metrics address = Ok quote →
  pq_content quote = quote_content key ∧ pq_quoting_metrics quote = metrics ∧ pq_rewards_address quote = address ∧
  pq_timestamp quote = qe_now env ∧ pq_pub_key quote = qe_pub_key env ∧
  identity_verify (qe_public_key env) (bytes_for_sig quote) (pq_signature quote) = true.
Proof.
  intros (_ & _ & Hsign) Hq. unfold create_quote_for_storecost in Hq.
  destruct (qe_sign env _) as [s|] eqn:Hs; simplify_eq. split_and!; try done. by apply Hsign in Hs.
Qed.

(** A proof with a quote that the node signed pays it exactly if the others were signed by their peers. *)
Lemma verify_for_others me quote before after :
  peer_id_from_bytes me = Some me → check_is_signed_by_claimed_peer quote me = true →
  verify_for {| peer_quotes := before ++ (me, quote) :: after |} me = true ↔
    ∀ peer q, (peer, q) ∈ before ++ after → ∃ id, peer_id_from_bytes peer = Some id ∧ check_is_signed_by_claimed_peer q id = true.
Proof.
  intros Hme Hcheck. unfold verify_for. simpl. rewrite bool_decide_eq_true_2.
  2:{ unfold payees. simpl. rewrite omap_app. apply elem_of_app. right. simpl. rewrite Hme. left. }
  rewrite andb_true_l, forallb_app. simpl. rewrite Hme, Hcheck, andb_true_l, <- forallb_app, forallb_forall. split.
  - intros Hall peer q Hin%list_elem_of_In. apply Hall in Hin. destruct (peer_id_from_bytes peer) as [id|]; [by exists id|done].
  - intros Hall [peer q] Hin%list_elem_of_In. by destruct (Hall _ _ Hin) as (id & -> & Hq).
Qed.

(** C22: a quote that a node gives is one it accepts. The quote in an answer carries the metrics the
    driver gave for a record that is not stored, the content of the address and the node's reward
    address; the node verifies it as its own for that address; and a proof of payment in which it stands for the
    node is one that the node accepts as paying it exactly if every other quote of the proof stands under a valid
    peer id and was signed by that peer, and it has that quote as the node's. *)
Theorem store_quote_accepted key data_type data_size nonce difficulty quote address proofs before after :
  keypair_ok → peer_id_from_bytes self = Some self →
  (handle_query env (Q_GetStoreQuote key data_type data_size nonce difficulty)).2 = R_GetStoreQuote (Ok quote) address proofs →
  address = NA_PeerId self ∧
  qe_quoting_metrics env (to_record_key key) data_type data_size = Some (pq_quoting_metrics quote, false) ∧
  pq_content quote = quote_content key ∧ pq_rewards_address quote = qe_reward_address env ∧
  verify_quote_for_storecost env quote key = Ok tt ∧
  (verify_for {| peer_quotes := before ++ (self, quote) :: after |} self = true ↔
     ∀ peer q, (peer, q) ∈ before ++ after → ∃ id, peer_id_from_bytes peer = Some id ∧ check_is_signed_by_claimed_peer q id = true) ∧
  quote ∈ quotes_by_peer {| peer_quotes := before ++ (self, quote) :: after |} self.
Proof.
  intros Hkey Hself Hquery. simpl in Hquery. injection Hquery as Hq <- <-.
  destruct (qe_quoting_metrics env (to_record_key key) data_type data_size) as [[metrics stored]|] eqn:Hm; [|done].
  destruct stored; [done|]. destruct (created_quote_signed _ _ _ _ Hkey Hq) as (Hc & <- & Hr & _ & Hp & Hv).
  destruct Hkey as (Hdec & Hid & _).
  assert (check_is_signed_by_claimed_peer quote self = true) as Hcheck.
  { unfold check_is_signed_by_claimed_peer. rewrite Hp, Hdec, Hid, bool_decide_eq_false_2 by tauto. done. }
  split_and!; try done.
  - unfold verify_quote_for_storecost. rewrite Hc, bool_decide_eq_false_2 by tauto. by rewrite Hv.
  - by apply verify_for_others.
  - unfold quotes_by_peer. simpl. apply list_elem_of_omap. exists (self, quote). split; [set_solver|].
    unfold quote_peer_id. rewrite Hp, Hdec. simpl. by rewrite Hid, bool_decide_eq_true_2.
Qed.

(** ** Quotes for batch payments *)

(** The timestamps a node signs: from eight days ago to a day ahead. *)
Definition signs_timestamp (ts : Z) : Prop :=
  let now := as_secs (qe_now env) in
  now - (MERKLE_PAYMENT_EXPIRATION + TIMESTAMP_TOLERANCE) ≤ ts ≤ now + TIMESTAMP_TOLERANCE.

(** Quotes for batch payments. A node quotes exactly if the timestamp is not more than eight days
    ago and not more than a day ahead, its metrics are known and it can sign; what it answers then is
    a candidate with its own peer id that passes every check of the client that asked. *)
Theorem merkle_candidate_answer key data_type data_size ts :
  keypair_ok → 0 ≤ qe_now env →
  (∀ m b, qe_quoting_metrics env (to_record_key key) data_type data_size = Some (m, b) →
          qm_data_type m = data_type ∧ qm_data_size m = data_size) →
  ∃ r, (handle_query env (Q_GetMerkleCandidateQuote key data_type data_size ts)).2 = R_GetMerkleCandidateQuote r ∧
    match r with
    | Ok c => signs_timestamp ts ∧ candidate_peer_id c = Some self ∧ mc_reward_address c = qe_reward_address env ∧
              get_merkle_candidate_quote data_type data_size ts (Replied (Ok c)) = Ok c
    | Err _ => ¬ signs_timestamp ts ∨ qe_quoting_metrics env (to_record_key key) data_type data_size = None ∨ ∃ m, qe_sign env m = None
    end.
Proof.
  intros (Hdec & Hid & Hsign) Hnow Hmetrics. unfold signs_timestamp.
  assert (0 ≤ as_secs (qe_now env)) as Hs by (apply Z.div_pos; [done|unfold NANOS; lia]).
  simpl. unfold respond_merkle_candidate_quote. rewrite Z.max_r by done. set (now := as_secs (qe_now env)) in *. cbv zeta.
  destruct (Z.ltb_spec (now + TIMESTAMP_TOLERANCE) ts); [eexists; split; [done|]; simpl; left; lia|].
  destruct (Z.ltb_spec (MERKLE_PAYMENT_EXPIRATION + TIMESTAMP_TOLERANCE) (Z.max 0 (now - ts))) as [Hold|Hold].
  { eexists; split; [done|]. simpl. left. unfold MERKLE_PAYMENT_EXPIRATION, TIMESTAMP_TOLERANCE in *. lia. }
  destruct (qe_quoting_metrics env (to_record_key key) data_type data_size) as [[m b]|] eqn:Hm; [|eexists; split; [done|]; simpl; tauto].
  destruct (Hmetrics m b eq_refl) as [Hdt Hds].
  destruct (qe_sign env _) as [s|] eqn:Hsig; [|eexists; split; [done|]; simpl; eauto].
  eexists; split; [done|]. simpl. split_and!; try done; [lia| |].
  - unfold candidate_peer_id. simpl. rewrite Hdec. simpl. by rewrite Hid.
  - apply merkle_candidate_exact. simpl. split_and!; try done. unfold candidate_verify_signature. simpl. rewrite Hdec. by apply Hsign.
Qed.

(** A node signs quotes that no node accepts. For a timestamp ahead of the clock by at most a
    day, or older than seven days by at most a day, it gives a quote, while verifying any payment with
    that timestamp at that time fails for it. *)
Theorem merkle_candidate_unusable key data_type data_size ts m b sig leaf branch midpoint depth root :
  0 ≤ qe_now env → qe_quoting_metrics env (to_record_key key) data_type data_size = Some (m, b) →
  qe_sign env (candidate_bytes_to_sign m (qe_reward_address env) ts) = Some sig →
  let now := as_secs (qe_now env) in
  now < ts ≤ now + TIMESTAMP_TOLERANCE ∨ MERKLE_PAYMENT_EXPIRATION < now - ts ≤ MERKLE_PAYMENT_EXPIRATION + TIMESTAMP_TOLERANCE →
  (∃ c, (handle_query env (Q_GetMerkleCandidateQuote key data_type data_size ts)).2 = R_GetMerkleCandidateQuote (Ok c) ∧
        mc_merkle_payment_timestamp c = ts) ∧
  ∃ e, verify_merkle_proof (Some now) leaf branch midpoint depth root ts = Err e.
Proof.
  intros Hnow Hm Hsig. cbv zeta. intros Hts. assert (0 ≤ as_secs (qe_now env)) as Hs by (apply Z.div_pos; [done|unfold NANOS; lia]).
  unfold MERKLE_PAYMENT_EXPIRATION, TIMESTAMP_TOLERANCE in *. split.
  - simpl. unfold respond_merkle_candidate_quote, MERKLE_PAYMENT_EXPIRATION, TIMESTAMP_TOLERANCE. rewrite Z.max_r by done. cbv zeta.
    destruct (Z.ltb_spec (as_secs (qe_now env) + 24 * 60 * 60) ts); [lia|].
    destruct (Z.ltb_spec (7 * 24 * 60 * 60 + 24 * 60 * 60) (Z.max 0 (as_secs (qe_now env) - ts))); [lia|].
    rewrite Hm, Hsig. eauto.
  - unfold verify_merkle_proof, validate_payment_timestamp, MERKLE_PAYMENT_EXPIRATION. simpl ok_or. cbn [rbind].
    destruct (Z.ltb_spec (as_secs (qe_now env)) ts); [simpl; eauto|].
    destruct (Z.ltb_spec (7 * 24 * 60 * 60) (as_secs (qe_now env) - ts)); [simpl; eauto|lia].
Qed.

(** ** Closest peers *)

(** The closest peers a node names. Asked for a range, it names exactly the peers it knows within
    it, whatever number was asked for; asked for a number, it names that many, or all it knows, nearest
    first, and none it leaves out is closer than one it names. *)
Theorem closest_peers_answer peers target num_of_peers range :
  let d := λ x : NetworkAddress * list bytes, distance target x.1 in
  let named := calculate_get_closest_peers peers target num_of_peers range in
  match range, num_of_peers with
  | Some value, _ => ∀ a addrs, (a, addrs) ∈ named ↔ ∃ p, a = NA_PeerId p ∧ (p, addrs) ∈ peers ∧ distance target a ≤ from_be_bytes value
  | None, Some n =>
    length named = Nat.min n (length peers) ∧ StronglySorted (key_le d) named ∧
    (∀ x, x ∈ named → ∃ p, x.1 = NA_PeerId p ∧ (p, x.2) ∈ peers) ∧
    ∀ p addrs, (p, addrs) ∈ peers → (NA_PeerId p, addrs) ∈ named ∨ ∀ x, x ∈ named → d x ≤ distance target (NA_PeerId p)
  | None, None => named = []
  end.
Proof.
  cbv zeta. destruct range as [value|]; [|destruct num_of_peers as [n|]; [|done]].
  - intros a addrs. unfold calculate_get_closest_peers. assert (∀ l : list (NetworkAddress * list bytes), match num_of_peers with Some _ => l | None => l end = l) as E
      by (by destruct num_of_peers).
    rewrite E, list_elem_of_omap. split.
    + intros ([p addrs'] & Hin & Hd). destruct (Z.leb_spec (distance target (NA_PeerId p)) (from_be_bytes value)); simplify_eq. eauto.
    + intros (p & -> & Hin & Hd). exists (p, addrs). split; [done|]. by destruct (Z.leb_spec (distance target (NA_PeerId p)) (from_be_bytes value)); [|lia].
  - unfold calculate_get_closest_peers. cbv zeta. set (all := (λ '(peer_id, multi_addrs), (NA_PeerId peer_id, multi_addrs)) <$> peers).
    set (f := λ x : NetworkAddress * list bytes, distance target x.1). split_and!.
    + rewrite length_take, sort_by_key_length. unfold all. by rewrite length_fmap.
    + pose proof (sort_by_key_sorted f all) as Hs. rewrite <- (take_drop n (sort_by_key f all)) in Hs. by apply StronglySorted_app in Hs as (_ & ? & _).
    + intros x Hx. apply take_sorted_elem in Hx.
      apply list_elem_of_fmap in Hx as ([p addrs] & -> & Hin). by exists p.
    + intros p addrs Hin. assert ((NA_PeerId p, addrs) ∈ all) as Hall by (apply list_elem_of_fmap; by exists (p, addrs)).
      destruct (decide ((NA_PeerId p, addrs) ∈ take n (sort_by_key f all))) as [|Hout]; [by left|right].
      intros x Hx. destruct (take_sorted_low f all n x _ Hx Hall) as [?|?]; done.
Qed.
End props.

(** ** A concrete node *)

Section concrete.
#[local] Existing Instances toy_xorname toy_hex toy_bls toy_layout toy_kad toy_rmp_header toy_identity toy_digests toy_ant_merkle
  toy_serde_target toy_bodies hash_order_rev toy_error_text.

Definition toy_node_text : NodeText :=
  {| put_error_text _ := text "put failed"; local_record_error_text := text "no record"; candidate_failure_text _ _ := text "no quote" |}.
Definition toy_serde_address : Serde NetworkAddress := {| rmp_to_vec a := Some (as_bytes a); rmp_from_slice b := Some (NA_RecordKey b) |}.
Definition toy_serde_peers : Serde (list (NetworkAddress * list bytes)) := {| rmp_to_vec _ := None; rmp_from_slice _ := None |}.

#[local] Existing Instances toy_node_text toy_serde_address toy_serde_peers.

Definition ex_key : NetworkAddress := NA_ChunkAddress (mkChunkAddress (replicate 32 12)).

(** The node with key and peer id 5, at a time twelve days after the epoch. *)
Definition ex_query_env (st : gmap bytes KadRecord) (addresses : gmap NetworkAddress ValidationType) : QueryEnv :=
  {| qe_node := ex_env st; qe_public_key := 5; qe_pub_key := [5]; qe_sign m := Some (5 :: m); qe_reward_address := replicate 20 9;
     qe_version := text "0.1.0"; qe_now := from_secs 1036800;
     qe_quoting_metrics k data_type data_size :=
       Some ({| qm_data_type := data_type; qm_data_size := data_size; qm_close_records_stored := 3; qm_records_per_type := [(0, 2)];
                qm_max_records := 100; qm_received_payment_count := 1; qm_live_time := 7; qm_network_density := None;
                qm_network_size := None |}, bool_decide (is_Some (st !! k)));
     qe_local_addresses := Some addresses; qe_local_peers := Some [([9], [[1]]); ([4], [[2]])];
     qe_is_peer_shunned _ := Some false |}.

Lemma ex_keypair_ok : keypair_ok (ex_query_env ∅ ∅).
Proof. split_and!; [done|done|]. intros m s [= <-]. by apply bool_decide_eq_true_2. Qed.

Definition ex_store_quote : PaymentQuote :=
  match (handle_query (ex_query_env ∅ ∅) (Q_GetStoreQuote ex_key 0 10 None 0)).2 with
  | R_GetStoreQuote (Ok q) _ _ => q
  | _ => ex_quote 0 0
  end.

(** The quote of the node stands between those of two other peers. *)
Definition ex_proof_of_three : ProofOfPayment :=
  {| peer_quotes := [([4], ex_quote 4 NANOS)] ++ ([5], ex_store_quote) :: [([7], ex_quote 7 NANOS)] |}.

Lemma store_quote_accepted_witness :
  let env := ex_query_env ∅ ∅ in
  qe_quoting_metrics env (to_record_key ex_key) 0 10 = Some (pq_quoting_metrics ex_store_quote, false) ∧
  verify_quote_for_storecost env ex_store_quote ex_key = Ok tt ∧
  verify_for ex_proof_of_three [5] = true ∧ ex_store_quote ∈ quotes_by_peer ex_proof_of_three [5].
Proof.
  destruct (store_quote_accepted (ex_query_env ∅ ∅) ex_key 0 10 None 0 ex_store_quote (NA_PeerId [5]) []
              [([4], ex_quote 4 NANOS)] [([7], ex_quote 7 NANOS)]) as (_ & Hm & _ & _ & Hv & Hp & Hq);
    [apply ex_keypair_ok|reflexivity|vm_compute; reflexivity|].
  split; [exact Hm|]. split; [exact Hv|]. split; [|exact Hq]. apply Hp. intros peer q Hin.
  apply elem_of_cons in Hin as [[= -> ->]|Hin]; [exists [4]; split; vm_compute; reflexivity|].
  apply elem_of_cons in Hin as [[= -> ->]|Hin]; [exists [7]; split; vm_compute; reflexivity|]. exfalso. exact (not_elem_of_nil _ Hin).
Defined.

Lemma merkle_candidate_answer_witness :
  ∃ r, (handle_query (ex_query_env ∅ ∅) (Q_GetMerkleCandidateQuote ex_key 0 10 1036801)).2 = R_GetMerkleCandidateQuote r ∧
    match r with
    | Ok c => signs_timestamp (ex_query_env ∅ ∅) 1036801 ∧ candidate_peer_id c = Some [5] ∧ mc_reward_address c = replicate 20 9 ∧
              get_merkle_candidate_quote 0 10 1036801 (Replied (Ok c)) = Ok c
    | Err _ => ¬ signs_timestamp (ex_query_env ∅ ∅) 1036801 ∨
               qe_quoting_metrics (ex_query_env ∅ ∅) (to_record_key ex_key) 0 10 = None ∨ ∃ m, qe_sign (ex_query_env ∅ ∅) m = None
    end.
Proof.
  apply (merkle_candidate_answer (ex_query_env ∅ ∅) ex_key 0 10 1036801); [apply ex_keypair_ok|vm_compute; congruence|].
  by intros m b [= <- <-].
Defined.

Lemma merkle_candidate_unusable_witness :
  (∃ c, (handle_query (ex_query_env ∅ ∅) (Q_GetMerkleCandidateQuote ex_key 0 10 1040000)).2 = R_GetMerkleCandidateQuote (Ok c) ∧
        mc_merkle_payment_timestamp c = 1040000) ∧
  ∃ e, verify_merkle_proof (Some (as_secs (qe_now (ex_query_env ∅ ∅)))) [] ex_branch (pool_midpoint_proof ex_pool) 2 [] 1040000 = Err e.
Proof.
  eapply (merkle_candidate_unusable (ex_query_env ∅ ∅) ex_key 0 10 1040000); [vm_compute; congruence|reflexivity|reflexivity|].
  left. unfold TIMESTAMP_TOLERANCE. vm_compute. split; congruence.
Defined.
End concrete.
