(* ===== verification/StorageChallengeProps.v ===== *)
(** * Properties of storage challenges and replica checks

    Of src/ant-node/src/node.rs: what a healthy score says of the answers and the time, that an honest
    neighbour passes a challenge, that one chunk is enough to pass any, and that a peer is evicted by
    the replica check only after it failed twice to give a chunk that most of the others gave. *)

From stdpp Require Import base gmap countable strings list sorting.
From Stdlib Require Import ZArith Lia.
From S2P Require Import Prelude Text Protocol Storage RecordCache RecordStore MerkleTree MerkleTreeProps Payments PaymentsProps.
From S2P Require Import PutValidation PutValidationFacts PutValidationProps ReplicationFetcher Driver Messages TaskHandler TaskHandlerProps.
From S2P Require Import NodeQueries NodeQueriesProps StorageChallenge.

Lemma duration_score_bounds d : 0 ≤ d → 0 ≤ duration_score_scheme d ≤ HIGHEST_SCORE.
Proof.
  intros Hd. unfold duration_score_scheme, HIGHEST_SCORE, TIME_STEP.
  assert (0 ≤ as_millis d) as Hms by (apply Z.div_pos; lia).
  destruct (Z.leb_spec (as_millis d) usize_max); [|vm_compute; split; congruence].
  pose proof (Z.div_pos (as_millis d) 50 Hms ltac:(lia)). lia.
Qed.

(** A duration scores at least [s] exactly if it is short enough. *)
Lemma duration_score_ge d s :
  0 ≤ d → 0 < s ≤ HIGHEST_SCORE → s ≤ duration_score_scheme d ↔ as_millis d < (HIGHEST_SCORE - s + 1) * TIME_STEP.
Proof.
  intros Hd Hs. unfold duration_score_scheme, HIGHEST_SCORE, TIME_STEP in *.
  destruct (Z.leb_spec (as_millis d) usize_max) as [_|Hbig].
  - pose proof (Z.div_mod (as_millis d) 50 ltac:(lia)) as Hdm. pose proof (Z.mod_pos_bound (as_millis d) 50 ltac:(lia)). lia.
  - change (100 * 50 / 50) with 100. unfold usize_max in Hbig. split; lia.
Qed.

Section props.
Context `{XorNameLib, Hex, Bls, Layout, Kad, RmpHeader, Libp2pIdentity, AntMerkle, HashOrder}.
Context `{!BodySerde, !NodeText, !Serde NetworkAddress, !Serde (list (NetworkAddress * list bytes))}.

Implicit Types (expected : gmap NetworkAddress ChunkProof) (answers : list (NetworkAddress * ChunkProof)).

(** ** Scores *)

(** The answers that are about an expected address. *)
Definition relevant expected answers : list (NetworkAddress * ChunkProof) := filter (λ x, x.1 ∈ dom expected) answers.

(** No answer contradicts what is expected. *)
Definition truthful expected answers : Prop := ∀ a p e, (a, p) ∈ answers → expected !! a = Some e → e = p.

Lemma correct_answers_spec answers expected n :
  match correct_answers answers expected n with
  | Some c => truthful expected answers ∧ c = n + Z.of_nat (length (relevant expected answers))
  | None => ¬ truthful expected answers
  end.
Proof.
  revert n. induction answers as [|[a p] answers IH]; intros n; simpl.
  { split; [intros ???; set_solver|]. simpl. lia. }
  unfold relevant. rewrite filter_cons. simpl. destruct (expected !! a) as [e|] eqn:He.
  - rewrite decide_True by (by apply elem_of_dom). unfold chunk_proof_verify. case_bool_decide as Heq.
    + specialize (IH (n + 1)). destruct (correct_answers answers expected (n + 1)) as [c|].
      * destruct IH as [Ht ->]. split; [|simpl; unfold relevant; lia]. intros a' p' e' [[= -> ->]|Hin]%elem_of_cons; [congruence|eauto].
      * intros Ht. apply IH. intros a' p' e' Hin. apply (Ht a'). by right.
    + intros Ht. apply Heq. eapply (Ht a p e); [left|done].
  - rewrite decide_False by (rewrite elem_of_dom, He; by intros []).
    specialize (IH n). destruct (correct_answers answers expected n) as [c|].
    + destruct IH as [Ht ->]. split; [|done]. intros a' p' e' [[= -> ->]|Hin]%elem_of_cons; [congruence|eauto].
    + intros Ht. apply IH. intros a' p' e' Hin. apply (Ht a'). by right.
Qed.

Lemma challenge_score_bounds answers expected s : challenge_score_scheme answers expected = Some s → 0 ≤ s ≤ HIGHEST_SCORE.
Proof.
  unfold challenge_score_scheme. pose proof (correct_answers_spec answers expected 0) as Hc.
  destruct (correct_answers answers expected 0) as [c|]; [|intros [= <-]; vm_compute; split; congruence].
  destruct (Nat.eqb_spec (size expected) 0) as [|Hne]; [done|]. intros [= <-]. destruct Hc as [_ ->]. unfold HIGHEST_SCORE.
  assert (0 ≤ 100 * (0 + Z.of_nat (length (relevant expected answers))) / Z.of_nat (size expected)) by (apply Z.div_pos; lia). lia.
Qed.

(** All answers correct and none missing. *)
Lemma full_challenge_score answers expected :
  expected ≠ ∅ → truthful expected answers → (size expected ≤ length (relevant expected answers))%nat →
  challenge_score_scheme answers expected = Some HIGHEST_SCORE.
Proof.
  intros Hne Ht Hall. assert (size expected ≠ 0)%nat as Hsize by (by intros ?%map_size_empty_inv). unfold challenge_score_scheme.
  pose proof (correct_answers_spec answers expected 0) as Hc. destruct (correct_answers answers expected 0) as [c|]; [|done].
  destruct Hc as [_ ->]. destruct (Nat.eqb_spec (size expected) 0) as [|_]; [done|]. f_equal. unfold HIGHEST_SCORE. apply Z.min_l.
  apply Z.div_le_lower_bound; lia.
Qed.

Lemma full_score_healthy duration :
  0 ≤ duration → is_healthy (duration_score_scheme duration * HIGHEST_SCORE) = true ↔ as_millis duration < 3500.
Proof.
  intros Hd. unfold is_healthy, MIN_ACCEPTABLE_HEALTHY_SCORE. pose proof (duration_score_ge duration 31 Hd ltac:(by vm_compute)) as Hge.
  change ((HIGHEST_SCORE - 31 + 1) * TIME_STEP) with 3500 in Hge. unfold HIGHEST_SCORE in *. rewrite Z.ltb_lt, <- Hge. lia.
Qed.

(** The minimum of the healthy scores is not healthy. *)
Lemma full_score_minimum duration :
  0 ≤ duration → 3500 ≤ as_millis duration < 3550 →
  duration_score_scheme duration * HIGHEST_SCORE = MIN_ACCEPTABLE_HEALTHY_SCORE ∧ is_healthy (duration_score_scheme duration * HIGHEST_SCORE) = false.
Proof.
  intros Hd Hms. pose proof (duration_score_ge duration 31 Hd ltac:(by vm_compute)) as H31. pose proof (duration_score_ge duration 30 Hd ltac:(by vm_compute)) as H30.
  change ((HIGHEST_SCORE - 31 + 1) * TIME_STEP) with 3500 in H31. change ((HIGHEST_SCORE - 30 + 1) * TIME_STEP) with 3550 in H30.
  assert (duration_score_scheme duration = 30) as -> by lia. done.
Qed.

(** What a healthy score shows. A score is between 0 and 10000; a healthy one was given in less
    than three and a half seconds, no answer of it contradicts a proof of the challenger, and the
    answers about the challenger's chunks are at least 31 for each hundred of those chunks. With no
    false answers and proofs for all chunks, any time below that is healthy. *)
Theorem healthy_score_exact duration answers expected :
  0 ≤ duration → expected ≠ ∅ →
  ∃ s, mark_peer duration answers expected = Some s ∧ 0 ≤ s ≤ HIGHEST_SCORE * HIGHEST_SCORE ∧
    (is_healthy s = true → as_millis duration < 3500 ∧ truthful expected answers ∧
       31 * Z.of_nat (size expected) ≤ 100 * Z.of_nat (length (relevant expected answers))) ∧
    (truthful expected answers → (size expected ≤ length (relevant expected answers))%nat → (is_healthy s = true ↔ as_millis duration < 3500)).
Proof.
  intros Hd Hne. assert (size expected ≠ 0)%nat as Hsize by (by intros ?%map_size_empty_inv). unfold mark_peer.
  assert (∃ cs, challenge_score_scheme answers expected = Some cs) as [cs Hcs].
  { unfold challenge_score_scheme. destruct (correct_answers _ _ _); [|eauto]. destruct (Nat.eqb_spec (size expected) 0); eauto; done. }
  rewrite Hcs. eexists. split; [done|]. pose proof (duration_score_bounds duration Hd) as Hb. pose proof (challenge_score_bounds _ _ _ Hcs) as Hcb.
  split_and!.
  - unfold HIGHEST_SCORE in *. nia.
  - unfold HIGHEST_SCORE in *. nia.
  - intros Hh%Z.ltb_lt. unfold MIN_ACCEPTABLE_HEALTHY_SCORE in Hh. pose proof (duration_score_ge duration 31 Hd ltac:(by vm_compute)) as Hge.
    change ((HIGHEST_SCORE - 31 + 1) * TIME_STEP) with 3500 in Hge. unfold HIGHEST_SCORE in *.
    pose proof (correct_answers_spec answers expected 0) as Hc. unfold challenge_score_scheme in Hcs.
    destruct (correct_answers answers expected 0) as [c|]; simplify_eq; [|lia].
    destruct (Nat.eqb_spec (size expected) 0) as [|_]; [done|]. simplify_eq. destruct Hc as [Ht ->]. unfold HIGHEST_SCORE in *.
    rewrite Z.add_0_l in *. split_and!; [apply Hge; nia|done|]. set (n := Z.of_nat (length (relevant expected answers))) in *.
    set (k := Z.of_nat (size expected)) in *. assert (31 ≤ 100 * n / k) by nia.
    pose proof (Z.mul_div_le (100 * n) k ltac:(lia)). nia.
  - intros Ht Hall. rewrite (full_challenge_score _ _ Hne Ht Hall) in Hcs. simplify_eq. by apply full_score_healthy.
Qed.

(** One chunk passes any challenge. A peer that repeats the proof of a single expected chunk, as
    often as there are expected chunks, gets the full score for its answers. *)
Theorem repeated_answer_full_score expected a p k :
  expected !! a = Some p → (size expected ≤ k)%nat → challenge_score_scheme (repeat (a, p) k) expected = Some HIGHEST_SCORE.
Proof.
  intros Ha Hk. assert (size expected ≠ 0)%nat as Hne by (intros ->%map_size_empty_inv; done). unfold challenge_score_scheme.
  assert (∀ n, correct_answers (repeat (a, p) k) expected n = Some (n + Z.of_nat k)) as ->.
  { clear Hk. induction k as [|k IH]; intros n; [simpl; f_equal; lia|]. cbn [repeat correct_answers]. rewrite Ha. unfold chunk_proof_verify.
    rewrite bool_decide_eq_true_2, IH by done. f_equal. lia. }
  destruct (Nat.eqb_spec (size expected) 0); [done|]. f_equal. unfold HIGHEST_SCORE. apply Z.min_l. apply Z.div_le_lower_bound; lia.
Qed.

(** ** An honest neighbour *)

Lemma expected_proofs_lookup env nonce targets a p :
  expected_proofs_of env nonce targets !! a = Some p →
  a ∈ targets ∧ ∃ record, env_get_local_record (qe_node env) (to_record_key a) = Some (Some record) ∧
                          p = chunk_proof_new (rec_value record) nonce.
Proof.
  unfold expected_proofs_of. induction targets as [|b targets IH] using rev_ind; [done|]. rewrite foldl_app. simpl.
  assert (foldl (λ m addr, match env_get_local_record (qe_node env) (to_record_key addr) with
                   | Some (Some record) => <[addr := chunk_proof_new (rec_value record) nonce]> m
                   | _ => m
                   end) ∅ targets !! a = Some p →
     a ∈ targets ++ [b] ∧ ∃ record, env_get_local_record (qe_node env) (to_record_key a) = Some (Some record) ∧
                          p = chunk_proof_new (rec_value record) nonce) as Hold by (intros [? ?]%IH; set_solver).
  destruct (env_get_local_record (qe_node env) (to_record_key b)) as [[record|]|] eqn:Hb; try exact Hold.
  destruct (decide (b = a)) as [->|Hne]; [|by rewrite lookup_insert_ne]. rewrite lookup_insert_eq. intros [= <-]. split; [set_solver|eauto].
Qed.

(** The proofs in an answer are of records the node holds, for the chunks it finds closest. *)
Lemma proofs_given env key nonce difficulty addrs a :
  difficulty ≠ 1%nat → qe_local_addresses env = Some addrs →
  a ∈ take (Nat.min difficulty CLOSE_GROUP_SIZE) (sort_by_key (distance key) (proof_candidates addrs true)) → ∀ record,
  env_get_local_record (qe_node env) (to_record_key a) = Some (Some record) →
  (a, chunk_proof_new (rec_value record) nonce) ∈ received_proofs (respond_x_closest_record_proof env key nonce difficulty true).
Proof.
  intros Hd Haddrs Ha record Hr. unfold received_proofs, respond_x_closest_record_proof. rewrite (proj2 (Nat.eqb_neq _ _) Hd), Haddrs.
  apply list_elem_of_omap. exists (a, Ok (chunk_proof_new (rec_value record) nonce)). split; [|done].
  apply list_elem_of_omap. exists a. by rewrite Hr.
Qed.

Lemma proofs_of_held env key nonce difficulty a p :
  difficulty ≠ 1%nat → (a, p) ∈ received_proofs (respond_x_closest_record_proof env key nonce difficulty true) →
  ∃ record, env_get_local_record (qe_node env) (to_record_key a) = Some (Some record) ∧ p = chunk_proof_new (rec_value record) nonce.
Proof.
  intros Hd Hin. unfold received_proofs, respond_x_closest_record_proof in Hin. rewrite (proj2 (Nat.eqb_neq _ _) Hd) in Hin.
  apply list_elem_of_omap in Hin as ([a' r] & Hin & Hr). destruct (qe_local_addresses env); [|set_solver].
  apply list_elem_of_omap in Hin as (b & _ & Hb). destruct (env_get_local_record (qe_node env) (to_record_key b)) as [[record|]|] eqn:E; simplify_eq.
  simpl in Hr. simplify_eq. eauto.
Qed.

Lemma relevant_all expected answers :
  (∀ a, a ∈ dom expected → ∃ p, (a, p) ∈ answers) → (size expected ≤ length (relevant expected answers))%nat.
Proof.
  intros Hall. rewrite <- size_dom. rewrite <- (length_fmap fst (relevant expected answers)).
  apply (submseteq_length (elements (dom expected))), NoDup_submseteq; [apply NoDup_elements|].
  intros a Ha%elem_of_elements. destruct (Hall a Ha) as [p Hp]. apply list_elem_of_fmap. exists (a, p). split; [done|].
  by apply list_elem_of_filter.
Qed.

(** C21: an honest neighbour passes. A node makes a challenge and has loaded at least one of the chunks
    it is about; another node holds the same records under those addresses and finds no other chunks
    closer to the target. Then its answer to the challenge is healthy exactly if it takes less than
    three and a half seconds, and the challenger reports it so. In the fifty milliseconds after that the score is the
    minimum that the documentation calls healthy, and the code does not. *)
Theorem honest_neighbour_passes env env' closest index nonce c addrs' peer elapsed joined answer :
  make_challenge env closest index nonce = Some c → ch_expected c ≠ ∅ → qe_local_addresses env' = Some addrs' →
  (∀ a, a ∈ dom (ch_expected c) →
     a ∈ take CLOSE_GROUP_SIZE (sort_by_key (distance (query_dst (ch_query c))) (proof_candidates addrs' true)) ∧
     env_get_local_record (qe_node env') (to_record_key a) = env_get_local_record (qe_node env) (to_record_key a)) →
  0 ≤ elapsed → peer ∈ joined (ch_peers c) → answer peer = (Some (Resp_Query (handle_query env' (ch_query c)).2), elapsed) →
  ∃ s, scoring_peer (answer peer).1 (answer peer).2 (ch_expected c) = Some s ∧ (is_healthy s = true ↔ as_millis elapsed < 3500) ∧
  (3500 ≤ as_millis elapsed < 3550 → s = MIN_ACCEPTABLE_HEALTHY_SCORE ∧ is_healthy s = false) ∧
  ∃ scores, NotifyPeerScores scores ∈ judge_peers joined answer c ∧ (peer, is_healthy s) ∈ scores.
Proof.
  intros Hc Hne Haddrs Hsame Hel Hjoined Hanswer.
  assert (∃ target targets, ch_query c = Q_GetChunkExistenceProof target nonce CLOSE_GROUP_SIZE ∧
            ch_expected c = expected_proofs_of env nonce targets) as (target & targets & Hq & Hexp).
  { unfold make_challenge in Hc. repeat (case_match; try done). simplify_eq. eauto. }
  rewrite Hq in Hsame. simpl in Hsame. rewrite Hanswer. simpl. rewrite Hq. simpl.
  set (answers := respond_x_closest_record_proof env' target nonce CLOSE_GROUP_SIZE true).
  assert (CLOSE_GROUP_SIZE ≠ 1%nat) as Hfive by done.
  assert (∀ a, a ∈ dom (ch_expected c) → ∃ p, (a, p) ∈ received_proofs answers) as Hall.
  { intros a Ha. pose proof (Hsame a Ha) as [Hnear Hrec]. apply elem_of_dom in Ha as [p Hp]. rewrite Hexp in Hp.
    apply expected_proofs_lookup in Hp as (_ & record & Hr & _). rewrite Hr in Hrec.
    eexists. by eapply (proofs_given env' target nonce CLOSE_GROUP_SIZE addrs'). }
  assert (truthful (ch_expected c) (received_proofs answers)) as Htrue.
  { intros a p e Hin He. pose proof (elem_of_dom_2 _ _ _ He) as Ha. pose proof (Hsame a Ha) as [_ Hrec]. rewrite Hexp in He.
    apply expected_proofs_lookup in He as (_ & record & Hr & ->). apply proofs_of_held in Hin as (record' & Hr' & ->); [|done].
    rewrite Hr, Hr' in Hrec. by simplify_eq. }
  set (s := duration_score_scheme elapsed * HIGHEST_SCORE).
  assert (mark_peer elapsed (received_proofs answers) (ch_expected c) = Some s) as Hs.
  { unfold mark_peer. by rewrite (full_challenge_score _ _ Hne Htrue (relevant_all _ _ Hall)). }
  assert (scoring_peer (Some (Resp_Query (R_GetChunkExistenceProof answers))) elapsed (ch_expected c) = Some s) as Hscore.
  { simpl. destruct (Nat.eqb_spec (length answers) 0) as [E|_]; [|done]. apply nil_length_inv in E. rewrite E in Hall.
    destruct (ch_expected c) as [|] using map_ind; [done|]. destruct (Hall i) as [p Hp]; [set_solver|by apply not_elem_of_nil in Hp]. }
  exists s. split; [done|]. split; [by apply full_score_healthy|]. split; [by apply full_score_minimum|].
  assert ((peer, Some s) ∈ (λ p, (p, scoring_peer (answer p).1 (answer p).2 (ch_expected c))) <$> joined (ch_peers c)) as Hscored.
  { apply list_elem_of_fmap. exists peer. split; [|done]. rewrite Hanswer. cbn [fst snd]. rewrite Hq. by rewrite <- Hscore. }
  unfold judge_peers, report_scores. cbv zeta. set (scored := _ <$> joined (ch_peers c)) in *.
  set (scores := omap _ scored).
  assert ((peer, s) ∈ scores) as Hin by (apply list_elem_of_omap; exists (peer, Some s); done).
  exists ((λ x : bytes * Z, (x.1, is_healthy x.2)) <$> scores). split.
  - apply elem_of_app. right. destruct scores; [by apply not_elem_of_nil in Hin|]. simpl. left.
  - apply list_elem_of_fmap. by exists (peer, s).
Qed.

(** ** Evictions *)

(** What is said of a peer when it is evicted over a chunk. *)
Record evicted_for (env : QueryEnv) (r : ReplicaRound) (p : bytes) (target : NetworkAddress) : Prop := {
  ev_held : ∃ addrs, qe_local_addresses env = Some addrs ∧ addrs !! target = Some VT_Chunk;
  ev_close : p ≠ env_peer_id (qe_node env) ∧ ∃ peers, rr_record_closest r target = Some peers ∧ p ∈ peers;
  ev_failed : is_copy target (rr_answer r p) = false;
  ev_others : ∃ good, NoDup good ∧ (MIN_HEALTHY_REPLICA_COUNT ≤ length good)%nat ∧ ∀ q, q ∈ good → is_copy target (rr_answer r q) = true;
  ev_still_close : ∃ later, rr_closest_later r = Some later ∧ p ∈ later;
  ev_failed_later : is_copy target (rr_answer_later r p) = false;
}.

Lemma proof_candidates_chunk addrs a : a ∈ proof_candidates addrs true → addrs !! a = Some VT_Chunk.
Proof.
  unfold proof_candidates. intros ([b v] & Hin & Hv)%list_elem_of_omap. simpl in Hv. destruct (decide (v = VT_Chunk)) as [->|]; simplify_eq.
  by apply hm_iter_elem_of.
Qed.

Lemma nearby_held env closest a :
  a ∈ nearby_records env closest → ∃ addrs, qe_local_addresses env = Some addrs ∧ addrs !! a = Some VT_Chunk.
Proof.
  unfold nearby_records. destruct (closest !! _); [|set_solver]. destruct (ilog2 _); [|set_solver].
  destruct (qe_local_addresses env) as [addrs|]; [|set_solver]. intros [_ Ha]%list_elem_of_filter. exists addrs. split; [done|].
  by apply proof_candidates_chunk.
Qed.

Lemma retry_evicts target closest joined answer failed cmd :
  (∀ l, joined l ≡ₚ l) → cmd ∈ schedule_record_fetch_retry target closest joined answer failed →
  ∃ p later, (cmd = RemovePeer p ∨ cmd = AddPeerToBlockList p) ∧ p ∈ failed ∧ closest = Some later ∧ p ∈ later ∧ is_copy target (answer p) = false.
Proof.
  intros Hj. unfold schedule_record_fetch_retry. cbv zeta. case_decide; [set_solver|]. simpl.
  intros (p & Hcmd & [Hcopy Hp]%list_elem_of_filter)%list_elem_of_bind. rewrite Hj in Hp. unfold refresh_retry_candidates in Hp.
  destruct closest as [later|]; [|set_solver]. apply list_elem_of_filter in Hp as [Hlater Hp]. unfold hs_iter in Hp.
  rewrite hash_order_perm in Hp. exists p, later. split_and!; try done; set_solver.
Qed.

(** Whom the replica check evicts. A peer is removed and blocked only over a chunk the node holds:
    the peer was among the closest known to that chunk, gave no copy of it when at least three others
    did, was still found close to it in the network later, and then gave no copy again. A peer that
    then holds a copy of the chunk and answers is not evicted. *)
Theorem eviction_justified env r cmd :
  (∀ l, rr_joined r l ≡ₚ l) → (∀ l, rr_joined_later r l ≡ₚ l) → (∀ l, rr_shuffle r l ≡ₚ l) →
  (∀ a peers, rr_record_closest r a = Some peers → NoDup peers) →
  cmd ∈ verify_local_replication_health env r →
  ∃ p target, (cmd = RemovePeer p ∨ cmd = AddPeerToBlockList p) ∧ evicted_for env r p target ∧
    ∀ env_p asked record, rr_answer_later r p = Some (Resp_Query (handle_query env_p (Q_GetReplicatedRecord asked target)).2) →
      env_get_local_record (qe_node env_p) (to_record_key target) = Some (Some record) →
      ∀ chunk, @try_deserialize_record Chunk _ record = Ok chunk → to_record_key (chunk_network_address chunk) ≠ to_record_key target.
Proof.
  intros Hj Hjl Hsh Hnd Hcmd. unfold verify_local_replication_health in Hcmd.
  destruct (rr_closest r) as [closest|]; [|set_solver]. destruct (_ <=? _)%nat; [set_solver|].
  destruct (head _) as [target|] eqn:Htarget; [|set_solver]. destruct (rr_record_closest r target) as [peers|] eqn:Hpeers; [|set_solver].
  cbv zeta in Hcmd. destruct (_ <? REPLICA_FETCH_PEER_COUNT)%nat; [set_solver|]. simpl in Hcmd.
  set (asked := rr_joined r _) in Hcmd.
  destruct (length _ =? 0)%nat; [set_solver|]. destruct (Nat.ltb_spec (length (filter (λ p, is_copy target (rr_answer r p) = true) asked)) MIN_HEALTHY_REPLICA_COUNT) as [|Hgood]; [set_solver|].
  destruct (retry_evicts _ _ _ _ _ _ Hjl Hcmd) as (p & later & Hp & Hfailed & Hl & Hlater & Hagain).
  apply list_elem_of_filter in Hfailed as [Hfirst Hin]. unfold asked in Hin. rewrite Hj in Hin.
  assert (p ∈ filter (λ q, q ≠ env_peer_id (qe_node env)) peers) as Hclose.
  { rewrite <- (take_drop REPLICA_FETCH_PEER_COUNT (filter (λ q, q ≠ env_peer_id (qe_node env)) peers)). set_solver. }
  apply list_elem_of_filter in Hclose as [Hself Hclose]. exists p, target. split_and!; [done| |].
  - assert (target ∈ nearby_records env closest) as Hnear by (rewrite <- (Hsh (nearby_records env closest)); by apply head_Some_elem_of).
    split; eauto using nearby_held. exists (filter (λ q, is_copy target (rr_answer r q) = true) asked). split_and!; [|done|].
    + apply NoDup_filter. unfold asked. rewrite Hj. apply (sublist_NoDup _ (filter (λ q, q ≠ env_peer_id (qe_node env)) peers)); [apply NoDup_filter, (Hnd _ _ Hpeers)|apply sublist_take].
    + by intros q [Hq _]%list_elem_of_filter.
  - intros env_p who record Hans Hrec chunk Hchunk Haddr. rewrite Hans in Hagain. simpl in Hagain. rewrite Hrec in Hagain.
    assert (@try_deserialize_record Chunk _ (local_record (to_record_key target) (rec_value record)) = Ok chunk) as Hcopy by exact Hchunk.
    rewrite Hcopy, bool_decide_eq_true_2 in Hagain by done. done.
Qed.
End props.

(** ** Concrete challenges *)

Section concrete.
#[local] Existing Instances toy_xorname toy_hex toy_bls toy_layout toy_kad toy_rmp_header toy_identity toy_digests toy_ant_merkle
  toy_serde_target toy_bodies hash_order_rev toy_error_text toy_node_text toy_serde_address toy_serde_peers.

Definition ex_chunk_address (k : Z) : NetworkAddress := NA_ChunkAddress (mkChunkAddress [k]).

Lemma healthy_score_exact_witness :
  let expected : gmap NetworkAddress ChunkProof := {[ex_chunk_address 1 := [7]; ex_chunk_address 2 := [8]]} in
  let answers := [(ex_chunk_address 2, [8]); (ex_chunk_address 3, [9])] in
  mark_peer (from_secs 1) answers expected = Some 4000 ∧
  ∃ s, mark_peer (from_secs 1) answers expected = Some s ∧ 0 ≤ s ≤ HIGHEST_SCORE * HIGHEST_SCORE ∧
    (is_healthy s = true → as_millis (from_secs 1) < 3500 ∧ truthful expected answers ∧
       31 * Z.of_nat (size expected) ≤ 100 * Z.of_nat (length (relevant expected answers))) ∧
    (truthful expected answers → (size expected ≤ length (relevant expected answers))%nat →
       (is_healthy s = true ↔ as_millis (from_secs 1) < 3500)).
Proof.
  split; [vm_compute; reflexivity|].
  apply (healthy_score_exact (from_secs 1) [(ex_chunk_address 2, [8]); (ex_chunk_address 3, [9])]); [by vm_compute|].
  intros E%(f_equal size). vm_compute in E. discriminate.
Defined.

Lemma repeated_answer_full_score_witness :
  challenge_score_scheme (repeat (ex_chunk_address 1, [7]) 2) {[ex_chunk_address 1 := [7]; ex_chunk_address 2 := [8]]} = Some HIGHEST_SCORE.
Proof. apply repeated_answer_full_score; [vm_compute; reflexivity|vm_compute; lia]. Defined.

(** Fifty chunks, held by both nodes. *)
Definition ex_stored : gmap bytes KadRecord := list_to_map ((λ k, ([k], local_record [k] [k; 7])) <$> seqZ 0 50).
Definition ex_addresses : gmap NetworkAddress ValidationType := list_to_map ((λ k, (ex_chunk_address k, VT_Chunk)) <$> seqZ 0 50).

Definition ex_challenge : Challenge :=
  match make_challenge (ex_query_env ex_stored ex_addresses) (Some [[5]; [4]; [6]; [7]; [8]; [9]]) 3 1234 with
  | Some c => c
  | None => {| ch_query := Q_GetVersion (NA_PeerId []); ch_peers := []; ch_expected := ∅ |}
  end.

Definition ex_answer (p : bytes) : option Response * Z :=
  (Some (Resp_Query (handle_query (ex_query_env ex_stored ex_addresses) (ch_query ex_challenge)).2), from_secs 2).

Lemma honest_neighbour_passes_witness :
  ∃ s, scoring_peer (ex_answer [6]).1 (ex_answer [6]).2 (ch_expected ex_challenge) = Some s ∧
    (is_healthy s = true ↔ as_millis (from_secs 2) < 3500) ∧
    (3500 ≤ as_millis (from_secs 2) < 3550 → s = MIN_ACCEPTABLE_HEALTHY_SCORE ∧ is_healthy s = false) ∧
    ∃ scores, NotifyPeerScores scores ∈ judge_peers reverse ex_answer ex_challenge ∧ ([6], is_healthy s) ∈ scores.
Proof.
  apply (honest_neighbour_passes (ex_query_env ex_stored ex_addresses) (ex_query_env ex_stored ex_addresses)
           (Some [[5]; [4]; [6]; [7]; [8]; [9]]) 3 1234 ex_challenge ex_addresses [6] (from_secs 2) reverse ex_answer).
  - unfold ex_challenge. destruct (make_challenge _ _ _ _) eqn:E; [reflexivity|]. exfalso. apply (f_equal (λ o, bool_decide (is_Some o))) in E.
    vm_compute in E. discriminate.
  - intros E%(f_equal size). vm_compute in E. discriminate.
  - reflexivity.
  - intros a Ha. split; [|reflexivity].
    assert (map_Forall (λ a _, a ∈ take CLOSE_GROUP_SIZE (sort_by_key (distance (query_dst (ch_query ex_challenge)))
              (proof_candidates ex_addresses true))) (ch_expected ex_challenge)) as Hall by (apply (bool_decide_unpack _); vm_compute; exact I).
    apply elem_of_dom in Ha as [p Hp]. exact (Hall a p Hp).
  - by vm_compute.
  - apply elem_of_reverse. apply (bool_decide_unpack _). vm_compute. exact I.
  - reflexivity.
Defined.

(** Four peers give a copy of a chunk, the peer [6] does not, twice. *)
Definition ex_copy : bytes :=
  match try_serialize_record (chunk_new ex_chunk) (DataOnly Chunk_t) with Ok v => v | Err _ => [] end.

Definition ex_round : ReplicaRound :=
  {| rr_closest := Some [[5]; [1]; [2]; [3]; [4]; [6]; [7]; replicate 32 255]; rr_shuffle l := l;
     rr_record_closest _ := Some [[1]; [2]; [3]; [4]; [6]]; rr_joined := reverse;
     rr_answer p := if decide (p = [6]) then None else Some (Resp_Query (R_GetReplicatedRecord (Ok (NA_PeerId p, ex_copy))));
     rr_closest_later := Some [[6]; [1]]; rr_joined_later l := l; rr_answer_later _ := None |}.

Lemma eviction_justified_witness :
  ∃ p target, (AddPeerToBlockList [6] = RemovePeer p ∨ AddPeerToBlockList [6] = AddPeerToBlockList p) ∧
    evicted_for (ex_query_env ∅ {[ex_key := VT_Chunk]}) ex_round p target ∧
    ∀ env_p asked record, rr_answer_later ex_round p = Some (Resp_Query (handle_query env_p (Q_GetReplicatedRecord asked target)).2) →
      env_get_local_record (qe_node env_p) (to_record_key target) = Some (Some record) →
      ∀ chunk, @try_deserialize_record Chunk _ record = Ok chunk → to_record_key (chunk_network_address chunk) ≠ to_record_key target.
Proof.
  apply (eviction_justified (ex_query_env ∅ {[ex_key := VT_Chunk]}) ex_round (AddPeerToBlockList [6])).
  - intros l. apply reverse_Permutation.
  - reflexivity.
  - reflexivity.
  - intros a peers [= <-]. apply (bool_decide_unpack _). vm_compute. exact I.
  - assert (verify_local_replication_health (ex_query_env ∅ {[ex_key := VT_Chunk]}) ex_round = [RemovePeer [6]; AddPeerToBlockList [6]]) as ->
      by (vm_compute; reflexivity).
    right. left.
Defined.
End concrete.
