(* ===== verification/NodeEventsProps.v ===== *)
(** * Properties of the node's events

    Of src/ant-node/src/node.rs and src/ant-node/src/replication.rs: what the loop writes is valid and
    paid for or asked for, a fetched record is the one its holder holds, who is sent a record in
    network-wide replication, and when the node says that it is connected. *)

From stdpp Require Import base gmap countable strings list sorting.
From Stdlib Require Import ZArith Lia.
From S2P Require Import Prelude Text Protocol Storage RecordCache RecordStore MerkleTree MerkleTreeProps Payments PaymentsProps.
From S2P Require Import PutValidation PutValidationFacts PutValidationProps ReplicationFetcher Driver Messages TaskHandler TaskHandlerProps.
From S2P Require Import NodeQueries NodeQueriesProps StorageChallenge StorageChallengeProps CloseGroupTracker NodeEvents.

Section props.
Context `{XorNameLib, Hex, BlsOrdLaws, Layout, Kad, RmpHeaderLaws, Libp2pIdentity, AntMerkle, HashOrder}.
Context `{BSer : !BodySerde, BLaws : !BodySerdeLaws, !NodeText, !Serde NetworkAddress, !Serde (list (NetworkAddress * list bytes))}.
Context (peer_cmp : bytes → bytes → comparison) `{!CmpLaws peer_cmp}.
Context (env : QueryEnv) (net : NodeNet).

(** ** Replication copies records *)

Abbreviation self_address := (NA_PeerId (env_peer_id (qe_node env))).
Abbreviation step := (loop_step peer_cmp env net).

(** C11: replication copies records. A node that is told to fetch a record it does not hold, from a
    peer that holds it and answers as nodes do, sends exactly that record to its store, whatever its
    kind. *)
Theorem replication_copies env_h holder r b now s :
  record_holds r b → absent (qe_node env) (rec_key r) → env_get_local_record (qe_node env_h) (rec_key r) = Some (Some r) →
  (∀ q, nn_ask net holder q = Some (Resp_Query (handle_query env_h q).2)) →
  step now (OnNetwork (EvKeysToFetchForReplication [(holder, rec_key r)])) s = (s, [AStore (PutLocalRecord r false)]).
Proof.
  intros Hr Habsent Hheld Hanswer. simpl. unfold fetch_replication_keys_without_wait. simpl. unfold fetch_replication_key. rewrite Hanswer.
  simpl. rewrite Hheld. assert (local_record (rec_key r) (rec_value r) = r) as ->.
  { destruct Hr as (v & _ & Hrec & _). rewrite Hrec at 3. by rewrite Hrec. }
  assert (store_replicated_in_record (qe_node env) r = ([PutLocalRecord r false], Ok tt)) as ->; [|done].
  by eapply record_copied.
Qed.

(** ** What the loop writes *)

(** Why a record may be written: it was to be fetched, or a put of it carries a payment, or its key is
    held already. *)
Definition write_justified (event : LoopEvent) (r : KadRecord) : Prop :=
  let put record := rec_key r = rec_key record ∧
    (env_is_record_key_present (qe_node env) (rec_key record) = Some true ∨ paid_for (qe_node env) record) in
  match event with
  | OnNetwork (EvKeysToFetchForReplication keys) => ∃ holder, (holder, rec_key r) ∈ keys
  | OnNetwork (EvUnverifiedRecord record) => put record
  | OnNetwork (EvQueryRequestReceived (Q_PutRecord _ serialized_record address) _) =>
    put (local_record (to_record_key address) serialized_record)
  | _ => False
  end.

Lemma written_put record r c :
  locals_valid (qe_node env) → PutLocalRecord r c ∈ (validate_and_store_record (qe_node env) record).1 →
  (∃ b, record_holds r b) ∧ rec_key r = rec_key record ∧
  (env_is_record_key_present (qe_node env) (rec_key record) = Some true ∨ paid_for (qe_node env) record).
Proof.
  intros Hloc Hin. destruct (client_written _ _ _ _ (Hloc _) Hin) as [(Hk & b & Hb & _) Hpaid]. split_and!; [by exists b|done|by apply Hpaid].
Qed.

Lemma query_writes query r c :
  PutLocalRecord r c ∈ (handle_query env query).1 →
  ∃ holder serialized_record address, query = Q_PutRecord holder serialized_record address ∧
    PutLocalRecord r c ∈ (validate_and_store_record (qe_node env) (local_record (to_record_key address) serialized_record)).1.
Proof.
  destruct query; simpl; try (by intros ?%not_elem_of_nil). intros Hin. eexists _, _, _. split; [done|].
  by destruct (validate_and_store_record _ _).
Qed.

Lemma fresh_no_put k r c : PutLocalRecord r c ∉ (accept_fresh_key env k).1.
Proof.
  destruct k as [[[addr t] vt] [payment|]]; simpl.
  - intros Hin. apply (payment_no_put (qe_node env) addr t payment r c). by destruct (payment_for_us_exists_and_is_still_valid _ _ _ _).
  - intros Hin. apply (validate_key_silent (qe_node env) addr (to_record_key addr) (PutLocalRecord r c)). by destruct (validate_key_and_existence _ _ _).
Qed.

Lemma store_in_fmap (l : list NodeEffect) e : AStore e ∈ AStore <$> l → e ∈ l.
Proof. intros (e' & [= ->] & Hin)%list_elem_of_fmap. done. Qed.

Lemma version_no_store peer e : AStore e ∉ try_query_peer_version net peer.
Proof. unfold try_query_peer_version. repeat case_match; set_solver. Qed.

Lemma network_wide_no_store key vt e : AStore e ∉ network_wide_replication_per_key peer_cmp env net key vt.
Proof.
  unfold network_wide_replication_per_key. destruct (nn_closest net key); [|set_solver]. cbv zeta.
  intros [Hin|(p & ? & _)%list_elem_of_fmap]%elem_of_app; [destruct (_ <=? _)%nat; set_solver|done].
Qed.

Lemma event_writes now event s r c :
  locals_valid (qe_node env) → AStore (PutLocalRecord r c) ∈ (handle_network_event peer_cmp env net now event s).2 →
  (∃ b, record_holds r b) ∧ write_justified (OnNetwork event) r.
Proof.
  intros Hloc Hin. destruct event as [p|p|keys|query ch|record|reason|bad|quotes|holder keys|peers|keys|]; simpl in Hin.
  - destruct (record_peer_added _ _ _) as [d t]. simpl in Hin. apply elem_of_app in Hin as [Hin|[Hin|Hin]%elem_of_app].
    + destruct (_ =? _); set_solver.
    + by apply version_no_store in Hin.
    + unfold replicate_if in Hin. destruct (should_trigger d); set_solver.
  - destruct (record_peer_removed _ _ _) as [d t]. simpl in Hin. unfold replicate_if in Hin. destruct (should_trigger d); set_solver.
  - apply store_in_fmap, list_elem_of_bind in Hin as ([holder key] & Hin & Hkey). unfold fetch_replication_key in Hin.
    destruct (nn_ask net holder _) as [[|[| |[[who content]|]| | | | |]]|]; try (by apply not_elem_of_nil in Hin).
    destruct (replicated_written _ _ _ _ (Hloc _) Hin) as [(Hk & b & Hb & _) _]. split; [by exists b|]. simpl. exists holder. by rewrite Hk.
  - destruct (handle_query env query) as [effects res] eqn:Hq. simpl in Hin. apply elem_of_app in Hin as [Hin|Hin]; [|set_solver].
    apply store_in_fmap in Hin. change effects with (effects, res).1 in Hin. rewrite <- Hq in Hin.
    apply query_writes in Hin as (who & content & address & -> & Hin). destruct (written_put _ _ _ Hloc Hin) as (Hb & Hk & Hp). by split.
  - apply store_in_fmap in Hin. destruct (written_put _ _ _ Hloc Hin) as (Hb & Hk & Hp). by split.
  - set_solver.
  - unfold on_failed_to_fetch in Hin. apply list_elem_of_omap in Hin as ([p key] & _ & Hp). simpl in Hp. repeat case_match; simplify_eq.
  - destruct (quotes_verification _ _); set_solver.
  - unfold fresh_replicate_to_fetch in Hin. cbv zeta in Hin. apply elem_of_app in Hin as [Hin|Hin].
    + apply store_in_fmap, list_elem_of_bind in Hin as (k & Hin & _). by apply fresh_no_put in Hin.
    + destruct (omap _ _); set_solver.
  - apply list_elem_of_bind in Hin as (p & Hin & _). by apply version_no_store in Hin.
  - apply list_elem_of_bind in Hin as ([key vt] & Hin & _). by apply network_wide_no_store in Hin.
  - set_solver.
Qed.

(** C4: what a node writes. Whatever event the loop handles, if the records held are valid, a record
    it sends to its store is valid under its key and is there for a reason: the node was told to fetch
    that key for replication, or it is the key of a put, by a query or as an unverified record, that
    carries an accepted payment or whose key the node holds already. *)
Theorem loop_writes_justified now event s r c :
  locals_valid (qe_node env) → AStore (PutLocalRecord r c) ∈ (step now event s).2 →
  (∃ b, record_holds r b) ∧ write_justified event r.
Proof.
  intros Hloc Hin. destruct event as [event| | | |closest index nonce joined elapsed rr]; simpl in Hin; [by eapply event_writes|set_solver..|].
  by apply list_elem_of_fmap in Hin as (? & ? & _).
Qed.

(** ** Network-wide replication *)

(** Network-wide replication of a record. The record is sent to exactly those of the five found
    closest to it that answer that they have not got it, each once; peers that fail to answer are left
    alone; and the driver is told that the record is not where it belongs exactly if these are three
    or more. *)
Theorem network_wide_per_key_exact key vt peers :
  nn_closest net key = Some peers → NoDup peers →
  let asked := take CLOSE_GROUP_SIZE (sort_by_key (λ p, distance key (NA_PeerId p)) peers) in
  let lacking := filter (λ p, lacks_record (nn_ask net p (Q_GetReplicatedRecord self_address key)) = true) asked in
  let actions := network_wide_replication_per_key peer_cmp env net key vt in
  (∀ p keys, ASendReplicate p keys ∈ actions ↔ keys = [(key, vt)] ∧ p ∈ lacking) ∧
  (ACmd RecordNotAtTargetLocation ∈ actions ↔ (3 ≤ length lacking)%nat) ∧
  length actions = (length lacking + if decide (3 ≤ length lacking)%nat then 1 else 0)%nat.
Proof.
  intros Hc Hnd. cbv zeta. unfold network_wide_replication_per_key. rewrite Hc. cbv zeta.
  set (asked := take CLOSE_GROUP_SIZE _). set (P := λ p, lacks_record (nn_ask net p (Q_GetReplicatedRecord self_address key)) = true).
  assert (NoDup asked) as Hasked.
  { apply (sublist_NoDup _ (sort_by_key (λ p, distance key (NA_PeerId p)) peers)); [by rewrite sort_by_key_perm|apply sublist_take]. }
  assert (filter P (bt_extend peer_cmp [] asked) ≡ₚ filter P asked) as Hperm.
  { apply NoDup_Permutation; [apply NoDup_filter, (bt_sorted_NoDup peer_cmp), (bt_extend_sorted peer_cmp); constructor|by apply NoDup_filter|].
    intros p. rewrite !list_elem_of_filter, (elem_of_bt_extend peer_cmp). set_solver. }
  change (CLOSE_GROUP_SIZE / 2 + 1)%nat with 3%nat. rewrite (Permutation_length Hperm). split_and!.
  - intros p keys. rewrite elem_of_app, list_elem_of_fmap. split.
    + intros [Hin|(q & [= -> ->] & Hq)]; [destruct (3 <=? _)%nat; set_solver|]. by rewrite Hperm in Hq.
    + intros [-> Hin]. right. exists p. split; [done|]. by rewrite Hperm.
  - rewrite elem_of_app. split.
    + intros [Hin|(q & ? & _)%list_elem_of_fmap]; [|done]. destruct (Nat.leb_spec 3 (length (filter P asked))); [done|set_solver].
    + intros Hle. left. destruct (Nat.leb_spec 3 (length (filter P asked))); [left|lia].
  - rewrite length_app, length_fmap, (Permutation_length Hperm). destruct (Nat.leb_spec 3 (length (filter P asked))), (decide _); simpl; lia.
Qed.

(** ** Connected *)

(** The events that tell of a new peer, and the actions that say the node is connected. *)
Definition is_addition (x : Z * LoopEvent) : bool := match x.2 with OnNetwork (EvPeerAdded _) => true | _ => false end.
Definition is_connected (a : NodeAction) : bool := match a with ABroadcast ConnectedToNetwork => true | _ => false end.

Definition additions (l : list (Z * LoopEvent)) : Z := Z.of_nat (length (filter (λ x, is_addition x = true) l)).
Definition connected_count (l : list NodeAction) : Z := Z.of_nat (length (filter (λ a, is_connected a = true) l)).

Fixpoint loop_run (l : list (Z * LoopEvent)) (s : NodeState) : NodeState * list NodeAction :=
  match l with
  | [] => (s, [])
  | (now, event) :: l => let '(s, actions) := step now event s in let '(s', rest) := loop_run l s in (s', actions ++ rest)
  end.

Lemma connected_count_app l k : connected_count (l ++ k) = connected_count l + connected_count k.
Proof. unfold connected_count. rewrite filter_app, length_app. lia. Qed.

Lemma connected_count_none l : (∀ a, a ∈ l → is_connected a = false) → connected_count l = 0.
Proof.
  unfold connected_count. induction l as [|a l IH]; intros Hall; [done|]. rewrite filter_cons_False.
  - apply IH. intros b Hb. apply Hall. by right.
  - rewrite Hall by left. done.
Qed.

Lemma fmap_not_connected {A} (f : A → NodeAction) l : (∀ x, is_connected (f x) = false) → connected_count (f <$> l) = 0.
Proof. intros Hf. apply connected_count_none. intros a (x & -> & _)%list_elem_of_fmap. apply Hf. Qed.

Lemma version_not_connected p a : a ∈ try_query_peer_version net p → is_connected a = false.
Proof. unfold try_query_peer_version. intros Hin. repeat case_match; by apply list_elem_of_singleton in Hin as ->. Qed.

Lemma directive_not_connected d : connected_count (replicate_if d) = 0.
Proof. unfold replicate_if. by destruct (should_trigger d). Qed.

Lemma network_wide_not_connected key vt a : a ∈ network_wide_replication_per_key peer_cmp env net key vt → is_connected a = false.
Proof.
  unfold network_wide_replication_per_key. destruct (nn_closest net key); [|set_solver]. cbv zeta.
  intros [Hin|(p & -> & _)%list_elem_of_fmap]%elem_of_app; [|done]. destruct (_ <=? _)%nat; [by apply list_elem_of_singleton in Hin as ->|set_solver].
Qed.

(** An event other than a new peer leaves the count of peers and does not say connected. *)
Lemma step_not_addition now event s :
  is_addition (now, event) = false →
  nd_peers_connected (step now event s).1 = nd_peers_connected s ∧ connected_count (step now event s).2 = 0.
Proof.
  destruct event as [[p|p|keys|query ch|record|reason|bad|quotes|holder keys|peers|keys|]| | | |closest index nonce joined elapsed rr];
    simpl; try done; intros _.
  - destruct (record_peer_removed _ _ _). split; [done|apply directive_not_connected].
  - split; [done|by apply fmap_not_connected].
  - destruct (handle_query _ _). simpl. split; [done|]. by rewrite connected_count_app, fmap_not_connected.
  - split; [done|by apply fmap_not_connected].
  - split; [done|]. apply connected_count_none. intros a ([p key] & _ & Ha)%list_elem_of_omap. simpl in Ha. repeat case_match; by simplify_eq.
  - split; [done|]. by destruct (quotes_verification _ _).
  - split; [done|]. unfold fresh_replicate_to_fetch. cbv zeta. rewrite connected_count_app, fmap_not_connected by done. by destruct (omap _ _).
  - split; [done|]. apply connected_count_none. intros a (p & Ha & _)%list_elem_of_bind. by eapply version_not_connected.
  - split; [done|]. apply connected_count_none. intros a ([key vt] & Ha & _)%list_elem_of_bind. by eapply network_wide_not_connected.
  - split; [done|by apply fmap_not_connected].
Qed.

Lemma step_addition now p s :
  nd_peers_connected (step now (OnNetwork (EvPeerAdded p)) s).1 = (nd_peers_connected s + 1) mod 2 ^ 64 ∧
  connected_count (step now (OnNetwork (EvPeerAdded p)) s).2 = if (nd_peers_connected s + 1) mod 2 ^ 64 =? 5 then 1 else 0.
Proof.
  cbn [loop_step handle_network_event]. cbv zeta. destruct (record_peer_added _ _ _) as [d t]. split; [done|]. cbn [snd].
  rewrite !connected_count_app, directive_not_connected, (connected_count_none (try_query_peer_version net p)) by (intros a; apply version_not_connected).
  change (Z.of_nat CLOSE_GROUP_SIZE) with 5. by destruct (_ =? 5).
Qed.

Lemma run_connected l s :
  0 ≤ nd_peers_connected s → nd_peers_connected s + Z.of_nat (length l) < 2 ^ 64 →
  connected_count (loop_run l s).2 =
    if decide (nd_peers_connected s < 5 ≤ nd_peers_connected s + additions l) then 1 else 0.
Proof.
  revert s. induction l as [|[now event] l IH]; intros s H0s Hlen.
  { unfold additions. simpl. rewrite decide_False by lia. done. }
  simpl. rewrite length_cons in Hlen. destruct (is_addition (now, event)) eqn:Hadd.
  - destruct event as [[p| | | | | | | | | | |]| | | |]; try done. pose proof (step_addition now p s) as [Hn Hc].
    destruct (step now (OnNetwork (EvPeerAdded p)) s) as [s1 actions]. cbn [fst snd] in Hn, Hc. rewrite Z.mod_small in Hn, Hc by lia.
    specialize (IH s1 ltac:(lia) ltac:(lia)). destruct (loop_run l s1) as [s2 rest]. simpl in IH |- *. rewrite connected_count_app, Hc, IH, Hn.
    unfold additions. rewrite filter_cons_True by done. rewrite length_cons.
    assert (0 ≤ Z.of_nat (length (filter (λ x, is_addition x = true) l))) by lia.
    destruct (Z.eqb_spec (nd_peers_connected s + 1) 5); repeat case_decide; lia.
  - pose proof (step_not_addition now event s Hadd) as [Hn Hc]. destruct (step now event s) as [s1 actions]. cbn [fst snd] in Hn, Hc.
    specialize (IH s1 ltac:(lia) ltac:(lia)). destruct (loop_run l s1) as [s2 rest]. simpl in IH |- *. rewrite connected_count_app, Hc, IH, Hn.
    unfold additions. rewrite filter_cons_False by (by rewrite Hadd). done.
Qed.

(** A node says once that it is connected. Over any run of the loop from its start, of fewer than
    2^64 events, the event is broadcast at most once, and it is exactly if the loop was told five times
    of a new peer, whether or not those peers have left since. *)
Theorem connected_once l :
  Z.of_nat (length l) < 2 ^ 64 →
  connected_count (loop_run l (node_state_new env)).2 = if decide (5 ≤ additions l) then 1 else 0.
Proof.
  intros Hlen. rewrite run_connected by (simpl; lia). simpl. unfold additions. repeat case_decide; lia.
Qed.

(** ** Fresh records *)

(** Fresh records are fetched only with reason. Of a list of fresh records the fetcher is given at
    most one command, from that holder, with exactly those keys in their order for which a payment to
    the node is accepted or, where there is none, that the node holds. *)
Theorem fresh_replication_justified now holder keys s :
  let actions := (step now (OnNetwork (EvFreshReplicateToFetch holder keys)) s).2 in
  let justified := λ k : FreshKey, match k with
    | (addr, t, _, Some payment) => (payment_for_us_exists_and_is_still_valid (qe_node env) addr t payment).2 = Ok tt
    | (addr, _, _, None) => env_is_record_key_present (qe_node env) (to_record_key addr) = Some true
    end in
  (∀ cmd, ACmd cmd ∈ actions → ∃ ks, cmd = AddFreshReplicateRecords holder ks ∧ ks ≠ [] ∧
     ∀ addr vt, (addr, vt) ∈ ks ↔ ∃ t payment, (addr, t, vt, payment) ∈ keys ∧ justified (addr, t, vt, payment)) ∧
  ((∃ k, k ∈ keys ∧ justified k) → ∃ cmd, ACmd cmd ∈ actions).
Proof.
  cbv zeta. cbn [loop_step handle_network_event snd]. unfold fresh_replicate_to_fetch. cbv zeta.
  set (ks := omap _ keys).
  assert (∀ addr t vt payment, (accept_fresh_key env (addr, t, vt, payment)).2 = true ↔
    match payment with
    | Some payment => (payment_for_us_exists_and_is_still_valid (qe_node env) addr t payment).2 = Ok tt
    | None => env_is_record_key_present (qe_node env) (to_record_key addr) = Some true
    end) as Hacc.
  { intros addr t vt [payment|]; simpl.
    - destruct (payment_for_us_exists_and_is_still_valid _ _ _ _) as [effects [[]|e]]; done.
    - unfold validate_key_and_existence. rewrite bool_decide_eq_false_2 by tauto. simpl.
      destruct (env_is_record_key_present _ _) as [[]|]; naive_solver. }
  assert (∀ addr vt, (addr, vt) ∈ ks ↔ ∃ t payment, (addr, t, vt, payment) ∈ keys ∧ (accept_fresh_key env (addr, t, vt, payment)).2 = true) as Hks.
  { intros addr vt. unfold ks. rewrite list_elem_of_omap. split.
    - intros ([[[a t] v] payment] & Hin & Hk). destruct (accept_fresh_key env _).2 eqn:E; simplify_eq. simpl. eauto.
    - intros (t & payment & Hin & Hk). exists (addr, t, vt, payment). by rewrite Hk. }
  split.
  - intros cmd [(e & ? & _)%list_elem_of_fmap|Hin]%elem_of_app; [done|]. destruct ks as [|k ks'] eqn:E; [set_solver|].
    apply list_elem_of_singleton in Hin as [= ->]. eexists. split_and!; [done|done|]. intros addr vt. rewrite Hks. setoid_rewrite Hacc. done.
  - intros ([[[addr t] vt] payment] & Hin & Hk). assert ((addr, vt) ∈ ks) as Hmem.
    { apply Hks. exists t, payment. split; [done|]. by apply Hacc; destruct payment. }
    exists (AddFreshReplicateRecords holder ks). apply elem_of_app. right. destruct ks; [by apply not_elem_of_nil in Hmem|left].
Qed.
End props.

(** ** A concrete node *)

Section concrete.
#[local] Existing Instances toy_xorname toy_hex toy_bls toy_bls_laws toy_bls_ord_laws toy_layout toy_kad toy_rmp_header toy_rmp_header_laws
  toy_identity toy_digests toy_ant_merkle toy_serde_target toy_bodies toy_bodies_laws hash_order_rev toy_error_text toy_node_text
  toy_serde_address toy_serde_peers.

Abbreviation toy_cmp := (list_cmp Z.compare).

(** A chunk that the peer [6] holds and the node does not; other peers have not got it. *)
Definition ex_record : KadRecord := local_record (replicate 32 12) ex_copy.

Lemma ex_record_holds : record_holds ex_record (B_Chunk (chunk_new ex_chunk)).
Proof. exists ex_copy. split; [vm_compute; reflexivity|]. split; [reflexivity|]. split; [reflexivity|]. split; [vm_compute; reflexivity|vm_compute; congruence]. Qed.

Definition ex_node_env : QueryEnv := ex_query_env ∅ ∅.
Definition ex_holder_env : QueryEnv := ex_query_env {[replicate 32 12 := ex_record]} ∅.

Definition ex_net : NodeNet :=
  {| nn_ask p q := Some (Resp_Query (handle_query (if decide (p = [6]) then ex_holder_env else ex_node_env) q).2);
     nn_closest _ := Some [[6]; [1]; [2]; [3]; [4]; [7]] |}.

Lemma ex_locals_valid : locals_valid (qe_node ex_node_env).
Proof. intros k l Hk. simpl in Hk. by rewrite lookup_empty in Hk. Qed.

Lemma replication_copies_witness :
  loop_step toy_cmp ex_node_env ex_net 0 (OnNetwork (EvKeysToFetchForReplication [([6], replicate 32 12)])) (node_state_new ex_node_env) =
  (node_state_new ex_node_env, [AStore (PutLocalRecord ex_record false)]).
Proof.
  apply (replication_copies toy_cmp ex_node_env ex_net ex_holder_env [6] ex_record (B_Chunk (chunk_new ex_chunk)));
    [apply ex_record_holds|split; reflexivity|reflexivity|reflexivity].
Defined.

Lemma loop_writes_justified_witness :
  (∃ b, record_holds ex_record b) ∧ ∃ holder, (holder, rec_key ex_record) ∈ [([6], replicate 32 12)].
Proof.
  apply (loop_writes_justified toy_cmp ex_node_env ex_net 0 (OnNetwork (EvKeysToFetchForReplication [([6], replicate 32 12)]))
           (node_state_new ex_node_env) ex_record false); [apply ex_locals_valid|].
  assert ((loop_step toy_cmp ex_node_env ex_net 0 (OnNetwork (EvKeysToFetchForReplication [([6], replicate 32 12)]))
             (node_state_new ex_node_env)).2 = [AStore (PutLocalRecord ex_record false)]) as -> by (vm_compute; reflexivity).
  left.
Defined.

Lemma network_wide_per_key_exact_witness :
  let asked := take CLOSE_GROUP_SIZE (sort_by_key (λ p, distance ex_key (NA_PeerId p)) [[6]; [1]; [2]; [3]; [4]; [7]]) in
  let lacking := filter (λ p, lacks_record (nn_ask ex_net p (Q_GetReplicatedRecord (NA_PeerId [5]) ex_key)) = true) asked in
  let actions := network_wide_replication_per_key toy_cmp ex_node_env ex_net ex_key VT_Chunk in
  (∀ p keys, ASendReplicate p keys ∈ actions ↔ keys = [(ex_key, VT_Chunk)] ∧ p ∈ lacking) ∧
  (ACmd RecordNotAtTargetLocation ∈ actions ↔ (3 ≤ length lacking)%nat) ∧
  length actions = (length lacking + if decide (3 ≤ length lacking)%nat then 1 else 0)%nat.
Proof.
  apply (network_wide_per_key_exact toy_cmp ex_node_env ex_net ex_key VT_Chunk [[6]; [1]; [2]; [3]; [4]; [7]]); [reflexivity|].
  apply (bool_decide_unpack _). vm_compute. exact I.
Defined.

Lemma connected_once_witness :
  let l := (λ k, (k, OnNetwork (EvPeerAdded [k]))) <$> [1; 2; 3; 4; 6; 7] in
  connected_count (loop_run toy_cmp ex_node_env ex_net l (node_state_new ex_node_env)).2 = if decide (5 ≤ additions l) then 1 else 0.
Proof. apply (connected_once toy_cmp ex_node_env ex_net). simpl. lia. Defined.
End concrete.
