(* ===== verification/ServiceManagement.v ===== *)
(** * Services of nodes: data, registry and states

    Models src/ant-service-management/src: the data kept of a node's service and its older versions
    (node/node_service_data.rs and _v0, _v1, _v2), the registry and its file (registry.rs), what a service
    tells the manager of itself ([ServiceStateActions] of lib.rs, with its instances of node/mod.rs and
    daemon.rs), the names of binaries while they are replaced and versions they print (control.rs). The
    operating system is a world [Os]: its services and processes are the class [ServiceControl], as in the
    source, its files the class [FileSystem]; [RpcActions] asks a running node. Texts, paths and peer ids
    are bytes. *)

From stdpp Require Import base gmap countable strings list.
From Stdlib Require Import ZArith Lia.
From S2P Require Import Prelude Text Effects Protocol Multiaddr BootstrapCache.

#[local] Open Scope rust_scope.

(** ** States and results *)

Inductive ServiceStatus := SS_Added | SS_Running | SS_Stopped | SS_Removed.

#[global] Instance ServiceStatus_eq_dec : EqDecision ServiceStatus.
Proof. solve_decision. Defined.

Inductive NatDetectionStatus := Nat_Public | Nat_UPnP | Nat_Private.

Inductive UpgradeResult :=
  | UR_Forced (from to : bytes)
  | UR_NotRequired
  | UR_Upgraded (from to : bytes)
  | UR_UpgradedButNotStarted (from to err : bytes)
  | UR_Error (err : bytes).

(** The errors of ant-service-management; those of other crates are their texts. *)
Inductive SvcError :=
  | SE_AddrParseError (e : bytes)
  | SE_DaemonEndpointNotSet
  | SE_Io (e : bytes)
  | SE_Json (e : bytes)
  | SE_MultiAddrParseError (e : bytes)
  | SE_NodeNotFound (name : bytes)
  | SE_ParseIntError (e : bytes)
  | SE_PeerIdParseError (e : bytes)
  | SE_RpcConnectionError (endpoint : bytes)
  | SE_RpcNodeInfoError (e : bytes)
  | SE_RpcNetworkInfoError (e : bytes)
  | SE_RpcNodeRestartError (e : bytes)
  | SE_RpcNodeStopError (e : bytes)
  | SE_RpcNodeUpdateError (e : bytes)
  | SE_RpcRecordAddressError (e : bytes)
  | SE_ServiceProcessNotFound (path : bytes)
  | SE_ServiceDoesNotExists (name : bytes)
  | SE_ServiceRemovedManually (name : bytes)
  | SE_ServiceUserAccountCreationFailed
  | SE_UserDataDirectoryNotObtainable
  | SE_Utf8Error (e : bytes).

(** ** Data *)

(** An IPv4 address and a port; no other kind is made. *)
Definition SocketAddr : Type := Z * Z.

Inductive LogFormat := LF_Default | LF_Json.

Definition log_format_as_str (f : LogFormat) : bytes := match f with LF_Default => text "default" | LF_Json => text "json" end.

Record CustomNetwork := {
  cn_rpc_url_http : bytes; cn_payment_token_address : Z; cn_data_payments_address : Z; cn_merkle_payments_address : option Z;
}.

Inductive EvmNetwork := ArbitrumOne | ArbitrumSepoliaTest | Custom (n : CustomNetwork).

Definition evm_network_to_string (n : EvmNetwork) : bytes :=
  match n with
  | ArbitrumOne => text "evm-arbitrum-one"
  | ArbitrumSepoliaTest => text "evm-arbitrum-sepolia-test"
  | Custom _ => text "evm-custom"
  end.

Definition NODE_SERVICE_DATA_SCHEMA_V1 : Z := 1.
Definition NODE_SERVICE_DATA_SCHEMA_V2 : Z := 2.
Definition NODE_SERVICE_DATA_SCHEMA_LATEST : Z := NODE_SERVICE_DATA_SCHEMA_V2.

Record NodeServiceDataV0 := {
  v0_antnode_path : bytes; v0_auto_restart : bool; v0_connected_peers : option (list bytes); v0_data_dir_path : bytes;
  v0_evm_network : EvmNetwork; v0_home_network : bool; v0_listen_addr : option (list Multiaddr); v0_log_dir_path : bytes;
  v0_log_format : option LogFormat; v0_max_archived_log_files : option Z; v0_max_log_files : option Z;
  v0_metrics_port : option Z; v0_network_id : option Z; v0_node_ip : option Z; v0_node_port : option Z; v0_number : Z;
  v0_peer_id : option bytes; v0_peers_args : InitialPeersConfig; v0_pid : option Z; v0_rewards_address : Z;
  v0_reward_balance : option Z; v0_rpc_socket_addr : SocketAddr; v0_service_name : bytes; v0_status : ServiceStatus;
  v0_upnp : bool; v0_user : option bytes; v0_user_mode : bool; v0_version : bytes;
}.

Record NodeServiceDataV1 := {
  v1_schema_version : Z; v1_antnode_path : bytes; v1_auto_restart : bool; v1_connected_peers : option (list bytes);
  v1_data_dir_path : bytes; v1_evm_network : EvmNetwork; v1_initial_peers_config : InitialPeersConfig;
  v1_listen_addr : option (list Multiaddr); v1_log_dir_path : bytes; v1_log_format : option LogFormat;
  v1_max_archived_log_files : option Z; v1_max_log_files : option Z; v1_metrics_port : option Z; v1_network_id : option Z;
  v1_node_ip : option Z; v1_node_port : option Z; v1_no_upnp : bool; v1_number : Z; v1_peer_id : option bytes; v1_pid : option Z;
  v1_relay : bool; v1_rewards_address : Z; v1_reward_balance : option Z; v1_rpc_socket_addr : SocketAddr;
  v1_service_name : bytes; v1_status : ServiceStatus; v1_user : option bytes; v1_user_mode : bool; v1_version : bytes;
}.

(** [NodeServiceDataV2]. *)
Record NodeServiceData := {
  n_alpha : bool; n_schema_version : Z; n_antnode_path : bytes; n_auto_restart : bool; n_connected_peers : option (list bytes);
  n_data_dir_path : bytes; n_evm_network : EvmNetwork; n_initial_peers_config : InitialPeersConfig;
  n_listen_addr : option (list Multiaddr); n_log_dir_path : bytes; n_log_format : option LogFormat;
  n_max_archived_log_files : option Z; n_max_log_files : option Z; n_metrics_port : option Z; n_network_id : option Z;
  n_node_ip : option Z; n_node_port : option Z; n_no_upnp : bool; n_number : Z; n_peer_id : option bytes; n_pid : option Z;
  n_relay : bool; n_rewards_address : Z; n_reward_balance : option Z; n_rpc_socket_addr : SocketAddr; n_service_name : bytes;
  n_status : ServiceStatus; n_user : option bytes; n_user_mode : bool; n_version : bytes; n_write_older_cache_files : bool;
}.

Definition node_v1_of_v0 (v0 : NodeServiceDataV0) : NodeServiceDataV1 :=
  {| v1_schema_version := NODE_SERVICE_DATA_SCHEMA_V1; v1_antnode_path := v0_antnode_path v0; v1_auto_restart := v0_auto_restart v0;
     v1_connected_peers := v0_connected_peers v0; v1_data_dir_path := v0_data_dir_path v0; v1_evm_network := v0_evm_network v0;
     v1_initial_peers_config := v0_peers_args v0; v1_listen_addr := v0_listen_addr v0; v1_log_dir_path := v0_log_dir_path v0;
     v1_log_format := v0_log_format v0; v1_max_archived_log_files := v0_max_archived_log_files v0;
     v1_max_log_files := v0_max_log_files v0; v1_metrics_port := v0_metrics_port v0; v1_network_id := v0_network_id v0;
     v1_node_ip := v0_node_ip v0; v1_node_port := v0_node_port v0; v1_no_upnp := negb (v0_upnp v0); v1_number := v0_number v0;
     v1_peer_id := v0_peer_id v0; v1_pid := v0_pid v0; v1_relay := v0_home_network v0; v1_rewards_address := v0_rewards_address v0;
     v1_reward_balance := v0_reward_balance v0; v1_rpc_socket_addr := v0_rpc_socket_addr v0; v1_service_name := v0_service_name v0;
     v1_status := v0_status v0; v1_user := v0_user v0; v1_user_mode := v0_user_mode v0; v1_version := v0_version v0 |}.

Definition node_v2_of_v1 (v1 : NodeServiceDataV1) : NodeServiceData :=
  {| n_alpha := false; n_schema_version := NODE_SERVICE_DATA_SCHEMA_V2; n_antnode_path := v1_antnode_path v1;
     n_auto_restart := v1_auto_restart v1; n_connected_peers := v1_connected_peers v1; n_data_dir_path := v1_data_dir_path v1;
     n_evm_network := v1_evm_network v1; n_initial_peers_config := v1_initial_peers_config v1; n_listen_addr := v1_listen_addr v1;
     n_log_dir_path := v1_log_dir_path v1; n_log_format := v1_log_format v1; n_max_archived_log_files := v1_max_archived_log_files v1;
     n_max_log_files := v1_max_log_files v1; n_metrics_port := v1_metrics_port v1; n_network_id := v1_network_id v1;
     n_node_ip := v1_node_ip v1; n_node_port := v1_node_port v1; n_no_upnp := v1_no_upnp v1; n_number := v1_number v1;
     n_peer_id := v1_peer_id v1; n_pid := v1_pid v1; n_relay := v1_relay v1; n_rewards_address := v1_rewards_address v1;
     n_reward_balance := v1_reward_balance v1; n_rpc_socket_addr := v1_rpc_socket_addr v1; n_service_name := v1_service_name v1;
     n_status := v1_status v1; n_user := v1_user v1; n_user_mode := v1_user_mode v1; n_version := v1_version v1;
     n_write_older_cache_files := false |}.

(** The fields that change while a service is managed. *)
Definition nsd_set (d : NodeServiceData) (listen_addr : option (list Multiaddr)) (node_port : option Z) (connected_peers : option (list bytes))
    (peer_id : option bytes) (pid : option Z) (version : bytes) (status : ServiceStatus) (reward_balance : option Z) : NodeServiceData :=
  {| n_alpha := n_alpha d; n_schema_version := n_schema_version d; n_antnode_path := n_antnode_path d; n_auto_restart := n_auto_restart d;
     n_connected_peers := connected_peers; n_data_dir_path := n_data_dir_path d; n_evm_network := n_evm_network d;
     n_initial_peers_config := n_initial_peers_config d; n_listen_addr := listen_addr; n_log_dir_path := n_log_dir_path d;
     n_log_format := n_log_format d; n_max_archived_log_files := n_max_archived_log_files d; n_max_log_files := n_max_log_files d;
     n_metrics_port := n_metrics_port d; n_network_id := n_network_id d; n_node_ip := n_node_ip d; n_node_port := node_port;
     n_no_upnp := n_no_upnp d; n_number := n_number d; n_peer_id := peer_id; n_pid := pid; n_relay := n_relay d;
     n_rewards_address := n_rewards_address d; n_reward_balance := reward_balance; n_rpc_socket_addr := n_rpc_socket_addr d;
     n_service_name := n_service_name d; n_status := status; n_user := n_user d; n_user_mode := n_user_mode d; n_version := version;
     n_write_older_cache_files := n_write_older_cache_files d |}.

Record DaemonServiceData := {
  ds_daemon_path : bytes; ds_endpoint : option SocketAddr; ds_pid : option Z; ds_service_name : bytes; ds_status : ServiceStatus; ds_version : bytes;
}.

(** ** Installation *)

(** [service_manager::RestartPolicy]. *)
Inductive RestartPolicy :=
  | RP_Never
  | RP_Always (delay_secs : option Z)
  | RP_OnFailure (delay_secs max_retries reset_after_secs : option Z)
  | RP_OnSuccess (delay_secs : option Z).

(** [service_manager::ServiceInstallCtx]. *)
Record ServiceInstallCtx := {
  ic_args : list bytes; ic_autostart : bool; ic_contents : option bytes; ic_environment : option (list (bytes * bytes));
  ic_label : bytes; ic_program : bytes; ic_restart_policy : RestartPolicy; ic_username : option bytes; ic_working_directory : option bytes;
}.

(** ** What lies outside *)

(** The trait [ServiceControl]: the services and processes of the operating system. *)
Class ServiceControl (Os : Type) := {
  create_service_user : bytes → CM Os SvcError ();
  get_available_port : CM Os SvcError Z;
  install : ServiceInstallCtx → bool → CM Os SvcError ();
  get_process_pid : bytes → CM Os SvcError Z;
  get_process_version : Z → CM Os SvcError (option bytes);
  control_start : bytes → bool → CM Os SvcError ();
  control_stop : bytes → bool → CM Os SvcError ();
  control_uninstall : bytes → bool → CM Os SvcError ();
  verify_process_by_pid : Z → bytes → CM Os SvcError bool;
  control_wait : Z → Os → Os;
}.

(** [std::fs]; errors are their texts. *)
Class FileSystem (Os : Type) := {
  fs_exists : bytes → Os → bool;
  fs_read_to_string : bytes → CM Os bytes bytes;
  fs_create_dir_all : bytes → CM Os bytes ();
  fs_create_file : bytes → CM Os bytes ();
  fs_write_all : bytes → bytes → CM Os bytes ();
  fs_copy : bytes → bytes → CM Os bytes ();
  fs_remove_file : bytes → CM Os bytes ();
  fs_remove_dir_all : bytes → CM Os bytes ();
}.

(** [std::path]. *)
Class Paths := {
  path_join : bytes → bytes → bytes;
  path_parent : bytes → option bytes;
  path_file_name : bytes → option bytes;
  path_eqb : bytes → bytes → bool;
}.

(** The answers of a node's rpc service (tonic); the peer ids and addresses in them are parsed by libp2p. *)
Record NodeInfoResponse := { nir_pid : Z; nir_peer_id : bytes; nir_log_dir : bytes; nir_data_dir : bytes; nir_bin_version : bytes; nir_uptime_secs : Z; nir_wallet_balance : Z }.
Record NetworkInfoResponse := { nwr_connected_peers : list bytes; nwr_listeners : list bytes }.

Class AntNodeClient (Os : Type) := {
  client_connect : bytes → CM Os bytes ();
  client_node_info : bytes → CM Os bytes NodeInfoResponse;
  client_network_info : bytes → CM Os bytes NetworkInfoResponse;
  client_sleep : Z → Os → Os;
  rpc_peer_id_from_bytes : bytes → result bytes bytes;
  rpc_multiaddr_from_str : bytes → result Multiaddr bytes;
}.

(** Texts of values of other crates, and [ServiceLabel]'s parser. *)
Class ServiceTexts := {
  multiaddr_to_string : Multiaddr → bytes;
  evm_address_to_string : Z → bytes;
  parse_service_label : bytes → result bytes bytes;
}.

(** The crate semver. *)
Class Semver := {
  Version : Type;
  version_parse : bytes → result Version bytes;
  version_eqb : Version → Version → bool;
  version_ltb : Version → Version → bool;
  version_to_string : Version → bytes;
}.

Definition show_number (n : Z) : bytes := show_digits 20 n.

Definition show_ipv4 (ip : Z) : bytes :=
  show_number (ip / 2 ^ 24) ++ text "." ++ show_number (ip / 2 ^ 16 mod 256) ++ text "." ++ show_number (ip / 2 ^ 8 mod 256) ++ text "." ++ show_number (ip mod 256).

Definition socket_addr_to_string (a : SocketAddr) : bytes := show_ipv4 a.1 ++ text ":" ++ show_number a.2.

(** ** RpcClient *)

Record NodeInfo := { ni_pid : Z; ni_peer_id : bytes; ni_log_path : bytes; ni_data_path : bytes; ni_version : bytes; ni_uptime : Z; ni_wallet_balance : Z }.
Record NetworkInfo := { nwi_connected_peers : list bytes; nwi_listeners : list Multiaddr }.

Record RpcClient := { rc_endpoint : bytes; rc_max_attempts : Z; rc_retry_delay : Z }.

Definition MAX_CONNECTION_RETRY_ATTEMPTS : Z := 5.
Definition CONNECTION_RETRY_DELAY_SEC : Z := 1.

Definition rpc_client_new (endpoint : bytes) : RpcClient :=
  {| rc_endpoint := endpoint; rc_max_attempts := MAX_CONNECTION_RETRY_ATTEMPTS; rc_retry_delay := CONNECTION_RETRY_DELAY_SEC |}.

Definition from_socket_addr (socket : SocketAddr) : RpcClient := rpc_client_new (text "https://" ++ socket_addr_to_string socket).

Definition set_max_attempts (c : RpcClient) (max_retry_attempts : Z) : RpcClient :=
  {| rc_endpoint := rc_endpoint c; rc_max_attempts := max_retry_attempts; rc_retry_delay := rc_retry_delay c |}.

Section rpc.
Context {Os : Type} `{AntNodeClient Os}.
#[local] Open Scope cm_scope.

(** The loop of [connect_with_retry] with [remaining] attempts, at least one. *)
Fixpoint connect_loop (c : RpcClient) (remaining : nat) : CM Os SvcError () :=
  match remaining with
  | 0%nat => cm_err (SE_RpcConnectionError (rc_endpoint c))
  | S remaining =>
    let! r := cm_try (client_connect (rc_endpoint c)) in
    match r with
    | Ok _ => cm_ret ()
    | Err _ => let! _ := cm_modify (client_sleep (rc_retry_delay c)) in connect_loop c remaining
    end
  end.

Definition connect_with_retry (c : RpcClient) : CM Os SvcError () := connect_loop c (Z.to_nat (Z.max 1 (rc_max_attempts c))).

Definition rpc_node_info (c : RpcClient) : CM Os SvcError NodeInfo :=
  let! _ := connect_with_retry c in
  let! resp := cm_map_err SE_RpcNodeInfoError (client_node_info (rc_endpoint c)) in
  let! peer_id := cm_lift (map_err SE_PeerIdParseError (rpc_peer_id_from_bytes (nir_peer_id resp))) in
  cm_ret {| ni_pid := nir_pid resp; ni_peer_id := peer_id; ni_log_path := nir_log_dir resp; ni_data_path := nir_data_dir resp;
            ni_version := nir_bin_version resp; ni_uptime := nir_uptime_secs resp; ni_wallet_balance := nir_wallet_balance resp |}.

(** A list whose first element that is not parsed fails the whole. *)
Definition parse_all {A} (parse : bytes → result A SvcError) (l : list bytes) : result (list A) SvcError :=
  foldr (λ b r, let? a := parse b in let? l := r in Ok (a :: l)) (Ok []) l.

Definition rpc_network_info (c : RpcClient) : CM Os SvcError NetworkInfo :=
  let! _ := connect_with_retry c in
  let! resp := cm_map_err SE_RpcNodeInfoError (client_network_info (rc_endpoint c)) in
  let! connected_peers := cm_lift (parse_all (λ b, map_err SE_PeerIdParseError (rpc_peer_id_from_bytes b)) (nwr_connected_peers resp)) in
  let! listeners := cm_lift (parse_all (λ b, map_err SE_MultiAddrParseError (rpc_multiaddr_from_str b)) (nwr_listeners resp)) in
  cm_ret {| nwi_connected_peers := connected_peers; nwi_listeners := listeners |}.

(** The loop of [is_node_connected_to_network]. *)
Fixpoint connected_loop (c : RpcClient) (remaining : nat) : CM Os SvcError () :=
  match remaining with
  | 0%nat => cm_err (SE_RpcConnectionError (rc_endpoint c))
  | S remaining =>
    let! connected := cm_try (let! _ := client_connect (rc_endpoint c) in client_network_info (rc_endpoint c)) in
    match connected with
    | Ok response =>
      if (CLOSE_GROUP_SIZE <? length (nwr_connected_peers response))%nat then cm_ret ()
      else let! _ := cm_modify (client_sleep (rc_retry_delay c)) in connected_loop c remaining
    | Err _ => let! _ := cm_modify (client_sleep (rc_retry_delay c)) in connected_loop c remaining
    end
  end.

Definition is_node_connected_to_network (c : RpcClient) (timeout : Z) : CM Os SvcError () :=
  connected_loop c (Z.to_nat (Z.max 1 (timeout / rc_retry_delay c))).
End rpc.

(** ** ServiceStateActions *)

Section services.
Context `{Semver, ServiceTexts}.

Record UpgradeOptions := {
  uo_auto_restart : bool; uo_env_variables : option (list (bytes * bytes)); uo_force : bool; uo_start_service : bool;
  uo_target_bin_path : bytes; uo_target_version : Version;
}.

(** The trait of what a service tells the manager and is told by it; [Svc] is its data. *)
Class ServiceStateActions (Svc Os : Type) := {
  bin_path : Svc → bytes;
  build_upgrade_install_context : UpgradeOptions → Svc → result ServiceInstallCtx SvcError;
  data_dir_path : Svc → bytes;
  is_user_mode : Svc → bool;
  log_dir_path : Svc → bytes;
  service_name : Svc → bytes;
  service_pid : Svc → option Z;
  on_remove : Svc → Svc;
  on_start : option Z → bool → CM (Svc * Os) SvcError ();
  on_stop : Svc → Svc;
  set_version : bytes → Svc → Svc;
  service_status : Svc → ServiceStatus;
  service_version : Svc → bytes;
}.

Definition flag (name : bytes) (b : bool) : list bytes := if b then [name] else [].
Definition opt_arg {A} (name : bytes) (show : A → bytes) (o : option A) : list bytes := match o with Some a => [name; show a] | None => [] end.
Definition list_arg {A} (name : bytes) (show : A → bytes) (l : list A) : list bytes :=
  match l with [] => [] | _ => [name; join_on 44 (show <$> l)] end.

Definition push_arguments_from_initial_peers_config (c : InitialPeersConfig) (args : list bytes) : list bytes :=
  args ++ flag (text "--first") (ip_first c) ++ flag (text "--local") (ip_local c) ++
  list_arg (text "--peer") multiaddr_to_string (ip_addrs c) ++ list_arg (text "--network-contacts-url") id (ip_network_contacts_url c) ++
  flag (text "--ignore-cache") (ip_ignore_cache c) ++ opt_arg (text "--bootstrap-cache-dir") id (ip_bootstrap_cache_dir c).

(** The last arguments: the EVM network and its details. *)
Definition evm_args (n : EvmNetwork) : list bytes :=
  evm_network_to_string n ::
  match n with
  | Custom c =>
    [text "--rpc-url"; cn_rpc_url_http c; text "--payment-token-address"; evm_address_to_string (cn_payment_token_address c);
     text "--data-payments-address"; evm_address_to_string (cn_data_payments_address c)] ++
    opt_arg (text "--merkle-payments-address") evm_address_to_string (cn_merkle_payments_address c)
  | _ => []
  end.

Definition node_build_upgrade_install_context (options : UpgradeOptions) (d : NodeServiceData) : result ServiceInstallCtx SvcError :=
  let? label := map_err SE_Io (parse_service_label (n_service_name d)) in
  let args :=
    push_arguments_from_initial_peers_config (n_initial_peers_config d)
      [text "--rpc"; socket_addr_to_string (n_rpc_socket_addr d); text "--root-dir"; n_data_dir_path d; text "--log-output-dest"; n_log_dir_path d] ++
    opt_arg (text "--log-format") log_format_as_str (n_log_format d) ++
    opt_arg (text "--network-id") show_number (n_network_id d) ++
    flag (text "--no-upnp") (n_no_upnp d) ++ flag (text "--relay") (n_relay d) ++ flag (text "--alpha") (n_alpha d) ++
    opt_arg (text "--ip") show_ipv4 (n_node_ip d) ++ opt_arg (text "--port") show_number (n_node_port d) ++
    opt_arg (text "--metrics-server-port") show_number (n_metrics_port d) ++
    opt_arg (text "--max-archived-log-files") show_number (n_max_archived_log_files d) ++
    opt_arg (text "--max-log-files") show_number (n_max_log_files d) ++
    [text "--stop-on-upgrade"; text "--rewards-address"; evm_address_to_string (n_rewards_address d)] ++
    flag (text "--write-older-cache-files") (n_write_older_cache_files d) ++ evm_args (n_evm_network d) in
  Ok {| ic_args := args; ic_autostart := uo_auto_restart options; ic_contents := None; ic_environment := uo_env_variables options;
        ic_label := label; ic_program := n_antnode_path d; ic_restart_policy := RP_OnSuccess None; ic_username := n_user d;
        ic_working_directory := None |}.

Definition node_on_remove (d : NodeServiceData) : NodeServiceData :=
  nsd_set d (n_listen_addr d) (n_node_port d) (n_connected_peers d) (n_peer_id d) (n_pid d) (n_version d) SS_Removed (n_reward_balance d).

Definition node_on_stop (d : NodeServiceData) : NodeServiceData :=
  nsd_set d (n_listen_addr d) (n_node_port d) None (n_peer_id d) None (n_version d) SS_Stopped (n_reward_balance d).

Definition node_set_version (version : bytes) (d : NodeServiceData) : NodeServiceData :=
  nsd_set d (n_listen_addr d) (n_node_port d) (n_connected_peers d) (n_peer_id d) (n_pid d) version (n_status d) (n_reward_balance d).

Definition get_port_from_multiaddr (a : Multiaddr) : option Z := head (omap (λ p, match p with Udp port => Some port | _ => None end) a).

Section node_service.
Context {Os : Type} `{!ServiceControl Os, !AntNodeClient Os}.
#[local] Open Scope cm_scope.

(** What a full refresh asks of the node: its peers, its id and its listen addresses, also put into the data. *)
Definition full_refresh_info (client : RpcClient) (connection_timeout : option Z) : CM (NodeServiceData * Os) SvcError (option (list bytes) * option bytes) :=
  let! _ := cm_on_snd (match connection_timeout with Some t => is_node_connected_to_network client t | None => cm_ret () end) in
  let! node_info := cm_on_snd (rpc_node_info client) in
  let! network_info := cm_on_snd (rpc_network_info client) in
  let! _ := cm_on_fst (cm_modify (λ d,
    nsd_set d (Some ((λ addr, addr ++ [P2p (ni_peer_id node_info)]) <$> nwi_listeners network_info))
      (match head (omap get_port_from_multiaddr (nwi_listeners network_info)) with Some port => Some port | None => n_node_port d end)
      (n_connected_peers d) (n_peer_id d) (n_pid d) (n_version d) (n_status d) (n_reward_balance d))) in
  cm_ret (Some (nwi_connected_peers network_info), Some (ni_peer_id node_info)).

Definition node_on_start (client : RpcClient) (connection_timeout : option Z) (pid : option Z) (full_refresh : bool) : CM (NodeServiceData * Os) SvcError () :=
  let! (connected_peers, peer_id) :=
    if full_refresh then full_refresh_info client connection_timeout
    else cm_get (λ w, (n_connected_peers w.1, n_peer_id w.1)) in
  let! version :=
    match pid with
    | Some pid =>
      let! v := cm_try (cm_on_snd (get_process_version pid)) in
      match v with
      | Ok (Some v) => cm_ret v
      | _ => cm_get (λ w, n_version w.1)
      end
    | None => cm_get (λ w, n_version w.1)
    end in
  cm_on_fst (cm_modify (λ d, nsd_set d (n_listen_addr d) (n_node_port d) connected_peers peer_id pid version SS_Running (n_reward_balance d))).

(** [NodeService]: the data, and the rpc client and time-out it is made with. *)
Definition node_service (client : RpcClient) (connection_timeout : option Z) : ServiceStateActions NodeServiceData Os :=
  {| bin_path := n_antnode_path; build_upgrade_install_context := node_build_upgrade_install_context; data_dir_path := n_data_dir_path;
     is_user_mode := n_user_mode; log_dir_path := n_log_dir_path; service_name := n_service_name; service_pid := n_pid;
     on_remove := node_on_remove; on_start := node_on_start client connection_timeout; on_stop := node_on_stop;
     set_version := node_set_version; service_status := n_status; service_version := n_version |}.

Definition ds_set (d : DaemonServiceData) (pid : option Z) (status : ServiceStatus) (version : bytes) : DaemonServiceData :=
  {| ds_daemon_path := ds_daemon_path d; ds_endpoint := ds_endpoint d; ds_pid := pid; ds_service_name := ds_service_name d; ds_status := status; ds_version := version |}.

Definition daemon_build_upgrade_install_context (options : UpgradeOptions) (d : DaemonServiceData) : result ServiceInstallCtx SvcError :=
  let? e := ok_or (ds_endpoint d) SE_DaemonEndpointNotSet in
  let? label := map_err SE_Io (parse_service_label (ds_service_name d)) in
  Ok {| ic_args := [text "--port"; show_number e.2; text "--address"; show_ipv4 e.1]; ic_autostart := true; ic_contents := None;
        ic_environment := None; ic_label := label; ic_program := ds_daemon_path d; ic_restart_policy := RP_Always None;
        ic_username := None; ic_working_directory := None |}.

Definition daemon_service : ServiceStateActions DaemonServiceData Os :=
  {| bin_path := ds_daemon_path; build_upgrade_install_context := daemon_build_upgrade_install_context; data_dir_path := λ _, [];
     is_user_mode := λ _, false; log_dir_path := λ _, []; service_name := ds_service_name; service_pid := ds_pid;
     on_remove := λ d, ds_set d (ds_pid d) SS_Removed (ds_version d);
     on_start := λ pid _, cm_on_fst (cm_modify (λ d, ds_set d pid SS_Running (ds_version d)));
     on_stop := λ d, ds_set d None SS_Stopped (ds_version d); set_version := λ v d, ds_set d (ds_pid d) (ds_status d) v;
     service_status := ds_status; service_version := ds_version |}.
End node_service.
End services.

(** ** The registry *)

(** [NodeRegistryManager]: the nodes are shared by their place in the list. *)
Record NodeRegistry := {
  reg_daemon : option DaemonServiceData; reg_environment_variables : option (list (bytes * bytes)); reg_nat_status : option NatDetectionStatus;
  reg_nodes : list NodeServiceData; reg_save_path : bytes;
}.

Definition reg_with_nodes (r : NodeRegistry) (nodes : list NodeServiceData) : NodeRegistry :=
  {| reg_daemon := reg_daemon r; reg_environment_variables := reg_environment_variables r; reg_nat_status := reg_nat_status r;
     reg_nodes := nodes; reg_save_path := reg_save_path r |}.

Definition reg_with_env (r : NodeRegistry) (env : option (list (bytes * bytes))) : NodeRegistry :=
  {| reg_daemon := reg_daemon r; reg_environment_variables := env; reg_nat_status := reg_nat_status r;
     reg_nodes := reg_nodes r; reg_save_path := reg_save_path r |}.

Definition registry_empty (save_path : bytes) : NodeRegistry :=
  {| reg_daemon := None; reg_environment_variables := None; reg_nat_status := None; reg_nodes := []; reg_save_path := save_path |}.

Definition registry_reset (r : NodeRegistry) : NodeRegistry := registry_empty (reg_save_path r).

Definition push_node (node : NodeServiceData) (r : NodeRegistry) : NodeRegistry := reg_with_nodes r (reg_nodes r ++ [node]).

Definition insert_daemon (daemon : DaemonServiceData) (r : NodeRegistry) : NodeRegistry :=
  {| reg_daemon := Some daemon; reg_environment_variables := reg_environment_variables r; reg_nat_status := reg_nat_status r;
     reg_nodes := reg_nodes r; reg_save_path := reg_save_path r |}.

(** serde_json: the text of a registry, the values of the nodes in it, and what is read from a value in each version. *)
Class RegistryJson := {
  json_value : Type;
  json_of_registry : NodeRegistry → result bytes bytes;
  json_parse : bytes → result (option DaemonServiceData * option (list (bytes * bytes)) * option NatDetectionStatus * list json_value * bytes) bytes;
  json_schema_version : json_value → option Z;
  json_read_v0 : json_value → result NodeServiceDataV0 bytes;
  json_read_v1 : json_value → result NodeServiceDataV1 bytes;
  json_read_v2 : json_value → result NodeServiceData bytes;
}.

(** The reader of a node's data, of whatever version. *)
Definition deserialize_node `{RegistryJson} (v : json_value) : result NodeServiceData bytes :=
  match json_schema_version v with
  | Some 2 => map_err (λ e, text "Failed to deserialize as V2: " ++ e) (json_read_v2 v)
  | Some 1 => let? v1 := map_err (λ e, text "Failed to deserialize as V1: " ++ e) (json_read_v1 v) in Ok (node_v2_of_v1 v1)
  | _ => let? v0 := map_err (λ e, text "Failed to deserialize as V0: " ++ e) (json_read_v0 v) in Ok (node_v2_of_v1 (node_v1_of_v0 v0))
  end.

Definition registry_from_json `{RegistryJson} (json : bytes) : result NodeRegistry SvcError :=
  let? raw := map_err SE_Json (json_parse json) in
  let '(daemon, env, nat_status, values, save_path) := raw in
  let? nodes := foldr (λ v r, let? n := map_err SE_Json (deserialize_node v) in let? l := r in Ok (n :: l)) (Ok []) values in
  Ok {| reg_daemon := daemon; reg_environment_variables := env; reg_nat_status := nat_status; reg_nodes := nodes; reg_save_path := save_path |}.

Section registry_file.
Context {Os : Type} `{!FileSystem Os, !Paths, !RegistryJson}.
#[local] Open Scope cm_scope.

Definition registry_save (r : NodeRegistry) : CM Os SvcError () :=
  let! _ := cm_map_err SE_Io (match path_parent (reg_save_path r) with Some parent => fs_create_dir_all parent | None => cm_ret () end) in
  let! json := cm_lift (map_err SE_Json (json_of_registry r)) in
  let! _ := cm_map_err SE_Io (fs_create_file (reg_save_path r)) in
  cm_map_err SE_Io (fs_write_all (reg_save_path r) json).

Definition registry_load (path : bytes) : CM Os SvcError NodeRegistry :=
  let! exists_ := cm_get (fs_exists path) in
  if negb exists_ then cm_ret (registry_empty path)
  else
    let! contents := cm_map_err SE_Io (fs_read_to_string path) in
    if bool_decide (contents = []) then cm_ret (registry_empty path) else cm_lift (registry_from_json contents).
End registry_file.

(** ** Binaries that are being replaced *)

(** The place of the last byte of [cs]. *)
Definition rfind (cs : list Z) (s : bytes) : option nat := (λ x, x.1) <$> last (filter (λ x, x.2 ∈ cs) (imap pair s)).

(** [s.split_once(p)]. *)
Fixpoint split_once (p s : bytes) : option (bytes * bytes) :=
  if starts_with p s then Some ([], drop (length p) s)
  else match s with
       | [] => None
       | c :: s => '(a, b) ← split_once p s; Some (c :: a, b)
       end.

Definition normalize_relocated_path (path : bytes) : bytes :=
  let filename_start := match rfind [47; 92] path with Some pos => S pos | None => 0%nat end in
  let dir := take filename_start path in
  let filename := drop filename_start path in
  match filename with
  | 46 :: without_dot =>
    match split_once (text ".__relocated__") without_dot with
    | None => path
    | Some (before_relocated, after_relocated) =>
      match rfind [46] before_relocated with
      | Some dot_pos => dir ++ take dot_pos before_relocated ++ after_relocated
      | None => path
      end
    end
  | _ => path
  end.

Definition normalize_path_for_comparison (path : bytes) : bytes :=
  let normalized := trim_end_matches (text ".old") (trim_end_matches (text ".bak") (trim_end_matches (text " (deleted)") path)) in
  if contains_text (text ".__relocated__") normalized then normalize_relocated_path normalized else normalized.

(** [ServiceController]'s search of the processes of the system, each with the path of its binary. *)
Definition runs_binary `{Paths} (bin_path : bytes) (exe : option bytes) : bool :=
  match exe with
  | Some path => path_eqb bin_path path || bool_decide (normalize_path_for_comparison path = normalize_path_for_comparison bin_path)
  | None => false
  end.

Definition find_process_pid `{Paths} (processes : list (Z * option bytes)) (bin_path : bytes) : result Z SvcError :=
  match list_find (λ x, runs_binary bin_path x.2 = true) processes with
  | Some (_, (pid, _)) => Ok pid
  | None => Err (SE_ServiceProcessNotFound bin_path)
  end.

Definition process_named `{Paths} (processes : list (Z * option bytes)) (pid : Z) (expected_name : bytes) : bool :=
  match list_find (λ x, x.1 = pid) processes with
  | Some (_, (_, Some exe_path)) =>
    let normalized_name := normalize_path_for_comparison (default [] (path_file_name exe_path)) in
    bool_decide (normalized_name = expected_name) || starts_with expected_name normalized_name
  | _ => false
  end.
