(* ===== verification/ServiceManager.v ===== *)
(** * The service manager

    Models src/ant-node-manager/src/lib.rs: starting, stopping, removing and upgrading a service, over any
    implementation of the trait [ServiceStateActions], and the refresh of the registry, which finds out
    which nodes run. What is printed and the level of verbosity are left out. *)

From stdpp Require Import base gmap countable strings list.
From Stdlib Require Import ZArith Lia.
From S2P Require Import Prelude Text Effects Multiaddr ServiceManagement.

#[local] Open Scope rust_scope.

Definition RPC_START_UP_DELAY_MS : Z := 3000.

(** The errors of the node manager. *)
Inductive MgrError :=
  | ME_Json (e : bytes)
  | ME_Io (e : bytes)
  | ME_PidNotFoundAfterStarting
  | ME_PidNotSet
  | ME_SemverError (e : bytes)
  | ME_ServiceAlreadyRunning (names : list bytes)
  | ME_ServiceNotRunning (names : list bytes)
  | ME_ServiceManagementError (e : SvcError)
  | ME_ServiceStatusMismatch (expected : ServiceStatus).

(** The texts of the errors. *)
Class MgrTexts := { mgr_error_text : MgrError → bytes }.

(** ** ServiceManager *)

Section service_manager.
Context `{Semver, ServiceTexts, MgrTexts} {Svc Os : Type} `{!ServiceStateActions Svc Os, !ServiceControl Os, !FileSystem Os}.
#[local] Open Scope cm_scope.

(** Operations of the system, with the errors they give the manager. *)
Definition os_op {A} (m : CM Os SvcError A) : CM (Svc * Os) MgrError A := cm_map_err ME_ServiceManagementError (cm_on_snd m).
Definition fs_op {A} (m : CM Os bytes A) : CM (Svc * Os) MgrError A := cm_map_err ME_Io (cm_on_snd m).
Definition tell (f : Svc → Svc) : CM (Svc * Os) MgrError () := cm_on_fst (cm_modify f).

(** [service_control.get_process_pid(&self.service.bin_path().await).is_ok()]. *)
Definition process_found : CM (Svc * Os) MgrError bool :=
  let! path := cm_get (λ w, bin_path w.1) in
  let! r := cm_try (cm_on_snd (get_process_pid path)) in
  cm_ret (is_ok r).

Definition manager_start : CM (Svc * Os) MgrError () :=
  let! s := cm_get fst in
  let! already_running := if bool_decide (service_status s = SS_Running) then process_found else cm_ret false in
  if already_running : bool then cm_ret ()
  else
    let! _ := os_op (control_start (service_name s) (is_user_mode s)) in
    let! _ := cm_on_snd (cm_modify (control_wait RPC_START_UP_DELAY_MS)) in
    let! r := cm_try (cm_on_snd (get_process_pid (bin_path s))) in
    match r with
    | Ok pid => cm_map_err ME_ServiceManagementError (on_start (Some pid) true)
    | Err (SE_ServiceProcessNotFound _) => cm_err ME_PidNotFoundAfterStarting
    | Err err => cm_err (ME_ServiceManagementError err)
    end.

Definition manager_stop : CM (Svc * Os) MgrError () :=
  let! s := cm_get fst in
  match service_status s with
  | SS_Added => cm_ret ()
  | SS_Removed => cm_ret ()
  | SS_Running =>
    let! _ := cm_lift (ok_or (service_pid s) ME_PidNotSet) in
    let! running := process_found in
    let! _ := if running : bool then os_op (control_stop (service_name s) (is_user_mode s)) else cm_ret () in
    tell on_stop
  | SS_Stopped => cm_ret ()
  end.

(** [if path.exists() { std::fs::remove_dir_all(path)?; }]. *)
Definition remove_dir_if_exists (path : bytes) : CM (Svc * Os) MgrError () :=
  let! exists_ := cm_get (λ w, fs_exists path w.2) in
  if exists_ : bool then fs_op (fs_remove_dir_all path) else cm_ret ().

Definition manager_remove (keep_directories : bool) : CM (Svc * Os) MgrError () :=
  let! s := cm_get fst in
  let! _ :=
    if bool_decide (service_status s = SS_Running) then
      let! running := process_found in
      if running : bool then cm_err (ME_ServiceAlreadyRunning [service_name s])
      else let! _ := tell on_stop in cm_err (ME_ServiceStatusMismatch SS_Running)
    else cm_ret () in
  let! r := cm_try (cm_on_snd (control_uninstall (service_name s) (is_user_mode s))) in
  let! _ :=
    match r with
    | Ok _ => cm_ret ()
    | Err (SE_ServiceRemovedManually _) => cm_ret ()
    | Err (SE_ServiceDoesNotExists _) => cm_ret ()
    | Err err => cm_err (ME_ServiceManagementError err)
    end in
  let! _ :=
    if keep_directories then cm_ret ()
    else let! _ := remove_dir_if_exists (data_dir_path s) in remove_dir_if_exists (log_dir_path s) in
  tell on_remove.

Definition manager_upgrade (options : UpgradeOptions) : CM (Svc * Os) MgrError UpgradeResult :=
  let! s := cm_get fst in
  let! current_version := cm_lift (map_err ME_SemverError (version_parse (service_version s))) in
  let target := uo_target_version options in
  if negb (uo_force options) && (version_eqb current_version target || version_ltb target current_version) then cm_ret UR_NotRequired
  else
    let! _ := manager_stop in
    let! s := cm_get fst in
    let! _ := fs_op (fs_copy (uo_target_bin_path options) (bin_path s)) in
    let! _ := os_op (control_uninstall (service_name s) (is_user_mode s)) in
    let! ctx := cm_lift (map_err ME_ServiceManagementError (build_upgrade_install_context (Os := Os) options s)) in
    let! _ := os_op (install ctx (is_user_mode s)) in
    let! started := if uo_start_service options then cm_try manager_start else cm_ret (Ok ()) in
    let! _ := tell (set_version (version_to_string target)) in
    cm_ret (match started with
            | Err err => UR_UpgradedButNotStarted (version_to_string current_version) (version_to_string target) (mgr_error_text err)
            | Ok _ =>
              if uo_force options then UR_Forced (version_to_string current_version) (version_to_string target)
              else UR_Upgraded (version_to_string current_version) (version_to_string target)
            end).
End service_manager.

(** ** Refresh of the registry *)

Section refresh.
Context `{Semver, ServiceTexts, MgrTexts} {Os : Type} `{!ServiceControl Os, !FileSystem Os, !AntNodeClient Os, !Paths}.
#[local] Open Scope cm_scope.

Definition is_space (c : Z) : bool := (c =? 32) || ((9 <=? c) && (c <=? 13)).

(** [s.trim()] on texts of ASCII. *)
Fixpoint trim_start (s : bytes) : bytes := match s with c :: s' => if is_space c then trim_start s' else s | [] => [] end.
Definition trim (s : bytes) : bytes := reverse (trim_start (reverse (trim_start s))).

(** A full refresh or a partial one of a node found with the process [pid]. *)
Definition found_with_pid (client : RpcClient) (full_refresh : bool) (pid : Z) : CM (NodeServiceData * Os) SvcError () :=
  node_on_start client None (Some pid) full_refresh.

(** What the file [antnode.pid] names, if it is a node's process; the rest of tier 3. *)
Definition pid_from_file (data_dir : bytes) : CM (NodeServiceData * Os) SvcError (option Z) :=
  let! r := cm_try (cm_on_snd (fs_read_to_string (path_join data_dir (text "antnode.pid")))) in
  match rok r ≫= λ s, parse_unsigned u32_max (trim s) with
  | Some file_pid =>
    let! v := cm_try (cm_on_snd (verify_process_by_pid file_pid (text "antnode"))) in
    cm_ret (match v with Ok true => Some file_pid | _ => None end)
  | None => cm_ret None
  end.

Definition detect_pid_using_path (client : RpcClient) (full_refresh : bool) : CM (NodeServiceData * Os) SvcError () :=
  let! d := cm_get fst in
  let! r := cm_try (cm_on_snd (get_process_pid (n_antnode_path d))) in
  match r with
  | Ok pid => found_with_pid client full_refresh pid
  | Err _ =>
    let! file_pid := pid_from_file (n_data_dir_path d) in
    match file_pid with
    | Some pid => found_with_pid client full_refresh pid
    | None =>
      match n_status d with
      | SS_Added => cm_ret ()
      | SS_Removed => cm_ret ()
      | _ => cm_on_fst (cm_modify node_on_stop)
      end
    end
  end.

Definition clear_reward_balance (d : NodeServiceData) : NodeServiceData :=
  nsd_set d (n_listen_addr d) (n_node_port d) (n_connected_peers d) (n_peer_id d) (n_pid d) (n_version d) (n_status d) None.

(** One turn of the loop of [refresh_node_registry]. *)
Definition refresh_node (full_refresh is_local_network : bool) : CM (NodeServiceData * Os) SvcError () :=
  let! _ := cm_on_fst (cm_modify clear_reward_balance) in
  let! d := cm_get fst in
  let client := set_max_attempts (from_socket_addr (n_rpc_socket_addr d)) 1 in
  if is_local_network then
    let! r := cm_try (cm_on_snd (rpc_node_info client)) in
    match r with
    | Ok info => found_with_pid client full_refresh (ni_pid info)
    | Err _ => cm_on_fst (cm_modify node_on_stop)
    end
  else
    match n_pid d with
    | Some stored_pid =>
      let! v := cm_try (cm_on_snd (verify_process_by_pid stored_pid (text "antnode"))) in
      match v with
      | Ok true => found_with_pid client full_refresh stored_pid
      | _ => detect_pid_using_path client full_refresh
      end
    | None => detect_pid_using_path client full_refresh
    end.

(** An operation on the node at a place of the registry; no other place is ever used. *)
Definition at_node {E A} `{Inhabited A} (i : nat) (m : CM (NodeServiceData * Os) E A) : CM (NodeRegistry * Os) E A := λ w,
  match reg_nodes w.1 !! i with
  | Some d => let '(r, (d, os)) := m (d, w.2) in (r, (reg_with_nodes w.1 (<[i := d]> (reg_nodes w.1)), os))
  | None => (Ok inhabitant, w)
  end.

Definition refresh_node_registry (full_refresh is_local_network : bool) : CM (NodeRegistry * Os) MgrError () :=
  let! n := cm_get (λ w, length (reg_nodes w.1)) in
  cm_for (seq 0 n) (λ i, cm_map_err ME_ServiceManagementError (at_node i (refresh_node full_refresh is_local_network))).

(** The part of [status_report] that is not printed. *)
Definition status_report (output_json fail is_local_network : bool) : CM (NodeRegistry * Os) MgrError () :=
  let! _ := refresh_node_registry (negb output_json) is_local_network in
  if fail then
    let! non_running := cm_get (λ w, n_service_name <$> filter (λ d, n_status d ≠ SS_Running) (reg_nodes w.1)) in
    if bool_decide (non_running = []) then cm_ret () else cm_err (ME_ServiceNotRunning non_running)
  else cm_ret ().
End refresh.
