(* ===== verification/AddServices.v ===== *)
(** * Adding services

    Models src/ant-node-manager/src/add_services (config.rs, mod.rs) and the ports of helpers.rs: ranges of
    ports, the arguments a node's service is installed with, and how nodes and the daemon are added to the
    registry. Sixteen-bit numbers wrap around, as they do in a release build. *)

From stdpp Require Import base gmap countable strings list.
From Stdlib Require Import ZArith Lia.
From S2P Require Import Prelude Text Effects Multiaddr BootstrapCache ServiceManagement ServiceManager.

#[local] Open Scope rust_scope.

(** ** Reports of the commands *)

(** [color_eyre::Report]: a message or an error of one of the crates. *)
Inductive EyreReport :=
  | Rep_Msg (m : bytes)
  | Rep_Mgr (e : MgrError)
  | Rep_Svc (e : SvcError)
  | Rep_Io (e : bytes)
  | Rep_ParseInt (s : bytes)
  | Rep_Semver (e : bytes)
  | Rep_Release (e : bytes).

(** ** Ports *)

Definition wrap16 (n : Z) : Z := n mod 2 ^ 16.

Inductive PortRange := PR_Single (port : Z) | PR_Range (start end_ : Z).

Definition port_range_parse (s : bytes) : result PortRange EyreReport :=
  match parse_u16 s with
  | Some port => Ok (PR_Single port)
  | None =>
    match split_on 45 s with
    | [a; b] =>
      let? start := ok_or (parse_u16 a) (Rep_ParseInt a) in
      let? end_ := ok_or (parse_u16 b) (Rep_ParseInt b) in
      if end_ <=? start then Err (Rep_Msg (text "End port must be greater than start port")) else Ok (PR_Range start end_)
    | _ => Err (Rep_Msg (text "Port range must be in the format 'start-end'"))
    end
  end.

Definition count_mismatch (count ports : Z) : EyreReport :=
  Rep_Msg (text "The count (" ++ show_number count ++ text ") does not match the number of ports (" ++ show_number ports ++ text ")").

Definition port_range_validate (p : PortRange) (count : Z) : result () EyreReport :=
  match p with
  | PR_Single _ => if count =? 1 then Ok () else Err (count_mismatch count 1)
  | PR_Range start end_ =>
    let port_count := wrap16 (wrap16 (end_ - start) + 1) in
    if count =? port_count then Ok () else Err (count_mismatch count port_count)
  end.

Definition get_start_port_if_applicable (range : option PortRange) : option Z :=
  match range with
  | Some (PR_Single val) => Some val
  | Some (PR_Range start _) => Some start
  | None => None
  end.

Definition increment_port_option (port : option Z) : option Z := (λ p, wrap16 (p + 1)) <$> port.

(** The ports the nodes of the registry use. *)
Definition all_ports (nodes : list NodeServiceData) : list Z :=
  nodes ≫= λ n, option_list (n_metrics_port n) ++ option_list (n_node_port n) ++ [(n_rpc_socket_addr n).2].

(** The ports of a range, in order; ranges that end before they start are empty. *)
Definition ports_of (p : PortRange) : list Z :=
  match p with
  | PR_Single port => [port]
  | PR_Range start end_ => (λ k, start + Z.of_nat k) <$> seq 0 (Z.to_nat (end_ - start + 1))
  end.

Definition check_port_availability (p : PortRange) (nodes : list NodeServiceData) : result () EyreReport :=
  match list_find (λ port, port ∈ all_ports nodes) (ports_of p) with
  | Some (_, port) => Err (Rep_Msg (text "Port " ++ show_number port ++ text " is being used by another service"))
  | None => Ok ()
  end.

(** ** Installation of a node *)

Record InstallNodeServiceCtxBuilder := {
  b_alpha : bool; b_antnode_path : bytes; b_autostart : bool; b_data_dir_path : bytes; b_env_variables : option (list (bytes * bytes));
  b_evm_network : EvmNetwork; b_init_peers_config : InitialPeersConfig; b_log_dir_path : bytes; b_log_format : option LogFormat;
  b_max_archived_log_files : option Z; b_max_log_files : option Z; b_metrics_port : option Z; b_name : bytes; b_network_id : option Z;
  b_no_upnp : bool; b_node_ip : option Z; b_node_port : option Z; b_relay : bool; b_restart_policy : RestartPolicy; b_rewards_address : Z;
  b_rpc_socket_addr : SocketAddr; b_service_user : option bytes; b_stop_on_upgrade : bool; b_write_older_cache_files : bool;
}.

Definition builder_build `{ServiceTexts} (b : InstallNodeServiceCtxBuilder) : result ServiceInstallCtx EyreReport :=
  let? label := map_err Rep_Io (parse_service_label (b_name b)) in
  let args :=
    push_arguments_from_initial_peers_config (b_init_peers_config b)
      [text "--rpc"; socket_addr_to_string (b_rpc_socket_addr b); text "--root-dir"; b_data_dir_path b; text "--log-output-dest"; b_log_dir_path b] ++
    flag (text "--alpha") (b_alpha b) ++ opt_arg (text "--network-id") show_number (b_network_id b) ++ flag (text "--relay") (b_relay b) ++
    opt_arg (text "--log-format") log_format_as_str (b_log_format b) ++ flag (text "--no-upnp") (b_no_upnp b) ++
    opt_arg (text "--ip") show_ipv4 (b_node_ip b) ++ opt_arg (text "--port") show_number (b_node_port b) ++
    opt_arg (text "--metrics-server-port") show_number (b_metrics_port b) ++
    opt_arg (text "--max-archived-log-files") show_number (b_max_archived_log_files b) ++
    opt_arg (text "--max-log-files") show_number (b_max_log_files b) ++
    [text "--rewards-address"; evm_address_to_string (b_rewards_address b)] ++
    flag (text "--write-older-cache-files") (b_write_older_cache_files b) ++ flag (text "--stop-on-upgrade") (b_stop_on_upgrade b) ++
    evm_args (b_evm_network b) in
  Ok {| ic_args := args; ic_autostart := b_autostart b; ic_contents := None; ic_environment := b_env_variables b; ic_label := label;
        ic_program := b_antnode_path b; ic_restart_policy := b_restart_policy b; ic_username := b_service_user b; ic_working_directory := None |}.

Record AddNodeServiceOptions := {
  a_alpha : bool; a_antnode_dir_path : bytes; a_antnode_src_path : bytes; a_auto_restart : bool; a_auto_set_nat_flags : bool;
  a_count : option Z; a_delete_antnode_src : bool; a_enable_metrics_server : bool; a_env_variables : option (list (bytes * bytes));
  a_evm_network : EvmNetwork; a_init_peers_config : InitialPeersConfig; a_log_format : option LogFormat;
  a_max_archived_log_files : option Z; a_max_log_files : option Z; a_metrics_port : option PortRange; a_network_id : option Z;
  a_node_ip : option Z; a_node_port : option PortRange; a_no_upnp : bool; a_relay : bool; a_restart_policy : RestartPolicy;
  a_rewards_address : Z; a_rpc_address : option Z; a_rpc_port : option PortRange; a_service_data_dir_path : bytes;
  a_service_log_dir_path : bytes; a_user : option bytes; a_user_mode : bool; a_version : bytes; a_write_older_cache_files : bool;
}.

Record AddDaemonServiceOptions := {
  ad_address : Z; ad_env_variables : option (list (bytes * bytes)); ad_daemon_install_bin_path : bytes; ad_daemon_src_bin_path : bytes;
  ad_port : Z; ad_user : bytes; ad_version : bytes;
}.

(** Directories of the platform (src/ant-node-manager/src/config.rs). *)
Class ManagerPaths (Os : Type) := {
  is_running_as_root : Os → bool;
  create_owned_dir : bytes → bytes → CM Os EyreReport ();
  get_user_antnode_data_dir : CM Os EyreReport bytes;
  get_service_data_dir_path : option bytes → option bytes → CM Os EyreReport bytes;
  get_service_log_dir_path : option bytes → option bytes → CM Os EyreReport bytes;
  get_bootstrap_cache_owner_path : bytes → CM Os EyreReport bytes;
  get_node_manager_path : CM Os EyreReport bytes;
  get_node_registry_path : CM Os EyreReport bytes;
}.

Section add.
Context `{Semver, ServiceTexts} {Os : Type}.
Context `{!ServiceControl Os, !FileSystem Os, !Paths, !RegistryJson, !ManagerPaths Os}.
#[local] Open Scope cm_scope.

(** Operations of the system in the commands. *)
Definition svc_op {A} (m : CM Os SvcError A) : CM (NodeRegistry * Os) EyreReport A := cm_map_err Rep_Svc (cm_on_snd m).
Definition io_op {A} (m : CM Os bytes A) : CM (NodeRegistry * Os) EyreReport A := cm_map_err Rep_Io (cm_on_snd m).
Definition rep_op {A} (m : CM Os EyreReport A) : CM (NodeRegistry * Os) EyreReport A := cm_on_snd m.
Definition change_registry (f : NodeRegistry → NodeRegistry) : CM (NodeRegistry * Os) EyreReport () := cm_on_fst (cm_modify f).

Definition save_registry : CM (NodeRegistry * Os) EyreReport () :=
  let! r := cm_get fst in svc_op (registry_save r).

(** A genesis node is added alone, and once. *)
Definition check_genesis (options : AddNodeServiceOptions) (nodes : list NodeServiceData) : result () EyreReport :=
  if ip_first (a_init_peers_config options) then
    if 1 <? default 1 (a_count options) then Err (Rep_Msg (text "A genesis node can only be added as a single node"))
    else if existsb (λ n, ip_first (n_initial_peers_config n)) nodes then Err (Rep_Msg (text "A genesis node already exists"))
    else Ok ()
  else Ok ().

Definition check_ports (ports : option PortRange) (count : Z) (nodes : list NodeServiceData) : result () EyreReport :=
  match ports with
  | Some p => let? _ := port_range_validate p count in check_port_availability p nodes
  | None => Ok ()
  end.

(** [no_upnp] and [relay], set from what is known of the NAT if that is asked for. *)
Definition nat_flags (options : AddNodeServiceOptions) (nat_status : option NatDetectionStatus) : bool * bool :=
  if a_auto_set_nat_flags options then
    match nat_status with
    | Some Nat_Public => (true, false)
    | Some Nat_UPnP => (false, false)
    | Some Nat_Private => (true, true)
    | None => (true, true)
    end
  else (a_no_upnp options, a_relay options).

Definition node_name (number : Z) : bytes := text "antnode" ++ show_number number.

(** The ports of one node: given, or free ones of the system. *)
Definition choose_ports (options : AddNodeServiceOptions) (node_port metrics_port rpc_port : option Z)
    : CM (NodeRegistry * Os) EyreReport (Z * option Z * option Z) :=
  let! rpc_free_port := match rpc_port with Some port => cm_ret port | None => svc_op get_available_port end in
  let! metrics_free_port :=
    match metrics_port with
    | Some port => cm_ret (Some port)
    | None => if a_enable_metrics_server options then let! p := svc_op get_available_port in cm_ret (Some p) else cm_ret None
    end in
  let! node_free_port := match node_port with Some port => cm_ret port | None => svc_op get_available_port end in
  cm_ret (rpc_free_port, metrics_free_port, Some node_free_port).

(** The directories of a node and its binary in them. *)
Definition make_node_dirs (options : AddNodeServiceOptions) (data_dir log_dir antnode_path : bytes) : CM (NodeRegistry * Os) EyreReport () :=
  let! _ :=
    match a_user options with
    | Some user => let! _ := rep_op (create_owned_dir data_dir user) in rep_op (create_owned_dir log_dir user)
    | None => let! _ := io_op (fs_create_dir_all data_dir) in io_op (fs_create_dir_all log_dir)
    end in
  io_op (fs_copy (a_antnode_src_path options) antnode_path).

(** What a node is installed with, and what is remembered of it. *)
Definition node_builder (options : AddNodeServiceOptions) (flags : bool * bool) (number : Z) (ports : Z * option Z * option Z) (data_dir log_dir antnode_path : bytes)
    : InstallNodeServiceCtxBuilder :=
  {| b_alpha := a_alpha options; b_antnode_path := antnode_path; b_autostart := a_auto_restart options; b_data_dir_path := data_dir;
     b_env_variables := a_env_variables options; b_evm_network := a_evm_network options; b_init_peers_config := a_init_peers_config options;
     b_log_dir_path := log_dir; b_log_format := a_log_format options; b_max_archived_log_files := a_max_archived_log_files options;
     b_max_log_files := a_max_log_files options; b_metrics_port := ports.1.2; b_name := node_name number; b_network_id := a_network_id options;
     b_no_upnp := flags.1; b_node_ip := a_node_ip options; b_node_port := ports.2; b_relay := flags.2; b_restart_policy := a_restart_policy options;
     b_rewards_address := a_rewards_address options; b_rpc_socket_addr := (default 2130706433 (a_rpc_address options), ports.1.1);
     b_service_user := a_user options; b_stop_on_upgrade := true; b_write_older_cache_files := a_write_older_cache_files options |}.

Definition node_data (options : AddNodeServiceOptions) (flags : bool * bool) (number : Z) (ports : Z * option Z * option Z) (data_dir log_dir antnode_path : bytes)
    : NodeServiceData :=
  {| n_alpha := a_alpha options; n_schema_version := NODE_SERVICE_DATA_SCHEMA_LATEST; n_antnode_path := antnode_path;
     n_auto_restart := a_auto_restart options; n_connected_peers := None; n_data_dir_path := data_dir; n_evm_network := a_evm_network options;
     n_initial_peers_config := a_init_peers_config options; n_listen_addr := None; n_log_dir_path := log_dir; n_log_format := a_log_format options;
     n_max_archived_log_files := a_max_archived_log_files options; n_max_log_files := a_max_log_files options; n_metrics_port := ports.1.2;
     n_network_id := a_network_id options; n_node_ip := a_node_ip options; n_node_port := ports.2; n_no_upnp := flags.1; n_number := number;
     n_peer_id := None; n_pid := None; n_relay := flags.2; n_rewards_address := a_rewards_address options; n_reward_balance := None;
     n_rpc_socket_addr := (default 2130706433 (a_rpc_address options), ports.1.1); n_service_name := node_name number; n_status := SS_Added;
     n_user := a_user options; n_user_mode := a_user_mode options; n_version := a_version options;
     n_write_older_cache_files := a_write_older_cache_files options |}.

(** One turn of the loop: the name, added or failed. *)
Definition add_one_node (options : AddNodeServiceOptions) (file_name : bytes) (number : Z) (node_port metrics_port rpc_port : option Z)
    : CM (NodeRegistry * Os) EyreReport (bytes + bytes) :=
  let! ports := choose_ports options node_port metrics_port rpc_port in
  let name := node_name number in
  let data_dir := path_join (a_service_data_dir_path options) name in
  let antnode_path := path_join data_dir file_name in
  let! default_log_dir := rep_op get_user_antnode_data_dir in
  let log_dir :=
    if a_user_mode options && bool_decide (a_service_log_dir_path options = default_log_dir)
    then path_join (path_join (a_service_log_dir_path options) name) (text "logs")
    else path_join (a_service_log_dir_path options) name in
  let! _ := make_node_dirs options data_dir log_dir antnode_path in
  let! flags := cm_get (λ w, nat_flags options (reg_nat_status w.1)) in
  let! ctx := cm_lift (builder_build (node_builder options flags number ports data_dir log_dir antnode_path)) in
  let! r := cm_try (cm_on_snd (install ctx (a_user_mode options))) in
  match r with
  | Ok _ =>
    let! _ := change_registry (push_node (node_data options flags number ports data_dir log_dir antnode_path)) in
    let! _ := save_registry in
    cm_ret (inl name)
  | Err _ => cm_ret (inr name)
  end.

(** The loop up to [target]; one turn per node and one to end it, unless [target] is the last number of sixteen bits. *)
Fixpoint add_loop (fuel : nat) (options : AddNodeServiceOptions) (file_name : bytes) (target number : Z) (node_port metrics_port rpc_port : option Z)
    (added failed : list bytes) : CM (NodeRegistry * Os) EyreReport (list bytes * list bytes) :=
  match fuel with
  | 0%nat => cm_ret (added, failed)
  | S fuel =>
    if number <=? target then
      let! r := add_one_node options file_name number node_port metrics_port rpc_port in
      let '(added, failed) := match r with inl name => (added ++ [name], failed) | inr name => (added, failed ++ [name]) end in
      add_loop fuel options file_name target (wrap16 (number + 1)) (increment_port_option node_port) (increment_port_option metrics_port)
        (increment_port_option rpc_port) added failed
    else cm_ret (added, failed)
  end.

Definition add_node (options : AddNodeServiceOptions) : CM (NodeRegistry * Os) EyreReport (list bytes) :=
  let count := default 1 (a_count options) in
  let! nodes := cm_get (λ w, reg_nodes w.1) in
  let! _ := cm_lift (check_genesis options nodes) in
  let! _ := cm_lift (check_ports (a_node_port options) count nodes) in
  let! _ := cm_lift (check_ports (a_metrics_port options) count nodes) in
  let! _ := cm_lift (check_ports (a_rpc_port options) count nodes) in
  let! file_name := cm_lift (ok_or (path_file_name (a_antnode_src_path options)) (Rep_Msg (text "Could not get filename from the antnode download path"))) in
  let! _ :=
    match a_env_variables options with
    | Some env => let! _ := change_registry (λ r, reg_with_env r (Some env)) in save_registry
    | None => cm_ret ()
    end in
  let current_node_count := wrap16 (Z.of_nat (length nodes)) in
  let target_node_count := wrap16 (current_node_count + count) in
  let! (added, failed) :=
    add_loop (S (Z.to_nat count)) options file_name target_node_count (wrap16 (current_node_count + 1))
      (get_start_port_if_applicable (a_node_port options)) (get_start_port_if_applicable (a_metrics_port options))
      (get_start_port_if_applicable (a_rpc_port options)) [] [] in
  let! _ := if a_delete_antnode_src options then io_op (fs_remove_file (a_antnode_src_path options)) else cm_ret () in
  match failed with
  | [] => cm_ret added
  | _ => cm_err (Rep_Msg (text "Failed to add one or more services"))
  end.

Definition DAEMON_SERVICE_NAME : bytes := text "antctld".

Definition add_daemon (options : AddDaemonServiceOptions) : CM (NodeRegistry * Os) EyreReport () :=
  let! daemon := cm_get (λ w, reg_daemon w.1) in
  let! _ := cm_lift (match daemon with Some _ => Err (Rep_Msg (text "A antctld service has already been created")) | None => Ok () end) in
  let! _ := io_op (fs_copy (ad_daemon_src_bin_path options) (ad_daemon_install_bin_path options)) in
  let! label := cm_lift (map_err Rep_Io (parse_service_label DAEMON_SERVICE_NAME)) in
  let ctx :=
    {| ic_args := [text "--port"; show_number (ad_port options); text "--address"; show_ipv4 (ad_address options)]; ic_autostart := true;
       ic_contents := None; ic_environment := ad_env_variables options; ic_label := label; ic_program := ad_daemon_install_bin_path options;
       ic_restart_policy := RP_OnSuccess None; ic_username := Some (ad_user options); ic_working_directory := None |} in
  let! _ := svc_op (install ctx false) in
  let! _ := change_registry (insert_daemon
    {| ds_daemon_path := ad_daemon_install_bin_path options; ds_endpoint := Some (ad_address options, ad_port options); ds_pid := None;
       ds_service_name := DAEMON_SERVICE_NAME; ds_status := SS_Added; ds_version := ad_version options |}) in
  let! _ := save_registry in
  io_op (fs_remove_file (ad_daemon_src_bin_path options)).
End add.
