(* ===== verification/NodeCommands.v ===== *)
(** * The commands of the node manager

    Models src/ant-node-manager/src/cmd/node.rs and the download of releases (helpers.rs, cmd/mod.rs): add,
    start, stop, remove, upgrade, reset, status, balance, and the command that keeps a number of nodes
    running. The crate ant_releases is the class [ReleaseRepo]; a command's verbosity decides whether its
    refresh is a full one, what it prints is left out. *)

From stdpp Require Import base gmap countable strings list.
From Stdlib Require Import ZArith Lia.
From S2P Require Import Prelude Text Effects Multiaddr BootstrapCache ServiceManagement ServiceManager AddServices.

#[local] Open Scope rust_scope.

Inductive VerbosityLevel := V_Minimal | V_Normal | V_Full.

#[global] Instance VerbosityLevel_eq_dec : EqDecision VerbosityLevel.
Proof. solve_decision. Defined.

Definition verbosity_of_u8 (v : Z) : VerbosityLevel := if v =? 1 then V_Minimal else if v =? 2 then V_Normal else if v =? 3 then V_Full else V_Normal.

Definition full_refresh_of (v : VerbosityLevel) : bool := bool_decide (v ≠ V_Minimal).

(** ** Releases *)

(** The crate ant_releases for one kind of binary, and running a binary with [--version]. *)
Class ReleaseRepo (Os : Type) `{Semver} := {
  release_name : bytes;
  get_latest_version : CM Os bytes Version;
  download_release : bytes → bytes → CM Os bytes bytes;
  download_release_from_s3 : Version → bytes → bytes → CM Os bytes bytes;
  extract_release_archive : bytes → bytes → CM Os bytes bytes;
  get_running_platform : result bytes bytes;
  create_temp_dir : CM Os bytes bytes;
  run_with_version : bytes → CM Os bytes bytes;
}.

Definition MAX_DOWNLOAD_RETRIES : nat := 3.

(** [text.lines().next()]. *)
Definition first_line (s : bytes) : option bytes :=
  match s with
  | [] => None
  | _ => let l := default [] (head (split_on 10 s)) in Some (if bool_decide (last l = Some 13) then take (length l - 1) l else l)
  end.

(** [text.split_whitespace()] on texts of ASCII. *)
Fixpoint words_from (word : bytes) (s : bytes) : list bytes :=
  match s with
  | [] => match word with [] => [] | _ => [word] end
  | c :: s => if is_space c then match word with [] => words_from [] s | _ => word :: words_from [] s end else words_from (word ++ [c]) s
  end.
Definition split_whitespace (s : bytes) : list bytes := words_from [] s.

(** The text after the first [v]. *)
Definition after_v (s : bytes) : option bytes := '(i, _) ← list_find (λ c, c = 118) s; Some (drop (S i) s).

Definition version_of_output (output : bytes) : result bytes EyreReport :=
  let? first_line := ok_or (first_line output) (Rep_Msg (text "No output received from binary")) in
  ok_or (match after_v first_line with Some rest => head (split_whitespace rest) | None => last (split_whitespace first_line) end)
    (Rep_Msg (text "Failed to parse version from output")).

Section commands.
Context `{Semver, ServiceTexts, MgrTexts} {Os : Type}.
Context `{!ServiceControl Os, !FileSystem Os, !Paths, !RegistryJson, !ManagerPaths Os, !AntNodeClient Os, !ReleaseRepo Os}.
#[local] Open Scope cm_scope.

Definition rel_op {A} (m : CM Os bytes A) : CM (NodeRegistry * Os) EyreReport A := cm_map_err Rep_Release (cm_on_snd m).

Definition get_bin_version (bin_path : bytes) : CM (NodeRegistry * Os) EyreReport bytes :=
  let! output := io_op (run_with_version bin_path) in cm_lift (version_of_output output).

(** One attempt of [download_and_extract_release]: the path of the binary, or nothing when the download failed. *)
Definition download_attempt (url version : option bytes) (dir : bytes) : CM (NodeRegistry * Os) EyreReport (option bytes) :=
  match url with
  | Some url =>
    let! r := cm_try (cm_on_snd (download_release url dir)) in
    match r with
    | Ok archive_path => let! p := rel_op (extract_release_archive archive_path dir) in cm_ret (Some p)
    | Err _ => cm_ret None
    end
  | None =>
    let! version :=
      match version with
      | Some version => cm_lift (map_err Rep_Semver (version_parse version))
      | None => rel_op get_latest_version
      end in
    let! platform := cm_lift (map_err Rep_Release get_running_platform) in
    let archive_path := path_join dir (release_name ++ text "-" ++ version_to_string version ++ text "-" ++ platform ++ text ".tar.gz") in
    let! cached := cm_get (λ w, fs_exists archive_path w.2) in
    let! extracted :=
      if cached : bool then let! r := cm_try (cm_on_snd (extract_release_archive archive_path dir)) in cm_ret (rok r) else cm_ret None in
    match extracted with
    | Some p => cm_ret (Some p)
    | None =>
      let! r := cm_try (cm_on_snd (download_release_from_s3 version platform dir)) in
      match r with
      | Ok archive_path => let! p := rel_op (extract_release_archive archive_path dir) in cm_ret (Some p)
      | Err _ => cm_ret None
      end
    end
  end.

Fixpoint download_loop (attempts : nat) (url version : option bytes) (dir : bytes) : CM (NodeRegistry * Os) EyreReport bytes :=
  match attempts with
  | 0%nat => cm_err (Rep_Msg (text "Failed to download release after 3 tries."))
  | S attempts =>
    let! r := download_attempt url version dir in
    match r with Some p => cm_ret p | None => download_loop attempts url version dir end
  end.

Definition download_and_extract_release (url version download_dir_path : option bytes) : CM (NodeRegistry * Os) EyreReport (bytes * bytes) :=
  let! dir :=
    match download_dir_path with
    | Some path => let! _ := io_op (fs_create_dir_all path) in cm_ret path
    | None =>
      match url with
      | Some _ => io_op create_temp_dir
      | None =>
        let! manager := rep_op get_node_manager_path in
        let path := path_join manager (text "downloads") in
        let! _ := io_op (fs_create_dir_all path) in cm_ret path
      end
    end in
  let! binary_download_path := download_loop MAX_DOWNLOAD_RETRIES url version dir in
  let! bin_version := get_bin_version binary_download_path in
  cm_ret (binary_download_path, bin_version).

Definition parse_target_version (s : bytes) : CM (NodeRegistry * Os) EyreReport Version := cm_lift (map_err Rep_Semver (version_parse s)).

Definition download_and_get_upgrade_bin_path (custom_bin_path url version : option bytes) : CM (NodeRegistry * Os) EyreReport (bytes * Version) :=
  match custom_bin_path with
  | Some path => let! v := get_bin_version path in let! v := parse_target_version v in cm_ret (path, v)
  | None =>
    match version with
    | Some version => let! (path, v) := download_and_extract_release None (Some version) None in let! v := parse_target_version v in cm_ret (path, v)
    | None =>
      match url with
      | Some url => let! (path, v) := download_and_extract_release (Some url) None None in let! v := parse_target_version v in cm_ret (path, v)
      | None =>
        let! latest_version := rel_op get_latest_version in
        let! (path, _) := download_and_extract_release None (Some (version_to_string latest_version)) None in
        cm_ret (path, latest_version)
      end
    end
  end.

(** ** Services a command is for *)

Definition collect_results {A} (f : A → result nat EyreReport) (l : list A) : result (list nat) EyreReport :=
  foldr (λ a r, let? i := f a in let? l := r in Ok (i :: l)) (Ok []) l.

Definition find_service (f : NodeServiceData → bool) (nodes : list NodeServiceData) : option nat :=
  (λ x, x.1) <$> list_find (λ n, f n && bool_decide (n_status n ≠ SS_Removed) = true) nodes.

(** The places of the services that are named, or of all that are not removed. *)
Definition get_services_for_ops (parse_peer_id : bytes → option bytes) (nodes : list NodeServiceData) (peer_ids service_names : list bytes)
    : result (list nat) EyreReport :=
  if bool_decide (service_names = []) && bool_decide (peer_ids = []) then
    Ok ((λ x, x.1) <$> filter (λ x, n_status x.2 ≠ SS_Removed) (imap pair nodes))
  else
    let? named := collect_results (λ name, ok_or (find_service (λ n, bool_decide (n_service_name n = name)) nodes)
                                     (Rep_Msg (text "No service named '" ++ name ++ text "'"))) service_names in
    let? known := collect_results (λ s,
      let? id := ok_or (parse_peer_id s) (Rep_Msg (text "Error parsing PeerId: '" ++ s ++ text "'")) in
      ok_or (find_service (λ n, bool_decide (n_peer_id n = Some id)) nodes) (Rep_Msg (text "Could not find node with peer ID '" ++ id ++ text "'"))) peer_ids in
    Ok (named ++ known).

Definition summarise_any_failed_ops (failed_services : list bytes) (verb : bytes) : result () EyreReport :=
  match failed_services with [] => Ok () | _ => Err (Rep_Msg (text "Failed to " ++ verb ++ text " one or more services")) end.

(** What the commands use besides: pauses, the terminal, the environment, and libp2p's parser. *)
Class CommandEnv := {
  thread_sleep : Z → Os → Os;
  read_line : CM Os bytes bytes;
  fetch_from_env : Os → list Multiaddr;
  parse_peer_id : bytes → option bytes;
}.
Context `{!CommandEnv}.

#[local] Instance populate_upgrade_result : Inhabited UpgradeResult := populate UR_NotRequired.

(** An operation of the manager on the service at a place, with the rpc client of its address. *)
Definition with_service {A} `{Inhabited A} (i : nat) (timeout : option Z) (op : ServiceStateActions NodeServiceData Os → CM (NodeServiceData * Os) MgrError A)
    : CM (NodeRegistry * Os) MgrError A :=
  at_node i (λ w, op (node_service (from_socket_addr (n_rpc_socket_addr w.1)) timeout) w).

Definition status_at (i : nat) (r : NodeRegistry) : option ServiceStatus := n_status <$> reg_nodes r !! i.
Definition name_at (i : nat) (r : NodeRegistry) : bytes := default [] (n_service_name <$> reg_nodes r !! i).

(** [std::thread::sleep] if the interval is set. *)
Definition pause (interval : option Z) : CM (NodeRegistry * Os) EyreReport () :=
  match interval with Some t => cm_on_snd (cm_modify (thread_sleep t)) | None => cm_ret () end.

(** The loop of a command: a service that fails is noted, the registry is saved after the others. *)
Fixpoint ops_loop (op : nat → CM (NodeRegistry * Os) MgrError ()) (before : nat → CM (NodeRegistry * Os) EyreReport ()) (services : list nat)
    (failed : list bytes) : CM (NodeRegistry * Os) EyreReport (list bytes) :=
  match services with
  | [] => cm_ret failed
  | i :: services =>
    let! name := cm_get (λ w, name_at i w.1) in
    let! _ := before i in
    let! r := cm_try (op i) in
    match r with
    | Ok _ => let! _ := save_registry in ops_loop op before services failed
    | Err _ => ops_loop op before services (failed ++ [name])
    end
  end.

(** The refresh and the choice of services every command starts with. *)
Definition refresh_and_select (verbosity : VerbosityLevel) (peer_ids service_names : list bytes) : CM (NodeRegistry * Os) EyreReport (list nat) :=
  let! _ := cm_map_err Rep_Mgr (refresh_node_registry (full_refresh_of verbosity) false) in
  let! nodes := cm_get (λ w, reg_nodes w.1) in
  cm_lift (get_services_for_ops parse_peer_id nodes peer_ids service_names).

Definition cmd_balance (peer_ids service_names : list bytes) (verbosity : VerbosityLevel) : CM (NodeRegistry * Os) EyreReport () :=
  let! _ := refresh_and_select verbosity peer_ids service_names in cm_ret ().

Definition cmd_remove (keep_directories : bool) (peer_ids service_names : list bytes) (verbosity : VerbosityLevel) : CM (NodeRegistry * Os) EyreReport () :=
  let! services := refresh_and_select verbosity peer_ids service_names in
  let! failed := ops_loop (λ i, with_service i None (λ _, manager_remove keep_directories)) (λ _, cm_ret ()) services [] in
  cm_lift (summarise_any_failed_ops failed (text "remove")).

Definition cmd_start (connection_timeout_s : Z) (fixed_interval : option Z) (peer_ids service_names : list bytes) (verbosity : VerbosityLevel)
    : CM (NodeRegistry * Os) EyreReport () :=
  let! services := refresh_and_select verbosity peer_ids service_names in
  let timeout := match fixed_interval with None => Some connection_timeout_s | Some _ => None end in
  let! failed := ops_loop (λ i, with_service i timeout (λ _, manager_start))
    (λ i, let! st := cm_get (λ w, status_at i w.1) in if bool_decide (st ≠ Some SS_Running) then pause fixed_interval else cm_ret ()) services [] in
  cm_lift (summarise_any_failed_ops failed (text "start")).

Definition cmd_stop (interval : option Z) (peer_ids service_names : list bytes) (verbosity : VerbosityLevel) : CM (NodeRegistry * Os) EyreReport () :=
  let! services := refresh_and_select verbosity peer_ids service_names in
  let! failed := ops_loop (λ i, with_service i None (λ _, manager_stop))
    (λ i, let! st := cm_get (λ w, status_at i w.1) in if bool_decide (st = Some SS_Running) then pause interval else cm_ret ()) services [] in
  cm_lift (summarise_any_failed_ops failed (text "stop")).

Definition cmd_status (fail json : bool) : CM (NodeRegistry * Os) EyreReport () :=
  let! nodes := cm_get (λ w, reg_nodes w.1) in
  match nodes with
  | [] => cm_ret ()
  | _ => let! _ := cm_map_err Rep_Mgr (status_report json fail false) in save_registry
  end.

Definition cmd_reset (force : bool) (verbosity : VerbosityLevel) : CM (NodeRegistry * Os) EyreReport () :=
  let! proceed := if force then cm_ret true else let! input := io_op read_line in cm_ret (bool_decide (ascii_lower (trim input) = text "y")) in
  if negb proceed then cm_ret ()
  else
    let! _ := cmd_stop None [] [] verbosity in
    let! _ := cmd_remove false [] [] verbosity in
    let! path := rep_op get_node_registry_path in
    let! exists_ := cm_get (λ w, fs_exists path w.2) in
    let! _ := if exists_ : bool then io_op (fs_remove_file path) else cm_ret () in
    change_registry registry_reset.

(** Whether some node's version is older than the target. *)
Definition any_needs_upgrade (nodes : list NodeServiceData) (target : Version) : result bool EyreReport :=
  foldr (λ n r, let? v := map_err (λ _, Rep_Msg (text "Failed to parse Version for node " ++ n_service_name n)) (version_parse (n_version n)) in
                let? b := r in Ok (version_ltb v target || b)) (Ok false) nodes.

Definition is_problem (r : UpgradeResult) : bool := match r with UR_Error _ => true | UR_UpgradedButNotStarted _ _ _ => true | _ => false end.

(** The loop of [upgrade]. *)
Fixpoint upgrade_loop (options : NodeRegistry → UpgradeOptions) (timeout fixed_interval : option Z) (services : list nat) (summary : list (bytes * UpgradeResult))
    : CM (NodeRegistry * Os) EyreReport (list (bytes * UpgradeResult)) :=
  match services with
  | [] => cm_ret summary
  | i :: services =>
    let! r := cm_get fst in
    let! res := cm_try (with_service i timeout (λ _, manager_upgrade (options r))) in
    let! _ := match res with Ok UR_NotRequired => cm_ret () | Ok _ => pause fixed_interval | Err _ => cm_ret () end in
    let! _ := save_registry in
    let outcome := match res with Ok u => u | Err err => UR_Error (text "Error: " ++ mgr_error_text err) end in
    upgrade_loop options timeout fixed_interval services (summary ++ [(name_at i r, outcome)])
  end.

Definition cmd_upgrade (connection_timeout_s : Z) (do_not_start : bool) (custom_bin_path : option bytes) (force : bool) (fixed_interval : option Z)
    (peer_ids : list bytes) (provided_env_variables : option (list (bytes * bytes))) (service_names : list bytes) (url version : option bytes)
    (verbosity : VerbosityLevel) : CM (NodeRegistry * Os) EyreReport () :=
  let use_force := force || bool_decide (custom_bin_path ≠ None) in
  let! (upgrade_bin_path, target_version) := download_and_get_upgrade_bin_path custom_bin_path url version in
  let! _ := cm_map_err Rep_Mgr (refresh_node_registry (full_refresh_of verbosity) false) in
  let! nodes := cm_get (λ w, reg_nodes w.1) in
  let! needed := if use_force then cm_ret true else cm_lift (any_needs_upgrade nodes target_version) in
  if negb needed then cm_ret ()
  else
    let! services := cm_lift (get_services_for_ops parse_peer_id nodes peer_ids service_names) in
    let options r :=
      {| uo_auto_restart := false;
         uo_env_variables := match provided_env_variables with Some _ => provided_env_variables | None => reg_environment_variables r end;
         uo_force := use_force; uo_start_service := negb do_not_start; uo_target_bin_path := upgrade_bin_path; uo_target_version := target_version |} in
    let timeout := match fixed_interval with None => Some connection_timeout_s | Some _ => None end in
    let! summary := upgrade_loop options timeout fixed_interval services [] in
    if existsb (λ x, is_problem x.2) summary then cm_err (Rep_Msg (text "There was a problem upgrading one or more nodes")) else cm_ret ().

(** ** Adding nodes, and keeping a number of them running *)

(** The arguments of [add]. *)
Record AddArgs := {
  g_alpha : bool; g_auto_restart : bool; g_auto_set_nat_flags : bool; g_count : option Z; g_data_dir_path : option bytes;
  g_enable_metrics_server : bool; g_env_variables : option (list (bytes * bytes)); g_evm_network : option EvmNetwork;
  g_log_dir_path : option bytes; g_log_format : option LogFormat; g_max_archived_log_files : option Z; g_max_log_files : option Z;
  g_metrics_port : option PortRange; g_network_id : option Z; g_node_ip : option Z; g_node_port : option PortRange;
  g_init_peers_config : InitialPeersConfig; g_relay : bool; g_restart_policy : RestartPolicy; g_rewards_address : Z;
  g_rpc_address : option Z; g_rpc_port : option PortRange; g_src_path : option bytes; g_no_upnp : bool; g_url : option bytes;
  g_user : option bytes; g_version : option bytes; g_write_older_cache_files : bool;
}.

Definition cmd_add (g : AddArgs) : CM (NodeRegistry * Os) EyreReport (list bytes) :=
  let! user_mode := cm_get (λ w, negb (is_running_as_root w.2)) in
  let! service_user :=
    if user_mode : bool then cm_ret None
    else
      let service_user := default (text "ant") (g_user g) in
      let! _ := svc_op (create_service_user service_user) in cm_ret (Some service_user) in
  let! service_data_dir_path := rep_op (get_service_data_dir_path (g_data_dir_path g) service_user) in
  let! service_log_dir_path := rep_op (get_service_log_dir_path (g_log_dir_path g) service_user) in
  let! bootstrap_cache_dir :=
    match service_user with
    | Some user => let! p := rep_op (get_bootstrap_cache_owner_path user) in cm_ret (Some p)
    | None => cm_ret None
    end in
  let! (antnode_src_path, version) :=
    match g_src_path g with
    | Some path => let! v := get_bin_version path in cm_ret (path, v)
    | None => download_and_extract_release (g_url g) (g_version g) None
    end in
  let! env_addrs := cm_get (λ w, fetch_from_env w.2) in
  let c := g_init_peers_config g in
  let init_peers_config :=
    {| ip_first := ip_first c; ip_addrs := ip_addrs c ++ env_addrs; ip_network_contacts_url := ip_network_contacts_url c; ip_local := ip_local c;
       ip_ignore_cache := ip_ignore_cache c; ip_bootstrap_cache_dir := bootstrap_cache_dir |} in
  let options :=
    {| a_alpha := g_alpha g; a_antnode_dir_path := service_data_dir_path; a_antnode_src_path := antnode_src_path; a_auto_restart := g_auto_restart g;
       a_auto_set_nat_flags := g_auto_set_nat_flags g; a_count := g_count g; a_delete_antnode_src := bool_decide (g_src_path g = None);
       a_enable_metrics_server := g_enable_metrics_server g; a_env_variables := g_env_variables g; a_evm_network := default ArbitrumOne (g_evm_network g);
       a_init_peers_config := init_peers_config; a_log_format := g_log_format g; a_max_archived_log_files := g_max_archived_log_files g;
       a_max_log_files := g_max_log_files g; a_metrics_port := g_metrics_port g; a_network_id := g_network_id g; a_node_ip := g_node_ip g;
       a_node_port := g_node_port g; a_no_upnp := g_no_upnp g; a_relay := g_relay g; a_restart_policy := g_restart_policy g;
       a_rewards_address := g_rewards_address g; a_rpc_address := g_rpc_address g; a_rpc_port := g_rpc_port g;
       a_service_data_dir_path := service_data_dir_path; a_service_log_dir_path := service_log_dir_path; a_user := service_user;
       a_user_mode := user_mode; a_version := version; a_write_older_cache_files := g_write_older_cache_files g |} in
  let! added := add_node options in
  let! _ := save_registry in
  cm_ret added.

(** The arguments with which [maintain_n_running_nodes] adds one node. *)
Definition single_at (g : AddArgs) (port : Z) : AddArgs :=
  {| g_alpha := g_alpha g; g_auto_restart := g_auto_restart g; g_auto_set_nat_flags := g_auto_set_nat_flags g; g_count := Some 1;
     g_data_dir_path := g_data_dir_path g; g_enable_metrics_server := g_enable_metrics_server g; g_env_variables := g_env_variables g;
     g_evm_network := g_evm_network g; g_log_dir_path := g_log_dir_path g; g_log_format := g_log_format g;
     g_max_archived_log_files := g_max_archived_log_files g; g_max_log_files := g_max_log_files g; g_metrics_port := g_metrics_port g;
     g_network_id := g_network_id g; g_node_ip := g_node_ip g; g_node_port := Some (PR_Single port); g_init_peers_config := g_init_peers_config g;
     g_relay := g_relay g; g_restart_policy := g_restart_policy g; g_rewards_address := g_rewards_address g; g_rpc_address := g_rpc_address g;
     g_rpc_port := g_rpc_port g; g_src_path := g_src_path g; g_no_upnp := g_no_upnp g; g_url := g_url g; g_user := g_user g;
     g_version := g_version g; g_write_older_cache_files := g_write_older_cache_files g |}.

(** The loop that adds nodes, of which only the first is started. *)
Fixpoint add_and_start (first : bool) (g : AddArgs) (connection_timeout_s : Z) (start_node_interval : option Z) (verbosity : VerbosityLevel) (ports : list Z)
    : CM (NodeRegistry * Os) EyreReport () :=
  match ports with
  | [] => cm_ret ()
  | port :: ports =>
    let! added_service := cmd_add (single_at g port) in
    let! _ := if first then cmd_start connection_timeout_s start_node_interval [] added_service verbosity else cm_ret () in
    add_and_start false g connection_timeout_s start_node_interval verbosity ports
  end.

Definition names_with (f : ServiceStatus → bool) (nodes : list NodeServiceData) : list bytes :=
  n_service_name <$> filter (λ n, f (n_status n) = true) nodes.

(** What to do: the services to stop, the services to start, or the ports to add nodes at and the services to start then. *)
Inductive MaintainPlan := MP_Stop (names : list bytes) | MP_Start (names : list bytes) | MP_Add (ports : list Z) (names : list bytes) | MP_Nothing.

Definition maintain_plan (max_nodes_to_run : nat) (node_port : option PortRange) (nodes : list NodeServiceData) : MaintainPlan :=
  let running := names_with (λ st, bool_decide (st = SS_Running)) nodes in
  match (length running ?= max_nodes_to_run)%nat with
  | Gt => MP_Stop (take (length running - max_nodes_to_run) (reverse running))
  | Lt =>
    let to_start_count := (max_nodes_to_run - length running)%nat in
    let inactive := names_with (λ st, bool_decide (st = SS_Stopped ∨ st = SS_Added)) nodes in
    if (to_start_count <=? length inactive)%nat then MP_Start (take to_start_count inactive)
    else
      let to_add_count := (to_start_count - length inactive)%nat in
      MP_Add (match node_port with
              | Some (PR_Single port) => [port]
              | Some (PR_Range start end_) => take to_add_count (ports_of (PR_Range start end_))
              | None => []
              end) inactive
  | Eq => MP_Nothing
  end.

Definition maintain_n_running_nodes (g : AddArgs) (connection_timeout_s : Z) (max_nodes_to_run : nat) (start_node_interval : option Z) (verbosity : VerbosityLevel)
    : CM (NodeRegistry * Os) EyreReport () :=
  let! nodes := cm_get (λ w, reg_nodes w.1) in
  match maintain_plan max_nodes_to_run (g_node_port g) nodes with
  | MP_Stop names => cmd_stop None [] names verbosity
  | MP_Start names => cmd_start connection_timeout_s start_node_interval [] names verbosity
  | MP_Add ports inactive =>
    let! _ := add_and_start true g connection_timeout_s start_node_interval verbosity ports in
    match inactive with [] => cm_ret () | _ => cmd_start connection_timeout_s start_node_interval [] inactive verbosity end
  | MP_Nothing => cm_ret ()
  end.
End commands.
Arguments CommandEnv Os : clear implicits.
