(* ===== verification/ServiceManagerProps.v ===== *)
(** * Properties of the service manager

    [ServiceStateLaws] is what a service promises to the manager: what its data say after each call.
    Against it the manager is shown to follow the life cycle of a service; the node's and the daemon's
    service have these laws. The refresh of the registry is compared with a reference definition. *)

From stdpp Require Import base gmap countable strings list.
From Stdlib Require Import ZArith Lia.
From S2P Require Import Prelude Text Effects Multiaddr BootstrapCache ServiceManagement ServiceManager.

#[local] Open Scope rust_scope.

(** ** What a service promises *)

Section laws.
Context `{Semver, ServiceTexts} {Svc Os : Type} `{!ServiceStateActions Svc Os}.

(** What identifies a service never changes. *)
Definition identity (s : Svc) : bytes * bytes * bytes * bytes * bool :=
  (bin_path (Os := Os) s, data_dir_path (Os := Os) s, log_dir_path (Os := Os) s, service_name (Os := Os) s, is_user_mode (Os := Os) s).

Class ServiceStateLaws : Prop := {
  law_start pid full s o :
    wp (on_start (Some pid) full) (λ r w,
      match r with
      | Ok _ => service_status (Os := Os) w.1 = SS_Running ∧ service_pid (Os := Os) w.1 = Some pid ∧ identity w.1 = identity s
      | Err _ => w.1 = s
      end) (s, o);
  law_stop s :
    service_status (Os := Os) (on_stop (Os := Os) s) = SS_Stopped ∧ service_pid (Os := Os) (on_stop (Os := Os) s) = None ∧
    identity (on_stop (Os := Os) s) = identity s;
  law_remove s :
    service_status (Os := Os) (on_remove (Os := Os) s) = SS_Removed ∧
    service_pid (Os := Os) (on_remove (Os := Os) s) = service_pid (Os := Os) s ∧ identity (on_remove (Os := Os) s) = identity s;
  law_version v s :
    service_status (Os := Os) (set_version (Os := Os) v s) = service_status (Os := Os) s ∧
    service_pid (Os := Os) (set_version (Os := Os) v s) = service_pid (Os := Os) s ∧
    service_version (Os := Os) (set_version (Os := Os) v s) = v ∧ identity (set_version (Os := Os) v s) = identity s;
}.
End laws.
Arguments ServiceStateLaws {_} Svc Os {_}.

Section instances.
Context `{Semver, ServiceTexts} {Os : Type} `{!ServiceControl Os, !AntNodeClient Os}.

Lemma full_refresh_spec client timeout d o :
  wp (full_refresh_info client timeout) (λ r w,
    match r with
    | Ok _ => ∃ addrs port, w.1 = nsd_set d addrs port (n_connected_peers d) (n_peer_id d) (n_pid d) (n_version d) (n_status d) (n_reward_balance d)
    | Err _ => w.1 = d
    end) (d, o).
Proof.
  unfold full_refresh_info. wp_steps. apply wp_any. intros [[]|e] o1; [|done]. wp_steps. apply wp_any. intros [info|e] o2; [|done].
  wp_steps. apply wp_any. intros [net|e] o3; [|done]. wp_steps. simpl. by eexists _, _.
Qed.

Lemma node_on_start_spec client timeout pid full d o :
  wp (node_on_start client timeout (Some pid) full) (λ r w,
    match r with
    | Ok _ => ∃ addrs port peers id v, w.1 = nsd_set d addrs port peers id (Some pid) v SS_Running (n_reward_balance d)
    | Err _ => w.1 = d
    end) (d, o).
Proof.
  unfold node_on_start. apply wp_bind.
  apply (wp_mono _ (λ r w, match r with
    | Ok _ => ∃ addrs port, w.1 = nsd_set d addrs port (n_connected_peers d) (n_peer_id d) (n_pid d) (n_version d) (n_status d) (n_reward_balance d)
    | Err _ => w.1 = d end)).
  { destruct full; [apply full_refresh_spec|]. wp_steps. simpl. exists (n_listen_addr d), (n_node_port d). by destruct d. }
  intros [[peers id]|e] [d1 o1]; simpl; [|done]. intros (addrs & port & ->). wp_steps. apply wp_any.
  intros [[v|]|e] o2; wp_steps; simpl; by eexists _, _, _, _, _.
Qed.

#[export] Instance node_service_laws client timeout : ServiceStateLaws NodeServiceData Os (ServiceStateActions0 := node_service client timeout).
Proof.
  split; try done. intros pid full d o. eapply wp_mono; [apply node_on_start_spec|].
  intros [[]|e] w; [|done]. by intros (addrs & port & peers & id & v & ->).
Qed.

#[export] Instance daemon_service_laws : ServiceStateLaws DaemonServiceData Os (ServiceStateActions0 := daemon_service).
Proof. split; try done. Qed.
End instances.

(** ** The life cycle of a service *)

Section lifecycle.
Context `{Semver, ServiceTexts, MgrTexts} {Svc Os : Type} `{!ServiceStateActions Svc Os, !ServiceControl Os, !FileSystem Os, !ServiceStateLaws Svc Os}.

#[local] Abbreviation status := (service_status (Os := Os)).
#[local] Abbreviation pid := (service_pid (Os := Os)).
#[local] Abbreviation ident := (identity (Os := Os)).

(** Exactly a running service has a process id. *)
Definition pid_inv (s : Svc) : Prop := status s = SS_Running ↔ is_Some (pid s).

(** The data after a stop. *)
Definition stopped (s : Svc) : Svc := if bool_decide (status s = SS_Running) then on_stop (Os := Os) s else s.

Lemma on_stop_inv s : pid_inv (on_stop (Os := Os) s).
Proof. destruct (law_stop (Os := Os) s) as (K1 & K2 & _). unfold pid_inv. rewrite K1, K2. split; [done|by intros []]. Qed.

Definition after_stop (st : ServiceStatus) : ServiceStatus := match st with SS_Running => SS_Stopped | st => st end.

Lemma stopped_status s : status (stopped s) = after_stop (status s).
Proof. unfold stopped, after_stop. case_bool_decide as E; [rewrite E; apply law_stop|by destruct (status s)]. Qed.

Lemma stopped_inv s : pid_inv s → pid_inv (stopped s).
Proof. unfold stopped. case_bool_decide; [intros _; apply on_stop_inv|done]. Qed.

Lemma stopped_ident s : ident (stopped s) = ident s.
Proof. unfold stopped. case_bool_decide; [apply law_stop|done]. Qed.

Lemma version_inv v s : pid_inv s → pid_inv (set_version (Os := Os) v s).
Proof. destruct (law_version (Os := Os) v s) as (K1 & K2 & _). unfold pid_inv. by rewrite K1, K2. Qed.

Lemma process_found_spec (Q : result bool MgrError → Svc * Os → Prop) s o : (∀ b o', Q (Ok b) (s, o')) → wp process_found Q (s, o).
Proof. intros HQ. unfold process_found. wp_steps. apply wp_any. intros r o'. wp_steps. simpl. apply HQ. Qed.

Lemma start_spec s o : wp manager_start (λ r w,
  match r with
  | Ok _ => status w.1 = SS_Running ∧ (pid_inv s → pid_inv w.1) ∧ ident w.1 = ident s
  | Err e => w.1 = s ∧ e ≠ ME_PidNotSet
  end) (s, o).
Proof.
  unfold manager_start. wp_steps. simpl.
  apply (wp_mono _ (λ r w, w.1 = s ∧ ∃ b, r = Ok b ∧ (b = true → status s = SS_Running))).
  { case_bool_decide; [apply process_found_spec; eauto|]. wp_steps. split; [done|]. by exists false. }
  intros r [s' o1]. simpl. intros (-> & b & -> & Hb). destruct b; [wp_steps; auto|].
  unfold os_op. wp_steps. apply wp_any. intros [[]|e] o2; [|by simpl]. cbn [map_err]. wp_steps. simpl. apply wp_any.
  intros [p|e] o3; [|destruct e; wp_steps; simpl; by split]. wp_steps. eapply wp_mono; [apply law_start|].
  intros [[]|e] w; simpl; [|by intros ->]. intros (K1 & K2 & K3). split_and!; [done| |done]. intros _. unfold pid_inv. rewrite K1, K2. by split; eauto.
Qed.

Lemma stop_spec s o : pid_inv s → wp manager_stop (λ r w, match r with Ok _ => w.1 = stopped s | Err e => w.1 = s ∧ e ≠ ME_PidNotSet end) (s, o).
Proof.
  intros Hinv. unfold manager_stop, stopped. wp_steps. simpl. destruct (status s) eqn:E; try (wp_steps; by rewrite bool_decide_false).
  rewrite bool_decide_true by done. destruct (proj1 Hinv E) as [p ->]. cbn [ok_or]. wp_steps.
  apply process_found_spec. intros b o1. wp_steps. apply (wp_mono _ (λ r w, w.1 = s ∧ ∀ e, r = Err e → e ≠ ME_PidNotSet)).
  { destruct b; unfold os_op; wp_steps; [|by split]. apply wp_any. intros [[]|e] o2; simpl; split; try done. by intros ? [= <-]. }
  intros [[]|e] [s' o2]; simpl; intros [-> He]; [|by auto]. unfold tell. by wp_steps.
Qed.

Lemma remove_dir_spec path (Q : result () MgrError → Svc * Os → Prop) s o :
  (∀ o', Q (Ok ()) (s, o')) → (∀ e o', Q (Err (ME_Io e)) (s, o')) → wp (remove_dir_if_exists path) Q (s, o).
Proof.
  intros K1 K2. unfold remove_dir_if_exists, fs_op. wp_steps. simpl. destruct (fs_exists path o); wp_steps; [|apply K1].
  apply wp_any. intros [[]|e] o1; simpl; [apply K1|apply K2].
Qed.

Lemma remove_spec keep s o : wp (manager_remove keep) (λ r w,
  match r with
  | Ok _ => status s ≠ SS_Running ∧ w.1 = on_remove (Os := Os) s
  | Err e => e ≠ ME_PidNotSet ∧ (w.1 = s ∨ status s = SS_Running ∧ w.1 = on_stop (Os := Os) s)
  end) (s, o).
Proof.
  unfold manager_remove. wp_steps. simpl.
  apply (wp_mono _ (λ r w, match r with Ok _ => status s ≠ SS_Running ∧ w.1 = s
                          | Err e => e ≠ ME_PidNotSet ∧ (w.1 = s ∨ status s = SS_Running ∧ w.1 = on_stop (Os := Os) s) end)).
  { case_bool_decide; [|by wp_steps]. wp_steps. apply process_found_spec. intros [] o1; unfold tell; wp_steps; simpl; auto. }
  intros [[]|e] [s' o1]; simpl; [|done]. intros [Hs ->]. wp_steps. apply wp_any. intros r o2. wp_steps. cbn [fst snd].
  apply (wp_mono _ (λ r w, w.1 = s ∧ ∀ e, r = Err e → e ≠ ME_PidNotSet)).
  { destruct r as [[]|[]]; wp_steps; simpl; split; try done; by intros ? [= <-]. }
  intros [[]|e] [s' o3]; simpl; intros [-> He]; [|by auto]. wp_steps.
  apply (wp_mono _ (λ r w, w.1 = s ∧ ∀ e, r = Err e → e ≠ ME_PidNotSet)).
  { destruct keep; wp_steps; [by split|]. apply remove_dir_spec; [|intros e o4; split; [done|by intros ? [= <-]]].
    intros o4. apply remove_dir_spec; intros; (split; [done|]); [done|by intros ? [= <-]]. }
  intros [[]|e] [s' o4]; simpl; intros [-> He2]; [|by auto]. unfold tell. wp_steps. by simpl.
Qed.

Lemma upgrade_spec options s o : pid_inv s → wp (manager_upgrade options) (λ r w,
  match r with
  | Ok UR_NotRequired => w.1 = s
  | Ok (UR_UpgradedButNotStarted _ _ _) => uo_start_service options = true ∧ w.1 = set_version (Os := Os) (version_to_string (uo_target_version options)) (stopped s)
  | Ok (UR_Error _) => False
  | Ok _ => ∃ s1, w.1 = set_version (Os := Os) (version_to_string (uo_target_version options)) s1 ∧
      if uo_start_service options then status s1 = SS_Running ∧ pid_inv s1 ∧ ident s1 = ident s else s1 = stopped s
  | Err e => e ≠ ME_PidNotSet ∧ (w.1 = s ∨ w.1 = stopped s)
  end) (s, o).
Proof.
  intros Hinv. unfold manager_upgrade. wp_steps. simpl. destruct (version_parse _) as [cur|e]; simpl; [|by auto].
  destruct (negb _ && _); [by wp_steps|]. wp_steps. eapply wp_mono; [by apply stop_spec|].
  intros [[]|e] [s1 o1]; simpl; [intros ->|by intros [-> He]; auto]. wp_steps. unfold fs_op, os_op. wp_steps. simpl.
  apply wp_any. intros [[]|e] o2; simpl; [|by auto]. wp_steps. apply wp_any. intros [[]|e] o3; simpl; [|by auto]. wp_steps.
  destruct (build_upgrade_install_context _ _) as [ctx|e]; simpl; [|by auto]. wp_steps. apply wp_any. intros [[]|e] o4; simpl; [|by auto]. wp_steps.
  apply (wp_mono _ (λ r w, match r with
    | Ok (Ok _) => if uo_start_service options then status w.1 = SS_Running ∧ pid_inv w.1 ∧ ident w.1 = ident s else w.1 = stopped s
    | Ok (Err _) => uo_start_service options = true ∧ w.1 = stopped s
    | Err _ => False end)).
  { destruct (uo_start_service options); [|by wp_steps]. wp_steps. eapply wp_mono; [apply start_spec|].
    intros [[]|e] w; [|by intros [-> _]]. intros (K1 & K2 & K3). split_and!; [done|by apply K2, stopped_inv|]. rewrite K3. apply stopped_ident. }
  intros [[[]|err]|e] [s2 o5]; simpl; [|intros [Hst ->]|done]; unfold tell; wp_steps; simpl; [|done].
  intros Hs2. destruct (uo_force options); eexists; (split; [done|]); done.
Qed.

(** *** The life cycle as a relation *)

Inductive ServiceOp := OpStart | OpStop | OpRemove (keep_directories : bool) | OpUpgrade (options : UpgradeOptions).

Definition OpResult : Type := result (option UpgradeResult) MgrError.

#[local] Open Scope cm_scope.

Definition run_service_op (op : ServiceOp) : CM (Svc * Os) MgrError (option UpgradeResult) :=
  match op with
  | OpStart => let! _ := manager_start in cm_ret None
  | OpStop => let! _ := manager_stop in cm_ret None
  | OpRemove keep => let! _ := manager_remove keep in cm_ret None
  | OpUpgrade options => let! r := manager_upgrade options in cm_ret (Some r)
  end.

Inductive life_step : ServiceStatus → ServiceOp → OpResult → ServiceStatus → Prop :=
  | life_started st : life_step st OpStart (Ok None) SS_Running
  | life_not_started st e : e ≠ ME_PidNotSet → life_step st OpStart (Err e) st
  | life_stopped st : life_step st OpStop (Ok None) (after_stop st)
  | life_not_stopped st e : e ≠ ME_PidNotSet → life_step st OpStop (Err e) st
  | life_removed st keep : st ≠ SS_Running → life_step st (OpRemove keep) (Ok None) SS_Removed
  | life_not_removed st keep e : e ≠ ME_PidNotSet → life_step st (OpRemove keep) (Err e) st
  | life_found_stopped keep e : e ≠ ME_PidNotSet → life_step SS_Running (OpRemove keep) (Err e) SS_Stopped
  | life_up_to_date st options : life_step st (OpUpgrade options) (Ok (Some UR_NotRequired)) st
  | life_upgraded st options a b :
      life_step st (OpUpgrade options) (Ok (Some (UR_Upgraded a b))) (if uo_start_service options then SS_Running else after_stop st)
  | life_forced st options a b :
      life_step st (OpUpgrade options) (Ok (Some (UR_Forced a b))) (if uo_start_service options then SS_Running else after_stop st)
  | life_upgraded_not_started st options a b c :
      uo_start_service options = true → life_step st (OpUpgrade options) (Ok (Some (UR_UpgradedButNotStarted a b c))) (after_stop st)
  | life_not_upgraded st options e : e ≠ ME_PidNotSet → life_step st (OpUpgrade options) (Err e) st
  | life_stopped_not_upgraded st options e : e ≠ ME_PidNotSet → life_step st (OpUpgrade options) (Err e) (after_stop st).

Lemma run_service_op_spec op s o : pid_inv s → wp (run_service_op op) (λ r w, life_step (status s) op r (status w.1) ∧ pid_inv w.1 ∧ ident w.1 = ident s) (s, o).
Proof.
  intros Hinv. destruct op as [| |keep|options]; simpl; wp_steps.
  - eapply wp_mono; [apply start_spec|]. intros [[]|e] w; simpl; [|by intros [-> He]; split_and!; [constructor|..]].
    intros (K1 & K2 & K3). wp_steps. rewrite K1. split_and!; [constructor|auto|done].
  - eapply wp_mono; [by apply stop_spec|]. intros [[]|e] w; simpl; [|by intros [-> He]; split_and!; [constructor|..]].
    intros Hw. wp_steps. rewrite Hw, stopped_status, stopped_ident. split_and!; [apply life_stopped|by apply stopped_inv|done].
  - eapply wp_mono; [apply remove_spec|]. intros [[]|e] w; simpl.
    + intros [Hs Hw]. wp_steps. rewrite Hw. destruct (law_remove (Os := Os) s) as (K1 & K2 & K3). rewrite K1. split_and!; [by constructor| |done].
      unfold pid_inv in *. rewrite K1, K2. split; [done|]. intros Hp. by apply Hinv in Hp.
    + intros [He [->|[Hs ->]]]; [split_and!; [by constructor|done|done]|]. destruct (law_stop (Os := Os) s) as (K1 & _ & K3). rewrite K1, Hs.
      split_and!; [by constructor|apply on_stop_inv|done].
  - eapply wp_mono; [by apply upgrade_spec|]. pose proof (version_inv (version_to_string (uo_target_version options))) as Hv.
    destruct (law_version (Os := Os) (version_to_string (uo_target_version options)) (stopped s)) as (V1 & _ & _ & V3).
    assert (∀ w s1, w = set_version (Os := Os) (version_to_string (uo_target_version options)) s1 →
        (if uo_start_service options then status s1 = SS_Running ∧ pid_inv s1 ∧ ident s1 = ident s else s1 = stopped s) →
        status w = (if uo_start_service options then SS_Running else after_stop (status s)) ∧ pid_inv w ∧ ident w = ident s) as Hup.
    { intros w s1 -> Hs1. destruct (law_version (Os := Os) (version_to_string (uo_target_version options)) s1) as (L1 & _ & _ & L3). rewrite L1, L3.
      destruct (uo_start_service options); [destruct Hs1 as (? & ? & ?); auto|subst; rewrite stopped_status, stopped_ident; auto using stopped_inv]. }
    intros [[a b| |a b|a b c|c]|e] w; simpl.
    + intros (s1 & Hw & Hs1). wp_steps. destruct (Hup _ _ Hw Hs1) as (-> & ? & ?). split_and!; [constructor|done|done].
    + intros Hw. wp_steps. rewrite Hw. split_and!; [constructor|done|done].
    + intros (s1 & Hw & Hs1). wp_steps. destruct (Hup _ _ Hw Hs1) as (-> & ? & ?). split_and!; [constructor|done|done].
    + intros [Hst Hw]. wp_steps. rewrite Hw, V1, V3, stopped_status, stopped_ident. split_and!; [by apply life_upgraded_not_started|by apply Hv, stopped_inv|done].
    + done.
    + intros [He [->| ->]]; [split_and!; [by constructor|done|done]|]. rewrite stopped_status, stopped_ident.
      split_and!; [by apply life_stopped_not_upgraded|by apply stopped_inv|done].
Qed.

(** A sequence of operations, each with its result and the status after it. *)
Fixpoint run_service_ops (ops : list ServiceOp) (w : Svc * Os) : list (ServiceOp * OpResult * ServiceStatus) * (Svc * Os) :=
  match ops with
  | [] => ([], w)
  | op :: ops => let '(r, w) := run_service_op op w in let '(trace, w') := run_service_ops ops w in ((op, r, status w.1) :: trace, w')
  end.

Inductive life_trace : ServiceStatus → list (ServiceOp * OpResult * ServiceStatus) → Prop :=
  | life_nil st : life_trace st []
  | life_cons st op r st' trace : life_step st op r st' → life_trace st' trace → life_trace st ((op, r, st') :: trace).

(** C37: the manager follows the life cycle of a service. Whatever operations are run on a service that
    keeps its promises, and whatever the operating system answers, each result and the status after it
    are a step of the life cycle; a process id is set exactly while the status is running, so that no
    operation ever finds it missing; paths, name and mode never change. *)
Theorem service_refines_lifecycle ops s o :
  pid_inv s →
  let '(trace, w) := run_service_ops ops (s, o) in
  life_trace (status s) trace ∧ pid_inv w.1 ∧ ident w.1 = ident s ∧ ∀ op st, ((op, Err ME_PidNotSet, st) ∉ trace).
Proof.
  intros Hinv. destruct (run_service_ops ops (s, o)) as [trace w] eqn:E.
  assert (life_trace (status s) trace ∧ pid_inv w.1 ∧ ident w.1 = ident s) as (Ht & Hw & Hid).
  { revert s o trace w Hinv E. induction ops as [|op ops IH]; intros s o trace w Hinv E; simpl in E; [simplify_eq; split_and!; [constructor|done|done]|].
    destruct (run_service_op op (s, o)) as [r [s1 o1]] eqn:Eop. destruct (run_service_ops ops (s1, o1)) as [trace1 w1] eqn:Eops. simplify_eq.
    pose proof (run_service_op_spec op s o Hinv) as Hop. unfold wp in Hop. rewrite Eop in Hop. destruct Hop as (Hl & Hp & Hi).
    destruct (IH _ _ _ _ Hp Eops) as (? & ? & ?). split_and!; [by constructor|done|congruence]. }
  split_and!; [done|done|done|]. clear -Ht. intros op st Hin. induction Ht as [|st0 op' r st' trace Hs Ht IH]; [by apply elem_of_nil in Hin|].
  apply elem_of_cons in Hin as [[= <- <- <-]|Hin]; [inversion Hs; congruence|by apply IH].
Qed.
End lifecycle.

(** ** What the refresh finds *)

(** Operations that only ask. *)
Definition quiet {W E A} (m : CM W E A) : Prop := ∀ w, (m w).2 = w.

Section quiet.
Context {W E : Type}.

Lemma quiet_ret {A} (a : A) : quiet (cm_ret a : CM W E A).
Proof. done. Qed.

Lemma quiet_err {A} (e : E) : quiet (cm_err e : CM W E A).
Proof. done. Qed.

Lemma quiet_lift {A} (r : result A E) : quiet (cm_lift r : CM W E A).
Proof. done. Qed.

Lemma quiet_bind {A B} (m : CM W E A) (k : A → CM W E B) : quiet m → (∀ a, quiet (k a)) → quiet (cm_bind m k).
Proof. intros Hm Hk w. unfold cm_bind. specialize (Hm w). destruct (m w) as [[a|e] w']; simpl in *; subst; [apply Hk|done]. Qed.

Lemma quiet_try {A E'} (m : CM W E' A) : quiet m → quiet (cm_try m : CM W E (result A E')).
Proof. intros Hm w. unfold cm_try. specialize (Hm w). by destruct (m w). Qed.

Lemma quiet_map_err {A E'} (f : E' → E) (m : CM W E' A) : quiet m → quiet (cm_map_err f m).
Proof. intros Hm w. unfold cm_map_err. specialize (Hm w). by destruct (m w). Qed.

Lemma quiet_modify (f : W → W) : (∀ w, f w = w) → quiet (cm_modify f : CM W E ()).
Proof. intros Hf w. apply Hf. Qed.
End quiet.

Create HintDb quiet.
#[export] Hint Resolve quiet_ret quiet_err quiet_lift quiet_bind quiet_try quiet_map_err quiet_modify : quiet.

(** A system on which nothing else happens while it is asked, and whose processes are a table. *)
Class ProcessTable (Os : Type) `{!ServiceControl Os, !FileSystem Os, !AntNodeClient Os, !Paths} := {
  processes : Os → list (Z * option bytes);
  pt_pid p o : get_process_pid p o = (find_process_pid (processes o) p, o);
  pt_verify pid name o : verify_process_by_pid pid name o = (Ok (process_named (processes o) pid name), o);
  pt_version pid : quiet (get_process_version pid);
  pt_read p : quiet (fs_read_to_string p);
  pt_connect e : quiet (client_connect e);
  pt_node_info e : quiet (client_node_info e);
  pt_network_info e : quiet (client_network_info e);
  pt_sleep t o : client_sleep t o = o;
}.
#[export] Hint Extern 1 (quiet (get_process_version _)) => apply pt_version : quiet.
#[export] Hint Extern 1 (quiet (fs_read_to_string _)) => apply pt_read : quiet.
#[export] Hint Extern 1 (quiet (client_connect _)) => apply pt_connect : quiet.
#[export] Hint Extern 1 (quiet (client_node_info _)) => apply pt_node_info : quiet.
#[export] Hint Extern 1 (quiet (client_network_info _)) => apply pt_network_info : quiet.
#[export] Hint Extern 1 (client_sleep _ _ = _) => apply pt_sleep : quiet.

Lemma some_union {A} (a : A) (o : option A) : Some a ∪ o = Some a.
Proof. by destruct o. Qed.

Section refresh.
Context `{Semver, ServiceTexts} {Os : Type} `{!ServiceControl Os, !FileSystem Os, !AntNodeClient Os, !Paths, !ProcessTable Os}.

Lemma connect_quiet c n : quiet (connect_loop c n).
Proof. induction n as [|n IH]; simpl; [auto with quiet|]. apply quiet_bind; [auto with quiet|]. intros [[]|e]; auto with quiet. Qed.

Lemma node_info_quiet c : quiet (rpc_node_info c).
Proof. unfold rpc_node_info. apply quiet_bind; [apply connect_quiet|]. intros []. eauto 10 with quiet. Qed.

Lemma network_info_quiet c : quiet (rpc_network_info c).
Proof. unfold rpc_network_info. apply quiet_bind; [apply connect_quiet|]. intros []. eauto 10 with quiet. Qed.

(** Where a node's process is looked for: the stored id, the path of the binary, the file with the id. *)
Definition detect (d : NodeServiceData) (o : Os) : option Z :=
  let named pid := process_named (processes o) pid (text "antnode") in
  match n_pid d with
  | Some pid => if named pid then Some pid else None
  | None => None
  end ∪ rok (find_process_pid (processes o) (n_antnode_path d)) ∪
  (pid ← rok (fs_read_to_string (path_join (n_data_dir_path d) (text "antnode.pid")) o).1 ≫= λ s, parse_unsigned u32_max (trim s);
   if named pid then Some pid else None).

(** The data of a node without a process. *)
Definition without_process (d : NodeServiceData) : NodeServiceData :=
  match n_status d with SS_Added => d | SS_Removed => d | _ => node_on_stop d end.

Definition refresh_client (d : NodeServiceData) : RpcClient := set_max_attempts (from_socket_addr (n_rpc_socket_addr d)) 1.

Lemma wp_quiet {E A} (m : CM Os E A) (Q : result A E → Os → Prop) o : quiet m → Q (m o).1 o → wp m Q o.
Proof. intros Hm HQ. unfold wp. by rewrite (Hm o). Qed.

Lemma detect_by_path client full d o (Q : result () SvcError → NodeServiceData * Os → Prop) :
  (∀ pid, rok (find_process_pid (processes o) (n_antnode_path d)) ∪
     (pid ← rok (fs_read_to_string (path_join (n_data_dir_path d) (text "antnode.pid")) o).1 ≫= λ s, parse_unsigned u32_max (trim s);
      if process_named (processes o) pid (text "antnode") then Some pid else None) = Some pid →
     wp (found_with_pid client full pid) Q (d, o)) →
  (rok (find_process_pid (processes o) (n_antnode_path d)) ∪
     (pid ← rok (fs_read_to_string (path_join (n_data_dir_path d) (text "antnode.pid")) o).1 ≫= λ s, parse_unsigned u32_max (trim s);
      if process_named (processes o) pid (text "antnode") then Some pid else None) = None → Q (Ok ()) (without_process d, o)) →
  wp (detect_pid_using_path client full) Q (d, o).
Proof.
  intros Hfound Hnone. unfold detect_pid_using_path. wp_steps. cbn [fst snd]. unfold wp at 1. rewrite pt_pid. cbn [fst snd].
  destruct (find_process_pid _ _) as [pid|e]; cbn [rok] in *; [apply Hfound, some_union|]. rewrite (left_id_L None _) in Hfound, Hnone.
  wp_steps. unfold pid_from_file. wp_steps. apply wp_quiet; [auto with quiet|]. cbn [fst snd].
  destruct (rok _ ≫= _) as [pid|] eqn:E; simpl in *; [|wp_steps; specialize (Hnone eq_refl)].
  - wp_steps. unfold wp at 1. rewrite pt_verify. cbn [fst snd]. destruct (process_named _ _ _); wp_steps; [by apply Hfound|]. specialize (Hnone eq_refl).
    unfold without_process in Hnone. destruct (n_status d); by wp_steps.
  - unfold without_process in Hnone. destruct (n_status d); by wp_steps.
Qed.

(** The refresh of a node, in terms of where its process is found. *)
Lemma refresh_node_spec full d o (Q : result () SvcError → NodeServiceData * Os → Prop) :
  (∀ pid, detect d o = Some pid → wp (found_with_pid (refresh_client d) full pid) Q (clear_reward_balance d, o)) →
  (detect d o = None → Q (Ok ()) (without_process (clear_reward_balance d), o)) →
  wp (refresh_node full false) Q (d, o).
Proof.
  intros Hfound Hnone. unfold refresh_node. wp_steps. cbn [fst snd]. cbn [n_pid clear_reward_balance nsd_set]. unfold detect in *.
  destruct (n_pid d) as [pid|] eqn:Ep.
  - wp_steps. unfold wp at 1. rewrite pt_verify. cbn [fst snd]. destruct (process_named _ pid _) eqn:Ev.
    + apply Hfound. by rewrite !some_union.
    + rewrite (left_id_L None _) in Hfound, Hnone. by apply detect_by_path.
  - rewrite (left_id_L None _) in Hfound, Hnone. by apply detect_by_path.
Qed.

(** A refresh of a node with a process changes nothing of the system; only a full one can fail. *)
Lemma found_spec client full pid d o : wp (found_with_pid client full pid) (λ r w,
  w.2 = o ∧
  match r with
  | Ok _ => n_status w.1 = SS_Running ∧ n_pid w.1 = Some pid
  | Err _ => full = true ∧ w.1 = d
  end) (d, o).
Proof.
  unfold found_with_pid, node_on_start. apply wp_bind.
  apply (wp_mono _ (λ r w, w.2 = o ∧ match r with Ok _ => True | Err _ => full = true ∧ w.1 = d end)).
  { destruct full; [|by wp_steps]. unfold full_refresh_info. wp_steps. apply wp_quiet; [apply node_info_quiet|].
    cbn [fst snd]. destruct (rpc_node_info client o) as [[info|e] o1]; cbn [fst snd]; [|by split_and!]. wp_steps. apply wp_quiet; [apply network_info_quiet|].
    cbn [fst snd]. destruct (rpc_network_info client o) as [[net|e] o2]; cbn [fst snd]; [|by split_and!]. by wp_steps. }
  intros [[peers id]|e] [d1 o1]; [|done]. cbn [fst snd]. intros [-> _]. wp_steps. apply wp_quiet; [auto with quiet|]. cbn [fst snd].
  destruct (get_process_version pid o).1 as [[v|]|e]; wp_steps; by simpl.
Qed.

(** A node that does not accept a connection fails the full refresh. *)
Lemma hung_spec d pid o e : (client_connect (rc_endpoint (refresh_client d)) o).1 = Err e →
  wp (found_with_pid (refresh_client d) true pid) (λ r w, w.2 = o ∧ ∃ e, r = Err e) (clear_reward_balance d, o).
Proof.
  intros He. unfold found_with_pid, node_on_start, full_refresh_info, rpc_node_info, connect_with_retry. wp_steps. cbn [rc_max_attempts refresh_client set_max_attempts].
  change (Z.to_nat (Z.max 1 1)) with 1%nat. cbn [connect_loop fst snd]. wp_steps. apply wp_quiet; [auto with quiet|]. rewrite He. wp_steps.
  rewrite pt_sleep. eauto.
Qed.

Lemma wp_at_node {E A} `{Inhabited A} i (m : CM (NodeServiceData * Os) E A) (Q : result A E → NodeRegistry * Os → Prop) r o d :
  reg_nodes r !! i = Some d → wp m (λ res w, Q res (reg_with_nodes r (<[i := w.1]> (reg_nodes r)), w.2)) (d, o) → wp (at_node i m) Q (r, o).
Proof. intros Hi. unfold wp, at_node. cbn [fst snd]. rewrite Hi. by destruct (m (d, o)) as [res [d' o']]. Qed.

Lemma refresh_wp full local r o (P : nat → NodeRegistry * Os → Prop) (F : MgrError → NodeRegistry * Os → Prop) :
  P 0%nat (r, o) →
  (∀ i w, (i < length (reg_nodes r))%nat → P i w →
     wp (at_node i (refresh_node full local)) (λ res w', match res with Ok _ => P (S i) w' | Err e => F (ME_ServiceManagementError e) w' end) w) →
  wp (refresh_node_registry full local) (λ res w, match res with Ok _ => P (length (reg_nodes r)) w | Err e => F e w end) (r, o).
Proof.
  intros H0' Hstep. unfold refresh_node_registry. wp_steps. cbn [fst snd]. set (n := length (reg_nodes r)) in *.
  eapply wp_mono; [apply (wp_for _ _ (λ rest w, ∃ j, (j ≤ n)%nat ∧ rest = seq j (n - j) ∧ P j w) F)|].
  - exists 0%nat. split_and!; [lia|by rewrite Nat.sub_0_r|done].
  - intros i rest w (j & Hj & Hrest & HP). destruct (n - j)%nat as [|m] eqn:Em; [done|]. simpl in Hrest. injection Hrest as -> ->.
    wp_steps. eapply wp_mono; [apply Hstep; [lia|done]|]. intros [[]|e] w'; simpl; [|done]. intros HP'. exists (S j). split_and!; [lia| |done]. f_equal. lia.
  - intros [[]|e] w; [|done]. intros (j & Hj & Hrest & HP). destruct (n - j)%nat as [|m] eqn:Em; [|done]. by replace n with j by lia.
Qed.

(** The data of a node after a refresh that found its process, or not. *)
Definition found_as (d d' : NodeServiceData) (o : Os) : Prop :=
  match detect d o with
  | Some pid => n_status d' = SS_Running ∧ n_pid d' = Some pid
  | None => d' = without_process (clear_reward_balance d)
  end.

(** A refresh goes through the nodes in order; the system and the nodes after the one that fails stay as they are. *)
Lemma refresh_spec full r o : wp (refresh_node_registry full false) (λ res w,
  w.2 = o ∧ length (reg_nodes w.1) = length (reg_nodes r) ∧
  match res with
  | Ok _ => ∀ i d, reg_nodes r !! i = Some d → ∃ d', reg_nodes w.1 !! i = Some d' ∧ found_as d d' o
  | Err _ => full = true
  end) (r, o).
Proof.
  eapply wp_mono; [apply (refresh_wp full false r o (λ j w, w.2 = o ∧ length (reg_nodes w.1) = length (reg_nodes r) ∧
      (∀ i d, (i < j)%nat → reg_nodes r !! i = Some d → ∃ d', reg_nodes w.1 !! i = Some d' ∧ found_as d d' o) ∧
      (∀ i, (j ≤ i)%nat → reg_nodes w.1 !! i = reg_nodes r !! i))
    (λ _ w, w.2 = o ∧ length (reg_nodes w.1) = length (reg_nodes r) ∧ full = true))|].
  - split_and!; [done|done|lia|done].
  - intros i [r1 o1] Hi. cbn [fst snd]. intros (-> & Hlen & Hdone & Hrest). destruct (lookup_lt_is_Some_2 _ _ Hi) as [d Hd].
    eapply wp_at_node; [rewrite Hrest; [exact Hd|lia]|].
    assert (∀ d', found_as d d' o → let w := (reg_with_nodes r1 (<[i := d']> (reg_nodes r1)), o) in
      w.2 = o ∧ length (reg_nodes w.1) = length (reg_nodes r) ∧ (∀ k dk, (k < S i)%nat → reg_nodes r !! k = Some dk → ∃ d', reg_nodes w.1 !! k = Some d' ∧ found_as dk d' o) ∧
      (∀ k, (S i ≤ k)%nat → reg_nodes w.1 !! k = reg_nodes r !! k)) as Hput.
    { intros d' Hd'. simpl. split_and!; [done|by rewrite length_insert| |].
      - intros k dk Hk Hdk. destruct (decide (k = i)) as [->|Hne]; [|rewrite list_lookup_insert_ne by done; apply Hdone; [lia|done]].
        exists d'. rewrite list_lookup_insert_eq by lia. split; [done|congruence].
      - intros k Hk. rewrite list_lookup_insert_ne by lia. apply Hrest. lia. }
    apply refresh_node_spec.
    + intros pid Hpid. eapply wp_mono; [apply found_spec|]. intros [[]|e] [d' o']; cbn [fst snd]; intros [-> Hres].
      * apply Hput. unfold found_as. by rewrite Hpid.
      * split_and!; [done|simpl; by rewrite length_insert|by destruct Hres].
    + intros Hnone. apply Hput. unfold found_as. by rewrite Hnone.
  - intros [[]|e] w; [|done]. intros (? & ? & Hall & _). split_and!; [done|done|]. intros i d Hd. apply Hall; [|done]. by eapply lookup_lt_Some.
Qed.

(** A process that runs a node's binary. *)
Definition process_of (path : bytes) (o : Os) (pid : Z) : Prop := ∃ exe, (pid, exe) ∈ processes o ∧ runs_binary path exe = true.

Lemma find_process_complete path o pid : process_of path o pid → is_Some (rok (find_process_pid (processes o) path)).
Proof.
  intros (exe & Hin & Hruns). unfold find_process_pid. destruct (list_find _ _) as [[j [pid' exe']]|] eqn:E; [simpl; eauto|].
  apply list_find_None in E. rewrite Forall_forall in E. by destruct (E _ Hin).
Qed.

Lemma find_process_sound path o pid : find_process_pid (processes o) path = Ok pid → process_of path o pid.
Proof.
  unfold find_process_pid. destruct (list_find _ _) as [[j [pid' exe']]|] eqn:E; [|done]. intros [= <-].
  apply list_find_Some in E as (Hj & Hruns & _). exists exe'. split; [by eapply list_elem_of_lookup_2|done].
Qed.

Lemma detect_complete d o pid : process_of (n_antnode_path d) o pid → is_Some (detect d o).
Proof.
  intros Hp. destruct (find_process_complete _ _ _ Hp) as [p Hf]. unfold detect. rewrite Hf.
  destruct (match n_pid d with Some _ => _ | None => _ end); rewrite ?some_union, ?(left_id_L None _), ?some_union; eauto.
Qed.

Lemma detect_sound d o pid : detect d o = Some pid → process_named (processes o) pid (text "antnode") = true ∨ process_of (n_antnode_path d) o pid.
Proof.
  unfold detect. intros Hd. destruct (match n_pid d with Some _ => _ | None => _ end) as [p|] eqn:E1.
  - rewrite !some_union in Hd. simplify_eq. destruct (n_pid d) as [q|]; [|done]. destruct (process_named _ q _) eqn:En; simplify_eq. by left.
  - rewrite (left_id_L None _) in Hd. destruct (find_process_pid _ _) as [p|e] eqn:Ef; cbn [rok] in Hd.
    + rewrite some_union in Hd. simplify_eq. right. by apply find_process_sound.
    + rewrite (left_id_L None _) in Hd. destruct (rok _ ≫= _) as [q|]; simpl in Hd; [|done]. destruct (process_named _ q _) eqn:En; simplify_eq. by left.
Qed.

Lemma trim_end_fuel p s n m : p ≠ [] → (length s ≤ n)%nat → (length s ≤ m)%nat → trim_end_loop n p s = trim_end_loop m p s.
Proof.
  intros Hp. assert (∀ k, trim_end_loop k p [] = []) as Hnil.
  { intros [|k]; [done|]. simpl. unfold ends_with. case_bool_decide; [by subst|done]. }
  revert m s. induction n as [|n IH]; intros m s Hn Hm; [destruct s; [by rewrite Hnil|simpl in *; lia]|].
  destruct s as [|c s]; [by rewrite !Hnil|]. destruct m as [|m]; [simpl in *; lia|]. cbn [trim_end_loop].
  destruct (ends_with p (c :: s)); [|done]. apply IH; rewrite length_take; destruct p; [done|simpl in *; lia|done|simpl in *; lia].
Qed.

Lemma trim_end_suffix p s : p ≠ [] → trim_end_matches p (s ++ p) = trim_end_matches p s.
Proof.
  intros Hp. unfold trim_end_matches. rewrite length_app. destruct p as [|c p]; [done|]. rewrite Nat.add_comm. cbn [length Nat.add trim_end_loop].
  assert (ends_with (c :: p) (s ++ c :: p) = true) as ->.
  { unfold ends_with. rewrite length_app, Nat.add_sub, drop_app_length. by apply bool_decide_true. }
  rewrite length_app, Nat.add_sub, take_app_length. apply trim_end_fuel; [done|lia|done].
Qed.

(** On Linux a binary that was replaced while it runs still counts as the service's. *)
Lemma replaced_binary_runs path : runs_binary path (Some (path ++ text " (deleted)")) = true.
Proof.
  unfold runs_binary, normalize_path_for_comparison. rewrite trim_end_suffix by done. rewrite bool_decide_true by done. apply orb_true_r.
Qed.

Lemma own_binary_runs path : runs_binary path (Some path) = true.
Proof. unfold runs_binary. rewrite bool_decide_true by done. apply orb_true_r. Qed.

(** What a refresh finds. It changes nothing of the system, and a partial one never fails. When it
    succeeds, every node whose binary a process runs is marked as running, also if the binary was replaced
    meanwhile; a node that is marked as running has the id of a process of that binary or of one that is
    named after a node; a node that is not has no process, and is stopped unless it was never started or
    is removed. *)
Theorem refresh_finds_running full r o :
  let '(res, (r', o')) := refresh_node_registry full false (r, o) in
  o' = o ∧ (full = false → res = Ok ()) ∧
  (res = Ok () → ∀ i d, reg_nodes r !! i = Some d → ∃ d', reg_nodes r' !! i = Some d' ∧
    (∀ pid, (pid, Some (n_antnode_path d)) ∈ processes o ∨ (pid, Some (n_antnode_path d ++ text " (deleted)")) ∈ processes o → n_status d' = SS_Running) ∧
    (n_status d' = SS_Running → ∃ pid, n_pid d' = Some pid ∧ (process_named (processes o) pid (text "antnode") = true ∨ process_of (n_antnode_path d) o pid)) ∧
    (n_status d' ≠ SS_Running →
      (∀ pid, ¬ process_of (n_antnode_path d) o pid) ∧ n_status d' = after_stop (n_status d))).
Proof.
  destruct (refresh_node_registry full false (r, o)) as [res [r' o']] eqn:E. pose proof (refresh_spec full r o) as Hs. unfold wp in Hs.
  rewrite E in Hs. cbn [fst snd] in Hs. destruct Hs as (-> & Hlen & Hs). split_and!; [done|intros ->; by destruct res as [[]|]|].
  intros ->. intros i d Hd. destruct (Hs i d Hd) as (d' & Hd' & Hf). exists d'. split; [done|]. unfold found_as in Hf.
  assert (∀ pid, process_of (n_antnode_path d) o pid → n_status d' = SS_Running) as Hrun.
  { intros pid Hp. destruct (detect_complete d o pid Hp) as [q Hq]. rewrite Hq in Hf. by destruct Hf. }
  split_and!.
  - intros pid [Hin|Hin]; apply (Hrun pid); eexists; (split; [exact Hin|]); [apply own_binary_runs|apply replaced_binary_runs].
  - intros Hst. destruct (detect d o) as [pid|] eqn:Ed; [exists pid; split; [by destruct Hf|by apply detect_sound]|].
    subst d'. by destruct d as [? ? ? ? ? ? ? ? ? ? ? ? ? ? ? ? ? ? ? ? ? ? ? ? ? ? []].
  - intros Hst. split; [intros pid Hp; by apply Hst, (Hrun pid)|]. destruct (detect d o) as [pid|] eqn:Ed; [by destruct Hf|]. subst d'.
    unfold without_process. cbn [n_status clear_reward_balance nsd_set]. by destruct (n_status d) eqn:Es; cbn; rewrite ?Es.
Qed.
End refresh.
