(* ===== verification/NodeCommandsProps.v ===== *)
(** * Properties of the node manager's commands

    What one node that hangs does to all commands, that the removal of services spares the nodes that run,
    how added nodes are numbered and given ports, that an upgrade keeps a node's arguments, what the
    command for a number of running nodes falls short of, and the registry's file. *)

From stdpp Require Import base gmap countable strings list.
From Stdlib Require Import ZArith Lia.
From S2P Require Import Prelude Text Effects Multiaddr BootstrapCache ServiceManagement ServiceManager AddServices NodeCommands ServiceManagerProps.

#[local] Open Scope rust_scope.

(** ** A node that hangs *)

Section hung.
Context `{Semver, ServiceTexts, MgrTexts} {Os : Type}.
Context `{!ServiceControl Os, !FileSystem Os, !Paths, !RegistryJson, !ManagerPaths Os, !AntNodeClient Os, !ReleaseRepo Os, !CommandEnv Os, !ProcessTable Os}.

(** Its process is found, but it does not accept a connection. *)
Definition hung (d : NodeServiceData) (o : Os) : Prop :=
  is_Some (detect d o) ∧ ∃ e, (client_connect (rc_endpoint (refresh_client d)) o).1 = Err e.

Lemma refresh_hung r o i d :
  reg_nodes r !! i = Some d → hung d o → wp (refresh_node_registry true false) (λ res w, w.2 = o ∧ ∃ e, res = Err e) (r, o).
Proof.
  intros Hi [[pid Hpid] [e He]].
  eapply wp_mono; [apply (refresh_wp true false r o (λ j w, w.2 = o ∧ (j ≤ i)%nat ∧ ∀ k, (j ≤ k)%nat → reg_nodes w.1 !! k = reg_nodes r !! k) (λ _ w, w.2 = o))|].
  - split_and!; [done|lia|done].
  - intros j [r1 o1] Hj. cbn [fst snd]. intros (-> & Hle & Hrest). destruct (lookup_lt_is_Some_2 _ _ Hj) as [dj Hdj].
    eapply wp_at_node; [rewrite Hrest; [exact Hdj|lia]|]. apply refresh_node_spec.
    + intros q Hq. destruct (decide (j = i)) as [->|Hne].
      * simplify_eq. eapply wp_mono; [by eapply hung_spec|]. intros res w [Hw [e' ->]]. done.
      * eapply wp_mono; [apply found_spec|]. intros [[]|e'] [d' o'] [Ho _]; cbn [fst snd] in *; subst; [|done].
        split_and!; [done|lia|]. intros k Hk. simpl. rewrite list_lookup_insert_ne by lia. apply Hrest. lia.
    + intros Hnone. assert (j ≠ i) by (intros ->; simplify_eq). cbn [fst snd]. split_and!; [done|lia|].
      intros k Hk. simpl. rewrite list_lookup_insert_ne by lia. apply Hrest. lia.
  - intros [[]|e'] w; [|by eauto]. intros (_ & Hle & _). apply lookup_lt_Some in Hi. lia.
Qed.

Lemma select_hung r o i d v peer_ids names :
  reg_nodes r !! i = Some d → hung d o → v ≠ V_Minimal →
  wp (refresh_and_select v peer_ids names) (λ res w, w.2 = o ∧ ∃ e, res = Err e) (r, o).
Proof.
  intros Hi Hh Hv. unfold refresh_and_select, full_refresh_of. rewrite bool_decide_true by done. wp_steps.
  eapply wp_mono; [by eapply refresh_hung|]. intros res w [Hw [e ->]]. cbn. eauto.
Qed.

(** A command whose first part fails without a change of the system. *)
Lemma wp_blocked {A B} (m : CM (NodeRegistry * Os) EyreReport A) (k : A → CM (NodeRegistry * Os) EyreReport B) w o :
  wp m (λ res w, w.2 = o ∧ ∃ e, res = Err e) w → ∃ e r', cm_bind m k w = (Err e, (r', o)).
Proof.
  unfold wp, cm_bind. destruct (m w) as [res [r' o']]. cbn [fst snd]. intros [-> [e ->]]. eauto.
Qed.

(** C38: one node that hangs blocks the commands for all. If the process of some node is found but the node
    does not accept a connection, then at the usual verbosity starting, stopping, removing, resetting and
    asking for the status or the balance fail, whatever services are named, and nothing is started,
    stopped or removed: the system stays exactly as it was. *)
Theorem hung_node_blocks_commands r o i d v peer_ids names timeout interval keep fail :
  reg_nodes r !! i = Some d → hung d o → v ≠ V_Minimal →
  (∃ e r', cmd_start timeout interval peer_ids names v (r, o) = (Err e, (r', o))) ∧
  (∃ e r', cmd_stop interval peer_ids names v (r, o) = (Err e, (r', o))) ∧
  (∃ e r', cmd_remove keep peer_ids names v (r, o) = (Err e, (r', o))) ∧
  (∃ e r', cmd_balance peer_ids names v (r, o) = (Err e, (r', o))) ∧
  (∃ e r', cmd_reset true v (r, o) = (Err e, (r', o))) ∧
  (∃ e r', cmd_status fail false (r, o) = (Err e, (r', o))).
Proof.
  intros Hi Hh Hv. pose proof (λ p n, select_hung r o i d v p n Hi Hh Hv) as Hsel.
  split_and!; [apply wp_blocked, Hsel|apply wp_blocked, Hsel|apply wp_blocked, Hsel|apply wp_blocked, Hsel| |].
  - unfold cmd_reset. cbn [cm_bind cm_ret negb]. apply wp_blocked. unfold cmd_stop. apply wp_bind. eapply wp_mono; [apply Hsel|].
    intros res w [Hw [e ->]]. eauto.
  - unfold cmd_status. unfold cm_bind at 1, cm_get at 1. cbn [fst]. destruct (reg_nodes r) as [|n nodes] eqn:En; [done|].
    apply wp_blocked. unfold status_report. wp_steps. eapply wp_mono; [eapply refresh_hung; [by rewrite En|done]|].
    intros res w [Hw [e ->]]. cbn. eauto.
Qed.
End hung.

(** ** Removal spares what runs *)

Section removal.
Context `{Semver, ServiceTexts, MgrTexts} {Os : Type}.
Context `{!ServiceControl Os, !FileSystem Os, !Paths, !RegistryJson, !ManagerPaths Os, !AntNodeClient Os, !ReleaseRepo Os, !CommandEnv Os, !ProcessTable Os}.

(** What a removal looks at: the name, the binary and the directories. *)
Definition sid (d : NodeServiceData) : bytes * bytes * bytes * bytes := (n_service_name d, n_antnode_path d, n_data_dir_path d, n_log_dir_path d).

(** Another service: no name and no directory in common. *)
Definition separate (d e : NodeServiceData) : Prop :=
  n_service_name e ≠ n_service_name d ∧
  n_data_dir_path e ≠ n_data_dir_path d ∧ n_data_dir_path e ≠ n_log_dir_path d ∧ n_log_dir_path e ≠ n_data_dir_path d ∧ n_log_dir_path e ≠ n_log_dir_path d.

(** A fact about the system that the removal of other services and the registry's file do not touch. *)
Definition untouched (d : NodeServiceData) (I : Os → Prop) : Prop :=
  (∀ name user o, name ≠ n_service_name d → I o → I (control_uninstall name user o).2) ∧
  (∀ path o, path ≠ n_data_dir_path d → path ≠ n_log_dir_path d → I o → I (fs_remove_dir_all path o).2) ∧
  (∀ r o, I o → I (registry_save r o).2).

Lemma refresh_keeps_sid full r o : wp (refresh_node_registry full false) (λ _ w,
  ∀ k dk, reg_nodes r !! k = Some dk → ∃ dk', reg_nodes w.1 !! k = Some dk' ∧ sid dk' = sid dk ∧ (n_status dk' = SS_Removed → n_status dk = SS_Removed)) (r, o).
Proof.
  set (P := λ (_ : nat) (w : NodeRegistry * Os), ∀ k dk, reg_nodes r !! k = Some dk →
    ∃ dk', reg_nodes w.1 !! k = Some dk' ∧ sid dk' = sid dk ∧ (n_status dk' = SS_Removed → n_status dk = SS_Removed)).
  eapply wp_mono; [apply (refresh_wp full false r o P (λ _ w, P 0%nat w))|]; [by intros k dk Hk; exists dk| |by intros [[]|e] w].
  intros i [r1 o1] Hi HP. destruct (lookup_lt_is_Some_2 _ _ Hi) as [d0 Hd0]. destruct (HP _ _ Hd0) as (d1 & Hd1 & Hsid & Hst).
  eapply wp_at_node; [exact Hd1|].
  assert (∀ d2 o2, sid d2 = sid d1 → (n_status d2 = SS_Removed → n_status d1 = SS_Removed) → P 0%nat (reg_with_nodes r1 (<[i := d2]> (reg_nodes r1)), o2)) as Hput.
  { intros d2 o2 Hs2 Ht2 k dk Hk. cbn [fst reg_nodes reg_with_nodes]. destruct (decide (k = i)) as [->|Hne]; [|rewrite list_lookup_insert_ne by done; by apply HP].
    exists d2. apply lookup_lt_Some in Hd1. rewrite list_lookup_insert_eq by done. assert (dk = d0) as -> by congruence. split_and!; [done|congruence|auto]. }
  apply refresh_node_spec.
  - intros pid Hpid. eapply wp_mono; [apply node_on_start_spec|]. intros [[]|e] [d2 o2]; cbn [fst snd]; [|by intros ->; apply Hput].
    intros (addrs & port & peers & id & v & ->). by apply Hput.
  - intros _. apply Hput; unfold without_process; cbn [n_status clear_reward_balance nsd_set]; destruct (n_status d1) eqn:Es; cbn; rewrite ?Es; done.
Qed.

Lemma remove_running client timeout keep d o :
  n_status d = SS_Running → (∃ pid, process_of (n_antnode_path d) o pid) →
  manager_remove (ServiceStateActions0 := node_service client timeout) keep (d, o) = (Err (ME_ServiceAlreadyRunning [n_service_name d]), (d, o)).
Proof.
  intros Hst [pid Hp]. destruct (find_process_complete _ _ _ Hp) as [q Hq]. unfold manager_remove, process_found, cm_bind, cm_get, cm_try, cm_on_snd.
  cbn [fst snd service_status node_service bin_path]. rewrite bool_decide_true by done. rewrite pt_pid. cbn [fst snd]. by destruct (find_process_pid _ _).
Qed.

(** The removal of another service. *)
Lemma remove_other client timeout keep d0 (I : Os → Prop) d o :
  untouched d0 I → separate d0 d → I o →
  wp (manager_remove (ServiceStateActions0 := node_service client timeout) keep) (λ _ w, I w.2 ∧ sid w.1 = sid d) (d, o).
Proof.
  intros (Hun & Hdir & _) (Hname & Hd1 & Hd2 & Hl1 & Hl2) Ho. unfold manager_remove. wp_steps. cbn [fst snd service_status node_service].
  apply (wp_mono _ (λ r w, I w.2 ∧ sid w.1 = sid d ∧ ∀ u : (), r = Ok u → w.1 = d)).
  { case_bool_decide; [|by wp_steps]. unfold process_found. wp_steps. cbn [fst snd bin_path]. unfold wp at 1. rewrite pt_pid. cbn [fst snd].
    wp_steps. destruct (is_ok _); unfold tell; wp_steps; cbn [fst snd on_stop]; split_and!; done. }
  intros [[]|e] [d' o1]; cbn [fst snd]; [|tauto]. intros (H1' & _ & Hd'). rewrite (Hd' () eq_refl). clear Hd' d'. wp_steps. unfold wp at 1. cbn [fst snd].
  specialize (Hun (n_service_name d) (n_user_mode d) o1 Hname H1'). cbn [service_name is_user_mode node_service].
  destruct (control_uninstall _ _ o1) as [res o2]. cbn [fst snd] in *. wp_steps.
  apply (wp_mono _ (λ r w, I w.2 ∧ w.1 = d)); [by destruct res as [[]|[]]; wp_steps|].
  intros [[]|e] [d' o3]; cbn [fst snd]; intros [Ho3 ->]; [|done]. wp_steps.
  assert (∀ path o (Q : result () MgrError → NodeServiceData * Os → Prop), path ≠ n_data_dir_path d0 → path ≠ n_log_dir_path d0 → I o →
    (∀ r o', I o' → Q r (d, o')) → wp (remove_dir_if_exists path) Q (d, o)) as Hrm.
  { intros path o4 Q Hp1 Hp2 Ho4 HQ. unfold remove_dir_if_exists. wp_steps. cbn [fst snd]. destruct (fs_exists path o4); [|wp_steps; by apply HQ].
    unfold fs_op. wp_steps. unfold wp. apply HQ. by apply Hdir. }
  apply (wp_mono _ (λ r w, I w.2 ∧ w.1 = d)).
  { destruct keep; [by wp_steps|]. wp_steps. apply Hrm; [done|done|done|]. intros [[]|e] o4 Ho4; [|done]. by apply Hrm. }
  intros [[]|e] [d' o5]; cbn [fst snd]; intros [Ho5 ->]; [|done]. unfold tell. by wp_steps.
Qed.

(** The state of a removal: the fact holds, the node is running, the others are the services they were. *)
Definition spared (r : NodeRegistry) (i : nat) (d : NodeServiceData) (I : Os → Prop) (w : NodeRegistry * Os) : Prop :=
  I w.2 ∧ (∃ d', reg_nodes w.1 !! i = Some d' ∧ sid d' = sid d ∧ n_status d' = SS_Running) ∧
  ∀ k dk, reg_nodes w.1 !! k = Some dk → k ≠ i → ∃ d0, reg_nodes r !! k = Some d0 ∧ sid dk = sid d0.

Lemma separate_sid d e e' : sid e = sid e' → separate d e → separate d e'.
Proof. unfold sid, separate. intros [= -> _ -> ->]. done. Qed.

Lemma ops_loop_spared r i d I keep services failed w :
  untouched d I → (∀ o, I o → ∃ pid, process_of (n_antnode_path d) o pid) →
  (∀ j dj, reg_nodes r !! j = Some dj → j ≠ i → separate d dj) → spared r i d I w →
  wp (ops_loop (λ i, with_service i None (λ _, manager_remove keep)) (λ _, cm_ret ()) services failed) (λ _ w, spared r i d I w) w.
Proof.
  intros Hun Halive Hsep. revert failed w. induction services as [|k services IH]; intros failed w Hw; cbn [ops_loop]; [by wp_steps|]. wp_steps.
  apply (wp_mono _ (λ _ w, spared r i d I w)).
  - destruct w as [r1 o1]. destruct Hw as (Ho & (d' & Hd' & Hsid & Hst) & Hothers). cbn [fst snd] in *. unfold with_service.
    destruct (reg_nodes r1 !! k) as [dk|] eqn:Ek; [|by unfold wp, at_node; cbn [fst snd]; rewrite Ek; split_and!; eauto].
    eapply wp_at_node; [done|]. destruct (decide (k = i)) as [->|Hne].
    + assert (dk = d') as -> by congruence. unfold wp. cbn [fst snd]. rewrite remove_running; [|done|injection Hsid as _ -> _ _; by apply Halive]. cbn [fst snd].
      rewrite list_insert_id by done. split_and!; [done|by exists d'|done].
    + destruct (Hothers k dk Ek Hne) as (d0 & Hd0 & Hs0).
      assert (separate d dk) as Hsk by (eapply separate_sid; [symmetry; exact Hs0|by eapply Hsep]).
      apply (wp_mono _ (λ _ w, I w.2 ∧ sid w.1 = sid dk)); [unfold wp; cbn [fst snd]; by apply (remove_other _ _ _ d)|].
      intros _ [dk' o2] [Ho2 Hsk']. cbn [fst snd] in *. split_and!; [done|exists d'; cbn; rewrite list_lookup_insert_ne by done; done|].
      intros m dm Hm Hmi. cbn in Hm. destruct (decide (m = k)) as [->|Hmk]; [|rewrite list_lookup_insert_ne in Hm by done; by eapply Hothers].
      apply lookup_lt_Some in Ek as Hlt. rewrite list_lookup_insert_eq in Hm by done. injection Hm as <-. exists d0. split; [done|congruence].
  - intros [[]|e] w1 Hw1; [|by apply IH]. wp_steps. unfold save_registry, svc_op. wp_steps. unfold wp at 1. destruct Hw1 as (Ho1 & Hi1 & Hot1).
    pose proof (proj2 (proj2 Hun) w1.1 w1.2 Ho1) as Hsave. destruct (registry_save w1.1 w1.2) as [[[]|e] o2]; cbn [fst snd map_err] in *; [|done].
    apply IH. done.
Qed.

(** The command that removes services never touches one that runs. If a process of a node's binary is
    found, whatever services are named and whatever else fails, no fact about the system is changed that
    the removal of services with other names and directories, and the registry's file, leave alone; in
    particular its directories are not removed; and the node is not marked as removed. *)
Theorem remove_spares_running keep v peer_ids names r o i d (I : Os → Prop) :
  reg_nodes r !! i = Some d → (∀ j dj, reg_nodes r !! j = Some dj → j ≠ i → separate d dj) →
  untouched d I → (∀ o, I o → ∃ pid, process_of (n_antnode_path d) o pid) → I o →
  let '(_, (r', o')) := cmd_remove keep peer_ids names v (r, o) in
  I o' ∧ ∃ d', reg_nodes r' !! i = Some d' ∧ (n_status d' = SS_Removed → n_status d = SS_Removed).
Proof.
  intros Hi Hsep Hun Halive Ho.
  set (Q := λ (_ : result () EyreReport) (w : NodeRegistry * Os), I w.2 ∧ ∃ d', reg_nodes w.1 !! i = Some d' ∧ (n_status d' = SS_Removed → n_status d = SS_Removed)).
  assert (∀ w, spared r i d I w → Q (Ok ()) w) as Hspared.
  { intros w (Hw & (d' & Hd' & _ & Hst) & _). split; [done|]. exists d'. split; [done|]. by rewrite Hst. }
  cut (wp (cmd_remove keep peer_ids names v) Q (r, o)); [unfold wp, Q; by destruct (cmd_remove _ _ _ _ _) as [res [r' o']]|].
  unfold cmd_remove, refresh_and_select. wp_steps.
  eapply wp_mono; [apply wp_and; [apply (refresh_spec (full_refresh_of v) r o)|apply (refresh_keeps_sid (full_refresh_of v) r o)]|].
  intros res [r1 o1]. cbn [fst snd]. intros [(-> & Hlen & Hres) Hkeep]. destruct (Hkeep i d Hi) as (d1 & Hd1 & Hsid1 & Hst1).
  destruct res as [[]|e]; cbn [map_err]; [|by split; [|exists d1]]. wp_steps. cbn [fst snd].
  destruct (Hres i d Hi) as (d1' & Hd1' & Hf). assert (d1' = d1) as -> by congruence. unfold found_as in Hf. destruct (Halive o Ho) as [pid Hp].
  destruct (detect_complete d o pid Hp) as [q Hq]. rewrite Hq in Hf. destruct Hf as [Hrun _].
  assert (spared r i d I (r1, o)) as Hs.
  { split_and!; [done|by exists d1|]. cbn [fst]. intros k dk Hk Hne. destruct (lookup_lt_is_Some_2 (reg_nodes r) k) as [d0 Hd0]; [rewrite <- Hlen; by eapply lookup_lt_Some|].
    destruct (Hkeep k d0 Hd0) as (dk' & Hdk' & Hsk & _). assert (dk' = dk) as -> by congruence. by exists d0. }
  destruct (get_services_for_ops _ _ _ _) as [services|e]; [|by apply Hspared]. wp_steps.
  eapply wp_mono; [by eapply ops_loop_spared|]. intros [failed|e] w Hw; [|by apply Hspared]. wp_steps. by apply Hspared.
Qed.
End removal.

(** ** Added nodes *)

Lemma show_number_inj a b : 0 ≤ a < 10 ^ 20 → 0 ≤ b < 10 ^ 20 → show_number a = show_number b → a = b.
Proof.
  intros Ha Hb E. destruct (show_digits_spec 20 a) as (_ & Va & _); [done|done|]. destruct (show_digits_spec 20 b) as (_ & Vb & _); [done|done|].
  unfold show_number in E. congruence.
Qed.

Lemma node_name_inj a b : 0 ≤ a < 10 ^ 20 → 0 ≤ b < 10 ^ 20 → node_name a = node_name b → a = b.
Proof. intros Ha Hb E. apply show_number_inj; [done|done|]. unfold node_name in E. by apply app_inv_head in E. Qed.

Lemma wrap16_id n : 0 ≤ n < 2 ^ 16 → wrap16 n = n.
Proof. apply Z.mod_small. Qed.

Lemma wrap16_succ n : wrap16 (wrap16 n + 1) = wrap16 (n + 1).
Proof. unfold wrap16. by rewrite Zplus_mod_idemp_l. Qed.

Section additions.
Context `{ServiceTexts} {Os : Type}.
Context `{!ServiceControl Os, !FileSystem Os, !Paths, !RegistryJson, !ManagerPaths Os}.

(** A node as it is added with a number, and with the ports that are given. *)
Definition added_as (options : AddNodeServiceOptions) (number : Z) (node_port metrics_port rpc_port : option Z) (d : NodeServiceData) : Prop :=
  n_service_name d = node_name number ∧ n_number d = number ∧ n_data_dir_path d = path_join (a_service_data_dir_path options) (node_name number) ∧
  n_status d = SS_Added ∧ n_pid d = None ∧ n_schema_version d = NODE_SERVICE_DATA_SCHEMA_LATEST ∧
  (∀ p, node_port = Some p → n_node_port d = Some p) ∧ (∀ p, metrics_port = Some p → n_metrics_port d = Some p) ∧
  (∀ p, rpc_port = Some p → (n_rpc_socket_addr d).2 = p).

Lemma choose_ports_spec options node_port metrics_port rpc_port r o : wp (choose_ports options node_port metrics_port rpc_port) (λ res w,
  w.1 = r ∧ ∀ ports, res = Ok ports →
    (∀ p, node_port = Some p → ports.2 = Some p) ∧ (∀ p, metrics_port = Some p → ports.1.2 = Some p) ∧ (∀ p, rpc_port = Some p → ports.1.1 = p)) (r, o).
Proof.
  unfold choose_ports, svc_op. apply wp_bind. apply (wp_mono _ (λ res w, w.1 = r ∧ ∀ q, res = Ok q → ∀ p, rpc_port = Some p → q = p)).
  { destruct rpc_port; wp_steps; [split; [done|]; congruence|]. apply wp_any. intros [q|e] o1; simpl; split; done. }
  intros [q|e] [r1 o1]; cbn [fst snd]; intros [-> Hq]; [|by split]. apply wp_bind.
  apply (wp_mono _ (λ res w, w.1 = r ∧ ∀ q, res = Ok q → ∀ p, metrics_port = Some p → q = Some p)).
  { destruct metrics_port; wp_steps; [split; [done|]; congruence|]. destruct (a_enable_metrics_server options); wp_steps; [|by split].
    apply wp_any. intros [m|e] o2; simpl; wp_steps; split; done. }
  intros [m|e] [r2 o2]; cbn [fst snd]; intros [-> Hm]; [|by split]. apply wp_bind.
  apply (wp_mono _ (λ res w, w.1 = r ∧ ∀ q, res = Ok q → ∀ p, node_port = Some p → q = p)).
  { destruct node_port; wp_steps; [split; [done|]; congruence|]. apply wp_any. intros [n|e] o3; simpl; split; done. }
  intros [n|e] [r3 o3]; cbn [fst snd]; intros [-> Hn]; [|by split]. wp_steps. split; [done|]. intros ports [= <-]. cbn.
  split_and!; [intros p Hp; f_equal; by apply (Hn n)|intros p Hp; by apply (Hm m)|intros p Hp; by apply (Hq q)].
Qed.

Lemma make_dirs_spec options a b c r o : wp (make_node_dirs options a b c) (λ _ w, w.1 = r) (r, o).
Proof.
  unfold make_node_dirs, rep_op, io_op. apply wp_bind. apply (wp_mono _ (λ _ w, w.1 = r)).
  { destruct (a_user options); wp_steps; apply wp_any; intros [[]|e] o1; simpl; try done; wp_steps; by apply wp_any. }
  intros [[]|e] [r1 o1]; cbn [fst snd]; [|done]. intros ->. wp_steps. by apply wp_any.
Qed.

Lemma save_spec r o : wp save_registry (λ _ w, w.1 = r) (r, o).
Proof. unfold save_registry, svc_op. wp_steps. by apply wp_any. Qed.

Lemma add_one_spec options file_name number node_port metrics_port rpc_port r o :
  wp (add_one_node options file_name number node_port metrics_port rpc_port) (λ res w,
    match res with
    | Ok (inl name) => name = node_name number ∧ ∃ d, reg_nodes w.1 = reg_nodes r ++ [d] ∧ added_as options number node_port metrics_port rpc_port d
    | Ok (inr _) => w.1 = r
    | Err _ => True
    end) (r, o).
Proof.
  unfold add_one_node. apply wp_bind. eapply wp_mono; [apply choose_ports_spec|]. intros [ports|e] [r1 o1]; cbn [fst snd]; [|done].
  intros [-> Hports]. destruct (Hports _ eq_refl) as (Hn & Hm & Hr). unfold rep_op. wp_steps. apply wp_any. intros [dir|e] o2; [|done]. cbn [fst snd].
  apply wp_bind. eapply wp_mono; [apply make_dirs_spec|]. intros [[]|e] [r1 o3]; cbn [fst snd]; [|done]. intros ->. wp_steps. cbn [fst snd].
  destruct (builder_build _) as [ctx|e]; [|done]. wp_steps. apply wp_any. intros [[]|e] o4; cbn [fst snd]; [|by wp_steps].
  unfold change_registry. wp_steps. cbn [fst snd]. eapply wp_mono; [apply save_spec|]. intros [[]|e] [r2 o5]; cbn [fst snd]; [|done].
  intros ->. wp_steps. split; [done|]. eexists. split; [done|]. split_and!; done.
Qed.

(** The ports of the nodes at turn [j]. *)
Definition port_at (start : option Z) (j : Z) : option Z := (λ p, wrap16 (p + j)) <$> start.

Lemma port_at_succ start j : increment_port_option (port_at start j) = port_at start (j + 1).
Proof. destruct start as [p|]; [|done]. cbn. f_equal. rewrite wrap16_succ. f_equal. lia. Qed.

Lemma add_loop_spec options file_name n count np mp rp : 0 ≤ n → n + count < 2 ^ 16 - 1 →
  ∀ fuel j added r o, 0 ≤ j ≤ count → count - j < Z.of_nat fuel →
  wp (add_loop fuel options file_name (n + count) (n + 1 + j) (port_at np j) (port_at mp j) (port_at rp j) added []) (λ res w,
    match res with
    | Ok (names, []) => ∃ new, reg_nodes w.1 = reg_nodes r ++ new ∧ Z.of_nat (length new) = count - j ∧ names = added ++ (n_service_name <$> new) ∧
        ∀ k d, new !! k = Some d → added_as options (n + 1 + j + Z.of_nat k) (port_at np (j + Z.of_nat k)) (port_at mp (j + Z.of_nat k)) (port_at rp (j + Z.of_nat k)) d
    | _ => True
    end) (r, o).
Proof.
  intros Hn Hmax fuel. assert (∀ fuel t m a b c added failed w, failed ≠ [] →
    wp (add_loop fuel options file_name t m a b c added failed) (λ res w, match res with Ok (_, []) => False | _ => True end) w) as Hfailed.
  { clear. intros fuel. induction fuel as [|fuel IH]; intros t m a b c added failed w Hf; cbn [add_loop]; [by wp_steps; destruct failed|].
    destruct (m <=? t); [|by wp_steps; destruct failed]. wp_steps. apply wp_any. intros [[name|name]|e] w'; [by apply IH| |done]. apply IH. by destruct failed. }
  induction fuel as [|fuel IH]; intros j added r o Hj Hfuel; [lia|]. cbn [add_loop]. destruct (Z.leb_spec (n + 1 + j) (n + count)) as [Hle|Hgt].
  - wp_steps. eapply wp_mono; [apply add_one_spec|]. intros [[name|name]|e] [r1 o1]; cbn [fst snd]; [| |done].
    + intros (-> & d & Hr1 & Hd). rewrite wrap16_id by lia. rewrite !port_at_succ. replace (n + 1 + j + 1) with (n + 1 + (j + 1)) by lia.
      eapply wp_mono; [apply (IH (j + 1)); lia|]. intros [[names [|f fs]]|e] w; [|done|done]. intros (new & Hw & Hlen & -> & Hnew).
      exists (d :: new). split_and!; [rewrite Hw, Hr1; by rewrite <- app_assoc|simpl; lia|destruct Hd as [<- _]; by rewrite <- app_assoc|].
      intros [|k] dk Hk; [injection Hk as <-; by rewrite !Z.add_0_r|]. replace (n + 1 + j + Z.of_nat (S k)) with (n + 1 + (j + 1) + Z.of_nat k) by lia.
      replace (j + Z.of_nat (S k)) with (j + 1 + Z.of_nat k) by lia. by apply Hnew.
    + intros ->. eapply wp_mono; [by apply Hfailed|]. by intros [[names [|f fs]]|e] w.
  - wp_steps. exists []. split_and!; [by rewrite app_nil_r|simpl; lia|by rewrite app_nil_r|done].
Qed.

(** Ports are numbers of sixteen bits, and ranges do not end before they start. *)
Definition range_ok (p : option PortRange) : Prop :=
  match p with
  | Some (PR_Single q) => 0 ≤ q < 2 ^ 16
  | Some (PR_Range a b) => 0 ≤ a ≤ b ∧ b < 2 ^ 16
  | None => True
  end.

Lemma given_port p count nodes k s :
  check_ports p count nodes = Ok () → range_ok p → 0 ≤ k < count → get_start_port_if_applicable p = Some s →
  port_at (get_start_port_if_applicable p) k = Some (s + k) ∧ (s + k ∉ all_ports nodes).
Proof.
  destruct p as [p|]; [|done]. intros Hc Hr Hk Hs. rewrite Hs. cbn [check_ports] in Hc.
  assert (0 ≤ s + k < 2 ^ 16 ∧ s + k ∈ ports_of p) as [Hb Hin].
  { destruct p as [q|a b]; cbn in Hs, Hr |- *; injection Hs as <-; unfold port_range_validate in Hc.
    - destruct (Z.eqb_spec count 1); [|done]. split; [lia|]. apply list_elem_of_singleton. lia.
    - destruct (Z.eqb_spec count (wrap16 (wrap16 (b - a) + 1))) as [Hcount|]; [|done]. rewrite wrap16_succ in Hcount.
      assert (b - a + 1 ≠ 2 ^ 16) by (intros E; rewrite E in Hcount; change (wrap16 (2 ^ 16)) with 0 in Hcount; lia).
      rewrite wrap16_id in Hcount by lia. split; [lia|]. apply list_elem_of_fmap. exists (Z.to_nat k). split; [lia|]. apply elem_of_seq. lia. }
  cbn. rewrite wrap16_id by lia. split; [done|]. intros Hused.
  destruct (port_range_validate p count) as [[]|e]; [|done]. cbn in Hc. unfold check_port_availability in Hc.
  destruct (list_find _ _) as [[i q]|] eqn:E; [done|]. apply list_find_None in E. rewrite Forall_forall in E. by apply (E _ Hin).
Qed.

(** The nodes are named by their places, as they are when no installation ever failed. *)
Definition numbered (nodes : list NodeServiceData) : Prop := ∀ i d, nodes !! i = Some d → n_service_name d = node_name (Z.of_nat i + 1).

Lemma numbered_distinct nodes : Z.of_nat (length nodes) < 10 ^ 20 - 1 → numbered nodes → NoDup (n_service_name <$> nodes).
Proof.
  intros Hlen Hn. apply NoDup_alt. intros i j x Hi Hj. rewrite list_lookup_fmap in Hi, Hj.
  destruct (nodes !! i) as [a|] eqn:Ei; [|done]. destruct (nodes !! j) as [b|] eqn:Ej; [|done]. cbn in Hi, Hj.
  apply lookup_lt_Some in Ei as Hi', Ej as Hj'. assert (node_name (Z.of_nat i + 1) = node_name (Z.of_nat j + 1)) as E by (rewrite <- (Hn _ _ Ei), <- (Hn _ _ Ej); congruence).
  apply node_name_inj in E; lia.
Qed.

Definition added_result (options : AddNodeServiceOptions) (r : NodeRegistry) (res : result (list bytes) EyreReport) (w : NodeRegistry * Os) : Prop :=
  let count := default 1 (a_count options) in
  ∀ names, res = Ok names →
    check_ports (a_node_port options) count (reg_nodes r) = Ok () ∧ check_ports (a_metrics_port options) count (reg_nodes r) = Ok () ∧
    check_ports (a_rpc_port options) count (reg_nodes r) = Ok () ∧
    ∃ new, reg_nodes w.1 = reg_nodes r ++ new ∧ Z.of_nat (length new) = count ∧ names = n_service_name <$> new ∧
      ∀ k d, new !! k = Some d →
        added_as options (Z.of_nat (length (reg_nodes r)) + 1 + Z.of_nat k) (port_at (get_start_port_if_applicable (a_node_port options)) (Z.of_nat k))
          (port_at (get_start_port_if_applicable (a_metrics_port options)) (Z.of_nat k)) (port_at (get_start_port_if_applicable (a_rpc_port options)) (Z.of_nat k)) d.

Lemma add_node_wp options r o :
  0 ≤ default 1 (a_count options) → Z.of_nat (length (reg_nodes r)) + default 1 (a_count options) < 2 ^ 16 - 1 →
  range_ok (a_node_port options) → range_ok (a_metrics_port options) → range_ok (a_rpc_port options) →
  wp (add_node options) (added_result options r) (r, o).
Proof.
  set (count := default 1 (a_count options)). set (n := Z.of_nat (length (reg_nodes r))). intros Hcount Hmax Rn Rm Rr.
  unfold add_node. wp_steps. cbn [fst snd]. fold count. destruct (check_genesis _ _) as [[]|e]; [|done]. wp_steps.
  destruct (check_ports (a_node_port options) _ _) as [[]|e] eqn:C1; [|done]. wp_steps. destruct (check_ports (a_metrics_port options) _ _) as [[]|e] eqn:C2; [|done]. wp_steps.
  destruct (check_ports (a_rpc_port options) _ _) as [[]|e] eqn:C3; [|done]. wp_steps. destruct (ok_or _ _) as [file_name|e]; [|done]. wp_steps.
  apply (wp_mono _ (λ _ w, reg_nodes w.1 = reg_nodes r)).
  { destruct (a_env_variables options); [|by wp_steps]. unfold change_registry. wp_steps. eapply wp_mono; [apply save_spec|]. by intros res w ->. }
  intros [[]|e] [r1 o1]; cbn [fst snd]; [|done]. intros Hr1. wp_steps. fold n. rewrite (wrap16_id n), !wrap16_id by lia.
  assert (∀ p, range_ok p → port_at (get_start_port_if_applicable p) 0 = get_start_port_if_applicable p) as Hport.
  { intros [[q|a b]|] Hp; cbn in *; rewrite ?Z.add_0_r, ?wrap16_id by lia; done. }
  pose proof (add_loop_spec options file_name n count (get_start_port_if_applicable (a_node_port options)) (get_start_port_if_applicable (a_metrics_port options))
    (get_start_port_if_applicable (a_rpc_port options)) ltac:(lia) ltac:(lia) (S (Z.to_nat count)) 0 [] r1 o1 ltac:(lia) ltac:(lia)) as Hloop.
  rewrite !Hport, Z.add_0_r in Hloop by done. eapply wp_mono; [exact Hloop|].
  intros [[names [|f fs]]|e] w; [| |done]; intros Hres; wp_steps; cbn [fst snd].
  - apply (wp_mono _ (λ _ w', w'.1 = w.1)); [by destruct (a_delete_antnode_src options); unfold io_op; wp_steps; [apply wp_any|]|].
    intros [[]|e] w' Hw'; [|done]. wp_steps. intros ? [= <-]. split_and!; [done|done|done|]. rewrite Hw'. destruct Hres as (new & Hnew & Hlen & -> & Hall). exists new.
    split_and!; [congruence|lia|done|]. intros k d Hk. specialize (Hall k d Hk). by rewrite !Z.add_0_l in Hall.
  - apply (wp_mono _ (λ _ w', True)); [by apply wp_any|]. by intros [[]|e] w' _; wp_steps.
Qed.

(** How nodes are added. In a registry whose nodes are named by their places, an addition that succeeds
    appends as many nodes as were asked for, named and numbered on, so that all names are distinct; they
    have not been started; and where ports are given, the nodes get them one after the other, and none of
    them was in use. *)
Theorem added_nodes_numbered options r o :
  let count := default 1 (a_count options) in
  numbered (reg_nodes r) → 0 ≤ count → Z.of_nat (length (reg_nodes r)) + count < 2 ^ 16 - 1 →
  range_ok (a_node_port options) → range_ok (a_metrics_port options) → range_ok (a_rpc_port options) →
  let '(res, (r', _)) := add_node options (r, o) in
  ∀ names, res = Ok names →
  ∃ new, reg_nodes r' = reg_nodes r ++ new ∧ Z.of_nat (length new) = count ∧ names = n_service_name <$> new ∧
    numbered (reg_nodes r') ∧ NoDup (n_service_name <$> reg_nodes r') ∧
    ∀ k d, new !! k = Some d → n_status d = SS_Added ∧ n_pid d = None ∧
      (∀ s, get_start_port_if_applicable (a_node_port options) = Some s → n_node_port d = Some (s + Z.of_nat k) ∧ (s + Z.of_nat k ∉ all_ports (reg_nodes r))) ∧
      (∀ s, get_start_port_if_applicable (a_metrics_port options) = Some s → n_metrics_port d = Some (s + Z.of_nat k) ∧ (s + Z.of_nat k ∉ all_ports (reg_nodes r))) ∧
      (∀ s, get_start_port_if_applicable (a_rpc_port options) = Some s → (n_rpc_socket_addr d).2 = s + Z.of_nat k ∧ (s + Z.of_nat k ∉ all_ports (reg_nodes r))).
Proof.
  intros count Hnum Hcount Hmax Rn Rm Rr. set (n := Z.of_nat (length (reg_nodes r))) in *.
  pose proof (add_node_wp options r o Hcount Hmax Rn Rm Rr) as Hwp. unfold wp in Hwp. destruct (add_node options (r, o)) as [res [r' o']]. cbn [fst snd] in Hwp. intros names Hres.
  destruct (Hwp names Hres) as (C1 & C2 & C3 & new & Hnew & Hlen & Hnames & Hall). cbn [fst] in Hnew. fold n in Hall. clear Hwp.
  assert (numbered (reg_nodes r')) as Hnum'.
  { rewrite Hnew. intros i d Hi. apply lookup_app_Some in Hi as [Hi|[Hge Hi]]; [by apply Hnum|]. destruct (Hall _ _ Hi) as [-> _]. f_equal. lia. }
  exists new. split_and!; [done|done|done|done|apply numbered_distinct; [|done]|].
  { rewrite Hnew, length_app. lia. }
  intros k d Hk. apply lookup_lt_Some in Hk as Hlt. destruct (Hall k d Hk) as (_ & _ & _ & Hst & Hpid & _ & Pn & Pm & Pr). split_and!; [done|done|..]; intros s Hs.
  - destruct (given_port _ _ _ (Z.of_nat k) s C1 Rn ltac:(lia) Hs) as [Hp Hfree]. split; [by apply Pn|done].
  - destruct (given_port _ _ _ (Z.of_nat k) s C2 Rm ltac:(lia) Hs) as [Hp Hfree]. split; [by apply Pm|done].
  - destruct (given_port _ _ _ (Z.of_nat k) s C3 Rr ltac:(lia) Hs) as [Hp Hfree]. split; [by apply Pr|done].
Qed.
End additions.

(** ** Arguments of an upgraded node *)

Section arguments.
Context `{Semver, ServiceTexts}.

(** The arguments from the configuration of initial peers, one option each. *)
Definition peers_groups (c : InitialPeersConfig) : list (list bytes) :=
  [flag (text "--first") (ip_first c); flag (text "--local") (ip_local c); list_arg (text "--peer") multiaddr_to_string (ip_addrs c);
   list_arg (text "--network-contacts-url") id (ip_network_contacts_url c); flag (text "--ignore-cache") (ip_ignore_cache c);
   opt_arg (text "--bootstrap-cache-dir") id (ip_bootstrap_cache_dir c)].

Lemma flag_length name b : (length (flag name b) ≤ 2)%nat.
Proof. destruct b; simpl; lia. Qed.

Lemma opt_arg_length {A} name (show : A → bytes) o : (length (opt_arg name show o) ≤ 2)%nat.
Proof. destruct o; simpl; lia. Qed.

Lemma list_arg_length {A} name (show : A → bytes) l : (length (list_arg name show l) ≤ 2)%nat.
Proof. destruct l; simpl; lia. Qed.

(** An upgrade installs a node with the arguments it was added with. The service of an added node and
    the one an upgrade builds from what the registry remembers both exist or fail together; they run the
    same binary with the same options and values in another order, and the details of the EVM network
    last; label and user are the same. Whether it starts with the system, its environment and its restart
    policy are not taken from the node but from the upgrade. *)
Theorem upgrade_keeps_arguments options flags number ports data_dir log_dir bin upgrade :
  match builder_build (node_builder options flags number ports data_dir log_dir bin),
        node_build_upgrade_install_context upgrade (node_data options flags number ports data_dir log_dir bin) with
  | Ok c, Ok c' =>
    (∃ groups groups', ic_args c = concat groups ++ evm_args (a_evm_network options) ∧ ic_args c' = concat groups' ++ evm_args (a_evm_network options) ∧
       groups ≡ₚ groups' ∧ Forall (λ g, (length g ≤ 2)%nat) groups) ∧
    ic_program c' = ic_program c ∧ ic_label c' = ic_label c ∧ ic_username c' = ic_username c ∧
    ic_autostart c = a_auto_restart options ∧ ic_autostart c' = uo_auto_restart upgrade ∧ ic_environment c' = uo_env_variables upgrade ∧
    ic_restart_policy c = a_restart_policy options ∧ ic_restart_policy c' = RP_OnSuccess None
  | Err _, Err _ => True
  | _, _ => False
  end.
Proof.
  unfold builder_build, node_build_upgrade_install_context. cbn [b_name node_builder n_service_name node_data].
  destruct (parse_service_label (node_name number)) as [label|e]; [|done]. cbn -[concat app flag opt_arg text evm_args push_arguments_from_initial_peers_config].
  split; [|done].
  set (head := [[text "--rpc"; socket_addr_to_string (default 2130706433 (a_rpc_address options), ports.1.1)]; [text "--root-dir"; data_dir]; [text "--log-output-dest"; log_dir]] ++
    peers_groups (a_init_peers_config options)).
  exists (head ++ [flag (text "--alpha") (a_alpha options); opt_arg (text "--network-id") show_number (a_network_id options); flag (text "--relay") flags.2;
      opt_arg (text "--log-format") log_format_as_str (a_log_format options); flag (text "--no-upnp") flags.1; opt_arg (text "--ip") show_ipv4 (a_node_ip options);
      opt_arg (text "--port") show_number ports.2; opt_arg (text "--metrics-server-port") show_number ports.1.2;
      opt_arg (text "--max-archived-log-files") show_number (a_max_archived_log_files options); opt_arg (text "--max-log-files") show_number (a_max_log_files options);
      [text "--rewards-address"; evm_address_to_string (a_rewards_address options)]; flag (text "--write-older-cache-files") (a_write_older_cache_files options);
      flag (text "--stop-on-upgrade") true]).
  exists (head ++ [opt_arg (text "--log-format") log_format_as_str (a_log_format options); opt_arg (text "--network-id") show_number (a_network_id options);
      flag (text "--no-upnp") flags.1; flag (text "--relay") flags.2; flag (text "--alpha") (a_alpha options); opt_arg (text "--ip") show_ipv4 (a_node_ip options);
      opt_arg (text "--port") show_number ports.2; opt_arg (text "--metrics-server-port") show_number ports.1.2;
      opt_arg (text "--max-archived-log-files") show_number (a_max_archived_log_files options); opt_arg (text "--max-log-files") show_number (a_max_log_files options);
      flag (text "--stop-on-upgrade") true; [text "--rewards-address"; evm_address_to_string (a_rewards_address options)];
      flag (text "--write-older-cache-files") (a_write_older_cache_files options)]).
  unfold push_arguments_from_initial_peers_config, head, peers_groups. split_and!.
  - cbn [app concat]. rewrite ?app_nil_r, <- ?app_assoc. cbn [app]. rewrite <- ?app_assoc. reflexivity.
  - cbn [app concat]. rewrite ?app_nil_r, <- ?app_assoc. cbn [app]. rewrite <- ?app_assoc. reflexivity.
  - apply Permutation_app_head. solve_Permutation.
  - cbn [app]. rewrite !Forall_cons, Forall_nil. split_and!; first [apply flag_length|apply opt_arg_length|apply list_arg_length|simpl; lia|done].
Qed.
End arguments.

(** ** A number of running nodes *)

(** What the command for a number of running nodes does. With too many it stops those that come last in the
    registry; with enough inactive ones it starts the first of them; otherwise it starts all of them, adds
    nodes at no more than the given ports and starts one of these, so that with two or more missing the
    number is not reached. *)
Theorem maintain_plan_exact target port nodes :
  let running := names_with (λ st, bool_decide (st = SS_Running)) nodes in
  let inactive := names_with (λ st, bool_decide (st = SS_Stopped ∨ st = SS_Added)) nodes in
  match maintain_plan target port nodes with
  | MP_Stop names => (length running - length names = target)%nat ∧ names ≠ [] ∧ ∃ kept, running = kept ++ reverse names
  | MP_Start names => (length running + length names = target)%nat ∧ names ≠ [] ∧ ∃ rest, inactive = names ++ rest
  | MP_Add ports names =>
    names = inactive ∧ (length running + length inactive < target)%nat ∧
    (length ports ≤ 1 ∨ length running + length inactive + length ports ≤ target)%nat ∧
    (length running + length inactive + 2 ≤ target → length running + length inactive + min 1 (length ports) < target)%nat
  | MP_Nothing => length running = target
  end.
Proof.
  intros running inactive. unfold maintain_plan. fold running inactive. destruct (Nat.compare_spec (length running) target) as [Heq|Hlt|Hgt]; [done| |].
  - destruct (Nat.leb_spec (target - length running) (length inactive)) as [Hle|Hmore].
    + split_and!; [rewrite length_take; lia| |exists (drop (target - length running) inactive); by rewrite take_drop].
      intros E. apply (f_equal length) in E. rewrite length_take in E. simpl in E. lia.
    + split_and!; [done|lia| |intros; lia]. destruct port as [[q|a b]|]; [left; simpl; lia| |left; simpl; lia]. right. rewrite length_take. lia.
  - set (k := (length running - target)%nat). assert (length (take k (reverse running)) = k) as Hk by (rewrite length_take, length_reverse; lia).
    split_and!; [rewrite Hk; lia|intros E; rewrite E in Hk; simpl in Hk; lia|]. exists (reverse (drop k (reverse running))).
    rewrite <- reverse_app, take_drop. by rewrite reverse_involutive.
Qed.

(** ** The registry's file *)

Section registry_file.
Context {Os : Type} `{!FileSystem Os, !Paths, !RegistryJson}.

(** What is written is read again: serde_json for the data of this version, and files. *)
Class RegistryLaws := {
  node_value : NodeServiceData → json_value;
  law_parse r s : json_of_registry r = Ok s →
    s ≠ [] ∧ json_parse s = Ok (reg_daemon r, reg_environment_variables r, reg_nat_status r, node_value <$> reg_nodes r, reg_save_path r);
  law_schema d : json_schema_version (node_value d) = Some (n_schema_version d);
  law_read_v2 d : json_read_v2 (node_value d) = Ok d;
  law_written p s o o1 o2 : fs_create_file p o = (Ok (), o1) → fs_write_all p s o1 = (Ok (), o2) → fs_exists p o2 = true ∧ fs_read_to_string p o2 = (Ok s, o2);
}.
Context `{!RegistryLaws}.

(** A registry of the latest version that was saved is loaded as it was. *)
Theorem registry_roundtrip r o o' :
  Forall (λ d, n_schema_version d = NODE_SERVICE_DATA_SCHEMA_LATEST) (reg_nodes r) →
  registry_save r o = (Ok (), o') → registry_load (reg_save_path r) o' = (Ok r, o').
Proof.
  intros Hall. unfold registry_save, registry_load, cm_bind, cm_map_err, cm_get, cm_lift.
  set (made := (match path_parent (reg_save_path r) with Some parent => fs_create_dir_all parent | None => cm_ret () end : CM Os bytes ()) o).
  destruct made as [[[]|e] o1]; [|done]. cbn.
  destruct (json_of_registry r) as [s|e] eqn:Es; [|done]. cbn. destruct (fs_create_file _ o1) as [[[]|e] o2] eqn:Ec; [|done]. cbn.
  destruct (fs_write_all _ s o2) as [[[]|e] o3] eqn:Ew; [|done]. cbn. intros [= <-]. destruct (law_written _ _ _ _ _ Ec Ew) as [Hex Hrd]. rewrite Hex. cbn. rewrite Hrd. cbn.
  destruct (law_parse r s Es) as [Hne Hp]. rewrite bool_decide_false by done. unfold registry_from_json. rewrite Hp. cbn. f_equal. clear -Hall.
  assert (foldr (λ v r0, let? n := map_err SE_Json (deserialize_node v) in let? l := r0 in Ok (n :: l)) (Ok []) (node_value <$> reg_nodes r) = Ok (E := SvcError) (reg_nodes r)) as ->;
    [|by destruct r].
  induction Hall as [|d l Hd _ IH]; [done|]. cbn. unfold deserialize_node at 1. rewrite law_schema, Hd. cbn. rewrite law_read_v2. cbn. by rewrite IH.
Qed.
End registry_file.
