(* ===== verification/NodeManagerExamples.v ===== *)
(** * A small system for the node manager

    An operating system of processes, services, directories and files on which the properties of the node
    manager are applied to concrete registries, and on which two sequences of commands show behaviour that
    may surprise. *)

From stdpp Require Import base gmap countable strings list.
From Stdlib Require Import ZArith Lia.
From S2P Require Import Prelude Text Effects Multiaddr BootstrapCache ServiceManagement ServiceManager AddServices NodeCommands ServiceManagerProps NodeCommandsProps.

#[local] Open Scope rust_scope.

(** ** The system *)

Record ToyOs := {
  ty_procs : list (Z * option bytes); ty_services : list (bytes * bytes); ty_dirs : list bytes; ty_files : gmap bytes bytes;
  ty_silent : list bytes; ty_next : Z; ty_bad : list bytes;
}.

Definition ty_set (o : ToyOs) (procs : list (Z * option bytes)) (services : list (bytes * bytes)) (dirs : list bytes) (files : gmap bytes bytes) (next : Z) : ToyOs :=
  {| ty_procs := procs; ty_services := services; ty_dirs := dirs; ty_files := files; ty_silent := ty_silent o; ty_next := next; ty_bad := ty_bad o |}.
Definition ty_with_procs (o : ToyOs) (procs : list (Z * option bytes)) (next : Z) : ToyOs := ty_set o procs (ty_services o) (ty_dirs o) (ty_files o) next.
Definition ty_with_services (o : ToyOs) (services : list (bytes * bytes)) : ToyOs := ty_set o (ty_procs o) services (ty_dirs o) (ty_files o) (ty_next o).
Definition ty_with_dirs (o : ToyOs) (dirs : list bytes) : ToyOs := ty_set o (ty_procs o) (ty_services o) dirs (ty_files o) (ty_next o).
Definition ty_with_files (o : ToyOs) (files : gmap bytes bytes) : ToyOs := ty_set o (ty_procs o) (ty_services o) (ty_dirs o) files (ty_next o).

#[export] Instance toy_paths : Paths :=
  {| path_join a b := a ++ 47 :: b; path_parent _ := None; path_file_name p := last (split_on 47 p); path_eqb a b := bool_decide (a = b) |}.

Definition toy_program (o : ToyOs) (name : bytes) : option bytes := (λ x, x.2.2) <$> list_find (λ x, x.1 = name) (ty_services o).

#[export] Instance toy_control : ServiceControl ToyOs :=
  {| create_service_user _ := cm_ret ();
     get_available_port o := (Ok (ty_next o), ty_with_procs o (ty_procs o) (ty_next o + 1));
     install ctx _ o := if bool_decide (ic_label ctx ∈ ty_bad o) then (Err (SE_Io []), o) else (Ok (), ty_with_services o (ty_services o ++ [(ic_label ctx, ic_program ctx)]));
     get_process_pid p o := (find_process_pid (ty_procs o) p, o);
     get_process_version _ := cm_ret None;
     control_start name _ o :=
       match toy_program o name with
       | Some program => (Ok (), ty_with_procs o (ty_procs o ++ [(ty_next o, Some program)]) (ty_next o + 1))
       | None => (Err (SE_Io []), o)
       end;
     control_stop name _ o :=
       match toy_program o name with
       | Some program => (Ok (), ty_with_procs o (filter (λ x, x.2 ≠ Some program) (ty_procs o)) (ty_next o))
       | None => (Err (SE_Io []), o)
       end;
     control_uninstall name _ o := (Ok (), ty_with_services o (filter (λ x, x.1 ≠ name) (ty_services o)));
     verify_process_by_pid pid name o := (Ok (process_named (ty_procs o) pid name), o);
     control_wait _ o := o |}.

#[export] Instance toy_files : FileSystem ToyOs :=
  {| fs_exists p o := bool_decide (p ∈ ty_dirs o) || bool_decide (is_Some (ty_files o !! p));
     fs_read_to_string p o := (ok_or (ty_files o !! p) [], o);
     fs_create_dir_all p o := (Ok (), ty_with_dirs o (p :: ty_dirs o));
     fs_create_file p o := (Ok (), ty_with_files o (<[p := []]> (ty_files o)));
     fs_write_all p s o := (Ok (), ty_with_files o (<[p := s]> (ty_files o)));
     fs_copy _ _ := cm_ret ();
     fs_remove_file p o := (Ok (), ty_with_files o (delete p (ty_files o)));
     fs_remove_dir_all p o := (Ok (), ty_with_dirs o (filter (λ x, x ≠ p) (ty_dirs o))) |}.

#[export] Instance toy_client : AntNodeClient ToyOs :=
  {| client_connect e o := (if bool_decide (e ∈ ty_silent o) then Err [] else Ok (), o);
     client_node_info _ := cm_ret {| nir_pid := 0; nir_peer_id := [7]; nir_log_dir := []; nir_data_dir := []; nir_bin_version := []; nir_uptime_secs := 0; nir_wallet_balance := 0 |};
     client_network_info _ := cm_ret {| nwr_connected_peers := []; nwr_listeners := [] |};
     client_sleep _ o := o; rpc_peer_id_from_bytes := Ok; rpc_multiaddr_from_str _ := Ok [] |}.

#[export] Instance toy_manager_paths : ManagerPaths ToyOs :=
  {| is_running_as_root _ := false; create_owned_dir _ _ := cm_ret (); get_user_antnode_data_dir := cm_ret (text "/home"); get_service_data_dir_path _ _ := cm_ret (text "/data");
     get_service_log_dir_path _ _ := cm_ret (text "/logs"); get_bootstrap_cache_owner_path _ := cm_ret []; get_node_manager_path := cm_ret (text "/manager");
     get_node_registry_path := cm_ret (text "/manager/node_registry.json") |}.

#[export] Instance toy_semver : Semver :=
  {| Version := bytes; version_parse := Ok; version_eqb a b := bool_decide (a = b);
     version_ltb a b := match list_cmp Z.compare a b with Lt => true | _ => false end; version_to_string := id |}.

#[export] Instance toy_service_texts : ServiceTexts :=
  {| multiaddr_to_string _ := []; evm_address_to_string := show_number; parse_service_label := Ok |}.

#[export] Instance toy_mgr_texts : MgrTexts := {| mgr_error_text _ := [] |}.

#[export] Instance toy_release : ReleaseRepo ToyOs :=
  {| release_name := text "antnode"; get_latest_version := cm_ret (text "2"); download_release _ _ := cm_ret []; download_release_from_s3 _ _ _ := cm_ret [];
     extract_release_archive _ _ := cm_ret (text "/tmp/antnode"); get_running_platform := Ok []; create_temp_dir := cm_ret []; run_with_version _ := cm_ret (text "Autonomi Node v2") |}.

#[export] Instance toy_command_env : CommandEnv ToyOs :=
  {| thread_sleep _ o := o; read_line := cm_ret []; fetch_from_env _ := []; parse_peer_id := Some |}.

#[export] Instance toy_process_table : ProcessTable ToyOs.
Proof. by refine {| processes := ty_procs |}. Defined.

(** ** Nodes *)

Definition toy_peers : InitialPeersConfig :=
  {| ip_first := false; ip_addrs := []; ip_network_contacts_url := []; ip_local := false; ip_ignore_cache := false; ip_bootstrap_cache_dir := None |}.

(** Two nodes to be added at ports 100 and 101. *)
Definition toy_options (count : Z) (ports : option PortRange) : AddNodeServiceOptions :=
  {| a_alpha := false; a_antnode_dir_path := text "/data"; a_antnode_src_path := text "/tmp/antnode"; a_auto_restart := true; a_auto_set_nat_flags := false;
     a_count := Some count; a_delete_antnode_src := false; a_enable_metrics_server := false; a_env_variables := None; a_evm_network := ArbitrumOne;
     a_init_peers_config := toy_peers; a_log_format := None; a_max_archived_log_files := None; a_max_log_files := None; a_metrics_port := None; a_network_id := None;
     a_node_ip := None; a_node_port := ports; a_no_upnp := false; a_relay := false; a_restart_policy := RP_Never; a_rewards_address := 9; a_rpc_address := None;
     a_rpc_port := None; a_service_data_dir_path := text "/data"; a_service_log_dir_path := text "/logs"; a_user := None; a_user_mode := true; a_version := text "1";
     a_write_older_cache_files := false |}.

Definition toy_node (number : Z) : NodeServiceData :=
  let name := node_name number in
  node_data (toy_options 1 None) (false, false) number (1000 + number, None, Some (2000 + number)) (text "/data/" ++ name) (text "/logs/" ++ name)
    (text "/data/" ++ name ++ text "/antnode").

(** Registries in which some nodes are recorded are written; an empty one is the text [1]. *)
#[export] Instance toy_json : RegistryJson :=
  {| json_value := NodeServiceData;
     json_of_registry r := match reg_nodes r, reg_daemon r, reg_environment_variables r, reg_nat_status r with [], None, None, None => Ok (1 :: reg_save_path r) | _, _, _, _ => Ok [2] end;
     json_parse s := match s with 1 :: path => Ok (None, None, None, [], path) | _ => Err [] end;
     json_schema_version d := Some (n_schema_version d); json_read_v0 _ := Err []; json_read_v1 _ := Err []; json_read_v2 := Ok |}.

Definition toy_registry (nodes : list NodeServiceData) : NodeRegistry := reg_with_nodes (registry_empty (text "/manager/node_registry.json")) nodes.

Definition toy_os : ToyOs := {| ty_procs := []; ty_services := []; ty_dirs := []; ty_files := ∅; ty_silent := []; ty_next := 50; ty_bad := [] |}.

(** ** The properties at work *)

Lemma service_refines_lifecycle_witness :
  let o := ty_with_services toy_os [(text "antnode1", text "/data/antnode1/antnode")] in
  let '(trace, w) := run_service_ops (ServiceStateActions0 := node_service (from_socket_addr (0, 1)) None) [OpStart; OpStop; OpRemove false] (toy_node 1, o) in
  trace.*2 = [SS_Running; SS_Stopped; SS_Removed] ∧ life_trace SS_Added trace.
Proof.
  intros o. pose proof (service_refines_lifecycle (ServiceStateActions0 := node_service (from_socket_addr (0, 1)) None) [OpStart; OpStop; OpRemove false] (toy_node 1) o
    ltac:(split; [done|by intros [? ?]])) as Ht.
  destruct (run_service_ops _ _) as [trace w] eqn:E. split; [|exact (proj1 Ht)]. vm_compute in E. by injection E as <- _.
Defined.

(** Node 1 runs, with a binary that was replaced; node 2 does not. *)
Lemma refresh_finds_running_witness :
  let o := ty_with_procs toy_os [(7, Some (text "/data/antnode1/antnode (deleted)"))] 50 in
  let r := toy_registry [toy_node 1; toy_node 2] in
  let '(res, (r', o')) := refresh_node_registry true false (r, o) in
  n_status <$> reg_nodes r' = [SS_Running; SS_Added] ∧ o' = o.
Proof.
  intros o r. pose proof (refresh_finds_running true r o) as Ht. destruct (refresh_node_registry true false (r, o)) as [res [r' o']] eqn:E.
  split; [|exact (proj1 Ht)]. vm_compute in E. by injection E as _ <- _.
Defined.

(** Node 1 hangs; node 2 could be stopped, but is not. *)
Lemma hung_node_blocks_commands_witness :
  let o := {| ty_procs := [(7, Some (text "/data/antnode1/antnode")); (8, Some (text "/data/antnode2/antnode"))]; ty_services := []; ty_dirs := []; ty_files := ∅;
              ty_silent := [text "https://127.0.0.1:1001"]; ty_next := 50; ty_bad := [] |} in
  let r := toy_registry [toy_node 1; toy_node 2] in
  ∃ e r', cmd_stop None [] [text "antnode2"] V_Normal (r, o) = (Err e, (r', o)).
Proof.
  intros o r. refine (proj1 (proj2 (hung_node_blocks_commands r o 0 (toy_node 1) V_Normal [] [text "antnode2"] 0 None false false eq_refl _ _))); [|done].
  split; [eexists; vm_compute; reflexivity|exists []; vm_compute; reflexivity].
Defined.

(** Node 1 runs, node 2 does not; both are to be removed. *)
Lemma remove_spares_running_witness :
  let o := {| ty_procs := [(7, Some (text "/data/antnode1/antnode"))]; ty_services := []; ty_dirs := [text "/data/antnode1"; text "/data/antnode2"]; ty_files := ∅;
              ty_silent := []; ty_next := 50; ty_bad := [] |} in
  let r := toy_registry [toy_node 1; toy_node 2] in
  let '(_, (r', o')) := cmd_remove false [] [] V_Normal (r, o) in
  n_status <$> reg_nodes r' = [SS_Running; SS_Removed] ∧ text "/data/antnode1" ∈ ty_dirs o'.
Proof.
  intros o r. set (I := λ o' : ToyOs, ty_procs o' = ty_procs o ∧ text "/data/antnode1" ∈ ty_dirs o').
  pose proof (remove_spares_running false V_Normal [] [] r o 0 (toy_node 1) I eq_refl) as Ht.
  destruct (cmd_remove false [] [] V_Normal (r, o)) as [res [r' o']] eqn:E. split; [vm_compute in E; by injection E as _ <- _|].
  refine (proj2 (proj1 (Ht _ _ _ _))).
  - intros [|[|j]] dj Hj Hne; [done|injection Hj as <-; vm_compute; split_and!; done|done].
  - split_and!; [done| |]. 2: (intros r1 o1 Hi; unfold registry_save, cm_bind, cm_map_err, cm_lift; cbn; by destruct (reg_nodes r1), (reg_daemon r1), (reg_environment_variables r1), (reg_nat_status r1)).
    intros p o1 Hp1 Hp2 [Hp Hin]. split; [done|].
    refine (proj2 (list_elem_of_filter _ _ _) (conj _ Hin)). intros Heq. apply Hp1. rewrite <- Heq. vm_compute. reflexivity.
  - intros o1 [Hp _]. exists 7. exists (Some (text "/data/antnode1/antnode")). cbn [processes toy_process_table]. rewrite Hp. split; [left|vm_compute; reflexivity].
  - split; [done|left].
Defined.

(** Two nodes are added to one at ports 100 and 101. *)
Lemma added_nodes_numbered_witness :
  let r := toy_registry [toy_node 1] in
  let '(res, (r', _)) := add_node (toy_options 2 (Some (PR_Range 100 101))) (r, toy_os) in
  n_service_name <$> reg_nodes r' = [text "antnode1"; text "antnode2"; text "antnode3"] ∧ numbered (reg_nodes r').
Proof.
  intros r. pose proof (added_nodes_numbered (toy_options 2 (Some (PR_Range 100 101))) r toy_os) as Ht. cbv zeta in Ht.
  destruct (add_node _ (r, toy_os)) as [res [r' o']] eqn:E.
  assert (∃ names, res = Ok names) as [names Hres] by (vm_compute in E; injection E as <- _ _; by eexists).
  split; [vm_compute in E; by injection E as _ <- _|].
  destruct (Ht ltac:(by intros [|i] d Hd; [injection Hd as <-|done]) ltac:(cbn; lia) ltac:(cbn; lia) ltac:(cbn; lia) ltac:(done) ltac:(done) names Hres)
    as (new & _ & _ & _ & Hnum & _). exact Hnum.
Defined.

(** ** Behaviour that may surprise *)

(** After an installation that failed, names are given again: of three nodes the second fails, and one that
    is added later gets the name and the directories of the third. *)
Theorem failed_add_repeats_name :
  let o := {| ty_procs := []; ty_services := []; ty_dirs := []; ty_files := ∅; ty_silent := []; ty_next := 50; ty_bad := [text "antnode2"] |} in
  let '(_, w1) := add_node (toy_options 3 None) (toy_registry [], o) in
  let '(res, (r, _)) := add_node (toy_options 1 None) w1 in
  res = Ok [text "antnode3"] ∧ n_service_name <$> reg_nodes r = [text "antnode1"; text "antnode3"; text "antnode3"].
Proof. vm_compute. done. Qed.

(** A process id that is stored for a node and now belongs to another node's process counts as the node's. *)
Theorem stale_pid_marks_running :
  let stale := nsd_set (toy_node 1) None None None None (Some 7) (text "1") SS_Running None in
  let o := ty_with_procs toy_os [(7, Some (text "/data/antnode2/antnode"))] 50 in
  let '(res, (r, _)) := refresh_node_registry false false (toy_registry [stale; toy_node 2], o) in
  res = Ok () ∧ (λ d, (n_status d, n_pid d)) <$> reg_nodes r = [(SS_Running, Some 7); (SS_Running, Some 7)].
Proof. vm_compute. done. Qed.
