(* ===== verification/Upgrade.v ===== *)
(** * Upgrades of a running node

    Models src/ant-node/src/bin/antnode/upgrade (mod.rs, release_cache.rs), on unix: a node that finds a
    newer release downloads it once into a directory that the nodes of a machine share, verifies its hash,
    puts it in the place of its own executable and restarts after a delay. The files are a map from paths to
    contents; every operation on them can fail ([io_fails], by its number), and a write or a
    copy that fails leaves anything. Downloads, the unpacking of archives, the api of releases and json are arguments. Waiting for
    locks, permissions and what other processes do meanwhile are left out. *)

From stdpp Require Import base gmap countable strings list.
From Stdlib Require Import ZArith Lia.
From S2P Require Import Prelude Text Effects.

Definition DEFAULT_NETWORK_SIZE : Z := 100000.
Definition CACHE_TTL_SECS : Z := 3600.

(** ** Data *)

(** The errors of error.rs, with [UpgradePanic] for the slice of a hash of fewer than eight bytes, which panics. *)
Inductive UpgradeError :=
  | AlreadyLatest
  | FetchReleaseInfoFailed
  | PlatformBinariesNotFound
  | UpgradeDownloadFailed
  | HashVerificationFailed
  | BinaryReplacementFailed
  | BinaryReplacementRetryExhausted
  | UpgradeLockError
  | UpgradeIo
  | UpgradeSerialization
  | UpgradeRelease
  | UpgradeVersionParsing
  | UpgradePanic.

#[global] Instance UpgradeError_eq_dec : EqDecision UpgradeError.
Proof. solve_decision. Defined.

Record BinaryInfo := { bi_name : bytes; bi_version : bytes; bi_sha256 : bytes }.
Record PlatformBinaries := { pb_platform : bytes; pb_binaries : list BinaryInfo }.
Record AutonomiReleaseInfo := { ri_commit_hash : bytes; ri_platform_binaries : list PlatformBinaries }.

(** The release and when it was cached. *)
Record CachedReleaseInfo := { cri_release_info : AutonomiReleaseInfo; cri_cached_at : Z }.

(** The files, the hash of the running binary once known, and the number of operations so far. *)
Record Machine := {
  mc_files : gmap bytes bytes;
  mc_running_hash : option bytes;
  mc_ops : nat;
}.

Definition mc_with_files (files : gmap bytes bytes) (m : Machine) : Machine :=
  {| mc_files := files; mc_running_hash := mc_running_hash m; mc_ops := mc_ops m |}.

Definition mc_with_hash (hash : bytes) (m : Machine) : Machine :=
  {| mc_files := mc_files m; mc_running_hash := Some hash; mc_ops := mc_ops m |}.

Definition mc_next (m : Machine) : Machine :=
  {| mc_files := mc_files m; mc_running_hash := mc_running_hash m; mc_ops := S (mc_ops m) |}.

Definition dir_join (dir name : bytes) : bytes := dir ++ 47 :: name.

Definition eq_ignore_ascii_case (a b : bytes) : bool := bool_decide (ascii_lower a = ascii_lower b).

(** What lies outside: hashing, failures of the system and what a failed copy leaves, downloads (the name of
    the file they end up in and its content, and whether it is complete), the unpacking of an archive, versions, the api and json. *)
Class UpgradeEnv := {
  sha256_hex : bytes → bytes;
  io_fails : nat → bool;
  io_garbage : nat → bytes;
  download_autonomi : nat → option (bytes * bytes * bool);
  download_s3 : nat → bytes → option (bytes * bytes);
  extract_archive : bytes → option bytes;
  version_parses : bytes → bool;
  latest_release : nat → option AutonomiReleaseInfo;
  cached_to_json : CachedReleaseInfo → bytes;
  cached_from_json : bytes → option CachedReleaseInfo;
}.

(** What the process knows of itself: the path that the system reports for its executable, its pid, the shared
    directory and the platform. *)
Record UpgradePlace := {
  up_current_exe : bytes;
  up_pid : Z;
  up_dir : bytes;
  up_platform : bytes;
}.

(** ** Paths *)

(** Linux appends a suffix to the path of an executable that was replaced. *)
Definition get_current_exe_path (current_exe : bytes) : bytes :=
  if ends_with (text " (deleted)") current_exe then trim_end_matches (text " (deleted)") current_exe
  else current_exe.

(** A file name without its extension: up to its last dot, unless that is its first character. *)
Definition file_stem (name : bytes) : bytes :=
  match rev (split_on 46 name) with
  | _ :: (_ :: _) as before => let stem := join_on 46 (rev (tail before)) in if bool_decide (stem = []) then name else stem
  | _ => name
  end.

Definition with_extension (path extension : bytes) : bytes :=
  let parts := split_on 47 path in
  join_on 47 (removelast parts ++ [file_stem (List.last parts []) ++ 46 :: extension]).

Definition up_exe (place : UpgradePlace) : bytes := get_current_exe_path (up_current_exe place).
Definition up_temp_exe (place : UpgradePlace) : bytes :=
  with_extension (up_exe place) (text "tmp-" ++ show_digits 10 (up_pid place)).

Section upgrade.
Context `{UpgradeEnv}.
Context (place : UpgradePlace).

Local Open Scope cm_scope.

Definition M : Type → Type := CM Machine UpgradeError.

(** ** Files *)

(** An operation that may fail before it does anything. *)
Definition io_step : M unit := λ m, (if io_fails (mc_ops m) then Err UpgradeIo else Ok tt, mc_next m).

(** A question to the outside, which may be answered otherwise each time. *)
Definition outside_world {A} (f : nat → A) : M A := λ m, (Ok (f (mc_ops m)), mc_next m).

Definition fs_exists (p : bytes) : M bool := cm_get (λ m, contains_key p (mc_files m)).

Definition fs_read (p : bytes) : M bytes :=
  let! _ := io_step in
  let! content := cm_get (λ m, mc_files m !! p) in
  cm_lift (ok_or content UpgradeIo).

(** Creating a file and writing it: a failure leaves anything there. *)
Definition fs_write (p content : bytes) : M unit := λ m,
  match io_step m with
  | (Ok _, m) => (Ok tt, mc_with_files (<[p := content]> (mc_files m)) m)
  | (Err e, m) => (Err e, mc_with_files (<[p := io_garbage (mc_ops m)]> (mc_files m)) m)
  end.

Definition fs_remove (p : bytes) : M unit :=
  let! _ := fs_read p in cm_modify (λ m, mc_with_files (delete p (mc_files m)) m).

(** [fs::rename], which is atomic. *)
Definition fs_rename (a b : bytes) : M unit :=
  let! content := fs_read a in cm_modify (λ m, mc_with_files (<[b := content]> (delete a (mc_files m))) m).

(** [fs::copy]: a failure leaves anything in the place of the copy. *)
Definition fs_copy (a b : bytes) : M unit := λ m,
  match fs_read a m with
  | (Ok content, m) => (Ok tt, mc_with_files (<[b := content]> (mc_files m)) m)
  | (Err e, m) => (Err e, mc_with_files (<[b := io_garbage (mc_ops m)]> (mc_files m)) m)
  end.

(** [fs::remove_dir_all]. *)
Definition fs_remove_dir (dir : bytes) : M unit :=
  let! _ := io_step in cm_modify (λ m, mc_with_files (filter (λ kv, starts_with (dir_join dir []) kv.1 = false) (mc_files m)) m).

(** [let _ = ...]: the result is not looked at. *)
Definition ignore (m : M unit) : M unit := λ s, (Ok tt, (m s).2).

(** ** Hashes *)

Definition calculate_sha256 (p : bytes) : M bytes := let! content := fs_read p in cm_ret (sha256_hex content).

Definition verify_binary_hash (p expected_hash : bytes) : M bool :=
  let! actual_hash := calculate_sha256 p in cm_ret (eq_ignore_ascii_case actual_hash expected_hash).

(** The hash of the running binary is computed once. *)
Definition get_running_binary_hash : M bytes :=
  let! known := cm_get mc_running_hash in
  match known with
  | Some hash => cm_ret hash
  | None =>
    let! hash := calculate_sha256 (up_exe place) in
    let! _ := cm_modify (mc_with_hash hash) in
    cm_ret hash
  end.

(** ** The release *)

Definition find_antnode (release_info : AutonomiReleaseInfo) : option BinaryInfo :=
  platform_binaries ← head (filter (λ pb, pb_platform pb = up_platform place) (ri_platform_binaries release_info));
  head (filter (λ b, bi_name b = text "antnode") (pb_binaries platform_binaries)).

Definition get_binary_path_for_version (commit_hash : bytes) : bytes := dir_join (up_dir place) (text "antnode-" ++ commit_hash).

Definition get_release_cache_path : bytes := dir_join (up_dir place) (text "release_info_cache.json").

(** A cache from the future is not valid. *)
Definition cached_is_valid (now : Z) (c : CachedReleaseInfo) : bool :=
  (cri_cached_at c <=? now) && (now - cri_cached_at c <? CACHE_TTL_SECS).

Definition read_cached_release_info (now : Z) : M (option CachedReleaseInfo) :=
  let! exists_ := fs_exists get_release_cache_path in
  if negb exists_ then cm_ret None
  else
    let! contents := fs_read get_release_cache_path in
    match cached_from_json contents with
    | Some cached => cm_ret (if cached_is_valid now cached then Some cached else None)
    | None => let! _ := ignore (fs_remove get_release_cache_path) in cm_ret None
    end.

(** The file of the lock is created if it is missing; whether the lock is got or given up waiting for,
    the operation goes on. *)
Definition acquire_exclusive_lock (lock_path : bytes) : M unit :=
  let! _ := io_step in
  cm_modify (λ m, mc_with_files (if contains_key lock_path (mc_files m) then mc_files m else <[lock_path := []]> (mc_files m)) m).

Definition write_cached_release_info (now : Z) (release_info : AutonomiReleaseInfo) : M unit :=
  let! _ := io_step in
  let! _ := acquire_exclusive_lock (dir_join (up_dir place) (text ".release_info.lock")) in
  fs_write get_release_cache_path (cached_to_json {| cri_release_info := release_info; cri_cached_at := now |} ++ [10]).

Definition fetch_and_cache_release_info (now : Z) : M AutonomiReleaseInfo :=
  let! fetched := outside_world latest_release in
  let! release_info := cm_lift (ok_or fetched UpgradeRelease) in
  let! _ := ignore (write_cached_release_info now release_info) in
  cm_ret release_info.

(** ** Download *)

(** Into the temporary directory, from autonomi.com or else from S3. *)
Definition fetch_archive (antnode_binary : BinaryInfo) (tmp : bytes) : M bytes :=
  let! first := cm_try (let! d := outside_world download_autonomi in
                        let! d := cm_lift (ok_or d UpgradeDownloadFailed) in
                        let! _ := fs_write (dir_join tmp d.1.1) d.1.2 in
                        if d.2 : bool then cm_ret (dir_join tmp d.1.1) else cm_err UpgradeDownloadFailed) in
  match first with
  | Ok archive_path => cm_ret archive_path
  | Err _ =>
    if negb (version_parses (bi_version antnode_binary)) then cm_err UpgradeVersionParsing
    else
      let! d := outside_world (λ n, download_s3 n (bi_version antnode_binary)) in
      let! d := cm_lift (ok_or d UpgradeDownloadFailed) in
      let! _ := cm_map_err (λ _, UpgradeDownloadFailed) (fs_write (dir_join tmp d.1) d.2) in cm_ret (dir_join tmp d.1)
  end.

(** [extract_release_archive]: the binary beside the archive. *)
Definition extract_release_archive (archive_path tmp : bytes) : M bytes :=
  cm_map_err (λ _, UpgradeRelease)
    (let! archive := fs_read archive_path in
     let! binary := cm_lift (ok_or (extract_archive archive) UpgradeRelease) in
     let! _ := fs_write (dir_join tmp (text "antnode")) binary in
     cm_ret (dir_join tmp (text "antnode"))).

Definition download_and_extract_upgrade_binary (release_info : AutonomiReleaseInfo) : M (bytes * bytes) :=
  let! antnode_binary := cm_lift (ok_or (find_antnode release_info) PlatformBinariesNotFound) in
  let sha256 := bi_sha256 antnode_binary in
  let target_path := get_binary_path_for_version (ri_commit_hash release_info) in
  let! present := fs_exists target_path in
  let! verified := (if present : bool then cm_try (verify_binary_hash target_path sha256) else cm_ret (Ok false)) in
  match verified with
  | Ok true => cm_ret (target_path, sha256)
  | _ =>
    let! _ := io_step in
    let! _ := acquire_exclusive_lock (dir_join (up_dir place) (text ".lock")) in
    let! present := fs_exists target_path in
    let! verified := (if present : bool then
                        let! verified := cm_try (verify_binary_hash target_path sha256) in
                        match verified with
                        | Ok true => cm_ret true
                        | _ => let! _ := fs_remove target_path in cm_ret false
                        end
                      else cm_ret false) in
    if verified : bool then cm_ret (target_path, sha256)
    else
      let tmp := dir_join (up_dir place) (text "tmp") in
      let! _ := io_step in
      let! archive_path := fetch_archive antnode_binary tmp in
      let! extracted_path := extract_release_archive archive_path tmp in
      let! ok := verify_binary_hash extracted_path sha256 in
      if negb ok then cm_err HashVerificationFailed
      else
        let! _ := io_step in
        let! _ := fs_rename extracted_path target_path in
        let! _ := ignore (fs_remove_dir tmp) in
        cm_ret (target_path, sha256)
  end.

(** ** Replacement *)

Definition replace_current_binary (new_binary_path expected_hash : bytes) : M unit :=
  let! ok := verify_binary_hash new_binary_path expected_hash in
  if negb ok then cm_err HashVerificationFailed
  else
    let! present := fs_exists (up_exe place) in
    let! current := (if present : bool then cm_try (calculate_sha256 (up_exe place)) else cm_ret (Err UpgradeIo)) in
    if match current with Ok current_hash => bool_decide (current_hash = expected_hash) | Err _ => false end then cm_ret tt
    else
      let! _ := fs_copy new_binary_path (up_temp_exe place) in
      let! _ := io_step in
      fs_rename (up_temp_exe place) (up_exe place).

Definition perform_upgrade (now : Z) : M unit :=
  let! cached := cm_try (read_cached_release_info now) in
  let! release_info := match cached with
                       | Ok (Some cached) => cm_ret (cri_release_info cached)
                       | Ok None | Err _ => fetch_and_cache_release_info now
                       end in
  let! antnode_binary := cm_lift (ok_or (find_antnode release_info) PlatformBinariesNotFound) in
  let! current_hash := get_running_binary_hash in
  if eq_ignore_ascii_case current_hash (bi_sha256 antnode_binary) then cm_err AlreadyLatest
  else if (List.length current_hash <? 8)%nat || (List.length (bi_sha256 antnode_binary) <? 8)%nat then cm_err UpgradePanic
  else
    let! r := download_and_extract_upgrade_binary release_info in
    replace_current_binary r.1 r.2.

(** ** Restart *)

(** The seconds until the restart, from the hash of the peer id (its first eight bytes). *)
Definition calculate_restart_delay (peer_hash : bytes) (est_network_size : option Z) : Z :=
  let est_network_size := default DEFAULT_NETWORK_SIZE est_network_size in
  let hash_value := from_be_bytes (take 8 peer_hash) in
  let time_range_hours := Z.min 72 (est_network_size / DEFAULT_NETWORK_SIZE + 1) in
  hash_value mod (time_range_hours * 3600).

(** ** The loops of the binary *)

Inductive StopResult := StopSuccess | StopUpgradeSuccess | StopError.

(** The commands of the control channel, with their delays in seconds. *)
Inductive NodeCtrl :=
  | CtrlStop (delay : Z) (result : StopResult)
  | CtrlRestart (delay : Z) (retain_peer_id : bool)
  | CtrlUpdate (delay : Z).

Inductive RunNodeOutcome := OutcomeRestart (port : Z) | OutcomeStop | OutcomeUpgradeStop.

Definition upgrade_ctrl (stop_on_upgrade : bool) : NodeCtrl :=
  if stop_on_upgrade then CtrlStop 0 StopUpgradeSuccess else CtrlRestart 0 true.

(** The task that checks for upgrades, with the times of the checks to come; it sends at most one command.
    A panic ends it without one. *)
Fixpoint upgrade_loop (stop_on_upgrade : bool) (checks : list Z) (m : Machine) : option NodeCtrl * Machine :=
  match checks with
  | [] => (None, m)
  | now :: checks =>
    match perform_upgrade now m with
    | (Ok _, m) => (Some (upgrade_ctrl stop_on_upgrade), m)
    | (Err UpgradePanic, m) => (None, m)
    | (Err _, m) => upgrade_loop stop_on_upgrade checks m
    end
  end.

(** The loop over the control channel, until it ends the run; the port may be unknown. *)
Fixpoint control_loop (port : option Z) (ctrls : list NodeCtrl) : result RunNodeOutcome unit :=
  match ctrls with
  | [] => Err tt
  | CtrlRestart _ _ :: _ => match port with Some port => Ok (OutcomeRestart port) | None => Err tt end
  | CtrlStop _ StopSuccess :: _ => Ok OutcomeStop
  | CtrlStop _ StopUpgradeSuccess :: _ => Ok OutcomeUpgradeStop
  | CtrlStop _ StopError :: _ => Err tt
  | CtrlUpdate _ :: ctrls => control_loop port ctrls
  end.
End upgrade.

(** * Properties *)

Create HintDb upgrade.

Section upgrade_props.
Context `{UpgradeEnv}.
Context (place : UpgradePlace).

(** ** What leaves a file alone *)

Definition keeps_file {A} (p : bytes) (op : M A) : Prop := ∀ m, mc_files (op m).2 !! p = mc_files m !! p.

Lemma keeps_file_ret {A} p (a : A) : keeps_file p (cm_ret a).
Proof. done. Qed.

Lemma keeps_file_err {A} p e : keeps_file p (cm_err e : M A).
Proof. done. Qed.

Lemma keeps_file_lift {A} p (r : result A UpgradeError) : keeps_file p (cm_lift r).
Proof. done. Qed.

Lemma keeps_file_get {A} p (f : Machine → A) : keeps_file p (cm_get f : M A).
Proof. done. Qed.

Lemma keeps_file_bind {A B} p (op : M A) (k : A → M B) : keeps_file p op → (∀ a, keeps_file p (k a)) → keeps_file p (cm_bind op k).
Proof.
  intros Hop Hk m. unfold cm_bind. specialize (Hop m). destruct (op m) as [[a|e] m1]; simpl in *; [|done]. by rewrite Hk.
Qed.

Lemma keeps_file_try {A} p (op : M A) : keeps_file p op → keeps_file p (cm_try op : M (result A UpgradeError)).
Proof. intros Hop m. unfold cm_try. specialize (Hop m). by destruct (op m). Qed.

Lemma keeps_file_map_err {A} p (f : UpgradeError → UpgradeError) (op : M A) : keeps_file p op → keeps_file p (cm_map_err f op : M A).
Proof. intros Hop m. unfold cm_map_err. specialize (Hop m). by destruct (op m). Qed.

Lemma keeps_file_ignore p op : keeps_file p op → keeps_file p (ignore op).
Proof. intros Hop m. apply Hop. Qed.

Lemma keeps_file_io p : keeps_file p io_step.
Proof. done. Qed.

Lemma keeps_file_ask {A} p (f : nat → A) : keeps_file p (outside_world f).
Proof. done. Qed.

Lemma keeps_file_exists p q : keeps_file p (fs_exists q).
Proof. done. Qed.

#[local] Hint Resolve keeps_file_ret keeps_file_err keeps_file_lift keeps_file_get keeps_file_bind keeps_file_try keeps_file_map_err keeps_file_ignore keeps_file_io keeps_file_ask keeps_file_exists : upgrade.

Lemma keeps_file_read p q : keeps_file p (fs_read q).
Proof. unfold fs_read. auto 6 with upgrade. Qed.

Lemma keeps_file_write p q content : q ≠ p → keeps_file p (fs_write q content).
Proof.
  intros Hq m. unfold fs_write, io_step. destruct (io_fails (mc_ops m)); simpl; by apply lookup_insert_ne.
Qed.

Lemma keeps_file_remove p q : q ≠ p → keeps_file p (fs_remove q).
Proof. intros Hq. unfold fs_remove. apply keeps_file_bind; [apply keeps_file_read|]. intros _ m. by apply lookup_delete_ne. Qed.

Lemma keeps_file_rename p a b : a ≠ p → b ≠ p → keeps_file p (fs_rename a b).
Proof.
  intros Ha Hb. unfold fs_rename. apply keeps_file_bind; [apply keeps_file_read|]. intros c m. simpl. by rewrite lookup_insert_ne, lookup_delete_ne.
Qed.

Lemma keeps_file_copy p a b : b ≠ p → keeps_file p (fs_copy a b).
Proof.
  intros Hb m. unfold fs_copy. pose proof (keeps_file_read p a m) as Hr. destruct (fs_read a m) as [[c|e] m1]; simpl in *; by rewrite lookup_insert_ne.
Qed.

Lemma keeps_file_remove_dir p dir : starts_with (dir_join dir []) p = false → keeps_file p (fs_remove_dir dir).
Proof.
  intros Hp. unfold fs_remove_dir. apply keeps_file_bind; [apply keeps_file_io|]. intros _ m. simpl.
  destruct (mc_files m !! p) as [c|] eqn:E.
  - by apply map_lookup_filter_Some.
  - apply map_lookup_filter_None. by left.
Qed.

Lemma keeps_file_lock p q : q ≠ p → keeps_file p (acquire_exclusive_lock q).
Proof.
  intros Hq. unfold acquire_exclusive_lock. apply keeps_file_bind; [apply keeps_file_io|]. intros _ m. simpl.
  destruct (contains_key q (mc_files m)); [done|]. by rewrite lookup_insert_ne.
Qed.

Lemma keeps_file_sha p q : keeps_file p (calculate_sha256 q).
Proof. unfold calculate_sha256. apply keeps_file_bind; [apply keeps_file_read|auto with upgrade]. Qed.

Lemma keeps_file_verify p q h : keeps_file p (verify_binary_hash q h).
Proof. unfold verify_binary_hash. apply keeps_file_bind; [apply keeps_file_sha|auto with upgrade]. Qed.

#[local] Hint Resolve keeps_file_read keeps_file_write keeps_file_remove keeps_file_rename keeps_file_copy keeps_file_remove_dir keeps_file_lock keeps_file_sha keeps_file_verify : upgrade.

(** ** Outside of the shared directory *)

Definition outside (p : bytes) : Prop := starts_with (dir_join (up_dir place) []) p = false.

Lemma outside_join p name : outside p → dir_join (up_dir place) name ≠ p.
Proof.
  intros Hp <-. unfold outside in Hp. apply not_true_iff_false in Hp. apply Hp, starts_with_spec. exists name.
  unfold dir_join. by rewrite <- app_assoc.
Qed.

Lemma outside_tmp p name : outside p → dir_join (dir_join (up_dir place) (text "tmp")) name ≠ p.
Proof.
  intros Hp <-. unfold outside in Hp. apply not_true_iff_false in Hp. apply Hp, starts_with_spec. exists (text "tmp" ++ 47 :: name).
  unfold dir_join. by rewrite <- !app_assoc.
Qed.

Lemma outside_tmp_dir p : outside p → starts_with (dir_join (dir_join (up_dir place) (text "tmp")) []) p = false.
Proof.
  unfold outside. rewrite <- !not_true_iff_false, !starts_with_spec. intros Hp [t Ht]. apply Hp. exists (text "tmp" ++ 47 :: t).
  rewrite Ht. unfold dir_join. by rewrite <- !app_assoc.
Qed.

#[local] Hint Resolve outside_join outside_tmp outside_tmp_dir : upgrade.

Ltac keeps_step := first [progress intros | case_match | solve [eauto 5 with upgrade] | simple apply keeps_file_bind].
Ltac keeps_tac := repeat keeps_step.

Lemma keeps_file_cache p now : outside p → keeps_file p (read_cached_release_info place now).
Proof. intros Hp. unfold read_cached_release_info, get_release_cache_path. keeps_tac. Qed.

Lemma keeps_file_fetch p now : outside p → keeps_file p (fetch_and_cache_release_info place now).
Proof.
  intros Hp. unfold fetch_and_cache_release_info. keeps_tac. apply keeps_file_ignore. unfold write_cached_release_info, get_release_cache_path. keeps_tac.
Qed.

(** The same, where it matters what the first operation returned. *)
Lemma keeps_file_bind_res {A B} p (op : M A) (k : A → M B) :
  keeps_file p op → (∀ m a m1, op m = (Ok a, m1) → keeps_file p (k a)) → keeps_file p (cm_bind op k).
Proof.
  intros Hop Hk m. unfold cm_bind. specialize (Hop m). destruct (op m) as [[a|e] m1] eqn:E; simpl in *; [|done]. by rewrite (Hk _ _ _ E).
Qed.

Lemma keeps_file_fetch_archive p b : outside p → keeps_file p (fetch_archive b (dir_join (up_dir place) (text "tmp"))).
Proof. intros Hp. unfold fetch_archive. keeps_tac; apply keeps_file_try; keeps_tac. Qed.

Lemma keeps_file_extract p a : outside p → keeps_file p (extract_release_archive a (dir_join (up_dir place) (text "tmp"))).
Proof. intros Hp. unfold extract_release_archive. apply keeps_file_map_err. keeps_tac. Qed.

Lemma extracted_path a tmp m r m1 : extract_release_archive a tmp m = (Ok r, m1) → r = dir_join tmp (text "antnode").
Proof.
  unfold extract_release_archive, cm_map_err, cm_bind, cm_lift, cm_ret. destruct (fs_read a m) as [[c|e] m2]; [|done].
  destruct (ok_or (extract_archive c) UpgradeRelease) as [b|e]; [|done]. destruct (fs_write _ _ _) as [[[]|e] m3]; [|done].
  by intros [= <- _].
Qed.

#[local] Hint Resolve keeps_file_fetch_archive keeps_file_extract : upgrade.

Lemma keeps_file_download p info : outside p → keeps_file p (download_and_extract_upgrade_binary place info).
Proof.
  intros Hp. unfold download_and_extract_upgrade_binary, get_binary_path_for_version.
  repeat match goal with
  | |- keeps_file _ (cm_bind (extract_release_archive _ _) _) =>
    apply keeps_file_bind_res; [by apply keeps_file_extract|]; intros ? ? ? ->%extracted_path
  | _ => keeps_step
  end.
Qed.

Lemma keeps_file_running_hash p : keeps_file p (get_running_binary_hash place).
Proof. unfold get_running_binary_hash. keeps_tac. Qed.

(** ** What a completed step says of the files *)

Lemma read_ok p m c m1 : fs_read p m = (Ok c, m1) → mc_files m !! p = Some c ∧ mc_files m1 = mc_files m.
Proof.
  unfold fs_read, cm_bind, io_step, cm_get, cm_lift. destruct (io_fails (mc_ops m)); simpl; [done|].
  destruct (mc_files m !! p) as [c'|] eqn:E; simpl; [|done]. by intros [= <- <-].
Qed.

Lemma sha_ok p m h m1 :
  calculate_sha256 p m = (Ok h, m1) → ∃ c, mc_files m !! p = Some c ∧ h = sha256_hex c ∧ mc_files m1 = mc_files m.
Proof.
  unfold calculate_sha256, cm_bind, cm_ret. destruct (fs_read p m) as [[c|e] m2] eqn:E; [|done].
  intros [= <- <-]. apply read_ok in E as [Hc Hm]. eauto.
Qed.

Lemma verify_ok p h m b m1 :
  verify_binary_hash p h m = (Ok b, m1) →
  ∃ c, mc_files m !! p = Some c ∧ b = eq_ignore_ascii_case (sha256_hex c) h ∧ mc_files m1 = mc_files m.
Proof.
  unfold verify_binary_hash, cm_bind, cm_ret. destruct (calculate_sha256 p m) as [[c|e] m2] eqn:E; [|done].
  intros [= <- <-]. apply sha_ok in E as (c' & Hc & -> & Hm). eauto.
Qed.

Lemma copy_ok a b m m1 :
  fs_copy a b m = (Ok (), m1) → ∃ c, mc_files m !! a = Some c ∧ mc_files m1 = <[b := c]> (mc_files m).
Proof.
  unfold fs_copy. destruct (fs_read a m) as [[c|e] m2] eqn:E; [|done]. intros [= <-].
  apply read_ok in E as [Hc Hm]. exists c. simpl. by rewrite Hm.
Qed.

(** A rename happens or changes nothing. *)
Lemma rename_outcome a b m r m1 :
  fs_rename a b m = (r, m1) →
  match r with
  | Ok _ => ∃ c, mc_files m !! a = Some c ∧ mc_files m1 !! b = Some c
  | Err _ => mc_files m1 = mc_files m
  end.
Proof.
  unfold fs_rename, cm_bind, cm_modify. destruct (fs_read a m) as [[c|e] m2] eqn:E; intros [= <- <-].
  - apply read_ok in E as [Hc _]. exists c. split; [done|]. apply lookup_insert_eq.
  - revert E. unfold fs_read, cm_bind, io_step, cm_get, cm_lift. destruct (io_fails (mc_ops m)); simpl; by intros [= _ <-].
Qed.

Lemma eq_ignore_refl h : eq_ignore_ascii_case h h = true.
Proof. by apply bool_decide_eq_true. Qed.

Lemma sha_files p m : mc_files (calculate_sha256 p m).2 = mc_files m.
Proof.
  unfold calculate_sha256, fs_read, cm_bind, io_step, cm_get, cm_lift, cm_ret. destruct (io_fails (mc_ops m)); simpl; [done|].
  by destruct (mc_files m !! p).
Qed.

(** The executable after its replacement is one with the hash asked for, or the one before. *)
Definition installed (exe h : bytes) (m m1 : Machine) (r : result () UpgradeError) : Prop :=
  match r with
  | Ok _ => ∃ c, mc_files m1 !! exe = Some c ∧ eq_ignore_ascii_case (sha256_hex c) h = true
  | Err _ => mc_files m1 !! exe = mc_files m !! exe
  end.

(** The last steps of [replace_current_binary]. *)
Definition swap_in (new : bytes) : M unit :=
  (let! _ := fs_copy new (up_temp_exe place) in let! _ := io_step in fs_rename (up_temp_exe place) (up_exe place))%cm.

Lemma swap_in_ok new h c m r m1 :
  up_temp_exe place ≠ up_exe place → mc_files m !! new = Some c → eq_ignore_ascii_case (sha256_hex c) h = true →
  swap_in new m = (r, m1) → installed (up_exe place) h m m1 r.
Proof.
  intros Hne Hc Hh. unfold swap_in, cm_bind.
  pose proof (keeps_file_copy (up_exe place) new _ Hne m) as Hk. destruct (fs_copy _ _ m) as [[[]|e] m2] eqn:Ec; simpl in Hk.
  2: by intros [= <- <-].
  apply copy_ok in Ec as (c' & Hc' & Hm2). simplify_eq. unfold io_step at 1. destruct (io_fails (mc_ops m2)); [by intros [= <- <-]|].
  intros Hr%rename_outcome. destruct r as [[]|e]; simpl in *.
  - destruct Hr as (c2 & H2 & H3). rewrite Hm2, lookup_insert_eq in H2. simplify_eq. eauto.
  - by rewrite Hr.
Qed.

Lemma replace_outcome new h m r m1 :
  up_temp_exe place ≠ up_exe place → replace_current_binary place new h m = (r, m1) → installed (up_exe place) h m m1 r.
Proof.
  intros Hne. unfold replace_current_binary, cm_bind at 1.
  pose proof (keeps_file_verify (up_exe place) new h m) as Hk. destruct (verify_binary_hash new h m) as [[ok|e] m2] eqn:Ev; [|by intros [= <- <-]].
  simpl in Hk. apply verify_ok in Ev as (c & Hc & -> & Hm2). destruct (eq_ignore_ascii_case _ h) eqn:Hh; simpl; [|by intros [= <- <-]].
  unfold fs_exists, cm_bind at 1, cm_get. unfold cm_bind at 1. fold (swap_in new).
  assert (∀ m3, mc_files m3 = mc_files m → swap_in new m3 = (r, m1) → installed (up_exe place) h m m1 r) as Hswap.
  { intros m3 Hm3 Hr. eapply swap_in_ok in Hr; [|done|by rewrite Hm3|done]. destruct r; simpl in *; [done|]. by rewrite Hr, Hm3. }
  destruct (contains_key _ _); [|by apply Hswap]. unfold cm_try.
  pose proof (sha_files (up_exe place) m2) as Hf. destruct (calculate_sha256 _ m2) as [[cur|e] m3] eqn:Es; simpl in Hf.
  2: apply Hswap; congruence.
  case_bool_decide as Hcur; [|apply Hswap; congruence]. intros [= <- <-].
  apply sha_ok in Es as (c' & Hc' & -> & _). exists c'. rewrite Hf, <- Hcur. split; [done|apply eq_ignore_refl].
Qed.

Lemma running_hash_fits m r m1 : get_running_binary_hash place m = (r, m1) → mc_files m1 !! up_exe place = mc_files m !! up_exe place.
Proof. intros E. pose proof (keeps_file_running_hash (up_exe place) m) as Hk. by rewrite E in Hk. Qed.

(** The hash to check is the one of the release. *)
Definition names_hash (h : bytes) (r : result (bytes * bytes) UpgradeError) (_ : Machine) : Prop := ∀ a, r = Ok a → a.2 = h.

Lemma download_hash info b m : find_antnode place info = Some b → wp (download_and_extract_upgrade_binary place info) (names_hash (bi_sha256 b)) m.
Proof.
  intros Hb. unfold download_and_extract_upgrade_binary. rewrite Hb. cbn [ok_or].
  repeat first [progress wp_steps | case_match | solve [by intros a [= <-]] | solve [by intros a [=]] | apply wp_any; intros ].
Qed.

(** The releases that an upgrade may go by: one validly cached, or one that the api reported. *)
Definition release_known (now : Z) (m : Machine) (info : AutonomiReleaseInfo) : Prop :=
  (∃ content cached, mc_files m !! get_release_cache_path place = Some content ∧ cached_from_json content = Some cached ∧
     cached_is_valid now cached = true ∧ info = cri_release_info cached) ∨
  (∃ n, latest_release n = Some info).

Lemma cached_known now m cached m1 :
  read_cached_release_info place now m = (Ok (Some cached), m1) → release_known now m (cri_release_info cached).
Proof.
  unfold read_cached_release_info, fs_exists, cm_bind at 1, cm_get. destruct (contains_key _ _); [|done]. unfold cm_bind at 1. simpl.
  destruct (fs_read _ m) as [[content|e] m2] eqn:E; [|done]. apply read_ok in E as [Hc _].
  destruct (cached_from_json content) as [c|] eqn:Ec; [|done]. unfold cm_ret. destruct (cached_is_valid now c) eqn:Ev; [|done].
  intros [= <- _]. left. eauto 6.
Qed.

Lemma fetched_known now m m' info m1 :
  fetch_and_cache_release_info place now m' = (Ok info, m1) → release_known now m info.
Proof.
  unfold fetch_and_cache_release_info, cm_bind, outside_world, cm_lift, ignore, cm_ret.
  destruct (latest_release _) as [i|] eqn:E; [|done]. intros [= <- _]. right. eauto.
Qed.

(** ** The upgrade *)

Lemma cached_spec now m : outside (up_exe place) →
  wp (cm_try (read_cached_release_info place now) : M _)
    (λ r m1, mc_files m1 !! up_exe place = mc_files m !! up_exe place ∧
       ∀ cached, r = Ok (Ok (Some cached)) → release_known now m (cri_release_info cached)) m.
Proof.
  intros Hp. apply wp_try. pose proof (keeps_file_cache (up_exe place) now Hp m) as Hk. unfold wp.
  destruct (read_cached_release_info place now m) as [r m1] eqn:E. split; [done|]. intros cached [= ->]. by eapply cached_known.
Qed.

Lemma fetched_spec now m0 m : outside (up_exe place) →
  wp (fetch_and_cache_release_info place now)
    (λ r m1, mc_files m1 !! up_exe place = mc_files m !! up_exe place ∧ ∀ info, r = Ok info → release_known now m0 info) m.
Proof.
  intros Hp. pose proof (keeps_file_fetch (up_exe place) now Hp m) as Hk. unfold wp.
  destruct (fetch_and_cache_release_info place now m) as [r m1] eqn:E. split; [done|]. intros info [= ->]. by eapply fetched_known.
Qed.

Lemma release_spec now m (cached : result (option CachedReleaseInfo) UpgradeError) m1 :
  outside (up_exe place) → mc_files m1 !! up_exe place = mc_files m !! up_exe place →
  (∀ c, cached = Ok (Some c) → release_known now m (cri_release_info c)) →
  wp (match cached with
      | Ok (Some cached) => cm_ret (cri_release_info cached)
      | Ok None | Err _ => fetch_and_cache_release_info place now
      end : M AutonomiReleaseInfo)
    (λ r m2, mc_files m2 !! up_exe place = mc_files m !! up_exe place ∧ ∀ info, r = Ok info → release_known now m info) m1.
Proof.
  intros Hp Hm1 Hc.
  assert (wp (fetch_and_cache_release_info place now)
    (λ r m2, mc_files m2 !! up_exe place = mc_files m !! up_exe place ∧ ∀ info, r = Ok info → release_known now m info) m1) as Hf.
  { eapply wp_mono; [by apply (fetched_spec now m)|]. simpl. intros r m2 [Hm2 Hr]. by rewrite Hm2. }
  destruct cached as [[cached|]|e]; [|done|done]. apply wp_ret. split; [done|]. intros info [= <-]. by apply Hc.
Qed.

Lemma keeps_file_wp {A} p (op : M A) m : keeps_file p op → wp op (λ _ m1, mc_files m1 !! p = mc_files m !! p) m.
Proof. intros Hk. apply Hk. Qed.

(** What an upgrade leaves behind. *)
Definition upgrade_outcome (now : Z) (m : Machine) (r : result () UpgradeError) (m' : Machine) : Prop :=
  match r with
  | Ok _ => ∃ info b c, release_known now m info ∧ find_antnode place info = Some b ∧
      mc_files m' !! up_exe place = Some c ∧ eq_ignore_ascii_case (sha256_hex c) (bi_sha256 b) = true
  | Err _ => mc_files m' !! up_exe place = mc_files m !! up_exe place
  end.

Lemma perform_upgrade_outcome now m :
  outside (up_exe place) → up_temp_exe place ≠ up_exe place → wp (perform_upgrade place now) (upgrade_outcome now m) m.
Proof.
  intros Hp Hne.
  unfold perform_upgrade. apply wp_bind. eapply wp_mono; [by apply cached_spec|]. intros [cached|e] m1 [Hm1 Hc]; [|done].
  apply wp_bind. eapply wp_mono; [apply (release_spec now m); [done..|]; intros c ->; by apply Hc|].
  intros [info|e] m2 [Hm2 Hinfo]; [|done]. specialize (Hinfo _ eq_refl).
  apply wp_bind, wp_lift. destruct (find_antnode place info) as [b|] eqn:Hb; [|done]. cbn [ok_or].
  apply wp_bind. eapply wp_mono; [apply keeps_file_wp, (keeps_file_running_hash (up_exe place))|]. intros [hash|e] m3 Hm3; [|simpl; congruence].
  case_match; [apply wp_err; simpl; congruence|]. case_match; [apply wp_err; simpl; congruence|].
  apply wp_bind. eapply wp_mono; [apply wp_and; [by apply keeps_file_wp, (keeps_file_download (up_exe place))|by apply (download_hash _ b)]|].
  intros [d|e] m4 [Hm4 Hd]; [|simpl; congruence]. rewrite (Hd _ eq_refl).
  unfold wp. destruct (replace_current_binary _ _ _ m4) as [r5 m5] eqn:E. apply replace_outcome in E; [|done].
  destruct r5 as [u|e]; simpl in *; [|congruence]. destruct E as (c & Hex & Hh). eauto 8.
Qed.

(** C32: However many checks for upgrades a process makes, and at whatever operation they fail, its executable
    stays as it was until one succeeds; a restart is asked for only then, and the executable is by then one whose
    hash is the one of the node's binary in a release cached less than an hour before that check, or reported
    by the api. The command ends the run as the process was told to: by a stop or by a new process. *)
Theorem upgrade_installs_verified stop checks m r m' :
  outside (up_exe place) → up_temp_exe place ≠ up_exe place → upgrade_loop place stop checks m = (r, m') →
  match r with
  | Some ctrl =>
    (∀ port rest, control_loop (Some port) (ctrl :: rest) = Ok (if stop then OutcomeUpgradeStop else OutcomeRestart port)) ∧
    ∃ before now after m0 info b c, checks = before ++ now :: after ∧ upgrade_loop place stop before m = (None, m0) ∧
      mc_files m0 !! up_exe place = mc_files m !! up_exe place ∧
      release_known now m0 info ∧ find_antnode place info = Some b ∧
      mc_files m' !! up_exe place = Some c ∧ eq_ignore_ascii_case (sha256_hex c) (bi_sha256 b) = true
  | None => mc_files m' !! up_exe place = mc_files m !! up_exe place
  end.
Proof.
  intros Hp Hne. revert m. induction checks as [|now checks IH]; intros m; cbn [upgrade_loop]; [by intros [= <- <-]|].
  pose proof (perform_upgrade_outcome now m Hp Hne) as Ho. unfold wp in Ho.
  destruct (perform_upgrade place now m) as [[u|e] m1] eqn:E; simpl in Ho.
  - intros [= <- <-]. split; [by destruct stop|]. destruct Ho as (info & b & c & Hk & Hb & Hc & Hh).
    exists [], now, checks, m, info, b, c. by repeat split.
  - destruct (decide (e = UpgradePanic)) as [->|Hpanic]; [by intros [= <- <-]|]. intros Hl.
    assert (upgrade_loop place stop checks m1 = (r, m')) as Hl' by (by destruct e). clear Hl. apply IH in Hl'. rewrite Ho in Hl'.
    destruct r as [ctrl|]; [|done]. destruct Hl' as [Hctrl (before & now' & after & m0 & info & b & c & -> & Hbefore & Hrest)].
    split; [done|]. exists (now :: before), now', after, m0, info, b, c. split; [done|]. split; [|done].
    cbn [upgrade_loop]. rewrite E. by destruct e.
Qed.
End upgrade_props.

(** ** The restart *)

(** The delay is within the window, of an hour for networks below 100,000 nodes and of three days at most. *)
Lemma restart_delay_bounded peer_hash size :
  0 ≤ default DEFAULT_NETWORK_SIZE size →
  0 ≤ calculate_restart_delay peer_hash size < Z.min 72 (default DEFAULT_NETWORK_SIZE size / DEFAULT_NETWORK_SIZE + 1) * 3600.
Proof.
  intros Hs. unfold calculate_restart_delay. apply Z.mod_pos_bound.
  assert (0 ≤ default DEFAULT_NETWORK_SIZE size / DEFAULT_NETWORK_SIZE) by (apply Z.div_pos; [done|by vm_compute]). lia.
Qed.

Lemma small_network_restarts_within_hour peer_hash size :
  0 ≤ size < DEFAULT_NETWORK_SIZE → 0 ≤ calculate_restart_delay peer_hash (Some size) < 3600.
Proof.
  intros Hs. pose proof (restart_delay_bounded peer_hash (Some size)) as Hb. simpl in Hb.
  rewrite (Z.div_small size) in Hb by lia. specialize (Hb ltac:(lia)). lia.
Qed.

(** ** A run *)

Section example.
(** Hashes are the contents with a prefix; an archive is its binary; the api answers late and the first download fails. *)
Definition example_env : UpgradeEnv :=
  {| sha256_hex c := text "sha256--" ++ c;
     io_fails _ := false;
     io_garbage _ := [];
     download_autonomi _ := Some (text "a.zip", text "part", false);
     download_s3 _ _ := Some (text "b.zip", text "new");
     extract_archive a := Some a;
     version_parses _ := true;
     latest_release n := if (n <? 1)%nat then None else Some {| ri_commit_hash := text "c0ffee";
       ri_platform_binaries := [{| pb_platform := text "linux";
         pb_binaries := [{| bi_name := text "antnode"; bi_version := text "0.4.1"; bi_sha256 := text "SHA256--new" |}] |}] |};
     cached_to_json _ := [];
     cached_from_json _ := None |}.

Definition example_place : UpgradePlace :=
  {| up_current_exe := text "/bin/antnode (deleted)"; up_pid := 42; up_dir := text "/data/upgrades"; up_platform := text "linux" |}.

Definition example_machine : Machine := {| mc_files := {[text "/bin/antnode" := text "old"]}; mc_running_hash := None; mc_ops := 0 |}.

Lemma pair_with_fst {A B} (p : A * B) (a : A) : p.1 = a → p = (a, p.2).
Proof. destruct p. by intros [= ->]. Qed.

(** The api is down at the first check. *)
Lemma upgrade_installs_verified_witness :
  let r := @upgrade_loop example_env example_place false [1000; 260200] example_machine in
  r.1 = Some (CtrlRestart 0 true) ∧
  mc_files r.2 !! text "/bin/antnode" = Some (text "new") ∧
  mc_files r.2 !! text "/data/upgrades/antnode-c0ffee" = Some (text "new") ∧
  control_loop (Some 12000) [CtrlRestart 0 true] = Ok (OutcomeRestart 12000).
Proof.
  intros r. assert (r.1 = Some (CtrlRestart 0 true)) as Hr by (by vm_compute). split; [done|]. split; [by vm_compute|]. split; [by vm_compute|].
  apply (@upgrade_installs_verified example_env example_place false [1000; 260200] example_machine (Some (CtrlRestart 0 true)) r.2); [by vm_compute|by vm_compute|].
  by apply pair_with_fst.
Defined.
End example.
